(* ===== verification/_CoqProject ===== *)
-Q . S2P
Prelude.v
MerkleKey.v
NcaTree.v
MerklePlanner.v
MerkleHash.v
FieldHash.v
MerkleProof.v
Spiderman.v
NcaProof.v
Layout.v
LayoutAppend.v
LayoutAbi.v
ContractAbi.v
MemTree.v
LeafUpdates.v
IndexedTree.v
UserId.v
Wire.v
Bls.v
Serialize.v
ByteOrder.v
Codecs.v
RealmFinalize.v
TagTree.v
Qblob.v
BlobFormat.v
BlobRecorder.v
EndCap.v
EndCapEdge.v
EndCapBlob.v
EndCapSlots.v
CoreStore.v
StoreVersions.v
StoreTags.v
StoreTrees.v
TreeHistory.v
TreeWrites.v
Consensus.v
Reassembly.v
RealmRotation.v
JobId.v
TempStore.v
Effects.v
TempDb.v
Validators.v
ValidatorGenesis.v
