(* ===== verification/Prelude.v ===== *)
(** * Psy node: a verification development

    The Psy node is a rollup node in Rust. Users belong to Realms; a Coordinator
    aggregates what the Realms submit into checkpoints. The state of the chain is
    a set of Merkle trees, a block is a set of leaf updates with proofs, and the
    proofs are aggregated pairwise at the nearest common ancestors of the updated
    leaves. A user submits an end cap, the proved summary of a session; the edge
    of the Realm checks it and stores the changed nodes as a blob; the processor
    plans the block, keeps the trees in a database of versioned nodes, and the
    validators of the Realm agree on the result over a network of their own.

    This development covers the deterministic core of that system. All paths
    below are relative to [src/].

    ** Files

    Foundations:
    - [Prelude.v] (this file): machine integers, the [outcome] type and its bind
      notation, state passing, hint databases, lemmas on lists and powers of two.
    - [MerkleHash.v], [FieldHash.v]: [parth_core/src/crypto/hash/traits] and the
      whole-tree routines of [crypto/hash/merkle_proof.rs]; the compression
      function is the class [MerkleHasher], hashing of field elements the class
      [FieldHash].

    Trees and proofs:
    - [MerkleKey.v]: [parth_core/src/data/hash/merkle_node_key.rs] up to the
      aggregation types. [SimpleMerkleNodeKey] is the record of level and index;
      each method is a definition of the same name.
    - [NcaTree.v]: the rest of that file: [generate_nca_tree_v0], [_v1], [_v2],
      the three groupings and [check_nca_tree_groups].
    - [MerklePlanner.v]: [parth_core/src/data/hash/merkle_planner.rs]. A visitor is
      a function on its own state; the three runners thread that state.
    - [MerkleProof.v]: the inclusion and delta proofs of
      [parth_core/src/crypto/hash/merkle_proof.rs] and the routines for
      historical roots of append-only trees.
    - [Spiderman.v]: [parth_core/src/crypto/hash/spiderman.rs], proofs that replace
      an aligned block of leaves.
    - [NcaProof.v]: [parth_core/src/crypto/hash/nca/nca_proof.rs], proofs of two
      updates that meet at their nearest common ancestor.
    - [MemTree.v]: [parth_common/src/memory_stores/mem_tree_v3.rs], a map from keys
      to hashes that stores no empty sub-tree.
    - [IndexedTree.v]: [parth_common/src/memory_stores/indexed_merkle_tree.rs], a
      sorted linked list in the leaves of a [MemTree] store.
    - [TagTree.v]: [parth_core/src/crypto/hash/tag_tree.rs], trees whose inner nodes
      carry a tag.
    - [LeafUpdates.v]: sequences of leaf updates and their delta proofs, shared by
      the layout, end-cap and store files.

    Contracts and users:
    - [Layout.v], [LayoutAppend.v], [LayoutAbi.v]: the three parts of
      [psy_data/src/v1/qdata/contract/layout.rs]: type layouts and type graphs;
      append batches and contract leaves; layouts from a compiler document.
    - [ContractAbi.v]: [psy_data/src/v1/qdata/contract/abi.rs] and the layout that
      [layout.rs] derives from it.
    - [UserId.v]: [psy_core/src/user_id.rs], six bit permutations, each as circuit
      arrangement, native word computation and inverse.

    Formats:
    - [Serialize.v]: [psy_io/src/lib.rs] and [psy_serialize/src/traits], readers,
      writers and the vector codecs; the classes [PsyIOReadWrite] and
      [FastFixedSerializable] with their laws.
    - [ByteOrder.v]: big-endian keys, the byte order of table keys, and ordered
      tables read in that order.
    - [Codecs.v]: the codecs of proofs, GUTA headers, user leaves, end caps and
      state updates in [psy_data/src].
    - [Qblob.v], [BlobFormat.v]: [psy_node_core/src/qblob], headers, node batches,
      recorders; their formats. [BlobRecorder.v]: what the recorders write.
    - [Wire.v]: [psy_data/src/p2p/codec.rs], [limits.rs], [domains.rs], [messages.rs].
    - [Bls.v]: [psy_data/src/p2p/bls.rs] over the class of what it uses of blst.

    The node:
    - [RealmFinalize.v]: [psy_data/src/guta/realm_finalize.rs].
    - [EndCap.v]: the end-cap input of [psy_data/src/proof_input/guta], the check
      [psy_node_common/src/realm/edge/utils/end_cap.rs] and how the planner of the
      realm splits the result. [EndCapEdge.v]: what is accepted. [EndCapBlob.v]:
      what is written and read back. [EndCapSlots.v]: the replayed slot count.
    - [CoreStore.v]: [psy_node_store_memory/src/v2/cbs_store.rs], the core database.
      A store is a record of named tables; an operation is a state-passing function.
      [StoreVersions.v]: versions and rollback. [StoreTags.v]: tag trees in the store.
    - [StoreTrees.v]: [psy_node_core/src/store/traits/helpers.rs] and
      [parth_core/src/crypto/hash/merkle_update_builder.rs]. [TreeHistory.v],
      [TreeWrites.v]: the trees the database holds at each checkpoint.
    - [Consensus.v]: [psy_node_common/src/realm/processor/consensus.rs].
    - [Reassembly.v]: [psy_node_common/src/realm/network/reassembly.rs].
    - [RealmRotation.v]: [parth_common/src/realm_rotation.rs].
    - [JobId.v]: [psy_core/src/job/job_id.rs] and [parth_core/src/job_id_base.rs],
      the identifiers of proving jobs and the rule that aggregates two of them.
    - [TempStore.v]: [psy_node_store_memory/src/temp_store.rs], the queues, rows,
      counters and proofs shared by the parts of a node while a block is built, and
      the row keys of [psy_node_core/src/psy_temp_db/table_identifiers.rs].
    - [Effects.v]: asynchronous handlers as programs of calls, run alone or
      interleaved, on a store that may fail; protocols they follow.
    - [TempDb.v]: [psy_node_core/src/psy_temp_db/v3_implementation/core.rs], the
      typed operations on those rows, as such programs.
    - [Validators.v]: [psy_data/src/p2p/node_id.rs], [validator_leaf.rs],
      [validator_tree.rs] and [psy_node_core/src/p2p/validator_lookup.rs], the
      validators of a realm and their lookup. [ValidatorGenesis.v]: the tree of the
      configured validators, its way into the database, and the typed access of
      [psy_node_core/src/psy_core_db/v3_implementation/full.rs] to it.

    ** What the theorems show

    - Keys: the common-ancestor loop computes the deepest common ancestor and
      terminates exactly on keys that have one; path enumerations, relative
      positions and reward paths agree with ancestry.
    - Aggregation: the planner yields one aggregation per meeting point of
      populated sub-trees, operands first; versions 0 and 1 of the grouping agree
      and pass the checker; version 2 does not. The visitors are called in that
      order with distinct reward keys and never fail on a missing operand.
    - Proofs: every tree leaf has a verifying proof, and a verifying delta,
      Spiderman or common-ancestor proof against the root of a tree describes
      exactly the claimed replacement or exhibits two different pairs with the
      same hash. No injectivity of the hash is assumed.
    - Stores in memory: the memory tree refines a function from leaf indices to
      hashes ([MemTree.rep]); the indexed tree refines a finite map from keys to
      values, its membership and non-membership proofs are complete and sound,
      and it can be restored from its leaves.
    - Layouts: a checked update of a contract leaf keeps the fields it had and
      appends correctly typed ones; type graphs that pass the shape check
      evaluate, or panic when a members tree has height 58 or more; an update
      accepted from a compiler document can be proved when it fits one window; the
      slot analyser and the layout agree on the names of slots.
    - Formats: the codecs write what they announce (indexed-tree updates and what
      contains them one byte more for each) and read it back; bulk and
      element-wise codecs agree; a wire buffer decodes exactly when it is the
      encoding of a well-formed message (the class [Wire.Strict]); blobs of nodes
      read back and combine, and the clip panics on exactly one kind of header.
    - End caps: the check of the edge never panics, accepts all submissions whose
      proofs verify and chain, and no others as long as no proof has more than 64
      siblings; the blob it writes, split by the planner, holds exactly the
      changed nodes of the trees after the submission and the changed indexed
      leaves; the replayed slot count is the number of slots that changed and of
      keys that count by their own changes.
    - Database: the versioned tables refine maps from identifier and checkpoint to
      value; deleting the versions of a rollback restores what was read before;
      the trees written through the helpers are at every checkpoint the trees of
      the leaves written so far, with verifying delta proofs; a replica that
      stores the serialised nodes follows.
    - Consensus: a submission is accepted exactly when it agrees with its
      proposal, honest ones are accepted, enough votes form a certificate that
      validates, and two certificates share a signer.
    - Network: chunks of a body in any order with repetitions never fail, a
      complete body is the body sent, and the book keeps its bound. The proposer
      is a registered validator, the rounds permute the indices, and the seed is
      older than the epoch.
    - Validators: the lookup succeeds exactly on trees in which every occupied slot
      of the realm is authenticated by its preimage; the validators configured at
      genesis, written to a new database, are the validators every realm reads at
      every checkpoint.
    - Temporary data: no two rows of any tables share a key, and the rows of a
      pending id are exactly the ones its cleaning removes; the counters of
      completed jobs are exact under every interleaving of their writers. A job id
      decodes exactly when it is the encoding of a job, and jobs can be aggregated
      along any tree exactly when they are of one kind.

    ** Conventions

    An unsigned integer of width [w] is a [Z]; [wrap w] is its wrap-around in the
    release profile, and shift amounts are reduced modulo 64. A [u8] level that
    the code keeps in range is a [Z] with its bound in the invariant. Vectors are
    lists, hash maps are [gmap], an ordered map is a sorted list or a [gmap] with
    the query the code makes. [outcome] has a value, an error, a panic and
    [Diverge]. Running out of memory is not modelled, except that
    [Layout.padded_merkle_root] panics on a size beyond the address space. Error messages are shortened to a name that tells the errors
    of one function apart. Asynchronous functions of the core database run to their
    end, those of the temporary database are programs of calls between which other
    tasks run ([Effects.v]); a hash map that is drained gives its entries in the order of
    [map_to_list], on which no theorem depends.

    Loops that are not structural take fuel. Loops along a path of the tree take
    255 or 256 steps, the number of values of a [u8] level; loops that halve a
    vector take its length; the recursion over struct types takes one more step
    than there are structs, since the code refuses to enter a struct twice; the
    proof of a tag tree takes as many steps as its level. The theorems state
    that the functions return, so that the fuel is part of what is proved to be
    enough. Out of fuel the result is [Diverge], or [None] in
    [MerkleKey.nca_loop], whose non-termination on malformed keys is proved for
    every fuel.

    The hash compression, the zero-hash tables, field elements and their
    encoding, SHA-256, Zstandard, the peer identities of libp2p, the blst operations,
    the verifier of the proof system, the JSON parser, the LRU cache and the clock are parameters, given as classes or
    section variables with the laws the theorems use. Witnesses instantiate them
    with concrete functions: the free term hash, four integers as a hash, and the
    like.

    ** Not modelled

    - The processors and edges of Realm and Coordinator, the network driver and
      the queues: asynchronous orchestration over external services. Their
      checks, formats and tree updates are modelled where they are functions of
      their inputs.
    - The Scylla, Redis and NATS clients, files and backups: input and output.
    - The circuits, the client prover, Poseidon and secp256k1: code over external
      proof systems and primitives.
    - The construction of proving jobs in the planners, the workers and their
      reputation, the rollback planner, the concurrent and older variants of the
      memory tree: not covered by this version.
    - Random generation, debug printing and the serialisers that derive macros
      generate. *)
From stdpp Require Import prelude gmap strings list fin_maps.
From Stdlib Require Import ZArith Lia.

#[global] Open Scope Z_scope.

(** ** Machine integers

    Rust's fixed-width unsigned integers are modelled as [Z] together with the
    wrap-around of the release profile (the workspace's [profile.release] does
    not enable overflow checks): additions, multiplications and left shifts
    keep the low bits, and a shift amount is reduced modulo the width. *)
Definition wrap (w x : Z) : Z := x mod 2 ^ w.

Definition u64_shl (x n : Z) : Z := wrap 64 (Z.shiftl x (n mod 64)).

Definition u64_shr (x n : Z) : Z := Z.shiftr x (n mod 64).

(** [x] is representable on [w] bits. *)
Definition is_uint (w x : Z) : Prop := 0 ≤ x < 2 ^ w.

#[global] Instance is_uint_dec w x : Decision (is_uint w x).
Proof. unfold is_uint. apply _. Defined.

(** ** Outcomes

    A Rust function that returns [anyhow::Result] and may also panic (a failed
    [assert!], an [unwrap] of [None], an index out of range) ends in one of
    three ways; [Diverge] is the value of a loop or recursion whose fuel ran
    out before it returned. *)
Inductive outcome (A : Type) : Type :=
  | Ok (a : A)
  | Err (msg : string)
  | Panic
  | Diverge.
Arguments Ok {A} a.
Arguments Err {A} msg%_string.
Arguments Panic {A}.
Arguments Diverge {A}.

Definition outcome_bind {A B} (m : outcome A) (f : A → outcome B) : outcome B :=
  match m with
  | Ok a => f a
  | Err e => Err e
  | Panic => Panic
  | Diverge => Diverge
  end.

Declare Scope outcome_scope.
Delimit Scope outcome_scope with outcome.
Notation "'let*' x ':=' m 'in' k" := (outcome_bind m (fun x => k))
  (at level 10, x pattern, m at level 100, k at level 200) : outcome_scope.
#[global] Open Scope outcome_scope.

(** [assert!]: a false condition panics. *)
Definition assert_ (b : bool) : outcome unit := if b then Ok tt else Panic.

(** [Option::unwrap] and indexing. *)
Definition unwrap {A} (o : option A) : outcome A :=
  match o with Some a => Ok a | None => Panic end.

(** [anyhow::ensure!]: a false condition is an error. *)
Definition ensure (b : bool) (msg : string) : outcome unit := if b then Ok tt else Err msg.

(** [Option::ok_or_else]. *)
Definition ok_or {A} (o : option A) (msg : string) : outcome A :=
  match o with Some a => Ok a | None => Err msg end.

(** Checked arithmetic on [w]-bit unsigned integers. *)
Definition checked_add (w x y : Z) : option Z := if x + y <? 2 ^ w then Some (x + y) else None.

Definition checked_mul (w x y : Z) : option Z := if x * y <? 2 ^ w then Some (x * y) else None.

Definition checked_shl (w x n : Z) : option Z := if n <? w then Some (wrap w (Z.shiftl x n)) else None.

(** The remainder panics for a zero divisor. *)
Definition rem (x y : Z) : outcome Z := if y =? 0 then Panic else Ok (x mod y).

(** A fuelled loop that did not return. *)
Definition returns {A} (o : option A) : outcome A :=
  match o with Some a => Ok a | None => Diverge end.

(** ** Stateful computations

    A method that works on a shared state: the outcome, and the state it leaves, also
    when it fails. *)
Definition stateful (S A : Type) : Type := S → outcome A * S.

#[global] Instance stateful_ret {S} : MRet (stateful S) := λ A a s, (Ok a, s).

#[global] Instance stateful_bind {S} : MBind (stateful S) := λ A B f m s,
  match m s with
  | (Ok a, s) => f a s
  | (Err e, s) => (Err e, s)
  | (Panic, s) => (Panic, s)
  | (Diverge, s) => (Diverge, s)
  end.

Definition lift {S A} (o : outcome A) : stateful S A := λ s, (o, s).

(** [Option<Result<_>>::transpose], for a fallible conversion of an optional value. *)
Definition transpose {A B} (f : A → outcome B) (o : option A) : outcome (option B) :=
  match o with None => Ok None | Some a => let* b := f a in Ok (Some b) end.

(** ** Automation *)
Create HintDb psy.

(** Case split on the scrutinee of the innermost [if] or [match]. *)
Ltac case_bool :=
  match goal with
  | |- context [if ?b then _ else _] => let E := fresh "E" in destruct b eqn:E
  | H : context [if ?b then _ else _] |- _ => let E := fresh "E" in destruct b eqn:E
  end.

(** Turn boolean comparisons on [Z] into propositions. *)
Ltac zify_bool :=
  repeat match goal with
  | H : (_ =? _) = true |- _ => apply Z.eqb_eq in H
  | H : (_ =? _) = false |- _ => apply Z.eqb_neq in H
  | H : (_ <? _) = true |- _ => apply Z.ltb_lt in H
  | H : (_ <? _) = false |- _ => apply Z.ltb_ge in H
  | H : (_ <=? _) = true |- _ => apply Z.leb_le in H
  | H : (_ <=? _) = false |- _ => apply Z.leb_gt in H
  | H : (_ >? _) = true |- _ => apply Z.gtb_lt in H
  | H : (_ >? _) = false |- _ => rewrite Z.gtb_ltb in H; apply Z.ltb_ge in H
  | H : (_ >=? _) = true |- _ => apply Z.geb_le in H
  | H : (_ >=? _) = false |- _ => rewrite Z.geb_leb in H; apply Z.leb_gt in H
  end.

(** Take a successful computation apart: every step of a chain of [let*] that
    returned gives its value, every passed test its condition. *)
Lemma outcome_bind_Ok {A B} (m : outcome A) (f : A → outcome B) b :
  outcome_bind m f = Ok b ↔ ∃ a, m = Ok a ∧ f a = Ok b.
Proof. destruct m; simpl; naive_solver. Qed.

Lemma ensure_Ok b msg u : ensure b msg = Ok u ↔ b = true.
Proof. destruct b, u; simpl; naive_solver. Qed.

Lemma assert_Ok b u : assert_ b = Ok u ↔ b = true.
Proof. destruct b, u; simpl; naive_solver. Qed.

Lemma ok_or_Ok {A} (o : option A) msg a : ok_or o msg = Ok a ↔ o = Some a.
Proof. destruct o; simpl; naive_solver. Qed.

Lemma unwrap_Ok {A} (o : option A) a : unwrap o = Ok a ↔ o = Some a.
Proof. destruct o; simpl; naive_solver. Qed.

Lemma checked_add_Some w x y z : checked_add w x y = Some z ↔ z = x + y ∧ x + y < 2 ^ w.
Proof. unfold checked_add. destruct (Z.ltb_spec (x + y) (2 ^ w)); split; [intros [= <-]|intros [-> ?]|done|lia]; auto. Qed.

Lemma checked_mul_Some w x y z : checked_mul w x y = Some z ↔ z = x * y ∧ x * y < 2 ^ w.
Proof. unfold checked_mul. destruct (Z.ltb_spec (x * y) (2 ^ w)); split; [intros [= <-]|intros [-> ?]|done|lia]; auto. Qed.

(** A computation that ends, with a value or an error unless [P] holds; [graceful]:
    no panic, no endless loop. *)
Definition panics_only_if (P : Prop) {A} (o : outcome A) : Prop :=
  match o with Ok _ | Err _ => True | Panic => P | Diverge => False end.

Abbreviation graceful := (panics_only_if False).

Lemma panics_only_if_impl (P Q : Prop) {A} (o : outcome A) : (P → Q) → panics_only_if P o → panics_only_if Q o.
Proof. destruct o; simpl; auto. Qed.

Section graceful.
Context (P : Prop).

Lemma graceful_bind {A B} (m : outcome A) (k : A → outcome B) :
  panics_only_if P m → (∀ a, m = Ok a → panics_only_if P (k a)) → panics_only_if P (let* a := m in k a).
Proof. destruct m; simpl; auto. Qed.

Lemma graceful_Ok {A} (a : A) : panics_only_if P (Ok a).
Proof. done. Qed.

Lemma graceful_ensure b msg : panics_only_if P (ensure b msg).
Proof. by destruct b. Qed.

Lemma graceful_ok_or {A} (o : option A) msg : panics_only_if P (ok_or o msg).
Proof. by destruct o. Qed.

Lemma graceful_unwrap {A} (o : option A) : is_Some o → panics_only_if P (unwrap o).
Proof. by intros [a ->]. Qed.
End graceful.

#[export] Hint Resolve graceful_Ok graceful_ensure graceful_ok_or graceful_unwrap : psy.

(** Walk through a chain of [let*], keeping the conditions that were passed. *)
Ltac graceful :=
  repeat match goal with
  | |- panics_only_if _ (outcome_bind _ _) => apply graceful_bind; [|let a := fresh "a" in let E := fresh "E" in intros a E; simpl]
  | |- panics_only_if _ (if ?b then _ else _) => let E := fresh "E" in destruct b eqn:E
  | |- panics_only_if _ (let '(_, _) := ?p in _) => destruct p
  end; auto with psy.

Ltac outcome_inv :=
  repeat match goal with
  | H : outcome_bind _ _ = Ok _ |- _ =>
      let a := fresh "r" in let E := fresh "E" in
      apply outcome_bind_Ok in H; destruct H as (a & E & H); simpl in H
  | H : ensure _ _ = Ok _ |- _ => apply ensure_Ok in H
  | H : assert_ _ = Ok _ |- _ => apply assert_Ok in H
  | H : ok_or _ _ = Ok _ |- _ => apply ok_or_Ok in H
  | H : unwrap _ = Ok _ |- _ => apply unwrap_Ok in H
  | H : checked_add _ _ _ = Some _ |- _ => apply checked_add_Some in H; destruct H as [-> H]
  | H : checked_mul _ _ _ = Some _ |- _ => apply checked_mul_Some in H; destruct H as [-> H]
  | H : Ok _ = Ok _ |- _ => injection H as H
  | r : unit |- _ => destruct r
  end; try subst; zify_bool.

(** *** Stateful computations *)
Lemma bind_run {S A B} (m : stateful S A) (k : A → stateful S B) s a s' :
  m s = (Ok a, s') → (m ≫= k) s = k a s'.
Proof. intros E. unfold mbind, stateful_bind. by rewrite E. Qed.

Lemma lift_bind {S A B} (a : A) (k : A → stateful S B) s : (lift (Ok a) ≫= k) s = k a s.
Proof. done. Qed.

Lemma ret_run {S A} (a : A) (s : S) : (mret a : stateful S A) s = (Ok a, s).
Proof. done. Qed.

Lemma bind_assoc {S A B C} (m : stateful S A) (f : A → stateful S B) (g : B → stateful S C) s :
  ((m ≫= f) ≫= g) s = (m ≫= λ a, f a ≫= g) s.
Proof. unfold mbind, stateful_bind. by destruct (m s) as [[] ?]. Qed.

(** ** Shared lemmas on integers *)
Lemma pow2_pos n : 0 < 2 ^ Z.of_nat n.
Proof. apply Z.pow_pos_nonneg; lia. Qed.

Lemma pow2_pos_Z n : 0 ≤ n → 0 < 2 ^ n.
Proof. intros; apply Z.pow_pos_nonneg; lia. Qed.

Lemma pow2_mono a b : 0 ≤ a ≤ b → 2 ^ a ≤ 2 ^ b.
Proof. intros; apply Z.pow_le_mono_r; lia. Qed.

Lemma wrap_small w x : 0 ≤ x < 2 ^ w → wrap w x = x.
Proof. intros; unfold wrap; apply Z.mod_small; lia. Qed.

Lemma wrap_range w x : 0 ≤ w → is_uint w (wrap w x).
Proof. intros; unfold wrap, is_uint; apply Z.mod_pos_bound, pow2_pos_Z; lia. Qed.

Lemma u64_shr_small x n : 0 ≤ n < 64 → u64_shr x n = x / 2 ^ n.
Proof. intros; unfold u64_shr. rewrite Z.mod_small, Z.shiftr_div_pow2; lia. Qed.

Lemma u64_shl_small x n :
  0 ≤ n < 64 → 0 ≤ x → x * 2 ^ n < 2 ^ 64 → u64_shl x n = x * 2 ^ n.
Proof.
  intros; unfold u64_shl. rewrite Z.mod_small, Z.shiftl_mul_pow2 by lia.
  apply wrap_small. split; [|lia]. apply Z.mul_nonneg_nonneg; [lia|].
  apply Z.pow_nonneg; lia.
Qed.

Lemma div_pow2_div x a b : 0 ≤ a → 0 ≤ b → x / 2 ^ a / 2 ^ b = x / 2 ^ (a + b).
Proof.
  intros. pose proof (pow2_pos_Z a ltac:(lia)). pose proof (pow2_pos_Z b ltac:(lia)).
  rewrite Z.div_div, Z.pow_add_r by lia. done.
Qed.

(** Disjoint bit fields: [or] is addition. *)
Lemma testbit_small b n i : 0 ≤ b < 2 ^ n → 0 ≤ n ≤ i → Z.testbit b i = false.
Proof.
  intros Hb Hi. rewrite <- (Z.mod_small b (2 ^ n)) by done.
  apply Z.mod_pow2_bits_high. lia.
Qed.

Lemma lor_pow2_add a b n : 0 ≤ n → 0 ≤ b < 2 ^ n → Z.lor (a * 2 ^ n) b = a * 2 ^ n + b.
Proof.
  intros Hn Hb. rewrite <- Z.lxor_lor; [symmetry; apply Z.add_nocarry_lxor|];
    apply Z.bits_inj'; intros i Hi; rewrite Z.land_spec, Z.bits_0;
    (destruct (decide (i < n)) as [Hl|Hl];
      [by rewrite Z.mul_pow2_bits_low by lia|
       by rewrite (testbit_small b n), andb_false_r by lia]).
Qed.

Lemma land_ones_mod x n : 0 ≤ n → Z.land x (2 ^ n - 1) = x mod 2 ^ n.
Proof. intros. rewrite <- Z.land_ones, Z.ones_equiv by lia. done. Qed.

Lemma land_1_even x : (Z.land x 1 =? 0) = Z.even x.
Proof.
  change (Z.land x 1) with (Z.land x (2 ^ 1 - 1)). rewrite land_ones_mod, Zmod_even by lia.
  by destruct (Z.even x).
Qed.

Lemma land_1_odd x : (Z.land x 1 =? 1) = Z.odd x.
Proof.
  change (Z.land x 1) with (Z.land x (2 ^ 1 - 1)). rewrite land_ones_mod, Zmod_odd by lia.
  by destruct (Z.odd x).
Qed.

#[export] Hint Resolve pow2_pos pow2_pos_Z wrap_range : psy.

(** ** Shared lemmas on lists *)
Lemma NoDup_of_submseteq {A} (l k : list A) : l ⊆+ k → NoDup k → NoDup l.
Proof. intros [k' ->]%submseteq_Permutation. by intros [? _]%NoDup_app. Qed.

Lemma elem_of_concat_fmap {A B} (f : A → list B) (l : list A) x :
  x ∈ concat (f <$> l) ↔ ∃ y, y ∈ l ∧ x ∈ f y.
Proof.
  induction l as [|a l IH]; simpl.
  - split; [by intros ?%elem_of_nil|]. intros (y & ?%elem_of_nil & _). done.
  - rewrite elem_of_app, IH. setoid_rewrite elem_of_cons. split.
    + intros [?|(y & ? & ?)]; eauto.
    + intros (y & [->|?] & ?); eauto.
Qed.

Lemma length_concat_fmap_const {A B} (f : A → list B) (l : list A) n :
  (∀ y, length (f y) = n) → length (concat (f <$> l)) = (n * length l)%nat.
Proof.
  intros Hf. induction l as [|a l IH]; [simpl; lia|]. rewrite fmap_cons. cbn [concat length].
  rewrite length_app, Hf, IH. lia.
Qed.

Lemma lookup_nth {A} (l : list A) i d : (i < length l)%nat → l !! i = Some (nth i l d).
Proof.
  intros Hi. destruct (lookup_lt_is_Some_2 l i Hi) as [x Hx]. rewrite Hx. f_equal.
  symmetry. by apply nth_lookup_Some.
Qed.

Lemma nth_replicate_default {A} (d : A) n i : nth i (replicate n d) d = d.
Proof. revert i. induction n as [|n IH]; intros [|i]; simpl; auto. Qed.
