(* ===== verification/MerkleKey.v ===== *)
(** * Merkle node keys

    [parth_core/src/data/hash/merkle_node_key.rs]: the position of a node in a
    binary Merkle tree, as a level counted from the root and an index within
    the level.  Every tree of the node (memory stores, GUTA planners, reward
    trees, proofs) addresses its nodes through these keys. *)
From stdpp Require Import prelude gmap strings list.
From Stdlib Require Import ZArith Lia.
From S2P Require Import Prelude.

(** ** Data *)
Record SimpleMerkleNodeKey : Type := mkKey {
  level : Z;   (* u8 *)
  index : Z    (* u64 *)
}.

#[global] Instance key_eq_dec : EqDecision SimpleMerkleNodeKey.
Proof. solve_decision. Defined.

#[global] Instance key_countable : Countable SimpleMerkleNodeKey.
Proof.
  refine (inj_countable' (fun k => (level k, index k)) (fun p => mkKey p.1 p.2) _).
  by intros [].
Defined.

#[global] Instance key_inhabited : Inhabited SimpleMerkleNodeKey := populate (mkKey 0 0).

Definition JOB_ID_EMPTY_REWARD_PATH_INFO : Z := 0xFFFFFFFFFFFFFFFF.

(** ** Constructors and ranges *)
Definition new_root : SimpleMerkleNodeKey := mkKey 0 0.

Definition from_inds_at_level (level : Z) (indices : list Z) : list SimpleMerkleNodeKey :=
  map (fun i => mkKey level i) indices.

(** [0..count] as the loops run over it. *)
Definition iota (count : nat) : list Z := Z.of_nat <$> seq 0 count.

Definition get_range_at_level (level start_index : Z) (count : nat) : list SimpleMerkleNodeKey :=
  map (fun i => mkKey level (wrap 64 (start_index + i))) (iota count).

Definition get_even_nodes_in_range_at_level (level start_index : Z) (count : nat)
    : list SimpleMerkleNodeKey :=
  map (fun i => mkKey level (wrap 64 (start_index + 2 * i))) (iota count).

Definition get_odd_nodes_in_range_at_level (level start_index : Z) (count : nat)
    : list SimpleMerkleNodeKey :=
  map (fun i => mkKey level (wrap 64 (start_index + 2 * i + 1))) (iota count).

(** [MerkleNodeKeyRange::<N>::new]. *)
Definition key_range_new (N : nat) (level start_index : Z) : list SimpleMerkleNodeKey :=
  map (fun i => mkKey level (wrap 64 (i + start_index))) (iota N).

(** The buffer is an array of [N] keys; the first [min N count] are overwritten. *)
Definition populate_range_at_level_fixed_with_max (buf : list SimpleMerkleNodeKey)
    (level start_index : Z) (count : nat) : list SimpleMerkleNodeKey :=
  get_range_at_level level start_index (Nat.min (length buf) count)
  ++ drop (Nat.min (length buf) count) buf.

Definition populate_range_at_level_fixed (buf : list SimpleMerkleNodeKey)
    (level start_index : Z) : list SimpleMerkleNodeKey :=
  get_range_at_level level start_index (length buf).

(** ** Order: by level, then by index *)
Definition key_cmp (a b : SimpleMerkleNodeKey) : comparison :=
  if negb (level a =? level b) then level a ?= level b else index a ?= index b.

(** ** Navigation *)
Definition first_leaf_for_height (k : SimpleMerkleNodeKey) (height : Z) : SimpleMerkleNodeKey :=
  if height <=? level k then k
  else
    let diff := height - level k in
    mkKey height (wrap 64 (u64_shl 1 diff * index k)).

Definition to_reward_path_info (k : SimpleMerkleNodeKey) : Z :=
  Z.lor (u64_shl (level k) 56) (Z.land (index k) 0x00FFFFFFFFFFFFFF).

Definition from_reward_path_info (reward_path_info : Z) : SimpleMerkleNodeKey :=
  mkKey (wrap 8 (u64_shr reward_path_info 56)) (Z.land reward_path_info 0x00FFFFFFFFFFFFFF).

Definition is_empty_reward_path (k : SimpleMerkleNodeKey) : bool :=
  to_reward_path_info k =? JOB_ID_EMPTY_REWARD_PATH_INFO.

Definition sibling (k : SimpleMerkleNodeKey) : SimpleMerkleNodeKey :=
  mkKey (level k) (Z.lxor (index k) 1).

Definition parent (k : SimpleMerkleNodeKey) : SimpleMerkleNodeKey :=
  if level k =? 0 then k else mkKey (level k - 1) (Z.shiftr (index k) 1).

(** The body of the loops that push the sibling and move to the parent. *)
Fixpoint push_siblings (n : nat) (current : SimpleMerkleNodeKey) : list SimpleMerkleNodeKey :=
  match n with
  | O => []
  | S n' => sibling current :: push_siblings n' (parent current)
  end.

Definition siblings (k : SimpleMerkleNodeKey) : list SimpleMerkleNodeKey :=
  push_siblings (Z.to_nat (level k)) k.

Definition siblings_to_level (k : SimpleMerkleNodeKey) (to_level : Z) : list SimpleMerkleNodeKey :=
  if level k <=? to_level then []
  else push_siblings (Z.to_nat (level k - to_level)) k.

Definition first_leaf_child (k : SimpleMerkleNodeKey) (tree_height : Z) : SimpleMerkleNodeKey :=
  if tree_height <=? level k then k
  else mkKey tree_height (u64_shl (index k) (tree_height - level k)).

Definition left_child (k : SimpleMerkleNodeKey) : SimpleMerkleNodeKey :=
  mkKey (wrap 8 (level k + 1)) (u64_shl (index k) 1).

Definition right_child (k : SimpleMerkleNodeKey) : SimpleMerkleNodeKey :=
  mkKey (wrap 8 (level k + 1)) (wrap 64 (u64_shl (index k) 1 + 1)).

Definition n_th_ancestor (k : SimpleMerkleNodeKey) (levels_above : Z) : SimpleMerkleNodeKey :=
  if level k <=? levels_above then new_root
  else mkKey (level k - levels_above) (u64_shr (index k) levels_above).

(** Panics when the requested level is below the node. *)
Definition parent_at_level (k : SimpleMerkleNodeKey) (l : Z) : option SimpleMerkleNodeKey :=
  if level k <? l then None else Some (n_th_ancestor k (level k - l)).

Definition is_direct_path_related (k other : SimpleMerkleNodeKey) : option bool :=
  if level other =? level k then Some (index k =? index other)
  else if level other <? level k then
    p ← parent_at_level k (level other); Some (index p =? index other)
  else
    p ← parent_at_level other (level k); Some (index p =? index k).

Definition is_on_the_right_of (k other : SimpleMerkleNodeKey) : option bool :=
  if level other =? level k then Some (index other <? index k)
  else if level other <? level k then
    p ← parent_at_level k (level other); Some (index other <? index p)
  else
    p ← parent_at_level other (level k); Some (index p <? index k).

Definition is_to_the_left_of (k other : SimpleMerkleNodeKey) : option bool :=
  if level other =? level k then Some (index k <? index other)
  else if level other <? level k then
    p ← parent_at_level k (level other); Some (index p <? index other)
  else
    p ← parent_at_level other (level k); Some (index k <? index p).

Definition is_left_sibling (k : SimpleMerkleNodeKey) : bool := index k mod 2 =? 0.

Definition is_right_sibling (k : SimpleMerkleNodeKey) : bool := index k mod 2 =? 1.

Definition is_left_node (k : SimpleMerkleNodeKey) : bool := index k mod 2 =? 0.

Definition is_right_node (k : SimpleMerkleNodeKey) : bool := index k mod 2 =? 1.

(** The [while] loop of [find_nearest_common_ancestor]; [None] means that the
    loop has not ended within [fuel] iterations. *)
Fixpoint nca_loop (fuel : nat) (self_current other_current : SimpleMerkleNodeKey)
    : option SimpleMerkleNodeKey :=
  if decide (other_current = self_current) then Some self_current
  else match fuel with
       | O => None
       | S fuel' => nca_loop fuel' (parent self_current) (parent other_current)
       end.

(** A level is a [u8], so 255 iterations reach level 0, where [parent] is the
    identity and further iterations change nothing. *)
Definition find_nearest_common_ancestor (k other : SimpleMerkleNodeKey)
    : option SimpleMerkleNodeKey :=
  let start_level := Z.min (level other) (level k) in
  self_current ← parent_at_level k start_level;
  other_current ← parent_at_level other start_level;
  nca_loop 255 self_current other_current.

(** [while my_node.level != to_level]: push the sibling, move up. *)
Fixpoint siblings_keys_loop (fuel : nat) (my_node : SimpleMerkleNodeKey) (to_level : Z)
    : list SimpleMerkleNodeKey :=
  if level my_node =? to_level then []
  else match fuel with
       | O => []
       | S fuel' => sibling my_node :: siblings_keys_loop fuel' (parent my_node) to_level
       end.

Definition get_siblings_keys_to_height (k : SimpleMerkleNodeKey) (to_level : Z)
    : list SimpleMerkleNodeKey :=
  if level k <? to_level then []
  else siblings_keys_loop 255 k to_level.

Fixpoint above_path_loop (fuel : nat) (my_node : SimpleMerkleNodeKey) (to_level : Z)
    (include_root : bool) : list SimpleMerkleNodeKey :=
  if level my_node =? to_level then (if include_root then [my_node] else [])
  else match fuel with
       | O => []
       | S fuel' => my_node :: above_path_loop fuel' (parent my_node) to_level include_root
       end.

Definition get_above_path_to_height (k : SimpleMerkleNodeKey) (to_level : Z) (include_root : bool)
    : list SimpleMerkleNodeKey :=
  if level k <=? to_level then []
  else above_path_loop 255 (parent k) to_level include_root.

Definition get_above_path_without_root (k : SimpleMerkleNodeKey) : list SimpleMerkleNodeKey :=
  get_above_path_to_height k 0 false.

Definition get_above_path_including_root (k : SimpleMerkleNodeKey) : list SimpleMerkleNodeKey :=
  get_above_path_to_height k 0 true.

(** [while my_node.level > stop_level]: move up, push. *)
Fixpoint path_above_loop (fuel : nat) (my_node : SimpleMerkleNodeKey) (stop_level : Z)
    : list SimpleMerkleNodeKey :=
  if level my_node <=? stop_level then []
  else match fuel with
       | O => []
       | S fuel' => parent my_node :: path_above_loop fuel' (parent my_node) stop_level
       end.

Definition get_path_above_self_to_level (k : SimpleMerkleNodeKey) (sub_root_level : Z)
    (include_sub_root : bool) : list SimpleMerkleNodeKey :=
  if level k <=? sub_root_level then []
  else
    let stop_level := if include_sub_root then sub_root_level
                      else Z.min 255 (sub_root_level + 1) in
    if level k <? stop_level then []
    else path_above_loop 255 k stop_level.

(** ** Well-formed keys and ancestry

    A key names a node of a binary tree when its index fits its level; trees
    are at most 64 levels deep because indices are [u64]. *)
Definition key_wf (k : SimpleMerkleNodeKey) : Prop :=
  0 ≤ level k ≤ 64 ∧ 0 ≤ index k < 2 ^ level k.

#[global] Instance key_wf_dec k : Decision (key_wf k).
Proof. unfold key_wf. apply _. Defined.

(** [a] lies on the path from [k] to the root. *)
Definition ancestor (a k : SimpleMerkleNodeKey) : Prop :=
  level a ≤ level k ∧ index a = index k / 2 ^ (level k - level a).

#[global] Instance ancestor_dec a k : Decision (ancestor a k).
Proof. unfold ancestor. apply _. Defined.

Lemma key_eq (a b : SimpleMerkleNodeKey) : level a = level b → index a = index b → a = b.
Proof. destruct a, b; simpl; congruence. Qed.

Lemma key_wf_index64 k : key_wf k → 0 ≤ index k < 2 ^ 64.
Proof.
  intros [Hl Hi]. pose proof (pow2_mono (level k) 64 ltac:(lia)). lia.
Qed.

Lemma key_wf_root : key_wf new_root.
Proof. unfold key_wf, new_root; simpl; lia. Qed.

Lemma key_wf_level0 k : key_wf k → level k = 0 → k = new_root.
Proof. intros [_ Hi] Hl. rewrite Hl in Hi. apply key_eq; simpl; lia. Qed.

Lemma parent_root k : level k = 0 → parent k = k.
Proof. unfold parent. intros ->. done. Qed.

Lemma level_parent k : level k ≠ 0 → level (parent k) = level k - 1.
Proof. unfold parent. intros H. by rewrite (proj2 (Z.eqb_neq _ _) H). Qed.

Lemma index_parent k : level k ≠ 0 → index (parent k) = index k / 2.
Proof.
  unfold parent. intros H. rewrite (proj2 (Z.eqb_neq _ _) H). simpl.
  by rewrite Z.shiftr_div_pow2 by lia.
Qed.

Lemma key_wf_parent k : key_wf k → key_wf (parent k).
Proof.
  intros Hwf. destruct (decide (level k = 0)) as [E|E].
  - by rewrite parent_root.
  - destruct Hwf as [Hl Hi]. split; rewrite level_parent, ?index_parent by done; [lia|].
    split; [apply Z.div_pos; lia|].
    apply Z.div_lt_upper_bound; [lia|].
    replace (level k) with (Z.succ (level k - 1)) in Hi by lia.
    rewrite Z.pow_succ_r in Hi by lia. lia.
Qed.

Lemma ancestor_refl k : ancestor k k.
Proof. split; [lia|]. by rewrite Z.sub_diag, Z.pow_0_r, Z.div_1_r. Qed.

Lemma ancestor_trans a b c : ancestor a b → ancestor b c → ancestor a c.
Proof.
  intros [Hl1 Hi1] [Hl2 Hi2]. split; [lia|].
  rewrite Hi1, Hi2, div_pow2_div by lia. do 2 f_equal. lia.
Qed.

Lemma ancestor_same_level a b : ancestor a b → level a = level b → a = b.
Proof.
  intros [_ Hi] E. apply key_eq; [done|].
  rewrite Hi, E, Z.sub_diag, Z.pow_0_r, Z.div_1_r. done.
Qed.

Lemma ancestor_antisymm a b : ancestor a b → ancestor b a → a = b.
Proof. intros H1 [H2 _]. apply ancestor_same_level; [done|]. destruct H1; lia. Qed.

Lemma ancestor_parent k : key_wf k → ancestor (parent k) k.
Proof.
  intros [Hl Hi]. destruct (decide (level k = 0)) as [E|E].
  - rewrite parent_root by done. apply ancestor_refl.
  - split; rewrite level_parent, ?index_parent by done; [lia|].
    by replace (level k - (level k - 1)) with 1 by lia.
Qed.

(** Every proper ancestor is an ancestor of the parent. *)
Lemma ancestor_of_parent a k :
  0 ≤ level a < level k → ancestor a k → ancestor a (parent k).
Proof.
  intros Hlt [Hl Hi]. split; rewrite level_parent, ?index_parent by lia; [lia|].
  replace (index k / 2) with (index k / 2 ^ 1) by done.
  rewrite Hi, div_pow2_div by lia. do 2 f_equal. lia.
Qed.

Lemma ancestor_root k : key_wf k → ancestor new_root k.
Proof.
  intros [Hl Hi]. split; simpl; [lia|].
  rewrite Z.sub_0_r. symmetry. apply Z.div_small; lia.
Qed.

(** Ancestors of one node are totally ordered. *)
Lemma ancestor_linear a b k :
  ancestor a k → ancestor b k → 0 ≤ level a ≤ level b → ancestor a b.
Proof.
  intros [Hl1 Hi1] [Hl2 Hi2] Hle. split; [lia|].
  rewrite Hi1, Hi2, div_pow2_div by lia. do 2 f_equal. lia.
Qed.

Lemma ancestor_wf a k : key_wf k → 0 ≤ level a → ancestor a k → key_wf a.
Proof.
  intros [Hl Hi] Ha [Hle He]. split; [lia|]. rewrite He.
  pose proof (pow2_pos_Z (level k - level a) ltac:(lia)).
  split; [apply Z.div_pos; lia|].
  apply Z.div_lt_upper_bound; [lia|].
  rewrite <- Z.pow_add_r by lia.
  rewrite Z.sub_add. lia.
Qed.

#[export] Hint Resolve key_wf_root key_wf_parent ancestor_refl ancestor_parent ancestor_root : psy.

(** ** Children *)
Lemma left_child_spec k :
  key_wf k → level k < 64 → left_child k = mkKey (level k + 1) (2 * index k).
Proof.
  intros [Hl Hi] Hlt. unfold left_child.
  rewrite wrap_small by lia. f_equal.
  pose proof (pow2_mono (level k) 63 ltac:(lia)).
  rewrite u64_shl_small; lia.
Qed.

Lemma right_child_spec k :
  key_wf k → level k < 64 → right_child k = mkKey (level k + 1) (2 * index k + 1).
Proof.
  intros [Hl Hi] Hlt. unfold right_child.
  pose proof (pow2_mono (level k) 63 ltac:(lia)).
  rewrite u64_shl_small by lia. rewrite !wrap_small by lia. f_equal; lia.
Qed.

Lemma key_wf_left_child k : key_wf k → level k < 64 → key_wf (left_child k).
Proof.
  intros H Hlt. rewrite left_child_spec by done. destruct H as [Hl Hi].
  split; simpl; [lia|]. rewrite Z.pow_add_r by lia. lia.
Qed.

Lemma key_wf_right_child k : key_wf k → level k < 64 → key_wf (right_child k).
Proof.
  intros H Hlt. rewrite right_child_spec by done. destruct H as [Hl Hi].
  split; simpl; [lia|]. rewrite Z.pow_add_r by lia. lia.
Qed.

Lemma parent_left_child k : key_wf k → level k < 64 → parent (left_child k) = k.
Proof.
  intros H Hlt. rewrite left_child_spec by done. destruct H as [Hl Hi].
  apply key_eq; rewrite ?level_parent, ?index_parent by (simpl; lia); simpl; [lia|].
  rewrite Z.mul_comm, Z.div_mul; lia.
Qed.

Lemma parent_right_child k : key_wf k → level k < 64 → parent (right_child k) = k.
Proof.
  intros H Hlt. rewrite right_child_spec by done. destruct H as [Hl Hi].
  apply key_eq; rewrite ?level_parent, ?index_parent by (simpl; lia); simpl; [lia|].
  Z.div_mod_to_equations; lia.
Qed.

Lemma first_leaf_child_spec k h :
  key_wf k → level k ≤ h ≤ 64 → h - level k ≤ 63 →
  first_leaf_child k h = mkKey h (index k * 2 ^ (h - level k)).
Proof.
  intros [Hl Hi] Hh Hs. unfold first_leaf_child. case_bool; zify_bool.
  - assert (level k = h) as Eh by lia.
    apply key_eq; simpl; [done|]. rewrite Eh, Z.sub_diag. lia.
  - f_equal. apply u64_shl_small; [lia|lia|].
    apply Z.lt_le_trans with (2 ^ level k * 2 ^ (h - level k)).
    { apply Z.mul_lt_mono_pos_r; [apply pow2_pos_Z; lia|lia]. }
    rewrite <- Z.pow_add_r by lia. apply pow2_mono. lia.
Qed.

(** ** Ancestors at a level *)
Lemma n_th_ancestor_spec k n :
  key_wf k → 0 ≤ n ≤ level k →
  n_th_ancestor k n = mkKey (level k - n) (index k / 2 ^ n).
Proof.
  intros [Hl Hi] Hn. unfold n_th_ancestor, new_root. case_bool; zify_bool.
  - assert (n = level k) as -> by lia. rewrite Z.sub_diag.
    by rewrite Z.div_small by lia.
  - rewrite u64_shr_small by lia. done.
Qed.

Lemma parent_at_level_spec k l :
  key_wf k → 0 ≤ l ≤ level k →
  parent_at_level k l = Some (mkKey l (index k / 2 ^ (level k - l))).
Proof.
  intros Hwf Hl. unfold parent_at_level. case_bool; zify_bool; [lia|].
  rewrite n_th_ancestor_spec by (done || lia). do 2 f_equal. lia.
Qed.

Lemma parent_at_level_ancestor k l a :
  key_wf k → 0 ≤ l ≤ level k → parent_at_level k l = Some a →
  ancestor a k ∧ level a = l ∧ key_wf a.
Proof.
  intros Hwf Hl. rewrite parent_at_level_spec by done. intros [= <-].
  assert (ancestor (mkKey l (index k / 2 ^ (level k - l))) k) as Ha by (split; simpl; [lia|done]).
  split_and!; [done|done|]. eapply ancestor_wf; [exact Hwf|simpl; lia|exact Ha].
Qed.

(** The relative-position tests never panic. *)
Lemma is_direct_path_related_spec a b :
  key_wf a → key_wf b →
  ∃ r, is_direct_path_related a b = Some r ∧ (r = true ↔ ancestor a b ∨ ancestor b a).
Proof.
  intros Ha Hb. unfold is_direct_path_related. repeat case_bool; zify_bool.
  - exists (index a =? index b). split; [done|]. rewrite Z.eqb_eq. split.
    + intros Ei. left. rewrite (key_eq a b) by done. apply ancestor_refl.
    + intros [H|H]; apply ancestor_same_level in H; congruence.
  - rewrite parent_at_level_spec by (done || destruct Hb; lia). simpl.
    eexists; split; [done|]. rewrite Z.eqb_eq. split.
    + intros Ei. right. split; [lia|done].
    + intros [[]|[]]; [lia|congruence].
  - rewrite parent_at_level_spec by (done || destruct Ha; lia). simpl.
    eexists; split; [done|]. rewrite Z.eqb_eq. split.
    + intros Ei. left. split; [lia|done].
    + intros [[]|[]]; [congruence|lia].
Qed.

Lemma is_on_the_right_of_swap a b : is_on_the_right_of a b = is_to_the_left_of b a.
Proof.
  unfold is_on_the_right_of, is_to_the_left_of.
  rewrite (Z.eqb_sym (level b)). repeat case_bool; zify_bool; try lia; done.
Qed.

Lemma is_on_the_right_of_total a b :
  key_wf a → key_wf b → is_Some (is_on_the_right_of a b).
Proof.
  intros Ha Hb. unfold is_on_the_right_of. repeat case_bool; zify_bool; [done| |].
  - rewrite parent_at_level_spec by (done || destruct Hb; lia). done.
  - rewrite parent_at_level_spec by (done || destruct Ha; lia). done.
Qed.

(** ** The nearest common ancestor *)
Lemma nca_loop_S fuel a b :
  nca_loop (S fuel) a b =
    if decide (b = a) then Some a else nca_loop fuel (parent a) (parent b).
Proof. done. Qed.

Lemma nca_loop_refl fuel a : nca_loop fuel a a = Some a.
Proof. destruct fuel; simpl; by rewrite decide_True. Qed.

Lemma nca_loop_spec (n : nat) : ∀ fuel a b,
  level a = Z.of_nat n → level b = Z.of_nat n → key_wf a → key_wf b → (n ≤ fuel)%nat →
  ∃ c, nca_loop fuel a b = Some c ∧ ancestor c a ∧ ancestor c b ∧ key_wf c ∧
       ∀ d, 0 ≤ level d → ancestor d a → ancestor d b → ancestor d c.
Proof.
  induction n as [|n IH]; intros fuel a b Hla Hlb Ha Hb Hf.
  - rewrite (key_wf_level0 a), (key_wf_level0 b) by done.
    rewrite nca_loop_refl. exists new_root. split_and!; eauto with psy.
  - destruct (decide (b = a)) as [->|Hne].
    { rewrite nca_loop_refl. exists a. split_and!; eauto with psy. }
    destruct fuel as [|fuel]; [lia|].
    destruct (IH fuel (parent a) (parent b)) as (c & Hc & Hca & Hcb & Hcw & Hmax);
      [rewrite level_parent; lia|rewrite level_parent; lia|by apply key_wf_parent
      |by apply key_wf_parent|lia|].
    exists c. split_and!.
    + rewrite nca_loop_S, decide_False by done. done.
    + exact (ancestor_trans _ _ _ Hca (ancestor_parent _ Ha)).
    + exact (ancestor_trans _ _ _ Hcb (ancestor_parent _ Hb)).
    + done.
    + intros d Hd Hda Hdb.
      assert (level d < level a).
      { destruct (decide (level d = level a)) as [E|E]; [|destruct Hda; lia].
        exfalso. apply Hne. transitivity d; [symmetry|];
          apply ancestor_same_level; auto; lia. }
      apply Hmax; [done| |]; apply ancestor_of_parent; auto; lia.
Qed.

Lemma find_nca_spec a b :
  key_wf a → key_wf b →
  ∃ c, find_nearest_common_ancestor a b = Some c ∧
       ancestor c a ∧ ancestor c b ∧ key_wf c ∧
       ∀ d, 0 ≤ level d → ancestor d a → ancestor d b → ancestor d c.
Proof.
  intros Ha Hb. unfold find_nearest_common_ancestor.
  set (s := Z.min (level b) (level a)).
  assert (0 ≤ s ≤ level a ∧ 0 ≤ s ≤ level b) as [Hsa Hsb] by (destruct Ha, Hb; lia).
  destruct (parent_at_level a s) as [a'|] eqn:Ea;
    [|rewrite parent_at_level_spec in Ea by done; done].
  destruct (parent_at_level b s) as [b'|] eqn:Eb;
    [|rewrite parent_at_level_spec in Eb by done; done].
  apply parent_at_level_ancestor in Ea as (Haa & Hla & Hwa); [|done..].
  apply parent_at_level_ancestor in Eb as (Hbb & Hlb & Hwb); [|done..].
  cbn [mbind option_bind].
  destruct (nca_loop_spec (Z.to_nat s) 255 a' b') as (c & Hc & Hca & Hcb & Hcw & Hmax);
    [lia|lia|done|done|destruct Ha; lia|].
  exists c. split_and!;
    [done|by apply ancestor_trans with a'|by apply ancestor_trans with b'|done|].
  intros d Hd Hda Hdb. apply Hmax; [done| |].
  - apply ancestor_linear with a; [done..|]. destruct Hda, Hdb; lia.
  - apply ancestor_linear with b; [done..|]. destruct Hda, Hdb; lia.
Qed.

(** Two nodes have at most one nearest common ancestor. *)
Lemma nca_unique a b c d :
  ancestor c a → ancestor c b → key_wf c →
  (∀ e, 0 ≤ level e → ancestor e a → ancestor e b → ancestor e c) →
  ancestor d a → ancestor d b → key_wf d →
  (∀ e, 0 ≤ level e → ancestor e a → ancestor e b → ancestor e d) → c = d.
Proof.
  intros ??[Hc _] Hcm ??[Hd _] Hdm. apply ancestor_antisymm; [apply Hdm|apply Hcm]; auto; lia.
Qed.

(** For every two keys that name nodes of a tree of at most 64 levels,
    [find_nearest_common_ancestor] returns (its loop ends and neither
    [parent_at_level] panics), the result is an ancestor of both, and it is the
    deepest one: every common ancestor is an ancestor of the result. *)
Theorem find_nearest_common_ancestor_correct (a b : SimpleMerkleNodeKey) :
  key_wf a → key_wf b →
  ∃ c, find_nearest_common_ancestor a b = Some c ∧
       ancestor c a ∧ ancestor c b ∧ key_wf c ∧
       ∀ d, 0 ≤ level d → ancestor d a → ancestor d b → ancestor d c.
Proof. apply find_nca_spec. Qed.

Lemma find_nearest_common_ancestor_correct_witness :
  ∃ c, find_nearest_common_ancestor (mkKey 24 76) (mkKey 24 140) = Some c ∧
       ancestor c (mkKey 24 76) ∧ ancestor c (mkKey 24 140) ∧ key_wf c ∧
       ∀ d, 0 ≤ level d → ancestor d (mkKey 24 76) → ancestor d (mkKey 24 140) → ancestor d c.
Proof.
  apply (find_nearest_common_ancestor_correct (mkKey 24 76) (mkKey 24 140));
    unfold key_wf; simpl; lia.
Defined.

(** The keys the loop visits: [n] steps up from level [l ≥ n]. *)
Lemma iter_parent (n : nat) k :
  Z.of_nat n ≤ level k → 0 ≤ index k →
  Nat.iter n parent k = mkKey (level k - Z.of_nat n) (index k / 2 ^ Z.of_nat n).
Proof.
  induction n as [|n IH]; intros Hl Hi.
  - apply key_eq; simpl; [lia|]. by rewrite Z.div_1_r.
  - rewrite Nat.iter_succ, IH by lia.
    apply key_eq; rewrite ?level_parent, ?index_parent by (simpl; lia); simpl level; simpl index;
      [lia|].
    replace 2 with (2 ^ 1) at 2 by done. rewrite div_pow2_div by lia. do 2 f_equal. lia.
Qed.

Lemma iter_parent_stuck (n : nat) k : level k = 0 → Nat.iter n parent k = k.
Proof. intros H. induction n as [|n IH]; [done|]. by rewrite Nat.iter_succ, IH, parent_root. Qed.

(** The loop answers exactly when some iteration finds the two keys equal. *)
Lemma nca_loop_Some fuel a b c :
  nca_loop fuel a b = Some c →
  ∃ n, (n ≤ fuel)%nat ∧ Nat.iter n parent a = c ∧ Nat.iter n parent b = c.
Proof.
  revert a b; induction fuel as [|fuel IH]; intros a b; simpl; case_decide; try done.
  - intros [= ->]. exists 0%nat. split_and!; [lia|done|done].
  - intros [= ->]. exists 0%nat. split_and!; [lia|done|done].
  - intros (n & Hn & H1 & H2)%IH. exists (S n). rewrite !Nat.iter_succ_r. split_and!; [lia|done..].
Qed.

Lemma nca_loop_meets n : ∀ fuel a b,
  (n ≤ fuel)%nat → Nat.iter n parent a = Nat.iter n parent b → is_Some (nca_loop fuel a b).
Proof.
  induction n as [|n IH]; intros fuel a b Hf Heq.
  - simpl in Heq. subst. rewrite nca_loop_refl. done.
  - destruct fuel as [|fuel]; [lia|]. rewrite nca_loop_S. case_decide; [done|].
    apply IH; [lia|]. by rewrite <- !Nat.iter_succ_r.
Qed.

(** Termination of the nearest-common-ancestor loop on arbitrary [u64]
    indices.  For two keys on one level [l], some number of iterations ends the
    loop exactly when the bits of the two indices above the level agree; on
    malformed keys whose excess bits differ (an index taken from a peer's proof
    that is at least [2^l]) the loop never ends, whatever the fuel. *)
Theorem nca_loop_terminates_iff (l : Z) (a b : SimpleMerkleNodeKey) :
  0 ≤ l → level a = l → level b = l → 0 ≤ index a → 0 ≤ index b →
  (∃ fuel c, nca_loop fuel a b = Some c) ↔ index a / 2 ^ l = index b / 2 ^ l.
Proof.
  intros Hl Hla Hlb Hia Hib. split.
  - intros (fuel & c & (n & _ & Ha & Hb)%nca_loop_Some).
    assert (∀ k, level k = l → 0 ≤ index k →
      Nat.iter n parent k = c → index k / 2 ^ l = index c / 2 ^ (level c)) as Hk.
    { intros k Hk Hik Hc. destruct (decide (Z.of_nat n ≤ l)) as [Hn|Hn].
      - rewrite iter_parent in Hc by lia. rewrite <- Hc. simpl level. simpl index.
        rewrite Hk, div_pow2_div by lia. do 2 f_equal. lia.
      - replace n with ((n - Z.to_nat l) + Z.to_nat l)%nat in Hc by lia.
        rewrite Nat.iter_add, (iter_parent (Z.to_nat l)) in Hc by lia.
        rewrite iter_parent_stuck in Hc by (simpl; lia).
        rewrite <- Hc. simpl. rewrite Z2Nat.id, Hk, Z.sub_diag by lia. by rewrite Z.div_1_r. }
    rewrite (Hk a), (Hk b); done.
  - intros Heq. exists (Z.to_nat l).
    destruct (nca_loop_meets (Z.to_nat l) (Z.to_nat l) a b) as [c Hc]; [done| |eauto].
    rewrite !iter_parent, Z2Nat.id by lia. rewrite Hla, Hlb, Heq. done.
Qed.

Lemma nca_loop_terminates_iff_witness :
  ¬ (∃ fuel c, nca_loop fuel (mkKey 1 5) (mkKey 1 1) = Some c).
Proof.
  intros H. apply (nca_loop_terminates_iff 1 (mkKey 1 5) (mkKey 1 1)) in H;
    simpl in *; try lia; done.
Defined.

(** ** Sibling and path enumerations *)
Lemma sibling_involutive k : sibling (sibling k) = k.
Proof. apply key_eq; simpl; [done|]. by rewrite Z.lxor_assoc, Z.lxor_nilpotent, Z.lxor_0_r. Qed.

Lemma lxor_even_1 m : Z.lxor (2 * m) 1 = 2 * m + 1.
Proof.
  apply Z.bits_inj'; intros n Hn. rewrite Z.lxor_spec.
  destruct (decide (n = 0)) as [->|].
  - by rewrite Z.testbit_even_0, Z.testbit_odd_0.
  - replace n with (Z.succ (n - 1)) by lia.
    rewrite Z.testbit_even_succ, Z.testbit_odd_succ by lia.
    rewrite (Z.pow2_bits_false 0) by lia. apply xorb_false_r.
Qed.

Lemma even_cases i : (∃ m, i = 2 * m ∧ Z.even i = true) ∨ (∃ m, i = 2 * m + 1 ∧ Z.even i = false).
Proof.
  destruct (Z.even i) eqn:E.
  - left. apply Zeven_bool_iff, Zeven_ex in E as [m ->]. by exists m.
  - right. rewrite <- Z.negb_odd in E. apply negb_false_iff in E.
    apply Zodd_bool_iff, Zodd_ex in E as [m ->]. by exists m.
Qed.

Lemma lxor_1 i : Z.lxor i 1 = if Z.even i then i + 1 else i - 1.
Proof.
  destruct (even_cases i) as [(m & -> & ->)|(m & -> & ->)]; [apply lxor_even_1|].
  rewrite <- lxor_even_1 at 1. rewrite Z.lxor_assoc, Z.lxor_nilpotent, Z.lxor_0_r. lia.
Qed.

Lemma index_sibling k : index (sibling k) = if Z.even (index k) then index k + 1 else index k - 1.
Proof. apply lxor_1. Qed.

Lemma parent_sibling k : level k ≠ 0 → parent (sibling k) = parent k.
Proof.
  intros H. apply key_eq; rewrite ?level_parent, ?index_parent by done; [done|].
  rewrite index_sibling.
  destruct (even_cases (index k)) as [(m & -> & ->)|(m & -> & ->)];
    Z.div_mod_to_equations; lia.
Qed.

Lemma key_wf_sibling k : key_wf k → level k ≠ 0 → key_wf (sibling k).
Proof.
  intros [Hl Hi] H0. split; [done|]. rewrite index_sibling.
  assert (2 ^ level k = 2 * 2 ^ (level k - 1)) as Hp.
  { rewrite <- Z.pow_succ_r by lia. f_equal. lia. }
  simpl level. destruct (even_cases (index k)) as [(m & ? & ->)|(m & ? & ->)]; lia.
Qed.

(** The ancestors met on the first [n] steps up. *)
Fixpoint push_parents (n : nat) (k : SimpleMerkleNodeKey) : list SimpleMerkleNodeKey :=
  match n with
  | O => []
  | S n' => parent k :: push_parents n' (parent k)
  end.

Lemma length_push_siblings n k : length (push_siblings n k) = n.
Proof. revert k; induction n as [|n IH]; intros k; simpl; [done|by rewrite IH]. Qed.

Lemma siblings_keys_loop_spec (n : nat) : ∀ fuel k t,
  0 ≤ t → level k = t + Z.of_nat n → (n ≤ fuel)%nat →
  siblings_keys_loop fuel k t = push_siblings n k.
Proof.
  induction n as [|n IH]; intros fuel k t Ht Hl Hf; destruct fuel as [|fuel]; try lia;
    cbn [siblings_keys_loop push_siblings]; case_bool; zify_bool; try lia; try done.
  f_equal. apply IH; [lia| |lia]. rewrite level_parent; lia.
Qed.

Lemma path_above_loop_spec (n : nat) : ∀ fuel k t,
  0 ≤ t → level k = t + Z.of_nat n → (n ≤ fuel)%nat →
  path_above_loop fuel k t = push_parents n k.
Proof.
  induction n as [|n IH]; intros fuel k t Ht Hl Hf; destruct fuel as [|fuel]; try lia;
    cbn [path_above_loop push_parents]; case_bool; zify_bool; try lia; try done.
  f_equal. apply IH; [lia| |lia]. rewrite level_parent; lia.
Qed.

Lemma above_path_loop_spec (n : nat) : ∀ fuel k t incl,
  0 ≤ t → level k = t + 1 + Z.of_nat n → (n ≤ fuel)%nat →
  above_path_loop fuel (parent k) t incl = push_parents (if incl then S n else n) k.
Proof.
  induction n as [|n IH]; intros fuel k t incl Ht Hl Hf; destruct fuel as [|fuel]; try lia;
    cbn [above_path_loop]; rewrite level_parent by lia; case_bool; zify_bool; try lia;
    try (destruct incl; done).
  rewrite (IH fuel (parent k)) by (rewrite ?level_parent; lia).
  destruct incl; done.
Qed.

Lemma elem_of_push_parents n : ∀ k x,
  key_wf k → Z.of_nat n ≤ level k →
  x ∈ push_parents n k ↔ ancestor x k ∧ level k - Z.of_nat n ≤ level x < level k.
Proof.
  induction n as [|n IH]; intros k x Hk Hn.
  - simpl. rewrite elem_of_nil. lia.
  - cbn [push_parents]. rewrite elem_of_cons, IH by (rewrite ?level_parent; auto with psy; lia).
    rewrite level_parent by lia. split.
    + intros [->|[Ha Hl]].
      * rewrite level_parent by lia. split; [auto with psy|lia].
      * split; [|lia]. eapply ancestor_trans; [exact Ha|auto with psy].
    + intros [Ha Hl]. destruct (decide (level x = level k - 1)).
      * left. apply ancestor_same_level; [|rewrite level_parent; lia].
        apply ancestor_of_parent; [lia|done].
      * right. split; [|lia]. apply ancestor_of_parent; [lia|done].
Qed.

(** The two routines that enumerate the path above a node agree on every
    [u8] level, and what they enumerate is exactly the proper ancestors of the
    node down to the requested level (that level itself only when the sub-root
    is included). *)
Theorem get_path_above_correct (k : SimpleMerkleNodeKey) (to_level : Z) (include : bool) :
  key_wf k → 0 ≤ to_level →
  get_path_above_self_to_level k to_level include = get_above_path_to_height k to_level include
  ∧ ∀ x, x ∈ get_path_above_self_to_level k to_level include ↔
         ancestor x k ∧ (if include then to_level else to_level + 1) ≤ level x < level k.
Proof.
  intros Hk Ht. unfold get_path_above_self_to_level, get_above_path_to_height.
  assert (0 ≤ level k ≤ 64) as Hl by apply Hk.
  case_bool; zify_bool.
  { split; [done|]. intros x. rewrite elem_of_nil. destruct include; lia. }
  set (n := Z.to_nat (level k - to_level - 1)).
  rewrite (above_path_loop_spec n) by lia.
  destruct include.
  - case_bool; zify_bool; [lia|].
    rewrite (path_above_loop_spec (S n)) by lia. split; [done|].
    intros x. rewrite elem_of_push_parents by (done || lia). intuition lia.
  - rewrite Z.min_r by lia. case_bool; zify_bool; [lia|].
    rewrite (path_above_loop_spec n) by lia. split; [done|].
    intros x. rewrite elem_of_push_parents by (done || lia). intuition lia.
Qed.

Lemma get_path_above_correct_witness :
  get_path_above_self_to_level (mkKey 3 5) 1 true = [mkKey 2 2; mkKey 1 1]
  ∧ get_path_above_self_to_level (mkKey 3 5) 1 true = get_above_path_to_height (mkKey 3 5) 1 true.
Proof.
  split; [reflexivity|].
  apply (get_path_above_correct (mkKey 3 5) 1 true); [unfold key_wf; simpl|]; lia.
Defined.

Lemma siblings_to_level_agree k t :
  0 ≤ t → 0 ≤ level k ≤ 255 → get_siblings_keys_to_height k t = siblings_to_level k t.
Proof.
  intros Ht Hl. unfold get_siblings_keys_to_height, siblings_to_level.
  case_bool; case_bool; zify_bool; try done; try lia.
  - rewrite (siblings_keys_loop_spec 0) by lia. done.
  - rewrite (siblings_keys_loop_spec (Z.to_nat (level k - t))) by lia. done.
Qed.

(** ** Relative position

    Two nodes are on one path, or exactly one of them is to the right of the
    other. *)
(** For keys of a tree the three position tests never panic and are
    exhaustive and mutually exclusive: either the nodes are on one root path, or
    exactly one of [is_on_the_right_of] and [is_to_the_left_of] holds. *)
Theorem relative_position_trichotomy (a b : SimpleMerkleNodeKey) :
  key_wf a → key_wf b →
  ∃ related right_ left_,
    is_direct_path_related a b = Some related ∧
    is_on_the_right_of a b = Some right_ ∧
    is_to_the_left_of a b = Some left_ ∧
    (related = true ↔ ancestor a b ∨ ancestor b a) ∧
    (related, right_, left_) ∈ [(true, false, false); (false, true, false); (false, false, true)].
Proof.
  intros Ha Hb.
  destruct (is_direct_path_related_spec a b Ha Hb) as (r & Hr & Hspec).
  rewrite Hr. revert Hr. unfold is_direct_path_related, is_on_the_right_of, is_to_the_left_of.
  repeat case_bool; zify_bool;
    rewrite ?parent_at_level_spec by (done || destruct Ha, Hb; lia); simpl; intros [= <-];
    do 3 eexists; (split_and!; [done..|]); clear Hspec; cbn [index];
    match goal with
    | |- context [?x =? ?y] =>
        destruct (Z.lt_trichotomy x y) as [?|[?|?]];
        rewrite ?(proj2 (Z.eqb_eq x y)), ?(proj2 (Z.eqb_neq x y)) by lia;
        rewrite ?(proj2 (Z.ltb_lt x y)), ?(proj2 (Z.ltb_lt y x)) by lia;
        rewrite ?(proj2 (Z.ltb_ge x y)), ?(proj2 (Z.ltb_ge y x)) by lia; set_solver
    end.
Qed.

Lemma relative_position_trichotomy_witness :
  ∃ related right_ left_,
    is_direct_path_related (mkKey 3 5) (mkKey 2 1) = Some related ∧
    is_on_the_right_of (mkKey 3 5) (mkKey 2 1) = Some right_ ∧
    is_to_the_left_of (mkKey 3 5) (mkKey 2 1) = Some left_ ∧
    (related = true ↔ ancestor (mkKey 3 5) (mkKey 2 1) ∨ ancestor (mkKey 2 1) (mkKey 3 5)) ∧
    (related, right_, left_) ∈ [(true, false, false); (false, true, false); (false, false, true)].
Proof.
  apply (relative_position_trichotomy (mkKey 3 5) (mkKey 2 1)); unfold key_wf; simpl; lia.
Defined.

(** ** Reward path encoding *)
Lemma to_reward_path_info_val k :
  is_uint 8 (level k) → is_uint 64 (index k) →
  to_reward_path_info k = level k * 2 ^ 56 + index k mod 2 ^ 56.
Proof.
  intros Hl Hi. unfold to_reward_path_info, is_uint in *.
  rewrite u64_shl_small by lia.
  change 0x00FFFFFFFFFFFFFF with (2 ^ 56 - 1).
  rewrite land_ones_mod, lor_pow2_add by (try apply Z.mod_pos_bound; lia). done.
Qed.

(** Packing a key into the 64-bit reward path of a job id and reading it
    back gives the key exactly when its index fits in 56 bits; the packed value
    always fits in a [u64]. *)
Theorem reward_path_roundtrip (k : SimpleMerkleNodeKey) :
  is_uint 8 (level k) → is_uint 64 (index k) →
  is_uint 64 (to_reward_path_info k) ∧
  (from_reward_path_info (to_reward_path_info k) = k ↔ index k < 2 ^ 56).
Proof.
  intros Hl Hi. rewrite to_reward_path_info_val by done. unfold is_uint in *.
  pose proof (Z.mod_pos_bound (index k) (2 ^ 56) ltac:(lia)) as Hm.
  split; [lia|]. unfold from_reward_path_info.
  rewrite u64_shr_small by lia.
  rewrite (Z.add_comm (level k * 2 ^ 56)), Z.div_add, Z.div_small, Z.add_0_l by lia.
  rewrite wrap_small by lia. change 0x00FFFFFFFFFFFFFF with (2 ^ 56 - 1).
  rewrite land_ones_mod, Z.add_comm, Z.add_comm, Z.mod_add, Z.mod_mod by lia. split.
  - intros E. apply (f_equal index) in E. simpl in E. lia.
  - intros Hlt. apply key_eq; simpl; [done|]. apply Z.mod_small. lia.
Qed.

Lemma reward_path_roundtrip_witness :
  is_uint 64 (to_reward_path_info (mkKey 7 100)) ∧
  (from_reward_path_info (to_reward_path_info (mkKey 7 100)) = mkKey 7 100 ↔ 100 < 2 ^ 56).
Proof. apply (reward_path_roundtrip (mkKey 7 100)); unfold is_uint; simpl; lia. Defined.

(** ** The order of keys *)
Definition key_le (a b : SimpleMerkleNodeKey) : Prop := key_cmp a b ≠ Gt.

#[global] Instance key_le_dec : RelDecision key_le.
Proof. intros a b. unfold key_le. apply _. Defined.

Lemma key_le_lex a b :
  key_le a b ↔ level a < level b ∨ level a = level b ∧ index a ≤ index b.
Proof.
  unfold key_le, key_cmp. destruct (level a =? level b) eqn:E; simpl; zify_bool.
  - rewrite Z.compare_le_iff. lia.
  - rewrite Z.compare_le_iff. lia.
Qed.

#[global] Instance key_le_total : Total key_le.
Proof. intros a b. rewrite !key_le_lex. lia. Qed.

#[global] Instance key_le_trans : Transitive key_le.
Proof. intros a b c. rewrite !key_le_lex. lia. Qed.

#[global] Instance key_le_antisymm : AntiSymm (=) key_le.
Proof. intros a b. rewrite !key_le_lex. intros. apply key_eq; lia. Qed.

#[global] Instance key_le_refl : Reflexive key_le.
Proof. intros a. rewrite key_le_lex. lia. Qed.

(** ** Where two halves meet *)
Lemma left_right_disjoint s x :
  key_wf s → level s < 64 →
  ancestor (left_child s) x → ancestor (right_child s) x → False.
Proof.
  intros Hs Hl. rewrite left_child_spec, right_child_spec by done.
  intros [_ H1] [_ H2]. simpl in *. lia.
Qed.

Lemma ancestor_left_child s : key_wf s → level s < 64 → ancestor s (left_child s).
Proof.
  intros Hs Hl. rewrite <- (parent_left_child s) at 1 by done.
  apply ancestor_parent, key_wf_left_child; done.
Qed.

Lemma ancestor_right_child s : key_wf s → level s < 64 → ancestor s (right_child s).
Proof.
  intros Hs Hl. rewrite <- (parent_right_child s) at 1 by done.
  apply ancestor_parent, key_wf_right_child; done.
Qed.

(** A proper descendant lies below one of the two children. *)
Lemma ancestor_child_cases s x :
  key_wf s → level s < level x → level s < 64 → ancestor s x →
  ancestor (left_child s) x ∨ ancestor (right_child s) x.
Proof.
  intros Hs Hlt Hl [_ Hi]. rewrite left_child_spec, right_child_spec by done.
  unfold ancestor; simpl.
  replace (level x - level s) with (level x - (level s + 1) + 1) in Hi by lia.
  rewrite <- div_pow2_div in Hi by lia. change (2 ^ 1) with 2 in Hi.
  set (q := index x / 2 ^ (level x - (level s + 1))) in *.
  assert (q = 2 * index s ∨ q = 2 * index s + 1) as [->| ->]
    by (Z.div_mod_to_equations; lia); [left|right]; split; lia.
Qed.

Lemma nca_split s a b :
  key_wf s → level s < 64 → key_wf a → key_wf b →
  ancestor (left_child s) a → ancestor (right_child s) b →
  find_nearest_common_ancestor a b = Some s.
Proof.
  intros Hs Hl Ha Hb Hla Hrb.
  pose proof (ancestor_trans _ _ _ (ancestor_left_child s Hs Hl) Hla) as Hsa.
  pose proof (ancestor_trans _ _ _ (ancestor_right_child s Hs Hl) Hrb) as Hsb.
  destruct (find_nca_spec a b Ha Hb) as (c & Hc & Hca & Hcb & Hcw & Hmax).
  rewrite Hc. f_equal. symmetry.
  assert (ancestor s c) as Hsc by (apply Hmax; [destruct Hs; lia|done..]).
  destruct (decide (level s = level c)) as [|Hne]; [by apply ancestor_same_level|].
  assert (level s < level c) as Hlt by (destruct Hsc; lia).
  exfalso. apply ancestor_child_cases in Hsc as [H|H]; [| |done..].
  - apply (left_right_disjoint s b); [done..| |done]. by apply ancestor_trans with c.
  - apply (left_right_disjoint s a); [done..|]. by apply ancestor_trans with c.
Qed.
