(* ===== verification/NcaTree.v ===== *)
(** * Nearest-common-ancestor aggregation trees

    The planner of proof aggregation: [parth_core/src/data/hash/merkle_node_key.rs]
    (from [SimpleMerkleNodeNCAAggregation] on). Given the updated leaves of a
    Merkle tree it computes which pairs of proofs are aggregated and in which
    groups. The specification is a binary tree over the sorted leaves whose
    inner nodes are the places of the Merkle tree where two populated
    sub-trees meet. *)
From stdpp Require Import prelude gmap list sorting.
From Stdlib Require Import ZArith Lia.
From S2P Require Import Prelude MerkleKey.

Record SimpleMerkleNodeNCAAggregation : Type := mkAgg {
  nca : SimpleMerkleNodeKey;
  left : SimpleMerkleNodeKey;
  right : SimpleMerkleNodeKey;
}.
Abbreviation agg := SimpleMerkleNodeNCAAggregation.

#[global] Instance agg_eq_dec : EqDecision agg.
Proof. solve_decision. Defined.

#[global] Instance agg_inhabited : Inhabited agg := populate (mkAgg inhabitant inhabitant inhabitant).

(** ** Operations *)

(** [slice::partition_point]: the number of leading elements that satisfy the
    predicate (the slice is assumed partitioned by it). *)
Fixpoint partition_point {A} (p : A → bool) (l : list A) : nat :=
  match l with
  | [] => 0
  | x :: l' => if p x then S (partition_point p l') else 0
  end.

(** The recursive helper. [aggregations] is the vector the source mutates; the
    fuel bounds the recursion depth. *)
Fixpoint build_recursive_v0 (fuel : nat) (nodes : list SimpleMerkleNodeKey)
    (subtree_root : SimpleMerkleNodeKey) (tree_height : Z) (aggregations : list agg)
    : outcome (option SimpleMerkleNodeKey * list agg) :=
  match fuel with
  | O => Diverge
  | S fuel =>
    match nodes with
    | [] => Ok (None, aggregations)
    | [k] => Ok (Some k, aggregations)
    | _ =>
      let right_child := right_child subtree_root in
      let split_leaf_index := index (first_leaf_child right_child tree_height) in
      let partition_idx := partition_point (λ node, index node <? split_leaf_index) nodes in
      let left_nodes := take partition_idx nodes in
      let right_nodes := drop partition_idx nodes in
      let* (left_nca, aggregations) :=
        build_recursive_v0 fuel left_nodes (left_child subtree_root) tree_height aggregations in
      let* (right_nca, aggregations) :=
        build_recursive_v0 fuel right_nodes right_child tree_height aggregations in
      match left_nca, right_nca with
      | Some l, Some r =>
          let* combined_nca := returns (find_nearest_common_ancestor l r) in
          Ok (Some combined_nca, aggregations ++ [mkAgg combined_nca l r])
      | Some l, None => Ok (Some l, aggregations)
      | None, Some r => Ok (Some r, aggregations)
      | None, None => Ok (None, aggregations)
      end
    end
  end.

Fixpoint build_recursive_v1 (fuel : nat) (nodes : list SimpleMerkleNodeKey)
    (subtree_root : SimpleMerkleNodeKey) (tree_height : Z) (aggregations : list agg)
    : outcome (option SimpleMerkleNodeKey * list agg) :=
  match fuel with
  | O => Diverge
  | S fuel =>
    if bool_decide (nodes = []) then Ok (None, aggregations)
    else if bool_decide (length nodes = 1%nat) then Ok (nodes !! 0%nat, aggregations)
    else
      let right_child := right_child subtree_root in
      let split_leaf_index := index (first_leaf_child right_child tree_height) in
      let partition_idx := partition_point (λ node, index node <? split_leaf_index) nodes in
      let left_nodes := take partition_idx nodes in
      let right_nodes := drop partition_idx nodes in
      let* (left_result, aggregations) :=
        build_recursive_v1 fuel left_nodes (left_child subtree_root) tree_height aggregations in
      let* (right_result, aggregations) :=
        build_recursive_v1 fuel right_nodes right_child tree_height aggregations in
      match left_result, right_result with
      | Some l_key, Some r_key =>
          let* combined_nca_key := returns (find_nearest_common_ancestor l_key r_key) in
          Ok (Some combined_nca_key, aggregations ++ [mkAgg combined_nca_key l_key r_key])
      | Some l_res, None => Ok (Some l_res, aggregations)
      | None, Some r_res => Ok (Some r_res, aggregations)
      | None, None => Ok (None, aggregations)
      end
  end.

(** The variant that also computes a dependency level per aggregation. *)
Fixpoint build_recursive_v2 (fuel : nat) (nodes : list SimpleMerkleNodeKey)
    (subtree_root : SimpleMerkleNodeKey) (tree_height : Z)
    (aggregations_with_levels : list (agg * nat))
    : outcome (option (SimpleMerkleNodeKey * nat) * list (agg * nat)) :=
  match fuel with
  | O => Diverge
  | S fuel =>
    match nodes with
    | [] => Ok (None, aggregations_with_levels)
    | [k] => Ok (Some (k, 0%nat), aggregations_with_levels)
    | _ =>
      let right_child := right_child subtree_root in
      let split_leaf_index := index (first_leaf_child right_child tree_height) in
      let partition_idx := partition_point (λ node, index node <? split_leaf_index) nodes in
      let left_nodes := take partition_idx nodes in
      let right_nodes := drop partition_idx nodes in
      let* (left_result, awl) :=
        build_recursive_v2 fuel left_nodes (left_child subtree_root) tree_height
          aggregations_with_levels in
      let* (right_result, awl) :=
        build_recursive_v2 fuel right_nodes right_child tree_height awl in
      match left_result, right_result with
      | Some (l_key, l_level), Some (r_key, r_level) =>
          let* combined_nca_key := returns (find_nearest_common_ancestor l_key r_key) in
          let new_level := (1 + Nat.max l_level r_level)%nat in
          Ok (Some (combined_nca_key, new_level),
              awl ++ [(mkAgg combined_nca_key l_key r_key, new_level)])
      | Some l_res, None => Ok (Some l_res, awl)
      | None, Some r_res => Ok (Some r_res, awl)
      | None, None => Ok (None, awl)
      end
    end
  end.

(** The recursion of distinct leaves of one level goes at most one level of the
    Merkle tree deeper per call. *)
Definition build_fuel : nat := 256.

Definition generate_nca_tree_v0 (leaves : list SimpleMerkleNodeKey) : outcome (list agg) :=
  if (length leaves <? 2)%nat then Ok [] else
  let* first := unwrap (leaves !! 0%nat) in
  let tree_height := level first in
  let sorted_leaves := merge_sort key_le leaves in
  let* (_, aggregations) := build_recursive_v0 build_fuel sorted_leaves (mkKey 0 0) tree_height [] in
  Ok aggregations.

(** [nca_map.insert(x.nca, x)] for every aggregation in order. *)
Definition build_nca_map (aggregations : list agg) : gmap SimpleMerkleNodeKey agg :=
  foldl (λ m x, <[nca x := x]> m) ∅ aggregations.

(** One pass of the inner [for agg in current_level] loop. *)
Definition next_level_of (nca_map : gmap SimpleMerkleNodeKey agg) (leaf_level : Z)
    (current_level : list agg) : list agg :=
  flat_map (λ x,
    (if level (left x) =? leaf_level then [] else
       match nca_map !! left x with Some y => [y] | None => [] end) ++
    (if level (right x) =? leaf_level then [] else
       match nca_map !! right x with Some y => [y] | None => [] end)) current_level.

(** The [while has_non_leaf_children] loop; [has_non_leaf_children] is set
    exactly when something was pushed to [next_level]. *)
Fixpoint groups_loop (fuel : nat) (nca_map : gmap SimpleMerkleNodeKey agg) (leaf_level : Z)
    (current_level : list agg) (levels : list (list agg)) : outcome (list (list agg)) :=
  match fuel with
  | O => Diverge
  | S fuel =>
      let levels := levels ++ [current_level] in
      match next_level_of nca_map leaf_level current_level with
      | [] => Ok (reverse levels)
      | next_level => groups_loop fuel nca_map leaf_level next_level levels
      end
  end.

Definition generate_nca_tree_groups_v0 (leaves : list SimpleMerkleNodeKey) (leaf_level : Z)
    : outcome (list (list agg)) :=
  let* ncas := generate_nca_tree_v0 leaves in
  let nca_map := build_nca_map ncas in
  let* root := unwrap (last ncas) in
  if (level (left root) =? leaf_level) && (level (right root) =? leaf_level) then Ok [[root]]
  else groups_loop (S (length ncas)) nca_map leaf_level [root] [].

Definition generate_nca_tree_groups_v1 (leaves : list SimpleMerkleNodeKey) (_leaf_level : Z)
    : outcome (list (list agg)) :=
  if (length leaves <? 2)%nat then Ok [] else
  let* first := unwrap (leaves !! 0%nat) in
  let tree_height := level first in
  let sorted_leaves := merge_sort key_le leaves in
  let* (_, aggregations) := build_recursive_v1 build_fuel sorted_leaves (mkKey 0 0) tree_height [] in
  if bool_decide (aggregations = []) then Ok [] else
  let nca_map := build_nca_map aggregations in
  let* root := unwrap (last aggregations) in
  if (level (left root) =? tree_height) && (level (right root) =? tree_height) then Ok [[root]]
  else groups_loop (S (length aggregations)) nca_map tree_height [root] [].

Definition generate_nca_tree_groups_v2 (leaves : list SimpleMerkleNodeKey) (_leaf_level : Z)
    : outcome (list (list agg)) :=
  if (length leaves <? 2)%nat then Ok [] else
  let* first := unwrap (leaves !! 0%nat) in
  let tree_height := level first in
  let sorted_leaves := merge_sort key_le leaves in
  let* (_, aggregations_with_levels) :=
    build_recursive_v2 build_fuel sorted_leaves (mkKey 0 0) tree_height [] in
  if bool_decide (aggregations_with_levels = []) then Ok [] else
  let max_level := foldr (λ x m, Nat.max x.2 m) 0%nat aggregations_with_levels in
  let groups :=
    foldl (λ gs x, if (0 <? x.2)%nat then alter (λ g, g ++ [x.1]) (x.2 - 1)%nat gs else gs)
      (replicate max_level []) aggregations_with_levels in
  Ok (filter (λ g, g ≠ []) groups).

(** One aggregation of group [i], against its group and the group below. *)
Definition check_node (group below : list agg) (leaf_level : Z) (node : agg) : bool :=
  (length (filter (λ x, nca x = nca node) group) <=? 1)%nat &&
  (length (filter (λ x, left x = left node) group) <=? 1)%nat &&
  (length (filter (λ x, right x = right node) group) <=? 1)%nat &&
  ((level (left node) =? leaf_level) || existsb (λ x, bool_decide (nca x = left node)) below) &&
  ((level (right node) =? leaf_level) || existsb (λ x, bool_decide (nca x = right node)) below).

Fixpoint check_nca_tree_groups (groups : list (list agg)) (leaf_level : Z) : bool :=
  match groups with
  | below :: ((group :: _) as rest) =>
      forallb (check_node group below leaf_level) group && check_nca_tree_groups rest leaf_level
  | _ => true
  end.

(** ** Specification: the aggregation tree *)
Inductive nca_tree : Type :=
  | TLeaf (k : SimpleMerkleNodeKey)
  | TNode (k : SimpleMerkleNodeKey) (l r : nca_tree).

Definition tree_root (t : nca_tree) : SimpleMerkleNodeKey :=
  match t with TLeaf k => k | TNode k _ _ => k end.

Fixpoint tree_leaves (t : nca_tree) : list SimpleMerkleNodeKey :=
  match t with TLeaf k => [k] | TNode _ l r => tree_leaves l ++ tree_leaves r end.

(** The aggregations in post-order: both operands before their aggregation. *)
Fixpoint tree_aggs (t : nca_tree) : list agg :=
  match t with
  | TLeaf _ => []
  | TNode k l r => tree_aggs l ++ tree_aggs r ++ [mkAgg k (tree_root l) (tree_root r)]
  end.

(** The aggregations at a depth, from left to right. *)
Fixpoint at_depth (d : nat) (t : nca_tree) {struct t} : list agg :=
  match t, d with
  | TLeaf _, _ => []
  | TNode k l r, O => [mkAgg k (tree_root l) (tree_root r)]
  | TNode _ l r, S d => at_depth d l ++ at_depth d r
  end.

Fixpoint tree_height_of (t : nca_tree) : nat :=
  match t with
  | TLeaf _ => 0
  | TNode _ l r => S (Nat.max (tree_height_of l) (tree_height_of r))
  end.

(** The left operand of an aggregation lies in the left half of the sub-tree
    below the aggregated node and the right operand in the right half, and the
    leaves are nodes of level [h]. *)
Fixpoint tree_wf (h : Z) (t : nca_tree) : Prop :=
  match t with
  | TLeaf k => key_wf k ∧ level k = h
  | TNode k l r =>
      key_wf k ∧ level k < h ∧
      ancestor (left_child k) (tree_root l) ∧ ancestor (right_child k) (tree_root r) ∧
      tree_wf h l ∧ tree_wf h r
  end.

Fixpoint tree_wfb (h : Z) (t : nca_tree) : bool :=
  match t with
  | TLeaf k => bool_decide (key_wf k) && (level k =? h)
  | TNode k l r =>
      bool_decide (key_wf k) && (level k <? h) &&
      bool_decide (ancestor (left_child k) (tree_root l)) &&
      bool_decide (ancestor (right_child k) (tree_root r)) && tree_wfb h l && tree_wfb h r
  end.

(** *** The split of the sorted leaves *)
Definition index_lt (a b : SimpleMerkleNodeKey) : Prop := index a < index b.

Lemma partition_point_take {A} (p : A → bool) l :
  Forall (λ x, p x = true) (take (partition_point p l) l).
Proof. induction l as [|x l IH]; simpl; [done|]. destruct (p x) eqn:Hp; simpl; auto. Qed.

Lemma partition_point_drop {A} (R : relation A) (p : A → bool) l :
  (∀ x y, R x y → p y = true → p x = true) → StronglySorted R l →
  Forall (λ x, p x = false) (drop (partition_point p l) l).
Proof.
  intros Hp. induction 1 as [|x l Hl IH Hx]; simpl; [done|].
  destruct (p x) eqn:E; simpl; [done|]. constructor; [done|].
  eapply Forall_impl; [exact Hx|]. intros y Hxy.
  destruct (p y) eqn:E'; [|done]. rewrite (Hp _ _ Hxy E') in E. done.
Qed.

Lemma StronglySorted_app_inv {A} (R : relation A) l1 l2 :
  StronglySorted R (l1 ++ l2) → StronglySorted R l1 ∧ StronglySorted R l2.
Proof.
  induction l1 as [|x l1 IH]; simpl; [split; [constructor|done]|].
  inversion_clear 1 as [|?? H1 H2]. destruct (IH H1). apply Forall_app in H2 as [??].
  split; [by constructor|done].
Qed.

(** The nodes a call receives: leaves of the tree below [s], in order. *)
Definition nodes_below (h : Z) (s : SimpleMerkleNodeKey) (nodes : list SimpleMerkleNodeKey) : Prop :=
  Forall (λ x, key_wf x ∧ level x = h ∧ ancestor s x) nodes ∧ StronglySorted index_lt nodes.

Lemma index_split_left s x :
  key_wf s → level s < level x → level s < 64 → ancestor (left_child s) x →
  index x < (2 * index s + 1) * 2 ^ (level x - (level s + 1)).
Proof.
  intros Hs Hlt Hl. rewrite left_child_spec by done. intros [_ Hi]; simpl in Hi.
  pose proof (pow2_pos_Z (level x - (level s + 1)) ltac:(lia)) as Hp.
  pose proof (Z.mul_succ_div_gt (index x) _ Hp). nia.
Qed.

Lemma index_split_right s x :
  key_wf s → level s < level x → level s < 64 → ancestor (right_child s) x →
  (2 * index s + 1) * 2 ^ (level x - (level s + 1)) ≤ index x.
Proof.
  intros Hs Hlt Hl. rewrite right_child_spec by done. intros [_ Hi]; simpl in Hi.
  pose proof (pow2_pos_Z (level x - (level s + 1)) ltac:(lia)) as Hp.
  pose proof (Z.mul_div_le (index x) _ Hp). nia.
Qed.

Lemma split_leaf_index_spec h s :
  key_wf s → level s < h ≤ 64 →
  index (first_leaf_child (right_child s) h) = (2 * index s + 1) * 2 ^ (h - (level s + 1)).
Proof.
  intros Hs Hh. pose proof (key_wf_right_child s Hs ltac:(lia)) as Hr.
  rewrite right_child_spec in Hr |- * by (done || lia).
  rewrite first_leaf_child_spec; [done|done|simpl; destruct Hs; lia..].
Qed.

Lemma nodes_below_split h s nodes :
  key_wf s → level s < h ≤ 64 → nodes_below h s nodes →
  let p := partition_point
    (λ node, index node <? index (first_leaf_child (right_child s) h)) nodes in
  nodes_below h (left_child s) (take p nodes) ∧ nodes_below h (right_child s) (drop p nodes).
Proof.
  intros Hs Hh [Hall Hsort] p.
  pose proof (partition_point_take (λ node, index node <?
    index (first_leaf_child (right_child s) h)) nodes) as Ht.
  pose proof (partition_point_drop index_lt (λ node, index node <?
    index (first_leaf_child (right_child s) h)) nodes) as Hd.
  fold p in Ht, Hd. specialize (Hd ltac:(unfold index_lt; intros; lia) Hsort).
  rewrite split_leaf_index_spec in Ht, Hd by done.
  rewrite <- (take_drop p nodes) in Hall, Hsort.
  apply Forall_app in Hall as [Hat Had]. apply StronglySorted_app_inv in Hsort as [Hst Hsd].
  unfold nodes_below. split_and!; [|done| |done]; apply Forall_forall; intros x Hx;
    rewrite Forall_forall in Hat, Had, Ht, Hd.
  - destruct (Hat x Hx) as (Hxw & <- & Hsx). specialize (Ht x Hx); simpl in Ht; zify_bool.
    split_and!; [done|done|]. apply ancestor_child_cases in Hsx as [?|Hr]; [done| |done|lia..].
    pose proof (index_split_right s x Hs ltac:(lia) ltac:(lia) Hr). lia.
  - destruct (Had x Hx) as (Hxw & <- & Hsx). specialize (Hd x Hx); simpl in Hd; zify_bool.
    split_and!; [done|done|]. apply ancestor_child_cases in Hsx as [Hl|?]; [|done|done|lia..].
    pose proof (index_split_left s x Hs ltac:(lia) ltac:(lia) Hl). lia.
Qed.

(** At the level of the leaves there is room for one node only. *)
Lemma nodes_below_single h s nodes :
  nodes_below h s nodes → h ≤ level s → (length nodes ≤ 1)%nat.
Proof.
  intros [Hall Hsort] Hh. destruct nodes as [|x [|y nodes]]; simpl; [lia..|].
  apply Forall_cons in Hall as ((_ & Hx & Hsx) & Hall).
  apply Forall_cons in Hall as ((_ & Hy & Hsy) & _).
  inversion Hsort as [|?? _ Hlt]; simplify_eq. apply Forall_cons in Hlt as [Hlt _].
  unfold index_lt in Hlt. assert (x = y) as ->; [|lia].
  transitivity s; [symmetry|]; apply ancestor_same_level; try done; destruct Hsx, Hsy; lia.
Qed.

(** *** The recursion builds the tree *)
Definition build_result (ot : option nca_tree) (aggregations : list agg)
    : outcome (option SimpleMerkleNodeKey * list agg) :=
  Ok (tree_root <$> ot, aggregations ++ from_option tree_aggs [] ot).

Definition tree_for (h : Z) (s : SimpleMerkleNodeKey) (nodes : list SimpleMerkleNodeKey)
    (ot : option nca_tree) : Prop :=
  from_option tree_leaves [] ot = nodes ∧
  from_option (λ t, tree_wf h t ∧ ancestor s (tree_root t)) True ot.

Lemma tree_wf_root h t : tree_wf h t → key_wf (tree_root t) ∧ level (tree_root t) ≤ h.
Proof. destruct t; simpl; [intros [??]|intros (? & ? & _)]; split; (done || lia). Qed.

(** Combining the results of the two halves. *)
Lemma tree_for_combine h s nodes p ol or_ :
  key_wf s → level s < h ≤ 64 →
  tree_for h (left_child s) (take p nodes) ol → tree_for h (right_child s) (drop p nodes) or_ →
  tree_for h s nodes
    (match ol, or_ with
     | Some l, Some r => Some (TNode s l r)
     | Some l, None => Some l
     | None, Some r => Some r
     | None, None => None
     end).
Proof.
  intros Hs Hh [Hl Hlw] [Hr Hrw]. rewrite <- (take_drop p nodes), <- Hl, <- Hr.
  destruct ol as [l|], or_ as [r|]; simpl in *; split; simpl; rewrite ?app_nil_r; try done.
  - destruct Hlw, Hrw. split_and!; try done; [lia|apply ancestor_refl].
  - destruct Hlw as [? Hla]. split; [done|].
    eapply ancestor_trans, Hla. apply ancestor_left_child; [done|lia].
  - destruct Hrw as [? Hra]. split; [done|].
    eapply ancestor_trans, Hra. apply ancestor_right_child; [done|lia].
Qed.

(** One unfolding of the recursion on at least two nodes. *)
Lemma build_recursive_v0_S fuel xs s h aggs :
  (2 ≤ length xs)%nat →
  let p := partition_point
    (λ node, index node <? index (first_leaf_child (right_child s) h)) xs in
  build_recursive_v0 (S fuel) xs s h aggs =
    (let* (left_nca, aggs) := build_recursive_v0 fuel (take p xs) (left_child s) h aggs in
     let* (right_nca, aggs) := build_recursive_v0 fuel (drop p xs) (right_child s) h aggs in
     match left_nca, right_nca with
     | Some l, Some r =>
         let* c := returns (find_nearest_common_ancestor l r) in
         Ok (Some c, aggs ++ [mkAgg c l r])
     | Some l, None => Ok (Some l, aggs)
     | None, Some r => Ok (Some r, aggs)
     | None, None => Ok (None, aggs)
     end).
Proof. destruct xs as [|x [|y xs]]; simpl; [lia..|done]. Qed.

Lemma build_recursive_v0_spec (n : nat) : ∀ fuel nodes s h aggregations,
  (n < fuel)%nat → Z.of_nat n = h - level s → key_wf s → h ≤ 64 → nodes_below h s nodes →
  ∃ ot, build_recursive_v0 fuel nodes s h aggregations = build_result ot aggregations ∧
        tree_for h s nodes ot.
Proof.
  induction n as [|n IH]; intros [|fuel] nodes s h aggs Hf Hn Hs Hh Hnodes; try lia.
  all: destruct nodes as [|x [|y nodes]].
  1,4: exists None; unfold build_result; simpl; by rewrite app_nil_r.
  1,3: exists (Some (TLeaf x)); unfold build_result; simpl; rewrite app_nil_r; split; [done|];
    split; [done|]; destruct Hnodes as [Hx _]; apply Forall_singleton in Hx as (? & ? & ?); done.
  - apply nodes_below_single in Hnodes; simpl in *; lia.
  - destruct (nodes_below_split h s (x :: y :: nodes)) as [Hl Hr]; [done|lia|done|].
    assert (2 ≤ length (x :: y :: nodes))%nat as Hlen by (simpl; lia).
    remember (x :: y :: nodes) as xs eqn:Exs. rewrite build_recursive_v0_S by done.
    set (p := partition_point _ xs) in *.
    destruct (IH fuel (take p xs) (left_child s) h aggs) as (ol & -> & Hol);
      [lia|rewrite left_child_spec by (done || lia); simpl; lia
      |apply key_wf_left_child; [done|lia]|done|done|].
    cbn [outcome_bind build_result].
    destruct (IH fuel (drop p xs) (right_child s) h (aggs ++ from_option tree_aggs [] ol))
      as (or_ & -> & Hor);
      [lia|rewrite right_child_spec by (done || lia); simpl; lia
      |apply key_wf_right_child; [done|lia]|done|done|].
    cbn [outcome_bind build_result].
    eexists. split; [|apply (tree_for_combine h s xs p ol or_); [done|lia|done|done]].
    destruct ol as [l|], or_ as [r|]; unfold build_result; simpl; rewrite ?app_nil_r; try done.
    destruct Hol as [_ [Hlw Hla]], Hor as [_ [Hrw Hra]].
    rewrite (nca_split s) by (done || lia || eapply tree_wf_root; done).
    simpl. by rewrite !app_assoc.
Qed.

Lemma build_recursive_v1_v0 fuel : ∀ nodes s h aggregations,
  build_recursive_v1 fuel nodes s h aggregations = build_recursive_v0 fuel nodes s h aggregations.
Proof.
  induction fuel as [|fuel IH]; intros nodes s h aggs; [done|].
  destruct nodes as [|x [|y nodes]]; [done|done|].
  rewrite build_recursive_v0_S by (simpl; lia).
  remember (x :: y :: nodes) as xs eqn:Exs. cbn [build_recursive_v1].
  rewrite !bool_decide_false by (by subst). rewrite IH.
  destruct (build_recursive_v0 fuel (take _ xs) _ _ _) as [[??]| | |]; simpl; [|done..].
  by rewrite IH.
Qed.

(** The callers' leaves: at least two distinct nodes of one level. *)
Definition leaves_ok (h : Z) (leaves : list SimpleMerkleNodeKey) : Prop :=
  (2 ≤ length leaves)%nat ∧ NoDup leaves ∧ h ≤ 64 ∧ Forall (λ k, key_wf k ∧ level k = h) leaves.

#[global] Instance leaves_ok_dec h leaves : Decision (leaves_ok h leaves).
Proof. unfold leaves_ok. apply _. Defined.

Lemma StronglySorted_key_index l h :
  StronglySorted key_le l → NoDup l → Forall (λ k, level k = h) l → StronglySorted index_lt l.
Proof.
  induction 1 as [|x l Hs IH Hx]; [constructor|].
  intros [Hnin Hnd]%NoDup_cons [Hlx Hl]%Forall_cons. constructor; [auto|].
  rewrite Forall_forall in Hx, Hl |- *. intros y Hy.
  specialize (Hx y Hy). rewrite key_le_lex in Hx. unfold index_lt.
  assert (x ≠ y) by (intros ->; done). pose proof (Hl y Hy).
  destruct (decide (index x = index y)); [|lia].
  exfalso. apply H. apply key_eq; lia.
Qed.

Lemma leaves_ok_below h leaves :
  leaves_ok h leaves → nodes_below h (mkKey 0 0) (merge_sort key_le leaves).
Proof.
  intros (_ & Hnd & _ & Hall). pose proof (merge_sort_Permutation key_le leaves) as Hp.
  split.
  - rewrite Hp. eapply Forall_impl; [exact Hall|]. intros k [Hk Hl].
    split_and!; [done..|]. by apply ancestor_root.
  - apply StronglySorted_key_index with h.
    + apply (StronglySorted_merge_sort key_le).
    + by rewrite Hp.
    + rewrite Hp. eapply Forall_impl; [exact Hall|]. by intros k [??].
Qed.

Lemma leaves_ok_first h leaves :
  leaves_ok h leaves → ∃ k rest, leaves = k :: rest ∧ level k = h ∧ 0 ≤ h.
Proof.
  intros (Hlen & _ & _ & Hall). destruct leaves as [|k rest]; simpl in *; [lia|].
  apply Forall_cons in Hall as [[[??] <-] _]. eexists _, _. split_and!; [done|done|lia].
Qed.

(** The tree that a set of leaves determines. *)
Definition plan_tree (h : Z) (leaves : list SimpleMerkleNodeKey) (t : nca_tree) : Prop :=
  tree_leaves t = merge_sort key_le leaves ∧ tree_wf h t.

Lemma build_leaves h leaves :
  leaves_ok h leaves →
  ∃ t, build_recursive_v0 build_fuel (merge_sort key_le leaves) (mkKey 0 0) h [] =
         Ok (Some (tree_root t), tree_aggs t) ∧ plan_tree h leaves t.
Proof.
  intros Hok. destruct (leaves_ok_first h leaves Hok) as (k & rest & Hlv & Hk & Hh0).
  destruct (build_recursive_v0_spec (Z.to_nat h) build_fuel (merge_sort key_le leaves)
    (mkKey 0 0) h []) as (ot & Hb & Hleaves & Hwf).
  - destruct Hok as (_ & _ & ? & _). unfold build_fuel. lia.
  - simpl. lia.
  - apply key_wf_root.
  - by destruct Hok as (_ & _ & ? & _).
  - by apply leaves_ok_below.
  - unfold build_result in Hb. destruct ot as [t|]; cbn [from_option fmap option_fmap option_map app] in *.
    + exists t. rewrite Hb. split; [done|]. split; [done|]. by destruct Hwf.
    + exfalso. symmetry in Hleaves.
      pose proof (merge_sort_Permutation key_le leaves) as Hp. rewrite Hleaves in Hp.
      apply Permutation_nil_l in Hp. subst. done.
Qed.

(** *** Facts about aggregation trees *)
Lemma tree_wf_left h k l r :
  tree_wf h (TNode k l r) → h ≤ 64 →
  ancestor k (tree_root l) ∧ level k < level (tree_root l).
Proof.
  intros (Hk & Hlt & Hl & _) Hh. pose proof (ancestor_left_child k Hk ltac:(lia)) as Ha.
  split; [by eapply ancestor_trans|]. rewrite left_child_spec in Hl by (done || lia).
  destruct Hl; simpl in *; lia.
Qed.

Lemma tree_wf_right h k l r :
  tree_wf h (TNode k l r) → h ≤ 64 →
  ancestor k (tree_root r) ∧ level k < level (tree_root r).
Proof.
  intros (Hk & Hlt & _ & Hr & _) Hh. pose proof (ancestor_right_child k Hk ltac:(lia)) as Ha.
  split; [by eapply ancestor_trans|]. rewrite right_child_spec in Hr by (done || lia).
  destruct Hr; simpl in *; lia.
Qed.

(** What a node of the tree is: its operands lie in the two halves below it. *)
Definition agg_wf (h : Z) (x : agg) : Prop :=
  key_wf (nca x) ∧ key_wf (left x) ∧ key_wf (right x) ∧ level (nca x) < h ∧
  ancestor (left_child (nca x)) (left x) ∧ ancestor (right_child (nca x)) (right x).

Lemma tree_aggs_wf h t x : tree_wf h t → x ∈ tree_aggs t → agg_wf h x.
Proof.
  induction t as [k|k l IHl r IHr]; simpl; [set_solver|].
  intros (Hk & Hlt & Hla & Hra & Hl & Hr). rewrite !elem_of_app, list_elem_of_singleton.
  intros [?|[?| ->]]; [auto..|]. split_and!; simpl; try done; by eapply tree_wf_root.
Qed.

Lemma tree_aggs_below h t x : tree_wf h t → h ≤ 64 → x ∈ tree_aggs t → ancestor (tree_root t) (nca x).
Proof.
  intros Hwf Hh. induction t as [k|k l IHl r IHr]; [set_solver|].
  pose proof (tree_wf_left _ _ _ _ Hwf Hh) as [Hl _].
  pose proof (tree_wf_right _ _ _ _ Hwf Hh) as [Hr _].
  destruct Hwf as (_ & _ & _ & _ & Hwl & Hwr).
  simpl. rewrite !elem_of_app, list_elem_of_singleton. intros [Hx|[Hx| ->]].
  - apply (ancestor_trans _ _ _ Hl), IHl; done.
  - apply (ancestor_trans _ _ _ Hr), IHr; done.
  - apply ancestor_refl.
Qed.

(** The operands of an aggregation of [t] lie strictly below the root of [t]. *)
Lemma agg_operands h x :
  agg_wf h x → h ≤ 64 →
  (ancestor (nca x) (left x) ∧ level (nca x) < level (left x)) ∧
  (ancestor (nca x) (right x) ∧ level (nca x) < level (right x)).
Proof.
  intros (Hn & Hl & Hr & Hlt & Hla & Hra) Hh. split.
  - split; [eapply ancestor_trans, Hla; apply ancestor_left_child; [done|lia]|].
    rewrite left_child_spec in Hla by (done || lia). destruct Hla; simpl in *; lia.
  - split; [eapply ancestor_trans, Hra; apply ancestor_right_child; [done|lia]|].
    rewrite right_child_spec in Hra by (done || lia). destruct Hra; simpl in *; lia.
Qed.

(** A projection of the aggregations that stays below the root and separates
    the root's aggregation from the others is injective on the tree. *)
Lemma tree_aggs_NoDup (f : agg → SimpleMerkleNodeKey) h t :
  h ≤ 64 →
  (∀ x, agg_wf h x → ancestor (nca x) (f x)) →
  (∀ k l r x, tree_wf h (TNode k l r) → x ∈ tree_aggs l ∨ x ∈ tree_aggs r →
     f x ≠ f (mkAgg k (tree_root l) (tree_root r))) →
  tree_wf h t → NoDup (f <$> tree_aggs t).
Proof.
  intros Hh Hf Hroot.
  assert (∀ c t' z, tree_wf h t' → z ∈ tree_aggs t' → ancestor c (tree_root t') → ancestor c (f z))
    as Hbelow.
  { intros c t' z Hw Hz Hc. apply (ancestor_trans _ _ _ Hc), (ancestor_trans _ (nca z)).
    - by apply tree_aggs_below with h.
    - apply Hf. by apply tree_aggs_wf with t'. }
  induction t as [k|k l IHl r IHr]; intros Hwf; [constructor|].
  pose proof Hwf as (Hk & Hlt & Hla & Hra & Hwl & Hwr).
  cbn [tree_aggs]. rewrite !fmap_app. apply NoDup_app. split_and!; [by auto| |].
  { intros y (x & -> & Hx)%list_elem_of_fmap. rewrite elem_of_app.
    intros [(z & Heq & Hz)%list_elem_of_fmap|Heq%list_elem_of_singleton]; [|by apply (Hroot _ _ _ _ Hwf (or_introl Hx))].
    apply (left_right_disjoint k (f x)); [done|lia|by apply Hbelow with l|].
    rewrite Heq. by apply Hbelow with r. }
  apply NoDup_app. split_and!; [by auto| |apply NoDup_singleton].
  intros y (x & -> & Hx)%list_elem_of_fmap Heq%list_elem_of_singleton.
  by apply (Hroot _ _ _ _ Hwf (or_intror Hx)).
Qed.

(** Below the root of [t], with its operands strictly below. *)
Lemma tree_aggs_operands h t x :
  h ≤ 64 → tree_wf h t → x ∈ tree_aggs t →
  (ancestor (tree_root t) (left x) ∧ level (tree_root t) < level (left x)) ∧
  (ancestor (tree_root t) (right x) ∧ level (tree_root t) < level (right x)).
Proof.
  intros Hh Hwf Hx. pose proof (tree_aggs_below h t x Hwf Hh Hx) as Hb.
  destruct (agg_operands h x (tree_aggs_wf h t x Hwf Hx) Hh) as [[Hl Hll] [Hr Hrl]].
  split; (split; [by eapply ancestor_trans|destruct Hb; lia]).
Qed.

Lemma tree_aggs_NoDup_nca h t : h ≤ 64 → tree_wf h t → NoDup (nca <$> tree_aggs t).
Proof.
  intros Hh. apply (tree_aggs_NoDup nca h t Hh); [intros; apply ancestor_refl|].
  intros k l r x Hwf Hx Heq; simpl in Heq.
  pose proof (tree_wf_left _ _ _ _ Hwf Hh) as [_ Hl].
  pose proof (tree_wf_right _ _ _ _ Hwf Hh) as [_ Hr].
  destruct Hwf as (_ & _ & _ & _ & Hwl & Hwr).
  destruct Hx as [Hx|Hx]; eapply tree_aggs_below in Hx; try done; destruct Hx; rewrite Heq in *; lia.
Qed.

Lemma tree_aggs_NoDup_left h t : h ≤ 64 → tree_wf h t → NoDup (left <$> tree_aggs t).
Proof.
  intros Hh. apply (tree_aggs_NoDup left h t Hh); [intros x Hx; by eapply agg_operands|].
  intros k l r x (Hk & Hlt & Hla & Hra & Hwl & Hwr) Hx Heq; simpl in Heq.
  destruct Hx as [Hx|Hx]; apply (tree_aggs_operands h) in Hx as [[Ha Hlev] _]; try done;
    rewrite Heq in *; [lia|].
  apply (left_right_disjoint k (tree_root l)); [done|lia|exact Hla|by eapply ancestor_trans].
Qed.

Lemma tree_aggs_NoDup_right h t : h ≤ 64 → tree_wf h t → NoDup (right <$> tree_aggs t).
Proof.
  intros Hh. apply (tree_aggs_NoDup right h t Hh); [intros x Hx; by eapply agg_operands|].
  intros k l r x (Hk & Hlt & Hla & Hra & Hwl & Hwr) Hx Heq; simpl in Heq.
  destruct Hx as [Hx|Hx]; apply (tree_aggs_operands h) in Hx as [_ [Ha Hlev]]; try done;
    rewrite Heq in *; [|lia].
  apply (left_right_disjoint k (tree_root r)); [done|lia|by eapply ancestor_trans|exact Hra].
Qed.

(** *** Levels of the tree *)
Definition depths (n : nat) (t : nca_tree) : list (list agg) := (λ d, at_depth d t) <$> seq 0 n.

(** The groups: the deepest level first, the root's aggregation last. *)
Definition tree_groups (t : nca_tree) : list (list agg) := reverse (depths (tree_height_of t) t).

Lemma at_depth_submseteq d t : at_depth d t ⊆+ tree_aggs t.
Proof.
  revert d. induction t as [k|k l IHl r IHr]; intros d; [done|].
  destruct d as [|d]; simpl.
  - apply submseteq_inserts_l, submseteq_inserts_l. done.
  - rewrite (app_assoc (tree_aggs l)). apply submseteq_inserts_r, submseteq_app; auto.
Qed.

Lemma at_depth_elem d t x : x ∈ at_depth d t → x ∈ tree_aggs t.
Proof. intros. by eapply elem_of_submseteq, at_depth_submseteq. Qed.

Lemma at_depth_nil d t : at_depth d t = [] ↔ (tree_height_of t ≤ d)%nat.
Proof.
  revert d. induction t as [k|k l IHl r IHr]; intros [|d]; simpl.
  4: rewrite app_nil, IHl, IHr; lia.
  all: split; (done || lia).
Qed.

Lemma tree_height_length t : (tree_height_of t ≤ length (tree_aggs t))%nat.
Proof. induction t; simpl; rewrite ?length_app; simpl; lia. Qed.

Lemma tree_leaves_length t : length (tree_leaves t) = S (length (tree_aggs t)).
Proof. induction t; simpl; rewrite ?length_app; simpl; lia. Qed.

Lemma at_depth_length d t : (length (at_depth d t) ≤ 2 ^ d)%nat.
Proof.
  revert d. induction t as [k|k l IHl r IHr]; intros [|d]; simpl; [lia..| |].
  - lia.
  - rewrite length_app. specialize (IHl d). specialize (IHr d). lia.
Qed.

(** Every aggregation is in exactly one level. *)
Lemma depths_S n t l r k : t = TNode k l r →
  concat (depths (S n) t) ≡ₚ
    mkAgg k (tree_root l) (tree_root r) :: concat (depths n l) ++ concat (depths n r).
Proof.
  intros ->. unfold depths. cbn [seq]. rewrite fmap_cons. cbn [concat].
  rewrite <- fmap_S_seq, <- list_fmap_compose. cbn [app at_depth]. constructor.
  induction (seq 0 n) as [|d ds IH]; [done|]. rewrite !fmap_cons. cbn [concat compose at_depth].
  rewrite IH. solve_Permutation.
Qed.

Lemma depths_perm t : ∀ n, (tree_height_of t ≤ n)%nat → concat (depths n t) ≡ₚ tree_aggs t.
Proof.
  induction t as [k|k l IHl r IHr]; intros n Hn.
  - unfold depths. induction (seq 0 n); simpl; done.
  - simpl in Hn. destruct n as [|n]; [lia|]. rewrite (depths_S n _ l r k) by done.
    rewrite (IHl n), (IHr n) by lia. simpl. solve_Permutation.
Qed.

(** *** The groups of the code are the levels of the tree *)
Lemma build_nca_map_snoc xs x : build_nca_map (xs ++ [x]) = <[nca x := x]> (build_nca_map xs).
Proof. unfold build_nca_map. by rewrite foldl_snoc. Qed.

Lemma build_nca_map_lookup xs x :
  NoDup (nca <$> xs) → x ∈ xs → build_nca_map xs !! nca x = Some x.
Proof.
  induction xs as [|y xs IH] using rev_ind; [set_solver|].
  rewrite fmap_app, NoDup_app, elem_of_app, list_elem_of_singleton, build_nca_map_snoc.
  intros (Hnd & Hdisj & _) [Hx| ->]; [|by rewrite lookup_insert_eq].
  rewrite lookup_insert_ne; [auto|]. intros Heq.
  apply (Hdisj (nca x)); [by apply list_elem_of_fmap_2|]. rewrite <- Heq. set_solver.
Qed.

(** The map sends every node of [t] to its aggregation. *)
Definition map_covers (m : gmap SimpleMerkleNodeKey agg) (t : nca_tree) : Prop :=
  ∀ x, x ∈ tree_aggs t → m !! nca x = Some x.

Lemma tree_map_covers h t : h ≤ 64 → tree_wf h t → map_covers (build_nca_map (tree_aggs t)) t.
Proof. intros Hh Hwf x Hx. apply build_nca_map_lookup; [by apply tree_aggs_NoDup_nca with h|done]. Qed.

Lemma map_covers_node m k l r :
  map_covers m (TNode k l r) → map_covers m l ∧ map_covers m r.
Proof. unfold map_covers; simpl. set_solver. Qed.

(** What the loop pushes for one operand is that operand's own aggregation. *)
Lemma operand_step h m t :
  tree_wf h t → map_covers m t →
  (if level (tree_root t) =? h then [] else
     match m !! tree_root t with Some y => [y] | None => [] end) = at_depth 0 t.
Proof.
  destruct t as [k|k l r]; simpl.
  - intros [_ ->]. by rewrite Z.eqb_refl.
  - intros (_ & Hlt & _) Hm. rewrite (proj2 (Z.eqb_neq _ _)) by lia.
    specialize (Hm (mkAgg k (tree_root l) (tree_root r))). simpl in Hm.
    rewrite Hm; [done|set_solver].
Qed.

Lemma next_level_app m h xs ys :
  next_level_of m h (xs ++ ys) = next_level_of m h xs ++ next_level_of m h ys.
Proof. apply flat_map_app. Qed.

Lemma next_level_at_depth h m t : ∀ d,
  tree_wf h t → map_covers m t → next_level_of m h (at_depth d t) = at_depth (S d) t.
Proof.
  induction t as [k|k l IHl r IHr]; intros d Hwf Hm; [done|].
  apply map_covers_node in Hm as [Hml Hmr]. destruct Hwf as (_ & _ & _ & _ & Hwl & Hwr).
  destruct d as [|d].
  - unfold next_level_of. cbn [at_depth flat_map left right]. rewrite app_nil_r.
    f_equal; by apply operand_step.
  - cbn [at_depth]. rewrite next_level_app, IHl, IHr by done. done.
Qed.

Lemma groups_loop_spec h m t : tree_wf h t → map_covers m t → ∀ n fuel d,
  (n + d = tree_height_of t)%nat → (0 < n ≤ fuel)%nat →
  groups_loop fuel m h (at_depth d t) (depths d t) = Ok (tree_groups t).
Proof.
  intros Hwf Hm n. induction n as [|n IH]; intros [|fuel] d Hd Hf; try lia.
  cbn [groups_loop]. rewrite next_level_at_depth by done.
  assert (depths d t ++ [at_depth d t] = depths (S d) t) as ->.
  { unfold depths. rewrite seq_S, fmap_app. done. }
  destruct (at_depth (S d) t) as [|y ys] eqn:E.
  - apply at_depth_nil in E. unfold tree_groups. do 3 f_equal. lia.
  - rewrite <- E. apply IH; [lia|]. destruct n; [|lia]. exfalso.
    assert (at_depth (S d) t = []) by (apply at_depth_nil; lia). congruence.
Qed.

(** The last aggregation is the root's. *)
Lemma tree_aggs_last t k l r :
  t = TNode k l r → last (tree_aggs t) = Some (mkAgg k (tree_root l) (tree_root r)).
Proof. intros ->. simpl. by rewrite app_assoc, last_snoc. Qed.

(** Both ways the functions build the groups from the aggregations. *)
Lemma groups_of_aggs h t k l r :
  h ≤ 64 → tree_wf h t → t = TNode k l r →
  (if (level (tree_root l) =? h) && (level (tree_root r) =? h)
   then Ok [[mkAgg k (tree_root l) (tree_root r)]]
   else groups_loop (S (length (tree_aggs t))) (build_nca_map (tree_aggs t)) h
          [mkAgg k (tree_root l) (tree_root r)] []) = Ok (tree_groups t).
Proof.
  intros Hh Hwf Ht. case_bool.
  - apply andb_prop in E as [E1 E2]; zify_bool. subst t. simpl in Hwf.
    destruct l as [?|? ? ?]; [|destruct Hwf as (_ & _ & _ & _ & (_ & ? & _) & _); simpl in *; lia].
    destruct r as [?|? ? ?]; [|destruct Hwf as (_ & _ & _ & _ & _ & (_ & ? & _)); simpl in *; lia].
    done.
  - pose proof (tree_height_length t) as Hlen.
    assert (at_depth 0 t = [mkAgg k (tree_root l) (tree_root r)]) as <- by (by subst).
    change (@nil (list agg)) with (depths 0 t).
    apply groups_loop_spec with (n := tree_height_of t);
      [done|by apply tree_map_covers with h|lia|subst; simpl in *; lia].
Qed.

Lemma plan_tree_node h leaves t :
  leaves_ok h leaves → plan_tree h leaves t → ∃ k l r, t = TNode k l r.
Proof.
  intros (Hlen & _) [Hlv _]. destruct t as [k|k l r]; [|by eauto].
  pose proof (Permutation_length (merge_sort_Permutation key_le leaves)) as Hp.
  rewrite <- Hlv in Hp. simpl in Hp. lia.
Qed.

Lemma generate_groups_v1_spec h leaves lvl :
  leaves_ok h leaves →
  ∃ t, generate_nca_tree_groups_v1 leaves lvl = Ok (tree_groups t) ∧
       generate_nca_tree_v0 leaves = Ok (tree_aggs t) ∧
       generate_nca_tree_groups_v0 leaves h = Ok (tree_groups t) ∧ plan_tree h leaves t.
Proof.
  intros Hok. destruct (build_leaves h leaves Hok) as (t & Hb & Ht).
  destruct (plan_tree_node h leaves t Hok Ht) as (k & l & r & Hnode).
  destruct (leaves_ok_first h leaves Hok) as (k0 & rest & Hlv & Hk & _).
  destruct Hok as (Hlen & _ & Hh & _). exists t.
  assert (generate_nca_tree_v0 leaves = Ok (tree_aggs t)) as Hv0.
  { unfold generate_nca_tree_v0. case_bool; [apply Nat.ltb_lt in E; lia|].
    assert (leaves !! 0%nat = Some k0) as -> by (by rewrite Hlv).
    cbn [unwrap outcome_bind]. rewrite Hk, Hb. done. }
  pose proof (groups_of_aggs h t k l r Hh (proj2 Ht) Hnode) as Hg.
  pose proof (tree_aggs_last t k l r Hnode) as Hlast.
  split_and!; [|done| |done].
  - unfold generate_nca_tree_groups_v1. case_bool; [apply Nat.ltb_lt in E; lia|].
    assert (leaves !! 0%nat = Some k0) as -> by (by rewrite Hlv).
    cbn [unwrap outcome_bind]. rewrite build_recursive_v1_v0, Hk, Hb. cbn [outcome_bind].
    rewrite bool_decide_false by (intros Hn; by rewrite Hn in Hlast). rewrite Hlast. exact Hg.
  - unfold generate_nca_tree_groups_v0. rewrite Hv0. cbn [outcome_bind]. rewrite Hlast. exact Hg.
Qed.

(** *** The groups satisfy the dependency check *)
Lemma NoDup_fmap_filter {A} (f : A → SimpleMerkleNodeKey) (l : list A) v :
  NoDup (f <$> l) → (length (filter (λ x, f x = v) l) ≤ 1)%nat.
Proof.
  induction l as [|x l IH]; simpl; [lia|]. rewrite NoDup_cons. intros [Hnin Hnd].
  rewrite filter_cons. destruct (decide (f x = v)) as [<-|]; [|by apply IH].
  simpl. destruct (filter (λ y, f y = f x) l) as [|y ys] eqn:E; [simpl; lia|].
  exfalso. apply Hnin. assert (y ∈ filter (λ y, f y = f x) l) as Hy by (rewrite E; set_solver).
  apply list_elem_of_filter in Hy as [Hy Hin]. rewrite <- Hy. by apply list_elem_of_fmap_2.
Qed.

(** An operand is a leaf or the result of an aggregation one level below. *)
Definition operand_below (h : Z) (d : nat) (t : nca_tree) (o : SimpleMerkleNodeKey) : Prop :=
  (o ∈ tree_leaves t ∧ level o = h) ∨ ∃ y, y ∈ at_depth d t ∧ nca y = o.

Lemma operand_below_root h t : tree_wf h t → operand_below h 0 t (tree_root t).
Proof.
  destruct t as [k|k l r]; simpl; [intros [??]; left; simpl; set_solver|intros _; right].
  exists (mkAgg k (tree_root l) (tree_root r)). simpl; set_solver.
Qed.

Lemma operand_below_node h d k l r o :
  operand_below h d l o ∨ operand_below h d r o → operand_below h (S d) (TNode k l r) o.
Proof.
  unfold operand_below; simpl. setoid_rewrite elem_of_app.
  intros [[[??]|(y & ? & ?)]|[[??]|(y & ? & ?)]]; eauto 6.
Qed.

Lemma at_depth_children h t : ∀ d x,
  tree_wf h t → x ∈ at_depth d t →
  operand_below h (S d) t (left x) ∧ operand_below h (S d) t (right x).
Proof.
  induction t as [k|k l IHl r IHr]; intros d x Hwf Hx; [simpl in Hx; set_solver|].
  destruct Hwf as (_ & _ & _ & _ & Hwl & Hwr). destruct d as [|d]; simpl in Hx.
  - apply list_elem_of_singleton in Hx as ->; simpl.
    split; apply operand_below_node; eauto using operand_below_root.
  - apply elem_of_app in Hx as [Hx|Hx]; [destruct (IHl d x Hwl Hx)|destruct (IHr d x Hwr Hx)];
      split; apply operand_below_node; eauto.
Qed.

Lemma check_node_at_depth h t d x :
  h ≤ 64 → tree_wf h t → x ∈ at_depth d t →
  check_node (at_depth d t) (at_depth (S d) t) h x = true.
Proof.
  intros Hh Hwf Hx. unfold check_node.
  assert (∀ f : agg → SimpleMerkleNodeKey, NoDup (f <$> tree_aggs t) →
    (length (filter (λ y, f y = f x) (at_depth d t)) <=? 1)%nat = true) as Hf.
  { intros f Hnd. apply Nat.leb_le, NoDup_fmap_filter.
    eapply NoDup_of_submseteq, Hnd. apply fmap_submseteq, at_depth_submseteq. }
  rewrite (Hf nca), (Hf left), (Hf right) by
    (eapply tree_aggs_NoDup_nca || eapply tree_aggs_NoDup_left || eapply tree_aggs_NoDup_right; done).
  assert (∀ k, operand_below h (S d) t k →
    (level k =? h) || existsb (λ y, bool_decide (nca y = k)) (at_depth (S d) t) = true) as Hk.
  { intros k [[_ ->]|(y & Hy & <-)]; [by rewrite Z.eqb_refl|].
    apply orb_true_iff; right. apply existsb_exists. exists y.
    split; [by apply list_elem_of_In|by apply bool_decide_eq_true_2]. }
  destruct (at_depth_children h t d x Hwf Hx) as [H1 H2].
  by rewrite (Hk _ H1), (Hk _ H2).
Qed.

Lemma check_tree_groups h t : h ≤ 64 → tree_wf h t →
  check_nca_tree_groups (tree_groups t) h = true.
Proof.
  intros Hh Hwf. unfold tree_groups. generalize (tree_height_of t) as n.
  assert (∀ n, depths (S n) t = depths n t ++ [at_depth n t]) as HS
    by (intros; unfold depths; by rewrite seq_S, fmap_app).
  induction n as [|n IH]; [done|]. rewrite HS, reverse_snoc.
  destruct n as [|n]; [done|]. rewrite HS, reverse_snoc in IH |- *.
  change (forallb (check_node (at_depth n t) (at_depth (S n) t) h) (at_depth n t) &&
    check_nca_tree_groups (at_depth n t :: reverse (depths n t)) h = true).
  rewrite IH, andb_true_r. apply forallb_forall. intros x Hx%list_elem_of_In.
  by apply check_node_at_depth.
Qed.

(** *** The order of the aggregations *)

(** Every operand of the [i]-th aggregation is a leaf or an earlier result. *)
Definition operand_ready (leaves : list SimpleMerkleNodeKey) (aggs : list agg) (i : nat)
    (o : SimpleMerkleNodeKey) : Prop :=
  o ∈ leaves ∨ ∃ j y, (j < i)%nat ∧ aggs !! j = Some y ∧ nca y = o.

Lemma operand_ready_mono leaves leaves' aggs pre post i o :
  leaves ⊆ leaves' → operand_ready leaves aggs i o →
  operand_ready leaves' (pre ++ aggs ++ post) (length pre + i) o.
Proof.
  intros Hl [?|(j & y & Hj & Hy & ?)]; [left; set_solver|right].
  exists (length pre + j)%nat, y. split_and!; [lia| |done].
  rewrite lookup_app_r by lia. rewrite Nat.add_sub', lookup_app_l; [done|].
  by eapply lookup_lt_Some.
Qed.

Lemma tree_root_ready t : operand_ready (tree_leaves t) (tree_aggs t) (length (tree_aggs t)) (tree_root t).
Proof.
  destruct t as [k|k l r]; simpl; [left; set_solver|right].
  eexists (length (tree_aggs l ++ tree_aggs r)), _. rewrite app_assoc, !length_app; simpl.
  split_and!; [lia|rewrite lookup_app_r by (rewrite length_app; lia)|].
  - rewrite length_app, Nat.sub_diag. done.
  - done.
Qed.

Lemma tree_aggs_ready t : ∀ i x, tree_aggs t !! i = Some x →
  operand_ready (tree_leaves t) (tree_aggs t) i (left x) ∧
  operand_ready (tree_leaves t) (tree_aggs t) i (right x).
Proof.
  induction t as [k|k l IHl r IHr]; intros i x Hx; simpl in *; [done|].
  apply lookup_app_Some in Hx as [Hx|[Hi Hx]].
  { apply IHl in Hx as [H1 H2].
    split; (eapply (operand_ready_mono _ _ _ [] _ i); [|done]); clear; set_solver. }
  apply lookup_app_Some in Hx as [Hx|[Hi2 Hx]].
  { apply IHr in Hx as [H1 H2].
    replace i with (length (tree_aggs l) + (i - length (tree_aggs l)))%nat by lia.
    split; (eapply operand_ready_mono; [|done]); clear; set_solver. }
  apply list_lookup_singleton_Some in Hx as [Hi3 <-]; simpl.
  replace i with (length (tree_aggs l) + length (tree_aggs r))%nat by lia.
  split; [|eapply operand_ready_mono; [|apply tree_root_ready]; clear; set_solver].
  destruct (tree_root_ready l) as [?|(j & y & ? & ? & ?)]; [left; clear -H; set_solver|right].
  exists j, y. split_and!; [lia| |done]. by apply lookup_app_l_Some.
Qed.

(** Every leaf and every result but the last is the operand of exactly one
    aggregation. *)
Lemma tree_aggs_consume t :
  (left <$> tree_aggs t) ++ (right <$> tree_aggs t) ++ [tree_root t] ≡ₚ
  tree_leaves t ++ (nca <$> tree_aggs t).
Proof.
  induction t as [k|k l IHl r IHr]; [done|]. simpl. rewrite !fmap_app; simpl.
  transitivity (((left <$> tree_aggs l) ++ (right <$> tree_aggs l) ++ [tree_root l]) ++
    ((left <$> tree_aggs r) ++ (right <$> tree_aggs r) ++ [tree_root r]) ++ [k]);
    [solve_Permutation|]. rewrite IHl, IHr. solve_Permutation.
Qed.

(** C19: for distinct leaves of one level (at most 64), [generate_nca_tree_v0]
    returns a complete and correctly ordered aggregation plan: one aggregation
    fewer than there are leaves, each aggregating two nodes at their nearest
    common ancestor, every operand being a leaf or the result of an earlier
    aggregation, and every leaf and every intermediate result being consumed
    exactly once, so that a single result, the last one, remains. *)
Theorem generate_nca_tree_v0_plan (h : Z) (leaves : list SimpleMerkleNodeKey) :
  leaves_ok h leaves →
  ∃ aggs root,
    generate_nca_tree_v0 leaves = Ok aggs ∧
    last aggs = Some root ∧
    S (length aggs) = length leaves ∧
    NoDup (nca <$> aggs) ∧
    (∀ x, x ∈ aggs → find_nearest_common_ancestor (left x) (right x) = Some (nca x)) ∧
    (∀ i x, aggs !! i = Some x →
       operand_ready leaves aggs i (left x) ∧ operand_ready leaves aggs i (right x)) ∧
    (left <$> aggs) ++ (right <$> aggs) ++ [nca root] ≡ₚ leaves ++ (nca <$> aggs).
Proof.
  intros Hok. destruct (generate_groups_v1_spec h leaves 0 Hok) as (t & _ & Hv0 & _ & Ht).
  destruct (plan_tree_node h leaves t Hok Ht) as (k & l & r & Hnode).
  destruct Ht as [Hlv Hwf]. pose proof Hok as (_ & _ & Hh & _).
  pose proof (merge_sort_Permutation key_le leaves) as Hp. rewrite <- Hlv in Hp.
  exists (tree_aggs t), (mkAgg k (tree_root l) (tree_root r)). split_and!.
  - done.
  - by apply tree_aggs_last.
  - by rewrite <- tree_leaves_length, Hp.
  - by apply tree_aggs_NoDup_nca with h.
  - intros x Hx. destruct (tree_aggs_wf h t x Hwf Hx) as (?&?&?&?&?&?).
    apply nca_split; (done || lia).
  - intros i x Hx. apply tree_aggs_ready in Hx as [H1 H2].
    unfold operand_ready in *. split; [destruct H1|destruct H2]; eauto; left; by rewrite <- Hp.
  - rewrite <- Hp, <- tree_aggs_consume. by subst t.
Qed.

Lemma generate_nca_tree_v0_plan_witness :
  ∃ aggs root,
    generate_nca_tree_v0 [mkKey 24 10; mkKey 24 140; mkKey 24 26; mkKey 24 76] = Ok aggs ∧
    last aggs = Some root ∧ length aggs = 3%nat ∧ nca root = mkKey 16 0.
Proof.
  destruct (generate_nca_tree_v0_plan 24 [mkKey 24 10; mkKey 24 140; mkKey 24 26; mkKey 24 76])
    as (aggs & root & Hg & Hl & Hlen & _).
  { apply (bool_decide_unpack _). vm_compute. exact I. }
  exists aggs, root. split_and!; [done|done|simpl in Hlen; lia|].
  revert Hg. vm_compute. intros [= <-]. vm_compute in Hl. by simplify_eq.
Defined.

(** For distinct leaves of one level, [generate_nca_tree_groups_v1] (whose
    level argument is unused) and [generate_nca_tree_groups_v0] return the same
    groups. The groups regroup the aggregations of [generate_nca_tree_v0]
    without loss or repetition, pass [check_nca_tree_groups] (operands of a
    group are leaves or results of the group directly below), end with the
    group of the root alone, are never empty, and the group at height [j] below
    the root has at most [2 ^ j] members. *)
Theorem generate_nca_tree_groups_correct (h lvl : Z) (leaves : list SimpleMerkleNodeKey) :
  leaves_ok h leaves →
  ∃ groups aggs root,
    generate_nca_tree_groups_v1 leaves lvl = Ok groups ∧
    generate_nca_tree_groups_v0 leaves h = Ok groups ∧
    generate_nca_tree_v0 leaves = Ok aggs ∧
    concat groups ≡ₚ aggs ∧
    check_nca_tree_groups groups h = true ∧
    last aggs = Some root ∧ last groups = Some [root] ∧
    (∀ j g, reverse groups !! j = Some g → (0 < length g ≤ 2 ^ j)%nat).
Proof.
  intros Hok. destruct (generate_groups_v1_spec h leaves lvl Hok) as (t & Hv1 & Hv0 & Hg0 & Ht).
  destruct (plan_tree_node h leaves t Hok Ht) as (k & l & r & Hnode).
  destruct Ht as [Hlv Hwf]. pose proof Hok as (_ & _ & Hh & _).
  exists (tree_groups t), (tree_aggs t), (mkAgg k (tree_root l) (tree_root r)).
  split_and!; try done.
  - unfold tree_groups. rewrite reverse_Permutation. by apply depths_perm.
  - by apply check_tree_groups.
  - by apply tree_aggs_last.
  - unfold tree_groups. rewrite last_reverse. unfold depths. subst t. done.
  - intros j g. unfold tree_groups, depths. rewrite reverse_involutive, list_lookup_fmap_Some.
    intros (d & -> & [-> Hd]%lookup_seq). split; [|apply at_depth_length].
    destruct (at_depth (0 + j) t) eqn:E; [|simpl; lia]. apply at_depth_nil in E. lia.
Qed.

Lemma generate_nca_tree_groups_correct_witness :
  ∃ groups, generate_nca_tree_groups_v1
    (mkKey 24 <$> [238671; 5244926; 13271444; 13990092; 14444179]) 24 = Ok groups ∧
    check_nca_tree_groups groups 24 = true ∧
    (length <$> groups) = [1; 2; 1]%nat.
Proof.
  destruct (generate_nca_tree_groups_correct 24 24
    (mkKey 24 <$> [238671; 5244926; 13271444; 13990092; 14444179]))
    as (groups & aggs & root & Hg & _ & _ & _ & Hc & _).
  { apply (bool_decide_unpack _). vm_compute. exact I. }
  exists groups. split_and!; [done|done|].
  revert Hg. vm_compute. by intros [= <-].
Defined.

(** [generate_nca_tree_groups_v2] groups by dependency height instead of
    depth, and on the five leaves that the source's own comment uses as its
    example it returns groups that [check_nca_tree_groups] rejects, with the
    same aggregations as version 1. *)
Theorem generate_nca_tree_groups_v2_violates_check :
  ∃ groups1 groups2,
    generate_nca_tree_groups_v1
      (mkKey 24 <$> [238671; 5244926; 13271444; 13990092; 14444179]) 24 = Ok groups1 ∧
    generate_nca_tree_groups_v2
      (mkKey 24 <$> [238671; 5244926; 13271444; 13990092; 14444179]) 24 = Ok groups2 ∧
    check_nca_tree_groups groups1 24 = true ∧
    check_nca_tree_groups groups2 24 = false ∧
    (length <$> groups1) = [1; 2; 1]%nat ∧ (length <$> groups2) = [2; 1; 1]%nat.
Proof. eexists _, _. split_and!; vm_compute; reflexivity. Qed.

(** Equal leaves are never separated: the recursion does not end. *)
Lemma build_recursive_v0_duplicate fuel : ∀ x s h aggs,
  build_recursive_v0 fuel [x; x] s h aggs = Diverge.
Proof.
  induction fuel as [|fuel IH]; intros x s h aggs; [done|].
  rewrite build_recursive_v0_S by (simpl; lia). cbn [partition_point].
  destruct (index x <? _); cbn [take drop]; [by rewrite IH|].
  destruct fuel as [|fuel]; [done|].
  assert (∀ s', build_recursive_v0 (S fuel) [] s' h aggs = Ok (None, aggs)) as -> by done.
  cbn [outcome_bind]. by rewrite IH.
Qed.
