(* ===== verification/MerklePlanner.v ===== *)
(** * The planner visitors

    [parth_core/src/data/hash/merkle_planner.rs]: given the leaves of an
    aggregation with a value each, a visitor is called once per aggregation,
    operands before results, with a key of the reward tree for every call. The
    three entry points differ in where the reward tree is rooted and in
    whether the visitor can fail. *)
From stdpp Require Import prelude gmap list sorting strings.
From Stdlib Require Import ZArith Lia.
From S2P Require Import Prelude MerkleKey NcaTree.

Section planner.
Context {St T : Type}.

(** The visitor with its own state and the trees it writes in [St]. The last
    argument is [is_reward_root]; the two infallible entry points ignore it. *)
Definition visit_fn : Type :=
  St → T → SimpleMerkleNodeKey → T → SimpleMerkleNodeKey → SimpleMerkleNodeKey →
  SimpleMerkleNodeKey → bool → outcome (St * T).

Record NCAMerklePlannerVisitor : Type := mkVisitor {
  visit : St → T → SimpleMerkleNodeKey → T → SimpleMerkleNodeKey → SimpleMerkleNodeKey →
          SimpleMerkleNodeKey → St * T;
  init_with_reward_tree_height : St → Z → St;
}.

Record NCAMerklePlannerVisitorWithTreeStores : Type := mkVisitorWithTreeStores {
  visit_stores : visit_fn;
  init_stores : St → Z → list Z → Z → St;
}.

Definition lift_visit (v : NCAMerklePlannerVisitor) : visit_fn :=
  λ st l lk r rk n reward _, Ok (visit v st l lk r rk n reward).

(** The body of the two nested loops: look both operands up, call the visitor,
    record the result under the key of the aggregation. *)
Definition visit_step (f : visit_fn) (g : agg) (reward_key : SimpleMerkleNodeKey)
    (is_reward_root : bool) (st : St) (result_map : gmap SimpleMerkleNodeKey T)
    : outcome (St * gmap SimpleMerkleNodeKey T) :=
  let* left_child := unwrap (result_map !! left g) in
  let* right_child := unwrap (result_map !! right g) in
  let* (st, parent_result) :=
    f st left_child (left g) right_child (right g) (nca g) reward_key is_reward_root in
  Ok (st, <[nca g := parent_result]> result_map).

(** [for (index, g) in gl.iter().enumerate()] *)
Fixpoint visit_group (f : visit_fn) (reward_key : Z → Z → SimpleMerkleNodeKey) (level index : Z)
    (gl : list agg) (st : St) (result_map : gmap SimpleMerkleNodeKey T)
    : outcome (St * gmap SimpleMerkleNodeKey T) :=
  match gl with
  | [] => Ok (st, result_map)
  | g :: gl =>
      let* (st, result_map) :=
        visit_step f g (reward_key level index) (level =? 0) st result_map in
      visit_group f reward_key level (index + 1) gl st result_map
  end.

(** [for (level, gl) in group_levels.iter().enumerate()] *)
Fixpoint visit_levels (f : visit_fn) (reward_key : Z → Z → SimpleMerkleNodeKey) (level : Z)
    (group_levels : list (list agg)) (st : St) (result_map : gmap SimpleMerkleNodeKey T)
    : outcome (St * gmap SimpleMerkleNodeKey T) :=
  match group_levels with
  | [] => Ok (st, result_map)
  | gl :: group_levels =>
      let* (st, result_map) := visit_group f reward_key level 0 gl st result_map in
      visit_levels f reward_key (level + 1) group_levels st result_map
  end.

Definition leaf_map (leaves : list (SimpleMerkleNodeKey * T)) : gmap SimpleMerkleNodeKey T :=
  foldl (λ m p, <[p.1 := p.2]> m) ∅ leaves.

(** [group_levels.last().unwrap()[0].nca], then [result_map.remove(..).unwrap()]. *)
Definition take_root (group_levels : list (list agg)) (result_map : gmap SimpleMerkleNodeKey T)
    : outcome T :=
  let* top := unwrap (last group_levels) in
  let* root := unwrap (top !! 0%nat) in
  unwrap (result_map !! nca root).

Definition run_merkle_planner_visitor (leaves : list (SimpleMerkleNodeKey * T))
    (merkle_tree_height : Z) (visitor : NCAMerklePlannerVisitor) (st : St) : outcome (St * T) :=
  let result_map := leaf_map leaves in
  let* group_levels := generate_nca_tree_groups_v1 leaves.*1 merkle_tree_height in
  let reward_tree_height := wrap 64 (Z.of_nat (length group_levels) - 1) in
  let reward_key level index := mkKey (wrap 8 (wrap 64 (reward_tree_height - level))) index in
  let* (st, result_map) := visit_levels (lift_visit visitor) reward_key 0 group_levels st result_map in
  let* r := take_root group_levels result_map in
  Ok (st, r).

(** The key of a reward-tree node below an offset root. *)
Definition offset_reward_key (reward_tree_height reward_tree_root_level reward_tree_root_index : Z)
    (level index : Z) : SimpleMerkleNodeKey :=
  let base_reward_tree_level := wrap 8 (wrap 64 (reward_tree_height - level)) in
  let reward_tree_node_index :=
    Z.lor (u64_shl reward_tree_root_index base_reward_tree_level) index in
  let reward_tree_node_level := wrap 8 (base_reward_tree_level + reward_tree_root_level) in
  mkKey reward_tree_node_level reward_tree_node_index.

Definition run_merkle_planner_visitor_with_offset_root (leaves : list (SimpleMerkleNodeKey * T))
    (merkle_tree_height reward_tree_root_level reward_tree_root_index : Z)
    (visitor : NCAMerklePlannerVisitor) (st : St) : outcome (St * T) :=
  let result_map := leaf_map leaves in
  let* group_levels := generate_nca_tree_groups_v1 leaves.*1 merkle_tree_height in
  let reward_tree_height := wrap 64 (Z.of_nat (length group_levels) - 1) in
  let st := init_with_reward_tree_height visitor st (wrap 8 reward_tree_height) in
  let* (st, result_map) :=
    visit_levels (lift_visit visitor)
      (offset_reward_key reward_tree_height reward_tree_root_level reward_tree_root_index)
      0 group_levels st result_map in
  let* r := take_root group_levels result_map in
  Ok (st, r).

Definition run_merkle_planner_visitor_with_offset_root_and_trees
    (leaves : list (SimpleMerkleNodeKey * T))
    (merkle_tree_height reward_tree_root_level reward_tree_root_index : Z)
    (visitor : NCAMerklePlannerVisitorWithTreeStores) (st : St) : outcome (St * T) :=
  if (length leaves <? 2)%nat
  then Err "At least two leaves must be provided to merkle planner" else
  let result_map := leaf_map leaves in
  let* group_levels := generate_nca_tree_groups_v1 leaves.*1 merkle_tree_height in
  let reward_tree_height := wrap 64 (Z.of_nat (length group_levels) - 1) in
  let group_level_lengths := (λ gl : list agg, Z.of_nat (length gl)) <$> group_levels in
  let total_jobs := wrap 64 (foldr Z.add 0 group_level_lengths) in
  let st := init_stores visitor st total_jobs group_level_lengths (wrap 8 reward_tree_height) in
  let* (st, result_map) :=
    visit_levels (visit_stores visitor)
      (offset_reward_key reward_tree_height reward_tree_root_level reward_tree_root_index)
      0 group_levels st result_map in
  let* r := take_root group_levels result_map in
  Ok (st, r).

(** ** Specification *)

(** A call of the visitor: the aggregation, its reward key and the flag. *)
Definition call : Type := agg * SimpleMerkleNodeKey * bool.

(** The visitor ran on the calls in order, every operand value being [val] of
    the operand's key and every result being [val] of the result's key. *)
Inductive visited (f : visit_fn) (val : SimpleMerkleNodeKey → T) : St → list call → St → Prop :=
  | visited_nil st : visited f val st [] st
  | visited_cons st st' st'' g rk b cs :
      f st (val (left g)) (left g) (val (right g)) (right g) (nca g) rk b = Ok (st', val (nca g)) →
      visited f val st' cs st'' → visited f val st ((g, rk, b) :: cs) st''.

(** The calls the nested loops make. *)
Fixpoint group_calls (reward_key : Z → Z → SimpleMerkleNodeKey) (level index : Z) (gl : list agg)
    : list call :=
  match gl with
  | [] => []
  | g :: gl => (g, reward_key level index, level =? 0) :: group_calls reward_key level (index + 1) gl
  end.

Fixpoint level_calls (reward_key : Z → Z → SimpleMerkleNodeKey) (level : Z) (gls : list (list agg))
    : list call :=
  match gls with
  | [] => []
  | gl :: gls => group_calls reward_key level 0 gl ++ level_calls reward_key (level + 1) gls
  end.

Definition total_visitor (f : visit_fn) : Prop :=
  ∀ st l lk r rk n reward b, ∃ res, f st l lk r rk n reward b = Ok res.

End planner.
Arguments NCAMerklePlannerVisitor : clear implicits.
Arguments NCAMerklePlannerVisitorWithTreeStores : clear implicits.
Arguments visit_fn : clear implicits.

(** ** Scheduling *)

(** The order in which aggregations can run when the keys in [known] have a
    value: both operands known, the result new. *)
Fixpoint schedulable (known : gset SimpleMerkleNodeKey) (xs : list agg) : Prop :=
  match xs with
  | [] => True
  | x :: xs =>
      left x ∈ known ∧ right x ∈ known ∧ (nca x ∉ known) ∧ schedulable ({[nca x]} ∪ known) xs
  end.

Lemma schedulable_proper known known' xs :
  known ≡ known' → schedulable known xs → schedulable known' xs.
Proof. by intros ->%leibniz_equiv. Qed.

Lemma schedulable_app (xs : list agg) : ∀ (ys : list agg) (known : gset SimpleMerkleNodeKey),
  (∀ x, x ∈ xs → left x ∈ known ∧ right x ∈ known ∧ nca x ∉ known) →
  NoDup (nca <$> xs) →
  schedulable (list_to_set (nca <$> xs) ∪ known) ys → schedulable known (xs ++ ys).
Proof.
  induction xs as [|x xs IH]; intros ys known Hx Hnd Hys; simpl in *.
  - eapply schedulable_proper, Hys. set_solver.
  - apply NoDup_cons in Hnd as [Hnin Hnd].
    destruct (Hx x) as (? & ? & ?); [by left|]. split_and!; try done.
    apply IH; [|done|].
    + intros y Hy. destruct (Hx y) as (? & ? & ?); [by right|].
      split_and!; [by apply elem_of_union_r..|]. rewrite elem_of_union, elem_of_singleton.
      intros [Heq|?]; [|done]. apply Hnin. rewrite <- Heq. by apply list_elem_of_fmap_2.
    + eapply schedulable_proper, Hys. clear. set_solver.
Qed.

(** A node of the Merkle tree is aggregated at one depth only. *)
Lemma at_depth_unique h t : h ≤ 64 → tree_wf h t → ∀ i j x y,
  x ∈ at_depth i t → y ∈ at_depth j t → nca x = nca y → i = j.
Proof.
  intros Hh. induction t as [k|k l IHl r IHr]; intros Hwf i j x y Hx Hy Heq; [simpl in Hx; set_solver|].
  pose proof (tree_wf_left _ _ _ _ Hwf Hh) as [_ Hll].
  pose proof (tree_wf_right _ _ _ _ Hwf Hh) as [_ Hlr].
  destruct Hwf as (Hk & Hlt & Hla & Hra & Hwl & Hwr).
  assert (∀ z d s, tree_wf h s → level k < level (tree_root s) → z ∈ at_depth d s → k ≠ nca z) as Hne.
  { intros z d s Hs Hlev Hz%at_depth_elem ->. apply (tree_aggs_below h) in Hz as [? _]; [lia|done..]. }
  assert (∀ z w d e, z ∈ at_depth d l → w ∈ at_depth e r → nca z ≠ nca w) as Hlr'.
  { intros z w d e Hz%at_depth_elem Hw%at_depth_elem Hzw.
    apply (tree_aggs_below h) in Hz; [|done..]. apply (tree_aggs_below h) in Hw; [|done..].
    apply (left_right_disjoint k (nca z)); [done|lia|by eapply ancestor_trans|].
    rewrite Hzw. by eapply ancestor_trans. }
  destruct i as [|i], j as [|j]; simpl in Hx, Hy; [done|..].
  - apply list_elem_of_singleton in Hx as ->; simpl in Heq.
    apply elem_of_app in Hy as [Hy|Hy]; exfalso; [by eapply (Hne y j l)|by eapply (Hne y j r)].
  - apply list_elem_of_singleton in Hy as ->; simpl in Heq.
    apply elem_of_app in Hx as [Hx|Hx]; exfalso; [by eapply (Hne x i l)|by eapply (Hne x i r)].
  - f_equal. apply elem_of_app in Hx as [Hx|Hx], Hy as [Hy|Hy].
    + by eapply (IHl Hwl).
    + exfalso. by eapply (Hlr' x y).
    + exfalso. by eapply (Hlr' y x).
    + by eapply (IHr Hwr).
Qed.

Lemma tree_groups_schedulable h t :
  h ≤ 64 → tree_wf h t → Forall (λ k, level k = h) (tree_leaves t) →
  schedulable (list_to_set (tree_leaves t)) (concat (tree_groups t)).
Proof.
  intros Hh Hwf Hlv. unfold tree_groups.
  assert (∀ n known, (∀ k, k ∈ known ↔ k ∈ tree_leaves t ∨
      ∃ j y, (n ≤ j)%nat ∧ y ∈ at_depth j t ∧ nca y = k) →
    schedulable known (concat (reverse (depths n t)))) as Hgen; last first.
  { apply Hgen. intros k. rewrite elem_of_list_to_set. split; [by left|].
    intros [?|(j & y & Hj & Hy & _)]; [done|]. apply at_depth_nil in Hj. rewrite Hj in Hy. set_solver. }
  induction n as [|n IH]; intros known Hknown; [done|].
  unfold depths. rewrite seq_S, fmap_app, reverse_app. cbn [concat]. apply schedulable_app.
  - intros x Hx. destruct (at_depth_children h t n x Hwf Hx) as [H1 H2].
    split_and!; [apply Hknown; destruct H1 as [[??]|(y & ? & ?)]; eauto 6
      |apply Hknown; destruct H2 as [[??]|(y & ? & ?)]; eauto 6|].
    intros Hin. apply Hknown in Hin as [Hin|(j & y & Hj & Hy & Heq)].
    + rewrite Forall_forall in Hlv. apply Hlv in Hin.
      apply at_depth_elem, (tree_aggs_wf h) in Hx as (_ & _ & _ & ? & _); [lia|done].
    + pose proof (at_depth_unique h t Hh Hwf j n y x Hy Hx Heq). lia.
  - eapply NoDup_of_submseteq; [apply fmap_submseteq, at_depth_submseteq|].
    by apply tree_aggs_NoDup_nca with h.
  - apply IH. intros k. rewrite elem_of_union, elem_of_list_to_set, Hknown, list_elem_of_fmap.
    split.
    + intros [(x & -> & Hx)|[?|(j & y & ? & ? & ?)]]; [right; eauto|by left|].
      right. exists j, y. split_and!; [lia|done..].
    + intros [?|(j & y & Hj & Hy & <-)]; [by auto|].
      destruct (decide (j = n)) as [->|]; [left; eauto|right; right].
      exists j, y. split_and!; [lia|done..].
Qed.

Section planner_correct.
Context {St T : Type}.
Implicit Types (f : visit_fn St T) (m : gmap SimpleMerkleNodeKey T).

(** The nested loops as one loop over the calls. *)
Fixpoint run_calls f (cs : list call) (st : St) m : outcome (St * gmap SimpleMerkleNodeKey T) :=
  match cs with
  | [] => Ok (st, m)
  | (g, rk, b) :: cs => let* (st, m) := visit_step f g rk b st m in run_calls f cs st m
  end.

Lemma run_calls_app f cs1 : ∀ cs2 st m,
  run_calls f (cs1 ++ cs2) st m = let* (st, m) := run_calls f cs1 st m in run_calls f cs2 st m.
Proof.
  induction cs1 as [|[[g rk] b] cs1 IH]; intros cs2 st m; simpl; [done|].
  destruct (visit_step f g rk b st m) as [[st' m']| | |]; simpl; auto.
Qed.

Lemma visit_group_calls f rk lvl gl : ∀ i st m,
  visit_group f rk lvl i gl st m = run_calls f (group_calls rk lvl i gl) st m.
Proof.
  induction gl as [|g gl IH]; intros i st m; simpl; [done|].
  destruct (visit_step f g (rk lvl i) (lvl =? 0) st m) as [[st' m']| | |]; simpl; auto.
Qed.

Lemma visit_levels_calls f rk gls : ∀ lvl st m,
  visit_levels f rk lvl gls st m = run_calls f (level_calls rk lvl gls) st m.
Proof.
  induction gls as [|gl gls IH]; intros lvl st m; simpl; [done|].
  rewrite run_calls_app, visit_group_calls.
  destruct (run_calls f (group_calls rk lvl 0 gl) st m) as [[st' m']| | |]; simpl; auto.
Qed.

Definition call_agg (c : call) : agg := c.1.1.
Definition call_key (c : call) : SimpleMerkleNodeKey := c.1.2.

(** A visitor that does not fail runs every call of a schedulable sequence:
    no lookup panics, and no value is overwritten. *)
Lemma run_calls_ok f cs : ∀ st m,
  total_visitor f → schedulable (dom m) (call_agg <$> cs) →
  ∃ st' m', run_calls f cs st m = Ok (st', m') ∧ m ⊆ m' ∧
    (∀ c, c ∈ cs → is_Some (m' !! nca (call_agg c))) ∧
    ∀ val, (∀ k v, m' !! k = Some v → val k = v) → visited f val st cs st'.
Proof.
  induction cs as [|[[g rk] b] cs IH]; intros st m Hf Hs; simpl.
  { exists st, m. split_and!; [done|done|set_solver|]. constructor. }
  unfold call_agg in Hs; simpl in Hs. destruct Hs as (Hl & Hr & Hn & Hs).
  apply elem_of_dom in Hl as [vl Hl]. apply elem_of_dom in Hr as [vr Hr].
  apply not_elem_of_dom in Hn.
  destruct (Hf st vl (left g) vr (right g) (nca g) rk b) as [[st1 v] Hv].
  unfold visit_step. rewrite Hl, Hr; simpl. rewrite Hv; simpl.
  destruct (IH st1 (<[nca g := v]> m)) as (st' & m' & Hrun & Hsub & Hin & Hval).
  { done. } { by rewrite dom_insert_L. }
  assert (m ⊆ <[nca g := v]> m) as Hsub0 by (by apply insert_subseteq).
  assert (m' !! nca g = Some v) as Hg by (eapply lookup_weaken, Hsub; by rewrite lookup_insert_eq).
  assert (m ⊆ m') as Hsub1 by (by transitivity (<[nca g := v]> m)).
  exists st', m'. split_and!; [done|done| |].
  - intros c [->|Hc]%elem_of_cons; [by eauto|by auto].
  - intros val Hm. econstructor; [|by apply Hval].
    rewrite (Hm (left g) vl), (Hm (right g) vr), (Hm (nca g) v);
      [done|done|by eapply lookup_weaken..].
Qed.

Lemma leaf_map_snoc (leaves : list (SimpleMerkleNodeKey * T)) p :
  leaf_map (leaves ++ [p]) = <[p.1 := p.2]> (leaf_map leaves).
Proof. unfold leaf_map. by rewrite foldl_snoc. Qed.

Lemma dom_leaf_map (leaves : list (SimpleMerkleNodeKey * T)) :
  dom (leaf_map leaves) = list_to_set leaves.*1.
Proof.
  induction leaves as [|p leaves IH] using rev_ind; [done|].
  rewrite leaf_map_snoc, fmap_app, list_to_set_app_L, dom_insert_L, IH; simpl. rewrite union_empty_r_L.
  apply (comm_L union).
Qed.

Lemma leaf_map_lookup (leaves : list (SimpleMerkleNodeKey * T)) k v :
  NoDup leaves.*1 → (k, v) ∈ leaves → leaf_map leaves !! k = Some v.
Proof.
  induction leaves as [|[k' v'] leaves IH] using rev_ind; [set_solver|].
  rewrite fmap_app, NoDup_app, elem_of_app, list_elem_of_singleton, leaf_map_snoc; simpl.
  intros (Hnd & Hdisj & _) [Hin|[= -> ->]]; [|by rewrite lookup_insert_eq].
  rewrite lookup_insert_ne; [auto|]. intros ->. apply (Hdisj k).
  - by apply (list_elem_of_fmap_2 fst _ (k, v)).
  - simpl. set_solver.
Qed.

Lemma level_calls_aggs rk gls : ∀ lvl, call_agg <$> level_calls rk lvl gls = concat gls.
Proof.
  assert (∀ lvl gl i, call_agg <$> group_calls rk lvl i gl = gl) as Hg.
  { intros lvl gl. induction gl as [|g gl IH]; intros i; simpl; [done|]. by rewrite IH. }
  induction gls as [|gl gls IH]; intros lvl; simpl; [done|].
  by rewrite fmap_app, Hg, IH.
Qed.

(** Both loops and the extraction of the root. *)
Lemma planner_core f rk h leaves t st :
  total_visitor f → leaves_ok h leaves.*1 → plan_tree h leaves.*1 t →
  ∃ st' m' (val : SimpleMerkleNodeKey → T),
    visit_levels f rk 0 (tree_groups t) st (leaf_map leaves) = Ok (st', m') ∧
    take_root (tree_groups t) m' = Ok (val (tree_root t)) ∧
    (∀ k v, (k, v) ∈ leaves → val k = v) ∧
    visited f val st (level_calls rk 0 (tree_groups t)) st'.
Proof.
  intros Hf Hok Ht. pose proof (plan_tree_node h leaves.*1 t Hok Ht) as (k & l & r & Hnode).
  destruct Hok as (Hlen & Hnd & Hh & Hall). destruct Ht as [Hlv Hwf].
  pose proof (merge_sort_Permutation key_le leaves.*1) as Hp. rewrite <- Hlv in Hp.
  destruct (run_calls_ok f (level_calls rk 0 (tree_groups t)) st (leaf_map leaves))
    as (st' & m' & Hrun & Hsub & Hin & Hval); [done| |].
  { rewrite level_calls_aggs, dom_leaf_map.
    eapply schedulable_proper; [|apply (tree_groups_schedulable h t Hh Hwf)].
    - by rewrite Hp.
    - rewrite Hp. eapply Forall_impl; [exact Hall|]. by intros ? [_ ?]. }
  destruct leaves as [|[k0 v0] leaves']; [simpl in Hlen; lia|].
  exists st', m', (λ k, default v0 (m' !! k)). rewrite visit_levels_calls. split_and!; [done| | |].
  - assert (last (tree_groups t) = Some [mkAgg k (tree_root l) (tree_root r)]) as Hlast
      by (unfold tree_groups; rewrite last_reverse; unfold depths; by subst t).
    unfold take_root. rewrite Hlast. cbn [unwrap outcome_bind].
    assert (is_Some (m' !! nca (mkAgg k (tree_root l) (tree_root r)))) as [v Hv].
    { assert (mkAgg k (tree_root l) (tree_root r) ∈ call_agg <$> level_calls rk 0 (tree_groups t)) as Hc.
      { rewrite level_calls_aggs. unfold tree_groups. rewrite reverse_Permutation, depths_perm by done.
        rewrite Hnode; simpl. clear. set_solver. }
      apply list_elem_of_fmap in Hc as (c & -> & Hc). by apply Hin. }
    simpl in Hv |- *. subst t. simpl. by rewrite Hv.
  - intros k' v' Hkv. pose proof (leaf_map_lookup _ k' v' Hnd Hkv) as Hlk.
    by rewrite (lookup_weaken _ _ _ _ Hlk Hsub).
  - apply Hval. intros k' v' Hk'. by rewrite Hk'.
Qed.
End planner_correct.

(** ** Reward keys *)
Lemma tree_height_le h t :
  h ≤ 64 → tree_wf h t → Z.of_nat (tree_height_of t) ≤ h - level (tree_root t).
Proof.
  intros Hh. induction t as [k|k l IHl r IHr]; intros Hwf.
  - destruct Hwf. simpl. lia.
  - pose proof (tree_wf_left _ _ _ _ Hwf Hh) as [_ ?].
    pose proof (tree_wf_right _ _ _ _ Hwf Hh) as [_ ?].
    destruct Hwf as (_ & ? & _ & _ & Hl & Hr). specialize (IHl Hl). specialize (IHr Hr).
    cbn [tree_root tree_height_of]. lia.
Qed.

(** The place of the [j]-th call of the [i]-th of [n] groups in the reward
    sub-tree rooted at [(rl, ri)]. *)
Definition reward_place (n rl ri i j : Z) : SimpleMerkleNodeKey :=
  mkKey (rl + (n - 1 - i)) (ri * 2 ^ (n - 1 - i) + j).

Lemma offset_reward_key_spec n rl ri i j :
  key_wf (mkKey rl ri) → 1 ≤ n ≤ 64 → rl + n ≤ 65 → 0 ≤ i < n → 0 ≤ j < 2 ^ (n - 1 - i) →
  offset_reward_key (wrap 64 (n - 1)) rl ri i j = reward_place n rl ri i j.
Proof.
  intros [Hl Hi] Hn Hrn Hin Hj; simpl in Hl, Hi. unfold offset_reward_key, reward_place.
  rewrite (wrap_small 64 (n - 1)), (wrap_small 64 (n - 1 - i)),
    (wrap_small 8 (n - 1 - i)) by lia.
  pose proof (pow2_pos_Z (n - 1 - i) ltac:(lia)) as Hp.
  assert (ri * 2 ^ (n - 1 - i) + 2 ^ (n - 1 - i) ≤ 2 ^ 64).
  { transitivity (2 ^ rl * 2 ^ (n - 1 - i)); [nia|].
    rewrite <- Z.pow_add_r by lia. apply pow2_mono. lia. }
  rewrite u64_shl_small by lia. rewrite wrap_small by lia.
  f_equal; [lia|]. by apply lor_pow2_add; lia.
Qed.

Lemma reward_place_below n rl ri i j :
  key_wf (mkKey rl ri) → rl + n ≤ 65 → 0 ≤ i < n → 0 ≤ j < 2 ^ (n - 1 - i) →
  ancestor (mkKey rl ri) (reward_place n rl ri i j) ∧ key_wf (reward_place n rl ri i j).
Proof.
  intros [Hl Hi] Hrn Hin Hj; simpl in Hl, Hi. unfold reward_place.
  pose proof (pow2_pos_Z (n - 1 - i) ltac:(lia)) as Hp. split.
  - split; simpl; [lia|]. replace (rl + (n - 1 - i) - rl) with (n - 1 - i) by lia.
    rewrite Z.div_add_l by lia. rewrite Z.div_small by lia. lia.
  - split; simpl; [lia|]. rewrite Z.pow_add_r by lia. nia.
Qed.

(** Groups that fit their level of the reward tree. *)
Definition groups_fit (n lvl : Z) (gls : list (list agg)) : Prop :=
  lvl + Z.of_nat (length gls) = n ∧
  ∀ i gl, gls !! i = Some gl → Z.of_nat (length gl) ≤ 2 ^ (n - 1 - (lvl + Z.of_nat i)).

Lemma groups_fit_cons n lvl gl gls :
  groups_fit n lvl (gl :: gls) →
  groups_fit n (lvl + 1) gls ∧ Z.of_nat (length gl) ≤ 2 ^ (n - 1 - lvl) ∧ lvl < n.
Proof.
  intros [Hlen Hfit]; simpl in Hlen. split_and!; [split; [lia|]| |lia].
  - intros i g Hg. specialize (Hfit (S i) g Hg).
    by replace (lvl + 1 + Z.of_nat i) with (lvl + Z.of_nat (S i)) by lia.
  - specialize (Hfit 0%nat gl eq_refl). by rewrite Z.add_0_r in Hfit.
Qed.

Lemma group_calls_elem rk lvl gl : ∀ i c,
  c ∈ group_calls rk lvl i gl →
  ∃ j, i ≤ j < i + Z.of_nat (length gl) ∧ call_key c = rk lvl j ∧ c.2 = (lvl =? 0).
Proof.
  induction gl as [|g gl IH]; intros i c; simpl; [by intros ?%elem_of_nil|].
  intros [->|(j & Hj & ? & ?)%IH]%elem_of_cons; [exists i|exists j]; (split; [lia|done]).
Qed.

Lemma level_calls_elem rk n gls : ∀ lvl c,
  groups_fit n lvl gls → c ∈ level_calls rk lvl gls →
  ∃ i j, lvl ≤ i < n ∧ 0 ≤ j < 2 ^ (n - 1 - i) ∧ call_key c = rk i j ∧ c.2 = (i =? 0).
Proof.
  induction gls as [|gl gls IH]; intros lvl c Hfit; simpl; [by intros ?%elem_of_nil|].
  apply groups_fit_cons in Hfit as (Hfit & Hgl & Hlt).
  intros [(j & ? & ? & ?)%group_calls_elem|(i & j & ? & ?)%IH]%elem_of_app; [| |done].
  - exists lvl, j. split_and!; (done || lia).
  - exists i, j. split; [lia|done].
Qed.

Lemma level_calls_NoDup rk n rl ri gls : ∀ lvl,
  (∀ i j, 0 ≤ i < n → 0 ≤ j < 2 ^ (n - 1 - i) → rk i j = reward_place n rl ri i j) →
  0 ≤ lvl → groups_fit n lvl gls → NoDup (call_key <$> level_calls rk lvl gls).
Proof.
  induction gls as [|gl gls IH]; intros lvl Hrk Hlvl Hfit; simpl; [constructor|].
  apply groups_fit_cons in Hfit as (Hfit & Hgl & Hlt).
  rewrite fmap_app. apply NoDup_app. split_and!; [| |by apply IH; [|lia|]].
  - assert (∀ i, 0 ≤ i → i + Z.of_nat (length gl) ≤ 2 ^ (n - 1 - lvl) →
      NoDup (call_key <$> group_calls rk lvl i gl)) as Hg; [|apply Hg; lia].
    clear Hgl. induction gl as [|g gl IHg]; intros i Hi Hb; simpl; [constructor|].
    simpl in Hb. constructor; [|apply IHg; lia].
    intros (c & Hc & (j & Hj & Hj' & _)%group_calls_elem)%list_elem_of_fmap.
    rewrite Hj' in Hc. unfold call_key in Hc; simpl in Hc. rewrite !Hrk in Hc by lia.
    unfold reward_place in Hc. simplify_eq. lia.
  - intros k (c & -> & (j & Hj & Hj' & _)%group_calls_elem)%list_elem_of_fmap
      (c' & Hc & Hc')%list_elem_of_fmap.
    apply (level_calls_elem _ n) in Hc' as (i' & j' & Hi' & ? & Hk' & _); [|done].
    rewrite Hj', Hk' in Hc. rewrite !Hrk in Hc by lia. unfold reward_place in Hc. simplify_eq. lia.
Qed.

Lemma tree_groups_fit t : groups_fit (Z.of_nat (tree_height_of t)) 0 (tree_groups t).
Proof.
  unfold groups_fit, tree_groups, depths. rewrite length_reverse, length_fmap, length_seq.
  split; [lia|]. intros i gl. rewrite reverse_lookup_Some, list_lookup_fmap_Some.
  rewrite length_fmap, length_seq.
  intros ((d & -> & [-> Hd]%lookup_seq) & Hi).
  pose proof (at_depth_length (tree_height_of t - S i) t) as Hle.
  rewrite Nat.add_0_l.
  replace (Z.of_nat (tree_height_of t) - 1 - (0 + Z.of_nat i))
    with (Z.of_nat (tree_height_of t - S i)) by lia.
  rewrite <- (Nat2Z.inj_pow 2). lia.
Qed.

(** What every run of the planner with an offset reward root makes of its
    calls. *)
Definition calls_placed (rl ri : Z) (cs : list call) : Prop :=
  NoDup (call_key <$> cs) ∧
  (∀ c, c ∈ cs → ancestor (mkKey rl ri) (call_key c) ∧ key_wf (call_key c)) ∧
  call_key <$> last cs = Some (mkKey rl ri).

Lemma level_calls_snoc rk gls gl : ∀ lvl,
  level_calls rk lvl (gls ++ [gl]) =
  level_calls rk lvl gls ++ group_calls rk (lvl + Z.of_nat (length gls)) 0 gl.
Proof.
  induction gls as [|g gls IH]; intros lvl; simpl.
  - by rewrite app_nil_r, Z.add_0_r.
  - rewrite IH, <- app_assoc. do 3 f_equal. lia.
Qed.

(** The last call is the root's. *)
Lemma level_calls_last rk t k l r :
  t = TNode k l r →
  last (level_calls rk 0 (tree_groups t)) =
  Some (mkAgg k (tree_root l) (tree_root r), rk (Z.of_nat (tree_height_of t) - 1) 0,
        Z.of_nat (tree_height_of t) - 1 =? 0).
Proof.
  intros ->. unfold tree_groups, depths. cbn [tree_height_of seq]. rewrite fmap_cons, reverse_cons.
  rewrite level_calls_snoc, length_reverse, length_fmap, length_seq.
  cbn [at_depth group_calls]. rewrite last_snoc. do 3 f_equal; f_equal; lia.
Qed.

Lemma length_tree_groups t : length (tree_groups t) = tree_height_of t.
Proof. unfold tree_groups, depths. by rewrite length_reverse, length_fmap, length_seq. Qed.

Lemma tree_height_bounds h t :
  h ≤ 64 → tree_wf h t → (∃ k l r, t = TNode k l r) → 1 ≤ Z.of_nat (tree_height_of t) ≤ h.
Proof.
  intros Hh Hwf (k & l & r & ->). pose proof (tree_height_le h _ Hh Hwf).
  apply tree_wf_root in Hwf as [[? _] _]. simpl in *. lia.
Qed.

(** The height of the reward tree fits the types the code casts it to. *)
Lemma reward_height_u8 h t :
  h ≤ 64 → tree_wf h t → (∃ k l r, t = TNode k l r) →
  wrap 8 (wrap 64 (Z.of_nat (length (tree_groups t)) - 1)) = Z.of_nat (tree_height_of t) - 1.
Proof.
  intros Hh Hwf Hnode. pose proof (tree_height_bounds h t Hh Hwf Hnode).
  rewrite length_tree_groups, (wrap_small 64), wrap_small; lia.
Qed.

Lemma calls_placed_tree h rl ri t :
  h ≤ 64 → tree_wf h t → (∃ k l r, t = TNode k l r) → key_wf (mkKey rl ri) → rl + h ≤ 64 →
  calls_placed rl ri (level_calls
    (offset_reward_key (wrap 64 (Z.of_nat (length (tree_groups t)) - 1)) rl ri) 0 (tree_groups t)).
Proof.
  intros Hh Hwf Hn Hroot Hrl. pose proof Hn as (k & l & r & Hnode).
  apply (tree_height_bounds h) in Hn; [|done..]. rewrite length_tree_groups.
  set (n := Z.of_nat (tree_height_of t)) in *.
  assert (∀ i j, 0 ≤ i < n → 0 ≤ j < 2 ^ (n - 1 - i) →
    offset_reward_key (wrap 64 (n - 1)) rl ri i j = reward_place n rl ri i j) as Hrk.
  { intros. apply offset_reward_key_spec; (done || lia). }
  pose proof (tree_groups_fit t) as Hfit. fold n in Hfit. split_and!.
  - by apply (level_calls_NoDup _ n rl ri); [|lia|].
  - intros c Hc. apply (level_calls_elem _ n) in Hc as (i & j & Hi & Hj & -> & _); [|done].
    rewrite Hrk by lia. apply reward_place_below; (done || lia).
  - rewrite (level_calls_last _ t k l r Hnode). cbn [fmap option_fmap option_map].
    unfold call_key; cbn [fst snd]. fold n. rewrite Hrk by (rewrite ?Z.sub_diag; simpl; lia).
    unfold reward_place. f_equal. apply key_eq; simpl; [lia|]. rewrite Z.sub_diag. lia.
Qed.

Lemma lift_visit_total {St T} (v : NCAMerklePlannerVisitor St T) : total_visitor (lift_visit v).
Proof. intros ????????. eexists. reflexivity. Qed.

(** C38: on two or more distinct leaves, all of the level [h] and well-formed, with a
    well-formed reward root whose sub-tree has room for them ([rl + h] at most 64), the
    planner with an offset root never panics. It calls the (stateful) visitor
    exactly once per aggregation of the plan, group after group, with the values
    of its operands computed by earlier calls or given with the leaves, and
    returns the value of the root; the reward keys it hands out are pairwise
    distinct nodes of the sub-tree below the requested reward root, which the
    last call receives. With fewer than two leaves it panics. *)
Theorem run_merkle_planner_visitor_with_offset_root_correct {St T}
    (visitor : NCAMerklePlannerVisitor St T) (leaves : list (SimpleMerkleNodeKey * T))
    (h rl ri : Z) (st : St) :
  ((length leaves < 2)%nat → run_merkle_planner_visitor_with_offset_root leaves h rl ri visitor st = Panic) ∧
  (leaves_ok h leaves.*1 → key_wf (mkKey rl ri) → rl + h ≤ 64 →
  ∃ t calls (val : SimpleMerkleNodeKey → T) st',
    plan_tree h leaves.*1 t ∧
    call_agg <$> calls = concat (tree_groups t) ∧
    run_merkle_planner_visitor_with_offset_root leaves h rl ri visitor st =
      Ok (st', val (tree_root t)) ∧
    (∀ k v, (k, v) ∈ leaves → val k = v) ∧
    visited (lift_visit visitor) val
      (init_with_reward_tree_height visitor st (Z.of_nat (tree_height_of t) - 1)) calls st' ∧
    calls_placed rl ri calls).
Proof.
  split.
  { intros Hl. unfold run_merkle_planner_visitor_with_offset_root, generate_nca_tree_groups_v1.
    by rewrite length_fmap, (proj2 (Nat.ltb_lt _ _)). }
  intros Hok Hroot Hrl.
  destruct (generate_groups_v1_spec h leaves.*1 h Hok) as (t & Hv1 & _ & _ & Ht).
  set (rk := offset_reward_key (wrap 64 (Z.of_nat (length (tree_groups t)) - 1)) rl ri).
  set (st0 := init_with_reward_tree_height visitor st (Z.of_nat (tree_height_of t) - 1)).
  destruct (planner_core (lift_visit visitor) rk h leaves t st0)
    as (st' & m' & val & Hrun & Htake & Hleaf & Hvis); [apply lift_visit_total|done..|].
  pose proof (plan_tree_node h leaves.*1 t Hok Ht) as Hnode. pose proof Hok as (_ & _ & Hh & _).
  exists t, (level_calls rk 0 (tree_groups t)), val, st'. split_and!; [done| | |done|done|].
  - apply level_calls_aggs.
  - unfold run_merkle_planner_visitor_with_offset_root. rewrite Hv1. cbn [outcome_bind]. fold rk.
    rewrite (reward_height_u8 h t) by (done || apply Ht). fold st0.
    rewrite Hrun. cbn [outcome_bind]. by rewrite Htake.
  - apply calls_placed_tree with h; (done || apply Ht).
Qed.

Definition sum_visitor : NCAMerklePlannerVisitor nat Z :=
  mkVisitor (λ n l _ r _ _ _, (S n, l + r)) (λ n _, n).

Lemma run_merkle_planner_visitor_with_offset_root_correct_witness :
  ∃ t calls val st',
    plan_tree 2 (mkKey 2 <$> [0; 1; 2; 3]) t ∧
    visited (lift_visit sum_visitor) val 0%nat calls st' ∧ calls_placed 5 3 calls ∧
    st' = 3%nat ∧ val (tree_root t) = 10.
Proof.
  destruct (run_merkle_planner_visitor_with_offset_root_correct sum_visitor
    [(mkKey 2 0, 1); (mkKey 2 1, 2); (mkKey 2 2, 3); (mkKey 2 3, 4)] 2 5 3 0%nat)
    as [_ Hrest]. destruct Hrest
    as (t & cs & val & st' & Ht & _ & Hrun & _ & Hvis & Hplace).
  { apply (bool_decide_unpack _); vm_compute; exact I. }
  { split; simpl; lia. }
  { lia. }
  assert (Ok (3%nat, 10) = Ok (st', val (tree_root t))) as [= Hst Hroot]
    by (rewrite <- Hrun; vm_compute; reflexivity).
  exists t, cs, val, st'. done.
Defined.

(** The other two entry points. *)
Lemma visit_levels_ext {St T} (f : visit_fn St T) rk rk' gls : ∀ lvl st m,
  (∀ i j, rk i j = rk' i j) → visit_levels f rk lvl gls st m = visit_levels f rk' lvl gls st m.
Proof.
  intros lvl st m Hrk. rewrite !visit_levels_calls. f_equal. revert lvl.
  induction gls as [|gl gls IH]; intros lvl; simpl; [done|]. rewrite IH. f_equal.
  generalize 0 as i. induction gl as [|g gl IHg]; intros i; simpl; [done|]. by rewrite Hrk, IHg.
Qed.

(** The planner without an offset is the planner at the reward root
    [(0, 0)] on every input, panics and divergence included, when the visitor
    keeps the trait's default [init_with_reward_tree_height], which does
    nothing. *)
Theorem run_merkle_planner_visitor_is_offset_zero {St T} (visitor : NCAMerklePlannerVisitor St T)
    (leaves : list (SimpleMerkleNodeKey * T)) (h : Z) (st : St) :
  (∀ s n, init_with_reward_tree_height visitor s n = s) →
  run_merkle_planner_visitor leaves h visitor st =
  run_merkle_planner_visitor_with_offset_root leaves h 0 0 visitor st.
Proof.
  intros Hinit. unfold run_merkle_planner_visitor, run_merkle_planner_visitor_with_offset_root.
  destruct (generate_nca_tree_groups_v1 leaves.*1 h) as [gls| | |]; [|done..]. cbn [outcome_bind].
  rewrite Hinit. erewrite visit_levels_ext; [done|]. intros i j. unfold offset_reward_key.
  f_equal.
  - rewrite Z.add_0_r. symmetry. apply wrap_small, wrap_range. lia.
  - unfold u64_shl. rewrite Z.shiftl_0_l. done.
Qed.

Lemma run_merkle_planner_visitor_is_offset_zero_witness :
  run_merkle_planner_visitor [(mkKey 2 0, 1); (mkKey 2 3, 4)] 2 sum_visitor 0%nat = Ok (1%nat, 5).
Proof.
  rewrite (run_merkle_planner_visitor_is_offset_zero sum_visitor); [vm_compute; reflexivity|].
  reflexivity.
Defined.

Lemma total_jobs_calls rk gls :
  foldr Z.add 0 ((λ gl : list agg, Z.of_nat (length gl)) <$> gls) =
  Z.of_nat (length (level_calls rk 0 gls)).
Proof.
  rewrite <- (length_fmap call_agg), level_calls_aggs.
  induction gls as [|gl gls IH]; [done|]. rewrite fmap_cons. cbn [foldr concat].
  rewrite IH, length_app. lia.
Qed.

(** The entry point with tree stores rejects fewer than two leaves, and on
    leaves as above with a visitor that does not fail it makes the same placed
    calls. Its [is_reward_root] flag is set exactly on the calls of the deepest
    level of the reward tree: as soon as there are two levels, the call that
    receives the reward root itself has the flag unset. *)
Theorem run_merkle_planner_visitor_with_trees_correct {St T}
    (visitor : NCAMerklePlannerVisitorWithTreeStores St T)
    (leaves : list (SimpleMerkleNodeKey * T)) (h rl ri : Z) (st : St) :
  total_visitor (visit_stores visitor) → leaves_ok h leaves.*1 →
  key_wf (mkKey rl ri) → rl + h ≤ 64 →
  ∃ t calls (val : SimpleMerkleNodeKey → T) st' root,
    plan_tree h leaves.*1 t ∧
    run_merkle_planner_visitor_with_offset_root_and_trees leaves h rl ri visitor st =
      Ok (st', val (tree_root t)) ∧
    (∀ k v, (k, v) ∈ leaves → val k = v) ∧
    visited (visit_stores visitor) val
      (init_stores visitor st (wrap 64 (Z.of_nat (length calls)))
         ((λ gl, Z.of_nat (length gl)) <$> tree_groups t) (Z.of_nat (tree_height_of t) - 1))
      calls st' ∧
    call_agg <$> calls = concat (tree_groups t) ∧ calls_placed rl ri calls ∧
    last calls = Some root ∧ call_key root = mkKey rl ri ∧
    (root.2 = true ↔ tree_height_of t = 1%nat) ∧
    (∀ c, c ∈ calls →
       c.2 = true ↔ level (call_key c) = rl + (Z.of_nat (tree_height_of t) - 1)).
Proof.
  intros Htot Hok Hroot Hrl.
  destruct (generate_groups_v1_spec h leaves.*1 h Hok) as (t & Hv1 & _ & _ & Ht).
  set (rk := offset_reward_key (wrap 64 (Z.of_nat (length (tree_groups t)) - 1)) rl ri).
  set (st0 := init_stores visitor st
    (wrap 64 (Z.of_nat (length (level_calls rk 0 (tree_groups t)))))
    ((λ gl, Z.of_nat (length gl)) <$> tree_groups t) (Z.of_nat (tree_height_of t) - 1)).
  destruct (planner_core (visit_stores visitor) rk h leaves t st0)
    as (st' & m' & val & Hrun & Htake & Hleaf & Hvis); [done..|].
  pose proof (plan_tree_node h leaves.*1 t Hok Ht) as Hnode. pose proof Hok as (Hlen & _ & Hh & _).
  pose proof (calls_placed_tree h rl ri t Hh (proj2 Ht) Hnode Hroot Hrl) as Hplaced.
  pose proof (tree_height_bounds h t Hh (proj2 Ht) Hnode) as Hn.
  pose proof Hnode as (k & l & r & Hnode').
  pose proof (level_calls_last rk t k l r Hnode') as Hlast.
  eexists t, (level_calls rk 0 (tree_groups t)), val, st', _.
  split_and!; [done| |done|done|apply level_calls_aggs|exact Hplaced|exact Hlast| | |].
  - unfold run_merkle_planner_visitor_with_offset_root_and_trees.
    rewrite length_fmap in Hlen. case_bool; [apply Nat.ltb_lt in E; lia|].
    rewrite Hv1. cbn [outcome_bind]. rewrite total_jobs_calls with (rk := rk).
    rewrite (reward_height_u8 h t) by (done || apply Ht). fold rk st0.
    rewrite Hrun. cbn [outcome_bind]. by rewrite Htake.
  - destruct Hplaced as (_ & _ & Hp). fold rk in Hp. rewrite Hlast in Hp.
    cbn [fmap option_fmap option_map] in Hp. congruence.
  - simpl. rewrite Z.eqb_eq. lia.
  - intros c Hc. eapply level_calls_elem in Hc as (i & j & Hi & Hj & Hkey & ->); [|apply tree_groups_fit].
    rewrite Hkey. unfold rk. rewrite length_tree_groups, offset_reward_key_spec by (done || lia).
    simpl. rewrite Z.eqb_eq. lia.
Qed.

Definition log_visitor : NCAMerklePlannerVisitorWithTreeStores (list bool) Z :=
  mkVisitorWithTreeStores (λ s l _ r _ _ _ b, Ok (s ++ [b], l + r)) (λ s _ _ _, s).

Lemma run_merkle_planner_visitor_with_trees_correct_witness :
  ∃ t calls (val : SimpleMerkleNodeKey → Z) root,
    plan_tree 2 (mkKey 2 <$> [0; 1; 3]) t ∧
    visited (visit_stores log_visitor) val [] calls [true; false] ∧
    last calls = Some root ∧ call_key root = mkKey 5 3 ∧ val (tree_root t) = 7.
Proof.
  destruct (run_merkle_planner_visitor_with_trees_correct log_visitor
    [(mkKey 2 0, 1); (mkKey 2 1, 2); (mkKey 2 3, 4)] 2 5 3 [])
    as (t & cs & val & st' & root & Ht & Hrun & _ & Hvis & _ & _ & Hlast & Hkey & _).
  { intros ????????. eexists. reflexivity. }
  { apply (bool_decide_unpack _); vm_compute; exact I. }
  { split; simpl; lia. }
  { lia. }
  assert (Ok ([true; false], 7) = Ok (st', val (tree_root t))) as [= Hst Hroot]
    by (rewrite <- Hrun; vm_compute; reflexivity).
  exists t, cs, val, root. rewrite Hst. done.
Defined.
