(* ===== verification/MerkleHash.v ===== *)
(** * Merkle hashing

    The hasher interfaces of [parth_core/src/crypto/hash/traits/merkle.rs] and
    the hash routines of [parth_core/src/crypto/hash/merkle_proof.rs] that work
    on whole trees: zero hashes, roots of leaf vectors. The compression function
    is a parameter (a class); the reference is the perfect binary tree over a
    function from leaf indices to hashes. *)
From stdpp Require Import prelude list strings.
From Stdlib Require Import ZArith Lia.
From S2P Require Import Prelude.

(** ** Interfaces *)
Class MerkleHasher (Hash : Type) : Type := two_to_one : Hash → Hash → Hash.

Class ZeroableHash (Hash : Type) : Type := get_zero_value : Hash.

Definition two_to_one_swap `{MerkleHasher Hash} (swap : bool) (left right : Hash) : Hash :=
  if swap then two_to_one right left else two_to_one left right.

Definition ZERO_HASH_CACHE_SIZE : nat := 128.

Fixpoint iterate_merkle_hasher `{MerkleHasher Hash} (current : Hash) (reverse_level : nat) : Hash :=
  match reverse_level with
  | O => current
  | S n => iterate_merkle_hasher (two_to_one current current) n
  end.

Definition generate_zero_hashes `{MerkleHasher Hash, ZeroableHash Hash} : list Hash :=
  let zero_hashes := replicate ZERO_HASH_CACHE_SIZE get_zero_value in
  let zero_hashes := <[0%nat := get_zero_value]> zero_hashes in
  foldl (λ zs i, let prev := nth (i - 1) zs get_zero_value in <[i := two_to_one prev prev]> zs)
    zero_hashes (seq 1 (ZERO_HASH_CACHE_SIZE - 1)).

(** The table of constants is the one [generate_zero_hashes_code] prints. *)
Class MerkleZeroHasherWithCache (Hash : Type) `{MerkleHasher Hash, ZeroableHash Hash} := {
  CACHED_ZERO_HASHES : list Hash;
  CACHED_ZERO_HASHES_generated : CACHED_ZERO_HASHES = generate_zero_hashes;
}.

(** What users of [MerkleZeroHasher] rely on: [get_zero_hash n] is the root of
    an empty tree of height [n]. *)
Class MerkleZeroHasher (Hash : Type) `{MerkleHasher Hash, ZeroableHash Hash} := {
  get_zero_hash : nat → Hash;
  get_zero_hash_0 : get_zero_hash 0 = get_zero_value;
  get_zero_hash_S : ∀ n, get_zero_hash (S n) = two_to_one (get_zero_hash n) (get_zero_hash n);
}.

Definition get_zero_hash_cached `{MerkleZeroHasherWithCache Hash} (reverse_level : nat) : Hash :=
  if (reverse_level <? ZERO_HASH_CACHE_SIZE)%nat
  then nth reverse_level CACHED_ZERO_HASHES get_zero_value
  else
    let current := nth (ZERO_HASH_CACHE_SIZE - 1) CACHED_ZERO_HASHES get_zero_value in
    iterate_merkle_hasher current (reverse_level - ZERO_HASH_CACHE_SIZE + 1).

(** ** Machine helpers *)

(** [log2_ceil]: the width minus the leading zeros of [n - 1] (saturating). *)
Definition leading_zeros_usize (n : Z) : Z := if n =? 0 then 64 else 63 - Z.log2 n.

Definition log2_ceil (n : Z) : Z := 64 - leading_zeros_usize (Z.max 0 (n - 1)).

(** [index & (1 << i)]: the shift amount is reduced modulo 64. *)
Definition index_bit_set (index : Z) (i : nat) : bool :=
  negb (Z.land index (u64_shl 1 (Z.of_nat i)) =? 0).

Section hashing.
Context `{MerkleHasher Hash}.

(** One level: the hashes of the pairs [(0, 1)], [(2, 3)], ... *)
Fixpoint hash_pairs (l : list Hash) : list Hash :=
  match l with
  | a :: b :: l => two_to_one a b :: hash_pairs l
  | _ => []
  end.

(** [while current_leaves_len > 1] of [compute_root_from_leaves] *)
Fixpoint leaves_loop (fuel : nat) (current_leaves : list Hash) : outcome Hash :=
  if (1 <? length current_leaves)%nat then
    match fuel with
    | O => Diverge
    | S fuel => leaves_loop fuel (hash_pairs current_leaves)
    end
  else unwrap (current_leaves !! 0%nat).

Definition compute_root_from_leaves (leaves : list Hash) : outcome Hash :=
  match leaves with
  | [] => Err "compute_root_from_leaves called with an empty array"
  | [a] => Ok a
  | [a; b] => Ok (two_to_one a b)
  | _ =>
    let height := log2_ceil (Z.of_nat (length leaves)) in
    if negb (Z.of_nat (length leaves) =? u64_shl 1 height)
    then Err "compute_root_from_leaves called where leaves.len() is not a power of 2"
    else leaves_loop (length leaves) (hash_pairs leaves)
  end.

(** The last element of an odd level moves up unchanged. *)
Definition partial_level (current : list Hash) : list Hash :=
  hash_pairs current ++
  (if (length current mod 2 =? 1)%nat
   then match last current with Some x => [x] | None => [] end else []).

Fixpoint partial_loop (fuel : nat) (current : list Hash) : outcome Hash :=
  if (1 <? length current)%nat then
    match fuel with
    | O => Diverge
    | S fuel => partial_loop fuel (partial_level current)
    end
  else unwrap (current !! 0%nat).

Definition compute_partial_merkle_root_from_leaves (leaves : list Hash) : outcome Hash :=
  partial_loop (length leaves) leaves.

(** [calc_merkle_root_from_leaves]; the [f64] logarithm is exact on the powers
    of two. An empty result of the first pass makes the cast of the negative
    infinite logarithm saturate to 0. *)
Definition calc_merkle_root_from_leaves (leaves : list Hash) : outcome Hash :=
  let current_leaves := hash_pairs leaves in
  let height := Z.log2_up (Z.of_nat (length current_leaves)) in
  let current_leaves := Nat.iter (Z.to_nat (height - 1)) hash_pairs current_leaves in
  unwrap (current_leaves !! 0%nat).

(** ** Reference: the perfect tree over a leaf function *)
Fixpoint tree_node (leaf : Z → Hash) (h : nat) (i : Z) : Hash :=
  match h with
  | O => leaf i
  | S h => two_to_one (tree_node leaf h (2 * i)) (tree_node leaf h (2 * i + 1))
  end.

Definition tree_level (leaf : Z → Hash) (h n : nat) : list Hash :=
  (λ i, tree_node leaf h (Z.of_nat i)) <$> seq 0 n.

End hashing.

(** ** Bits of an index *)
Lemma index_bit_set_testbit index i :
  index_bit_set index i = Z.testbit index (Z.of_nat i mod 64).
Proof.
  unfold index_bit_set, u64_shl. set (b := Z.of_nat i mod 64).
  assert (0 ≤ b < 64) as Hb by (apply Z.mod_pos_bound; lia).
  assert (Z.shiftl 1 b = 2 ^ b) as -> by (rewrite Z.shiftl_mul_pow2; lia).
  rewrite wrap_small by (split; [apply Z.pow_nonneg; lia|apply Z.pow_lt_mono_r; lia]).
  destruct (Z.testbit index b) eqn:E.
  - apply negb_true_iff, Z.eqb_neq. intros H0.
    assert (Z.testbit (Z.land index (2 ^ b)) b = true) as H1.
    { rewrite Z.land_spec, E, Z.pow2_bits_true by lia. done. }
    rewrite H0, Z.bits_0 in H1. done.
  - apply negb_false_iff, Z.eqb_eq. apply Z.bits_inj'. intros n Hn.
    rewrite Z.land_spec, Z.bits_0. destruct (decide (n = b)) as [->|Hne]; [by rewrite E|].
    rewrite Z.pow2_bits_false by lia. apply andb_false_r.
Qed.

Lemma index_bit_set_small index i :
  (i < 64)%nat → index_bit_set index i = Z.testbit index (Z.of_nat i).
Proof. intros. rewrite index_bit_set_testbit, Z.mod_small; [done|lia]. Qed.

(** ** Zero hashes *)
Section zero_hashes.
Context `{MerkleHasher Hash, ZeroableHash Hash}.

Lemma iterate_merkle_hasher_iter n : ∀ x : Hash,
  iterate_merkle_hasher x n = Nat.iter n (λ y, two_to_one y y) x.
Proof. induction n as [|n IH]; intros x; [done|]. simpl. rewrite IH.
  apply (Nat.iter_swap n _ (λ y, two_to_one y y)).
Qed.

Definition zero_at (n : nat) : Hash := Nat.iter n (λ y, two_to_one y y) get_zero_value.

Lemma generate_zero_hashes_prefix m : (m < ZERO_HASH_CACHE_SIZE)%nat →
  let zs := foldl
    (λ zs i, let prev := nth (i - 1) zs get_zero_value in <[i := two_to_one prev prev]> zs)
    (<[0%nat := get_zero_value]> (replicate ZERO_HASH_CACHE_SIZE get_zero_value)) (seq 1 m) in
  length zs = ZERO_HASH_CACHE_SIZE ∧ ∀ n, (n ≤ m)%nat → zs !! n = Some (zero_at n).
Proof.
  induction m as [|m IH]; intros Hm zs.
  { subst zs. unfold foldl; cbn [seq]. rewrite length_insert, length_replicate. split; [done|].
    intros n Hn. assert (n = 0)%nat as -> by lia. apply list_lookup_insert_eq.
    rewrite length_replicate. lia. }
  destruct IH as [Hlen Hlk]; [lia|]. subst zs. rewrite seq_S, foldl_snoc.
  set (zs := foldl _ _ (seq 1 m)) in *. cbv zeta. rewrite length_insert. split; [done|].
  intros n Hn. destruct (decide (n = 1 + m)%nat) as [->|Hne].
  - rewrite list_lookup_insert_eq by lia. f_equal.
    assert (nth (1 + m - 1) zs get_zero_value = zero_at m) as ->; [|done].
    apply nth_lookup_Some. replace (1 + m - 1)%nat with m by lia. apply Hlk. lia.
  - rewrite list_lookup_insert_ne by lia. apply Hlk. lia.
Qed.

Lemma generate_zero_hashes_nth n :
  (n < ZERO_HASH_CACHE_SIZE)%nat → nth n generate_zero_hashes get_zero_value = zero_at n.
Proof.
  intros Hn. destruct (generate_zero_hashes_prefix (ZERO_HASH_CACHE_SIZE - 1)) as [_ Hlk];
    [unfold ZERO_HASH_CACHE_SIZE; lia|].
  apply nth_lookup_Some, Hlk. lia.
Qed.

(** The cached lookup implements the interface at every level. *)
Lemma get_zero_hash_cached_spec `{!MerkleZeroHasherWithCache Hash} n :
  get_zero_hash_cached n = zero_at n.
Proof.
  unfold get_zero_hash_cached. rewrite CACHED_ZERO_HASHES_generated.
  destruct (Nat.ltb_spec n ZERO_HASH_CACHE_SIZE) as [Hlt|Hge]; [by apply generate_zero_hashes_nth|].
  rewrite generate_zero_hashes_nth by (unfold ZERO_HASH_CACHE_SIZE; lia).
  rewrite iterate_merkle_hasher_iter. unfold zero_at. rewrite <- Nat.iter_add. f_equal.
  unfold ZERO_HASH_CACHE_SIZE in *. lia.
Qed.

#[global] Instance cached_zero_hasher `{!MerkleZeroHasherWithCache Hash} : MerkleZeroHasher Hash := {
  get_zero_hash := get_zero_hash_cached;
  get_zero_hash_0 := get_zero_hash_cached_spec 0;
  get_zero_hash_S n := eq_trans (get_zero_hash_cached_spec (S n))
    (eq_sym (f_equal2 two_to_one (get_zero_hash_cached_spec n) (get_zero_hash_cached_spec n)));
}.

(** An empty tree. *)
Lemma tree_node_zero `{!MerkleZeroHasher Hash} (leaf : Z → Hash) h : ∀ i,
  (∀ j, i * 2 ^ Z.of_nat h ≤ j < (i + 1) * 2 ^ Z.of_nat h → leaf j = get_zero_value) →
  tree_node leaf h i = get_zero_hash h.
Proof.
  induction h as [|h IH]; intros i Hz.
  - rewrite get_zero_hash_0. apply Hz. simpl. lia.
  - pose proof (pow2_pos h). rewrite Nat2Z.inj_succ, Z.pow_succ_r in Hz by lia.
    simpl. rewrite get_zero_hash_S. f_equal; apply IH; intros j Hj; apply Hz; nia.
Qed.
End zero_hashes.

(** ** Roots of leaf vectors *)
Section leaves.
Context `{MerkleHasher Hash}.

Lemma length_tree_level (leaf : Z → Hash) h n : length (tree_level leaf h n) = n.
Proof. unfold tree_level. by rewrite length_fmap, length_seq. Qed.

Lemma tree_level_lookup (leaf : Z → Hash) h n i :
  (i < n)%nat → tree_level leaf h n !! i = Some (tree_node leaf h (Z.of_nat i)).
Proof. intros. unfold tree_level. by rewrite list_lookup_fmap, lookup_seq_lt. Qed.

Lemma hash_pairs_tree_level (leaf : Z → Hash) h n :
  hash_pairs (tree_level leaf h (2 * n)) = tree_level leaf (S h) n.
Proof.
  unfold tree_level. enough (∀ s, hash_pairs ((λ i, tree_node leaf h (Z.of_nat i)) <$>
    seq (2 * s) (2 * n)) = (λ i, tree_node leaf (S h) (Z.of_nat i)) <$> seq s n) as Hs
    by apply (Hs 0%nat).
  induction n as [|n IH]; intros s; [done|].
  replace (2 * S n)%nat with (S (S (2 * n))) by lia. cbn [seq]. rewrite !fmap_cons. cbn [hash_pairs].
  replace (S (S (2 * s))) with (2 * S s)%nat by lia. rewrite IH. cbn [tree_node].
  do 2 f_equal; f_equal; lia.
Qed.

(** A leaf vector as a leaf function. *)
Definition leaf_fn (d : Hash) (leaves : list Hash) (i : Z) : Hash := nth (Z.to_nat i) leaves d.

Lemma leaves_tree_level d leaves : leaves = tree_level (leaf_fn d leaves) 0 (length leaves).
Proof.
  apply list_eq. intros i. destruct (decide (i < length leaves)%nat) as [Hi|Hi].
  - rewrite tree_level_lookup by done. simpl. unfold leaf_fn. rewrite Nat2Z.id.
    destruct (lookup_lt_is_Some_2 leaves i Hi) as [x Hx]. rewrite Hx.
    f_equal. symmetry. by apply nth_lookup_Some.
  - rewrite !lookup_ge_None_2; [done|rewrite length_tree_level; lia|lia].
Qed.

Lemma leaves_loop_tree (leaf : Z → Hash) k : ∀ fuel h, (k ≤ fuel)%nat →
  leaves_loop fuel (tree_level leaf h (2 ^ k)) = Ok (tree_node leaf (h + k) 0).
Proof.
  induction k as [|k IH]; intros fuel h Hf.
  - rewrite Nat.add_0_r. destruct fuel; done.
  - destruct fuel as [|fuel]; [lia|]. cbn [leaves_loop]. rewrite length_tree_level.
    assert (1 < 2 ^ S k)%nat as Hlt by (pose proof (Nat.pow_gt_lin_r 2 (S k)); lia).
    rewrite (proj2 (Nat.ltb_lt _ _) Hlt).
    change (2 ^ S k)%nat with (2 * 2 ^ k)%nat. rewrite hash_pairs_tree_level.
    rewrite IH by lia. do 2 f_equal. lia.
Qed.

Lemma partial_level_even (l : list Hash) n :
  length l = (2 * n)%nat → partial_level l = hash_pairs l.
Proof.
  intros Hl. unfold partial_level. rewrite Hl, Nat.mul_comm, Nat.Div0.mod_mul. apply app_nil_r.
Qed.

Lemma partial_loop_tree (leaf : Z → Hash) k : ∀ fuel h, (k ≤ fuel)%nat →
  partial_loop fuel (tree_level leaf h (2 ^ k)) = Ok (tree_node leaf (h + k) 0).
Proof.
  induction k as [|k IH]; intros fuel h Hf.
  - rewrite Nat.add_0_r. destruct fuel; done.
  - destruct fuel as [|fuel]; [lia|]. cbn [partial_loop]. rewrite length_tree_level.
    assert (1 < 2 ^ S k)%nat as Hlt by (pose proof (Nat.pow_gt_lin_r 2 (S k)); lia).
    rewrite (proj2 (Nat.ltb_lt _ _) Hlt).
    rewrite (partial_level_even _ (2 ^ k)) by (rewrite length_tree_level; simpl; lia).
    change (2 ^ S k)%nat with (2 * 2 ^ k)%nat. rewrite hash_pairs_tree_level.
    rewrite IH by lia. do 2 f_equal. lia.
Qed.

Lemma log2_ceil_spec n : 1 < n ≤ 2 ^ 64 → log2_ceil n = Z.log2_up n.
Proof.
  intros Hn. unfold log2_ceil, leading_zeros_usize. rewrite Z.max_r by lia.
  rewrite (proj2 (Z.eqb_neq _ _)) by lia.
  unfold Z.log2_up. rewrite (proj2 (Z.compare_lt_iff 1 n)) by lia.
  replace (Z.pred n) with (n - 1) by lia. lia.
Qed.

Lemma log2_ceil_pow2 k : (1 ≤ k < 64)%nat → log2_ceil (2 ^ Z.of_nat k) = Z.of_nat k.
Proof.
  intros Hk. rewrite log2_ceil_spec; [apply Z.log2_up_pow2; lia|].
  split; [apply (Z.pow_lt_mono_r 2 0); lia|apply pow2_mono; lia].
Qed.

Lemma pow2_nat_Z k : Z.of_nat (2 ^ k) = 2 ^ Z.of_nat k.
Proof. by rewrite Nat2Z.inj_pow. Qed.

(** Three or more leaves take the general path. *)
Lemma compute_root_from_leaves_long (leaves : list Hash) :
  (2 < length leaves)%nat →
  compute_root_from_leaves leaves =
    if negb (Z.of_nat (length leaves) =? u64_shl 1 (log2_ceil (Z.of_nat (length leaves))))
    then Err "compute_root_from_leaves called where leaves.len() is not a power of 2"
    else leaves_loop (length leaves) (hash_pairs leaves).
Proof. destruct leaves as [|a [|b [|c l]]]; simpl; (lia || done). Qed.

Lemma compute_root_pow2 d (leaves : list Hash) k :
  (k < 64)%nat → length leaves = (2 ^ k)%nat →
  compute_root_from_leaves leaves = Ok (tree_node (leaf_fn d leaves) k 0).
Proof.
  intros Hk Hlen. destruct k as [|[|k]].
  - destruct leaves as [|a [|b l]]; simpl in *; (done || lia).
  - destruct leaves as [|a [|b [|c l]]]; simpl in *; (done || lia).
  - assert (4 ≤ 2 ^ S (S k))%nat as H4 by (change 4%nat with (2 ^ 2)%nat; apply Nat.pow_le_mono_r; lia).
    rewrite compute_root_from_leaves_long by lia.
    rewrite Hlen, pow2_nat_Z, log2_ceil_pow2 by lia.
    assert (u64_shl 1 (Z.of_nat (S (S k))) = 2 ^ Z.of_nat (S (S k))) as ->.
    { rewrite u64_shl_small; [lia|lia|lia|]. rewrite Z.mul_1_l. apply Z.pow_lt_mono_r; lia. }
    rewrite Z.eqb_refl. cbn [negb].
    rewrite (leaves_tree_level d leaves) at 1. rewrite Hlen.
    change (2 ^ S (S k))%nat with (2 * 2 ^ S k)%nat at 2. rewrite hash_pairs_tree_level.
    rewrite leaves_loop_tree; [done|].
    pose proof (Nat.pow_gt_lin_r 2 (S (S k)) ltac:(lia)). lia.
Qed.
End leaves.

(** The free hash: two hashes are equal only if they were built alike. *)
Inductive term_hash : Type :=
  | HLeaf (n : Z)
  | HNode (l r : term_hash).

#[global] Instance term_hash_eq_dec : EqDecision term_hash.
Proof. solve_decision. Defined.
#[global] Instance term_hasher : MerkleHasher term_hash := HNode.
#[global] Instance term_zero : ZeroableHash term_hash := HLeaf 0.
#[global] Instance term_zero_cache : MerkleZeroHasherWithCache term_hash := {
  CACHED_ZERO_HASHES := generate_zero_hashes;
  CACHED_ZERO_HASHES_generated := eq_refl;
}.

(** On every slice of fewer than [2 ^ 63] hashes, [compute_root_from_leaves]
    returns the root of the perfect Merkle tree over the leaves when their
    number is a power of two, and an error otherwise; on powers of two
    [compute_partial_merkle_root_from_leaves] agrees with it. *)
Theorem compute_root_from_leaves_correct `{MerkleHasher Hash} (d : Hash) (leaves : list Hash) :
  Z.of_nat (length leaves) < 2 ^ 63 →
  (∀ k, length leaves = (2 ^ k)%nat →
     compute_root_from_leaves leaves = Ok (tree_node (leaf_fn d leaves) k 0) ∧
     compute_partial_merkle_root_from_leaves leaves = Ok (tree_node (leaf_fn d leaves) k 0)) ∧
  ((∀ k, length leaves ≠ (2 ^ k)%nat) → ∃ msg, compute_root_from_leaves leaves = Err msg).
Proof.
  intros Hlt. split.
  - intros k Hk. assert (k < 64)%nat as Hk64.
    { rewrite Hk, pow2_nat_Z in Hlt. apply Z.pow_lt_mono_r_iff in Hlt; lia. }
    split; [by apply compute_root_pow2|].
    unfold compute_partial_merkle_root_from_leaves. rewrite (leaves_tree_level d leaves) at 2.
    rewrite Hk. rewrite partial_loop_tree; [done|]. pose proof (Nat.pow_gt_lin_r 2 k). lia.
  - intros Hne. destruct leaves as [|a [|b [|c l]]]; [by eexists|by destruct (Hne 0%nat)
      |by destruct (Hne 1%nat)|].
    rewrite compute_root_from_leaves_long by (simpl; lia).
    assert (2 < Z.of_nat (length (a :: b :: c :: l))) as H2 by (simpl; lia).
    remember (a :: b :: c :: l) as leaves eqn:El. clear El.
    set (n := Z.of_nat (length leaves)) in *. rewrite log2_ceil_spec by lia.
    destruct (Z.eqb_spec n (u64_shl 1 (Z.log2_up n))) as [He|_]; [|by eexists].
    exfalso. pose proof (Z.log2_up_nonneg n).
    assert (Z.log2_up n ≤ 63) by (apply Z.log2_up_le_pow2; lia).
    rewrite u64_shl_small in He; [|lia|lia|rewrite Z.mul_1_l; apply Z.pow_lt_mono_r; lia].
    apply (Hne (Z.to_nat (Z.log2_up n))). apply Nat2Z.inj. rewrite pow2_nat_Z, Z2Nat.id by lia.
    fold n. lia.
Qed.

Lemma compute_root_from_leaves_correct_witness :
  compute_root_from_leaves (HLeaf <$> [1; 2; 3; 4]) =
    Ok (HNode (HNode (HLeaf 1) (HLeaf 2)) (HNode (HLeaf 3) (HLeaf 4))) ∧
  ∃ msg, compute_root_from_leaves (HLeaf <$> [1; 2; 3]) = Err msg.
Proof.
  split.
  - destruct (compute_root_from_leaves_correct (HLeaf 0) (HLeaf <$> [1; 2; 3; 4])) as [Hp _];
      [simpl; lia|]. by destruct (Hp 2%nat eq_refl) as [-> _].
  - apply (compute_root_from_leaves_correct (HLeaf 0) (HLeaf <$> [1; 2; 3])); [simpl; lia|].
    intros [|[|k]]; simpl; lia.
Defined.

Lemma iter_hash_pairs_tree `{MerkleHasher Hash} (leaf : Z → Hash) n : ∀ h m,
  Nat.iter n hash_pairs (tree_level leaf h (2 ^ n * m)) = tree_level leaf (h + n) m.
Proof.
  induction n as [|n IH]; intros h m; simpl.
  - by rewrite !Nat.add_0_r.
  - replace (_ * m)%nat with (2 ^ n * (2 * m))%nat by lia. rewrite IH, hash_pairs_tree_level.
    f_equal. lia.
Qed.

Lemma calc_merkle_root_spec `{MerkleHasher Hash} (d : Hash) (leaves : list Hash) (k : nat) :
  length leaves = (2 ^ S (S k))%nat →
  calc_merkle_root_from_leaves leaves = Ok (tree_node (leaf_fn d leaves) (S k) 0).
Proof.
  intros Hlen. unfold calc_merkle_root_from_leaves.
  assert (hash_pairs leaves = tree_level (leaf_fn d leaves) 1 (2 ^ k * 2)) as ->.
  { rewrite (leaves_tree_level d leaves) at 1. rewrite Hlen.
    replace (2 ^ S (S k))%nat with (2 * (2 ^ k * 2))%nat by (simpl; lia). apply hash_pairs_tree_level. }
  rewrite length_tree_level.
  assert (Z.of_nat (2 ^ k * 2) = 2 ^ Z.of_nat (S k)) as -> by (rewrite <- pow2_nat_Z; simpl; lia).
  rewrite Z.log2_up_pow2 by lia.
  replace (Z.to_nat (Z.of_nat (S k) - 1)) with k by lia.
  rewrite iter_hash_pairs_tree. rewrite tree_level_lookup by lia. done.
Qed.

(** A node depends only on the leaves below it. *)
Lemma tree_node_ext `{MerkleHasher Hash} (leaf leaf' : Z → Hash) h : ∀ i,
  (∀ j, i * 2 ^ Z.of_nat h ≤ j < (i + 1) * 2 ^ Z.of_nat h → leaf j = leaf' j) →
  tree_node leaf h i = tree_node leaf' h i.
Proof.
  induction h as [|h IH]; intros i Hext.
  - apply Hext. simpl. lia.
  - pose proof (pow2_pos h). rewrite Nat2Z.inj_succ, Z.pow_succ_r in Hext by lia.
    simpl. f_equal; apply IH; intros j Hj; apply Hext; nia.
Qed.

(** [calc_merkle_root_from_leaves] stops one level short: on [2 ^ k] leaves
    with [k >= 2] it returns the root of the left half of the leaves only, and
    the right half does not influence the result. *)
Theorem calc_merkle_root_from_leaves_left_half `{MerkleHasher Hash} (d : Hash)
    (leaves leaves' : list Hash) (k : nat) :
  length leaves = (2 ^ S (S k))%nat → length leaves' = (2 ^ S (S k))%nat →
  take (2 ^ S k) leaves = take (2 ^ S k) leaves' →
  calc_merkle_root_from_leaves leaves = Ok (tree_node (leaf_fn d leaves) (S k) 0) ∧
  calc_merkle_root_from_leaves leaves' = calc_merkle_root_from_leaves leaves.
Proof.
  intros Hlen Hlen' Htake. rewrite !(calc_merkle_root_spec d _ k) by done. split; [done|].
  f_equal. apply tree_node_ext. intros j Hj. unfold leaf_fn.
  rewrite <- (take_drop (2 ^ S k) leaves), <- (take_drop (2 ^ S k) leaves'), <- Htake.
  rewrite <- pow2_nat_Z in Hj. rewrite !app_nth1; [done|rewrite length_take; simpl in *; lia..].
Qed.

Lemma calc_merkle_root_from_leaves_left_half_witness :
  calc_merkle_root_from_leaves (HLeaf <$> [1; 2; 3; 4]) = Ok (HNode (HLeaf 1) (HLeaf 2)) ∧
  calc_merkle_root_from_leaves (HLeaf <$> [1; 2; 7; 9]) =
  calc_merkle_root_from_leaves (HLeaf <$> [1; 2; 3; 4]).
Proof.
  destruct (calc_merkle_root_from_leaves_left_half (HLeaf 0) (HLeaf <$> [1; 2; 3; 4])
    (HLeaf <$> [1; 2; 7; 9]) 0) as [H1 H2]; [reflexivity..|]. split; [exact H1|exact H2].
Defined.
