(* ===== verification/FieldHash.v ===== *)
(** * Field elements and hashes made of them

    The interfaces of [parth_core/src/felt/mod.rs] and
    [parth_core/src/crypto/hash/traits/felt_hash.rs] that the tree and layout code
    is generic in: 64-bit field elements ([QFelt64]), hashes of four felts
    ([HashTo4Felts]) and hashing of felt sequences ([FieldQHasher]). The field and
    the hash are parameters; the laws are those of a prime field of 64-bit numbers
    and of hashes that are four felts. *)
From stdpp Require Import prelude list strings.
From Stdlib Require Import ZArith Lia.
From S2P Require Import Prelude MerkleHash.

(** ** Parameters: field elements and the felt encoding of a hash *)
Class FieldHash (F Hash : Type) : Type := {
  to_4_felts : Hash → F * F * F * F;
  from_4_felts : F * F * F * F → Hash;
  to_u64_value : F → Z;
  from_u64_value : Z → F;
  q_hash_many : list F → Hash;
  hash_default : Hash;
  felt_default : F;
}.

(** The order of the Goldilocks field. *)
Definition GOLDILOCKS_ORDER : Z := 18446744069414584321.

(** A felt is read as a canonical 64-bit integer, which determines it. *)
Class Felt64 (F Hash : Type) `{FieldHash F Hash} : Prop := {
  felt_of_value : ∀ f : F, from_u64_value (to_u64_value f) = f;
  felt_value_range : ∀ f : F, 0 ≤ to_u64_value f < GOLDILOCKS_ORDER;
}.

(** A hash is its four felts. *)
Class HashFelts (F Hash : Type) `{FieldHash F Hash} : Prop := {
  hash_of_felts : ∀ h : Hash, from_4_felts (to_4_felts h) = h;
  felts_of_hash : ∀ f : F * F * F * F, to_4_felts (from_4_felts f) = f;
}.

(** ** Concrete felts, for evaluation *)
Definition felts4 : Type := N * N * N * N.

#[global] Instance felts4_field_hash : FieldHash N felts4 := {
  to_4_felts h := h;
  from_4_felts h := h;
  to_u64_value := Z.of_N;
  from_u64_value := Z.to_N;
  q_hash_many l := (foldl (λ a x, a * 1000003 + x + 1)%N 7%N l, N.of_nat (length l), 0%N, 0%N);
  hash_default := (0, 0, 0, 0)%N;
  felt_default := 0%N;
}.

#[global] Instance felts4_hash_felts : HashFelts N felts4.
Proof. by split. Qed.

Definition goldilocks : N := 18446744069414584321%N.

Definition felts4_two_to_one (a b : felts4) : felts4 :=
  let '(a0, a1, a2, a3) := a in
  let '(b0, b1, b2, b3) := b in
  let mix x y c := ((x * 6364136223846793005 + y * 1442695040888963407 + c) mod goldilocks)%N in
  (mix a0 b0 (a1 + 1)%N, mix a1 b1 (b0 + 2)%N, mix a2 b2 (a0 + 3)%N, mix a3 b3 (b1 + 4)%N).

#[global] Instance felts4_hasher : MerkleHasher felts4 := felts4_two_to_one.
