(* ===== verification/MerkleProof.v ===== *)
(** * Merkle proofs

    [parth_core/src/crypto/hash/merkle_proof.rs]: inclusion proofs, delta
    proofs (one leaf changes, the siblings stay), the historical roots of
    append-only trees, and the methods of both proof types. *)
From stdpp Require Import prelude list strings.
From Stdlib Require Import ZArith Lia.
From S2P Require Import Prelude MerkleKey MerkleHash.

Record MerkleProofCore (Hash : Type) : Type := mkProof {
  root : Hash;
  value : Hash;
  mp_index : Z;
  mp_siblings : list Hash;
}.
Arguments mkProof {Hash}.
Arguments root {Hash}.
Arguments value {Hash}.
Arguments mp_index {Hash}.
Arguments mp_siblings {Hash}.

Record DeltaMerkleProofCore (Hash : Type) : Type := mkDelta {
  old_root : Hash;
  old_value : Hash;
  new_root : Hash;
  new_value : Hash;
  dmp_index : Z;
  dmp_siblings : list Hash;
}.
Arguments mkDelta {Hash}.
Arguments old_root {Hash}.
Arguments old_value {Hash}.
Arguments new_root {Hash}.
Arguments new_value {Hash}.
Arguments dmp_index {Hash}.
Arguments dmp_siblings {Hash}.

Record SimpleMerkleNode (Hash : Type) : Type := mkNode {
  node_key : SimpleMerkleNodeKey;
  node_value : Hash;
}.
Arguments mkNode {Hash}.
Arguments node_key {Hash}.
Arguments node_value {Hash}.

#[global] Instance proof_eq_dec `{EqDecision Hash} : EqDecision (MerkleProofCore Hash).
Proof. solve_decision. Defined.
#[global] Instance delta_eq_dec `{EqDecision Hash} : EqDecision (DeltaMerkleProofCore Hash).
Proof. solve_decision. Defined.
#[global] Instance node_eq_dec `{EqDecision Hash} : EqDecision (SimpleMerkleNode Hash).
Proof. solve_decision. Defined.

Section proofs.
Context `{EqDecision Hash, MerkleHasher Hash}.
Implicit Types (siblings : list Hash) (index : Z).

(** [for (i, sibling) in siblings.iter().enumerate()] *)
Fixpoint compute_root_loop (i : nat) (current : Hash) (index : Z) (siblings : list Hash) : Hash :=
  match siblings with
  | [] => current
  | sibling :: siblings =>
      let current :=
        if negb (index_bit_set index i) then two_to_one current sibling
        else two_to_one sibling current in
      compute_root_loop (S i) current index siblings
  end.

Definition compute_root_merkle_proof_generic (value : Hash) (index : Z) (siblings : list Hash) : Hash :=
  compute_root_loop 0 value index siblings.

Fixpoint compute_path_loop (current : Hash) (index : Z) (siblings : list Hash) : list Hash :=
  match siblings with
  | [] => []
  | sibling :: siblings =>
      let current := two_to_one_swap (Z.land index 1 =? 1) current sibling in
      current :: compute_path_loop current (u64_shr index 1) siblings
  end.

Definition compute_path_merkle_proof_generic (value : Hash) (index : Z) (siblings : list Hash)
    : list Hash :=
  value :: compute_path_loop value index siblings.

Definition verify_merkle_proof_core (proof : MerkleProofCore Hash) : bool :=
  if (64 <? length (mp_siblings proof))%nat then false else
  let current := compute_root_loop 0 (value proof) (mp_index proof) (mp_siblings proof) in
  bool_decide (current = root proof).

Definition verify_delta_merkle_proof_core (proof : DeltaMerkleProofCore Hash) : bool :=
  if (64 <? length (dmp_siblings proof))%nat then false else
  let current := compute_root_loop 0 (old_value proof) (dmp_index proof) (dmp_siblings proof) in
  if negb (bool_decide (current = old_root proof)) then false else
  let current := compute_root_loop 0 (new_value proof) (dmp_index proof) (dmp_siblings proof) in
  bool_decide (current = new_root proof).

(** *** Methods of [MerkleProofCore] *)
Definition compute_root_with_value (proof : MerkleProofCore Hash) (new_value : Hash) : Hash :=
  compute_root_merkle_proof_generic new_value (mp_index proof) (mp_siblings proof).

Definition new_from_params (index : Z) (value : Hash) (siblings : list Hash) : MerkleProofCore Hash :=
  let root := compute_root_merkle_proof_generic value index siblings in
  mkProof root value index siblings.

Definition verify (proof : MerkleProofCore Hash) : bool :=
  if (64 <? length (mp_siblings proof))%nat then false else verify_merkle_proof_core proof.

Definition to_delta_merkle_proof_template (proof : MerkleProofCore Hash) : DeltaMerkleProofCore Hash :=
  mkDelta (root proof) (value proof) (root proof) (value proof) (mp_index proof) (mp_siblings proof).

Fixpoint all_nodes_loop (key : SimpleMerkleNodeKey) (current : Hash) (index : Z) (siblings : list Hash)
    (nodes : list (SimpleMerkleNode Hash)) : Hash * list (SimpleMerkleNode Hash) :=
  match siblings with
  | [] => (current, nodes ++ [mkNode key current])
  | s :: siblings =>
      let nodes := nodes ++ [mkNode (sibling key) s] ++ [mkNode key current] in
      let current := two_to_one_swap (Z.land index 1 =? 1) current s in
      all_nodes_loop (parent key) current (u64_shr index 1) siblings nodes
  end.

Definition get_all_merkle_nodes_and_verify (proof : MerkleProofCore Hash)
    : outcome (list (SimpleMerkleNode Hash)) :=
  let key := mkKey (wrap 8 (Z.of_nat (length (mp_siblings proof)))) (mp_index proof) in
  let '(current, nodes) := all_nodes_loop key (value proof) (mp_index proof) (mp_siblings proof) [] in
  if negb (bool_decide (current = root proof)) then Err "Computed root does not match proof root"
  else Ok nodes.

(** *** Methods of [DeltaMerkleProofCore] *)
Definition from_params (index : Z) (old_value new_value : Hash) (siblings : list Hash)
    : DeltaMerkleProofCore Hash :=
  let old_root := compute_root_merkle_proof_generic old_value index siblings in
  let new_root := compute_root_merkle_proof_generic new_value index siblings in
  mkDelta old_root old_value new_root new_value index siblings.

Definition verify_delta (proof : DeltaMerkleProofCore Hash) : bool :=
  if (64 <? length (dmp_siblings proof))%nat then false else verify_delta_merkle_proof_core proof.

Definition single_value (index : Z) (old_value new_value : Hash) : DeltaMerkleProofCore Hash :=
  mkDelta old_value old_value new_value new_value index [].

Definition with_shortened_height_from_bottom (proof : DeltaMerkleProofCore Hash) (new_height : nat)
    : outcome (DeltaMerkleProofCore Hash) :=
  let siblings := dmp_siblings proof in
  let* _ := assert_ (new_height <=? length siblings)%nat in
  if (new_height =? length siblings)%nat then Ok proof else
  let height_diff := (length siblings - new_height)%nat in
  let low_index :=
    Z.land (dmp_index proof) (wrap 64 (u64_shl 1 (Z.of_nat height_diff) - 1)) in
  let new_index := u64_shr (dmp_index proof) (Z.of_nat height_diff) in
  let old_value :=
    compute_root_merkle_proof_generic (old_value proof) low_index (take height_diff siblings) in
  let new_value :=
    compute_root_merkle_proof_generic (new_value proof) low_index (take height_diff siblings) in
  Ok (from_params new_index old_value new_value (drop height_diff siblings)).

Definition shorten_height (proof : DeltaMerkleProofCore Hash) (new_height : nat)
    : outcome (DeltaMerkleProofCore Hash) :=
  let siblings := dmp_siblings proof in
  let* _ := assert_ (new_height <=? length siblings)%nat in
  if (new_height =? length siblings)%nat then Ok proof else
  Ok (from_params (dmp_index proof) (old_value proof) (new_value proof) (take new_height siblings)).

Definition delta_from_proof (value_ : MerkleProofCore Hash) : DeltaMerkleProofCore Hash :=
  mkDelta (root value_) (value value_) (root value_) (value value_) (mp_index value_) (mp_siblings value_).

(** *** Historical roots of append-only trees *)
Context `{!ZeroableHash Hash, !MerkleZeroHasher Hash}.

Fixpoint historical_loop (i : nat) (current historical : Hash) (index : Z) (siblings : list Hash)
    : Hash * Hash :=
  match siblings with
  | [] => (historical, current)
  | sibling :: siblings =>
      if negb (index_bit_set index i) then
        historical_loop (S i) (two_to_one current sibling)
          (two_to_one historical (get_zero_hash i)) index siblings
      else
        historical_loop (S i) (two_to_one sibling current)
          (two_to_one sibling historical) index siblings
  end.

Definition compute_historical_and_current_merkle_roots_core (proof : MerkleProofCore Hash) : Hash * Hash :=
  historical_loop 0 (value proof) (get_zero_hash 0) (mp_index proof) (mp_siblings proof).

Definition compute_historical_and_current_merkle_roots_core_gt (proof : MerkleProofCore Hash)
    : Hash * Hash :=
  historical_loop 0 (value proof) (value proof) (mp_index proof) (mp_siblings proof).

Definition compute_historical_and_current_merkle_roots_core_gt_alt (proof : MerkleProofCore Hash)
    : Hash * Hash :=
  historical_loop 0 (value proof) (get_zero_hash 0) (mp_index proof) (mp_siblings proof).

Fixpoint append_loop (i : nat) (current : Hash) (index : Z) (siblings : list Hash) : Hash :=
  match siblings with
  | [] => current
  | sibling :: siblings =>
      let current :=
        if negb (index_bit_set index i) then two_to_one current (get_zero_hash i)
        else two_to_one sibling current in
      append_loop (S i) current index siblings
  end.

Definition compute_historical_append_root_core (proof : MerkleProofCore Hash) : Hash :=
  append_loop 0 (value proof) (mp_index proof) (mp_siblings proof).

Definition compute_historical_append_root (value : Hash) (index : Z) (siblings : list Hash) : Hash :=
  append_loop 0 value index siblings.

Definition get_append_root (proof : MerkleProofCore Hash) : Hash :=
  compute_historical_append_root_core proof.

Definition delta_get_append_root (proof : DeltaMerkleProofCore Hash) : Hash :=
  compute_historical_append_root (new_value proof) (dmp_index proof) (dmp_siblings proof).

Definition to_append_proof (proof : MerkleProofCore Hash) : MerkleProofCore Hash :=
  let siblings :=
    imap (λ i s, if negb (index_bit_set (mp_index proof) i) then get_zero_hash i else s)
      (mp_siblings proof) in
  mkProof (compute_root_merkle_proof_generic (value proof) (mp_index proof) siblings)
    (value proof) (mp_index proof) siblings.
End proofs.

(** ** Proofs of the reference tree *)
Section reference.
Context `{EqDecision Hash, MerkleHasher Hash}.
Implicit Types leaf : Z → Hash.

(** The sibling of node [k] of a level. *)
Definition sib (k : Z) : Z := Z.lxor k 1.

Definition siblings_from leaf (j n : nat) (i : Z) : list Hash :=
  (λ l, tree_node leaf l (sib (i / 2 ^ Z.of_nat l))) <$> seq j n.

Definition tree_siblings leaf (h : nat) (i : Z) : list Hash := siblings_from leaf 0 h i.

Definition update leaf (i : Z) (v : Hash) : Z → Hash := λ j, if j =? i then v else leaf j.

Lemma siblings_from_S leaf j n i :
  siblings_from leaf j (S n) i =
  tree_node leaf j (sib (i / 2 ^ Z.of_nat j)) :: siblings_from leaf (S j) n i.
Proof. done. Qed.

Lemma length_tree_siblings leaf h i : length (tree_siblings leaf h i) = h.
Proof. unfold tree_siblings, siblings_from. by rewrite length_fmap, length_seq. Qed.

(** One step up the tree: the position is even or odd. *)
Lemma index_step i (j : nat) : 0 ≤ i → (j < 64)%nat →
  let k := i / 2 ^ Z.of_nat j in let q := i / 2 ^ Z.of_nat (S j) in
  (index_bit_set i j = false ∧ k = 2 * q ∧ sib k = 2 * q + 1) ∨
  (index_bit_set i j = true ∧ k = 2 * q + 1 ∧ sib k = 2 * q).
Proof.
  intros Hi Hj k q. rewrite index_bit_set_small by done.
  assert (q = k / 2) as Hq.
  { unfold q, k. rewrite Nat2Z.inj_succ. unfold Z.succ. rewrite <- div_pow2_div by lia. done. }
  assert (Z.testbit i (Z.of_nat j) = Z.odd k) as ->.
  { rewrite Z.testbit_odd, Z.shiftr_div_pow2 by lia. done. }
  unfold sib. rewrite lxor_1. rewrite <- Z.negb_even.
  destruct (even_cases k) as [(m & Hm & ->)|(m & Hm & ->)]; [left|right];
    (split; [done|]; split; Z.div_mod_to_equations; lia).
Qed.

Lemma compute_root_loop_tree leaf i n : 0 ≤ i → ∀ j,
  (j + n ≤ 64)%nat →
  compute_root_loop j (tree_node leaf j (i / 2 ^ Z.of_nat j)) i (siblings_from leaf j n i) =
  tree_node leaf (j + n) (i / 2 ^ Z.of_nat (j + n)).
Proof.
  intros Hi. induction n as [|n IH]; intros j Hj.
  - rewrite Nat.add_0_r. done.
  - rewrite siblings_from_S. cbn [compute_root_loop].
    rewrite <- Nat.add_succ_comm. rewrite <- (IH (S j)) by lia. f_equal.
    destruct (index_step i j Hi ltac:(lia)) as [(-> & Hk & Hs)|(-> & Hk & Hs)];
      cbn [negb tree_node]; rewrite Hs, Hk; done.
Qed.

Lemma div_pow2_small i h : 0 ≤ i < 2 ^ Z.of_nat h → i / 2 ^ Z.of_nat h = 0.
Proof. apply Z.div_small. Qed.

Lemma compute_root_tree leaf h i :
  (h ≤ 64)%nat → 0 ≤ i < 2 ^ Z.of_nat h →
  compute_root_merkle_proof_generic (leaf i) i (tree_siblings leaf h i) = tree_node leaf h 0.
Proof.
  intros Hh Hi. pose proof (compute_root_loop_tree leaf i h ltac:(lia) 0 Hh) as Hc.
  rewrite Z.div_1_r in Hc. unfold compute_root_merkle_proof_generic, tree_siblings.
  change (leaf i) with (tree_node leaf 0 i). rewrite Hc. cbn [Nat.add]. by rewrite div_pow2_small.
Qed.

(** The siblings do not depend on the leaf itself. *)
Lemma div_pow2_range i j : i / 2 ^ Z.of_nat j * 2 ^ Z.of_nat j ≤ i < (i / 2 ^ Z.of_nat j + 1) * 2 ^ Z.of_nat j.
Proof. pose proof (pow2_pos j). Z.div_mod_to_equations. nia. Qed.

Lemma sib_ne k : sib k ≠ k.
Proof. unfold sib. rewrite lxor_1. destruct (Z.even k); lia. Qed.

Lemma siblings_from_ext leaf leaf' j n i :
  (∀ k, k ≠ i → leaf k = leaf' k) → siblings_from leaf j n i = siblings_from leaf' j n i.
Proof.
  intros Hext. apply list_fmap_ext. intros _ l _. apply tree_node_ext. intros k Hk. apply Hext.
  intros ->. pose proof (div_pow2_range i l). pose proof (pow2_pos l).
  apply (sib_ne (i / 2 ^ Z.of_nat l)). nia.
Qed.

Lemma tree_siblings_update leaf h i v : tree_siblings (update leaf i v) h i = tree_siblings leaf h i.
Proof.
  apply siblings_from_ext. intros k Hk. unfold update. by rewrite (proj2 (Z.eqb_neq _ _)).
Qed.

Lemma update_eq leaf i v : update leaf i v i = v.
Proof. unfold update. by rewrite Z.eqb_refl. Qed.

Lemma compute_root_update leaf h i v :
  (h ≤ 64)%nat → 0 ≤ i < 2 ^ Z.of_nat h →
  compute_root_merkle_proof_generic v i (tree_siblings leaf h i) = tree_node (update leaf i v) h 0.
Proof.
  intros Hh Hi. rewrite <- (tree_siblings_update leaf h i v).
  rewrite <- (update_eq leaf i v) at 1. by apply compute_root_tree.
Qed.

(** *** Verification on well-sized proofs *)
Lemma verify_spec (p : MerkleProofCore Hash) :
  verify p = true ↔ (length (mp_siblings p) ≤ 64)%nat ∧
    compute_root_merkle_proof_generic (value p) (mp_index p) (mp_siblings p) = root p.
Proof.
  unfold verify, verify_merkle_proof_core. destruct (Nat.ltb_spec 64 (length (mp_siblings p))).
  - split; [done|lia].
  - unfold compute_root_merkle_proof_generic. rewrite bool_decide_eq_true. intuition lia.
Qed.

Lemma verify_delta_spec (p : DeltaMerkleProofCore Hash) :
  verify_delta p = true ↔ (length (dmp_siblings p) ≤ 64)%nat ∧
    compute_root_merkle_proof_generic (old_value p) (dmp_index p) (dmp_siblings p) = old_root p ∧
    compute_root_merkle_proof_generic (new_value p) (dmp_index p) (dmp_siblings p) = new_root p.
Proof.
  unfold verify_delta, verify_delta_merkle_proof_core, compute_root_merkle_proof_generic.
  destruct (Nat.ltb_spec 64 (length (dmp_siblings p))); [split; [done|lia]|].
  case_bool_decide as Ho; cbn [negb]; [rewrite bool_decide_eq_true; intuition lia|].
  split; [done|]. by intros (_ & ? & _).
Qed.

Lemma from_params_verifies i (ov nv : Hash) sibs :
  (length sibs ≤ 64)%nat → verify_delta (from_params i ov nv sibs) = true.
Proof. intros. by apply verify_delta_spec. Qed.
End reference.

(** Completeness. In a Merkle tree of height at most 64, the proof built
    from a leaf and its siblings verifies against the root of the tree, and the
    delta proof that replaces the leaf verifies with the root of the tree before
    and the root of the tree after the replacement. *)
Theorem merkle_proof_complete `{EqDecision Hash, MerkleHasher Hash} (leaf : Z → Hash) (h : nat)
    (i : Z) (v : Hash) :
  (h ≤ 64)%nat → 0 ≤ i < 2 ^ Z.of_nat h →
  let p := new_from_params i (leaf i) (tree_siblings leaf h i) in
  let d := from_params i (leaf i) v (tree_siblings leaf h i) in
  verify p = true ∧ root p = tree_node leaf h 0 ∧
  verify_delta d = true ∧ old_root d = tree_node leaf h 0 ∧
  new_root d = tree_node (update leaf i v) h 0.
Proof.
  intros Hh Hi p d.
  pose proof (length_tree_siblings leaf h i) as Hlen.
  split_and!.
  - apply verify_spec. subst p; simpl. split; [lia|done].
  - by apply compute_root_tree.
  - apply from_params_verifies. lia.
  - by apply compute_root_tree.
  - by apply compute_root_update.
Qed.

Lemma merkle_proof_complete_witness :
  verify (new_from_params 2 (HLeaf 2) (tree_siblings HLeaf 3 2)) = true ∧
  new_root (from_params 2 (HLeaf 2) (HLeaf 9) (tree_siblings HLeaf 3 2)) =
    tree_node (update HLeaf 2 (HLeaf 9)) 3 0.
Proof.
  destruct (merkle_proof_complete HLeaf 3 2 (HLeaf 9)) as (Hv & _ & _ & _ & Hn); [lia|lia|].
  split; [exact Hv|exact Hn].
Defined.

(** ** Binding *)
Section binding.
Context `{EqDecision Hash, MerkleHasher Hash}.

Definition hash_input (index : Z) (i : nat) (current s : Hash) : Hash * Hash :=
  if negb (index_bit_set index i) then (current, s) else (s, current).

Definition hash_pair (p : Hash * Hash) : Hash := two_to_one p.1 p.2.

(** Walk two paths of one index in parallel and report the first level at which
    two different inputs of the compression function have the same hash. *)
Fixpoint extract_collision (i : nat) (index : Z) (v : Hash) (ss : list Hash) (v' : Hash)
    (ss' : list Hash) : option ((Hash * Hash) * (Hash * Hash)) :=
  match ss, ss' with
  | s :: ss, s' :: ss' =>
      let p := hash_input index i v s in
      let p' := hash_input index i v' s' in
      if decide (hash_pair p = hash_pair p' ∧ p ≠ p') then Some (p, p')
      else extract_collision (S i) index (hash_pair p) ss (hash_pair p') ss'
  | _, _ => None
  end.

Lemma compute_root_loop_S i v index s ss :
  compute_root_loop i v index (s :: ss) =
  compute_root_loop (S i) (hash_pair (hash_input index i v s)) index ss.
Proof. cbn [compute_root_loop]. unfold hash_pair, hash_input. by destruct (index_bit_set index i). Qed.

Lemma hash_input_inj index i v s v' s' :
  hash_input index i v s = hash_input index i v' s' → v = v' ∧ s = s'.
Proof. unfold hash_input. destruct (index_bit_set index i); simpl; intros [= -> ->]; done. Qed.

Lemma extract_collision_Some ss : ∀ i index v v' ss' p p',
  extract_collision i index v ss v' ss' = Some (p, p') → p ≠ p' ∧ hash_pair p = hash_pair p'.
Proof.
  induction ss as [|s ss IH]; intros i index v v' [|s' ss'] p p'; simpl; try done.
  destruct (decide _) as [[Hh Hne]|_]; [|by apply IH]. by intros [= <- <-].
Qed.

Lemma extract_collision_None ss : ∀ i index v v' ss',
  length ss = length ss' →
  compute_root_loop i v index ss = compute_root_loop i v' index ss' →
  extract_collision i index v ss v' ss' = None → v = v' ∧ ss = ss'.
Proof.
  induction ss as [|s ss IH]; intros i index v v' [|s' ss'] Hlen; try done.
  rewrite !compute_root_loop_S. intros Hroot. cbn [extract_collision].
  destruct (decide _) as [|Hn]; [done|]. intros Hex.
  apply IH in Hex as [Hh ->]; [|by injection Hlen|done].
  destruct (decide (hash_input index i v s = hash_input index i v' s')) as [Heq|Hne].
  - apply hash_input_inj in Heq as [-> ->]. done.
  - by destruct Hn.
Qed.
End binding.

(** C7: binding. If a delta proof verifies against the root of a Merkle tree at
    one of its leaves, then either the proof's old value and siblings are those
    of the tree, so that its new root is the root of the tree with exactly that
    leaf replaced, or the explicit comparison [extract_collision] of the proof
    with the tree returns two different inputs of the compression function with
    the same output. *)
Theorem delta_merkle_proof_sound `{EqDecision Hash, MerkleHasher Hash} (leaf : Z → Hash)
    (p : DeltaMerkleProofCore Hash) :
  verify_delta p = true →
  0 ≤ dmp_index p < 2 ^ Z.of_nat (length (dmp_siblings p)) →
  old_root p = tree_node leaf (length (dmp_siblings p)) 0 →
  let i := dmp_index p in let h := length (dmp_siblings p) in
  match extract_collision 0 i (old_value p) (dmp_siblings p) (leaf i) (tree_siblings leaf h i) with
  | Some (x, y) => x ≠ y ∧ hash_pair x = hash_pair y
  | None =>
      old_value p = leaf i ∧ dmp_siblings p = tree_siblings leaf h i ∧
      new_root p = tree_node (update leaf i (new_value p)) h 0
  end.
Proof.
  intros (Hlen & Hold & Hnew)%verify_delta_spec Hi Hroot i h.
  destruct (extract_collision _ _ _ _ _ _) as [[x y]|] eqn:E.
  { by eapply extract_collision_Some. }
  apply extract_collision_None in E as [Hv Hs].
  - split_and!; [done|done|]. rewrite <- Hnew, Hs. apply compute_root_update; done.
  - by rewrite length_tree_siblings.
  - change (compute_root_merkle_proof_generic (old_value p) i (dmp_siblings p) =
      compute_root_merkle_proof_generic (leaf i) i (tree_siblings leaf h i)).
    rewrite compute_root_tree by done. exact (eq_trans Hold Hroot).
Qed.

Lemma delta_merkle_proof_sound_witness :
  let p := from_params 2 (HLeaf 2) (HLeaf 9) (tree_siblings HLeaf 3 2) in
  old_value p = HLeaf 2 ∧ new_root p = tree_node (update HLeaf 2 (HLeaf 9)) 3 0.
Proof.
  pose proof (delta_merkle_proof_sound HLeaf
    (from_params 2 (HLeaf 2) (HLeaf 9) (tree_siblings HLeaf 3 2))) as Hs.
  vm_compute in Hs. destruct Hs as (? & ? & ?); [reflexivity|split; [discriminate|reflexivity]
    |reflexivity|]. split; reflexivity.
Defined.

(** ** Historical roots *)
Section historical.
Context `{EqDecision Hash, MerkleHasher Hash, !ZeroableHash Hash, !MerkleZeroHasher Hash}.
Implicit Types leaf : Z → Hash.

(** The tree when the leaves up to [i] (exclusive, or inclusive) were appended. *)
Definition before leaf (i : Z) : Z → Hash := λ j, if j <? i then leaf j else get_zero_value.
Definition upto leaf (i : Z) : Z → Hash := λ j, if j <=? i then leaf j else get_zero_value.

(** [past] agrees with [leaf] before [i] and is empty after it. *)
Definition prefix_of leaf (past : Z → Hash) (i : Z) : Prop :=
  (∀ j, j < i → past j = leaf j) ∧ (∀ j, i < j → past j = get_zero_value).

Lemma append_loop_tree leaf past i n : 0 ≤ i → prefix_of leaf past i → ∀ j,
  (j + n ≤ 64)%nat →
  append_loop j (tree_node past j (i / 2 ^ Z.of_nat j)) i (siblings_from leaf j n i) =
  tree_node past (j + n) (i / 2 ^ Z.of_nat (j + n)).
Proof.
  intros Hi [Hlt Hgt]. induction n as [|n IH]; intros j Hj.
  - rewrite Nat.add_0_r. done.
  - rewrite siblings_from_S. cbn [append_loop].
    rewrite <- Nat.add_succ_comm. rewrite <- (IH (S j)) by lia. f_equal.
    pose proof (div_pow2_range i j) as Hr. pose proof (pow2_pos j) as Hp.
    destruct (index_step i j Hi ltac:(lia)) as [(-> & Hk & Hs)|(-> & Hk & Hs)];
      cbn [negb tree_node]; rewrite ?Hs; rewrite Hk in *; f_equal.
    + symmetry. apply tree_node_zero. intros k Hkr. apply Hgt. nia.
    + apply tree_node_ext. intros k Hkr. symmetry. apply Hlt. nia.
Qed.

Lemma historical_loop_fst j c c' hist index ss :
  (historical_loop j c hist index ss).1 = (historical_loop j c' hist index ss).1.
Proof.
  revert j c c' hist. induction ss as [|s ss IH]; intros j c c' hist; simpl; [done|].
  destruct (negb _); apply IH.
Qed.

Lemma historical_loop_spec ss : ∀ j c hist index,
  historical_loop j c hist index ss = (append_loop j hist index ss, compute_root_loop j c index ss).
Proof.
  induction ss as [|s ss IH]; intros j c hist index; [done|].
  cbn [historical_loop append_loop compute_root_loop]. destruct (negb _); apply IH.
Qed.

Lemma append_root_tree leaf past h i :
  (h ≤ 64)%nat → 0 ≤ i < 2 ^ Z.of_nat h → prefix_of leaf past i →
  append_loop 0 (past i) i (tree_siblings leaf h i) = tree_node past h 0.
Proof.
  intros Hh Hi Hp. pose proof (append_loop_tree leaf past i h ltac:(lia) Hp 0 Hh) as Hc.
  rewrite Z.div_1_r in Hc. cbn [tree_node Nat.add] in Hc. unfold tree_siblings.
  rewrite Hc. by rewrite div_pow2_small.
Qed.

Lemma prefix_of_before leaf i : prefix_of leaf (before leaf i) i.
Proof. split; intros j Hj; unfold before; case_bool; zify_bool; (done || lia). Qed.

Lemma prefix_of_upto leaf i : prefix_of leaf (upto leaf i) i.
Proof. split; intros j Hj; unfold upto; case_bool; zify_bool; (done || lia). Qed.

Lemma append_loop_imap index ss : ∀ j v,
  append_loop j v index ss =
  compute_root_loop j v index
    (imap (λ i s, if negb (index_bit_set index (j + i)) then get_zero_hash (j + i) else s) ss).
Proof.
  induction ss as [|s ss IH]; intros j v; [done|].
  cbn [append_loop]. rewrite imap_cons. cbn [compute_root_loop]. rewrite Nat.add_0_r.
  destruct (negb (index_bit_set index j)) eqn:E; rewrite IH; f_equal;
    apply imap_ext; intros; simpl; by rewrite Nat.add_succ_r.
Qed.
End historical.

(** For the proof of leaf [i] of an append-only tree,
    [compute_historical_and_current_merkle_roots_core] returns the root of the
    tree as it was before leaf [i] was appended together with the current root,
    the [_gt] variant the root right after leaf [i] was appended, and
    [get_append_root] (on both proof types) and the root of [to_append_proof]
    are that same root. *)
Theorem historical_roots_correct
    `{EqDecision Hash, MerkleHasher Hash, !ZeroableHash Hash, !MerkleZeroHasher Hash}
    (leaf : Z → Hash) (h : nat) (i : Z) (old : Hash) :
  (h ≤ 64)%nat → 0 ≤ i < 2 ^ Z.of_nat h →
  let p := new_from_params i (leaf i) (tree_siblings leaf h i) in
  let d := from_params i old (leaf i) (tree_siblings leaf h i) in
  compute_historical_and_current_merkle_roots_core p =
    (tree_node (before leaf i) h 0, tree_node leaf h 0) ∧
  compute_historical_and_current_merkle_roots_core_gt p =
    (tree_node (upto leaf i) h 0, tree_node leaf h 0) ∧
  get_append_root p = tree_node (upto leaf i) h 0 ∧
  delta_get_append_root d = tree_node (upto leaf i) h 0 ∧
  root (to_append_proof p) = tree_node (upto leaf i) h 0 ∧
  verify (to_append_proof p) = true.
Proof.
  intros Hh Hi p d.
  assert (upto leaf i i = leaf i) as Hu by (unfold upto; by rewrite Z.leb_refl).
  assert (before leaf i i = get_zero_hash 0) as Hb
    by (unfold before; by rewrite Z.ltb_irrefl, get_zero_hash_0).
  pose proof (append_root_tree leaf _ h i Hh Hi (prefix_of_upto leaf i)) as Happ. rewrite Hu in Happ.
  pose proof (append_root_tree leaf _ h i Hh Hi (prefix_of_before leaf i)) as Hbef. rewrite Hb in Hbef.
  pose proof (compute_root_tree leaf h i Hh Hi) as Hcur.
  unfold compute_historical_and_current_merkle_roots_core,
    compute_historical_and_current_merkle_roots_core_gt. rewrite !historical_loop_spec.
  split_and!; try done.
  - subst p. cbn [value mp_index mp_siblings new_from_params]. by f_equal.
  - subst p. cbn [value mp_index mp_siblings new_from_params]. by f_equal.
  - rewrite append_loop_imap in Happ. exact Happ.
  - apply verify_spec. simpl. rewrite length_imap, length_tree_siblings. done.
Qed.

Lemma historical_roots_correct_witness :
  get_append_root (new_from_params 1 (HLeaf 1) (tree_siblings HLeaf 2 1)) =
  HNode (HNode (HLeaf 0) (HLeaf 1)) (HNode (HLeaf 0) (HLeaf 0)).
Proof.
  destruct (historical_roots_correct HLeaf 2 1 (HLeaf 7)) as (_ & _ & Ha & _); [lia|lia|].
  exact Ha.
Defined.

(** ** Shortening and enumeration *)
Section shorten.
Context `{EqDecision Hash, MerkleHasher Hash}.

Lemma compute_root_loop_app ss1 : ∀ j (v : Hash) index ss2,
  compute_root_loop j v index (ss1 ++ ss2) =
  compute_root_loop (j + length ss1) (compute_root_loop j v index ss1) index ss2.
Proof.
  induction ss1 as [|s ss1 IH]; intros j v index ss2; simpl; [by rewrite Nat.add_0_r|].
  rewrite IH. f_equal. lia.
Qed.

(** The loop reads only the bits of the positions it visits. *)
Lemma compute_root_loop_bits ss : ∀ j j' (v : Hash) index index',
  (∀ k, (k < length ss)%nat → index_bit_set index (j + k) = index_bit_set index' (j' + k)) →
  compute_root_loop j v index ss = compute_root_loop j' v index' ss.
Proof.
  induction ss as [|s ss IH]; intros j j' v index index' Hb; [done|].
  cbn [compute_root_loop]. pose proof (Hb 0%nat ltac:(simpl; lia)) as H0.
  rewrite !Nat.add_0_r in H0. rewrite H0. apply IH. intros k Hk.
  specialize (Hb (S k) ltac:(simpl; lia)). by rewrite !Nat.add_succ_r in Hb.
Qed.

Lemma low_index_bits index (d k : nat) :
  (k < d ≤ 63)%nat →
  index_bit_set (Z.land index (wrap 64 (u64_shl 1 (Z.of_nat d) - 1))) k = index_bit_set index k.
Proof.
  intros Hk. rewrite !index_bit_set_small by lia.
  assert (2 ^ Z.of_nat d ≤ 2 ^ 63) by (apply pow2_mono; lia). pose proof (pow2_pos d).
  rewrite u64_shl_small by lia. rewrite Z.mul_1_l, wrap_small by lia.
  replace (2 ^ Z.of_nat d - 1) with (Z.ones (Z.of_nat d)) by (rewrite Z.ones_equiv; lia).
  rewrite Z.land_spec, Z.ones_spec_low by lia. apply andb_true_r.
Qed.

Lemma high_index_bits index (d k : nat) :
  (d + k < 64)%nat →
  index_bit_set (u64_shr index (Z.of_nat d)) k = index_bit_set index (d + k).
Proof.
  intros Hk. rewrite !index_bit_set_small by lia. unfold u64_shr.
  rewrite Z.mod_small, Z.shiftr_spec by lia. f_equal. lia.
Qed.

(** Splitting a path at [d]: the lower part with the low bits of the index, then
    the upper part with the high bits. *)
Lemma compute_root_split (v : Hash) index ss (d : nat) :
  (d ≤ 63)%nat → (d ≤ length ss ≤ 64)%nat →
  compute_root_merkle_proof_generic
    (compute_root_merkle_proof_generic v
       (Z.land index (wrap 64 (u64_shl 1 (Z.of_nat d) - 1))) (take d ss))
    (u64_shr index (Z.of_nat d)) (drop d ss) =
  compute_root_merkle_proof_generic v index ss.
Proof.
  intros Hd Hlen. unfold compute_root_merkle_proof_generic.
  rewrite <- (take_drop d ss) at 3. rewrite compute_root_loop_app, length_take.
  rewrite (Nat.min_l d) by lia. rewrite Nat.add_0_l.
  rewrite (compute_root_loop_bits (take d ss) 0 0 v _ index).
  - apply compute_root_loop_bits. intros k Hk. rewrite length_drop in Hk.
    rewrite Nat.add_0_l. apply high_index_bits. lia.
  - intros k Hk. rewrite length_take in Hk. apply low_index_bits. lia.
Qed.

Lemma compute_path_loop_spec ss : ∀ (v : Hash) index index' (j : nat),
  0 ≤ index → index' = index / 2 ^ Z.of_nat j → (j + length ss ≤ 64)%nat →
  compute_path_loop v index' ss =
  (λ k, compute_root_loop j v index (take k ss)) <$> seq 1 (length ss).
Proof.
  induction ss as [|s ss IH]; intros v index index' j Hi -> Hj; [done|].
  cbn [compute_path_loop length]. cbn [length] in Hj.
  assert ((Z.land (index / 2 ^ Z.of_nat j) 1 =? 1) = index_bit_set index j) as ->.
  { rewrite land_1_odd, index_bit_set_small, Z.testbit_odd, Z.shiftr_div_pow2 by lia. done. }
  rewrite (IH _ index _ (S j)); [|lia| |lia].
  2:{ rewrite u64_shr_small by lia. rewrite div_pow2_div by lia. do 2 f_equal. lia. }
  cbn [seq]. rewrite fmap_cons. unfold two_to_one_swap.
  f_equal; [by destruct (index_bit_set index j) eqn:E; simpl; rewrite E|].
  rewrite <- (fmap_S_seq 1), <- list_fmap_compose. apply list_fmap_ext. intros _ k _.
  cbn [compose take compute_root_loop]. f_equal. by destruct (index_bit_set index j).
Qed.
End shorten.

(** [with_shortened_height_from_bottom] panics exactly when asked for a
    taller proof. Cutting at most 63 levels of a verifying delta proof of at
    most 64 siblings gives a proof of the requested height for the ancestor of
    the leaf, with the same old and new roots, which verifies. Cutting all 64
    levels instead ignores the index (the shift by 64 is a shift by 0): the
    values are hashed up as if the index were 0. *)
Theorem with_shortened_height_from_bottom_correct `{EqDecision Hash, MerkleHasher Hash}
    (p : DeltaMerkleProofCore Hash) (n : nat) :
  0 ≤ dmp_index p →
  let d := (length (dmp_siblings p) - n)%nat in
  ((length (dmp_siblings p) < n)%nat → with_shortened_height_from_bottom p n = Panic) ∧
  ((n ≤ length (dmp_siblings p))%nat → (d ≤ 63)%nat → verify_delta p = true →
   ∃ q, with_shortened_height_from_bottom p n = Ok q ∧ verify_delta q = true ∧
     length (dmp_siblings q) = n ∧ dmp_index q = dmp_index p / 2 ^ Z.of_nat d ∧
     old_root q = old_root p ∧ new_root q = new_root p) ∧
  (n = 0%nat → length (dmp_siblings p) = 64%nat →
   with_shortened_height_from_bottom p n =
     Ok (single_value (dmp_index p)
       (compute_root_merkle_proof_generic (old_value p) 0 (dmp_siblings p))
       (compute_root_merkle_proof_generic (new_value p) 0 (dmp_siblings p)))).
Proof.
  intros Hi d. unfold with_shortened_height_from_bottom. split_and!.
  - intros Hlt. rewrite (proj2 (Nat.leb_gt _ _)) by done. done.
  - intros Hle Hd (Hlen & Ho & Hn)%verify_delta_spec.
    rewrite (proj2 (Nat.leb_le _ _)) by done. cbn [assert_ outcome_bind].
    destruct (Nat.eqb_spec n (length (dmp_siblings p))) as [Heq|Hne].
    + exists p. split_and!; try done; [by apply verify_delta_spec|].
      subst d. rewrite Heq, Nat.sub_diag. by rewrite Z.div_1_r.
    + eexists. split; [reflexivity|]. split_and!.
      * apply from_params_verifies. rewrite length_drop. lia.
      * simpl. rewrite length_drop. lia.
      * simpl. apply u64_shr_small. lia.
      * cbn [from_params old_root]. rewrite compute_root_split by lia. done.
      * cbn [from_params new_root]. rewrite compute_root_split by lia. done.
  - intros -> H64. rewrite H64. cbn [Nat.leb assert_ outcome_bind Nat.eqb Nat.sub].
    change (wrap 64 (u64_shl 1 (Z.of_nat 64) - 1)) with 0. rewrite Z.land_0_r.
    rewrite take_ge, drop_ge by lia. done.
Qed.

Lemma with_shortened_height_from_bottom_correct_witness :
  ∃ q, with_shortened_height_from_bottom
         (from_params 5 (HLeaf 5) (HLeaf 9) (tree_siblings HLeaf 3 5)) 1 = Ok q ∧
       verify_delta q = true ∧ dmp_index q = 1 ∧ old_root q = tree_node HLeaf 3 0.
Proof.
  destruct (with_shortened_height_from_bottom_correct
    (from_params 5 (HLeaf 5) (HLeaf 9) (tree_siblings HLeaf 3 5)) 1) as (_ & Hs & _); [simpl; lia|].
  destruct Hs as (q & Hq & Hv & _ & Hidx & Hroot & _); [simpl; lia|simpl; lia|reflexivity|].
  exists q. split_and!; [exact Hq|exact Hv|exact Hidx|].
  rewrite Hroot. reflexivity.
Defined.

(** [compute_path_merkle_proof_generic] enumerates the hashes of the path
    from the leaf to the root that [compute_root_merkle_proof_generic] computes
    for the prefixes of the siblings: the two routines, which read the index
    bits in different ways, agree on all proofs of at most 64 siblings. *)
Theorem compute_path_correct `{MerkleHasher Hash} (v : Hash) (index : Z) (ss : list Hash) :
  0 ≤ index → (length ss ≤ 64)%nat →
  compute_path_merkle_proof_generic v index ss =
    (λ k, compute_root_merkle_proof_generic v index (take k ss)) <$> seq 0 (S (length ss)) ∧
  last (compute_path_merkle_proof_generic v index ss) =
    Some (compute_root_merkle_proof_generic v index ss).
Proof.
  intros Hi Hlen.
  assert (compute_path_merkle_proof_generic v index ss =
    (λ k, compute_root_merkle_proof_generic v index (take k ss)) <$> seq 0 (S (length ss))) as Heq.
  { unfold compute_path_merkle_proof_generic.
    rewrite (compute_path_loop_spec ss v index index 0); [done|lia| |simpl; lia].
    by rewrite Z.div_1_r. }
  split; [done|]. rewrite Heq, fmap_last, seq_S, last_snoc. simpl. by rewrite firstn_all.
Qed.

Lemma compute_path_correct_witness :
  compute_path_merkle_proof_generic (HLeaf 2) 2 (tree_siblings HLeaf 2 2) =
  [HLeaf 2; HNode (HLeaf 2) (HLeaf 3); tree_node HLeaf 2 0].
Proof.
  destruct (compute_path_correct (HLeaf 2) 2 (tree_siblings HLeaf 2 2)) as [-> _];
    [lia|simpl; lia|reflexivity].
Defined.

(** ** All nodes of a path *)
Section all_nodes.
Context `{EqDecision Hash, MerkleHasher Hash}.
Implicit Types leaf : Z → Hash.

(** The ancestor of leaf [i], [j] levels above the leaves of a tree of height [h]. *)
Definition path_key (h j : nat) (i : Z) : SimpleMerkleNodeKey :=
  mkKey (Z.of_nat (h - j)) (i / 2 ^ Z.of_nat j).

Definition path_nodes leaf (h j : nat) (i : Z) : list (SimpleMerkleNode Hash) :=
  [mkNode (sibling (path_key h j i)) (tree_node leaf j (sib (i / 2 ^ Z.of_nat j)));
   mkNode (path_key h j i) (tree_node leaf j (i / 2 ^ Z.of_nat j))].

Lemma parent_path_key h j i :
  (j < h ≤ 64)%nat → 0 ≤ i < 2 ^ 64 → parent (path_key h j i) = path_key h (S j) i.
Proof.
  intros Hj Hi. apply key_eq; rewrite ?level_parent, ?index_parent by (simpl; lia);
    cbn [path_key level index]; [lia|].
  change 2 with (2 ^ 1) at 2. rewrite div_pow2_div by lia. do 2 f_equal. lia.
Qed.

Lemma all_nodes_loop_tree leaf h i n : (h ≤ 64)%nat → 0 ≤ i < 2 ^ 64 → ∀ j acc,
  (j + n = h)%nat →
  all_nodes_loop (path_key h j i) (tree_node leaf j (i / 2 ^ Z.of_nat j)) (i / 2 ^ Z.of_nat j)
    (siblings_from leaf j n i) acc =
  (tree_node leaf h (i / 2 ^ Z.of_nat h),
   acc ++ concat ((λ l, path_nodes leaf h l i) <$> seq j n) ++
     [mkNode (path_key h h i) (tree_node leaf h (i / 2 ^ Z.of_nat h))]).
Proof.
  intros Hh Hi. induction n as [|n IH]; intros j acc Hj.
  - rewrite Nat.add_0_r in Hj. subst j. done.
  - rewrite siblings_from_S. cbn [all_nodes_loop seq]. rewrite fmap_cons. cbn [concat].
    rewrite parent_path_key by lia.
    rewrite u64_shr_small, div_pow2_div by lia.
    replace (Z.of_nat j + 1) with (Z.of_nat (S j)) by lia.
    rewrite land_1_odd.
    assert (two_to_one_swap (Z.odd (i / 2 ^ Z.of_nat j)) (tree_node leaf j (i / 2 ^ Z.of_nat j))
      (tree_node leaf j (sib (i / 2 ^ Z.of_nat j))) = tree_node leaf (S j) (i / 2 ^ Z.of_nat (S j))) as ->.
    { assert (Z.odd (i / 2 ^ Z.of_nat j) = index_bit_set i j) as ->.
      { rewrite index_bit_set_small, Z.testbit_odd, Z.shiftr_div_pow2 by lia. done. }
      destruct (index_step i j ltac:(lia) ltac:(lia)) as [(-> & Hk & Hs)|(-> & Hk & Hs)];
        unfold two_to_one_swap; cbn [tree_node]; rewrite Hs, Hk; done. }
    rewrite IH by lia. unfold path_nodes. cbn [app]. by rewrite <- !app_assoc.
Qed.

Lemma key_wf_path_key h j i :
  (j ≤ h ≤ 64)%nat → 0 ≤ i < 2 ^ Z.of_nat h → key_wf (path_key h j i).
Proof.
  intros Hj Hi. split; cbn [level index path_key]; [lia|]. pose proof (pow2_pos j).
  split; [apply Z.div_pos; lia|]. apply Z.div_lt_upper_bound; [lia|].
  rewrite <- Z.pow_add_r by lia. replace (Z.of_nat j + Z.of_nat (h - j)) with (Z.of_nat h); lia.
Qed.

(** A node that carries the hash of the tree node it names. *)
Definition node_of_tree leaf (h : nat) (x : SimpleMerkleNode Hash) : Prop :=
  key_wf (node_key x) ∧ level (node_key x) ≤ Z.of_nat h ∧
  node_value x = tree_node leaf (h - Z.to_nat (level (node_key x))) (index (node_key x)).

Lemma path_key_node leaf h j i :
  (j ≤ h ≤ 64)%nat → 0 ≤ i < 2 ^ Z.of_nat h →
  node_of_tree leaf h (mkNode (path_key h j i) (tree_node leaf j (i / 2 ^ Z.of_nat j))).
Proof.
  intros Hj Hi. split_and!; [by apply key_wf_path_key|simpl; lia|].
  cbn [node_key node_value path_key level index]. f_equal. lia.
Qed.

Lemma path_nodes_tree leaf h j i x :
  (j < h ≤ 64)%nat → 0 ≤ i < 2 ^ Z.of_nat h → x ∈ path_nodes leaf h j i → node_of_tree leaf h x.
Proof.
  intros Hj Hi. unfold path_nodes. rewrite !elem_of_cons.
  intros [->|[->|Hn]]; [| |by apply elem_of_nil in Hn].
  - split_and!; cbn [node_key node_value sibling path_key level index]; [|lia|f_equal; lia].
    apply (key_wf_sibling (path_key h j i)); [apply key_wf_path_key; lia|simpl; lia].
  - apply path_key_node; lia.
Qed.
End all_nodes.


(** On the proof of a leaf of a tree of height at most 64,
    [get_all_merkle_nodes_and_verify] returns the nodes of the path and their
    siblings, [2 h + 1] of them: every node of the path from the leaf to the
    root is among them, and each returned key names a node of the tree and
    carries the hash of that node. On a proof with another root it fails. *)
Theorem get_all_merkle_nodes_correct `{EqDecision Hash, MerkleHasher Hash} (leaf : Z → Hash)
    (h : nat) (i : Z) (r : Hash) :
  (h ≤ 64)%nat → 0 ≤ i < 2 ^ Z.of_nat h →
  (r ≠ tree_node leaf h 0 →
   ∃ msg, get_all_merkle_nodes_and_verify (mkProof r (leaf i) i (tree_siblings leaf h i)) = Err msg) ∧
  ∃ nodes,
    get_all_merkle_nodes_and_verify (new_from_params i (leaf i) (tree_siblings leaf h i)) = Ok nodes ∧
    length nodes = (2 * h + 1)%nat ∧
    (∀ j, (j ≤ h)%nat →
      mkNode (path_key h j i) (tree_node leaf j (i / 2 ^ Z.of_nat j)) ∈ nodes) ∧
    (∀ x, x ∈ nodes → key_wf (node_key x) ∧ level (node_key x) ≤ Z.of_nat h ∧
       node_value x = tree_node leaf (h - Z.to_nat (level (node_key x))) (index (node_key x))).
Proof.
  intros Hh Hi.
  assert (0 ≤ i < 2 ^ 64) as Hi64.
  { split; [lia|]. apply Z.lt_le_trans with (2 ^ Z.of_nat h); [lia|apply pow2_mono; lia]. }
  pose proof (all_nodes_loop_tree leaf h i h Hh Hi64 0 [] eq_refl) as Hloop.
  rewrite Z.div_1_r, div_pow2_small in Hloop by done. cbn [tree_node app] in Hloop.
  unfold get_all_merkle_nodes_and_verify.
  cbn [new_from_params mp_siblings mp_index value root].
  rewrite length_tree_siblings, (wrap_small 8) by lia.
  assert (mkKey (Z.of_nat h) i = path_key h 0 i) as ->.
  { unfold path_key. by rewrite Z.div_1_r, Nat.sub_0_r. }
  change (siblings_from leaf 0 h i) with (tree_siblings leaf h i) in Hloop. rewrite !Hloop. split.
  - intros Hne. rewrite bool_decide_false by (by intros <-). by eexists.
  - rewrite (compute_root_tree leaf h i Hh Hi). rewrite bool_decide_true by done.
    eexists. split; [reflexivity|]. split_and!.
    + rewrite length_app, (length_concat_fmap_const _ _ 2), length_seq by done. simpl; lia.
    + intros j Hj. rewrite elem_of_app, elem_of_concat_fmap.
      destruct (decide (j = h)) as [->|Hne].
      * right. rewrite div_pow2_small by done. by apply list_elem_of_singleton.
      * left. exists j. rewrite elem_of_seq. split; [lia|]. unfold path_nodes.
        right. by apply list_elem_of_singleton.
    + intros x. rewrite elem_of_app, elem_of_concat_fmap, list_elem_of_singleton.
      intros [(j & Hj%elem_of_seq & Hx)| ->]; [apply (path_nodes_tree leaf h j i); [lia|lia|done]|].
      pose proof (path_key_node leaf h h i ltac:(lia) Hi) as Hroot.
      by rewrite div_pow2_small in Hroot.
Qed.

Lemma get_all_merkle_nodes_correct_witness :
  ∃ nodes, get_all_merkle_nodes_and_verify
    (new_from_params 2 (HLeaf 2) (tree_siblings HLeaf 2 2)) = Ok nodes ∧
    mkNode (mkKey 1 1) (HNode (HLeaf 2) (HLeaf 3)) ∈ nodes.
Proof.
  destruct (get_all_merkle_nodes_correct HLeaf 2 2 (HLeaf 0)) as [_ (nodes & Hn & _ & Hin & _)];
    [lia|lia|]. exists nodes. split; [exact Hn|]. exact (Hin 1%nat ltac:(lia)).
Defined.
