(* ===== verification/Spiderman.v ===== *)
(** * Spiderman proofs

    [parth_core/src/crypto/hash/spiderman.rs]: the replacement of all leaves of
    one aligned sub-tree (the web) of a Merkle tree, proved by the leaves before
    and after and a delta proof from the root of the web to the root of the
    tree (the top line). *)
From stdpp Require Import prelude list strings.
From Stdlib Require Import ZArith Lia.
From S2P Require Import Prelude MerkleKey MerkleHash MerkleProof.

(** ** Machine helpers *)
Fixpoint pos_trailing_zeros (p : positive) : Z :=
  match p with xO p => 1 + pos_trailing_zeros p | _ => 0 end.

Definition trailing_zeros (n : Z) : Z :=
  match n with Zpos p => pos_trailing_zeros p | _ => 64 end.

(** [log2_strict] panics when [n] is not a power of two. *)
Definition log2_strict (n : Z) : outcome Z :=
  let res := trailing_zeros n in
  let* _ := assert_ (u64_shr n res =? 1) in
  Ok res.

Definition is_power_of_two (n : Z) : bool :=
  (0 <? n) && (n =? 2 ^ Z.log2 n).

Record SpidermanUpdateProof (Hash : Type) : Type := mkSpiderman {
  top_line_proof : DeltaMerkleProofCore Hash;
  web_proof_old_leaves : list Hash;
  web_proof_new_leaves : list Hash;
}.
Arguments mkSpiderman {Hash}.
Arguments top_line_proof {Hash}.
Arguments web_proof_old_leaves {Hash}.
Arguments web_proof_new_leaves {Hash}.

Section spiderman.
Context `{EqDecision Hash, MerkleHasher Hash, !ZeroableHash Hash}.

Fixpoint count_while (p : Hash → bool) (l : list Hash) : nat :=
  match l with
  | [] => 0
  | x :: l => if p x then S (count_while p l) else 0
  end.

Definition get_non_zero_leaves_count (self : SpidermanUpdateProof Hash) : nat :=
  count_while (λ leaf, negb (bool_decide (leaf = get_zero_value))) (web_proof_new_leaves self).

Definition get_modified_leaves_count (self : SpidermanUpdateProof Hash) : nat :=
  length (filter (λ p, p.1 ≠ p.2) (zip (web_proof_old_leaves self) (web_proof_new_leaves self))).

Fixpoint count_while2 (p : Hash → Hash → bool) (l k : list Hash) : nat :=
  match l, k with
  | x :: l, y :: k => if p x y then S (count_while2 p l k) else 0
  | _, _ => 0
  end.

Definition get_existing_prepended_leaves_count (self : SpidermanUpdateProof Hash) : nat :=
  count_while2 (λ x y, bool_decide (x = y) && negb (bool_decide (x = get_zero_value)))
    (web_proof_old_leaves self) (web_proof_new_leaves self).

Definition get_existing_prepended_leaves_count_including_non_zero
    (self : SpidermanUpdateProof Hash) : nat :=
  count_while2 (λ x y, bool_decide (x = y)) (web_proof_old_leaves self) (web_proof_new_leaves self).

(** [for _ in 0..n { v.push(zero) }] with [n] a difference of lengths: when it
    is negative the unsigned difference wraps and the loop exhausts memory. *)
Definition pad_zero (v : list Hash) (n : Z) : outcome (list Hash) :=
  if n <? 0 then Panic else Ok (v ++ replicate (Z.to_nat n) get_zero_value).

(** [Result::unwrap] *)
Definition unwrap_result {A} (o : outcome A) : outcome A :=
  match o with Err _ => Panic | o => o end.

Definition append_from_from_old_new_values (old_proof_to_inside : MerkleProofCore Hash)
    (existing_leaves new_leaves : list Hash) (web_tree_height : nat)
    : outcome (SpidermanUpdateProof Hash) :=
  let leaves_len := u64_shl 1 (Z.of_nat web_tree_height) in
  let* web_proof_old_leaves :=
    pad_zero existing_leaves (leaves_len - Z.of_nat (length existing_leaves)) in
  let* web_proof_new_leaves :=
    pad_zero (existing_leaves ++ new_leaves)
      (leaves_len - Z.of_nat (length existing_leaves + length new_leaves)) in
  let* computed_old_web_root := unwrap_result (compute_root_from_leaves web_proof_old_leaves) in
  let* computed_new_web_root := unwrap_result (compute_root_from_leaves web_proof_new_leaves) in
  let top_line_index := u64_shr (mp_index old_proof_to_inside) (Z.of_nat web_tree_height) in
  let* _ := assert_ (web_tree_height <=? length (mp_siblings old_proof_to_inside))%nat in
  let siblings := drop web_tree_height (mp_siblings old_proof_to_inside) in
  let top_line_proof :=
    from_params top_line_index computed_old_web_root computed_new_web_root siblings in
  Ok (mkSpiderman top_line_proof web_proof_old_leaves web_proof_new_leaves).

Definition from_delta_merkle_proofs (delta_merkle_proofs : list (DeltaMerkleProofCore Hash))
    : outcome (SpidermanUpdateProof Hash) :=
  let leaves_len := Z.of_nat (length delta_merkle_proofs) in
  let* web_tree_height := log2_strict leaves_len in
  let old_leaves := old_value <$> delta_merkle_proofs in
  let new_leaves := new_value <$> delta_merkle_proofs in
  let* computed_old_web_root := unwrap_result (compute_root_from_leaves old_leaves) in
  let* computed_new_web_root := unwrap_result (compute_root_from_leaves new_leaves) in
  let* first := unwrap (delta_merkle_proofs !! 0%nat) in
  let* last_ := unwrap (last delta_merkle_proofs) in
  let top_line_index := u64_shr (dmp_index first) web_tree_height in
  let* _ := assert_ (web_tree_height <=? Z.of_nat (length (dmp_siblings first))) in
  let top_line_proof :=
    mkDelta (old_root first) computed_old_web_root (new_root last_) computed_new_web_root
      top_line_index (drop (Z.to_nat web_tree_height) (dmp_siblings first)) in
  Ok (mkSpiderman top_line_proof old_leaves new_leaves).

Definition get_web_sub_tree_height (self : SpidermanUpdateProof Hash) : outcome Z :=
  log2_strict (Z.of_nat (length (web_proof_new_leaves self))).

Definition verify_spiderman (self : SpidermanUpdateProof Hash) : outcome bool :=
  let leaves_len := Z.of_nat (length (web_proof_new_leaves self)) in
  if negb (Z.of_nat (length (web_proof_old_leaves self)) =? leaves_len) ||
     negb (is_power_of_two leaves_len) then Ok false
  else if negb (verify_delta (top_line_proof self)) then Ok false
  else
    let* computed_old_web_root :=
      unwrap_result (compute_root_from_leaves (web_proof_old_leaves self)) in
    if negb (bool_decide (computed_old_web_root = old_value (top_line_proof self))) then Ok false
    else
      let* computed_new_web_root :=
        unwrap_result (compute_root_from_leaves (web_proof_new_leaves self)) in
      if negb (bool_decide (computed_new_web_root = new_value (top_line_proof self))) then Ok false
      else Ok true.

(** *** Roots of a leaf vector padded with zero hashes *)
Context `{!MerkleZeroHasher Hash}.

(** One level, whose nodes have height [lvl]: an odd last node is paired with
    the zero hash of its level. *)
Definition zero_padded_level (lvl : nat) (nodes : list Hash) : list Hash :=
  hash_pairs nodes ++
  (if (length nodes mod 2 =? 1)%nat
   then match last nodes with Some x => [two_to_one x (get_zero_hash lvl)] | None => [] end
   else []).

Fixpoint zero_padded_loop (fuel lvl : nat) (current_level : list Hash) : outcome Hash :=
  if (1 <? length current_level)%nat then
    match fuel with
    | O => Diverge
    | S fuel => zero_padded_loop fuel (S lvl) (zero_padded_level lvl current_level)
    end
  else unwrap (current_level !! 0%nat).

Definition hash_merkle_leaves_partial (leaves : list Hash) : outcome Hash :=
  match leaves with
  | [] => Err "Cannot compute Merkle root of zero leaves"
  | [a] => Ok a
  | [a; b] => Ok (two_to_one a b)
  | _ => zero_padded_loop (length leaves) 1 (zero_padded_level 0 leaves)
  end.
End spiderman.

(** ** Blocks of leaves *)
Section blocks.
Context `{EqDecision Hash, MerkleHasher Hash}.
Implicit Types leaf : Z → Hash.

(** The leaves [start, start + length vals) replaced by [vals]. *)
Definition set_block leaf (start : Z) (vals : list Hash) : Z → Hash :=
  λ j, if (start <=? j) && (j <? start + Z.of_nat (length vals))
       then nth (Z.to_nat (j - start)) vals (leaf j) else leaf j.

Lemma set_block_out leaf start vals j :
  j < start ∨ start + Z.of_nat (length vals) ≤ j → set_block leaf start vals j = leaf j.
Proof. intros Hj. unfold set_block. case_bool; [|done]. apply andb_prop in E as [??]; zify_bool; lia. Qed.

Lemma set_block_in leaf start vals d j :
  start ≤ j < start + Z.of_nat (length vals) →
  set_block leaf start vals j = leaf_fn d vals (j - start).
Proof.
  intros Hj. unfold set_block, leaf_fn.
  rewrite (proj2 (Z.leb_le _ _)), (proj2 (Z.ltb_lt _ _)) by lia. simpl. apply nth_indep. lia.
Qed.

Lemma tree_node_add leaf a b : ∀ i, tree_node leaf (a + b) i = tree_node (tree_node leaf a) b i.
Proof.
  rewrite Nat.add_comm. induction b as [|b IH]; intros i; [done|]. simpl. by rewrite !IH.
Qed.

Lemma tree_node_shift (f : Z → Hash) h c : ∀ i,
  tree_node (λ j, f (j - c * 2 ^ Z.of_nat h)) h (i + c) = tree_node f h i.
Proof.
  revert c. induction h as [|h IH]; intros c i.
  - simpl. f_equal. lia.
  - rewrite Nat2Z.inj_succ, Z.pow_succ_r by lia. cbn [tree_node].
    replace (2 * (i + c)) with (2 * i + 2 * c) by lia.
    replace (2 * i + 2 * c + 1) with (2 * i + 1 + 2 * c) by lia.
    f_equal; rewrite <- (IH (2 * c)); apply tree_node_ext; intros j _; f_equal; lia.
Qed.

(** The root of an aligned block is the root of its leaf vector. *)
Lemma tree_node_block leaf d (wh : nat) i vals :
  length vals = (2 ^ wh)%nat →
  tree_node (set_block leaf (i * 2 ^ Z.of_nat wh) vals) wh i = tree_node (leaf_fn d vals) wh 0.
Proof.
  intros Hlen. pose proof (pow2_nat_Z wh) as Hp. rewrite <- Hlen in Hp.
  rewrite <- (tree_node_shift (leaf_fn d vals) wh i 0), Z.add_0_l. apply tree_node_ext.
  intros j Hj. apply set_block_in. lia.
Qed.

Lemma tree_node_block_other leaf (wh : nat) i vals k :
  length vals = (2 ^ wh)%nat → k ≠ i →
  tree_node (set_block leaf (i * 2 ^ Z.of_nat wh) vals) wh k = tree_node leaf wh k.
Proof.
  intros Hlen Hk. pose proof (pow2_nat_Z wh) as Hp. rewrite <- Hlen in Hp.
  apply tree_node_ext. intros j Hj. apply set_block_out. nia.
Qed.

(** Replacing a block is replacing one node at the level of its root. *)
Lemma tree_root_set_block leaf d (wh n : nat) i vals :
  length vals = (2 ^ wh)%nat →
  tree_node (set_block leaf (i * 2 ^ Z.of_nat wh) vals) (wh + n) 0 =
  tree_node (update (tree_node leaf wh) i (tree_node (leaf_fn d vals) wh 0)) n 0.
Proof.
  intros Hlen. rewrite tree_node_add. apply tree_node_ext. intros k _. unfold update.
  destruct (Z.eqb_spec k i) as [->|Hk]; [by apply tree_node_block|by apply tree_node_block_other].
Qed.

(** Compare two trees node by node and report the first collision. *)
Fixpoint extract_tree (h : nat) (i : Z) (f g : Z → Hash) : option ((Hash * Hash) * (Hash * Hash)) :=
  match h with
  | O => None
  | S h =>
      let p := (tree_node f h (2 * i), tree_node f h (2 * i + 1)) in
      let p' := (tree_node g h (2 * i), tree_node g h (2 * i + 1)) in
      if decide (hash_pair p = hash_pair p' ∧ p ≠ p') then Some (p, p')
      else match extract_tree h (2 * i) f g with
           | Some c => Some c
           | None => extract_tree h (2 * i + 1) f g
           end
  end.

Lemma extract_tree_Some h : ∀ i f g p p',
  extract_tree h i f g = Some (p, p') → p ≠ p' ∧ hash_pair p = hash_pair p'.
Proof.
  induction h as [|h IH]; intros i f g p p'; simpl; [done|].
  destruct (decide _) as [[??]|_]; [by intros [= <- <-]|].
  destruct (extract_tree h (2 * i) f g) eqn:E; [intros [= ->]|]; eauto.
Qed.

Lemma extract_tree_None h : ∀ i f g,
  extract_tree h i f g = None → tree_node f h i = tree_node g h i →
  ∀ j, i * 2 ^ Z.of_nat h ≤ j < (i + 1) * 2 ^ Z.of_nat h → f j = g j.
Proof.
  induction h as [|h IH]; intros i f g; cbn [extract_tree].
  { intros _ Heq j Hj. simpl in *. by assert (j = i) as -> by lia. }
  destruct (decide _) as [|Hn]; [done|].
  destruct (extract_tree h (2 * i) f g) eqn:El; [done|]. intros Er Heq j Hj.
  assert ((tree_node f h (2 * i), tree_node f h (2 * i + 1)) =
          (tree_node g h (2 * i), tree_node g h (2 * i + 1))) as [= Hl Hr].
  { destruct (decide ((tree_node f h (2 * i), tree_node f h (2 * i + 1)) =
      (tree_node g h (2 * i), tree_node g h (2 * i + 1)))); [done|]. by destruct Hn. }
  rewrite Nat2Z.inj_succ, Z.pow_succ_r in Hj by lia.
  destruct (decide (j < (2 * i + 1) * 2 ^ Z.of_nat h)).
  - by apply (IH _ _ _ El Hl); nia.
  - by apply (IH _ _ _ Er Hr); nia.
Qed.
End blocks.

Lemma is_power_of_two_spec n : is_power_of_two n = true ↔ ∃ k : nat, n = 2 ^ Z.of_nat k.
Proof.
  unfold is_power_of_two. rewrite andb_true_iff, Z.ltb_lt, Z.eqb_eq. split.
  - intros [Hp Hn]. exists (Z.to_nat (Z.log2 n)). rewrite Z2Nat.id by apply Z.log2_nonneg. done.
  - intros [k ->]. split; [apply pow2_pos|]. by rewrite Z.log2_pow2 by lia.
Qed.

Lemma is_power_of_two_length {A} (l : list A) :
  is_power_of_two (Z.of_nat (length l)) = true ↔ ∃ k, length l = (2 ^ k)%nat.
Proof.
  rewrite is_power_of_two_spec. split; intros [k Hk]; exists k; rewrite <- pow2_nat_Z in *; lia.
Qed.

Section spiderman_correct.
Context `{EqDecision Hash, MerkleHasher Hash, !ZeroableHash Hash}.

(** Verification in terms of the reference tree. *)
Lemma verify_spiderman_spec (p : SpidermanUpdateProof Hash) wh :
  length (web_proof_new_leaves p) = (2 ^ wh)%nat → (wh < 64)%nat →
  verify_spiderman p = Ok true ↔
    length (web_proof_old_leaves p) = (2 ^ wh)%nat ∧ verify_delta (top_line_proof p) = true ∧
    old_value (top_line_proof p) = tree_node (leaf_fn get_zero_value (web_proof_old_leaves p)) wh 0 ∧
    new_value (top_line_proof p) = tree_node (leaf_fn get_zero_value (web_proof_new_leaves p)) wh 0.
Proof.
  intros Hlen Hwh. unfold verify_spiderman.
  rewrite (proj2 (is_power_of_two_length _)) by eauto. rewrite orb_false_r.
  destruct (Z.eqb_spec (Z.of_nat (length (web_proof_old_leaves p)))
    (Z.of_nat (length (web_proof_new_leaves p)))) as [Ho|Ho]; cbn [negb];
    [|split; [done|intros [? _]; lia]].
  destruct (verify_delta (top_line_proof p)); cbn [negb]; [|split; [done|by intros (_ & ? & _)]].
  rewrite (compute_root_pow2 get_zero_value (web_proof_old_leaves p) wh) by lia.
  rewrite (compute_root_pow2 get_zero_value (web_proof_new_leaves p) wh) by lia.
  cbn [unwrap_result outcome_bind].
  case_bool_decide as H1; cbn [negb]; [|split; [done|intros (_ & _ & ? & _); congruence]].
  case_bool_decide as H2; cbn [negb]; [|split; [done|intros (_ & _ & _ & ?); congruence]].
  split; [|done]. intros _. split_and!; (done || lia).
Qed.

(** Compare a proof with the tree it is verified against. *)
Definition spiderman_collision (leaf : Z → Hash) (wh : nat) (p : SpidermanUpdateProof Hash)
    : option ((Hash * Hash) * (Hash * Hash)) :=
  let top := top_line_proof p in
  let i := dmp_index top in
  match extract_collision 0 i (old_value top) (dmp_siblings top)
          (tree_node leaf wh i)
          (tree_siblings (tree_node leaf wh) (length (dmp_siblings top)) i) with
  | Some c => Some c
  | None => extract_tree wh i (set_block leaf (i * 2 ^ Z.of_nat wh) (web_proof_old_leaves p)) leaf
  end.
Lemma spiderman_collision_Some leaf wh p x y :
  spiderman_collision leaf wh p = Some (x, y) → x ≠ y ∧ hash_pair x = hash_pair y.
Proof.
  unfold spiderman_collision. destruct (extract_collision _ _ _ _ _ _) as [[]|] eqn:E.
  - intros [= <- <-]. by eapply extract_collision_Some.
  - apply extract_tree_Some.
Qed.

Lemma spiderman_binds (leaf : Z → Hash) (wh : nat) (p : SpidermanUpdateProof Hash) :
  length (web_proof_new_leaves p) = (2 ^ wh)%nat → (wh < 64)%nat →
  let top := top_line_proof p in
  let i := dmp_index top in
  let n := length (dmp_siblings top) in
  let start := i * 2 ^ Z.of_nat wh in
  verify_spiderman p = Ok true → 0 ≤ i < 2 ^ Z.of_nat n →
  old_root top = tree_node leaf (wh + n) 0 → spiderman_collision leaf wh p = None →
  (∀ j, 0 ≤ j < 2 ^ Z.of_nat wh →
     web_proof_old_leaves p !! Z.to_nat j = Some (leaf (start + j))) ∧
  new_root top = tree_node (set_block leaf start (web_proof_new_leaves p)) (wh + n) 0.
Proof.
  intros Hlen Hwh top i n start. rewrite verify_spiderman_spec by done.
  intros (Hold & (Htop & Ho & Hn)%verify_delta_spec & Hov & Hnv) Hi Hroot.
  fold top in Htop, Ho, Hn, Hov, Hnv. unfold spiderman_collision. fold top i n.
  destruct (extract_collision _ _ _ _ _ _) as [[x y]|] eqn:E; [done|]. intros Et.
  rewrite tree_node_add in Hroot.
  apply extract_collision_None in E as [Hv Hs].
  - split.
    + intros j Hj. assert (set_block leaf start (web_proof_old_leaves p) (start + j) = leaf (start + j)) as Heq.
      { apply (extract_tree_None _ _ _ _ Et); [|unfold start; nia].
        rewrite (tree_node_block leaf get_zero_value) by done. congruence. }
      rewrite <- Heq. rewrite (set_block_in _ _ _ get_zero_value) by (rewrite Hold, pow2_nat_Z; lia).
      unfold leaf_fn. rewrite Z.add_simpl_l. apply lookup_nth.
      rewrite Hold. apply Nat2Z.inj_lt. rewrite pow2_nat_Z. lia.
    + unfold start. rewrite (tree_root_set_block leaf get_zero_value) by done. rewrite <- Hnv, <- Hn, Hs.
      apply compute_root_update; done.
  - by rewrite length_tree_siblings.
  - change (compute_root_merkle_proof_generic (old_value top) i (dmp_siblings top) =
      compute_root_merkle_proof_generic (tree_node leaf wh i) i (tree_siblings (tree_node leaf wh) n i)).
    rewrite compute_root_tree by done. exact (eq_trans Ho Hroot).
Qed.
End spiderman_correct.

(** C24: binding of Spiderman proofs. If a proof of a web of [2 ^ wh] leaves
    verifies against the root of a Merkle tree, then either comparing it with
    the tree gives an explicit collision of the compression function, or the old
    leaves of the proof are the leaves of the tree in that web and its new root
    is the root of the tree in which exactly that block of leaves is replaced by
    the new leaves. *)
Theorem spiderman_sound `{EqDecision Hash, MerkleHasher Hash, !ZeroableHash Hash}
    (leaf : Z → Hash) (wh : nat) (p : SpidermanUpdateProof Hash) :
  length (web_proof_new_leaves p) = (2 ^ wh)%nat → (wh < 64)%nat →
  let top := top_line_proof p in
  let i := dmp_index top in
  let n := length (dmp_siblings top) in
  let start := i * 2 ^ Z.of_nat wh in
  verify_spiderman p = Ok true → 0 ≤ i < 2 ^ Z.of_nat n →
  old_root top = tree_node leaf (wh + n) 0 →
  match spiderman_collision leaf wh p with
  | Some (x, y) => x ≠ y ∧ hash_pair x = hash_pair y
  | None =>
      (∀ j, 0 ≤ j < 2 ^ Z.of_nat wh →
         web_proof_old_leaves p !! Z.to_nat j = Some (leaf (start + j))) ∧
      new_root top = tree_node (set_block leaf start (web_proof_new_leaves p)) (wh + n) 0
  end.
Proof.
  intros Hlen Hwh top i n start Hv Hi Hroot. destruct (spiderman_collision leaf wh p) as [[x y]|] eqn:E.
  - by eapply spiderman_collision_Some.
  - by apply spiderman_binds.
Qed.

Definition web_example : SpidermanUpdateProof term_hash :=
  mkSpiderman (from_params 1 (tree_node HLeaf 1 1) (HNode (HLeaf 8) (HLeaf 9))
    (tree_siblings (tree_node HLeaf 1) 1 1)) [HLeaf 2; HLeaf 3] [HLeaf 8; HLeaf 9].

Lemma spiderman_sound_witness :
  new_root (top_line_proof web_example) =
  tree_node (set_block HLeaf 2 [HLeaf 8; HLeaf 9]) 2 0.
Proof.
  pose proof (spiderman_sound HLeaf 1 web_example eq_refl ltac:(lia)) as Hs.
  vm_compute in Hs. vm_compute. apply Hs; [reflexivity|split; [discriminate|reflexivity]|reflexivity].
Defined.

Section spiderman_append.
Context `{EqDecision Hash, MerkleHasher Hash, !ZeroableHash Hash}.

(** In the web of node [i], the tree has the leaves [existing], then zeros. *)
Definition web_filled (leaf : Z → Hash) (start : Z) (wh : nat) (existing : list Hash) : Prop :=
  ∀ j, 0 ≤ j < 2 ^ Z.of_nat wh → leaf (start + j) = leaf_fn get_zero_value existing j.

Lemma leaf_fn_pad (l : list Hash) n j :
  0 ≤ j → leaf_fn get_zero_value (l ++ replicate n get_zero_value) j = leaf_fn get_zero_value l j.
Proof.
  intros Hj. unfold leaf_fn. destruct (decide (Z.to_nat j < length l)%nat).
  - by rewrite app_nth1.
  - rewrite app_nth2 by lia. rewrite (nth_overflow l) by lia. apply nth_replicate_default.
Qed.

(** Siblings above the web are siblings of the tree over the webs. *)
Lemma drop_tree_siblings (leaf : Z → Hash) h wh i :
  (wh ≤ h)%nat →
  drop wh (tree_siblings leaf h i) =
  tree_siblings (tree_node leaf wh) (h - wh) (i / 2 ^ Z.of_nat wh).
Proof.
  intros Hh. apply list_eq. intros l. unfold tree_siblings, siblings_from.
  rewrite lookup_drop, !list_lookup_fmap. destruct (decide (l < h - wh)%nat).
  - rewrite !lookup_seq_lt by lia. simpl. f_equal. rewrite <- tree_node_add. f_equal.
    rewrite div_pow2_div by lia. do 3 f_equal. lia.
  - rewrite !lookup_seq_ge by lia. done.
Qed.

Lemma set_block_web leaf start wh existing new n :
  web_filled leaf start wh existing →
  Z.of_nat (length existing + length new + n) = 2 ^ Z.of_nat wh →
  ∀ j, set_block leaf start (existing ++ new ++ replicate n get_zero_value) j =
       set_block leaf (start + Z.of_nat (length existing)) new j.
Proof.
  intros Hw Hn j. set (l := existing ++ new ++ replicate n get_zero_value).
  assert (Z.of_nat (length l) = 2 ^ Z.of_nat wh) as Hl
    by (unfold l; rewrite !length_app, length_replicate; lia).
  destruct (decide (start ≤ j < start + Z.of_nat (length l))) as [Hin|Hout];
    [|rewrite !set_block_out by lia; done].
  rewrite (set_block_in _ _ _ get_zero_value) by done. unfold l. rewrite app_assoc.
  rewrite leaf_fn_pad by lia.
  specialize (Hw (j - start) ltac:(lia)). rewrite Zplus_minus in Hw.
  destruct (decide (start + Z.of_nat (length existing) ≤ j <
    start + Z.of_nat (length existing) + Z.of_nat (length new))) as [Hnew|Hold].
  - rewrite (set_block_in _ _ _ get_zero_value) by done. unfold leaf_fn.
    rewrite app_nth2 by lia. f_equal. lia.
  - rewrite set_block_out, Hw by lia. unfold leaf_fn.
    destruct (decide (Z.to_nat (j - start) < length existing)%nat); [by rewrite app_nth1|].
    rewrite !nth_overflow; [done|lia|rewrite length_app; lia].
Qed.
End spiderman_append.

(** Appending leaves to a partially filled web. From the proof of any leaf
    [i] of a tree of height at most 64, the existing leaves of its web of
    [2 ^ wh] leaves and new leaves that fit behind them,
    [append_from_from_old_new_values] returns a proof that verifies, from the
    root of the tree to the root of the tree with the new leaves written right
    behind the existing ones and nothing else changed. *)
Theorem append_from_old_new_values_correct
    `{EqDecision Hash, MerkleHasher Hash, !ZeroableHash Hash}
    (leaf : Z → Hash) (h wh : nat) (i : Z) (v : Hash) (existing new : list Hash) :
  (wh < 64)%nat → (wh ≤ h ≤ 64)%nat → 0 ≤ i < 2 ^ Z.of_nat h →
  let w := i / 2 ^ Z.of_nat wh in
  let start := w * 2 ^ Z.of_nat wh in
  web_filled leaf start wh existing →
  Z.of_nat (length existing + length new) ≤ 2 ^ Z.of_nat wh →
  ∃ p, append_from_from_old_new_values (new_from_params i v (tree_siblings leaf h i)) existing new wh
         = Ok p ∧
    verify_spiderman p = Ok true ∧ dmp_index (top_line_proof p) = w ∧
    old_root (top_line_proof p) = tree_node leaf h 0 ∧
    new_root (top_line_proof p) =
      tree_node (set_block leaf (start + Z.of_nat (length existing)) new) h 0.
Proof.
  intros Hwh Hh Hi w start Hw Hfit. unfold append_from_from_old_new_values.
  assert (u64_shl 1 (Z.of_nat wh) = 2 ^ Z.of_nat wh) as ->.
  { rewrite u64_shl_small; [lia|lia|lia|]. rewrite Z.mul_1_l. apply Z.pow_lt_mono_r; lia. }
  unfold pad_zero. rewrite !(proj2 (Z.ltb_ge _ _)) by lia. cbn [outcome_bind].
  set (no := Z.to_nat (2 ^ Z.of_nat wh - Z.of_nat (length existing))).
  set (nn := Z.to_nat (2 ^ Z.of_nat wh - Z.of_nat (length existing + length new))).
  set (olds := existing ++ replicate no get_zero_value).
  set (news := (existing ++ new) ++ replicate nn get_zero_value).
  assert (length olds = (2 ^ wh)%nat) as Ho.
  { apply Nat2Z.inj. rewrite pow2_nat_Z. unfold olds. rewrite length_app, length_replicate. lia. }
  assert (length news = (2 ^ wh)%nat) as Hn.
  { apply Nat2Z.inj. rewrite pow2_nat_Z. unfold news. rewrite !length_app, length_replicate. lia. }
  rewrite !(compute_root_pow2 get_zero_value _ wh) by done. cbn [unwrap_result outcome_bind].
  cbn [new_from_params mp_siblings mp_index]. rewrite length_tree_siblings.
  rewrite (proj2 (Nat.leb_le wh h)) by lia. cbn [assert_ outcome_bind].
  rewrite drop_tree_siblings by lia. rewrite u64_shr_small by lia. fold w.
  assert (0 ≤ w < 2 ^ Z.of_nat (h - wh)) as Hwr.
  { split; [apply Z.div_pos; [lia|apply pow2_pos]|]. apply Z.div_lt_upper_bound; [apply pow2_pos|].
    rewrite <- Z.pow_add_r by lia. replace (Z.of_nat wh + Z.of_nat (h - wh)) with (Z.of_nat h); lia. }
  assert (tree_node (leaf_fn get_zero_value olds) wh 0 = tree_node leaf wh w) as Hold.
  { rewrite <- (tree_node_shift (leaf_fn get_zero_value olds) wh w 0), Z.add_0_l.
    apply tree_node_ext. intros j Hj. fold start in Hj |- *. unfold olds.
    rewrite leaf_fn_pad by lia. rewrite <- (Hw (j - start)) by lia. f_equal. lia. }
  eexists. split; [reflexivity|]. split_and!; [|done| |].
  - apply (verify_spiderman_spec _ wh); [done|done|]. split_and!; try done.
    apply from_params_verifies. rewrite length_tree_siblings. lia.
  - cbn [top_line_proof from_params old_root]. rewrite Hold.
    rewrite compute_root_tree by (done || lia). rewrite <- tree_node_add. f_equal. lia.
  - cbn [top_line_proof from_params new_root]. rewrite compute_root_update by (done || lia).
    rewrite <- (tree_root_set_block leaf get_zero_value wh (h - wh) w news Hn).
    replace (wh + (h - wh))%nat with h by lia. apply tree_node_ext. intros j _.
    unfold news. rewrite <- app_assoc. apply set_block_web with wh; [done|]. lia.
Qed.

Lemma append_from_old_new_values_correct_witness :
  ∃ p, append_from_from_old_new_values
         (new_from_params 0 (HLeaf 1) (tree_siblings (leaf_fn (HLeaf 0) [HLeaf 1]) 2 0))
         [HLeaf 1] [HLeaf 5] 1 = Ok p ∧ verify_spiderman p = Ok true.
Proof.
  destruct (append_from_old_new_values_correct (leaf_fn (HLeaf 0) [HLeaf 1]) 2 1 0 (HLeaf 1)
    [HLeaf 1] [HLeaf 5]) as (p & Hp & Hv & _); [lia|lia|lia| |simpl; lia|].
  - intros j Hj. reflexivity.
  - exists p. split; [exact Hp|exact Hv].
Defined.

Section zero_padded.
Context `{EqDecision Hash, MerkleHasher Hash, !ZeroableHash Hash, !MerkleZeroHasher Hash}.

Lemma zero_padded_level_even lvl (l : list Hash) n :
  length l = (2 * n)%nat → zero_padded_level lvl l = hash_pairs l.
Proof.
  intros Hl. unfold zero_padded_level. rewrite Hl, Nat.mul_comm, Nat.Div0.mod_mul. apply app_nil_r.
Qed.

Lemma hash_pairs_app_even (l k : list Hash) n :
  length l = (2 * n)%nat → hash_pairs (l ++ k) = hash_pairs l ++ hash_pairs k.
Proof.
  revert l. induction n as [|n IH]; intros [|a [|b l]] Hl; simpl in *; try (done || lia).
  f_equal. apply IH. lia.
Qed.

(** A level of a tree that is empty from leaf [n * 2 ^ lvl] on. *)
Lemma zero_padded_level_tree (leaf : Z → Hash) lvl n :
  (∀ j, Z.of_nat n * 2 ^ Z.of_nat lvl ≤ j → leaf j = get_zero_value) →
  zero_padded_level lvl (tree_level leaf lvl n) = tree_level leaf (S lvl) ((n + 1) / 2).
Proof.
  intros Hz. destruct (Nat.Even_or_Odd n) as [[m ->]|[m ->]].
  - rewrite (zero_padded_level_even _ _ m) by (by rewrite length_tree_level).
    rewrite hash_pairs_tree_level. f_equal. rewrite Nat.mul_comm, Nat.add_comm.
    by rewrite Nat.div_add by lia.
  - replace ((2 * m + 1 + 1) / 2)%nat with (S m)
      by (replace (2 * m + 1 + 1)%nat with (S m * 2)%nat by lia; by rewrite Nat.div_mul by lia).
    assert (∀ h k, tree_level leaf h (k + 1) = tree_level leaf h k ++ [tree_node leaf h (Z.of_nat k)]) as Hsnoc.
    { intros h k. unfold tree_level. by rewrite seq_app, fmap_app. }
    unfold zero_padded_level. rewrite length_tree_level.
    replace ((2 * m + 1) mod 2)%nat with 1%nat
      by (rewrite Nat.add_comm, Nat.mul_comm, Nat.Div0.mod_add; done).
    rewrite Hsnoc, last_snoc, (hash_pairs_app_even _ _ m) by (by rewrite length_tree_level).
    rewrite hash_pairs_tree_level. cbn [hash_pairs Nat.eqb app]. rewrite app_nil_r.
    rewrite <- (Nat.add_1_r m), Hsnoc. do 2 f_equal. cbn [tree_node]. f_equal; [f_equal; lia|].
    symmetry. apply tree_node_zero. intros j Hj. apply Hz.
    pose proof (pow2_pos lvl). nia.
Qed.

Lemma zero_padded_loop_tree (leaf : Z → Hash) k : ∀ fuel lvl n,
  (n ≤ 2 ^ k)%nat → (2 ^ k < 2 * n)%nat → (k ≤ fuel)%nat →
  (∀ j, Z.of_nat n * 2 ^ Z.of_nat lvl ≤ j → leaf j = get_zero_value) →
  zero_padded_loop fuel lvl (tree_level leaf lvl n) = Ok (tree_node leaf (lvl + k) 0).
Proof.
  induction k as [|k IH]; intros fuel lvl n Hn Hlt Hf Hz.
  - simpl in Hn, Hlt. assert (n = 1)%nat as -> by lia. rewrite Nat.add_0_r. destruct fuel; done.
  - destruct fuel as [|fuel]; [lia|]. cbn [zero_padded_loop]. rewrite length_tree_level.
    cbn [Nat.pow] in Hn, Hlt. assert (1 < n)%nat as H1 by (pose proof (Nat.pow_nonzero 2 k); lia).
    rewrite (proj2 (Nat.ltb_lt _ _) H1), zero_padded_level_tree by done.
    assert (n ≤ 2 * ((n + 1) / 2))%nat as Hhalf
      by (pose proof (Nat.div_mod (n + 1) 2); pose proof (Nat.mod_upper_bound (n + 1) 2); lia).
    rewrite IH; [f_equal; f_equal; lia| |lia|lia|].
    + apply Nat.lt_succ_r, Nat.Div0.div_lt_upper_bound. lia.
    + intros j Hj. apply Hz. rewrite Nat2Z.inj_succ, Z.pow_succ_r in Hj by lia.
      pose proof (pow2_pos lvl). nia.
Qed.
End zero_padded.

(** [_hash_merkle_leaves_partial] fails on no leaves and otherwise returns
    the root of the smallest perfect tree that holds the leaves, completed with
    zero leaves on the right. *)
Theorem hash_merkle_leaves_partial_correct
    `{EqDecision Hash, MerkleHasher Hash, !ZeroableHash Hash, !MerkleZeroHasher Hash}
    (leaves : list Hash) :
  hash_merkle_leaves_partial leaves =
  match leaves with
  | [] => Err "Cannot compute Merkle root of zero leaves"
  | _ => Ok (tree_node (leaf_fn get_zero_value leaves) (Nat.log2_up (length leaves)) 0)
  end.
Proof.
  destruct leaves as [|a [|b [|c l]]]; [done..|].
  set (leaves := a :: b :: c :: l).
  assert (3 ≤ length leaves)%nat as H3 by (simpl; lia).
  pose proof (Nat.log2_up_spec (length leaves) ltac:(lia)) as [Hlo Hhi].
  pose proof (Nat.log2_up_pos (length leaves) ltac:(lia)) as Hpos.
  destruct (Nat.log2_up (length leaves)) as [|k] eqn:Ek; [lia|]. cbn [Nat.pred] in Hlo.
  change (hash_merkle_leaves_partial leaves) with
    (zero_padded_loop (length leaves) 1 (zero_padded_level 0 leaves)).
  assert (∀ j, Z.of_nat (length leaves) * 2 ^ Z.of_nat 0 ≤ j →
    leaf_fn get_zero_value leaves j = get_zero_value) as Hz.
  { intros j Hj. unfold leaf_fn. apply nth_overflow. lia. }
  assert (zero_padded_level 0 leaves =
    tree_level (leaf_fn get_zero_value leaves) 1 ((length leaves + 1) / 2)) as ->.
  { rewrite (leaves_tree_level get_zero_value leaves) at 1. by rewrite zero_padded_level_tree. }
  assert (length leaves ≤ 2 * ((length leaves + 1) / 2))%nat as Hhalf
    by (pose proof (Nat.div_mod (length leaves + 1) 2);
        pose proof (Nat.mod_upper_bound (length leaves + 1) 2); lia).
  cbn [Nat.pow] in Hhi. rewrite (zero_padded_loop_tree _ k); [done| |lia| |].
  - apply Nat.lt_succ_r, Nat.Div0.div_lt_upper_bound. lia.
  - pose proof (Nat.pow_gt_lin_r 2 k ltac:(lia)). lia.
  - intros j Hj. apply Hz. change (2 ^ Z.of_nat 1) with 2 in Hj.
    change (2 ^ Z.of_nat 0) with 1. lia.
Qed.
