(* ===== verification/NcaProof.v ===== *)
(** * Nearest-common-ancestor proofs

    [parth_core/src/crypto/hash/nca/nca_proof.rs]: two delta proofs that change
    leaves on both sides of a node are merged into one update of that node, and a
    link of siblings carries the update to the root of the tree. The specification
    is the tree with both leaves replaced. *)
From stdpp Require Import prelude gmap list strings.
From Stdlib Require Import ZArith Lia.
From S2P Require Import Prelude MerkleKey MerkleHash MerkleProof Spiderman.

(** ** Data *)
Record UpdateNearestCommonAncestorProof (Hash : Type) : Type := mkNca {
  old_nearest_common_ancestor_value : Hash;
  new_nearest_common_ancestor_value : Hash;
  child_a : DeltaMerkleProofCore Hash;
  child_b : DeltaMerkleProofCore Hash;
  nearest_common_ancestor_level : Z;   (* u8 *)
  nearest_common_ancestor_index : Z;   (* u64 *)
  level_a : Z;                         (* u8 *)
  level_b : Z;                         (* u8 *)
}.
Arguments mkNca {Hash}.
Arguments old_nearest_common_ancestor_value {Hash}.
Arguments new_nearest_common_ancestor_value {Hash}.
Arguments child_a {Hash}.
Arguments child_b {Hash}.
Arguments nearest_common_ancestor_level {Hash}.
Arguments nearest_common_ancestor_index {Hash}.
Arguments level_a {Hash}.
Arguments level_b {Hash}.

Record PartialUpdateNearestCommonAncestorProof (Hash : Type) : Type := mkPartialNca {
  p_child_a : DeltaMerkleProofCore Hash;
  p_child_b : DeltaMerkleProofCore Hash;
  p_nca_level : Z;                     (* u8 *)
}.
Arguments mkPartialNca {Hash}.
Arguments p_child_a {Hash}.
Arguments p_child_b {Hash}.
Arguments p_nca_level {Hash}.

Record PartialUpdateNCAWithAdditionalLink (Hash : Type) : Type := mkPartialLink {
  p_nca_proof : PartialUpdateNearestCommonAncestorProof Hash;
  link_siblings : list Hash;
}.
Arguments mkPartialLink {Hash}.
Arguments p_nca_proof {Hash}.
Arguments link_siblings {Hash}.

Record UpdateNCAWithAdditionalLink (Hash : Type) : Type := mkLink {
  nca_proof : UpdateNearestCommonAncestorProof Hash;
  link_proof : DeltaMerkleProofCore Hash;
}.
Arguments mkLink {Hash}.
Arguments nca_proof {Hash}.
Arguments link_proof {Hash}.

(** ** Operations *)

(** The height of a proof as a [u8]. *)
Definition checked_merkle_height (siblings_len : nat) : outcome Z :=
  let* _ := assert_ (siblings_len <? 64)%nat in
  Ok (Z.of_nat siblings_len).

(** [dist - 1] on [usize], the argument of [shorten_height]: for 0 the
    subtraction wraps to a height that [shorten_height] rejects with a panic. *)
Definition usize_pred (n : nat) : outcome nat :=
  match n with O => Panic | S n => Ok n end.

Section operations.
Context `{EqDecision Hash, MerkleHasher Hash}.
Implicit Types (p : UpdateNearestCommonAncestorProof Hash)
  (q : PartialUpdateNearestCommonAncestorProof Hash)
  (dmp_a dmp_b : DeltaMerkleProofCore Hash).

Definition to_partial p : PartialUpdateNearestCommonAncestorProof Hash :=
  mkPartialNca (child_a p) (child_b p) (nearest_common_ancestor_level p).

Definition get_a_node_key p : SimpleMerkleNodeKey := mkKey (level_a p) (dmp_index (child_a p)).

Definition get_b_node_key p : SimpleMerkleNodeKey := mkKey (level_b p) (dmp_index (child_b p)).

Definition is_solo_filler p : bool :=
  bool_decide (MerkleProof.new_root (child_a p) = MerkleProof.new_root (child_b p)) &&
  bool_decide (child_a p = child_b p).

(** The two values in the order of their positions. *)
Definition hash_ordered (is_a_right : bool) (a b : Hash) : Hash :=
  if is_a_right then two_to_one b a else two_to_one a b.

Definition nca_verify p : outcome bool :=
  let solo_mask := if is_solo_filler p then 0 else 1 in
  let expected_level_a :=
    nearest_common_ancestor_level p + Z.of_nat (length (dmp_siblings (child_a p))) + solo_mask in
  let expected_level_b :=
    nearest_common_ancestor_level p + Z.of_nat (length (dmp_siblings (child_b p))) + solo_mask in
  if negb ((level_a p =? expected_level_a) && (level_b p =? expected_level_b)) then Ok false else
  let level_diff_a := wrap 8 (level_a p - nearest_common_ancestor_level p) in
  let level_diff_b := wrap 8 (level_b p - nearest_common_ancestor_level p) in
  if (64 <=? level_diff_a) || (64 <=? level_diff_b) then Ok false else
  let nca_index_a := u64_shr (dmp_index (child_a p)) level_diff_a in
  let nca_index_b := u64_shr (dmp_index (child_b p)) level_diff_b in
  if negb ((nca_index_a =? nca_index_b) && (nca_index_a =? nearest_common_ancestor_index p) &&
           verify_delta (child_a p) && verify_delta (child_b p)) then Ok false else
  let* is_a_right := unwrap (is_on_the_right_of (get_a_node_key p) (get_b_node_key p)) in
  let computed_old_root := hash_ordered is_a_right (old_root (child_a p)) (old_root (child_b p)) in
  let computed_new_root :=
    hash_ordered is_a_right (MerkleProof.new_root (child_a p)) (MerkleProof.new_root (child_b p)) in
  Ok (bool_decide (old_nearest_common_ancestor_value p = computed_old_root) &&
      bool_decide (new_nearest_common_ancestor_value p = computed_new_root)).

Definition nca_validate p : outcome unit :=
  let solo_mask := if is_solo_filler p then 0 else 1 in
  let* _ := assert_ (level_a p =?
    nearest_common_ancestor_level p + Z.of_nat (length (dmp_siblings (child_a p))) + solo_mask) in
  let* _ := assert_ (level_b p =?
    nearest_common_ancestor_level p + Z.of_nat (length (dmp_siblings (child_b p))) + solo_mask) in
  let* _ := assert_ (nearest_common_ancestor_level p <=? level_a p) in
  let* _ := assert_ (nearest_common_ancestor_level p <=? level_b p) in
  let level_diff_a := wrap 8 (level_a p - nearest_common_ancestor_level p) in
  let level_diff_b := wrap 8 (level_b p - nearest_common_ancestor_level p) in
  let* _ := assert_ (level_diff_a <? 64) in
  let* _ := assert_ (level_diff_b <? 64) in
  let nca_index_a := u64_shr (dmp_index (child_a p)) level_diff_a in
  let nca_index_b := u64_shr (dmp_index (child_b p)) level_diff_b in
  let* _ := assert_ (nca_index_a =? nca_index_b) in
  let* _ := assert_ (nca_index_a =? nearest_common_ancestor_index p) in
  let* _ := assert_ (verify_delta (child_a p)) in
  let* _ := assert_ (verify_delta (child_b p)) in
  let* is_a_right := unwrap (is_on_the_right_of (get_a_node_key p) (get_b_node_key p)) in
  let computed_old_root := hash_ordered is_a_right (old_root (child_a p)) (old_root (child_b p)) in
  let computed_new_root :=
    hash_ordered is_a_right (MerkleProof.new_root (child_a p)) (MerkleProof.new_root (child_b p)) in
  let* _ := assert_ (bool_decide (old_nearest_common_ancestor_value p = computed_old_root)) in
  assert_ (bool_decide (new_nearest_common_ancestor_value p = computed_new_root)).

(** *** Partial proofs *)
Definition checked_child_level q (siblings_len : nat) : outcome Z :=
  let level_diff := Z.of_nat siblings_len + 1 in
  let* _ := assert_ (level_diff <? 64) in
  let level := p_nca_level q + level_diff in
  let* _ := assert_ (level <=? 255) in
  Ok level.

Definition get_level_a q : outcome Z := checked_child_level q (length (dmp_siblings (p_child_a q))).

Definition get_level_b q : outcome Z := checked_child_level q (length (dmp_siblings (p_child_b q))).

Definition p_get_a_node_key q : outcome SimpleMerkleNodeKey :=
  let* level := get_level_a q in Ok (mkKey level (dmp_index (p_child_a q))).

Definition p_get_b_node_key q : outcome SimpleMerkleNodeKey :=
  let* level := get_level_b q in Ok (mkKey level (dmp_index (p_child_b q))).

Definition compute_old_nca_value q : outcome Hash :=
  let* key_a := p_get_a_node_key q in
  let* key_b := p_get_b_node_key q in
  let* is_a_right := unwrap (is_on_the_right_of key_a key_b) in
  Ok (hash_ordered is_a_right (old_root (p_child_a q)) (old_root (p_child_b q))).

Definition compute_new_nca_value q : outcome Hash :=
  let* key_a := p_get_a_node_key q in
  let* key_b := p_get_b_node_key q in
  let* is_a_right := unwrap (is_on_the_right_of key_a key_b) in
  Ok (hash_ordered is_a_right (MerkleProof.new_root (p_child_a q)) (MerkleProof.new_root (p_child_b q))).

Definition get_nca_index q : outcome Z :=
  let level_diff_a := Z.of_nat (length (dmp_siblings (p_child_a q))) + 1 in
  let* _ := assert_ (level_diff_a <? 64) in
  Ok (u64_shr (dmp_index (p_child_a q)) level_diff_a).

(** [to_full_proof] and [into_full_proof]. *)
Definition to_full_proof q : outcome (UpdateNearestCommonAncestorProof Hash) :=
  let* old_value := compute_old_nca_value q in
  let* new_value := compute_new_nca_value q in
  let* level_a := get_level_a q in
  let* level_b := get_level_b q in
  let* nca_index := get_nca_index q in
  Ok (mkNca old_value new_value (p_child_a q) (p_child_b q) (p_nca_level q) nca_index level_a level_b).

(** [PartialUpdateNearestCommonAncestorProof::from_delta_merkle_proof_pair] *)
Definition partial_from_pair dmp_a dmp_b : outcome (PartialUpdateNearestCommonAncestorProof Hash) :=
  let* height := checked_merkle_height (length (dmp_siblings dmp_a)) in
  let* _ := assert_ (length (dmp_siblings dmp_a) =? length (dmp_siblings dmp_b))%nat in
  let* _ := assert_ (negb (dmp_index dmp_a =? dmp_index dmp_b)) in
  let leaf_key_a := mkKey height (dmp_index dmp_a) in
  let leaf_key_b := mkKey height (dmp_index dmp_b) in
  let* nca := returns (find_nearest_common_ancestor leaf_key_a leaf_key_b) in
  let dist_to_nca := Z.to_nat (wrap 8 (height - level nca)) in
  let* below := usize_pred dist_to_nca in
  let* a := shorten_height dmp_a below in
  let* b := shorten_height dmp_b below in
  Ok (mkPartialNca a b (level nca)).

(** *** Proofs with a link to the root *)

(** [&siblings[from..]] panics when [from] exceeds the length. *)
Definition slice_from (l : list Hash) (from : nat) : outcome (list Hash) :=
  let* _ := assert_ (from <=? length l)%nat in Ok (drop from l).

Definition partial_link_from_pair dmp_a dmp_b : outcome (PartialUpdateNCAWithAdditionalLink Hash) :=
  let* height := checked_merkle_height (length (dmp_siblings dmp_a)) in
  let* _ := assert_ (length (dmp_siblings dmp_a) =? length (dmp_siblings dmp_b))%nat in
  let* _ := assert_ (negb (dmp_index dmp_a =? dmp_index dmp_b)) in
  let leaf_key_a := mkKey height (dmp_index dmp_a) in
  let leaf_key_b := mkKey height (dmp_index dmp_b) in
  let* nca := returns (find_nearest_common_ancestor leaf_key_a leaf_key_b) in
  let dist_to_nca := Z.to_nat (wrap 8 (height - level nca)) in
  let* link_siblings := slice_from (dmp_siblings dmp_a) dist_to_nca in
  let* link_siblings_b := slice_from (dmp_siblings dmp_b) dist_to_nca in
  let* _ := assert_ (bool_decide (link_siblings = link_siblings_b)) in
  let* below := usize_pred dist_to_nca in
  let* a := shorten_height dmp_a below in
  let* b := shorten_height dmp_b below in
  Ok (mkPartialLink (mkPartialNca a b (level nca)) link_siblings).

Definition partial_link_from_pair_alt_height dmp_a dmp_b
    : outcome (PartialUpdateNCAWithAdditionalLink Hash) :=
  let* height_a := checked_merkle_height (length (dmp_siblings dmp_a)) in
  let* height_b := checked_merkle_height (length (dmp_siblings dmp_b)) in
  let leaf_key_a := mkKey height_a (dmp_index dmp_a) in
  let leaf_key_b := mkKey height_b (dmp_index dmp_b) in
  let* _ := assert_ (negb (bool_decide (leaf_key_a = leaf_key_b))) in
  let* related := unwrap (is_direct_path_related leaf_key_a leaf_key_b) in
  let* _ := assert_ (negb related) in
  let* nca := returns (find_nearest_common_ancestor leaf_key_a leaf_key_b) in
  let dist_to_nca_a := Z.to_nat (wrap 8 (height_a - level nca)) in
  let dist_to_nca_b := Z.to_nat (wrap 8 (height_b - level nca)) in
  let* link_siblings := slice_from (dmp_siblings dmp_a) dist_to_nca_a in
  let* link_siblings_b := slice_from (dmp_siblings dmp_b) dist_to_nca_b in
  let* _ := assert_ (bool_decide (link_siblings = link_siblings_b)) in
  let* below_a := usize_pred dist_to_nca_a in
  let* a := shorten_height dmp_a below_a in
  let* below_b := usize_pred dist_to_nca_b in
  let* b := shorten_height dmp_b below_b in
  Ok (mkPartialLink (mkPartialNca a b (level nca)) link_siblings).

(** [PartialUpdateNCAWithAdditionalLink::to_full_proof] and [into_full_proof]. *)
Definition link_to_full_proof (q : PartialUpdateNCAWithAdditionalLink Hash)
    : outcome (UpdateNCAWithAdditionalLink Hash) :=
  let* p := to_full_proof (p_nca_proof q) in
  let link := from_params (nearest_common_ancestor_index p) (old_nearest_common_ancestor_value p)
    (new_nearest_common_ancestor_value p) (link_siblings q) in
  Ok (mkLink p link).

Definition link_from_pair dmp_a dmp_b : outcome (UpdateNCAWithAdditionalLink Hash) :=
  let* partial := partial_link_from_pair dmp_a dmp_b in link_to_full_proof partial.

Definition to_partial_proof (l : UpdateNCAWithAdditionalLink Hash)
    : PartialUpdateNCAWithAdditionalLink Hash :=
  mkPartialLink (to_partial (nca_proof l)) (dmp_siblings (link_proof l)).

Definition link_verify (l : UpdateNCAWithAdditionalLink Hash) : outcome bool :=
  let* ok := nca_verify (nca_proof l) in
  Ok (ok && verify_delta (link_proof l) &&
      bool_decide (old_nearest_common_ancestor_value (nca_proof l) = old_value (link_proof l)) &&
      bool_decide (new_nearest_common_ancestor_value (nca_proof l) = new_value (link_proof l))).
End operations.

(** ** Dependency levels *)
Record UpdateNCAProofsWithDependencies (Hash : Type) : Type := mkNcaDeps {
  nca_proofs : list (UpdateNearestCommonAncestorProof Hash);
  dependencies : list (Z * Z);          (* i64 *)
  root_proof_index : Z;
  deps_nca_level : Z;
  deps_nca_index : Z;
  link_level : Z;
  link_index : Z;
  deps_link_proof : DeltaMerkleProofCore Hash;
}.
Arguments mkNcaDeps {Hash}.
Arguments nca_proofs {Hash}.
Arguments dependencies {Hash}.

(** A dependency is solved when it is negative (none) or already in a level. *)
Definition dep_solved (solved : gset Z) (d : Z) : bool := (d <=? -1) || bool_decide (d ∈ solved).

(** One pass over [remaining]: the indices whose dependencies are solved, and the
    others. [self.dependencies[x]] panics out of range. *)
Fixpoint level_pass (deps : list (Z * Z)) (solved : gset Z) (remaining : list nat)
    : outcome (list nat * list nat) :=
  match remaining with
  | [] => Ok ([], [])
  | x :: remaining =>
      let* (l, r) := unwrap (deps !! x) in
      let* (level, new_remaining) := level_pass deps solved remaining in
      if dep_solved solved l && dep_solved solved r
      then Ok (x :: level, new_remaining) else Ok (level, x :: new_remaining)
  end.

(** [while solved_values < total_values] *)
Fixpoint levels_loop (fuel : nat) (deps : list (Z * Z)) (total_values solved_values : nat)
    (solved : gset Z) (remaining : list nat) (levels : list (list nat)) : outcome (list (list nat)) :=
  if (solved_values <? total_values)%nat then
    match fuel with
    | O => Diverge
    | S fuel =>
        let* (level, new_remaining) := level_pass deps solved remaining in
        let solved := foldl (λ s i, {[Z.of_nat i]} ∪ s) solved level in
        if bool_decide (level = []) then Err "cycle or an unsatisfied dependency" else
        levels_loop fuel deps total_values (solved_values + length level) solved new_remaining
          (levels ++ [level])
    end
  else Ok levels.

Definition get_index_levels {Hash} (self : UpdateNCAProofsWithDependencies Hash)
    : outcome (list (list nat)) :=
  let total_values := length (nca_proofs self) in
  if negb (length (dependencies self) =? total_values)%nat then Err "dependency count" else
  if negb (forallb (λ '(l, r), (l <? Z.of_nat total_values) && (r <? Z.of_nat total_values))
             (dependencies self)) then Err "dependency index is out of range" else
  levels_loop total_values (dependencies self) total_values 0 ∅ (seq 0 total_values) [].

(** ** Paths of changed trees *)
Section paths.
Context `{EqDecision Hash, MerkleHasher Hash}.
Implicit Types f : Z → Hash.

Lemma take_tree_siblings f h m i : (m ≤ h)%nat → take m (tree_siblings f h i) = tree_siblings f m i.
Proof.
  intros Hm. unfold tree_siblings, siblings_from. rewrite <- fmap_take. f_equal.
  by rewrite take_seq, Nat.min_l by lia.
Qed.

(** The path of a leaf whose siblings are those of the old tree leads to the
    node of the new tree, when nothing else below that node has changed. *)
Lemma compute_root_changed f f' h m i :
  0 ≤ i → (m ≤ h)%nat → (m ≤ 64)%nat →
  (∀ k, k ≠ i → k / 2 ^ Z.of_nat m = i / 2 ^ Z.of_nat m → f k = f' k) →
  compute_root_merkle_proof_generic (f' i) i (take m (tree_siblings f h i)) =
  tree_node f' m (i / 2 ^ Z.of_nat m).
Proof.
  intros Hi Hm H64 Hext. rewrite take_tree_siblings by done.
  assert (tree_siblings f m i = tree_siblings f' m i) as ->.
  { apply list_fmap_ext. intros l ? [-> Hl]%lookup_seq. rewrite Nat.add_0_l.
    apply tree_node_ext. intros k Hk. pose proof (pow2_pos l) as Hp. pose proof (sib_ne (i / 2 ^ Z.of_nat l)).
    assert (k / 2 ^ Z.of_nat l = sib (i / 2 ^ Z.of_nat l)) as Hkl.
    { symmetry. apply Z.div_unique_pos with (k - sib (i / 2 ^ Z.of_nat l) * 2 ^ Z.of_nat l); lia. }
    apply Hext; [intros ->; lia|].
    replace (Z.of_nat m) with (Z.of_nat l + (1 + Z.of_nat (m - l - 1))) by lia.
    rewrite <- !(div_pow2_div _ (Z.of_nat l)), Hkl by lia. rewrite <- !div_pow2_div by lia.
    f_equal. change (2 ^ 1) with 2. unfold sib. rewrite lxor_1.
    destruct (even_cases (i / 2 ^ Z.of_nat l)) as [(q & -> & ->)|(q & -> & ->)];
      Z.div_mod_to_equations; lia. }
  pose proof (compute_root_loop_tree f' i m Hi 0 ltac:(lia)) as Hc.
  rewrite Z.div_1_r in Hc. exact Hc.
Qed.
End paths.

(** ** Where two nodes meet *)

(** The index of the ancestor of [k] at level [l]. *)
Definition index_at (k : SimpleMerkleNodeKey) (l : Z) : Z := index k / 2 ^ (level k - l).

Lemma index_at_div k l m :
  0 ≤ m ≤ l → l ≤ level k → index_at k m = index_at k l / 2 ^ (l - m).
Proof. intros. unfold index_at. rewrite div_pow2_div by lia. do 2 f_equal. lia. Qed.

Lemma nca_geometry a b :
  key_wf a → key_wf b → ¬ ancestor a b → ¬ ancestor b a →
  ∃ c, find_nearest_common_ancestor a b = Some c ∧ key_wf c ∧
    level c < level a ∧ level c < level b ∧
    index_at a (level c) = index c ∧ index_at b (level c) = index c ∧
    index_at a (level c + 1) ≠ index_at b (level c + 1).
Proof.
  intros Ha Hb Hab Hba. destruct (find_nca_spec a b Ha Hb) as (c & Hc & Hca & Hcb & Hwf & Hmax).
  assert (level c < level a) as Hla.
  { destruct (decide (level c = level a)) as [E|]; [|destruct Hca; lia].
    apply (ancestor_same_level c a Hca) in E as ->. done. }
  assert (level c < level b) as Hlb.
  { destruct (decide (level c = level b)) as [E|]; [|destruct Hcb; lia].
    apply (ancestor_same_level c b Hcb) in E as ->. done. }
  exists c. split_and!; try done; [by destruct Hca|by destruct Hcb|]. intros Heq.
  assert (ancestor (mkKey (level c + 1) (index_at a (level c + 1))) c) as [Hl _];
    [|simpl in Hl; lia].
  apply Hmax; [destruct Hwf; simpl; lia|split; simpl; [lia|done]|split; simpl; [lia|done]].
Qed.

Lemma div_pow2_lt x y n : 0 ≤ n → x / 2 ^ n < y / 2 ^ n → x < y.
Proof.
  intros Hn Hlt. apply Z.nle_gt. intros Hle. pose proof (pow2_pos_Z n Hn).
  pose proof (Z.div_le_mono y x (2 ^ n) ltac:(lia) Hle). lia.
Qed.

(** The order of two nodes is the order of any two different ancestors of them on
    one level. *)
Lemma is_on_the_right_of_at a b m :
  key_wf a → key_wf b → 0 ≤ m ≤ level a → m ≤ level b → index_at a m ≠ index_at b m →
  is_on_the_right_of a b = Some (index_at b m <? index_at a m).
Proof.
  intros Ha Hb Hm Hmb Hne. unfold is_on_the_right_of.
  assert (∀ s, m ≤ s ≤ level a → s ≤ level b →
    (index_at b s <? index_at a s) = (index_at b m <? index_at a m)) as Hs.
  { intros s Hs1 Hs2. rewrite (index_at_div a s m), (index_at_div b s m) in * by lia.
    destruct (Z.ltb_spec (index_at b s / 2 ^ (s - m)) (index_at a s / 2 ^ (s - m))) as [Hlt|Hge].
    - apply Z.ltb_lt. apply div_pow2_lt with (s - m); lia.
    - apply Z.ltb_ge. apply Z.lt_le_incl, div_pow2_lt with (s - m); lia. }
  repeat case_bool; zify_bool.
  - rewrite <- (Hs (level a)) by lia. unfold index_at. rewrite E, Z.sub_diag, Z.pow_0_r, !Z.div_1_r. done.
  - rewrite parent_at_level_spec by (done || destruct Hb; lia). cbn [mbind option_bind index].
    rewrite <- (Hs (level b)) by lia. unfold index_at. rewrite Z.sub_diag, Z.pow_0_r, !Z.div_1_r. done.
  - rewrite parent_at_level_spec by (done || destruct Ha; lia). cbn [mbind option_bind index].
    rewrite <- (Hs (level a)) by lia. unfold index_at. rewrite Z.sub_diag, Z.pow_0_r, !Z.div_1_r. done.
Qed.

(** ** Completeness *)
Section complete.
Context `{EqDecision Hash, MerkleHasher Hash}.
Implicit Types (leaf : Z → Hash) (d : DeltaMerkleProofCore Hash) (a b c k : SimpleMerkleNodeKey).

(** The height of the sub-tree below a node of a tree of height [h]. *)
Definition below (h : nat) k : nat := h - Z.to_nat (level k).

(** The delta proof that replaces the node [k] of the tree over [leaf] by that of
    the tree over [leaf']. *)
Definition delta_at leaf leaf' (h : nat) k : DeltaMerkleProofCore Hash :=
  from_params (index k) (tree_node leaf (below h k) (index k)) (tree_node leaf' (below h k) (index k))
    (tree_siblings (tree_node leaf (below h k)) (Z.to_nat (level k)) (index k)).

(** The trees differ at most below the nodes [a] and [b]. *)
Definition agree_outside leaf leaf' (h : nat) a b : Prop :=
  ∀ j, j / 2 ^ Z.of_nat (below h a) ≠ index a → j / 2 ^ Z.of_nat (below h b) ≠ index b → leaf j = leaf' j.

Lemma agree_outside_sym leaf leaf' h a b :
  agree_outside leaf leaf' h a b → agree_outside leaf leaf' h b a.
Proof. intros Hag j Hb Ha. by apply Hag. Qed.

(** The child of the meeting point on the side of [a]. *)
Definition child_ok leaf leaf' (h : nat) a (L : Z) d : Prop :=
  verify_delta d = true ∧ dmp_index d = index a ∧
  Z.of_nat (length (dmp_siblings d)) = level a - L - 1 ∧
  old_root d = tree_node leaf (h - Z.to_nat L - 1) (index_at a (L + 1)) ∧
  MerkleProof.new_root d = tree_node leaf' (h - Z.to_nat L - 1) (index_at a (L + 1)).

Lemma block_div (j k : Z) (n : nat) :
  k * 2 ^ Z.of_nat n ≤ j < (k + 1) * 2 ^ Z.of_nat n → j / 2 ^ Z.of_nat n = k.
Proof.
  intros Hj. symmetry. apply Z.div_unique_pos with (j - k * 2 ^ Z.of_nat n); pose proof (pow2_pos n); lia.
Qed.

(** The siblings of [a] below the child of the ancestor at level [L]. *)
Definition siblings_below leaf (h : nat) a (L : Z) : list Hash :=
  tree_siblings (tree_node leaf (below h a)) (Z.to_nat (level a - L - 1)) (index a).

Lemma child_path leaf leaf' h a b L :
  key_wf a → 0 ≤ L < level a → L < level b → level a < 64 → level a ≤ Z.of_nat h → level b ≤ Z.of_nat h →
  agree_outside leaf leaf' h a b → index_at a (L + 1) ≠ index_at b (L + 1) →
  compute_root_merkle_proof_generic (tree_node leaf' (below h a) (index a)) (index a) (siblings_below leaf h a L) =
  tree_node leaf' (h - Z.to_nat L - 1) (index_at a (L + 1)).
Proof.
  intros [Hla Hi] HL HLb H64 Hha Hhb Hag Hne. set (m := Z.to_nat (level a - L - 1)).
  assert (index_at a (L + 1) = index a / 2 ^ Z.of_nat m) as Hia by (unfold index_at; do 2 f_equal; lia).
  unfold siblings_below. fold m. rewrite <- (firstn_all (tree_siblings _ _ _)), length_tree_siblings.
  replace (h - Z.to_nat L - 1)%nat with (below h a + m)%nat by (unfold below; lia).
  rewrite tree_node_add, Hia. apply compute_root_changed; [lia|lia|lia|].
  intros k Hk Hkm. apply tree_node_ext. intros j Hj%block_div. apply Hag; [lia|].
  intros Hjb. apply Hne. rewrite Hia, <- Hkm, <- Hj. unfold index_at. rewrite <- Hjb.
  rewrite !div_pow2_div by lia. do 2 f_equal. unfold below. lia.
Qed.

Lemma agree_refl leaf h a b : agree_outside leaf leaf h a b.
Proof. by intros j _ _. Qed.

Lemma shorten_delta_at leaf leaf' h a b L :
  key_wf a → 0 ≤ L < level a → L < level b → level a < 64 →
  level a ≤ Z.of_nat h → level b ≤ Z.of_nat h →
  agree_outside leaf leaf' h a b → index_at a (L + 1) ≠ index_at b (L + 1) →
  ∃ d, shorten_height (delta_at leaf leaf' h a) (Z.to_nat (level a - L - 1)) = Ok d ∧
    child_ok leaf leaf' h a L d.
Proof.
  intros Ha HL HLb H64 Hha Hhb Hag Hne.
  exists (from_params (index a) (tree_node leaf (below h a) (index a)) (tree_node leaf' (below h a) (index a))
            (siblings_below leaf h a L)).
  split; [|split_and!].
  - unfold shorten_height, delta_at. cbn [dmp_siblings from_params old_value new_value dmp_index].
    rewrite length_tree_siblings, (proj2 (Nat.leb_le _ _)) by lia. cbn [assert_ outcome_bind].
    unfold siblings_below. rewrite <- (take_tree_siblings _ (Z.to_nat (level a)) (Z.to_nat (level a - L - 1))) by lia.
    destruct (Nat.eqb_spec (Z.to_nat (level a - L - 1)) (Z.to_nat (level a))) as [Em|_]; [|done].
    rewrite take_ge by (rewrite length_tree_siblings; lia). done.
  - apply from_params_verifies. unfold siblings_below. rewrite length_tree_siblings. lia.
  - done.
  - cbn [dmp_siblings from_params]. unfold siblings_below. rewrite length_tree_siblings. lia.
  - apply (child_path leaf leaf h a b); (done || apply agree_refl).
  - by apply (child_path leaf leaf' h a b).
Qed.

(** Siblings above the meeting point. *)
Lemma link_siblings_at leaf h a L :
  0 ≤ L ≤ level a → level a ≤ Z.of_nat h →
  drop (Z.to_nat (level a - L)) (tree_siblings (tree_node leaf (below h a)) (Z.to_nat (level a)) (index a)) =
  tree_siblings (tree_node leaf (h - Z.to_nat L)) (Z.to_nat L) (index_at a L).
Proof.
  intros HL Hh. rewrite drop_tree_siblings by lia.
  replace (Z.to_nat (level a) - Z.to_nat (level a - L))%nat with (Z.to_nat L) by lia.
  replace (index a / 2 ^ Z.of_nat (Z.to_nat (level a - L))) with (index_at a L)
    by (unfold index_at; do 2 f_equal; lia).
  apply siblings_from_ext. intros k _. rewrite <- tree_node_add. f_equal. unfold below. lia.
Qed.

(** The two children of the meeting point, in the order of their positions. *)
Lemma hash_ordered_children (f : Z → Hash) (n : nat) a b c :
  0 ≤ level c < level a → level c < level b →
  index_at a (level c) = index c → index_at b (level c) = index c →
  index_at a (level c + 1) ≠ index_at b (level c + 1) →
  hash_ordered (index_at b (level c + 1) <? index_at a (level c + 1))
    (tree_node f n (index_at a (level c + 1))) (tree_node f n (index_at b (level c + 1))) =
  tree_node f (S n) (index c).
Proof.
  intros HLa HLb Ha Hb Hne.
  rewrite (index_at_div a (level c + 1)) in Ha by lia. rewrite (index_at_div b (level c + 1)) in Hb by lia.
  replace (level c + 1 - level c) with 1 in * by lia. change (2 ^ 1) with 2 in *.
  unfold hash_ordered. cbn [tree_node]. destruct (Z.ltb_spec (index_at b (level c + 1)) (index_at a (level c + 1)));
    f_equal; f_equal; Z.div_mod_to_equations; lia.
Qed.

(** [a] and [b] meet in [c]. *)
Definition meet a b c : Prop :=
  key_wf a ∧ key_wf b ∧ key_wf c ∧ level c < level a < 64 ∧ level c < level b < 64 ∧
  index_at a (level c) = index c ∧ index_at b (level c) = index c ∧
  index_at a (level c + 1) ≠ index_at b (level c + 1).

Lemma meet_right a b c :
  meet a b c → is_on_the_right_of a b = Some (index_at b (level c + 1) <? index_at a (level c + 1)).
Proof.
  intros (Ha & Hb & Hc & HLa & HLb & _ & _ & Hne). destruct Hc.
  apply is_on_the_right_of_at; (done || lia).
Qed.

Lemma shr_child a c :
  key_wf a → key_wf c → level c < level a < 64 → index_at a (level c) = index c →
  u64_shr (index a) (level a - level c) = index c.
Proof.
  intros _ [Hc _] Hl Hi. rewrite u64_shr_small by lia. exact Hi.
Qed.

(** Children of a meeting point are never a solo filler. *)
Lemma meet_not_solo leaf leaf' h a b c p :
  meet a b c → child_ok leaf leaf' h a (level c) (child_a p) →
  child_ok leaf leaf' h b (level c) (child_b p) → is_solo_filler p = false.
Proof.
  intros (_ & _ & _ & _ & _ & _ & _ & Hne) (_ & Hia & Hla & _) (_ & Hib & Hlb & _).
  unfold is_solo_filler. apply andb_false_intro2, bool_decide_eq_false. intros Heq.
  apply Hne. rewrite Heq in Hia, Hla. f_equal. destruct a, b; simpl in *. f_equal; [lia|congruence].
Qed.

Lemma to_full_proof_ok leaf leaf' h a b c da db :
  meet a b c → level a ≤ Z.of_nat h →
  child_ok leaf leaf' h a (level c) da → child_ok leaf leaf' h b (level c) db →
  let p := mkNca (tree_node leaf (h - Z.to_nat (level c)) (index c))
             (tree_node leaf' (h - Z.to_nat (level c)) (index c)) da db
             (level c) (index c) (level a) (level b) in
  to_full_proof (mkPartialNca da db (level c)) = Ok p ∧ nca_verify p = Ok true.
Proof.
  intros Hm Hh Hca Hcb p. pose proof (meet_right a b c Hm) as Hright.
  pose proof (meet_not_solo leaf leaf' h a b c p Hm Hca Hcb) as Hsolo.
  destruct Hm as (Ha & Hb & Hc & HLa & HLb & Hia & Hib & Hne).
  destruct Hca as (Hva & Hxa & Hla & Hoa & Hna), Hcb as (Hvb & Hxb & Hlb & Hob & Hnb).
  pose proof Hc as [Hc0 _].
  assert (∀ f, hash_ordered (index_at b (level c + 1) <? index_at a (level c + 1))
      (tree_node f (h - Z.to_nat (level c) - 1) (index_at a (level c + 1)))
      (tree_node f (h - Z.to_nat (level c) - 1) (index_at b (level c + 1))) =
    tree_node f (h - Z.to_nat (level c)) (index c)) as Hho.
  { intros f. rewrite (hash_ordered_children f _ a b c) by (done || lia). f_equal. lia. }
  assert (mkKey (level a) (dmp_index da) = a) as Hka by (rewrite Hxa; by destruct a).
  assert (mkKey (level b) (dmp_index db) = b) as Hkb by (rewrite Hxb; by destruct b).
  split.
  - unfold to_full_proof, compute_old_nca_value, compute_new_nca_value, p_get_a_node_key, p_get_b_node_key,
      get_level_a, get_level_b, get_nca_index, checked_child_level. cbn [p_child_a p_child_b p_nca_level].
    rewrite Hla, Hlb, !(proj2 (Z.ltb_lt _ _)), !(proj2 (Z.leb_le _ _)) by lia. cbn [assert_ outcome_bind].
    replace (level c + (level a - level c - 1 + 1)) with (level a) by lia.
    replace (level c + (level b - level c - 1 + 1)) with (level b) by lia.
    rewrite Hka, Hkb, Hright. cbn [unwrap outcome_bind]. rewrite Hoa, Hob, Hna, Hnb, !Hho.
    replace (level a - level c - 1 + 1) with (level a - level c) by lia.
    rewrite Hxa, (shr_child a c) by (done || lia). done.
  - unfold nca_verify. rewrite Hsolo. unfold get_a_node_key, get_b_node_key.
    cbn [child_a child_b nearest_common_ancestor_level level_a level_b nearest_common_ancestor_index
         old_nearest_common_ancestor_value new_nearest_common_ancestor_value p].
    rewrite Hla, Hlb, !(proj2 (Z.eqb_eq _ _)) by lia. cbn [andb negb].
    rewrite !wrap_small, !(proj2 (Z.leb_gt _ _)) by lia. cbn [orb].
    rewrite Hxa, Hxb, (shr_child a c), (shr_child b c), Z.eqb_refl, Hva, Hvb by (done || lia). cbn [andb negb].
    rewrite <- Hxa at 1. rewrite Hka. rewrite <- Hxb at 1. rewrite Hkb, Hright. cbn [unwrap outcome_bind].
    rewrite Hoa, Hob, Hna, Hnb, !Hho, !bool_decide_true by done. done.
Qed.
End complete.

Section complete_link.
Context `{EqDecision Hash, MerkleHasher Hash}.
Implicit Types (leaf : Z → Hash) (a b c : SimpleMerkleNodeKey).

Lemma checked_merkle_height_ok n : (n < 64)%nat → checked_merkle_height n = Ok (Z.of_nat n).
Proof. intros Hn. unfold checked_merkle_height. by rewrite (proj2 (Nat.ltb_lt _ _)). Qed.

Lemma not_related a b :
  key_wf a → key_wf b → ¬ ancestor a b → ¬ ancestor b a → is_direct_path_related a b = Some false.
Proof.
  intros Ha Hb Hab Hba. destruct (is_direct_path_related_spec a b Ha Hb) as ([|] & -> & Hr); [|done].
  destruct Hr as [Hr _]. destruct Hr; done.
Qed.

(** The common tail of the two constructors, after the meeting point is known. *)
Lemma link_parts leaf leaf' h a b c :
  meet a b c → level a ≤ Z.of_nat h → level b ≤ Z.of_nat h → agree_outside leaf leaf' h a b →
  let sibs := tree_siblings (tree_node leaf (h - Z.to_nat (level c))) (Z.to_nat (level c)) (index c) in
  slice_from (dmp_siblings (delta_at leaf leaf' h a)) (Z.to_nat (level a - level c)) = Ok sibs ∧
  ∃ d, usize_pred (Z.to_nat (level a - level c)) = Ok (Z.to_nat (level a - level c - 1)) ∧
    shorten_height (delta_at leaf leaf' h a) (Z.to_nat (level a - level c - 1)) = Ok d ∧
    child_ok leaf leaf' h a (level c) d.
Proof.
  intros (Ha & Hb & Hc & HLa & HLb & Hia & _ & Hne) Hha Hhb Hag sibs. pose proof Hc as [Hc0 _]. split.
  - unfold slice_from, delta_at. cbn [dmp_siblings from_params].
    rewrite length_tree_siblings, (proj2 (Nat.leb_le _ _)) by lia. cbn [assert_ outcome_bind].
    rewrite link_siblings_at by lia. by rewrite Hia.
  - destruct (shorten_delta_at leaf leaf' h a b (level c)) as (d & Hd & Hok); try (done || lia).
    exists d. split_and!; [|done|done]. destruct (Z.to_nat (level a - level c)) eqn:E; [lia|].
    simpl. f_equal. lia.
Qed.

Lemma meet_sym a b c : meet a b c → meet b a c.
Proof. intros (Ha & Hb & Hc & Hla & Hlb & Hia & Hib & Hne). repeat (split; [done|]). by apply not_eq_sym. Qed.

Lemma agree_outside_link leaf leaf' h a b c :
  meet a b c → level a ≤ Z.of_nat h → level b ≤ Z.of_nat h → agree_outside leaf leaf' h a b →
  ∀ k, k ≠ index c →
  tree_node leaf (h - Z.to_nat (level c)) k = tree_node leaf' (h - Z.to_nat (level c)) k.
Proof.
  intros (Ha & Hb & [Hc _] & HLa & HLb & Hia & Hib & Hne) Hha Hhb Hag k Hk. apply tree_node_ext.
  intros j Hj%block_div. apply Hag; intros He; apply Hk; rewrite <- Hj.
  - rewrite <- Hia. unfold index_at. rewrite <- He, div_pow2_div by lia. do 2 f_equal. unfold below. lia.
  - rewrite <- Hib. unfold index_at. rewrite <- He, div_pow2_div by lia. do 2 f_equal. unfold below. lia.
Qed.

Lemma link_roots leaf leaf' h a b c p :
  meet a b c → level a ≤ Z.of_nat h → level b ≤ Z.of_nat h → agree_outside leaf leaf' h a b →
  old_nearest_common_ancestor_value p = tree_node leaf (h - Z.to_nat (level c)) (index c) →
  new_nearest_common_ancestor_value p = tree_node leaf' (h - Z.to_nat (level c)) (index c) →
  let sibs := tree_siblings (tree_node leaf (h - Z.to_nat (level c))) (Z.to_nat (level c)) (index c) in
  let link := from_params (index c) (old_nearest_common_ancestor_value p)
                (new_nearest_common_ancestor_value p) sibs in
  verify_delta link = true ∧ old_root link = tree_node leaf h 0 ∧
  MerkleProof.new_root link = tree_node leaf' h 0.
Proof.
  intros Hm Hha Hhb Hag Ho Hn sibs link. pose proof (agree_outside_link _ _ _ _ _ _ Hm Hha Hhb Hag) as Hout.
  destruct Hm as (Ha & Hb & [Hc Hic] & HLa & HLb & _). set (x := (h - Z.to_nat (level c))%nat) in *.
  assert (∀ f, tree_node f h 0 = tree_node (tree_node f x) (Z.to_nat (level c)) 0) as Hadd
    by (intros f; rewrite <- tree_node_add; f_equal; unfold x; lia).
  assert (index c / 2 ^ Z.of_nat (Z.to_nat (level c)) = 0) as H0 by (apply Z.div_small; rewrite Z2Nat.id; lia).
  assert (∀ f', (∀ k, k ≠ index c → tree_node leaf x k = tree_node f' x k) →
    compute_root_merkle_proof_generic (tree_node f' x (index c)) (index c) sibs = tree_node f' h 0) as Hc'.
  { intros f' Hf. rewrite Hadd, <- H0. unfold sibs. rewrite <- (firstn_all (tree_siblings _ _ _)) at 1.
    rewrite length_tree_siblings. apply compute_root_changed; [lia|lia|lia|].
    intros k Hk _. by apply Hf. }
  split_and!.
  - apply from_params_verifies. unfold sibs. rewrite length_tree_siblings. lia.
  - cbn [link from_params old_root]. rewrite Ho. by apply Hc'.
  - cbn [link from_params MerkleProof.new_root]. rewrite Hn. by apply Hc'.
Qed.
Lemma key_eta k : mkKey (level k) (index k) = k.
Proof. by destruct k. Qed.

(** On proofs of one height the two constructors agree, and the link is an
    addition to the plain proof. *)
Lemma partial_link_same_height (da db : DeltaMerkleProofCore Hash) :
  length (dmp_siblings da) = length (dmp_siblings db) → dmp_index da ≠ dmp_index db →
  partial_link_from_pair da db = partial_link_from_pair_alt_height da db.
Proof.
  intros Hlen Hne. unfold partial_link_from_pair, partial_link_from_pair_alt_height.
  rewrite <- Hlen, Nat.eqb_refl. destruct (checked_merkle_height _) as [n| | |]; try done.
  cbn [outcome_bind assert_]. rewrite (proj2 (Z.eqb_neq _ _)) by done. cbn [negb assert_ outcome_bind].
  rewrite bool_decide_false by congruence. unfold is_direct_path_related. cbn [level index negb].
  rewrite Z.eqb_refl, (proj2 (Z.eqb_neq _ _)) by done. cbn [unwrap outcome_bind negb assert_].
  destruct (find_nearest_common_ancestor _ _) as [c|]; [|done]. cbn [returns outcome_bind].
  destruct (slice_from (dmp_siblings da) _) as [sa| | |], (slice_from (dmp_siblings db) _) as [sb| | |]; try done.
  cbn [outcome_bind]. destruct (assert_ _); try done. cbn [outcome_bind].
  by destruct (usize_pred _).
Qed.

Lemma partial_link_nca (da db : DeltaMerkleProofCore Hash) q :
  partial_link_from_pair da db = Ok q → partial_from_pair da db = Ok (p_nca_proof q).
Proof.
  unfold partial_link_from_pair, partial_from_pair.
  destruct (checked_merkle_height _) as [n| | |]; try done. cbn [outcome_bind].
  destruct (assert_ (Nat.eqb _ _)); try done. cbn [outcome_bind].
  destruct (assert_ (negb _)); try done. cbn [outcome_bind].
  destruct (find_nearest_common_ancestor _ _) as [c|]; [|done]. cbn [returns outcome_bind].
  destruct (slice_from (dmp_siblings da) _) as [sa| | |], (slice_from (dmp_siblings db) _) as [sb| | |]; try done.
  cbn [outcome_bind]. destruct (assert_ (bool_decide _)); try done. cbn [outcome_bind].
  destruct (usize_pred _); try done. cbn [outcome_bind].
  destruct (shorten_height da _); try done. cbn [outcome_bind].
  destruct (shorten_height db _); try done. cbn [outcome_bind]. by intros [= <-].
Qed.

(** The constructor on the delta proofs of two nodes that meet. *)
Lemma partial_link_meet leaf leaf' h a b c :
  meet a b c → find_nearest_common_ancestor a b = Some c → ¬ ancestor a b → ¬ ancestor b a →
  level a ≤ Z.of_nat h → level b ≤ Z.of_nat h → agree_outside leaf leaf' h a b →
  let sibs := tree_siblings (tree_node leaf (h - Z.to_nat (level c))) (Z.to_nat (level c)) (index c) in
  ∃ ca cb, child_ok leaf leaf' h a (level c) ca ∧ child_ok leaf leaf' h b (level c) cb ∧
    partial_link_from_pair_alt_height (delta_at leaf leaf' h a) (delta_at leaf leaf' h b) =
      Ok (mkPartialLink (mkPartialNca ca cb (level c)) sibs).
Proof.
  intros Hm Hfind Hab Hba Hha Hhb Hag sibs.
  destruct (link_parts leaf leaf' h a b c) as [Hsa (ca & Hpa & Hsha & Hca)]; try done.
  destruct (link_parts leaf leaf' h b a c) as [Hsb (cb & Hpb & Hshb & Hcb)];
    [by apply meet_sym|done|done|by apply agree_outside_sym|]. fold sibs in Hsa, Hsb.
  exists ca, cb. split_and!; [done..|].
  destruct Hm as (Ha & Hb & Hc & HLa & HLb & _). pose proof Hc as [Hc0 _].
  unfold partial_link_from_pair_alt_height.
  replace (length (dmp_siblings (delta_at leaf leaf' h a))) with (Z.to_nat (level a))
    by (simpl; by rewrite length_tree_siblings).
  replace (length (dmp_siblings (delta_at leaf leaf' h b))) with (Z.to_nat (level b))
    by (simpl; by rewrite length_tree_siblings).
  rewrite !checked_merkle_height_ok, !Z2Nat.id by lia. cbn [outcome_bind].
  change (dmp_index (delta_at leaf leaf' h a)) with (index a).
  change (dmp_index (delta_at leaf leaf' h b)) with (index b). rewrite !key_eta.
  rewrite bool_decide_false by (intros ->; apply Hab, ancestor_refl). cbn [negb assert_ outcome_bind].
  rewrite not_related by done. cbn [unwrap outcome_bind negb assert_]. rewrite Hfind. cbn [returns outcome_bind].
  rewrite !wrap_small by lia. rewrite Hsa, Hsb. cbn [outcome_bind].
  rewrite bool_decide_true, Hpa, Hpb by done. cbn [assert_ outcome_bind]. by rewrite Hsha, Hshb.
Qed.
End complete_link.

(** Merging two updates. If two nodes of a tree (on any two levels above 64,
    neither an ancestor of the other) change and nothing else does, the
    delta proofs of the two nodes can be merged: the constructors return a proof
    whose children meet at the nearest common ancestor of the nodes, the full
    proof verifies together with its link, it leads from the root of the old tree
    to the root of the tree with both changes, and its partial form is the one it
    was built from. *)
Theorem nca_pair_complete `{EqDecision Hash, MerkleHasher Hash} (leaf leaf' : Z → Hash) (h : nat)
    (a b : SimpleMerkleNodeKey) :
  key_wf a → key_wf b → level a < 64 → level b < 64 → level a ≤ Z.of_nat h → level b ≤ Z.of_nat h →
  ¬ ancestor a b → ¬ ancestor b a → agree_outside leaf leaf' h a b →
  let da := delta_at leaf leaf' h a in let db := delta_at leaf leaf' h b in
  ∃ q l, partial_link_from_pair_alt_height da db = Ok q ∧ link_to_full_proof q = Ok l ∧
    link_verify l = Ok true ∧ to_partial_proof l = q ∧
    find_nearest_common_ancestor a b =
      Some (mkKey (nearest_common_ancestor_level (nca_proof l)) (nearest_common_ancestor_index (nca_proof l))) ∧
    old_root (link_proof l) = tree_node leaf h 0 ∧
    MerkleProof.new_root (link_proof l) = tree_node leaf' h 0 ∧
    (level a = level b → partial_link_from_pair da db = Ok q ∧ link_from_pair da db = Ok l ∧
       partial_from_pair da db = Ok (p_nca_proof q)).
Proof.
  intros Ha Hb Ha64 Hb64 Hha Hhb Hab Hba Hag da db.
  destruct (nca_geometry a b Ha Hb Hab Hba) as (c & Hfind & Hc & HLa & HLb & Hia & Hib & Hne).
  assert (meet a b c) as Hm by (split_and!; try done; lia).
  destruct (partial_link_meet leaf leaf' h a b c) as (ca & cb & Hca & Hcb & Hpl); try done.
  destruct (to_full_proof_ok leaf leaf' h a b c ca cb) as [Hfull Hver]; try done.
  set (sibs := tree_siblings _ _ _) in Hpl. set (p := mkNca _ _ _ _ _ _ _ _) in Hfull, Hver.
  destruct (link_roots leaf leaf' h a b c p) as (Hvl & Hor & Hnr); try done. fold sibs in Hvl, Hor, Hnr.
  set (link := from_params (index c) _ _ sibs) in Hvl, Hor, Hnr.
  exists (mkPartialLink (mkPartialNca ca cb (level c)) sibs), (mkLink p link).
  assert (link_to_full_proof (mkPartialLink (mkPartialNca ca cb (level c)) sibs) = Ok (mkLink p link)) as Hltf.
  { unfold link_to_full_proof. cbn [p_nca_proof]. by rewrite Hfull. }
  split_and!; try done.
  - unfold link_verify. cbn [nca_proof link_proof]. rewrite Hver. cbn [outcome_bind].
    rewrite Hvl, !bool_decide_true by done. done.
  - rewrite Hfind. symmetry. f_equal. apply key_eta.
  - intros Hlev. assert (partial_link_from_pair da db = partial_link_from_pair_alt_height da db) as Heq.
    { apply partial_link_same_height; unfold da, db; simpl; [rewrite !length_tree_siblings; congruence|].
      intros E. apply Hab. replace a with b; [apply ancestor_refl|]. destruct a, b; simpl in *; congruence. }
    pose proof (eq_trans Heq Hpl) as Hpl'.
    split_and!; [done|unfold link_from_pair; by rewrite Hpl'|by apply partial_link_nca in Hpl'].
Qed.

Lemma nca_pair_complete_witness :
  let leaf' := MerkleProof.update (MerkleProof.update HLeaf 1 (HLeaf 11)) 6 (HLeaf 16) in
  ∃ q l, partial_link_from_pair_alt_height (delta_at HLeaf leaf' 3 (mkKey 3 1)) (delta_at HLeaf leaf' 3 (mkKey 2 3))
      = Ok q ∧
    link_to_full_proof q = Ok l ∧ link_verify l = Ok true ∧
    MerkleProof.new_root (link_proof l) = tree_node leaf' 3 0.
Proof.
  intros leaf'.
  destruct (nca_pair_complete HLeaf leaf' 3 (mkKey 3 1) (mkKey 2 3)) as (q & l & Hq & Hl & Hv & _ & _ & _ & Hn & _);
    try (unfold key_wf; simpl; lia).
  - intros [Hl _]. simpl in Hl. lia.
  - intros [_ Hi]. by vm_compute in Hi.
  - intros j Ha Hb. unfold leaf', MerkleProof.update. simpl in Ha, Hb. rewrite Z.div_1_r in Ha.
    change (2 ^ 1) with 2 in Hb. destruct (Z.eqb_spec j 6) as [->|]; [done|].
    by destruct (Z.eqb_spec j 1).
  - exists q, l. split_and!; [exact Hq|exact Hl|exact Hv|exact Hn].
Defined.

(** ** Soundness *)
Section sound.
Context `{EqDecision Hash, MerkleHasher Hash}.
Implicit Types (leaf : Z → Hash) (l : UpdateNCAWithAdditionalLink Hash) (a b c : SimpleMerkleNodeKey).

Definition nca_key (p : UpdateNearestCommonAncestorProof Hash) : SimpleMerkleNodeKey :=
  mkKey (nearest_common_ancestor_level p) (nearest_common_ancestor_index p).

(** What [link_verify] leaves to its callers: the children lie on different sides
    of the ancestor, and the link starts at the ancestor. *)
Definition placed l : Prop :=
  let p := nca_proof l in
  meet (get_a_node_key p) (get_b_node_key p) (nca_key p) ∧
  dmp_index (link_proof l) = nearest_common_ancestor_index p ∧
  Z.of_nat (length (dmp_siblings (link_proof l))) = nearest_common_ancestor_level p.

Definition child_collision leaf (h : nat) a (L : Z) (d : DeltaMerkleProofCore Hash) :=
  extract_collision 0 (index a) (old_value d) (dmp_siblings d) (tree_node leaf (below h a) (index a))
    (siblings_below leaf h a L).

(** Compare the proof with the tree from the root down. *)
Definition nca_collision leaf (h : nat) l : option ((Hash * Hash) * (Hash * Hash)) :=
  let p := nca_proof l in
  let a := get_a_node_key p in let b := get_b_node_key p in let c := nca_key p in
  let x := (h - Z.to_nat (level c))%nat in
  match extract_collision 0 (index c) (old_value (link_proof l)) (dmp_siblings (link_proof l))
          (tree_node leaf x (index c)) (tree_siblings (tree_node leaf x) (Z.to_nat (level c)) (index c)) with
  | Some e => Some e
  | None =>
      let ordered (u v : Hash) :=
        if index_at b (level c + 1) <? index_at a (level c + 1) then (v, u) else (u, v) in
      let pair := ordered (old_root (child_a p)) (old_root (child_b p)) in
      let pair' := ordered (tree_node leaf (x - 1) (index_at a (level c + 1)))
                           (tree_node leaf (x - 1) (index_at b (level c + 1))) in
      if decide (hash_pair pair = hash_pair pair' ∧ pair ≠ pair') then Some (pair, pair') else
      match child_collision leaf h a (level c) (child_a p) with
      | Some e => Some e
      | None => child_collision leaf h b (level c) (child_b p)
      end
  end.

Lemma child_sound leaf h a b L (d : DeltaMerkleProofCore Hash) :
  key_wf a → 0 ≤ L < level a → L < level b → level a < 64 → level a ≤ Z.of_nat h → level b ≤ Z.of_nat h →
  index_at a (L + 1) ≠ index_at b (L + 1) →
  verify_delta d = true → dmp_index d = index a → Z.of_nat (length (dmp_siblings d)) = level a - L - 1 →
  old_root d = tree_node leaf (h - Z.to_nat L - 1) (index_at a (L + 1)) →
  child_collision leaf h a L d = None →
  old_value d = tree_node leaf (below h a) (index a) ∧
  ∀ leaf', agree_outside leaf leaf' h a b → tree_node leaf' (below h a) (index a) = new_value d →
    MerkleProof.new_root d = tree_node leaf' (h - Z.to_nat L - 1) (index_at a (L + 1)).
Proof.
  intros Ha HL HLb H64 Hha Hhb Hne (Hlen & Hold & Hnew)%verify_delta_spec Hidx Hsz Hroot Hcol.
  rewrite Hidx in *. apply extract_collision_None in Hcol as [Hv Hs].
  - split; [done|]. intros leaf' Hag Hval. rewrite <- Hnew, Hs, <- Hval. by apply child_path with b.
  - unfold siblings_below. rewrite length_tree_siblings. lia.
  - change (compute_root_merkle_proof_generic (old_value d) (index a) (dmp_siblings d) =
      compute_root_merkle_proof_generic (tree_node leaf (below h a) (index a)) (index a) (siblings_below leaf h a L)).
    rewrite (child_path leaf leaf h a b) by (done || apply agree_refl). congruence.
Qed.

(** What a verifying proof establishes, for children that meet. *)
Lemma nca_verify_inv (p : UpdateNearestCommonAncestorProof Hash) :
  let a := get_a_node_key p in let b := get_b_node_key p in let c := nca_key p in
  meet a b c → nca_verify p = Ok true →
  verify_delta (child_a p) = true ∧ verify_delta (child_b p) = true ∧
  Z.of_nat (length (dmp_siblings (child_a p))) = level a - level c - 1 ∧
  Z.of_nat (length (dmp_siblings (child_b p))) = level b - level c - 1 ∧
  let right := index_at b (level c + 1) <? index_at a (level c + 1) in
  old_nearest_common_ancestor_value p = hash_ordered right (old_root (child_a p)) (old_root (child_b p)) ∧
  new_nearest_common_ancestor_value p =
    hash_ordered right (MerkleProof.new_root (child_a p)) (MerkleProof.new_root (child_b p)).
Proof.
  intros a b c Hm. pose proof (meet_right a b c Hm) as Hright. unfold nca_verify. fold a b.
  destruct (_ && (level_b p =? _)) eqn:Elev; [|done]. apply andb_prop in Elev as [Ela Elb]. zify_bool.
  cbn [negb]. destruct (_ || _); [done|]. destruct (_ && verify_delta (child_b p)) eqn:Ev; [|done].
  apply andb_prop in Ev as [[_ Eva]%andb_prop Evb]. cbn [negb]. rewrite Hright. cbn [unwrap outcome_bind].
  intros [= [Eo%bool_decide_eq_true En%bool_decide_eq_true]%andb_prop].
  destruct (is_solo_filler p) eqn:Esolo.
  - exfalso. apply andb_prop in Esolo as [_ Esolo%bool_decide_eq_true].
    assert (a = b) as Hab by (unfold a, b, get_a_node_key, get_b_node_key; rewrite Ela, Elb, Esolo; done).
    destruct Hm as (_ & _ & _ & _ & _ & _ & _ & Hne). apply Hne. by rewrite Hab.
  - unfold a, b, c, get_a_node_key, get_b_node_key, nca_key; cbn [level]. split_and!; (done || lia).
Qed.

Lemma link_verify_inv l :
  link_verify l = Ok true →
  nca_verify (nca_proof l) = Ok true ∧ verify_delta (link_proof l) = true ∧
  old_nearest_common_ancestor_value (nca_proof l) = old_value (link_proof l) ∧
  new_nearest_common_ancestor_value (nca_proof l) = new_value (link_proof l).
Proof.
  unfold link_verify. destruct (nca_verify _) as [[|]| | |]; try done. cbn [outcome_bind andb].
  intros [= [[? ?%bool_decide_eq_true]%andb_prop ?%bool_decide_eq_true]%andb_prop]. done.
Qed.


(** The path from the ancestor to the root. *)
Lemma link_path leaf leaf' h a b c :
  meet a b c → level a ≤ Z.of_nat h → level b ≤ Z.of_nat h → agree_outside leaf leaf' h a b →
  let x := (h - Z.to_nat (level c))%nat in
  compute_root_merkle_proof_generic (tree_node leaf' x (index c)) (index c)
    (tree_siblings (tree_node leaf x) (Z.to_nat (level c)) (index c)) = tree_node leaf' h 0.
Proof.
  intros Hm Hha Hhb Hag x.
  set (p := mkNca (tree_node leaf x (index c)) (tree_node leaf' x (index c))
    (delta_at leaf leaf' h a) (delta_at leaf leaf' h b) (level c) (index c) (level a) (level b)).
  by destruct (link_roots leaf leaf' h a b c p) as (_ & _ & Hn).
Qed.

Lemma nca_collision_Some leaf h l e :
  nca_collision leaf h l = Some e → e.1 ≠ e.2 ∧ hash_pair e.1 = hash_pair e.2.
Proof.
  destruct e as [x y]. unfold nca_collision.
  destruct (extract_collision _ _ _ _ _ _) as [[]|] eqn:E1.
  { intros [= <- <-]. by eapply extract_collision_Some. }
  destruct (decide _) as [[? ?]|]; [by intros [= <- <-]|].
  destruct (child_collision _ _ (get_a_node_key _) _ _) as [[]|] eqn:E2; [intros [= <- <-]|intros E3];
    by eapply extract_collision_Some.
Qed.

(** The children's roots are the nodes of the tree below the ancestor. *)
Lemma ordered_pair_inv (r : bool) (u v u' v' : Hash) :
  let ordered (u v : Hash) := if r then (v, u) else (u, v) in
  hash_ordered r u v = hash_ordered r u' v' →
  ¬ (hash_pair (ordered u v) = hash_pair (ordered u' v') ∧ ordered u v ≠ ordered u' v') → u = u' ∧ v = v'.
Proof.
  destruct r; simpl; intros Heq Hn.
  - destruct (decide ((v, u) = (v', u'))) as [[= -> ->]|]; [done|]. exfalso. by apply Hn.
  - destruct (decide ((u, v) = (u', v'))) as [[= -> ->]|]; [done|]. exfalso. by apply Hn.
Qed.

Lemma nca_sound_link leaf h l :
  link_verify l = Ok true → placed l → old_root (link_proof l) = tree_node leaf h 0 →
  let a := get_a_node_key (nca_proof l) in let b := get_b_node_key (nca_proof l) in
  level a ≤ Z.of_nat h → level b ≤ Z.of_nat h → nca_collision leaf h l = None →
  old_value (child_a (nca_proof l)) = tree_node leaf (below h a) (index a) ∧
  old_value (child_b (nca_proof l)) = tree_node leaf (below h b) (index b) ∧
  ∀ leaf', agree_outside leaf leaf' h a b →
    tree_node leaf' (below h a) (index a) = new_value (child_a (nca_proof l)) →
    tree_node leaf' (below h b) (index b) = new_value (child_b (nca_proof l)) →
    MerkleProof.new_root (link_proof l) = tree_node leaf' h 0.
Proof.
  intros (Hv & Hvl & Ho & Hn)%link_verify_inv (Hm & Hli & Hll) Hroot a b Hha Hhb Hcol.
  destruct (nca_verify_inv _ Hm Hv) as (Hva & Hvb & Hla & Hlb & Hold & Hnew).
  set (c := nca_key (nca_proof l)) in *. fold a b in Hm, Hla, Hlb, Hold, Hnew.
  apply verify_delta_spec in Hvl as (_ & Hlo & Hln).
  change (nearest_common_ancestor_index (nca_proof l)) with (index c) in Hli.
  change (nearest_common_ancestor_level (nca_proof l)) with (level c) in Hll. rewrite Hli in Hlo, Hln.
  unfold nca_collision in Hcol. fold a b c in Hcol.
  destruct (extract_collision 0 _ _ _ _ _) as [|] eqn:E1 in Hcol; [done|].
  apply extract_collision_None in E1 as [Hx Hs];
    [|rewrite length_tree_siblings; lia
     |pose proof (link_path leaf leaf h a b c Hm Hha Hhb (agree_refl leaf h a b)) as Hlp;
      exact (eq_trans Hlo (eq_trans Hroot (eq_sym Hlp)))].
  destruct (decide _) as [|Hnc] in Hcol; [done|]. cbn zeta in Hnc.
  pose proof Hm as (Hka & Hkb & [Hc0 _] & HLa & HLb & Hia & Hib & Hne).
  assert (∀ f, hash_ordered (index_at b (level c + 1) <? index_at a (level c + 1))
      (tree_node f (h - Z.to_nat (level c) - 1) (index_at a (level c + 1)))
      (tree_node f (h - Z.to_nat (level c) - 1) (index_at b (level c + 1))) =
    tree_node f (h - Z.to_nat (level c)) (index c)) as Hho.
  { intros f. rewrite (hash_ordered_children f _ a b c) by (done || lia). f_equal. lia. }
  apply ordered_pair_inv in Hnc as [Hra Hrb]; [|rewrite Hho; congruence].
  destruct (child_collision leaf h a _ _) eqn:E2 in Hcol; [done|].
  destruct (child_sound leaf h a b (level c) (child_a (nca_proof l))) as [Hoa Hna]; try (done || lia).
  destruct (child_sound leaf h b a (level c) (child_b (nca_proof l))) as [Hob Hnb]; try (done || lia).
  split_and!; [done..|]. intros leaf' Hag Hxa Hxb.
  rewrite <- Hln, Hs, <- Hn, Hnew, (Hna leaf'), (Hnb leaf'), Hho by (done || by apply agree_outside_sym).
  by apply (link_path leaf leaf' h a b c).
Qed.
End sound.

(** C25: soundness of merged updates. Let a proof with its link verify against the
    root of a tree, with its children on different sides of the ancestor and the
    link at the ancestor. Then either comparing the proof with the tree yields two
    different pairs with one hash, or the old values of both children are the nodes
    of the tree and the new root is the root of every tree that has the two new
    values in their place and is otherwise unchanged. *)
Theorem nca_sound `{EqDecision Hash, MerkleHasher Hash} (leaf : Z → Hash) (h : nat)
    (l : UpdateNCAWithAdditionalLink Hash) :
  let a := get_a_node_key (nca_proof l) in let b := get_b_node_key (nca_proof l) in
  link_verify l = Ok true → placed l → level a ≤ Z.of_nat h → level b ≤ Z.of_nat h →
  old_root (link_proof l) = tree_node leaf h 0 →
  match nca_collision leaf h l with
  | Some (x, y) => x ≠ y ∧ hash_pair x = hash_pair y
  | None =>
      old_value (child_a (nca_proof l)) = tree_node leaf (below h a) (index a) ∧
      old_value (child_b (nca_proof l)) = tree_node leaf (below h b) (index b) ∧
      ∀ leaf', agree_outside leaf leaf' h a b →
        tree_node leaf' (below h a) (index a) = new_value (child_a (nca_proof l)) →
        tree_node leaf' (below h b) (index b) = new_value (child_b (nca_proof l)) →
        MerkleProof.new_root (link_proof l) = tree_node leaf' h 0
  end.
Proof.
  intros a b Hv Hp Hha Hhb Hr. destruct (nca_collision leaf h l) as [[x y]|] eqn:E.
  - by apply nca_collision_Some in E.
  - by apply nca_sound_link.
Qed.

(** Leaves 1 and 2 of a tree of height 2 over the free hash are replaced. *)
Definition merged_example : outcome (UpdateNCAWithAdditionalLink term_hash) :=
  let leaf' := MerkleProof.update (MerkleProof.update HLeaf 1 (HLeaf 11)) 2 (HLeaf 12) in
  link_from_pair (delta_at HLeaf leaf' 2 (mkKey 2 1)) (delta_at HLeaf leaf' 2 (mkKey 2 2)).

Lemma nca_sound_witness :
  ∃ l, merged_example = Ok l ∧ nca_collision HLeaf 2 l = None ∧
    old_value (child_a (nca_proof l)) = HLeaf 1 ∧
    MerkleProof.new_root (link_proof l) =
      tree_node (MerkleProof.update (MerkleProof.update HLeaf 1 (HLeaf 11)) 2 (HLeaf 12)) 2 0.
Proof.
  destruct merged_example as [l| | |] eqn:E; [|by vm_compute in E..].
  assert (nca_collision HLeaf 2 l = None) as Hc by (vm_compute in E; injection E as <-; by vm_compute).
  assert (match nca_collision HLeaf 2 l with Some (x, y) => x ≠ y ∧ hash_pair x = hash_pair y
    | None => old_value (child_a (nca_proof l)) = HLeaf 1 ∧ MerkleProof.new_root (link_proof l) =
      tree_node (MerkleProof.update (MerkleProof.update HLeaf 1 (HLeaf 11)) 2 (HLeaf 12)) 2 0 end) as Hs.
  { pose proof (nca_sound HLeaf 2 l) as Hsound. rewrite Hc in *.
    vm_compute in E; injection E as <-. destruct Hsound as (Ho & _ & Hn).
    - by vm_compute.
    - unfold placed, meet, key_wf, index_at. simpl. repeat split; (lia || by vm_compute).
    - simpl. lia.
    - simpl. lia.
    - by vm_compute.
    - split; [exact Ho|]. apply Hn; [|by vm_compute..].
      intros j. unfold below, MerkleProof.update. simpl. rewrite !Z.div_1_r. intros Ha Hb.
      destruct (Z.eqb_spec j 2); [done|]. by destruct (Z.eqb_spec j 1). }
  rewrite Hc in Hs. exists l. split_and!; [done|done|by destruct Hs..].
Defined.

(** ** What the verifiers accept besides *)
Section accepted.
Context `{EqDecision Hash, MerkleHasher Hash}.
Implicit Types z x y : Hash.

(** In the tree with [z] at every leaf: both children are below the left half. *)
Definition same_side z x y : UpdateNCAWithAdditionalLink Hash :=
  let a := from_params 0 z x [z] in let b := from_params 1 z y [z] in
  let p := mkNca (two_to_one (old_root a) (old_root b))
    (two_to_one (MerkleProof.new_root a) (MerkleProof.new_root b)) a b 0 0 2 2 in
  mkLink p (from_params 0 (old_nearest_common_ancestor_value p) (new_nearest_common_ancestor_value p) []).

(** The children meet in the left node of level 1, the link starts at the right one. *)
Definition other_link z x y : UpdateNCAWithAdditionalLink Hash :=
  let a := from_params 0 z x [] in let b := from_params 1 z y [] in
  let p := mkNca (two_to_one z z) (two_to_one x y) a b 1 0 2 2 in
  mkLink p (from_params 1 (two_to_one z z) (two_to_one x y) [two_to_one z z]).
End accepted.

(** The verifiers do not check the positions. A proof for the leaves 0 and 1 with
    the root as their ancestor verifies and leads to the tree with the second
    value at leaf 3; a proof for the leaves 0 and 1 with a link from another node
    verifies and leads to the tree with the values at the leaves 2 and 3. *)
Theorem nca_positions_unchecked `{EqDecision Hash, MerkleHasher Hash} (z x y : Hash) :
  let t := λ _ : Z, z in
  let keys (l : UpdateNCAWithAdditionalLink Hash) :=
    (get_a_node_key (nca_proof l), get_b_node_key (nca_proof l)) in
  let l := same_side z x y in let m := other_link z x y in
  keys l = (mkKey 2 0, mkKey 2 1) ∧ keys m = keys l ∧
  link_verify l = Ok true ∧ link_verify m = Ok true ∧
  old_root (link_proof l) = tree_node t 2 0 ∧ old_root (link_proof m) = tree_node t 2 0 ∧
  MerkleProof.new_root (link_proof l) =
    tree_node (MerkleProof.update (MerkleProof.update t 0 x) 3 y) 2 0 ∧
  MerkleProof.new_root (link_proof m) =
    tree_node (MerkleProof.update (MerkleProof.update t 2 x) 3 y) 2 0.
Proof.
  intros t keys l m. split_and!; try reflexivity.
  - unfold link_verify. simpl. unfold nca_verify, is_solo_filler. simpl.
    rewrite (bool_decide_false (from_params _ _ _ _ = _)) by (unfold from_params; simpl; congruence).
    rewrite andb_false_r. simpl. rewrite !from_params_verifies by (simpl; lia). simpl.
    by rewrite !bool_decide_true.
  - unfold link_verify. simpl. unfold nca_verify, is_solo_filler. simpl.
    rewrite (bool_decide_false (from_params _ _ _ _ = _)) by (unfold from_params; simpl; congruence).
    rewrite andb_false_r. simpl. rewrite !from_params_verifies by (simpl; lia). simpl.
    by rewrite !bool_decide_true.
Qed.

(** [validate] accepts exactly what [verify] accepts. *)
Theorem nca_validate_verify `{EqDecision Hash, MerkleHasher Hash}
    (p : UpdateNearestCommonAncestorProof Hash) :
  nca_validate p = Ok tt ↔ nca_verify p = Ok true.
Proof.
  unfold nca_validate, nca_verify. set (m := if is_solo_filler p then 0 else 1).
  assert (0 ≤ m) by (unfold m; by destruct (is_solo_filler p)).
  destruct (level_a p =? _) eqn:Ea; [|done]. destruct (level_b p =? _) eqn:Eb; [|done]. zify_bool.
  cbn [assert_ outcome_bind andb negb]. rewrite !(proj2 (Z.leb_le (nearest_common_ancestor_level p) _)) by lia.
  cbn [assert_ outcome_bind]. rewrite !Z.leb_antisym.
  destruct (_ <? 64); [|done]. destruct (_ <? 64); [|done].
  cbn [negb orb assert_ outcome_bind].
  destruct (_ =? _); [|done]. destruct (_ =? _); [|done]. destruct (verify_delta _); [|done].
  destruct (verify_delta _); [|done]. cbn [negb andb assert_ outcome_bind].
  destruct (is_on_the_right_of _ _); [|done]. cbn [unwrap outcome_bind].
  destruct (bool_decide _); [|done]. by destruct (bool_decide _).
Qed.

(** ** Dependency levels are a schedule *)
Definition depends (deps : list (Z * Z)) (x y : nat) : Prop :=
  ∃ l r, deps !! x = Some (l, r) ∧ (l = Z.of_nat y ∨ r = Z.of_nat y).

(** [solved] holds the elements of [done_]. *)
Definition solved_is (solved : gset Z) (done_ : list nat) : Prop :=
  ∀ d, d ∈ solved ↔ ∃ y, y ∈ done_ ∧ d = Z.of_nat y.

Definition ready (deps : list (Z * Z)) (solved : gset Z) (x : nat) : bool :=
  match deps !! x with Some (l, r) => dep_solved solved l && dep_solved solved r | None => false end.

(** Every element of a level depends on earlier levels only, and on the level
    just before. *)
Definition level_sound (deps : list (Z * Z)) (levels : list (list nat)) : Prop :=
  ∀ k level x, levels !! k = Some level → x ∈ level →
    (∀ y, depends deps x y → y ∈ concat (take k levels)) ∧
    (∀ k', k = S k' → ∃ y, depends deps x y ∧ y ∉ concat (take k' levels)).

Definition schedule (deps : list (Z * Z)) (n : nat) (levels : list (list nat)) : Prop :=
  concat levels ≡ₚ seq 0 n ∧ Forall (λ level, level ≠ []) levels ∧ level_sound deps levels.

(** Values that wait for each other. *)
Definition stuck (deps : list (Z * Z)) (n : nat) (s : list nat) : Prop :=
  s ≠ [] ∧ ∀ x, x ∈ s → (x < n)%nat ∧ ∃ y, y ∈ s ∧ depends deps x y.

Section levels.
Variable deps : list (Z * Z).
Implicit Types (levels : list (list nat)) (remaining : list nat).

Lemma dep_solved_spec solved done_ d :
  solved_is solved done_ → dep_solved solved d = true ↔ ∀ y, d = Z.of_nat y → y ∈ done_.
Proof.
  intros Hs. unfold dep_solved. rewrite orb_true_iff, bool_decide_eq_true, Z.leb_le. split.
  - intros [Hd|(y' & Hy & ->)%Hs] y Hy'; [lia|]. by replace y with y' by lia.
  - intros Hd. destruct (decide (d ≤ -1)) as [|Hn]; [by left|right].
    apply Hs. exists (Z.to_nat d). rewrite Z2Nat.id by lia. split; [apply Hd; lia|done].
Qed.

Lemma ready_spec solved done_ x :
  (x < length deps)%nat → solved_is solved done_ →
  ready deps solved x = true ↔ ∀ y, depends deps x y → y ∈ done_.
Proof.
  intros Hx Hs. unfold ready, depends. destruct (lookup_lt_is_Some_2 deps x Hx) as [[l r] ->].
  rewrite andb_true_iff, !(dep_solved_spec solved done_) by done. split.
  - intros [Hl Hr] y (l' & r' & [= <- <-] & [E|E]); auto.
  - intros Hy. split; intros y E; apply Hy; exists l, r; auto.
Qed.

Lemma filter_Permutation_split {A} (P : A → Prop) `{!∀ x, Decision (P x)} (l : list A) :
  l ≡ₚ filter P l ++ filter (λ x, ¬ P x) l.
Proof.
  induction l as [|x l IH]; [done|]. rewrite !filter_cons.
  destruct (decide (P x)), (decide (¬ P x)); try done; simpl.
  - by rewrite IH at 1.
  - rewrite <- Permutation_middle. by rewrite IH at 1.
Qed.

Lemma not_ready_spec solved done_ x :
  (x < length deps)%nat → solved_is solved done_ → ¬ ready deps solved x = true →
  ∃ y, depends deps x y ∧ y ∉ done_.
Proof.
  intros Hx Hs. unfold ready, depends. destruct (lookup_lt_is_Some_2 deps x Hx) as [[l r] ->].
  assert (∀ d, dep_solved solved d = false → ∃ y, d = Z.of_nat y ∧ y ∉ done_) as Hd.
  { intros d [Hd%Z.leb_gt Hn%bool_decide_eq_false]%orb_false_iff. exists (Z.to_nat d).
    rewrite Z2Nat.id by lia. split; [done|]. intros Hy. apply Hn, Hs. exists (Z.to_nat d). split; [done|lia]. }
  destruct (dep_solved solved l) eqn:El; [destruct (dep_solved solved r) eqn:Er; [done|]|]; intros _.
  - destruct (Hd r Er) as (y & -> & Hy). eauto 10.
  - destruct (Hd l El) as (y & -> & Hy). eauto 10.
Qed.

Lemma level_pass_filter solved remaining :
  Forall (λ x, (x < length deps)%nat) remaining →
  level_pass deps solved remaining =
  Ok (filter (λ x, ready deps solved x = true) remaining, filter (λ x, ¬ ready deps solved x = true) remaining).
Proof.
  induction 1 as [|x xs Hx _ IH]; [done|]. cbn [level_pass].
  destruct (lookup_lt_is_Some_2 deps x Hx) as [[l r] Hlr]. rewrite Hlr. cbn [unwrap outcome_bind].
  assert (dep_solved solved l && dep_solved solved r = ready deps solved x) as -> by (unfold ready; by rewrite Hlr).
  rewrite IH, !filter_cons. cbn [outcome_bind].
  by destruct (ready deps solved x).
Qed.

Lemma solved_is_extend solved done_ level :
  solved_is solved done_ →
  solved_is (foldl (λ s i, {[Z.of_nat i]} ∪ s) solved level) (done_ ++ level).
Proof.
  revert solved done_. induction level as [|i level IH]; intros solved done_ Hs; [by rewrite app_nil_r|].
  simpl. rewrite cons_middle, assoc by apply _. apply IH. intros d.
  rewrite elem_of_union, elem_of_singleton, (Hs d). setoid_rewrite elem_of_app.
  setoid_rewrite list_elem_of_singleton.
  split; [intros [ ->|(y & Hy & ->)]|intros (y & [Hy| ->] & ->)]; eauto.
Qed.

(** The state of the loop after some levels. *)
Definition levels_inv (n : nat) solved remaining levels : Prop :=
  remaining ++ concat levels ≡ₚ seq 0 n ∧ solved_is solved (concat levels) ∧
  Forall (λ level, level ≠ []) levels ∧ level_sound deps levels ∧
  ∀ x k, x ∈ remaining → length levels = S k → ∃ y, depends deps x y ∧ y ∉ concat (take k levels).

Lemma level_sound_snoc levels level :
  level_sound deps levels →
  (∀ x, x ∈ level → (∀ y, depends deps x y → y ∈ concat levels) ∧
     ∀ k, length levels = S k → ∃ y, depends deps x y ∧ y ∉ concat (take k levels)) →
  level_sound deps (levels ++ [level]).
Proof.
  intros Hs Hl k lv x [Hk|[-> Hk]]%lookup_snoc_Some Hx.
  - destruct Hk as [Hlt Hk]. destruct (Hs k lv x Hk Hx) as [H1 H2]. split.
    + intros y Hy%H1. by rewrite take_app_le by lia.
    + intros k' ->. rewrite take_app_le by lia. by apply H2.
  - subst lv. destruct (Hl x Hx) as [H1 H2]. split.
    + intros y Hy%H1. by rewrite take_app_le, take_ge by lia.
    + intros k' Hk'. rewrite take_app_le by lia. by apply H2.
Qed.

Lemma levels_inv_step n solved remaining levels :
  n = length deps → levels_inv n solved remaining levels →
  let level := filter (λ x, ready deps solved x = true) remaining in
  level ≠ [] →
  levels_inv n (foldl (λ s i, {[Z.of_nat i]} ∪ s) solved level)
    (filter (λ x, ¬ ready deps solved x = true) remaining) (levels ++ [level]).
Proof.
  intros Hn (Hperm & Hsol & Hne & Hsound & Hrem) level Hlevel.
  assert (∀ x, x ∈ remaining → (x < length deps)%nat) as Hlt.
  { intros x Hx. assert (x ∈ seq 0 n) as Hx'%elem_of_seq; [|lia].
    rewrite <- Hperm. by apply elem_of_app; left. }
  split_and!.
  - rewrite concat_app. simpl. rewrite app_nil_r, (Permutation_app_comm (concat levels)), app_assoc, <- Hperm.
    f_equiv. rewrite Permutation_app_comm. symmetry. apply filter_Permutation_split.
  - rewrite concat_app. simpl. rewrite app_nil_r. by apply solved_is_extend.
  - apply Forall_app. by split; [|constructor].
  - apply level_sound_snoc; [done|]. intros x [Hr Hx]%list_elem_of_filter. split; [|by intros; apply Hrem].
    intros y. by apply (ready_spec solved (concat levels) x (Hlt x Hx) Hsol).
  - intros x k [Hr Hx]%list_elem_of_filter. rewrite length_app. intros Hk. simpl in Hk.
    rewrite take_app_le, take_ge by lia.
    by apply (not_ready_spec solved (concat levels)); [apply Hlt|..].
Qed.

Lemma levels_inv_length n solved remaining levels :
  levels_inv n solved remaining levels → (length remaining + length (concat levels) = n)%nat.
Proof. intros (Hp & _). rewrite <- length_app, Hp. apply length_seq. Qed.

(** Values below [n] that are not scheduled remain. *)
Lemma levels_inv_remaining n solved remaining levels y :
  levels_inv n solved remaining levels → (y < n)%nat → y ∉ concat levels → y ∈ remaining.
Proof.
  intros (Hp & _) Hy Hn. assert (y ∈ seq 0 n) as Hin by (apply elem_of_seq; lia).
  rewrite <- Hp in Hin. apply elem_of_app in Hin as [|]; done.
Qed.

Lemma levels_loop_spec n fuel solved remaining levels :
  n = length deps → (∀ x y, depends deps x y → (y < n)%nat) → (length remaining ≤ fuel)%nat →
  levels_inv n solved remaining levels →
  match levels_loop fuel deps n (length (concat levels)) solved remaining levels with
  | Ok levels => schedule deps n levels
  | Err _ => ∃ s, stuck deps n s
  | _ => False
  end.
Proof.
  intros Hn Hrange. revert solved remaining levels.
  induction fuel as [|fuel IH]; intros solved remaining levels Hf Hinv;
    pose proof (levels_inv_length _ _ _ _ Hinv) as Hlen; cbn [levels_loop];
    destruct (Nat.ltb_spec (length (concat levels)) n) as [Hlt|Hge]; try lia.
  1,3: destruct Hinv as (Hp & _ & Hne & Hs & _); destruct remaining; [done|simpl in Hlen; lia].
  assert (∀ x, x ∈ remaining → (x < n)%nat) as Hrem.
  { intros x Hx. destruct Hinv as (Hp & _). assert (x ∈ seq 0 n) as Hx'%elem_of_seq; [|lia].
    rewrite <- Hp. by apply elem_of_app; left. }
  rewrite level_pass_filter by (apply Forall_forall; subst n; apply Hrem). cbn [outcome_bind].
  set (level := filter _ remaining). destruct (bool_decide (level = [])) eqn:El.
  - apply bool_decide_eq_true in El. exists remaining. split; [destruct remaining; [simpl in Hlen; lia|done]|].
    intros x Hx. split; [by apply Hrem|]. pose proof Hinv as (_ & Hsol & _).
    destruct (not_ready_spec solved (concat levels) x) as (y & Hy & Hny);
      [subst n; by apply Hrem|done| |exists y; split; [by eapply levels_inv_remaining; eauto|done]].
    intros Hr. assert (x ∈ level) as Hin by (by apply list_elem_of_filter). rewrite El in Hin. set_solver.
  - apply bool_decide_eq_false in El. pose proof (levels_inv_step n solved remaining levels Hn Hinv El) as Hinv'.
    replace (length (concat levels) + length level)%nat with (length (concat (levels ++ [level])))
      by (rewrite concat_app, length_app; simpl; by rewrite app_nil_r).
    apply IH; [|done]. pose proof (levels_inv_length _ _ _ _ Hinv') as Hlen'.
    rewrite concat_app, length_app in Hlen'. simpl in Hlen'. rewrite app_nil_r in Hlen'. fold level in Hlen'.
    assert (length level ≠ 0%nat) by (by intros ?%length_zero_iff_nil). lia.
Qed.

(** A schedule leaves nothing stuck. *)
Lemma schedule_not_stuck n levels s : schedule deps n levels → ¬ stuck deps n s.
Proof.
  intros (Hp & _ & Hs) [Hne Hst].
  assert (∀ k x, x ∈ s → x ∉ concat (take k levels)) as Hk.
  { induction k as [|k IH]; intros x Hx Hin; [by apply elem_of_nil in Hin|].
    destruct (levels !! k) as [level|] eqn:El.
    - rewrite (take_S_r _ _ level El), concat_app in Hin. simpl in Hin. rewrite app_nil_r in Hin.
      apply elem_of_app in Hin as [Hin|Hin]; [by apply (IH x)|].
      destruct (Hst x Hx) as (_ & y & Hy & Hd). destruct (Hs k level x El Hin) as [Hall _].
      by apply (IH y Hy), Hall.
    - apply (IH x Hx). rewrite take_ge in Hin |- * by (apply lookup_ge_None in El; lia). done. }
  destruct s as [|x s]; [done|]. destruct (Hst x) as [Hx _]; [by left|].
  apply (Hk (length levels) x); [by left|]. rewrite take_ge by done. rewrite Hp. apply elem_of_seq. lia.
Qed.
End levels.

(** The dependency levels of a set of proofs are a schedule. The function
    always returns; it returns levels exactly when the dependency list has the
    right shape and no set of proofs waits for itself, and the levels hold every
    proof once, none of them is empty, and each proof comes after everything it
    depends on and as early as possible. *)
Theorem get_index_levels_correct {Hash} (self : UpdateNCAProofsWithDependencies Hash) :
  let n := length (nca_proofs self) in let deps := dependencies self in
  match get_index_levels self with
  | Ok levels => length deps = n ∧ schedule deps n levels ∧ ∀ s, ¬ stuck deps n s
  | Err _ => length deps ≠ n ∨ (∃ x l r, deps !! x = Some (l, r) ∧ (Z.of_nat n ≤ l ∨ Z.of_nat n ≤ r)) ∨
             ∃ s, stuck deps n s
  | _ => False
  end.
Proof.
  intros n deps. unfold get_index_levels. fold n deps.
  destruct (Nat.eqb_spec (length deps) n) as [Hlen|]; [|by left]. cbn [negb].
  destruct (forallb _ deps) eqn:Ef; cbn [negb].
  - rewrite forallb_forall in Ef.
    assert (∀ x y, depends deps x y → (y < n)%nat) as Hrange.
    { intros x y (l & r & Hx & Hy). apply list_elem_of_lookup_2, list_elem_of_In, Ef in Hx. lia. }
    assert (levels_inv deps n ∅ (seq 0 n) []) as Hinv.
    { split_and!; [by rewrite app_nil_r| |done|intros k level x E; by rewrite lookup_nil in E|done].
      intros d. split; [intros []%elem_of_empty|intros (y & []%elem_of_nil & _)]. }
    pose proof (levels_loop_spec deps n n ∅ (seq 0 n) [] (eq_sym Hlen) Hrange) as Hl.
    specialize (Hl ltac:(by rewrite length_seq) Hinv). cbn [concat length] in Hl.
    destruct (levels_loop _ _ _ _ _ _ _); try done; [|by right; right].
    split_and!; [done..|]. intros s. by eapply schedule_not_stuck.
  - right; left. apply not_true_iff_false in Ef. rewrite forallb_forall in Ef.
    destruct (decide (Exists (λ p, Z.of_nat n ≤ p.1 ∨ Z.of_nat n ≤ p.2) deps)) as [He|He].
    + apply Exists_exists in He as ([l r] & [x Hx]%list_elem_of_lookup & Hlr). by exists x, l, r.
    + exfalso. apply Ef. intros [l r] Hin%list_elem_of_In. apply not_Exists_Forall in He; [|apply _].
      rewrite Forall_forall in He. specialize (He _ Hin). simpl in He.
      apply andb_true_intro. split; apply Z.ltb_lt; lia.
Qed.
