(* ===== verification/Layout.v ===== *)
(** * Contract state layouts

    [psy_data/src/v1/qdata/contract/layout.rs], first part: the commitments to the
    types of the fields of a contract's state, the bounded directed acyclic graphs
    that describe such types, and the layout of the state as a sequence of fields
    in slots, committed by a Merkle tree. Field elements and the hash are
    parameters; heights of trees are at most 63. *)
From stdpp Require Import prelude list strings.
From Stdlib Require Import ZArith Lia.
From S2P Require Import Prelude MerkleHash FieldHash Spiderman.

(** ** Constants *)
Definition STATE_LAYOUT_VERSION : Z := 1.
Definition STATE_LAYOUT_ENCODING_VERSION : Z := 1.
Definition STATE_FIELD_LAYOUT_DOMAIN : Z := 0x5354464c5631.
Definition STRUCT_MEMBER_LAYOUT_DOMAIN : Z := 0x53544d4c5631.
Definition STRUCT_TYPE_LAYOUT_DOMAIN : Z := 0x535454595631.
Definition PRIMITIVE_TYPE_LAYOUT_DOMAIN : Z := 0x505254595631.
Definition FIXED_ARRAY_TYPE_LAYOUT_DOMAIN : Z := 0x415254595631.
Definition FIXED_MAP_TYPE_LAYOUT_DOMAIN : Z := 0x4d5054595631.
Definition CANONICAL_TYPE_LAYOUT_MAX_NODES : nat := 16.
Definition CANONICAL_TYPE_LAYOUT_MAX_STRUCT_MEMBERS : nat := 32.
Definition MAX_ARGUMENT : Z := 2 ^ 31 - 1.
Definition MAX_ARRAY_LENGTH : Z := 2 ^ 32.
Definition MAX_SLOT_COUNT : Z := 2 ^ 34.

(** ** Data *)
Inductive StatePrimitiveTypeTag : Type := TFelt | TBool | TU32 | TU64 | TU128 | THash | TBytes32.

Definition type_tag_u16 (t : StatePrimitiveTypeTag) : Z :=
  match t with TFelt => 1 | TBool => 2 | TU32 => 3 | TU64 => 4 | TU128 => 5 | THash => 6 | TBytes32 => 7 end.

Inductive StateMapKind : Type := ContractHashMap | Map_ | NamespacedMap.

Definition map_kind_u16 (k : StateMapKind) : Z :=
  match k with ContractHashMap => 1 | Map_ => 2 | NamespacedMap => 3 end.

#[global] Instance type_tag_eq_dec : EqDecision StatePrimitiveTypeTag.
Proof. solve_decision. Defined.
#[global] Instance map_kind_eq_dec : EqDecision StateMapKind.
Proof. solve_decision. Defined.

Record StateTypeLayoutSummary (Hash : Type) : Type := mkSummary {
  type_layout_hash : Hash;
  total_slot_count : Z;
}.
Arguments mkSummary {Hash}.
Arguments type_layout_hash {Hash}.
Arguments total_slot_count {Hash}.

Inductive StateTypeLayoutWitness (Hash : Type) : Type :=
  | WPrimitive (type_tag : StatePrimitiveTypeTag)
  | WFixedArray (element_type_hash : Hash) (element_slot_count array_length : Z)
  | WStruct (member_count struct_slot_count : Z) (members_root : Hash)
  | WFixedMap (map_kind : StateMapKind) (key_type_hash : Hash) (key_slot_count : Z)
      (value_type_hash : Hash) (value_slot_count capacity alignment_slots : Z).
Arguments WPrimitive {Hash}.
Arguments WFixedArray {Hash}.
Arguments WStruct {Hash}.
Arguments WFixedMap {Hash}.

Inductive CanonicalTypeLayoutNode : Type :=
  | NPrimitive (type_tag : StatePrimitiveTypeTag)
  | NFixedArray (element : nat) (length_ : Z)
  | NFixedMap (map_kind : StateMapKind) (key value : nat) (capacity alignment_slots : Z)
  | NStruct (members : list nat) (members_tree_height : nat).

#[global] Instance layout_node_eq_dec : EqDecision CanonicalTypeLayoutNode.
Proof. solve_decision. Defined.

Record CanonicalTypeLayoutDag : Type := mkDag {
  nodes : list CanonicalTypeLayoutNode;
  root : nat;
}.

Record StateFieldLayoutLeaf (Hash : Type) : Type := mkField {
  field_id : Z;
  start_slot : Z;
  payload_offset : Z;
  slot_count : Z;
  field_type_hash : Hash;
  field_encoding_version : Z;
}.
Arguments mkField {Hash}.
Arguments field_id {Hash}.
Arguments start_slot {Hash}.
Arguments payload_offset {Hash}.
Arguments slot_count {Hash}.
Arguments field_type_hash {Hash}.
Arguments field_encoding_version {Hash}.

Record StructMemberLayout (Hash : Type) : Type := mkMember {
  member_id : Z;
  slot_offset : Z;
  member_slot_count : Z;
  member_type_hash : Hash;
  member_encoding_version : Z;
}.
Arguments mkMember {Hash}.
Arguments member_id {Hash}.
Arguments slot_offset {Hash}.
Arguments member_slot_count {Hash}.
Arguments member_type_hash {Hash}.
Arguments member_encoding_version {Hash}.

Record StructTypeLayout (Hash : Type) : Type := mkStructLayout {
  members : list (StructMemberLayout Hash);
  members_root : Hash;
  summary : StateTypeLayoutSummary Hash;
}.
Arguments mkStructLayout {Hash}.
Arguments members {Hash}.
Arguments members_root {Hash}.
Arguments summary {Hash}.

Record ContractStateLayout (Hash : Type) : Type := mkContractLayout {
  fields : list (StateFieldLayoutLeaf Hash);
  state_layout_root : Hash;
  state_layout_field_count : Z;
  state_layout_slot_count : Z;
}.
Arguments mkContractLayout {Hash}.
Arguments fields {Hash}.
Arguments state_layout_root {Hash}.
Arguments state_layout_field_count {Hash}.
Arguments state_layout_slot_count {Hash}.

#[global] Instance state_field_eq_dec `{EqDecision Hash} : EqDecision (StateFieldLayoutLeaf Hash).
Proof. solve_decision. Defined.
#[global] Instance summary_eq_dec `{EqDecision Hash} : EqDecision (StateTypeLayoutSummary Hash).
Proof. solve_decision. Defined.

(** ** Operations *)
Definition canonical_primitive_slot_width (type_tag : StatePrimitiveTypeTag) : Z :=
  match type_tag with
  | TFelt | TBool | TU32 | TU64 => 1
  | TU128 => 2
  | THash | TBytes32 => 4
  end.

(** [1usize.checked_shl(height)] *)
Definition checked_capacity (tree_height : nat) : outcome Z :=
  ok_or (checked_shl 64 1 (Z.of_nat tree_height)) "layout tree height exceeds usize capacity".

Section layout.
Context {F : Type} `{EqDecision Hash, MerkleHasher Hash, FieldHash F Hash}.
Implicit Types (s : StateTypeLayoutSummary Hash).

Definition is_default (h : Hash) : bool := bool_decide (h = hash_default).

Definition felts_of (h : Hash) : list F := let '(f0, f1, f2, f3) := to_4_felts h in [f0; f1; f2; f3].

(** The root of the tree of the given height over the leaves, padded with the
    default hash. [vec![Hash::default(); capacity]] panics with a capacity overflow
    when its hashes, of 32 bytes each, take more than [isize::MAX] bytes. *)
Definition padded_merkle_root (occupied_leaves : list Hash) (tree_height : nat) : outcome Hash :=
  let* capacity := checked_capacity tree_height in
  let* _ := ensure (Z.of_nat (length occupied_leaves) <=? capacity) "occupied leaves exceed tree capacity" in
  let* _ := assert_ (capacity * 32 <=? 2 ^ 63 - 1) in
  let leaves := occupied_leaves ++ replicate (Z.to_nat capacity - length occupied_leaves) hash_default in
  compute_root_from_leaves leaves.

(** *** Type layouts *)
Definition primitive_type_layout (type_tag : StatePrimitiveTypeTag) (canonical_slot_width : Z)
    : outcome (StateTypeLayoutSummary Hash) :=
  let expected_slot_width := canonical_primitive_slot_width type_tag in
  let* _ := ensure (canonical_slot_width =? expected_slot_width) "primitive slot width" in
  let type_layout_hash := q_hash_many
    [from_u64_value PRIMITIVE_TYPE_LAYOUT_DOMAIN; from_u64_value (type_tag_u16 type_tag);
     from_u64_value STATE_LAYOUT_ENCODING_VERSION] in
  let* _ := ensure (negb (is_default type_layout_hash)) "primitive type hashes to zero" in
  Ok (mkSummary type_layout_hash canonical_slot_width).

Definition fixed_array_type_layout (element : StateTypeLayoutSummary Hash) (array_length : Z)
    : outcome (StateTypeLayoutSummary Hash) :=
  let* _ := ensure (0 <? array_length) "fixed array length must be non-zero" in
  let* _ := ensure (0 <? total_slot_count element) "fixed array element must occupy slots" in
  let* total := ok_or (checked_mul 64 array_length (total_slot_count element)) "fixed array slot count overflow" in
  let type_layout_hash := q_hash_many
    ([from_u64_value FIXED_ARRAY_TYPE_LAYOUT_DOMAIN] ++ felts_of (type_layout_hash element) ++
     [from_u64_value array_length; from_u64_value (total_slot_count element); from_u64_value total;
      from_u64_value STATE_LAYOUT_ENCODING_VERSION]) in
  let* _ := ensure (negb (is_default type_layout_hash)) "fixed array type hashes to zero" in
  Ok (mkSummary type_layout_hash total).

Definition fixed_map_type_layout (map_kind : StateMapKind) (key value : StateTypeLayoutSummary Hash)
    (capacity alignment_slots : Z) : outcome (StateTypeLayoutSummary Hash) :=
  let* _ := ensure (0 <? capacity) "fixed map capacity must be non-zero" in
  let* _ := ensure ((0 <? alignment_slots) && is_power_of_two alignment_slots)
    "fixed map alignment must be a non-zero power of two" in
  let* total := ok_or (checked_mul 64 capacity (total_slot_count value)) "fixed map slot count overflow" in
  let type_layout_hash := q_hash_many
    ([from_u64_value FIXED_MAP_TYPE_LAYOUT_DOMAIN; from_u64_value (map_kind_u16 map_kind)] ++
     felts_of (type_layout_hash key) ++ [from_u64_value (total_slot_count key)] ++
     felts_of (type_layout_hash value) ++
     [from_u64_value (total_slot_count value); from_u64_value capacity; from_u64_value alignment_slots;
      from_u64_value total; from_u64_value STATE_LAYOUT_ENCODING_VERSION]) in
  let* _ := ensure (negb (is_default type_layout_hash)) "fixed map type hashes to zero" in
  Ok (mkSummary type_layout_hash total).

(** *** Members and fields *)

(** [StructMemberLayout::new] *)
Definition member_new (member_index : nat) (slot_offset : Z) (type_layout : StateTypeLayoutSummary Hash)
    : outcome (StructMemberLayout Hash) :=
  let* _ := ensure (0 <? total_slot_count type_layout) "struct member must occupy at least one slot" in
  let* member_id := ok_or (checked_add 64 (Z.of_nat member_index) 1) "struct member id overflow" in
  Ok (mkMember member_id slot_offset (total_slot_count type_layout) (type_layout_hash type_layout)
        STATE_LAYOUT_ENCODING_VERSION).

(** [StructMemberLayout::hash] *)
Definition member_hash (self : StructMemberLayout Hash) : outcome Hash :=
  let* _ := ensure (0 <? member_id self) "struct member id must be non-zero" in
  let* _ := ensure (0 <? member_slot_count self) "struct member slot count must be non-zero" in
  let* _ := ensure (member_encoding_version self =? STATE_LAYOUT_ENCODING_VERSION)
    "unsupported struct member encoding version" in
  let hash := q_hash_many
    ([from_u64_value STRUCT_MEMBER_LAYOUT_DOMAIN; from_u64_value (member_id self);
      from_u64_value (slot_offset self); from_u64_value (member_slot_count self)] ++
     felts_of (member_type_hash self) ++ [from_u64_value (member_encoding_version self)]) in
  let* _ := ensure (negb (is_default hash)) "occupied struct member leaf hashes to zero" in
  Ok hash.

(** The members with their hashes and the slot after the last one. *)
Fixpoint members_loop (index : nat) (slot_offset : Z) (member_types : list (StateTypeLayoutSummary Hash))
    : outcome (list (StructMemberLayout Hash) * list Hash * Z) :=
  match member_types with
  | [] => Ok ([], [], slot_offset)
  | member_type :: member_types =>
      let* member := member_new index slot_offset member_type in
      let* hash := member_hash member in
      let* slot_offset := ok_or (checked_add 64 slot_offset (member_slot_count member))
        "struct slot count overflow" in
      let* (members, hashes, slot_offset) := members_loop (S index) slot_offset member_types in
      Ok (member :: members, hash :: hashes, slot_offset)
  end.

(** The hash of a struct type from its number of members, slots and members root. *)
Definition struct_type_hash (member_count total_slot_count : Z) (members_root : Hash) : Hash :=
  q_hash_many
    ([from_u64_value STRUCT_TYPE_LAYOUT_DOMAIN; from_u64_value member_count; from_u64_value total_slot_count] ++
     felts_of members_root ++ [from_u64_value STATE_LAYOUT_ENCODING_VERSION]).

Definition struct_type_layout (member_types : list (StateTypeLayoutSummary Hash)) (members_tree_height : nat)
    : outcome (StructTypeLayout Hash) :=
  let* _ := ensure (negb (bool_decide (member_types = []))) "empty structs are not supported" in
  let* capacity := checked_capacity members_tree_height in
  let* _ := ensure (Z.of_nat (length member_types) <=? capacity) "struct members exceed members-tree capacity" in
  let* (members, hashes, slot_offset) := members_loop 0 0 member_types in
  let* members_root := padded_merkle_root hashes members_tree_height in
  let type_layout_hash := struct_type_hash (Z.of_nat (length members)) slot_offset members_root in
  let* _ := ensure (negb (is_default type_layout_hash)) "struct type hashes to zero" in
  Ok (mkStructLayout members members_root (mkSummary type_layout_hash slot_offset)).

(** [StateFieldLayoutLeaf::new] *)
Definition field_new (field_index : nat) (start_slot : Z) (type_layout : StateTypeLayoutSummary Hash)
    : outcome (StateFieldLayoutLeaf Hash) :=
  let* _ := ensure (0 <? total_slot_count type_layout) "state field must occupy at least one slot" in
  let* field_id := ok_or (checked_add 64 (Z.of_nat field_index) 1) "state field id overflow" in
  Ok (mkField field_id start_slot 0 (total_slot_count type_layout) (type_layout_hash type_layout)
        STATE_LAYOUT_ENCODING_VERSION).

Definition new_with_payload_offset (field_index : nat) (start_slot payload_offset : Z)
    (type_layout : StateTypeLayoutSummary Hash) : outcome (StateFieldLayoutLeaf Hash) :=
  let* leaf := field_new field_index start_slot type_layout in
  let* count := ok_or (checked_add 64 (slot_count leaf) payload_offset) "state field slot count overflow" in
  Ok (mkField (field_id leaf) (Layout.start_slot leaf) payload_offset count (field_type_hash leaf)
        (field_encoding_version leaf)).

(** [StateFieldLayoutLeaf::hash] *)
Definition field_hash (self : StateFieldLayoutLeaf Hash) : outcome Hash :=
  let* _ := ensure (0 <? field_id self) "state field id must be non-zero" in
  let* _ := ensure (0 <? slot_count self) "state field slot count must be non-zero" in
  let* _ := ensure (payload_offset self <? slot_count self)
    "state field payload offset is outside its owned slot range" in
  let* _ := ensure (field_encoding_version self =? STATE_LAYOUT_ENCODING_VERSION)
    "unsupported state field encoding version" in
  let hash := q_hash_many
    ([from_u64_value STATE_FIELD_LAYOUT_DOMAIN; from_u64_value (field_id self);
      from_u64_value (start_slot self); from_u64_value (payload_offset self); from_u64_value (slot_count self)] ++
     felts_of (field_type_hash self) ++ [from_u64_value (field_encoding_version self)]) in
  let* _ := ensure (negb (is_default hash)) "occupied state field leaf hashes to zero" in
  Ok hash.

(** The fields with their hashes and the slot after the last one. *)
Fixpoint fields_loop (index : nat) (start_slot : Z) (field_types : list (StateTypeLayoutSummary Hash * Z))
    : outcome (list (StateFieldLayoutLeaf Hash) * list Hash * Z) :=
  match field_types with
  | [] => Ok ([], [], start_slot)
  | (field_type, payload_offset) :: field_types =>
      let* field := new_with_payload_offset index start_slot payload_offset field_type in
      let* hash := field_hash field in
      let* start_slot := ok_or (checked_add 64 start_slot (slot_count field))
        "contract state slot count overflow" in
      let* (fields, hashes, start_slot) := fields_loop (S index) start_slot field_types in
      Ok (field :: fields, hash :: hashes, start_slot)
  end.

Definition contract_state_layout_with_payload_offsets (field_types : list (StateTypeLayoutSummary Hash))
    (payload_offsets : list Z) (state_layout_tree_height state_tree_height : nat)
    : outcome (ContractStateLayout Hash) :=
  let* _ := ensure (length field_types =? length payload_offsets)%nat
    "field types and payload offsets length mismatch" in
  let* shifted := ok_or (checked_shl 128 1 (Z.of_nat state_tree_height))
    "state tree height exceeds u128 capacity" in
  let* state_capacity := ok_or (checked_mul 128 shifted 4) "contract state capacity overflow" in
  let* (fields, hashes, start_slot) := fields_loop 0 0 (zip field_types payload_offsets) in
  let* _ := ensure (start_slot <=? state_capacity) "contract layout exceeds state tree capacity" in
  let* state_layout_root := padded_merkle_root hashes state_layout_tree_height in
  Ok (mkContractLayout fields state_layout_root (Z.of_nat (length field_types)) start_slot).

Definition contract_state_layout (field_types : list (StateTypeLayoutSummary Hash))
    (state_layout_tree_height state_tree_height : nat) : outcome (ContractStateLayout Hash) :=
  contract_state_layout_with_payload_offsets field_types (replicate (length field_types) 0)
    state_layout_tree_height state_tree_height.

(** *** Canonical preimages of type layouts *)

(** [StateTypeLayoutWitness::summary] *)
Definition witness_summary (self : StateTypeLayoutWitness Hash) : outcome (StateTypeLayoutSummary Hash) :=
  match self with
  | WPrimitive type_tag => primitive_type_layout type_tag (canonical_primitive_slot_width type_tag)
  | WFixedArray element_type_hash element_slot_count array_length =>
      fixed_array_type_layout (mkSummary element_type_hash element_slot_count) array_length
  | WStruct member_count struct_slot_count members_root =>
      let* _ := ensure ((0 <? member_count) && (0 <? struct_slot_count)) "struct type witness must be non-empty" in
      let type_layout_hash := struct_type_hash member_count struct_slot_count members_root in
      let* _ := ensure (negb (is_default type_layout_hash)) "struct type hashes to zero" in
      Ok (mkSummary type_layout_hash struct_slot_count)
  | WFixedMap map_kind key_type_hash key_slot_count value_type_hash value_slot_count capacity alignment_slots =>
      fixed_map_type_layout map_kind (mkSummary key_type_hash key_slot_count)
        (mkSummary value_type_hash value_slot_count) capacity alignment_slots
  end.

(** The padding that aligns the payload of a map. *)
Definition expected_payload_offset (self : StateTypeLayoutWitness Hash) (start_slot : Z) : outcome Z :=
  match self with
  | WFixedMap _ _ _ _ _ _ alignment_slots =>
      let* r := rem start_slot alignment_slots in rem (alignment_slots - r) alignment_slots
  | _ => Ok 0
  end.

Definition validate_field (self : StateTypeLayoutWitness Hash) (field : StateFieldLayoutLeaf Hash) : outcome unit :=
  let* summary := witness_summary self in
  let* _ := ensure (bool_decide (field_type_hash field = type_layout_hash summary))
    "field type-layout hash does not match its canonical preimage" in
  let* offset := expected_payload_offset self (start_slot field) in
  let* _ := ensure (payload_offset field =? offset) "field payload offset is not canonical for its type" in
  let* owned := ok_or (checked_add 64 offset (total_slot_count summary)) "field owned slot count overflow" in
  let* _ := ensure (slot_count field =? owned) "field owned slot count does not match its type and padding" in
  Ok tt.

(** *** Type graphs *)

(** The slot count of an array or a map, within the range of the circuit. *)
Definition bounded_mul (slots n : Z) (msg : string) : outcome Z :=
  ok_or (match checked_mul 64 slots n with Some x => if x <=? MAX_SLOT_COUNT then Some x else None | None => None end) msg.

(** [members.iter().try_fold(0, ...)] *)
Fixpoint struct_slots (slot_counts : list Z) (total : Z) (members : list nat) : outcome Z :=
  match members with
  | [] => Ok total
  | child :: members =>
      let* count := unwrap (slot_counts !! child) in
      let* total := ok_or (match checked_add 64 total count with
                           | Some x => if x <=? MAX_SLOT_COUNT then Some x else None | None => None end)
        "struct slot count exceeds canonical circuit range" in
      struct_slots slot_counts total members
  end.

Definition ensure_child (node_index child : nat) : outcome unit :=
  ensure (child <? node_index)%nat "type-layout node has non-topological child".

Fixpoint check_members (node_index : nat) (contains_map : list bool) (members : list nat) : outcome unit :=
  match members with
  | [] => Ok tt
  | child :: members =>
      let* _ := ensure_child node_index child in
      let* m := unwrap (contains_map !! child) in
      let* _ := ensure (negb m) "fixed map cannot be nested in a struct" in
      check_members node_index contains_map members
  end.

(** One node: its number of slots, and whether it contains a map. *)
Definition validate_node (node_index : nat) (slot_counts : list Z) (contains_map : list bool)
    (node : CanonicalTypeLayoutNode) : outcome (Z * bool) :=
  match node with
  | NPrimitive type_tag => Ok (canonical_primitive_slot_width type_tag, false)
  | NFixedArray element length_ =>
      let* _ := ensure_child node_index element in
      let* _ := ensure (0 <? length_) "fixed array length is zero" in
      let* _ := ensure (length_ <=? MAX_ARRAY_LENGTH) "fixed array length exceeds canonical circuit range" in
      let* m := unwrap (contains_map !! element) in
      let* _ := ensure (negb m) "fixed map cannot be nested in an array" in
      let* count := unwrap (slot_counts !! element) in
      let* slots := bounded_mul count length_ "fixed array slot count exceeds canonical circuit range" in
      Ok (slots, false)
  | NFixedMap _ key value capacity alignment_slots =>
      let* _ := ensure_child node_index key in
      let* _ := ensure_child node_index value in
      let* _ := ensure (0 <? capacity) "fixed map capacity is zero" in
      let* _ := ensure (capacity <=? MAX_ARGUMENT) "fixed map capacity exceeds canonical circuit range" in
      let* _ := ensure ((0 <? alignment_slots) && is_power_of_two alignment_slots && (alignment_slots <=? 2 ^ 16))
        "fixed map alignment must be a power of two no greater than 65536" in
      let* mk := unwrap (contains_map !! key) in
      let* mv := (if (mk : bool) then Ok true else unwrap (contains_map !! value)) in
      let* _ := ensure (negb mk && negb mv) "fixed map cannot contain another fixed map" in
      let* count := unwrap (slot_counts !! value) in
      let* slots := bounded_mul count capacity "fixed map slot count exceeds canonical circuit range" in
      Ok (slots, true)
  | NStruct members members_tree_height =>
      let* _ := ensure (negb (bool_decide (members = []))) "empty structs are not supported" in
      let* _ := ensure (length members <=? CANONICAL_TYPE_LAYOUT_MAX_STRUCT_MEMBERS)%nat
        "struct has too many members" in
      let* capacity := checked_capacity members_tree_height in
      let* _ := ensure (Z.of_nat (length members) <=? capacity) "struct members exceed members-tree capacity" in
      let* _ := check_members node_index contains_map members in
      let* slots := struct_slots slot_counts 0 members in
      Ok (slots, false)
  end.

Fixpoint validate_nodes (slot_counts : list Z) (contains_map : list bool) (nodes : list CanonicalTypeLayoutNode)
    : outcome (list Z * list bool) :=
  match nodes with
  | [] => Ok (slot_counts, contains_map)
  | node :: nodes =>
      let* (slots, m) := validate_node (length slot_counts) slot_counts contains_map node in
      validate_nodes (slot_counts ++ [slots]) (contains_map ++ [m]) nodes
  end.

(** [CanonicalTypeLayoutDag::validate_shape] *)
Definition validate_shape (self : CanonicalTypeLayoutDag) : outcome unit :=
  let* _ := ensure (negb (bool_decide (nodes self = []))) "type-layout DAG is empty" in
  let* _ := ensure (length (nodes self) <=? CANONICAL_TYPE_LAYOUT_MAX_NODES)%nat "type-layout DAG has too many nodes" in
  let* _ := ensure (root self =? length (nodes self) - 1)%nat "type-layout DAG root must be its final node" in
  let* _ := validate_nodes [] [] (nodes self) in
  Ok tt.

Fixpoint collect_summaries (summaries : list (StateTypeLayoutSummary Hash)) (members : list nat)
    : outcome (list (StateTypeLayoutSummary Hash)) :=
  match members with
  | [] => Ok []
  | index :: members =>
      let* s := unwrap (summaries !! index) in
      let* rest := collect_summaries summaries members in Ok (s :: rest)
  end.

Definition evaluate_node (summaries : list (StateTypeLayoutSummary Hash)) (node : CanonicalTypeLayoutNode)
    : outcome (StateTypeLayoutSummary Hash) :=
  match node with
  | NPrimitive type_tag => primitive_type_layout type_tag (canonical_primitive_slot_width type_tag)
  | NFixedArray element length_ =>
      let* e := unwrap (summaries !! element) in fixed_array_type_layout e length_
  | NFixedMap map_kind key value capacity alignment_slots =>
      let* k := unwrap (summaries !! key) in
      let* v := unwrap (summaries !! value) in
      fixed_map_type_layout map_kind k v capacity alignment_slots
  | NStruct members members_tree_height =>
      let* member_types := collect_summaries summaries members in
      let* layout := struct_type_layout member_types members_tree_height in
      Ok (summary layout)
  end.

Fixpoint evaluate_nodes (summaries : list (StateTypeLayoutSummary Hash)) (nodes : list CanonicalTypeLayoutNode)
    : outcome (list (StateTypeLayoutSummary Hash)) :=
  match nodes with
  | [] => Ok summaries
  | node :: nodes =>
      let* summary := evaluate_node summaries node in
      evaluate_nodes (summaries ++ [summary]) nodes
  end.

Definition evaluate (self : CanonicalTypeLayoutDag) : outcome (StateTypeLayoutSummary Hash) :=
  let* _ := validate_shape self in
  let* summaries := evaluate_nodes [] (nodes self) in
  unwrap (summaries !! root self).
End layout.

(** ** The layout of a contract's state *)

(** The slots owned by a sequence of fields. *)
Fixpoint slots_of {Hash} (fs : list (StateFieldLayoutLeaf Hash)) : Z :=
  match fs with [] => 0 | f :: fs => slot_count f + slots_of fs end.

(** Fields numbered from [index] on that occupy consecutive slots from [start] on. *)
Fixpoint contiguous_from {Hash} (index start : Z) (fs : list (StateFieldLayoutLeaf Hash)) : Prop :=
  match fs with
  | [] => True
  | f :: fs => field_id f = index + 1 ∧ start_slot f = start ∧ contiguous_from (index + 1) (start + slot_count f) fs
  end.

Lemma slots_of_app {Hash} (fs gs : list (StateFieldLayoutLeaf Hash)) :
  slots_of (fs ++ gs) = slots_of fs + slots_of gs.
Proof. induction fs as [|f fs IH]; simpl; lia. Qed.

Lemma contiguous_app {Hash} (fs gs : list (StateFieldLayoutLeaf Hash)) : ∀ index start,
  contiguous_from index start (fs ++ gs) ↔
  contiguous_from index start fs ∧ contiguous_from (index + Z.of_nat (length fs)) (start + slots_of fs) gs.
Proof.
  induction fs as [|f fs IH]; intros index start; simpl.
  - rewrite !Z.add_0_r. tauto.
  - rewrite IH. replace (index + 1 + Z.of_nat (length fs)) with (index + Z.of_nat (S (length fs))) by lia.
    rewrite Z.add_assoc. tauto.
Qed.

Section state_layout.
Context {F : Type} `{EqDecision Hash, MerkleHasher Hash, FieldHash F Hash}.
Implicit Types (f : StateFieldLayoutLeaf Hash) (fs : list (StateFieldLayoutLeaf Hash)).

(** Every field has a hash, and these are [hs]. *)
Definition hashed fs (hs : list Hash) : Prop := Forall2 (λ f h, field_hash f = Ok h) fs hs.

(** What a layout root commits to: the fields in consecutive slots, the root of
    the tree over their hashes, their number and the slots they own. *)
Definition layout_rep (h : nat) fs (root : Hash) (field_count slot_count : Z) : Prop :=
  contiguous_from 0 0 fs ∧ (∃ hs, hashed fs hs ∧ root = tree_node (leaf_fn hash_default hs) h 0) ∧
  field_count = Z.of_nat (length fs) ∧ field_count ≤ 2 ^ Z.of_nat h ∧
  slot_count = slots_of fs ∧ slot_count < 2 ^ 64.

Lemma field_hash_Ok f h : field_hash f = Ok h →
  0 < slot_count f ∧ payload_offset f < slot_count f ∧ field_encoding_version f = STATE_LAYOUT_ENCODING_VERSION ∧
  h ≠ hash_default.
Proof.
  intros Hf. unfold field_hash in Hf. outcome_inv. split_and!; try done.
  unfold is_default in *. by apply negb_true_iff, bool_decide_eq_false in E3.
Qed.

Lemma hashed_slots fs hs : hashed fs hs → Z.of_nat (length fs) ≤ slots_of fs.
Proof. induction 1 as [|f h fs hs Hf _ IH]; simpl; [lia|]. apply field_hash_Ok in Hf. lia. Qed.

(** The padded tree. *)
Lemma checked_capacity_spec n :
  checked_capacity n = if (n <? 64)%nat then Ok (2 ^ Z.of_nat n) else Err "layout tree height exceeds usize capacity".
Proof.
  unfold checked_capacity, checked_shl. destruct (Nat.ltb_spec n 64).
  - rewrite (proj2 (Z.ltb_lt _ _)) by lia. simpl. f_equal. rewrite Z.shiftl_mul_pow2, Z.mul_1_l by lia.
    apply wrap_small. split; [apply Z.lt_le_incl, pow2_pos|apply Z.pow_lt_mono_r; lia].
  - rewrite (proj2 (Z.ltb_ge _ _)) by lia. done.
Qed.

Lemma leaf_fn_default_pad (l : list Hash) n j :
  leaf_fn hash_default (l ++ replicate n hash_default) j = leaf_fn hash_default l j.
Proof.
  unfold leaf_fn. destruct (decide (Z.to_nat j < length l)%nat); [by rewrite app_nth1|].
  rewrite app_nth2 by lia. rewrite (nth_overflow l) by lia. apply nth_replicate_default.
Qed.

Lemma padded_merkle_root_spec (l : list Hash) (h : nat) :
  padded_merkle_root l h =
  if (h <? 64)%nat then
    if Z.of_nat (length l) <=? 2 ^ Z.of_nat h then
      if (h <? 58)%nat then Ok (tree_node (leaf_fn hash_default l) h 0) else Panic
    else Err "occupied leaves exceed tree capacity"
  else Err "layout tree height exceeds usize capacity".
Proof.
  unfold padded_merkle_root. rewrite checked_capacity_spec.
  destruct (Nat.ltb_spec h 64); [|done]. cbn [outcome_bind].
  destruct (Z.leb_spec (Z.of_nat (length l)) (2 ^ Z.of_nat h)); [|done]. cbn [ensure outcome_bind].
  destruct (Nat.ltb_spec h 58).
  2: { assert (2 ^ 58 ≤ 2 ^ Z.of_nat h) by (apply Z.pow_le_mono_r; lia). by rewrite (proj2 (Z.leb_gt _ _)) by lia. }
  assert (2 ^ Z.of_nat h ≤ 2 ^ 57) by (apply Z.pow_le_mono_r; lia).
  rewrite (proj2 (Z.leb_le _ _)) by lia. cbn [assert_ outcome_bind].
  rewrite (compute_root_pow2 hash_default _ h) by
    (done || rewrite length_app, length_replicate, <- pow2_nat_Z in *; lia).
  f_equal. apply tree_node_ext. intros j _. apply leaf_fn_default_pad.
Qed.

(** A field built for a type and an offset. *)
Definition field_of (p : StateTypeLayoutSummary Hash * Z) f : Prop :=
  field_type_hash f = type_layout_hash p.1 ∧ payload_offset f = p.2 ∧ slot_count f = total_slot_count p.1 + p.2.

Lemma fields_loop_Ok tys : ∀ index start fs hs stop,
  fields_loop index start tys = Ok (fs, hs, stop) →
  contiguous_from (Z.of_nat index) start fs ∧ hashed fs hs ∧ stop = start + slots_of fs ∧
  Forall2 field_of tys fs ∧ (start < 2 ^ 64 → stop < 2 ^ 64).
Proof.
  induction tys as [|[ty off] tys IH]; intros index start fs hs stop Hl; cbn [fields_loop] in Hl.
  - injection Hl as <- <- <-. simpl. split_and!; [done|constructor|lia|constructor|done].
  - apply outcome_bind_Ok in Hl as (f & Hf & Hl). apply outcome_bind_Ok in Hl as (h & Hh & Hl).
    apply outcome_bind_Ok in Hl as (s & Hs & Hl). apply outcome_bind_Ok in Hl as ([[fs' hs'] stop'] & Hrec & Hl).
    injection Hl as <- <- <-. apply IH in Hrec as (Hc & Hhs & -> & Hfo & Hlt). outcome_inv.
    unfold new_with_payload_offset, field_new in Hf. outcome_inv. simpl in *.
    split_and!; try (done || lia).
    + by replace (Z.of_nat index + 1) with (Z.of_nat (S index)) by lia.
    + by constructor.
    + constructor; [|done]. unfold field_of. simpl. split_and!; (done || lia).
Qed.

Lemma fields_loop_complete tys : ∀ index start fs hs,
  Z.of_nat index ≤ start → contiguous_from (Z.of_nat index) start fs → hashed fs hs → Forall2 field_of tys fs →
  start + slots_of fs < 2 ^ 64 → fields_loop index start tys = Ok (fs, hs, start + slots_of fs).
Proof.
  induction tys as [|[ty off] tys IH]; intros index start fs hs Hi Hc Hh Hf Hlt;
    inversion Hf as [|? f ? fs' (Hty & Hoff & Hcount)]; subst; inversion Hh as [|? h ? hs' Hfh Hhs]; subst.
  - simpl. by rewrite Z.add_0_r.
  - pose proof (hashed_slots _ _ Hhs). destruct (field_hash_Ok _ _ Hfh) as (Hpos & Hpay & Hver & _).
    destruct Hc as (Hid & Hst & Hc). simpl in Hlt, Hcount, Hoff, Hty. cbn [fields_loop].
    assert (new_with_payload_offset index start off ty = Ok f) as ->.
    { unfold new_with_payload_offset, field_new. rewrite (proj2 (Z.ltb_lt _ _)) by lia. cbn [ensure outcome_bind].
      unfold checked_add. rewrite (proj2 (Z.ltb_lt _ _)) by lia. cbn [ok_or outcome_bind slot_count].
      rewrite (proj2 (Z.ltb_lt _ _)) by lia. cbn [ok_or outcome_bind].
      destruct f; simpl in *; subst. done. }
    cbn [outcome_bind]. rewrite Hfh. cbn [outcome_bind]. unfold checked_add. rewrite (proj2 (Z.ltb_lt _ _)) by lia.
    cbn [ok_or outcome_bind]. rewrite (IH (S index) (start + slot_count f) fs' hs');
      [|lia|by replace (Z.of_nat (S index)) with (Z.of_nat index + 1) by lia|done|done|lia].
    cbn [outcome_bind slots_of]. do 2 f_equal. lia.
Qed.

(** The loops only return or fail. *)
Lemma fields_loop_total tys : ∀ index start,
  (∃ r, fields_loop index start tys = Ok r) ∨ (∃ e, fields_loop index start tys = Err e).
Proof.
  induction tys as [|[ty off] tys IH]; intros index start; cbn [fields_loop]; [eauto|].
  destruct (new_with_payload_offset index start off ty) as [f| | |] eqn:Ef; cbn [outcome_bind]; eauto.
  - destruct (field_hash f) as [h| | |] eqn:Eh; cbn [outcome_bind]; eauto.
    + destruct (checked_add _ _ _); cbn [ok_or outcome_bind]; eauto.
      destruct (IH (S index) z) as [[[[fs hs] stop] ->]|[e ->]]; cbn [outcome_bind]; eauto.
    + exfalso. revert Eh. unfold field_hash, ensure. by repeat case_match.
    + exfalso. revert Eh. unfold field_hash, ensure. by repeat case_match.
  - exfalso. revert Ef. unfold new_with_payload_offset, field_new, ensure, ok_or. by repeat (case_match; simpl).
  - exfalso. revert Ef. unfold new_with_payload_offset, field_new, ensure, ok_or. by repeat (case_match; simpl).
Qed.

(** The field that owns a slot. *)
Definition owns f (slot : Z) : Prop := start_slot f ≤ slot < start_slot f + slot_count f.

Lemma contiguous_start fs : ∀ index start i f,
  contiguous_from index start fs → fs !! i = Some f → start_slot f = start + slots_of (take i fs).
Proof.
  induction fs as [|g fs IH]; intros index start i f Hc Hf; [done|].
  destruct Hc as (_ & Hst & Hc). destruct i as [|i]; simpl in *; [injection Hf as ->; lia|].
  rewrite (IH _ _ _ _ Hc Hf). lia.
Qed.

Lemma slots_of_nonneg fs hs : hashed fs hs → 0 ≤ slots_of fs.
Proof. intros Hh%hashed_slots. lia. Qed.

Lemma contiguous_owner fs hs : hashed fs hs → ∀ index start slot,
  contiguous_from index start fs → start ≤ slot < start + slots_of fs →
  ∃ i f, fs !! i = Some f ∧ owns f slot ∧ ∀ j g, fs !! j = Some g → owns g slot → j = i.
Proof.
  unfold owns. induction 1 as [|f h fs hs Hf Hhs IH]; intros index start slot Hc Hs; [simpl in Hs; lia|].
  destruct Hc as (_ & Hst & Hc). simpl in Hs. destruct (decide (slot < start + slot_count f)) as [Hlt|Hge].
  - exists 0%nat, f. split_and!; [done|lia|lia|]. intros [|j] g Hg Ho; [done|]. simpl in Hg.
    rewrite (contiguous_start _ _ _ _ _ Hc Hg) in Ho. exfalso.
    enough (0 ≤ slots_of (take j fs)) by lia.
    eapply slots_of_nonneg. unfold hashed in *. by apply Forall2_take with (n := j) in Hhs.
  - destruct (IH _ _ slot Hc) as (i & f' & Hi & Ho & Hu); [lia|].
    exists (S i), f'. split_and!; [done|lia|lia|]. intros [|j] g Hg Ho'.
    + simpl in Hg. injection Hg as <-. lia.
    + f_equal. by apply (Hu j g).
Qed.

Lemma hashed_unique fs hs hs' : hashed fs hs → hashed fs hs' → hs = hs'.
Proof.
  intros Hh. revert hs'. induction Hh as [|f h fs hs Hf _ IH]; intros hs' Hh'; inversion Hh'; subst; [done|].
  f_equal; [congruence|by apply IH].
Qed.

Lemma state_capacity_spec (sh : nat) : ∃ e,
  (let* shifted := ok_or (checked_shl 128 1 (Z.of_nat sh)) "state tree height exceeds u128 capacity" in
   ok_or (checked_mul 128 shifted 4) "contract state capacity overflow") =
  if (sh <=? 125)%nat then Ok (4 * 2 ^ Z.of_nat sh) else Err e.
Proof.
  unfold checked_shl, checked_mul. destruct (Nat.leb_spec sh 125) as [Hs|Hs]; [exists ""%string|].
  - pose proof (pow2_pos sh). assert (2 ^ Z.of_nat sh * 4 < 2 ^ 128).
    { change 4 with (2 ^ 2). rewrite <- Z.pow_add_r by lia. apply Z.pow_lt_mono_r; lia. }
    rewrite (proj2 (Z.ltb_lt _ _)) by lia. cbn [ok_or outcome_bind].
    rewrite Z.shiftl_mul_pow2, Z.mul_1_l, wrap_small, (proj2 (Z.ltb_lt _ _)) by lia. simpl. f_equal. lia.
  - destruct (Z.ltb_spec (Z.of_nat sh) 128); cbn [ok_or outcome_bind]; [|eauto].
    assert (sh = 126 ∨ sh = 127)%nat as [-> | ->] by lia; by eexists.
Qed.

(** The outcome after the fields are laid out. *)
Lemma state_layout_unfold types offsets (h sh : nat) :
  let result := contract_state_layout_with_payload_offsets types offsets h sh in
  (length types = length offsets ∧ (sh ≤ 125)%nat ∧
   result = let* (fs, hs, stop) := fields_loop 0 0 (zip types offsets) in
            let* _ := ensure (stop <=? 4 * 2 ^ Z.of_nat sh) "contract layout exceeds state tree capacity" in
            let* root := padded_merkle_root hs h in
            Ok (mkContractLayout fs root (Z.of_nat (length types)) stop)) ∨
  (¬ (length types = length offsets ∧ (sh ≤ 125)%nat) ∧ ∃ e, result = Err e).
Proof.
  unfold contract_state_layout_with_payload_offsets.
  destruct (Nat.eqb_spec (length types) (length offsets)) as [Hlen|]; [|right; split; [tauto|by eexists]].
  cbn [ensure outcome_bind]. destruct (state_capacity_spec sh) as [e He].
  destruct (checked_shl _ _ _) as [shifted|]; cbn [ok_or outcome_bind] in *.
  - destruct (checked_mul _ _ _); cbn [ok_or outcome_bind] in *; destruct (Nat.leb_spec sh 125); try done.
    + injection He as ->. by left.
    + right. split; [lia|by eexists].
  - destruct (Nat.leb_spec sh 125); [done|]. right. split; [lia|by eexists].
Qed.

Lemma state_layout_Ok types offsets (h sh : nat) L :
  contract_state_layout_with_payload_offsets types offsets h sh = Ok L →
  length types = length offsets ∧ (sh ≤ 125)%nat ∧ (h < 58)%nat ∧
  layout_rep h (fields L) (state_layout_root L) (state_layout_field_count L) (state_layout_slot_count L) ∧
  Forall2 field_of (zip types offsets) (fields L) ∧ state_layout_slot_count L ≤ 4 * 2 ^ Z.of_nat sh.
Proof.
  intros HL. destruct (state_layout_unfold types offsets h sh) as [(Hlen & Hsh & Heq)|[_ [e He]]]; [|congruence].
  rewrite HL in Heq. symmetry in Heq. clear HL.
  apply outcome_bind_Ok in Heq as ([[fs hs] stop] & Hl & Heq). cbv beta iota in Heq.
  apply fields_loop_Ok in Hl as (Hc & Hh & Hstop & Hfo & Hlt). simpl in Hstop. specialize (Hlt ltac:(lia)).
  outcome_inv. simpl. rewrite padded_merkle_root_spec in E0.
  destruct (Nat.ltb_spec h 64); [|done]. destruct (Z.leb_spec (Z.of_nat (length hs)) (2 ^ Z.of_nat h)); [|done].
  destruct (Nat.ltb_spec h 58) as [Hh58|]; [|done]. injection E0 as <-. assert (length fs = length types) as Hn.
  { rewrite <- (Forall2_length _ _ _ Hfo), length_zip_with. lia. }
  assert (length hs = length fs) as Hnh by (symmetry; by eapply Forall2_length).
  split_and!; try done. split_and!; try (done || lia). by exists hs.
Qed.

Lemma state_layout_complete types offsets (h sh : nat) L :
  length types = length offsets → (sh ≤ 125)%nat → (h < 58)%nat →
  layout_rep h (fields L) (state_layout_root L) (state_layout_field_count L) (state_layout_slot_count L) →
  Forall2 field_of (zip types offsets) (fields L) → state_layout_slot_count L ≤ 4 * 2 ^ Z.of_nat sh →
  contract_state_layout_with_payload_offsets types offsets h sh = Ok L.
Proof.
  intros Hlen Hsh Hh (Hc & (hs & Hhs & Hr) & Hfc & Hcap & Hsc & Hlt) Hfo Hfit.
  destruct (state_layout_unfold types offsets h sh) as [(_ & _ & ->)|[Hn _]]; [|tauto].
  assert (length (fields L) = length types) as Hn.
  { rewrite <- (Forall2_length _ _ _ Hfo), length_zip_with. lia. }
  assert (length hs = length (fields L)) as Hnh by (symmetry; by eapply Forall2_length).
  rewrite (fields_loop_complete _ 0 0 (fields L) hs) by (done || lia). cbn [outcome_bind].
  rewrite (proj2 (Z.leb_le _ _)) by lia. cbn [ensure outcome_bind]. rewrite padded_merkle_root_spec.
  rewrite !(proj2 (Nat.ltb_lt _ _)), (proj2 (Z.leb_le _ _)) by lia. cbn [outcome_bind].
  destruct L; simpl in *. subst. rewrite Hn. done.
Qed.

Lemma state_layout_total types offsets (h sh : nat) :
  panics_only_if (58 ≤ h)%nat (contract_state_layout_with_payload_offsets types offsets h sh).
Proof.
  destruct (state_layout_unfold types offsets h sh) as [(_ & _ & ->)|[_ [e ->]]]; [|done].
  destruct (fields_loop_total (zip types offsets) 0 0) as [[[[fs hs] stop] ->]|[e ->]]; cbn [outcome_bind]; [|done].
  destruct (stop <=? _); cbn [ensure outcome_bind]; [|done]. rewrite padded_merkle_root_spec.
  destruct (_ <? _)%nat; [destruct (_ <=? _); [destruct (Nat.ltb_spec h 58)|]|]; cbn [outcome_bind]; done.
Qed.
End state_layout.

(** The layout of a contract's state. [contract_state_layout_with_payload_offsets]
    returns a layout or an error, panics only if the height of the layout tree is 58 or
    more, and returns [L] exactly when there
    is one payload offset per type, the tree heights are in range, the fields of
    [L] are those of the types at consecutive slots numbered from one, all of them
    hash to something else than the default, their number fits in the layout tree
    and their slots in the state tree, and the root is that of the tree over their
    hashes. Every slot of the layout then belongs to exactly one field. *)
Theorem contract_state_layout_correct {F : Type} `{EqDecision Hash, MerkleHasher Hash, FieldHash F Hash}
    (types : list (StateTypeLayoutSummary Hash)) (offsets : list Z) (h state_height : nat) :
  let result := contract_state_layout_with_payload_offsets types offsets h state_height in
  panics_only_if (58 ≤ h)%nat result ∧
  ∀ L, (result = Ok L ↔
          length types = length offsets ∧ (state_height ≤ 125)%nat ∧ (h < 58)%nat ∧
          layout_rep h (fields L) (state_layout_root L) (state_layout_field_count L) (state_layout_slot_count L) ∧
          Forall2 field_of (zip types offsets) (fields L) ∧
          state_layout_slot_count L ≤ 4 * 2 ^ Z.of_nat state_height) ∧
       (result = Ok L → ∀ slot, 0 ≤ slot < state_layout_slot_count L →
          ∃ i f, fields L !! i = Some f ∧ owns f slot ∧ ∀ j g, fields L !! j = Some g → owns g slot → j = i).
Proof.
  intros result. split; [apply state_layout_total|]. intros L. split; [split|].
  - apply state_layout_Ok.
  - intros (? & ? & ? & ? & ? & ?). by apply state_layout_complete.
  - intros (_ & _ & _ & (Hc & (hs & Hhs & _) & _ & _ & -> & _) & _)%state_layout_Ok slot Hslot.
    by eapply contiguous_owner.
Qed.

(** Two fields: a hash (4 slots) and a word behind two slots of padding. *)
Lemma contract_state_layout_correct_witness :
  ∃ L, contract_state_layout_with_payload_offsets
         [mkSummary ((1, 2, 3, 4)%N : felts4) 4; mkSummary (5, 6, 7, 8)%N 1] [0; 2] 2 1 = Ok L ∧
       state_layout_slot_count L = 7 ∧ ∃ i f, fields L !! i = Some f ∧ owns f 5 ∧
         ∀ j g, fields L !! j = Some g → owns g 5 → j = i.
Proof.
  destruct (contract_state_layout_correct [mkSummary ((1, 2, 3, 4)%N : felts4) 4; mkSummary (5, 6, 7, 8)%N 1]
    [0; 2] 2 1) as [_ Hc].
  eexists. split; [vm_compute; reflexivity|]. split; [reflexivity|].
  eapply (proj2 (Hc _)); [vm_compute; reflexivity|]. cbn. lia.
Defined.

(** ** What a type graph denotes *)
Inductive state_type : Type :=
  | SPrimitive (tag : StatePrimitiveTypeTag)
  | SArray (element : state_type) (len : Z)
  | SMap (kind : StateMapKind) (key value : state_type) (capacity alignment : Z)
  | SStruct (member_types : list state_type) (height : nat).

(** Unfold the nodes to types, each over the types of the nodes before it. *)
Definition node_type (types : list state_type) (node : CanonicalTypeLayoutNode) : option state_type :=
  match node with
  | NPrimitive tag => Some (SPrimitive tag)
  | NFixedArray e n => t ← types !! e; Some (SArray t n)
  | NFixedMap k key value c a => tk ← types !! key; tv ← types !! value; Some (SMap k tk tv c a)
  | NStruct ms h => ts ← mapM (λ m, types !! m) ms; Some (SStruct ts h)
  end.

Fixpoint nodes_types (types : list state_type) (nodes : list CanonicalTypeLayoutNode) : option (list state_type) :=
  match nodes with
  | [] => Some types
  | node :: nodes => t ← node_type types node; nodes_types (types ++ [t]) nodes
  end.

Definition dag_type (dag : CanonicalTypeLayoutDag) : option state_type :=
  types ← nodes_types [] (nodes dag); types !! root dag.

(** The slots of a type. *)
Fixpoint type_slots (t : state_type) : Z :=
  match t with
  | SPrimitive tag => canonical_primitive_slot_width tag
  | SArray e n => n * type_slots e
  | SMap _ _ v c _ => c * type_slots v
  | SStruct ms _ => foldr (λ m acc, type_slots m + acc) 0 ms
  end.

Definition contains_map_type (t : state_type) : bool :=
  match t with SMap _ _ _ _ _ => true | _ => false end.

(** Types of the canonical range: nothing is empty or too large, and maps occur
    only at the top. *)
Inductive type_wf : state_type → Prop :=
  | wf_prim tag : type_wf (SPrimitive tag)
  | wf_array e n : type_wf e → contains_map_type e = false → 0 < n ≤ MAX_ARRAY_LENGTH →
      n * type_slots e ≤ MAX_SLOT_COUNT → type_wf (SArray e n)
  | wf_map k key v c a : type_wf key → type_wf v → contains_map_type key = false → contains_map_type v = false →
      0 < c ≤ MAX_ARGUMENT → is_power_of_two a = true → a ≤ 2 ^ 16 →
      c * type_slots v ≤ MAX_SLOT_COUNT → type_wf (SMap k key v c a)
  | wf_struct ms h : Forall type_wf ms → Forall (λ m, contains_map_type m = false) ms → ms ≠ [] →
      (length ms ≤ CANONICAL_TYPE_LAYOUT_MAX_STRUCT_MEMBERS)%nat → Z.of_nat (length ms) ≤ 2 ^ Z.of_nat h →
      (h < 64)%nat → type_slots (SStruct ms h) ≤ MAX_SLOT_COUNT → type_wf (SStruct ms h).

Section type_hash.
Context {F : Type} `{EqDecision Hash, MerkleHasher Hash, FieldHash F Hash}.

(** The leaves of the members tree of a struct. *)
Fixpoint member_leaves (index offset : Z) (ms : list (Hash * Z)) : list Hash :=
  match ms with
  | [] => []
  | (th, slots) :: ms =>
      q_hash_many ([from_u64_value STRUCT_MEMBER_LAYOUT_DOMAIN; from_u64_value (index + 1); from_u64_value offset;
                    from_u64_value slots] ++ felts_of th ++ [from_u64_value STATE_LAYOUT_ENCODING_VERSION])
      :: member_leaves (index + 1) (offset + slots) ms
  end.

Lemma length_member_leaves ms : ∀ index offset, length (member_leaves index offset ms) = length ms.
Proof. induction ms as [|[th n] ms IH]; intros; simpl; auto. Qed.

(** The commitment to a type. *)
Fixpoint type_hash (t : state_type) : Hash :=
  match t with
  | SPrimitive tag =>
      q_hash_many [from_u64_value PRIMITIVE_TYPE_LAYOUT_DOMAIN; from_u64_value (type_tag_u16 tag);
                   from_u64_value STATE_LAYOUT_ENCODING_VERSION]
  | SArray e n =>
      q_hash_many ([from_u64_value FIXED_ARRAY_TYPE_LAYOUT_DOMAIN] ++ felts_of (type_hash e) ++
        [from_u64_value n; from_u64_value (type_slots e); from_u64_value (n * type_slots e);
         from_u64_value STATE_LAYOUT_ENCODING_VERSION])
  | SMap k key v c a =>
      q_hash_many ([from_u64_value FIXED_MAP_TYPE_LAYOUT_DOMAIN; from_u64_value (map_kind_u16 k)] ++
        felts_of (type_hash key) ++ [from_u64_value (type_slots key)] ++ felts_of (type_hash v) ++
        [from_u64_value (type_slots v); from_u64_value c; from_u64_value a; from_u64_value (c * type_slots v);
         from_u64_value STATE_LAYOUT_ENCODING_VERSION])
  | SStruct ms h =>
      let leaves := member_leaves 0 0 ((λ m, (type_hash m, type_slots m)) <$> ms) in
      struct_type_hash (Z.of_nat (length ms)) (type_slots (SStruct ms h))
        (tree_node (leaf_fn hash_default leaves) h 0)
  end.

Definition type_summary (t : state_type) : StateTypeLayoutSummary Hash := mkSummary (type_hash t) (type_slots t).

(** The computation ended as [r] does, or some felts hash to the default hash. *)
Definition unless_zero {A} (o r : outcome A) : Prop :=
  o = r ∨ ∃ e l, o = Err e ∧ q_hash_many l = hash_default.

Lemma unless_zero_bind {A B} (o : outcome A) (k : A → outcome B) a r :
  unless_zero o (Ok a) → unless_zero (k a) r → unless_zero (let* x := o in k x) r.
Proof. intros [->|(e & l & -> & Hl)]; [done|]. intros _. right. by exists e, l. Qed.

Lemma unless_zero_panic {A B} (o : outcome A) (k : A → outcome B) :
  unless_zero o Panic → unless_zero (let* x := o in k x) Panic.
Proof. intros [->|(e & l & -> & Hl)]; [by left|]. right. by exists e, l. Qed.

Lemma ensure_not_default {A} l msg (a : A) :
  unless_zero (let* _ := ensure (negb (is_default (q_hash_many l))) msg in Ok a) (Ok a).
Proof.
  unfold is_default. case_bool_decide as E; cbn [negb ensure outcome_bind]; [right|by left]. by exists msg, l.
Qed.

(** A type of the canonical range; its slots are in range. *)
Definition good (t : state_type) : Prop := type_wf t ∧ 0 < type_slots t ≤ MAX_SLOT_COUNT.

Lemma primitive_type_layout_ok tag :
  unless_zero (primitive_type_layout tag (canonical_primitive_slot_width tag)) (Ok (type_summary (SPrimitive tag))).
Proof.
  unfold primitive_type_layout. rewrite Z.eqb_refl. cbn [ensure outcome_bind]. apply ensure_not_default.
Qed.

Lemma array_type_layout_ok e n :
  0 < n → 0 < type_slots e → n * type_slots e < 2 ^ 64 →
  unless_zero (fixed_array_type_layout (type_summary e) n) (Ok (type_summary (SArray e n))).
Proof.
  intros Hn He Hlt. unfold fixed_array_type_layout, checked_mul. cbn [type_summary total_slot_count].
  rewrite !(proj2 (Z.ltb_lt _ _)) by lia. cbn [ensure ok_or outcome_bind]. apply ensure_not_default.
Qed.

Lemma map_type_layout_ok k key v c a :
  0 < c → is_power_of_two a = true → c * type_slots v < 2 ^ 64 →
  unless_zero (fixed_map_type_layout k (type_summary key) (type_summary v) c a) (Ok (type_summary (SMap k key v c a))).
Proof.
  intros Hc Ha Hlt. unfold fixed_map_type_layout, checked_mul. cbn [type_summary total_slot_count].
  assert (0 < a) by (unfold is_power_of_two in Ha; lia).
  rewrite Ha, !(proj2 (Z.ltb_lt _ _)) by lia. cbn [ensure ok_or outcome_bind andb]. apply ensure_not_default.
Qed.

Lemma members_loop_ok ts : ∀ index offset,
  Forall (λ t, 0 < type_slots t) ts →
  0 ≤ offset → Z.of_nat index ≤ offset → offset + foldr (λ m acc, type_slots m + acc) 0 ts < 2 ^ 64 →
  ∃ ms, length ms = length ts ∧
    unless_zero (members_loop index offset (type_summary <$> ts))
      (Ok (ms, member_leaves (Z.of_nat index) offset ((λ m, (type_hash m, type_slots m)) <$> ts),
           offset + foldr (λ m acc, type_slots m + acc) 0 ts)).
Proof.
  induction ts as [|t ts IH]; intros index offset Hpos Ho Hi Hlt.
  - exists []. split; [done|]. left. simpl. by rewrite Z.add_0_r.
  - apply Forall_cons in Hpos as [Ht Hpos]. simpl in Hlt.
    assert (0 ≤ foldr (λ m acc, type_slots m + acc) 0 ts).
    { clear -Hpos. induction Hpos; simpl in *; lia. }
    destruct (IH (S index) (offset + type_slots t)) as (ms & Hlen & Hok); [done|lia..|].
    exists (mkMember (Z.of_nat index + 1) offset (type_slots t) (type_hash t) STATE_LAYOUT_ENCODING_VERSION :: ms).
    split; [simpl; lia|]. cbn [fmap list_fmap members_loop]. unfold member_new.
    cbn [type_summary total_slot_count type_layout_hash]. unfold checked_add.
    rewrite !(proj2 (Z.ltb_lt _ _)) by lia. cbn [ensure ok_or outcome_bind].
    eapply unless_zero_bind.
    { unfold member_hash. cbn [member_id member_slot_count member_encoding_version slot_offset member_type_hash].
      rewrite !(proj2 (Z.ltb_lt _ _)), Z.eqb_refl by lia. cbn [ensure outcome_bind]. apply ensure_not_default. }
    cbn [member_slot_count]. rewrite (proj2 (Z.ltb_lt _ _)) by lia. cbn [ok_or outcome_bind].
    eapply unless_zero_bind; [exact Hok|]. left. cbn [foldr member_leaves fmap list_fmap].
    replace (Z.of_nat (S index)) with (Z.of_nat index + 1) by lia. do 2 f_equal. lia.
Qed.

Lemma struct_type_layout_ok ts h :
  Forall good ts → type_slots (SStruct ts h) ≤ MAX_SLOT_COUNT → ts ≠ [] → (h < 64)%nat →
  Z.of_nat (length ts) ≤ 2 ^ Z.of_nat h →
  unless_zero (let* l := struct_type_layout (type_summary <$> ts) h in Ok (summary l))
    (if (h <? 58)%nat then Ok (type_summary (SStruct ts h)) else Panic).
Proof.
  intros Hg Hs Hne Hh Hcap. unfold struct_type_layout. rewrite bool_decide_false by (by destruct ts).
  cbn [negb ensure outcome_bind]. rewrite checked_capacity_spec, (proj2 (Nat.ltb_lt _ _)) by done.
  cbn [outcome_bind]. rewrite length_fmap, (proj2 (Z.leb_le _ _)) by done. cbn [ensure outcome_bind].
  unfold MAX_SLOT_COUNT in Hs. cbn [type_slots] in Hs.
  destruct (members_loop_ok ts 0 0) as (ms & Hlen & Hok);
    [eapply Forall_impl; [exact Hg|]; intros t [_ ?]; lia|lia|lia|lia|].
  assert (∀ A B C (o : outcome A) (k : A → outcome B) (k' : B → outcome C),
    (let* l := (let* x := o in k x) in k' l) = (let* x := o in let* l := k x in k' l)) as Hassoc by (by intros ? ? ? []).
  rewrite Hassoc. eapply unless_zero_bind; [exact Hok|]. cbv beta iota. rewrite padded_merkle_root_spec.
  set (leaves := member_leaves _ _ _). assert (length leaves = length ts) as Hll.
  { unfold leaves. by rewrite length_member_leaves, length_fmap. }
  rewrite Hll, (proj2 (Nat.ltb_lt h 64)), (proj2 (Z.leb_le _ _)) by done.
  destruct (h <? 58)%nat; cbn [outcome_bind]; [|by left].
  unfold is_default. case_bool_decide as E; cbn [negb ensure outcome_bind]; [right; by do 2 eexists|left].
  cbn [summary]. unfold type_summary. cbn [type_hash type_slots]. rewrite Hlen. done.
Qed.

(** *** One node *)
Local Ltac lookup_fmap :=
  repeat match goal with H : (_ <$> _) !! _ = Some _ |- _ => rewrite list_lookup_fmap in H end.

Lemma check_members_Ok (types : list state_type) ms :
  check_members (length types) (contains_map_type <$> types) ms = Ok tt →
  ∃ ts, mapM (λ m, types !! m) ms = Some ts ∧ Forall (λ t, contains_map_type t = false) ts.
Proof.
  induction ms as [|m ms IH]; intros Hc; [by exists []|]. cbn [check_members] in Hc.
  unfold ensure_child in Hc. outcome_inv. destruct (IH Hc) as (ts & Hts & Hall).
  rewrite list_lookup_fmap in E0. destruct (types !! m) as [t|] eqn:Em; [|done]. injection E0 as <-.
  exists (t :: ts). split; [cbn [mapM]; rewrite Em; cbn; by rewrite Hts|].
  constructor; [|done]. by apply negb_true_iff.
Qed.

Lemma struct_slots_Ok (types : list state_type) ms ts : mapM (λ m, types !! m) ms = Some ts → ∀ total s,
  struct_slots (type_slots <$> types) total ms = Ok s →
  s = total + foldr (λ m acc, type_slots m + acc) 0 ts ∧ (ms ≠ [] → s ≤ MAX_SLOT_COUNT).
Proof.
  revert ts. induction ms as [|m ms IH]; intros ts Hts total s Hs.
  - injection Hts as <-. injection Hs as <-. simpl. split; [lia|done].
  - cbn [mapM] in Hts. destruct (types !! m) as [t|] eqn:Em; [|done]. cbn in Hts.
    destruct (mapM _ ms) as [ts'|] eqn:Ems; [|done]. injection Hts as <-.
    cbn [struct_slots] in Hs. rewrite list_lookup_fmap, Em in Hs. cbn [fmap option_fmap option_map unwrap outcome_bind] in Hs.
    destruct (checked_add 64 total (type_slots t)) as [x|] eqn:Ex; [|done]. outcome_inv.
    destruct (Z.leb_spec (total + type_slots t) MAX_SLOT_COUNT); [|done]. injection E as <-.
    destruct (IH ts' eq_refl _ _ Hs) as [-> Hmax]. simpl. split; [lia|]. intros _.
    destruct ms; [injection Ems as <-; simpl; lia|by apply Hmax].
Qed.

Lemma collect_summaries_Ok (types : list state_type) ms ts :
  mapM (λ m, types !! m) ms = Some ts → collect_summaries (type_summary <$> types) ms = Ok (type_summary <$> ts).
Proof.
  revert ts. induction ms as [|m ms IH]; intros ts Hts; [by injection Hts as <-|].
  cbn [mapM] in Hts. destruct (types !! m) as [t|] eqn:Em; [|done]. cbn in Hts.
  destruct (mapM _ ms) as [ts'|] eqn:Ems; [|done]. injection Hts as <-.
  cbn [collect_summaries]. rewrite list_lookup_fmap, Em. cbn. by rewrite (IH ts').
Qed.

Lemma bounded_mul_Ok x n msg r : bounded_mul x n msg = Ok r → r = x * n ∧ r ≤ MAX_SLOT_COUNT.
Proof.
  unfold bounded_mul. destruct (checked_mul 64 x n) as [y|] eqn:E; [|done]. outcome_inv. intros Hr. outcome_inv.
  destruct (Z.leb_spec (x * n) MAX_SLOT_COUNT); [|done]. by injection Hr as <-.
Qed.

Lemma mapM_good (types : list state_type) ms ts :
  Forall good types → mapM (λ m, types !! m) ms = Some ts → Forall good ts ∧ length ts = length ms.
Proof.
  intros Hg Hts. apply mapM_Some_1 in Hts. split; [|symmetry; by eapply Forall2_length].
  induction Hts as [|m t ms ts Hm _ IH]; constructor; [|done]. by apply (Forall_lookup_1 _ _ _ _ Hg Hm).
Qed.

Lemma struct_slots_positive ts : ts ≠ [] → Forall good ts → 0 < foldr (λ m acc, type_slots m + acc) 0 ts.
Proof.
  intros Hne Hg. assert (0 ≤ foldr (λ m acc, type_slots m + acc) 0 (tail ts)).
  { destruct ts; [done|]. apply Forall_cons in Hg as [_ Hg]. simpl. clear Hne.
    induction Hg as [|t' ts' [_ ?] _ IH]; simpl; lia. }
  destruct ts as [|t ts]; [done|]. apply Forall_cons in Hg as [[_ ?] _]. simpl in *. lia.
Qed.

(** The padded members of a struct fit in the address space. *)
Definition node_small (node : CanonicalTypeLayoutNode) : bool :=
  match node with NStruct _ members_tree_height => (members_tree_height <? 58)%nat | _ => true end.

(** A node that passes denotes a type, has its slots and evaluates to its summary,
    or panics when it is a struct with a members tree that is too high. *)
Definition node_ok (types : list state_type) (node : CanonicalTypeLayoutNode) (slots : Z) (m : bool) (t : state_type) : Prop :=
  node_type types node = Some t ∧ good t ∧ slots = type_slots t ∧ m = contains_map_type t ∧
  unless_zero (evaluate_node (type_summary <$> types) node) (if node_small node then Ok (type_summary t) else Panic).

Lemma array_node types e n slots m :
  Forall good types →
  validate_node (length types) (type_slots <$> types) (contains_map_type <$> types) (NFixedArray e n) = Ok (slots, m) →
  ∃ t, node_ok types (NFixedArray e n) slots m t.
Proof.
  intros Hg Hv. cbn [validate_node] in Hv. unfold ensure_child in Hv. outcome_inv.
  lookup_fmap. destruct (types !! e) as [t|] eqn:Et; [|done]. simplify_eq/=.
  destruct (Forall_lookup_1 _ _ _ _ Hg Et) as [Hwf Hpos]. apply negb_true_iff in E3.
  apply bounded_mul_Ok in E5 as [-> Hmax]. unfold MAX_SLOT_COUNT in *.
  exists (SArray t n). split_and!; cbn [node_type type_slots contains_map_type evaluate_node]; try done.
  - by rewrite Et.
  - split; [constructor; unfold MAX_SLOT_COUNT; (done || lia)|cbn [type_slots]; unfold MAX_SLOT_COUNT; nia].
  - lia.
  - rewrite list_lookup_fmap, Et. cbn [fmap option_fmap option_map unwrap outcome_bind].
    apply array_type_layout_ok; lia.
Qed.

Lemma map_node types k key v c a slots m :
  Forall good types →
  validate_node (length types) (type_slots <$> types) (contains_map_type <$> types) (NFixedMap k key v c a)
    = Ok (slots, m) →
  ∃ t, node_ok types (NFixedMap k key v c a) slots m t.
Proof.
  intros Hg Hv. cbn [validate_node] in Hv. unfold ensure_child in Hv. outcome_inv.
  lookup_fmap. destruct (types !! key) as [tk|] eqn:Ek; [|done]. simplify_eq/=.
  destruct (contains_map_type tk) eqn:Emk; [done|]. outcome_inv.
  lookup_fmap. destruct (types !! v) as [tv|] eqn:Ev; [|done]. simplify_eq/=.
  destruct (Forall_lookup_1 _ _ _ _ Hg Ek) as [Hwfk _]. destruct (Forall_lookup_1 _ _ _ _ Hg Ev) as [Hwfv Hpos].
  apply negb_true_iff in E6. apply andb_prop in E3 as [[_ Ha]%andb_prop Ha']. zify_bool.
  apply bounded_mul_Ok in E8 as [-> Hmax]. unfold MAX_SLOT_COUNT in *.
  exists (SMap k tk tv c a). split_and!; cbn [node_type type_slots contains_map_type evaluate_node]; try done.
  - by rewrite Ek, Ev.
  - split; [constructor; unfold MAX_SLOT_COUNT; (done || lia)|cbn [type_slots]; unfold MAX_SLOT_COUNT; nia].
  - lia.
  - rewrite !list_lookup_fmap, Ek, Ev. cbn [fmap option_fmap option_map unwrap outcome_bind].
    apply map_type_layout_ok; (done || lia).
Qed.

Lemma struct_node types ms h slots m :
  Forall good types →
  validate_node (length types) (type_slots <$> types) (contains_map_type <$> types) (NStruct ms h) = Ok (slots, m) →
  ∃ t, node_ok types (NStruct ms h) slots m t.
Proof.
  intros Hg Hv. cbn [validate_node] in Hv. outcome_inv. rewrite checked_capacity_spec in E1.
  destruct (Nat.ltb_spec h 64); [|done]. injection E1 as <-.
  apply negb_true_iff, bool_decide_eq_false in E. apply Nat.leb_le in E0.
  apply check_members_Ok in E3 as (ts & Hts & Hnm). destruct (mapM_good types ms ts Hg Hts) as [Hgts Hlen].
  apply (struct_slots_Ok types ms ts Hts) in E4 as [-> Hmax]. specialize (Hmax E). rewrite Z.add_0_l in *.
  assert (ts ≠ []) as Hne by (intros ->; destruct ms; done). pose proof (struct_slots_positive ts Hne Hgts) as Hpos.
  exists (SStruct ts h). split_and!; cbn [node_type contains_map_type evaluate_node]; try done.
  - by rewrite Hts.
  - split; [constructor; try (done || lia)|done]. eapply Forall_impl; [exact Hgts|]. by intros t [? _].
  - rewrite (collect_summaries_Ok types ms ts Hts). cbn [outcome_bind].
    apply struct_type_layout_ok; (done || lia).
Qed.

Lemma node_step types node slots m :
  Forall good types →
  validate_node (length types) (type_slots <$> types) (contains_map_type <$> types) node = Ok (slots, m) →
  ∃ t, node_ok types node slots m t.
Proof.
  intros Hg Hv. destruct node as [tag|e n|k key v c a|ms h];
    [|by apply array_node|by apply map_node|by apply struct_node].
  injection Hv as <- <-. exists (SPrimitive tag).
  split_and!; try done; [split; [constructor|destruct tag; unfold MAX_SLOT_COUNT; simpl; lia]|].
  apply primitive_type_layout_ok.
Qed.

Lemma nodes_steps ns : ∀ types r,
  Forall good types → validate_nodes (type_slots <$> types) (contains_map_type <$> types) ns = Ok r →
  ∃ types', nodes_types types ns = Some (types ++ types') ∧ length types' = length ns ∧
    Forall good (types ++ types') ∧
    unless_zero (evaluate_nodes (type_summary <$> types) ns)
      (if forallb node_small ns then Ok (type_summary <$> (types ++ types')) else Panic).
Proof.
  induction ns as [|node ns IH]; intros types r Hg Hv.
  - exists []. rewrite app_nil_r. split_and!; try done. by left.
  - cbn [validate_nodes] in Hv. rewrite length_fmap in Hv.
    apply outcome_bind_Ok in Hv as ([slots m] & Hn & Hv). cbv beta iota in Hv.
    destruct (node_step types node slots m Hg Hn) as (t & Ht & Hgt & -> & -> & Hok).
    change ([type_slots t]) with (type_slots <$> [t]) in Hv.
    change ([contains_map_type t]) with (contains_map_type <$> [t]) in Hv. rewrite <- !fmap_app in Hv.
    apply IH in Hv as (types' & Hts & Hlen & Hgood & Hrest); [|apply Forall_app; by split; [|constructor]].
    rewrite <- app_assoc in *. exists (t :: types'). split_and!; [|simpl; lia|done|].
    + cbn [nodes_types]. rewrite Ht. exact Hts.
    + cbn [evaluate_nodes forallb]. destruct (node_small node); cbn [andb].
      * eapply unless_zero_bind; [exact Hok|]. by rewrite fmap_app in Hrest.
      * by apply unless_zero_panic.
Qed.

(** *** Checking never panics *)
Lemma graceful_members n contains counts ms : length contains = n → length counts = n →
  graceful (check_members n contains ms) ∧
  (∀ total, check_members n contains ms = Ok tt → graceful (struct_slots counts total ms)).
Proof.
  intros Hc Hn. induction ms as [|m ms [IH1 IH2]]; [done|]. cbn [check_members struct_slots]. unfold ensure_child. split.
  - graceful. outcome_inv. apply Nat.ltb_lt in E. apply graceful_unwrap, lookup_lt_is_Some. lia.
  - intros total Hm. outcome_inv. apply Nat.ltb_lt in E. graceful.
    apply graceful_unwrap, lookup_lt_is_Some. lia.
Qed.

Lemma graceful_node counts contains node : length contains = length counts →
  graceful (validate_node (length counts) counts contains node).
Proof.
  intros Hc. destruct node as [tag|e n|k key v c a|ms h]; cbn [validate_node]; unfold ensure_child, bounded_mul.
  - done.
  - graceful; outcome_inv; apply Nat.ltb_lt in E; apply graceful_unwrap, lookup_lt_is_Some; lia.
  - graceful; outcome_inv; apply Nat.ltb_lt in E, E0; apply graceful_unwrap, lookup_lt_is_Some; lia.
  - destruct (graceful_members (length counts) contains counts ms) as [Hg1 Hg2]; [done|done|].
    graceful; [rewrite checked_capacity_spec; by case_bool|]. outcome_inv. by apply Hg2.
Qed.

Lemma graceful_nodes ns : ∀ counts contains, length contains = length counts →
  graceful (validate_nodes counts contains ns).
Proof.
  induction ns as [|node ns IH]; intros counts contains Hc; cbn [validate_nodes]; [done|].
  graceful; [by apply graceful_node|]. apply IH. rewrite !length_app. simpl. lia.
Qed.
End type_hash.

(** C30: type graphs. Checking the shape of a type graph never panics, and a graph
    that fails is not evaluated. A graph that passes denotes a type of the canonical
    range (of at most [2 ^ 34] slots, with maps at the top only). When every struct of it
    has a members tree of height below 58, its evaluation returns the commitment to
    that type and its number of slots, which do not depend on how the graph shares
    nodes. With a members tree of height 58 to 63, which the check lets pass, the
    evaluation panics: the padded members do not fit in the address space. In both cases
    it can instead be an error, when some sequence of felts hashes to the default hash. *)
Theorem type_graph_evaluates {F : Type} `{EqDecision Hash, MerkleHasher Hash, FieldHash F Hash}
    (dag : CanonicalTypeLayoutDag) :
  match validate_shape dag with
  | Ok _ => ∃ t, dag_type dag = Some t ∧ type_wf t ∧ 0 < type_slots t ≤ MAX_SLOT_COUNT ∧
      (evaluate dag = (if forallb node_small (nodes dag) then Ok (mkSummary (type_hash t) (type_slots t)) else Panic) ∨
       ∃ e l, evaluate dag = Err e ∧ q_hash_many l = (hash_default : Hash))
  | Err e => evaluate dag = (Err e : outcome (StateTypeLayoutSummary Hash))
  | _ => False
  end.
Proof.
  destruct (validate_shape dag) as [[]|e| |] eqn:Hv.
  - unfold evaluate. rewrite Hv. cbn [outcome_bind]. unfold validate_shape in Hv. outcome_inv.
    apply negb_true_iff, bool_decide_eq_false in E. apply Nat.eqb_eq in E1.
    change (validate_nodes (type_slots <$> []) (contains_map_type <$> []) (nodes dag) = Ok r2) in E2.
    apply nodes_steps in E2 as (types & Hts & Hlen & Hg & Hok); [|constructor]. simpl in *.
    destruct (lookup_lt_is_Some_2 types (root dag)) as [t Ht].
    { destruct (nodes dag); [done|]. simpl in *. lia. }
    exists t. unfold dag_type. rewrite Hts. cbn. destruct (Forall_lookup_1 _ _ _ _ Hg Ht) as [Hwf Hpos].
    split_and!; [done|done|lia|lia|]. destruct Hok as [->|(e & l & -> & Hl)]; [left|right; by exists e, l].
    destruct (forallb node_small (nodes dag)); cbn [outcome_bind]; [|done]. by rewrite list_lookup_fmap, Ht.
  - unfold evaluate. by rewrite Hv.
  - assert (graceful (validate_shape dag)) as Hg; [|by rewrite Hv in Hg].
    unfold validate_shape. graceful. by apply graceful_nodes.
  - assert (graceful (validate_shape dag)) as Hg; [|by rewrite Hv in Hg].
    unfold validate_shape. graceful. by apply graceful_nodes.
Qed.

(** A struct with one member and a members tree of height 58 passes the check and panics. *)
Lemma tall_struct_panics :
  let dag := mkDag [NPrimitive TFelt; NStruct [0%nat] 58] 1 in
  validate_shape dag = Ok tt ∧ evaluate dag = (Panic : outcome (StateTypeLayoutSummary felts4)).
Proof. split; vm_compute; reflexivity. Qed.
