(* ===== verification/LayoutAppend.v ===== *)
(** * Appending to a contract's state layout

    [psy_data/src/v1/qdata/contract/layout.rs], second part: the witness of one
    append window (a Spiderman proof over the layout tree together with the
    appended fields), the public inputs of layout transitions, their aggregation,
    and the check that binds a transition to the contract leaves before and after
    an update. *)
From stdpp Require Import prelude list strings.
From Stdlib Require Import ZArith Lia.
From S2P Require Import Prelude MerkleKey MerkleHash FieldHash MerkleProof Spiderman Layout.

Definition STATE_LAYOUT_APPEND_BATCH_DOMAIN : Z := 0x534c42415631.
Definition STATE_LAYOUT_APPEND_AGG_DOMAIN : Z := 0x534c41475631.

(** ** Data *)
Record LayoutAppendPublicInputs (Hash : Type) : Type := mkPublicInputs {
  contract_id : Z;
  layout_version : Z;
  old_layout_root : Hash;
  old_layout_field_count : Z;
  old_layout_slot_count : Z;
  new_layout_root : Hash;
  new_layout_field_count : Z;
  new_layout_slot_count : Z;
  appended_field_count : Z;
  appended_fields_commitment : Hash;
}.
Arguments mkPublicInputs {Hash}.
Arguments contract_id {Hash}.
Arguments layout_version {Hash}.
Arguments old_layout_root {Hash}.
Arguments old_layout_field_count {Hash}.
Arguments old_layout_slot_count {Hash}.
Arguments new_layout_root {Hash}.
Arguments new_layout_field_count {Hash}.
Arguments new_layout_slot_count {Hash}.
Arguments appended_field_count {Hash}.
Arguments appended_fields_commitment {Hash}.

Record LayoutAppendBatchWitness (Hash : Type) : Type := mkBatch {
  spiderman_update_proof : SpidermanUpdateProof Hash;
  appended_fields : list (StateFieldLayoutLeaf Hash);
  appended_type_layouts : list (StateTypeLayoutWitness Hash);
  canonical_type_proofs : list (list Z);      (* serialised proofs, as bytes *)
  public_inputs : LayoutAppendPublicInputs Hash;
}.
Arguments mkBatch {Hash}.
Arguments spiderman_update_proof {Hash}.
Arguments appended_fields {Hash}.
Arguments appended_type_layouts {Hash}.
Arguments canonical_type_proofs {Hash}.
Arguments public_inputs {Hash}.

Section append.
Context {F : Type} `{EqDecision Hash, MerkleHasher Hash, FieldHash F Hash}.
Implicit Types (p left right : LayoutAppendPublicInputs Hash).

(** [LayoutAppendPublicInputs::validate_shape] *)
Definition inputs_validate_shape p : outcome unit :=
  let* _ := ensure (layout_version p =? STATE_LAYOUT_VERSION) "unsupported layout version" in
  let* count := ok_or (checked_add 64 (old_layout_field_count p) (appended_field_count p))
    "layout field count overflow" in
  let* _ := ensure (new_layout_field_count p =? count)
    "layout field-count transition does not match appended count" in
  let* _ := ensure (old_layout_slot_count p <=? new_layout_slot_count p) "layout slot count cannot decrease" in
  if appended_field_count p =? 0 then
    let* _ := ensure (bool_decide (old_layout_root p = new_layout_root p))
      "identity layout transition must preserve the root" in
    ensure (old_layout_slot_count p =? new_layout_slot_count p)
      "identity layout transition must preserve slot count"
  else Ok tt.

Definition compute_layout_batch_commitment (contract_id old_layout_field_count old_layout_slot_count : Z)
    (appended_field_count : nat) (fixed_batch_field_hashes : list Hash) : outcome Hash :=
  let* _ := ensure (appended_field_count <=? length fixed_batch_field_hashes)%nat
    "appended field count exceeds fixed batch size" in
  let committed_field_count := length (filter (λ h, h ≠ hash_default) fixed_batch_field_hashes) in
  let* _ := ensure (committed_field_count =? appended_field_count)%nat "batch commitment field hashes" in
  Ok (q_hash_many
    ([from_u64_value STATE_LAYOUT_APPEND_BATCH_DOMAIN; from_u64_value contract_id;
      from_u64_value old_layout_field_count; from_u64_value old_layout_slot_count;
      from_u64_value (Z.of_nat appended_field_count)] ++
     concat (felts_of <$> fixed_batch_field_hashes))).

(** The window, position by position: [fixed] are the hashes of the appended fields
    at their positions, [next_slot] the first free slot. *)
Fixpoint batch_loop (old_prefix_len : nat) (window_start : Z) (fields : list (StateFieldLayoutLeaf Hash))
    (types : list (StateTypeLayoutWitness Hash)) (index : nat) (leaves : list (Hash * Hash))
    (next_slot : Z) (fixed : list Hash) : outcome (Z * list Hash) :=
  match leaves with
  | [] => Ok (next_slot, fixed)
  | (old_hash, new_hash) :: leaves =>
      if (index <? old_prefix_len)%nat then
        let* _ := ensure (bool_decide (old_hash = new_hash)) "existing layout field was modified" in
        batch_loop old_prefix_len window_start fields types (S index) leaves next_slot fixed
      else
        let appended_index := (index - old_prefix_len)%nat in
        match fields !! appended_index with
        | Some field =>
            let* ty := unwrap (types !! appended_index) in
            let* _ := validate_field ty field in
            let* _ := ensure (is_default old_hash) "append position was already occupied" in
            let* id := ok_or (match checked_add 64 window_start (Z.of_nat index) with
                              | Some value => checked_add 64 value 1 | None => None end)
              "layout field id overflow" in
            let* _ := ensure (field_id field =? id) "appended field id is not contiguous" in
            let* _ := ensure (start_slot field =? next_slot) "appended field slot range is not contiguous" in
            let* hash := field_hash field in
            let* _ := ensure (bool_decide (new_hash = hash)) "new layout leaf does not match appended field" in
            let* next_slot := ok_or (checked_add 64 next_slot (slot_count field)) "layout slot frontier overflow" in
            batch_loop old_prefix_len window_start fields types (S index) leaves next_slot (<[index := hash]> fixed)
        | None =>
            let* _ := ensure (is_default old_hash && is_default new_hash)
              "layout append has an uncommitted changed position" in
            batch_loop old_prefix_len window_start fields types (S index) leaves next_slot fixed
        end
  end.

(** [LayoutAppendBatchWitness::validate] *)
Definition batch_validate (self : LayoutAppendBatchWitness Hash) : outcome unit :=
  let p := public_inputs self in
  let proof := spiderman_update_proof self in
  let* _ := inputs_validate_shape p in
  let* ok := verify_spiderman proof in
  let* _ := ensure ok "invalid layout Spiderman update proof" in
  let old_leaves := web_proof_old_leaves proof in
  let new_leaves := web_proof_new_leaves proof in
  let* _ := ensure ((length old_leaves =? length new_leaves)%nat && negb (bool_decide (old_leaves = [])) &&
                    is_power_of_two (Z.of_nat (length old_leaves)))
    "layout append window must be a non-empty power of two" in
  let* _ := ensure (Z.of_nat (length (appended_fields self)) =? appended_field_count p)
    "appended field witness length does not match public inputs" in
  let* _ := ensure (length (appended_fields self) =? length (appended_type_layouts self))%nat
    "every appended field must have one canonical type-layout witness" in
  let* _ := ensure (length (appended_fields self) =? length (canonical_type_proofs self))%nat
    "every appended field must have one canonical type proof" in
  let* _ := ensure (forallb (λ proof : list Z, negb (bool_decide (proof = []))) (canonical_type_proofs self))
    "canonical type proof bytes cannot be empty" in
  let old_prefix_len := count_while (λ h, negb (is_default h)) old_leaves in
  let* window_start := ok_or (checked_mul 64 (dmp_index (top_line_proof proof)) (Z.of_nat (length old_leaves)))
    "layout window index overflow" in
  let* frontier := ok_or (checked_add 64 window_start (Z.of_nat old_prefix_len)) "layout field frontier overflow" in
  let* _ := ensure (old_layout_field_count p =? frontier)
    "old layout field count is not the selected append frontier" in
  let* (next_slot, fixed) := batch_loop old_prefix_len window_start (appended_fields self)
    (appended_type_layouts self) 0 (zip old_leaves new_leaves) (old_layout_slot_count p)
    (replicate (length old_leaves) hash_default) in
  let* _ := ensure (bool_decide (old_layout_root p = old_root (top_line_proof proof)) &&
                    bool_decide (new_layout_root p = new_root (top_line_proof proof)))
    "layout roots do not match Spiderman proof" in
  let* _ := ensure (new_layout_slot_count p =? next_slot) "new layout slot count does not match appended fields" in
  let* expected_commitment := compute_layout_batch_commitment (contract_id p) (old_layout_field_count p)
    (old_layout_slot_count p) (length (appended_fields self)) fixed in
  ensure (bool_decide (appended_fields_commitment p = expected_commitment)) "appended fields commitment mismatch".

Definition aggregate_layout_transitions left right : outcome (LayoutAppendPublicInputs Hash) :=
  let* _ := inputs_validate_shape left in
  let* _ := inputs_validate_shape right in
  let* _ := ensure (contract_id left =? contract_id right)
    "cannot aggregate layout proofs for different contracts" in
  let* _ := ensure (layout_version left =? layout_version right) "cannot aggregate different layout versions" in
  let* _ := ensure (bool_decide (new_layout_root left = old_layout_root right)) "layout roots are not continuous" in
  let* _ := ensure (new_layout_field_count left =? old_layout_field_count right)
    "layout field counts are not continuous" in
  let* _ := ensure (new_layout_slot_count left =? old_layout_slot_count right)
    "layout slot counts are not continuous" in
  let* count := ok_or (checked_add 64 (appended_field_count left) (appended_field_count right))
    "aggregated field count overflow" in
  let commitment := q_hash_many
    ([from_u64_value STATE_LAYOUT_APPEND_AGG_DOMAIN] ++ felts_of (appended_fields_commitment left) ++
     [from_u64_value (appended_field_count left)] ++ felts_of (appended_fields_commitment right) ++
     [from_u64_value (appended_field_count right)]) in
  let parent := mkPublicInputs (contract_id left) (layout_version left) (old_layout_root left)
    (old_layout_field_count left) (old_layout_slot_count left) (new_layout_root right)
    (new_layout_field_count right) (new_layout_slot_count right) count commitment in
  let* _ := inputs_validate_shape parent in
  Ok parent.
End append.

(** Spiderman proofs over trees whose empty leaves are the default hash. *)
Definition default_zero `{FieldHash F Hash} : ZeroableHash Hash := (hash_default : Hash).
#[local] Existing Instance default_zero.

(** ** One window *)
Section window.
Context {F : Type} `{EqDecision Hash, MerkleHasher Hash, FieldHash F Hash}.
Implicit Types (fs : list (StateFieldLayoutLeaf Hash)) (types : list (StateTypeLayoutWitness Hash))
  (leaves : list (Hash * Hash)) (fixed hs : list Hash).

Lemma batch_loop_prefix pl ws fs types l1 : ∀ index l2 ns fixed r,
  (index + length l1 ≤ pl)%nat →
  batch_loop pl ws fs types index (l1 ++ l2) ns fixed = Ok r →
  l1.*1 = l1.*2 ∧ batch_loop pl ws fs types (index + length l1) l2 ns fixed = Ok r.
Proof.
  induction l1 as [|[o w] l1 IH]; intros index l2 ns fixed r Hle Hl; simpl in *.
  - by rewrite Nat.add_0_r.
  - rewrite (proj2 (Nat.ltb_lt _ _)) in Hl by lia. outcome_inv. apply bool_decide_eq_true in E as ->.
    apply IH in Hl as [Heq Hl]; [|lia]. split; [by f_equal|]. by rewrite <- Nat.add_succ_comm.
Qed.

Definition typed types fs : Prop := Forall2 (λ ty f, validate_field ty f = Ok tt) types fs.

Lemma batch_loop_append pl ws fs types leaves : ∀ index ns fixed ns' fixed',
  (pl ≤ index)%nat → (index + length leaves ≤ length fixed)%nat → length fs = length types →
  batch_loop pl ws fs types index leaves ns fixed = Ok (ns', fixed') →
  let todo := take (length leaves) (drop (index - pl) fs) in
  ∃ hs, hashed todo hs ∧ contiguous_from (ws + Z.of_nat index) ns todo ∧ ns' = ns + slots_of todo ∧
    (ns < 2 ^ 64 → ns' < 2 ^ 64) ∧
    leaves.*1 = replicate (length leaves) hash_default ∧
    leaves.*2 = hs ++ replicate (length leaves - length hs) hash_default ∧
    fixed' = take index fixed ++ hs ++ drop (index + length hs) fixed ∧
    typed (take (length leaves) (drop (index - pl) types)) todo.
Proof.
  induction leaves as [|[o w] leaves IH]; intros index ns fixed ns' fixed' Hpl Hlen Hty Hl; cbn [batch_loop] in Hl.
  - injection Hl as <- <-. exists []. simpl. rewrite Nat.add_0_r, take_drop.
    split_and!; (done || constructor || lia).
  - rewrite (proj2 (Nat.ltb_ge _ _)) in Hl by lia. simpl in Hlen.
    destruct (fs !! (index - pl)%nat) as [f|] eqn:Ef.
    + apply outcome_bind_Ok in Hl as (ty & Hty' & Hl). apply unwrap_Ok in Hty'.
      apply outcome_bind_Ok in Hl as ([] & Hvf & Hl). apply outcome_bind_Ok in Hl as ([] & Ho & Hl).
      apply ensure_Ok, bool_decide_eq_true in Ho as ->.
      apply outcome_bind_Ok in Hl as (id & Hid & Hl). apply ok_or_Ok in Hid.
      destruct (checked_add 64 ws (Z.of_nat index)) as [v|] eqn:Ev; [|done]. outcome_inv.
      apply bool_decide_eq_true in E2 as ->.
      apply IH in Hl as (hs & Hh & Hc & -> & Hlt & H1 & H2 & -> & Hall);
        [|lia|rewrite length_insert; lia|done].
      rewrite (drop_S _ _ _ Ef), (drop_S _ _ _ Hty'). simpl.
      replace (S index - pl)%nat with (S (index - pl)) in * by lia.
      exists (r1 :: hs). simpl. split_and!.
      * by constructor.
      * lia.
      * done.
      * by replace (ws + Z.of_nat index + 1) with (ws + Z.of_nat (S index)) by lia.
      * lia.
      * intros. apply Hlt. lia.
      * by f_equal.
      * by f_equal.
      * rewrite (take_S_r _ _ r1) by (apply list_lookup_insert_eq; lia).
        rewrite take_insert_ge, <- app_assoc, drop_insert_lt by lia. by rewrite Nat.add_succ_r.
      * by constructor.
    + apply lookup_ge_None in Ef. outcome_inv. apply andb_prop in E as [Ho%bool_decide_eq_true Hw%bool_decide_eq_true].
      apply IH in Hl as (hs & Hh & Hc & Hns & Hlt & H1 & H2 & Hfx & Hall); [|lia|lia|done].
      rewrite !(drop_ge _ (S index - pl)) in * by lia. rewrite !(drop_ge _ (index - pl)) by lia.
      rewrite !take_nil in *. apply Forall2_nil_inv_l in Hh as ->. simpl in *.
      exists []. simpl. rewrite Nat.add_0_r in *. rewrite take_drop in *.
      split_and!; try done; [constructor|by f_equal|]. rewrite Nat.sub_0_r in *. by f_equal.
Qed.

Lemma count_while_le (q : Hash → bool) (l : list Hash) : (count_while q l ≤ length l)%nat.
Proof. induction l as [|x l IH]; simpl; [lia|]. destruct (q x); lia. Qed.

(** Only the appended fields are counted by the commitment. *)
Lemma filter_fixed n m hs : Forall (λ h, h ≠ hash_default) hs →
  length (filter (λ h : Hash, h ≠ hash_default) (replicate n hash_default ++ hs ++ replicate m hash_default)) = length hs.
Proof.
  intros Hne. rewrite !filter_app, !length_app.
  assert (∀ k, filter (λ h : Hash, h ≠ hash_default) (replicate k hash_default) = []) as Hz.
  { intros k. induction k as [|k IH]; [done|]. simpl. rewrite filter_cons_False by naive_solver. done. }
  rewrite !Hz. simpl. rewrite Nat.add_0_r. f_equal.
  induction Hne; [done|]. rewrite filter_cons_True by done. by f_equal.
Qed.

Lemma hashed_nonzero fs hs : hashed fs hs → Forall (λ h, h ≠ hash_default) hs.
Proof. induction 1 as [|f h fs hs Hf _ IH]; constructor; [|done]. by apply field_hash_Ok in Hf as (_ & _ & _ & ?). Qed.

Lemma window_of_loop olds news pl ws fs types ns0 ns fixed n :
  length olds = n → length news = n → (pl ≤ n)%nat → length fs = length types →
  batch_loop pl ws fs types 0 (zip olds news) ns0 (replicate n hash_default) = Ok (ns, fixed) →
  length (filter (λ h, h ≠ hash_default) fixed) = length fs →
  ∃ hs, hashed fs hs ∧ contiguous_from (ws + Z.of_nat pl) ns0 fs ∧ ns = ns0 + slots_of fs ∧
    (ns0 < 2 ^ 64 → ns < 2 ^ 64) ∧ typed types fs ∧ (pl + length hs ≤ n)%nat ∧
    olds = take pl olds ++ replicate (n - pl) hash_default ∧
    news = take pl olds ++ hs ++ replicate (n - pl - length hs) hash_default.
Proof.
  intros Ho Hn Hpl Hty Hl Hcount.
  rewrite <- (take_drop pl olds), <- (take_drop pl news), zip_with_app in Hl by (rewrite !length_take; lia).
  assert (length (take pl olds) = pl) as Hto by (rewrite length_take; lia).
  assert (length (take pl news) = pl) as Htn by (rewrite length_take; lia).
  apply batch_loop_prefix in Hl as [Hpre Hl]; [|rewrite length_zip_with; lia].
  rewrite fst_zip, snd_zip in Hpre by lia. rewrite length_zip_with, Hto, Htn, Nat.min_id, Nat.add_0_l in Hl.
  assert (length (zip (drop pl olds) (drop pl news)) = n - pl)%nat as Hlz
    by (rewrite length_zip_with, !length_drop; lia).
  apply batch_loop_append in Hl as (hs & Hh & Hc & Hns & Hlt & H1 & H2 & Hfx & Hall);
    [|lia|rewrite Hlz, length_replicate; lia|done].
  rewrite Hlz, Nat.sub_diag, !drop_0 in *. rewrite fst_zip in H1 by (rewrite !length_drop; lia).
  rewrite snd_zip in H2 by (rewrite !length_drop; lia).
  assert (length hs ≤ n - pl)%nat as Hhs by (rewrite <- (Forall2_length _ _ _ Hh), length_take; lia).
  assert (length hs = length fs) as Hlh.
  { rewrite <- Hcount, Hfx, take_replicate, drop_replicate. symmetry. apply filter_fixed. by eapply hashed_nonzero. }
  assert (take (n - pl) fs = fs) as Htake by (rewrite take_ge; [done|lia]).
  rewrite Htake in *. rewrite (take_ge types) in Hall by lia.
  exists hs. split_and!; try done; [lia| |].
  - rewrite <- H1. by rewrite take_drop.
  - rewrite <- Nat.sub_add_distr in H2. rewrite <- Nat.sub_add_distr, <- H2, Hpre. by rewrite take_drop.
Qed.

(** The window before and after a validated append. *)
Lemma batch_validate_window (w : LayoutAppendBatchWitness Hash) :
  batch_validate w = Ok tt →
  let p := public_inputs w in let proof := spiderman_update_proof w in
  let top := top_line_proof proof in let fs := appended_fields w in
  inputs_validate_shape p = Ok tt ∧ verify_spiderman proof = Ok true ∧
  ∃ wh existing hs,
    length (web_proof_new_leaves proof) = (2 ^ wh)%nat ∧
    let k := (2 ^ wh - length existing - length hs)%nat in
    (length existing + length hs + k = 2 ^ wh)%nat ∧
    web_proof_old_leaves proof = existing ++ replicate (length hs + k) hash_default ∧
    web_proof_new_leaves proof = existing ++ hs ++ replicate k hash_default ∧
    old_layout_field_count p = dmp_index top * 2 ^ Z.of_nat wh + Z.of_nat (length existing) ∧
    hashed fs hs ∧ contiguous_from (old_layout_field_count p) (old_layout_slot_count p) fs ∧
    typed (appended_type_layouts w) fs ∧
    appended_field_count p = Z.of_nat (length fs) ∧
    old_layout_root p = old_root top ∧ new_layout_root p = new_root top ∧
    new_layout_slot_count p = old_layout_slot_count p + slots_of fs ∧
    (old_layout_slot_count p < 2 ^ 64 → new_layout_slot_count p < 2 ^ 64).
Proof.
  intros Hv p proof top fs. unfold batch_validate in Hv. fold p proof top fs in Hv.
  apply outcome_bind_Ok in Hv as ([] & Hshape & Hv). apply outcome_bind_Ok in Hv as (ok & Hok & Hv).
  apply outcome_bind_Ok in Hv as ([] & Hen & Hv). apply ensure_Ok in Hen as ->.
  do 5 (apply outcome_bind_Ok in Hv as ([] & ?%ensure_Ok & Hv)).
  apply outcome_bind_Ok in Hv as (ws & [-> Hws]%ok_or_Ok%checked_mul_Some & Hv).
  apply outcome_bind_Ok in Hv as (fr & [-> Hfr]%ok_or_Ok%checked_add_Some & Hv).
  apply outcome_bind_Ok in Hv as ([] & Hfc%ensure_Ok & Hv).
  apply outcome_bind_Ok in Hv as ([ns fixed] & Hloop & Hv). cbv beta iota in Hv.
  apply outcome_bind_Ok in Hv as ([] & Hroots%ensure_Ok & Hv).
  apply outcome_bind_Ok in Hv as ([] & Hns%ensure_Ok & Hv).
  apply outcome_bind_Ok in Hv as (cm & Hcm & _). zify_bool. unfold compute_layout_batch_commitment in Hcm.
  apply outcome_bind_Ok in Hcm as ([] & _ & Hcm). apply outcome_bind_Ok in Hcm as ([] & Hcm%ensure_Ok & _).
  apply Nat.eqb_eq in Hcm, H3, H4. apply andb_prop in H1 as [[Hlen%Nat.eqb_eq _]%andb_prop Hpow].
  apply is_power_of_two_length in Hpow as [wh Hwh]. apply andb_prop in Hroots as [Hro%bool_decide_eq_true Hrn%bool_decide_eq_true].
  set (olds := web_proof_old_leaves proof) in *. set (news := web_proof_new_leaves proof) in *.
  set (pl := count_while _ olds) in *. assert (pl ≤ length olds)%nat as Hpl by apply count_while_le.
  destruct (window_of_loop olds news pl _ _ _ _ _ _ (length olds) eq_refl (eq_sym Hlen) Hpl ltac:(done) Hloop Hcm)
    as (hs & Hh & Hc & Hslots & Hlt & Hty & Hfit & Hold & Hnew).
  split_and!; [done|done|]. exists wh, (take pl olds), hs.
  assert (length (take pl olds) = pl) as Htl by (rewrite length_take; lia). rewrite Htl.
  rewrite Hwh, pow2_nat_Z in *. split; [done|]. cbv zeta. split_and!; try (done || lia).
  - by replace (length hs + (2 ^ wh - pl - length hs))%nat with (2 ^ wh - pl)%nat by lia.
  - by rewrite Hfc.
Qed.

(** Writing behind the leaves of a list is appending to it. *)
Lemma set_block_append hs hs' j :
  0 ≤ j → set_block (leaf_fn hash_default hs) (Z.of_nat (length hs)) hs' j = leaf_fn hash_default (hs ++ hs') j.
Proof.
  intros Hj. unfold leaf_fn. destruct (decide (Z.to_nat j < length hs)%nat).
  - rewrite set_block_out by lia. by rewrite app_nth1.
  - rewrite app_nth2 by lia. destruct (decide (j < Z.of_nat (length hs) + Z.of_nat (length hs'))).
    + rewrite (set_block_in _ _ _ hash_default) by lia. unfold leaf_fn. f_equal. lia.
    + rewrite set_block_out, !nth_overflow by lia. done.
Qed.

(** The hashes of fields that have one. *)
Definition hash_of (f : StateFieldLayoutLeaf Hash) : Hash :=
  match field_hash f with Ok h => h | _ => hash_default end.

Lemma hashed_hash_of fs hs : hashed fs hs → hs = hash_of <$> fs.
Proof. induction 1 as [|f h fs hs Hf _ IH]; [done|]. simpl. unfold hash_of at 1. rewrite Hf. by f_equal. Qed.

(** The proof of a batch is about a window of the layout tree of height [h]. *)
Definition window_of (h : nat) (w : LayoutAppendBatchWitness Hash) : Prop :=
  let proof := spiderman_update_proof w in let top := top_line_proof proof in
  (h < 64)%nat ∧
  Z.of_nat h = Z.log2 (Z.of_nat (length (web_proof_new_leaves proof))) + Z.of_nat (length (dmp_siblings top)) ∧
  0 ≤ dmp_index top < 2 ^ Z.of_nat (length (dmp_siblings top)).

Definition batch_collision fs (w : LayoutAppendBatchWitness Hash) : option ((Hash * Hash) * (Hash * Hash)) :=
  let proof := spiderman_update_proof w in
  spiderman_collision (leaf_fn hash_default (hash_of <$> fs))
    (Z.to_nat (Z.log2 (Z.of_nat (length (web_proof_new_leaves proof))))) proof.

Lemma batch_appends h fs (w : LayoutAppendBatchWitness Hash) :
  let p := public_inputs w in
  batch_validate w = Ok tt → window_of h w →
  layout_rep h fs (old_layout_root p) (old_layout_field_count p) (old_layout_slot_count p) →
  batch_collision fs w = None →
  layout_rep h (fs ++ appended_fields w) (new_layout_root p) (new_layout_field_count p) (new_layout_slot_count p).
Proof.
  intros p Hv (Hh & Hheight & Hidx) (Hc & (hs & Hhs & Hroot) & Hfc & Hcap & Hsc & Hlt) Hcol.
  destruct (batch_validate_window w Hv) as (Hshape & Hok & wh & existing & hs' & Hlen & Hk & Hold & Hnew & Hcount &
    Hh' & Hc' & _ & Hac & Hro & Hrn & Hslots & Hlt'). fold p in Hcount, Hc', Hac, Hro, Hrn, Hslots, Hlt', Hshape.
  set (top := top_line_proof (spiderman_update_proof w)) in *. set (k := (2 ^ wh - _ - _)%nat) in *.
  rewrite Hlen, pow2_nat_Z, Z.log2_pow2 in Hheight by lia. set (n := length (dmp_siblings top)) in *.
  pose proof (hashed_hash_of _ _ Hhs) as Hho. unfold batch_collision in Hcol.
  rewrite Hlen, pow2_nat_Z, Z.log2_pow2, Nat2Z.id, <- Hho in Hcol by lia.
  assert (length hs = length fs) as Hlhs by (symmetry; by eapply Forall2_length).
  destruct (spiderman_binds (leaf_fn hash_default hs) wh (spiderman_update_proof w)) as [Hweb Hnr];
    [done|lia|done|done|fold top n; replace (wh + n)%nat with h by lia; congruence|done|].
  fold top n in Hweb, Hnr. replace (wh + n)%nat with h in Hnr by lia.
  assert (Z.of_nat (length existing + length hs' + k) = 2 ^ Z.of_nat wh) as HkZ by (rewrite Hk; apply pow2_nat_Z).
  assert (web_filled (leaf_fn hash_default hs) (dmp_index top * 2 ^ Z.of_nat wh) wh existing) as Hfill.
  { intros j Hj. specialize (Hweb j Hj). rewrite Hold in Hweb.
    apply (nth_lookup_Some _ _ hash_default) in Hweb. rewrite <- Hweb.
    change (leaf_fn hash_default (existing ++ replicate (length hs' + k) hash_default) j = leaf_fn hash_default existing j).
    apply leaf_fn_default_pad. }
  clear Hho. unfold inputs_validate_shape in Hshape. outcome_inv. split_and!.
  - apply contiguous_app. split; [done|]. rewrite Z.add_0_l, <- Hfc, <- Hsc. done.
  - exists (hs ++ hs'). split; [by apply Forall2_app|]. rewrite Hrn, Hnr. apply tree_node_ext.
    intros j Hj. rewrite Z.mul_0_l in Hj. rewrite Hnew.
    etransitivity; [exact (set_block_web _ _ wh existing hs' k Hfill HkZ j)|].
    rewrite <- Hcount, Hfc, <- Hlhs. apply set_block_append. lia.
  - rewrite length_app. lia.
  - replace (2 ^ Z.of_nat h) with (2 ^ Z.of_nat wh * 2 ^ Z.of_nat n)
      by (rewrite <- Z.pow_add_r by lia; f_equal; lia).
    assert (length hs' = length (appended_fields w)) by (symmetry; by eapply Forall2_length). nia.
  - rewrite slots_of_app. lia.
  - lia.
Qed.
End window.

(** ** Aggregated transitions *)
Section aggregation.
Context {F : Type} `{EqDecision Hash, MerkleHasher Hash, FieldHash F Hash}.

(** Batches aggregated in some order of pairs, as the provers combine them. *)
Inductive aggregation : Type :=
  | ABatch (w : LayoutAppendBatchWitness Hash)
  | APair (l r : aggregation).

Fixpoint agg_inputs (a : aggregation) : outcome (LayoutAppendPublicInputs Hash) :=
  match a with
  | ABatch w => let* _ := batch_validate w in Ok (public_inputs w)
  | APair l r => let* pl := agg_inputs l in let* pr := agg_inputs r in aggregate_layout_transitions pl pr
  end.

Fixpoint agg_fields (a : aggregation) : list (StateFieldLayoutLeaf Hash) :=
  match a with ABatch w => appended_fields w | APair l r => agg_fields l ++ agg_fields r end.

Fixpoint agg_types (a : aggregation) : list (StateTypeLayoutWitness Hash) :=
  match a with ABatch w => appended_type_layouts w | APair l r => agg_types l ++ agg_types r end.

Fixpoint agg_windows (h : nat) (a : aggregation) : Prop :=
  match a with ABatch w => window_of h w | APair l r => agg_windows h l ∧ agg_windows h r end.

Fixpoint agg_collision (fs : list (StateFieldLayoutLeaf Hash)) (a : aggregation)
    : option ((Hash * Hash) * (Hash * Hash)) :=
  match a with
  | ABatch w => batch_collision fs w
  | APair l r => match agg_collision fs l with
                 | Some c => Some c
                 | None => agg_collision (fs ++ agg_fields l) r
                 end
  end.

Lemma agg_collision_Some a : ∀ fs x y, agg_collision fs a = Some (x, y) → x ≠ y ∧ hash_pair x = hash_pair y.
Proof.
  induction a as [w|l IHl r IHr]; intros fs x y; simpl; [apply spiderman_collision_Some|].
  destruct (agg_collision fs l) as [[]|] eqn:E; [intros [= <- <-]|]; eauto.
Qed.

(** The endpoints of an aggregate are those of its parts. *)
Lemma aggregate_Ok (l r p : LayoutAppendPublicInputs Hash) :
  aggregate_layout_transitions l r = Ok p →
  new_layout_root l = old_layout_root r ∧ new_layout_field_count l = old_layout_field_count r ∧
  new_layout_slot_count l = old_layout_slot_count r ∧ contract_id l = contract_id r ∧
  old_layout_root p = old_layout_root l ∧ old_layout_field_count p = old_layout_field_count l ∧
  old_layout_slot_count p = old_layout_slot_count l ∧ new_layout_root p = new_layout_root r ∧
  new_layout_field_count p = new_layout_field_count r ∧ new_layout_slot_count p = new_layout_slot_count r ∧
  appended_field_count p = appended_field_count l + appended_field_count r ∧ contract_id p = contract_id l.
Proof.
  unfold aggregate_layout_transitions. intros Ha.
  do 2 (apply outcome_bind_Ok in Ha as ([] & _ & Ha)).
  do 5 (apply outcome_bind_Ok in Ha as ([] & ?%ensure_Ok & Ha)).
  apply outcome_bind_Ok in Ha as (n & [-> _]%ok_or_Ok%checked_add_Some & Ha).
  apply outcome_bind_Ok in Ha as ([] & _ & Ha). injection Ha as <-. simpl.
  rewrite bool_decide_eq_true in *. zify_bool. split_and!; done.
Qed.

Lemma agg_appends a : ∀ h fs p,
  agg_inputs a = Ok p → agg_windows h a →
  layout_rep h fs (old_layout_root p) (old_layout_field_count p) (old_layout_slot_count p) →
  agg_collision fs a = None →
  layout_rep h (fs ++ agg_fields a) (new_layout_root p) (new_layout_field_count p) (new_layout_slot_count p).
Proof.
  induction a as [w|l IHl r IHr]; intros h fs p Hp Hw Hr Hc; simpl in *.
  - apply outcome_bind_Ok in Hp as ([] & Hv & Hp). injection Hp as <-. by apply batch_appends.
  - apply outcome_bind_Ok in Hp as (pl & Hl & Hp). apply outcome_bind_Ok in Hp as (pr & Hr' & Hp).
    apply aggregate_Ok in Hp as (E1 & E2 & E3 & _ & Eo1 & Eo2 & Eo3 & En1 & En2 & En3 & _).
    rewrite Eo1, Eo2, Eo3 in Hr. rewrite En1, En2, En3, app_assoc. destruct Hw as [Hwl Hwr].
    destruct (agg_collision fs l) eqn:Ecl; [done|].
    apply (IHr h _ _ Hr' Hwr); [|done]. rewrite <- E1, <- E2, <- E3. by apply IHl.
Qed.

Lemma agg_typed a : ∀ p, agg_inputs a = Ok p →
  typed (agg_types a) (agg_fields a) ∧ appended_field_count p = Z.of_nat (length (agg_fields a)).
Proof.
  induction a as [w|l IHl r IHr]; intros p Hp; simpl in *.
  - apply outcome_bind_Ok in Hp as ([] & Hv & Hp). injection Hp as <-.
    by destruct (batch_validate_window w Hv) as (_ & _ & ? & ? & ? & _ & _ & _ & _ & _ & _ & _ & ? & ? & _).
  - apply outcome_bind_Ok in Hp as (pl & Hl & Hp). apply outcome_bind_Ok in Hp as (pr & Hr & Hp).
    apply aggregate_Ok in Hp as (_ & _ & _ & _ & _ & _ & _ & _ & _ & _ & -> & _).
    destruct (IHl _ Hl) as [? ->], (IHr _ Hr) as [? ->]. split; [by apply Forall2_app|]. rewrite length_app. lia.
Qed.
End aggregation.
Arguments aggregation : clear implicits.

(** ** Contract leaves *)
Definition CONTRACT_LEAF_DOMAIN : Z := 0x434c5633.
Definition CONTRACT_LEAF_FELT_SIZE : nat := 16.

Record PQEDContractLeafV2 (F Hash : Type) : Type := mkContractLeaf {
  deployer : F;
  function_tree_root : Hash;
  code_root : Hash;
  state_tree_height : F;
  leaf_state_layout_root : Hash;
  leaf_field_count : F;
  leaf_slot_count : F;
}.
Arguments mkContractLeaf {F Hash}.
Arguments deployer {F Hash}.
Arguments function_tree_root {F Hash}.
Arguments code_root {F Hash}.
Arguments state_tree_height {F Hash}.
Arguments leaf_state_layout_root {F Hash}.
Arguments leaf_field_count {F Hash}.
Arguments leaf_slot_count {F Hash}.

Record ContractLayoutMetadata (Hash : Type) : Type := mkMetadata {
  md_protocol_version : Z;
  md_state_layout_root : Hash;
  md_field_count : Z;
  md_slot_count : Z;
  md_state_tree_height : Z;
}.
Arguments mkMetadata {Hash}.

Section contract_leaf.
Context `{EqDecision F, EqDecision Hash, FieldHash F Hash}.
Implicit Types self : PQEDContractLeafV2 F Hash.

Definition layout_metadata self : ContractLayoutMetadata Hash :=
  mkMetadata STATE_LAYOUT_VERSION (leaf_state_layout_root self) (to_u64_value (leaf_field_count self))
    (to_u64_value (leaf_slot_count self)) (to_u64_value (state_tree_height self)).

Definition to_qfelts self : list F :=
  [deployer self] ++ felts_of (function_tree_root self) ++ felts_of (code_root self) ++
  [state_tree_height self] ++ felts_of (leaf_state_layout_root self) ++ [leaf_field_count self; leaf_slot_count self].

(** [Hash::from_4_felts_slice] *)
Definition from_4_felts_slice (felts : list F) : outcome Hash :=
  match felts with
  | [f0; f1; f2; f3] => Ok (from_4_felts (f0, f1, f2, f3))
  | _ => Panic
  end.

Definition from_qfelts (felts : list F) : outcome (PQEDContractLeafV2 F Hash) :=
  let* _ := assert_ (length felts =? CONTRACT_LEAF_FELT_SIZE)%nat in
  let* deployer := unwrap (felts !! 0%nat) in
  let* function_tree_root := from_4_felts_slice (take 4 (drop 1 felts)) in
  let* code_root := from_4_felts_slice (take 4 (drop 5 felts)) in
  let* state_tree_height := unwrap (felts !! 9%nat) in
  let* state_layout_root := from_4_felts_slice (take 4 (drop 10 felts)) in
  let* field_count := unwrap (felts !! 14%nat) in
  let* slot_count := unwrap (felts !! 15%nat) in
  Ok (mkContractLeaf deployer function_tree_root code_root state_tree_height state_layout_root field_count slot_count).

(** [qfhash] *)
Definition contract_leaf_hash self : Hash := q_hash_many (from_u64_value CONTRACT_LEAF_DOMAIN :: to_qfelts self).

Definition validate_contract_layout_transition (contract_id_ : Z) (old_leaf new_leaf : PQEDContractLeafV2 F Hash)
    (transition : LayoutAppendPublicInputs Hash) : outcome unit :=
  let* _ := inputs_validate_shape transition in
  let* _ := ensure (contract_id transition =? contract_id_) "layout transition belongs to another contract" in
  let* _ := ensure (bool_decide (deployer old_leaf = deployer new_leaf))
    "contract deployer cannot change during update" in
  let* _ := ensure (bool_decide (state_tree_height old_leaf = state_tree_height new_leaf))
    "contract state tree height cannot change during update" in
  let* _ := ensure (bool_decide (leaf_state_layout_root old_leaf = old_layout_root transition) &&
                    bool_decide (leaf_state_layout_root new_leaf = new_layout_root transition))
    "contract leaf layout roots do not match transition endpoints" in
  let* _ := ensure ((to_u64_value (leaf_field_count old_leaf) =? old_layout_field_count transition) &&
                    (to_u64_value (leaf_field_count new_leaf) =? new_layout_field_count transition))
    "contract leaf layout field counts do not match transition endpoints" in
  let* _ := ensure ((to_u64_value (leaf_slot_count old_leaf) =? old_layout_slot_count transition) &&
                    (to_u64_value (leaf_slot_count new_leaf) =? new_layout_slot_count transition))
    "contract leaf layout slot counts do not match transition endpoints" in
  let height := to_u64_value (state_tree_height old_leaf) in
  if height <? 64 then
    let capacity := wrap 64 (u64_shl 1 height * 4) in
    ensure (new_layout_slot_count transition <=? capacity) "layout exceeds state tree capacity"
  else Ok tt.
End contract_leaf.

(** The sixteen felts of a contract leaf: reading them back gives the leaf, every
    sixteen felts are those of one leaf, and any other number panics. *)
Theorem contract_leaf_felts_roundtrip `{EqDecision F, EqDecision Hash, HashFelts F Hash} :
  (∀ leaf : PQEDContractLeafV2 F Hash,
     length (to_qfelts leaf) = CONTRACT_LEAF_FELT_SIZE ∧ from_qfelts (to_qfelts leaf) = Ok leaf) ∧
  (∀ felts : list F, length felts = CONTRACT_LEAF_FELT_SIZE →
     ∃ leaf : PQEDContractLeafV2 F Hash, from_qfelts felts = Ok leaf ∧ to_qfelts leaf = felts) ∧
  (∀ felts : list F, length felts ≠ CONTRACT_LEAF_FELT_SIZE →
     from_qfelts felts = (Panic : outcome (PQEDContractLeafV2 F Hash))).
Proof.
  split_and!.
  - intros [d f c h s n m]. unfold to_qfelts, from_qfelts, felts_of.
    pose proof (hash_of_felts f) as Hf. pose proof (hash_of_felts c) as Hc. pose proof (hash_of_felts s) as Hs. simpl.
    destruct (to_4_felts f) as [[[f0 f1] f2] f3], (to_4_felts c) as [[[c0 c1] c2] c3], (to_4_felts s) as [[[s0 s1] s2] s3].
    simpl. by rewrite Hf, Hc, Hs.
  - intros felts Hl. do 16 (destruct felts as [|? felts]; [done|]). destruct felts; [|done].
    eexists. split; [reflexivity|]. unfold to_qfelts, felts_of. simpl. by rewrite !felts_of_hash.
  - intros felts Hl. unfold from_qfelts. by rewrite (proj2 (Nat.eqb_neq _ _) Hl).
Qed.

(** The state layout that a contract leaf commits to. *)
Definition leaf_rep `{EqDecision Hash, MerkleHasher Hash, FieldHash F Hash} (h : nat)
    (leaf : PQEDContractLeafV2 F Hash) (fs : list (StateFieldLayoutLeaf Hash)) : Prop :=
  layout_rep h fs (leaf_state_layout_root leaf) (to_u64_value (leaf_field_count leaf))
    (to_u64_value (leaf_slot_count leaf)).

(** What the check of a transition establishes. *)
Lemma validate_transition_Ok `{EqDecision F, EqDecision Hash, FieldHash F Hash}
    cid (old new : PQEDContractLeafV2 F Hash) p :
  validate_contract_layout_transition cid old new p = Ok tt ↔
  inputs_validate_shape p = Ok tt ∧ contract_id p = cid ∧ deployer old = deployer new ∧
  state_tree_height old = state_tree_height new ∧
  leaf_state_layout_root old = old_layout_root p ∧ leaf_state_layout_root new = new_layout_root p ∧
  to_u64_value (leaf_field_count old) = old_layout_field_count p ∧
  to_u64_value (leaf_field_count new) = new_layout_field_count p ∧
  to_u64_value (leaf_slot_count old) = old_layout_slot_count p ∧
  to_u64_value (leaf_slot_count new) = new_layout_slot_count p ∧
  (to_u64_value (state_tree_height old) < 64 →
   new_layout_slot_count p ≤ wrap 64 (u64_shl 1 (to_u64_value (state_tree_height old)) * 4)).
Proof.
  unfold validate_contract_layout_transition. split.
  - intros Hv. outcome_inv. rewrite !andb_true_iff, !bool_decide_eq_true, !Z.eqb_eq in *.
    split_and!; try tauto. intros Hh. rewrite (proj2 (Z.ltb_lt _ _) Hh) in Hv. outcome_inv. lia.
  - intros (-> & -> & -> & -> & -> & -> & -> & -> & -> & -> & Hcap). cbn [outcome_bind].
    rewrite !bool_decide_true, !Z.eqb_refl by done. cbn [andb ensure outcome_bind].
    destruct (Z.ltb_spec (to_u64_value (state_tree_height new)) 64); [|done].
    rewrite (proj2 (Z.leb_le _ _)); [done|by apply Hcap].
Qed.

(** The capacity check: in slots for heights below 62, absent from 64 on, and for 62
    and 63 the product wraps to zero and only the empty layout passes. *)
Lemma transition_capacity_wraps height :
  0 ≤ height < 64 →
  wrap 64 (u64_shl 1 height * 4) = if height <? 62 then 4 * 2 ^ height else 0.
Proof.
  intros Hh. assert (u64_shl 1 height = 2 ^ height) as ->.
  { rewrite u64_shl_small, Z.mul_1_l by (lia || (rewrite Z.mul_1_l; apply Z.pow_lt_mono_r; lia)). done. }
  destruct (Z.ltb_spec height 62).
  - rewrite wrap_small, Z.mul_comm; [done|]. split; [pose proof (pow2_pos_Z height ltac:(lia)); lia|].
    change 4 with (2 ^ 2). rewrite <- Z.pow_add_r by lia. apply Z.pow_lt_mono_r; lia.
  - assert (height = 62 ∨ height = 63) as [-> | ->] by lia; reflexivity.
Qed.

(** C8: contract updates append to the layout. Let a contract leaf commit to the
    layout [fs] of its state, and let an update of the leaf pass the check against
    the public inputs of validated append batches, aggregated in any order of pairs
    and each about a window of the layout tree. Then either comparing the proofs
    with the tree yields an explicit collision of the compression function, or the
    new leaf commits to the layout [fs] followed by the appended fields (so old
    fields keep their slots and the new ones follow without gap), every appended
    field has the hash, size and padding of its canonical type, the deployer and the
    height of the state tree are unchanged, and below height 62 the state fits in
    the state tree. *)
Theorem contract_layout_update_sound `{EqDecision F, EqDecision Hash, MerkleHasher Hash, FieldHash F Hash}
    (a : aggregation Hash) (h : nat) (fs : list (StateFieldLayoutLeaf Hash))
    (p : LayoutAppendPublicInputs Hash) (cid : Z) (old new : PQEDContractLeafV2 F Hash) :
  agg_inputs a = Ok p → agg_windows h a → leaf_rep h old fs →
  validate_contract_layout_transition cid old new p = Ok tt →
  match agg_collision fs a with
  | Some (x, y) => x ≠ y ∧ hash_pair x = hash_pair y
  | None =>
      leaf_rep h new (fs ++ agg_fields a) ∧ typed (agg_types a) (agg_fields a) ∧
      contract_id p = cid ∧ deployer new = deployer old ∧ state_tree_height new = state_tree_height old ∧
      (0 ≤ to_u64_value (state_tree_height new) < 62 →
       slots_of (fs ++ agg_fields a) ≤ 4 * 2 ^ to_u64_value (state_tree_height new))
  end.
Proof.
  intros Hp Hw Hr Hv. destruct (agg_collision fs a) as [[x y]|] eqn:Ec; [by eapply agg_collision_Some|].
  apply validate_transition_Ok in Hv as (_ & Hcid & Hd & Hsh & Hro & Hrn & Hfo & Hfn & Hso & Hsn & Hcap).
  unfold leaf_rep in *. rewrite Hro, Hfo, Hso in Hr.
  pose proof (agg_appends a h fs p Hp Hw Hr Ec) as Hnew. rewrite Hrn, Hfn, Hsn.
  destruct (agg_typed a p Hp) as [Hty _]. split_and!; try done.
  intros Hh. destruct Hnew as (_ & _ & _ & _ & Hs & _). rewrite <- Hs, <- Hsh in *.
  rewrite transition_capacity_wraps, (proj2 (Z.ltb_lt _ _)) in Hcap by lia. apply Hcap. lia.
Qed.

(** ** Every append can be proved *)
Section complete.
Context {F : Type} `{EqDecision Hash, MerkleHasher Hash, FieldHash F Hash}.
Implicit Types (fs app : list (StateFieldLayoutLeaf Hash)) (types : list (StateTypeLayoutWitness Hash)).

Lemma batch_loop_prefix_complete pl ws fs types (l : list Hash) : ∀ index rest ns fixed,
  (index + length l ≤ pl)%nat →
  batch_loop pl ws fs types index (zip l l ++ rest) ns fixed =
  batch_loop pl ws fs types (index + length l) rest ns fixed.
Proof.
  induction l as [|x l IH]; intros index rest ns fixed Hle; simpl in *; [by rewrite Nat.add_0_r|].
  rewrite (proj2 (Nat.ltb_lt _ _)), bool_decide_true by (done || lia). cbn [ensure outcome_bind].
  rewrite IH by lia. by rewrite <- Nat.add_succ_comm.
Qed.

Lemma batch_loop_zero pl ws fs types m : ∀ index ns fixed,
  (pl ≤ index)%nat → (length fs ≤ index - pl)%nat →
  batch_loop pl ws fs types index (zip (replicate m hash_default) (replicate m hash_default)) ns fixed = Ok (ns, fixed).
Proof.
  induction m as [|m IH]; intros index ns fixed Hpl Hfs; [done|].
  cbn [replicate zip zip_with batch_loop]. rewrite (proj2 (Nat.ltb_ge _ _)), (lookup_ge_None_2 fs) by lia.
  unfold is_default. rewrite bool_decide_true by done. cbn [andb ensure outcome_bind]. apply IH; lia.
Qed.

Lemma batch_loop_append_complete pl ws fs types todo : ∀ index ns fixed hs m,
  (pl ≤ index)%nat → drop (index - pl) fs = todo → typed (drop (index - pl) types) todo → hashed todo hs →
  contiguous_from (ws + Z.of_nat index) ns todo →
  ns + slots_of todo < 2 ^ 64 → ws + Z.of_nat index + Z.of_nat (length todo) < 2 ^ 64 →
  (index + length hs + m ≤ length fixed)%nat →
  batch_loop pl ws fs types index
    (zip (replicate (length hs + m) hash_default) (hs ++ replicate m hash_default)) ns fixed =
  Ok (ns + slots_of todo, take index fixed ++ hs ++ drop (index + length hs) fixed).
Proof.
  induction todo as [|f todo IH]; intros index ns fixed hs m Hpl Htodo Hty Hh Hc Hns Hws Hfx.
  - apply Forall2_nil_inv_l in Hh as ->. simpl. rewrite Nat.add_0_r, Z.add_0_r, take_drop.
    apply batch_loop_zero; [done|]. apply (f_equal length) in Htodo. rewrite length_drop in Htodo. simpl in *. lia.
  - inversion Hh as [|? h ? hs' Hf Hh']; subst. apply Forall2_cons_inv_r in Hty as (ty & types' & Htf & Hty' & Htys).
    destruct Hc as (Hid & Hst & Hc). simpl in Hns, Hws, Hfx.
    assert (fs !! (index - pl)%nat = Some f ∧ drop (S index - pl) fs = todo) as [Hlf Hdf].
    { replace (S index - pl)%nat with (1 + (index - pl))%nat by lia. split.
      - rewrite <- (Nat.add_0_r (index - pl)), <- lookup_drop. by rewrite Htodo.
      - rewrite Nat.add_comm, <- drop_drop. by rewrite Htodo. }
    assert (types !! (index - pl)%nat = Some ty ∧ drop (S index - pl) types = types') as [Hlt Hdt].
    { replace (S index - pl)%nat with (1 + (index - pl))%nat by lia. split.
      - rewrite <- (Nat.add_0_r (index - pl)), <- lookup_drop. by rewrite Htys.
      - rewrite Nat.add_comm, <- drop_drop. by rewrite Htys. }
    assert (0 ≤ slots_of todo) as Hnn by (by eapply slots_of_nonneg).
    cbn [length Nat.add replicate app zip zip_with batch_loop]. rewrite (proj2 (Nat.ltb_ge _ _)), Hlf by lia.
    rewrite Hlt. cbn [unwrap outcome_bind]. rewrite Htf. cbn [outcome_bind]. unfold is_default.
    rewrite bool_decide_true by done. unfold checked_add. rewrite !(proj2 (Z.ltb_lt _ _)) by lia.
    cbn [ensure ok_or outcome_bind]. rewrite (proj2 (Z.eqb_eq _ _) Hid), (proj2 (Z.eqb_eq _ _) Hst).
    cbn [ensure outcome_bind]. rewrite Hf. cbn [outcome_bind]. rewrite bool_decide_true by done.
    cbn [ensure ok_or outcome_bind slots_of].
    rewrite (IH (S index)); [|lia|done|by rewrite Hdt|done| |lia|lia|rewrite length_insert; lia].
    + rewrite (take_S_r _ _ h) by (apply list_lookup_insert_eq; lia).
      rewrite take_insert_ge, <- app_assoc, drop_insert_lt by lia. rewrite Nat.add_succ_r. do 2 f_equal. lia.
    + by replace (ws + Z.of_nat (S index)) with (ws + Z.of_nat index + 1) by lia.
Qed.

(** The leaves of the proof that [append_from_from_old_new_values] builds. *)
Lemma append_from_web mp existing new wh (p : SpidermanUpdateProof Hash) : (wh < 64)%nat →
  append_from_from_old_new_values mp existing new wh = Ok p →
  web_proof_old_leaves p = existing ++ replicate (2 ^ wh - length existing) hash_default ∧
  web_proof_new_leaves p = existing ++ new ++ replicate (2 ^ wh - length existing - length new) hash_default ∧
  length (dmp_siblings (top_line_proof p)) = (length (mp_siblings mp) - wh)%nat.
Proof.
  intros Hwh. unfold append_from_from_old_new_values, pad_zero.
  assert (u64_shl 1 (Z.of_nat wh) = Z.of_nat (2 ^ wh)) as ->.
  { rewrite pow2_nat_Z, u64_shl_small, Z.mul_1_l by (lia || (rewrite Z.mul_1_l; apply Z.pow_lt_mono_r; lia)). done. }
  destruct (Z.ltb_spec (Z.of_nat (2 ^ wh) - Z.of_nat (length existing)) 0); [done|].
  destruct (Z.ltb_spec (Z.of_nat (2 ^ wh) - Z.of_nat (length existing + length new)) 0); [done|].
  intros Ha. outcome_inv. cbn. rewrite length_drop, <- app_assoc.
  change (get_zero_value : Hash) with (hash_default : Hash).
  split_and!; [do 2 f_equal; lia|do 3 f_equal; lia|done].
Qed.

(** The leaves of the frontier window. *)
Lemma frontier_window (hs : list Hash) wh :
  let start := Z.of_nat (length hs) / 2 ^ Z.of_nat wh * 2 ^ Z.of_nat wh in
  let existing := drop (Z.to_nat start) hs in
  web_filled (leaf_fn hash_default hs) start wh existing ∧
  start + Z.of_nat (length existing) = Z.of_nat (length hs) ∧
  (length existing < 2 ^ wh)%nat ∧ 0 ≤ start.
Proof.
  intros start existing. pose proof (pow2_pos wh) as Hp. pose proof (pow2_nat_Z wh) as HpZ.
  pose proof (Z.div_mod (Z.of_nat (length hs)) (2 ^ Z.of_nat wh) ltac:(lia)) as Hdm.
  pose proof (Z.mod_pos_bound (Z.of_nat (length hs)) (2 ^ Z.of_nat wh) ltac:(lia)) as Hmod.
  pose proof (Z.div_pos (Z.of_nat (length hs)) (2 ^ Z.of_nat wh) ltac:(lia) ltac:(lia)) as Hq.
  assert (0 ≤ start) as Hs0 by (unfold start; nia).
  assert (start ≤ Z.of_nat (length hs) < start + 2 ^ Z.of_nat wh) as Hs by (unfold start; lia).
  assert (Z.of_nat (length existing) = Z.of_nat (length hs) - start) as Hl
    by (unfold existing; rewrite length_drop; lia).
  split_and!; [|lia|lia|done]. intros j Hj. unfold leaf_fn, existing. rewrite nth_skipn. f_equal. lia.
Qed.

(** The public inputs of appending [app] to the layout [fs]. *)
Definition append_inputs (cid : Z) (root : Hash) fs app (hs' : list Hash) (rest : nat) (n : nat)
    (root' : Hash) : LayoutAppendPublicInputs Hash :=
  let fixed := replicate n hash_default ++ hs' ++ replicate rest hash_default in
  mkPublicInputs cid STATE_LAYOUT_VERSION root (Z.of_nat (length fs)) (slots_of fs) root'
    (Z.of_nat (length fs) + Z.of_nat (length app)) (slots_of fs + slots_of app) (Z.of_nat (length app))
    (q_hash_many
       ([from_u64_value STATE_LAYOUT_APPEND_BATCH_DOMAIN; from_u64_value cid; from_u64_value (Z.of_nat (length fs));
         from_u64_value (slots_of fs); from_u64_value (Z.of_nat (length app))] ++ concat (felts_of <$> fixed))).

Lemma count_while_window (existing : list Hash) n :
  Forall (λ h, h ≠ hash_default) existing →
  count_while (λ h, negb (is_default h)) (existing ++ replicate n hash_default) = length existing.
Proof.
  unfold is_default. induction 1 as [|h l Hh _ IH]; simpl.
  - destruct n; simpl; [done|]. by rewrite bool_decide_true.
  - rewrite bool_decide_false by done. simpl. by rewrite IH.
Qed.

Lemma window_loop_complete (existing hs' : list Hash) ws app types slots m :
  let pl := length existing in
  hashed app hs' → typed types app → contiguous_from (ws + Z.of_nat pl) slots app →
  slots + slots_of app < 2 ^ 64 → ws + Z.of_nat pl + Z.of_nat (length app) < 2 ^ 64 →
  batch_loop pl ws app types 0
    (zip (existing ++ replicate (length hs' + m) hash_default) (existing ++ hs' ++ replicate m hash_default)) slots
    (replicate (pl + length hs' + m) hash_default) =
  Ok (slots + slots_of app, replicate pl hash_default ++ hs' ++ replicate m hash_default).
Proof.
  intros pl Hh Hty Hc Hs Hws. rewrite zip_with_app by done.
  rewrite batch_loop_prefix_complete, Nat.add_0_l by (unfold pl; lia). fold pl.
  rewrite (batch_loop_append_complete pl ws app types app); rewrite ?Nat.sub_diag, ?drop_0; try done.
  - do 2 f_equal. rewrite take_replicate, drop_replicate. do 2 f_equal; [lia|]. f_equal. f_equal. lia.
  - rewrite length_replicate. lia.
Qed.

Lemma inputs_shape_complete cid root fs app hs' rest n root' :
  Z.of_nat (length fs) + Z.of_nat (length app) < 2 ^ 64 → 0 ≤ slots_of app →
  (app = [] → root = root') →
  inputs_validate_shape (append_inputs cid root fs app hs' rest n root') = Ok tt.
Proof.
  intros Hn Hs Hid. unfold inputs_validate_shape, append_inputs, checked_add. simpl.
  rewrite !(proj2 (Z.ltb_lt _ _)) by lia. cbn [ok_or outcome_bind]. rewrite Z.eqb_refl.
  cbn [ensure outcome_bind]. rewrite (proj2 (Z.leb_le _ _)) by lia. cbn [ensure outcome_bind].
  destruct app as [|f app]; [|simpl; done]. simpl. rewrite Z.add_0_r, Z.eqb_refl, bool_decide_true by auto. done.
Qed.

(** The window and the public inputs of the append pass the check. *)
Lemma append_validates cid root root' fs app (hs' existing : list Hash) types proofs proof wh rest :
  let top := top_line_proof proof in
  let ws := dmp_index top * 2 ^ Z.of_nat wh in
  verify_spiderman proof = Ok true →
  web_proof_old_leaves proof = existing ++ replicate (length hs' + rest) hash_default →
  web_proof_new_leaves proof = existing ++ hs' ++ replicate rest hash_default →
  (length existing + length hs' + rest = 2 ^ wh)%nat →
  Forall (λ h, h ≠ hash_default) existing → hashed app hs' → typed types app →
  0 ≤ ws → ws + Z.of_nat (length existing) = Z.of_nat (length fs) →
  contiguous_from (Z.of_nat (length fs)) (slots_of fs) app → slots_of fs + slots_of app < 2 ^ 64 →
  Z.of_nat (length fs) + Z.of_nat (length app) < 2 ^ 64 →
  length proofs = length app → Forall (λ b, b ≠ []) proofs →
  root = old_root top → root' = new_root top → (app = [] → root = root') →
  batch_validate (mkBatch proof app types proofs (append_inputs cid root fs app hs' rest (length existing) root')) = Ok tt.
Proof.
  intros top ws Hv Hold Hnew Hlen Hne Hh Hty Hws0 Hws Hc Hslots Hn Hlp Hp Hro Hrn Hid.
  assert (length hs' = length app) as Hlhs by (symmetry; by eapply Forall2_length).
  assert (length types = length app) as Hlt by (by eapply Forall2_length).
  assert (length (web_proof_old_leaves proof) = (2 ^ wh)%nat) as Hlo
    by (rewrite Hold, length_app, length_replicate; lia).
  assert (length (web_proof_new_leaves proof) = (2 ^ wh)%nat) as Hln
    by (rewrite Hnew, !length_app, length_replicate; lia).
  unfold batch_validate. cbn [public_inputs spiderman_update_proof appended_fields appended_type_layouts
    canonical_type_proofs]. fold top.
  rewrite inputs_shape_complete by (done || by eapply slots_of_nonneg). cbn [outcome_bind]. rewrite Hv. cbn [ensure outcome_bind].
  rewrite (proj2 (is_power_of_two_length _)) by eauto. rewrite Hlo, Hln, Nat.eqb_refl.
  rewrite bool_decide_false by (intros E; rewrite E in Hlo; simpl in Hlo; pose proof (Nat.pow_nonzero 2 wh); lia).
  cbn [andb negb ensure outcome_bind].
  cbn [append_inputs appended_field_count]. rewrite Z.eqb_refl, Hlp, Hlt, !Nat.eqb_refl. cbn [ensure outcome_bind].
  assert (forallb (λ proof : list Z, negb (bool_decide (proof = []))) proofs = true) as ->.
  { apply forallb_forall. intros b Hb%list_elem_of_In. rewrite Forall_forall in Hp.
    apply negb_true_iff, bool_decide_eq_false. by apply Hp. }
  cbn [ensure outcome_bind]. rewrite Hold, Hnew, count_while_window by done. rewrite pow2_nat_Z.
  unfold checked_mul. rewrite (proj2 (Z.ltb_lt _ _)) by lia. cbn [ok_or outcome_bind].
  unfold checked_add at 1. rewrite (proj2 (Z.ltb_lt _ _)) by lia. cbn [ok_or outcome_bind append_inputs
    old_layout_field_count old_layout_slot_count old_layout_root new_layout_root new_layout_slot_count contract_id
    appended_fields_commitment].
  fold ws. rewrite Hws, Z.eqb_refl. cbn [ensure outcome_bind].
  replace (2 ^ wh)%nat with (length existing + length hs' + rest)%nat by lia.
  rewrite window_loop_complete by (done || rewrite Hws; done || lia). cbn [outcome_bind].
  rewrite !bool_decide_true by done. rewrite Z.eqb_refl. cbn [andb ensure outcome_bind].
  unfold compute_layout_batch_commitment. rewrite !length_app, !length_replicate, filter_fixed by (by eapply hashed_nonzero).
  rewrite Hlhs, Nat.eqb_refl, (proj2 (Nat.leb_le _ _)) by lia. cbn [ensure outcome_bind].
  by rewrite bool_decide_true.
Qed.

Lemma append_window cid root root' fs app (hs' : list Hash) types proofs proof wh h rest n :
  (wh ≤ h < 64)%nat → length (web_proof_new_leaves proof) = (2 ^ wh)%nat →
  length (dmp_siblings (top_line_proof proof)) = (h - wh)%nat →
  0 ≤ dmp_index (top_line_proof proof) < 2 ^ Z.of_nat (h - wh) →
  window_of h (mkBatch proof app types proofs (append_inputs cid root fs app hs' rest n root')).
Proof.
  intros Hwh Hlen Hsib Hidx. unfold window_of. cbn [spiderman_update_proof]. rewrite Hlen, Hsib, pow2_nat_Z, Z.log2_pow2 by lia.
  split_and!; lia.
Qed.
End complete.

(** Every append can be proved. Let a root commit to the layout [fs] of a tree
    that is not full, and let fields with canonical types follow it without gap,
    fit into the window of [2 ^ wh] leaves at the frontier and into 64-bit slot
    numbers. Then the Spiderman proof built from the leaves of that window, with the
    endpoints, counts and commitment of the append as public inputs, validates; it
    is about a window of the layout tree, and its new root is the root of the
    layout with the fields appended. *)
Theorem layout_append_complete {F : Type} `{EqDecision Hash, MerkleHasher Hash, FieldHash F Hash}
    (h wh : nat) (root v : Hash) (fs app : list (StateFieldLayoutLeaf Hash)) (hs hs' : list Hash)
    (types : list (StateTypeLayoutWitness Hash)) (proofs : list (list Z)) (cid : Z) :
  (wh ≤ h < 64)%nat → layout_rep h fs root (Z.of_nat (length fs)) (slots_of fs) → hashed fs hs →
  Z.of_nat (length fs) < 2 ^ Z.of_nat h →
  hashed app hs' → contiguous_from (Z.of_nat (length fs)) (slots_of fs) app → typed types app →
  slots_of fs + slots_of app < 2 ^ 64 → length proofs = length app → Forall (λ b, b ≠ []) proofs →
  let i := Z.of_nat (length fs) in
  let existing := drop (Z.to_nat (i / 2 ^ Z.of_nat wh * 2 ^ Z.of_nat wh)) hs in
  let rest := (2 ^ wh - length existing - length app)%nat in
  (length existing + length app ≤ 2 ^ wh)%nat →
  let root' := tree_node (leaf_fn hash_default (hs ++ hs')) h 0 in
  ∃ proof, append_from_from_old_new_values (new_from_params i v (tree_siblings (leaf_fn hash_default hs) h i))
             existing hs' wh = Ok proof ∧
    let w := mkBatch proof app types proofs (append_inputs cid root fs app hs' rest (length existing) root') in
    batch_validate w = Ok tt ∧ window_of h w.
Proof.
  intros Hwh Hrep Hh Hfull Hh' Hc Hty Hslots Hlp Hp i existing rest Hfit root'.
  assert (length hs = length fs) as Hlhs by (symmetry; by eapply Forall2_length).
  assert (length hs' = length app) as Hlhs' by (symmetry; by eapply Forall2_length).
  pose proof (frontier_window hs wh) as (Hfill & Hstart & Hex & Hs0). rewrite Hlhs in Hfill, Hstart, Hex, Hs0.
  fold i existing in Hfill, Hstart, Hex, Hs0. set (q := i / 2 ^ Z.of_nat wh) in *.
  destruct (append_from_old_new_values_correct (leaf_fn hash_default hs) h wh i v existing hs')
    as (proof & Hproof & Hv & Hidx & Hor & Hnr);
    [lia|lia|lia|exact Hfill|rewrite <- pow2_nat_Z; lia|].
  destruct (append_from_web _ _ _ wh _ ltac:(lia) Hproof) as (Hold & Hnew & Hsib).
  cbn [new_from_params mp_siblings] in Hsib. rewrite length_tree_siblings in Hsib.
  fold q in Hidx, Hnr. exists proof. split; [exact Hproof|].
  destruct Hrep as (_ & (hs0 & Hh0 & Hroot) & _). rewrite (hashed_unique _ _ _ Hh0 Hh) in Hroot.
  assert (new_root (top_line_proof proof) = root') as Hnr'.
  { rewrite Hnr. apply tree_node_ext. intros j Hj. rewrite Hstart. unfold i. rewrite <- Hlhs. apply set_block_append. lia. }
  rewrite Hlhs' in Hnew. fold rest in Hnew.
  replace (2 ^ wh - length existing)%nat with (length hs' + rest)%nat in Hold by (unfold rest; lia).
  assert (length existing + length hs' + rest = 2 ^ wh)%nat as Hrest by (unfold rest; lia).
  assert (2 ^ Z.of_nat h < 2 ^ 64) by (apply Z.pow_lt_mono_r; lia).
  assert (2 ^ Z.of_nat h = 2 ^ Z.of_nat wh * 2 ^ Z.of_nat (h - wh)) as Hpow
    by (rewrite <- Z.pow_add_r by lia; f_equal; lia).
  pose proof (pow2_nat_Z wh). pose proof (pow2_pos wh).
  assert (0 ≤ q < 2 ^ Z.of_nat (h - wh)) as Hq by (split; nia).
  split.
  - apply append_validates with wh; try done; rewrite ?Hidx; fold i; try (done || lia).
    + apply Forall_drop. by eapply hashed_nonzero.
    + nia.
    + congruence.
    + intros ->. apply Forall2_nil_inv_l in Hh' as ->. unfold root'. by rewrite app_nil_r.
  - apply append_window with wh; [lia| |done|by rewrite Hidx].
    rewrite Hnew, !length_app, length_replicate. lia.
Qed.

(** ** An example: a word, then a hash, in a layout tree of height 2 *)
Definition example_field (id start count : Z) (tag : StatePrimitiveTypeTag) : StateFieldLayoutLeaf felts4 :=
  mkField id start 0 count (type_hash (SPrimitive tag)) STATE_LAYOUT_ENCODING_VERSION.

Definition word_field := example_field 1 0 1 TU64.
Definition hash_field := example_field 2 1 4 THash.

Definition example_batch (fs : list (StateFieldLayoutLeaf felts4)) (f : StateFieldLayoutLeaf felts4)
    (tag : StatePrimitiveTypeTag) : outcome (LayoutAppendBatchWitness felts4) :=
  let hs := hash_of <$> fs in
  let i := Z.of_nat (length fs) in
  let* proof := append_from_from_old_new_values
    (new_from_params i hash_default (tree_siblings (leaf_fn hash_default hs) 2 i))
    (drop (Z.to_nat (i / 2 * 2)) hs) [hash_of f] 1 in
  let n := (length hs - Z.to_nat (i / 2 * 2))%nat in
  Ok (mkBatch proof [f] [WPrimitive tag] [[1]]
        (append_inputs 7 (tree_node (leaf_fn hash_default hs) 2 0) fs [f] [hash_of f] (1 - n) n
           (tree_node (leaf_fn hash_default (hs ++ [hash_of f])) 2 0))).

(** A leaf before and after the two fields are appended. *)
Definition example_leaf (fs : list (StateFieldLayoutLeaf felts4)) : PQEDContractLeafV2 N felts4 :=
  mkContractLeaf 4242%N (1, 2, 3, 4)%N (5, 6, 7, 8)%N 3%N (tree_node (leaf_fn hash_default (hash_of <$> fs)) 2 0)
    (N.of_nat (length fs)) (Z.to_N (slots_of fs)).

Definition example_update : outcome (aggregation felts4 * LayoutAppendPublicInputs felts4) :=
  let* w1 := example_batch [] word_field TU64 in
  let* w2 := example_batch [word_field] hash_field THash in
  let a := APair (ABatch w1) (ABatch w2) in
  let* p := agg_inputs a in
  Ok (a, p).

Lemma contract_layout_update_sound_witness :
  ∃ a p, example_update = Ok (a, p) ∧ agg_fields a = [word_field; hash_field] ∧
    leaf_rep 2 (example_leaf [word_field; hash_field]) [word_field; hash_field].
Proof.
  destruct example_update as [[a p]| | |] eqn:E; [|by vm_compute in E..].
  exists a, p. split; [done|]. vm_compute in E.
  assert (agg_fields a = [word_field; hash_field]) as Hf by (injection E as <- <-; by vm_compute).
  split; [done|]. assert (agg_collision [] a = None) as Hc by (injection E as <- <-; by vm_compute).
  pose proof (contract_layout_update_sound a 2 [] p 7 (example_leaf []) (example_leaf [word_field; hash_field])) as Hs.
  rewrite Hc, Hf in Hs. apply Hs.
  - injection E as <- <-. by vm_compute.
  - injection E as <- <-. split; split_and!; vm_compute; (lia || done).
  - split; [done|]. split; [|by vm_compute]. exists []. split; [constructor|by vm_compute].
  - injection E as <- <-. by vm_compute.
Defined.
