(* ===== verification/LayoutAbi.v ===== *)
(** * Layouts from the compiler's ABI

    [psy_data/src/v1/qdata/contract/layout.rs], third part: the layout of a
    contract's state, the canonical preimages of its field types, the type graphs
    and append-only updates, computed from the ABI document of the compiler.
    Parsing JSON is a parameter; recursion into struct types is bounded by the
    number of struct definitions, as the set of visited names is. *)
From stdpp Require Import prelude list strings gmap.
From Stdlib Require Import ZArith Lia.
From S2P Require Import Prelude MerkleHash FieldHash MerkleProof Spiderman Layout LayoutAppend.

(** ** Data *)
Inductive CompilerAbiPrimitive : Type := PFelt | PBool | PU32 | PHash.

Inductive CompilerAbiMapKind : Type := CContractHashMap | CMapKind | CNamespacedMap.

Inductive CompilerAbiTypeRef : Type :=
  | CPrimitive (name : CompilerAbiPrimitive)
  | CStruct (name : string)
  | CArray (item : CompilerAbiTypeRef) (length_ item_felt_size : Z)
  | CMap (map_kind : CompilerAbiMapKind) (key value : CompilerAbiTypeRef)
      (capacity value_felt_size alignment_felts : Z).

Record CompilerAbiStructField : Type := mkAbiMember {
  abi_member_ty : CompilerAbiTypeRef;
  offset_within_parent : Z;
  felt_size : Z;
}.

Record CompilerAbiStruct : Type := mkAbiStruct {
  abi_struct_name : string;
  abi_struct_fields : list CompilerAbiStructField;
}.

Record CompilerAbiLayoutField : Type := mkAbiField {
  abi_field_id : Z;
  abi_field_ty : CompilerAbiTypeRef;
  abi_start_slot : Z;
  abi_payload_offset : Z;
  abi_slot_count : Z;
}.

Record CompilerAbiStateLayout : Type := mkAbiStateLayout {
  abi_layout_version : Z;
  abi_encoding_version : Z;
  abi_field_count : Z;
  abi_total_slot_count : Z;
  abi_fields : list CompilerAbiLayoutField;
}.

(** [CompilerAbiDocument] with its [CompilerAbiContract]. *)
Record CompilerAbiDocument : Type := mkAbi {
  abi_state_tree_height : nat;
  abi_state_layout : CompilerAbiStateLayout;
  abi_types : list CompilerAbiStruct;
}.

Record CanonicalContractStateLayout (Hash : Type) : Type := mkCanonicalLayout {
  contract_layout : ContractStateLayout Hash;
  field_type_layouts : list (StateTypeLayoutWitness Hash);
  struct_layouts : gmap string (StructTypeLayout Hash);
}.
Arguments mkCanonicalLayout {Hash}.
Arguments contract_layout {Hash}.
Arguments field_type_layouts {Hash}.
Arguments struct_layouts {Hash}.

Record CanonicalLayoutManifest (Hash : Type) : Type := mkManifest {
  manifest_layout_version : Z;
  manifest_state_tree_height : nat;
  manifest_layout : CanonicalContractStateLayout Hash;
  field_type_dags : list CanonicalTypeLayoutDag;
}.
Arguments mkManifest {Hash}.
Arguments manifest_layout_version {Hash}.
Arguments manifest_state_tree_height {Hash}.
Arguments manifest_layout {Hash}.
Arguments field_type_dags {Hash}.

(** ** Operations *)
Definition primitive_tag (name : CompilerAbiPrimitive) : StatePrimitiveTypeTag :=
  match name with PFelt => TFelt | PBool => TBool | PU32 => TU32 | PHash => THash end.

Definition primitive_width (name : CompilerAbiPrimitive) : Z :=
  match name with PFelt | PBool | PU32 => 1 | PHash => 4 end.

Definition state_map_kind (map_kind : CompilerAbiMapKind) : StateMapKind :=
  match map_kind with
  | CContractHashMap => ContractHashMap | CMapKind => Map_ | CNamespacedMap => NamespacedMap
  end.

Definition is_map (ty : CompilerAbiTypeRef) : bool := match ty with CMap _ _ _ _ _ _ => true | _ => false end.

Definition recursive_struct : string := "recursive compiler ABI struct is not supported".

(** The struct definitions by name. *)
Definition abi_definitions (types : list CompilerAbiStruct) : outcome (gmap string CompilerAbiStruct) :=
  let definitions := foldl (λ m d, <[abi_struct_name d := d]> m) ∅ types in
  let* _ := ensure (size definitions =? length types)%nat "compiler ABI contains duplicate struct type names" in
  Ok definitions.

Section abi.
Context {F : Type} `{EqDecision Hash, MerkleHasher Hash, FieldHash F Hash}.
Variable definitions : gmap string CompilerAbiStruct.

Abbreviation cache_t := (gmap string (StructTypeLayout Hash)).
Abbreviation visiting_t := (gset string).

(** The members of a struct, in order; [build] is the recursive call. *)
Fixpoint abi_members
    (build : CompilerAbiTypeRef → cache_t → visiting_t → outcome (StateTypeLayoutSummary Hash * cache_t * visiting_t))
    (next_offset : Z) (fields : list CompilerAbiStructField) (cache : cache_t) (visiting : visiting_t)
    : outcome (list (StateTypeLayoutSummary Hash) * cache_t * visiting_t) :=
  match fields with
  | [] => Ok ([], cache, visiting)
  | member :: fields =>
      let* _ := ensure (offset_within_parent member =? next_offset)
        "compiler ABI struct has a non-contiguous member offset" in
      let* (member_type, cache, visiting) := build (abi_member_ty member) cache visiting in
      let* _ := ensure (total_slot_count member_type =? felt_size member)
        "compiler ABI struct member size does not match its type" in
      let* next_offset := ok_or (checked_add 64 next_offset (felt_size member))
        "compiler ABI struct slot count overflow" in
      let* (member_types, cache, visiting) := abi_members build next_offset fields cache visiting in
      Ok (member_type :: member_types, cache, visiting)
  end.

Fixpoint build_compiler_abi_type_layout (members_tree_height : nat) (fuel : nat)
    : CompilerAbiTypeRef → cache_t → visiting_t → outcome (StateTypeLayoutSummary Hash * cache_t * visiting_t) :=
  fix go ty cache visiting :=
  match ty with
  | CPrimitive name =>
      let* s := primitive_type_layout (primitive_tag name) (primitive_width name) in Ok (s, cache, visiting)
  | CStruct name =>
      match cache !! name with
      | Some layout => Ok (summary layout, cache, visiting)
      | None =>
          let* _ := ensure (negb (bool_decide (name ∈ visiting))) recursive_struct in
          let visiting := {[name]} ∪ visiting in
          let* definition := ok_or (definitions !! name) "compiler ABI struct not found" in
          match fuel with
          | O => Diverge
          | S fuel =>
              let* (member_types, cache, visiting) :=
                abi_members (build_compiler_abi_type_layout members_tree_height fuel) 0
                  (abi_struct_fields definition) cache visiting in
              let* layout := struct_type_layout member_types members_tree_height in
              Ok (summary layout, <[name := layout]> cache, visiting ∖ {[name]})
          end
      end
  | CArray item length_ item_felt_size =>
      let* (item_layout, cache, visiting) := go item cache visiting in
      let* _ := ensure (total_slot_count item_layout =? item_felt_size)
        "compiler ABI array item size does not match its type" in
      let* s := fixed_array_type_layout item_layout length_ in Ok (s, cache, visiting)
  | CMap map_kind key value capacity value_felt_size alignment_felts =>
      let* (key_layout, cache, visiting) := go key cache visiting in
      let* (value_layout, cache, visiting) := go value cache visiting in
      let* _ := ensure (total_slot_count value_layout =? value_felt_size)
        "compiler ABI map value size does not match its type" in
      let* s := fixed_map_type_layout (state_map_kind map_kind) key_layout value_layout capacity alignment_felts in
      Ok (s, cache, visiting)
  end.

Definition compiler_abi_type_layout_witness (members_tree_height fuel : nat) (ty : CompilerAbiTypeRef)
    (cache : cache_t) : outcome (StateTypeLayoutWitness Hash * cache_t) :=
  let build := build_compiler_abi_type_layout members_tree_height fuel in
  match ty with
  | CPrimitive name => Ok (WPrimitive (primitive_tag name), cache)
  | CStruct name =>
      let* cache := (match cache !! name with
                     | Some _ => Ok cache
                     | None => let* (_, cache, _) := build ty cache ∅ in Ok cache
                     end) in
      let* layout := ok_or (cache !! name) "compiler ABI struct layout was not built" in
      Ok (WStruct (Z.of_nat (length (members layout))) (total_slot_count (summary layout)) (members_root layout), cache)
  | CArray item length_ _ =>
      let* (element, cache, _) := build item cache ∅ in
      Ok (WFixedArray (type_layout_hash element) (total_slot_count element) length_, cache)
  | CMap map_kind key value capacity _ alignment_felts =>
      let* (key_layout, cache, _) := build key cache ∅ in
      let* (value_layout, cache, _) := build value cache ∅ in
      Ok (WFixedMap (state_map_kind map_kind) (type_layout_hash key_layout) (total_slot_count key_layout)
            (type_layout_hash value_layout) (total_slot_count value_layout) capacity alignment_felts, cache)
  end.

(** Every member is visited before the answers are combined. *)
Fixpoint contains_map_members (contains : CompilerAbiTypeRef → visiting_t → outcome (bool * visiting_t))
    (fields : list CompilerAbiStructField) (visiting : visiting_t) : outcome (bool * visiting_t) :=
  match fields with
  | [] => Ok (false, visiting)
  | member :: fields =>
      let* (b, visiting) := contains (abi_member_ty member) visiting in
      let* (bs, visiting) := contains_map_members contains fields visiting in
      Ok (b || bs, visiting)
  end.

Fixpoint compiler_abi_type_contains_map (fuel : nat)
    : CompilerAbiTypeRef → visiting_t → outcome (bool * visiting_t) :=
  fix go ty visiting :=
  match ty with
  | CMap _ _ _ _ _ _ => Ok (true, visiting)
  | CArray item _ _ => go item visiting
  | CStruct name =>
      let* _ := ensure (negb (bool_decide (name ∈ visiting))) recursive_struct in
      let visiting := {[name]} ∪ visiting in
      let* definition := ok_or (definitions !! name) "compiler ABI struct not found" in
      match fuel with
      | O => Diverge
      | S fuel =>
          let* (contains, visiting) := contains_map_members (compiler_abi_type_contains_map fuel)
            (abi_struct_fields definition) visiting in
          Ok (contains, visiting ∖ {[name]})
      end
  | CPrimitive _ => Ok (false, visiting)
  end.

(** *** Type graphs *)
Fixpoint dag_members
    (append : CompilerAbiTypeRef → visiting_t → list CanonicalTypeLayoutNode →
              outcome (nat * visiting_t * list CanonicalTypeLayoutNode))
    (fields : list CompilerAbiStructField) (visiting : visiting_t) (nodes : list CanonicalTypeLayoutNode)
    : outcome (list nat * visiting_t * list CanonicalTypeLayoutNode) :=
  match fields with
  | [] => Ok ([], visiting, nodes)
  | member :: fields =>
      let* (i, visiting, nodes) := append (abi_member_ty member) visiting nodes in
      let* (rest, visiting, nodes) := dag_members append fields visiting nodes in
      Ok (i :: rest, visiting, nodes)
  end.

(** [u16::try_from(nodes.len())?; nodes.push(node)] *)
Definition push_node (visiting : visiting_t) (nodes : list CanonicalTypeLayoutNode) (node : CanonicalTypeLayoutNode)
    : outcome (nat * visiting_t * list CanonicalTypeLayoutNode) :=
  let* _ := ensure (Z.of_nat (length nodes) <? 2 ^ 16) "too many nodes" in
  Ok (length nodes, visiting, nodes ++ [node]).

Fixpoint append_compiler_abi_type_dag_node (members_tree_height fuel : nat)
    : CompilerAbiTypeRef → visiting_t → list CanonicalTypeLayoutNode →
      outcome (nat * visiting_t * list CanonicalTypeLayoutNode) :=
  fix go ty visiting nodes :=
  match ty with
  | CPrimitive name => push_node visiting nodes (NPrimitive (primitive_tag name))
  | CArray item length_ _ =>
      let* (element, visiting, nodes) := go item visiting nodes in
      push_node visiting nodes (NFixedArray element length_)
  | CMap map_kind key value capacity _ alignment_felts =>
      let* (key, visiting, nodes) := go key visiting nodes in
      let* (value, visiting, nodes) := go value visiting nodes in
      push_node visiting nodes (NFixedMap (state_map_kind map_kind) key value capacity alignment_felts)
  | CStruct name =>
      let* _ := ensure (negb (bool_decide (name ∈ visiting))) recursive_struct in
      let visiting := {[name]} ∪ visiting in
      let* definition := ok_or (definitions !! name) "compiler ABI struct not found" in
      match fuel with
      | O => Diverge
      | S fuel =>
          let* (members, visiting, nodes) :=
            dag_members (append_compiler_abi_type_dag_node members_tree_height fuel)
              (abi_struct_fields definition) visiting nodes in
          let visiting := visiting ∖ {[name]} in
          let* _ := ensure (Z.of_nat members_tree_height <? 2 ^ 8) "members tree height" in
          push_node visiting nodes (NStruct members members_tree_height)
      end
  end.

Definition field_dag (members_tree_height fuel : nat) (ty : CompilerAbiTypeRef) : outcome CanonicalTypeLayoutDag :=
  let* (root, _, nodes) := append_compiler_abi_type_dag_node members_tree_height fuel ty ∅ [] in
  let dag := mkDag nodes root in
  let* _ := validate_shape dag in
  Ok dag.

Fixpoint field_dags (members_tree_height fuel : nat) (fields : list CompilerAbiLayoutField)
    : outcome (list CanonicalTypeLayoutDag) :=
  match fields with
  | [] => Ok []
  | field :: fields =>
      let* dag := field_dag members_tree_height fuel (abi_field_ty field) in
      let* dags := field_dags members_tree_height fuel fields in
      Ok (dag :: dags)
  end.

(** *** The fields of a document *)

(** The alignment of a field and the padding before its payload. *)
Definition field_alignment (ty : CompilerAbiTypeRef) : Z :=
  match ty with CMap _ _ _ _ _ alignment_felts => alignment_felts | _ => 1 end.

(** One field, checked against the manifest: its type, its canonical preimage and
    its padding, with the next free slot. *)
Definition abi_field (members_tree_height fuel : nat) (index : nat) (next_slot : Z) (field : CompilerAbiLayoutField)
    (cache : cache_t) (visiting : visiting_t)
    : outcome (StateTypeLayoutSummary Hash * StateTypeLayoutWitness Hash * Z * cache_t * visiting_t) :=
  let ty := abi_field_ty field in
  let* _ := ensure (abi_field_id field =? Z.of_nat index + 1) "compiler layout field ids are not contiguous" in
  let* _ := ensure (abi_start_slot field =? next_slot) "compiler layout field slot ranges are not contiguous" in
  let* _ := (if is_map ty then Ok tt else
    let* (contains, _) := compiler_abi_type_contains_map fuel ty ∅ in
    ensure (negb contains) "state-layout protocol forbids aligned Map below a top-level field") in
  let alignment := field_alignment ty in
  let* _ := ensure ((0 <? alignment) && is_power_of_two alignment) "compiler layout field alignment is invalid" in
  let* r := rem (abi_start_slot field) alignment in
  let* expected_payload_offset := rem (alignment - r) alignment in
  let* _ := ensure (abi_payload_offset field =? expected_payload_offset)
    "compiler layout field has incorrect alignment padding" in
  let* (field_type, cache, visiting) := build_compiler_abi_type_layout members_tree_height fuel ty cache visiting in
  let* (field_type_layout, cache) := compiler_abi_type_layout_witness members_tree_height fuel ty cache in
  let* _ := ensure (bool_decide (checked_add 64 (total_slot_count field_type) (abi_payload_offset field) =
                                 Some (abi_slot_count field)))
    "compiler layout field slot count does not match its type" in
  let* next_slot := ok_or (checked_add 64 next_slot (abi_slot_count field)) "compiler layout slot count overflow" in
  Ok (field_type, field_type_layout, next_slot, cache, visiting).

Fixpoint abi_fields_loop (members_tree_height fuel : nat) (index : nat) (next_slot : Z)
    (fields : list CompilerAbiLayoutField) (cache : cache_t) (visiting : visiting_t)
    : outcome (list (StateTypeLayoutSummary Hash) * list (StateTypeLayoutWitness Hash) * Z * cache_t) :=
  match fields with
  | [] => Ok ([], [], next_slot, cache)
  | field :: fields =>
      let* (ty, w, next_slot, cache, visiting) :=
        abi_field members_tree_height fuel index next_slot field cache visiting in
      let* (tys, ws, next_slot, cache) :=
        abi_fields_loop members_tree_height fuel (S index) next_slot fields cache visiting in
      Ok (ty :: tys, w :: ws, next_slot, cache)
  end.
End abi.

Section document.
Context {F : Type} `{EqDecision Hash, MerkleHasher Hash, FieldHash F Hash}.

(** [serde_json::from_str], with the derived [Deserialize] of the document *)
Variable from_json : string → option CompilerAbiDocument.

(** Recursion into struct types is at most as deep as there are definitions. *)
Definition struct_fuel (definitions : gmap string CompilerAbiStruct) : nat := S (size definitions).

Definition contract_state_layout_from_compiler_abi (abi : CompilerAbiDocument)
    (state_layout_tree_height members_tree_height : nat) : outcome (CanonicalContractStateLayout Hash) :=
  let manifest := abi_state_layout abi in
  let* _ := ensure (abi_layout_version manifest =? STATE_LAYOUT_VERSION)
    "unsupported compiler state layout version" in
  let* _ := ensure (abi_encoding_version manifest =? STATE_LAYOUT_ENCODING_VERSION)
    "unsupported compiler state layout encoding" in
  let* _ := ensure (abi_field_count manifest =? Z.of_nat (length (abi_fields manifest)))
    "compiler state layout field count mismatch" in
  let* definitions := abi_definitions (abi_types abi) in
  let* (field_types, field_type_layouts, next_slot, cache) :=
    abi_fields_loop definitions members_tree_height (struct_fuel definitions) 0 0 (abi_fields manifest) ∅ ∅ in
  let* _ := ensure (next_slot =? abi_total_slot_count manifest) "compiler layout total slot count mismatch" in
  let* contract_layout := contract_state_layout_with_payload_offsets field_types
    (abi_payload_offset <$> abi_fields manifest) state_layout_tree_height (abi_state_tree_height abi) in
  let* _ := ensure ((state_layout_field_count contract_layout =? abi_field_count manifest) &&
                    (state_layout_slot_count contract_layout =? abi_total_slot_count manifest))
    "computed consensus layout does not match compiler manifest counts" in
  Ok (mkCanonicalLayout contract_layout field_type_layouts cache).

Definition contract_state_layout_from_compiler_abi_json (abi_json : string)
    (state_layout_tree_height members_tree_height : nat) : outcome (CanonicalContractStateLayout Hash) :=
  let* abi := ok_or (from_json abi_json) "not a compiler ABI document" in
  contract_state_layout_from_compiler_abi abi state_layout_tree_height members_tree_height.

Definition canonical_type_layout_dags_from_compiler_abi_json (abi_json : string) (members_tree_height : nat)
    : outcome (list CanonicalTypeLayoutDag) :=
  let* abi := ok_or (from_json abi_json) "not a compiler ABI document" in
  let* definitions := abi_definitions (abi_types abi) in
  field_dags definitions members_tree_height (struct_fuel definitions) (abi_fields (abi_state_layout abi)).

Definition canonical_layout_manifest_from_compiler_abi_json (abi_json : string)
    (state_layout_tree_height members_tree_height : nat) : outcome (CanonicalLayoutManifest Hash) :=
  let* abi := ok_or (from_json abi_json) "not a compiler ABI document" in
  let* layout := contract_state_layout_from_compiler_abi_json abi_json state_layout_tree_height members_tree_height in
  let* field_type_dags := canonical_type_layout_dags_from_compiler_abi_json abi_json members_tree_height in
  let* _ := ensure (length field_type_dags =? length (fields (contract_layout layout)))%nat
    "canonical type DAG count does not match layout field count" in
  Ok (mkManifest STATE_LAYOUT_VERSION (abi_state_tree_height abi) layout field_type_dags).

Definition contract_state_layout_update_from_compiler_abi_json (old_abi_json new_abi_json : string)
    (state_layout_tree_height members_tree_height : nat)
    : outcome (CanonicalContractStateLayout Hash * CanonicalContractStateLayout Hash) :=
  let* old_abi := ok_or (from_json old_abi_json) "not a compiler ABI document" in
  let* new_abi := ok_or (from_json new_abi_json) "not a compiler ABI document" in
  let* _ := ensure (abi_state_tree_height old_abi =? abi_state_tree_height new_abi)%nat
    "contract state tree height cannot change during layout update" in
  let* old_layout :=
    contract_state_layout_from_compiler_abi_json old_abi_json state_layout_tree_height members_tree_height in
  let* new_layout :=
    contract_state_layout_from_compiler_abi_json new_abi_json state_layout_tree_height members_tree_height in
  let old_fields := fields (contract_layout old_layout) in
  let new_fields := fields (contract_layout new_layout) in
  let* _ := ensure (length old_fields <=? length new_fields)%nat "state layout fields cannot be removed" in
  let* _ := ensure (bool_decide (take (length old_fields) new_fields = old_fields))
    "existing state layout fields were modified or reordered" in
  let* _ := ensure (state_layout_slot_count (contract_layout old_layout) <=?
                    state_layout_slot_count (contract_layout new_layout))
    "state layout slot count cannot decrease" in
  Ok (old_layout, new_layout).
End document.

(** ** What building a type means

    The types without the cache and the set of visited names. *)
Section semantics.
Context {F : Type} `{EqDecision Hash, MerkleHasher Hash, FieldHash F Hash}.
Variable definitions : gmap string CompilerAbiStruct.
Variable h : nat.
Implicit Types (s : StateTypeLayoutSummary Hash) (ty : CompilerAbiTypeRef).

Abbreviation cache_t := (gmap string (StructTypeLayout Hash)).
Abbreviation build := (build_compiler_abi_type_layout (Hash := Hash) definitions h).
Abbreviation append := (append_compiler_abi_type_dag_node definitions h).

Inductive builds : CompilerAbiTypeRef → StateTypeLayoutSummary Hash → Prop :=
  | b_primitive name s :
      primitive_type_layout (primitive_tag name) (primitive_width name) = Ok s → builds (CPrimitive name) s
  | b_array item len size e s :
      builds item e → total_slot_count e = size → fixed_array_type_layout e len = Ok s → builds (CArray item len size) s
  | b_map kind key value cap size al k v s :
      builds key k → builds value v → total_slot_count v = size →
      fixed_map_type_layout (state_map_kind kind) k v cap al = Ok s → builds (CMap kind key value cap size al) s
  | b_struct name layout : builds_struct name layout → builds (CStruct name) (summary layout)
with builds_struct : string → StructTypeLayout Hash → Prop :=
  | bs_struct name def types layout :
      definitions !! name = Some def → builds_members (abi_struct_fields def) types →
      struct_type_layout types h = Ok layout → builds_struct name layout
with builds_members : list CompilerAbiStructField → list (StateTypeLayoutSummary Hash) → Prop :=
  | bm_nil : builds_members [] []
  | bm_cons m ms t ts : builds (abi_member_ty m) t → builds_members ms ts → builds_members (m :: ms) (t :: ts).

Scheme builds_mind := Induction for builds Sort Prop
  with builds_struct_mind := Induction for builds_struct Sort Prop
  with builds_members_mind := Induction for builds_members Sort Prop.
Combined Scheme builds_mutind from builds_mind, builds_struct_mind, builds_members_mind.

Lemma builds_deterministic :
  (∀ ty s, builds ty s → ∀ s', builds ty s' → s = s') ∧
  (∀ name l, builds_struct name l → ∀ l', builds_struct name l' → l = l') ∧
  (∀ ms ts, builds_members ms ts → ∀ ts', builds_members ms ts' → ts = ts').
Proof.
  apply builds_mutind; intros; match goal with H : _ |- _ = _ =>
    lazymatch type of H with
    | builds _ _ => inversion H | builds_struct _ _ => inversion H | builds_members _ _ => inversion H
    end end; simplify_eq; repeat match goal with
    | IH : ∀ x, builds ?t x → _ = x, H : builds ?t _ |- _ => apply IH in H
    | IH : ∀ x, builds_struct ?t x → _ = x, H : builds_struct ?t _ |- _ => apply IH in H
    | IH : ∀ x, builds_members ?t x → _ = x, H : builds_members ?t _ |- _ => apply IH in H
    end; congruence.
Qed.

Definition cache_ok (cache : cache_t) : Prop := ∀ name layout, cache !! name = Some layout → builds_struct name layout.

(** A builder returns what the type means, and only adds correct entries. *)
Definition builder_ok (b : CompilerAbiTypeRef → cache_t → gset string →
    outcome (StateTypeLayoutSummary Hash * cache_t * gset string)) : Prop :=
  ∀ ty cache visiting s cache' visiting', cache_ok cache → b ty cache visiting = Ok (s, cache', visiting') →
    builds ty s ∧ cache_ok cache' ∧ visiting' = visiting.

Lemma abi_members_ok b : builder_ok b → ∀ fields next_offset cache visiting types cache' visiting',
  cache_ok cache → abi_members b next_offset fields cache visiting = Ok (types, cache', visiting') →
  builds_members fields types ∧ cache_ok cache' ∧ visiting' = visiting.
Proof.
  intros Hb fields. induction fields as [|m fields IH]; intros off cache visiting types cache' visiting' Hc Hm;
    cbn [abi_members] in Hm.
  - injection Hm as <- <- <-. split_and!; [constructor|done|done].
  - apply outcome_bind_Ok in Hm as ([] & _ & Hm). apply outcome_bind_Ok in Hm as ([[t c1] v1] & Ht & Hm).
    cbv beta iota in Hm. apply outcome_bind_Ok in Hm as ([] & _ & Hm). apply outcome_bind_Ok in Hm as (o1 & _ & Hm).
    apply outcome_bind_Ok in Hm as ([[ts c2] v2] & Hts & Hm). injection Hm as <- <- <-.
    apply Hb in Ht as (Hbt & Hc1 & ->); [|done]. apply IH in Hts as (Hbts & Hc2 & ->); [|done].
    split_and!; [by constructor|done|done].
Qed.

(** One step of the builder, for a given recursive call. *)
Lemma build_step fuel :
  (∀ f, fuel = S f → builder_ok (build f)) → builder_ok (build fuel).
Proof.
  intros IHf ty. induction ty as [name|name|item IH len size|kind key IHk value IHv cap size al];
    intros cache visiting s cache' visiting' Hc Hb; destruct fuel as [|fuel]; cbn [build_compiler_abi_type_layout] in Hb.
  1,2: outcome_inv; split_and!; [by constructor|done|done].
  1,2: destruct (cache !! name) as [layout|] eqn:El;
    [injection Hb as <- <- <-; split_and!; [constructor; by apply Hc|done|done]|].
  - outcome_inv. done.
  - apply outcome_bind_Ok in Hb as ([] & Hv & Hb). apply ensure_Ok, negb_true_iff, bool_decide_eq_false in Hv.
    apply outcome_bind_Ok in Hb as (def & Hd & Hb). apply ok_or_Ok in Hd.
    apply outcome_bind_Ok in Hb as ([[types c1] v1] & Hm & Hb). cbv beta iota in Hb.
    apply outcome_bind_Ok in Hb as (layout & Hl & Hb). injection Hb as <- <- <-.
    apply (abi_members_ok _ (IHf fuel eq_refl)) in Hm as (Hbm & Hc1 & ->); [|done].
    assert (builds_struct name layout) as Hbs by (by econstructor).
    split_and!; [by constructor| |set_solver].
    intros n l. destruct (decide (n = name)) as [->|Hn]; [rewrite lookup_insert_eq; by intros [= <-]|].
    rewrite lookup_insert_ne by done. apply Hc1.
  - apply outcome_bind_Ok in Hb as ([[e c1] v1] & He & Hb). cbv beta iota in Hb. outcome_inv.
    apply IH in He as (Hbe & Hc1 & ->); [|done]. split_and!; [by econstructor|done|done].
  - apply outcome_bind_Ok in Hb as ([[e c1] v1] & He & Hb). cbv beta iota in Hb. outcome_inv.
    apply IH in He as (Hbe & Hc1 & ->); [|done]. split_and!; [by econstructor|done|done].
  - apply outcome_bind_Ok in Hb as ([[k c1] v1] & Hk & Hb). cbv beta iota in Hb.
    apply outcome_bind_Ok in Hb as ([[v c2] v2] & Hv & Hb). cbv beta iota in Hb. outcome_inv.
    apply IHk in Hk as (Hbk & Hc1 & ->); [|done]. apply IHv in Hv as (Hbv & Hc2 & ->); [|done].
    split_and!; [by econstructor|done|done].
  - apply outcome_bind_Ok in Hb as ([[k c1] v1] & Hk & Hb). cbv beta iota in Hb.
    apply outcome_bind_Ok in Hb as ([[v c2] v2] & Hv & Hb). cbv beta iota in Hb. outcome_inv.
    apply IHk in Hk as (Hbk & Hc1 & ->); [|done]. apply IHv in Hv as (Hbv & Hc2 & ->); [|done].
    split_and!; [by econstructor|done|done].
Qed.

Lemma build_ok fuel : builder_ok (build fuel).
Proof. induction fuel as [|fuel IH]; apply build_step; [done|]. by intros f [= <-]. Qed.

(** *** Canonical preimages *)
Lemma members_loop_Ok types : ∀ index offset ms hs stop,
  members_loop index offset types = Ok (ms, hs, stop) →
  length ms = length types ∧ offset + Z.of_nat (length types) ≤ stop.
Proof.
  induction types as [|t types IH]; intros index offset ms hs stop Hm; cbn [members_loop] in Hm.
  - injection Hm as <- <- <-. simpl. lia.
  - apply outcome_bind_Ok in Hm as (m & Hn & Hm). apply outcome_bind_Ok in Hm as (hm & _ & Hm).
    apply outcome_bind_Ok in Hm as (o & Ho & Hm). apply outcome_bind_Ok in Hm as ([[ms' hs'] stop'] & Hr & Hm).
    injection Hm as <- <- <-. apply IH in Hr as [Hl Hs]. unfold member_new in Hn. outcome_inv. simpl in *. lia.
Qed.

Lemma struct_layout_witness types (layout : StructTypeLayout Hash) :
  struct_type_layout types h = Ok layout →
  witness_summary (WStruct (Z.of_nat (length (members layout))) (total_slot_count (summary layout)) (members_root layout))
  = Ok (summary layout).
Proof.
  unfold struct_type_layout. intros Hl.
  apply outcome_bind_Ok in Hl as ([] & Hne & Hl). apply ensure_Ok, negb_true_iff, bool_decide_eq_false in Hne.
  apply outcome_bind_Ok in Hl as (cap & _ & Hl). apply outcome_bind_Ok in Hl as ([] & _ & Hl).
  apply outcome_bind_Ok in Hl as ([[ms hs] stop] & Hm & Hl). cbv beta iota in Hl.
  apply members_loop_Ok in Hm as [Hlen Hstop]. assert (length types ≠ 0%nat) by (by intros ?%length_zero_iff_nil).
  apply outcome_bind_Ok in Hl as (root & _ & Hl). apply outcome_bind_Ok in Hl as ([] & Hd%ensure_Ok & Hl).
  injection Hl as <-. cbn [witness_summary members summary members_root total_slot_count].
  rewrite !(proj2 (Z.ltb_lt _ _)) by lia. cbn [andb ensure outcome_bind]. by rewrite Hd.
Qed.

Lemma summary_eta s : mkSummary (type_layout_hash s) (total_slot_count s) = s.
Proof. by destruct s. Qed.

(** The preimage computed for a type is a preimage of its layout. *)
Lemma abi_witness_ok fuel ty cache w cache' s :
  cache_ok cache → builds ty s → compiler_abi_type_layout_witness definitions h fuel ty cache = Ok (w, cache') →
  witness_summary w = Ok s ∧ cache_ok cache' ∧
  ∀ start, expected_payload_offset w start =
    if is_map ty then (let* r := rem start (field_alignment ty) in rem (field_alignment ty - r) (field_alignment ty)) else Ok 0.
Proof.
  destruct builds_deterministic as (Hdet & Hdets & _).
  intros Hc Hs Hw. destruct ty as [name|name|item len size|kind key value cap size al];
    cbn [compiler_abi_type_layout_witness] in Hw.
  - injection Hw as <- <-. inversion Hs as [? ? Hp| | |]; subst. split_and!; [|done|done].
    cbn [witness_summary]. rewrite <- Hp. f_equal. by destruct name.
  - apply outcome_bind_Ok in Hw as (c1 & Hc1 & Hw). apply outcome_bind_Ok in Hw as (layout & Hl & Hw).
    apply ok_or_Ok in Hl. injection Hw as <- <-.
    assert (cache_ok c1) as Hok.
    { destruct (cache !! name); [by injection Hc1 as <-|].
      apply outcome_bind_Ok in Hc1 as ([[s1 c2] v2] & Hb & Hc1). injection Hc1 as <-. by apply build_ok in Hb as (_ & ? & _). }
    inversion Hs as [| | |? layout' Hbs]; subst. rewrite (Hdets _ _ Hbs _ (Hok _ _ Hl)).
    split_and!; [|done|done]. destruct (Hok _ _ Hl) as [? ? ? ? _ _ Hlayout]. by eapply struct_layout_witness.
  - apply outcome_bind_Ok in Hw as ([[e c1] v1] & He & Hw). injection Hw as <- <-.
    apply build_ok in He as (Hbe & Hc1 & _); [|done]. inversion Hs as [|? ? ? e' ? Hbe' ? Hf| |]; subst.
    rewrite (Hdet _ _ Hbe' _ Hbe) in Hf. split_and!; [|done|done]. cbn [witness_summary]. by rewrite summary_eta.
  - apply outcome_bind_Ok in Hw as ([[k c1] v1] & Hk & Hw). cbv beta iota in Hw.
    apply outcome_bind_Ok in Hw as ([[v c2] v2] & Hv & Hw). injection Hw as <- <-.
    apply build_ok in Hk as (Hbk & Hc1 & _); [|done]. apply build_ok in Hv as (Hbv & Hc2 & _); [|done].
    inversion Hs as [| |? ? ? ? ? ? k' v' ? Hbk' Hbv' ? Hf|]; subst.
    rewrite (Hdet _ _ Hbk' _ Hbk), (Hdet _ _ Hbv' _ Hbv) in Hf.
    split_and!; [|done|done]. cbn [witness_summary]. by rewrite !summary_eta.
Qed.

(** *** Type graphs *)
Lemma evaluate_nodes_app ns1 ns2 : ∀ sums : list (StateTypeLayoutSummary Hash),
  evaluate_nodes sums (ns1 ++ ns2) = let* sums' := evaluate_nodes sums ns1 in evaluate_nodes sums' ns2.
Proof.
  induction ns1 as [|n ns1 IH]; intros sums; [done|]. simpl. destruct (evaluate_node sums n); simpl; auto.
Qed.

Lemma evaluate_nodes_length ns : ∀ sums sums' : list (StateTypeLayoutSummary Hash),
  evaluate_nodes sums ns = Ok sums' → length sums' = (length sums + length ns)%nat.
Proof.
  induction ns as [|n ns IH]; intros sums sums' He; simpl in *; [injection He as <-; lia|].
  apply outcome_bind_Ok in He as (s & _ & He). apply IH in He. rewrite length_app in He. simpl in He. lia.
Qed.

(** Appending to a graph that evaluates to [sums] adds nodes that evaluate to the
    summary [s] at the returned index. *)
Definition extends (nodes nodes' : list CanonicalTypeLayoutNode) (sums : list (StateTypeLayoutSummary Hash))
    (i : nat) s : Prop :=
  ∃ sums', evaluate_nodes [] nodes' = Ok (sums ++ sums') ∧ (sums ++ sums') !! i = Some s ∧
    S i = length nodes' ∧ (length nodes < length nodes')%nat.

Lemma push_node_extends visiting nodes node i visiting' nodes' sums s :
  evaluate_nodes [] nodes = Ok sums → evaluate_node sums node = Ok s →
  push_node visiting nodes node = Ok (i, visiting', nodes') →
  evaluate_nodes [] nodes' = Ok (sums ++ [s]) ∧ (sums ++ [s]) !! i = Some s ∧ S i = length nodes' ∧
  (length nodes < length nodes')%nat ∧ visiting' = visiting.
Proof.
  intros He Hn Hp. unfold push_node in Hp. outcome_inv. pose proof (evaluate_nodes_length _ _ _ He) as Hl. simpl in Hl.
  rewrite evaluate_nodes_app, He, length_app. simpl. rewrite Hn. simpl.
  split_and!; [done| |lia|lia|done]. rewrite lookup_app_r by lia. by rewrite Hl, Nat.sub_diag.
Qed.

Definition appender_ok (a : CompilerAbiTypeRef → gset string → list CanonicalTypeLayoutNode →
    outcome (nat * gset string * list CanonicalTypeLayoutNode)) : Prop :=
  ∀ ty visiting nodes i visiting' nodes' s sums,
    a ty visiting nodes = Ok (i, visiting', nodes') → builds ty s → evaluate_nodes [] nodes = Ok sums →
    extends nodes nodes' sums i s.

Lemma collect_summaries_prefix (sums rest : list (StateTypeLayoutSummary Hash)) js ts :
  collect_summaries sums js = Ok ts → collect_summaries (sums ++ rest) js = Ok ts.
Proof.
  revert ts. induction js as [|i js IH]; intros ts Hc; [done|]. cbn [collect_summaries] in *.
  apply outcome_bind_Ok in Hc as (s & Hs%unwrap_Ok & Hc). apply outcome_bind_Ok in Hc as (ts' & Hts & Hc).
  rewrite (lookup_app_l_Some _ _ _ _ Hs). cbn [unwrap outcome_bind]. by rewrite (IH _ Hts).
Qed.

Lemma dag_members_ok a : appender_ok a → ∀ fields visiting nodes js visiting' nodes' ts sums,
  dag_members a fields visiting nodes = Ok (js, visiting', nodes') → builds_members fields ts →
  evaluate_nodes [] nodes = Ok sums →
  ∃ sums', evaluate_nodes [] nodes' = Ok (sums ++ sums') ∧ collect_summaries (sums ++ sums') js = Ok ts ∧
    (length nodes ≤ length nodes')%nat.
Proof.
  intros Ha fields. induction fields as [|m fields IH]; intros visiting nodes js visiting' nodes' ts sums Hd Hb He;
    cbn [dag_members] in Hd.
  - injection Hd as <- <- <-. inversion Hb; subst. exists []. rewrite app_nil_r. by split_and!.
  - apply outcome_bind_Ok in Hd as ([[i v1] n1] & Hi & Hd). cbv beta iota in Hd.
    apply outcome_bind_Ok in Hd as ([[js' v2] n2] & His & Hd). injection Hd as <- <- <-.
    inversion Hb as [|? ? t ts' Hbt Hbts]; subst.
    destruct (Ha _ _ _ _ _ _ _ _ Hi Hbt He) as (s1 & He1 & Hl1 & _ & Hlt).
    destruct (IH _ _ _ _ _ _ _ His Hbts He1) as (s2 & He2 & Hc2 & Hle).
    exists (s1 ++ s2). rewrite app_assoc. split_and!; [done| |lia].
    cbn [collect_summaries]. rewrite (lookup_app_l_Some _ _ _ _ Hl1). cbn [unwrap outcome_bind]. by rewrite Hc2.
Qed.

Lemma push_extends visiting nodes n1 node i visiting' nodes' sums sums1 s :
  evaluate_nodes [] n1 = Ok (sums ++ sums1) → (length nodes ≤ length n1)%nat →
  evaluate_node (sums ++ sums1) node = Ok s → push_node visiting n1 node = Ok (i, visiting', nodes') →
  extends nodes nodes' sums i s.
Proof.
  intros He Hle Hn Hp. destruct (push_node_extends _ _ _ _ _ _ _ _ He Hn Hp) as (He' & Hl & Hi & Hlt & _).
  exists (sums1 ++ [s]). rewrite app_assoc. split_and!; (done || lia).
Qed.

Lemma append_array_ok (a : gset string → list CanonicalTypeLayoutNode → _) item len size visiting nodes i visiting' nodes' s sums :
  (∀ visiting nodes i visiting' nodes' e sums,
    a visiting nodes = Ok (i, visiting', nodes') → builds item e → evaluate_nodes [] nodes = Ok sums →
    extends nodes nodes' sums i e) →
  (let* (element, visiting, nodes) := a visiting nodes in push_node visiting nodes (NFixedArray element len))
    = Ok (i, visiting', nodes') →
  builds (CArray item len size) s → evaluate_nodes [] nodes = Ok sums → extends nodes nodes' sums i s.
Proof.
  intros IH Ha Hs He. apply outcome_bind_Ok in Ha as ([[j v1] n1] & Hj & Ha). cbv beta iota in Ha.
  inversion Hs as [|? ? ? e ? Hbe ? Hf| |]; subst.
  destruct (IH _ _ _ _ _ _ _ Hj Hbe He) as (s1 & He1 & Hl1 & _ & Hlt).
  eapply push_extends; [exact He1|lia| |exact Ha].
  cbn [evaluate_node]. by rewrite Hl1.
Qed.

Lemma append_map_ok (ak av : gset string → list CanonicalTypeLayoutNode → _) kind key value cap size al
    visiting nodes i visiting' nodes' s sums :
  (∀ visiting nodes i visiting' nodes' e sums,
    ak visiting nodes = Ok (i, visiting', nodes') → builds key e → evaluate_nodes [] nodes = Ok sums →
    extends nodes nodes' sums i e) →
  (∀ visiting nodes i visiting' nodes' e sums,
    av visiting nodes = Ok (i, visiting', nodes') → builds value e → evaluate_nodes [] nodes = Ok sums →
    extends nodes nodes' sums i e) →
  (let* (k, visiting, nodes) := ak visiting nodes in let* (v, visiting, nodes) := av visiting nodes in
   push_node visiting nodes (NFixedMap (state_map_kind kind) k v cap al)) = Ok (i, visiting', nodes') →
  builds (CMap kind key value cap size al) s → evaluate_nodes [] nodes = Ok sums → extends nodes nodes' sums i s.
Proof.
  intros IHk IHv Ha Hs He. apply outcome_bind_Ok in Ha as ([[j v1] n1] & Hj & Ha). cbv beta iota in Ha.
  apply outcome_bind_Ok in Ha as ([[k v2] n2] & Hk & Ha). cbv beta iota in Ha.
  inversion Hs as [| |? ? ? ? ? ? sk sv ? Hbk Hbv ? Hf|]; subst.
  destruct (IHk _ _ _ _ _ _ _ Hj Hbk He) as (s1 & He1 & Hl1 & _ & Hlt1).
  destruct (IHv _ _ _ _ _ _ _ Hk Hbv He1) as (s2 & He2 & Hl2 & _ & Hlt2). rewrite <- app_assoc in He2, Hl2.
  eapply push_extends; [exact He2|lia| |exact Ha].
  cbn [evaluate_node]. rewrite app_assoc in *. rewrite (lookup_app_l_Some _ _ _ _ Hl1), Hl2. done.
Qed.

Lemma append_step fuel : (∀ f, fuel = S f → appender_ok (append f)) → appender_ok (append fuel).
Proof.
  intros IHf ty. induction ty as [name|name|item IH len size|kind key IHk value IHv cap size al];
    intros visiting nodes i visiting' nodes' s sums Ha Hs He; destruct fuel as [|fuel];
    cbn [append_compiler_abi_type_dag_node] in Ha.
  1,2: inversion Hs as [? ? Hp| | |]; subst; apply (push_extends visiting nodes nodes (NPrimitive (primitive_tag name)) i visiting' nodes' sums []);
    [by rewrite app_nil_r|lia|cbn [evaluate_node]; rewrite <- Hp; f_equal; by destruct name|done].
  3,4: exact (append_array_ok _ item len size _ _ _ _ _ _ _ IH Ha Hs He).
  3,4: exact (append_map_ok _ _ kind key value cap size al _ _ _ _ _ _ _ IHk IHv Ha Hs He).
  - outcome_inv. done.
  - apply outcome_bind_Ok in Ha as ([] & _ & Ha). apply outcome_bind_Ok in Ha as (def & Hd%ok_or_Ok & Ha).
    apply outcome_bind_Ok in Ha as ([[js v1] n1] & Hm & Ha). cbv beta iota in Ha.
    apply outcome_bind_Ok in Ha as ([] & _ & Ha).
    inversion Hs as [| | |? layout Hbs]; subst. destruct Hbs as [? def' types layout Hd' Hbm Hl].
    rewrite Hd in Hd'. injection Hd' as <-.
    destruct (dag_members_ok _ (IHf fuel eq_refl) _ _ _ _ _ _ _ _ Hm Hbm He) as (s1 & He1 & Hc1 & Hle).
    eapply push_extends; [exact He1|exact Hle| |exact Ha].
    cbn [evaluate_node]. rewrite Hc1. cbn [outcome_bind]. by rewrite Hl.
Qed.

Lemma append_ok fuel : appender_ok (append fuel).
Proof. induction fuel as [|fuel IH]; apply append_step; [done|]. by intros f [= <-]. Qed.

(** The graph of a type evaluates to its layout. *)
Lemma field_dag_ok fuel ty dag s :
  field_dag definitions h fuel ty = Ok dag → builds ty s → evaluate dag = Ok s.
Proof.
  unfold field_dag. intros Hd Hs. apply outcome_bind_Ok in Hd as ([[i v] ns] & Ha & Hd). cbv beta iota in Hd.
  apply outcome_bind_Ok in Hd as ([] & Hv & Hd). injection Hd as <-.
  destruct (append_ok fuel _ _ _ _ _ _ _ [] Ha Hs eq_refl) as (sums & He & Hl & _). simpl in He, Hl.
  unfold evaluate. rewrite Hv. cbn [outcome_bind nodes root]. rewrite He. cbn [outcome_bind]. by rewrite Hl.
Qed.

(** *** Fields *)
Lemma rem_one x : rem x 1 = Ok 0.
Proof. unfold rem. simpl. f_equal. apply Z.mod_1_r. Qed.

(** What a checked field establishes. *)
Lemma abi_field_ok fuel index next_slot field cache visiting s w next_slot' cache' visiting' :
  cache_ok cache →
  abi_field definitions h fuel index next_slot field cache visiting = Ok (s, w, next_slot', cache', visiting') →
  builds (abi_field_ty field) s ∧ cache_ok cache' ∧ visiting' = visiting ∧
  abi_field_id field = Z.of_nat index + 1 ∧ abi_start_slot field = next_slot ∧
  next_slot' = next_slot + abi_slot_count field ∧
  abi_slot_count field = total_slot_count s + abi_payload_offset field ∧
  witness_summary w = Ok s ∧ expected_payload_offset w next_slot = Ok (abi_payload_offset field) ∧
  total_slot_count s + abi_payload_offset field < 2 ^ 64.
Proof.
  intros Hc Hf. unfold abi_field in Hf. apply outcome_bind_Ok in Hf as ([] & Hid%ensure_Ok%Z.eqb_eq & Hf).
  apply outcome_bind_Ok in Hf as ([] & Hst%ensure_Ok%Z.eqb_eq & Hf). apply outcome_bind_Ok in Hf as ([] & _ & Hf).
  apply outcome_bind_Ok in Hf as ([] & _ & Hf). apply outcome_bind_Ok in Hf as (r & Hr & Hf).
  apply outcome_bind_Ok in Hf as (off & Hoff & Hf). apply outcome_bind_Ok in Hf as ([] & Hpo%ensure_Ok%Z.eqb_eq & Hf).
  apply outcome_bind_Ok in Hf as ([[t c1] v1] & Ht & Hf). cbv beta iota in Hf.
  apply outcome_bind_Ok in Hf as ([w1 c2] & Hw & Hf). cbv beta iota in Hf.
  apply outcome_bind_Ok in Hf as ([] & Hsc%ensure_Ok%bool_decide_eq_true & Hf).
  apply outcome_bind_Ok in Hf as (ns & Hns & Hf). injection Hf as <- <- <- <- <-.
  apply checked_add_Some in Hsc as [Hsc Hlt]. outcome_inv.
  apply build_ok in Ht as (Hb & Hc1 & ->); [|done].
  destruct (abi_witness_ok _ _ _ _ _ _ Hc1 Hb Hw) as (Hws & Hc2 & Hexp). split_and!; try done.
  rewrite Hexp. destruct (is_map (abi_field_ty field)) eqn:Em; [by rewrite Hr|].
  destruct (abi_field_ty field); try done; cbn [field_alignment] in Hr, Hoff;
    by rewrite rem_one in Hoff.
Qed.

(** A field with a canonical preimage of its type and the padding it asks for. *)
Lemma validate_field_complete (w : StateTypeLayoutWitness Hash) s off f :
  witness_summary w = Ok s → expected_payload_offset w (start_slot f) = Ok off → field_of (s, off) f →
  total_slot_count s + off < 2 ^ 64 → validate_field w f = Ok tt.
Proof.
  intros Hs He (Hh & Hp & Hc) Hlt. simpl in Hh, Hp, Hc. unfold validate_field, checked_add. rewrite Hs. cbn [outcome_bind].
  rewrite bool_decide_true by done. cbn [ensure outcome_bind]. rewrite He. cbn [outcome_bind].
  rewrite Hp, Z.eqb_refl. cbn [ensure outcome_bind]. rewrite Z.add_comm, (proj2 (Z.ltb_lt _ _)) by done.
  cbn [ok_or outcome_bind]. by rewrite Hc, Z.eqb_refl.
Qed.

(** A field of the layout sits where the document says. *)
Definition declares (fld : CompilerAbiLayoutField) (f : StateFieldLayoutLeaf Hash) : Prop :=
  field_id f = abi_field_id fld ∧ start_slot f = abi_start_slot fld ∧
  slot_count f = abi_slot_count fld ∧ payload_offset f = abi_payload_offset fld.

Lemma abi_fields_loop_ok fuel flds : ∀ index next_slot cache visiting ss ws next_slot' cache',
  cache_ok cache →
  abi_fields_loop definitions h fuel index next_slot flds cache visiting = Ok (ss, ws, next_slot', cache') →
  Forall2 (λ fld s, builds (abi_field_ty fld) s) flds ss ∧ cache_ok cache' ∧
  ∀ fs : list (StateFieldLayoutLeaf Hash),
    Forall2 field_of (zip ss (abi_payload_offset <$> flds)) fs → contiguous_from (Z.of_nat index) next_slot fs →
    typed ws fs ∧ Forall2 declares flds fs.
Proof.
  induction flds as [|fld flds IH]; intros index next_slot cache visiting ss ws next_slot' cache' Hc Hl;
    cbn [abi_fields_loop] in Hl.
  - injection Hl as <- <- <- <-. split_and!; [constructor|done|]. intros fs Hfo _. inversion Hfo; subst.
    split; constructor.
  - apply outcome_bind_Ok in Hl as ([[[[s w] ns] c1] v1] & Hf & Hl). cbv beta iota in Hl.
    apply outcome_bind_Ok in Hl as ([[[ss' ws'] ns'] c2] & Hr & Hl). injection Hl as <- <- <- <-.
    apply abi_field_ok in Hf as (Hb & Hc1 & -> & Hid & Hst & -> & Hcount & Hws & Hexp & Hlt); [|done].
    apply IH in Hr as (Hbs & Hc2 & Hrest); [|done]. split_and!; [by constructor|done|].
    intros fs Hfo Hcon. inversion Hfo as [|? f ? fs' Hf Hfo']; subst. destruct Hcon as (Hid' & Hst' & Hcon).
    pose proof Hf as (_ & Hpo & Hsc). simpl in Hpo, Hsc.
    destruct (Hrest fs' Hfo') as [Hty Hdecl]; [by rewrite Nat2Z.inj_succ, Hcount, <- Hsc|].
    split; (constructor; [|done]); [by eapply validate_field_complete; rewrite ?Hst'|].
    unfold declares. rewrite Hcount. split_and!; congruence.
Qed.

Lemma field_dags_ok fuel flds : ∀ dags ss,
  field_dags definitions h fuel flds = Ok dags → Forall2 (λ fld s, builds (abi_field_ty fld) s) flds ss →
  Forall2 (λ dag s, evaluate dag = Ok s) dags ss.
Proof.
  induction flds as [|fld flds IH]; intros dags ss Hd Hb; cbn [field_dags] in Hd; inversion Hb; subst.
  - injection Hd as <-. constructor.
  - apply outcome_bind_Ok in Hd as (dag & Hdag & Hd). apply outcome_bind_Ok in Hd as (dags' & Hrest & Hd).
    injection Hd as <-. constructor; [by eapply field_dag_ok|by apply IH].
Qed.
End semantics.

(** ** Termination

    A visited struct is not entered again, so recursion into structs is at most as
    deep as there are definitions that are not being visited. *)
Section termination.
Context {F : Type} `{EqDecision Hash, MerkleHasher Hash, FieldHash F Hash}.
Variable definitions : gmap string CompilerAbiStruct.
Variable h : nat.
Implicit Types (ty : CompilerAbiTypeRef) (visiting : gset string).

Definition remaining visiting : nat := size (dom definitions ∖ visiting).

Lemma remaining_visit name def visiting :
  name ∉ visiting → definitions !! name = Some def →
  remaining visiting = S (remaining ({[name]} ∪ visiting)).
Proof.
  intros Hv Hd%elem_of_dom_2. unfold remaining.
  replace (dom definitions ∖ visiting) with ({[name]} ∪ dom definitions ∖ ({[name]} ∪ visiting)).
  - rewrite size_union, size_singleton by set_solver. done.
  - apply leibniz_equiv. intros x. destruct (decide (x = name)); set_solver.
Qed.

Lemma remaining_le_fuel : (remaining ∅ ≤ struct_fuel definitions)%nat.
Proof. unfold remaining, struct_fuel. rewrite difference_empty_L, size_dom. lia. Qed.

(** A panic needs a members tree of height 58 or more. *)
Variable P : Prop.
Hypothesis tall : (58 ≤ h)%nat → P.

Lemma graceful_primitive tag w : panics_only_if P (primitive_type_layout (Hash := Hash) tag w).
Proof. unfold primitive_type_layout. graceful. Qed.

Lemma graceful_array (e : StateTypeLayoutSummary Hash) n : panics_only_if P (fixed_array_type_layout e n).
Proof. unfold fixed_array_type_layout. graceful. Qed.

Lemma graceful_map k (key v : StateTypeLayoutSummary Hash) c a : panics_only_if P (fixed_map_type_layout k key v c a).
Proof. unfold fixed_map_type_layout. graceful. Qed.

Lemma graceful_members_loop (types : list (StateTypeLayoutSummary Hash)) : ∀ index offset,
  panics_only_if P (members_loop index offset types).
Proof.
  induction types as [|t types IH]; intros index offset; cbn [members_loop]; unfold member_new, member_hash; graceful.
Qed.

Lemma graceful_padded (l : list Hash) n : ((58 ≤ n)%nat → P) → panics_only_if P (padded_merkle_root l n).
Proof.
  intros Hn. rewrite padded_merkle_root_spec.
  destruct (_ <? 64)%nat; [destruct (_ <=? _); [destruct (Nat.ltb_spec n 58)|]|]; simpl; auto.
Qed.

Lemma graceful_struct (types : list (StateTypeLayoutSummary Hash)) : panics_only_if P (struct_type_layout types h).
Proof.
  unfold struct_type_layout, checked_capacity. graceful; [apply graceful_members_loop|by apply graceful_padded].
Qed.
Hint Resolve graceful_primitive graceful_array graceful_map graceful_struct : psy.

(** The builder with enough fuel. *)
Definition builder_total (n : nat) (b : CompilerAbiTypeRef → gmap string (StructTypeLayout Hash) → gset string →
    outcome (StateTypeLayoutSummary Hash * gmap string (StructTypeLayout Hash) * gset string)) : Prop :=
  ∀ ty cache visiting, cache_ok definitions h cache → (remaining visiting ≤ n)%nat → panics_only_if P (b ty cache visiting).

Lemma abi_members_total n b : builder_ok definitions h b → builder_total n b → ∀ fields offset cache visiting,
  cache_ok definitions h cache → (remaining visiting ≤ n)%nat → panics_only_if P (abi_members b offset fields cache visiting).
Proof.
  intros Hok Hb fields. induction fields as [|m fields IH]; intros offset cache visiting Hc Hn; cbn [abi_members]; graceful.
  apply Hok in E0 as (_ & ? & ->); [|done]. by apply IH.
Qed.

Lemma build_total fuel : builder_total fuel (build_compiler_abi_type_layout definitions h fuel).
Proof.
  induction fuel as [|fuel IHf]; intros ty; induction ty as [name|name|item IH len size|kind key IHk value IHv cap size al];
    intros cache visiting Hc Hn; cbn [build_compiler_abi_type_layout].
  1,5: graceful.
  1,4: destruct (cache !! name) as [layout|] eqn:El; [done|]; graceful; outcome_inv;
    apply negb_true_iff, bool_decide_eq_false in E; rewrite (remaining_visit _ _ _ E E0) in Hn.
  - lia.
  - graceful. apply (abi_members_total fuel); [apply build_ok|done|done|lia].
  - apply graceful_bind; [by apply IH|]. intros [[e c1] v1] He. cbv beta iota. graceful.
  - apply graceful_bind; [by apply IHk|]. intros [[k c1] v1] Hk. apply (build_ok definitions h 0) in Hk as (_ & Hc1 & ->); [|done].
    apply graceful_bind; [by apply IHv|]. intros [[v c2] v2] Hv. cbv beta iota. graceful.
  - apply graceful_bind; [by apply IH|]. intros [[e c1] v1] He. cbv beta iota. graceful.
  - apply graceful_bind; [by apply IHk|]. intros [[k c1] v1] Hk.
    apply (build_ok definitions h (S fuel)) in Hk as (_ & Hc1 & ->); [|done].
    apply graceful_bind; [by apply IHv|]. intros [[v c2] v2] Hv. cbv beta iota. graceful.
Qed.

(** The search for maps restores the set of visited structs and ends. *)
Lemma contains_map_visiting fuel : ∀ ty visiting b visiting',
  compiler_abi_type_contains_map definitions fuel ty visiting = Ok (b, visiting') → visiting' = visiting.
Proof.
  induction fuel as [|fuel IHf]; intros ty; induction ty as [name|name|item IH len size|kind key IHk value IHv cap size al];
    intros visiting b visiting' Hb; cbn [compiler_abi_type_contains_map] in Hb; try (by injection Hb as <- <-); eauto.
  - by outcome_inv.
  - apply outcome_bind_Ok in Hb as ([] & Hv%ensure_Ok & Hb). apply negb_true_iff, bool_decide_eq_false in Hv.
    apply outcome_bind_Ok in Hb as (def & _ & Hb). apply outcome_bind_Ok in Hb as ([c v] & Hm & Hb). injection Hb as <- <-.
    assert (v = {[name]} ∪ visiting) as ->; [|set_solver].
    revert Hm. generalize ({[name]} ∪ visiting) as vs. revert c v.
    induction (abi_struct_fields def) as [|m ms IHm]; intros c v vs Hm; cbn [contains_map_members] in Hm.
    + by injection Hm as <- <-.
    + apply outcome_bind_Ok in Hm as ([b1 v1] & H1 & Hm). apply outcome_bind_Ok in Hm as ([b2 v2] & H2 & Hm).
      injection Hm as <- <-. apply IHf in H1 as ->. by eapply IHm.
Qed.

Lemma contains_map_total fuel : ∀ ty visiting, (remaining visiting ≤ fuel)%nat →
  panics_only_if P (compiler_abi_type_contains_map definitions fuel ty visiting).
Proof.
  induction fuel as [|fuel IHf]; intros ty; induction ty as [name|name|item IH len size|kind key IHk value IHv cap size al];
    intros visiting Hn; cbn [compiler_abi_type_contains_map]; try done; eauto;
    graceful; outcome_inv; apply negb_true_iff, bool_decide_eq_false in E; rewrite (remaining_visit _ _ _ E E0) in Hn; [lia|].
  assert (remaining ({[name]} ∪ visiting) ≤ fuel)%nat as Hle by lia. revert Hle. generalize ({[name]} ∪ visiting) as vs.
  induction (abi_struct_fields a0) as [|m ms IHm]; intros vs Hle; cbn [contains_map_members]; [done|].
  apply graceful_bind; [by apply IHf|]. intros [b v] Hb. apply contains_map_visiting in Hb as ->. graceful.
Qed.

(** So does the construction of a type graph. *)
Lemma append_visiting fuel : ∀ ty visiting nodes i visiting' nodes',
  append_compiler_abi_type_dag_node definitions h fuel ty visiting nodes = Ok (i, visiting', nodes') →
  visiting' = visiting.
Proof.
  induction fuel as [|fuel IHf]; intros ty; induction ty as [name|name|item IH len size|kind key IHk value IHv cap size al];
    intros visiting nodes i visiting' nodes' Ha; cbn [append_compiler_abi_type_dag_node] in Ha.
  1,5: unfold push_node in Ha; by outcome_inv.
  2,5: apply outcome_bind_Ok in Ha as ([[j v] n] & Hj & Ha); unfold push_node in Ha; outcome_inv; by eapply IH.
  2,4: apply outcome_bind_Ok in Ha as ([[j v] n] & Hj & Ha); apply outcome_bind_Ok in Ha as ([[j1 v1] n1] & Hj1 & Ha);
    unfold push_node in Ha; outcome_inv; apply IHk in Hj as ->; by eapply IHv.
  - by outcome_inv.
  - apply outcome_bind_Ok in Ha as ([] & Hv%ensure_Ok & Ha). apply negb_true_iff, bool_decide_eq_false in Hv.
    apply outcome_bind_Ok in Ha as (def & _ & Ha). apply outcome_bind_Ok in Ha as ([[js v] n] & Hm & Ha).
    unfold push_node in Ha. outcome_inv.
    assert (v = {[name]} ∪ visiting) as ->; [|set_solver].
    clear -IHf Hm. revert Hm. generalize ({[name]} ∪ visiting) as vs. revert js v n nodes.
    induction (abi_struct_fields def) as [|m ms IHm]; intros js v n nodes vs Hm; cbn [dag_members] in Hm.
    + by injection Hm as <- <- <-.
    + apply outcome_bind_Ok in Hm as ([[b1 v1] n1] & H1 & Hm). apply outcome_bind_Ok in Hm as ([[b2 v2] n2] & H2 & Hm).
      injection Hm as <- <- <-. apply IHf in H1 as ->. by eapply IHm.
Qed.

Lemma append_total fuel : ∀ ty visiting nodes, (remaining visiting ≤ fuel)%nat →
  panics_only_if P (append_compiler_abi_type_dag_node definitions h fuel ty visiting nodes).
Proof.
  induction fuel as [|fuel IHf]; intros ty; induction ty as [name|name|item IH len size|kind key IHk value IHv cap size al];
    intros visiting nodes Hn; cbn [append_compiler_abi_type_dag_node].
  1,5: unfold push_node; graceful.
  2,5: apply graceful_bind; [by apply IH|]; intros [[j v] n] _; unfold push_node; graceful.
  2: apply graceful_bind; [by apply IHk|]; intros [[j v] n] Hj; apply (append_visiting 0) in Hj as ->;
    apply graceful_bind; [by apply IHv|]; intros [[j1 v1] n1] _; unfold push_node; graceful.
  3: apply graceful_bind; [by apply IHk|]; intros [[j v] n] Hj; apply (append_visiting (S fuel)) in Hj as ->;
    apply graceful_bind; [by apply IHv|]; intros [[j1 v1] n1] _; unfold push_node; graceful.
  all: unfold push_node; graceful; outcome_inv; apply negb_true_iff, bool_decide_eq_false in E;
    rewrite (remaining_visit _ _ _ E E0) in Hn.
  { lia. }
  assert (remaining ({[name]} ∪ visiting) ≤ fuel)%nat as Hle by lia. revert Hle. generalize ({[name]} ∪ visiting) as vs.
  revert nodes. induction (abi_struct_fields a0) as [|m ms IHm]; intros nodes vs Hle; cbn [dag_members]; [done|].
  apply graceful_bind; [by apply IHf|]. intros [[b v] n] Hb. apply append_visiting in Hb as ->. graceful.
Qed.

Lemma graceful_rem x y : 0 < y → panics_only_if P (rem x y).
Proof. intros Hy. unfold rem. by rewrite (proj2 (Z.eqb_neq _ _)) by lia. Qed.

Lemma abi_witness_total fuel ty cache :
  (remaining ∅ ≤ fuel)%nat → cache_ok definitions h cache →
  panics_only_if P (compiler_abi_type_layout_witness definitions h fuel ty cache).
Proof.
  intros Hn Hc. pose proof (build_total fuel) as Hb. destruct ty as [name|name|item len size|kind key value cap size al];
    cbn [compiler_abi_type_layout_witness]; [done| | |].
  - apply graceful_bind; [|intros; graceful]. destruct (cache !! name); [done|].
    apply graceful_bind; [by apply Hb|by intros [[? ?] ?]].
  - apply graceful_bind; [by apply Hb|by intros [[? ?] ?]].
  - apply graceful_bind; [by apply Hb|]. intros [[k c1] v1] Hk. apply build_ok in Hk as (_ & Hc1 & _); [|done].
    apply graceful_bind; [by apply Hb|by intros [[? ?] ?]].
Qed.

Lemma abi_field_total fuel index next_slot field cache visiting :
  (remaining ∅ ≤ fuel)%nat → (remaining visiting ≤ fuel)%nat → cache_ok definitions h cache →
  panics_only_if P (abi_field definitions h fuel index next_slot field cache visiting).
Proof.
  intros Hn Hv Hc. unfold abi_field. do 2 (apply graceful_bind; [graceful|intros]).
  apply graceful_bind.
  { destruct (is_map _); [done|]. apply graceful_bind; [by apply contains_map_total|]. intros [? ?] _. graceful. }
  intros _ _. apply graceful_bind; [graceful|]. intros [] Hal%ensure_Ok. apply andb_true_iff in Hal as [Hal%Z.ltb_lt _].
  do 2 (apply graceful_bind; [by apply graceful_rem|intros]). apply graceful_bind; [graceful|intros _ _].
  apply graceful_bind; [by apply build_total|]. intros [[s c1] v1] Hs. apply build_ok in Hs as (_ & Hc1 & _); [|done].
  apply graceful_bind; [by apply abi_witness_total|]. intros [w c2] _. graceful.
Qed.

Lemma abi_fields_loop_total fuel flds : ∀ index next_slot cache visiting,
  (remaining ∅ ≤ fuel)%nat → (remaining visiting ≤ fuel)%nat → cache_ok definitions h cache →
  panics_only_if P (abi_fields_loop definitions h fuel index next_slot flds cache visiting).
Proof.
  induction flds as [|fld flds IH]; intros index next_slot cache visiting Hn Hv Hc; cbn [abi_fields_loop]; [done|].
  apply graceful_bind; [by apply abi_field_total|]. intros [[[[s w] ns] c1] v1] Hf.
  apply abi_field_ok in Hf as (_ & Hc1 & -> & _); [|done].
  apply graceful_bind; [by apply IH|]. by intros [[[? ?] ?] ?].
Qed.

Lemma field_dags_total fuel flds : (remaining ∅ ≤ fuel)%nat → panics_only_if P (field_dags definitions h fuel flds).
Proof.
  intros Hn. induction flds as [|fld flds IH]; cbn [field_dags]; [done|]. graceful. unfold field_dag.
  apply graceful_bind; [by apply append_total|]. intros [[i v] n] _. graceful.
  unfold validate_shape. graceful. apply (panics_only_if_impl False); [done|]. by apply graceful_nodes.
Qed.
End termination.

(** ** Documents *)
Section documents.
Context {F : Type} `{EqDecision Hash, MerkleHasher Hash, FieldHash F Hash}.
Variable from_json : string → option CompilerAbiDocument.
Abbreviation from_abi := (contract_state_layout_from_compiler_abi (Hash := Hash)).

(** The layout [L] of a document: what its root commits to, the types of the
    fields, and that the fields sit where the document says. *)
Record layout_of (abi : CompilerAbiDocument) (lh mh : nat) (L : CanonicalContractStateLayout Hash)
    (types : list (StateTypeLayoutSummary Hash)) (definitions : gmap string CompilerAbiStruct) : Prop := mkLayoutOf {
  lo_definitions : abi_definitions (abi_types abi) = Ok definitions;
  lo_height : (lh < 58)%nat;
  lo_rep : let C := contract_layout L in
    layout_rep lh (fields C) (state_layout_root C) (state_layout_field_count C) (state_layout_slot_count C);
  lo_capacity : state_layout_slot_count (contract_layout L) ≤ 4 * 2 ^ Z.of_nat (abi_state_tree_height abi);
  lo_typed : typed (field_type_layouts L) (fields (contract_layout L));
  lo_declares : Forall2 declares (abi_fields (abi_state_layout abi)) (fields (contract_layout L));
  lo_builds : Forall2 (λ fld s, builds definitions mh (abi_field_ty fld) s) (abi_fields (abi_state_layout abi)) types;
  lo_fields : Forall2 (λ s f, type_layout_hash s = field_type_hash f ∧ slot_count f = payload_offset f + total_slot_count s)
    types (fields (contract_layout L));
}.

Lemma zip_field_of (types : list (StateTypeLayoutSummary Hash)) offsets : ∀ fs, length types = length offsets →
  Forall2 field_of (zip types offsets) fs →
  Forall2 (λ s f, type_layout_hash s = field_type_hash f ∧ slot_count f = payload_offset f + total_slot_count s) types fs.
Proof.
  revert offsets. induction types as [|s types IH]; intros [|o offsets] fs Hl Hf; try done; inversion Hf; subst; [constructor|].
  constructor; [|by eapply IH; [injection Hl|]]. unfold field_of in *. simpl in *. split; [naive_solver|lia].
Qed.

Lemma from_abi_ok abi lh mh L : from_abi abi lh mh = Ok L → ∃ types definitions, layout_of abi lh mh L types definitions.
Proof.
  unfold contract_state_layout_from_compiler_abi. intros HL.
  do 3 (apply outcome_bind_Ok in HL as ([] & _ & HL)). apply outcome_bind_Ok in HL as (defs & Hdefs & HL).
  apply outcome_bind_Ok in HL as ([[[types ws] ns] cache] & Hloop & HL). cbv beta iota in HL.
  apply outcome_bind_Ok in HL as ([] & _ & HL). apply outcome_bind_Ok in HL as (C & HC & HL).
  apply outcome_bind_Ok in HL as ([] & _ & HL). injection HL as <-.
  apply state_layout_Ok in HC as (Hlen & _ & Hlh & Hrep & Hfo & Hcap).
  apply abi_fields_loop_ok in Hloop as (Hb & _ & Hrest); [|intros ? ?; by rewrite lookup_empty].
  destruct (Hrest (fields C) Hfo) as [Hty Hdecl]; [by destruct Hrep|].
  exists types, defs. split; try done. by eapply zip_field_of.
Qed.

Lemma dags_of_fields dags (types : list (StateTypeLayoutSummary Hash)) (fs : list (StateFieldLayoutLeaf Hash)) :
  Forall2 (λ dag s, evaluate dag = Ok s) dags types →
  Forall2 (λ s f, type_layout_hash s = field_type_hash f ∧ slot_count f = payload_offset f + total_slot_count s) types fs →
  Forall2 (λ dag f, ∃ s, evaluate dag = Ok s ∧ type_layout_hash s = field_type_hash f ∧
                         slot_count f = payload_offset f + total_slot_count s) dags fs.
Proof.
  intros Hd. revert fs. induction Hd as [|dag s dags types Hds _ IH]; intros fs Hf; inversion Hf; subst; constructor; eauto.
Qed.

Lemma from_abi_total abi lh mh : panics_only_if ((58 ≤ lh)%nat ∨ (58 ≤ mh)%nat) (from_abi abi lh mh).
Proof.
  unfold contract_state_layout_from_compiler_abi. do 3 (apply graceful_bind; [graceful|intros]).
  apply graceful_bind; [unfold abi_definitions; graceful|]. intros defs _. pose proof (remaining_le_fuel defs).
  apply graceful_bind; [apply abi_fields_loop_total; [intros; by right|done|done|intros ? ?; by rewrite lookup_empty]|].
  intros [[[types ws] ns] cache] _. graceful. eapply panics_only_if_impl; [|apply state_layout_total]. by left.
Qed.

Lemma dags_total (P : Prop) json mh : ((58 ≤ mh)%nat → P) →
  panics_only_if P (canonical_type_layout_dags_from_compiler_abi_json from_json json mh).
Proof.
  intros HP.
  unfold canonical_type_layout_dags_from_compiler_abi_json, abi_definitions. graceful.
  apply field_dags_total; [done|]. outcome_inv. apply remaining_le_fuel.
Qed.

(** What an accepted update establishes. *)
Lemma abi_update_ok old_json new_json lh mh (old new : CanonicalContractStateLayout Hash) :
  contract_state_layout_update_from_compiler_abi_json from_json old_json new_json lh mh = Ok (old, new) →
  let fs := fields (contract_layout old) in
  ∃ old_abi new_abi ot nt od nd, from_json new_json = Some new_abi ∧
    layout_of old_abi lh mh old ot od ∧ layout_of new_abi lh mh new nt nd ∧
    fields (contract_layout new) = fs ++ drop (length fs) (fields (contract_layout new)).
Proof.
  intros Hu fs. unfold contract_state_layout_update_from_compiler_abi_json, contract_state_layout_from_compiler_abi_json in Hu.
  apply outcome_bind_Ok in Hu as (oa & Hoa%ok_or_Ok & Hu). apply outcome_bind_Ok in Hu as (na & Hna%ok_or_Ok & Hu).
  rewrite Hoa, Hna in Hu. cbn [ok_or outcome_bind] in Hu. apply outcome_bind_Ok in Hu as ([] & _ & Hu).
  apply outcome_bind_Ok in Hu as (oL & Ho & Hu). apply outcome_bind_Ok in Hu as (nL & Hn & Hu).
  apply outcome_bind_Ok in Hu as ([] & _ & Hu). apply outcome_bind_Ok in Hu as ([] & Ht%ensure_Ok%bool_decide_eq_true & Hu).
  apply outcome_bind_Ok in Hu as ([] & _ & Hu). injection Hu as <- <-.
  apply from_abi_ok in Ho as (ot & od & Ho). apply from_abi_ok in Hn as (nt & nd & Hn).
  exists oa, na, ot, nt, od, nd. split_and!; try done. unfold fs. rewrite <- Ht at 1. by rewrite take_drop.
Qed.

(** The fields after the first ones of a layout. *)
Lemma layout_suffix lh fs app root count slots : layout_rep lh (fs ++ app) root count slots →
  let hs := hash_of <$> fs in let hs' := hash_of <$> app in
  hashed fs hs ∧ hashed app hs' ∧ contiguous_from (Z.of_nat (length fs)) (slots_of fs) app ∧
  0 ≤ slots_of app ∧ slots_of fs + slots_of app < 2 ^ 64 ∧ slots = slots_of fs + slots_of app ∧
  count = Z.of_nat (length fs) + Z.of_nat (length app) ∧ count ≤ 2 ^ Z.of_nat lh ∧
  root = tree_node (leaf_fn hash_default (hs ++ hs')) lh 0.
Proof.
  intros (Hc & (hs & Hhs & Hroot) & -> & Hcap & -> & Hlt) hs1 hs2. pose proof (hashed_hash_of _ _ Hhs) as ->.
  rewrite fmap_app in Hhs, Hroot. apply Forall2_app_inv in Hhs as [Hh1 Hh2]; [|by rewrite length_fmap].
  apply contiguous_app in Hc as [_ Hc]. rewrite slots_of_app in *. rewrite length_app in *.
  pose proof (hashed_slots _ _ Hh2). split_and!; try (done || lia).
Qed.
End documents.

(** *** An example

    A contract with a struct and an array, updated with a map at alignment 4. *)
Definition example_types : list CompilerAbiStruct :=
  [mkAbiStruct "Point" [mkAbiMember (CPrimitive PFelt) 0 1; mkAbiMember (CPrimitive PHash) 1 4]].

Definition example_fields : list CompilerAbiLayoutField :=
  [mkAbiField 1 (CStruct "Point") 0 0 5; mkAbiField 2 (CArray (CPrimitive PU32) 2 1) 5 0 2].

Definition example_map : CompilerAbiLayoutField :=
  mkAbiField 3 (CMap CContractHashMap (CPrimitive PFelt) (CPrimitive PHash) 2 4 4) 7 1 9.

Definition example_json (name : string) : option CompilerAbiDocument :=
  if String.eqb name "old" then Some (mkAbi 2 (mkAbiStateLayout 1 1 2 7 example_fields) example_types)
  else if String.eqb name "new" then Some (mkAbi 2 (mkAbiStateLayout 1 1 3 16 (example_fields ++ [example_map])) example_types)
  else None.

(** C14: manifests. Deriving the layout manifest of a compiler ABI document always
    ends, with a manifest or an error; it panics only if the height asked for the layout
    tree or for the members trees is 58 or more, whose padded leaves do not fit in the
    address space (the callers ask for small constants). In a manifest, the layout
    root commits to fields in consecutive slots, each with the identifier, the
    slots and the padding that the document declares, and the slots fit in the
    state tree of the document; the preimage of every field's type passes the
    check that the append circuit makes; and every field's type graph evaluates
    to the type hash of the field and to its number of slots without the padding. *)
Theorem canonical_manifest_correct {F : Type} `{EqDecision Hash, MerkleHasher Hash, FieldHash F Hash}
    (from_json : string → option CompilerAbiDocument) (json : string) (lh mh : nat) :
  let result := canonical_layout_manifest_from_compiler_abi_json from_json json lh mh in
  panics_only_if ((58 ≤ lh)%nat ∨ (58 ≤ mh)%nat) result ∧
  ∀ m : CanonicalLayoutManifest Hash, result = Ok m →
    ∃ abi, from_json json = Some abi ∧ manifest_state_tree_height m = abi_state_tree_height abi ∧
      let C := contract_layout (manifest_layout m) in
      layout_rep lh (fields C) (state_layout_root C) (state_layout_field_count C) (state_layout_slot_count C) ∧
      state_layout_slot_count C ≤ 4 * 2 ^ Z.of_nat (abi_state_tree_height abi) ∧
      Forall2 declares (abi_fields (abi_state_layout abi)) (fields C) ∧
      typed (field_type_layouts (manifest_layout m)) (fields C) ∧
      Forall2 (λ dag f, ∃ s, evaluate dag = Ok s ∧ type_layout_hash s = field_type_hash f ∧
                             slot_count f = payload_offset f + total_slot_count s) (field_type_dags m) (fields C).
Proof.
  split.
  - unfold canonical_layout_manifest_from_compiler_abi_json, contract_state_layout_from_compiler_abi_json. graceful.
    + apply from_abi_total.
    + apply dags_total. by right.
  - unfold canonical_layout_manifest_from_compiler_abi_json, contract_state_layout_from_compiler_abi_json,
      canonical_type_layout_dags_from_compiler_abi_json.
    intros m Hm. apply outcome_bind_Ok in Hm as (abi & Habi%ok_or_Ok & Hm). rewrite Habi in Hm. cbn [ok_or outcome_bind] in Hm.
    apply outcome_bind_Ok in Hm as (L & HL & Hm). apply outcome_bind_Ok in Hm as (dags & Hdags & Hm).
    apply outcome_bind_Ok in Hm as ([] & _ & Hm). injection Hm as <-.
    apply from_abi_ok in HL as (types & defs & [Hdefs Hlh Hrep Hcap Hty Hdecl Hb Hfs]).
    rewrite Hdefs in Hdags. cbn [outcome_bind] in Hdags. pose proof (field_dags_ok _ _ _ _ _ _ Hdags Hb) as Hev.
    exists abi. split_and!; try done. simpl. by eapply dags_of_fields.
Qed.

(** The example document with three fields has a manifest. *)
Lemma canonical_manifest_correct_witness :
  ∃ m : CanonicalLayoutManifest felts4,
    canonical_layout_manifest_from_compiler_abi_json example_json "new" 2 1 = Ok m ∧
    length (field_type_dags m) = 3%nat ∧
    Forall2 declares (example_fields ++ [example_map]) (fields (contract_layout (manifest_layout m))).
Proof.
  destruct (canonical_manifest_correct (Hash := felts4) example_json "new" 2 1) as [_ Hm].
  eexists. split; [vm_compute; reflexivity|]. split; [reflexivity|].
  edestruct Hm as (abi & Habi & _ & _ & _ & Hd & _); [vm_compute; reflexivity|].
  injection Habi as <-. exact Hd.
Defined.

(** A contract leaf with the metadata of a layout. *)
Definition commits_to `{FieldHash F Hash} (leaf : PQEDContractLeafV2 F Hash) (L : ContractStateLayout Hash) : Prop :=
  leaf_state_layout_root leaf = state_layout_root L ∧
  to_u64_value (leaf_field_count leaf) = state_layout_field_count L ∧
  to_u64_value (leaf_slot_count leaf) = state_layout_slot_count L.

#[local] Existing Instance default_zero.

(** C28: accepted updates can be proved, one window at a time. Let the comparison of
    two compiler ABI documents accept the second as an update of the first; let it
    append at least one field, and let the appended fields fit into the one window of
    [2 ^ wh] leaves at the frontier of the layout tree, [wh] at most its height; and let
    there be one non-empty type proof for each appended field. Then the second layout
    is the first with fields appended, the Spiderman proof built from the first
    layout, with the preimages computed from the second document, is a valid append
    batch, and its public inputs justify the change of any contract leaf with the
    same deployer and state tree height from the one layout to the other, provided the
    state tree height is that of the new document and below 62 (at 62 and 63 the
    capacity the check computes wraps to zero). *)
Theorem abi_update_provable `{EqDecision F, EqDecision Hash, MerkleHasher Hash, FieldHash F Hash}
    (from_json : string → option CompilerAbiDocument) (old_json new_json : string) (lh mh wh : nat)
    (old new : CanonicalContractStateLayout Hash) (cid : Z) (v : Hash) (proofs : list (list Z)) :
  contract_state_layout_update_from_compiler_abi_json from_json old_json new_json lh mh = Ok (old, new) →
  let fs := fields (contract_layout old) in
  let hs := hash_of <$> fs in
  let app := drop (length fs) (fields (contract_layout new)) in
  let hs' := hash_of <$> app in
  let i := Z.of_nat (length fs) in
  let existing := drop (Z.to_nat (i / 2 ^ Z.of_nat wh * 2 ^ Z.of_nat wh)) hs in
  let rest := (2 ^ wh - length existing - length app)%nat in
  (wh ≤ lh)%nat → app ≠ [] → (length existing + length app ≤ 2 ^ wh)%nat →
  length proofs = length app → Forall (λ b, b ≠ []) proofs →
  fields (contract_layout new) = fs ++ app ∧
  ∃ proof p, append_from_from_old_new_values (new_from_params i v (tree_siblings (leaf_fn hash_default hs) lh i))
               existing hs' wh = Ok proof ∧
    batch_validate (mkBatch proof app (drop (length fs) (field_type_layouts new)) proofs p) = Ok tt ∧
    ∀ leaf leaf' : PQEDContractLeafV2 F Hash,
      commits_to leaf (contract_layout old) → commits_to leaf' (contract_layout new) →
      deployer leaf = deployer leaf' → state_tree_height leaf = state_tree_height leaf' →
      (∃ abi, from_json new_json = Some abi ∧ to_u64_value (state_tree_height leaf) = Z.of_nat (abi_state_tree_height abi) ∧
              (abi_state_tree_height abi < 62)%nat) →
      validate_contract_layout_transition cid leaf leaf' p = Ok tt.
Proof.
  intros Hu fs hs app hs' i existing rest Hwh Happ Hfit Hlp Hp.
  destruct (abi_update_ok _ _ _ _ _ _ _ Hu) as (oa & na & ot & nt & od & nd & Hna & Ho & Hn & Hnew).
  fold fs in Hnew. fold app in Hnew. split; [done|].
  destruct Ho as [_ Hlh Hro _ _ _ _ _]. destruct Hn as [_ _ Hrn Hcap Hty _ _ _]. cbv zeta in Hro, Hrn.
  rewrite Hnew in Hrn. fold fs in Hro.
  destruct (layout_suffix _ _ _ _ _ _ Hrn) as (Hh & Hh' & Hc & Hs0 & Hs & Hslots & Hcount & Hle & Hroot).
  fold hs in Hh, Hroot. fold hs' in Hh', Hroot. pose proof Hro as (_ & _ & Hfo & _ & Hso & _).
  assert (0 < length app)%nat by (destruct app; [done|simpl; lia]).
  destruct (layout_append_complete lh wh (state_layout_root (contract_layout old)) v fs app hs hs'
    (drop (length fs) (field_type_layouts new)) proofs cid) as (proof & Hproof & Hv & _); try (done || lia).
  - by rewrite <- Hfo, <- Hso.
  - unfold app. by apply Forall2_drop.
  - exists proof. eexists. split; [exact Hproof|]. split; [exact Hv|].
    intros leaf leaf' (Hr1 & Hf1 & Hs1) (Hr2 & Hf2 & Hs2) Hd Hsh (abi & Habi & Hth & H62).
    rewrite Hna in Habi. injection Habi as <-. apply validate_transition_Ok.
    unfold append_inputs. simpl. split_and!; try (done || congruence || lia).
    + apply inputs_shape_complete; [|lia|done]. assert (2 ^ Z.of_nat lh < 2 ^ 64) by (apply Z.pow_lt_mono_r; lia). lia.
    + intros _. rewrite transition_capacity_wraps, Hth, (proj2 (Z.ltb_lt _ _)) by lia. lia.
Qed.

(** The map is appended to the example contract. *)
Lemma abi_update_provable_witness :
  ∃ old new : CanonicalContractStateLayout felts4,
    contract_state_layout_update_from_compiler_abi_json example_json "old" "new" 2 1 = Ok (old, new) ∧
    ∃ proof p, append_from_from_old_new_values
                 (new_from_params 2 (hash_default : felts4) (tree_siblings (leaf_fn hash_default (hash_of <$> fields (contract_layout old))) 2 2))
                 [] (hash_of <$> drop 2 (fields (contract_layout new))) 1 = Ok proof ∧
      batch_validate (mkBatch proof (drop 2 (fields (contract_layout new))) (drop 2 (field_type_layouts new)) [[1]] p) = Ok tt.
Proof.
  eexists _, _. split; [vm_compute; reflexivity|].
  edestruct (abi_update_provable example_json "old" "new" 2 1 1) with (v := hash_default : felts4) (cid := 7) (proofs := [[1]])
    as (_ & proof & p & Hproof & Hv & _); [vm_compute; reflexivity|lia|vm_compute; discriminate|vm_compute; lia|reflexivity|by repeat constructor|].
  exists proof, p. split; [exact Hproof|exact Hv].
Defined.
