(* ===== verification/ContractAbi.v ===== *)
(** * Contract ABIs: slot analysis and layouts

    [psy_data/src/v1/qdata/contract/abi.rs], the analyser that names the storage
    slots of a contract, and the derivation of a state layout from the same ABI in
    [layout.rs] ([contract_state_layout_from_abi]). The two follow the same types
    independently; the theorems relate them. The LRU cache of the analyser is the
    class [LruCache]. *)
From stdpp Require Import prelude gmap strings list fin_maps pretty.
From Stdlib Require Import ZArith Lia.
From S2P Require Import Prelude MerkleHash FieldHash Layout LayoutAbi.

(** ** Data *)
Inductive TypeAbiSpec : Type :=
  | Basic (type_name : string)
  | Array (type_name inner_type : string) (length_ : Z).

Record ParamAbiSpec : Type := mkParamSpec { param_name : string; param_type : TypeAbiSpec }.

Record FieldAbiSpec : Type := mkFieldSpec { field_name : string; field_type : TypeAbiSpec }.

Record FunctionAbiSpec : Type := mkFunctionSpec {
  function_name : string;
  params : list ParamAbiSpec;
  return_type : list TypeAbiSpec;
}.

Record StructAbiSpec : Type := mkStructSpec {
  struct_name : string;
  is_contract : bool;
  struct_fields : list FieldAbiSpec;
  functions : option (list FunctionAbiSpec);
}.

Record QContractABI : Type := mkContractAbi { version : string; structs : list StructAbiSpec }.

Record FieldSlotRange : Type := mkFieldRange {
  range_name : string;
  range_type : TypeAbiSpec;
  range_start : Z;
  range_end : Z;
}.

Record StructSlotRange : Type := mkStructRange {
  range_struct : string;
  range_fields : gmap Z FieldSlotRange;
}.

(** The LRU cache of slot paths: what [lru::LruCache] documents of its operations. *)
Class LruCache (C : Type) : Type := {
  lru_new : nat → C;
  lru_get : C → Z → option string * C;
  lru_put : C → Z → string → C;
}.

(** A cached value was put under its key; look-ups and other insertions only
    reorder and evict. *)
Class LruLaws (C : Type) `{LruCache C} : Prop := {
  lru_new_empty n k : (lru_get (lru_new n) k).1 = None;
  lru_get_keeps c k k' v : (lru_get (lru_get c k).2 k').1 = Some v → (lru_get c k').1 = Some v;
  lru_put_keeps c k v k' v' :
    (lru_get (lru_put c k v) k').1 = Some v' → (k' = k ∧ v' = v) ∨ (lru_get c k').1 = Some v';
}.

Record ABISlotAnalyzer (C : Type) : Type := mkAnalyzer {
  abi : QContractABI;
  contract_name : string;
  struct_ranges : gmap string StructSlotRange;
  cache : C;
}.
Arguments mkAnalyzer {C}.
Arguments abi {C}.
Arguments contract_name {C}.
Arguments struct_ranges {C}.
Arguments cache {C}.

(** ** Operations *)
Definition is_array (self : TypeAbiSpec) : bool := match self with Array _ _ _ => true | _ => false end.

Definition get_type_name (self : TypeAbiSpec) : string :=
  match self with Basic type_name => type_name | Array type_name _ _ => type_name end.

Definition basic_name (name : string) : bool := bool_decide (name = "Felt" ∨ name = "u32" ∨ name = "bool").

Definition is_basic_type (self : TypeAbiSpec) : bool := basic_name (get_type_name self).

Definition get_contract_struct (self : QContractABI) : outcome StructAbiSpec :=
  match filter (λ s, is_contract s = true) (structs self) with
  | [] => Err "contract struct not found"
  | [s] => Ok s
  | _ => Err "multiple contract structs found"
  end.

Definition add_field (self : StructSlotRange) (field : FieldSlotRange) : StructSlotRange :=
  mkStructRange (range_struct self) (<[range_start field := field]> (range_fields self)).

(** [range(..=slot).next_back()]: the entry with the greatest key up to [slot]. *)
Definition last_at_or_below {A} (m : gmap Z A) (slot : Z) : option (Z * A) :=
  map_fold (λ k a best,
    if k <=? slot then
      match best with Some (k', _) => if k' <? k then Some (k, a) else best | None => Some (k, a) end
    else best) None m.

Definition range_get_field_by_slot (self : StructSlotRange) (slot : Z) : outcome FieldSlotRange :=
  match last_at_or_below (range_fields self) slot with
  | Some (_, field) => if slot <=? range_end field then Ok field else Err "slot not within any field range"
  | None => Err "slot not within any field range"
  end.

Definition find_struct (self : QContractABI) (name : string) : outcome StructAbiSpec :=
  ok_or (snd <$> list_find (λ s, struct_name s = name) (structs self)) "struct not found in ABI".

(** [sum::<Result<u64>>], stopping at the first error. *)
Fixpoint sum_slots (count : TypeAbiSpec → outcome Z) (fields : list FieldAbiSpec) (total : Z) : outcome Z :=
  match fields with
  | [] => Ok total
  | field :: fields =>
      let* slots := count (field_type field) in
      sum_slots count fields (wrap 64 (total + slots))
  end.

(** The recursion enters the fields of one struct for each unit of fuel. *)
Fixpoint calculate_type_slot_count (self : QContractABI) (fuel : nat) (type_spec : TypeAbiSpec) : outcome Z :=
  let calculate_struct_total_slots inner_type :=
    let* struct_spec := find_struct self inner_type in
    match fuel with
    | O => Diverge
    | S fuel => sum_slots (calculate_type_slot_count self fuel) (struct_fields struct_spec) 0
    end in
  if is_basic_type type_spec then Ok 1
  else match type_spec with
  | Basic inner_type => calculate_struct_total_slots inner_type
  | Array _ inner_type length_ =>
      let* elem_slot_count :=
        (if is_basic_type (Basic inner_type) then Ok 1 else calculate_struct_total_slots inner_type) in
      Ok (wrap 64 (elem_slot_count * length_))
  end.

(** Types that are not recursive nest at most as many structs as there are. *)
Definition count_fuel (self : QContractABI) : nat := S (length (structs self)).

Definition calculate_struct_total_slots (self : QContractABI) (name : string) : outcome Z :=
  let* struct_spec := find_struct self name in
  sum_slots (calculate_type_slot_count self (count_fuel self)) (struct_fields struct_spec) 0.

Fixpoint field_slots_loop (self : QContractABI) (current_slot : Z) (fields : list FieldAbiSpec)
    (struct_range : StructSlotRange) : outcome StructSlotRange :=
  match fields with
  | [] => Ok struct_range
  | field :: fields =>
      let* slot_count := calculate_type_slot_count self (count_fuel self) (field_type field) in
      let end_slot := wrap 64 (wrap 64 (current_slot + slot_count) - 1) in
      let struct_range :=
        add_field struct_range (mkFieldRange (field_name field) (field_type field) current_slot end_slot) in
      field_slots_loop self (wrap 64 (end_slot + 1)) fields struct_range
  end.

Definition calculate_struct_field_slots (self : QContractABI) (name : string) : outcome StructSlotRange :=
  let* struct_spec := find_struct self name in
  field_slots_loop self 0 (struct_fields struct_spec) (mkStructRange (struct_name struct_spec) ∅).

Fixpoint all_structs_loop (self : QContractABI) (specs : list StructAbiSpec)
    (ranges : gmap string StructSlotRange) : outcome (gmap string StructSlotRange) :=
  match specs with
  | [] => Ok ranges
  | struct_spec :: specs =>
      let name := struct_name struct_spec in
      match ranges !! name with
      | Some _ => all_structs_loop self specs ranges
      | None =>
          let* range := calculate_struct_field_slots self name in
          all_structs_loop self specs (<[name := range]> ranges)
      end
  end.

Definition calculate_all_structs_field_slots (self : QContractABI) : outcome (gmap string StructSlotRange) :=
  all_structs_loop self (structs self) ∅.

Section analyzer.
Context `{LruCache C}.
Implicit Types (self : ABISlotAnalyzer C).

Definition CACHE_CAPACITY : nat := 1024.

Definition analyzer_new (abi : QContractABI) : outcome (ABISlotAnalyzer C) :=
  let* contract := get_contract_struct abi in
  Ok (mkAnalyzer abi (struct_name contract) ∅ (lru_new CACHE_CAPACITY)).

Definition new_with_analyze (abi : QContractABI) : outcome (ABISlotAnalyzer C) :=
  let* analyzer := analyzer_new abi in
  let* ranges := calculate_all_structs_field_slots abi in
  Ok (mkAnalyzer abi (contract_name analyzer) ranges (cache analyzer)).

Definition analyzer_clone self : ABISlotAnalyzer C :=
  mkAnalyzer (abi self) (contract_name self) (struct_ranges self) (lru_new CACHE_CAPACITY).

Definition analyzer_default : ABISlotAnalyzer C := mkAnalyzer (mkContractAbi "" []) "" ∅ (lru_new CACHE_CAPACITY).

Definition get_struct_range self (name : string) : outcome StructSlotRange :=
  ok_or (struct_ranges self !! name) "struct not found".

(** [u64] in decimal. *)
Definition show_u64 (x : Z) : string := pretty (Z.to_N x).

(** The path is extended as the types are followed; [fuel] counts structs. *)
Fixpoint get_field_by_slot_inner self (fuel : nat) (type_spec : TypeAbiSpec) (slot : Z) (current_path : string)
    : outcome string :=
  let struct_case inner_type slot current_path :=
    let* struct_range := get_struct_range self inner_type in
    let* field_range := range_get_field_by_slot struct_range slot in
    let current_path := current_path +:+ "." +:+ range_name field_range in
    match fuel with
    | O => Diverge
    | S fuel =>
        get_field_by_slot_inner self fuel (range_type field_range) (wrap 64 (slot - range_start field_range)) current_path
    end in
  if is_basic_type type_spec then Ok current_path
  else match type_spec with
  | Basic inner_type => struct_case inner_type slot current_path
  | Array _ inner_type _ =>
      if basic_name inner_type then Ok (current_path +:+ "[" +:+ show_u64 slot +:+ "]")
      else
        let* array_elem_slot_count := calculate_type_slot_count (abi self) (count_fuel (abi self)) (Basic inner_type) in
        let* _ := assert_ (negb (array_elem_slot_count =? 0)) in
        let array_index := slot / array_elem_slot_count in
        let elem_slot := slot mod array_elem_slot_count in
        let current_path := current_path +:+ "[" +:+ show_u64 array_index +:+ "]" in
        struct_case inner_type elem_slot current_path
  end.

Definition path_fuel (abi : QContractABI) : nat := S (count_fuel abi).

(** The result with the analyser after the query: a look-up reorders the cache and
    a computed path is inserted. *)
Definition get_field_by_slot self (slot : Z) : outcome string * ABISlotAnalyzer C :=
  let (cached, c) := lru_get (cache self) slot in
  let self := mkAnalyzer (abi self) (contract_name self) (struct_ranges self) c in
  match cached with
  | Some path => (Ok path, self)
  | None =>
      let slot_path := contract_name self in
      match get_field_by_slot_inner self (path_fuel (abi self)) (Basic (contract_name self)) slot slot_path with
      | Ok slot_path =>
          (Ok slot_path,
           mkAnalyzer (abi self) (contract_name self) (struct_ranges self) (lru_put (cache self) slot slot_path))
      | error => (error, self)
      end
  end.
End analyzer.

(** ** The layout of an ABI *)
Definition primitive_tag_of_name (name : string) : option StatePrimitiveTypeTag :=
  if bool_decide (name = "Felt") then Some TFelt
  else if bool_decide (name = "Bool" ∨ name = "bool") then Some TBool
  else if bool_decide (name = "U32" ∨ name = "u32") then Some TU32
  else if bool_decide (name = "Hash") then Some THash
  else None.

Section abi_layout.
Context {F : Type} `{EqDecision Hash, MerkleHasher Hash, FieldHash F Hash}.
Variable abi : QContractABI.

Abbreviation cache_t := (gmap string (StructTypeLayout Hash)).
Abbreviation visiting_t := (gset string).

Definition primitive_from_abi_name (name : string) : outcome (option (StateTypeLayoutSummary Hash)) :=
  match primitive_tag_of_name name with
  | Some THash => let* s := primitive_type_layout THash 4 in Ok (Some s)
  | Some tag => let* s := primitive_type_layout tag 1 in Ok (Some s)
  | None => Ok None
  end.

Definition find_abi_struct (name : string) : outcome StructAbiSpec :=
  ok_or (snd <$> list_find (λ s, struct_name s = name) (structs abi)) "ABI struct not found".

(** [map(..).collect::<Result<Vec<_>>>()] with the cache and the visited names. *)
Fixpoint build_fields
    (build : TypeAbiSpec → cache_t → visiting_t → outcome (StateTypeLayoutSummary Hash * cache_t * visiting_t))
    (fields : list FieldAbiSpec) (cache : cache_t) (visiting : visiting_t)
    : outcome (list (StateTypeLayoutSummary Hash) * cache_t * visiting_t) :=
  match fields with
  | [] => Ok ([], cache, visiting)
  | field :: fields =>
      let* (s, cache, visiting) := build (field_type field) cache visiting in
      let* (ss, cache, visiting) := build_fields build fields cache visiting in
      Ok (s :: ss, cache, visiting)
  end.

Fixpoint build_abi_type_layout (members_tree_height fuel : nat) (type_spec : TypeAbiSpec)
    (cache : cache_t) (visiting : visiting_t) : outcome (StateTypeLayoutSummary Hash * cache_t * visiting_t) :=
  let basic name :=
    let* primitive := primitive_from_abi_name name in
    match primitive, cache !! name with
    | Some primitive, _ => Ok (primitive, cache, visiting)
    | None, Some cached => Ok (summary cached, cache, visiting)
    | None, None =>
        let* _ := ensure (negb (bool_decide (name ∈ visiting))) "recursive inline ABI type is not supported" in
        let visiting := {[name]} ∪ visiting in
        let* struct_spec := find_abi_struct name in
        match fuel with
        | O => Diverge
        | S fuel =>
            let* (member_types, cache, visiting) :=
              build_fields (build_abi_type_layout members_tree_height fuel) (struct_fields struct_spec) cache visiting in
            let* layout := struct_type_layout member_types members_tree_height in
            Ok (summary layout, <[name := layout]> cache, visiting ∖ {[name]})
        end
    end in
  match type_spec with
  | Basic name => basic name
  | Array _ inner_type length_ =>
      let* (element, cache, visiting) := basic inner_type in
      let* s := fixed_array_type_layout element length_ in
      Ok (s, cache, visiting)
  end.

Definition abi_type_layout_witness (members_tree_height fuel : nat) (type_spec : TypeAbiSpec) (cache : cache_t)
    : outcome (StateTypeLayoutWitness Hash * cache_t) :=
  match type_spec with
  | Basic name =>
      match primitive_tag_of_name name with
      | Some type_tag => Ok (WPrimitive type_tag, cache)
      | None =>
          let* cache := (match cache !! name with
                         | Some _ => Ok cache
                         | None => let* (_, cache, _) := build_abi_type_layout members_tree_height fuel type_spec cache ∅ in Ok cache
                         end) in
          let* layout := ok_or (cache !! name) "ABI struct layout was not built" in
          Ok (WStruct (Z.of_nat (length (members layout))) (total_slot_count (summary layout)) (members_root layout), cache)
      end
  | Array _ inner_type length_ =>
      let* (element, cache, _) := build_abi_type_layout members_tree_height fuel (Basic inner_type) cache ∅ in
      Ok (WFixedArray (type_layout_hash element) (total_slot_count element) length_, cache)
  end.

Fixpoint witness_fields (members_tree_height fuel : nat) (fields : list FieldAbiSpec) (cache : cache_t)
    : outcome (list (StateTypeLayoutWitness Hash) * cache_t) :=
  match fields with
  | [] => Ok ([], cache)
  | field :: fields =>
      let* (w, cache) := abi_type_layout_witness members_tree_height fuel (field_type field) cache in
      let* (ws, cache) := witness_fields members_tree_height fuel fields cache in
      Ok (w :: ws, cache)
  end.

Definition contract_state_layout_from_abi (state_layout_tree_height members_tree_height state_tree_height : nat)
    : outcome (CanonicalContractStateLayout Hash) :=
  let fuel := count_fuel abi in
  let* contract := get_contract_struct abi in
  let* (field_types, cache, _) :=
    build_fields (build_abi_type_layout members_tree_height fuel) (struct_fields contract) ∅ {[struct_name contract]} in
  let* contract_struct_layout := struct_type_layout field_types members_tree_height in
  let cache := <[struct_name contract := contract_struct_layout]> cache in
  let* contract_layout := contract_state_layout field_types state_layout_tree_height state_tree_height in
  let* (field_type_layouts, cache) := witness_fields members_tree_height fuel (struct_fields contract) cache in
  Ok (mkCanonicalLayout contract_layout field_type_layouts cache).
End abi_layout.

(** ** What the types of an ABI occupy

    The types that are not recursive and contain no empty struct or array, with
    their number of slots. *)
Inductive sized (abi : QContractABI) : TypeAbiSpec → Z → Prop :=
  | sz_word name : basic_name name = true → sized abi (Basic name) 1
  | sz_struct name s n : basic_name name = false → find_struct abi name = Ok s → struct_fields s ≠ [] →
      sized_fields abi (struct_fields s) n → sized abi (Basic name) n
  | sz_array t inner len n : basic_name t = false → 0 < len → sized abi (Basic inner) n →
      sized abi (Array t inner len) (n * len)
with sized_fields (abi : QContractABI) : list FieldAbiSpec → Z → Prop :=
  | szf_nil : sized_fields abi [] 0
  | szf_cons f fs m n : sized abi (field_type f) m → sized_fields abi fs n → sized_fields abi (f :: fs) (m + n).

Scheme sized_mind := Induction for sized Sort Prop
  with sized_fields_mind := Induction for sized_fields Sort Prop.
Combined Scheme sized_mutind from sized_mind, sized_fields_mind.

(** The word of a type at a slot and the path that leads to it. *)
Inductive leaf_at (abi : QContractABI) : TypeAbiSpec → string → Z → Prop :=
  | la_word name : basic_name name = true → leaf_at abi (Basic name) "" 0
  | la_field name s pre f post k path z :
      basic_name name = false → find_struct abi name = Ok s → struct_fields s = pre ++ f :: post →
      sized_fields abi pre k → leaf_at abi (field_type f) path z →
      leaf_at abi (Basic name) ("." +:+ field_name f +:+ path) (k + z)
  | la_index t inner len n i path z :
      sized abi (Basic inner) n → 0 ≤ i < len → leaf_at abi (Basic inner) path z →
      leaf_at abi (Array t inner len) ("[" +:+ show_u64 i +:+ "]" +:+ path) (i * n + z).

(** Two look-ups of one name. *)
Ltac same_struct :=
  repeat match goal with
  | H1 : find_struct ?abi ?name = Ok ?s, H2 : find_struct ?abi ?name = Ok ?s' |- _ =>
      first [constr_eq s s'; clear H2 | rewrite H1 in H2; injection H2 as <-]
  end.

Section sizes.
Variable abi : QContractABI.

Lemma sized_unique :
  (∀ ty n, sized abi ty n → ∀ n', sized abi ty n' → n = n') ∧
  (∀ fs n, sized_fields abi fs n → ∀ n', sized_fields abi fs n' → n = n').
Proof.
  apply sized_mutind; intros; match goal with H : _ |- _ = _ =>
    lazymatch type of H with sized _ _ _ => inversion H | sized_fields _ _ _ => inversion H end end;
    simplify_eq; same_struct; repeat match goal with
    | IH : ∀ x, sized abi ?t x → _ = x, H : sized abi ?t _ |- _ => apply IH in H
    | IH : ∀ x, sized_fields abi ?t x → _ = x, H : sized_fields abi ?t _ |- _ => apply IH in H
    end; congruence.
Qed.

Lemma sized_positive :
  (∀ ty n, sized abi ty n → 0 < n) ∧ (∀ fs n, sized_fields abi fs n → 0 ≤ n ∧ (fs ≠ [] → 0 < n)).
Proof.
  apply sized_mutind; [lia|naive_solver| | |].
  - intros. nia.
  - by split; [lia|].
  - intros f fs m n _ Hm _ [Hn _]. split; [lia|intros _; lia].
Qed.

Lemma sized_fields_app fs gs n :
  sized_fields abi (fs ++ gs) n ↔ ∃ k m, sized_fields abi fs k ∧ sized_fields abi gs m ∧ n = k + m.
Proof.
  revert n. induction fs as [|f fs IH]; intros n; simpl.
  - split; [intros Hn; exists 0, n; split_and!; [constructor|done|lia]|].
    intros (k & m & Hk & Hm & ->). inversion Hk; subst. done.
  - split.
    + intros Hn. inversion Hn as [|? ? a b Ha Hb]; subst. apply IH in Hb as (k & m & Hk & Hm & ->).
      exists (a + k), m. split_and!; [by constructor|done|lia].
    + intros (k & m & Hk & Hm & ->). inversion Hk as [|? ? a b Ha Hb]; subst.
      replace (a + b + m) with (a + (b + m)) by lia. constructor; [done|]. apply IH. eauto.
Qed.

(** The word at a slot is inside the type, and a slot has one path. *)
Lemma leaf_at_bound ty path z : leaf_at abi ty path z → ∀ n, sized abi ty n → 0 ≤ z < n.
Proof.
  destruct sized_unique as [Hu Huf]. destruct sized_positive as [Hp Hpf].
  induction 1 as [name Hb|name s pre f post k path z Hb Hs Hfs Hk _ IH|t inner len m i path z Hm Hi _ IH]; intros n Hn;
    inversion Hn; simplify_eq; same_struct; try congruence.
  - lia.
  - rewrite Hfs in *. match goal with H : sized_fields _ (_ ++ _) _ |- _ => apply sized_fields_app in H as (k' & m & Hk' & Hm & ->) end.
    rewrite (Huf _ _ Hk _ Hk') in *. inversion Hm as [|? ? a b Ha Hb']; subst.
    specialize (IH _ Ha). apply Hpf in Hb' as [? _]. apply Hpf in Hk' as [? _]. lia.
  - assert (m = n0) as <- by eauto. specialize (IH _ Hm). nia.
Qed.

(** Two splits of a list of sized fields around one slot are the same. *)
Lemma split_unique pre f post : ∀ pre' f' post' k k' m m' z z',
  pre ++ f :: post = pre' ++ f' :: post' → sized_fields abi pre k → sized_fields abi pre' k' →
  sized abi (field_type f) m → sized abi (field_type f') m' → 0 ≤ z < m → 0 ≤ z' < m' → k + z = k' + z' →
  pre = pre' ∧ f = f' ∧ z = z'.
Proof.
  destruct sized_unique as [Hu Huf]. destruct sized_positive as [Hp Hpf].
  induction pre as [|g pre IH]; intros [|g' pre'] f' post' k k' m m' z z' He Hk Hk' Hm Hm' Hz Hz' Hkz;
    simpl in He; injection He as He1 He2; subst; inversion Hk; inversion Hk'; subst.
  - split_and!; [done|done|lia].
  - match goal with H : sized_fields _ pre' _ |- _ => apply Hpf in H as [? _] end.
    match goal with H : sized _ (field_type g') _ |- _ => rewrite (Hu _ _ Hm _ H) in * end. lia.
  - match goal with H : sized_fields _ pre _ |- _ => apply Hpf in H as [? _] end.
    match goal with H : sized _ (field_type f') _, H' : sized _ (field_type f') _ |- _ => rewrite (Hu _ _ H _ H') in * end. lia.
  - match goal with H : sized _ (field_type g') ?a, H' : sized _ (field_type g') ?b |- _ =>
      assert_fails (constr_eq a b); rewrite (Hu _ _ H _ H') in * end.
    edestruct (IH pre' f' post') as (-> & -> & ->); eauto; lia.
Qed.

Lemma sized_split pre f post n : sized_fields abi (pre ++ f :: post) n →
  ∃ k m, sized_fields abi pre k ∧ sized abi (field_type f) m ∧ 0 ≤ k ∧ 0 < m ∧ k + m ≤ n.
Proof.
  destruct sized_positive as [Hp Hpf]. intros (k & m & Hk & Hm & ->)%sized_fields_app. inversion Hm as [|? ? a b Ha Hb]; subst.
  exists k, a. pose proof (Hpf _ _ Hb). pose proof (Hpf _ _ Hk). pose proof (Hp _ _ Ha). split_and!; (done || lia).
Qed.

Lemma leaf_at_unique ty path z : leaf_at abi ty path z →
  ∀ n path', sized abi ty n → leaf_at abi ty path' z → path = path'.
Proof.
  destruct sized_unique as [Hu Huf].
  induction 1 as [name Hb|name s pre f post k path z Hb Hs Hfs Hk Hl IH|t inner len m i path z Hm Hi Hl IH];
    intros n path' Hn Hl'.
  - inversion Hl'; subst; congruence.
  - inversion Hl' as [|? s' pre' f' post' k' path2 z' Hb' Hs' Hfs' Hk' Hl2|]; subst; [congruence|].
    inversion Hn as [|? s'' ? ? Hs'' Hne Hsz|]; subst; [congruence|]. same_struct. rewrite Hfs in Hsz, Hfs'.
    pose proof Hsz as Hsz'. rewrite Hfs' in Hsz'.
    apply sized_split in Hsz as (? & a & ? & Ha & ? & ? & ?). apply sized_split in Hsz' as (? & b & ? & Hb2 & ? & ? & ?).
    pose proof (leaf_at_bound _ _ _ Hl _ Ha). pose proof (leaf_at_bound _ _ _ Hl2 _ Hb2).
    destruct (split_unique pre f post pre' f' post' k k' a b z z') as (-> & -> & ->); (done || lia || idtac).
    f_equal. f_equal. by eapply IH.
  - inversion Hl' as [| |? ? ? m' i' path2 z' Hm' Hi' Hl2]; subst. assert (m = m') as <- by eauto.
    pose proof (leaf_at_bound _ _ _ Hl _ Hm). pose proof (leaf_at_bound _ _ _ Hl2 _ Hm).
    assert (i = i') as <- by (destruct (Z.lt_trichotomy i i') as [|[|]]; nia).
    assert (z = z') as <- by lia. do 3 f_equal. by eapply IH.
Qed.
End sizes.

(** ** The analyser on sized types *)
Section analysis.
Variable abi : QContractABI.

Lemma sum_slots_sized (count : TypeAbiSpec → outcome Z) :
  (∀ ty n m, count ty = Ok m → sized abi ty n → m = wrap 64 n) →
  ∀ fs n total r, sized_fields abi fs n → 0 ≤ total < 2 ^ 64 → sum_slots count fs total = Ok r → r = wrap 64 (total + n).
Proof.
  intros Hc fs. induction fs as [|f fs IH]; intros n total r Hn Ht Hs; cbn [sum_slots] in Hs; inversion Hn; subst.
  - injection Hs as <-. rewrite wrap_small; lia.
  - apply outcome_bind_Ok in Hs as (m' & Hm' & Hs).
    match goal with H : sized abi _ _ |- _ => rewrite (Hc _ _ _ Hm' H) in Hs end.
    match goal with H : sized_fields abi fs _ |- _ => apply (IH _ _ _ H) in Hs as -> end; [|apply wrap_range; lia].
    unfold wrap. by rewrite Zplus_mod_idemp_r, Zplus_mod_idemp_l, Z.add_assoc.
Qed.

(** The count is the size, up to the wrap-around. *)
Lemma calc_sized fuel : ∀ ty n m, calculate_type_slot_count abi fuel ty = Ok m → sized abi ty n → m = wrap 64 n.
Proof.
  induction fuel as [|fuel IH]; intros ty n m Hm Hn; cbn [calculate_type_slot_count] in Hm; unfold is_basic_type in Hm.
  - inversion Hn as [name Hb|name s ? Hb Hs _ Hf|t inner len k Hb Hlen Hk]; subst; cbn [get_type_name] in Hm; rewrite Hb in Hm.
    + by injection Hm as <-.
    + by rewrite Hs in Hm.
    + inversion Hk as [name Hb'|name s ? Hb' Hs _ Hf|]; subst; rewrite Hb' in Hm; [|by rewrite Hs in Hm].
      injection Hm as <-. done.
  - inversion Hn as [name Hb|name s ? Hb Hs _ Hf|t inner len k Hb Hlen Hk]; subst; cbn [get_type_name] in Hm; rewrite Hb in Hm.
    + by injection Hm as <-.
    + rewrite Hs in Hm. cbn [outcome_bind] in Hm. eapply sum_slots_sized in Hm as ->; eauto; lia.
    + inversion Hk as [name Hb'|name s ? Hb' Hs _ Hf|]; subst; rewrite Hb' in Hm; cbn [outcome_bind] in Hm.
      * by injection Hm as <-.
      * rewrite Hs in Hm. cbn [outcome_bind] in Hm. apply outcome_bind_Ok in Hm as (e & He & Hm). injection Hm as <-.
        eapply sum_slots_sized in He as ->; eauto; [|lia]. rewrite Z.add_0_l. unfold wrap. by rewrite Z.mul_mod_idemp_l.
Qed.

Lemma sum_slots_mono (c c' : TypeAbiSpec → outcome Z) : (∀ ty m, c ty = Ok m → c' ty = Ok m) →
  ∀ fs total r, sum_slots c fs total = Ok r → sum_slots c' fs total = Ok r.
Proof.
  intros Hc fs. induction fs as [|f fs IH]; intros total r Hs; [done|]. cbn [sum_slots] in *.
  apply outcome_bind_Ok in Hs as (m & Hm & Hs). rewrite (Hc _ _ Hm). by apply IH.
Qed.

Lemma calc_mono fuel : ∀ fuel' ty m, (fuel ≤ fuel')%nat →
  calculate_type_slot_count abi fuel ty = Ok m → calculate_type_slot_count abi fuel' ty = Ok m.
Proof.
  induction fuel as [|fuel IH]; intros [|fuel'] ty m Hle Hm; try done; [|lia|];
    cbn [calculate_type_slot_count] in *; destruct (is_basic_type ty); try done; destruct ty as [name|t inner len].
  - by destruct (find_struct abi name).
  - destruct (is_basic_type (Basic inner)); [done|]. by destruct (find_struct abi inner).
  - apply outcome_bind_Ok in Hm as (s & -> & Hm). cbn [outcome_bind]. eapply sum_slots_mono; [|exact Hm].
    intros. apply IH; [lia|done].
  - destruct (is_basic_type (Basic inner)); [done|]. apply outcome_bind_Ok in Hm as (e & He & Hm).
    apply outcome_bind_Ok in He as (s & -> & He). cbn [outcome_bind].
    erewrite (sum_slots_mono _ (calculate_type_slot_count abi fuel')); [exact Hm| |exact He]. intros. apply IH; [lia|done].
Qed.

(** *** The ranges of a struct *)
Lemma last_at_or_below_spec {A} (m : gmap Z A) slot :
  match last_at_or_below m slot with
  | Some (k, a) => m !! k = Some a ∧ k ≤ slot ∧ ∀ k' a', m !! k' = Some a' → k' ≤ slot → k' ≤ k
  | None => ∀ k a, m !! k = Some a → slot < k
  end.
Proof.
  unfold last_at_or_below. apply (map_fold_weak_ind (λ r m, match r with
    | Some (k, a) => m !! k = Some a ∧ k ≤ slot ∧ ∀ k' a', m !! k' = Some a' → k' ≤ slot → k' ≤ k
    | None => ∀ k a, m !! k = Some a → slot < k end)).
  - intros k a. by rewrite lookup_empty.
  - intros k a m' r Hk Hr. destruct (Z.leb_spec k slot); [destruct r as [[k' a']|]; [destruct (Z.ltb_spec k' k)|]|].
    + rewrite lookup_insert_eq. destruct Hr as (_ & _ & Hr). split_and!; [done|done|].
      intros j b [[-> ->]|[Hj Hb]]%lookup_insert_Some Hle; [lia|]. apply Hr in Hb; lia.
    + destruct Hr as (Hk' & Hle & Hr). rewrite lookup_insert_ne by congruence. split_and!; [done|done|].
      intros j b [[-> ->]|[Hj Hb]]%lookup_insert_Some Hj'; [lia|]. by eapply Hr.
    + rewrite lookup_insert_eq. split_and!; [done|done|].
      intros j b [[-> ->]|[Hj Hb]]%lookup_insert_Some Hle; [lia|]. apply Hr in Hb. lia.
    + destruct r as [[k' a']|].
      * destruct Hr as (Hk' & Hle & Hr). rewrite lookup_insert_ne by congruence. split_and!; [done|done|].
        intros j b [[-> ->]|[Hj Hb]]%lookup_insert_Some Hj'; [lia|]. by eapply Hr.
      * intros j b [[-> ->]|[Hj Hb]]%lookup_insert_Some; [lia|]. by eapply Hr.
Qed.

(** The field at position [k] of a list of fields that starts at slot [start]. *)
Definition field_at (start : Z) (fs : list FieldAbiSpec) (k : Z) (r : FieldSlotRange) : Prop :=
  ∃ pre f post m, fs = pre ++ f :: post ∧ sized_fields abi pre (k - start) ∧ sized abi (field_type f) m ∧
    r = mkFieldRange (field_name f) (field_type f) k (k + m - 1).

Lemma field_at_cons start f fs m k r : sized abi (field_type f) m →
  field_at start (f :: fs) k r ↔
  (k = start ∧ r = mkFieldRange (field_name f) (field_type f) start (start + m - 1)) ∨ field_at (start + m) fs k r.
Proof.
  destruct (sized_unique abi) as [Hu _]. intros Hm. split.
  - intros ([|g pre] & f' & post & m' & He & Hk & Hm' & ->); simpl in He; injection He as <- He.
    + left. inversion Hk. assert (k = start) as -> by lia. by rewrite (Hu _ _ Hm _ Hm').
    + right. exists pre, f', post, m'. inversion Hk as [|? ? a b Ha Hb]; subst. rewrite (Hu _ _ Hm _ Ha).
      split_and!; try done. by replace (k - (start + a)) with b by lia.
  - intros [[-> ->]|(pre & f' & post & m' & -> & Hk & Hm' & ->)].
    + exists [], f, fs, m. rewrite Z.sub_diag. split_and!; try done. constructor.
    + exists (f :: pre), f', post, m'. split_and!; try done.
      replace (k - start) with (m + (k - (start + m))) by lia. by constructor.
Qed.

Lemma field_at_start start fs k r : field_at start fs k r → start ≤ k.
Proof. intros (pre & ? & ? & ? & _ & Hk & _). apply (proj2 (sized_positive abi)) in Hk. lia. Qed.

Lemma field_slots_loop_sized fs : ∀ n start sr r,
  sized_fields abi fs n → 0 ≤ start → start + n < 2 ^ 64 →
  field_slots_loop abi start fs sr = Ok r → (∀ k, start ≤ k → range_fields sr !! k = None) →
  ∀ k x, range_fields r !! k = Some x ↔ range_fields sr !! k = Some x ∨ field_at start fs k x.
Proof.
  destruct (sized_positive abi) as [Hp Hpf].
  induction fs as [|f fs IH]; intros n start sr r Hn Hs Hlt Hl Hsr k x; cbn [field_slots_loop] in Hl.
  - injection Hl as <-. split; [auto|]. intros [?|([|] & ? & ? & ? & He & _)]; done.
  - inversion Hn as [|? ? m n' Hm Hn']; subst. apply outcome_bind_Ok in Hl as (c & Hc & Hl).
    rewrite (calc_sized _ _ _ _ Hc Hm) in Hl. pose proof (Hp _ _ Hm). pose proof (Hpf _ _ Hn').
    rewrite (wrap_small 64 m), (wrap_small 64 (start + m)), (wrap_small 64 (start + m - 1)) in Hl by lia.
    replace (start + m - 1 + 1) with (start + m) in Hl by lia. rewrite wrap_small in Hl by lia.
    rewrite (IH n' (start + m) _ _ Hn' ltac:(lia) ltac:(lia) Hl).
    + rewrite (field_at_cons start f fs m) by done. cbn [add_field range_fields range_start]. rewrite lookup_insert_Some.
      split; [intros [[[<- <-]|[_ ?]]|?]|intros [Hk|[[-> ->]|?]]]; auto.
      left. right. split; [|done]. intros ->. by rewrite Hsr in Hk by lia.
    + intros j Hj. cbn [add_field range_fields range_start]. rewrite lookup_insert_ne by lia. apply Hsr. lia.
Qed.

Lemma fields_split_at fs n z : sized_fields abi fs n → 0 ≤ z < n →
  ∃ pre f post k m, fs = pre ++ f :: post ∧ sized_fields abi pre k ∧ sized abi (field_type f) m ∧ k ≤ z < k + m.
Proof.
  intros Hn. revert z. induction Hn as [|f fs m n Hm Hn IH]; intros z Hz; [lia|]. destruct (Z.ltb_spec z m).
  - exists [], f, fs, 0, m. split_and!; try (done || lia). constructor.
  - destruct (IH (z - m)) as (pre & f' & post & k & m' & -> & Hk & Hm' & Hz'); [lia|].
    exists (f :: pre), f', post, (m + k), m'. split_and!; try (done || lia). by constructor.
Qed.

(** The look-up of a slot in the ranges of a struct. *)
Lemma range_lookup fs n sr z : sized_fields abi fs n →
  (∀ k x, range_fields sr !! k = Some x ↔ field_at 0 fs k x) → 0 ≤ z →
  if z <? n then
    ∃ pre f post k m, fs = pre ++ f :: post ∧ sized_fields abi pre k ∧ sized abi (field_type f) m ∧ k ≤ z < k + m ∧
      range_get_field_by_slot sr z = Ok (mkFieldRange (field_name f) (field_type f) k (k + m - 1))
  else range_get_field_by_slot sr z = Err "slot not within any field range".
Proof.
  intros Hn Hsr Hz. unfold range_get_field_by_slot. pose proof (last_at_or_below_spec (range_fields sr) z) as Hl.
  destruct (Z.ltb_spec z n).
  - destruct (fields_split_at fs n z Hn) as (pre & f & post & k & m & -> & Hk & Hm & Hkz); [lia|].
    assert (field_at 0 (pre ++ f :: post) k (mkFieldRange (field_name f) (field_type f) k (k + m - 1))) as Hf.
    { exists pre, f, post, m. by rewrite Z.sub_0_r. }
    apply Hsr in Hf. destruct (last_at_or_below _ z) as [[k' x]|]; [|apply Hl in Hf; lia].
    destruct Hl as (Hx & Hk' & Hmax). apply Hmax in Hf as Hle; [|lia].
    apply Hsr in Hx as (pre' & f' & post' & m' & He & Hpre' & Hm' & ->). rewrite Z.sub_0_r in Hpre'.
    pose proof (proj1 (sized_positive abi) _ _ Hm').
    destruct (split_unique abi pre f post pre' f' post' k k' m m' (k' - k) 0) as (-> & -> & Hz0); try (done || lia).
    assert (k' = k) as -> by lia. rewrite (proj1 (sized_unique abi) _ _ Hm' _ Hm) in *.
    exists pre', f', post, k, m. cbn [range_end]. rewrite (proj2 (Z.leb_le _ _)) by lia.
    apply app_inv_head in He. split_and!; try (done || lia).
  - destruct (last_at_or_below _ z) as [[k' x]|]; [|done]. destruct Hl as (Hx & Hk' & _).
    apply Hsr in Hx as (pre' & f' & post' & m' & -> & Hpre' & Hm' & ->). rewrite Z.sub_0_r in Hpre'.
    apply sized_split in Hn as (k & m & Hk & Hm & ? & ? & ?). cbn [range_end].
    rewrite (proj1 (sized_unique abi) _ _ Hm' _ Hm), (proj2 (sized_unique abi) _ _ Hpre' _ Hk) in *.
    by rewrite (proj2 (Z.leb_gt _ _)) by lia.
Qed.

(** All structs of the ABI have their ranges. *)
Lemma find_struct_Ok name s : find_struct abi name = Ok s → s ∈ structs abi ∧ struct_name s = name.
Proof.
  unfold find_struct. intros Hf%ok_or_Ok. apply fmap_Some in Hf as ([i s'] & Hf & ->).
  apply list_find_Some in Hf as (Hi & Hn & _). split; [by eapply list_elem_of_lookup_2|done].
Qed.

Lemma all_structs_loop_ok specs : ∀ ranges ranges',
  all_structs_loop abi specs ranges = Ok ranges' →
  (∀ name r, ranges !! name = Some r → calculate_struct_field_slots abi name = Ok r) →
  ranges ⊆ ranges' ∧ (∀ name r, ranges' !! name = Some r → calculate_struct_field_slots abi name = Ok r) ∧
  ∀ s, s ∈ specs → is_Some (ranges' !! struct_name s).
Proof.
  induction specs as [|s specs IH]; intros ranges ranges' Hl Hr; cbn [all_structs_loop] in Hl.
  - injection Hl as <-. split_and!; [done|done|]. intros s Hs. by apply not_elem_of_nil in Hs.
  - destruct (ranges !! struct_name s) as [r|] eqn:Er.
    + apply IH in Hl as (Hsub & Hr' & Hcov); [|done]. split_and!; [done|done|].
      intros s' [->|Hs]%elem_of_cons; [|by apply Hcov]. exists r. by eapply lookup_weaken.
    + apply outcome_bind_Ok in Hl as (r & Hc & Hl). apply IH in Hl as (Hsub & Hr' & Hcov).
      * split_and!; [|done|].
        -- etrans; [by apply insert_subseteq|done].
        -- intros s' [->|Hs]%elem_of_cons; [|by apply Hcov]. exists r. eapply lookup_weaken; [|done]. apply lookup_insert_eq.
      * intros name r' [[<- <-]|[_ ?]]%lookup_insert_Some; auto.
Qed.

Lemma all_structs_ok ranges : calculate_all_structs_field_slots abi = Ok ranges →
  ∀ name s, find_struct abi name = Ok s →
  ∃ r, ranges !! name = Some r ∧ field_slots_loop abi 0 (struct_fields s) (mkStructRange (struct_name s) ∅) = Ok r.
Proof.
  unfold calculate_all_structs_field_slots. intros Ha name s Hs.
  apply all_structs_loop_ok in Ha as (_ & Hr & Hcov); [|intros ? ?; by rewrite lookup_empty].
  destruct (find_struct_Ok _ _ Hs) as [Hin Hname]. destruct (Hcov _ Hin) as [r Hlook]. rewrite Hname in Hlook.
  exists r. split; [done|]. apply Hr in Hlook. unfold calculate_struct_field_slots in Hlook. by rewrite Hs in Hlook.
Qed.

Lemma field_slots_loop_count fs : ∀ start sr r, field_slots_loop abi start fs sr = Ok r →
  Forall (λ f, ∃ m, calculate_type_slot_count abi (count_fuel abi) (field_type f) = Ok m) fs.
Proof.
  induction fs as [|f fs IH]; intros start sr r Hl; [constructor|]. cbn [field_slots_loop] in Hl.
  apply outcome_bind_Ok in Hl as (c & Hc & Hl). constructor; eauto.
Qed.
End analysis.

Lemma string_app_assoc (a b c : string) : (a +:+ b) +:+ c = a +:+ (b +:+ c).
Proof. induction a as [|x a IH]; [done|]. exact (f_equal (String x) IH). Qed.

Lemma string_app_nil (a : string) : a +:+ "" = a.
Proof. induction a as [|x a IH]; [done|]. exact (f_equal (String x) IH). Qed.

(** *** Paths *)
Section paths.
Context `{LruCache C}.
Variable self : ABISlotAnalyzer C.
Hypothesis Hranges : calculate_all_structs_field_slots (abi self) = Ok (struct_ranges self).

Abbreviation abi := (abi self).

(** A query on a type finds the word at the slot. *)
Definition finds (fuel : nat) (ty : TypeAbiSpec) : Prop := ∀ n z path, sized abi ty n → n < 2 ^ 64 → 0 ≤ z < n →
  ∃ p, get_field_by_slot_inner self fuel ty z path = Ok (path +:+ p) ∧ leaf_at abi ty p z.

(** One step into a struct, for a slot inside and outside. *)
Lemma struct_step fuel name s n z path :
  basic_name name = false → find_struct abi name = Ok s → sized_fields abi (struct_fields s) n → n < 2 ^ 64 → 0 ≤ z →
  Forall (λ f, finds fuel (field_type f)) (struct_fields s) →
  let result :=
    (let* struct_range := get_struct_range self name in
     let* field_range := range_get_field_by_slot struct_range z in
     get_field_by_slot_inner self fuel (range_type field_range) (wrap 64 (z - range_start field_range))
       (path +:+ "." +:+ range_name field_range)) in
  if z <? n then
    ∃ pre f post k m p, struct_fields s = pre ++ f :: post ∧ sized_fields abi pre k ∧ sized abi (field_type f) m ∧
      k ≤ z < k + m ∧ leaf_at abi (field_type f) p (z - k) ∧
      result = Ok (path +:+ ("." +:+ field_name f +:+ p))
  else result = Err "slot not within any field range".
Proof.
  intros Hb Hs Hn Hlt Hz Hf result. destruct (all_structs_ok _ _ Hranges _ _ Hs) as (r & Hr & Hloop).
  pose proof (range_lookup abi _ n r z Hn) as Hlook.
  assert (∀ k x, range_fields r !! k = Some x ↔ field_at abi 0 (struct_fields s) k x) as Hfields.
  { intros k x. rewrite (field_slots_loop_sized abi _ n 0 _ _ Hn ltac:(lia) ltac:(lia) Hloop); [|done].
    cbn [range_fields]. rewrite lookup_empty. naive_solver. }
  specialize (Hlook Hfields Hz). unfold result, get_struct_range. rewrite Hr. cbn [ok_or outcome_bind].
  destruct (z <? n); [|by rewrite Hlook].
  destruct Hlook as (pre & f & post & k & m & Hpre & Hk & Hm & Hkz & ->). cbn [outcome_bind range_type range_start range_name].
  pose proof (proj2 (sized_positive abi) _ _ Hk) as [Hk0 _]. rewrite Hpre in Hn. pose proof Hn as Hn'.
  apply sized_split in Hn' as (k' & m' & Hk' & Hm' & ? & ? & ?).
  rewrite (proj2 (sized_unique abi) _ _ Hk' _ Hk), (proj1 (sized_unique abi) _ _ Hm' _ Hm) in *.
  rewrite wrap_small by lia. rewrite Hpre in Hf. apply Forall_app in Hf as [_ Hf]. apply Forall_cons in Hf as [Hf _].
  destruct (Hf m (z - k) (path +:+ ("." +:+ field_name f)) Hm) as (p & Hp & Hl); [lia|lia|].
  exists pre, f, post, k, m, p. split_and!; try (done || lia). by rewrite Hp, !string_app_assoc.
Qed.

Lemma struct_finds fuel name s n z path :
  basic_name name = false → find_struct abi name = Ok s → sized_fields abi (struct_fields s) n → n < 2 ^ 64 → 0 ≤ z < n →
  Forall (λ f, finds fuel (field_type f)) (struct_fields s) →
  ∃ p, (let* struct_range := get_struct_range self name in
        let* field_range := range_get_field_by_slot struct_range z in
        get_field_by_slot_inner self fuel (range_type field_range) (wrap 64 (z - range_start field_range))
          (path +:+ "." +:+ range_name field_range)) = Ok (path +:+ p) ∧ leaf_at abi (Basic name) p z.
Proof.
  intros Hb Hs Hn Hlt Hz Hf. pose proof (struct_step fuel name s n z path Hb Hs Hn Hlt ltac:(lia) Hf) as Hstep.
  cbv zeta in Hstep. rewrite (proj2 (Z.ltb_lt _ _)) in Hstep by lia.
  destruct Hstep as (pre & f & post & k & m & p & Hpre & Hk & Hm & Hkz & Hl & ->). eexists. split; [done|].
  replace z with (k + (z - k)) by lia. by econstructor.
Qed.

Lemma calc_fields fuel name s m : basic_name name = false → find_struct abi name = Ok s →
  calculate_type_slot_count abi (S fuel) (Basic name) = Ok m →
  Forall (λ f, ∃ m, calculate_type_slot_count abi fuel (field_type f) = Ok m) (struct_fields s).
Proof.
  intros Hb Hs Hm. cbn [calculate_type_slot_count] in Hm. unfold is_basic_type in Hm. cbn [get_type_name] in Hm.
  rewrite Hb, Hs in Hm. cbn [outcome_bind] in Hm. revert Hm. generalize 0 at 1.
  induction (struct_fields s) as [|f fs IH]; intros total Hm; [constructor|]. cbn [sum_slots] in Hm.
  apply outcome_bind_Ok in Hm as (c & Hc & Hm). constructor; eauto.
Qed.

(** The elements of an array whose count returns. *)
Lemma calc_inner fuel t inner len m : basic_name t = false →
  calculate_type_slot_count abi fuel (Array t inner len) = Ok m →
  ∃ e, calculate_type_slot_count abi fuel (Basic inner) = Ok e.
Proof.
  intros Ht Hm. destruct fuel; cbn [calculate_type_slot_count] in *; unfold is_basic_type in *; cbn [get_type_name] in *;
    rewrite Ht in Hm; apply outcome_bind_Ok in Hm as (e & He & _); by exists e.
Qed.

Lemma struct_finds_fuel fuel name s m :
  basic_name name = false → find_struct abi name = Ok s → (fuel ≤ count_fuel abi)%nat →
  calculate_type_slot_count abi fuel (Basic name) = Ok m →
  (∀ f ty m, fuel = S f → (f ≤ count_fuel abi)%nat → calculate_type_slot_count abi f ty = Ok m → finds f ty) →
  ∃ f, fuel = S f ∧ Forall (λ x, finds f (field_type x)) (struct_fields s).
Proof.
  intros Hb Hs Hle Hm IH. destruct fuel as [|f].
  - cbn [calculate_type_slot_count] in Hm. unfold is_basic_type in Hm. cbn [get_type_name] in Hm. by rewrite Hb, Hs in Hm.
  - exists f. split; [done|]. eapply Forall_impl; [by eapply calc_fields|]. intros x [k Hk]. eapply IH; [done|lia|done].
Qed.

Lemma inner_finds fuel : ∀ ty m, (fuel ≤ count_fuel abi)%nat → calculate_type_slot_count abi fuel ty = Ok m → finds fuel ty.
Proof.
  induction (lt_wf fuel) as [fuel _ IHf]. intros ty m Hle Hm n z path Hn Hlt Hz.
  assert (∀ f ty m, fuel = S f → (f ≤ count_fuel abi)%nat → calculate_type_slot_count abi f ty = Ok m → finds f ty) as IH.
  { intros f ty' m' -> ? ?. eapply IHf; [lia|done|done]. }
  inversion Hn as [name Hb|name s ? Hb Hs _ Hf|t inner len k Hb Hlen Hk]; subst.
  - exists "". assert (z = 0) as -> by lia. split; [|by constructor].
    destruct fuel; cbn [get_field_by_slot_inner]; unfold is_basic_type; cbn [get_type_name]; by rewrite Hb, string_app_nil.
  - destruct (struct_finds_fuel _ _ _ _ Hb Hs Hle Hm IH) as (f & -> & Hfs).
    cbn [get_field_by_slot_inner]. unfold is_basic_type. cbn [get_type_name]. rewrite Hb. by eapply struct_finds.
  - destruct (basic_name inner) eqn:Hi.
    + exists ("[" +:+ show_u64 z +:+ "]"). inversion Hk; subst; [|congruence]. split.
      * destruct fuel; cbn [get_field_by_slot_inner]; unfold is_basic_type; cbn [get_type_name]; by rewrite Hb, Hi.
      * replace z with (z * 1 + 0) at 2 by lia. apply (la_index abi t inner len 1 z "" 0); [done|lia|by constructor].
    + inversion Hk as [|? s ? Hi' Hs _ Hf|]; subst; [congruence|].
      destruct (calc_inner _ _ _ _ _ Hb Hm) as [e He]. pose proof (proj1 (sized_positive abi) _ _ Hk) as Hk0.
      assert (e = k) as -> by (rewrite (calc_sized _ _ _ _ _ He Hk); apply wrap_small; nia).
      destruct (struct_finds_fuel _ _ _ _ Hi Hs Hle He IH) as (f & -> & Hfs).
      pose proof (Z.mod_pos_bound z k Hk0). pose proof (Z.div_mod z k ltac:(lia)).
      destruct (struct_finds f inner s k (z mod k) (path +:+ "[" +:+ show_u64 (z / k) +:+ "]") Hi Hs Hf ltac:(nia) ltac:(lia) Hfs)
        as (p & Hp & Hl).
      exists ("[" +:+ show_u64 (z / k) +:+ "]" +:+ p). split.
      * cbn [get_field_by_slot_inner]. unfold is_basic_type. cbn [get_type_name].
        rewrite Hb, Hi, (calc_mono _ _ _ _ _ Hle He). cbn [outcome_bind].
        rewrite (proj2 (Z.eqb_neq _ _)) by lia. cbn [negb assert_ outcome_bind]. rewrite Hp. by rewrite !string_app_assoc.
      * replace z with (z / k * k + z mod k) at 2 by lia. constructor; [done| |done]. split; [apply Z.div_pos; lia|].
        apply Z.div_lt_upper_bound; lia.
Qed.
End paths.

(** ** ABIs that both components read alike

    Struct names are distinct, no struct has the name of a basic type, no array is
    labelled with one, and the primitives that only the layout knows are not used. *)
Definition plain_name (name : string) : Prop := name ∉ ["Bool"; "U32"; "Hash"].

Definition analyzable_type (ty : TypeAbiSpec) : Prop :=
  match ty with
  | Basic name => plain_name name
  | Array type_name inner_type _ => basic_name type_name = false ∧ plain_name inner_type
  end.

Definition analyzable (abi : QContractABI) : Prop :=
  NoDup (struct_name <$> structs abi) ∧
  Forall (λ s, basic_name (struct_name s) = false ∧ Forall (λ f, analyzable_type (field_type f)) (struct_fields s))
    (structs abi).

#[global] Instance analyzable_type_dec ty : Decision (analyzable_type ty).
Proof. destruct ty; unfold analyzable_type, plain_name; apply _. Defined.

#[global] Instance analyzable_dec abi : Decision (analyzable abi).
Proof. unfold analyzable. apply _. Defined.

(** A plain name is a word for both or a struct for both. *)
Lemma plain_primitive name : plain_name name →
  (basic_name name = true ∧ ∃ tag, primitive_tag_of_name name = Some tag ∧ tag ≠ THash) ∨
  (basic_name name = false ∧ primitive_tag_of_name name = None).
Proof.
  unfold plain_name, basic_name, primitive_tag_of_name. rewrite !not_elem_of_cons. intros (H1 & H2 & H3 & _).
  repeat case_bool_decide; naive_solver.
Qed.

Lemma get_contract_struct_Ok abi contract : get_contract_struct abi = Ok contract → contract ∈ structs abi.
Proof.
  unfold get_contract_struct. destruct (filter _ (structs abi)) as [|s [|]] eqn:Ef; intros Hc; try done. injection Hc as <-.
  assert (s ∈ filter (λ s, is_contract s = true) (structs abi)) as Hs by (rewrite Ef; by left).
  by apply list_elem_of_filter in Hs as [_ ?].
Qed.

(** With distinct names, a struct is found by its name. *)
Lemma find_struct_member abi s : NoDup (struct_name <$> structs abi) → s ∈ structs abi → find_struct abi (struct_name s) = Ok s.
Proof.
  unfold find_struct. induction (structs abi) as [|x l IH]; intros Hnd Hs; [by apply not_elem_of_nil in Hs|].
  cbn [list_find]. apply NoDup_cons in Hnd as [Hx Hnd]. destruct (decide (struct_name x = struct_name s)) as [He|Hne].
  - apply elem_of_cons in Hs as [->|Hs]; [done|]. destruct Hx. rewrite He. by apply list_elem_of_fmap_2.
  - apply elem_of_cons in Hs as [->|Hs]; [done|]. specialize (IH Hnd Hs). apply ok_or_Ok, fmap_Some in IH as ([i y] & Hy & He).
    rewrite Hy. simpl in *. by subst.
Qed.

Section layout_sizes.
Context {F : Type} `{EqDecision Hash, MerkleHasher Hash, FieldHash F Hash}.
Variable abi : QContractABI.
Variable h : nat.
Hypothesis Habi : analyzable abi.
Implicit Types (s : StateTypeLayoutSummary Hash).

(** The layout [s] of a type has its size. *)
Definition laid_out (ty : TypeAbiSpec) s : Prop := sized abi ty (total_slot_count s) ∧ total_slot_count s < 2 ^ 64.

Definition cache_sized (cache : gmap string (StructTypeLayout Hash)) : Prop :=
  ∀ name l, cache !! name = Some l → laid_out (Basic name) (summary l).

Fixpoint total_of (ss : list (StateTypeLayoutSummary Hash)) : Z :=
  match ss with [] => 0 | s :: ss => total_slot_count s + total_of ss end.

Lemma members_loop_total ss : ∀ index offset ms hs stop,
  members_loop index offset ss = Ok (ms, hs, stop) → offset < 2 ^ 64 → stop = offset + total_of ss ∧ stop < 2 ^ 64.
Proof.
  induction ss as [|s ss IH]; intros index offset ms hs stop Hm Ho; cbn [members_loop] in Hm.
  - injection Hm as <- <- <-. simpl. lia.
  - apply outcome_bind_Ok in Hm as (m & Hn & Hm). apply outcome_bind_Ok in Hm as (hm & _ & Hm).
    apply outcome_bind_Ok in Hm as (o & Ho' & Hm). apply outcome_bind_Ok in Hm as ([[ms' hs'] stop'] & Hr & Hm).
    injection Hm as <- <- <-. unfold member_new in Hn. outcome_inv. simpl in *. apply IH in Hr; lia.
Qed.

Lemma struct_layout_total ss l : struct_type_layout ss h = Ok l →
  ss ≠ [] ∧ total_slot_count (summary l) = total_of ss ∧ total_of ss < 2 ^ 64.
Proof.
  unfold struct_type_layout. intros Hl.
  apply outcome_bind_Ok in Hl as ([] & Hne & Hl). apply ensure_Ok, negb_true_iff, bool_decide_eq_false in Hne.
  apply outcome_bind_Ok in Hl as (cap & _ & Hl). apply outcome_bind_Ok in Hl as ([] & _ & Hl).
  apply outcome_bind_Ok in Hl as ([[ms hs] stop] & Hm & Hl). cbv beta iota in Hl.
  apply members_loop_total in Hm as [-> Hlt]; [|lia].
  apply outcome_bind_Ok in Hl as (root & _ & Hl). apply outcome_bind_Ok in Hl as ([] & _ & Hl).
  injection Hl as <-. simpl. split_and!; [done|lia|lia].
Qed.

Lemma laid_out_fields fs ss : Forall2 (λ f s, laid_out (field_type f) s) fs ss → sized_fields abi fs (total_of ss).
Proof. induction 1 as [|f s fs ss [Hs _] _ IH]; simpl; by constructor. Qed.

Lemma primitive_total tag w s : primitive_type_layout tag w = Ok s → total_slot_count s = w.
Proof. unfold primitive_type_layout. intros Hs. by outcome_inv. Qed.

Lemma find_abi_struct_Ok name spec : find_abi_struct abi name = Ok spec →
  find_struct abi name = Ok spec ∧ basic_name name = false ∧
  Forall (λ f, analyzable_type (field_type f)) (struct_fields spec).
Proof.
  intros Hf. assert (find_struct abi name = Ok spec) as Hs.
  { unfold find_abi_struct in Hf. apply ok_or_Ok in Hf. unfold find_struct. by rewrite Hf. }
  destruct (find_struct_Ok _ _ _ Hs) as [Hin <-]. destruct Habi as [_ Hall]. rewrite Forall_forall in Hall.
  by destruct (Hall _ Hin).
Qed.

(** A builder lays out plain types. *)
Definition builder_sized (b : TypeAbiSpec → gmap string (StructTypeLayout Hash) → gset string →
    outcome (StateTypeLayoutSummary Hash * gmap string (StructTypeLayout Hash) * gset string)) : Prop :=
  ∀ ty cache visiting s cache' visiting', analyzable_type ty → cache_sized cache →
    b ty cache visiting = Ok (s, cache', visiting') → laid_out ty s ∧ cache_sized cache'.

Lemma build_fields_sized b : builder_sized b → ∀ fs cache visiting ss cache' visiting',
  Forall (λ f, analyzable_type (field_type f)) fs → cache_sized cache →
  build_fields b fs cache visiting = Ok (ss, cache', visiting') →
  Forall2 (λ f s, laid_out (field_type f) s) fs ss ∧ cache_sized cache'.
Proof.
  intros Hb fs. induction fs as [|f fs IH]; intros cache visiting ss cache' visiting' Hf Hc Hl; cbn [build_fields] in Hl.
  - injection Hl as <- <- <-. by split.
  - apply Forall_cons in Hf as [Hf Hfs]. apply outcome_bind_Ok in Hl as ([[s c1] v1] & Hs & Hl). cbv beta iota in Hl.
    apply outcome_bind_Ok in Hl as ([[ss' c2] v2] & Hss & Hl). injection Hl as <- <- <-.
    apply Hb in Hs as [Hs Hc1]; [|done|done]. apply IH in Hss as [Hss Hc2]; [|done|done]. split; [by constructor|done].
Qed.

Lemma primitive_from_plain name tag o : primitive_tag_of_name name = Some tag → tag ≠ THash →
  primitive_from_abi_name name = Ok o → ∃ p, o = Some p ∧ total_slot_count p = 1.
Proof.
  unfold primitive_from_abi_name. intros -> Hne Hp.
  assert (∃ p, primitive_type_layout tag 1 = Ok p ∧ o = Some p) as (p & Hp' & ->)
    by (destruct tag; try done; apply outcome_bind_Ok in Hp as (p & Hp & Ho); injection Ho as <-; eauto).
  exists p. split; [done|]. by eapply primitive_total.
Qed.

(** A plain name, when the recursive calls lay out the members. *)
Lemma build_basic_sized fuel name cache visiting s cache' visiting' :
  (∀ f, fuel = S f → builder_sized (build_abi_type_layout abi h f)) → plain_name name → cache_sized cache →
  build_abi_type_layout abi h fuel (Basic name) cache visiting = Ok (s, cache', visiting') →
  laid_out (Basic name) s ∧ cache_sized cache'.
Proof.
  intros IH Hplain Hc Hb. destruct (plain_primitive _ Hplain) as [(Hw & tag & Ht & Hne)|[Hw Ht]];
    destruct fuel as [|fuel]; cbn [build_abi_type_layout] in Hb.
  1,2: apply outcome_bind_Ok in Hb as (o & Ho & Hb); destruct (primitive_from_plain _ _ _ Ht Hne Ho) as (p & -> & Hp);
    injection Hb as <- <- <-; split; [|done]; unfold laid_out; rewrite Hp; split; [by constructor|lia].
  all: unfold primitive_from_abi_name in Hb; rewrite Ht in Hb; cbn [outcome_bind] in Hb; destruct (cache !! name) as [l|] eqn:El;
    [injection Hb as <- <- <-; split; [by apply Hc|done]|].
  - by outcome_inv.
  - apply outcome_bind_Ok in Hb as ([] & _ & Hb). apply outcome_bind_Ok in Hb as (spec & Hspec & Hb).
    apply find_abi_struct_Ok in Hspec as (Hspec & _ & Hfs).
    apply outcome_bind_Ok in Hb as ([[ss c1] v1] & Hss & Hb). cbv beta iota in Hb.
    apply outcome_bind_Ok in Hb as (l & Hl & Hb). injection Hb as <- <- <-.
    apply (build_fields_sized _ (IH fuel eq_refl)) in Hss as [Hss Hc1]; [|done|done].
    apply struct_layout_total in Hl as (Hne & Htot & Hlt).
    assert (laid_out (Basic name) (summary l)) as Hlaid.
    { split; [|lia]. rewrite Htot. econstructor; [done|done| |by apply laid_out_fields].
      intros Hnil. rewrite Hnil in Hss. by apply Forall2_nil_inv_l in Hss. }
    split; [done|]. intros n l' [[<- <-]|[_ ?]]%lookup_insert_Some; auto.
Qed.

Lemma build_array_unfold fuel t inner len cache visiting :
  build_abi_type_layout abi h fuel (Array t inner len) cache visiting =
  (let* (element, cache, visiting) := build_abi_type_layout (Hash := Hash) abi h fuel (Basic inner) cache visiting in
   let* s := fixed_array_type_layout element len in Ok (s, cache, visiting)).
Proof. by destruct fuel. Qed.

Lemma build_sized fuel : builder_sized (build_abi_type_layout abi h fuel).
Proof.
  induction (lt_wf fuel) as [fuel _ IHf].
  assert (∀ f, fuel = S f → builder_sized (build_abi_type_layout abi h f)) as IH by (intros f ->; apply IHf; lia).
  intros [name|t inner len] cache visiting s cache' visiting' Hty Hc Hb.
  - by eapply build_basic_sized.
  - destruct Hty as [Ht Hp]. rewrite build_array_unfold in Hb.
    apply outcome_bind_Ok in Hb as ([[e c1] v1] & He & Hb). cbv beta iota in Hb.
    apply build_basic_sized in He as [[He Hlt] Hc1]; [|done|done|done].
    apply outcome_bind_Ok in Hb as (r & Hr & Hb). injection Hb as <- <- <-. unfold fixed_array_type_layout in Hr. outcome_inv.
    zify_bool. split; [|done]. split; cbn [total_slot_count]; [rewrite Z.mul_comm; by constructor|lia].
Qed.

(** The fields of the layout, one for each field of the contract, with its size. *)
Lemma from_abi_fields lh sh L : contract_state_layout_from_abi abi lh h sh = Ok L →
  ∃ contract, get_contract_struct abi = Ok contract ∧
    let C := contract_layout L in
    struct_fields contract ≠ [] ∧ contiguous_from 0 0 (fields C) ∧ sized_fields abi (struct_fields contract) (state_layout_slot_count C) ∧
    state_layout_slot_count C < 2 ^ 64 ∧
    Forall2 (λ fld f, sized abi (field_type fld) (slot_count f)) (struct_fields contract) (fields C).
Proof.
  unfold contract_state_layout_from_abi. intros HL. apply outcome_bind_Ok in HL as (contract & Hcon & HL).
  apply outcome_bind_Ok in HL as ([[ss c1] v1] & Hss & HL). cbv beta iota in HL.
  apply outcome_bind_Ok in HL as (l & Hl & HL). apply outcome_bind_Ok in HL as (C & HC & HL).
  apply outcome_bind_Ok in HL as ([ws c2] & _ & HL). injection HL as <-. exists contract. split; [done|].
  assert (Forall (λ f, analyzable_type (field_type f)) (struct_fields contract)) as Hfs.
  { destruct Habi as [_ Hall]. rewrite Forall_forall in Hall. apply (Hall contract). by apply get_contract_struct_Ok. }
  apply (build_fields_sized _ (build_sized _)) in Hss as [Hss _]; [|done|intros ? ?; by rewrite lookup_empty].
  apply struct_layout_total in Hl as (Hne & _). apply state_layout_Ok in HC as (_ & _ & _ & Hrep & Hfo & _).
  destruct Hrep as (Hcon' & _ & _ & _ & Hsc & Hlt). cbn [contract_layout].
  assert (Forall2 (λ fld f, sized abi (field_type fld) (slot_count f)) (struct_fields contract) (fields C)) as Hall.
  { clear -Hss Hfo. revert Hfo. generalize (fields C). induction Hss as [|fld s flds ss [Hs _] _ IH]; intros fs Hfo;
      simpl in Hfo; inversion Hfo as [|? f ? fs' Hf Hfo']; subst; constructor; [|by apply IH].
    destruct Hf as (_ & _ & ->). simpl. by rewrite Z.add_0_r. }
  split_and!; try done.
  - intros Hnil. rewrite Hnil in Hss. by apply Forall2_nil_inv_l in Hss.
  - rewrite Hsc. clear -Hall. induction Hall; simpl; by constructor.
Qed.
End layout_sizes.

(** The field of the layout that a position in the contract struct stands for. *)
Lemma layout_position {Hash} abi flds : ∀ (fs : list (StateFieldLayoutLeaf Hash)) index start pre fld post k m,
  Forall2 (λ fld f, sized abi (field_type fld) (slot_count f)) flds fs → contiguous_from index start fs →
  flds = pre ++ fld :: post → sized_fields abi pre k → sized abi (field_type fld) m →
  ∃ f, fs !! length pre = Some f ∧ start_slot f = start + k ∧ slot_count f = m.
Proof.
  destruct (sized_unique abi) as [Hu _].
  induction flds as [|g flds IH]; intros fs index start pre fld post k m Hall Hc He Hk Hm; [by destruct pre|].
  inversion Hall as [|? f ? fs' Hf Hall']; subst. destruct Hc as (_ & Hst & Hc).
  destruct pre as [|g' pre]; simpl in He; injection He as <- He; inversion Hk as [|? ? a b Ha Hb]; subst.
  - exists f. split_and!; [done|lia|by eauto].
  - edestruct (IH fs') as (x & Hx & Hs & Hn); [done|exact Hc|done|exact Hb|exact Hm|].
    exists x. split_and!; [done| |done]. rewrite Hs, (Hu _ _ Hf _ Ha). lia.
Qed.

(** ** Queries *)
Section queries.
Context `{LruLaws C}.
Implicit Types (self : ABISlotAnalyzer C).

(** The answer to a query without the cache. *)
Definition query self (slot : Z) : outcome string :=
  get_field_by_slot_inner self (path_fuel (abi self)) (Basic (contract_name self)) slot (contract_name self).

(** Two analysers that differ in the cache only. *)
Definition same_core self self' : Prop :=
  abi self = abi self' ∧ contract_name self = contract_name self' ∧ struct_ranges self = struct_ranges self'.

Lemma inner_same_core self self' : same_core self self' → ∀ fuel ty slot path,
  get_field_by_slot_inner self fuel ty slot path = get_field_by_slot_inner self' fuel ty slot path.
Proof.
  intros (Ha & _ & Hr) fuel. induction fuel as [|fuel IH]; intros ty slot path; cbn [get_field_by_slot_inner];
    unfold get_struct_range; rewrite Ha, Hr; [done|].
  destruct (is_basic_type ty); [done|]. destruct ty as [name|t inner len].
  - destruct (struct_ranges self' !! name); [|done]. cbn [ok_or outcome_bind].
    destruct (range_get_field_by_slot _ _); try done. apply IH.
  - destruct (basic_name inner); [done|]. destruct (calculate_type_slot_count _ _ _); try done. cbn [outcome_bind].
    destruct (assert_ _); try done. cbn [outcome_bind]. destruct (struct_ranges self' !! inner); [|done]. cbn [ok_or outcome_bind].
    destruct (range_get_field_by_slot _ _); try done. apply IH.
Qed.

Lemma query_same_core self self' slot : same_core self self' → query self slot = query self' slot.
Proof. intros Hc. unfold query. destruct Hc as (Ha & Hn & Hr). rewrite Ha, Hn. by apply inner_same_core. Qed.

(** What is cached is the answer. *)
Definition coherent self : Prop := ∀ slot path, (lru_get (cache self) slot).1 = Some path → query self slot = Ok path.

Lemma get_field_by_slot_query self slot : coherent self →
  let (answer, self') := get_field_by_slot self slot in
  answer = query self slot ∧ coherent self' ∧ same_core self self'.
Proof.
  intros Hc. unfold get_field_by_slot. destruct (lru_get (cache self) slot) as [cached c] eqn:Eg.
  set (self1 := mkAnalyzer (abi self) (contract_name self) (struct_ranges self) c).
  assert (same_core self self1) as Hcore by done.
  assert (coherent self1) as Hc1.
  { intros k v Hk. rewrite <- (query_same_core self self1) by done. apply Hc. simpl in Hk.
    pose proof (lru_get_keeps (cache self) slot k v) as Hkeep. rewrite Eg in Hkeep. by apply Hkeep. }
  destruct cached as [path|].
  - split_and!; [|done|done..]. symmetry. apply Hc. by rewrite Eg.
  - change (get_field_by_slot_inner self1 _ _ _ _) with (query self1 slot). rewrite <- (query_same_core self self1) by done.
    destruct (query self slot) as [path| | |] eqn:Eq; try (split_and!; done).
    split_and!; [done| |done..]. intros k v Hk. cbn [cache] in Hk. apply lru_put_keeps in Hk as [[-> ->]|Hk].
    + rewrite <- Eq. symmetry. by apply query_same_core.
    + rewrite <- (Hc1 _ _ Hk). symmetry. by apply query_same_core.
Qed.

(** The analyser after some queries. *)
Definition after_queries self (slots : list Z) : ABISlotAnalyzer C := foldl (λ a slot, (get_field_by_slot a slot).2) self slots.

Lemma after_queries_ok slots : ∀ self, coherent self → coherent (after_queries self slots) ∧ same_core self (after_queries self slots).
Proof.
  induction slots as [|slot slots IH]; intros self Hc; [done|]. unfold after_queries. cbn [foldl].
  pose proof (get_field_by_slot_query self slot Hc) as Hq. destruct (get_field_by_slot self slot) as [ans self1].
  destruct Hq as (_ & Hc1 & (Ha & Hn & Hr)). destruct (IH self1 Hc1) as [Hc2 (Ha2 & Hn2 & Hr2)].
  split; [done|]. unfold same_core. cbn [snd]. unfold after_queries in *. rewrite Ha, Hn, Hr. by split_and!.
Qed.

Lemma new_with_analyze_Ok qabi self : new_with_analyze qabi = Ok self →
  abi self = qabi ∧ calculate_all_structs_field_slots qabi = Ok (struct_ranges self) ∧ coherent self ∧
  ∃ contract, get_contract_struct qabi = Ok contract ∧ contract_name self = struct_name contract.
Proof.
  unfold new_with_analyze, analyzer_new. intros Hn. apply outcome_bind_Ok in Hn as (a & Ha & Hn).
  apply outcome_bind_Ok in Ha as (contract & Hcon & Ha). injection Ha as <-.
  apply outcome_bind_Ok in Hn as (ranges & Hr & Hn). injection Hn as <-. split_and!; [done|done| |by eauto].
  intros slot path Hp. cbn [cache] in Hp. by rewrite lru_new_empty in Hp.
Qed.

(** The answer for the contract struct. *)
Lemma query_contract self contract n slot :
  calculate_all_structs_field_slots (abi self) = Ok (struct_ranges self) →
  contract_name self = struct_name contract → basic_name (struct_name contract) = false →
  find_struct (abi self) (struct_name contract) = Ok contract →
  sized_fields (abi self) (struct_fields contract) n → n < 2 ^ 64 → 0 ≤ slot →
  if slot <? n then
    ∃ pre f post k m p, struct_fields contract = pre ++ f :: post ∧ sized_fields (abi self) pre k ∧
      sized (abi self) (field_type f) m ∧ k ≤ slot < k + m ∧ leaf_at (abi self) (field_type f) p (slot - k) ∧
      query self slot = Ok (contract_name self +:+ ("." +:+ field_name f +:+ p))
  else query self slot = Err "slot not within any field range".
Proof.
  intros Hr Hname Hb Hf Hn Hlt Hs. unfold query, path_fuel. cbn [get_field_by_slot_inner]. unfold is_basic_type.
  cbn [get_type_name]. rewrite Hname, Hb. apply (struct_step self Hr); try done.
  destruct (all_structs_ok _ _ Hr _ _ Hf) as (r & _ & Hloop). apply field_slots_loop_count in Hloop.
  eapply Forall_impl; [exact Hloop|]. intros f [m Hm]. by eapply inner_finds.
Qed.
End queries.

(** C29: slot names. Let an ABI be one that both components read alike, and let it
    have a state layout and an analyser. After any queries, whatever the cache
    evicts, the query of a slot of the layout returns the contract's name, the name
    of the field that owns the slot, and the path of members and array indices to
    the one word at that slot of the field; the query of any other slot is an
    error. *)
Theorem slot_names_correct {F : Type} `{EqDecision Hash, MerkleHasher Hash, FieldHash F Hash} `{LruLaws C}
    (qabi : QContractABI) (lh mh sh : nat) (L : CanonicalContractStateLayout Hash) (self : ABISlotAnalyzer C) (slots : list Z) :
  analyzable qabi → contract_state_layout_from_abi qabi lh mh sh = Ok L → new_with_analyze qabi = Ok self →
  ∃ contract, get_contract_struct qabi = Ok contract ∧
  ∀ slot, 0 ≤ slot →
    let answer := fst (get_field_by_slot (after_queries self slots) slot) in
    if slot <? state_layout_slot_count (contract_layout L) then
      ∃ i f fld p, fields (contract_layout L) !! i = Some f ∧ owns f slot ∧ struct_fields contract !! i = Some fld ∧
        leaf_at qabi (field_type fld) p (slot - start_slot f) ∧
        (∀ p', leaf_at qabi (field_type fld) p' (slot - start_slot f) → p' = p) ∧
        answer = Ok (struct_name contract +:+ ("." +:+ field_name fld +:+ p))
    else ∃ e, answer = Err e.
Proof.
  intros Ha HL Hnew. destruct (from_abi_fields qabi mh Ha lh sh L HL) as (contract & Hcon & Hne & Hcont & Hn & Hlt & Hall).
  destruct (new_with_analyze_Ok _ _ Hnew) as (Habi & Hr & Hcoh & contract' & Hcon' & Hname).
  rewrite Hcon in Hcon'. injection Hcon' as <-. exists contract. split; [done|]. intros slot Hs answer.
  destruct (after_queries_ok slots self Hcoh) as [Hcoh' Hcore].
  pose proof (get_field_by_slot_query _ slot Hcoh') as Hq. unfold answer. destruct (get_field_by_slot _ slot) as [ans self'].
  destruct Hq as (-> & _ & _). cbn [fst]. rewrite <- (query_same_core self) by done.
  apply get_contract_struct_Ok in Hcon as Hin. destruct Ha as [Hnd Hall']. rewrite Forall_forall in Hall'.
  destruct (Hall' _ Hin) as [Hb _]. pose proof (find_struct_member _ _ Hnd Hin) as Hfind. rewrite <- Habi in *.
  pose proof (query_contract self contract _ slot Hr Hname Hb Hfind Hn Hlt Hs) as Hquery.
  destruct (slot <? state_layout_slot_count (contract_layout L)); [|by eexists].
  destruct Hquery as (pre & fld & post & k & m & p & Hpre & Hk & Hm & Hkz & Hl & ->).
  destruct (layout_position _ _ _ _ _ _ _ _ _ _ Hall Hcont Hpre Hk Hm) as (f & Hf & Hst & Hsc). rewrite Z.add_0_l in Hst.
  exists (length pre), f, fld, p. rewrite Hst, Hname. split_and!; try done.
  - unfold owns. lia.
  - rewrite Hpre, lookup_app_r, Nat.sub_diag by lia. done.
  - intros p' Hp'. by eapply leaf_at_unique.
Qed.

(** *** An example

    An LRU cache as a list with the most recent entry first. *)
Definition lru_list : Type := nat * list (Z * string).

#[global] Instance lru_list_cache : LruCache lru_list := {
  lru_new n := (n, []);
  lru_get c k :=
    match list_find (λ e, e.1 = k) c.2 with
    | Some (_, e) => (Some e.2, (c.1, e :: filter (λ e, e.1 ≠ k) c.2))
    | None => (None, c)
    end;
  lru_put c k v := (c.1, take c.1 ((k, v) :: filter (λ e, e.1 ≠ k) c.2));
}.

(** A look-up finds the first entry of the key. *)
Lemma lru_list_get c k v : (lru_get (c : lru_list) k).1 = Some v ↔ ∃ i, list_find (λ e, e.1 = k) c.2 = Some (i, (k, v)).
Proof.
  unfold lru_get, lru_list_cache. destruct (list_find _ c.2) as [[i [k' v']]|] eqn:El; simpl; [|naive_solver].
  apply list_find_Some in El as (Hi & Hk & _). simpl in Hk. subst. naive_solver.
Qed.

Lemma lru_list_filter (l : list (Z * string)) k k' : k' ≠ k → ∀ v i, list_find (λ e, e.1 = k') (filter (λ e, e.1 ≠ k) l) = Some (i, (k', v)) →
  ∃ j, list_find (λ e, e.1 = k') l = Some (j, (k', v)).
Proof.
  intros Hk. induction l as [|[a b] l IH]; intros v i Hf; [done|]. rewrite filter_cons in Hf. cbn [list_find].
  destruct (decide (a = k')) as [->|Ha].
  - rewrite decide_True in Hf by done. cbn [list_find] in Hf. rewrite decide_True in Hf by done. rewrite decide_True by done. naive_solver.
  - rewrite decide_False by done. destruct (decide ((a, b).1 ≠ k)); [cbn [list_find] in Hf; rewrite decide_False in Hf by done|].
    + apply fmap_Some in Hf as ([j x] & Hj & He). simplify_eq/=. apply IH in Hj as [j' ->]. by eexists.
    + apply IH in Hf as [j' ->]. by eexists.
Qed.

Lemma list_find_take {A} (P : A → Prop) `{∀ x, Decision (P x)} (l : list A) n i x :
  list_find P (take n l) = Some (i, x) → list_find P l = Some (i, x).
Proof.
  rewrite !list_find_Some. intros (Hi & HP & Hmin). apply lookup_take_Some in Hi as [Hi Hlt]. split_and!; [done|done|].
  intros j y Hj Hji. eapply Hmin; [|done]. apply lookup_take_Some. split; [done|lia].
Qed.

#[global] Instance lru_list_laws : LruLaws lru_list.
Proof.
  split.
  - done.
  - intros c k k' v Hg. apply lru_list_get. apply lru_list_get in Hg as [i Hi]. revert Hi.
    unfold lru_get, lru_list_cache. destruct (list_find (λ e, e.1 = k) c.2) as [[j [a b]]|] eqn:El; [|by eauto].
    apply list_find_Some in El as Hb. destruct Hb as (_ & Ha & _). simpl in Ha. subst. cbn [snd list_find].
    destruct (decide ((k, b).1 = k')) as [<-|Hne]; [intros [= <- <-]; by eexists|].
    intros Hf. apply fmap_Some in Hf as ([i' e] & Hi' & He). simplify_eq/=. by eapply lru_list_filter.
  - intros c k v k' v' Hg. apply lru_list_get in Hg as [i Hi]. unfold lru_put, lru_list_cache in Hi. cbn [snd fst] in Hi.
    apply list_find_take in Hi. cbn [list_find] in Hi. destruct (decide ((k, v).1 = k')) as [<-|Hne]; [left; by simplify_eq|right].
    apply fmap_Some in Hi as ([i' e] & Hi' & He). simplify_eq/=. apply lru_list_get. by eapply lru_list_filter.
Qed.

(** A token contract with an array of structs, as in the tests of the analyser. *)
Definition token_abi : QContractABI := mkContractAbi "1.0.0"
  [mkStructSpec "Token" true
     [mkFieldSpec "balance" (Basic "Felt"); mkFieldSpec "notes" (Array "Array" "u32" 3);
      mkFieldSpec "users" (Array "Array" "User" 4)] None;
   mkStructSpec "User" false [mkFieldSpec "sent" (Basic "Felt"); mkFieldSpec "claimed" (Basic "bool")] None].

Lemma slot_names_correct_witness :
  ∃ (L : CanonicalContractStateLayout felts4) (self : ABISlotAnalyzer lru_list),
    analyzable token_abi ∧ contract_state_layout_from_abi token_abi 2 2 2 = Ok L ∧ new_with_analyze token_abi = Ok self ∧
    fst (get_field_by_slot (after_queries self [9; 2]) 9) = Ok "Token.users[2].claimed" ∧
    ∃ i f fld p, fields (contract_layout L) !! i = Some f ∧ owns f 9 ∧ leaf_at token_abi (field_type fld) p (9 - start_slot f).
Proof.
  eexists _, _. split; [by apply (bool_decide_unpack _); vm_compute|]. split; [vm_compute; reflexivity|].
  split; [vm_compute; reflexivity|]. split; [vm_compute; reflexivity|].
  edestruct (slot_names_correct (Hash := felts4) (C := lru_list) token_abi 2 2 2) with (slots := [9; 2]) as (contract & _ & Hs);
    [by apply (bool_decide_unpack _); vm_compute|vm_compute; reflexivity|vm_compute; reflexivity|].
  destruct (Hs 9 ltac:(lia)) as (i & f & fld & p & Hf & Ho & _ & Hl & _ & _). exists i, f, fld, p. by split_and!.
Defined.

(** *** Where the two components differ *)
Definition contract_of (fs : list FieldAbiSpec) (others : list StructAbiSpec) : QContractABI :=
  mkContractAbi "1.0.0" (mkStructSpec "Main" true fs None :: others).

Definition node_abi : QContractABI :=
  contract_of [mkFieldSpec "first" (Basic "Node")] [mkStructSpec "Node" false [mkFieldSpec "next" (Basic "Node")] None].

(** The count of a recursive struct never ends. *)
Lemma recursive_diverges fuel : calculate_type_slot_count node_abi fuel (Basic "Node") = Diverge.
Proof.
  induction fuel as [|fuel IH]; [done|]. transitivity (let* slots := calculate_type_slot_count node_abi fuel (Basic "Node") in
    sum_slots (calculate_type_slot_count node_abi fuel) [] (wrap 64 (0 + slots))); [done|by rewrite IH].
Qed.

(** Outside the common ABIs. A field of type [Hash] has a layout, and the
    analyser rejects it; an array whose label is the name of a basic type is one
    slot for the analyser and all its elements for the layout; on a recursive struct
    the analyser never returns where the layout is an error; and on an array of
    empty structs the analyser is built, and a query divides by zero. *)
Theorem analyzer_differs :
  (∃ e, new_with_analyze (C := lru_list) (contract_of [mkFieldSpec "root" (Basic "Hash")] []) = Err e) ∧
  (∃ L : CanonicalContractStateLayout felts4,
     contract_state_layout_from_abi (contract_of [mkFieldSpec "root" (Basic "Hash")] []) 2 2 2 = Ok L) ∧
  calculate_type_slot_count (contract_of [] []) 1 (Array "Felt" "Felt" 8) = Ok 1 ∧
  (∃ s : StateTypeLayoutSummary felts4,
     build_abi_type_layout (contract_of [] []) 2 1 (Array "Felt" "Felt" 8) ∅ ∅ = Ok (s, ∅, ∅) ∧ total_slot_count s = 8) ∧
  (∀ fuel, calculate_type_slot_count node_abi fuel (Basic "Node") = Diverge) ∧
  (∃ e, contract_state_layout_from_abi (Hash := felts4) node_abi 2 2 2 = Err e) ∧
  (∃ self : ABISlotAnalyzer lru_list,
     new_with_analyze (contract_of [mkFieldSpec "items" (Array "Array" "Unit" 3)] [mkStructSpec "Unit" false [] None]) = Ok self ∧
     fst (get_field_by_slot self 0) = Panic).
Proof.
  split_and!.
  - eexists. vm_compute. reflexivity.
  - eexists. vm_compute. reflexivity.
  - reflexivity.
  - eexists. split; [vm_compute; reflexivity|reflexivity].
  - apply recursive_diverges.
  - eexists. vm_compute. reflexivity.
  - eexists. split; [vm_compute; reflexivity|vm_compute; reflexivity].
Qed.
