(* ===== verification/MemTree.v ===== *)
(** * The sparse in-memory Merkle tree

    [SimpleMemoryMerkleStoreV3] of
    [parth_common/src/memory_stores/mem_tree_v3.rs]: a hash map from node keys
    to hashes in which empty sub-trees are not stored. The specification is a
    function from leaf indices to hashes; [rep] says that a store holds the
    Merkle tree over it. *)
From stdpp Require Import prelude gmap list strings.
From Stdlib Require Import ZArith Lia.
From S2P Require Import Prelude MerkleKey MerkleHash MerkleProof Spiderman.

Record SimpleMemoryMerkleStoreV3 (Hash : Type) : Type := mkStore {
  nodes : gmap SimpleMerkleNodeKey Hash;
  height : Z;
  zero_value_hashes : list Hash;
}.
Arguments mkStore {Hash}.
Arguments nodes {Hash}.
Arguments height {Hash}.
Arguments zero_value_hashes {Hash}.

Section store.
Context `{EqDecision Hash, MerkleHasher Hash, !ZeroableHash Hash, !MerkleZeroHasher Hash}.
Abbreviation store := (SimpleMemoryMerkleStoreV3 Hash).
Implicit Types (self : store) (key node : SimpleMerkleNodeKey).

Definition new (height : Z) : store :=
  mkStore ∅ height (get_zero_hash <$> seq 0 (S (Z.to_nat height))).

Definition get_height self : Z := height self.

Definition get_max_leaf_index self : Z := wrap 64 (u64_shl 1 (height self) - 1).

(** A level below the leaves makes the unsigned subtraction wrap and the index
    panic. *)
Definition get_zero_hash_for_level self (level : Z) : outcome Hash :=
  let subtree_height := wrap 8 (height self - level) in
  unwrap (zero_value_hashes self !! Z.to_nat subtree_height).

Definition with_nodes self (ns : gmap SimpleMerkleNodeKey Hash) : store :=
  mkStore ns (height self) (zero_value_hashes self).

Definition set_node_value self key (value : Hash) : outcome store :=
  let* zero := get_zero_hash_for_level self (level key) in
  if bool_decide (value = zero) then Ok (with_nodes self (delete key (nodes self)))
  else Ok (with_nodes self (<[key := value]> (nodes self))).

Definition get_node_value self key : outcome Hash :=
  match nodes self !! key with
  | Some v => Ok v
  | None => get_zero_hash_for_level self (level key)
  end.

Definition get_root self : outcome Hash := get_node_value self MerkleKey.new_root.

Definition get_leaf_value self (index : Z) : outcome Hash :=
  get_node_value self (mkKey (height self) index).

(** [while current_key.level > 0]: the level is a [u8]. *)
Fixpoint siblings_loop (fuel : nat) self (current_key : SimpleMerkleNodeKey) (siblings : list Hash)
    : outcome (SimpleMerkleNodeKey * list Hash) :=
  if 0 <? level current_key then
    match fuel with
    | O => Diverge
    | S fuel =>
        let* s := get_node_value self (sibling current_key) in
        siblings_loop fuel self (parent current_key) (siblings ++ [s])
    end
  else Ok (current_key, siblings).

Definition get_leaf self (index : Z) : outcome (MerkleProofCore Hash) :=
  let leaf_key := mkKey (height self) index in
  let* value := get_node_value self leaf_key in
  let* (current_key, siblings) := siblings_loop 255 self leaf_key [] in
  let* root := get_node_value self current_key in
  Ok (mkProof root value index siblings).

Fixpoint find_first_zero_leaf_index (fuel : nat) self node : outcome (option Z) :=
  match fuel with
  | O => Diverge
  | S fuel =>
      let* v := get_node_value self node in
      let* zero := get_zero_hash_for_level self (level node) in
      if bool_decide (v = zero) then Ok (Some (index (first_leaf_child node (height self))))
      else if level node =? height self then Ok None
      else
        let* l := find_first_zero_leaf_index fuel self (left_child node) in
        match l with
        | Some i => Ok (Some i)
        | None => find_first_zero_leaf_index fuel self (right_child node)
        end
  end.

Definition find_next_append_index self : outcome Z :=
  let* r := find_first_zero_leaf_index 256 self MerkleKey.new_root in
  match r with Some i => Ok i | None => Err "tree is full" end.

Fixpoint rehash_loop (fuel : nat) self node (stop_level : Z) : outcome store :=
  if stop_level <? level node then
    match fuel with
    | O => Diverge
    | S fuel =>
        let* sibling_value := get_node_value self (sibling node) in
        let* node_value := get_node_value self node in
        let '(left_, right_) :=
          if Z.land (index node) 1 =? 0 then (node_value, sibling_value)
          else (sibling_value, node_value) in
        let parent_key := parent node in
        let parent_value := two_to_one left_ right_ in
        let* self := set_node_value self parent_key parent_value in
        rehash_loop fuel self parent_key stop_level
    end
  else Ok self.

Definition rehash_from_node_to_level self node (stop_level : Z) : outcome store :=
  rehash_loop 255 self node stop_level.

Definition recompute_node (zero_hash : Hash) (level i : Z) self : store :=
  let node_key := mkKey level i in
  let left_child := left_child node_key in
  let right_child := right_child node_key in
  match nodes self !! left_child, nodes self !! right_child with
  | None, None => with_nodes self (delete node_key (nodes self))
  | Some left_hash, None =>
      with_nodes self (<[node_key := two_to_one left_hash zero_hash]> (nodes self))
  | None, Some right_hash =>
      with_nodes self (<[node_key := two_to_one zero_hash right_hash]> (nodes self))
  | Some left_hash, Some right_hash =>
      with_nodes self (<[node_key := two_to_one left_hash right_hash]> (nodes self))
  end.

Definition recompute_entire_level self (level : Z) : outcome store :=
  if height self <=? level then Ok self else
  let end_index := u64_shl 1 level in
  let* zero_hash := get_zero_hash_for_level self (level + 1) in
  Ok (foldl (λ self i, recompute_node zero_hash level (Z.of_nat i) self) self (seq 0 (Z.to_nat end_index))).

Fixpoint recompute_levels (n : nat) self : outcome store :=
  match n with
  | O => Ok self
  | S n => let* self := recompute_entire_level self (Z.of_nat n) in recompute_levels n self
  end.

Definition recompute_entire_tree self : outcome store := recompute_levels (Z.to_nat (height self)) self.

Fixpoint _rehash_recursive (fuel : nat) self node : outcome (Hash * store) :=
  if height self <=? level node then let* v := get_node_value self node in Ok (v, self) else
  match fuel with
  | O => Diverge
  | S fuel =>
      let* (left_hash, self) := _rehash_recursive fuel self (left_child node) in
      let* (right_hash, self) := _rehash_recursive fuel self (right_child node) in
      let new_hash := two_to_one left_hash right_hash in
      let* self := set_node_value self node new_hash in
      Ok (new_hash, self)
  end.

Definition rehash_sub_tree self (sub_tree_height sub_tree_index : Z) : outcome (Hash * store) :=
  let sub_tree_root_level := wrap 8 (height self - sub_tree_height) in
  let sub_root_node := mkKey sub_tree_root_level sub_tree_index in
  let* (new_sub_root_hash, self) := _rehash_recursive 256 self sub_root_node in
  let* self := rehash_from_node_to_level self sub_root_node 0 in
  Ok (new_sub_root_hash, self).

Fixpoint get_node_values self (keys : list SimpleMerkleNodeKey) : outcome (list Hash) :=
  match keys with
  | [] => Ok []
  | k :: keys =>
      let* v := get_node_value self k in
      let* vs := get_node_values self keys in
      Ok (v :: vs)
  end.

Definition rehash_sub_tree_dmp self (sub_tree_height sub_tree_index : Z)
    : outcome (DeltaMerkleProofCore Hash * store) :=
  let sub_tree_root_level := wrap 8 (height self - sub_tree_height) in
  let sub_root_node := mkKey sub_tree_root_level sub_tree_index in
  let* old_sub_tree_root := get_node_value self sub_root_node in
  let* old_tree_root := get_root self in
  let* siblings := get_node_values self (siblings sub_root_node) in
  let* (_, self) := rehash_sub_tree self sub_tree_height sub_tree_index in
  let* new_sub_tree_root := get_node_value self sub_root_node in
  let* new_tree_root := get_root self in
  Ok (mkDelta old_tree_root old_sub_tree_root new_tree_root new_sub_tree_root sub_tree_index siblings,
      self).

(** The loops that write consecutive leaves. *)
Fixpoint set_leaves_loop self (start_index : Z) (values : list Hash) : outcome store :=
  match values with
  | [] => Ok self
  | v :: values =>
      let* self := set_node_value self (mkKey (height self) (wrap 64 start_index)) v in
      set_leaves_loop self (start_index + 1) values
  end.

Definition update_sub_tree self (sub_tree_height sub_tree_index sub_tree_offset : Z)
    (values : list Hash) : outcome (Hash * store) :=
  let leaves_per_sub_tree := u64_shl 1 sub_tree_height in
  if wrap 64 (sub_tree_offset + Z.of_nat (length values)) >? leaves_per_sub_tree
  then Err "update exceeds sub-tree bounds" else
  let start_index :=
    wrap 64 (wrap 64 (leaves_per_sub_tree * sub_tree_index) + sub_tree_offset) in
  let* self := set_leaves_loop self start_index values in
  rehash_sub_tree self sub_tree_height sub_tree_index.

Definition set_sub_tree_dmp self (sub_tree_height sub_tree_index : Z) (leaves : list Hash)
    : outcome (DeltaMerkleProofCore Hash * store) :=
  let max_leaves := u64_shl 1 sub_tree_height in
  if Z.of_nat (length leaves) >? max_leaves
  then Err "cannot set more leaves than can fit in a subtree" else
  let offset_index := wrap 64 (u64_shl 1 sub_tree_height * sub_tree_index) in
  let* zero := get_zero_hash_for_level self (height self) in
  let* self :=
    set_leaves_loop self offset_index
      (leaves ++ replicate (Z.to_nat max_leaves - length leaves) zero) in
  rehash_sub_tree_dmp self sub_tree_height sub_tree_index.

(** [for new_leaves_chunk in leaves_remaining.chunks(leaves_per_subtree)] *)
Fixpoint append_chunks (fuel : nat) self (sub_tree_height : Z) (leaves_per_subtree : nat)
    (zero_leaf_hash : Hash) (current_subtree_idx : Z) (leaves_remaining : list Hash)
    (results : list (SpidermanUpdateProof Hash))
    : outcome (list (SpidermanUpdateProof Hash) * store) :=
  match leaves_remaining with
  | [] => Ok (results, self)
  | _ =>
    match fuel with
    | O => Diverge
    | S fuel =>
      let new_leaves :=
        resize leaves_per_subtree zero_leaf_hash (take leaves_per_subtree leaves_remaining) in
      let* (top_line_proof, self) := set_sub_tree_dmp self sub_tree_height current_subtree_idx new_leaves in
      append_chunks fuel self sub_tree_height leaves_per_subtree zero_leaf_hash
        (wrap 64 (current_subtree_idx + 1)) (drop leaves_per_subtree leaves_remaining)
        (results ++ [mkSpiderman top_line_proof (replicate leaves_per_subtree zero_leaf_hash) new_leaves])
    end
  end.

Definition append_leaves_spider_man self (sub_tree_height : Z) (leaves_to_append : list Hash)
    : outcome (list (SpidermanUpdateProof Hash) * store) :=
  if bool_decide (leaves_to_append = []) then Ok ([], self) else
  let leaves_per_subtree := u64_shl 1 sub_tree_height in
  let max_leaves := u64_shl 1 (height self) in
  let* append_index := find_next_append_index self in
  if wrap 64 (append_index + Z.of_nat (length leaves_to_append)) >? max_leaves
  then Err "tree cannot fit an additional leaves" else
  let current_subtree_idx := append_index / leaves_per_subtree in
  let leaf_idx_in_subtree := append_index mod leaves_per_subtree in
  let* zero_leaf_hash := get_zero_hash_for_level self (height self) in
  let subtree_start_leaf := wrap 64 (current_subtree_idx * leaves_per_subtree) in
  let* existing :=
    get_node_values self
      ((λ i, mkKey (height self) (wrap 64 (subtree_start_leaf + Z.of_nat i))) <$>
         seq 0 (Z.to_nat leaf_idx_in_subtree)) in
  let n := Z.to_nat leaves_per_subtree in
  let old_leaves := resize n zero_leaf_hash existing in
  let space_in_first_subtree := Z.to_nat (leaves_per_subtree - leaf_idx_in_subtree) in
  let cut := Nat.min space_in_first_subtree (length leaves_to_append) in
  let first_chunk := take cut leaves_to_append in
  let rest := drop cut leaves_to_append in
  let new_leaves := resize n zero_leaf_hash (existing ++ first_chunk) in
  let* (top_line_proof, self) := set_sub_tree_dmp self sub_tree_height current_subtree_idx new_leaves in
  append_chunks (length rest) self sub_tree_height n zero_leaf_hash
    (wrap 64 (current_subtree_idx + 1)) rest [mkSpiderman top_line_proof old_leaves new_leaves].

Definition set_leaf self (index : Z) (value : Hash) : outcome (DeltaMerkleProofCore Hash * store) :=
  let leaf_key := mkKey (height self) index in
  let* old_value := get_leaf_value self index in
  let* old_root := get_root self in
  let* (_, siblings) := siblings_loop 255 self leaf_key [] in
  let* self := set_node_value self leaf_key value in
  let* self := rehash_from_node_to_level self leaf_key 0 in
  let* new_root := get_root self in
  Ok (mkDelta old_root old_value new_root value index siblings, self).

Definition set_leaf_no_proof self (index : Z) (value : Hash) : outcome store :=
  let leaf_key := mkKey (height self) index in
  let* self := set_node_value self leaf_key value in
  rehash_from_node_to_level self leaf_key 0.

(** *** Proofs for a run of leaves below a compact path *)
Fixpoint set_sibling_path self (current_key : SimpleMerkleNodeKey) (siblings : list Hash) : outcome store :=
  match siblings with
  | [] => Ok self
  | sibling_hash :: siblings =>
      let* self := set_node_value self (sibling current_key) sibling_hash in
      set_sibling_path self (parent current_key) siblings
  end.

Fixpoint rehash_leaves self (from_index : Z) (idxs : list nat) : outcome store :=
  match idxs with
  | [] => Ok self
  | i :: idxs =>
      let* self :=
        rehash_from_node_to_level self (mkKey (height self) (wrap 64 (from_index + Z.of_nat i))) 0 in
      rehash_leaves self from_index idxs
  end.

Fixpoint get_leaves self (from_index : Z) (idxs : list nat) : outcome (list (MerkleProofCore Hash)) :=
  match idxs with
  | [] => Ok []
  | i :: idxs =>
      let* p := get_leaf self (wrap 64 (from_index + Z.of_nat i)) in
      let* ps := get_leaves self from_index idxs in
      Ok (p :: ps)
  end.

Definition get_merkle_proofs_for_compact (from_index : Z) (siblings values : list Hash)
    : outcome (list (MerkleProofCore Hash)) :=
  let height := wrap 8 (Z.of_nat (length siblings)) in
  let tree := new height in
  let* tree := set_sibling_path tree (mkKey height from_index) siblings in
  let* tree := set_leaves_loop tree from_index values in
  let* tree := rehash_leaves tree from_index (seq 0 (length values)) in
  get_leaves tree from_index (seq 0 (length values)).
End store.

(** ** Abstraction *)
Section rep.
Context `{EqDecision Hash, MerkleHasher Hash, !ZeroableHash Hash, !MerkleZeroHasher Hash}.
Abbreviation store := (SimpleMemoryMerkleStoreV3 Hash).
Implicit Types (self : store) (key node k : SimpleMerkleNodeKey) (leaf : Z → Hash).

Definition store_ok self : Prop :=
  0 ≤ height self ≤ 63 ∧
  zero_value_hashes self = get_zero_hash <$> seq 0 (S (Z.to_nat (height self))).

(** The hash a store gives to a node. *)
Definition nv self k : Hash :=
  default (get_zero_hash (Z.to_nat (height self - level k))) (nodes self !! k).

Definition key_in self k : Prop := key_wf k ∧ level k ≤ height self.

(** The hash of a node of the tree over [leaf]. *)
Definition spec_node (h : Z) leaf k : Hash := tree_node leaf (Z.to_nat (h - level k)) (index k).

Definition correct self leaf k : Prop := nv self k = spec_node (height self) leaf k.

(** The store holds the Merkle tree over [leaf]. *)
Definition rep self leaf : Prop := store_ok self ∧ ∀ k, key_in self k → correct self leaf k.

Lemma get_zero_hash_for_level_ok self l :
  store_ok self → 0 ≤ l ≤ height self →
  get_zero_hash_for_level self l = Ok (get_zero_hash (Z.to_nat (height self - l))).
Proof.
  intros [Hh Hz] Hl. unfold get_zero_hash_for_level. rewrite wrap_small by lia.
  rewrite Hz, list_lookup_fmap, lookup_seq_lt by lia. done.
Qed.

Lemma get_node_value_ok self k :
  store_ok self → 0 ≤ level k ≤ height self → get_node_value self k = Ok (nv self k).
Proof.
  intros Hok Hl. unfold get_node_value, nv.
  destruct (nodes self !! k); [done|]. by apply get_zero_hash_for_level_ok.
Qed.

(** The store after a write. *)
Definition upd self k (v : Hash) : store :=
  if bool_decide (v = get_zero_hash (Z.to_nat (height self - level k)))
  then with_nodes self (delete k (nodes self)) else with_nodes self (<[k := v]> (nodes self)).

Lemma set_node_value_ok self k v :
  store_ok self → 0 ≤ level k ≤ height self → set_node_value self k v = Ok (upd self k v).
Proof.
  intros Hok Hl. unfold set_node_value, upd. rewrite get_zero_hash_for_level_ok by done.
  cbn [outcome_bind]. by case_bool_decide.
Qed.

Lemma height_upd self k v : height (upd self k v) = height self.
Proof. unfold upd. by case_bool_decide. Qed.

Lemma store_ok_upd self k v : store_ok self → store_ok (upd self k v).
Proof. unfold store_ok, upd. by case_bool_decide. Qed.

Lemma nv_upd self k v k' : nv (upd self k v) k' = if decide (k' = k) then v else nv self k'.
Proof.
  unfold nv, upd. case_bool_decide as Hv; simpl; destruct (decide (k' = k)) as [->|Hne].
  - by rewrite lookup_delete_eq.
  - by rewrite lookup_delete_ne.
  - by rewrite lookup_insert_eq.
  - by rewrite lookup_insert_ne.
Qed.

Lemma spec_node_parent h leaf k :
  key_wf k → level k ≠ 0 → level k ≤ h →
  spec_node h leaf (parent k) =
  if Z.land (index k) 1 =? 0
  then two_to_one (spec_node h leaf k) (spec_node h leaf (sibling k))
  else two_to_one (spec_node h leaf (sibling k)) (spec_node h leaf k).
Proof.
  intros [Hl Hi] Hne Hh. unfold spec_node. rewrite level_parent, index_parent by done.
  replace (Z.to_nat (h - (level k - 1))) with (S (Z.to_nat (h - level k))) by lia.
  cbn [sibling level index tree_node]. rewrite land_1_even, lxor_1.
  destruct (even_cases (index k)) as [(m & Hm & ->)|(m & Hm & ->)];
    (assert (index k / 2 = m) as -> by (Z.div_mod_to_equations; lia)); rewrite Hm; [done|].
  by rewrite Z.add_simpl_r.
Qed.

Lemma key_in_sibling self k : key_in self k → level k ≠ 0 → key_in self (sibling k).
Proof. intros [??] ?. split; [by apply key_wf_sibling|done]. Qed.

(** A path of stale hashes above one node is repaired by rehashing from it. *)
Lemma rehash_loop_rep leaf (n : nat) : ∀ fuel self node,
  Z.of_nat n = level node → (n ≤ fuel)%nat → store_ok self → key_in self node →
  (∀ k, key_in self k → ¬ (ancestor k node ∧ level k < level node) → correct self leaf k) →
  ∃ self', rehash_loop fuel self node 0 = Ok self' ∧ rep self' leaf ∧ height self' = height self.
Proof.
  induction n as [|n IH]; intros fuel self node Hn Hf Hok Hin Hcor.
  - exists self. split_and!; [|split; [done|]|done].
    + destruct fuel; simpl; by rewrite (proj2 (Z.ltb_ge _ _)) by lia.
    + intros k Hk. apply Hcor; [done|]. intros [_ ?]. destruct Hk as [[? _] _]. lia.
  - destruct fuel as [|fuel]; [lia|]. pose proof Hin as [Hwf Hle].
    set (pv := spec_node (height self) leaf (parent node)).
    assert (rehash_loop (S fuel) self node 0 =
      let* self := set_node_value self (parent node) pv in rehash_loop fuel self (parent node) 0) as ->.
    { cbn [rehash_loop]. rewrite (proj2 (Z.ltb_lt _ _)) by lia.
      rewrite !get_node_value_ok by (done || simpl; lia). cbn [outcome_bind].
      pose proof (Hcor node Hin ltac:(lia)) as Hcn.
      pose proof (Hcor (sibling node) (key_in_sibling self node Hin ltac:(lia)) ltac:(simpl; lia)) as Hcs.
      unfold correct in Hcn, Hcs. rewrite Hcn, Hcs. unfold pv. rewrite spec_node_parent by (done || lia). by destruct (Z.land (index node) 1 =? 0). }
    pose proof (level_parent node ltac:(lia)) as Hlp.
    assert (key_in self (parent node)) as Hpin by (split; [by apply key_wf_parent|lia]).
    rewrite set_node_value_ok by (done || lia). cbn [outcome_bind].
    destruct (IH fuel (upd self (parent node) pv) (parent node)) as (self' & Hr & Hrep & Hh);
      [lia|lia|by apply store_ok_upd|by unfold key_in; rewrite height_upd| |].
    + intros k Hk Hna. unfold correct. rewrite nv_upd, height_upd.
      unfold key_in in Hk. rewrite height_upd in Hk.
      destruct (decide (k = parent node)) as [->|Hne]; [done|].
      apply Hcor; [done|]. intros [Ha Hlt]. apply Hna.
      assert (ancestor k (parent node)) as Hap
        by (apply ancestor_of_parent; [destruct Hk as [[? _] _]; lia|done]).
      split; [done|]. destruct (decide (level k = level (parent node))); [|destruct Hap; lia].
      exfalso. apply Hne. by apply ancestor_same_level.
    + exists self'. by rewrite Hh, height_upd.
Qed.

(** Children and descendants (moved to positions below a node). *)
Lemma spec_node_children h leaf k :
  key_wf k → level k < h → level k < 64 →
  spec_node h leaf k = two_to_one (spec_node h leaf (left_child k)) (spec_node h leaf (right_child k)).
Proof.
  intros Hk Hlt H64. unfold spec_node. rewrite left_child_spec, right_child_spec by done.
  cbn [level index]. replace (Z.to_nat (h - level k)) with (S (Z.to_nat (h - (level k + 1)))) by lia.
  done.
Qed.

Lemma ancestor_children k x :
  key_wf k → level k < 64 → ancestor k x →
  x = k ∨ ancestor (left_child k) x ∨ ancestor (right_child k) x.
Proof.
  intros Hk Hl Ha. destruct (decide (level k = level x)) as [He|Hne].
  - left. symmetry. by apply ancestor_same_level.
  - right. apply ancestor_child_cases; [done|destruct Ha; lia|done|done].
Qed.

(** Recomputing a sub-tree whose leaves are right makes all of it right and
    touches nothing else. *)
Lemma rehash_recursive_rep leaf (n : nat) : ∀ fuel self node,
  Z.of_nat n = height self - level node → (n ≤ fuel)%nat → store_ok self → key_in self node →
  (∀ k, key_in self k → ancestor node k → level k = height self → correct self leaf k) →
  ∃ self', _rehash_recursive fuel self node = Ok (spec_node (height self) leaf node, self') ∧
    store_ok self' ∧ height self' = height self ∧
    (∀ k, key_in self k → ancestor node k → correct self' leaf k) ∧
    (∀ k, ¬ ancestor node k → nv self' k = nv self k).
Proof.
  induction n as [|n IH]; intros fuel self node Hn Hf Hok [Hwf Hle] Hcor.
  { assert (level node = height self) as Hl by lia. exists self.
    assert (_rehash_recursive fuel self node = let* v := get_node_value self node in Ok (v, self)) as ->.
    { destruct fuel; simpl; by rewrite (proj2 (Z.leb_le _ _)) by lia. }
    rewrite get_node_value_ok by (done || destruct Hwf; lia). cbn [outcome_bind].
    rewrite (Hcor node) by (done || apply ancestor_refl).
    split_and!; try done. intros k Hk Ha. apply Hcor; [done|done|]. destruct Hk, Ha; lia. }
  destruct fuel as [|fuel]; [lia|]. cbn [_rehash_recursive].
  rewrite (proj2 (Z.leb_gt _ _)) by lia.
  pose proof Hok as [Hh _]. assert (level node < 64) as H64 by lia.
  pose proof (key_wf_left_child node Hwf H64) as Hwl. pose proof (key_wf_right_child node Hwf H64) as Hwr.
  assert (level (left_child node) = level node + 1) as Hll by (by rewrite left_child_spec).
  assert (level (right_child node) = level node + 1) as Hlr by (by rewrite right_child_spec).
  destruct (IH fuel self (left_child node)) as (s1 & -> & Hok1 & Hh1 & Hc1 & Hu1);
    [lia|lia|done|split; [done|lia]| |].
  { intros k Hk Ha. apply Hcor; [done|].
    apply (ancestor_trans _ _ _ (ancestor_left_child node Hwf H64) Ha). }
  cbn [outcome_bind].
  destruct (IH fuel s1 (right_child node)) as (s2 & -> & Hok2 & Hh2 & Hc2 & Hu2);
    [lia|lia|done|split; [done|lia]| |].
  { intros k Hk Ha Hkl. unfold correct. rewrite Hh1. unfold key_in in Hk. rewrite Hh1 in Hk, Hkl.
    rewrite Hu1; [|intros Hl; by apply (left_right_disjoint node k)].
    apply Hcor; [done| |done].
    apply (ancestor_trans _ _ _ (ancestor_right_child node Hwf H64) Ha). }
  cbn [outcome_bind]. rewrite Hh1, <- spec_node_children by (done || lia).
  rewrite set_node_value_ok by (done || rewrite Hh2, Hh1; destruct Hwf; lia). cbn [outcome_bind].
  eexists. split; [reflexivity|]. rewrite height_upd, Hh2, Hh1.
  split_and!; [by apply store_ok_upd|done| |].
  - intros k Hk Ha. unfold correct. rewrite nv_upd, height_upd, Hh2, Hh1.
    destruct (decide (k = node)) as [->|Hne]; [done|].
    apply ancestor_children in Ha as [?|[Ha|Ha]]; [done| | |done|done].
    + rewrite Hu2; [|intros Hr; by apply (left_right_disjoint node k)].
      rewrite <- Hh1. apply Hc1; [by split; destruct Hk|done].
    + rewrite <- Hh1, <- Hh2. apply Hc2; [unfold key_in; by rewrite Hh1|done].
  - intros k Ha. rewrite nv_upd.
    destruct (decide (k = node)) as [->|Hne]; [destruct Ha; apply ancestor_refl|].
    rewrite Hu2, Hu1; [done| |]; intros Hl; apply Ha.
    + apply (ancestor_trans _ _ _ (ancestor_left_child node Hwf H64) Hl).
    + apply (ancestor_trans _ _ _ (ancestor_right_child node Hwf H64) Hl).
Qed.

Lemma rehash_sub_tree_rep leaf self (s w : Z) :
  store_ok self → 0 ≤ s ≤ height self → 0 ≤ w < 2 ^ (height self - s) →
  let sub_root := mkKey (height self - s) w in
  (∀ k, key_in self k → level k = height self → correct self leaf k) →
  (∀ k, key_in self k → ¬ ancestor sub_root k →
     ¬ (ancestor k sub_root ∧ level k < level sub_root) → correct self leaf k) →
  ∃ self', rehash_sub_tree self s w = Ok (tree_node leaf (Z.to_nat s) w, self') ∧
    rep self' leaf ∧ height self' = height self.
Proof.
  intros Hok Hs Hw sub_root Hleaf Hout. pose proof Hok as [Hh _].
  unfold rehash_sub_tree. rewrite wrap_small by lia. fold sub_root.
  assert (key_in self sub_root) as Hin by (split; [split; simpl; lia|simpl; lia]).
  destruct (rehash_recursive_rep leaf (Z.to_nat s) 256 self sub_root)
    as (s1 & -> & Hok1 & Hh1 & Hc1 & Hu1); [simpl; lia|lia|done|done|by auto|].
  cbn [outcome_bind]. unfold rehash_from_node_to_level.
  destruct (rehash_loop_rep leaf (Z.to_nat (height self - s)) 255 s1 sub_root)
    as (s2 & -> & Hrep & Hh2); [simpl; lia|lia|done|unfold key_in; by rewrite Hh1| |].
  - intros k Hk Hna. unfold key_in in Hk. rewrite Hh1 in Hk.
    destruct (decide (ancestor sub_root k)) as [Ha|Ha]; [by apply Hc1|].
    unfold correct. rewrite Hu1, Hh1 by done. by apply Hout.
  - cbn [outcome_bind]. exists s2. split_and!; [|done|lia]. do 2 f_equal.
    unfold spec_node; simpl. f_equal. lia.
Qed.

(** *** Reading paths *)
Lemma tree_siblings_S leaf n i :
  tree_siblings leaf (S n) i = leaf (sib i) :: tree_siblings (tree_node leaf 1) n (i / 2).
Proof.
  change 2 with (2 ^ Z.of_nat 1) at 1.
  replace n with (S n - 1)%nat at 2 by lia. rewrite <- drop_tree_siblings by lia.
  unfold tree_siblings. rewrite siblings_from_S. cbn [drop]. rewrite drop_0. f_equal.
  cbn [tree_node]. by rewrite Z.div_1_r.
Qed.

Lemma tree_siblings_ext (f g : Z → Hash) n i :
  (∀ j, f j = g j) → tree_siblings f n i = tree_siblings g n i.
Proof. intros. apply siblings_from_ext. auto. Qed.

(** The siblings of a node of level [n], from the bottom, in the tree over the
    nodes of that level. *)
Definition level_siblings leaf self (n : nat) (i : Z) : list Hash :=
  tree_siblings (tree_node leaf (Z.to_nat (height self) - n)) n i.

Lemma level_siblings_S leaf self n i :
  (S n ≤ Z.to_nat (height self))%nat →
  level_siblings leaf self (S n) i =
  tree_node leaf (Z.to_nat (height self) - S n) (sib i) :: level_siblings leaf self n (i / 2).
Proof.
  intros Hn. unfold level_siblings. rewrite tree_siblings_S. f_equal. apply tree_siblings_ext.
  intros j. rewrite <- tree_node_add. f_equal. lia.
Qed.

(** One sibling read from a store that holds the tree. *)
Lemma read_sibling leaf self (n : nat) k :
  rep self leaf → key_in self k → level k = Z.of_nat (S n) →
  get_node_value self (sibling k) =
    Ok (tree_node leaf (Z.to_nat (height self) - S n) (sib (index k))).
Proof.
  intros [Hok Hrep] Hk Hl. pose proof Hk as [_ Hle].
  rewrite get_node_value_ok by (done || simpl; lia).
  rewrite Hrep by (apply key_in_sibling; [done|lia]). unfold spec_node; simpl.
  do 2 f_equal. lia.
Qed.

Lemma key_in_parent self k : key_in self k → level k ≠ 0 → key_in self (parent k).
Proof. intros [??] ?. split; [by apply key_wf_parent|]. rewrite level_parent by done. lia. Qed.

Lemma siblings_loop_rep leaf self n : rep self leaf → ∀ fuel k acc,
  key_in self k → level k = Z.of_nat n → (n ≤ fuel)%nat →
  siblings_loop fuel self k acc =
    Ok (MerkleKey.new_root, acc ++ level_siblings leaf self n (index k)).
Proof.
  intros Hrep. induction n as [|n IH]; intros fuel k acc Hk Hl Hf.
  - destruct fuel; simpl; rewrite (proj2 (Z.ltb_ge _ _)) by lia;
      (rewrite (key_wf_level0 k) by (destruct Hk; done || lia)); by rewrite app_nil_r.
  - destruct fuel as [|fuel]; [lia|]. cbn [siblings_loop]. rewrite (proj2 (Z.ltb_lt _ _)) by lia.
    rewrite (read_sibling leaf self n k) by done. cbn [outcome_bind].
    rewrite IH; [|by apply key_in_parent; [|lia]|rewrite level_parent; lia|lia].
    rewrite index_parent by lia. rewrite level_siblings_S by (destruct Hk; lia).
    by rewrite <- app_assoc.
Qed.

Lemma get_siblings_rep leaf self n : rep self leaf → ∀ k,
  key_in self k → level k = Z.of_nat n →
  get_node_values self (push_siblings n k) = Ok (level_siblings leaf self n (index k)).
Proof.
  intros Hrep. induction n as [|n IH]; intros k Hk Hl; [done|].
  cbn [push_siblings get_node_values]. rewrite (read_sibling leaf self n k) by done.
  cbn [outcome_bind]. rewrite IH; [|by apply key_in_parent; [|lia]|rewrite level_parent; lia].
  cbn [outcome_bind]. rewrite index_parent by lia. by rewrite level_siblings_S by (destruct Hk; lia).
Qed.

Lemma get_root_rep leaf self :
  rep self leaf → get_root self = Ok (tree_node leaf (Z.to_nat (height self)) 0).
Proof.
  intros [Hok Hrep]. pose proof Hok as [Hh _]. unfold get_root.
  rewrite get_node_value_ok by (done || simpl; lia).
  rewrite Hrep by (split; [apply key_wf_root|simpl; lia]). unfold spec_node; simpl.
  by rewrite Z.sub_0_r.
Qed.

Definition index_in self (i : Z) : Prop := 0 ≤ i < 2 ^ height self.

Lemma key_in_leaf self i : store_ok self → index_in self i → key_in self (mkKey (height self) i).
Proof. intros [Hh _] Hi. split; [split; simpl; [lia|done]|simpl; lia]. Qed.

Lemma get_leaf_value_rep leaf self i :
  rep self leaf → index_in self i → get_leaf_value self i = Ok (leaf i).
Proof.
  intros [Hok Hrep] Hi. unfold get_leaf_value. pose proof Hok as [Hh _].
  rewrite get_node_value_ok by (done || simpl; lia).
  rewrite Hrep by (by apply key_in_leaf). unfold spec_node; simpl. by rewrite Z.sub_diag.
Qed.

Lemma leaf_siblings leaf self i :
  level_siblings leaf self (Z.to_nat (height self)) i = tree_siblings leaf (Z.to_nat (height self)) i.
Proof. unfold level_siblings. rewrite Nat.sub_diag. by apply tree_siblings_ext. Qed.

Lemma rep_new (h : Z) : 0 ≤ h ≤ 63 → rep (new h) (λ _, get_zero_value).
Proof.
  intros Hh. split; [done|]. intros k [Hk Hl]. unfold correct, nv, spec_node; simpl.
  symmetry. by apply tree_node_zero.
Qed.

Lemma rep_ext self (f g : Z → Hash) : (∀ j, f j = g j) → rep self f → rep self g.
Proof.
  intros Hfg [Hok Hrep]. split; [done|]. intros k Hk. unfold correct. rewrite (Hrep k Hk).
  apply tree_node_ext. intros; apply Hfg.
Qed.
Lemma get_leaf_rep leaf self i :
  rep self leaf → index_in self i →
  let h := Z.to_nat (height self) in
  get_leaf self i = Ok (mkProof (tree_node leaf h 0) (leaf i) i (tree_siblings leaf h i)).
Proof.
  intros Hrep Hi h. pose proof Hrep as [Hok Hr]. pose proof Hok as [Hh _].
  pose proof (key_in_leaf self i Hok Hi) as Hin.
  unfold get_leaf. pose proof (get_leaf_value_rep leaf self i Hrep Hi) as Hv.
  unfold get_leaf_value in Hv. rewrite Hv. cbn [outcome_bind].
  rewrite (siblings_loop_rep leaf self h Hrep) by (done || simpl; lia). cbn [outcome_bind].
  pose proof (get_root_rep leaf self Hrep) as Hroot. unfold get_root in Hroot. rewrite Hroot.
  cbn [outcome_bind app index]. unfold h. by rewrite leaf_siblings.
Qed.

Lemma verify_tree_proof leaf self i :
  store_ok self → index_in self i →
  let h := Z.to_nat (height self) in
  verify (mkProof (tree_node leaf h 0) (leaf i) i (tree_siblings leaf h i)) = true.
Proof.
  intros [Hh _] Hi h. apply verify_spec. cbn [mp_siblings value mp_index root].
  rewrite length_tree_siblings. split; [lia|]. apply compute_root_tree; [lia|].
  unfold h. rewrite Z2Nat.id by lia. exact Hi.
Qed.
End rep.

Section writes.
Context `{EqDecision Hash, MerkleHasher Hash, !ZeroableHash Hash, !MerkleZeroHasher Hash}.
Abbreviation store := (SimpleMemoryMerkleStoreV3 Hash).
Implicit Types (self : store) (leaf : Z → Hash).

(** Writing a leaf changes the hashes of its ancestors only. *)
Lemma spec_node_update leaf self i v k :
  key_in self k → ¬ ancestor k (mkKey (height self) i) →
  spec_node (height self) (update leaf i v) k = spec_node (height self) leaf k.
Proof.
  intros [Hwf Hle] Hna. apply tree_node_ext. intros j Hj. unfold update.
  destruct (Z.eqb_spec j i) as [->|]; [|done]. destruct Hna. split; simpl; [done|].
  rewrite Z2Nat.id in Hj by lia. pose proof (pow2_pos_Z (height self - level k) ltac:(lia)).
  apply Z.div_unique with (i - index k * 2 ^ (height self - level k)); lia.
Qed.

(** Writing a leaf leaves only its ancestors stale. *)
Lemma set_leaf_no_proof_rep leaf self i v :
  rep self leaf → index_in self i →
  ∃ self', set_leaf_no_proof self i v = Ok self' ∧ rep self' (update leaf i v) ∧
    height self' = height self.
Proof.
  intros [Hok Hrep] Hi. pose proof Hok as [Hh _]. pose proof (key_in_leaf self i Hok Hi) as Hin.
  unfold set_leaf_no_proof. rewrite set_node_value_ok by (done || simpl; lia). cbn [outcome_bind].
  set (s1 := upd self (mkKey (height self) i) v).
  destruct (rehash_loop_rep (update leaf i v) (Z.to_nat (height self)) 255 s1 (mkKey (height self) i))
    as (s2 & Hr & Hrep2 & Hh2); [simpl; lia|lia|by apply store_ok_upd
      |unfold key_in, s1; by rewrite height_upd| |].
  - intros k Hk Hna. unfold correct, s1. unfold key_in, s1 in Hk. rewrite height_upd in Hk |- *.
    rewrite nv_upd. unfold spec_node. destruct (decide (k = mkKey (height self) i)) as [->|Hne].
    + simpl. rewrite Z.sub_diag. simpl. by rewrite update_eq.
    + rewrite (Hrep k Hk). symmetry. apply spec_node_update; [done|]. intros Ha. apply Hna.
      split; [done|]. simpl. destruct Hk as [_ Hle].
      destruct (decide (level k = height self)) as [He|]; [|lia].
      destruct Hne. by apply ancestor_same_level.
  - exists s2. unfold rehash_from_node_to_level. split_and!; [exact Hr|done|].
    rewrite Hh2. apply height_upd.
Qed.

Lemma set_leaf_rep leaf self i v :
  rep self leaf → index_in self i →
  let h := Z.to_nat (height self) in
  ∃ self', set_leaf self i v = Ok (from_params i (leaf i) v (tree_siblings leaf h i), self') ∧
    rep self' (update leaf i v) ∧ height self' = height self.
Proof.
  intros Hrep Hi h. pose proof Hrep as [Hok _]. pose proof Hok as [Hh _].
  pose proof (key_in_leaf self i Hok Hi) as Hin.
  destruct (set_leaf_no_proof_rep leaf self i v Hrep Hi) as (s2 & Hs2 & Hrep2 & Hh2).
  exists s2. split_and!; [|done|done]. unfold set_leaf.
  rewrite (get_leaf_value_rep leaf) by done. cbn [outcome_bind].
  rewrite (get_root_rep leaf) by done. cbn [outcome_bind].
  rewrite (siblings_loop_rep leaf self h Hrep) by (done || simpl; lia). cbn [outcome_bind app].
  unfold set_leaf_no_proof in Hs2.
  destruct (set_node_value self (mkKey (height self) i) v) as [s1| | |] eqn:E; try done.
  cbn [outcome_bind] in Hs2 |- *. rewrite Hs2. cbn [outcome_bind].
  rewrite (get_root_rep (update leaf i v)) by done. cbn [outcome_bind index].
  rewrite Hh2. unfold h. rewrite leaf_siblings.
  assert (0 ≤ i < 2 ^ Z.of_nat (Z.to_nat (height self))) as Hi' by (rewrite Z2Nat.id by lia; exact Hi).
  unfold from_params. rewrite compute_root_tree, compute_root_update by (done || lia). done.
Qed.
End writes.

(** C5: reading and writing a leaf. On a store that holds the tree over
    [leaf], [get_leaf] returns the Merkle proof of that leaf, which verifies;
    [set_leaf] (and [set_leaf_no_proof]) leaves a store that holds the tree with
    exactly that leaf replaced and returns the delta proof from the old to the
    new root, which verifies; none of them panics. *)
Theorem set_leaf_correct `{EqDecision Hash, MerkleHasher Hash, !ZeroableHash Hash, !MerkleZeroHasher Hash}
    (self : SimpleMemoryMerkleStoreV3 Hash) (leaf : Z → Hash) (i : Z) (v : Hash) :
  rep self leaf → index_in self i →
  let h := Z.to_nat (height self) in
  let p := mkProof (tree_node leaf h 0) (leaf i) i (tree_siblings leaf h i) in
  get_leaf self i = Ok p ∧ verify p = true ∧
  ∃ d self' self'',
    set_leaf self i v = Ok (d, self') ∧ rep self' (update leaf i v) ∧
    set_leaf_no_proof self i v = Ok self'' ∧ rep self'' (update leaf i v) ∧
    verify_delta d = true ∧ dmp_index d = i ∧ dmp_siblings d = tree_siblings leaf h i ∧
    old_value d = leaf i ∧ new_value d = v ∧
    old_root d = tree_node leaf h 0 ∧ new_root d = tree_node (update leaf i v) h 0.
Proof.
  intros Hrep Hi h p. split; [by apply get_leaf_rep|]. split; [apply verify_tree_proof; [apply Hrep|done]|].
  destruct (set_leaf_rep leaf self i v Hrep Hi) as (s1 & H1 & Hr1 & _).
  destruct (set_leaf_no_proof_rep leaf self i v Hrep Hi) as (s2 & H2 & Hr2 & _).
  pose proof Hrep as [[Hh _] _].
  assert (0 ≤ i < 2 ^ Z.of_nat h) as Hi' by (unfold h; rewrite Z2Nat.id by lia; exact Hi).
  eexists _, s1, s2. split; [exact H1|]. split_and!; try done.
  - apply from_params_verifies. rewrite length_tree_siblings. lia.
  - apply compute_root_tree; [lia|done].
  - apply compute_root_update; [lia|done].
Qed.

Lemma set_leaf_correct_witness :
  ∃ d self', set_leaf (new 2) 1 (HLeaf 7) = Ok (d, self') ∧ verify_delta d = true ∧
    new_root d = HNode (HNode (HLeaf 0) (HLeaf 7)) (HNode (HLeaf 0) (HLeaf 0)).
Proof.
  destruct (set_leaf_correct (new 2) (λ _, HLeaf 0) 1 (HLeaf 7))
    as (_ & _ & d & s1 & s2 & H1 & _ & _ & _ & Hv & _ & _ & _ & _ & _ & Hn).
  - apply (rep_new 2). lia.
  - split; simpl; lia.
  - exists d, s1. split_and!; [exact H1|exact Hv|exact Hn].
Defined.

Section sub_trees.
Context `{EqDecision Hash, MerkleHasher Hash, !ZeroableHash Hash, !MerkleZeroHasher Hash}.
Abbreviation store := (SimpleMemoryMerkleStoreV3 Hash).
Implicit Types (self : store) (leaf : Z → Hash) (k : SimpleMerkleNodeKey).

(** The leaves below a node. *)
Lemma ancestor_leaf_range k h j :
  level k ≤ h → ancestor k (mkKey h j) ↔ index k * 2 ^ (h - level k) ≤ j < (index k + 1) * 2 ^ (h - level k).
Proof.
  intros Hl. pose proof (pow2_pos_Z (h - level k) ltac:(lia)). unfold ancestor; simpl. split.
  - intros [_ ->]. Z.div_mod_to_equations. nia.
  - intros Hj. split; [done|]. apply Z.div_unique with (j - index k * 2 ^ (h - level k)); lia.
Qed.

Lemma set_leaves_loop_ok values : ∀ self start,
  store_ok self → 0 ≤ start → start + Z.of_nat (length values) ≤ 2 ^ height self →
  ∃ self', set_leaves_loop self start values = Ok self' ∧ store_ok self' ∧
    height self' = height self ∧
    (∀ k, level k ≠ height self → nv self' k = nv self k) ∧
    (∀ leaf, (∀ j, nv self (mkKey (height self) j) = leaf j) →
       ∀ j, nv self' (mkKey (height self) j) = set_block leaf start values j).
Proof.
  induction values as [|v values IH]; intros self start Hok Hs Hlen.
  { exists self. split_and!; try done. intros leaf Hl j. rewrite Hl.
    symmetry. apply set_block_out. simpl. lia. }
  pose proof Hok as [Hh _]. cbn [length] in Hlen. cbn [set_leaves_loop].
  assert (2 ^ height self ≤ 2 ^ 63) by (apply pow2_mono; lia).
  rewrite (wrap_small 64) by lia. rewrite set_node_value_ok by (done || simpl; lia).
  cbn [outcome_bind]. set (s1 := upd self (mkKey (height self) start) v).
  destruct (IH s1 (start + 1)) as (s2 & Hrun & Hok2 & Hh2 & Hother & Hleaf);
    [by apply store_ok_upd|lia|unfold s1; rewrite height_upd; lia|].
  unfold s1 in Hh2, Hother, Hleaf. rewrite height_upd in Hh2, Hother, Hleaf.
  exists s2. split_and!; [done|done|done| |].
  - intros k Hk. rewrite Hother, nv_upd by done.
    destruct (decide _) as [->|]; [done|done].
  - intros leaf Hl j. rewrite (Hleaf (update leaf start v)).
    + destruct (decide (j = start)) as [->|Hne].
      { rewrite set_block_out by lia. rewrite update_eq.
        rewrite (set_block_in _ _ _ v) by (simpl; lia). unfold leaf_fn. by rewrite Z.sub_diag. }
      destruct (decide (start + 1 ≤ j < start + 1 + Z.of_nat (length values))) as [Hin|Hout].
      * rewrite !(set_block_in _ _ _ v) by (simpl; lia). unfold leaf_fn.
        replace (Z.to_nat (j - start)) with (S (Z.to_nat (j - (start + 1)))) by lia. done.
      * rewrite !set_block_out by (simpl; lia). unfold update. by rewrite (proj2 (Z.eqb_neq _ _)).
    + intros j'. rewrite nv_upd. unfold update. destruct (Z.eqb_spec j' start) as [->|Hne].
      * by rewrite decide_True.
      * rewrite decide_False by (intros [= ?]; done). apply Hl.
Qed.

(** Writing leaves inside one sub-tree and rehashing it. *)
Lemma write_block leaf self (s w start : Z) values :
  rep self leaf → 0 ≤ s ≤ height self → 0 ≤ w < 2 ^ (height self - s) →
  w * 2 ^ s ≤ start → start + Z.of_nat (length values) ≤ (w + 1) * 2 ^ s →
  ∃ s1 s2, set_leaves_loop self start values = Ok s1 ∧
    store_ok s1 ∧ height s1 = height self ∧
    (∀ k, level k ≠ height self → nv s1 k = nv self k) ∧
    (∀ j, index_in self j → nv s1 (mkKey (height self) j) = set_block leaf start values j) ∧
    rehash_sub_tree s1 s w = Ok (tree_node (set_block leaf start values) (Z.to_nat s) w, s2) ∧
    rep s2 (set_block leaf start values) ∧ height s2 = height self.
Proof.
  intros [Hok Hrep] Hs Hw Hlo Hhi. pose proof Hok as [Hh _].
  pose proof (pow2_pos_Z s ltac:(lia)) as Hps.
  assert (2 ^ height self = 2 ^ (height self - s) * 2 ^ s) as Hpow
    by (rewrite <- Z.pow_add_r by lia; f_equal; lia).
  destruct (set_leaves_loop_ok values self start) as (s1 & H1 & Hok1 & Hh1 & Hother & Hleaf);
    [done|nia|nia|].
  assert (∀ j, index_in self j → nv self (mkKey (height self) j) = leaf j) as Hl0.
  { intros j Hj. rewrite (Hrep (mkKey (height self) j)) by (by apply key_in_leaf).
    unfold spec_node; simpl. by rewrite Z.sub_diag. }
  assert (∀ j, index_in self j → nv s1 (mkKey (height self) j) = set_block leaf start values j) as Hl1.
  { intros j Hj. rewrite (Hleaf (λ j, nv self (mkKey (height self) j)) (λ _, eq_refl)).
    unfold set_block. destruct ((start <=? j) && _); [|by apply Hl0].
    rewrite Hl0 by done. done. }
  destruct (rehash_sub_tree_rep (set_block leaf start values) s1 s w)
    as (s2 & H2 & Hrep2 & Hh2); [done|lia|by rewrite Hh1| | |].
  - intros k Hk Hkl. rewrite Hh1 in Hkl. unfold key_in in Hk. rewrite Hh1 in Hk.
    destruct k as [l i]; simpl in Hkl; subst l. unfold correct, spec_node. rewrite Hh1. simpl.
    rewrite Z.sub_diag. apply Hl1. by destruct Hk as [[_ ?] _].
  - rewrite Hh1. intros k Hk Hna Hnp. unfold key_in in Hk. rewrite Hh1 in Hk.
    unfold correct. rewrite Hh1. unfold spec_node.
    assert (tree_node (set_block leaf start values) (Z.to_nat (height self - level k)) (index k) =
      spec_node (height self) leaf k) as ->.
    { apply tree_node_ext. intros j Hj. rewrite Z2Nat.id in Hj by (destruct Hk; lia).
      apply set_block_out. apply ancestor_leaf_range in Hj as Hkj; [|by destruct Hk].
      destruct (decide (j < start ∨ start + Z.of_nat (length values) ≤ j)) as [|Hin]; [done|].
      exfalso. assert (ancestor (mkKey (height self - s) w) (mkKey (height self) j)) as Hsj.
      { apply ancestor_leaf_range; simpl; [lia|].
        replace (height self - (height self - s)) with s by lia. lia. }
      destruct (decide (height self - s ≤ level k)) as [Hle|Hgt].
      - apply Hna, (ancestor_linear _ _ _ Hsj Hkj). simpl; lia.
      - apply Hnp. split; [|simpl; lia]. apply (ancestor_linear _ _ _ Hkj Hsj).
        destruct Hk as [[? _] _]. simpl; lia. }
    destruct (decide (level k = height self)) as [Hkl|Hkl].
    + destruct k as [l i]; simpl in Hkl; subst l. rewrite Hl1 by (by destruct Hk as [[_ ?] _]).
      unfold spec_node; simpl. rewrite Z.sub_diag. simpl. apply set_block_out.
      destruct (decide (i < start ∨ start + Z.of_nat (length values) ≤ i)) as [|Hin]; [done|].
      exfalso. apply Hna. apply ancestor_leaf_range; simpl; [lia|].
      replace (height self - (height self - s)) with s by lia. lia.
    + rewrite Hother by done. by apply Hrep.
  - exists s1, s2. split_and!; try done. lia.
Qed.

Lemma get_node_values_ext self self' ks :
  store_ok self → store_ok self' → height self' = height self →
  (∀ k, k ∈ ks → 0 ≤ level k ≤ height self ∧ nv self' k = nv self k) →
  get_node_values self' ks = get_node_values self ks.
Proof.
  intros Hok Hok' Hh. induction ks as [|k ks IH]; intros Hks; [done|].
  destruct (Hks k) as [Hl Hn]; [by left|]. cbn [get_node_values].
  rewrite !get_node_value_ok by (done || rewrite Hh; done). cbn [outcome_bind].
  rewrite Hn, IH; [done|]. intros k' Hk'. apply Hks. by right.
Qed.

Lemma push_siblings_levels n : ∀ k k',
  level k = Z.of_nat n → k' ∈ push_siblings n k → 1 ≤ level k' ≤ level k.
Proof.
  induction n as [|n IH]; intros k k' Hl; cbn [push_siblings]; [by intros ?%elem_of_nil|].
  rewrite elem_of_cons. intros [->|Hk]; [simpl; lia|].
  pose proof (level_parent k ltac:(lia)) as Hp. apply IH in Hk; lia.
Qed.

Lemma push_siblings_ne n k k' :
  level k = Z.of_nat n → k' ∈ push_siblings n k → k' ≠ k.
Proof.
  destruct n as [|n]; intros Hl; cbn [push_siblings]; [by intros ?%elem_of_nil|].
  rewrite elem_of_cons. intros [->|Hk] He.
  - apply (f_equal index) in He. by apply (sib_ne (index k)).
  - subst k'. pose proof (level_parent k ltac:(lia)) as Hp. apply push_siblings_levels in Hk; lia.
Qed.

Lemma u64_pow2 n : 0 ≤ n ≤ 63 → u64_shl 1 n = 2 ^ n.
Proof.
  intros Hn. rewrite u64_shl_small; [lia|lia|lia|]. rewrite Z.mul_1_l. apply Z.pow_lt_mono_r; lia.
Qed.

(** The path above a sub-tree root. *)
Lemma sub_root_siblings leaf self (s w : Z) :
  rep self leaf → 0 ≤ s ≤ height self → 0 ≤ w < 2 ^ (height self - s) →
  get_node_values self (siblings (mkKey (height self - s) w)) =
  Ok (tree_siblings (tree_node leaf (Z.to_nat s)) (Z.to_nat (height self - s)) w).
Proof.
  intros Hrep Hs Hw. pose proof Hrep as [[Hh _] _]. unfold siblings. cbn [level].
  rewrite (get_siblings_rep leaf self) by (done || (split; [split; simpl; lia|simpl; lia]) || simpl; lia).
  unfold level_siblings. cbn [index]. do 3 f_equal. lia.
Qed.

Lemma sub_tree_roots leaf (h s : nat) w v :
  (s ≤ h ≤ 64)%nat → 0 ≤ w < 2 ^ Z.of_nat (h - s) →
  compute_root_merkle_proof_generic v w (tree_siblings (tree_node leaf s) (h - s) w) =
  tree_node (update (tree_node leaf s) w v) (h - s) 0.
Proof. intros. apply compute_root_update; lia. Qed.

Lemma set_sub_tree_dmp_rep leaf self (s w : Z) leaves :
  rep self leaf → 1 ≤ s ≤ height self → 0 ≤ w < 2 ^ (height self - s) →
  Z.of_nat (length leaves) ≤ 2 ^ s →
  let vals := leaves ++ replicate (Z.to_nat (2 ^ s) - length leaves) get_zero_value in
  let leaf' := set_block leaf (w * 2 ^ s) vals in
  ∃ self', set_sub_tree_dmp self s w leaves =
      Ok (from_params w (tree_node leaf (Z.to_nat s) w) (tree_node leaf' (Z.to_nat s) w)
            (tree_siblings (tree_node leaf (Z.to_nat s)) (Z.to_nat (height self - s)) w), self') ∧
    rep self' leaf' ∧ height self' = height self.
Proof.
  intros Hrep Hs Hw Hlen vals leaf'. pose proof Hrep as [Hok Hr]. pose proof Hok as [Hh _].
  assert (0 < 2 ^ s) as Hps by (apply pow2_pos_Z; lia).
  assert (Z.of_nat (length vals) = 2 ^ s) as Hvals
    by (unfold vals; rewrite length_app, length_replicate; lia).
  assert (w * 2 ^ s < 2 ^ 64) as Hb.
  { apply Z.lt_le_trans with (2 ^ (height self - s) * 2 ^ s); [nia|].
    rewrite <- Z.pow_add_r by lia. apply pow2_mono. lia. }
  destruct (write_block leaf self s w (w * 2 ^ s) vals Hrep)
    as (s1 & s2 & H1 & Hok1 & Hh1 & Hother & _ & H2 & Hrep2 & Hh2); [lia|done|lia|lia|].
  fold leaf' in H2, Hrep2.
  exists s2. split_and!; [|done|done].
  unfold set_sub_tree_dmp. rewrite u64_pow2 by lia.
  rewrite Z.gtb_ltb, (proj2 (Z.ltb_ge _ _)) by done.
  rewrite get_zero_hash_for_level_ok by (done || lia). cbn [outcome_bind].
  rewrite Z.sub_diag. change (Z.to_nat 0) with 0%nat. rewrite get_zero_hash_0. fold vals.
  rewrite (Z.mul_comm (2 ^ s)), wrap_small by nia. rewrite H1. cbn [outcome_bind].
  set (sub := mkKey (height self - s) w).
  assert (key_in self sub) as Hin by (split; [split; simpl; lia|simpl; lia]).
  unfold rehash_sub_tree_dmp. rewrite Hh1, wrap_small by lia. fold sub.
  rewrite get_node_value_ok by (done || simpl; lia). cbn [outcome_bind].
  unfold get_root. rewrite get_node_value_ok by (done || simpl; lia). cbn [outcome_bind].
  rewrite !Hother by (simpl; lia).
  rewrite (get_node_values_ext self s1); [|done|done|done|].
  2:{ intros k Hk. unfold siblings in Hk. apply push_siblings_levels in Hk; [|simpl; lia].
      simpl in Hk. split; [lia|]. apply Hother. lia. }
  pose proof (sub_root_siblings leaf self s w Hrep ltac:(lia) Hw) as Hsib. fold sub in Hsib.
  rewrite Hsib. cbn [outcome_bind].
  rewrite H2. cbn [outcome_bind].
  pose proof Hrep2 as [Hok2 Hr2].
  rewrite !get_node_value_ok by (done || rewrite Hh2; simpl; lia). cbn [outcome_bind].
  rewrite !Hr, !Hr2; try (by split; [apply key_wf_root|simpl; lia]); try done;
    [|by unfold key_in; rewrite Hh2].
  rewrite Hh2. unfold spec_node, sub. cbn [level index]. rewrite Z.sub_0_r.
  replace (height self - (height self - s)) with s by lia.
  unfold from_params. do 2 f_equal. f_equal.
  - rewrite compute_root_tree by (rewrite ?Z2Nat.id; lia). rewrite <- tree_node_add. f_equal. lia.
  - rewrite compute_root_update by (rewrite ?Z2Nat.id; lia).
    assert (leaf' = set_block leaf (w * 2 ^ Z.of_nat (Z.to_nat s)) vals) as ->
      by (by rewrite Z2Nat.id by lia).
    assert (length vals = (2 ^ Z.to_nat s)%nat) as Hl
      by (apply Nat2Z.inj; rewrite pow2_nat_Z, Z2Nat.id; lia).
    replace (Z.to_nat (height self)) with (Z.to_nat s + Z.to_nat (height self - s))%nat by lia.
    by rewrite (tree_root_set_block leaf get_zero_value), (tree_node_block leaf get_zero_value) by done.
Qed.
End sub_trees.

(** Writing a sub-tree. On a store that holds the tree over [leaf],
    [set_sub_tree_dmp] for a sub-tree of height at least 1 rejects too many
    leaves and otherwise leaves a store that holds the tree in which exactly the
    leaves of that sub-tree are replaced, by the given leaves and zeros behind
    them; it returns the verifying delta proof of the sub-tree root.
    [update_sub_tree] writes any slice inside the sub-tree and returns the new
    hash of its root. *)
Theorem sub_tree_writes_correct
    `{EqDecision Hash, MerkleHasher Hash, !ZeroableHash Hash, !MerkleZeroHasher Hash}
    (self : SimpleMemoryMerkleStoreV3 Hash) (leaf : Z → Hash) (s w offset : Z) (leaves : list Hash) :
  rep self leaf → 1 ≤ s ≤ height self → 0 ≤ w < 2 ^ (height self - s) → 0 ≤ offset →
  offset + Z.of_nat (length leaves) < 2 ^ 64 →
  let h := Z.to_nat (height self) in
  (2 ^ s < Z.of_nat (length leaves) → ∃ msg, set_sub_tree_dmp self s w leaves = Err msg) ∧
  (2 ^ s < offset + Z.of_nat (length leaves) → ∃ msg, update_sub_tree self s w offset leaves = Err msg) ∧
  (Z.of_nat (length leaves) ≤ 2 ^ s →
   let leaf' := set_block leaf (w * 2 ^ s)
     (leaves ++ replicate (Z.to_nat (2 ^ s) - length leaves) get_zero_value) in
   ∃ d self', set_sub_tree_dmp self s w leaves = Ok (d, self') ∧ rep self' leaf' ∧
     verify_delta d = true ∧ dmp_index d = w ∧
     old_value d = tree_node leaf (Z.to_nat s) w ∧ new_value d = tree_node leaf' (Z.to_nat s) w ∧
     old_root d = tree_node leaf h 0 ∧ new_root d = tree_node leaf' h 0) ∧
  (offset + Z.of_nat (length leaves) ≤ 2 ^ s →
   let leaf' := set_block leaf (w * 2 ^ s + offset) leaves in
   ∃ self', update_sub_tree self s w offset leaves = Ok (tree_node leaf' (Z.to_nat s) w, self') ∧
     rep self' leaf').
Proof.
  intros Hrep Hs Hw Hoff Hlt h. pose proof Hrep as [Hok Hr]. pose proof Hok as [Hh _].
  assert (0 < 2 ^ s) as Hps by (apply pow2_pos_Z; lia).
  split_and!.
  - intros Hgt. unfold set_sub_tree_dmp. rewrite u64_pow2 by lia.
    rewrite Z.gtb_ltb, (proj2 (Z.ltb_lt _ _)) by done. by eexists.
  - intros Hgt. unfold update_sub_tree. rewrite u64_pow2, wrap_small by lia.
    rewrite Z.gtb_ltb, (proj2 (Z.ltb_lt _ _)) by done. by eexists.
  - intros Hlen leaf'.
    destruct (set_sub_tree_dmp_rep leaf self s w leaves Hrep Hs Hw Hlen) as (s' & Hrun & Hrep' & Hh').
    fold leaf' in Hrun, Hrep'. eexists _, s'. split; [exact Hrun|].
    assert (verify_delta (from_params w (tree_node leaf (Z.to_nat s) w) (tree_node leaf' (Z.to_nat s) w)
      (tree_siblings (tree_node leaf (Z.to_nat s)) (Z.to_nat (height self - s)) w)) = true) as Hv
      by (apply from_params_verifies; rewrite length_tree_siblings; lia).
    split_and!; try done.
    + cbn [from_params old_root]. rewrite compute_root_tree by (rewrite ?Z2Nat.id; lia).
      rewrite <- tree_node_add. unfold h. f_equal. lia.
    + cbn [from_params new_root]. rewrite compute_root_update by (rewrite ?Z2Nat.id; lia).
      replace h with (Z.to_nat s + Z.to_nat (height self - s))%nat by (unfold h; lia).
      rewrite tree_node_add. apply tree_node_ext. intros k _. unfold update.
      destruct (Z.eqb_spec k w) as [->|Hne]; [done|]. symmetry. unfold leaf'.
      rewrite <- (Z2Nat.id s) at 1 by lia. apply tree_node_block_other; [|done].
      apply Nat2Z.inj. rewrite length_app, length_replicate, pow2_nat_Z, Z2Nat.id; lia.
  - intros Hlen leaf'. unfold update_sub_tree. rewrite u64_pow2, wrap_small by lia.
    rewrite Z.gtb_ltb, (proj2 (Z.ltb_ge _ _)) by done.
    assert ((w + 1) * 2 ^ s < 2 ^ 64) as Hb.
    { apply Z.le_lt_trans with (2 ^ (height self - s) * 2 ^ s); [nia|].
      rewrite <- Z.pow_add_r by lia. apply Z.pow_lt_mono_r; lia. }
    rewrite (Z.mul_comm (2 ^ s)), (wrap_small 64 (w * 2 ^ s)), wrap_small by nia.
    destruct (write_block leaf self s w (w * 2 ^ s + offset) leaves Hrep)
      as (s1 & s2 & H1 & _ & _ & _ & _ & H2 & Hrep2 & _); [lia|done|lia|lia|].
    exists s2. rewrite H1. cbn [outcome_bind]. by split.
Qed.

Lemma sub_tree_writes_correct_witness :
  ∃ d self', set_sub_tree_dmp (new 3) 1 2 [HLeaf 5] = Ok (d, self') ∧ verify_delta d = true ∧
    new_value d = HNode (HLeaf 5) (HLeaf 0).
Proof.
  destruct (sub_tree_writes_correct (new 3) (λ _, HLeaf 0) 1 2 0 [HLeaf 5]) as (_ & _ & Hset & _).
  - apply (rep_new 3). lia.
  - simpl. lia.
  - simpl. lia.
  - lia.
  - simpl. lia.
  - destruct Hset as (d & s' & Hrun & _ & Hv & _ & _ & Hn & _); [simpl; lia|].
    exists d, s'. split_and!; [exact Hrun|exact Hv|exact Hn].
Defined.

Section height_0.
Context `{EqDecision Hash, MerkleHasher Hash, !ZeroableHash Hash, !MerkleZeroHasher Hash}.

Lemma set_block_single (leaf : Z → Hash) w v j : set_block leaf w [v] j = update leaf w v j.
Proof.
  unfold update. destruct (Z.eqb_spec j w) as [->|Hj].
  - rewrite (set_block_in _ _ _ v) by (simpl; lia). unfold leaf_fn. by rewrite Z.sub_diag.
  - apply set_block_out. simpl. lia.
Qed.

(** The states of [set_sub_tree_dmp] on a single leaf. *)
Lemma set_leaf_0_rep (leaf : Z → Hash) self w v :
  rep self leaf → index_in self w →
  ∃ s1 s2, set_leaves_loop self (wrap 64 w) [v] = Ok s1 ∧ store_ok s1 ∧ height s1 = height self ∧
    (∀ k, k ≠ mkKey (height self) w → nv s1 k = nv self k) ∧ nv s1 (mkKey (height self) w) = v ∧
    rehash_sub_tree s1 0 w = Ok (v, s2) ∧ rep s2 (update leaf w v) ∧ height s2 = height self.
Proof.
  intros Hrep Hw. pose proof Hrep as [Hok Hr]. pose proof Hok as [Hh _].
  assert (w < 2 ^ 64) as H64
    by (apply Z.lt_le_trans with (2 ^ height self); [apply Hw|apply pow2_mono; lia]).
  rewrite wrap_small by (destruct Hw; lia).
  destruct (write_block leaf self 0 w w [v] Hrep)
    as (s1 & s2 & H1 & Hok1 & Hhs1 & Hother & Hl1 & H2 & Hrep2 & Hh2);
    [lia|rewrite Z.sub_0_r; exact Hw|lia|simpl; lia|].
  exists s1, s2. split_and!; try done.
  - cbn [set_leaves_loop] in H1. rewrite (wrap_small 64) in H1 by (destruct Hw; lia).
    rewrite set_node_value_ok in H1 by (done || simpl; lia). injection H1 as <-.
    intros k Hk. rewrite nv_upd. by rewrite decide_False.
  - rewrite Hl1, set_block_single by done. apply update_eq.
  - rewrite H2. simpl. by rewrite set_block_single, update_eq.
  - eapply rep_ext; [|exact Hrep2]. apply set_block_single.
Qed.
End height_0.

(** [set_sub_tree_dmp] on a sub-tree of height 0 reads the old value after
    writing the leaf: the returned delta proof names the new leaf value as the
    old one against the old root. Unless its verification exposes a collision
    of the compression function, it verifies only if the leaf did not change. *)
Theorem set_sub_tree_dmp_height_0
    `{EqDecision Hash, MerkleHasher Hash, !ZeroableHash Hash, !MerkleZeroHasher Hash}
    (self : SimpleMemoryMerkleStoreV3 Hash) (leaf : Z → Hash) (w : Z) (v : Hash) :
  rep self leaf → 1 ≤ height self → index_in self w →
  let h := Z.to_nat (height self) in
  ∃ d self', set_sub_tree_dmp self 0 w [v] = Ok (d, self') ∧ rep self' (update leaf w v) ∧
    old_value d = v ∧ new_value d = v ∧ old_root d = tree_node leaf h 0 ∧
    (extract_collision 0 w v (dmp_siblings d) (leaf w) (tree_siblings leaf h w) = None →
     verify_delta d = true → leaf w = v).
Proof.
  intros Hrep Hh1 Hw h. pose proof Hrep as [Hok Hr]. pose proof Hok as [Hh _].
  destruct (set_leaf_0_rep leaf self w v Hrep Hw) as (s1 & s2 & H1 & Hok1 & Hhs1 & Hne & Hv1 & H2 & Hrep2 & Hh2).
  set (sub := mkKey (height self) w) in *.
  assert (nv s1 MerkleKey.new_root = tree_node leaf h 0) as Hroot.
  { rewrite Hne by (unfold sub; intros [= ?]; lia).
    rewrite Hr by (split; [apply key_wf_root|simpl; lia]). unfold spec_node; simpl. by rewrite Z.sub_0_r. }
  assert (get_node_values s1 (siblings sub) = Ok (tree_siblings leaf h w)) as Hsib.
  { rewrite (get_node_values_ext self s1); [|done|done|done|].
    - unfold siblings. rewrite (get_siblings_rep leaf self) by first [done|by apply key_in_leaf|simpl; lia].
      unfold sub; cbn [level index]. by rewrite leaf_siblings.
    - intros k Hk. pose proof Hk as Hk'. apply push_siblings_levels in Hk; [|simpl; lia].
      simpl in Hk. split; [lia|]. apply Hne. by apply push_siblings_ne in Hk'; [|simpl; lia]. }
  eexists _, s2. split.
  { unfold set_sub_tree_dmp. change (u64_shl 1 0) with 1. cbn [length].
    change (Z.of_nat 1 >? 1) with false. cbn iota.
    rewrite get_zero_hash_for_level_ok by (done || lia). cbn [outcome_bind].
    rewrite Z.mul_1_l. change (Z.to_nat 1 - 1)%nat with 0%nat. cbn [replicate app].
    rewrite H1. cbn [outcome_bind]. unfold rehash_sub_tree_dmp.
    rewrite Hhs1, Z.sub_0_r, wrap_small by lia. fold sub.
    rewrite get_node_value_ok by (done || simpl; lia). cbn [outcome_bind].
    unfold get_root. rewrite get_node_value_ok by (done || simpl; lia). cbn [outcome_bind].
    rewrite Hsib. cbn [outcome_bind]. rewrite H2. cbn [outcome_bind].
    rewrite !get_node_value_ok by (apply Hrep2 || rewrite Hh2; simpl; lia). reflexivity. }
  split_and!; [exact Hrep2|exact Hv1| |exact Hroot|].
  - cbn [new_value]. destruct Hrep2 as [_ Hr2]. rewrite Hr2 by (unfold key_in; rewrite Hh2; by apply key_in_leaf).
    unfold spec_node, sub. rewrite Hh2; cbn [level index]. rewrite Z.sub_diag; simpl. apply update_eq.
  - cbn [dmp_siblings]. intros Hcol (_ & Ho & _)%verify_delta_spec.
    cbn [old_value dmp_index dmp_siblings old_root] in Ho.
    apply extract_collision_None in Hcol as [? _]; [done|by rewrite length_tree_siblings|].
    change (compute_root_merkle_proof_generic v w (tree_siblings leaf h w) =
      compute_root_merkle_proof_generic (leaf w) w (tree_siblings leaf h w)).
    rewrite Hv1, Hroot in Ho.
    rewrite compute_root_tree by (unfold h; rewrite ?Z2Nat.id; (exact Hw || lia)). exact Ho.
Qed.

Lemma set_sub_tree_dmp_height_0_witness :
  ∃ d self', set_sub_tree_dmp (new 2) 0 1 [HLeaf 7] = Ok (d, self') ∧ old_value d = HLeaf 7 ∧
    verify_delta d = false.
Proof.
  destruct (set_sub_tree_dmp_height_0 (new 2) (λ _, HLeaf 0) 1 (HLeaf 7))
    as (d & s' & Hrun & _ & Ho & _ & _ & _).
  - apply (rep_new 2). lia.
  - simpl. lia.
  - split; simpl; lia.
  - exists d, s'. split_and!; [exact Hrun|exact Ho|]. vm_compute in Hrun.
    injection Hrun as <- _. reflexivity.
Defined.

(** ** Appending *)
Section append.
Context `{EqDecision Hash, MerkleHasher Hash, !ZeroableHash Hash, !MerkleZeroHasher Hash}.
Abbreviation store := (SimpleMemoryMerkleStoreV3 Hash).
Implicit Types (self : store) (leaf : Z → Hash) (k node : SimpleMerkleNodeKey).

(** No sub-tree of the tree over [leaf] collides with an empty sub-tree. *)
Definition no_zero_collision leaf : Prop :=
  ∀ h i, extract_tree h i leaf (λ _, get_zero_value) = None.

(** The answer of the search below a node that covers [lo, hi). *)
Definition first_zero leaf (lo hi : Z) (r : option Z) : Prop :=
  match r with
  | Some i => lo ≤ i < hi ∧ leaf i = get_zero_value ∧ ∀ j, lo ≤ j < i → leaf j ≠ get_zero_value
  | None => ∀ j, lo ≤ j < hi → leaf j ≠ get_zero_value
  end.

Lemma first_zero_join leaf lo mid hi l r :
  lo ≤ mid ≤ hi → first_zero leaf lo mid l → first_zero leaf mid hi r →
  first_zero leaf lo hi (match l with Some i => Some i | None => r end).
Proof.
  intros Hm Hl Hr. destruct l as [i|]; simpl in *; [destruct Hl as ([??] & ? & ?); split_and!; (done || lia)|].
  destruct r as [i|]; simpl in *.
  - destruct Hr as (Hi & Hz & Hlt). split_and!; [lia..|done|]. intros j Hj.
    destruct (decide (j < mid)); [apply Hl|apply Hlt]; lia.
  - intros j Hj. destruct (decide (j < mid)); [apply Hl|apply Hr]; lia.
Qed.

Lemma find_first_zero_rep leaf self (n : nat) : rep self leaf → no_zero_collision leaf → ∀ fuel node,
  Z.of_nat n = height self - level node → (n < fuel)%nat → key_in self node →
  ∃ r, find_first_zero_leaf_index fuel self node = Ok r ∧
    first_zero leaf (index node * 2 ^ (height self - level node))
      ((index node + 1) * 2 ^ (height self - level node)) r.
Proof.
  intros [Hok Hrep] Hnc. pose proof Hok as [Hh _].
  induction n as [|n IH]; intros [|fuel] node Hn Hf Hin; try lia; pose proof Hin as [Hwf Hle];
    cbn [find_first_zero_leaf_index];
    rewrite get_node_value_ok by (done || destruct Hwf; lia); cbn [outcome_bind];
    rewrite get_zero_hash_for_level_ok by (done || destruct Hwf; lia); cbn [outcome_bind];
    rewrite (Hrep node Hin); unfold spec_node;
    (case_bool_decide as Hz;
     [eexists; split; [reflexivity|];
      rewrite first_leaf_child_spec by (done || destruct Hwf; lia); cbn [index];
      assert (∀ j, index node * 2 ^ (height self - level node) ≤ j <
        (index node + 1) * 2 ^ (height self - level node) → leaf j = get_zero_value) as Hall;
      [intros j Hj; apply (extract_tree_None (Z.to_nat (height self - level node)) (index node)
         leaf (λ _, get_zero_value)); [apply Hnc|rewrite Hz; symmetry; by apply tree_node_zero
         |by rewrite Z2Nat.id by lia]|];
      pose proof (pow2_pos_Z (height self - level node) ltac:(lia));
      split_and!; [lia|lia|apply Hall; nia|intros; lia]|]).
  - rewrite (proj2 (Z.eqb_eq _ _)) by lia. eexists. split; [done|].
    replace (height self - level node) with 0 in * by lia. simpl. intros j Hj Hzj.
    assert (j = index node) as -> by lia. apply Hz. simpl. by rewrite get_zero_hash_0.
  - rewrite (proj2 (Z.eqb_neq _ _)) by lia. assert (level node < 64) as H64 by lia.
    pose proof (key_wf_left_child node Hwf H64) as Hwl. pose proof (key_wf_right_child node Hwf H64) as Hwr.
    destruct (IH fuel (left_child node)) as (rl & -> & Hl);
      [rewrite left_child_spec by done; simpl; lia|lia|split; [done|rewrite left_child_spec by done; simpl; lia]|].
    cbn [outcome_bind].
    destruct (IH fuel (right_child node)) as (rr & Hrr & Hr);
      [rewrite right_child_spec by done; simpl; lia|lia|split; [done|rewrite right_child_spec by done; simpl; lia]|].
    rewrite left_child_spec in Hl by done. rewrite right_child_spec in Hr by done. cbn [level index] in Hl, Hr.
    set (p := 2 ^ (height self - (level node + 1))) in *.
    assert (2 ^ (height self - level node) = 2 * p) as ->.
    { unfold p. replace (height self - level node) with (Z.succ (height self - (level node + 1))) by lia.
      rewrite Z.pow_succ_r; lia. }
    assert (0 < p) by (apply pow2_pos_Z; lia).
    exists (match rl with Some i => Some i | None => rr end). split; [by destruct rl|].
    apply first_zero_join with ((2 * index node + 1) * p); [nia| |].
    + by replace (index node * (2 * p)) with (2 * index node * p) by lia.
    + by replace ((index node + 1) * (2 * p)) with ((2 * index node + 1 + 1) * p) by lia.
Qed.

Lemma find_next_append_index_rep leaf self :
  rep self leaf → no_zero_collision leaf →
  ∃ r, first_zero leaf 0 (2 ^ height self) r ∧
    find_next_append_index self = match r with Some i => Ok i | None => Err "tree is full" end.
Proof.
  intros Hrep Hnc. pose proof Hrep as [[Hh _] _].
  destruct (find_first_zero_rep leaf self (Z.to_nat (height self)) Hrep Hnc 256 MerkleKey.new_root)
    as (r & Hr & Hfz); [simpl; lia|lia|split; [apply key_wf_root|simpl; lia]|].
  exists r. split.
  - cbn [MerkleKey.new_root level index] in Hfz. by rewrite Z.sub_0_r, Z.mul_0_l, Z.mul_1_l in Hfz.
  - unfold find_next_append_index. rewrite Hr. by destruct r.
Qed.

(** A tree filled from the left with [n] leaves. *)
Definition filled leaf (n : Z) : Prop :=
  (∀ j, 0 ≤ j < n → leaf j ≠ get_zero_value) ∧ (∀ j, n ≤ j → leaf j = get_zero_value).

Lemma find_next_append_filled leaf self n :
  rep self leaf → no_zero_collision leaf → filled leaf n → 0 ≤ n < 2 ^ height self →
  find_next_append_index self = Ok n.
Proof.
  intros Hrep Hnc [Hlt Hge] Hn. destruct (find_next_append_index_rep leaf self Hrep Hnc) as (r & Hr & ->).
  destruct r as [i|]; simpl in Hr.
  - destruct Hr as (Hi & Hz & Hmin). f_equal. destruct (Z.lt_trichotomy i n) as [|[|]]; [|done|].
    + exfalso. by apply (Hlt i); [lia|].
    + exfalso. by apply (Hmin n); [lia|apply Hge; lia].
  - exfalso. by apply (Hr n); [lia|apply Hge; lia].
Qed.

(** *** Sequences of Spiderman proofs *)
Fixpoint proof_chain (r : Hash) (ps : list (SpidermanUpdateProof Hash)) (r' : Hash) : Prop :=
  match ps with
  | [] => r = r'
  | p :: ps => old_root (top_line_proof p) = r ∧ proof_chain (new_root (top_line_proof p)) ps r'
  end.

(** A web of a tree that is zero from [start + length existing] on. *)
Lemma set_sub_tree_web leaf self (s w : Z) (existing news : list Hash) :
  rep self leaf → 1 ≤ s ≤ height self → 0 ≤ w < 2 ^ (height self - s) →
  (length existing + length news ≤ Z.to_nat (2 ^ s))%nat →
  web_filled leaf (w * 2 ^ s) (Z.to_nat s) existing →
  let n := Z.to_nat (2 ^ s) in
  let new_leaves := resize n get_zero_value (existing ++ news) in
  let leaf' := set_block leaf (w * 2 ^ s + Z.of_nat (length existing)) news in
  ∃ top self', set_sub_tree_dmp self s w new_leaves = Ok (top, self') ∧ rep self' leaf' ∧
    height self' = height self ∧
    verify_spiderman (mkSpiderman top (resize n get_zero_value existing) new_leaves) = Ok true ∧
    old_root top = tree_node leaf (Z.to_nat (height self)) 0 ∧
    new_root top = tree_node leaf' (Z.to_nat (height self)) 0.
Proof.
  intros Hrep Hs Hw Hlen Hweb n new_leaves leaf'. pose proof Hrep as [[Hh _] _].
  assert (0 < 2 ^ s) as Hps by (apply pow2_pos_Z; lia).
  assert (new_leaves = existing ++ news ++ replicate (n - (length existing + length news)) get_zero_value) as Hnl.
  { unfold new_leaves. rewrite resize_ge by (rewrite length_app; lia).
    rewrite length_app. by rewrite <- app_assoc. }
  assert (length new_leaves = n) as Hln by apply length_resize.
  destruct (set_sub_tree_dmp_rep leaf self s w new_leaves Hrep Hs Hw) as (s' & Hrun & Hrep' & Hh'); [lia|].
  rewrite Hln in Hrun, Hrep'. change (Z.to_nat (2 ^ s)) with n in Hrun, Hrep'.
  rewrite Nat.sub_diag in Hrun, Hrep'. cbn [replicate] in Hrun, Hrep'. rewrite app_nil_r in Hrun, Hrep'.
  assert (∀ j, set_block leaf (w * 2 ^ s) new_leaves j = leaf' j) as Hext.
  { intros j. rewrite Hnl. apply (set_block_web leaf _ (Z.to_nat s)); [done|]. rewrite Z2Nat.id by lia. lia. }
  set (leaf1 := set_block leaf (w * 2 ^ s) new_leaves) in *.
  eexists _, s'. split; [exact Hrun|].
  assert (0 ≤ w < 2 ^ Z.of_nat (Z.to_nat (height self - s))) as Hw' by (rewrite Z2Nat.id by lia; done).
  assert (length new_leaves = (2 ^ Z.to_nat s)%nat) as Hlp
    by (rewrite Hln; apply Nat2Z.inj; rewrite pow2_nat_Z; unfold n; rewrite !Z2Nat.id; lia).
  split_and!; [by apply (rep_ext s' leaf1)|done| | |].
  - apply (verify_spiderman_spec _ (Z.to_nat s)); [done|lia|].
    cbn [web_proof_old_leaves web_proof_new_leaves top_line_proof from_params old_value new_value].
    split_and!.
    + rewrite length_resize. lia.
    + apply from_params_verifies. rewrite length_tree_siblings. lia.
    + rewrite resize_ge by lia.
      rewrite <- (tree_node_shift (leaf_fn get_zero_value _) (Z.to_nat s) w 0), Z.add_0_l.
      apply tree_node_ext. intros j Hj. rewrite Z2Nat.id in Hj |- * by lia.
      rewrite leaf_fn_pad by lia. rewrite <- (Hweb (j - w * 2 ^ s)) by (rewrite Z2Nat.id; lia).
      f_equal. lia.
    + unfold leaf1. rewrite <- (Z2Nat.id s) at 1 by lia. by apply tree_node_block.
  - cbn [from_params old_root]. rewrite compute_root_tree by (done || lia).
    rewrite <- tree_node_add. f_equal. lia.
  - cbn [from_params new_root]. rewrite compute_root_update by (done || lia).
    rewrite (tree_node_ext leaf' leaf1) by (intros; by rewrite Hext).
    replace (Z.to_nat (height self)) with (Z.to_nat s + Z.to_nat (height self - s))%nat by lia.
    rewrite (tree_node_add leaf1). apply tree_node_ext. intros k _. unfold update.
    destruct (Z.eqb_spec k w) as [->|Hne]; [done|]. symmetry. unfold leaf1.
    rewrite <- (Z2Nat.id s) at 1 by lia. by apply tree_node_block_other.
Qed.

Lemma set_block_app leaf a (l1 l2 : list Hash) j :
  set_block (set_block leaf a l1) (a + Z.of_nat (length l1)) l2 j = set_block leaf a (l1 ++ l2) j.
Proof.
  destruct (decide (a + Z.of_nat (length l1) ≤ j < a + Z.of_nat (length l1) + Z.of_nat (length l2))) as [H2|H2].
  - rewrite !(set_block_in _ _ _ get_zero_value) by (rewrite ?length_app; lia).
    unfold leaf_fn. rewrite app_nth2 by lia. f_equal. lia.
  - rewrite set_block_out by lia. destruct (decide (a ≤ j < a + Z.of_nat (length l1))) as [H1|H1].
    + rewrite !(set_block_in _ _ _ get_zero_value) by (rewrite ?length_app; lia).
      unfold leaf_fn. by rewrite app_nth1 by lia.
    + rewrite !set_block_out by (rewrite ?length_app; lia). done.
Qed.

(** Writing no leaves changes neither the represented tree nor its root. *)
Lemma set_block_nil_rep self leaf a h :
  rep self leaf →
  rep self (set_block leaf a []) ∧ tree_node leaf h 0 = tree_node (set_block leaf a []) h 0.
Proof.
  intros Hrep. assert (∀ j, leaf j = set_block leaf a [] j) as He
    by (intros; symmetry; apply set_block_out; simpl; lia).
  split; [by apply (rep_ext self leaf)|by apply tree_node_ext].
Qed.

(** Writing a list of leaves in two pieces, the second one at [b]. *)
Lemma set_block_split leaf a b cut (l : list Hash) j :
  (length l ≤ cut)%nat ∨ b = a + Z.of_nat cut →
  set_block (set_block leaf a (take cut l)) b (drop cut l) j = set_block leaf a l j.
Proof.
  destruct (decide (length l ≤ cut)%nat) as [Hle|Hgt].
  - rewrite drop_ge, take_ge by done. intros _. apply set_block_out. simpl. lia.
  - intros [?| ->]; [lia|]. rewrite <- (take_drop cut l) at 3. rewrite <- set_block_app, length_take.
    do 2 f_equal. lia.
Qed.

Lemma append_chunks_rep (s : Z) fuel : ∀ self leaf w rem results,
  rep self leaf → 1 ≤ s ≤ height self → 0 ≤ w → (length rem ≤ fuel)%nat →
  w * 2 ^ s + Z.of_nat (length rem) ≤ 2 ^ height self →
  (∀ j, w * 2 ^ s ≤ j → leaf j = get_zero_value) →
  let h := Z.to_nat (height self) in
  let leaf' := set_block leaf (w * 2 ^ s) rem in
  ∃ ps self', append_chunks fuel self s (Z.to_nat (2 ^ s)) get_zero_value w rem results =
      Ok (results ++ ps, self') ∧ rep self' leaf' ∧
    Forall (λ p, verify_spiderman p = Ok true) ps ∧
    proof_chain (tree_node leaf h 0) ps (tree_node leaf' h 0).
Proof.
  induction fuel as [|fuel IH]; intros self leaf w rem results Hrep Hs Hw Hf Hfit Hz h leaf'.
  { destruct rem; [|simpl in Hf; lia]. exists [], self. simpl. rewrite app_nil_r.
    destruct (set_block_nil_rep self leaf (w * 2 ^ s) h Hrep). split_and!; (done || constructor). }
  destruct rem as [|x rem0].
  { exists [], self. simpl. rewrite app_nil_r.
    destruct (set_block_nil_rep self leaf (w * 2 ^ s) h Hrep). split_and!; (done || constructor). }
  remember (x :: rem0) as rem eqn:Erem.
  assert (1 ≤ length rem)%nat as Hrem by (subst; simpl; lia).
  pose proof Hrep as [[Hh _] _]. assert (0 < 2 ^ s) as Hps by (apply pow2_pos_Z; lia).
  assert (2 ^ height self = 2 ^ (height self - s) * 2 ^ s) as Hpow
    by (rewrite <- Z.pow_add_r by lia; f_equal; lia).
  assert (2 ^ height self ≤ 2 ^ 63) by (apply pow2_mono; lia).
  assert (w < 2 ^ (height self - s)) as Hwq by nia.
  assert ((w + 1) * 2 ^ s ≤ 2 ^ height self) as Hw1
    by (rewrite Hpow; apply Z.mul_le_mono_nonneg_r; lia).
  set (n := Z.to_nat (2 ^ s)). set (chunk := take n rem).
  destruct (set_sub_tree_web leaf self s w [] chunk Hrep Hs)
    as (top & s1 & Hrun & Hrep1 & Hh1 & Hv & Ho & Hn); [nia|unfold chunk; simpl; rewrite length_take; lia| |].
  { intros j Hj. rewrite Hz by lia. unfold leaf_fn. simpl. by destruct (Z.to_nat j). }
  cbn [app length] in Hrun, Hrep1, Hn. rewrite Z.add_0_r in Hrep1, Hn. fold n in Hrun, Hv.
  set (leaf1 := set_block leaf (w * 2 ^ s) chunk) in *.
  assert (∀ j, set_block leaf1 ((w + 1) * 2 ^ s) (drop n rem) j = leaf' j) as Hext.
  { intros j. apply set_block_split. lia. }
  destruct (IH s1 leaf1 (w + 1) (drop n rem)
    (results ++ [mkSpiderman top (replicate n get_zero_value) (resize n get_zero_value chunk)]))
    as (ps & s2 & Hrun2 & Hrep2 & Hvs & Hchain);
    [done|lia|lia|rewrite length_drop; unfold n; lia| | |].
  { rewrite Hh1, length_drop. unfold n. lia. }
  { intros j Hj. unfold leaf1. rewrite set_block_out; [apply Hz; nia|].
    right. unfold chunk. rewrite length_take. unfold n. lia. }
  eexists (_ :: ps), s2. split_and!.
  - subst rem. cbn [append_chunks]. fold n chunk. rewrite Hrun. cbn [outcome_bind].
    rewrite wrap_small by nia. fold n in Hrun2. rewrite Hrun2. rewrite <- app_assoc. reflexivity.
  - by apply (rep_ext s2 (set_block leaf1 ((w + 1) * 2 ^ s) (drop n rem))).
  - constructor; [|done]. cbn [resize] in Hv. rewrite resize_nil in Hv. exact Hv.
  - split; [done|]. cbn [top_line_proof]. rewrite Hn, Hh1 in *.
    rewrite (tree_node_ext leaf' (set_block leaf1 ((w + 1) * 2 ^ s) (drop n rem))) by (intros; by rewrite Hext).
    exact Hchain.
Qed.

Lemma read_leaves leaf self start m :
  rep self leaf → 0 ≤ start → start + Z.of_nat m ≤ 2 ^ height self →
  get_node_values self ((λ i, mkKey (height self) (wrap 64 (start + Z.of_nat i))) <$> seq 0 m) =
  Ok ((λ i, leaf (start + Z.of_nat i)) <$> seq 0 m).
Proof.
  intros Hrep Hs Hm. pose proof Hrep as [[Hh _] _].
  assert (2 ^ height self ≤ 2 ^ 63) by (apply pow2_mono; lia).
  assert (∀ i, i ∈ seq 0 m → start + Z.of_nat i < 2 ^ height self) as Hin
    by (intros i Hi%elem_of_seq; lia).
  induction (seq 0 m) as [|i is_ IH]; [done|]. rewrite !fmap_cons. cbn [get_node_values].
  pose proof (Hin i ltac:(by left)) as Hi. rewrite wrap_small by lia.
  pose proof (get_leaf_value_rep leaf self (start + Z.of_nat i) Hrep) as Hv.
  unfold get_leaf_value in Hv. rewrite Hv by (split; lia). cbn [outcome_bind].
  rewrite IH; [done|]. intros i' Hi'. apply Hin. by right.
Qed.

Lemma web_filled_existing leaf n start (r : nat) s :
  filled leaf n → n = start + Z.of_nat r →
  web_filled leaf start s ((λ i, leaf (start + Z.of_nat i)) <$> seq 0 r).
Proof.
  intros [_ Hz] -> j Hj. unfold leaf_fn. destruct (decide (j < Z.of_nat r)) as [Hlt|Hge].
  - symmetry. apply nth_lookup_Some. rewrite list_lookup_fmap, lookup_seq_lt by lia. simpl.
    do 2 f_equal. lia.
  - rewrite nth_overflow by (rewrite length_fmap, length_seq; lia). apply Hz. lia.
Qed.
End append.

(** Unless some sub-tree collides with an empty one, [find_next_append_index]
    returns the smallest index whose leaf is zero, and fails exactly when no
    leaf of the tree is zero. *)
Theorem find_next_append_index_correct
    `{EqDecision Hash, MerkleHasher Hash, !ZeroableHash Hash, !MerkleZeroHasher Hash}
    (self : SimpleMemoryMerkleStoreV3 Hash) (leaf : Z → Hash) :
  rep self leaf → no_zero_collision leaf →
  match find_next_append_index self with
  | Ok i => index_in self i ∧ leaf i = get_zero_value ∧ ∀ j, 0 ≤ j < i → leaf j ≠ get_zero_value
  | Err _ => ∀ j, index_in self j → leaf j ≠ get_zero_value
  | _ => False
  end.
Proof.
  intros Hrep Hnc. destruct (find_next_append_index_rep leaf self Hrep Hnc) as (r & Hr & ->).
  by destruct r.
Qed.

Lemma no_zero_collision_term (leaf : Z → term_hash) : no_zero_collision leaf.
Proof.
  intros h. induction h as [|h IH]; intros i; [done|]. cbn [extract_tree].
  rewrite decide_False; [by rewrite !IH|]. intros [He Hne]. apply Hne. by injection He as -> ->.
Qed.

Lemma find_next_append_index_correct_witness :
  ∃ d self', set_leaf (new 2) 0 (HLeaf 7) = Ok (d, self') ∧
    match find_next_append_index self' with Ok i => i = 1 | _ => False end.
Proof.
  destruct (set_leaf_rep (λ _, HLeaf 0) (new 2) 0 (HLeaf 7)) as (s' & Hs & Hrep & _).
  { apply (rep_new 2). lia. }
  { split; simpl; lia. }
  eexists _, s'. split; [exact Hs|].
  pose proof (find_next_append_index_correct s' _ Hrep (no_zero_collision_term _)) as Hf.
  vm_compute in Hs. injection Hs as <-. vm_compute in Hf |- *. reflexivity.
Defined.

(** Appending to a tree that is filled from the left. If the new leaves
    fit, [append_leaves_spider_man] with webs of height at least 1 never panics,
    leaves a store that holds the tree with the new leaves written right behind
    the existing ones, and returns Spiderman proofs that all verify and chain
    from the old root of the tree to the new one. *)
Theorem append_leaves_spider_man_correct
    `{EqDecision Hash, MerkleHasher Hash, !ZeroableHash Hash, !MerkleZeroHasher Hash}
    (self : SimpleMemoryMerkleStoreV3 Hash) (leaf : Z → Hash) (s n : Z) (leaves : list Hash) :
  rep self leaf → no_zero_collision leaf → filled leaf n → 1 ≤ s ≤ height self → 0 ≤ n →
  n + Z.of_nat (length leaves) ≤ 2 ^ height self →
  let h := Z.to_nat (height self) in
  let leaf' := set_block leaf n leaves in
  ∃ ps self', append_leaves_spider_man self s leaves = Ok (ps, self') ∧ rep self' leaf' ∧
    Forall (λ p, verify_spiderman p = Ok true) ps ∧
    proof_chain (tree_node leaf h 0) ps (tree_node leaf' h 0).
Proof.
  intros Hrep Hnc Hfill Hs Hn Hfit h leaf'. unfold append_leaves_spider_man.
  case_bool_decide as Hnil.
  { subst leaves. exists [], self. destruct (set_block_nil_rep self leaf n h Hrep).
    split_and!; (done || constructor). }
  pose proof Hrep as [Hok _]. pose proof Hok as [Hh _].
  assert (1 ≤ length leaves)%nat as Hl1 by (destruct leaves; [done|simpl; lia]).
  assert (0 < 2 ^ s) as Hps by (apply pow2_pos_Z; lia).
  assert (2 ^ height self ≤ 2 ^ 63) as H63 by (apply pow2_mono; lia).
  assert (2 ^ height self = 2 ^ (height self - s) * 2 ^ s) as Hpow
    by (rewrite <- Z.pow_add_r by lia; f_equal; lia).
  rewrite (find_next_append_filled leaf self n) by (done || lia). cbn [outcome_bind].
  rewrite !u64_pow2, wrap_small by lia. rewrite Z.gtb_ltb, (proj2 (Z.ltb_ge _ _)) by lia.
  rewrite get_zero_hash_for_level_ok, Z.sub_diag by (done || lia).
  change (Z.to_nat 0) with 0%nat. rewrite get_zero_hash_0. cbn [outcome_bind].
  set (w := n / 2 ^ s). set (r := n mod 2 ^ s).
  assert (n = w * 2 ^ s + r ∧ 0 ≤ r < 2 ^ s) as [Hnw Hr]
    by (unfold w, r; pose proof (Z.div_mod n (2 ^ s)); pose proof (Z.mod_pos_bound n (2 ^ s)); lia).
  assert (0 ≤ w < 2 ^ (height self - s)) as Hw by nia.
  rewrite (wrap_small 64 (w * 2 ^ s)) by nia.
  set (existing := (λ i, leaf (w * 2 ^ s + Z.of_nat i)) <$> seq 0 (Z.to_nat r)).
  rewrite (read_leaves leaf self (w * 2 ^ s)) by (done || nia). cbn [outcome_bind]. fold existing.
  assert (Z.of_nat (length existing) = r) as Hle by (unfold existing; rewrite length_fmap, length_seq; lia).
  set (cut := Nat.min (Z.to_nat (2 ^ s - r)) (length leaves)).
  assert (length (take cut leaves) = cut) as Hlc by (rewrite length_take; lia).
  destruct (set_sub_tree_web leaf self s w existing (take cut leaves) Hrep Hs Hw)
    as (top & s1 & Hrun & Hrep1 & Hh1 & Hv & Ho & Hnr); [lia| |].
  { apply (web_filled_existing leaf n); [done|lia]. }
  rewrite Hrun. cbn [outcome_bind]. rewrite Hle, <- Hnw in Hrep1, Hnr.
  rewrite wrap_small by nia. set (leaf1 := set_block leaf n (take cut leaves)) in *.
  assert ((w + 1) * 2 ^ s ≤ 2 ^ height self) as Hw1
    by (rewrite Hpow; apply Z.mul_le_mono_nonneg_r; lia).
  assert (∀ j, set_block leaf1 ((w + 1) * 2 ^ s) (drop cut leaves) j = leaf' j) as Hext.
  { intros j. apply set_block_split. lia. }
  destruct (append_chunks_rep s (length (drop cut leaves)) s1 leaf1 (w + 1) (drop cut leaves)
    [mkSpiderman top (resize (Z.to_nat (2 ^ s)) get_zero_value existing)
       (resize (Z.to_nat (2 ^ s)) get_zero_value (existing ++ take cut leaves))])
    as (ps & s2 & Hrun2 & Hrep2 & Hvs & Hchain); [done|lia|lia|done| | |].
  { rewrite Hh1, length_drop. lia. }
  { intros j Hj. unfold leaf1. rewrite set_block_out by lia. apply Hfill. lia. }
  eexists _, s2. split; [exact Hrun2|]. split_and!.
  - by apply (rep_ext s2 (set_block leaf1 ((w + 1) * 2 ^ s) (drop cut leaves))).
  - by constructor.
  - split; [done|]. cbn [top_line_proof]. rewrite Hnr, Hh1 in *. unfold h.
    rewrite (tree_node_ext leaf' (set_block leaf1 ((w + 1) * 2 ^ s) (drop cut leaves)))
      by (intros; by rewrite Hext). exact Hchain.
Qed.

Lemma append_leaves_spider_man_correct_witness :
  ∃ ps self', append_leaves_spider_man (new 3) 1 (HLeaf <$> [4; 5; 6]) = Ok (ps, self') ∧
    length ps = 2%nat ∧ Forall (λ p, verify_spiderman p = Ok true) ps.
Proof.
  destruct (append_leaves_spider_man_correct (new 3) (λ _, HLeaf 0) 1 0 (HLeaf <$> [4; 5; 6]))
    as (ps & s' & Hrun & _ & Hv & _).
  - apply (rep_new 3). lia.
  - apply no_zero_collision_term.
  - split; [intros; lia|done].
  - simpl. lia.
  - lia.
  - simpl. lia.
  - exists ps, s'. split_and!; [exact Hrun| |exact Hv]. vm_compute in Hrun. by injection Hrun as <- _.
Defined.
