(* ===== verification/LeafUpdates.v ===== *)
(** * Sequences of leaf updates

    The reference for components that replace leaves of a Merkle tree one after the
    other: the tree after a sequence of updates, the delta proofs the updates give, and
    the hashes on the path from a leaf to the root. *)
From stdpp Require Import prelude list.
From Stdlib Require Import ZArith Lia.
From S2P Require Import Prelude MerkleKey MerkleHash MerkleProof Spiderman MemTree.

Section updates.
Context {Hash : Type} `{EqDecision Hash, MerkleHasher Hash}.
Implicit Types (t : Z → Hash) (us : list (Z * Hash)) (k : SimpleMerkleNodeKey).

Definition apply_updates t us : Z → Hash := foldl (λ t '(i, v), update t i v) t us.

(** The delta proofs of the updates, each against the tree before it. *)
Fixpoint deltas (h : nat) t us : list (DeltaMerkleProofCore Hash) :=
  match us with
  | [] => []
  | (i, v) :: us => from_params i (t i) v (tree_siblings t h i) :: deltas h (update t i v) us
  end.

Definition updates_in (h : nat) us : Prop := Forall (λ u, 0 ≤ u.1 < 2 ^ Z.of_nat h) us.

Lemma apply_updates_app t us us' : apply_updates t (us ++ us') = apply_updates (apply_updates t us) us'.
Proof. apply foldl_app. Qed.

Lemma deltas_app h us : ∀ t us', deltas h t (us ++ us') = deltas h t us ++ deltas h (apply_updates t us) us'.
Proof. induction us as [|[i v] us IH]; intros t us'; [done|]. cbn. by rewrite IH. Qed.

(** Each proof verifies, begins at the root of the tree before the update and ends at
    the root of the tree after it. *)
Lemma deltas_spec h us : (h ≤ 64)%nat → ∀ t, updates_in h us →
  ∀ j p, deltas h t us !! j = Some p →
    verify_delta p = true ∧
    MerkleProof.old_root p = tree_node (apply_updates t (take j us)) h 0 ∧
    MerkleProof.new_root p = tree_node (apply_updates t (take (S j) us)) h 0.
Proof.
  intros Hh. induction us as [|[i v] us IH]; intros t Hu j p Hj; [done|].
  apply Forall_cons in Hu as [Hi Hu]. cbn in Hi. destruct j as [|j]; cbn in Hj.
  - injection Hj as <-. split_and!.
    + apply from_params_verifies. by rewrite length_tree_siblings.
    + cbn. rewrite compute_root_tree by done. done.
    + cbn. rewrite take_0. by rewrite compute_root_update.
  - by apply (IH (update t i v)).
Qed.

(** ** The path to the root *)
Definition node_siblings (h : nat) t (n : nat) (i : Z) : list Hash := tree_siblings (tree_node t (h - n)) n i.

Lemma length_node_siblings h t n i : length (node_siblings h t n i) = n.
Proof. apply length_tree_siblings. Qed.

Lemma node_siblings_leaf h t i : node_siblings h t h i = tree_siblings t h i.
Proof. unfold node_siblings. rewrite Nat.sub_diag. by apply tree_siblings_ext. Qed.

Lemma node_siblings_S h t n i :
  (S n ≤ h)%nat → node_siblings h t (S n) i = tree_node t (h - S n) (sib i) :: node_siblings h t n (i / 2).
Proof.
  intros Hn. unfold node_siblings. rewrite tree_siblings_S. f_equal. apply tree_siblings_ext.
  intros j. rewrite <- tree_node_add. f_equal. lia.
Qed.

Lemma spec_node_level h t (n : nat) k :
  level k = Z.of_nat n → spec_node (Z.of_nat h) t k = tree_node t (h - n) (index k).
Proof. intros E. unfold spec_node. rewrite E. f_equal. lia. Qed.

(** One step up. *)
Lemma spec_node_step h t n k :
  key_wf k → level k = Z.of_nat (S n) → (S n ≤ h)%nat →
  two_to_one_swap (Z.land (index k) 1 =? 1) (spec_node (Z.of_nat h) t k) (tree_node t (h - S n) (sib (index k))) =
    spec_node (Z.of_nat h) t (parent k).
Proof.
  intros Hk Hl Hn. rewrite spec_node_parent by (done || lia).
  assert (spec_node (Z.of_nat h) t (sibling k) = tree_node t (h - S n) (sib (index k))) as -> by by apply spec_node_level.
  unfold two_to_one_swap. rewrite land_1_even, land_1_odd, <- Z.negb_even. by destruct (Z.even (index k)).
Qed.

Lemma node_siblings_root h t n k :
  key_wf k → level k = Z.of_nat n → (n ≤ h)%nat →
  compute_root_merkle_proof_generic (spec_node (Z.of_nat h) t k) (index k) (node_siblings h t n (index k)) = tree_node t h 0.
Proof.
  intros [Hl Hi] E Hn. rewrite (spec_node_level h t n k E). unfold node_siblings. rewrite compute_root_tree by (done || rewrite <- ?E; lia).
  rewrite <- tree_node_add. f_equal. lia.
Qed.

(** An update changes the ancestors of its leaf only. *)
Lemma spec_node_unchanged h t i v k :
  key_wf k → level k ≤ Z.of_nat h → ¬ ancestor k (mkKey (Z.of_nat h) i) →
  spec_node (Z.of_nat h) (update t i v) k = spec_node (Z.of_nat h) t k.
Proof.
  intros [Hl Hi] Hh Hna. apply tree_node_ext. intros j Hj. unfold update.
  destruct (Z.eqb_spec j i) as [->|]; [|done]. destruct Hna. split; cbn [level index]; [done|].
  rewrite Z2Nat.id in Hj by lia. pose proof (pow2_pos_Z (Z.of_nat h - level k) ltac:(lia)).
  apply Z.div_unique with (i - index k * 2 ^ (Z.of_nat h - level k)); lia.
Qed.

Lemma spec_node_untouched h us k : key_wf k → level k ≤ Z.of_nat h → ∀ t,
  (∀ i v, (i, v) ∈ us → ¬ ancestor k (mkKey (Z.of_nat h) i)) →
  spec_node (Z.of_nat h) (apply_updates t us) k = spec_node (Z.of_nat h) t k.
Proof.
  intros Hk Hh. induction us as [|[i v] us IH]; intros t Hna; [done|]. cbn.
  fold (apply_updates (update t i v) us). rewrite IH by (intros i' v' ?; apply (Hna i' v'); by right).
  apply spec_node_unchanged; [done|done|]. apply (Hna i v). left.
Qed.

Lemma key_wf_leaf (h : nat) i : (h ≤ 64)%nat → 0 ≤ i < 2 ^ Z.of_nat h → key_wf (mkKey (Z.of_nat h) i).
Proof. intros. split; cbn; lia. Qed.

Lemma spec_node_leaf h t i : spec_node (Z.of_nat h) t (mkKey (Z.of_nat h) i) = t i.
Proof. unfold spec_node. cbn. by rewrite Z.sub_diag. Qed.
End updates.
