(* ===== verification/IndexedTree.v ===== *)
(** * The indexed Merkle tree

    [parth_common/src/memory_stores/indexed_merkle_tree.rs]: an append-only
    Merkle tree whose leaves form a linked list sorted by key, so that a leaf
    proves both the presence of its key and the absence of every key up to the
    next one. Field elements, the felt encoding of hashes and the leaf hash are
    parameters. The specification is a finite map from keys to values. *)
From stdpp Require Import prelude gmap list strings.
From Stdlib Require Import ZArith Lia.
From S2P Require Import Prelude MerkleKey MerkleHash FieldHash MerkleProof MemTree.

(** ** The order of keys *)
(** [OrdHash::to_sort_key]: most significant limb first. *)
Definition to_sort_key `{FieldHash F Hash} (h : Hash) : list Z :=
  let '(f0, f1, f2, f3) := to_4_felts h in
  [to_u64_value f3; to_u64_value f2; to_u64_value f1; to_u64_value f0].

(** Lexicographic comparison of arrays. *)
Fixpoint lex_cmp (a b : list Z) : comparison :=
  match a, b with
  | [], [] => Eq
  | [], _ => Lt
  | _, [] => Gt
  | x :: a, y :: b => match x ?= y with Eq => lex_cmp a b | c => c end
  end.

(** [Ord for OrdHash] *)
Definition ord_hash_cmp `{FieldHash F Hash} (a b : Hash) : comparison :=
  lex_cmp (to_sort_key a) (to_sort_key b).

Definition key_ltb `{FieldHash F Hash} (a b : Hash) : bool :=
  match ord_hash_cmp a b with Lt => true | _ => false end.

(** What the code relies on: the four felts determine a hash and are read as
    non-negative integers, the default hash has four zero felts, and the felt of
    a leaf index is read back as that index. *)
Class FieldHashLaws (F Hash : Type) `{FieldHash F Hash} : Prop := {
  sort_key_inj : ∀ a b : Hash, to_sort_key a = to_sort_key b → a = b;
  to_u64_nonneg : ∀ f : F, 0 ≤ to_u64_value f;
  default_sort_key : to_sort_key hash_default = [0; 0; 0; 0];
  felt_index : ∀ i, 0 ≤ i < 2 ^ 63 → to_u64_value (from_u64_value i) = i;
}.

Record IMTLeafPreimage (F Hash : Type) : Type := mkLeaf {
  key : Hash;
  value : Hash;
  next_key : Hash;
  next_index : F;
}.
Arguments mkLeaf {F Hash}.
Arguments key {F Hash}.
Arguments value {F Hash}.
Arguments next_key {F Hash}.
Arguments next_index {F Hash}.

#[global] Instance leaf_eq_dec `{EqDecision F, EqDecision Hash} : EqDecision (IMTLeafPreimage F Hash).
Proof. solve_decision. Defined.

Record IMTInsertResult (F Hash : Type) : Type := mkInsertResult {
  predecessor_proof : DeltaMerkleProofCore Hash;
  new_leaf_proof : DeltaMerkleProofCore Hash;
  new_leaf : IMTLeafPreimage F Hash;
  updated_predecessor : IMTLeafPreimage F Hash;
  predecessor_index : Z;
  new_leaf_index : Z;
  ins_modified_nodes : list (SimpleMerkleNode Hash);
}.
Arguments mkInsertResult {F Hash}.
Arguments predecessor_proof {F Hash}.
Arguments new_leaf_proof {F Hash}.
Arguments new_leaf {F Hash}.
Arguments updated_predecessor {F Hash}.
Arguments predecessor_index {F Hash}.
Arguments new_leaf_index {F Hash}.
Arguments ins_modified_nodes {F Hash}.

Record IMTUpdateResult (F Hash : Type) : Type := mkUpdateResult {
  leaf_proof : DeltaMerkleProofCore Hash;
  updated_leaf : IMTLeafPreimage F Hash;
  leaf_index : Z;
  upd_modified_nodes : list (SimpleMerkleNode Hash);
}.
Arguments mkUpdateResult {F Hash}.
Arguments leaf_proof {F Hash}.
Arguments updated_leaf {F Hash}.
Arguments leaf_index {F Hash}.
Arguments upd_modified_nodes {F Hash}.

Inductive IMTUpsertResult (F Hash : Type) : Type :=
  | Inserted (r : IMTInsertResult F Hash)
  | Updated (r : IMTUpdateResult F Hash).
Arguments Inserted {F Hash}.
Arguments Updated {F Hash}.

Record IndexedMerkleTree (F Hash : Type) `{Countable Hash} : Type := mkIMT {
  tree : SimpleMemoryMerkleStoreV3 Hash;
  leaves : gmap Z (IMTLeafPreimage F Hash);
  key_index : gmap Hash Z;
  next_append_index : Z;
}.
Arguments mkIMT {F Hash _ _}.
Arguments tree {F Hash _ _}.
Arguments leaves {F Hash _ _}.
Arguments key_index {F Hash _ _}.
Arguments next_append_index {F Hash _ _}.

Section imt.
Context `{EqDecision F, Countable Hash, !FieldHash F Hash,
  !MerkleHasher Hash, !ZeroableHash Hash, !MerkleZeroHasher Hash}.
Abbreviation imt := (IndexedMerkleTree F Hash).
Abbreviation preimage := (IMTLeafPreimage F Hash).
Implicit Types (self : imt) (k : Hash).

Definition leaf_default : preimage := mkLeaf hash_default hash_default hash_default felt_default.

Definition compute_hash (p : preimage) : Hash :=
  let '(k0, k1, k2, k3) := to_4_felts (key p) in
  let '(v0, v1, v2, v3) := to_4_felts (value p) in
  let '(n0, n1, n2, n3) := to_4_felts (next_key p) in
  q_hash_many [k0; k1; k2; k3; v0; v1; v2; v3; n0; n1; n2; n3; next_index p].

Definition is_sentinel (p : preimage) : bool :=
  bool_decide (key p = hash_default) && bool_decide (value p = hash_default) &&
  bool_decide (next_key p = hash_default) && bool_decide (next_index p = felt_default).

Definition new (height : Z) : outcome imt :=
  let tree := MemTree.new height in
  let sentinel := leaf_default in
  let sentinel_hash := compute_hash sentinel in
  let* tree := set_leaf_no_proof tree 0 sentinel_hash in
  Ok (mkIMT tree {[ 0 := sentinel ]} {[ hash_default := 0 ]} 1).

Definition get_root self : outcome Hash := MemTree.get_root (tree self).

Definition get_height self : Z := MemTree.get_height (tree self).

Definition get_leaf_preimage self (index : Z) : option preimage := leaves self !! index.

Definition get_leaf_index_for_key self k : option Z := key_index self !! k.

(** [BTreeMap::range(..target).next_back()]: the entry with the largest key
    below the target. *)
Definition last_below (m : gmap Hash Z) (target : Hash) : option (Hash * Z) :=
  map_fold (λ k i best,
    if key_ltb k target then
      match best with
      | Some (k', _) => if key_ltb k' k then Some (k, i) else best
      | None => Some (k, i)
      end
    else best) None m.

Definition find_predecessor self (target_key : Hash) : outcome (Z * preimage) :=
  match last_below (key_index self) target_key with
  | None => Err "No predecessor found"
  | Some (_, pred_index) =>
      match leaves self !! pred_index with
      | None => Err "Predecessor leaf not found"
      | Some pred_leaf => Ok (pred_index, pred_leaf)
      end
  end.

Definition get_membership_proof self k : outcome (option (preimage * MerkleProofCore Hash)) :=
  match key_index self !! k with
  | None => Ok None
  | Some leaf_index =>
      match leaves self !! leaf_index with
      | None => Ok None
      | Some preimage =>
          let* proof := get_leaf (tree self) leaf_index in
          Ok (Some (preimage, proof))
      end
  end.

Definition get_non_membership_proof self k : outcome (preimage * MerkleProofCore Hash) :=
  match key_index self !! k with
  | Some _ => Err "Key exists in the IMT"
  | None =>
      let* (pred_index, pred_leaf) := find_predecessor self k in
      let* proof := get_leaf (tree self) pred_index in
      Ok (pred_leaf, proof)
  end.

(** Nodes along the path from a leaf to the root. *)
Fixpoint path_nodes_loop (fuel : nat) (t : SimpleMemoryMerkleStoreV3 Hash)
    (current : SimpleMerkleNodeKey) : outcome (list (SimpleMerkleNode Hash)) :=
  if 0 <? level current then
    match fuel with
    | O => Diverge
    | S fuel =>
        let current := parent current in
        let* v := get_node_value t current in
        let* rest := path_nodes_loop fuel t current in
        Ok (mkNode current v :: rest)
    end
  else Ok [].

Definition collect_path_nodes self (leaf_index : Z) (nodes : list (SimpleMerkleNode Hash))
    : outcome (list (SimpleMerkleNode Hash)) :=
  let current := mkKey (get_height self) leaf_index in
  let* v := get_node_value (tree self) current in
  let* rest := path_nodes_loop 255 (tree self) current in
  Ok (nodes ++ mkNode current v :: rest).

Definition with_tree self (t : SimpleMemoryMerkleStoreV3 Hash) : imt :=
  mkIMT t (leaves self) (key_index self) (next_append_index self).

Definition insert self (key_ value_ : Hash) : outcome (IMTInsertResult F Hash * imt) :=
  match key_index self !! key_ with
  | Some _ => Err "Key already exists in IMT"
  | None =>
      let new_index := next_append_index self in
      if new_index >? get_max_leaf_index (tree self) then Err "IMT is full" else
      let* (pred_index, pred_leaf) := find_predecessor self key_ in
      let new_leaf := mkLeaf key_ value_ (next_key pred_leaf) (next_index pred_leaf) in
      let new_leaf_hash := compute_hash new_leaf in
      let updated_predecessor :=
        mkLeaf (key pred_leaf) (value pred_leaf) key_ (from_u64_value new_index) in
      let updated_pred_hash := compute_hash updated_predecessor in
      let* (predecessor_proof, t) := set_leaf (tree self) pred_index updated_pred_hash in
      let* (new_leaf_proof, t) := set_leaf t new_index new_leaf_hash in
      let self := with_tree self t in
      let* modified_nodes := collect_path_nodes self pred_index [] in
      let* modified_nodes := collect_path_nodes self new_index modified_nodes in
      let self :=
        mkIMT (tree self)
          (<[new_index := new_leaf]> (<[pred_index := updated_predecessor]> (leaves self)))
          (<[key_ := new_index]> (key_index self)) (wrap 64 (new_index + 1)) in
      Ok (mkInsertResult predecessor_proof new_leaf_proof new_leaf updated_predecessor
            pred_index new_index modified_nodes, self)
  end.

Definition update self (key_ new_value : Hash) : outcome (IMTUpdateResult F Hash * imt) :=
  match key_index self !! key_ with
  | None => Err "Key not found in IMT"
  | Some leaf_index =>
      match leaves self !! leaf_index with
      | None => Err "Leaf preimage not found"
      | Some old_leaf =>
          let updated_leaf :=
            mkLeaf (key old_leaf) new_value (next_key old_leaf) (next_index old_leaf) in
          let updated_hash := compute_hash updated_leaf in
          let* (leaf_proof, t) := set_leaf (tree self) leaf_index updated_hash in
          let self := with_tree self t in
          let* modified_nodes := collect_path_nodes self leaf_index [] in
          let self :=
            mkIMT (tree self) (<[leaf_index := updated_leaf]> (leaves self)) (key_index self)
              (next_append_index self) in
          Ok (mkUpdateResult leaf_proof updated_leaf leaf_index modified_nodes, self)
      end
  end.

Definition upsert self (key_ value_ : Hash) : outcome (IMTUpsertResult F Hash * imt) :=
  match key_index self !! key_ with
  | Some _ => let* (r, self) := update self key_ value_ in Ok (Updated r, self)
  | None => let* (r, self) := insert self key_ value_ in Ok (Inserted r, self)
  end.

Definition restore_leaf self (leaf_index : Z) (preimage : preimage) : outcome imt :=
  let hash := compute_hash preimage in
  let* t := set_leaf_no_proof (tree self) leaf_index hash in
  Ok (mkIMT t (<[leaf_index := preimage]> (leaves self))
        (<[key preimage := leaf_index]> (key_index self))
        (if next_append_index self <=? leaf_index then wrap 64 (leaf_index + 1)
         else next_append_index self)).
End imt.

(** ** Lexicographic order *)
Lemma lex_cmp_eq a : ∀ b, lex_cmp a b = Eq ↔ a = b.
Proof.
  induction a as [|x a IH]; intros [|y b]; simpl; try done.
  destruct (Z.compare_spec x y) as [->| |]; [rewrite IH|..]; naive_solver lia.
Qed.

Lemma lex_cmp_antisym a : ∀ b, lex_cmp b a = CompOpp (lex_cmp a b).
Proof.
  induction a as [|x a IH]; intros [|y b]; simpl; try done.
  rewrite (Z.compare_antisym x y), IH. by destruct (x ?= y).
Qed.

Lemma lex_cmp_trans a : ∀ b c, lex_cmp a b = Lt → lex_cmp b c = Lt → lex_cmp a c = Lt.
Proof.
  induction a as [|x a IH]; intros [|y b] [|z c]; simpl; try done.
  destruct (Z.compare_spec x y), (Z.compare_spec y z), (Z.compare_spec x z); try done; try lia.
  apply IH.
Qed.

Lemma lex_cmp_zeros a :
  Forall (λ x, 0 ≤ x) a → lex_cmp (replicate (length a) 0) a ≠ Gt.
Proof.
  induction 1 as [|x a Hx Ha IH]; simpl; [done|]. by destruct x as [| |]; [| |lia].
Qed.

(** ** The order of keys *)
Section order.
Context `{Countable Hash, !FieldHash F Hash, !FieldHashLaws F Hash}.
Implicit Types a b c : Hash.

Definition key_lt a b : Prop := ord_hash_cmp a b = Lt.

Lemma key_ltb_spec a b : reflect (key_lt a b) (key_ltb a b).
Proof. unfold key_lt, key_ltb. destruct (ord_hash_cmp a b); by constructor. Qed.

Lemma key_lt_irrefl a : ¬ key_lt a a.
Proof. unfold key_lt, ord_hash_cmp. by rewrite (proj2 (lex_cmp_eq _ _) eq_refl). Qed.

Lemma key_lt_trans a b c : key_lt a b → key_lt b c → key_lt a c.
Proof. apply lex_cmp_trans. Qed.

Lemma key_trichotomy a b : key_lt a b ∨ a = b ∨ key_lt b a.
Proof.
  unfold key_lt, ord_hash_cmp. rewrite (lex_cmp_antisym (to_sort_key a)).
  destruct (lex_cmp _ _) eqn:E; [|by left|by right; right].
  right; left. by apply sort_key_inj, lex_cmp_eq.
Qed.

Lemma key_lt_asym a b : key_lt a b → ¬ key_lt b a.
Proof. intros Hab Hba. by apply (key_lt_irrefl a), (key_lt_trans a b a). Qed.

(** The default key is the least one. *)
Lemma default_least a : a ≠ hash_default → key_lt hash_default a.
Proof.
  intros Hne. assert (Forall (λ x, 0 ≤ x) (to_sort_key a) ∧ length (to_sort_key a) = 4%nat) as [Hnn Hlen].
  { unfold to_sort_key. destruct (to_4_felts a) as [[[f0 f1] f2] f3].
    split; [|done]. repeat constructor; apply to_u64_nonneg. }
  unfold key_lt, ord_hash_cmp. pose proof (lex_cmp_zeros _ Hnn) as Hz. rewrite Hlen in Hz.
  rewrite default_sort_key. change (replicate 4 0) with [0; 0; 0; 0] in Hz.
  destruct (lex_cmp _ _) eqn:E; [|done|done].
  apply lex_cmp_eq in E. rewrite <- default_sort_key in E. by apply sort_key_inj in E as <-.
Qed.

(** [last_below] finds the largest key below the target. *)
Lemma last_below_spec (m : gmap Hash Z) t :
  match last_below m t with
  | Some (k, i) => m !! k = Some i ∧ key_lt k t ∧
      ∀ k', is_Some (m !! k') → key_lt k' t → k' = k ∨ key_lt k' k
  | None => ∀ k', is_Some (m !! k') → ¬ key_lt k' t
  end.
Proof.
  unfold last_below. revert m. apply (map_fold_weak_ind (λ r m, match r with
    | Some (k, i) => m !! k = Some i ∧ key_lt k t ∧
        ∀ k', is_Some (m !! k') → key_lt k' t → k' = k ∨ key_lt k' k
    | None => ∀ k', is_Some (m !! k') → ¬ key_lt k' t end)).
  { intros k'. rewrite lookup_empty. by intros []. }
  intros k i m r Hk IH.
  assert (∀ k', is_Some (<[k:=i]> m !! k') → k' = k ∨ is_Some (m !! k')) as Hin.
  { intros k'. destruct (decide (k' = k)) as [->|]; [by left|]. rewrite lookup_insert_ne by done. by right. }
  destruct (key_ltb_spec k t) as [Hlt|Hge].
  - destruct r as [[k1 i1]|].
    + destruct IH as (Hk1 & Hlt1 & Hmax). assert (k1 ≠ k) by congruence.
      destruct (key_ltb_spec k1 k) as [Hk1k|Hk1k].
      * rewrite lookup_insert_eq. split_and!; [done|done|]. intros k' [->|Hs]%Hin Hk'; [by left|].
        right. destruct (Hmax k' Hs Hk') as [->|?]; [done|]. by apply (key_lt_trans _ k1).
      * rewrite lookup_insert_ne by done. split_and!; [done|done|].
        intros k' [->|Hs]%Hin Hk'; [|by apply Hmax]. right. destruct (key_trichotomy k k1) as [?|[?|?]]; naive_solver.
    + rewrite lookup_insert_eq. split_and!; [done|done|]. intros k' [->|Hs]%Hin Hk'; [by left|]. by destruct (IH k').
  - destruct r as [[k1 i1]|].
    + destruct IH as (Hk1 & Hlt1 & Hmax). rewrite lookup_insert_ne by congruence.
      split_and!; [done|done|]. intros k' [->|Hs]%Hin Hk'; [done|]. by apply Hmax.
    + intros k' [->|Hs]%Hin; [done|]. by apply IH.
Qed.
End order.

(** ** The invariant: a sorted linked list over the leaves of the tree *)
Section invariant.
Context `{EqDecision F, Countable Hash, !FieldHash F Hash, !FieldHashLaws F Hash,
  !MerkleHasher Hash, !ZeroableHash Hash, !MerkleZeroHasher Hash}.
Abbreviation imt := (IndexedMerkleTree F Hash).
Abbreviation preimage := (IMTLeafPreimage F Hash).
Implicit Types (self : imt) (k : Hash) (m : gmap Hash Z) (p q : preimage).

(** The hash of a leaf position; positions not yet appended hold the zero hash. *)
Definition leaf_hash self (i : Z) : Hash :=
  match leaves self !! i with Some p => compute_hash p | None => get_zero_value end.

(** A leaf points to the next larger key, or ends the list. *)
Definition linked m p : Prop :=
  (next_key p = hash_default ∧ next_index p = felt_default ∧
   ∀ k, is_Some (m !! k) → ¬ key_lt (key p) k) ∨
  (∃ j, m !! next_key p = Some j ∧ next_index p = from_u64_value j ∧ key_lt (key p) (next_key p) ∧
   ∀ k, is_Some (m !! k) → key_lt (key p) k → ¬ key_lt k (next_key p)).

Record imt_inv self : Prop := {
  inv_tree : rep (tree self) (leaf_hash self);
  inv_next : 0 < next_append_index self ≤ 2 ^ height (tree self);
  inv_dom : ∀ i, is_Some (leaves self !! i) ↔ 0 ≤ i < next_append_index self;
  inv_index : ∀ k i, key_index self !! k = Some i ↔ ∃ p, leaves self !! i = Some p ∧ key p = k;
  inv_default : is_Some (key_index self !! hash_default);
  inv_linked : ∀ i p, leaves self !! i = Some p → linked (key_index self) p;
}.

(** The specification: a finite map from keys to values. *)
Definition contents self : gmap Hash Hash :=
  omap (λ i, value <$> leaves self !! i) (key_index self).

Definition root_of self : Hash :=
  tree_node (leaf_hash self) (Z.to_nat (height (tree self))) 0.

Lemma get_root_inv self : imt_inv self → get_root self = Ok (root_of self).
Proof. intros Hinv. apply get_root_rep, Hinv. Qed.

Lemma inv_lookup self i p :
  imt_inv self → leaves self !! i = Some p → key_index self !! key p = Some i.
Proof. intros Hinv Hp. apply (inv_index self Hinv). eauto. Qed.

Lemma inv_key self k i :
  imt_inv self → key_index self !! k = Some i → ∃ p, leaves self !! i = Some p ∧ key p = k.
Proof. intros Hinv Hk. by apply (inv_index self Hinv). Qed.

Lemma inv_range self i p :
  imt_inv self → leaves self !! i = Some p → 0 ≤ i < next_append_index self.
Proof. intros Hinv Hp. apply (inv_dom self Hinv). eauto. Qed.

Lemma inv_index_in self i p :
  imt_inv self → leaves self !! i = Some p → index_in (tree self) i.
Proof.
  intros Hinv Hp. pose proof (inv_range self i p Hinv Hp). pose proof (inv_next self Hinv).
  unfold index_in. lia.
Qed.

Lemma contents_lookup self k :
  imt_inv self →
  contents self !! k = match key_index self !! k with
                       | Some i => value <$> leaves self !! i
                       | None => None
                       end.
Proof. intros _. unfold contents. rewrite lookup_omap. by destruct (key_index self !! k). Qed.

Lemma contents_None self k : imt_inv self → contents self !! k = None ↔ key_index self !! k = None.
Proof.
  intros Hinv. rewrite contents_lookup by done. destruct (key_index self !! k) as [i|] eqn:E; [|done].
  destruct (inv_key self k i Hinv E) as (p & -> & _). done.
Qed.

(** *** The list after an insertion behind [p] *)
Section insertion.
Context m (k : Hash) (i : Z) p (Hk : m !! k = None) (Hlt : key_lt (key p) k)
  (Hpm : is_Some (m !! key p)) (Hlink : linked m p)
  (Hmax : ∀ k', is_Some (m !! k') → key_lt k' k → k' = key p ∨ key_lt k' (key p)).

Lemma lookup_insert_cases k' : is_Some (<[k:=i]> m !! k') → k' = k ∨ is_Some (m !! k').
Proof.
  destruct (decide (k' = k)) as [->|]; [by left|]. rewrite lookup_insert_ne by done. by right.
Qed.

Lemma linked_pred v : linked (<[k:=i]> m) (mkLeaf (key p) v k (from_u64_value i)).
Proof.
  right. exists i. cbn. rewrite lookup_insert_eq. split_and!; [done|done|done|].
  intros k' [->|Hs]%lookup_insert_cases Hp Hk'; [by eapply key_lt_irrefl|].
  destruct (Hmax k' Hs Hk') as [->|?]; [by eapply key_lt_irrefl|by eapply key_lt_asym].
Qed.

Lemma linked_new v : linked (<[k:=i]> m) (mkLeaf k v (next_key p) (next_index p)).
Proof.
  destruct Hlink as [(Hn & Hi & Hend)|(j & Hj & Hi & Hlt' & Hb)].
  - left. cbn. split_and!; [done|done|]. intros k' [->|Hs]%lookup_insert_cases; [apply key_lt_irrefl|].
    intros ?. apply (Hend k' Hs). by apply (key_lt_trans _ k).
  - assert (key_lt k (next_key p)) as Hkn.
    { destruct (key_trichotomy (next_key p) k) as [?|[?|?]]; [|congruence|done].
      destruct (Hmax (next_key p)) as [He|?]; [eauto|done| |by destruct (key_lt_asym _ _ Hlt')].
      rewrite He in Hlt'. by destruct (key_lt_irrefl _ Hlt'). }
    right. exists j. cbn. rewrite lookup_insert_ne by congruence. split_and!; [done|done|done|].
    intros k' [->|Hs]%lookup_insert_cases ?; [by destruct (key_lt_irrefl k)|].
    apply (Hb k' Hs). by apply (key_lt_trans _ k).
Qed.

Lemma linked_other q :
  linked m q → is_Some (m !! key q) → key q ≠ key p → linked (<[k:=i]> m) q.
Proof.
  intros Hq Hqm Hne. assert (∀ b, key_lt (key q) k → (∀ k', is_Some (m !! k') →
    key_lt (key q) k' → ¬ b k') → b (key p) → False) as Hnot.
  { intros b Hqk Hb Hbp. apply (Hb (key p)); [done| |done].
    destruct (Hmax (key q) Hqm Hqk); done. }
  destruct Hq as [(Hn & Hi & Hend)|(j & Hj & Hi & Hlt' & Hb)].
  - left. split_and!; [done|done|]. intros k' [->|Hs]%lookup_insert_cases; [|by apply Hend].
    intros Hqk. apply (Hnot (λ _, True) Hqk); [|done]. intros k' Hs Hk'. by destruct (Hend k' Hs).
  - right. exists j. rewrite lookup_insert_ne by congruence. split_and!; [done|done|done|].
    intros k' [->|Hs]%lookup_insert_cases; [|by apply Hb].
    intros Hqk Hkn. apply (Hnot (λ k', key_lt k' (next_key q)) Hqk); [done|]. by apply (key_lt_trans _ k).
Qed.
End insertion.
End invariant.

(** ** The operations *)
Section operations.
Context `{EqDecision F, Countable Hash, !FieldHash F Hash, !FieldHashLaws F Hash,
  !MerkleHasher Hash, !ZeroableHash Hash, !MerkleZeroHasher Hash}.
Abbreviation imt := (IndexedMerkleTree F Hash).
Abbreviation preimage := (IMTLeafPreimage F Hash).
Abbreviation store := (SimpleMemoryMerkleStoreV3 Hash).
Implicit Types (self : imt) (k v : Hash) (m : gmap Hash Z) (p q : preimage) (t : store).

(** *** Paths *)
Fixpoint path_keys (n : nat) (k : SimpleMerkleNodeKey) : list SimpleMerkleNodeKey :=
  match n with O => [] | S n => parent k :: path_keys n (parent k) end.

Definition path_of t (i : Z) : list SimpleMerkleNodeKey :=
  mkKey (height t) i :: path_keys (Z.to_nat (height t)) (mkKey (height t) i).

Definition node_at t (k : SimpleMerkleNodeKey) : SimpleMerkleNode Hash := mkNode k (nv t k).

Lemma path_nodes_loop_ok t n : store_ok t → ∀ fuel (k : SimpleMerkleNodeKey),
  key_in t k → level k = Z.of_nat n → (n ≤ fuel)%nat →
  path_nodes_loop fuel t k = Ok (node_at t <$> path_keys n k).
Proof.
  intros Hok. induction n as [|n IH]; intros fuel k Hk Hl Hf.
  { destruct fuel; simpl; by rewrite (proj2 (Z.ltb_ge _ _)) by lia. }
  destruct fuel as [|fuel]; [lia|]. cbn [path_nodes_loop path_keys].
  rewrite (proj2 (Z.ltb_lt _ _)) by lia. pose proof (key_in_parent t k Hk ltac:(lia)) as Hp.
  rewrite get_node_value_ok by (done || destruct Hp as [[]]; lia). cbn [outcome_bind].
  rewrite IH; [done|done|rewrite level_parent; lia|lia].
Qed.

Lemma elem_of_path_keys n : ∀ (k x : SimpleMerkleNodeKey),
  level k = Z.of_nat n → ancestor x k → 0 ≤ level x < level k → x ∈ path_keys n k.
Proof.
  induction n as [|n IH]; intros k x Hl Ha Hx; [lia|]. cbn [path_keys].
  pose proof (level_parent k ltac:(lia)) as Hlp. apply elem_of_cons.
  pose proof (ancestor_of_parent x k Hx Ha) as Hap.
  destruct (decide (level x = level (parent k))) as [He|Hne].
  - left. by apply ancestor_same_level.
  - right. apply IH; [lia|done|lia].
Qed.

Lemma elem_of_path_of t i x :
  store_ok t → 0 ≤ level x → ancestor x (mkKey (height t) i) → x ∈ path_of t i.
Proof.
  intros [Hh _] Hx Ha. apply elem_of_cons.
  destruct (decide (level x = height t)) as [He|Hne].
  - left. by apply ancestor_same_level.
  - right. pose proof Ha as [Hl _]. simpl in Hl. apply elem_of_path_keys; simpl; [lia|done|lia].
Qed.

Lemma collect_path_nodes_ok self i ns :
  store_ok (tree self) → index_in (tree self) i →
  collect_path_nodes self i ns = Ok (ns ++ (node_at (tree self) <$> path_of (tree self) i)).
Proof.
  intros Hok Hi. pose proof Hok as [Hh _]. unfold collect_path_nodes, get_height, MemTree.get_height.
  pose proof (key_in_leaf _ i Hok Hi) as Hin.
  rewrite get_node_value_ok by (done || simpl; lia). cbn [outcome_bind].
  rewrite (path_nodes_loop_ok _ (Z.to_nat (height (tree self)))) by (done || simpl; lia).
  done.
Qed.

(** *** One leaf write and its delta proof *)
Lemma set_leaf_delta t leaf i v :
  rep t leaf → index_in t i →
  let h := Z.to_nat (height t) in
  ∃ d t', set_leaf t i v = Ok (d, t') ∧ rep t' (MerkleProof.update leaf i v) ∧ height t' = height t ∧
    verify_delta d = true ∧ dmp_index d = i ∧ old_value d = leaf i ∧ new_value d = v ∧
    old_root d = tree_node leaf h 0 ∧ new_root d = tree_node (MerkleProof.update leaf i v) h 0.
Proof.
  intros Hrep Hi h. destruct (set_leaf_rep leaf t i v Hrep Hi) as (t' & Ht & Hr & Hh').
  pose proof Hrep as [[Hh _] _].
  assert (0 ≤ i < 2 ^ Z.of_nat h) as Hi' by (unfold h; rewrite Z2Nat.id by lia; exact Hi).
  eexists _, t'. split; [exact Ht|]. split_and!; try done.
  - apply from_params_verifies. rewrite length_tree_siblings. lia.
  - apply compute_root_tree; [lia|done].
  - apply compute_root_update; [lia|done].
Qed.

(** A node off the path of a written leaf keeps its hash. *)
Lemma nv_off_path t t' leaf i v x :
  rep t leaf → rep t' (MerkleProof.update leaf i v) → height t' = height t →
  key_in t x → x ∉ path_of t i → nv t' x = nv t x.
Proof.
  intros [Hok Hr] [Hok' Hr'] Hh Hx Hp. pose proof (Hr x Hx) as Hc.
  pose proof (Hr' x) as Hc'. unfold key_in in Hc'. rewrite Hh in Hc'. specialize (Hc' Hx).
  unfold correct in Hc, Hc'. rewrite Hc, Hc', Hh. apply spec_node_update; [done|].
  intros Ha. apply Hp, elem_of_path_of; [done| |done]. destruct Hx as [[? _] _]. lia.
Qed.

Lemma get_max_leaf_index_ok t : store_ok t → get_max_leaf_index t = 2 ^ height t - 1.
Proof.
  intros [Hh _]. unfold get_max_leaf_index. rewrite u64_pow2 by lia. apply wrap_small.
  pose proof (pow2_pos_Z (height t) ltac:(lia)).
  pose proof (Z.pow_le_mono_r 2 (height t) 63 ltac:(lia) ltac:(lia)). lia.
Qed.

(** *** [new] *)
Lemma new_inv h :
  0 ≤ h ≤ 63 →
  ∃ self, new h = Ok self ∧ imt_inv self ∧ height (tree self) = h ∧
    leaves self = {[0 := leaf_default]} ∧
    key_index self = {[hash_default := 0]} ∧ next_append_index self = 1.
Proof.
  intros Hh. pose proof (pow2_pos_Z h ltac:(lia)). unfold new.
  destruct (set_leaf_no_proof_rep (λ _, get_zero_value) (MemTree.new h) 0 (compute_hash leaf_default))
    as (t & -> & Hrep & Ht); [by apply rep_new|split; simpl; lia|]. cbn [outcome_bind].
  eexists. split; [done|]. split; [|by split_and!]. split; cbn.
  - revert Hrep. apply rep_ext. intros j. unfold leaf_hash, MerkleProof.update; cbn.
    destruct (Z.eqb_spec j 0) as [->|]; [by rewrite lookup_singleton_eq|by rewrite lookup_singleton_ne].
  - rewrite Ht. cbn. lia.
  - intros i. rewrite lookup_singleton_is_Some. lia.
  - intros k i. rewrite lookup_singleton_Some. split.
    + intros [<- <-]. eexists. by rewrite lookup_singleton_eq.
    + intros (p & [<- <-]%lookup_singleton_Some & <-). done.
  - rewrite lookup_singleton_eq. eauto.
  - intros i p [<- <-]%lookup_singleton_Some. left. cbn. split_and!; [done|done|].
    intros k <-%lookup_singleton_is_Some. apply key_lt_irrefl.
Qed.

(** *** [find_predecessor] *)
Lemma find_predecessor_ok self k :
  imt_inv self → k ≠ hash_default →
  ∃ i p, find_predecessor self k = Ok (i, p) ∧ leaves self !! i = Some p ∧ key_lt (key p) k ∧
    ∀ k', is_Some (key_index self !! k') → key_lt k' k → k' = key p ∨ key_lt k' (key p).
Proof.
  intros Hinv Hne. unfold find_predecessor. pose proof (last_below_spec (key_index self) k) as Hs.
  destruct (last_below _ k) as [[k1 i1]|].
  - destruct Hs as (Hk1 & Hlt & Hmax). destruct (inv_key self k1 i1 Hinv Hk1) as (p & Hp & <-).
    exists i1, p. by rewrite Hp.
  - destruct (Hs _ (inv_default self Hinv)). by apply default_least.
Qed.

Lemma fresh_not_default self k : imt_inv self → key_index self !! k = None → k ≠ hash_default.
Proof. intros Hinv Hk ->. destruct (inv_default self Hinv). congruence. Qed.

(** *** [insert] *)
Definition inserted self k v (i : Z) p t : imt :=
  let n := next_append_index self in
  mkIMT t
    (<[n := mkLeaf k v (next_key p) (next_index p)]>
       (<[i := mkLeaf (key p) (value p) k (from_u64_value n)]> (leaves self)))
    (<[k := n]> (key_index self)) (n + 1).

Section inserted.
Context self k v (i : Z) p t (Hinv : imt_inv self) (Hk : key_index self !! k = None)
  (Hp : leaves self !! i = Some p) (Hlt : key_lt (key p) k)
  (Hmax : ∀ k', is_Some (key_index self !! k') → key_lt k' k → k' = key p ∨ key_lt k' (key p)).
Let n := next_append_index self.
Let self' := inserted self k v i p t.

Lemma inserted_fresh : leaves self !! n = None.
Proof.
  destruct (leaves self !! n) as [q|] eqn:E; [|done].
  pose proof (inv_range self n q Hinv E). unfold n in *. lia.
Qed.

Lemma inserted_leaves j q :
  leaves self' !! j = Some q ↔
  (j = n ∧ q = mkLeaf k v (next_key p) (next_index p)) ∨
  (j = i ∧ q = mkLeaf (key p) (value p) k (from_u64_value n)) ∨
  (j ≠ n ∧ j ≠ i ∧ leaves self !! j = Some q).
Proof.
  pose proof inserted_fresh as Hn. cbn.
  destruct (decide (j = n)) as [->|H1]; [rewrite lookup_insert_eq; naive_solver|].
  rewrite lookup_insert_ne by done.
  destruct (decide (j = i)) as [->|H2]; [rewrite lookup_insert_eq; naive_solver|].
  rewrite lookup_insert_ne by done. naive_solver.
Qed.

Lemma inserted_leaf_hash :
  let lp := mkLeaf (key p) (value p) k (from_u64_value n) in
  let ln := mkLeaf k v (next_key p) (next_index p) in
  ∀ j, MerkleProof.update (MerkleProof.update (leaf_hash self) i (compute_hash lp)) n (compute_hash ln) j =
       leaf_hash self' j.
Proof.
  intros lp ln j. unfold leaf_hash, MerkleProof.update; cbn.
  destruct (Z.eqb_spec j n) as [->|]; [by rewrite lookup_insert_eq|]. rewrite lookup_insert_ne by done.
  destruct (Z.eqb_spec j i) as [->|]; [by rewrite lookup_insert_eq|]. by rewrite lookup_insert_ne.
Qed.

Lemma inserted_key_unique j q : j ≠ i → leaves self !! j = Some q → key q ≠ key p.
Proof.
  intros Hji Hq He. pose proof (inv_lookup self j q Hinv Hq) as H1.
  pose proof (inv_lookup self i p Hinv Hp). congruence.
Qed.

Lemma inserted_index k' j :
  key_index self' !! k' = Some j ↔ ∃ q, leaves self' !! j = Some q ∧ key q = k'.
Proof.
  pose proof inserted_fresh as Hf. pose proof (inv_lookup self i p Hinv Hp) as Hpk.
  assert (k ≠ key p) by congruence. cbn [inserted self' key_index]. fold n. split.
  - destruct (decide (k' = k)) as [->|Hne].
    + rewrite lookup_insert_eq. intros [= <-]. eexists. rewrite inserted_leaves. by split; [left|].
    + rewrite lookup_insert_ne by done. intros Hj. destruct (inv_key self k' j Hinv Hj) as (q & Hq & <-).
      assert (j ≠ n) by congruence. destruct (decide (j = i)) as [->|Hji].
      * eexists. rewrite inserted_leaves. split; [by right; left|]. cbn. congruence.
      * exists q. rewrite inserted_leaves. split; [by right; right|done].
  - intros (q & [[-> ->]|[[-> ->]|(Hjn & Hji & Hq)]]%inserted_leaves & <-); cbn.
    + by rewrite lookup_insert_eq.
    + by rewrite lookup_insert_ne by done.
    + pose proof (inv_lookup self j q Hinv Hq). rewrite lookup_insert_ne by congruence. done.
Qed.

Lemma inserted_inv :
  rep t (leaf_hash self') → height t = height (tree self) → n < 2 ^ height (tree self) → imt_inv self'.
Proof.
  intros Hrep Ht Hn. pose proof (inv_next self Hinv) as Hnext. pose proof inserted_fresh as Hf.
  pose proof (inv_range self i p Hinv Hp) as Hir.
  split.
  - exact Hrep.
  - cbn. rewrite Ht. fold n in Hnext |- *. lia.
  - intros j. cbn. fold n. rewrite !lookup_insert_is_Some', (inv_dom self Hinv). fold n.
    fold n in Hir. lia.
  - apply inserted_index.
  - cbn. apply lookup_insert_is_Some'. right. apply (inv_default self Hinv).
  - assert (is_Some (key_index self !! key p)) as Hps by (rewrite (inv_lookup self i p); eauto).
    pose proof (inv_linked self Hinv i p Hp) as Hl.
    intros j q [[-> ->]|[[-> ->]|(Hjn & Hji & Hq)]]%inserted_leaves; cbn; fold n.
    + by apply linked_new.
    + by apply (linked_pred (key_index self) k n p).
    + apply (linked_other (key_index self) k n p); try done.
      * by apply (inv_linked self Hinv j).
      * rewrite (inv_lookup self j q); eauto.
      * by apply (inserted_key_unique j).
Qed.

Lemma inserted_contents :
  imt_inv self' → contents self' = <[k := v]> (contents self).
Proof.
  intros Hinv'. apply map_eq. intros k'. rewrite contents_lookup by done.
  destruct (decide (k' = k)) as [->|Hne].
  - cbn. fold n. by rewrite !lookup_insert_eq.
  - rewrite lookup_insert_ne by done. rewrite contents_lookup by done.
    cbn [inserted self' key_index]. rewrite lookup_insert_ne by done.
    destruct (key_index self !! k') as [j|] eqn:E; [|done].
    destruct (inv_key self k' j Hinv E) as (q & Hq & <-). pose proof inserted_fresh.
    cbn [leaves self' inserted]. fold n. rewrite lookup_insert_ne by congruence.
    destruct (decide (j = i)) as [->|]; [rewrite lookup_insert_eq|by rewrite lookup_insert_ne].
    rewrite Hq. cbn. congruence.
Qed.
End inserted.

(** The reported nodes carry the new hashes, and every other node is unchanged. *)
Definition reports t t' (ns : list (SimpleMerkleNode Hash)) : Prop :=
  (∀ n, n ∈ ns → node_value n = nv t' (node_key n)) ∧
  (∀ x, key_in t x → x ∉ node_key <$> ns → nv t' x = nv t x).

Lemma node_key_node_at t (l : list SimpleMerkleNodeKey) : node_key <$> (node_at t <$> l) = l.
Proof. rewrite <- list_fmap_compose. rewrite <- (list_fmap_id l) at 2. by apply list_fmap_ext. Qed.

Lemma node_at_correct t (l : list SimpleMerkleNodeKey) n : n ∈ node_at t <$> l → node_value n = nv t (node_key n).
Proof. by intros (x & -> & _)%list_elem_of_fmap. Qed.

Lemma reports_two t t1 t2 leaf i v n w :
  rep t leaf → rep t1 (MerkleProof.update leaf i v) →
  rep t2 (MerkleProof.update (MerkleProof.update leaf i v) n w) →
  height t1 = height t → height t2 = height t1 →
  reports t t2 ((node_at t2 <$> path_of t2 i) ++ (node_at t2 <$> path_of t2 n)).
Proof.
  intros Hrep Hrep1 Hrep2 Ht1 Ht2. split.
  - intros x. rewrite elem_of_app. intros [?|?]; by eapply node_at_correct.
  - intros x Hx. rewrite fmap_app, !node_key_node_at, not_elem_of_app. intros [Hx1 Hx2].
    unfold path_of in Hx1, Hx2. rewrite Ht2, Ht1 in Hx1, Hx2. transitivity (nv t1 x).
    + eapply nv_off_path; [exact Hrep1|exact Hrep2|done|..]; unfold key_in, path_of; by rewrite Ht1.
    + by eapply nv_off_path.
Qed.

Lemma reports_one t t' leaf i v :
  rep t leaf → rep t' (MerkleProof.update leaf i v) → height t' = height t →
  reports t t' (node_at t' <$> path_of t' i).
Proof.
  intros Hrep Hrep' Ht. split; [intros n; apply node_at_correct|].
  intros x Hx. rewrite node_key_node_at. unfold path_of. rewrite Ht. by eapply nv_off_path.
Qed.

Definition step_proof (d : DeltaMerkleProofCore Hash) (r r' : Hash) : Prop :=
  verify_delta d = true ∧ old_root d = r ∧ new_root d = r'.

Lemma insert_ok self k v :
  imt_inv self → key_index self !! k = None → next_append_index self < 2 ^ height (tree self) →
  ∃ r self', insert self k v = Ok (r, self') ∧ imt_inv self' ∧
    contents self' = <[k := v]> (contents self) ∧
    height (tree self') = height (tree self) ∧
    next_append_index self' = next_append_index self + 1 ∧
    step_proof (predecessor_proof r) (root_of self) (new_root (predecessor_proof r)) ∧
    step_proof (new_leaf_proof r) (new_root (predecessor_proof r)) (root_of self') ∧
    leaves self' !! new_leaf_index r = Some (new_leaf r) ∧ key (new_leaf r) = k ∧
    leaves self' !! predecessor_index r = Some (updated_predecessor r) ∧
    reports (tree self) (tree self') (ins_modified_nodes r).
Proof.
  intros Hinv Hk Hn. pose proof (inv_tree self Hinv) as Hrep. pose proof Hrep as [Hok _].
  pose proof (inv_next self Hinv) as Hnext. pose proof Hok as [Hh _].
  pose proof (Z.pow_le_mono_r 2 (height (tree self)) 63 ltac:(lia) ltac:(lia)) as H63.
  destruct (find_predecessor_ok self k Hinv (fresh_not_default self k Hinv Hk))
    as (i & p & Hfind & Hp & Hlt & Hmax).
  unfold insert. rewrite Hk, get_max_leaf_index_ok by done.
  assert ((next_append_index self >? 2 ^ height (tree self) - 1) = false) as -> by lia.
  rewrite Hfind. cbn [outcome_bind]. set (n := next_append_index self) in *.
  set (lp := mkLeaf (key p) (value p) k (from_u64_value n)).
  set (ln := mkLeaf k v (next_key p) (next_index p)).
  pose proof (inv_index_in self i p Hinv Hp) as Hi.
  destruct (set_leaf_delta (tree self) (leaf_hash self) i (compute_hash lp) Hrep Hi)
    as (d1 & t1 & -> & Hrep1 & Ht1 & Hv1 & Hd1 & Ho1 & Hn1 & Hr1 & Hr1').
  cbn [outcome_bind].
  assert (index_in t1 n) as Hni by (unfold index_in; rewrite Ht1; lia).
  destruct (set_leaf_delta t1 _ n (compute_hash ln) Hrep1 Hni)
    as (d2 & t2 & -> & Hrep2 & Ht2 & Hv2 & Hd2 & Ho2 & Hn2 & Hr2 & Hr2').
  cbn [outcome_bind]. pose proof Hrep2 as [Hok2 _].
  assert (index_in t2 i) as Hi2 by (unfold index_in in *; rewrite Ht2, Ht1; lia).
  assert (index_in t2 n) as Hn2i by (unfold index_in in *; rewrite Ht2, Ht1; lia).
  rewrite collect_path_nodes_ok by done. cbn [outcome_bind].
  rewrite collect_path_nodes_ok by done. cbn [outcome_bind with_tree tree leaves key_index app].
  rewrite wrap_small by lia.
  pose proof (inserted_leaf_hash self k v i p t2) as Hlh. fold n lp ln in Hlh.
  pose proof (rep_ext _ _ _ Hlh Hrep2) as Hrep'.
  assert (imt_inv (inserted self k v i p t2)) as Hinv'
    by (apply inserted_inv; [done..|by rewrite Ht2, Ht1|done]).
  eexists _, (inserted self k v i p t2). split; [reflexivity|].
  split_and!; [done|by apply inserted_contents|cbn; congruence|done|by split_and!|split_and!; [done| |]| |done| |];
    cbn [predecessor_proof new_leaf_proof new_leaf updated_predecessor new_leaf_index
      predecessor_index ins_modified_nodes].
  - rewrite Hr2, Ht1. congruence.
  - rewrite Hr2'. unfold root_of. cbn [tree inserted]. rewrite Ht2, Ht1.
    apply tree_node_ext. intros j _. apply Hlh.
  - apply inserted_leaves; [..|by left]; done.
  - apply inserted_leaves; [..|by right; left]; done.
  - by eapply reports_two.
Qed.
(** *** [update] *)
Lemma update_ok self k v i :
  imt_inv self → key_index self !! k = Some i →
  ∃ r self', update self k v = Ok (r, self') ∧ imt_inv self' ∧
    contents self' = <[k := v]> (contents self) ∧
    height (tree self') = height (tree self) ∧
    next_append_index self' = next_append_index self ∧
    step_proof (leaf_proof r) (root_of self) (root_of self') ∧ leaf_index r = i ∧
    leaves self' !! i = Some (updated_leaf r) ∧
    reports (tree self) (tree self') (upd_modified_nodes r).
Proof.
  intros Hinv Hk. destruct (inv_key self k i Hinv Hk) as (p & Hp & <-).
  pose proof (inv_tree self Hinv) as Hrep. unfold update. rewrite Hk, Hp.
  set (lp := mkLeaf (key p) v (next_key p) (next_index p)).
  pose proof (inv_index_in self i p Hinv Hp) as Hi.
  destruct (set_leaf_delta (tree self) (leaf_hash self) i (compute_hash lp) Hrep Hi)
    as (d & t & -> & Hrep1 & Ht & Hv & Hd & Ho & Hn & Hr & Hr').
  cbn [outcome_bind]. pose proof Hrep1 as [Hok1 _].
  rewrite collect_path_nodes_ok; [|done|unfold index_in in *; cbn; by rewrite Ht].
  cbn [outcome_bind with_tree tree leaves key_index app next_append_index].
  set (self' := mkIMT _ _ _ _).
  assert (∀ j, MerkleProof.update (leaf_hash self) i (compute_hash lp) j = leaf_hash self' j) as Hlh.
  { intros j. unfold leaf_hash, MerkleProof.update; cbn.
    destruct (Z.eqb_spec j i) as [->|]; [by rewrite lookup_insert_eq|by rewrite lookup_insert_ne]. }
  assert (∀ j, leaves self' !! j = if decide (j = i) then Some lp else leaves self !! j) as Hl.
  { intros j. cbn. destruct (decide (j = i)) as [->|]; [by rewrite lookup_insert_eq|by rewrite lookup_insert_ne]. }
  assert (imt_inv self') as Hinv'.
  { split; cbn [self' tree key_index next_append_index].
    - exact (rep_ext _ _ _ Hlh Hrep1).
    - rewrite Ht. apply (inv_next self Hinv).
    - intros j. rewrite Hl. rewrite <- (inv_dom self Hinv j).
      destruct (decide (j = i)) as [->|]; [|done]. rewrite Hp. split; eauto.
    - intros k j. rewrite (inv_index self Hinv k j). setoid_rewrite Hl.
      destruct (decide (j = i)) as [->|]; [|done]. rewrite Hp. naive_solver.
    - apply (inv_default self Hinv).
    - intros j q. rewrite Hl. destruct (decide (j = i)) as [->|]; [|apply (inv_linked self Hinv)].
      intros [= <-]. exact (inv_linked self Hinv i p Hp). }
  eexists _, self'. split; [reflexivity|].
  split_and!; [done| |done|done|split_and!; [done|done|]|done| |by eapply reports_one].
  - apply map_eq. intros k. rewrite contents_lookup by done. cbn [self' key_index].
    destruct (decide (k = key p)) as [->|Hne].
    + rewrite Hk, Hl, decide_True, lookup_insert_eq by done. done.
    + rewrite lookup_insert_ne, contents_lookup by done.
      destruct (key_index self !! k) as [j|] eqn:E; [|done]. rewrite Hl, decide_False; [done|].
      intros ->. destruct (inv_key self k i Hinv E) as (q & Hq & <-). congruence.
  - cbn [leaf_proof]. rewrite Hr'. unfold root_of. cbn [self' tree]. rewrite Ht.
    apply tree_node_ext. intros j _. apply Hlh.
  - rewrite Hl. by rewrite decide_True.
Qed.
End operations.

(** ** Concrete felts, for evaluation *)
#[global] Instance felts4_laws : FieldHashLaws N felts4.
Proof.
  split.
  - intros [[[a0 a1] a2] a3] [[[b0 b1] b2] b3]. unfold to_sort_key; cbn. intros [=]. repeat f_equal; lia.
  - intros f. cbn. lia.
  - done.
  - intros i Hi. cbn. lia.
Qed.

#[global] Instance felts4_zero : ZeroableHash felts4 := (0, 0, 0, 0)%N.
#[global] Instance felts4_zero_cache : MerkleZeroHasherWithCache felts4 := {
  CACHED_ZERO_HASHES := generate_zero_hashes;
  CACHED_ZERO_HASHES_generated := eq_refl;
}.

Definition fkey (n : N) : felts4 := (n, 0, 0, 0)%N.

(** C2: insertion. From a tree whose leaves form a sorted linked list,
    [insert] fails exactly when the key is present or the tree is full.
    Otherwise it keeps the invariant, adds exactly that key to the contents,
    returns two delta proofs that verify and chain from the old root over the
    predecessor update to the new root, and reports every changed node. *)
Theorem imt_insert_correct `{EqDecision F, Countable Hash, !FieldHash F Hash, !FieldHashLaws F Hash,
    !MerkleHasher Hash, !ZeroableHash Hash, !MerkleZeroHasher Hash}
    (self : IndexedMerkleTree F Hash) (k v : Hash) :
  imt_inv self →
  (is_Some (contents self !! k) → insert self k v = Err "Key already exists in IMT") ∧
  (contents self !! k = None → next_append_index self = 2 ^ height (tree self) →
     insert self k v = Err "IMT is full") ∧
  (contents self !! k = None → next_append_index self < 2 ^ height (tree self) →
   ∃ r self', insert self k v = Ok (r, self') ∧ imt_inv self' ∧
     contents self' = <[k := v]> (contents self) ∧
     step_proof (predecessor_proof r) (root_of self) (new_root (predecessor_proof r)) ∧
     step_proof (new_leaf_proof r) (new_root (predecessor_proof r)) (root_of self') ∧
     leaves self' !! new_leaf_index r = Some (new_leaf r) ∧ key (new_leaf r) = k ∧
     leaves self' !! predecessor_index r = Some (updated_predecessor r) ∧
     reports (tree self) (tree self') (ins_modified_nodes r)).
Proof.
  intros Hinv. pose proof (contents_None self k Hinv) as Hc. split_and!.
  - intros [w Hw]. unfold insert. destruct (key_index self !! k) eqn:E; [done|]. naive_solver.
  - intros Hk%Hc Hn. unfold insert. rewrite Hk, get_max_leaf_index_ok by apply (inv_tree self Hinv).
    assert ((next_append_index self >? 2 ^ height (tree self) - 1) = true) as -> by lia. done.
  - intros Hk%Hc Hn. destruct (insert_ok self k v Hinv Hk Hn) as (r & self' & ? & ? & ? & _ & _ & ?).
    by exists r, self'.
Qed.

Lemma imt_insert_correct_witness :
  ∃ t r t', new (Hash := felts4) (F := N) 2 = Ok t ∧ insert t (fkey 5) (fkey 9) = Ok (r, t') ∧ imt_inv t' ∧
    contents t' = {[ fkey 0 := fkey 0; fkey 5 := fkey 9 ]}.
Proof.
  destruct (new_inv (F := N) (Hash := felts4) 2 ltac:(lia)) as (t & Ht & Hinv & Hh & Hl & Hk & Hn).
  destruct (imt_insert_correct t (fkey 5) (fkey 9) Hinv) as (_ & _ & Hins).
  assert (contents t = {[fkey 0 := fkey 0]}) as Hc.
  { unfold contents. rewrite Hl, Hk. apply map_eq. intros k. vm_compute. reflexivity. }
  destruct Hins as (r & t' & Hr & Hinv' & Hc' & _).
  - rewrite Hc. reflexivity.
  - rewrite Hn, Hh. reflexivity.
  - exists t, r, t'. split; [exact Ht|]. split; [exact Hr|]. split; [exact Hinv'|].
    rewrite Hc', Hc. vm_compute. reflexivity.
Defined.

(** *** Runs of [upsert] *)
Fixpoint upserts `{EqDecision F, Countable Hash, !FieldHash F Hash, !MerkleHasher Hash,
    !ZeroableHash Hash, !MerkleZeroHasher Hash}
    (self : IndexedMerkleTree F Hash) (kvs : list (Hash * Hash)) : outcome (IndexedMerkleTree F Hash) :=
  match kvs with
  | [] => Ok self
  | (k, v) :: kvs => let* (_, self) := upsert self k v in upserts self kvs
  end.

Section runs.
Context `{EqDecision F, Countable Hash, !FieldHash F Hash, !FieldHashLaws F Hash,
  !MerkleHasher Hash, !ZeroableHash Hash, !MerkleZeroHasher Hash}.
Implicit Types (self : IndexedMerkleTree F Hash) (k v : Hash) (m : gmap Hash Hash).

Definition map_upserts m (kvs : list (Hash * Hash)) : gmap Hash Hash :=
  foldl (λ m kv, <[kv.1 := kv.2]> m) m kvs.

Lemma size_map_upserts kvs : ∀ m, (size m ≤ size (map_upserts m kvs))%nat.
Proof.
  induction kvs as [|[k v] kvs IH]; intros m; simpl; [done|].
  etransitivity; [|apply IH]. rewrite map_size_insert. destruct (m !! k); cbn; lia.
Qed.

(** The append index counts the keys. *)
Definition counted self : Prop := next_append_index self = Z.of_nat (size (contents self)).

Lemma upsert_ok self k v :
  imt_inv self → counted self →
  Z.of_nat (size (<[k := v]> (contents self))) ≤ 2 ^ height (tree self) →
  ∃ r self', upsert self k v = Ok (r, self') ∧ imt_inv self' ∧ counted self' ∧
    contents self' = <[k := v]> (contents self) ∧ height (tree self') = height (tree self).
Proof.
  intros Hinv Hc Hs. unfold upsert, counted in *. pose proof (contents_None self k Hinv) as Hn.
  destruct (key_index self !! k) as [i|] eqn:E.
  - destruct (update_ok self k v i Hinv E) as (r & self' & -> & Hinv' & Hct & Hh & Hna & _).
    eexists _, self'. split; [done|]. split_and!; [done| |done|done].
    rewrite Hct, Hna, map_size_insert. destruct (contents self !! k); [done|]. discriminate (proj1 Hn eq_refl).
  - pose proof (proj2 Hn eq_refl) as Hck. rewrite map_size_insert, Hck in Hs. cbn in Hs.
    destruct (insert_ok self k v Hinv E ltac:(lia)) as (r & self' & -> & Hinv' & Hct & Hh & Hna & _).
    eexists _, self'. split; [done|]. split_and!; [done| |done|done].
    rewrite Hct, Hna, map_size_insert, Hck. cbn. lia.
Qed.

Lemma upserts_ok kvs : ∀ self,
  imt_inv self → counted self →
  Z.of_nat (size (map_upserts (contents self) kvs)) ≤ 2 ^ height (tree self) →
  ∃ self', upserts self kvs = Ok self' ∧ imt_inv self' ∧
    contents self' = map_upserts (contents self) kvs.
Proof.
  induction kvs as [|[k v] kvs IH]; intros self Hinv Hc Hs; simpl in *; [eauto|].
  pose proof (size_map_upserts kvs (<[k := v]> (contents self))).
  destruct (upsert_ok self k v Hinv Hc ltac:(lia)) as (r & self' & -> & Hinv' & Hc' & Hct & Hh).
  cbn [outcome_bind]. destruct (IH self' Hinv' Hc') as (self'' & Hr & Hinv'' & Hct'');
    [by rewrite Hct, Hh|]. exists self''. by rewrite <- Hct.
Qed.

Lemma new_contents self :
  leaves self = {[0 := leaf_default]} → key_index self = {[hash_default := 0]} →
  contents self = {[hash_default := hash_default]}.
Proof.
  intros Hl Hk. unfold contents. rewrite Hl, Hk.
  rewrite (omap_singleton_Some _ _ _ hash_default); [done|]. by rewrite lookup_singleton_eq.
Qed.
End runs.

(** C26: refinement of a finite map. A run of [upsert]s on a new tree of height
    at most 63 succeeds as long as the number of different keys, the default one
    included, is at most the number of leaves; the invariant holds at the end
    and the contents are the map obtained by the same insertions. *)
Theorem imt_upserts_refine_map `{EqDecision F, Countable Hash, !FieldHash F Hash, !FieldHashLaws F Hash,
    !MerkleHasher Hash, !ZeroableHash Hash, !MerkleZeroHasher Hash}
    (h : Z) (kvs : list (Hash * Hash)) :
  0 ≤ h ≤ 63 →
  let m := map_upserts {[hash_default := hash_default]} kvs in
  Z.of_nat (size m) ≤ 2 ^ h →
  ∃ (t t' : IndexedMerkleTree F Hash),
    new h = Ok t ∧ upserts t kvs = Ok t' ∧ imt_inv t' ∧ contents t' = m.
Proof.
  intros Hh m Hs. destruct (new_inv (F := F) h Hh) as (t & Ht & Hinv & Hth & Hl & Hk & Hn).
  pose proof (new_contents t Hl Hk) as Hc.
  destruct (upserts_ok kvs t) as (t' & Ht' & Hinv' & Hc'); [done| |by rewrite Hc, Hth|].
  - unfold counted. by rewrite Hn, Hc, map_size_singleton.
  - exists t, t'. by rewrite Hc' , Hc.
Qed.

Lemma imt_upserts_refine_map_witness :
  let kvs := [(fkey 5, fkey 1); (fkey 3, fkey 2); (fkey 5, fkey 7)] in
  ∃ (t t' : IndexedMerkleTree N felts4), new 2 = Ok t ∧ upserts t kvs = Ok t' ∧
    contents t' !! fkey 5 = Some (fkey 7) ∧ contents t' !! fkey 4 = None.
Proof.
  intros kvs. destruct (imt_upserts_refine_map (F := N) 2 kvs) as (t & t' & H1 & H2 & _ & H3).
  - lia.
  - vm_compute. discriminate.
  - exists t, t'. split; [exact H1|]. split; [exact H2|]. split; rewrite H3; reflexivity.
Defined.

(** Proofs for every key. On a tree with the invariant, a key is either
    present, and then [get_membership_proof] returns its leaf with its value and
    a verifying proof against the root while [get_non_membership_proof] fails,
    or absent, and then [get_membership_proof] returns [None] and
    [get_non_membership_proof] returns a leaf of the tree with a smaller key
    whose successor is larger than the key or missing, with a verifying proof. *)
Theorem imt_proofs_complete `{EqDecision F, Countable Hash, !FieldHash F Hash, !FieldHashLaws F Hash,
    !MerkleHasher Hash, !ZeroableHash Hash, !MerkleZeroHasher Hash}
    (self : IndexedMerkleTree F Hash) (k : Hash) :
  imt_inv self →
  match contents self !! k with
  | Some v =>
      (∃ p proof, get_membership_proof self k = Ok (Some (p, proof)) ∧ key p = k ∧ value p = v ∧
         verify proof = true ∧ root proof = root_of self ∧ MerkleProof.value proof = compute_hash p) ∧
      get_non_membership_proof self k = Err "Key exists in the IMT"
  | None =>
      get_membership_proof self k = Ok None ∧
      ∃ p proof, get_non_membership_proof self k = Ok (p, proof) ∧ key_lt (key p) k ∧
        (key_lt k (next_key p) ∨ next_key p = hash_default) ∧
        verify proof = true ∧ root proof = root_of self ∧ MerkleProof.value proof = compute_hash p
  end.
Proof.
  intros Hinv. rewrite contents_lookup by done. pose proof (inv_tree self Hinv) as Hrep.
  assert (∀ i p, leaves self !! i = Some p → ∃ proof, get_leaf (tree self) i = Ok proof ∧
    verify proof = true ∧ root proof = root_of self ∧ MerkleProof.value proof = compute_hash p) as Hget.
  { intros i p Hp. pose proof (inv_index_in self i p Hinv Hp) as Hi.
    eexists. split; [exact (get_leaf_rep _ _ i Hrep Hi)|]. split; [by apply verify_tree_proof; [apply Hrep|]|].
    split; [done|]. cbn. unfold leaf_hash. by rewrite Hp. }
  unfold get_membership_proof, get_non_membership_proof.
  destruct (key_index self !! k) as [i|] eqn:E.
  - destruct (inv_key self k i Hinv E) as (p & Hp & <-). rewrite Hp. cbn [fmap option_fmap option_map].
    destruct (Hget i p Hp) as (proof & -> & ?). cbn [outcome_bind]. split; [|done].
    exists p, proof. split; [done|]. by split.
  - split; [done|].
    destruct (find_predecessor_ok self k Hinv (fresh_not_default self k Hinv E)) as (i & p & -> & Hp & Hlt & Hmax).
    destruct (Hget i p Hp) as (proof & Hg & ?). cbn [outcome_bind]. rewrite Hg. cbn [outcome_bind].
    exists p, proof. split; [done|]. split; [done|]. split; [|done].
    destruct (inv_linked self Hinv i p Hp) as [(? & _ & _)|(j & Hj & _ & Hlt' & Hb)]; [by right|left].
    destruct (key_trichotomy k (next_key p)) as [?|[?|Hgt]]; [done|congruence|].
    destruct (Hmax (next_key p)) as [He|Hlt2]; [eauto|done|rewrite He in Hlt'; by destruct (key_lt_irrefl _ Hlt')|].
    by destruct (key_lt_asym _ _ Hlt').
Qed.

Lemma imt_proofs_complete_witness :
  ∃ t, new (F := N) (Hash := felts4) 2 = Ok t ∧ contents t !! fkey 7 = None ∧
    ∃ p proof, get_non_membership_proof t (fkey 7) = Ok (p, proof) ∧ verify proof = true.
Proof.
  destruct (new_inv (F := N) (Hash := felts4) 2 ltac:(lia)) as (t & Ht & Hinv & Hh & Hl & Hk & Hn).
  pose proof (imt_proofs_complete t (fkey 7) Hinv) as H.
  rewrite (new_contents t Hl Hk) in H. destruct H as (_ & p & proof & Hg & _ & _ & Hv & _).
  exists t. split; [exact Ht|]. split; [rewrite (new_contents t Hl Hk); reflexivity|].
  exists p, proof. split; [exact Hg|exact Hv].
Defined.

Lemma linked_gap `{Countable Hash, !FieldHash F Hash, !FieldHashLaws F Hash}
    (m : gmap Hash Z) (p : IMTLeafPreimage F Hash) (k : Hash) :
  linked m p → key_lt (key p) k → key_lt k (next_key p) ∨ next_key p = hash_default → m !! k = None.
Proof.
  intros Hl Hlt Hnext. destruct (m !! k) as [i|] eqn:E; [exfalso|done].
  destruct Hl as [(_ & _ & Hend)|(j & _ & _ & Hlt' & Hb)]; [by apply (Hend k); [eauto|]|].
  destruct Hnext as [Hkn|Hd]; [by apply (Hb k); [eauto|..]|]. rewrite Hd in Hlt'.
  destruct (decide (key p = hash_default)) as [He|Hne%default_least].
  - rewrite He in Hlt'. by apply key_lt_irrefl in Hlt'.
  - by apply key_lt_asym in Hlt'.
Qed.

(** C27: soundness of non-membership. Whoever passes the documented checks of a
    non-membership proof for [k] against the root of a tree with the invariant
    (the Merkle proof of the leaf hash verifies at a leaf position, the leaf's
    key is smaller and its successor larger or zero) shows that [k] is absent,
    or exhibits a collision: of the compression function, found by
    [extract_collision], of the leaf hash with the leaf stored there, or of the
    leaf hash with the hash of an empty position. *)
Theorem imt_non_membership_sound `{EqDecision F, Countable Hash, !FieldHash F Hash, !FieldHashLaws F Hash,
    !MerkleHasher Hash, !ZeroableHash Hash, !MerkleZeroHasher Hash}
    (self : IndexedMerkleTree F Hash) (p : IMTLeafPreimage F Hash) (proof : MerkleProofCore Hash) (k : Hash) :
  let h := Z.to_nat (height (tree self)) in
  let i := mp_index proof in
  imt_inv self →
  verify proof = true → length (mp_siblings proof) = h → 0 ≤ i < 2 ^ height (tree self) →
  root proof = root_of self → MerkleProof.value proof = compute_hash p →
  key_lt (key p) k → key_lt k (next_key p) ∨ next_key p = hash_default →
  match extract_collision 0 i (compute_hash p) (mp_siblings proof)
          (leaf_hash self i) (tree_siblings (leaf_hash self) h i) with
  | Some (x, y) => x ≠ y ∧ hash_pair x = hash_pair y
  | None =>
      contents self !! k = None ∨
      (∃ q, leaves self !! i = Some q ∧ q ≠ p ∧ compute_hash q = compute_hash p) ∨
      (leaves self !! i = None ∧ compute_hash p = get_zero_value)
  end.
Proof.
  intros h i Hinv [Hlen Hver]%verify_spec Hsib Hi Hroot Hval Hlt Hnext.
  pose proof (inv_tree self Hinv) as [[Hh _] _].
  destruct (extract_collision _ _ _ _ _ _) as [[x y]|] eqn:E; [by eapply extract_collision_Some|].
  apply extract_collision_None in E as [Hv _].
  - unfold leaf_hash in Hv. destruct (leaves self !! i) as [q|] eqn:Eq; [|by right; right].
    destruct (decide (q = p)) as [->|Hne]; [left|right; left; eauto].
    apply contents_None; [done|]. by eapply linked_gap; [apply (inv_linked self Hinv i p)|..].
  - by rewrite length_tree_siblings.
  - rewrite <- Hval. change (compute_root_merkle_proof_generic (MerkleProof.value proof) i (mp_siblings proof) =
      compute_root_merkle_proof_generic (leaf_hash self i) i (tree_siblings (leaf_hash self) h i)).
    rewrite compute_root_tree by (unfold h; rewrite ?Z2Nat.id; lia).
    unfold i. by rewrite Hver, Hroot.
Qed.

Lemma extract_collision_refl `{EqDecision Hash, MerkleHasher Hash} (ss : list Hash) :
  ∀ i index v, extract_collision i index v ss v ss = None.
Proof.
  induction ss as [|s ss IH]; intros i index v; [done|]. cbn [extract_collision].
  destruct (decide _) as [[_ Hne]|_]; [by destruct Hne|apply IH].
Qed.

Lemma imt_non_membership_sound_witness :
  ∃ (t : IndexedMerkleTree N felts4) proof,
    new 2 = Ok t ∧ verify proof = true ∧ root proof = root_of t ∧
    MerkleProof.value proof = compute_hash (leaf_default (F := N) (Hash := felts4)) ∧
    contents t !! fkey 7 = None.
Proof.
  destruct (new_inv (F := N) (Hash := felts4) 2 ltac:(lia)) as (t & Ht & Hinv & Hh & Hl & Hk & Hn).
  assert (leaves t !! 0 = Some leaf_default) as H0 by (rewrite Hl; reflexivity).
  assert (leaf_hash t 0 = compute_hash leaf_default) as Hval by (unfold leaf_hash; rewrite H0; reflexivity).
  set (proof := mkProof (tree_node (leaf_hash t) 2 0) (leaf_hash t 0) 0 (tree_siblings (leaf_hash t) 2 0)).
  assert (verify proof = true) as Hver.
  { pose proof (verify_tree_proof (leaf_hash t) (tree t) 0) as Hv. rewrite Hh in Hv.
    apply Hv; [apply (inv_tree t Hinv)|split; [lia|rewrite Hh; reflexivity]]. }
  assert (root proof = root_of t) as Hroot by (unfold root_of; rewrite Hh; reflexivity).
  exists t, proof. split; [exact Ht|]. split; [exact Hver|]. split; [exact Hroot|]. split; [exact Hval|].
  pose proof (imt_non_membership_sound t leaf_default proof (fkey 7) Hinv Hver) as H.
  rewrite Hh in H. specialize (H eq_refl ltac:(change (0 ≤ 0 < 2 ^ 2); lia) Hroot Hval eq_refl (or_intror eq_refl)).
  rewrite <- Hval in H. cbn [proof mp_index mp_siblings] in H. rewrite extract_collision_refl in H.
  destruct H as [H|[(q & Hq & Hne & _)|[Hq _]]]; [exact H|congruence|congruence].
Defined.

(** *** Recovery *)
Section restore.
Context `{EqDecision F, Countable Hash, !FieldHash F Hash, !FieldHashLaws F Hash,
  !MerkleHasher Hash, !ZeroableHash Hash, !MerkleZeroHasher Hash}.
Implicit Types (self : IndexedMerkleTree F Hash) (l : list (Z * IMTLeafPreimage F Hash)).

Fixpoint restore_leaves self l : outcome (IndexedMerkleTree F Hash) :=
  match l with
  | [] => Ok self
  | (i, p) :: l => let* self := restore_leaf self i p in restore_leaves self l
  end.

Definition index_of (ip : Z * IMTLeafPreimage F Hash) : Hash * Z := (key ip.2, ip.1).

Lemma restore_leaves_ok l : ∀ self,
  rep (tree self) (leaf_hash self) →
  Forall (λ ip, 0 ≤ ip.1 < 2 ^ height (tree self)) l → NoDup l.*1 → NoDup (index_of <$> l).*1 →
  ∃ self', restore_leaves self l = Ok self' ∧ rep (tree self') (leaf_hash self') ∧
    height (tree self') = height (tree self) ∧
    leaves self' = list_to_map l ∪ leaves self ∧
    key_index self' = list_to_map (index_of <$> l) ∪ key_index self ∧
    next_append_index self' = foldr (λ ip n, Z.max (ip.1 + 1) n) (next_append_index self) l.
Proof.
  induction l as [|[i p] l IH]; intros self Hrep Hl Hnd Hndk.
  { exists self. cbn. by rewrite !(left_id_L ∅ _). }
  apply Forall_cons in Hl as [Hi Hl]. apply NoDup_cons in Hnd as [Hni Hnd].
  apply NoDup_cons in Hndk as [Hnk Hndk]. cbn [fst snd] in Hi, Hni, Hnk.
  pose proof Hrep as [[Hh _] _].
  pose proof (Z.pow_le_mono_r 2 (height (tree self)) 63 ltac:(lia) ltac:(lia)) as H63.
  cbn [restore_leaves]. unfold restore_leaf.
  destruct (set_leaf_no_proof_rep (leaf_hash self) (tree self) i (compute_hash p) Hrep Hi)
    as (t & -> & Hrep' & Ht). cbn [outcome_bind]. rewrite wrap_small by lia.
  set (self1 := mkIMT _ _ _ _).
  destruct (IH self1) as (self' & -> & Hrep2 & Hh2 & Hl2 & Hk2 & Hn2); [| |done|done|].
  { revert Hrep'. apply rep_ext. intros j. unfold leaf_hash, MerkleProof.update, self1; cbn [leaves].
    destruct (Z.eqb_spec j i) as [->|]; [by rewrite lookup_insert_eq|by rewrite lookup_insert_ne]. }
  { cbn. by rewrite Ht. }
  exists self'. split_and!; [done|done|by rewrite Hh2|..]; cbn [fmap list_fmap list_to_map foldr index_of fst snd].
  - rewrite Hl2. cbn [self1 leaves]. rewrite <- insert_union_l. symmetry. apply insert_union_r.
    by apply not_elem_of_list_to_map.
  - rewrite Hk2. cbn [self1 key_index]. rewrite <- insert_union_l. symmetry. apply insert_union_r.
    by apply not_elem_of_list_to_map.
  - rewrite Hn2. cbn [self1 next_append_index]. clear. induction l as [|x l IH]; cbn [foldr].
    + destruct (Z.leb_spec (next_append_index self) i); lia.
    + rewrite IH. lia.
Qed.

Lemma foldr_max l n :
  foldr (λ ip n, Z.max (ip.1 + 1) n) n l = n ∨
  ∃ ip, ip ∈ l ∧ foldr (λ ip n, Z.max (ip.1 + 1) n) n l = ip.1 + 1.
Proof.
  induction l as [|x l IH]; cbn [foldr]; [by left|]. set (f := foldr _ _ _) in *.
  destruct (Z.max_spec (x.1 + 1) f) as [[_ ->]|[_ ->]].
  - destruct IH as [->|(ip & Hip & ->)]; [by left|right; exists ip; split; [set_solver|done]].
  - right. exists x. split; [set_solver|done].
Qed.

Lemma foldr_max_ge l n ip :
  ip ∈ l → ip.1 + 1 ≤ foldr (λ ip n, Z.max (ip.1 + 1) n) n l.
Proof.
  induction l as [|x l IH]; [by intros ?%elem_of_nil|]. cbn [foldr].
  intros [->|Hin%IH]%elem_of_cons; lia.
Qed.

Lemma elem_of_leaves self l ip : l ≡ₚ map_to_list (leaves self) → ip ∈ l ↔ leaves self !! ip.1 = Some ip.2.
Proof. intros ->. destruct ip. apply elem_of_map_to_list. Qed.

Lemma index_of_leaves self l :
  imt_inv self → l ≡ₚ map_to_list (leaves self) →
  NoDup (index_of <$> l).*1 ∧ (list_to_map (index_of <$> l) : gmap Hash Z) = key_index self.
Proof.
  intros Hinv Hl. assert (NoDup (index_of <$> l).*1) as Hnd.
  { rewrite <- list_fmap_compose. apply NoDup_fmap_2_strong; [|rewrite Hl; apply NoDup_map_to_list].
    intros [i p] [j q] Hi%(elem_of_leaves self)  Hj%(elem_of_leaves self) He; [|done..]. cbn in *.
    apply (inv_lookup self) in Hi as Hi'; [|done]. apply (inv_lookup self) in Hj as Hj'; [|done]. congruence. }
  split; [done|]. apply map_eq. intros k. apply option_eq. intros i.
  rewrite <- elem_of_list_to_map by done. rewrite (inv_index self Hinv), list_elem_of_fmap. split.
  - intros ([j p] & [= -> ->] & Hp%(elem_of_leaves self)); [|done]. eauto.
  - intros (p & Hp & <-). exists (i, p). split; [done|]. by apply (elem_of_leaves self).
Qed.

Lemma next_of_leaves self l :
  imt_inv self → l ≡ₚ map_to_list (leaves self) →
  foldr (λ ip n, Z.max (ip.1 + 1) n) 1 l = next_append_index self.
Proof.
  intros Hinv Hl. pose proof (inv_next self Hinv) as Hn.
  assert (is_Some (leaves self !! (next_append_index self - 1))) as [p Hp] by (apply (inv_dom self Hinv); lia).
  pose proof (foldr_max_ge l 1 (next_append_index self - 1, p)
    (proj2 (elem_of_leaves self l (next_append_index self - 1, p) Hl) Hp)) as Hge. cbn [fst] in Hge.
  destruct (foldr_max l 1) as [E|(ip & Hip & E)]; rewrite E in Hge |- *; [lia|].
  apply (elem_of_leaves self) in Hip; [|done]. pose proof (inv_range self _ _ Hinv Hip). lia.
Qed.
End restore.

(** Recovery. Restoring the leaves of a tree with the invariant, in any
    order, onto a new tree of the same height gives back its leaves, its key
    index, its append index and its root. *)
Theorem imt_restore_roundtrip `{EqDecision F, Countable Hash, !FieldHash F Hash, !FieldHashLaws F Hash,
    !MerkleHasher Hash, !ZeroableHash Hash, !MerkleZeroHasher Hash}
    (self : IndexedMerkleTree F Hash) (l : list (Z * IMTLeafPreimage F Hash)) :
  imt_inv self → l ≡ₚ map_to_list (leaves self) →
  ∃ t t', new (height (tree self)) = Ok t ∧ restore_leaves t l = Ok t' ∧ imt_inv t' ∧
    leaves t' = leaves self ∧ key_index t' = key_index self ∧
    next_append_index t' = next_append_index self ∧ get_root t' = get_root self.
Proof.
  intros Hinv Hl. pose proof (inv_tree self Hinv) as Hrep. pose proof Hrep as [[Hh _] _].
  destruct (new_inv (F := F) (height (tree self)) Hh) as (t & Ht & Hinv0 & Hth & Hl0 & Hk0 & Hn0).
  destruct (index_of_leaves self l Hinv Hl) as [Hnd Hki].
  destruct (restore_leaves_ok l t) as (t' & Ht' & Hrep' & Hh' & Hl' & Hk' & Hn');
    [apply (inv_tree t Hinv0)| |rewrite Hl; apply NoDup_fst_map_to_list|done|].
  { apply Forall_forall. intros [i p] Hp%(elem_of_leaves self); [|done]. rewrite Hth.
    exact (inv_index_in self i p Hinv Hp). }
  rewrite Hki, Hk0 in Hk'. rewrite Hn0, (next_of_leaves self) in Hn' by done.
  assert (list_to_map l = leaves self) as Hlm.
  { rewrite <- (list_to_map_to_list (leaves self)). apply list_to_map_proper; [|done].
    rewrite Hl. apply NoDup_fst_map_to_list. }
  assert (leaves t' = leaves self) as Hlt.
  { rewrite Hl', Hlm, Hl0. apply map_eq. intros i. destruct (decide (i = 0)) as [->|].
    - destruct (proj2 (inv_dom self Hinv 0)) as [p Hp]; [pose proof (inv_next self Hinv); lia|].
      by rewrite (lookup_union_Some_l _ _ _ _ Hp).
    - by rewrite lookup_union_l by (by rewrite lookup_singleton_ne). }
  assert (key_index t' = key_index self) as Hkt.
  { rewrite Hk'. apply map_eq. intros k. destruct (decide (k = hash_default)) as [->|].
    - destruct (inv_default self Hinv) as [i Hi]. by rewrite (lookup_union_Some_l _ _ _ _ Hi).
    - by rewrite lookup_union_l by (by rewrite lookup_singleton_ne). }
  assert (∀ i, leaf_hash t' i = leaf_hash self i) as Hlh by (intros i; unfold leaf_hash; by rewrite Hlt).
  exists t, t'. split_and!; try done.
  - destruct Hinv. split; rewrite ?Hlt, ?Hkt, ?Hn', ?Hh', ?Hth; try done.
  - unfold get_root. rewrite (get_root_rep _ _ Hrep'), (get_root_rep _ _ Hrep), Hh', Hth.
    f_equal. by apply tree_node_ext.
Qed.

Lemma imt_restore_roundtrip_witness :
  ∃ (t t' : IndexedMerkleTree N felts4), new 2 = Ok t ∧
    restore_leaves t [(0, mkLeaf (fkey 0) (fkey 0) (fkey 0) 0%N)] = Ok t' ∧ get_root t' = get_root t.
Proof.
  destruct (new_inv (F := N) (Hash := felts4) 2 ltac:(lia)) as (t & Ht & Hinv & Hh & Hl & Hk & Hn).
  destruct (imt_restore_roundtrip t [(0, leaf_default)] Hinv) as (t1 & t' & H1 & H2 & _ & _ & _ & _ & H3).
  - rewrite Hl, map_to_list_singleton. reflexivity.
  - rewrite Hh in H1. rewrite Ht in H1. injection H1 as <-.
    exists t, t'. split; [exact Ht|]. split; [exact H2|exact H3].
Defined.
