(* ===== verification/UserId.v ===== *)
(** * User ids from registration ids

    [psy_core/src/user_id.rs]: six strategies that permute the bits of a
    registration id, each in three versions: over a list of bits as the circuit
    builds it, over machine words, and the inverse over machine words. The bits
    of a word are a list, least significant first. *)
From stdpp Require Import prelude list strings.
From Stdlib Require Import ZArith Lia.
From S2P Require Import Prelude.

(** [&bits[a..b]] *)
Definition slice {A} (l : list A) (a b : nat) : outcome (list A) :=
  if ((a <=? b) && (b <=? length l))%nat then Ok (take (b - a) (drop a l)) else Panic.

(** [&bits[a..]] *)
Definition slice_from {A} (l : list A) (a : nat) : outcome (list A) := slice l a (length l).

(** ** The native bridge *)
Fixpoint le_sum_loop (i acc : Z) (bits : list bool) : Z :=
  match bits with
  | [] => acc
  | b :: bits => le_sum_loop (i + 1) (if b then Z.lor acc (u64_shl 1 i) else acc) bits
  end.

Definition le_sum_u64 (bits : list bool) : Z := le_sum_loop 0 0 bits.

(** The [n] lowest bits of a word. *)
Definition word_bits (n : nat) (x : Z) : list bool := (λ i, Z.testbit x (Z.of_nat i)) <$> seq 0 n.

Fixpoint le_val (l : list bool) : Z :=
  match l with [] => 0 | b :: l => Z.b2z b + 2 * le_val l end.

(** [u64::reverse_bits] *)
Definition u64_reverse_bits (x : Z) : Z := le_val (reverse (word_bits 64 x)).

Definition reverse_bits_in_limit (x num_bits : Z) : Z :=
  let difference := wrap 64 (64 - num_bits) in
  u64_shr (u64_reverse_bits x) difference.

(** [(1 << n) - 1] *)
Definition mask (n : Z) : Z := wrap 64 (u64_shl 1 n - 1).

(** ** The strategy interface *)
Record Strategy : Type := mkStrategy {
  circuit_get_user_id : ∀ (Bit Felt : Type), (list Bit → Felt) → list Bit → Z → Z → Z → outcome Felt;
  get_user_id : Z → Z → Z → Z → Z;
  get_registration_id : Z → Z → Z → Z → Z;
}.

Section circuits.
Context {Bit Felt : Type} (bridge_le_sum : list Bit → Felt).
Implicit Types (bits : list Bit) (c r g : Z).

Definition circuit_0 bits c r g : outcome Felt := Ok (bridge_le_sum bits).

Definition circuit_1 bits c r g : outcome Felt :=
  let reversed := reverse bits in
  Ok (bridge_le_sum reversed).

Definition circuit_2 bits c r g : outcome Felt :=
  let split := Z.to_nat c in
  let* top := slice bits 0 split in
  let top := reverse top in
  let* bottom := slice_from bits split in
  Ok (bridge_le_sum (bottom ++ top)).

Definition circuit_3 bits c r g : outcome Felt :=
  let* top := slice_from bits 10 in
  let top := reverse top in
  let* bottom := slice bits 0 10 in
  Ok (bridge_le_sum (bottom ++ top)).

Definition circuit_4 bits c r g : outcome Felt :=
  let g := Z.to_nat g in
  let r := Z.to_nat r in
  let* realm_index_bits := slice bits 0 g in
  let* user_index_bits := slice bits g (g + r) in
  let* group_id_bits := slice_from bits (g + r) in
  let reversed_realm_index := reverse realm_index_bits in
  let half := (r `div` 2)%nat in
  let* user_low := slice user_index_bits 0 half in
  let* user_high := slice_from user_index_bits half in
  let user_high := reverse user_high in
  let modified_user := user_high ++ user_low in
  Ok (bridge_le_sum (modified_user ++ reversed_realm_index ++ group_id_bits)).

Definition circuit_5 bits c r g : outcome Felt :=
  let g := Z.to_nat g in
  let r := Z.to_nat r in
  let* realm_index_bits := slice bits 0 g in
  let user_index_start := g in
  let user_index_end := (g + r)%nat in
  let* user_index_bits := slice bits user_index_start user_index_end in
  let* group_id_bits := slice_from bits user_index_end in
  let reversed_realm_index_bits := reverse realm_index_bits in
  let reversed_user_index_bits := reverse user_index_bits in
  Ok (bridge_le_sum (reversed_user_index_bits ++ reversed_realm_index_bits ++ group_id_bits)).
End circuits.

(** ** The native versions and their inverses *)
Section native.
Implicit Types (reg_id uid c r g : Z).

Definition native_0 reg_id c r g : Z := reg_id.
Definition inverse_0 uid c r g : Z := uid.

Definition native_1 reg_id c r g : Z := reverse_bits_in_limit reg_id (wrap 8 (c + r)).
Definition inverse_1 uid c r g : Z := reverse_bits_in_limit uid (wrap 8 (c + r)).

Definition native_2 reg_id c r g : Z :=
  let low := Z.land reg_id (mask c) in
  let high := u64_shr reg_id c in
  Z.lor (u64_shl (reverse_bits_in_limit low c) r) high.

Definition inverse_2 uid c r g : Z :=
  let bottom := Z.land uid (mask r) in
  let top := u64_shr uid r in
  Z.lor (u64_shl bottom c) (reverse_bits_in_limit top c).

Definition native_3 reg_id c r g : Z :=
  let h := wrap 8 (c + r) in
  Z.lor (u64_shl (reverse_bits_in_limit (u64_shr reg_id 10) (wrap 8 (h - 10))) 10) (Z.land reg_id 0x3FF).

Definition inverse_3 uid c r g : Z :=
  let h := wrap 8 (c + r) in
  Z.lor (u64_shl (reverse_bits_in_limit (u64_shr uid 10) (wrap 8 (h - 10))) 10) (Z.land uid 0x3FF).

Definition native_4 reg_id (coord_h realm_h group_h : Z) : Z :=
  let realm_idx := Z.land reg_id (mask group_h) in
  let user_idx := Z.land (u64_shr reg_id group_h) (mask realm_h) in
  let group_id :=
    Z.land (u64_shr reg_id (wrap 8 (group_h + realm_h))) (mask (wrap 8 (coord_h - group_h))) in
  let realm_rev := reverse_bits_in_limit realm_idx group_h in
  let full_realm := Z.lor (u64_shl group_id group_h) realm_rev in
  let half := realm_h / 2 in
  let u_low := Z.land user_idx (mask half) in
  let u_high := Z.land (u64_shr user_idx half) (mask (wrap 8 (realm_h - half))) in
  let u_high_rev := reverse_bits_in_limit u_high (wrap 8 (realm_h - half)) in
  let mod_user := Z.lor (u64_shl u_low (wrap 8 (realm_h - half))) u_high_rev in
  Z.lor (u64_shl full_realm realm_h) mod_user.

Definition inverse_4 uid (coord_h realm_h group_h : Z) : Z :=
  let mod_user := Z.land uid (mask realm_h) in
  let full_realm := u64_shr uid realm_h in
  let half := realm_h / 2 in
  let u_high_rev := Z.land mod_user (mask (wrap 8 (realm_h - half))) in
  let u_low := u64_shr mod_user (wrap 8 (realm_h - half)) in
  let u_high := reverse_bits_in_limit u_high_rev (wrap 8 (realm_h - half)) in
  let user_idx := Z.lor (u64_shl u_high half) u_low in
  let realm_rev := Z.land full_realm (mask group_h) in
  let group_id := u64_shr full_realm group_h in
  let realm_idx := reverse_bits_in_limit realm_rev group_h in
  Z.lor (Z.lor (u64_shl group_id (wrap 8 (group_h + realm_h))) (u64_shl user_idx group_h)) realm_idx.

Definition native_5 reg_id c r g : Z :=
  let realm_index := Z.land reg_id (mask g) in
  let user_index := Z.land (u64_shr reg_id g) (mask r) in
  let shift_amount_for_group := wrap 8 (g + r) in
  let group_id_height := wrap 8 (c - g) in
  let group_id := Z.land (u64_shr reg_id shift_amount_for_group) (mask group_id_height) in
  let reversed_realm_index := reverse_bits_in_limit realm_index g in
  let full_realm_id := Z.lor (u64_shl group_id g) reversed_realm_index in
  let reversed_user_index := reverse_bits_in_limit user_index r in
  Z.lor (u64_shl full_realm_id r) reversed_user_index.

Definition inverse_5 uid c r g : Z :=
  let reversed_user_index := Z.land uid (mask r) in
  let full_realm_id := u64_shr uid r in
  let original_user_index := reverse_bits_in_limit reversed_user_index r in
  let reversed_realm_index := Z.land full_realm_id (mask g) in
  let group_id := u64_shr full_realm_id g in
  let original_realm_index := reverse_bits_in_limit reversed_realm_index g in
  let shift_for_user := g in
  let shift_for_group := wrap 8 (g + r) in
  Z.lor (Z.lor (u64_shl group_id shift_for_group) (u64_shl original_user_index shift_for_user))
    original_realm_index.
End native.

Inductive strategy_id : Type :=
  | UserIdBitsStrategy0 | UserIdBitsStrategy1 | UserIdBitsStrategy2
  | UserIdBitsStrategy3 | UserIdBitsStrategy4 | UserIdBitsStrategy5.

Definition strategy (s : strategy_id) : Strategy :=
  match s with
  | UserIdBitsStrategy0 => mkStrategy (@circuit_0) native_0 inverse_0
  | UserIdBitsStrategy1 => mkStrategy (@circuit_1) native_1 inverse_1
  | UserIdBitsStrategy2 => mkStrategy (@circuit_2) native_2 inverse_2
  | UserIdBitsStrategy3 => mkStrategy (@circuit_3) native_3 inverse_3
  | UserIdBitsStrategy4 => mkStrategy (@circuit_4) native_4 inverse_4
  | UserIdBitsStrategy5 => mkStrategy (@circuit_5) native_5 inverse_5
  end.

(** The public wrappers use strategy 5. *)
Definition UserIdBitsStrategy : Strategy := strategy UserIdBitsStrategy5.

Definition get_user_id_from_user_registration_id (reg_id c r g : Z) : Z :=
  get_user_id UserIdBitsStrategy reg_id c r g.

Definition get_user_registration_id_from_user_id (uid c r g : Z) : Z :=
  get_registration_id UserIdBitsStrategy uid c r g.

Definition circuit_user_registration_tree_index_bits_to_user_id {Bit Felt : Type}
    (bridge_le_sum : list Bit → Felt) (bits : list Bit) (c r g : Z) : outcome Felt :=
  circuit_get_user_id UserIdBitsStrategy Bit Felt bridge_le_sum bits c r g.

(** ** Words as lists of bits *)
Lemma le_val_range l : 0 ≤ le_val l < 2 ^ Z.of_nat (length l).
Proof.
  induction l as [|b l IH]; simpl le_val; [done|]. rewrite length_cons, Nat2Z.inj_succ, Z.pow_succ_r by lia.
  destruct b; simpl Z.b2z; lia.
Qed.

Lemma le_val_app a b : le_val (a ++ b) = le_val a + 2 ^ Z.of_nat (length a) * le_val b.
Proof.
  induction a as [|x a IH]; [cbn [app le_val length]; lia|].
  rewrite length_cons, Nat2Z.inj_succ, Z.pow_succ_r by lia. cbn [app le_val]. rewrite IH. ring.
Qed.

Lemma le_val_falses n : le_val (replicate n false) = 0.
Proof. induction n as [|n IH]; [done|]. cbn [replicate le_val]. by rewrite IH. Qed.

Lemma testbit_le_val l : ∀ i, Z.testbit (le_val l) (Z.of_nat i) = nth i l false.
Proof.
  induction l as [|b l IH]; intros i; [cbn; by rewrite Z.bits_0; destruct i|]. cbn [le_val].
  rewrite Z.add_comm. destruct i as [|i]; [by rewrite Z.testbit_0_r|].
  rewrite Nat2Z.inj_succ, Z.testbit_succ_r by lia. apply IH.
Qed.

Lemma length_word_bits n x : length (word_bits n x) = n.
Proof. unfold word_bits. by rewrite length_fmap, length_seq. Qed.

Lemma word_bits_le_val n l :
  (length l ≤ n)%nat → word_bits n (le_val l) = l ++ replicate (n - length l) false.
Proof.
  intros Hl. apply list_eq. intros i. unfold word_bits. rewrite list_lookup_fmap.
  destruct (decide (i < n)%nat) as [Hi|Hi].
  - rewrite lookup_seq_lt by done. cbn. rewrite testbit_le_val.
    destruct (decide (i < length l)%nat) as [Hil|Hil].
    + rewrite lookup_app_l by done. symmetry. by apply lookup_nth.
    + rewrite lookup_app_r, lookup_replicate_2 by lia. by rewrite nth_overflow by lia.
  - rewrite lookup_seq_ge by lia. symmetry. apply lookup_ge_None. rewrite length_app, length_replicate. lia.
Qed.

Lemma le_val_word_bits n x : 0 ≤ x < 2 ^ Z.of_nat n → le_val (word_bits n x) = x.
Proof.
  intros Hx. apply Z.bits_inj'. intros i Hi. rewrite <- (Z2Nat.id i) by lia. rewrite testbit_le_val.
  destruct (decide (Z.to_nat i < n)%nat) as [Hl|Hl].
  - apply nth_lookup_Some with (d := false). unfold word_bits.
    rewrite list_lookup_fmap, lookup_seq_lt by done. done.
  - rewrite nth_overflow by (rewrite length_word_bits; lia). symmetry. apply (testbit_small x (Z.of_nat n)); lia.
Qed.

Lemma le_sum_loop_val l : ∀ i acc,
  0 ≤ i → 0 ≤ acc < 2 ^ i → i + Z.of_nat (length l) ≤ 64 →
  le_sum_loop i acc l = acc + 2 ^ i * le_val l.
Proof.
  induction l as [|b l IH]; intros i acc Hi Hacc Hl; cbn [le_sum_loop le_val]; [lia|].
  rewrite length_cons in Hl. pose proof (pow2_pos_Z i Hi).
  pose proof (Z.pow_succ_r 2 i Hi) as Hs. rewrite <- Z.add_1_r in Hs.
  assert ((if b then Z.lor acc (u64_shl 1 i) else acc) = acc + Z.b2z b * 2 ^ i) as ->.
  { destruct b; [|cbn; lia]. rewrite u64_shl_small; [|lia|lia|].
    - rewrite Z.lor_comm, lor_pow2_add by lia. cbn. lia.
    - pose proof (Z.pow_lt_mono_r 2 i 64 ltac:(lia) ltac:(lia) ltac:(lia)). lia. }
  rewrite IH by (destruct b; cbn; lia). rewrite Hs. destruct b; cbn; lia.
Qed.

Lemma le_sum_u64_val l : (length l ≤ 64)%nat → le_sum_u64 l = le_val l.
Proof. intros Hl. unfold le_sum_u64. rewrite le_sum_loop_val by lia. rewrite Z.pow_0_r. lia. Qed.

(** Taking a word apart and putting it together. *)
Section words.
Context (a b : list bool) (Hlen : (length a + length b ≤ 64)%nat).
Let n := Z.of_nat (length a).

Lemma shr_app : (length a ≤ 63)%nat → u64_shr (le_val (a ++ b)) n = le_val b.
Proof.
  intros Ha. rewrite u64_shr_small by lia. rewrite le_val_app. fold n.
  pose proof (le_val_range a). pose proof (pow2_pos_Z n ltac:(lia)). fold n in H.
  rewrite Z.mul_comm, Z.div_add, Z.div_small by lia. lia.
Qed.

Lemma mask_ones m : 0 ≤ m ≤ 63 → mask m = 2 ^ m - 1.
Proof.
  intros Hm. unfold mask. pose proof (Z.pow_lt_mono_r 2 m 64 ltac:(lia) ltac:(lia) ltac:(lia)).
  pose proof (pow2_pos_Z m ltac:(lia)).
  rewrite u64_shl_small by lia. rewrite Z.mul_1_l. apply wrap_small. lia.
Qed.

Lemma mask_app : (length a ≤ 63)%nat → Z.land (le_val (a ++ b)) (mask n) = le_val a.
Proof.
  intros Ha. rewrite mask_ones by lia. rewrite land_ones_mod by lia. rewrite le_val_app. fold n.
  pose proof (le_val_range a) as Hr. fold n in Hr. pose proof (pow2_pos_Z n ltac:(lia)).
  rewrite Z.mul_comm, Z.mod_add by lia. by apply Z.mod_small.
Qed.

Lemma lor_shl_app :
  (length a ≤ 63)%nat ∨ b = [] → Z.lor (u64_shl (le_val b) n) (le_val a) = le_val (a ++ b).
Proof.
  intros [Ha| ->].
  - pose proof (le_val_range a) as Hr. pose proof (le_val_range b) as Hb. fold n in Hr.
    pose proof (pow2_pos_Z n ltac:(lia)).
    assert (le_val b * 2 ^ n < 2 ^ 64).
    { apply Z.lt_le_trans with (2 ^ Z.of_nat (length b) * 2 ^ n); [apply Z.mul_lt_mono_pos_r; lia|].
      rewrite <- Z.pow_add_r by lia. apply Z.pow_le_mono_r; lia. }
    rewrite u64_shl_small by lia. rewrite lor_pow2_add by lia. rewrite le_val_app. fold n. lia.
  - rewrite app_nil_r. cbn [le_val]. unfold u64_shl. by rewrite Z.shiftl_0_l.
Qed.
End words.

Lemma reverse_bits_val l :
  (length l ≤ 64)%nat → reverse_bits_in_limit (le_val l) (Z.of_nat (length l)) = le_val (reverse l).
Proof.
  intros Hl. unfold reverse_bits_in_limit, u64_reverse_bits. rewrite word_bits_le_val by done.
  rewrite reverse_app, reverse_replicate. destruct l as [|x l'] eqn:E.
  - cbn [length]. rewrite app_nil_r, le_val_falses. by vm_compute.
  - rewrite <- E in *. assert (0 < length l)%nat by (rewrite E; cbn; lia).
    rewrite wrap_small by lia.
    pose proof (shr_app (replicate (64 - length l) false) (reverse l)) as Hs.
    rewrite length_replicate, length_reverse in Hs. rewrite Nat2Z.inj_sub in Hs by done.
    apply Hs; lia.
Qed.

Ltac by_lengths := rewrite ?length_app, ?length_reverse; lia.

(** ** The strategies as permutations of bits *)
Section fields.
Context (R U G : list bool) (Hlen : (length R + length U + length G ≤ 64)%nat)
  (HU : (length U ≤ 63)%nat) (HC : (length R + length G ≤ 63)%nat).
Let r := Z.of_nat (length U).
Let g := Z.of_nat (length R).
Let c := Z.of_nat (length R + length G).

Lemma realm_field : Z.land (le_val (R ++ U ++ G)) (mask g) = le_val R.
Proof. apply mask_app; by_lengths. Qed.

Lemma user_field : Z.land (u64_shr (le_val (R ++ U ++ G)) g) (mask r) = le_val U.
Proof. unfold g, r. rewrite shr_app by (rewrite ?length_app; lia). apply mask_app; lia. Qed.

Lemma group_field :
  Z.land (u64_shr (le_val (R ++ U ++ G)) (wrap 8 (g + r))) (mask (wrap 8 (c - g))) = le_val G.
Proof.
  rewrite !wrap_small by (unfold g, r, c; lia).
  replace (c - g) with (Z.of_nat (length G)) by (unfold c, g; lia).
  destruct (decide (length R + length U ≤ 63)%nat) as [Hs|Hs].
  - rewrite app_assoc. pose proof (shr_app (R ++ U) G) as Hshr. rewrite length_app, Nat2Z.inj_add in Hshr.
    fold g r in Hshr. rewrite Hshr by lia. rewrite <- (app_nil_r G) at 1. apply mask_app; simpl; lia.
  - assert (G = []) as -> by (apply length_zero_iff_nil; lia). cbn [length].
    change (mask (Z.of_nat 0)) with 0. by rewrite Z.land_0_r.
Qed.

Lemma realm_above_user : u64_shr (le_val (U ++ R ++ G)) r = le_val (R ++ G).
Proof. apply shr_app; rewrite ?length_app; lia. Qed.

(** Three fields joined by two shifts. *)
Lemma join_fields :
  Z.lor (Z.lor (u64_shl (le_val G) (wrap 8 (g + r))) (u64_shl (le_val U) g)) (le_val R) =
  le_val (R ++ U ++ G).
Proof.
  rewrite wrap_small by (unfold g, r; lia).
  rewrite <- Z.lor_assoc. unfold g at 2. rewrite (lor_shl_app R U) by first [lia|left; lia].
  replace (g + r) with (Z.of_nat (length (R ++ U))) by (unfold g, r; rewrite length_app; lia).
  rewrite app_assoc. apply lor_shl_app; [rewrite length_app; lia|].
  rewrite length_app. destruct (decide (length R + length U ≤ 63)%nat); [by left|right].
  apply length_zero_iff_nil. lia.
Qed.
End fields.

Section permutations.
Context (R U G : list bool) (Hlen : (length R + length U + length G ≤ 64)%nat)
  (HU : (length U ≤ 63)%nat) (HC : (length R + length G ≤ 63)%nat).
Let r := Z.of_nat (length U).
Let g := Z.of_nat (length R).
Let c := Z.of_nat (length R + length G).

Lemma native_5_val : native_5 (le_val (R ++ U ++ G)) c r g = le_val (reverse U ++ reverse R ++ G).
Proof.
  unfold native_5, g, r, c. rewrite realm_field, user_field, group_field by done.
  rewrite !reverse_bits_val by lia. rewrite <- (length_reverse R).
  rewrite lor_shl_app by first [by_lengths|left; by_lengths].
  rewrite <- (length_reverse U). apply lor_shl_app; [by_lengths|left; by_lengths].
Qed.

Lemma inverse_5_val : inverse_5 (le_val (U ++ R ++ G)) c r g = le_val (reverse R ++ reverse U ++ G).
Proof.
  unfold inverse_5, g, r, c. rewrite realm_above_user by done.
  rewrite (mask_app U (R ++ G)) by by_lengths. rewrite (mask_app R G) by by_lengths.
  rewrite (shr_app R G) by by_lengths. rewrite !reverse_bits_val by lia.
  rewrite <- (length_reverse R), <- (length_reverse U).
  apply join_fields; by_lengths.
Qed.
End permutations.

(** *** Strategy 4: the user field is split in two *)
Section permutation_4.
Context (R L H G : list bool) (Hlen : (length R + (length L + length H) + length G ≤ 64)%nat)
  (HU : (length L + length H ≤ 63)%nat) (HC : (length R + length G ≤ 63)%nat)
  (Hhalf : length L = ((length L + length H) `div` 2)%nat).
Let r := Z.of_nat (length L + length H).
Let g := Z.of_nat (length R).
Let c := Z.of_nat (length R + length G).

Lemma half_length : r / 2 = Z.of_nat (length L).
Proof. unfold r. rewrite Hhalf at 2. by rewrite Nat2Z.inj_div. Qed.

Lemma rest_length : wrap 8 (r - r / 2) = Z.of_nat (length H).
Proof. rewrite half_length. unfold r. rewrite wrap_small by lia. lia. Qed.

Lemma native_4_val :
  native_4 (le_val (R ++ (L ++ H) ++ G)) c r g = le_val ((reverse H ++ L) ++ reverse R ++ G).
Proof.
  unfold native_4. rewrite rest_length, half_length. unfold g, r, c. rewrite <- (length_app L H).
  rewrite realm_field, user_field, group_field by by_lengths.
  rewrite (mask_app L H) by by_lengths. rewrite (shr_app L H) by by_lengths.
  pose proof (mask_app H []) as Hm. rewrite app_nil_r in Hm. rewrite Hm by (simpl; lia).
  rewrite !reverse_bits_val by lia. rewrite <- (length_reverse R), <- (length_reverse H).
  rewrite !lor_shl_app by first [by_lengths|left; by_lengths].
  replace (length (L ++ H)) with (length (reverse H ++ L)) by by_lengths.
  apply lor_shl_app; [by_lengths|left; by_lengths].
Qed.

Lemma inverse_4_val :
  inverse_4 (le_val ((H ++ L) ++ R ++ G)) c r g = le_val (reverse R ++ (L ++ reverse H) ++ G).
Proof.
  unfold inverse_4. rewrite rest_length, half_length. unfold g, r, c.
  replace (length L + length H)%nat with (length (H ++ L)) by by_lengths.
  rewrite realm_above_user by by_lengths. rewrite (mask_app (H ++ L) (R ++ G)) by by_lengths.
  rewrite (mask_app H L), (shr_app H L) by by_lengths.
  rewrite (mask_app R G), (shr_app R G) by by_lengths. rewrite !reverse_bits_val by lia.
  rewrite (lor_shl_app L (reverse H)) by first [by_lengths|left; by_lengths].
  rewrite <- (length_reverse R). replace (length (H ++ L)) with (length (L ++ reverse H)) by by_lengths.
  apply join_fields; by_lengths.
Qed.
End permutation_4.

(** *** Strategies 1, 2 and 3 *)
Section permutations_simple.
Context (a b : list bool) (Hlen : (length a + length b ≤ 64)%nat).
Let m := Z.of_nat (length a).
Let n := Z.of_nat (length b).

Lemma native_1_val (g : Z) : native_1 (le_val (a ++ b)) m n g = le_val (reverse (a ++ b)).
Proof.
  unfold native_1. rewrite wrap_small by (unfold m, n; lia).
  replace (m + n) with (Z.of_nat (length (a ++ b))) by (unfold m, n; rewrite length_app; lia).
  apply reverse_bits_val. by_lengths.
Qed.

Lemma native_2_val (g : Z) :
  (length a ≤ 63)%nat → (length b ≤ 63)%nat →
  native_2 (le_val (a ++ b)) m n g = le_val (b ++ reverse a).
Proof.
  intros Ha Hb. unfold native_2, m, n. rewrite mask_app, shr_app, reverse_bits_val by lia.
  apply lor_shl_app; [by_lengths|left; lia].
Qed.

Lemma inverse_2_val (g : Z) :
  (length a ≤ 63)%nat → (length b ≤ 63)%nat →
  inverse_2 (le_val (b ++ a)) m n g = le_val (reverse a ++ b).
Proof.
  intros Ha Hb. unfold inverse_2, m, n. rewrite mask_app, shr_app, reverse_bits_val by lia.
  rewrite <- (length_reverse a). apply lor_shl_app; [by_lengths|left; by_lengths].
Qed.

Lemma native_3_val (c r g : Z) :
  length a = 10%nat → c + r = m + n → native_3 (le_val (a ++ b)) c r g = le_val (a ++ reverse b).
Proof.
  intros Ha Hcr. unfold native_3. rewrite Hcr, (wrap_small 8 (m + n)) by (unfold m, n; lia).
  replace (m + n - 10) with n by (unfold m, n; lia). rewrite wrap_small by (unfold n; lia).
  pose proof (mask_app a b) as Hm. rewrite Ha in Hm. change (mask (Z.of_nat 10)) with 0x3FF in Hm.
  pose proof (shr_app a b) as Hs. rewrite Ha in Hs. change (Z.of_nat 10) with 10 in Hs. rewrite Hm, Hs by lia. unfold n.
  rewrite reverse_bits_val by lia. pose proof (lor_shl_app a (reverse b)) as Hl. rewrite Ha in Hl.
  apply Hl; [by_lengths|left; lia].
Qed.
End permutations_simple.

(** ** The circuit versions *)
Lemma slice_mid {A} (a b c : list A) n m :
  n = length a → m = (length a + length b)%nat → slice (a ++ b ++ c) n m = Ok b.
Proof.
  intros -> ->. unfold slice. rewrite !length_app.
  rewrite (proj2 (Nat.leb_le _ _)), (proj2 (Nat.leb_le _ _)) by lia. cbn [andb].
  rewrite drop_app_length. by replace (length a + length b - length a)%nat with (length b) by lia;
    rewrite take_app_length.
Qed.

Lemma slice_first {A} (a b : list A) n : n = length a → slice (a ++ b) 0 n = Ok a.
Proof. intros ->. by apply (slice_mid [] a b). Qed.

Lemma slice_last {A} (a b : list A) n : n = length a → slice_from (a ++ b) n = Ok b.
Proof.
  intros ->. unfold slice_from. rewrite <- (app_nil_r b) at 1.
  apply slice_mid; [done|]. by rewrite length_app.
Qed.

(** The heights for which a strategy is used: both trees together have at most
    64 levels, and no field fills a whole word. *)
Definition heights_ok (s : strategy_id) (c r g : Z) : Prop :=
  0 ≤ c ∧ 0 ≤ r ∧ 0 ≤ g ∧ c + r ≤ 64 ∧
  match s with
  | UserIdBitsStrategy0 | UserIdBitsStrategy1 => True
  | UserIdBitsStrategy2 => c ≤ 63 ∧ r ≤ 63
  | UserIdBitsStrategy3 => 10 ≤ c + r
  | UserIdBitsStrategy4 | UserIdBitsStrategy5 => g ≤ c ≤ 63 ∧ r ≤ 63
  end.

(** Splitting a list of bits at the boundaries of the fields. *)
Lemma split_at {A} (l : list A) n :
  (n ≤ length l)%nat → ∃ a b, l = a ++ b ∧ length a = n.
Proof. intros Hn. exists (take n l), (drop n l). rewrite take_drop, length_take. split; [done|lia]. Qed.

Lemma split_fields {A} (l : list A) (c r g : Z) :
  0 ≤ g ≤ c → 0 ≤ r → length l = Z.to_nat (c + r) →
  ∃ R U G, l = R ++ U ++ G ∧ g = Z.of_nat (length R) ∧ r = Z.of_nat (length U) ∧
    c = Z.of_nat (length R + length G).
Proof.
  intros Hg Hr Hl. destruct (split_at l (Z.to_nat g) ltac:(lia)) as (R & l' & -> & HR).
  rewrite length_app in Hl. destruct (split_at l' (Z.to_nat r) ltac:(lia)) as (U & G & -> & HU).
  rewrite length_app in Hl. exists R, U, G. split_and!; [done|lia..].
Qed.

Lemma split_half {A} (U : list A) : ∃ L H, U = L ++ H ∧ length L = ((length L + length H) `div` 2)%nat.
Proof.
  destruct (split_at U (length U `div` 2)) as (L & H & HU & HL); [apply Nat.Div0.div_le_upper_bound; lia|].
  exists L, H. split; [done|]. by rewrite <- length_app, <- HU.
Qed.

Section circuit_native.
Context (f : list bool → Z).

Lemma circuit_2_val (a b : list bool) (r g : Z) :
  circuit_2 f (a ++ b) (Z.of_nat (length a)) r g = Ok (f (b ++ reverse a)).
Proof. unfold circuit_2. by rewrite Nat2Z.id, slice_first, slice_last. Qed.

Lemma circuit_3_val (a b : list bool) (c r g : Z) :
  length a = 10%nat → circuit_3 f (a ++ b) c r g = Ok (f (a ++ reverse b)).
Proof. intros Ha. unfold circuit_3. by rewrite slice_first, slice_last. Qed.

Lemma circuit_5_val (R U G : list bool) (c : Z) :
  circuit_5 f (R ++ U ++ G) c (Z.of_nat (length U)) (Z.of_nat (length R)) =
  Ok (f (reverse U ++ reverse R ++ G)).
Proof.
  unfold circuit_5. rewrite !Nat2Z.id, slice_first by done. cbn [outcome_bind].
  rewrite slice_mid by done. cbn [outcome_bind].
  rewrite (app_assoc R U G), slice_last by by_lengths. done.
Qed.

Lemma circuit_4_val (R L H G : list bool) (c : Z) :
  length L = ((length L + length H) `div` 2)%nat →
  circuit_4 f (R ++ (L ++ H) ++ G) c (Z.of_nat (length L + length H)) (Z.of_nat (length R)) =
  Ok (f ((reverse H ++ L) ++ reverse R ++ G)).
Proof.
  intros Hhalf. unfold circuit_4. rewrite !Nat2Z.id, slice_first by done. cbn [outcome_bind].
  rewrite slice_mid by by_lengths. cbn [outcome_bind].
  rewrite (app_assoc R (L ++ H) G), slice_last by by_lengths. cbn [outcome_bind].
  rewrite <- Hhalf, slice_first, slice_last by done. done.
Qed.
End circuit_native.

Ltac heights := unfold heights_ok in *; rewrite ?length_app, ?length_reverse, ?length_app in *; lia.

(** The circuit and the native version agree. For every strategy and all
    heights it is used with, arranging the bits of a registration id as the
    circuit does and summing them is the native word computation, and no slice
    is out of range. *)
Theorem user_id_circuit_is_native (s : strategy_id) (c r g : Z) (bits : list bool) :
  heights_ok s c r g → length bits = Z.to_nat (c + r) →
  circuit_get_user_id (strategy s) bool Z le_sum_u64 bits c r g =
  Ok (get_user_id (strategy s) (le_sum_u64 bits) c r g).
Proof.
  intros Hh Hl. rewrite (le_sum_u64_val bits) by heights.
  destruct s; cbn [strategy circuit_get_user_id get_user_id].
  - unfold circuit_0. by rewrite le_sum_u64_val by heights.
  - destruct (split_at bits (Z.to_nat c)) as (a & b & -> & Ha); [heights|]. rewrite length_app in Hl.
    unfold circuit_1. rewrite le_sum_u64_val by heights.
    replace c with (Z.of_nat (length a)) by heights. replace r with (Z.of_nat (length b)) by heights.
    by rewrite native_1_val by heights.
  - destruct (split_at bits (Z.to_nat c)) as (a & b & -> & Ha); [heights|]. rewrite length_app in Hl.
    replace c with (Z.of_nat (length a)) by heights. replace r with (Z.of_nat (length b)) by heights.
    rewrite circuit_2_val, native_2_val by heights. by rewrite le_sum_u64_val by heights.
  - destruct (split_at bits 10) as (a & b & -> & Ha); [heights|]. rewrite length_app in Hl.
    rewrite circuit_3_val, native_3_val by heights. by rewrite le_sum_u64_val by heights.
  - destruct (split_fields bits c r g) as (R & U & G & -> & -> & -> & ->); [heights..|].
    destruct (split_half U) as (L & H & -> & HL). rewrite length_app.
    rewrite circuit_4_val, native_4_val by (exact HL || heights). by rewrite le_sum_u64_val by heights.
  - destruct (split_fields bits c r g) as (R & U & G & -> & -> & -> & ->); [heights..|].
    rewrite circuit_5_val, native_5_val by heights. by rewrite le_sum_u64_val by heights.
Qed.

Lemma user_id_circuit_is_native_witness :
  circuit_user_registration_tree_index_bits_to_user_id le_sum_u64 (word_bits 32 17) 12 20 4 =
  Ok (get_user_id_from_user_registration_id 17 12 20 4) ∧
  get_user_id_from_user_registration_id 17 12 20 4 = 8 * 2 ^ 20 + 2 ^ 19.
Proof.
  split; [|reflexivity].
  pose proof (user_id_circuit_is_native UserIdBitsStrategy5 12 20 4 (word_bits 32 17)) as H.
  replace (le_sum_u64 (word_bits 32 17)) with 17 in H by (vm_compute; reflexivity).
  apply H; [unfold heights_ok; lia|reflexivity].
Defined.

(** Each version permutes the bits, and the other one undoes it. *)
Definition undoes (f f' : Z → Z) (l : list bool) : Prop :=
  ∃ l', length l' = length l ∧ f (le_val l) = le_val l' ∧ f' (le_val l') = le_val l.

Ltac undo Hf Hf' :=
  rewrite ?reverse_involutive, ?length_reverse in Hf'; eexists; split_and!; [|exact Hf|exact Hf'];
  by_lengths.

Lemma undo_1 (c r g : Z) l :
  heights_ok UserIdBitsStrategy1 c r g → length l = Z.to_nat (c + r) →
  undoes (λ x, native_1 x c r g) (λ x, inverse_1 x c r g) l.
Proof.
  intros Hh Hl. unfold inverse_1. fold (native_1 (le_val l) c r g). exists (reverse l).
  rewrite length_reverse. split; [done|]. unfold native_1. rewrite wrap_small by heights.
  replace (c + r) with (Z.of_nat (length l)) by heights. split; [apply reverse_bits_val; heights|].
  rewrite <- (length_reverse l), reverse_bits_val by heights. by rewrite reverse_involutive.
Qed.

Lemma undo_2 (c r g : Z) l :
  heights_ok UserIdBitsStrategy2 c r g → length l = Z.to_nat (c + r) →
  undoes (λ x, native_2 x c r g) (λ x, inverse_2 x c r g) l ∧
  undoes (λ x, inverse_2 x c r g) (λ x, native_2 x c r g) l.
Proof.
  intros Hh Hl. split.
  - destruct (split_at l (Z.to_nat c)) as (a & b & -> & Ha); [heights|].
    replace c with (Z.of_nat (length a)) in * by heights. replace r with (Z.of_nat (length b)) in * by heights.
    pose proof (native_2_val a b ltac:(heights) g ltac:(heights) ltac:(heights)) as Hf.
    pose proof (inverse_2_val (reverse a) b ltac:(heights) g ltac:(heights) ltac:(heights)) as Hf'.
    undo Hf Hf'.
  - destruct (split_at l (Z.to_nat r)) as (b & a & -> & Hb); [heights|].
    replace c with (Z.of_nat (length a)) in * by heights. replace r with (Z.of_nat (length b)) in * by heights.
    pose proof (inverse_2_val a b ltac:(heights) g ltac:(heights) ltac:(heights)) as Hf.
    pose proof (native_2_val (reverse a) b ltac:(heights) g ltac:(heights) ltac:(heights)) as Hf'.
    undo Hf Hf'.
Qed.

Lemma undo_3 (c r g : Z) l :
  heights_ok UserIdBitsStrategy3 c r g → length l = Z.to_nat (c + r) →
  undoes (λ x, native_3 x c r g) (λ x, inverse_3 x c r g) l.
Proof.
  intros Hh Hl. destruct (split_at l 10) as (a & b & -> & Ha); [heights|].
  pose proof (native_3_val a b ltac:(heights) c r g Ha ltac:(heights)) as Hf.
  pose proof (native_3_val a (reverse b) ltac:(heights) c r g Ha ltac:(heights)) as Hf'.
  undo Hf Hf'.
Qed.

Lemma undo_4 (c r g : Z) l :
  heights_ok UserIdBitsStrategy4 c r g → length l = Z.to_nat (c + r) →
  undoes (λ x, native_4 x c r g) (λ x, inverse_4 x c r g) l ∧
  undoes (λ x, inverse_4 x c r g) (λ x, native_4 x c r g) l.
Proof.
  intros Hh Hl. split.
  - destruct (split_fields l c r g) as (R & U & G & -> & -> & -> & ->); [heights..|].
    destruct (split_half U) as (L & H & -> & HL). rewrite length_app.
    pose proof (native_4_val R L H G ltac:(heights) ltac:(heights) ltac:(heights) HL) as Hf.
    pose proof (inverse_4_val (reverse R) L (reverse H) G ltac:(heights) ltac:(heights) ltac:(heights)
      ltac:(by rewrite length_reverse)) as Hf'.
    undo Hf Hf'.
  - destruct (split_at l (Z.to_nat r)) as (U & l' & -> & HU); [heights|]. rewrite length_app in Hl.
    destruct (split_at l' (Z.to_nat g)) as (R & G & -> & HR); [heights|]. rewrite length_app in Hl.
    destruct (split_half (reverse U)) as (L & H & HU' & HL).
    apply (f_equal reverse) in HU'. rewrite reverse_involutive, reverse_app in HU'. subst U.
    replace r with (Z.of_nat (length (reverse L) + length (reverse H))) in * by heights.
    replace g with (Z.of_nat (length R)) in * by heights.
    replace c with (Z.of_nat (length R + length G)) in * by heights.
    pose proof (inverse_4_val R (reverse L) (reverse H) G ltac:(heights) ltac:(heights) ltac:(heights)
      ltac:(by rewrite !length_reverse)) as Hf.
    pose proof (native_4_val (reverse R) (reverse L) H G ltac:(heights) ltac:(heights) ltac:(heights)
      ltac:(by rewrite length_reverse)) as Hf'.
    rewrite !length_reverse in *. rewrite reverse_involutive in Hf. undo Hf Hf'.
Qed.

Lemma undo_5 (c r g : Z) l :
  heights_ok UserIdBitsStrategy5 c r g → length l = Z.to_nat (c + r) →
  undoes (λ x, native_5 x c r g) (λ x, inverse_5 x c r g) l ∧
  undoes (λ x, inverse_5 x c r g) (λ x, native_5 x c r g) l.
Proof.
  intros Hh Hl. split.
  - destruct (split_fields l c r g) as (R & U & G & -> & -> & -> & ->); [heights..|].
    pose proof (native_5_val R U G ltac:(heights) ltac:(heights) ltac:(heights)) as Hf.
    pose proof (inverse_5_val (reverse R) (reverse U) G ltac:(heights) ltac:(heights) ltac:(heights)) as Hf'.
    undo Hf Hf'.
  - destruct (split_at l (Z.to_nat r)) as (U & l' & -> & HU); [heights|]. rewrite length_app in Hl.
    destruct (split_at l' (Z.to_nat g)) as (R & G & -> & HR); [heights|]. rewrite length_app in Hl.
    replace r with (Z.of_nat (length U)) in * by heights.
    replace g with (Z.of_nat (length R)) in * by heights.
    replace c with (Z.of_nat (length R + length G)) in * by heights.
    pose proof (inverse_5_val R U G ltac:(heights) ltac:(heights) ltac:(heights)) as Hf.
    pose proof (native_5_val (reverse R) (reverse U) G ltac:(heights) ltac:(heights) ltac:(heights)) as Hf'.
    undo Hf Hf'.
Qed.

Lemma undo_strategy s (c r g : Z) l :
  heights_ok s c r g → length l = Z.to_nat (c + r) →
  undoes (λ x, get_user_id (strategy s) x c r g) (λ x, get_registration_id (strategy s) x c r g) l ∧
  undoes (λ x, get_registration_id (strategy s) x c r g) (λ x, get_user_id (strategy s) x c r g) l.
Proof.
  intros Hh Hl. destruct s.
  - split; by exists l.
  - split; by apply undo_1.
  - by apply undo_2.
  - split; by apply undo_3.
  - by apply undo_4.
  - by apply undo_5.
Qed.

(** User ids are a permutation of registration ids. For every strategy and
    all heights it is used with, the user id of a registration id below
    [2 ^ (c + r)] is again below that bound, and the two word computations are
    inverse to each other in both directions. *)
Theorem user_id_roundtrip (s : strategy_id) (c r g x : Z) :
  heights_ok s c r g → 0 ≤ x < 2 ^ (c + r) →
  0 ≤ get_user_id (strategy s) x c r g < 2 ^ (c + r) ∧
  get_registration_id (strategy s) (get_user_id (strategy s) x c r g) c r g = x ∧
  get_user_id (strategy s) (get_registration_id (strategy s) x c r g) c r g = x.
Proof.
  intros Hh Hx. assert (0 ≤ c + r) as Hcr by (unfold heights_ok in Hh; lia).
  set (l := word_bits (Z.to_nat (c + r)) x).
  assert (le_val l = x) as Hlx by (apply le_val_word_bits; by rewrite Z2Nat.id by lia).
  assert (length l = Z.to_nat (c + r)) as Hl by apply length_word_bits.
  destruct (undo_strategy s c r g l Hh Hl) as [(l1 & Hl1 & Hf1 & Hf1') (l2 & Hl2 & Hf2 & Hf2')].
  rewrite Hlx in *. rewrite Hf1, Hf2. split_and!; [| |done|done].
  - apply le_val_range.
  - pose proof (le_val_range l1) as Hr. rewrite Hl1, Hl, Z2Nat.id in Hr by lia. lia.
Qed.

Lemma user_id_roundtrip_witness :
  get_user_registration_id_from_user_id (get_user_id_from_user_registration_id 1000003 12 20 4) 12 20 4 = 1000003.
Proof.
  pose proof (user_id_roundtrip UserIdBitsStrategy5 12 20 4 1000003) as H.
  apply H; [unfold heights_ok; lia|lia].
Defined.
