(* ===== verification/Wire.v ===== *)
(** * The wire protocol of the Realm network

    [psy_data/src/p2p/codec.rs], [messages.rs], [limits.rs] and the signature
    decoding of [bls.rs]: strict little-endian encodings of the consensus and
    transfer messages. A reader is a state monad over the unread bytes; encoders
    return the bytes they append. Bytes are integers below 256. *)
From stdpp Require Import prelude list strings.
From Stdlib Require Import ZArith Lia.
From S2P Require Import Prelude.

(** ** Limits *)
Definition MAX_PROPOSAL_CHUNK_BYTES : Z := 61440.
Definition MAX_FINALIZER_OUTPUT_BYTES : Z := 410.
Definition MAX_FINALIZER_PROOF_BYTES : Z := 262144.
Definition MAX_BACKUP_BYTES : Z := 104857600.
Definition MAX_PROPOSAL_BODY_BYTES : Z :=
  3 * 4 + MAX_FINALIZER_OUTPUT_BYTES + MAX_FINALIZER_PROOF_BYTES + MAX_BACKUP_BYTES + 32.
Definition div_ceil (a b : Z) : Z := (a + b - 1) / b.
Definition MAX_PROPOSAL_PARTS : Z := div_ceil MAX_PROPOSAL_BODY_BYTES MAX_PROPOSAL_CHUNK_BYTES.
Definition BODY_CHUNK_MAX_BYTES : Z := 61440.
Definition PROPOSAL_WIRE_BYTES : Z := 214.
Definition MAX_PROPOSAL_LOOKUP_RESPONSE_BYTES : Z := 16384.
Definition BLS_SIGNATURE_LEN : Z := 96.
Definition PROPOSAL_LOOKUP_MAX_TRANSITIONS : Z := 256.
Definition PROPOSAL_LOOKUP_CANDIDATES_PER_TRANSITION : Z := 2.
Definition GOLDILOCKS_MODULUS : Z := 0xffffffff00000001.

(** ** Bytes and little-endian integers *)
Definition is_byte (b : Z) : Prop := 0 ≤ b < 256.

Fixpoint to_le_bytes (n : nat) (x : Z) : list Z :=
  match n with O => [] | S n => x mod 256 :: to_le_bytes n (x / 256) end.

Definition from_le_bytes (l : list Z) : Z := foldr (λ b acc, b + 256 * acc) 0 l.

(** ** The reader *)
Definition reader (A : Type) : Type := list Z → outcome (A * list Z).

Definition rret {A} (a : A) : reader A := λ bs, Ok (a, bs).
Definition rfail {A} (e : string) : reader A := λ _, Err e.
Definition rbind {A B} (m : reader A) (k : A → reader B) : reader B :=
  λ bs, let* (a, bs) := m bs in k a bs.

Notation "'let!' x := m 'in' k" := (rbind m (λ x, k))
  (at level 10, x name, m at level 100, k at level 200).

(** [ensure]-style early return. *)
Definition rguard {A} (b : bool) (e : string) (k : reader A) : reader A := if b then rfail e else k.

Definition remaining : reader Z := λ bs, Ok (Z.of_nat (length bs), bs).

Definition read_exact (n : Z) : reader (list Z) :=
  λ bs, if Z.of_nat (length bs) <? n then Err "UnexpectedEof"
        else Ok (take (Z.to_nat n) bs, drop (Z.to_nat n) bs).

Definition read_u8 : reader Z := let! buf := read_exact 1 in rret (from_le_bytes buf).
Definition read_u16 : reader Z := let! buf := read_exact 2 in rret (from_le_bytes buf).
Definition read_u32 : reader Z := let! buf := read_exact 4 in rret (from_le_bytes buf).
Definition read_u64 : reader Z := let! buf := read_exact 8 in rret (from_le_bytes buf).

Definition read_bool : reader bool :=
  let! value := read_u8 in
  if value =? 0 then rret false else if value =? 1 then rret true else rfail "InvalidBool".

Definition read_fixed (n : Z) : reader (list Z) := read_exact n.
Definition read_bytes_32 : reader (list Z) := read_fixed 32.

Definition read_bytes_u32 (max : Z) : reader (list Z) :=
  let! len := read_u32 in
  rguard (max <? len) "LengthLimit" (read_exact len).

(** ** Writers *)
Definition write_u8 (x : Z) : list Z := to_le_bytes 1 x.
Definition write_u16 (x : Z) : list Z := to_le_bytes 2 x.
Definition write_u32 (x : Z) : list Z := to_le_bytes 4 x.
Definition write_u64 (x : Z) : list Z := to_le_bytes 8 x.
Definition write_bool (b : bool) : list Z := [if b then 1 else 0].
Definition write_fixed (l : list Z) : list Z := l.

Definition write_bytes_u32 (l : list Z) : outcome (list Z) :=
  let len := Z.of_nat (length l) in
  if len <? 2 ^ 32 then Ok (write_u32 len ++ l) else Err "Overflow".

Definition validate_goldilocks_limb (value : Z) : bool := negb (GOLDILOCKS_MODULUS <=? value).

Definition validate_hash32_canonical (bytes : list Z) : bool :=
  forallb (λ i, validate_goldilocks_limb (from_le_bytes (take 8 (drop (i * 8) bytes)))) (seq 0 4).

(** No trailing bytes. *)
Definition decode_exact {A} (bs : list Z) (f : reader A) : outcome A :=
  let* (value, rest) := f bs in
  if (length rest =? 0)%nat then Ok value else Err "TrailingBytes".

(** ** Messages *)
Record RealmFinalizeOutputBytes : Type := mkFinalizeOutput { output_bytes : list Z }.

Record Proposal : Type := mkProposal {
  chain_id : Z;
  realm_id : Z;
  base_checkpoint_id : Z;
  proposer_sub_id : Z;
  validator_tree_root : list Z;
  proposal_id : list Z;
  public_output_hash : list Z;
  finalizer_proof_hash : list Z;
  backup_hash : list Z;
  body_hash : list Z;
}.

Inductive ProposalPart : Type :=
  | Start (proposal : Proposal) (total_parts body_len : Z)
  | Chunk (id : list Z) (offset : Z) (data : list Z).

Record Vote : Type := mkVote {
  vote_proposal_id : list Z;
  signer_sub_id : Z;
  signature : list Z;
}.

Record Certificate : Type := mkCertificate {
  cert_chain_id : Z;
  cert_realm_id : Z;
  cert_validator_tree_root : list Z;
  cert_proposal_id : list Z;
  signer_bitmap : list Z;
  aggregated_signature : list Z;
}.

Inductive RealmFinalizeSubmitCode : Type :=
  | Accepted | UnauthorizedSource | NotScheduledProposer | CheckpointUnavailable | InvalidOutput
  | InvalidProposal | InvalidCertificate | InvalidProof | AlreadyClaimed | CodeBusy | Internal.

Record BodyChunkRequest : Type := mkChunkRequest {
  req_proposal_id : list Z;
  req_offset : Z;
  max_bytes : Z;
}.

Record BodyChunkResponse : Type := mkChunkResponse {
  resp_offset : Z;
  resp_data : list Z;
  eof : bool;
  resp_body_len : Z;
  resp_body_hash : list Z;
}.

Record RealmTransition : Type := mkTransition { old_root : list Z; new_root : list Z }.

Record ProposalLookupRequest : Type := mkLookupRequest {
  lookup_chain_id : Z;
  lookup_realm_id : Z;
  transitions : list RealmTransition;
}.

Inductive ProposalLookupStatus : Type := Candidates | Empty | Truncated.

Record ProposalLookupEntry : Type := mkEntry {
  transition : RealmTransition;
  candidates : list Proposal;
}.

Record ProposalLookupResponse : Type := mkLookupResponse {
  status : ProposalLookupStatus;
  entries : list ProposalLookupEntry;
}.

Record EndCapForwardHeader : Type := mkEndCapHeader {
  ec_chain_id : Z;
  ec_realm_id : Z;
  ec_checkpoint_id : Z;
  end_cap_id : list Z;
  end_cap_input_len : Z;
  proof_len : Z;
}.

Inductive EndCapRejectReason : Type := RejectNone | AlreadySubmitted | RejectInvalid | RejectBusy.

Record EndCapForwardResponse : Type := mkEndCapResponse {
  accepted : bool;
  reject_reason : EndCapRejectReason;
  user_id : Z;
  unique_pending_id : Z;
}.

#[global] Instance status_eq_dec : EqDecision ProposalLookupStatus.
Proof. solve_decision. Defined.
#[global] Instance reason_eq_dec : EqDecision EndCapRejectReason.
Proof. solve_decision. Defined.
#[global] Instance proposal_eq_dec : EqDecision Proposal.
Proof. solve_decision. Defined.

(** ** Encoders *)
Definition encode_finalize_output (m : RealmFinalizeOutputBytes) : list Z := write_fixed (output_bytes m).

Definition encode_proposal (p : Proposal) : list Z :=
  write_u64 (chain_id p) ++ write_u32 (realm_id p) ++ write_u64 (base_checkpoint_id p) ++
  write_u16 (proposer_sub_id p) ++ write_fixed (validator_tree_root p) ++ write_fixed (proposal_id p) ++
  write_fixed (public_output_hash p) ++ write_fixed (finalizer_proof_hash p) ++
  write_fixed (backup_hash p) ++ write_fixed (body_hash p).

Definition encode_proposal_part (m : ProposalPart) : list Z :=
  match m with
  | Start proposal total_parts body_len =>
      write_u8 0 ++ encode_proposal proposal ++ write_u32 total_parts ++ write_u64 body_len
  | Chunk id offset data =>
      write_u8 1 ++ write_fixed id ++ write_u64 offset ++
      write_u32 (wrap 32 (Z.of_nat (length data))) ++ write_fixed data
  end.

Definition encode_vote (m : Vote) : list Z :=
  write_fixed (vote_proposal_id m) ++ write_u16 (signer_sub_id m) ++ write_fixed (signature m).

Definition encode_certificate (m : Certificate) : list Z :=
  write_u64 (cert_chain_id m) ++ write_u32 (cert_realm_id m) ++ write_fixed (cert_validator_tree_root m) ++
  write_fixed (cert_proposal_id m) ++ write_fixed (signer_bitmap m) ++ write_fixed (aggregated_signature m).

Definition encode_body_chunk_request (m : BodyChunkRequest) : list Z :=
  write_fixed (req_proposal_id m) ++ write_u64 (req_offset m) ++ write_u32 (max_bytes m).

(** The [expect] panics on data of [2 ^ 32] bytes or more. *)
Definition encode_body_chunk_response (m : BodyChunkResponse) : outcome (list Z) :=
  match write_bytes_u32 (resp_data m) with
  | Ok data => Ok (write_u64 (resp_offset m) ++ data ++ write_bool (eof m) ++
                   write_u64 (resp_body_len m) ++ write_fixed (resp_body_hash m))
  | _ => Panic
  end.

Definition encode_transition (t : RealmTransition) : list Z :=
  write_fixed (old_root t) ++ write_fixed (new_root t).

Definition encode_lookup_request (m : ProposalLookupRequest) : list Z :=
  write_u64 (lookup_chain_id m) ++ write_u32 (lookup_realm_id m) ++
  write_u32 (wrap 32 (Z.of_nat (length (transitions m)))) ++ concat (encode_transition <$> transitions m).

Definition status_to_u8 (s : ProposalLookupStatus) : Z :=
  match s with Candidates => 0 | Empty => 1 | Truncated => 2 end.

Definition entry_bytes (e : ProposalLookupEntry) : Z :=
  65 + Z.of_nat (length (candidates e)) * PROPOSAL_WIRE_BYTES.

(** The number of entries that fit into one response. *)
Fixpoint fitting (wire_bytes : Z) (es : list ProposalLookupEntry) : nat :=
  match es with
  | [] => 0
  | e :: es =>
      if MAX_PROPOSAL_LOOKUP_RESPONSE_BYTES <? wire_bytes + entry_bytes e then 0
      else S (fitting (wire_bytes + entry_bytes e) es)
  end.

Definition encode_entry (e : ProposalLookupEntry) : list Z :=
  write_fixed (old_root (transition e)) ++ write_fixed (new_root (transition e)) ++
  write_u8 (wrap 8 (Z.of_nat (length (candidates e)))) ++ concat (encode_proposal <$> candidates e).

Definition encode_lookup_response (m : ProposalLookupResponse) : list Z :=
  let count := fitting 5 (take (Z.to_nat PROPOSAL_LOOKUP_MAX_TRANSITIONS) (entries m)) in
  let status := if (count <? length (entries m))%nat then Truncated else status m in
  write_u8 (status_to_u8 status) ++ write_u32 (wrap 32 (Z.of_nat count)) ++
  concat (encode_entry <$> take count (entries m)).

Definition encode_end_cap_header (m : EndCapForwardHeader) : list Z :=
  write_u64 (ec_chain_id m) ++ write_u32 (ec_realm_id m) ++ write_u64 (ec_checkpoint_id m) ++
  write_fixed (end_cap_id m) ++ write_u32 (end_cap_input_len m) ++ write_u32 (proof_len m).

Definition reason_to_u8 (r : EndCapRejectReason) : Z :=
  match r with RejectNone => 0 | AlreadySubmitted => 1 | RejectInvalid => 2 | RejectBusy => 3 end.

Definition encode_end_cap_response (m : EndCapForwardResponse) : list Z :=
  write_bool (accepted m) ++ write_u8 (reason_to_u8 (reject_reason m)) ++ write_u64 (user_id m) ++
  write_u64 (unique_pending_id m).

Definition encode_proposal_body (finalizer_output finalizer_proof state_updates finalizer_worker_tag : list Z)
    : outcome (list Z) :=
  if negb (Z.of_nat (length finalizer_output) =? MAX_FINALIZER_OUTPUT_BYTES) then Err "InvalidLength" else
  if MAX_FINALIZER_PROOF_BYTES <? Z.of_nat (length finalizer_proof) then Err "LengthLimit" else
  if MAX_BACKUP_BYTES <? Z.of_nat (length state_updates) then Err "LengthLimit" else
  let* a := write_bytes_u32 finalizer_output in
  let* b := write_bytes_u32 finalizer_proof in
  let* c := write_bytes_u32 state_updates in
  Ok (a ++ b ++ c ++ finalizer_worker_tag).

(** ** Decoders *)
Section decoders.
(** [blst]'s point decoding and group check. *)
Context (blst_signature_valid : list Z → bool).

Definition bls_from_bytes (bytes : list Z) : outcome (list Z) :=
  if negb (Z.of_nat (length bytes) =? BLS_SIGNATURE_LEN) then Err "InvalidLength" else
  if Z.land (nth 0 bytes 0) 0x80 =? 0 then Err "InvalidBlsSignature" else
  if negb (blst_signature_valid bytes) then Err "InvalidBlsSignature" else Ok bytes.

Definition decode_bls_signature : reader (list Z) :=
  let! bytes := read_fixed BLS_SIGNATURE_LEN in
  λ bs, let* s := bls_from_bytes bytes in Ok (s, bs).

Definition decode_finalize_output : reader RealmFinalizeOutputBytes :=
  let! b := read_fixed MAX_FINALIZER_OUTPUT_BYTES in rret (mkFinalizeOutput b).

Definition try_from_finalize_output (bytes : list Z) : outcome RealmFinalizeOutputBytes :=
  if negb (Z.of_nat (length bytes) =? MAX_FINALIZER_OUTPUT_BYTES) then Err "InvalidLength"
  else Ok (mkFinalizeOutput bytes).

Definition decode_proposal : reader Proposal :=
  let! chain_id := read_u64 in
  let! realm_id := read_u32 in
  let! base_checkpoint_id := read_u64 in
  let! proposer_sub_id := read_u16 in
  let! validator_tree_root := read_bytes_32 in
  let! proposal_id := read_bytes_32 in
  let! public_output_hash := read_bytes_32 in
  let! finalizer_proof_hash := read_bytes_32 in
  let! backup_hash := read_bytes_32 in
  let! body_hash := read_bytes_32 in
  rret (mkProposal chain_id realm_id base_checkpoint_id proposer_sub_id validator_tree_root proposal_id
          public_output_hash finalizer_proof_hash backup_hash body_hash).

Definition decode_proposal_part : reader ProposalPart :=
  let! tag := read_u8 in
  if tag =? 0 then
    let! proposal := decode_proposal in
    let! total_parts := read_u32 in
    rguard (total_parts =? 0) "total_parts must be at least 1" (
    rguard (MAX_PROPOSAL_PARTS <? total_parts) "LengthLimit" (
    let! body_len := read_u64 in
    rguard (body_len =? 0) "body_len must be at least 1" (
    rguard (MAX_PROPOSAL_BODY_BYTES <? body_len) "LengthLimit" (
    rret (Start proposal total_parts body_len)))))
  else if tag =? 1 then
    let! id := read_bytes_32 in
    let! offset := read_u64 in
    let! data := read_bytes_u32 MAX_PROPOSAL_CHUNK_BYTES in
    rguard (length data =? 0)%nat "data must not be empty" (rret (Chunk id offset data))
  else rfail "UnknownTag".

Definition decode_vote : reader Vote :=
  let! proposal_id := read_bytes_32 in
  let! signer_sub_id := read_u16 in
  let! signature := decode_bls_signature in
  rret (mkVote proposal_id signer_sub_id signature).

Definition decode_certificate : reader Certificate :=
  let! chain_id := read_u64 in
  let! realm_id := read_u32 in
  let! validator_tree_root := read_bytes_32 in
  let! proposal_id := read_bytes_32 in
  let! signer_bitmap := read_bytes_32 in
  let! aggregated_signature := decode_bls_signature in
  rret (mkCertificate chain_id realm_id validator_tree_root proposal_id signer_bitmap aggregated_signature).

Definition submit_code_from_u8 (value : Z) : outcome RealmFinalizeSubmitCode :=
  match value with
  | 0 => Ok Accepted | 1 => Ok UnauthorizedSource | 2 => Ok NotScheduledProposer
  | 3 => Ok CheckpointUnavailable | 4 => Ok InvalidOutput | 5 => Ok InvalidProposal
  | 6 => Ok InvalidCertificate | 7 => Ok InvalidProof | 8 => Ok AlreadyClaimed | 9 => Ok CodeBusy
  | 10 => Ok Internal | _ => Err "UnknownTag"
  end.

Definition decode_body_chunk_request : reader BodyChunkRequest :=
  let! proposal_id := read_bytes_32 in
  let! offset := read_u64 in
  let! max_bytes := read_u32 in
  rguard ((max_bytes =? 0) || (BODY_CHUNK_MAX_BYTES <? max_bytes)) "LengthLimit"
    (rret (mkChunkRequest proposal_id offset max_bytes)).

Definition decode_body_chunk_response : reader BodyChunkResponse :=
  let! offset := read_u64 in
  let! data := read_bytes_u32 BODY_CHUNK_MAX_BYTES in
  let! eof := read_bool in
  let! body_len := read_u64 in
  rguard (MAX_PROPOSAL_BODY_BYTES <? body_len) "LengthLimit" (
  let! body_hash := read_bytes_32 in
  rret (mkChunkResponse offset data eof body_len body_hash)).

(** [for _ in 0..count] *)
Fixpoint read_list {A} (count : nat) (item : reader A) : reader (list A) :=
  match count with
  | O => rret []
  | S count => let! a := item in let! l := read_list count item in rret (a :: l)
  end.

Definition decode_transition : reader RealmTransition :=
  let! old_root := read_bytes_32 in
  let! new_root := read_bytes_32 in
  rret (mkTransition old_root new_root).

Definition decode_lookup_request : reader ProposalLookupRequest :=
  let! chain_id := read_u64 in
  let! realm_id := read_u32 in
  let! count := read_u32 in
  rguard ((count =? 0) || (PROPOSAL_LOOKUP_MAX_TRANSITIONS <? count)) "invalid transition count" (
  let! left_ := remaining in
  rguard (left_ <? count * 64) "UnexpectedEof" (
  let! transitions := read_list (Z.to_nat count) decode_transition in
  rret (mkLookupRequest chain_id realm_id transitions))).

Definition status_from_u8 (tag : Z) : outcome ProposalLookupStatus :=
  match tag with 0 => Ok Candidates | 1 => Ok Empty | 2 => Ok Truncated | _ => Err "UnknownTag" end.

Fixpoint read_entries (count : nat) (wire_bytes : Z) : reader (list ProposalLookupEntry) :=
  match count with
  | O => rret []
  | S count =>
      let! transition := decode_transition in
      let! candidate_count := read_u8 in
      rguard (PROPOSAL_LOOKUP_CANDIDATES_PER_TRANSITION <? candidate_count) "invalid candidate count" (
      let wire_bytes := wire_bytes + (65 + candidate_count * PROPOSAL_WIRE_BYTES) in
      rguard (MAX_PROPOSAL_LOOKUP_RESPONSE_BYTES <? wire_bytes) "response exceeds maximum" (
      let! candidates := read_list (Z.to_nat candidate_count) decode_proposal in
      let! es := read_entries count wire_bytes in
      rret (mkEntry transition candidates :: es)))
  end.

Definition has_candidates (es : list ProposalLookupEntry) : bool :=
  existsb (λ e, negb (length (candidates e) =? 0)%nat) es.

Definition decode_lookup_response : reader ProposalLookupResponse :=
  let! tag := read_u8 in
  let! status := λ bs, let* s := status_from_u8 tag in Ok (s, bs) in
  let! count := read_u32 in
  rguard (PROPOSAL_LOOKUP_MAX_TRANSITIONS <? count) "invalid entry count" (
  let! left_ := remaining in
  rguard (left_ <? count * 65) "UnexpectedEof" (
  let! entries := read_entries (Z.to_nat count) 5 in
  rguard ((bool_decide (status = Candidates) && negb (has_candidates entries)) ||
          (bool_decide (status = Empty) && has_candidates entries)) "non-canonical status"
    (rret (mkLookupResponse status entries)))).

Definition decode_exact_lookup_response (bs : list Z) : outcome ProposalLookupResponse :=
  if MAX_PROPOSAL_LOOKUP_RESPONSE_BYTES <? Z.of_nat (length bs) then Err "LengthLimit"
  else decode_exact bs decode_lookup_response.

Definition decode_end_cap_header : reader EndCapForwardHeader :=
  let! chain_id := read_u64 in
  let! realm_id := read_u32 in
  let! checkpoint_id := read_u64 in
  let! end_cap_id := read_bytes_32 in
  let! end_cap_input_len := read_u32 in
  let! proof_len := read_u32 in
  rret (mkEndCapHeader chain_id realm_id checkpoint_id end_cap_id end_cap_input_len proof_len).

Definition reject_reason_from_u8 (value : Z) : outcome EndCapRejectReason :=
  match value with
  | 0 => Ok RejectNone | 1 => Ok AlreadySubmitted | 2 => Ok RejectInvalid | 3 => Ok RejectBusy
  | _ => Err "UnknownTag"
  end.

Definition decode_end_cap_response : reader EndCapForwardResponse :=
  let! accepted := read_bool in
  let! tag := read_u8 in
  let! reject_reason := λ bs, let* r := reject_reason_from_u8 tag in Ok (r, bs) in
  let! user_id := read_u64 in
  let! unique_pending_id := read_u64 in
  rguard (if accepted : bool
          then bool_decide (reject_reason ≠ RejectNone) || negb (user_id =? 0) || negb (unique_pending_id =? 0)
          else bool_decide (reject_reason = RejectNone)) "non-canonical EndCap response"
    (rret (mkEndCapResponse accepted reject_reason user_id unique_pending_id)).

Definition proposal_body_reader : reader (list Z * list Z * list Z * list Z) :=
  let! output := read_bytes_u32 MAX_FINALIZER_OUTPUT_BYTES in
  rguard (negb (Z.of_nat (length output) =? MAX_FINALIZER_OUTPUT_BYTES)) "InvalidLength" (
  let! proof := read_bytes_u32 MAX_FINALIZER_PROOF_BYTES in
  let! state_updates := read_bytes_u32 MAX_BACKUP_BYTES in
  let! worker_tag := read_fixed 32 in
  rguard (negb (validate_hash32_canonical worker_tag)) "NonCanonicalField"
    (rret (output, proof, state_updates, worker_tag))).

Definition decode_proposal_body (body : list Z) : outcome (list Z * list Z * list Z * list Z) :=
  decode_exact body proposal_body_reader.
End decoders.

(** ** Strict codecs

    An encoder and a decoder are strict for the values in [wf] when the decoder
    reads back exactly what the encoder wrote, and accepts nothing else. *)
Abbreviation bytes := (Forall is_byte).

Class Strict {A} (wf : A → Prop) (enc : A → list Z) (dec : reader A) : Prop := {
  strict_read : ∀ a rest, wf a → dec (enc a ++ rest) = Ok (a, rest);
  strict_only : ∀ bs a rest, bytes bs → dec bs = Ok (a, rest) → wf a ∧ bs = enc a ++ rest;
}.

Definition uint_ok (w x : Z) : Prop := 0 ≤ x < 2 ^ w.
Definition array_ok (n : Z) (l : list Z) : Prop := Z.of_nat (length l) = n ∧ bytes l.
Definition vec_ok (max : Z) (l : list Z) : Prop := Z.of_nat (length l) ≤ max ∧ bytes l.

(** *** Little-endian integers *)
Lemma length_to_le_bytes n : ∀ x, length (to_le_bytes n x) = n.
Proof. induction n as [|n IH]; intros x; simpl; [done|]. by rewrite IH. Qed.

Lemma from_to_le_bytes n : ∀ x, 0 ≤ x < 2 ^ (8 * Z.of_nat n) → from_le_bytes (to_le_bytes n x) = x.
Proof.
  induction n as [|n IH]; intros x Hx; [cbn in *; lia|]. cbn [to_le_bytes from_le_bytes foldr].
  replace (8 * Z.of_nat (S n)) with (8 + 8 * Z.of_nat n) in Hx by lia.
  rewrite Z.pow_add_r in Hx by lia. change (2 ^ 8) with 256 in Hx.
  fold (from_le_bytes (to_le_bytes n (x / 256))). rewrite IH.
  - pose proof (Z.div_mod x 256). lia.
  - split; [apply Z.div_pos; lia|]. apply Z.div_lt_upper_bound; lia.
Qed.

Lemma from_le_bytes_range l : bytes l → 0 ≤ from_le_bytes l < 2 ^ (8 * Z.of_nat (length l)).
Proof.
  induction 1 as [|b l Hb Hl IH]; [cbn; lia|]. cbn [from_le_bytes foldr length].
  replace (8 * Z.of_nat (S (length l))) with (8 + 8 * Z.of_nat (length l)) by lia.
  rewrite Z.pow_add_r by lia. change (2 ^ 8) with 256. fold (from_le_bytes l). unfold is_byte in Hb. lia.
Qed.

Lemma to_from_le_bytes l : bytes l → to_le_bytes (length l) (from_le_bytes l) = l.
Proof.
  induction 1 as [|b l Hb Hl IH]; [done|]. cbn [from_le_bytes foldr length to_le_bytes].
  fold (from_le_bytes l). unfold is_byte in Hb. rewrite Z.mul_comm, Z.mod_add, Z.div_add by lia.
  rewrite Z.mod_small, Z.div_small by lia. by rewrite Z.add_0_l, IH.
Qed.

(** *** Sequencing *)
Lemma rbind_read {A B} {wf : A → Prop} {enc dec} `{!Strict wf enc dec} (k : A → reader B) a rest :
  wf a → rbind dec k (enc a ++ rest) = k a rest.
Proof. intros Ha. unfold rbind. by rewrite strict_read. Qed.

Lemma rbind_only {A B} {wf : A → Prop} {enc dec} `{!Strict wf enc dec} (k : A → reader B) bs b rest :
  bytes bs → rbind dec k bs = Ok (b, rest) →
  ∃ a bs', wf a ∧ bs = enc a ++ bs' ∧ bytes bs' ∧ k a bs' = Ok (b, rest).
Proof.
  intros Hb. unfold rbind. destruct (dec bs) as [[a bs']| | |] eqn:E; try done. cbn [outcome_bind]. intros Hk.
  destruct (strict_only bs a bs' Hb E) as [Ha ->]. apply Forall_app in Hb as [_ Hb]. eauto 6.
Qed.

Lemma rguard_false {A} b e (k : reader A) bs : b = false → rguard b e k bs = k bs.
Proof. by intros ->. Qed.

Lemma rguard_only {A} b e (k : reader A) bs r : rguard b e k bs = Ok r → b = false ∧ k bs = Ok r.
Proof. by destruct b. Qed.

(** *** Primitive codecs *)
#[global] Instance read_exact_strict n : 0 ≤ n → Strict (array_ok n) write_fixed (read_exact n).
Proof.
  intros Hn. split.
  - intros l rest [Hl _]. unfold read_exact, write_fixed. rewrite length_app.
    rewrite (proj2 (Z.ltb_ge _ _)) by lia. replace (Z.to_nat n) with (length l) by lia.
    by rewrite take_app_length, drop_app_length.
  - intros bs l rest Hb. unfold read_exact. destruct (Z.ltb_spec (Z.of_nat (length bs)) n); [done|].
    intros [= <- <-]. unfold write_fixed. rewrite take_drop. split; [|done].
    split; [rewrite length_take; lia|by apply Forall_take].
Qed.

Lemma read_uint_strict (n : nat) :
  Strict (uint_ok (8 * Z.of_nat n)) (to_le_bytes n)
    (let! buf := read_exact (Z.of_nat n) in rret (from_le_bytes buf)).
Proof.
  pose proof (read_exact_strict (Z.of_nat n) ltac:(lia)) as HS. split.
  - intros x rest Hx. change (to_le_bytes n x) with (write_fixed (to_le_bytes n x)).
    rewrite rbind_read.
    + unfold rret. by rewrite from_to_le_bytes.
    + split; [by rewrite length_to_le_bytes|]. clear Hx. revert x.
      induction n as [|n IH]; intros x; cbn [to_le_bytes]; constructor; [|apply IH].
      * unfold is_byte. apply Z.mod_pos_bound. lia.
      * apply read_exact_strict. lia.
  - intros bs x rest Hb H. apply rbind_only in H as (l & bs' & [Hl Hlb] & -> & _ & [= <- <-]); [|done].
    split.
    + pose proof (from_le_bytes_range l Hlb) as Hr. by rewrite Hl in Hr.
    + unfold write_fixed. replace n with (length l) by lia. by rewrite to_from_le_bytes.
Qed.

#[global] Instance read_u8_strict : Strict (uint_ok 8) write_u8 read_u8 := read_uint_strict 1.
#[global] Instance read_u16_strict : Strict (uint_ok 16) write_u16 read_u16 := read_uint_strict 2.
#[global] Instance read_u32_strict : Strict (uint_ok 32) write_u32 read_u32 := read_uint_strict 4.
#[global] Instance read_u64_strict : Strict (uint_ok 64) write_u64 read_u64 := read_uint_strict 8.
#[global] Instance read_bytes_32_strict : Strict (array_ok 32) write_fixed read_bytes_32 :=
  read_exact_strict 32 ltac:(lia).

#[global] Instance read_bool_strict : Strict (λ _, True) write_bool read_bool.
Proof.
  split.
  - intros b rest _. replace (write_bool b) with (write_u8 (if b then 1 else 0)) by (by destruct b).
    unfold read_bool. rewrite rbind_read by (destruct b; split; lia). by destruct b.
  - intros bs b rest Hb H. apply rbind_only in H as (x & bs' & Hx & -> & _ & H); [|done].
    destruct (Z.eqb_spec x 0) as [->|]; [injection H as <- <-; done|].
    destruct (Z.eqb_spec x 1) as [->|]; [injection H as <- <-; done|done].
Qed.

Definition write_vec (l : list Z) : list Z := write_u32 (Z.of_nat (length l)) ++ write_fixed l.

Lemma read_bytes_u32_strict max : max < 2 ^ 32 → Strict (vec_ok max) write_vec (read_bytes_u32 max).
Proof.
  intros Hmax. split.
  - intros l rest [Hl Hb]. unfold read_bytes_u32, write_vec. rewrite <- app_assoc.
    rewrite rbind_read by (split; lia). rewrite rguard_false by lia.
    pose proof (read_exact_strict (Z.of_nat (length l)) ltac:(lia)). by apply strict_read.
  - intros bs l rest Hb H. apply rbind_only in H as (len & bs' & Hlen & -> & Hb' & H); [|done].
    apply rguard_only in H as [Hle H]. pose proof (read_exact_strict len ltac:(destruct Hlen; lia)) as HS.
    apply strict_only in H as [[Hl Hlb] ->]; [|done]. split; [split; [lia|done]|].
    unfold write_vec. rewrite <- app_assoc, Hl. done.
Qed.

(** ** The messages *)
#[global] Instance read_finalize_output_fixed :
  Strict (array_ok MAX_FINALIZER_OUTPUT_BYTES) write_fixed (read_fixed MAX_FINALIZER_OUTPUT_BYTES).
Proof. by apply read_exact_strict. Qed.
#[global] Instance read_signature_fixed :
  Strict (array_ok BLS_SIGNATURE_LEN) write_fixed (read_fixed BLS_SIGNATURE_LEN).
Proof. by apply read_exact_strict. Qed.
#[global] Instance read_fixed_32 : Strict (array_ok 32) write_fixed (read_fixed 32).
Proof. by apply read_exact_strict. Qed.
#[global] Instance read_chunk_vec : Strict (vec_ok MAX_PROPOSAL_CHUNK_BYTES) write_vec (read_bytes_u32 MAX_PROPOSAL_CHUNK_BYTES).
Proof. by apply read_bytes_u32_strict. Qed.
#[global] Instance read_body_chunk_vec : Strict (vec_ok BODY_CHUNK_MAX_BYTES) write_vec (read_bytes_u32 BODY_CHUNK_MAX_BYTES).
Proof. by apply read_bytes_u32_strict. Qed.
#[global] Instance read_output_vec : Strict (vec_ok MAX_FINALIZER_OUTPUT_BYTES) write_vec (read_bytes_u32 MAX_FINALIZER_OUTPUT_BYTES).
Proof. by apply read_bytes_u32_strict. Qed.
#[global] Instance read_proof_vec : Strict (vec_ok MAX_FINALIZER_PROOF_BYTES) write_vec (read_bytes_u32 MAX_FINALIZER_PROOF_BYTES).
Proof. by apply read_bytes_u32_strict. Qed.
#[global] Instance read_backup_vec : Strict (vec_ok MAX_BACKUP_BYTES) write_vec (read_bytes_u32 MAX_BACKUP_BYTES).
Proof. by apply read_bytes_u32_strict. Qed.

(** Replaying a decoder on its own output, and inverting a successful run. *)
Ltac read_back :=
  rewrite <- ?app_assoc; repeat first [rewrite rbind_read by done | rewrite rguard_false by (done || lia)].

Ltac invert_reads :=
  repeat match goal with
  | H : rbind _ _ _ = Ok _ |- _ => apply rbind_only in H as (? & ? & ? & -> & ? & H); [|assumption]
  | H : rguard _ _ _ _ = Ok _ |- _ => apply rguard_only in H as [? H]
  | H : rret _ _ = Ok _ |- _ => injection H as <- <-
  end.

Definition finalize_output_wf (m : RealmFinalizeOutputBytes) : Prop :=
  array_ok MAX_FINALIZER_OUTPUT_BYTES (output_bytes m).

#[global] Instance finalize_output_strict :
  Strict finalize_output_wf encode_finalize_output decode_finalize_output.
Proof.
  split.
  - intros [l] rest Hm. unfold encode_finalize_output, decode_finalize_output. by read_back.
  - intros bs m rest Hb H. unfold decode_finalize_output in H. invert_reads. done.
Qed.

Definition proposal_wf (p : Proposal) : Prop :=
  uint_ok 64 (chain_id p) ∧ uint_ok 32 (realm_id p) ∧ uint_ok 64 (base_checkpoint_id p) ∧
  uint_ok 16 (proposer_sub_id p) ∧ array_ok 32 (validator_tree_root p) ∧ array_ok 32 (proposal_id p) ∧
  array_ok 32 (public_output_hash p) ∧ array_ok 32 (finalizer_proof_hash p) ∧
  array_ok 32 (backup_hash p) ∧ array_ok 32 (body_hash p).

#[global] Instance proposal_strict : Strict proposal_wf encode_proposal decode_proposal.
Proof.
  split.
  - intros p rest (? & ? & ? & ? & ? & ? & ? & ? & ? & ?). unfold encode_proposal, decode_proposal.
    read_back. by destruct p.
  - intros bs p rest Hb H. unfold decode_proposal in H. invert_reads. split; [by split_and!|].
    unfold encode_proposal; cbn. by rewrite <- !app_assoc.
Qed.

(** The limits as numbers. *)
Ltac limits :=
  change MAX_PROPOSAL_PARTS with 1711 in *; change MAX_PROPOSAL_BODY_BYTES with 105120198 in *;
  change BODY_CHUNK_MAX_BYTES with 61440 in *; unfold uint_ok in *; cbn in *; lia.

(** Tags are small numbers. *)
Lemma write_u8_small x : uint_ok 8 x → write_u8 x = [x].
Proof. intros Hx. unfold write_u8; cbn. by rewrite Z.mod_small. Qed.

Definition proposal_part_wf (m : ProposalPart) : Prop :=
  match m with
  | Start p total_parts body_len =>
      proposal_wf p ∧ 1 ≤ total_parts ≤ MAX_PROPOSAL_PARTS ∧ 1 ≤ body_len ≤ MAX_PROPOSAL_BODY_BYTES
  | Chunk id offset data =>
      array_ok 32 id ∧ uint_ok 64 offset ∧ vec_ok MAX_PROPOSAL_CHUNK_BYTES data ∧ data ≠ []
  end.

Lemma write_chunk_data data :
  Z.of_nat (length data) < 2 ^ 32 →
  write_u32 (wrap 32 (Z.of_nat (length data))) ++ write_fixed data = write_vec data.
Proof. intros Hl. by rewrite wrap_small by lia. Qed.

Lemma vec_ok_short max l : max < 2 ^ 32 → vec_ok max l → Z.of_nat (length l) < 2 ^ 32.
Proof. unfold vec_ok. lia. Qed.

#[global] Instance proposal_part_strict : Strict proposal_part_wf encode_proposal_part decode_proposal_part.
Proof.
  split.
  - intros [p n len|id offset data] rest Hm; unfold encode_proposal_part, decode_proposal_part.
    + destruct Hm as (Hp & Hn & Hlen). rewrite <- !app_assoc, rbind_read by (split; lia). cbn [Z.eqb].
      rewrite rbind_read by done. rewrite rbind_read by limits.
      rewrite !rguard_false by lia.
      rewrite rbind_read by limits.
      by rewrite !rguard_false by lia.
    + destruct Hm as (Hid & Ho & Hd & Hne). rewrite write_chunk_data by (eapply vec_ok_short; [|done]; done).
      rewrite <- !app_assoc, rbind_read by (split; lia). cbn [Z.eqb Pos.eqb].
      read_back. rewrite rguard_false; [done|]. by destruct data.
  - intros bs m rest Hb H. unfold decode_proposal_part in H.
    apply rbind_only in H as (tag & bs' & Ht & -> & Hb' & H); [|done].
    destruct (Z.eqb_spec tag 0) as [->|]; [|destruct (Z.eqb_spec tag 1) as [->|]; [|done]]; invert_reads.
    + split; [unfold proposal_part_wf, uint_ok in *; split_and!; (done || lia)|].
      unfold encode_proposal_part. by rewrite <- !app_assoc.
    + match goal with H : (length ?d =? 0)%nat = false |- _ => assert (d ≠ []) by (by destruct d) end.
      split; [by split_and!|]. unfold encode_proposal_part.
      rewrite write_chunk_data by (eapply vec_ok_short; [|done]; done). by rewrite <- !app_assoc.
Qed.

(** *** Votes and certificates *)
Section signatures.
Context (blst_signature_valid : list Z → bool).

Definition signature_ok (s : list Z) : Prop :=
  array_ok BLS_SIGNATURE_LEN s ∧ Z.land (nth 0 s 0) 0x80 ≠ 0 ∧ blst_signature_valid s = true.

#[global] Instance signature_strict :
  Strict signature_ok write_fixed (decode_bls_signature blst_signature_valid).
Proof.
  split.
  - intros s rest (Hs & Hbit & Hv). unfold decode_bls_signature. rewrite rbind_read by done.
    unfold bls_from_bytes. destruct Hs as [-> _]. rewrite Z.eqb_refl, (proj2 (Z.eqb_neq _ _)), Hv by done. done.
  - intros bs s rest Hb H. unfold decode_bls_signature in H. invert_reads.
    unfold bls_from_bytes in H. case_match; [done|]. case_match eqn:E; [done|].
    case_match eqn:Ev; [done|]. injection H as <- <-. split; [|done].
    split_and!; [done|by apply Z.eqb_neq|by apply negb_false_iff].
Qed.

Definition vote_wf (m : Vote) : Prop :=
  array_ok 32 (vote_proposal_id m) ∧ uint_ok 16 (signer_sub_id m) ∧ signature_ok (signature m).

#[global] Instance vote_strict : Strict vote_wf encode_vote (decode_vote blst_signature_valid).
Proof.
  split.
  - intros [] rest (? & ? & ?). unfold encode_vote, decode_vote. by read_back.
  - intros bs m rest Hb H. unfold decode_vote in H. invert_reads. split; [by split_and!|].
    unfold encode_vote. by rewrite <- !app_assoc.
Qed.

Definition certificate_wf (m : Certificate) : Prop :=
  uint_ok 64 (cert_chain_id m) ∧ uint_ok 32 (cert_realm_id m) ∧ array_ok 32 (cert_validator_tree_root m) ∧
  array_ok 32 (cert_proposal_id m) ∧ array_ok 32 (signer_bitmap m) ∧ signature_ok (aggregated_signature m).

#[global] Instance certificate_strict :
  Strict certificate_wf encode_certificate (decode_certificate blst_signature_valid).
Proof.
  split.
  - intros [] rest (? & ? & ? & ? & ? & ?). unfold encode_certificate, decode_certificate. by read_back.
  - intros bs m rest Hb H. unfold decode_certificate in H. invert_reads. split; [by split_and!|].
    unfold encode_certificate. by rewrite <- !app_assoc.
Qed.
End signatures.

(** *** Body transfer *)
Definition chunk_request_wf (m : BodyChunkRequest) : Prop :=
  array_ok 32 (req_proposal_id m) ∧ uint_ok 64 (req_offset m) ∧ 1 ≤ max_bytes m ≤ BODY_CHUNK_MAX_BYTES.

#[global] Instance chunk_request_strict :
  Strict chunk_request_wf encode_body_chunk_request decode_body_chunk_request.
Proof.
  split.
  - intros [] rest (? & ? & ?). unfold encode_body_chunk_request, decode_body_chunk_request.
    rewrite <- !app_assoc, !rbind_read by (done || limits).
    by rewrite rguard_false by limits.
  - intros bs m rest Hb H. unfold decode_body_chunk_request in H. invert_reads.
    split; [unfold chunk_request_wf, uint_ok in *; cbn; split_and!; (done || lia)|].
    unfold encode_body_chunk_request. by rewrite <- !app_assoc.
Qed.

Definition chunk_response_wf (m : BodyChunkResponse) : Prop :=
  uint_ok 64 (resp_offset m) ∧ vec_ok BODY_CHUNK_MAX_BYTES (resp_data m) ∧
  0 ≤ resp_body_len m ≤ MAX_PROPOSAL_BODY_BYTES ∧ array_ok 32 (resp_body_hash m).

Definition chunk_response_bytes (m : BodyChunkResponse) : list Z :=
  write_u64 (resp_offset m) ++ write_vec (resp_data m) ++ write_bool (eof m) ++
  write_u64 (resp_body_len m) ++ write_fixed (resp_body_hash m).

Lemma write_bytes_u32_ok l : Z.of_nat (length l) < 2 ^ 32 → write_bytes_u32 l = Ok (write_vec l).
Proof. intros Hl. unfold write_bytes_u32. by rewrite (proj2 (Z.ltb_lt _ _)) by lia. Qed.

Lemma encode_body_chunk_response_ok m :
  chunk_response_wf m → encode_body_chunk_response m = Ok (chunk_response_bytes m).
Proof.
  intros (_ & Hd & _). unfold encode_body_chunk_response.
  by rewrite write_bytes_u32_ok by (eapply vec_ok_short; [|done]; done).
Qed.

#[global] Instance chunk_response_strict :
  Strict chunk_response_wf chunk_response_bytes decode_body_chunk_response.
Proof.
  split.
  - intros [] rest (? & ? & ? & ?). unfold chunk_response_bytes, decode_body_chunk_response.
    rewrite <- !app_assoc. do 4 rewrite rbind_read by (done || limits).
    rewrite rguard_false by limits. by read_back.
  - intros bs m rest Hb H. unfold decode_body_chunk_response in H. invert_reads.
    split; [unfold chunk_response_wf, uint_ok in *; cbn; split_and!; (done || lia)|].
    unfold chunk_response_bytes. by rewrite <- !app_assoc.
Qed.

(** *** Lists *)
Definition list_ok {A} (wf : A → Prop) (n : nat) (l : list A) : Prop := length l = n ∧ Forall wf l.

Definition write_list {A} (enc : A → list Z) (l : list A) : list Z := concat (enc <$> l).

#[global] Instance read_list_strict {A} {wf : A → Prop} {enc dec} `{!Strict wf enc dec} n :
  Strict (list_ok wf n) (write_list enc) (read_list n dec).
Proof.
  induction n as [|n IH]; split.
  - by intros [|a l] rest [? _].
  - intros bs l rest Hb [= <- <-]. by split; [split|].
  - intros [|a l] rest [Hl Hwf]; [done|]. injection Hl as Hl. apply Forall_cons in Hwf as [Ha Hwf]. cbn [read_list].
    change (write_list enc (a :: l)) with (enc a ++ write_list enc l). rewrite <- app_assoc.
    rewrite rbind_read by done. by rewrite rbind_read by done.
  - intros bs l rest Hb H. cbn [read_list] in H. invert_reads.
    match goal with H : list_ok _ _ _ |- _ => destruct H as [Hl Hwf] end.
    split; [split; [cbn; congruence|by constructor]|]. cbn. by rewrite <- app_assoc.
Qed.

Lemma rbind_remaining {B} (k : Z → reader B) bs : rbind remaining k bs = k (Z.of_nat (length bs)) bs.
Proof. done. Qed.

Lemma length_write_list {A} (enc : A → list Z) (wf : A → Prop) n l :
  (∀ a, wf a → length (enc a) = n) → Forall wf l → length (write_list enc l) = (n * length l)%nat.
Proof.
  intros Henc. induction 1 as [|a l Ha Hl IH]; [cbn; lia|].
  change (write_list enc (a :: l)) with (enc a ++ write_list enc l).
  rewrite length_app, IH, Henc by done. cbn. lia.
Qed.

Definition transition_wf (t : RealmTransition) : Prop := array_ok 32 (old_root t) ∧ array_ok 32 (new_root t).

#[global] Instance transition_strict : Strict transition_wf encode_transition decode_transition.
Proof.
  split.
  - intros [] rest (? & ?). unfold encode_transition, decode_transition. by read_back.
  - intros bs m rest Hb H. unfold decode_transition in H. invert_reads. split; [by split_and!|].
    unfold encode_transition. by rewrite <- !app_assoc.
Qed.

Lemma length_encode_transition t : transition_wf t → length (encode_transition t) = 64%nat.
Proof. intros [[H1 _] [H2 _]]. unfold encode_transition, write_fixed. rewrite length_app. lia. Qed.

(** *** Lookups *)
Definition lookup_request_wf (m : ProposalLookupRequest) : Prop :=
  uint_ok 64 (lookup_chain_id m) ∧ uint_ok 32 (lookup_realm_id m) ∧
  1 ≤ Z.of_nat (length (transitions m)) ≤ PROPOSAL_LOOKUP_MAX_TRANSITIONS ∧
  Forall transition_wf (transitions m).

#[global] Instance lookup_request_strict :
  Strict lookup_request_wf encode_lookup_request decode_lookup_request.
Proof.
  split.
  - intros m rest (Hc & Hr & Hn & Ht). unfold PROPOSAL_LOOKUP_MAX_TRANSITIONS in Hn.
    unfold encode_lookup_request, decode_lookup_request. rewrite wrap_small by lia.
    fold (write_list encode_transition (transitions m)). rewrite <- !app_assoc.
    do 3 rewrite rbind_read by (done || (unfold uint_ok; lia)).
    rewrite rguard_false by (unfold PROPOSAL_LOOKUP_MAX_TRANSITIONS; lia).
    rewrite rbind_remaining, rguard_false.
    + rewrite Nat2Z.id, rbind_read by done. by destruct m.
    + rewrite length_app, (length_write_list _ transition_wf 64) by (done || apply length_encode_transition).
      apply Z.ltb_ge. rewrite Nat2Z.inj_add, Nat2Z.inj_mul. lia.
  - intros bs m rest Hb H. unfold decode_lookup_request in H.
    apply rbind_only in H as (c & bs1 & Hc & -> & Hb1 & H); [|done].
    apply rbind_only in H as (r & bs2 & Hr & -> & Hb2 & H); [|done].
    apply rbind_only in H as (n & bs3 & Hn & -> & Hb3 & H); [|done].
    apply rguard_only in H as [Hg H]. rewrite rbind_remaining in H. apply rguard_only in H as [_ H].
    apply rbind_only in H as (ts & bs4 & [Hl Hts] & -> & Hb4 & H); [|done]. injection H as <- <-.
    unfold uint_ok in Hn. split.
    + split_and!; [done|done|cbn; lia|cbn; lia|done].
    + unfold encode_lookup_request; cbn [lookup_chain_id lookup_realm_id transitions]. rewrite Hl.
      rewrite wrap_small by lia. rewrite Z2Nat.id by lia. by rewrite <- !app_assoc.
Qed.

(** *** End caps *)
Definition end_cap_header_wf (m : EndCapForwardHeader) : Prop :=
  uint_ok 64 (ec_chain_id m) ∧ uint_ok 32 (ec_realm_id m) ∧ uint_ok 64 (ec_checkpoint_id m) ∧
  array_ok 32 (end_cap_id m) ∧ uint_ok 32 (end_cap_input_len m) ∧ uint_ok 32 (proof_len m).

#[global] Instance end_cap_header_strict :
  Strict end_cap_header_wf encode_end_cap_header decode_end_cap_header.
Proof.
  split.
  - intros [] rest (? & ? & ? & ? & ? & ?). unfold encode_end_cap_header, decode_end_cap_header. by read_back.
  - intros bs m rest Hb H. unfold decode_end_cap_header in H. invert_reads. split; [by split_and!|].
    unfold encode_end_cap_header. by rewrite <- !app_assoc.
Qed.

(** A rejection of any kind may carry an identity on the wire. *)
Definition end_cap_response_wf (m : EndCapForwardResponse) : Prop :=
  uint_ok 64 (user_id m) ∧ uint_ok 64 (unique_pending_id m) ∧
  if accepted m then reject_reason m = RejectNone ∧ user_id m = 0 ∧ unique_pending_id m = 0
  else reject_reason m ≠ RejectNone.

Lemma reason_tag r : reject_reason_from_u8 (reason_to_u8 r) = Ok r ∧ uint_ok 8 (reason_to_u8 r).
Proof. by destruct r. Qed.

Lemma reason_tag_inv x r : reject_reason_from_u8 x = Ok r → x = reason_to_u8 r.
Proof.
  unfold reject_reason_from_u8. destruct x as [|p|]; [by intros [= <-]| |done].
  by destruct p as [[|[]|]|[|[]|]|]; intros [= <-].
Qed.

#[global] Instance end_cap_response_strict :
  Strict end_cap_response_wf encode_end_cap_response decode_end_cap_response.
Proof.
  split.
  - intros [a r u i] rest (Hu & Hi & Hm). unfold encode_end_cap_response, decode_end_cap_response.
    cbn [accepted reject_reason user_id unique_pending_id] in *. destruct (reason_tag r) as [Hr Hr8].
    rewrite <- !app_assoc. do 2 rewrite rbind_read by done. unfold rbind at 1. rewrite Hr. cbn [outcome_bind].
    do 2 rewrite rbind_read by done. rewrite rguard_false; [done|].
    destruct a; [destruct Hm as (-> & -> & ->); done|by rewrite bool_decide_false].
  - intros bs m rest Hb H. unfold decode_end_cap_response in H.
    apply rbind_only in H as (a & bs1 & _ & -> & Hb1 & H); [|done].
    apply rbind_only in H as (x & bs2 & Hx & -> & Hb2 & H); [|done].
    unfold rbind at 1 in H. destruct (reject_reason_from_u8 x) as [r| | |] eqn:E; try done.
    apply reason_tag_inv in E as ->. cbn [outcome_bind] in H. invert_reads.
    split; [|unfold encode_end_cap_response; by rewrite <- !app_assoc].
    split_and!; [done|done|]. cbn [accepted reject_reason user_id unique_pending_id]. destruct a.
    + match goal with H : _ || _ || _ = false |- _ => apply orb_false_iff in H as [[Hr Hu]%orb_false_iff Hi] end.
      apply bool_decide_eq_false_1, dec_stable in Hr. split_and!; [done|lia|lia].
    + by eapply bool_decide_eq_false_1.
Qed.

(** *** Lookup responses *)
Definition entry_wf (e : ProposalLookupEntry) : Prop :=
  transition_wf (transition e) ∧
  Z.of_nat (length (candidates e)) ≤ PROPOSAL_LOOKUP_CANDIDATES_PER_TRANSITION ∧
  Forall proposal_wf (candidates e).

Definition entries_bytes (es : list ProposalLookupEntry) : Z := foldr (λ e n, entry_bytes e + n) 0 es.

Definition entries_ok (n : nat) (wire_bytes : Z) (es : list ProposalLookupEntry) : Prop :=
  length es = n ∧ Forall entry_wf es ∧
  wire_bytes + entries_bytes es ≤ MAX_PROPOSAL_LOOKUP_RESPONSE_BYTES.

Lemma entry_bytes_pos e : 65 ≤ entry_bytes e.
Proof. unfold entry_bytes, PROPOSAL_WIRE_BYTES. lia. Qed.

Lemma entries_bytes_ge es : 65 * Z.of_nat (length es) ≤ entries_bytes es.
Proof.
  induction es as [|e es IH]; [done|]. cbn [entries_bytes foldr length]. fold (entries_bytes es).
  pose proof (entry_bytes_pos e). lia.
Qed.

Lemma encode_entry_list e :
  entry_wf e →
  encode_entry e = encode_transition (transition e) ++
    write_u8 (Z.of_nat (length (candidates e))) ++ write_list encode_proposal (candidates e).
Proof.
  intros (_ & Hn & _). unfold PROPOSAL_LOOKUP_CANDIDATES_PER_TRANSITION in Hn. unfold encode_entry.
  rewrite wrap_small by lia. unfold encode_transition. by rewrite <- !app_assoc.
Qed.

Lemma read_entries_strict n : ∀ wire_bytes,
  wire_bytes ≤ MAX_PROPOSAL_LOOKUP_RESPONSE_BYTES →
  Strict (entries_ok n wire_bytes) (write_list encode_entry) (read_entries n wire_bytes).
Proof.
  induction n as [|n IH]; intros wb Hwb; split.
  - by intros [|e es] rest [? _].
  - intros bs es rest Hb [= <- <-]. split; [split_and!; [done|done|cbn; lia]|done].
  - intros [|e es] rest (Hl & Hwf & Hs); [done|]. injection Hl as Hl.
    apply Forall_cons in Hwf as [He Hwf]. cbn [entries_bytes foldr] in Hs. fold (entries_bytes es) in Hs.
    pose proof (entries_bytes_ge es). cbn [read_entries].
    change (write_list encode_entry (e :: es)) with (encode_entry e ++ write_list encode_entry es).
    rewrite encode_entry_list by done. destruct He as (Ht & Hn & Hc). rewrite <- !app_assoc.
    unfold PROPOSAL_LOOKUP_CANDIDATES_PER_TRANSITION in Hn.
    do 2 rewrite rbind_read by (done || (unfold uint_ok; lia)).
    rewrite rguard_false by (unfold PROPOSAL_LOOKUP_CANDIDATES_PER_TRANSITION; lia).
    fold (entry_bytes e). rewrite rguard_false by lia. rewrite Nat2Z.id, rbind_read by done.
    pose proof (IH (wb + entry_bytes e) ltac:(lia)) as HS.
    rewrite rbind_read by (split_and!; [done|done|lia]). by destruct e.
  - intros bs es rest Hb H. cbn [read_entries] in H.
    apply rbind_only in H as (t & bs1 & Ht & -> & Hb1 & H); [|done].
    apply rbind_only in H as (c & bs2 & Hc & -> & Hb2 & H); [|done].
    apply rguard_only in H as [Hg1 H]. apply rguard_only in H as [Hg2 H].
    apply rbind_only in H as (ps & bs3 & [Hl Hps] & -> & Hb3 & H); [|done].
    pose proof (IH (wb + (65 + c * PROPOSAL_WIRE_BYTES)) ltac:(lia)) as HS.
    apply rbind_only in H as (es' & bs4 & (Hl' & Hwf & Hs) & -> & Hb4 & H); [|done]. injection H as <- <-.
    unfold uint_ok in Hc. assert (c = Z.of_nat (length ps)) as -> by lia.
    assert (entry_wf (mkEntry t ps)) as He by (split_and!; [done|cbn; lia|done]).
    split; [split_and!; [cbn; congruence|by constructor|]|].
    + cbn [entries_bytes foldr]. fold (entries_bytes es'). unfold entry_bytes; cbn [candidates]. lia.
    + change (write_list encode_entry (mkEntry t ps :: es')) with
        (encode_entry (mkEntry t ps) ++ write_list encode_entry es').
      rewrite encode_entry_list by done. by rewrite <- !app_assoc.
Qed.

(** The status matches the entries. *)
Definition status_ok (s : ProposalLookupStatus) (es : list ProposalLookupEntry) : bool :=
  match s with Candidates => has_candidates es | Empty => negb (has_candidates es) | Truncated => true end.

Definition lookup_response_wf (m : ProposalLookupResponse) : Prop :=
  Forall entry_wf (entries m) ∧ 5 + entries_bytes (entries m) ≤ MAX_PROPOSAL_LOOKUP_RESPONSE_BYTES ∧
  status_ok (status m) (entries m) = true.

(** At most 251 entries fit, so the count of 256 is never the bound. *)
Lemma response_count m :
  5 + entries_bytes (entries m) ≤ MAX_PROPOSAL_LOOKUP_RESPONSE_BYTES →
  Z.of_nat (length (entries m)) ≤ PROPOSAL_LOOKUP_MAX_TRANSITIONS.
Proof.
  pose proof (entries_bytes_ge (entries m)).
  unfold MAX_PROPOSAL_LOOKUP_RESPONSE_BYTES, PROPOSAL_LOOKUP_MAX_TRANSITIONS. lia.
Qed.

Lemma fitting_all es : ∀ wb,
  wb + entries_bytes es ≤ MAX_PROPOSAL_LOOKUP_RESPONSE_BYTES → fitting wb es = length es.
Proof.
  induction es as [|e es IH]; intros wb Hs; [done|]. cbn [entries_bytes foldr] in Hs. fold (entries_bytes es) in Hs.
  pose proof (entries_bytes_ge es). cbn [fitting]. rewrite (proj2 (Z.ltb_ge _ _)) by lia.
  rewrite IH by lia. done.
Qed.

Lemma length_encode_proposal p : proposal_wf p → length (encode_proposal p) = 214%nat.
Proof.
  intros (_ & _ & _ & _ & [H1 _] & [H2 _] & [H3 _] & [H4 _] & [H5 _] & [H6 _]).
  unfold encode_proposal, write_fixed, write_u64, write_u32, write_u16.
  rewrite !length_app, !length_to_le_bytes. lia.
Qed.

Lemma length_encode_entry e : entry_wf e → Z.of_nat (length (encode_entry e)) = entry_bytes e.
Proof.
  intros He. rewrite encode_entry_list by done. destruct He as (Ht & _ & Hc).
  rewrite !length_app, length_encode_transition by done. unfold write_u8. rewrite length_to_le_bytes.
  rewrite (length_write_list _ proposal_wf 214) by (done || apply length_encode_proposal).
  unfold entry_bytes, PROPOSAL_WIRE_BYTES. rewrite !Nat2Z.inj_add, Nat2Z.inj_mul. lia.
Qed.

Lemma length_encode_entries es :
  Forall entry_wf es → Z.of_nat (length (write_list encode_entry es)) = entries_bytes es.
Proof.
  induction 1 as [|e es He Hes IH]; [done|].
  change (write_list encode_entry (e :: es)) with (encode_entry e ++ write_list encode_entry es).
  rewrite length_app, Nat2Z.inj_add, IH, length_encode_entry by done. done.
Qed.

Definition plain_response_bytes (m : ProposalLookupResponse) : list Z :=
  write_u8 (status_to_u8 (status m)) ++ write_u32 (Z.of_nat (length (entries m))) ++
  write_list encode_entry (entries m).

Lemma encode_fitting_response m :
  5 + entries_bytes (entries m) ≤ MAX_PROPOSAL_LOOKUP_RESPONSE_BYTES →
  encode_lookup_response m = plain_response_bytes m.
Proof.
  intros Hs. pose proof (response_count m Hs) as Hn. unfold PROPOSAL_LOOKUP_MAX_TRANSITIONS in Hn.
  unfold encode_lookup_response, plain_response_bytes.
  rewrite (take_ge (entries m)) by (unfold PROPOSAL_LOOKUP_MAX_TRANSITIONS; lia).
  rewrite fitting_all by done. rewrite Nat.ltb_irrefl, firstn_all, wrap_small by lia. done.
Qed.

Lemma status_tag s : status_from_u8 (status_to_u8 s) = Ok s ∧ uint_ok 8 (status_to_u8 s).
Proof. by destruct s. Qed.

Lemma status_tag_inv x s : status_from_u8 x = Ok s → x = status_to_u8 s.
Proof.
  unfold status_from_u8. destruct x as [|p|]; [by intros [= <-]| |done].
  by destruct p as [|[]|]; intros [= <-].
Qed.

Lemma status_guard s es :
  (bool_decide (s = Candidates) && negb (has_candidates es)) || (bool_decide (s = Empty) && has_candidates es) =
  negb (status_ok s es).
Proof. destruct s; cbn; by destruct (has_candidates es). Qed.

#[global] Instance lookup_response_strict :
  Strict lookup_response_wf encode_lookup_response decode_lookup_response.
Proof.
  pose proof (λ n, read_entries_strict n 5 ltac:(done)) as HS. split.
  - intros m rest (Hwf & Hs & Hst). rewrite encode_fitting_response by done.
    pose proof (response_count m Hs) as Hn. unfold plain_response_bytes, decode_lookup_response.
    destruct (status_tag (status m)) as [Htag Ht8]. rewrite <- !app_assoc, rbind_read by done.
    unfold rbind at 1. rewrite Htag. cbn [outcome_bind].
    rewrite rbind_read by (unfold uint_ok, PROPOSAL_LOOKUP_MAX_TRANSITIONS in *; lia).
    rewrite rguard_false by lia. rewrite rbind_remaining, rguard_false.
    + rewrite Nat2Z.id, rbind_read by (by split_and!). rewrite status_guard, Hst. by destruct m.
    + rewrite length_app, Nat2Z.inj_add, length_encode_entries by done.
      pose proof (entries_bytes_ge (entries m)). apply Z.ltb_ge. lia.
  - intros bs m rest Hb H. unfold decode_lookup_response in H.
    apply rbind_only in H as (x & bs1 & Hx & -> & Hb1 & H); [|done].
    unfold rbind at 1 in H. destruct (status_from_u8 x) as [s| | |] eqn:E; try done.
    apply status_tag_inv in E as ->. cbn [outcome_bind] in H.
    apply rbind_only in H as (n & bs2 & Hn & -> & Hb2 & H); [|done].
    apply rguard_only in H as [Hg H]. rewrite rbind_remaining in H. apply rguard_only in H as [_ H].
    apply rbind_only in H as (es & bs3 & (Hl & Hes & Hs) & -> & Hb3 & H); [|done].
    apply rguard_only in H as [Hst H]. injection H as <- <-. rewrite status_guard in Hst.
    apply negb_false_iff in Hst. unfold uint_ok in Hn. split; [by split_and!|].
    rewrite encode_fitting_response by done. unfold plain_response_bytes; cbn [status entries].
    rewrite Hl, Z2Nat.id by lia. by rewrite <- !app_assoc.
Qed.

(** The longest prefix of the entries that fits. *)
Lemma fitting_spec es : ∀ wb,
  wb ≤ MAX_PROPOSAL_LOOKUP_RESPONSE_BYTES →
  let n := fitting wb es in
  (n ≤ length es)%nat ∧ wb + entries_bytes (take n es) ≤ MAX_PROPOSAL_LOOKUP_RESPONSE_BYTES ∧
  ((n < length es)%nat → MAX_PROPOSAL_LOOKUP_RESPONSE_BYTES < wb + entries_bytes (take (S n) es)).
Proof.
  induction es as [|e es IH]; intros wb Hwb; cbn [fitting length]; [cbn; split_and!; lia|].
  destruct (Z.ltb_spec MAX_PROPOSAL_LOOKUP_RESPONSE_BYTES (wb + entry_bytes e)) as [Hlt|Hge]; cbn zeta.
  - rewrite !firstn_cons, !take_0. cbn [take entries_bytes foldr length]. split_and!; lia.
  - destruct (IH (wb + entry_bytes e) Hge) as (H1 & H2 & H3). set (n := fitting _ es) in *.
    assert (∀ l, entries_bytes (e :: l) = entry_bytes e + entries_bytes l) as Hcons by done.
    rewrite !firstn_cons, !Hcons. split_and!; [lia|lia|]. intros Hn. specialize (H3 ltac:(lia)). lia.
Qed.

Lemma fitting_take es : fitting 5 (take 256 es) = fitting 5 es.
Proof.
  assert (∀ k wb, MAX_PROPOSAL_LOOKUP_RESPONSE_BYTES < wb + 65 * Z.of_nat (S k) →
    fitting wb (take k es) = fitting wb es) as H.
  { induction es as [|e es IH]; intros [|k] wb Hk; [done|done| |].
    - cbn [take fitting]. pose proof (entry_bytes_pos e). by rewrite (proj2 (Z.ltb_lt _ _)) by lia.
    - cbn [take fitting]. pose proof (entry_bytes_pos e). by rewrite IH by lia. }
  apply H. unfold MAX_PROPOSAL_LOOKUP_RESPONSE_BYTES. lia.
Qed.

(** ** Identities and signed messages *)
Definition DOMAIN_PROPOSAL : list Z := [80; 83; 89; 80; 82; 80; 48; 49].
Definition DOMAIN_VOTE : list Z := [80; 83; 89; 86; 79; 84; 48; 49].
Definition DOMAIN_END_CAP_FORWARD : list Z := [80; 83; 89; 69; 67; 70; 48; 49].

Section identities.
Context (sha256 : list Z → list Z).

(** The bytes hashed by [compute_proposal_id]. *)
Definition proposal_preimage (chain_id realm_id base_checkpoint_id proposer_sub_id : Z)
    (validator_tree_root public_output_hash finalizer_proof_hash backup_hash body_hash : list Z) : list Z :=
  write_fixed DOMAIN_PROPOSAL ++ write_u64 chain_id ++ write_u32 realm_id ++ write_u64 base_checkpoint_id ++
  write_u16 proposer_sub_id ++ write_fixed validator_tree_root ++ write_fixed public_output_hash ++
  write_fixed finalizer_proof_hash ++ write_fixed backup_hash ++ write_fixed body_hash.

Definition compute_proposal_id (chain_id realm_id base_checkpoint_id proposer_sub_id : Z)
    (validator_tree_root public_output_hash finalizer_proof_hash backup_hash body_hash : list Z) : list Z :=
  sha256 (proposal_preimage chain_id realm_id base_checkpoint_id proposer_sub_id validator_tree_root
    public_output_hash finalizer_proof_hash backup_hash body_hash).

Definition proposal_compute_id (p : Proposal) : list Z :=
  compute_proposal_id (chain_id p) (realm_id p) (base_checkpoint_id p) (proposer_sub_id p)
    (validator_tree_root p) (public_output_hash p) (finalizer_proof_hash p) (backup_hash p) (body_hash p).

Definition proposal_from_parts (chain_id realm_id base_checkpoint_id proposer_sub_id : Z)
    (validator_tree_root public_output_hash finalizer_proof_hash backup_hash body_hash : list Z) : Proposal :=
  let proposal_id := compute_proposal_id chain_id realm_id base_checkpoint_id proposer_sub_id
    validator_tree_root public_output_hash finalizer_proof_hash backup_hash body_hash in
  mkProposal chain_id realm_id base_checkpoint_id proposer_sub_id validator_tree_root proposal_id
    public_output_hash finalizer_proof_hash backup_hash body_hash.

Definition end_cap_preimage (chain_id realm_id checkpoint_id : Z) (end_cap_input_hash end_cap_proof_hash : list Z)
    : list Z :=
  write_fixed DOMAIN_END_CAP_FORWARD ++ write_u64 chain_id ++ write_u32 realm_id ++ write_u64 checkpoint_id ++
  write_fixed end_cap_input_hash ++ write_fixed end_cap_proof_hash.

Definition compute_end_cap_id (chain_id realm_id checkpoint_id : Z) (end_cap_input_hash end_cap_proof_hash : list Z)
    : list Z :=
  sha256 (end_cap_preimage chain_id realm_id checkpoint_id end_cap_input_hash end_cap_proof_hash).
End identities.

Definition vote_message (chain_id realm_id : Z) (validator_tree_root proposal_id : list Z) : list Z :=
  write_fixed DOMAIN_VOTE ++ write_u64 chain_id ++ write_u32 realm_id ++ write_fixed validator_tree_root ++
  write_fixed proposal_id.

Definition certificate_vote_message (c : Certificate) : list Z :=
  vote_message (cert_chain_id c) (cert_realm_id c) (cert_validator_tree_root c) (cert_proposal_id c).

Definition bitmap_get (bitmap : list Z) (sub_id : Z) : bool :=
  if 256 <=? sub_id then false
  else negb (Z.land (nth (Z.to_nat (sub_id / 8)) bitmap 0) (Z.shiftl 1 (sub_id mod 8)) =? 0).

Definition bitmap_set (bitmap : list Z) (sub_id : Z) : list Z :=
  if 256 <=? sub_id then bitmap
  else <[Z.to_nat (sub_id / 8) := Z.lor (nth (Z.to_nat (sub_id / 8)) bitmap 0) (Z.shiftl 1 (sub_id mod 8))]> bitmap.

(** [u8::count_ones] *)
Definition count_ones (b : Z) : nat := length (filter (λ i, Z.testbit b (Z.of_nat i) = true) (seq 0 8)).

Definition popcount (c : Certificate) : nat := foldr (λ b n, (count_ones b + n)%nat) 0%nat (signer_bitmap c).

Definition signer_sub_ids (c : Certificate) : list Z :=
  filter (λ s, bitmap_get (signer_bitmap c) s = true) (Z.of_nat <$> seq 0 256).

(** ** Theorems *)

(** Accepting exactly the encodings of well-formed values. *)
Definition exact_wire {A} (wf : A → Prop) (enc : A → list Z) (dec : reader A) : Prop :=
  ∀ bs m, bytes bs → decode_exact bs dec = Ok m ↔ wf m ∧ enc m = bs.

Lemma strict_exact {A} (wf : A → Prop) enc dec : Strict wf enc dec → exact_wire wf enc dec.
Proof.
  intros HS bs m Hb. unfold decode_exact. split.
  - destruct (dec bs) as [[a rest]| | |] eqn:E; try done. cbn [outcome_bind].
    destruct rest; [|done]. intros [= <-]. apply strict_only in E as [Hwf ->]; [|done].
    by rewrite app_nil_r.
  - intros [Hwf <-]. rewrite <- (app_nil_r (enc m)), strict_read by done. done.
Qed.

Definition body_wf '(output, proof, updates, tag) : Prop :=
  array_ok MAX_FINALIZER_OUTPUT_BYTES output ∧ vec_ok MAX_FINALIZER_PROOF_BYTES proof ∧
  vec_ok MAX_BACKUP_BYTES updates ∧ array_ok 32 tag ∧ validate_hash32_canonical tag = true.

Definition body_bytes '(output, proof, updates, tag) : list Z :=
  write_vec output ++ write_vec proof ++ write_vec updates ++ write_fixed tag.

#[global] Instance proposal_body_strict : Strict body_wf body_bytes proposal_body_reader.
Proof.
  split.
  - intros [[[o p] u] t] rest (Ho & Hp & Hu & Ht & Hc). unfold body_bytes, proposal_body_reader.
    rewrite <- !app_assoc, rbind_read by (destruct Ho; split; [lia|done]).
    rewrite rguard_false by (destruct Ho as [-> _]; done). do 3 rewrite rbind_read by done.
    by rewrite rguard_false by (by rewrite Hc).
  - intros bs [[[o p] u] t] rest Hb H. unfold proposal_body_reader in H.
    apply rbind_only in H as (o' & bs1 & [_ Ho] & -> & Hb1 & H); [|done].
    apply rguard_only in H as [Hlo%negb_false_iff%Z.eqb_eq H].
    apply rbind_only in H as (p' & bs2 & Hp & -> & Hb2 & H); [|done].
    apply rbind_only in H as (u' & bs3 & Hu & -> & Hb3 & H); [|done].
    apply rbind_only in H as (t' & bs4 & Ht & -> & Hb4 & H); [|done].
    apply rguard_only in H as [Hc%negb_false_iff H]. injection H as -> -> -> -> ->.
    split; [by split_and!|]. unfold body_bytes. by rewrite <- !app_assoc.
Qed.

Lemma encode_proposal_body_ok o p u t :
  body_wf (o, p, u, t) → encode_proposal_body o p u t = Ok (body_bytes (o, p, u, t)).
Proof.
  intros ([Ho _] & [Hp _] & [Hu _] & _). unfold encode_proposal_body. rewrite Ho, Z.eqb_refl. cbn [negb].
  rewrite !(proj2 (Z.ltb_ge _ _)) by done.
  unfold MAX_FINALIZER_OUTPUT_BYTES, MAX_FINALIZER_PROOF_BYTES, MAX_BACKUP_BYTES in *.
  rewrite !write_bytes_u32_ok by lia. done.
Qed.

Lemma length_encode_lookup_response r :
  lookup_response_wf r → Z.of_nat (length (encode_lookup_response r)) ≤ MAX_PROPOSAL_LOOKUP_RESPONSE_BYTES.
Proof.
  intros (Hr & Hrs & _). rewrite encode_fitting_response by done. unfold plain_response_bytes, write_u8, write_u32.
  rewrite !length_app, !length_to_le_bytes, !Nat2Z.inj_add, length_encode_entries by done. lia.
Qed.

Lemma lookup_response_exact bs r :
  bytes bs → decode_exact_lookup_response bs = Ok r ↔ lookup_response_wf r ∧ encode_lookup_response r = bs.
Proof.
  intros Hb. pose proof (strict_exact _ _ _ lookup_response_strict bs r Hb) as He.
  unfold decode_exact_lookup_response.
  destruct (Z.ltb_spec MAX_PROPOSAL_LOOKUP_RESPONSE_BYTES (Z.of_nat (length bs))); [|done].
  split; [done|]. intros [Hr <-]. pose proof (length_encode_lookup_response r Hr). lia.
Qed.

(** The documentation of the end-cap response lets only [AlreadySubmitted] echo
    an identity. The decoder does not check it: a [Busy] rejection that names a
    user and a pending id is decoded, identity included. *)
Lemma busy_identity_accepted :
  let m := mkEndCapResponse false RejectBusy 7 675 in
  decode_exact (encode_end_cap_response m) decode_end_cap_response = Ok m.
Proof. vm_compute. reflexivity. Qed.


(** Lookup responses. Encoding a response whose entries are well-formed
    never exceeds the response limit; the receiver decodes the longest prefix of
    the entries that fits, marked as truncated when entries were left out; and
    conversely only encodings of responses within the limit are accepted. *)
Theorem lookup_response_truncates (m : ProposalLookupResponse) :
  Forall entry_wf (entries m) →
  let n := fitting 5 (entries m) in
  let sent := mkLookupResponse (if (n <? length (entries m))%nat then Truncated else status m) (take n (entries m)) in
  status_ok (status sent) (entries sent) = true →
  Z.of_nat (length (encode_lookup_response m)) ≤ MAX_PROPOSAL_LOOKUP_RESPONSE_BYTES ∧
  decode_exact_lookup_response (encode_lookup_response m) = Ok sent ∧
  ((n < length (entries m))%nat →
     MAX_PROPOSAL_LOOKUP_RESPONSE_BYTES < 5 + entries_bytes (take (S n) (entries m))) ∧
  (∀ bs r, bytes bs → decode_exact_lookup_response bs = Ok r ↔
     lookup_response_wf r ∧ encode_lookup_response r = bs).
Proof.
  intros Hwf n sent Hst. destruct (fitting_spec (entries m) 5 ltac:(done)) as (Hn & Hs & Hmax). fold n in Hn, Hs, Hmax.
  assert (lookup_response_wf sent) as Hsent by (split_and!; [by apply Forall_take|done|done]).
  assert (encode_lookup_response m = plain_response_bytes sent) as Henc.
  { unfold encode_lookup_response, plain_response_bytes. change (Z.to_nat PROPOSAL_LOOKUP_MAX_TRANSITIONS) with 256%nat.
    rewrite fitting_take. fold n. cbn [sent status entries]. rewrite length_take, Nat.min_l by done.
    pose proof (response_count sent Hs) as Hc. cbn [sent entries] in Hc. rewrite length_take, Nat.min_l in Hc by done.
    rewrite wrap_small by (unfold PROPOSAL_LOOKUP_MAX_TRANSITIONS in Hc; lia). done. }
  rewrite Henc, <- (encode_fitting_response sent Hs). split_and!; [by apply length_encode_lookup_response| |done|intros; by apply lookup_response_exact].
  pose proof (length_encode_lookup_response sent Hsent). unfold decode_exact_lookup_response.
  rewrite (proj2 (Z.ltb_ge _ _)) by done.
  unfold decode_exact. rewrite <- (app_nil_r (encode_lookup_response sent)), strict_read by done. done.
Qed.

Lemma lookup_response_truncates_witness :
  let z := repeat 0 32 in
  let m := mkLookupResponse Empty [mkEntry (mkTransition z z) []] in
  decode_exact_lookup_response (encode_lookup_response m) = Ok m.
Proof.
  intros z m. destruct (lookup_response_truncates m) as (_ & H & _).
  - repeat constructor; vm_compute; discriminate.
  - reflexivity.
  - exact H.
Defined.

(** ** What an identity commits to *)
Lemma to_le_bytes_inj n x y rx ry :
  0 ≤ x < 2 ^ (8 * Z.of_nat n) → 0 ≤ y < 2 ^ (8 * Z.of_nat n) →
  to_le_bytes n x ++ rx = to_le_bytes n y ++ ry → x = y ∧ rx = ry.
Proof.
  intros Hx Hy E. apply app_inj_1 in E as [E ->]; [|by rewrite !length_to_le_bytes].
  split; [|done]. rewrite <- (from_to_le_bytes n x), <- (from_to_le_bytes n y), E by done. done.
Qed.

Lemma array_inj n (x y rx ry : list Z) :
  array_ok n x → array_ok n y → write_fixed x ++ rx = write_fixed y ++ ry → x = y ∧ rx = ry.
Proof. intros [Hx _] [Hy _]. apply app_inj_1. lia. Qed.

Ltac split_fields :=
  repeat match goal with
  | E : write_u64 _ ++ _ = write_u64 _ ++ _ |- _ => apply (to_le_bytes_inj 8) in E as [? E]; [|done|done]
  | E : write_u32 _ ++ _ = write_u32 _ ++ _ |- _ => apply (to_le_bytes_inj 4) in E as [? E]; [|done|done]
  | E : write_u16 _ ++ _ = write_u16 _ ++ _ |- _ => apply (to_le_bytes_inj 2) in E as [? E]; [|done|done]
  | E : write_fixed _ ++ _ = write_fixed _ ++ _ |- _ => apply (array_inj 32) in E as [? E]; [|done|done]
  end.

Definition vote_fields_ok (chain_id realm_id : Z) (root id : list Z) : Prop :=
  uint_ok 64 chain_id ∧ uint_ok 32 realm_id ∧ array_ok 32 root ∧ array_ok 32 id.

Lemma vote_message_inj c r root id c' r' root' id' :
  vote_fields_ok c r root id → vote_fields_ok c' r' root' id' →
  vote_message c r root id = vote_message c' r' root' id' →
  c = c' ∧ r = r' ∧ root = root' ∧ id = id'.
Proof.
  intros (? & ? & ? & ?) (? & ? & ? & ?) E. unfold vote_message in E.
  apply app_inv_head in E. split_fields. by split_and!.
Qed.

Definition preimage_of (p : Proposal) : list Z :=
  proposal_preimage (chain_id p) (realm_id p) (base_checkpoint_id p) (proposer_sub_id p)
    (validator_tree_root p) (public_output_hash p) (finalizer_proof_hash p) (backup_hash p) (body_hash p).

Lemma preimage_of_inj p p' :
  proposal_wf p → proposal_wf p' → proposal_id p = proposal_id p' → preimage_of p = preimage_of p' → p = p'.
Proof.
  intros Hp Hp' Hid E. unfold proposal_wf in *. destruct_and!. unfold preimage_of, proposal_preimage in E.
  apply app_inv_head in E. split_fields. destruct p, p'; cbn in *. unfold write_fixed in E. by subst.
Qed.

(** Identities are commitments. Two well-formed proposals that carry their
    own canonical id and have the same id are equal, or their hashed bytes are
    an explicit collision of the hash; equal vote messages have equal fields;
    and the bytes hashed or signed for proposals, votes and end caps are never
    equal, because of their domain tags. *)
Theorem proposal_id_commits (sha256 : list Z → list Z) (p p' : Proposal) :
  proposal_wf p → proposal_wf p' →
  proposal_id p = proposal_compute_id sha256 p → proposal_id p' = proposal_compute_id sha256 p' →
  (proposal_id p = proposal_id p' →
     p = p' ∨ (preimage_of p ≠ preimage_of p' ∧ sha256 (preimage_of p) = sha256 (preimage_of p'))) ∧
  (∀ c r root id c' r' root' id',
     vote_fields_ok c r root id → vote_fields_ok c' r' root' id' →
     vote_message c r root id = vote_message c' r' root' id' → c = c' ∧ r = r' ∧ root = root' ∧ id = id') ∧
  (∀ c r root id, vote_message c r root id ≠ preimage_of p) ∧
  (∀ c r k a b, end_cap_preimage c r k a b ≠ preimage_of p) ∧
  (∀ c r root id c' r' k a b, vote_message c r root id ≠ end_cap_preimage c' r' k a b).
Proof.
  intros Hp Hp' Hid Hid'. split_and!; [|by apply vote_message_inj|done|done|done].
  intros Heq. destruct (decide (preimage_of p = preimage_of p')) as [E|Hne].
  - left. by apply preimage_of_inj.
  - right. split; [done|]. rewrite Hid, Hid' in Heq. exact Heq.
Qed.

Lemma proposal_id_commits_witness :
  let sha (l : list Z) := take 32 (l ++ repeat 0 32) in
  let z := repeat 7 32 in
  let p := proposal_from_parts sha 1 2 3 4 z z z z z in
  let p' := proposal_from_parts sha 1 2 3 4 z z z z (repeat 8 32) in
  proposal_id p = proposal_id p' ∧
  (p = p' ∨ preimage_of p ≠ preimage_of p' ∧ sha (preimage_of p) = sha (preimage_of p')).
Proof.
  intros sha z p p'. split; [reflexivity|]. apply (proposal_id_commits sha p p'); try reflexivity.
  - repeat split; repeat constructor; vm_compute; discriminate.
  - repeat split; repeat constructor; vm_compute; discriminate.
Defined.
