(* ===== verification/Bls.v ===== *)
(** * BLS vote signatures

    [psy_data/src/p2p/bls.rs]: compressed BLS12-381 keys and signatures, single and
    aggregate verification of votes. The [blst] library is a parameter; the class
    [BlstLaws] states what its documentation and the IETF draft promise of it. *)
From stdpp Require Import prelude list strings.
From Stdlib Require Import ZArith Lia.
From S2P Require Import Prelude Wire.

(** The operations of [blst::min_pk] the code calls. *)
Class Blst : Type := {
  blst_sk : Type;
  blst_pk : Type;
  blst_sig : Type;
  blst_sk_to_pk : blst_sk → blst_pk;
  blst_sign : blst_sk → list Z → list Z → blst_sig;
  blst_pk_from_bytes : list Z → option blst_pk;
  blst_pk_to_bytes : blst_pk → list Z;
  blst_key_validate : list Z → bool;
  blst_sig_from_bytes : list Z → option blst_sig;
  blst_sig_to_bytes : blst_sig → list Z;
  blst_sig_validate : blst_sig → bool;
  blst_verify : blst_sig → list Z → list Z → list Z → blst_pk → bool;
  blst_aggregate : list blst_sig → option blst_sig;
  blst_fast_aggregate_verify : blst_sig → list Z → list Z → list blst_pk → bool;
  (** the aggregate of the keys is not the point at infinity *)
  blst_keys_finite : list blst_pk → bool;
}.

(** Compressed points carry the top bit of their first byte. *)
Definition compressed (bytes : list Z) : bool := negb (Z.land (nth 0 bytes 0) 0x80 =? 0).

Class BlstLaws `{Blst} : Prop := {
  blst_pk_array : ∀ pk, array_ok 48 (blst_pk_to_bytes pk) ∧ compressed (blst_pk_to_bytes pk) = true;
  blst_pk_of_bytes : ∀ pk, blst_pk_from_bytes (blst_pk_to_bytes pk) = Some pk;
  blst_pk_valid : ∀ sk, blst_key_validate (blst_pk_to_bytes (blst_sk_to_pk sk)) = true;
  blst_sig_array : ∀ s, array_ok 96 (blst_sig_to_bytes s) ∧ compressed (blst_sig_to_bytes s) = true;
  blst_sig_of_bytes : ∀ s, blst_sig_from_bytes (blst_sig_to_bytes s) = Some s;
  (** a signature verifies under the key of its secret *)
  blst_sign_verify : ∀ sk msg dst, blst_verify (blst_sign sk msg dst) msg dst [] (blst_sk_to_pk sk) = true;
  (** signatures of one message that verify aggregate to a signature that verifies
      under their keys, in any order, unless the keys cancel out *)
  blst_aggregate_verify : ∀ (votes votes' : list (blst_sig * blst_pk)) msg dst,
    votes ≠ [] → votes ≡ₚ votes' → blst_keys_finite votes.*2 = true →
    Forall (λ v, blst_verify v.1 msg dst [] v.2 = true) votes →
    ∃ agg, blst_aggregate votes.*1 = Some agg ∧ blst_sig_validate agg = true ∧
           blst_fast_aggregate_verify agg msg dst votes'.*2 = true;
}.

(** The ciphersuite strings of [domains.rs]. *)
Definition VOTE_BLS_DST : list Z :=
  [66; 76; 83; 95; 83; 73; 71; 95; 66; 76; 83; 49; 50; 51; 56; 49; 71; 50; 95; 88; 77; 68; 58; 83; 72; 65; 45;
   50; 53; 54; 95; 83; 83; 87; 85; 95; 82; 79; 95; 80; 79; 80; 95].
Definition PROOF_OF_POSSESSION_BLS_DST : list Z :=
  [66; 76; 83; 95; 80; 79; 80; 95; 66; 76; 83; 49; 50; 51; 56; 49; 71; 50; 95; 88; 77; 68; 58; 83; 72; 65; 45;
   50; 53; 54; 95; 83; 83; 87; 85; 95; 82; 79; 95; 80; 79; 80; 95].
Definition BLS_PUBLIC_KEY_LEN : Z := 48.

Section bls.
Context `{Blst}.

Definition blst_signature_valid (bytes : list Z) : bool :=
  match blst_sig_from_bytes bytes with Some s => blst_sig_validate s | None => false end.

Definition public_key_from_bytes (bytes : list Z) : outcome (list Z) :=
  if negb (Z.of_nat (length bytes) =? BLS_PUBLIC_KEY_LEN) then Err "InvalidLength" else
  if Z.land (nth 0 bytes 0) 0x80 =? 0 then Err "InvalidBlsPublicKey" else
  if negb (blst_key_validate bytes) then Err "InvalidBlsPublicKey" else Ok bytes.

Definition decode_bls_public_key : reader (list Z) :=
  let! bytes := read_fixed BLS_PUBLIC_KEY_LEN in
  λ rest, let* pk := public_key_from_bytes bytes in Ok (pk, rest).

(** [BlsSignature::from_bytes] *)
Definition signature_from_bytes (bytes : list Z) : outcome (list Z) := bls_from_bytes blst_signature_valid bytes.

(** [BlsPublicKey::inner] and [BlsSignature::inner] *)
Definition pk_inner (bytes : list Z) : outcome blst_pk := ok_or (blst_pk_from_bytes bytes) "InvalidBlsPublicKey".
Definition sig_inner (bytes : list Z) : outcome blst_sig := ok_or (blst_sig_from_bytes bytes) "InvalidBlsSignature".

(** Collecting an iterator of results stops at the first error. *)
Fixpoint collect_results {A B} (f : A → outcome B) (l : list A) : outcome (list B) :=
  match l with
  | [] => Ok []
  | a :: l => let* b := f a in let* bs := collect_results f l in Ok (b :: bs)
  end.

Definition verify_vote (self message public_key : list Z) : outcome unit :=
  let* sig := sig_inner self in
  let* pk := pk_inner public_key in
  if negb (blst_verify sig message VOTE_BLS_DST [] pk) then Err "BlsVerifyFailed" else Ok tt.

Definition fast_aggregate_verify (self message : list Z) (public_keys : list (list Z)) : outcome unit :=
  if (length public_keys =? 0)%nat then Err "EmptyAggregate" else
  let* sig := sig_inner self in
  let* pks := collect_results pk_inner public_keys in
  if negb (blst_fast_aggregate_verify sig message VOTE_BLS_DST pks) then Err "BlsVerifyFailed" else Ok tt.

Definition aggregate_signatures (signatures : list (list Z)) : outcome (list Z) :=
  if (length signatures =? 0)%nat then Err "EmptyAggregate" else
  let* sigs := collect_results sig_inner signatures in
  let* agg := ok_or (blst_aggregate sigs) "InvalidBlsSignature" in
  signature_from_bytes (blst_sig_to_bytes agg).

(** [BlsSecretKey::public_key]; the [expect] panics. *)
Definition secret_public_key (self : blst_sk) : outcome (list Z) :=
  match public_key_from_bytes (blst_pk_to_bytes (blst_sk_to_pk self)) with Ok bytes => Ok bytes | _ => Panic end.

(** [BlsSecretKey::sign_vote] *)
Definition secret_sign_vote (self : blst_sk) (message : list Z) : list Z :=
  blst_sig_to_bytes (blst_sign self message VOTE_BLS_DST).

Definition proof_of_possession (self : blst_sk) : outcome (list Z) :=
  let* pk_bytes := secret_public_key self in
  Ok (blst_sig_to_bytes (blst_sign self pk_bytes PROOF_OF_POSSESSION_BLS_DST)).

Definition verify_proof_of_possession (self proof_of_possession : list Z) : outcome unit :=
  let* pk := pk_inner self in
  let* sig := sig_inner proof_of_possession in
  if negb (blst_verify sig self PROOF_OF_POSSESSION_BLS_DST [] pk) then Err "InvalidProofOfPossession" else Ok tt.

Definition validate_key_with_proof_of_possession (public_key proof_of_possession : list Z) : outcome unit :=
  if negb (blst_key_validate public_key) then Err "InvalidBlsPublicKey" else
  verify_proof_of_possession public_key proof_of_possession.

(** ** Facts *)
Lemma collect_results_Ok {A B} (f : A → outcome B) l bs :
  collect_results f l = Ok bs ↔ Forall2 (λ a b, f a = Ok b) l bs.
Proof.
  revert bs. induction l as [|a l IH]; intros bs; cbn [collect_results].
  - split; [intros [= <-]; constructor|by inversion 1].
  - rewrite outcome_bind_Ok. setoid_rewrite outcome_bind_Ok. split.
    + intros (b & Hb & bs' & Hl & [= <-]). constructor; [done|by apply IH].
    + inversion_clear 1 as [|? b ? bs' Hb Hl]. exists b. split; [done|]. exists bs'. split; [by apply IH|done].
Qed.

Lemma verify_vote_Ok self message public_key :
  verify_vote self message public_key = Ok tt ↔
  ∃ sig pk, blst_sig_from_bytes self = Some sig ∧ blst_pk_from_bytes public_key = Some pk ∧
            blst_verify sig message VOTE_BLS_DST [] pk = true.
Proof.
  unfold verify_vote, sig_inner, pk_inner. split.
  - intros (sig & Hs & (pk & Hp & Hv)%outcome_bind_Ok)%outcome_bind_Ok.
    exists sig, pk. apply ok_or_Ok in Hs, Hp. destruct (blst_verify _ _ _ _ _) eqn:E; by try split_and!.
  - intros (sig & pk & -> & -> & Hv). cbn. by rewrite Hv.
Qed.

Lemma fast_aggregate_verify_Ok self message public_keys :
  fast_aggregate_verify self message public_keys = Ok tt ↔
  public_keys ≠ [] ∧ ∃ sig pks, blst_sig_from_bytes self = Some sig ∧
    Forall2 (λ b pk, blst_pk_from_bytes b = Some pk) public_keys pks ∧
    blst_fast_aggregate_verify sig message VOTE_BLS_DST pks = true.
Proof.
  assert (∀ ks pks, Forall2 (λ a b, pk_inner a = Ok b) ks pks ↔ Forall2 (λ b pk, blst_pk_from_bytes b = Some pk) ks pks)
    as HF by (intros; split; intros HF; (eapply Forall2_impl; [exact HF|]); intros ??; apply ok_or_Ok).
  unfold fast_aggregate_verify, sig_inner. destruct (Nat.eqb_spec (length public_keys) 0) as [Hl|Hl].
  - apply nil_length_inv in Hl as ->. split; [done|]. by intros [].
  - split.
    + intros (sig & Hs & (pks & Hp & Hv)%outcome_bind_Ok)%outcome_bind_Ok. split; [by intros ->|].
      exists sig, pks. apply ok_or_Ok in Hs. apply collect_results_Ok, HF in Hp.
      destruct (blst_fast_aggregate_verify _ _ _ _) eqn:E; by try split_and!.
    + intros (_ & sig & pks & -> & Hp & Hv). cbn.
      rewrite (proj2 (collect_results_Ok _ _ pks)) by by apply HF. cbn. by rewrite Hv.
Qed.

Context `{!BlstLaws}.

Lemma secret_public_key_ok sk : secret_public_key sk = Ok (blst_pk_to_bytes (blst_sk_to_pk sk)).
Proof.
  unfold secret_public_key, public_key_from_bytes.
  destruct (blst_pk_array (blst_sk_to_pk sk)) as [[Hl _] Hc]. rewrite Hl. cbn [negb Z.eqb Pos.eqb BLS_PUBLIC_KEY_LEN].
  unfold compressed in Hc. apply negb_true_iff in Hc. by rewrite Hc, blst_pk_valid.
Qed.

(** A vote verifies under the public key of the secret that signed it. *)
Lemma sign_vote_verifies sk message :
  ∃ pk, secret_public_key sk = Ok pk ∧ verify_vote (secret_sign_vote sk message) message pk = Ok tt.
Proof.
  eexists. split; [apply secret_public_key_ok|]. apply verify_vote_Ok. unfold secret_sign_vote.
  rewrite blst_sig_of_bytes, blst_pk_of_bytes. do 2 eexists. split_and!; [done..|]. apply blst_sign_verify.
Qed.

(** A genesis key and the proof of possession made with its secret validate. *)
Lemma proof_of_possession_validates sk :
  ∃ pk pop, secret_public_key sk = Ok pk ∧ proof_of_possession sk = Ok pop ∧
            validate_key_with_proof_of_possession pk pop = Ok tt.
Proof.
  unfold proof_of_possession. rewrite secret_public_key_ok. do 2 eexists. split_and!; [done..|].
  unfold validate_key_with_proof_of_possession, verify_proof_of_possession, pk_inner, sig_inner.
  rewrite blst_pk_valid, blst_pk_of_bytes, blst_sig_of_bytes. cbn. by rewrite blst_sign_verify.
Qed.

(** The decoded public keys of a list of votes that verify. *)
Lemma votes_decode message (votes : list (list Z * list Z)) :
  Forall (λ v, verify_vote v.1 message v.2 = Ok tt) votes →
  ∃ dec : list (blst_sig * blst_pk),
    Forall2 (λ v d, blst_sig_from_bytes v.1 = Some d.1 ∧ blst_pk_from_bytes v.2 = Some d.2) votes dec ∧
    Forall (λ d, blst_verify d.1 message VOTE_BLS_DST [] d.2 = true) dec.
Proof.
  induction 1 as [|v votes Hv _ (dec & Hd & Hver)]; [by exists []|].
  apply verify_vote_Ok in Hv as (s & pk & ? & ? & ?). exists ((s, pk) :: dec). by split; constructor.
Qed.

(** Keys whose aggregate is a finite point. *)
Definition keys_finite (keys : list (list Z)) : Prop :=
  ∀ pks, Forall2 (λ b pk, blst_pk_from_bytes b = Some pk) keys pks → blst_keys_finite pks = true.

(** Votes that verify one by one aggregate to a signature that verifies under their
    keys, taken in any order. *)
Lemma aggregate_verifies message (votes votes' : list (list Z * list Z)) :
  votes ≠ [] → votes ≡ₚ votes' → keys_finite votes.*2 →
  Forall (λ v, verify_vote v.1 message v.2 = Ok tt) votes →
  ∃ agg, aggregate_signatures votes.*1 = Ok agg ∧ fast_aggregate_verify agg message votes'.*2 = Ok tt.
Proof.
  intros Hne Hp Hf Hv. destruct (votes_decode message votes Hv) as (dec & Hd & Hver).
  destruct (Permutation_Forall2 Hp Hd) as (dec' & Hpd & Hd').
  assert (blst_keys_finite dec.*2 = true) as Hk.
  { apply Hf. apply Forall2_fmap. eapply Forall2_impl; [exact Hd|]. by intros ?? []. }
  destruct (blst_aggregate_verify dec dec' message VOTE_BLS_DST) as (agg & Ha & Hval & Hagg); [|done..|].
  { intros ->. by inversion Hd. }
  exists (blst_sig_to_bytes agg). split.
  - unfold aggregate_signatures. rewrite (proj2 (Nat.eqb_neq _ _)).
    2: { rewrite length_fmap. by destruct votes. }
    rewrite (proj2 (collect_results_Ok _ _ dec.*1)).
    2: { apply Forall2_fmap. eapply Forall2_impl; [exact Hd|]. intros ?? []. by apply ok_or_Ok. }
    cbn [outcome_bind]. rewrite Ha. cbn [ok_or outcome_bind]. unfold signature_from_bytes, bls_from_bytes.
    destruct (blst_sig_array agg) as [[Hl _] Hc]. rewrite Hl. cbn [negb Z.eqb Pos.eqb BLS_SIGNATURE_LEN].
    unfold compressed in Hc. apply negb_true_iff in Hc. rewrite Hc.
    unfold blst_signature_valid. by rewrite blst_sig_of_bytes, Hval.
  - apply fast_aggregate_verify_Ok. split.
    { destruct votes'; [by apply Permutation_nil_r in Hp|done]. }
    exists agg, dec'.*2. split_and!; [apply blst_sig_of_bytes| |done].
    apply Forall2_fmap. eapply Forall2_impl; [exact Hd'|]. by intros ?? [].
Qed.
End bls.
