(* ===== verification/Serialize.v ===== *)
(** * Canonical serialisation

    [psy_io/src/lib.rs] and [psy_serialize/src/traits]: the reader and writer
    extensions, the [PsyIOReadWrite] trait with its default methods, the fallback
    codec, and the template for objects of a fixed size. A writer is the outcome of
    the bytes it appends; a reader is the reader of [Wire]. A type's codec is
    canonical when writing succeeds, takes exactly the announced size, and reads
    back as the value wherever the bytes stand in a stream. *)
From stdpp Require Import prelude list strings.
From Stdlib Require Import ZArith Lia.
From S2P Require Import Prelude Wire.

Definition U32_MAX : Z := 4294967295.

(** ** [psy_io] *)
Definition writer : Type := outcome (list Z).

(** One write after another; the first failure is returned. *)
Definition wseq (a b : writer) : writer := let* x := a in let* y := b in Ok (x ++ y).
Infix "+++" := wseq (at level 60, right associativity).

(** The final [Ok(())]. *)
Definition wdone : writer := Ok [].

Definition psy_write_bytes (bytes : list Z) : writer := Ok bytes.
Definition psy_write_uint (n : nat) (value : Z) : writer := Ok (to_le_bytes n value).
Abbreviation psy_write_u8 := (psy_write_uint 1).
Abbreviation psy_write_u16 := (psy_write_uint 2).
Abbreviation psy_write_u32 := (psy_write_uint 4).
Abbreviation psy_write_u64 := (psy_write_uint 8).
Abbreviation psy_write_u128 := (psy_write_uint 16).

Definition psy_write_vec_length (length : Z) : writer :=
  if U32_MAX <? length then Err "Vector length exceeds u32::MAX" else psy_write_u32 length.

Definition psy_write_bytes_vec (bytes : list Z) : writer :=
  psy_write_vec_length (Z.of_nat (length bytes)) +++ psy_write_bytes bytes.

Definition psy_read_bytes_fixed (n : Z) : reader (list Z) := read_exact n.
Definition psy_read_uint (n : nat) : reader Z :=
  let! buf := psy_read_bytes_fixed (Z.of_nat n) in rret (from_le_bytes buf).
Abbreviation psy_read_u8 := (psy_read_uint 1).
Abbreviation psy_read_u16 := (psy_read_uint 2).
Abbreviation psy_read_u32 := (psy_read_uint 4).
Abbreviation psy_read_u64 := (psy_read_uint 8).
Abbreviation psy_read_u128 := (psy_read_uint 16).
Abbreviation psy_read_bytes_32 := (psy_read_bytes_fixed 32).

Definition psy_read_vec_length : reader Z := psy_read_u32.

Definition psy_read_bytes_vec : reader (list Z) :=
  let! length := psy_read_vec_length in psy_read_bytes_fixed length.

(** The count prefixes of vectors: one refuses [u32::MAX] items, the other does not. *)
Definition p_write_varuint (n : Z) : writer :=
  if U32_MAX <=? n then Err "Size too large to write as varuint u32" else Ok (to_le_bytes 4 (wrap 32 n)).
Definition p_read_varuint : reader Z := psy_read_u32.

Definition p_write_fixed_items_manycount (n : Z) : writer :=
  if U32_MAX <? n then Err "Size too large to write as fixed u32" else Ok (to_le_bytes 4 (wrap 32 n)).
Definition p_read_fixed_items_many_count : reader Z := psy_read_u32.

(** [for item in items { write(item)?; }] *)
Definition write_each {A} (write : A → writer) (items : list A) : writer :=
  foldr (λ item w, write item +++ w) wdone items.

(** ** The traits

    [PsyCanonicalSerializeMetadata] and the required methods of [PsyIOReadWrite]. *)
Class PsyIOReadWrite (A : Type) : Type := {
  IS_FIXED_SIZE : bool;
  FIXED_SIZE : Z;
  MAX_VEC_LENGTH : Z;
  pio_serialized_size : A → Z;
  pio_write_to_io : A → writer;
  pio_read_from_io : reader A;
}.
Arguments IS_FIXED_SIZE A {_}.
Arguments FIXED_SIZE A {_}.
Arguments MAX_VEC_LENGTH A {_}.

Definition sizes {A} (size : A → Z) (items : list A) : Z := foldr (λ a n, size a + n) 0 items.

(** Default methods. *)
Section defaults.
Context {A : Type} `{PsyIOReadWrite A}.

Definition pio_write_to_io_many (items : list A) (write_count : bool) : writer :=
  (if write_count then
     if IS_FIXED_SIZE A then p_write_fixed_items_manycount (Z.of_nat (length items))
     else p_write_varuint (Z.of_nat (length items))
   else wdone) +++
  write_each pio_write_to_io items.

Definition pio_read_from_io_many (known_count : option Z) : reader (list A) :=
  let! len := match known_count with
              | Some count => rret count
              | None => if IS_FIXED_SIZE A then p_read_fixed_items_many_count else p_read_varuint
              end in
  rguard (MAX_VEC_LENGTH A <? len) "Vector length exceeds maximum allowed"
    (read_list (Z.to_nat len) pio_read_from_io).

Definition pio_serialized_size_vec (items : list A) (include_size : bool) : Z :=
  (if include_size then 4 else 0) +
  (if IS_FIXED_SIZE A then Z.of_nat (length items) * FIXED_SIZE A else sizes pio_serialized_size items).

(** [Cursor::new(data)]: what is left unread is dropped. *)
Definition from_cursor {B} (r : reader B) (data : list Z) : outcome B :=
  let* (value, rest) := r data in Ok value.

Definition pio_read_many_from_ref_bytes (data : list Z) (known_count : option Z) : outcome (list A) :=
  if (length data =? 0)%nat && (default 0 known_count =? 0) then Ok []
  else from_cursor (pio_read_from_io_many known_count) data.

Definition pio_write_many_to_bytes (items : list A) (write_count : bool) : outcome (list Z) :=
  pio_write_to_io_many items write_count.

(** [AutoImplementFallbackPsySerializeCanonical]. *)
Definition psy_ser_from_slice (data : list Z) : outcome A := from_cursor pio_read_from_io data.
Definition psy_ser_to_bytes_vec (a : A) : outcome (list Z) := pio_write_to_io a.

(** [PsyCanonicalDatabaseSerializeBaseMulti]; the [expect] panics. *)
Definition psy_ser_serialize_vec_of_self_ref (data : list A) (write_count : bool) : outcome (list Z) :=
  match pio_write_many_to_bytes data (write_count || negb (IS_FIXED_SIZE A)) with Ok b => Ok b | _ => Panic end.

Definition psy_ser_deserialize_vec_of_self (data : list Z) (include_count_for_fixed : bool)
    : outcome (list A) :=
  if (length data =? 0)%nat then Ok [] else
  if IS_FIXED_SIZE A && negb include_count_for_fixed then
    let* r := rem (Z.of_nat (length data)) (FIXED_SIZE A) in
    if negb (r =? 0) then Err "Data length is not a multiple of fixed size"
    else pio_read_many_from_ref_bytes data (Some (Z.of_nat (length data) / FIXED_SIZE A))
  else pio_read_many_from_ref_bytes data None.
End defaults.

(** ** Objects of a fixed size

    [FastFixedSerializable<N>] and [PsyIOReadWriteFixedTemplate<N>]: vectors are
    written and read in one piece. *)
Class FastFixedSerializable (A : Type) : Type := {
  FFS_SIZE : Z;
  ffs_max_vec_length : Z;
  ffs_to_bytes : A → list Z;
  ffs_from_owned_bytes : list Z → A;
}.
Arguments FFS_SIZE A {_}.
Arguments ffs_max_vec_length A {_}.

Section fixed.
Context {A : Type} `{FastFixedSerializable A}.

Definition ffs_try_from_slice (data : list Z) : outcome A :=
  if negb (Z.of_nat (length data) =? FFS_SIZE A) then Err "Invalid number of bytes"
  else Ok (ffs_from_owned_bytes data).

Definition ffs_serialize_vec_of_self_ref (data : list A) : list Z := concat (ffs_to_bytes <$> data).

(** [data.chunks_exact(N)], with the number of whole chunks. *)
Fixpoint chunks_exact (count : nat) (n : nat) (data : list Z) : list (list Z) :=
  match count with O => [] | S count => take n data :: chunks_exact count n (drop n data) end.

Definition ffs_deserialize_vec_of_self (data : list Z) : outcome (list A) :=
  let* r := rem (Z.of_nat (length data)) (FFS_SIZE A) in
  if negb (r =? 0) then Err "Data length is not a multiple of object size"
  else Ok (ffs_from_owned_bytes <$>
           chunks_exact (Z.to_nat (Z.of_nat (length data) / FFS_SIZE A)) (Z.to_nat (FFS_SIZE A)) data).

Definition fx_tpl_pio_write_to_io (a : A) : writer := Ok (ffs_to_bytes a).

Definition fx_tpl_pio_read_from_io : reader A :=
  let! buf := read_exact (FFS_SIZE A) in rret (ffs_from_owned_bytes buf).

Definition fx_tpl_pio_write_to_io_many (items : list A) (write_count : bool) : writer :=
  (if write_count then p_write_fixed_items_manycount (Z.of_nat (length items)) else wdone) +++
  (if (length items =? 0)%nat then wdone else Ok (ffs_serialize_vec_of_self_ref items)).

Definition fx_tpl_pio_read_from_io_many (known_count : option Z) : reader (list A) :=
  let! length := match known_count with Some len => rret len | None => p_read_fixed_items_many_count end in
  rguard (ffs_max_vec_length A <? length) "Read count exceeds maximum allowed length" (
  if length =? 0 then rret [] else
  match checked_mul 64 length (FFS_SIZE A) with
  | None => rfail "Total byte size for vector of fixed structs exceeds usize::MAX"
  | Some total_bytes =>
      let! data := read_exact total_bytes in
      λ bs, let* items := ffs_deserialize_vec_of_self data in Ok (items, bs)
  end).

Definition fx_tpl_pio_serialized_size_vec (items : list A) (include_size : bool) : Z :=
  Z.of_nat (length items) * FFS_SIZE A + (if include_size then 4 else 0).

Definition fx_tpl_pio_read_many_from_ref_bytes (data : list Z) (known_count : option Z) : outcome (list A) :=
  match known_count with
  | Some count =>
      let expected_len := wrap 64 (count * FFS_SIZE A) in
      if Z.of_nat (length data) <? expected_len then Err "Data length is too small for expected count"
      else
        let view := take (Z.to_nat expected_len) data in
        if (length view =? 0)%nat then Ok [] else ffs_deserialize_vec_of_self view
  | None =>
      let* r := rem (Z.of_nat (length data)) (FFS_SIZE A) in
      if negb (r =? 0) then Err "Data length is not a multiple of fixed size"
      else if (length data =? 0)%nat then Ok [] else ffs_deserialize_vec_of_self data
  end.

Definition fx_tpl_pio_write_many_to_bytes (items : list A) (write_count : bool) : outcome (list Z) :=
  if negb write_count then Ok (ffs_serialize_vec_of_self_ref items)
  else fx_tpl_pio_write_to_io_many items write_count.

Definition fx_tpl_psy_ser_serialize_vec_of_self_ref (data : list A) (write_count : bool) : list Z :=
  (if write_count then to_le_bytes 4 (wrap 32 (Z.of_nat (length data))) else []) ++
  ffs_serialize_vec_of_self_ref data.

Definition fx_tpl_psy_ser_deserialize_vec_of_self (data : list Z) (include_count : bool) : outcome (list A) :=
  if include_count then
    if Z.of_nat (length data) <? 4 then Err "Data length is too small to contain fixed items count" else
    let count := from_le_bytes (take 4 data) in
    if negb (Z.of_nat (length data) =? wrap 64 (4 + count * FFS_SIZE A))
    then Err "Data length does not match expected size"
    else ffs_deserialize_vec_of_self (drop 4 data)
  else ffs_deserialize_vec_of_self data.

(** [impl_psy_canonical_serialize_for_fixed_type!] *)
Definition fixed_io : PsyIOReadWrite A := {|
  IS_FIXED_SIZE := true;
  FIXED_SIZE := FFS_SIZE A;
  MAX_VEC_LENGTH := ffs_max_vec_length A;
  pio_serialized_size _ := FFS_SIZE A;
  pio_write_to_io := fx_tpl_pio_write_to_io;
  pio_read_from_io := fx_tpl_pio_read_from_io;
|}.
End fixed.

(** ** Canonical codecs *)

(** The writer appends [n] bytes from which the reader, wherever they stand in a
    stream, recovers the value. *)
Definition codes {A} (w : writer) (n : Z) (r : reader A) (a : A) : Prop :=
  ∃ bs, w = Ok bs ∧ Z.of_nat (length bs) = n ∧ bytes bs ∧ ∀ rest, r (bs ++ rest) = Ok (a, rest).

Class Canonical (A : Type) `{PsyIOReadWrite A} (wf : A → Prop) : Prop := {
  canonical_codes : ∀ a, wf a → codes (pio_write_to_io a) (pio_serialized_size a) pio_read_from_io a;
  canonical_fixed : ∀ a, IS_FIXED_SIZE A = true → wf a → pio_serialized_size a = FIXED_SIZE A ∧ 0 < FIXED_SIZE A;
}.

(** *** Steps *)
Lemma codes_done {A} (a : A) : codes wdone 0 (rret a) a.
Proof. by exists []. Qed.

Lemma codes_bind {A B} w1 w2 n1 n2 (r : reader A) (k : A → reader B) a b :
  codes w1 n1 r a → codes w2 n2 (k a) b → codes (w1 +++ w2) (n1 + n2) (rbind r k) b.
Proof.
  intros (b1 & -> & Hl1 & Hb1 & H1) (b2 & -> & Hl2 & Hb2 & H2). exists (b1 ++ b2). split_and!.
  - done.
  - rewrite length_app. lia.
  - by apply Forall_app.
  - intros rest. unfold rbind. rewrite <- app_assoc, H1. apply H2.
Qed.

(** A final read whose value only remains to be wrapped. *)
Lemma codes_map {A B} w n (r : reader A) (f : A → B) a :
  codes w n r a → codes w n (let! x := r in rret (f x)) (f a).
Proof.
  intros (bs & -> & Hl & Hb & H). exists bs. split_and!; try done. intros rest. unfold rbind. by rewrite H.
Qed.

Lemma codes_size {A} w n m (r : reader A) a : codes w n r a → n = m → codes w m r a.
Proof. by intros ? <-. Qed.

Lemma codes_strict {A} {wf : A → Prop} {enc dec} `{!Strict wf enc dec} n a :
  wf a → bytes (enc a) → Z.of_nat (length (enc a)) = n → codes (Ok (enc a)) n dec a.
Proof. intros Ha Hb Hl. exists (enc a). split_and!; try done. intros rest. by apply strict_read. Qed.

Lemma bytes_to_le_bytes n : ∀ x, bytes (to_le_bytes n x).
Proof.
  induction n as [|n IH]; intros x; cbn [to_le_bytes]; constructor; [|apply IH].
  unfold is_byte. apply Z.mod_pos_bound. lia.
Qed.

Lemma codes_uint n x :
  uint_ok (8 * Z.of_nat n) x → codes (psy_write_uint n x) (Z.of_nat n) (psy_read_uint n) x.
Proof.
  intros Hx. pose proof (read_uint_strict n). apply codes_strict; [done|apply bytes_to_le_bytes|].
  by rewrite length_to_le_bytes.
Qed.

Lemma codes_u8 x : uint_ok 8 x → codes (psy_write_u8 x) 1 psy_read_u8 x.
Proof. apply (codes_uint 1). Qed.
Lemma codes_u16 x : uint_ok 16 x → codes (psy_write_u16 x) 2 psy_read_u16 x.
Proof. apply (codes_uint 2). Qed.
Lemma codes_u32 x : uint_ok 32 x → codes (psy_write_u32 x) 4 psy_read_u32 x.
Proof. apply (codes_uint 4). Qed.
Lemma codes_u64 x : uint_ok 64 x → codes (psy_write_u64 x) 8 psy_read_u64 x.
Proof. apply (codes_uint 8). Qed.
Lemma codes_u128 x : uint_ok 128 x → codes (psy_write_u128 x) 16 psy_read_u128 x.
Proof. apply (codes_uint 16). Qed.

Lemma codes_fixed n l : array_ok n l → codes (psy_write_bytes l) n (psy_read_bytes_fixed n) l.
Proof.
  intros Hl. pose proof (read_exact_strict n ltac:(destruct Hl; lia)). destruct Hl as [Hl Hb].
  by apply (codes_strict (enc := write_fixed)).
Qed.

Lemma codes_vec_length {A} (l : list A) :
  Z.of_nat (length l) ≤ U32_MAX →
  codes (psy_write_vec_length (Z.of_nat (length l))) 4 psy_read_vec_length (Z.of_nat (length l)).
Proof.
  intros Hl. unfold psy_write_vec_length. rewrite (proj2 (Z.ltb_ge _ _)) by lia.
  apply codes_u32. unfold uint_ok, U32_MAX in *. lia.
Qed.

Lemma codes_bytes_vec l :
  vec_ok U32_MAX l → codes (psy_write_bytes_vec l) (4 + Z.of_nat (length l)) psy_read_bytes_vec l.
Proof.
  intros [Hl Hb]. unfold psy_write_bytes_vec, psy_read_bytes_vec.
  eapply codes_bind; [by apply codes_vec_length|]. by apply codes_fixed.
Qed.

(** A loop over the items of a vector. *)
Lemma codes_each {A} (w : A → writer) (size : A → Z) (r : reader A) l :
  Forall (λ a, codes (w a) (size a) r a) l →
  codes (write_each w l) (sizes size l) (read_list (Z.to_nat (Z.of_nat (length l))) r) l.
Proof.
  rewrite Nat2Z.id. induction 1 as [|a l Ha Hl IH]; [apply codes_done|].
  cbn [write_each foldr sizes length read_list].
  eapply codes_bind; [done|]. apply (codes_map _ _ _ (cons a)). apply IH.
Qed.

Lemma sizes_const {A} n (l : list A) : sizes (λ _, n) l = Z.of_nat (length l) * n.
Proof. induction l as [|a l IH]; [done|]. cbn [sizes foldr length]. fold (sizes (λ _ : A, n) l). lia. Qed.

Lemma codes_pio {A} `{Canonical A wf} a :
  wf a → codes (pio_write_to_io a) (pio_serialized_size a) pio_read_from_io a.
Proof. apply canonical_codes. Qed.

Lemma codes_pio_each {A} `{Canonical A wf} l :
  Forall wf l →
  codes (write_each pio_write_to_io l) (sizes pio_serialized_size l)
    (read_list (Z.to_nat (Z.of_nat (length l))) pio_read_from_io) l.
Proof. intros Hl. apply codes_each. eapply Forall_impl; [done|]. intros a. apply canonical_codes. Qed.

(** ** Single values and vectors *)
Section roundtrip.
Context {A : Type} `{Canonical A wf}.
Implicit Types (items : list A) (wc : bool).

(** The decoder of a slice does not look at what follows the value. *)
Lemma from_slice_roundtrip a junk :
  wf a → ∃ bs, psy_ser_to_bytes_vec a = Ok bs ∧ Z.of_nat (length bs) = pio_serialized_size a ∧
               psy_ser_from_slice (bs ++ junk) = Ok a.
Proof.
  intros Ha. destruct (canonical_codes a Ha) as (bs & Hw & Hl & _ & Hr). exists bs. split_and!; [done..|].
  unfold psy_ser_from_slice, from_cursor. by rewrite Hr.
Qed.

Lemma count_codes {B} (l : list B) :
  Z.of_nat (length l) < U32_MAX →
  codes (if IS_FIXED_SIZE A then p_write_fixed_items_manycount (Z.of_nat (length l))
         else p_write_varuint (Z.of_nat (length l))) 4
    (if IS_FIXED_SIZE A then p_read_fixed_items_many_count else p_read_varuint) (Z.of_nat (length l)).
Proof.
  intros Hl. unfold p_write_fixed_items_manycount, p_write_varuint, p_read_fixed_items_many_count, p_read_varuint.
  rewrite (proj2 (Z.ltb_ge _ _)), (proj2 (Z.leb_gt _ _)), wrap_small by (unfold U32_MAX in *; lia).
  destruct (IS_FIXED_SIZE A); apply codes_u32; unfold uint_ok, U32_MAX in *; lia.
Qed.

Lemma sizes_fixed items :
  IS_FIXED_SIZE A = true → Forall wf items →
  sizes pio_serialized_size items = Z.of_nat (length items) * FIXED_SIZE A.
Proof.
  intros Hf. induction 1 as [|a l Ha Hl IH]; [done|]. cbn [sizes foldr length].
  fold (sizes (A := A) pio_serialized_size l). rewrite IH.
  destruct (canonical_fixed a Hf Ha) as [-> _]. lia.
Qed.

Lemma vec_size items wc :
  Forall wf items →
  pio_serialized_size_vec items wc = (if wc then 4 else 0) + sizes pio_serialized_size items.
Proof.
  intros Hi. unfold pio_serialized_size_vec. destruct (IS_FIXED_SIZE A) eqn:E; [by rewrite sizes_fixed|done].
Qed.

Lemma write_many_codes items wc :
  Forall wf items → Z.of_nat (length items) < U32_MAX → Z.of_nat (length items) ≤ MAX_VEC_LENGTH A →
  codes (pio_write_to_io_many items wc) (pio_serialized_size_vec items wc)
    (pio_read_from_io_many (if wc then None else Some (Z.of_nat (length items)))) items.
Proof.
  intros Hi Hl Hm. rewrite vec_size by done. unfold pio_write_to_io_many, pio_read_from_io_many.
  eapply codes_bind; [|cbn beta].
  - destruct wc; [by apply count_codes|apply codes_done].
  - destruct (codes_pio_each items Hi) as (bs & Hw & Hb & Hs & Hr). exists bs. split_and!; try done.
    intros rest. by rewrite rguard_false by lia.
Qed.

Lemma written_nonempty items :
  IS_FIXED_SIZE A = true → Forall wf items → items ≠ [] → 0 < pio_serialized_size_vec items false.
Proof.
  intros Hf Hi Hne. rewrite vec_size, sizes_fixed by done. destruct Hi as [|a l Ha Hl]; [done|].
  destruct (canonical_fixed a Hf Ha) as [_ ?]. cbn [length]. nia.
Qed.

Lemma read_many_back items (wc : bool) bs :
  pio_read_from_io_many (if wc then None else Some (Z.of_nat (length items))) bs = Ok (items, []) →
  bs ≠ [] →
  pio_read_many_from_ref_bytes bs (if wc then None else Some (Z.of_nat (length items))) = Ok items.
Proof.
  intros Hr Hne. unfold pio_read_many_from_ref_bytes, from_cursor. rewrite Hr.
  destruct bs; [done|]. by destruct wc.
Qed.

Lemma vec_roundtrip items (wc : bool) :
  Forall wf items → Z.of_nat (length items) < U32_MAX → Z.of_nat (length items) ≤ MAX_VEC_LENGTH A →
  ∃ bs, psy_ser_serialize_vec_of_self_ref items wc = Ok bs ∧
        Z.of_nat (length bs) = pio_serialized_size_vec items (wc || negb (IS_FIXED_SIZE A)) ∧
        psy_ser_deserialize_vec_of_self bs wc = Ok items.
Proof.
  intros Hi Hl Hm. set (count := wc || negb (IS_FIXED_SIZE A)).
  destruct (write_many_codes items count Hi Hl Hm) as (bs & Hw & Hs & _ & Hr).
  specialize (Hr []). rewrite app_nil_r in Hr. exists bs.
  unfold psy_ser_serialize_vec_of_self_ref, pio_write_many_to_bytes. fold count. rewrite Hw.
  split_and!; [done..|]. unfold psy_ser_deserialize_vec_of_self.
  destruct (decide (bs = [])) as [->|Hne].
  { rewrite vec_size in Hs by done. destruct count eqn:Ec; cbn [length] in *.
    - assert (0 ≤ sizes pio_serialized_size items); [|lia]. clear -Hi H0. induction Hi as [|a l Ha Hl IH]; [done|].
      cbn [sizes foldr]. fold (sizes (A := A) pio_serialized_size l).
      destruct (canonical_codes a Ha) as (b & _ & Hb & _). lia.
    - cbn. destruct items as [|a l]; [done|]. apply orb_false_elim in Ec as [_ Hf%negb_false_iff].
      pose proof (written_nonempty (a :: l) Hf Hi ltac:(done)) as Hp. rewrite vec_size in Hp by done. lia. }
  destruct bs as [|b0 bs']; [done|]. cbn [length Nat.eqb]. apply read_many_back in Hr; [|done].
  destruct (IS_FIXED_SIZE A && negb wc) eqn:Ec.
  - apply andb_prop in Ec as [Hf Hwc]. assert (count = false) as E by (unfold count; destruct wc; by rewrite ?Hf).
    rewrite E in Hs, Hr. rewrite vec_size, sizes_fixed in Hs by done.
    assert (0 < FIXED_SIZE A) as Hp.
    { destruct items as [|a l]; [cbn [length] in Hs; lia|]. apply Forall_cons in Hi as [Ha _].
      by destruct (canonical_fixed a Hf Ha). }
    unfold rem. rewrite (proj2 (Z.eqb_neq _ _)) by lia. cbn [outcome_bind].
    change (S (length bs')) with (length (b0 :: bs')). rewrite Hs, Z.add_0_l, Z_mod_mult. cbn [Z.eqb negb].
    by rewrite Z.div_mul by lia.
  - assert (count = true) as E by (unfold count; destruct wc, (IS_FIXED_SIZE A); done). by rewrite E in Hr.
Qed.

(** The reader refuses what the writer wrote when the vector is longer than the type allows. *)
Lemma long_vec_refused items (wc : bool) :
  Forall wf items → Z.of_nat (length items) < U32_MAX → 0 ≤ MAX_VEC_LENGTH A < Z.of_nat (length items) →
  ∃ bs msg, psy_ser_serialize_vec_of_self_ref items wc = Ok bs ∧ psy_ser_deserialize_vec_of_self bs wc = Err msg.
Proof.
  intros Hi Hl Hm. destruct (codes_pio_each items Hi) as (bs & Hw & Hb & _ & _).
  unfold psy_ser_serialize_vec_of_self_ref, pio_write_many_to_bytes, pio_write_to_io_many. rewrite Hw.
  unfold psy_ser_deserialize_vec_of_self, pio_read_many_from_ref_bytes, from_cursor, pio_read_from_io_many.
  destruct (wc || negb (IS_FIXED_SIZE A)) eqn:Ec.
  - destruct (count_codes items Hl) as (cs & -> & Hc & _ & Hr). cbn. eexists (cs ++ bs), _. split; [done|].
    replace (IS_FIXED_SIZE A && negb wc) with false by (destruct wc, (IS_FIXED_SIZE A); done).
    replace (length (cs ++ bs) =? 0)%nat with false by (symmetry; apply Nat.eqb_neq; rewrite length_app; lia).
    cbn [andb]. unfold rbind at 1. rewrite Hr. cbn [outcome_bind]. unfold rguard.
    by rewrite (proj2 (Z.ltb_lt _ _)) by lia.
  - apply orb_false_elim in Ec as [-> Hf%negb_false_iff]. rewrite Hf, sizes_fixed in * by done. cbn [wdone].
    cbn. eexists bs, _. split; [done|].
    assert (0 < FIXED_SIZE A) as Hp.
    { destruct items as [|a l]; [cbn in Hm; lia|]. apply Forall_cons in Hi as [Ha _]. by destruct (canonical_fixed a Hf Ha). }
    replace (length bs =? 0)%nat with false by (symmetry; apply Nat.eqb_neq; nia).
    unfold rem. rewrite (proj2 (Z.eqb_neq _ _)) by lia. cbn [outcome_bind].
    rewrite Hb, Z_mod_mult, Z.div_mul by lia. cbn [Z.eqb negb andb]. unfold rguard.
    by rewrite (proj2 (Z.ltb_lt _ _)) by lia.
Qed.

(** C22: a vector of well-formed values of a canonical type, shorter than 2^32 - 1 and no
    longer than the type's maximum, survives the default [psy_ser_serialize_vec_of_self] and back, with
    or without the count of a fixed-size type, and takes the announced number of bytes. A
    vector beyond the type's maximum is written all the same, and the reader refuses it.
    When the count is written and does not fit its 32 bits, the writer panics. *)
Theorem serialize_vec_roundtrip items (wc : bool) :
  Forall wf items →
  let n := Z.of_nat (length items) in
  let count := wc || negb (IS_FIXED_SIZE A) in
  (n < U32_MAX → n ≤ MAX_VEC_LENGTH A →
   ∃ bs, psy_ser_serialize_vec_of_self_ref items wc = Ok bs ∧
         Z.of_nat (length bs) = pio_serialized_size_vec items count ∧
         psy_ser_deserialize_vec_of_self bs wc = Ok items) ∧
  (n < U32_MAX → 0 ≤ MAX_VEC_LENGTH A < n →
   ∃ bs msg, psy_ser_serialize_vec_of_self_ref items wc = Ok bs ∧ psy_ser_deserialize_vec_of_self bs wc = Err msg) ∧
  (count = true → U32_MAX < n → psy_ser_serialize_vec_of_self_ref items wc = Panic).
Proof.
  intros Hi n count. split_and!; [by apply vec_roundtrip|by apply long_vec_refused|].
  intros Hc Hn. unfold psy_ser_serialize_vec_of_self_ref, pio_write_many_to_bytes, pio_write_to_io_many.
  fold count. rewrite Hc. unfold p_write_fixed_items_manycount, p_write_varuint. fold n.
  rewrite (proj2 (Z.ltb_lt _ _)), (proj2 (Z.leb_le _ _)) by lia. by destruct (IS_FIXED_SIZE A).
Qed.
End roundtrip.

(** ** The fixed-size template *)
Class FixedLaws (A : Type) `{FastFixedSerializable A} (wf : A → Prop) : Prop := {
  ffs_size_pos : 0 < FFS_SIZE A;
  ffs_array : ∀ a, wf a → array_ok (FFS_SIZE A) (ffs_to_bytes a);
  ffs_roundtrip : ∀ a, wf a → ffs_from_owned_bytes (ffs_to_bytes a) = a;
}.

Lemma fixed_canonical {A} `{FixedLaws A wf} : Canonical A (H := fixed_io) wf.
Proof.
  split.
  - intros a Ha. cbn. unfold fx_tpl_pio_write_to_io, fx_tpl_pio_read_from_io.
    pose proof (codes_fixed _ _ (ffs_array a Ha)) as Hc.
    apply (codes_map _ _ _ ffs_from_owned_bytes) in Hc. by rewrite ffs_roundtrip in Hc.
  - intros a _ Ha. cbn. split; [done|apply ffs_size_pos].
Qed.

(** Two outcomes that agree up to the text of the error. *)
Definition agrees {A} (o1 o2 : outcome A) : Prop :=
  match o1, o2 with Err _, Err _ => True | _, _ => o1 = o2 end.

Section bulk.
Context {A : Type} `{FixedLaws A wf}.
#[local] Instance bulk_io : PsyIOReadWrite A := fixed_io.
Implicit Types (items : list A) (wc : bool) (bs : list Z).

Lemma write_each_fixed items : write_each pio_write_to_io items = Ok (ffs_serialize_vec_of_self_ref items).
Proof. induction items as [|a l IH]; [done|]. cbn [write_each foldr]. unfold write_each in IH. by rewrite IH. Qed.

Lemma bulk_write items wc : fx_tpl_pio_write_to_io_many items wc = pio_write_to_io_many items wc.
Proof.
  unfold fx_tpl_pio_write_to_io_many, pio_write_to_io_many. f_equal. rewrite write_each_fixed. by destruct items.
Qed.

(** Reading item by item is one large read cut into pieces. *)
Lemma read_list_fixed count bs :
  read_list count pio_read_from_io bs =
  if Z.of_nat (length bs) <? Z.of_nat count * FFS_SIZE A then Err "UnexpectedEof"
  else Ok (ffs_from_owned_bytes <$> chunks_exact count (Z.to_nat (FFS_SIZE A)) bs,
           drop (count * Z.to_nat (FFS_SIZE A)) bs).
Proof.
  pose proof ffs_size_pos as Hp. revert bs. induction count as [|count IH]; intros bs.
  { rewrite (proj2 (Z.ltb_ge _ _)) by lia. done. }
  cbn [read_list]. unfold rbind at 1. cbn -[fmap list_fmap]. unfold fx_tpl_pio_read_from_io, rbind, read_exact.
  destruct (Z.ltb_spec (Z.of_nat (length bs)) (FFS_SIZE A)) as [Hlt|Hge]; cbn [outcome_bind rret].
  { rewrite (proj2 (Z.ltb_lt _ _)) by nia. done. }
  cbn in IH. rewrite IH, length_drop.
  replace (Z.of_nat (length bs - Z.to_nat (FFS_SIZE A)) <? Z.of_nat count * FFS_SIZE A)
    with (Z.of_nat (length bs) <? Z.of_nat (S count) * FFS_SIZE A) by
    (rewrite Nat2Z.inj_succ, Z.mul_succ_l; apply Bool.eq_iff_eq_true; rewrite !Z.ltb_lt; lia).
  destruct (_ <? _); cbn [outcome_bind rret]; [done|]. by rewrite drop_drop.
Qed.

Lemma chunks_take n bs : ∀ count extra,
  (count * n ≤ length bs)%nat → chunks_exact count n (take (count * n + extra) bs) = chunks_exact count n bs.
Proof.
  intros count. revert bs. induction count as [|count IH]; intros bs extra Hl; [done|]. cbn [chunks_exact].
  rewrite take_take, skipn_firstn_comm. f_equal; [f_equal; lia|].
  replace (S count * n + extra - n)%nat with (count * n + extra)%nat by lia. apply IH. rewrite length_drop. lia.
Qed.

Lemma ffs_deserialize_exact (count : nat) bs :
  Z.of_nat (length bs) = Z.of_nat count * FFS_SIZE A →
  ffs_deserialize_vec_of_self bs = Ok (ffs_from_owned_bytes <$> chunks_exact count (Z.to_nat (FFS_SIZE A)) bs).
Proof.
  pose proof ffs_size_pos as Hp. intros Hl. unfold ffs_deserialize_vec_of_self, rem.
  rewrite (proj2 (Z.eqb_neq _ _)) by lia. cbn [outcome_bind]. rewrite Hl, Z_mod_mult. cbn [Z.eqb negb].
  by rewrite Z.div_mul, Nat2Z.id by lia.
Qed.

(** The bulk routines of the template do what the default methods do item by item. *)
Theorem fixed_bulk_equivalent (known_count : option Z) items wc bs :
  0 ≤ default 0 known_count → ffs_max_vec_length A ≤ U32_MAX → FFS_SIZE A < 2 ^ 32 → bytes bs →
  fx_tpl_pio_write_to_io_many items wc = pio_write_to_io_many items wc ∧
  fx_tpl_pio_serialized_size_vec items wc = pio_serialized_size_vec items wc ∧
  agrees (fx_tpl_pio_read_from_io_many known_count bs) (pio_read_from_io_many known_count bs).
Proof.
  intros Hk Hm Hn Hb. pose proof ffs_size_pos as Hp. split; [apply bulk_write|]. split.
  { unfold fx_tpl_pio_serialized_size_vec, pio_serialized_size_vec. cbn. lia. }
  unfold fx_tpl_pio_read_from_io_many, pio_read_from_io_many. cbn [IS_FIXED_SIZE bulk_io fixed_io].
  unfold rbind at 1. unfold rbind at 2.
  destruct (match known_count with Some len => rret len | None => p_read_fixed_items_many_count end bs)
    as [[len rest]| | |] eqn:Er; cbn [outcome_bind]; try done.
  assert (0 ≤ len) as Hl0.
  { destruct known_count as [n|]; [injection Er as <- <-; cbn in Hk; lia|].
    destruct (strict_only (Strict := read_uint_strict 4) bs len rest Hb Er) as [[? _] _]. lia. }
  unfold rguard. cbn [MAX_VEC_LENGTH bulk_io fixed_io].
  destruct (Z.ltb_spec (ffs_max_vec_length A) len) as [|Hle]; [done|].
  rewrite read_list_fixed, Z2Nat.id by lia. destruct (Z.eqb_spec len 0) as [->|Hne].
  { cbn. by rewrite (proj2 (Z.ltb_ge _ _)) by lia. }
  unfold checked_mul. rewrite (proj2 (Z.ltb_lt _ _)) by (unfold U32_MAX in *; nia).
  unfold rbind, read_exact. destruct (Z.ltb_spec (Z.of_nat (length rest)) (len * FFS_SIZE A)) as [|Hge]; [done|].
  cbn [outcome_bind]. rewrite (ffs_deserialize_exact (Z.to_nat len)).
  - cbn [outcome_bind]. replace (Z.to_nat (len * FFS_SIZE A)) with (Z.to_nat len * Z.to_nat (FFS_SIZE A) + 0)%nat by lia.
    rewrite chunks_take by lia. by rewrite Nat.add_0_r.
  - rewrite length_take. lia.
Qed.

Lemma chunks_concat n ls : Forall (λ l, length l = n) ls → chunks_exact (length ls) n (concat ls) = ls.
Proof.
  induction 1 as [|l ls Hl Hls IH]; [done|]. cbn [length chunks_exact concat].
  by rewrite take_app_length', drop_app_length', IH by done.
Qed.

Lemma slab items :
  Forall wf items →
  Z.of_nat (length (ffs_serialize_vec_of_self_ref items)) = Z.of_nat (length items) * FFS_SIZE A ∧
  ffs_deserialize_vec_of_self (ffs_serialize_vec_of_self_ref items) = Ok items.
Proof.
  intros Hi. pose proof ffs_size_pos as Hp.
  assert (Z.of_nat (length (ffs_serialize_vec_of_self_ref items)) = Z.of_nat (length items) * FFS_SIZE A) as Hl.
  { unfold ffs_serialize_vec_of_self_ref. clear -Hi H0. induction Hi as [|a l Ha Hi IH]; [done|].
    cbn [fmap list_fmap concat length]. rewrite length_app, Nat2Z.inj_add. destruct (ffs_array a Ha) as [-> _].
    unfold ffs_serialize_vec_of_self_ref in IH. cbn in IH. lia. }
  split; [done|]. rewrite (ffs_deserialize_exact (length items)) by done. f_equal.
  unfold ffs_serialize_vec_of_self_ref. rewrite <- (length_fmap ffs_to_bytes items), chunks_concat.
  - rewrite <- list_fmap_compose. transitivity (id <$> items); [|apply list_fmap_id].
    apply list_fmap_ext. intros i a Ha. apply ffs_roundtrip. by eapply Forall_lookup_1.
  - apply Forall_fmap. eapply Forall_impl; [done|]. intros a Ha. cbn. destruct (ffs_array a Ha). lia.
Qed.

(** A vector of fixed-size objects survives the template's own encodings: with a count
    it is accepted at exactly its length, without one it is the bare slab. *)
Theorem fixed_vec_roundtrip items wc :
  Forall wf items → Z.of_nat (length items) ≤ U32_MAX → FFS_SIZE A < 2 ^ 31 →
  let bs := fx_tpl_psy_ser_serialize_vec_of_self_ref items wc in
  fx_tpl_psy_ser_deserialize_vec_of_self bs wc = Ok items ∧
  Z.of_nat (length bs) = fx_tpl_pio_serialized_size_vec items wc ∧
  fx_tpl_pio_write_many_to_bytes items wc = Ok bs ∧
  (wc = false →
   fx_tpl_pio_read_many_from_ref_bytes bs None = Ok items ∧
   fx_tpl_pio_read_many_from_ref_bytes bs (Some (Z.of_nat (length items))) = Ok items).
Proof.
  intros Hi Hl Hn bs. pose proof ffs_size_pos as Hp. destruct (slab items Hi) as [Hs Hd].
  set (sl := ffs_serialize_vec_of_self_ref items) in *. unfold U32_MAX in Hl.
  assert (bs = (if wc then to_le_bytes 4 (Z.of_nat (length items)) else []) ++ sl) as Hbs.
  { unfold bs, fx_tpl_psy_ser_serialize_vec_of_self_ref. by rewrite wrap_small by lia. }
  clearbody bs. subst bs. destruct wc; cbn [app].
  - unfold fx_tpl_psy_ser_deserialize_vec_of_self, fx_tpl_pio_serialized_size_vec.
    rewrite length_app, length_to_le_bytes, (proj2 (Z.ltb_ge _ _)) by lia.
    rewrite take_app_length' by (by rewrite length_to_le_bytes). rewrite from_to_le_bytes by lia.
    rewrite drop_app_length' by (by rewrite length_to_le_bytes). rewrite wrap_small by nia.
    rewrite Nat2Z.inj_add, Hs, Z.eqb_refl. cbn [negb]. split_and!; [done|lia| |done].
    unfold fx_tpl_pio_write_many_to_bytes, fx_tpl_pio_write_to_io_many, p_write_fixed_items_manycount.
    cbn [negb]. rewrite (proj2 (Z.ltb_ge _ _)), wrap_small by (unfold U32_MAX; lia). fold sl. by destruct items.
  - unfold fx_tpl_psy_ser_deserialize_vec_of_self, fx_tpl_pio_serialized_size_vec.
    split_and!; [done|lia|done|]. intros _.
    assert ((if (length sl =? 0)%nat then Ok [] else ffs_deserialize_vec_of_self sl) = Ok items) as He.
    { destruct (Nat.eqb_spec (length sl) 0) as [E|]; [|done]. destruct items; [done|].
      rewrite E in Hs. cbn [length] in Hs. nia. }
    unfold fx_tpl_pio_read_many_from_ref_bytes, rem. split.
    + rewrite (proj2 (Z.eqb_neq _ _)) by lia. cbn [outcome_bind]. by rewrite Hs, Z_mod_mult.
    + rewrite wrap_small by nia. rewrite (proj2 (Z.ltb_ge _ _)) by lia. by rewrite take_ge by lia.
Qed.
End bulk.
