(* ===== verification/ByteOrder.v ===== *)
(** * Ordered tables of byte strings

    What the in-memory database uses of [Vec<u8>]'s order, of the big-endian
    integers its keys are made of, and of crossbeam's [SkipMap]: a table is a finite
    map from byte strings to byte strings, visited in the lexicographic order of its
    keys. A range is the part of that visit between two bounds. *)
From stdpp Require Import prelude list gmap sorting.
From Stdlib Require Import ZArith Lia.
From S2P Require Import Prelude Wire Serialize.

(** ** Big-endian integers *)
Definition to_be_bytes (n : nat) (x : Z) : list Z := reverse (to_le_bytes n x).

Definition from_be_bytes (l : list Z) : Z := from_le_bytes (reverse l).

#[global] Arguments to_be_bytes : simpl never.
#[global] Arguments from_be_bytes : simpl never.

(** [i64::from_be_bytes]; [i64::to_be_bytes] is [to_be_bytes 8], whose divisions round
    down and so give the two's complement. *)
Definition signed (w x : Z) : Z := if x <? 2 ^ (w - 1) then x else x - 2 ^ w.
Definition i64_from_be_bytes (l : list Z) : Z := signed 64 (from_be_bytes l).

(** [&l[a..b]] panics out of range. *)
Definition subslice (l : list Z) (a b : nat) : outcome (list Z) :=
  if decide (a ≤ b ≤ length l)%nat then Ok (take (b - a) (drop a l)) else Panic.

(** [u64::from_be_bytes(l[a..a + 8].try_into()?)] *)
Definition read_be_u64 (l : list Z) (a : nat) : outcome Z :=
  let* b := subslice l a (a + 8) in Ok (from_be_bytes b).

(** ** The order of [Vec<u8>] *)
Fixpoint bytes_cmp (a b : list Z) : comparison :=
  match a, b with
  | [], [] => Eq
  | [], _ :: _ => Lt
  | _ :: _, [] => Gt
  | x :: a, y :: b => match x ?= y with Eq => bytes_cmp a b | c => c end
  end.

Definition bytes_le (a b : list Z) : Prop := bytes_cmp a b ≠ Gt.
Definition bytes_lt (a b : list Z) : Prop := bytes_cmp a b = Lt.

#[global] Instance bytes_le_dec : RelDecision bytes_le.
Proof. intros a b. unfold bytes_le. apply _. Defined.

#[global] Instance bytes_lt_dec : RelDecision bytes_lt.
Proof. intros a b. unfold bytes_lt. apply _. Defined.

(** ** Tables *)
Abbreviation skipmap := (gmap (list Z) (list Z)).

Definition entry_le (a b : list Z * list Z) : Prop := bytes_le a.1 b.1.

#[global] Instance entry_le_dec : RelDecision entry_le.
Proof. intros a b. unfold entry_le. apply _. Defined.

(** [SkipMap::iter]: the entries by increasing key. *)
Definition iter (m : skipmap) : list (list Z * list Z) := merge_sort entry_le (map_to_list m).

(** The upper bounds of [lo..], [lo..=hi] and [lo..hi]. *)
Inductive upper : Type :=
  | Unbounded
  | Included (hi : list Z)
  | Excluded (hi : list Z).

Definition below (u : upper) (k : list Z) : Prop :=
  match u with Unbounded => True | Included hi => bytes_le k hi | Excluded hi => bytes_lt k hi end.

#[global] Instance below_dec u k : Decision (below u k).
Proof. destruct u; simpl; apply _. Defined.

(** [SkipMap::range]. *)
Definition range (lo : list Z) (u : upper) (m : skipmap) : list (list Z * list Z) :=
  filter (λ e, bytes_le lo e.1 ∧ below u e.1) (iter m).

(** ** Big-endian integers: lemmas *)
Lemma length_to_be_bytes n x : length (to_be_bytes n x) = n.
Proof. unfold to_be_bytes. by rewrite length_reverse, length_to_le_bytes. Qed.

Lemma bytes_to_be_bytes n x : bytes (to_be_bytes n x).
Proof. apply Forall_reverse, bytes_to_le_bytes. Qed.

Lemma from_to_be_bytes n x : 0 ≤ x < 2 ^ (8 * Z.of_nat n) → from_be_bytes (to_be_bytes n x) = x.
Proof. intros. unfold from_be_bytes, to_be_bytes. rewrite reverse_involutive. by apply from_to_le_bytes. Qed.

Lemma to_from_be_bytes l : bytes l → to_be_bytes (length l) (from_be_bytes l) = l.
Proof.
  intros Hl. unfold from_be_bytes, to_be_bytes. rewrite <- (length_reverse l), to_from_le_bytes, reverse_involutive; [done|].
  by apply Forall_reverse.
Qed.

Lemma from_be_bytes_range l : bytes l → 0 ≤ from_be_bytes l < 2 ^ (8 * Z.of_nat (length l)).
Proof. intros Hl. rewrite <- (length_reverse l). apply from_le_bytes_range. by apply Forall_reverse. Qed.

Lemma to_be_bytes_S n x : to_be_bytes (S n) x = to_be_bytes n (x / 256) ++ [x mod 256].
Proof. unfold to_be_bytes. cbn [to_le_bytes]. by rewrite reverse_cons. Qed.

Lemma to_be_bytes_inj n x y :
  is_uint (8 * Z.of_nat n) x → is_uint (8 * Z.of_nat n) y → to_be_bytes n x = to_be_bytes n y → x = y.
Proof. intros Hx Hy E. rewrite <- (from_to_be_bytes n x Hx), <- (from_to_be_bytes n y Hy). by rewrite E. Qed.

(** A key that ends in eight bytes ends in an integer. *)
Lemma split_be n k :
  length k = (n + 8)%nat → bytes k →
  k = take n k ++ to_be_bytes 8 (from_be_bytes (drop n k)) ∧ is_uint 64 (from_be_bytes (drop n k)).
Proof.
  intros Hl Hb. assert (Hd : length (drop n k) = 8%nat) by (rewrite length_drop; lia).
  apply (Forall_drop _ n) in Hb. pose proof (from_be_bytes_range _ Hb) as Hr. rewrite Hd in Hr. split; [|done].
  rewrite <- Hd at 1. by rewrite to_from_be_bytes, take_drop.
Qed.

(** ** The order: lemmas *)
Lemma bytes_cmp_refl a : bytes_cmp a a = Eq.
Proof. induction a as [|x a IH]; [done|]. cbn. by rewrite Z.compare_refl. Qed.

Lemma bytes_cmp_eq a : ∀ b, bytes_cmp a b = Eq → a = b.
Proof.
  induction a as [|x a IH]; intros [|y b]; try done. cbn.
  destruct (Z.compare_spec x y) as [->| |]; try done. intros E. f_equal. by apply IH.
Qed.

Lemma bytes_cmp_antisym a : ∀ b, bytes_cmp a b = CompOpp (bytes_cmp b a).
Proof.
  induction a as [|x a IH]; intros [|y b]; try done. cbn. rewrite (Z.compare_antisym y x).
  destruct (y ?= x); cbn; auto.
Qed.

Lemma bytes_lt_trans a : ∀ b c, bytes_lt a b → bytes_lt b c → bytes_lt a c.
Proof.
  unfold bytes_lt. induction a as [|x a IH]; intros [|y b] [|z c]; try done. cbn.
  destruct (Z.compare_spec x y), (Z.compare_spec y z), (Z.compare_spec x z); subst; try done; try lia; eauto.
Qed.

Lemma bytes_le_lteq a b : bytes_le a b ↔ bytes_lt a b ∨ a = b.
Proof.
  unfold bytes_le, bytes_lt. destruct (bytes_cmp a b) eqn:E; try naive_solver.
  - apply bytes_cmp_eq in E. naive_solver.
  - split; [done|]. intros [?| ->]; [done|]. by rewrite bytes_cmp_refl in E.
Qed.

#[global] Instance bytes_le_refl : Reflexive bytes_le.
Proof. intros a. apply bytes_le_lteq. by right. Qed.

#[global] Instance bytes_le_trans : Transitive bytes_le.
Proof.
  intros a b c [Hab| ->]%bytes_le_lteq [Hbc| ->]%bytes_le_lteq; apply bytes_le_lteq; auto.
  left. by eapply bytes_lt_trans.
Qed.

#[global] Instance bytes_le_antisymm : AntiSymm (=) bytes_le.
Proof.
  intros a b [Hab|?]%bytes_le_lteq Hba; [|done]. unfold bytes_le in Hba.
  rewrite bytes_cmp_antisym, Hab in Hba. done.
Qed.

#[global] Instance bytes_le_total : Total bytes_le.
Proof.
  intros a b. unfold bytes_le. rewrite (bytes_cmp_antisym b a). destruct (bytes_cmp a b); cbn; auto.
Qed.

#[global] Instance entry_le_trans : Transitive entry_le.
Proof. intros a b c. unfold entry_le. by etrans. Qed.

#[global] Instance entry_le_total : Total entry_le.
Proof. intros a b. unfold entry_le. apply (total bytes_le). Qed.

Lemma bytes_lt_irrefl a : ¬ bytes_lt a a.
Proof. unfold bytes_lt. by rewrite bytes_cmp_refl. Qed.

Lemma bytes_nle a b : ¬ bytes_le a b ↔ bytes_lt b a.
Proof. unfold bytes_le, bytes_lt. rewrite (bytes_cmp_antisym b a). destruct (bytes_cmp a b); cbn; naive_solver. Qed.

Lemma bytes_nlt a b : ¬ bytes_lt a b ↔ bytes_le b a.
Proof. unfold bytes_le, bytes_lt. rewrite (bytes_cmp_antisym b a). destruct (bytes_cmp a b); cbn; naive_solver. Qed.

(** Prefixes of one length decide first. *)
Lemma bytes_cmp_app a : ∀ a' b b',
  length a = length a' →
  bytes_cmp (a ++ b) (a' ++ b') = match bytes_cmp a a' with Eq => bytes_cmp b b' | c => c end.
Proof.
  induction a as [|x a IH]; intros [|y a'] b b' Hl; try done. cbn. destruct (x ?= y); auto.
Qed.

Lemma bytes_cmp_prefix p a b : bytes_cmp (p ++ a) (p ++ b) = bytes_cmp a b.
Proof. by rewrite bytes_cmp_app, bytes_cmp_refl. Qed.

(** Big-endian integers are ordered as the integers. *)
Lemma bytes_cmp_be n : ∀ x y,
  is_uint (8 * Z.of_nat n) x → is_uint (8 * Z.of_nat n) y →
  bytes_cmp (to_be_bytes n x) (to_be_bytes n y) = (x ?= y).
Proof.
  unfold is_uint. induction n as [|n IH]; intros x y Hx Hy.
  { assert (x = 0 ∧ y = 0) as [-> ->] by (cbn in *; lia). done. }
  rewrite !to_be_bytes_S, bytes_cmp_app by by rewrite !length_to_be_bytes.
  replace (2 ^ (8 * Z.of_nat (S n))) with (256 * 2 ^ (8 * Z.of_nat n)) in * by
    (rewrite Nat2Z.inj_succ, Z.mul_succ_r, Z.add_comm, Z.pow_add_r by lia; done).
  rewrite IH by (split; [apply Z.div_pos; lia|apply Z.div_lt_upper_bound; lia]).
  cbn [bytes_cmp]. pose proof (Z.div_mod x 256 ltac:(lia)). pose proof (Z.div_mod y 256 ltac:(lia)).
  pose proof (Z.mod_pos_bound x 256 ltac:(lia)). pose proof (Z.mod_pos_bound y 256 ltac:(lia)).
  destruct (Z.compare_spec (x / 256) (y / 256)), (Z.compare_spec x y); try done; try lia;
    destruct (Z.compare_spec (x mod 256) (y mod 256)); try done; lia.
Qed.

(** ** Ranges: lemmas *)
Lemma elem_of_iter m e : e ∈ iter m ↔ m !! e.1 = Some e.2.
Proof.
  unfold iter. rewrite merge_sort_Permutation. destruct e as [k v]. apply elem_of_map_to_list.
Qed.

Lemma iter_sorted m : StronglySorted entry_le (iter m).
Proof. apply (StronglySorted_merge_sort _). Qed.

Lemma NoDup_iter m : NoDup (iter m).*1.
Proof. unfold iter. rewrite merge_sort_Permutation. apply NoDup_fst_map_to_list. Qed.

Lemma elem_of_range lo u m e :
  e ∈ range lo u m ↔ m !! e.1 = Some e.2 ∧ bytes_le lo e.1 ∧ below u e.1.
Proof. unfold range. rewrite list_elem_of_filter, elem_of_iter. naive_solver. Qed.

Lemma StronglySorted_filter {A} (R : A → A → Prop) (P : A → Prop) `{∀ x, Decision (P x)} l :
  StronglySorted R l → StronglySorted R (filter P l).
Proof.
  induction 1 as [|a l Hl IH Ha]; [constructor|]. rewrite filter_cons.
  case_decide; [|done]. constructor; [done|].
  apply Forall_forall. intros x [_ Hx]%list_elem_of_filter. by eapply Forall_forall in Ha.
Qed.

Lemma range_sorted lo u m : StronglySorted entry_le (range lo u m).
Proof. apply StronglySorted_filter, iter_sorted. Qed.

Lemma NoDup_range lo u m : NoDup (range lo u m).*1.
Proof.
  eapply NoDup_of_submseteq, NoDup_iter. apply fmap_submseteq. unfold range.
  apply sublist_submseteq, sublist_filter.
Qed.

(** The last element of a sorted list is its greatest. *)
Lemma StronglySorted_last {A} (R : A → A → Prop) `{!Reflexive R} l x :
  StronglySorted R l → last l = Some x → ∀ y, y ∈ l → R y x.
Proof.
  intros Hs [l' ->]%last_Some y [Hy|Hy]%elem_of_app.
  - apply StronglySorted_app in Hs as (H & _ & _). apply H; [done|]. by apply list_elem_of_singleton.
  - apply list_elem_of_singleton in Hy as ->. done.
Qed.

#[global] Instance entry_le_refl : Reflexive entry_le.
Proof. intros a. apply (reflexivity (R := bytes_le)). Qed.

(** [range(..).next_back()] *)
Lemma last_range lo u m :
  match last (range lo u m) with
  | Some (k, v) => m !! k = Some v ∧ bytes_le lo k ∧ below u k ∧
      ∀ k' v', m !! k' = Some v' → bytes_le lo k' → below u k' → bytes_le k' k
  | None => ∀ k' v', m !! k' = Some v' → bytes_le lo k' → below u k' → False
  end.
Proof.
  destruct (last (range lo u m)) as [[k v]|] eqn:E.
  - pose proof E as Hin. apply last_Some_elem_of, elem_of_range in Hin as (? & ? & ?).
    split_and!; try done. intros k' v' Hk Hlo Hu.
    apply (StronglySorted_last _ _ _ (range_sorted lo u m) E (k', v')). by apply elem_of_range.
  - apply last_None in E. intros k' v' Hk Hlo Hu.
    assert ((k', v') ∈ range lo u m) as Hin by by apply elem_of_range.
    rewrite E in Hin. by apply elem_of_nil in Hin.
Qed.

(** [range(..).next()] *)
Lemma head_range lo u m :
  match head (range lo u m) with
  | Some (k, v) => m !! k = Some v ∧ bytes_le lo k ∧ below u k ∧
      ∀ k' v', m !! k' = Some v' → bytes_le lo k' → below u k' → bytes_le k k'
  | None => ∀ k' v', m !! k' = Some v' → bytes_le lo k' → below u k' → False
  end.
Proof.
  pose proof (range_sorted lo u m) as Hs.
  assert (Hin : ∀ k v, (k, v) ∈ range lo u m ↔ m !! k = Some v ∧ bytes_le lo k ∧ below u k)
    by (intros; apply elem_of_range).
  destruct (range lo u m) as [|[k v] l]; simpl.
  - intros k' v' ? ? ?. eapply elem_of_nil, Hin. eauto.
  - destruct (proj1 (Hin k v)) as (? & ? & ?); [left|]. split_and!; try done.
    intros k' v' Hk Hlo Hu. apply StronglySorted_inv in Hs as [_ Hs].
    assert ((k', v') ∈ (k, v) :: l) as [[= -> ->]|Hl]%elem_of_cons by by apply Hin.
    { reflexivity. }
    eapply Forall_forall in Hs; [|done]. done.
Qed.

(** ** Versions

    Keys that end in a big-endian checkpoint: the entries that share everything before
    it are the versions of one object. A read at a checkpoint wants the latest version
    that is not newer. *)
Definition latest {V} (h : Z → option V) (c : Z) (r : option (Z * V)) : Prop :=
  match r with
  | Some (c', v) => h c' = Some v ∧ 0 ≤ c' ≤ c ∧ ∀ c'', c' < c'' ≤ c → h c'' = None
  | None => ∀ c', 0 ≤ c' ≤ c → h c' = None
  end.

Lemma latest_unique {V} (h : Z → option V) c r r' : latest h c r → latest h c r' → r = r'.
Proof.
  destruct r as [[c1 v1]|], r' as [[c2 v2]|]; simpl; try naive_solver.
  intros (E1 & ? & H1) (E2 & ? & H2). assert (c1 = c2) as ->; [|congruence].
  destruct (Z.lt_trichotomy c1 c2) as [Hlt|[->|Hlt]]; [|done|].
  - rewrite H1 in E2 by lia. done.
  - rewrite H2 in E1 by lia. done.
Qed.

Lemma latest_ext {V} (h h' : Z → option V) c r :
  (∀ c', 0 ≤ c' ≤ c → h' c' = h c') → latest h c r → latest h' c r.
Proof.
  intros E. destruct r as [[c' v]|]; simpl.
  - intros (H1 & ? & H2). split_and!; try lia; [by rewrite E by lia|]. intros. rewrite E by lia. auto.
  - intros H1 c' Hc. rewrite E by lia. auto.
Qed.

(** Every key of the table is [n] bytes followed by a checkpoint. *)
Definition shaped (n : nat) (m : skipmap) : Prop :=
  ∀ k v, m !! k = Some v → length k = (n + 8)%nat ∧ bytes k.

Lemma shaped_empty n : shaped n ∅.
Proof. intros k v. by rewrite lookup_empty. Qed.

Lemma shaped_insert n m k v : length k = (n + 8)%nat → bytes k → shaped n m → shaped n (<[k := v]> m).
Proof. intros ? ? Hm k' v' [[<- <-]|[? ?]]%lookup_insert_Some; eauto. Qed.

Lemma shaped_delete n m k : shaped n m → shaped n (delete k m).
Proof. intros Hm k' v' [? ?]%lookup_delete_Some. eauto. Qed.

Lemma be_le n x y :
  is_uint (8 * Z.of_nat n) x → is_uint (8 * Z.of_nat n) y →
  bytes_le (to_be_bytes n x) (to_be_bytes n y) ↔ x ≤ y.
Proof. intros. unfold bytes_le. by rewrite bytes_cmp_be. Qed.

(** The keys between two versions of an object are its versions in between. *)
Lemma version_range n m p lo hi k v :
  shaped n m → length p = n → is_uint 64 lo → is_uint 64 hi → m !! k = Some v →
  bytes_le (p ++ to_be_bytes 8 lo) k → bytes_le k (p ++ to_be_bytes 8 hi) →
  ∃ c, k = p ++ to_be_bytes 8 c ∧ lo ≤ c ≤ hi.
Proof.
  intros Hm Hp Hlo Hhi Hk H1 H2. destruct (Hm _ _ Hk) as [Hl Hb]. destruct (split_be n k Hl Hb) as [E Hr].
  assert (Ht : length (take n k) = n) by (rewrite length_take; lia).
  rewrite E in H1, H2. unfold bytes_le in H1, H2. rewrite bytes_cmp_app in H1, H2 by lia.
  assert (Hpk : take n k = p).
  { apply (anti_symm bytes_le); unfold bytes_le; intros Ec; by rewrite Ec in *. }
  rewrite Hpk, bytes_cmp_refl in H1, H2. rewrite Hpk in E.
  exists (from_be_bytes (drop n k)). split; [done|]. split; by apply (be_le 8).
Qed.

(** [range(version 0 ..= version c).next_back()] *)
Lemma last_version n m p c :
  shaped n m → length p = n → is_uint 64 c →
  ∃ r, latest (λ c', m !! (p ++ to_be_bytes 8 c')) c r ∧
    last (range (p ++ to_be_bytes 8 0) (Included (p ++ to_be_bytes 8 c)) m) =
    (λ '(c', v), (p ++ to_be_bytes 8 c', v)) <$> r.
Proof.
  intros Hm Hp Hc. assert (H0 : is_uint 64 0) by (unfold is_uint; lia).
  assert (Hin : ∀ c', 0 ≤ c' ≤ c → bytes_le (p ++ to_be_bytes 8 0) (p ++ to_be_bytes 8 c') ∧
                                   bytes_le (p ++ to_be_bytes 8 c') (p ++ to_be_bytes 8 c)).
  { intros c' Hc'. unfold bytes_le. rewrite !bytes_cmp_prefix. unfold is_uint in *.
    split; apply (be_le 8); unfold is_uint; change (8 * Z.of_nat 8) with 64; lia. }
  pose proof (last_range (p ++ to_be_bytes 8 0) (Included (p ++ to_be_bytes 8 c)) m) as Hr.
  destruct (last _) as [[k v]|].
  - destruct Hr as (Hk & Hlo & Hhi & Hmax).
    destruct (version_range n m p 0 c k v) as (c' & -> & Hc'); try done.
    exists (Some (c', v)). split; [|done]. split_and!; try done; try lia.
    intros c'' Hc''. destruct (m !! (p ++ to_be_bytes 8 c'')) as [v'|] eqn:E; [exfalso|done].
    destruct (Hin c'' ltac:(lia)) as [? ?]. specialize (Hmax _ _ E ltac:(done) ltac:(done)).
    unfold bytes_le in Hmax. rewrite bytes_cmp_prefix in Hmax. unfold is_uint in *.
    apply (be_le 8) in Hmax; unfold is_uint; change (8 * Z.of_nat 8) with 64; lia.
  - exists None. split; [|done]. intros c' Hc'. destruct (m !! _) eqn:E; [exfalso|done].
    destruct (Hin c' Hc') as [? ?]. eapply Hr; eauto.
Qed.
