(* ===== verification/Codecs.v ===== *)
(** * Codecs of the protocol's data

    The canonical codecs ([FallbackPsySerializeCanonical] and
    [FastFixedSerializable]) of Merkle proofs, contract leaves, the aggregation
    headers, the end-cap submission of a user with its contract state updates and
    events, the state updates of a prepared Realm block, and validator leaf
    preimages. Each instance is the write, the read and the announced size of one
    type; the theorems say that they fit together. Hashes and field elements are
    parameters with their byte and 64-bit encodings. *)
From stdpp Require Import prelude list strings.
From Stdlib Require Import ZArith Lia.
From S2P Require Import Prelude Wire Serialize MerkleHash FieldHash MerkleProof Spiderman NcaProof LayoutAppend.

(** ** Hashes and field elements *)
Class Q256BitHash (Hash : Type) : Type := {
  from_owned_32bytes : list Z → Hash;
  into_owned_32bytes : Hash → list Z;
}.

Class Hash32 (Hash : Type) `{Q256BitHash Hash} : Prop := {
  hash_array : ∀ h, array_ok 32 (into_owned_32bytes h);
  hash_of_bytes : ∀ h, from_owned_32bytes (into_owned_32bytes h) = h;
}.

Class QFelt64 (F : Type) : Type := {
  felt_to_u64 : F → Z;
  felt_from_u64 : Z → F;
}.

Class FeltU64 (F : Type) `{QFelt64 F} : Prop := {
  felt_u64_range : ∀ f, uint_ok 64 (felt_to_u64 f);
  felt_of_u64 : ∀ f, felt_from_u64 (felt_to_u64 f) = f;
}.

(** [writer.psy_write_bytes_fixed(&hash.into_owned_32bytes())] and
    [Hash::from_owned_32bytes(reader.psy_read_bytes_32()?)]. *)
Definition write_hash `{Q256BitHash Hash} (h : Hash) : writer := psy_write_bytes (into_owned_32bytes h).
Definition read_hash `{Q256BitHash Hash} : reader Hash :=
  let! b := psy_read_bytes_32 in rret (from_owned_32bytes b).

(** [writer.psy_write_u64(felt.to_u64_value())] and [F::from_u64_value(reader.psy_read_u64()?)]. *)
Definition write_felt `{QFelt64 F} (f : F) : writer := psy_write_u64 (felt_to_u64 f).
Definition read_felt `{QFelt64 F} : reader F := let! x := psy_read_u64 in rret (felt_from_u64 x).

Lemma codes_hash `{Hash32 Hash} (h : Hash) : codes (write_hash h) 32 read_hash h.
Proof.
  pose proof (codes_map _ _ _ from_owned_32bytes _ (codes_fixed 32 _ (hash_array h))) as Hc.
  by rewrite hash_of_bytes in Hc.
Qed.

Lemma codes_felt `{FeltU64 F} (f : F) : codes (write_felt f) 8 read_felt f.
Proof.
  pose proof (codes_map _ _ _ felt_from_u64 _ (codes_u64 _ (felt_u64_range f))) as Hc.
  by rewrite felt_of_u64 in Hc.
Qed.

Lemma codes_hashes `{Hash32 Hash} (l : list Hash) :
  codes (write_each write_hash l) (Z.of_nat (length l) * 32)
    (read_list (Z.to_nat (Z.of_nat (length l))) read_hash) l.
Proof. rewrite <- sizes_const. apply codes_each, Forall_true. intros h. apply codes_hash. Qed.

Lemma codes_felts `{FeltU64 F} (l : list F) :
  codes (write_each write_felt l) (Z.of_nat (length l) * 8)
    (read_list (Z.to_nat (Z.of_nat (length l))) read_felt) l.
Proof. rewrite <- sizes_const. apply codes_each, Forall_true. intros h. apply codes_felt. Qed.

Create HintDb codec discriminated.
#[global] Hint Constants Opaque : codec.
#[global] Hint Resolve codes_hash codes_felt codes_u8 codes_u16 codes_u32 codes_u64 codes_u128 codes_fixed
  codes_vec_length codes_bytes_vec codes_hashes codes_felts codes_pio codes_pio_each : codec.

(** Types every value of which can be written. *)
Definition any {A} (_ : A) : Prop := True.
Lemma any_ok {A} (a : A) : any a.
Proof. done. Qed.
#[global] Hint Resolve any_ok : codec.

(** The fields read back make up the value. *)
Lemma codes_ret {A} (a b : A) : a = b → codes wdone 0 (rret a) b.
Proof. intros ->. apply codes_done. Qed.

(** Follow a writer and its reader field by field, then compare the sizes. *)
Ltac codec_step :=
  first
    [ apply codes_ret; match goal with |- _ = ?x => by destruct x end
    | eapply codes_bind; [solve [eauto 3 with codec typeclass_instances]|cbn beta] ].
Ltac codec io :=
  cbn [pio_write_to_io pio_read_from_io pio_serialized_size io]; eapply codes_size; [repeat codec_step|].

(** ** Data *)
Section codecs.
Context {F Hash : Type} `{FeltU64 F} `{Hash32 Hash}.

Definition u32_vec {A} (l : list A) : Prop := Z.of_nat (length l) ≤ U32_MAX.

(** *** Merkle proofs *)
#[global] Instance merkle_proof_io : PsyIOReadWrite (MerkleProofCore Hash) := {|
  IS_FIXED_SIZE := false;
  FIXED_SIZE := 0;
  MAX_VEC_LENGTH := U32_MAX;
  pio_serialized_size p := 32 + 32 + 8 + 4 + Z.of_nat (length (mp_siblings p)) * 32;
  pio_write_to_io p :=
    write_hash (root p) +++ write_hash (value p) +++ psy_write_u64 (mp_index p) +++
    psy_write_vec_length (Z.of_nat (length (mp_siblings p))) +++ write_each write_hash (mp_siblings p) +++ wdone;
  pio_read_from_io :=
    let! root := read_hash in
    let! value := read_hash in
    let! index := psy_read_u64 in
    let! sibling_count := psy_read_vec_length in
    let! siblings := read_list (Z.to_nat sibling_count) read_hash in
    rret (mkProof root value index siblings);
|}.

Definition merkle_proof_wf (p : MerkleProofCore Hash) : Prop :=
  uint_ok 64 (mp_index p) ∧ u32_vec (mp_siblings p).

#[global] Instance merkle_proof_canonical : Canonical (MerkleProofCore Hash) merkle_proof_wf.
Proof.
  split; [|done]. intros p [? ?]. codec merkle_proof_io. lia.
Qed.

#[global] Instance delta_proof_io : PsyIOReadWrite (DeltaMerkleProofCore Hash) := {|
  IS_FIXED_SIZE := false;
  FIXED_SIZE := 0;
  MAX_VEC_LENGTH := U32_MAX;
  pio_serialized_size p := 32 + 32 + 32 + 32 + 8 + 4 + Z.of_nat (length (dmp_siblings p)) * 32;
  pio_write_to_io p :=
    write_hash (old_root p) +++ write_hash (old_value p) +++ write_hash (new_root p) +++
    write_hash (new_value p) +++ psy_write_u64 (dmp_index p) +++
    psy_write_vec_length (Z.of_nat (length (dmp_siblings p))) +++ write_each write_hash (dmp_siblings p) +++ wdone;
  pio_read_from_io :=
    let! old_root := read_hash in
    let! old_value := read_hash in
    let! new_root := read_hash in
    let! new_value := read_hash in
    let! index := psy_read_u64 in
    let! sibling_count := psy_read_vec_length in
    let! siblings := read_list (Z.to_nat sibling_count) read_hash in
    rret (mkDelta old_root old_value new_root new_value index siblings);
|}.

Definition delta_proof_wf (p : DeltaMerkleProofCore Hash) : Prop :=
  uint_ok 64 (dmp_index p) ∧ u32_vec (dmp_siblings p).

#[global] Instance delta_proof_canonical : Canonical (DeltaMerkleProofCore Hash) delta_proof_wf.
Proof. split; [|done]. intros p [? ?]. codec delta_proof_io. lia. Qed.

#[global] Instance spiderman_io : PsyIOReadWrite (SpidermanUpdateProof Hash) := {|
  IS_FIXED_SIZE := false;
  FIXED_SIZE := 0;
  MAX_VEC_LENGTH := U32_MAX;
  pio_serialized_size p :=
    pio_serialized_size (top_line_proof p) + 4 + Z.of_nat (length (web_proof_old_leaves p)) * 32 + 4 +
    Z.of_nat (length (web_proof_new_leaves p)) * 32;
  pio_write_to_io p :=
    pio_write_to_io (top_line_proof p) +++
    psy_write_vec_length (Z.of_nat (length (web_proof_old_leaves p))) +++
    write_each write_hash (web_proof_old_leaves p) +++
    psy_write_vec_length (Z.of_nat (length (web_proof_new_leaves p))) +++
    write_each write_hash (web_proof_new_leaves p) +++ wdone;
  pio_read_from_io :=
    let! top_line_proof := pio_read_from_io in
    let! old_leaves_len := psy_read_vec_length in
    let! web_proof_old_leaves := read_list (Z.to_nat old_leaves_len) read_hash in
    let! new_leaves_len := psy_read_vec_length in
    let! web_proof_new_leaves := read_list (Z.to_nat new_leaves_len) read_hash in
    rret (mkSpiderman top_line_proof web_proof_old_leaves web_proof_new_leaves);
|}.

Definition spiderman_wf (p : SpidermanUpdateProof Hash) : Prop :=
  delta_proof_wf (top_line_proof p) ∧ u32_vec (web_proof_old_leaves p) ∧ u32_vec (web_proof_new_leaves p).

#[global] Instance spiderman_canonical : Canonical (SpidermanUpdateProof Hash) spiderman_wf.
Proof. split; [|done]. intros p (? & ? & ?). codec spiderman_io. lia. Qed.

#[global] Instance nca_io : PsyIOReadWrite (UpdateNearestCommonAncestorProof Hash) := {|
  IS_FIXED_SIZE := false;
  FIXED_SIZE := 0;
  MAX_VEC_LENGTH := U32_MAX;
  pio_serialized_size p :=
    32 * 2 + pio_serialized_size (child_a p) + pio_serialized_size (child_b p) + 1 + 8 + 1 + 1;
  pio_write_to_io p :=
    write_hash (old_nearest_common_ancestor_value p) +++ write_hash (new_nearest_common_ancestor_value p) +++
    pio_write_to_io (child_a p) +++ pio_write_to_io (child_b p) +++
    psy_write_u8 (nearest_common_ancestor_level p) +++ psy_write_u64 (nearest_common_ancestor_index p) +++
    psy_write_u8 (level_a p) +++ psy_write_u8 (level_b p) +++ wdone;
  pio_read_from_io :=
    let! old_value := read_hash in
    let! new_value := read_hash in
    let! child_a := pio_read_from_io in
    let! child_b := pio_read_from_io in
    let! nca_level := psy_read_u8 in
    let! nca_index := psy_read_u64 in
    let! level_a := psy_read_u8 in
    let! level_b := psy_read_u8 in
    rret (mkNca old_value new_value child_a child_b nca_level nca_index level_a level_b);
|}.

Definition nca_wf (p : UpdateNearestCommonAncestorProof Hash) : Prop :=
  delta_proof_wf (child_a p) ∧ delta_proof_wf (child_b p) ∧ uint_ok 8 (nearest_common_ancestor_level p) ∧
  uint_ok 64 (nearest_common_ancestor_index p) ∧ uint_ok 8 (level_a p) ∧ uint_ok 8 (level_b p).

#[global] Instance nca_canonical : Canonical (UpdateNearestCommonAncestorProof Hash) nca_wf.
Proof. split; [|done]. intros p (? & ? & ? & ? & ? & ?). codec nca_io. lia. Qed.

#[global] Instance partial_nca_io : PsyIOReadWrite (PartialUpdateNearestCommonAncestorProof Hash) := {|
  IS_FIXED_SIZE := false;
  FIXED_SIZE := 0;
  MAX_VEC_LENGTH := U32_MAX;
  pio_serialized_size p := pio_serialized_size (p_child_a p) + pio_serialized_size (p_child_b p) + 1;
  pio_write_to_io p :=
    pio_write_to_io (p_child_a p) +++ pio_write_to_io (p_child_b p) +++ psy_write_u8 (p_nca_level p) +++ wdone;
  pio_read_from_io :=
    let! child_a := pio_read_from_io in
    let! child_b := pio_read_from_io in
    let! nca_level := psy_read_u8 in
    rret (mkPartialNca child_a child_b nca_level);
|}.

Definition partial_nca_wf (p : PartialUpdateNearestCommonAncestorProof Hash) : Prop :=
  delta_proof_wf (p_child_a p) ∧ delta_proof_wf (p_child_b p) ∧ uint_ok 8 (p_nca_level p).

#[global] Instance partial_nca_canonical : Canonical (PartialUpdateNearestCommonAncestorProof Hash) partial_nca_wf.
Proof. split; [|done]. intros p (? & ? & ?). codec partial_nca_io. lia. Qed.

#[global] Instance nca_link_io : PsyIOReadWrite (UpdateNCAWithAdditionalLink Hash) := {|
  IS_FIXED_SIZE := false;
  FIXED_SIZE := 0;
  MAX_VEC_LENGTH := U32_MAX;
  pio_serialized_size p := pio_serialized_size (nca_proof p) + pio_serialized_size (link_proof p);
  pio_write_to_io p := pio_write_to_io (nca_proof p) +++ pio_write_to_io (link_proof p) +++ wdone;
  pio_read_from_io :=
    let! nca_proof := pio_read_from_io in
    let! link_proof := pio_read_from_io in
    rret (mkLink nca_proof link_proof);
|}.

Definition nca_link_wf (p : UpdateNCAWithAdditionalLink Hash) : Prop :=
  nca_wf (nca_proof p) ∧ delta_proof_wf (link_proof p).

#[global] Instance nca_link_canonical : Canonical (UpdateNCAWithAdditionalLink Hash) nca_link_wf.
Proof. split; [|done]. intros p (? & ?). codec nca_link_io. lia. Qed.

(** *** Contract leaves *)
Definition CONTRACT_LEAF_SERIALIZED_SIZE : Z := 128.

#[global] Instance contract_leaf_io : PsyIOReadWrite (PQEDContractLeafV2 F Hash) := {|
  IS_FIXED_SIZE := true;
  FIXED_SIZE := CONTRACT_LEAF_SERIALIZED_SIZE;
  MAX_VEC_LENGTH := U32_MAX;
  pio_serialized_size _ := CONTRACT_LEAF_SERIALIZED_SIZE;
  pio_write_to_io p :=
    write_felt (deployer p) +++ write_hash (function_tree_root p) +++ write_hash (code_root p) +++
    write_felt (state_tree_height p) +++ write_hash (leaf_state_layout_root p) +++
    write_felt (leaf_field_count p) +++ write_felt (leaf_slot_count p) +++ wdone;
  pio_read_from_io :=
    let! deployer := read_felt in
    let! function_tree_root := read_hash in
    let! code_root := read_hash in
    let! state_tree_height := read_felt in
    let! state_layout_root := read_hash in
    let! field_count := read_felt in
    let! slot_count := read_felt in
    rret (mkContractLeaf deployer function_tree_root code_root state_tree_height state_layout_root
            field_count slot_count);
|}.

#[global] Instance contract_leaf_canonical : Canonical (PQEDContractLeafV2 F Hash) any.
Proof. split; [|done]. intros p _. codec contract_leaf_io. done. Qed.

(** *** Aggregation headers *)
Record GUTAStats : Type := mkStats {
  guta_fees_collected : F;
  da_fees_collected : F;
  user_ops_processed : F;
  total_transactions : F;
  slots_modified : F;
}.

#[global] Instance guta_stats_io : PsyIOReadWrite GUTAStats := {|
  IS_FIXED_SIZE := true;
  FIXED_SIZE := 40;
  MAX_VEC_LENGTH := U32_MAX;
  pio_serialized_size _ := 40;
  pio_write_to_io s :=
    write_felt (guta_fees_collected s) +++ write_felt (da_fees_collected s) +++
    write_felt (user_ops_processed s) +++ write_felt (total_transactions s) +++
    write_felt (slots_modified s) +++ wdone;
  pio_read_from_io :=
    let! guta_fees_collected := read_felt in
    let! da_fees_collected := read_felt in
    let! user_ops_processed := read_felt in
    let! total_transactions := read_felt in
    let! slots_modified := read_felt in
    rret (mkStats guta_fees_collected da_fees_collected user_ops_processed total_transactions slots_modified);
|}.

#[global] Instance guta_stats_canonical : Canonical GUTAStats any.
Proof. split; [|done]. intros s _. codec guta_stats_io. done. Qed.

Record SubTreeNodeStateTransition : Type := mkSubTree {
  old_node_value : Hash;
  new_node_value : Hash;
  node_index : F;
  node_level : F;
}.

#[global] Instance sub_tree_io : PsyIOReadWrite SubTreeNodeStateTransition := {|
  IS_FIXED_SIZE := true;
  FIXED_SIZE := 32 + 32 + 8 + 8;
  MAX_VEC_LENGTH := U32_MAX;
  pio_serialized_size _ := 32 + 32 + 8 + 8;
  pio_write_to_io t :=
    write_hash (old_node_value t) +++ write_hash (new_node_value t) +++
    write_felt (node_index t) +++ write_felt (node_level t) +++ wdone;
  pio_read_from_io :=
    let! old_node_value := read_hash in
    let! new_node_value := read_hash in
    let! node_index := read_felt in
    let! node_level := read_felt in
    rret (mkSubTree old_node_value new_node_value node_index node_level);
|}.

#[global] Instance sub_tree_canonical : Canonical SubTreeNodeStateTransition any.
Proof. split; [|done]. intros t _. codec sub_tree_io. done. Qed.

Record GlobalUserTreeAggregatorHeader : Type := mkHeader {
  guta_circuit_whitelist : Hash;
  checkpoint_tree_root : Hash;
  state_transition : SubTreeNodeStateTransition;
  stats : GUTAStats;
  total_aggregation_proofs_generated : F;
}.

#[global] Instance guta_header_io : PsyIOReadWrite GlobalUserTreeAggregatorHeader := {|
  IS_FIXED_SIZE := true;
  FIXED_SIZE := 32 * 2 + FIXED_SIZE SubTreeNodeStateTransition + FIXED_SIZE GUTAStats + 8;
  MAX_VEC_LENGTH := U32_MAX;
  pio_serialized_size _ := 32 * 2 + FIXED_SIZE SubTreeNodeStateTransition + FIXED_SIZE GUTAStats + 8;
  pio_write_to_io h :=
    write_hash (guta_circuit_whitelist h) +++ write_hash (checkpoint_tree_root h) +++
    pio_write_to_io (state_transition h) +++ pio_write_to_io (stats h) +++
    write_felt (total_aggregation_proofs_generated h) +++ wdone;
  pio_read_from_io :=
    let! guta_circuit_whitelist := read_hash in
    let! checkpoint_tree_root := read_hash in
    let! state_transition := pio_read_from_io in
    let! stats := pio_read_from_io in
    let! total := read_felt in
    rret (mkHeader guta_circuit_whitelist checkpoint_tree_root state_transition stats total);
|}.

#[global] Instance guta_header_canonical : Canonical GlobalUserTreeAggregatorHeader any.
Proof. split; [|done]. intros h _. codec guta_header_io. reflexivity. Qed.

(** *** Fixed-size leaves *)
Definition slice (from to : nat) (data : list Z) : list Z := take (to - from) (drop from data).

Lemma slice_head n x y : length x = n → slice 0 n (x ++ y) = x.
Proof. intros <-. unfold slice. rewrite drop_0, Nat.sub_0_r. apply take_app_length. Qed.

Lemma slice_tail n from to x y :
  length x = n → (n ≤ from)%nat → slice from to (x ++ y) = slice (from - n) (to - n) y.
Proof.
  intros <- Hl. unfold slice. rewrite drop_app_ge by done. f_equal. lia.
Qed.

Lemma slice_all n x : length x = n → slice 0 n x = x.
Proof. intros Hl. rewrite <- (app_nil_r x) at 1. by apply slice_head. Qed.

Definition felt_bytes (f : F) : list Z := to_le_bytes 8 (felt_to_u64 f).
Definition felt_of_bytes (b : list Z) : F := felt_from_u64 (from_le_bytes b).

Lemma felt_bytes_array f : array_ok 8 (felt_bytes f).
Proof. split; [by unfold felt_bytes; rewrite length_to_le_bytes|apply bytes_to_le_bytes]. Qed.

Lemma felt_bytes_back f : felt_of_bytes (felt_bytes f) = f.
Proof.
  unfold felt_of_bytes, felt_bytes. rewrite from_to_le_bytes; [apply felt_of_u64|].
  pose proof (felt_u64_range f) as Hr. unfold uint_ok in Hr. lia.
Qed.

Lemma length_hash (h : Hash) : length (into_owned_32bytes h) = 32%nat.
Proof. destruct (hash_array h). lia. Qed.

Lemma length_felt f : length (felt_bytes f) = 8%nat.
Proof. apply length_to_le_bytes. Qed.

Lemma array_app m n x y : array_ok m x → array_ok n y → array_ok (m + n) (x ++ y).
Proof. intros [? ?] [? ?]. split; [rewrite length_app; lia|by apply Forall_app]. Qed.

(** Cut an encoding of hashes and felts back into its fields. *)
Ltac cut_fields :=
  repeat match goal with
  | |- context [slice 0 ?n (?x ++ ?y)] => rewrite (slice_head n x y) by (apply length_hash || apply length_felt)
  | |- context [slice ?n ?m (?x ++ ?y)] =>
      first [rewrite (slice_tail 32 n m x y) by (apply length_hash || lia)
            |rewrite (slice_tail 8 n m x y) by (apply length_felt || lia)];
      cbn [Nat.sub]
  | |- context [slice 0 ?n ?x] => rewrite (slice_all n x) by (apply length_hash || apply length_felt)
  end;
  rewrite ?hash_of_bytes, ?felt_bytes_back.
Ltac join_fields := repeat apply array_app; apply hash_array || apply felt_bytes_array.

Record PQEDUserLeaf : Type := mkUserLeaf {
  public_key : Hash;
  user_state_tree_root : Hash;
  balance : F;
  nonce : F;
  last_checkpoint_id : F;
  event_index : F;
  leaf_user_id : F;
}.

#[global] Instance user_leaf_ffs : FastFixedSerializable PQEDUserLeaf := {|
  FFS_SIZE := 104;
  ffs_max_vec_length := U32_MAX;
  ffs_to_bytes l :=
    into_owned_32bytes (public_key l) ++ into_owned_32bytes (user_state_tree_root l) ++
    felt_bytes (balance l) ++ felt_bytes (nonce l) ++ felt_bytes (last_checkpoint_id l) ++
    felt_bytes (event_index l) ++ felt_bytes (leaf_user_id l);
  ffs_from_owned_bytes data :=
    mkUserLeaf (from_owned_32bytes (slice 0 32 data)) (from_owned_32bytes (slice 32 64 data))
      (felt_of_bytes (slice 64 72 data)) (felt_of_bytes (slice 72 80 data)) (felt_of_bytes (slice 80 88 data))
      (felt_of_bytes (slice 88 96 data)) (felt_of_bytes (slice 96 104 data));
|}.

#[global] Instance user_leaf_fixed : FixedLaws PQEDUserLeaf any.
Proof.
  split; [done|..]; intros l _; cbn [ffs_to_bytes ffs_from_owned_bytes FFS_SIZE user_leaf_ffs].
  - change 104 with (32 + (32 + (8 + (8 + (8 + (8 + 8)))))). join_fields.
  - cut_fields. by destruct l.
Qed.

#[global] Instance user_leaf_io : PsyIOReadWrite PQEDUserLeaf := fixed_io.
#[global] Instance user_leaf_canonical : Canonical PQEDUserLeaf any := fixed_canonical.

Record PUPSEndCapResultCompact : Type := mkEndCapResult {
  start_user_leaf_hash : Hash;
  end_user_leaf_hash : Hash;
  checkpoint_tree_root_hash : Hash;
  result_user_id : F;
}.

#[global] Instance end_cap_result_ffs : FastFixedSerializable PUPSEndCapResultCompact := {|
  FFS_SIZE := 104;
  ffs_max_vec_length := U32_MAX;
  ffs_to_bytes r :=
    into_owned_32bytes (start_user_leaf_hash r) ++ into_owned_32bytes (end_user_leaf_hash r) ++
    into_owned_32bytes (checkpoint_tree_root_hash r) ++ felt_bytes (result_user_id r);
  ffs_from_owned_bytes data :=
    mkEndCapResult (from_owned_32bytes (slice 0 32 data)) (from_owned_32bytes (slice 32 64 data))
      (from_owned_32bytes (slice 64 96 data)) (felt_of_bytes (slice 96 104 data));
|}.

#[global] Instance end_cap_result_fixed : FixedLaws PUPSEndCapResultCompact any.
Proof.
  split; [done|..]; intros l _; cbn [ffs_to_bytes ffs_from_owned_bytes FFS_SIZE end_cap_result_ffs].
  - change 104 with (32 + (32 + (32 + 8))). join_fields.
  - cut_fields. by destruct l.
Qed.

#[global] Instance end_cap_result_io : PsyIOReadWrite PUPSEndCapResultCompact := fixed_io.
#[global] Instance end_cap_result_canonical : Canonical PUPSEndCapResultCompact any := fixed_canonical.

Record IMTContractStateLeaf : Type := mkImtLeaf {
  imt_key : Hash;
  imt_value : Hash;
  imt_next_key : Hash;
  imt_next_index : F;
}.

#[global] Instance imt_leaf_ffs : FastFixedSerializable IMTContractStateLeaf := {|
  FFS_SIZE := 104;
  ffs_max_vec_length := U32_MAX;
  ffs_to_bytes l :=
    into_owned_32bytes (imt_key l) ++ into_owned_32bytes (imt_value l) ++
    into_owned_32bytes (imt_next_key l) ++ felt_bytes (imt_next_index l);
  ffs_from_owned_bytes data :=
    mkImtLeaf (from_owned_32bytes (slice 0 32 data)) (from_owned_32bytes (slice 32 64 data))
      (from_owned_32bytes (slice 64 96 data)) (felt_of_bytes (slice 96 104 data));
|}.

#[global] Instance imt_leaf_fixed : FixedLaws IMTContractStateLeaf any.
Proof.
  split; [done|..]; intros l _; cbn [ffs_to_bytes ffs_from_owned_bytes FFS_SIZE imt_leaf_ffs].
  - change 104 with (32 + (32 + (32 + 8))). join_fields.
  - cut_fields. by destruct l.
Qed.

#[global] Instance imt_leaf_io : PsyIOReadWrite IMTContractStateLeaf := fixed_io.
#[global] Instance imt_leaf_canonical : Canonical IMTContractStateLeaf any := fixed_canonical.

(** *** Contract state updates *)
Inductive IMTContractStateUpdate : Type :=
  | Update (old_preimage new_preimage : IMTContractStateLeaf) (delta_proof : DeltaMerkleProofCore Hash)
  | Insert (predecessor_old_preimage predecessor_new_preimage new_leaf_preimage : IMTContractStateLeaf)
      (predecessor_delta_proof new_leaf_delta_proof : DeltaMerkleProofCore Hash).

(** The announced size leaves out the discriminant. *)
#[global] Instance imt_update_io : PsyIOReadWrite IMTContractStateUpdate := {|
  IS_FIXED_SIZE := false;
  FIXED_SIZE := 0;
  MAX_VEC_LENGTH := U32_MAX;
  pio_serialized_size u :=
    match u with
    | Update old_preimage new_preimage delta_proof =>
        pio_serialized_size old_preimage + pio_serialized_size new_preimage + pio_serialized_size delta_proof
    | Insert pred_old pred_new new_leaf pred_delta new_delta =>
        pio_serialized_size pred_old + pio_serialized_size pred_new + pio_serialized_size new_leaf +
        pio_serialized_size pred_delta + pio_serialized_size new_delta
    end;
  pio_write_to_io u :=
    match u with
    | Update old_preimage new_preimage delta_proof =>
        psy_write_u8 0 +++ pio_write_to_io old_preimage +++ pio_write_to_io new_preimage +++
        pio_write_to_io delta_proof +++ wdone
    | Insert pred_old pred_new new_leaf pred_delta new_delta =>
        psy_write_u8 1 +++ pio_write_to_io pred_old +++ pio_write_to_io pred_new +++
        pio_write_to_io new_leaf +++ pio_write_to_io pred_delta +++ pio_write_to_io new_delta +++ wdone
    end;
  pio_read_from_io :=
    let! discriminant := psy_read_u8 in
    if discriminant =? 0 then
      let! old_preimage := pio_read_from_io in
      let! new_preimage := pio_read_from_io in
      let! delta_proof := pio_read_from_io in
      rret (Update old_preimage new_preimage delta_proof)
    else if discriminant =? 1 then
      let! pred_old := pio_read_from_io in
      let! pred_new := pio_read_from_io in
      let! new_leaf := pio_read_from_io in
      let! pred_delta := pio_read_from_io in
      let! new_delta := pio_read_from_io in
      rret (Insert pred_old pred_new new_leaf pred_delta new_delta)
    else rfail "Invalid discriminant for IMTContractStateUpdate";
|}.

Definition imt_update_wf (u : IMTContractStateUpdate) : Prop :=
  match u with
  | Update _ _ delta_proof => delta_proof_wf delta_proof
  | Insert _ _ _ pred_delta new_delta => delta_proof_wf pred_delta ∧ delta_proof_wf new_delta
  end.

Lemma imt_update_codes u :
  imt_update_wf u → codes (pio_write_to_io u) (1 + pio_serialized_size u) pio_read_from_io u.
Proof.
  assert (uint_ok 8 0 ∧ uint_ok 8 1) as [? ?] by (by split).
  destruct u as [o n d|o n l d1 d2]; intros Hu; [|destruct Hu as [? ?]];
    cbn [pio_write_to_io pio_read_from_io pio_serialized_size imt_update_io]; eapply codes_size.
  - eapply codes_bind; [by apply codes_u8|]. cbn [Z.eqb]. repeat codec_step.
  - cbn -[pio_serialized_size]. lia.
  - eapply codes_bind; [by apply codes_u8|]. cbn [Z.eqb Pos.eqb]. repeat codec_step.
  - cbn -[pio_serialized_size]. lia.
Qed.

Inductive ContractStateUpdate : Type :=
  | Positional (delta_proof : DeltaMerkleProofCore Hash)
  | IMT (update : IMTContractStateUpdate).

#[global] Instance state_update_io : PsyIOReadWrite ContractStateUpdate := {|
  IS_FIXED_SIZE := false;
  FIXED_SIZE := 0;
  MAX_VEC_LENGTH := U32_MAX;
  pio_serialized_size u :=
    match u with
    | Positional delta_proof => 1 + pio_serialized_size delta_proof
    | IMT update => 1 + pio_serialized_size update
    end;
  pio_write_to_io u :=
    match u with
    | Positional delta_proof => psy_write_u8 0 +++ pio_write_to_io delta_proof +++ wdone
    | IMT update => psy_write_u8 1 +++ pio_write_to_io update +++ wdone
    end;
  pio_read_from_io :=
    let! variant := psy_read_u8 in
    if variant =? 0 then let! delta_proof := pio_read_from_io in rret (Positional delta_proof)
    else if variant =? 1 then let! update := pio_read_from_io in rret (IMT update)
    else rfail "invalid ContractStateUpdate variant";
|}.

Definition state_update_wf (u : ContractStateUpdate) : Prop :=
  match u with Positional delta_proof => delta_proof_wf delta_proof | IMT update => imt_update_wf update end.

(** The bytes a size leaves out: one for each indexed-tree update. *)
Definition unsized (u : ContractStateUpdate) : Z := match u with Positional _ => 0 | IMT _ => 1 end.

Lemma state_update_codes u :
  state_update_wf u →
  codes (pio_write_to_io u) (pio_serialized_size u + unsized u) pio_read_from_io u.
Proof.
  assert (uint_ok 8 0 ∧ uint_ok 8 1) as [? ?] by (by split).
  destruct u as [d|u]; intros Hu; cbn [pio_write_to_io pio_read_from_io pio_serialized_size state_update_io unsized];
    eapply codes_size.
  - eapply codes_bind; [by apply codes_u8|]. cbn [Z.eqb]. repeat codec_step.
  - lia.
  - eapply codes_bind; [by apply codes_u8|]. cbn [Z.eqb Pos.eqb].
    eapply codes_bind; [by apply imt_update_codes|]. codec_step.
  - lia.
Qed.

Record ContractStateUpdateHistory : Type := mkHistory {
  user_contract_tree_update_proof : DeltaMerkleProofCore Hash;
  updates : list ContractStateUpdate;
}.

#[global] Instance history_io : PsyIOReadWrite ContractStateUpdateHistory := {|
  IS_FIXED_SIZE := false;
  FIXED_SIZE := 0;
  MAX_VEC_LENGTH := U32_MAX;
  pio_serialized_size h :=
    pio_serialized_size (user_contract_tree_update_proof h) + 4 + sizes pio_serialized_size (updates h);
  pio_write_to_io h :=
    pio_write_to_io (user_contract_tree_update_proof h) +++
    psy_write_vec_length (Z.of_nat (length (updates h))) +++ write_each pio_write_to_io (updates h) +++ wdone;
  pio_read_from_io :=
    let! proof := pio_read_from_io in
    let! updates_len := psy_read_vec_length in
    let! updates := read_list (Z.to_nat updates_len) pio_read_from_io in
    rret (mkHistory proof updates);
|}.

Definition history_wf (h : ContractStateUpdateHistory) : Prop :=
  delta_proof_wf (user_contract_tree_update_proof h) ∧ u32_vec (updates h) ∧ Forall state_update_wf (updates h).

Lemma sizes_add {A} (f g : A → Z) l : sizes (λ a, f a + g a) l = sizes f l + sizes g l.
Proof. induction l as [|a l IH]; [done|]. cbn [sizes foldr] in *. unfold sizes in IH. lia. Qed.

Lemma history_codes h :
  history_wf h →
  codes (pio_write_to_io h) (pio_serialized_size h + sizes unsized (updates h)) pio_read_from_io h.
Proof.
  intros (? & ? & Hu). cbn [pio_write_to_io pio_read_from_io pio_serialized_size history_io]. eapply codes_size.
  - do 2 codec_step. eapply codes_bind.
    + apply (codes_each _ (λ u, pio_serialized_size u + unsized u)). eapply Forall_impl; [exact Hu|].
      apply state_update_codes.
    + codec_step.
  - rewrite sizes_add. lia.
Qed.

(** *** End-cap submissions *)
Record PsyUserEventRecord : Type := mkEvent {
  ev_checkpoint_id : F;
  ev_user_id : F;
  ev_contract_id : F;
  ev_method_id : F;
  ev_event_index : F;
  ev_data : list F;
}.

#[global] Instance event_io : PsyIOReadWrite PsyUserEventRecord := {|
  IS_FIXED_SIZE := false;
  FIXED_SIZE := 0;
  MAX_VEC_LENGTH := U32_MAX;
  pio_serialized_size e := 5 * 8 + 4 + Z.of_nat (length (ev_data e)) * 8;
  pio_write_to_io e :=
    write_felt (ev_checkpoint_id e) +++ write_felt (ev_user_id e) +++ write_felt (ev_contract_id e) +++
    write_felt (ev_method_id e) +++ write_felt (ev_event_index e) +++
    psy_write_vec_length (Z.of_nat (length (ev_data e))) +++ write_each write_felt (ev_data e) +++ wdone;
  pio_read_from_io :=
    let! checkpoint_id := read_felt in
    let! user_id := read_felt in
    let! contract_id := read_felt in
    let! method_id := read_felt in
    let! event_index := read_felt in
    let! data_len := psy_read_vec_length in
    let! data := read_list (Z.to_nat data_len) read_felt in
    rret (mkEvent checkpoint_id user_id contract_id method_id event_index data);
|}.

Definition event_wf (e : PsyUserEventRecord) : Prop := u32_vec (ev_data e).

#[global] Instance event_canonical : Canonical PsyUserEventRecord event_wf.
Proof. split; [|done]. intros e Hd. unfold event_wf in Hd. codec event_io. lia. Qed.

Record SubmitUserEndCapNonProofCoreInput : Type := mkCoreInput {
  checkpoint_id : F;
  core_stats : GUTAStats;
  core_state_transition : PUPSEndCapResultCompact;
  new_user_leaf : PQEDUserLeaf;
}.

#[global] Instance core_input_io : PsyIOReadWrite SubmitUserEndCapNonProofCoreInput := {|
  IS_FIXED_SIZE := true;
  FIXED_SIZE := 8 + FIXED_SIZE GUTAStats + FIXED_SIZE PUPSEndCapResultCompact + FIXED_SIZE PQEDUserLeaf;
  MAX_VEC_LENGTH := U32_MAX;
  pio_serialized_size _ :=
    8 + FIXED_SIZE GUTAStats + FIXED_SIZE PUPSEndCapResultCompact + FIXED_SIZE PQEDUserLeaf;
  pio_write_to_io i :=
    write_felt (checkpoint_id i) +++ pio_write_to_io (core_stats i) +++
    pio_write_to_io (core_state_transition i) +++ pio_write_to_io (new_user_leaf i) +++ wdone;
  pio_read_from_io :=
    let! checkpoint_id := read_felt in
    let! stats := pio_read_from_io in
    let! state_transition := pio_read_from_io in
    let! new_user_leaf := pio_read_from_io in
    rret (mkCoreInput checkpoint_id stats state_transition new_user_leaf);
|}.

#[global] Instance core_input_canonical : Canonical SubmitUserEndCapNonProofCoreInput any.
Proof. split; [|done]. intros i _. codec core_input_io. reflexivity. Qed.

Record SubmitUserEndCapNonProofInput : Type := mkSubmitInput {
  core : SubmitUserEndCapNonProofCoreInput;
  contract_state_updates : list ContractStateUpdateHistory;
  events : list PsyUserEventRecord;
}.

#[global] Instance submit_input_io : PsyIOReadWrite SubmitUserEndCapNonProofInput := {|
  IS_FIXED_SIZE := false;
  FIXED_SIZE := 0;
  MAX_VEC_LENGTH := U32_MAX;
  pio_serialized_size i :=
    pio_serialized_size (core i) + 4 + sizes pio_serialized_size (contract_state_updates i) + 4 +
    sizes pio_serialized_size (events i);
  pio_write_to_io i :=
    pio_write_to_io (core i) +++
    psy_write_vec_length (Z.of_nat (length (contract_state_updates i))) +++
    write_each pio_write_to_io (contract_state_updates i) +++
    psy_write_vec_length (Z.of_nat (length (events i))) +++ write_each pio_write_to_io (events i) +++ wdone;
  pio_read_from_io :=
    let! core := pio_read_from_io in
    let! updates_len := psy_read_vec_length in
    let! contract_state_updates := read_list (Z.to_nat updates_len) pio_read_from_io in
    let! events_len := psy_read_vec_length in
    let! events := read_list (Z.to_nat events_len) pio_read_from_io in
    rret (mkSubmitInput core contract_state_updates events);
|}.

Definition submit_input_wf (i : SubmitUserEndCapNonProofInput) : Prop :=
  u32_vec (contract_state_updates i) ∧ Forall history_wf (contract_state_updates i) ∧
  u32_vec (events i) ∧ Forall event_wf (events i).

(** *** Prepared blocks and validator leaves *)
Record PsyPreparedRealmBlockStateUpdates : Type := mkStateUpdates {
  su_realm_id : Z;
  su_realm_sub_id : Z;
  su_unique_pending_id : Z;
  proc_checkpoint_unique_id : Z;
  old_realm_root : Hash;
  new_realm_root : Hash;
  update_global_user_tree_nodes_ffs : list Z;
  update_user_contract_tree_nodes_ffs : list Z;
  update_contract_state_tree_nodes_ffs : list Z;
  update_user_leaves_ffs : list Z;
  update_contract_state_imt_leaves_ffs : list Z;
}.

#[global] Instance state_updates_io : PsyIOReadWrite PsyPreparedRealmBlockStateUpdates := {|
  IS_FIXED_SIZE := false;
  FIXED_SIZE := 0;
  MAX_VEC_LENGTH := U32_MAX;
  pio_serialized_size u :=
    8 + 8 + 8 + 16 + 32 + 32 +
    (4 + Z.of_nat (length (update_global_user_tree_nodes_ffs u))) +
    (4 + Z.of_nat (length (update_user_contract_tree_nodes_ffs u))) +
    (4 + Z.of_nat (length (update_contract_state_tree_nodes_ffs u))) +
    (4 + Z.of_nat (length (update_user_leaves_ffs u))) +
    (4 + Z.of_nat (length (update_contract_state_imt_leaves_ffs u)));
  pio_write_to_io u :=
    psy_write_u64 (su_realm_id u) +++ psy_write_u64 (su_realm_sub_id u) +++
    psy_write_u64 (su_unique_pending_id u) +++ psy_write_u128 (proc_checkpoint_unique_id u) +++
    write_hash (old_realm_root u) +++ write_hash (new_realm_root u) +++
    psy_write_bytes_vec (update_global_user_tree_nodes_ffs u) +++
    psy_write_bytes_vec (update_user_contract_tree_nodes_ffs u) +++
    psy_write_bytes_vec (update_contract_state_tree_nodes_ffs u) +++
    psy_write_bytes_vec (update_user_leaves_ffs u) +++
    psy_write_bytes_vec (update_contract_state_imt_leaves_ffs u) +++ wdone;
  pio_read_from_io :=
    let! realm_id := psy_read_u64 in
    let! realm_sub_id := psy_read_u64 in
    let! unique_pending_id := psy_read_u64 in
    let! proc_checkpoint_unique_id := psy_read_u128 in
    let! old_realm_root := read_hash in
    let! new_realm_root := read_hash in
    let! a := psy_read_bytes_vec in
    let! b := psy_read_bytes_vec in
    let! c := psy_read_bytes_vec in
    let! d := psy_read_bytes_vec in
    let! e := psy_read_bytes_vec in
    rret (mkStateUpdates realm_id realm_sub_id unique_pending_id proc_checkpoint_unique_id
            old_realm_root new_realm_root a b c d e);
|}.

Definition state_updates_wf (u : PsyPreparedRealmBlockStateUpdates) : Prop :=
  uint_ok 64 (su_realm_id u) ∧ uint_ok 64 (su_realm_sub_id u) ∧ uint_ok 64 (su_unique_pending_id u) ∧
  uint_ok 128 (proc_checkpoint_unique_id u) ∧ vec_ok U32_MAX (update_global_user_tree_nodes_ffs u) ∧
  vec_ok U32_MAX (update_user_contract_tree_nodes_ffs u) ∧
  vec_ok U32_MAX (update_contract_state_tree_nodes_ffs u) ∧
  vec_ok U32_MAX (update_user_leaves_ffs u) ∧ vec_ok U32_MAX (update_contract_state_imt_leaves_ffs u).

#[global] Instance state_updates_canonical : Canonical PsyPreparedRealmBlockStateUpdates state_updates_wf.
Proof. split; [|done]. intros u (? & ? & ? & ? & ? & ? & ? & ? & ?). codec state_updates_io. lia. Qed.

(** *** Validator leaf preimages *)
Record ValidatorLeafPreimage : Type := mkPreimage {
  vp_chain_id : Z;
  vp_realm_id : Z;
  vp_realm_sub_id : Z;
  vp_validator_user_id : Z;
  vp_node_id : list Z;
  vp_bls_public_key : list Z;
}.

#[global] Instance preimage_io : PsyIOReadWrite ValidatorLeafPreimage := {|
  IS_FIXED_SIZE := true;
  FIXED_SIZE := 108;
  MAX_VEC_LENGTH := U32_MAX;
  pio_serialized_size _ := 108;
  pio_write_to_io p :=
    psy_write_u64 (vp_chain_id p) +++ psy_write_u32 (vp_realm_id p) +++ psy_write_u16 (vp_realm_sub_id p) +++
    psy_write_u64 (vp_validator_user_id p) +++ psy_write_bytes (vp_node_id p) +++
    psy_write_bytes (vp_bls_public_key p) +++ wdone;
  pio_read_from_io :=
    let! chain_id := psy_read_u64 in
    let! realm_id := psy_read_u32 in
    let! realm_sub_id := psy_read_u16 in
    let! validator_user_id := psy_read_u64 in
    let! node_id := psy_read_bytes_fixed 38 in
    let! bls_public_key := psy_read_bytes_fixed 48 in
    rret (mkPreimage chain_id realm_id realm_sub_id validator_user_id node_id bls_public_key);
|}.

Definition preimage_wf (p : ValidatorLeafPreimage) : Prop :=
  uint_ok 64 (vp_chain_id p) ∧ uint_ok 32 (vp_realm_id p) ∧ uint_ok 16 (vp_realm_sub_id p) ∧
  uint_ok 64 (vp_validator_user_id p) ∧ array_ok 38 (vp_node_id p) ∧ array_ok 48 (vp_bls_public_key p).

#[global] Instance preimage_canonical : Canonical ValidatorLeafPreimage preimage_wf.
Proof. split; [|done]. intros p (? & ? & ? & ? & ? & ?). codec preimage_io. lia. Qed.

Lemma submit_input_codes i :
  submit_input_wf i →
  codes (pio_write_to_io i)
    (pio_serialized_size i + sizes (λ h, sizes unsized (updates h)) (contract_state_updates i))
    pio_read_from_io i.
Proof.
  intros (? & Hu & ? & ?). cbn [pio_write_to_io pio_read_from_io pio_serialized_size submit_input_io].
  eapply codes_size.
  - do 2 codec_step. eapply codes_bind.
    + apply (codes_each _ (λ h, pio_serialized_size h + sizes unsized (updates h))).
      eapply Forall_impl; [exact Hu|]. apply history_codes.
    + repeat codec_step.
  - rewrite sizes_add. lia.
Qed.

(** ** Every format fits *)


(** The submission of an end cap reads back as it was written, whatever follows it. Its
    announced size is short by one byte for each indexed-tree update in it. *)
Theorem end_cap_input_roundtrip i junk :
  submit_input_wf i →
  ∃ bs, psy_ser_to_bytes_vec i = Ok bs ∧
        Z.of_nat (length bs) =
          pio_serialized_size i + sizes (λ h, sizes unsized (updates h)) (contract_state_updates i) ∧
        psy_ser_from_slice (bs ++ junk) = Ok i.
Proof.
  intros Hi. destruct (submit_input_codes i Hi) as (bs & Hw & Hl & _ & Hr). exists bs. split_and!; [done..|].
  unfold psy_ser_from_slice, from_cursor. by rewrite Hr.
Qed.
End codecs.

Arguments GUTAStats : clear implicits.
Arguments SubTreeNodeStateTransition : clear implicits.
Arguments GlobalUserTreeAggregatorHeader : clear implicits.
Arguments PQEDUserLeaf : clear implicits.
Arguments PUPSEndCapResultCompact : clear implicits.
Arguments IMTContractStateLeaf : clear implicits.
Arguments IMTContractStateUpdate : clear implicits.
Arguments ContractStateUpdate : clear implicits.
Arguments ContractStateUpdateHistory : clear implicits.
Arguments PsyUserEventRecord : clear implicits.
Arguments SubmitUserEndCapNonProofCoreInput : clear implicits.
Arguments SubmitUserEndCapNonProofInput : clear implicits.
Arguments PsyPreparedRealmBlockStateUpdates : clear implicits.

(** ** Concrete hashes and felts, for evaluation *)
#[global] Instance bool_hash : Q256BitHash bool := {|
  from_owned_32bytes b := match b with 1 :: _ => true | _ => false end;
  into_owned_32bytes h := (if h : bool then 1 else 0) :: replicate 31 0;
|}.
#[global] Instance bool_hash32 : Hash32 bool.
Proof.
  split; intros h; [|by destruct h]. split; [done|]. cbn. repeat constructor; unfold is_byte; destruct h; lia.
Qed.

#[global] Instance bool_felt : QFelt64 bool := {|
  felt_to_u64 f := if f : bool then 1 else 0;
  felt_from_u64 x := x =? 1;
|}.
#[global] Instance bool_felt_u64 : FeltU64 bool.
Proof. by split; intros []. Qed.

Definition example_delta : DeltaMerkleProofCore bool := mkDelta true false false true 5 [true; false; true].
Definition example_imt_leaf : IMTContractStateLeaf bool bool := mkImtLeaf true false true true.
Definition example_submission : SubmitUserEndCapNonProofInput bool bool :=
  mkSubmitInput
    (mkCoreInput true (mkStats true false true false true) (mkEndCapResult true true false true)
       (mkUserLeaf true false true true false false true))
    [mkHistory example_delta
       [Positional example_delta; IMT (Update example_imt_leaf example_imt_leaf example_delta);
        IMT (Insert example_imt_leaf example_imt_leaf example_imt_leaf example_delta example_delta)]]
    [mkEvent true false true true false [true; true]].

Lemma end_cap_input_roundtrip_witness :
  ∃ bs, psy_ser_to_bytes_vec example_submission = Ok bs ∧
        Z.of_nat (length bs) = pio_serialized_size example_submission + 2 ∧
        psy_ser_from_slice (bs ++ [7; 7; 7]) = Ok example_submission.
Proof.
  apply (end_cap_input_roundtrip example_submission [7; 7; 7]).
  unfold submit_input_wf, history_wf, delta_proof_wf, event_wf, u32_vec, uint_ok, U32_MAX. cbn.
  repeat (constructor || lia || unfold delta_proof_wf, uint_ok, u32_vec, U32_MAX; cbn).
Defined.


Definition example_leaf : PQEDUserLeaf bool bool := mkUserLeaf true false true true false false true.
Definition example_preimages : list ValidatorLeafPreimage :=
  [mkPreimage 7 3 1 4096 (replicate 38 9) (replicate 48 1); mkPreimage 7 3 2 4097 (replicate 38 8) (replicate 48 2)].

Lemma serialize_vec_roundtrip_witness :
  ∃ bs, psy_ser_serialize_vec_of_self_ref example_preimages false = Ok bs ∧ Z.of_nat (length bs) = 216 ∧
        psy_ser_deserialize_vec_of_self bs false = Ok example_preimages.
Proof.
  change 216 with (pio_serialized_size_vec example_preimages (false || negb (IS_FIXED_SIZE ValidatorLeafPreimage))).
  apply (serialize_vec_roundtrip (wf := preimage_wf) example_preimages false); [|done|done].
  repeat constructor; cbn; unfold is_byte; lia.
Defined.

Lemma fixed_bulk_equivalent_witness :
  agrees (fx_tpl_pio_read_from_io_many (A := PQEDUserLeaf bool bool) (Some 2) [1; 2; 3])
    (pio_read_from_io_many (Some 2) [1; 2; 3]).
Proof.
  apply (fixed_bulk_equivalent (wf := any) (Some 2) [example_leaf] true [1; 2; 3]); [done..|].
  repeat constructor; unfold is_byte; lia.
Defined.

Lemma fixed_vec_roundtrip_witness :
  fx_tpl_psy_ser_deserialize_vec_of_self
    (fx_tpl_psy_ser_serialize_vec_of_self_ref [example_leaf; example_leaf] true) true
  = Ok [example_leaf; example_leaf].
Proof. apply (fixed_vec_roundtrip (wf := any) [example_leaf; example_leaf] true); [repeat constructor|done..]. Defined.
