(* ===== verification/RealmFinalize.v ===== *)
(** * The public output of a Realm finalizer

    [psy_data/src/guta/realm_finalize.rs] with the field hashes of
    [guta/header.rs], [stats.rs] and [sub_tree_transition.rs]: the action and the
    public output of the finalizer circuit, the strict 410-byte encoding of the
    output, and the reward root and public input the circuit commits to. The field
    and the hash function are parameters. Equal public inputs of different outputs
    exhibit a collision of the hash, found by comparing the two computations. *)
From stdpp Require Import prelude list strings.
From Stdlib Require Import ZArith Lia.
From S2P Require Import Prelude Wire MerkleHash FieldHash Serialize Codecs.

(** Canonical felts and hashes on the wire: 64-bit limbs below the field order. *)
Class WireField (F Hash : Type) `{FieldHash F Hash} `{Q256BitHash Hash} : Prop := {
  wire_felt_range : ∀ f : F, 0 ≤ to_u64_value (Hash := Hash) f < GOLDILOCKS_ORDER;
  wire_felt_of_value : ∀ f : F, from_u64_value (Hash := Hash) (to_u64_value (Hash := Hash) f) = f;
  wire_value_of_felt : ∀ x, 0 ≤ x < GOLDILOCKS_ORDER → to_u64_value (from_u64_value (F := F) (Hash := Hash) x) = x;
  wire_hash_array : ∀ h : Hash, array_ok 32 (into_owned_32bytes h);
  wire_hash_canonical : ∀ h : Hash, validate_hash32_canonical (into_owned_32bytes h) = true;
  wire_hash_of_bytes : ∀ h : Hash, from_owned_32bytes (into_owned_32bytes h) = h;
  wire_bytes_of_hash : ∀ b, array_ok 32 b → validate_hash32_canonical b = true →
                       into_owned_32bytes (from_owned_32bytes (Hash := Hash) b) = b;
}.

Record RealmFinalizeGUTAAction (F Hash : Type) : Type := mkAction {
  act_chain_domain : Hash;
  act_checkpoint_id : F;
  act_realm_id : F;
  act_checkpoint_tree_root : Hash;
  act_validator_tree_root : Hash;
  act_root_guta_header_hash : Hash;
}.
Arguments mkAction {F Hash}.
Arguments act_chain_domain {F Hash}.
Arguments act_checkpoint_id {F Hash}.
Arguments act_realm_id {F Hash}.
Arguments act_checkpoint_tree_root {F Hash}.
Arguments act_validator_tree_root {F Hash}.
Arguments act_root_guta_header_hash {F Hash}.

Record RealmFinalizeGUTAPublicOutput (F Hash : Type) : Type := mkOutput {
  chain_domain : Hash;
  out_checkpoint_id : F;
  out_realm_id : F;
  out_realm_sub_id : Z;
  out_checkpoint_tree_root : Hash;
  out_validator_tree_root : Hash;
  out_validator_user_id : F;
  root_guta_header_hash : Hash;
  root_guta_reward_tag : Hash;
  action_hash : Hash;
  final_guta_header : GlobalUserTreeAggregatorHeader F Hash;
}.
Arguments mkOutput {F Hash}.
Arguments chain_domain {F Hash}.
Arguments out_checkpoint_id {F Hash}.
Arguments out_realm_id {F Hash}.
Arguments out_realm_sub_id {F Hash}.
Arguments out_checkpoint_tree_root {F Hash}.
Arguments out_validator_tree_root {F Hash}.
Arguments out_validator_user_id {F Hash}.
Arguments root_guta_header_hash {F Hash}.
Arguments root_guta_reward_tag {F Hash}.
Arguments action_hash {F Hash}.
Arguments final_guta_header {F Hash}.

Section finalize.
Context {F Hash : Type} `{FieldHash F Hash} `{MerkleHasher Hash} `{Q256BitHash Hash}.
Implicit Types (o : RealmFinalizeGUTAPublicOutput F Hash) (h : Hash) (tag : Hash).

(** ** Field hashes *)
Definition hash_felts h : list F := let '(f0, f1, f2, f3) := to_4_felts h in [f0; f1; f2; f3].

Definition stats_qfhash (s : GUTAStats F) : Hash :=
  q_hash_many [guta_fees_collected s; da_fees_collected s; user_ops_processed s; total_transactions s;
               slots_modified s].

Definition transition_qfhash (t : SubTreeNodeStateTransition F Hash) : Hash :=
  q_hash_many ([node_index t] ++ hash_felts (old_node_value t) ++ hash_felts (new_node_value t) ++ [node_level t]).

Definition header_qfhash (g : GlobalUserTreeAggregatorHeader F Hash) : Hash :=
  let state_transition_and_stats_hash :=
    two_to_one (transition_qfhash (state_transition g)) (stats_qfhash (stats g)) in
  let state_stats_checkpoint_hash := two_to_one (checkpoint_tree_root g) state_transition_and_stats_hash in
  q_hash_many (hash_felts (two_to_one (guta_circuit_whitelist g) state_stats_checkpoint_hash) ++
               [total_aggregation_proofs_generated g]).

Definition realm_finalize_guta_chain_domain (chain_id : Z) : Hash :=
  q_hash_many [from_u64_value (Hash := Hash) chain_id].

Definition action_qfhash (a : RealmFinalizeGUTAAction F Hash) : Hash :=
  let roots_hash := two_to_one (two_to_one (act_checkpoint_tree_root a) (act_validator_tree_root a))
                      (act_root_guta_header_hash a) in
  let combined := two_to_one (act_chain_domain a) roots_hash in
  q_hash_many (hash_felts combined ++ [act_checkpoint_id a; act_realm_id a]).

Definition public_output_hash o : Hash :=
  let final_guta_header_hash := header_qfhash (final_guta_header o) in
  let checkpoint_binding :=
    two_to_one (two_to_one (chain_domain o) (out_checkpoint_tree_root o)) (out_validator_tree_root o) in
  let authorization_binding :=
    two_to_one (two_to_one (root_guta_header_hash o) (root_guta_reward_tag o)) (action_hash o) in
  let committed_fields := two_to_one (two_to_one checkpoint_binding authorization_binding) final_guta_header_hash in
  q_hash_many (hash_felts committed_fields ++
               [out_checkpoint_id o; out_realm_id o; out_validator_user_id o;
                from_u64_value (Hash := Hash) (out_realm_sub_id o)]).

Definition finalize_reward_root63 o (finalizer_worker_reward_tag : Hash) : Hash :=
  let output_commitment := public_output_hash o in
  two_to_one (two_to_one (root_guta_reward_tag o) output_commitment) finalizer_worker_reward_tag.

Definition finalize_public_input_hash o (finalizer_worker_reward_tag : Hash) : Hash :=
  two_to_one (header_qfhash (final_guta_header o)) (finalize_reward_root63 o finalizer_worker_reward_tag).

(** ** The wire encoding *)
Definition wire_felt (f : F) : list Z := write_u64 (to_u64_value (Hash := Hash) f).
Definition wire_hash h : list Z := write_fixed (into_owned_32bytes h).

Definition finalize_output_bytes o : list Z :=
  let g := final_guta_header o in
  wire_hash (chain_domain o) ++ wire_felt (out_checkpoint_id o) ++ wire_felt (out_realm_id o) ++
  write_u16 (out_realm_sub_id o) ++ wire_hash (out_checkpoint_tree_root o) ++
  wire_hash (out_validator_tree_root o) ++ wire_felt (out_validator_user_id o) ++
  wire_hash (root_guta_header_hash o) ++ wire_hash (root_guta_reward_tag o) ++ wire_hash (action_hash o) ++
  wire_hash (guta_circuit_whitelist g) ++ wire_hash (checkpoint_tree_root g) ++
  wire_hash (old_node_value (state_transition g)) ++ wire_hash (new_node_value (state_transition g)) ++
  wire_felt (node_index (state_transition g)) ++ wire_felt (node_level (state_transition g)) ++
  wire_felt (guta_fees_collected (stats g)) ++ wire_felt (da_fees_collected (stats g)) ++
  wire_felt (user_ops_processed (stats g)) ++ wire_felt (total_transactions (stats g)) ++
  wire_felt (slots_modified (stats g)) ++ wire_felt (total_aggregation_proofs_generated g).

Definition protocol_encode_finalize_output o : outcome (list Z) :=
  let out := finalize_output_bytes o in
  if negb (Z.of_nat (length out) =? 410) then Err "realm finalize public output encode length" else Ok out.

Definition wire_read_felt : reader F :=
  let! value := read_u64 in
  rguard (negb (validate_goldilocks_limb value)) "NonCanonicalField" (rret (from_u64_value (Hash := Hash) value)).

Definition wire_read_hash : reader Hash :=
  let! bytes := read_bytes_32 in
  rguard (negb (validate_hash32_canonical bytes)) "NonCanonicalField" (rret (from_owned_32bytes bytes)).

Definition finalize_output_reader : reader (RealmFinalizeGUTAPublicOutput F Hash) :=
  let! chain_domain := wire_read_hash in
  let! checkpoint_id := wire_read_felt in
  let! realm_id := wire_read_felt in
  let! realm_sub_id := read_u16 in
  let! checkpoint_tree_root := wire_read_hash in
  let! validator_tree_root := wire_read_hash in
  let! validator_user_id := wire_read_felt in
  let! root_guta_header_hash := wire_read_hash in
  let! root_guta_reward_tag := wire_read_hash in
  let! action_hash := wire_read_hash in
  let! guta_circuit_whitelist := wire_read_hash in
  let! header_checkpoint_tree_root := wire_read_hash in
  let! old_node_value := wire_read_hash in
  let! new_node_value := wire_read_hash in
  let! node_index := wire_read_felt in
  let! node_level := wire_read_felt in
  let! guta_fees_collected := wire_read_felt in
  let! da_fees_collected := wire_read_felt in
  let! user_ops_processed := wire_read_felt in
  let! total_transactions := wire_read_felt in
  let! slots_modified := wire_read_felt in
  let! total := wire_read_felt in
  rret (mkOutput chain_domain checkpoint_id realm_id realm_sub_id checkpoint_tree_root validator_tree_root
          validator_user_id root_guta_header_hash root_guta_reward_tag action_hash
          (mkHeader guta_circuit_whitelist header_checkpoint_tree_root
             (mkSubTree old_node_value new_node_value node_index node_level)
             (mkStats guta_fees_collected da_fees_collected user_ops_processed total_transactions slots_modified)
             total)).

Definition protocol_decode_finalize_output (bytes : list Z)
    : outcome (RealmFinalizeGUTAPublicOutput F Hash) :=
  decode_exact bytes finalize_output_reader.

(** ** The encoding is strict *)
Section strict.
Context `{!WireField F Hash}.

#[global] Instance wire_felt_strict : Strict (λ _ : F, True) wire_felt wire_read_felt.
Proof.
  split.
  - intros f rest _. unfold wire_felt, wire_read_felt. pose proof (wire_felt_range f) as Hr.
    rewrite rbind_read by (unfold uint_ok, GOLDILOCKS_ORDER in *; lia). rewrite rguard_false.
    + unfold rret. by rewrite wire_felt_of_value.
    + unfold validate_goldilocks_limb, GOLDILOCKS_MODULUS, GOLDILOCKS_ORDER in *. apply negb_false_iff. lia.
  - intros bs f rest Hb Hd. unfold wire_read_felt in Hd. invert_reads.
    match goal with H : negb (validate_goldilocks_limb _) = false |- _ => apply negb_false_iff in H; rename H into Hv end.
    split; [done|]. unfold wire_felt. rewrite wire_value_of_felt; [done|].
    unfold validate_goldilocks_limb, GOLDILOCKS_MODULUS, GOLDILOCKS_ORDER, uint_ok in *. lia.
Qed.

#[global] Instance wire_hash_strict : Strict (λ _ : Hash, True) wire_hash wire_read_hash.
Proof.
  split.
  - intros h rest _. unfold wire_hash, wire_read_hash. rewrite rbind_read by apply wire_hash_array.
    rewrite rguard_false by (by rewrite wire_hash_canonical). unfold rret. by rewrite wire_hash_of_bytes.
  - intros bs h rest Hb Hd. unfold wire_read_hash in Hd. invert_reads. split; [done|].
    unfold wire_hash. rewrite wire_bytes_of_hash; [done..|by apply negb_false_iff].
Qed.

Definition output_wf o : Prop := uint_ok 16 (out_realm_sub_id o).

#[global] Instance finalize_output_codec_strict :
  Strict output_wf finalize_output_bytes finalize_output_reader.
Proof.
  split.
  - intros o rest Ho. unfold finalize_output_bytes, finalize_output_reader. read_back.
    by destruct o as [? ? ? ? ? ? ? ? ? ? [? ? [] [] ?]].
  - intros bs o rest Hb Hd. unfold finalize_output_reader in Hd. invert_reads. split; [done|].
    unfold finalize_output_bytes. cbn [chain_domain out_checkpoint_id out_realm_id out_realm_sub_id
      out_checkpoint_tree_root out_validator_tree_root out_validator_user_id root_guta_header_hash
      root_guta_reward_tag action_hash final_guta_header guta_circuit_whitelist checkpoint_tree_root
      state_transition stats total_aggregation_proofs_generated old_node_value new_node_value node_index
      node_level guta_fees_collected da_fees_collected user_ops_processed total_transactions slots_modified].
    by rewrite <- !app_assoc.
Qed.

Lemma length_finalize_output o : length (finalize_output_bytes o) = 410%nat.
Proof.
  assert (∀ h, length (wire_hash h) = 32%nat) as Hh by (intros h; destruct (wire_hash_array h); unfold wire_hash, write_fixed; lia).
  assert (∀ f, length (wire_felt f) = 8%nat) as Hf by (intros f; apply length_to_le_bytes).
  unfold finalize_output_bytes. rewrite !length_app, !Hh, !Hf. unfold write_u16. by rewrite length_to_le_bytes.
Qed.

Lemma encode_finalize_output_ok o : protocol_encode_finalize_output o = Ok (finalize_output_bytes o).
Proof. unfold protocol_encode_finalize_output. by rewrite length_finalize_output. Qed.

Lemma decode_finalize_output_only bs o :
  bytes bs → protocol_decode_finalize_output bs = Ok o → output_wf o ∧ bs = finalize_output_bytes o.
Proof.
  intros Hb. unfold protocol_decode_finalize_output, decode_exact.
  destruct (finalize_output_reader bs) as [[o' rest]| | |] eqn:E; cbn [outcome_bind]; [|done..].
  destruct (Nat.eqb_spec (length rest) 0) as [Hr%nil_length_inv|]; [|done]. intros [= ->].
  destruct (strict_only bs o rest Hb E) as [Ho ->]. by rewrite Hr, app_nil_r.
Qed.

Lemma decode_finalize_output_back o :
  output_wf o → protocol_decode_finalize_output (finalize_output_bytes o) = Ok o.
Proof.
  intros Ho. unfold protocol_decode_finalize_output, decode_exact.
  rewrite <- (app_nil_r (finalize_output_bytes o)). by rewrite strict_read.
Qed.

(** The finalizer output has exactly one encoding, of 410 bytes: the encoder always
    succeeds, the decoder inverts it and accepts no other string of bytes. *)
Theorem finalize_output_strict o bs :
  output_wf o → bytes bs →
  (∃ enc, protocol_encode_finalize_output o = Ok enc ∧ length enc = 410%nat ∧
          protocol_decode_finalize_output enc = Ok o) ∧
  (protocol_decode_finalize_output bs = Ok o ↔ protocol_encode_finalize_output o = Ok bs).
Proof.
  intros Ho Hb. rewrite encode_finalize_output_ok. split.
  - eexists. split_and!; [done|apply length_finalize_output|by apply decode_finalize_output_back].
  - split.
    + intros Hd. by destruct (decode_finalize_output_only bs o Hb Hd) as [_ ->].
    + intros [= <-]. by apply decode_finalize_output_back.
Qed.
End strict.

(** ** Commitment

    A hash computation as a tree: opaque values, compressions of two hashes, and hashes of
    felts, possibly following those of another hash. *)
Inductive hterm : Type :=
  | HVal (h : Hash)
  | HTwo (l r : hterm)
  | HFelts (l : list F)
  | HWith (t : hterm) (l : list F).

Fixpoint heval (t : hterm) : Hash :=
  match t with
  | HVal h => h
  | HTwo l r => two_to_one (heval l) (heval r)
  | HFelts l => q_hash_many l
  | HWith t l => q_hash_many (hash_felts (heval t) ++ l)
  end.

(** Two inputs of the compression function, or of the hash of felts. *)
Definition collision : Type := (Hash * Hash) * (Hash * Hash) + list F * list F.

Definition collides (c : collision) : Prop :=
  match c with
  | inl (x, y) => x ≠ y ∧ two_to_one x.1 x.2 = two_to_one y.1 y.2
  | inr (l, m) => l ≠ m ∧ q_hash_many (Hash := Hash) l = q_hash_many m
  end.

Context `{EqDecision F, EqDecision Hash}.

(** The first place, from the root down, at which two computations differ. *)
Fixpoint find_collision (s t : hterm) : option collision :=
  match s, t with
  | HTwo a b, HTwo c d =>
      if decide ((heval a, heval b) = (heval c, heval d))
      then match find_collision a c with Some x => Some x | None => find_collision b d end
      else Some (inl ((heval a, heval b), (heval c, heval d)))
  | HFelts l, HFelts m => if decide (l = m) then None else Some (inr (l, m))
  | HWith a l, HWith c m =>
      let x := hash_felts (heval a) ++ l in
      let y := hash_felts (heval c) ++ m in
      if decide (x = y) then find_collision a c else Some (inr (x, y))
  | _, _ => None
  end.

Fixpoint same_shape (s t : hterm) : Prop :=
  match s, t with
  | HVal _, HVal _ | HFelts _, HFelts _ => True
  | HTwo a b, HTwo c d => same_shape a c ∧ same_shape b d
  | HWith a _, HWith c _ => same_shape a c
  | _, _ => False
  end.

Context `{!HashFelts F Hash}.

Lemma hash_felts_split h h' l l' : hash_felts h ++ l = hash_felts h' ++ l' → h = h' ∧ l = l'.
Proof.
  unfold hash_felts. destruct (to_4_felts h) as [[[? ?] ?] ?] eqn:E, (to_4_felts h') as [[[? ?] ?] ?] eqn:E'.
  intros [= -> -> -> -> ->]. split; [|done]. by rewrite <- (hash_of_felts h), <- (hash_of_felts h'), E, E'.
Qed.

Lemma find_collision_Some s : ∀ t c, heval s = heval t → find_collision s t = Some c → collides c.
Proof.
  induction s as [h|a IHa b IHb|l|a IHa l]; intros [h'|c d|m|c m] x He; cbn in *; try done.
  - case_decide as E; [|intros [= <-]; by split]. injection E as Ea Eb.
    destruct (find_collision a c) eqn:Ec; [intros [= <-]; by eapply IHa|by apply IHb].
  - case_decide as E; [done|]. intros [= <-]. by split.
  - case_decide as E; [|intros [= <-]; by split]. apply hash_felts_split in E as [E _]. by apply IHa.
Qed.

Lemma find_collision_None s : ∀ t, same_shape s t → heval s = heval t → find_collision s t = None → s = t.
Proof.
  induction s as [h|a IHa b IHb|l|a IHa l]; intros [h'|c d|m|c m] Hs He Hf; cbn in *; try done.
  - by rewrite He.
  - case_decide as E; [|done]. injection E as Ea Eb. destruct Hs as [Hs1 Hs2].
    destruct (find_collision a c) eqn:Ec; [done|]. f_equal; auto.
  - case_decide; [by subst|done].
  - case_decide as E; [|done]. apply hash_felts_split in E as [E ->]. f_equal. auto.
Qed.

(** *** The computation of the public input *)
Definition header_term (g : GlobalUserTreeAggregatorHeader F Hash) : hterm :=
  let t := state_transition g in
  let s := stats g in
  HWith
    (HTwo (HVal (guta_circuit_whitelist g))
       (HTwo (HVal (checkpoint_tree_root g))
          (HTwo
             (HFelts ([node_index t] ++ hash_felts (old_node_value t) ++ hash_felts (new_node_value t) ++ [node_level t]))
             (HFelts [guta_fees_collected s; da_fees_collected s; user_ops_processed s; total_transactions s;
                      slots_modified s]))))
    [total_aggregation_proofs_generated g].

Definition output_term o : hterm :=
  HWith
    (HTwo
       (HTwo
          (HTwo (HTwo (HVal (chain_domain o)) (HVal (out_checkpoint_tree_root o))) (HVal (out_validator_tree_root o)))
          (HTwo (HTwo (HVal (root_guta_header_hash o)) (HVal (root_guta_reward_tag o))) (HVal (action_hash o))))
       (header_term (final_guta_header o)))
    [out_checkpoint_id o; out_realm_id o; out_validator_user_id o;
     from_u64_value (Hash := Hash) (out_realm_sub_id o)].

Definition public_input_term o tag : hterm :=
  HTwo (header_term (final_guta_header o))
    (HTwo (HTwo (HVal (root_guta_reward_tag o)) (output_term o)) (HVal tag)).

Lemma heval_public_input o tag : heval (public_input_term o tag) = finalize_public_input_hash o tag.
Proof. done. Qed.

Lemma header_term_inj g g' : header_term g = header_term g' → g = g'.
Proof.
  destruct g as [w c [ov nv i l] [] n], g' as [w' c' [ov' nv' i' l'] [] n'].
  cbn [header_term state_transition stats]. intros [= -> -> -> Hn -> -> -> -> -> ->].
  apply hash_felts_split in Hn as [-> Hn]. apply hash_felts_split in Hn as [-> [= ->]]. done.
Qed.

Lemma HTwo_inj a b c d : HTwo a b = HTwo c d → a = c ∧ b = d.
Proof. by intros [= -> ->]. Qed.
Lemma HWith_inj a l c m : HWith a l = HWith c m → a = c ∧ l = m.
Proof. by intros [= -> ->]. Qed.
Lemma HVal_inj h h' : HVal h = HVal h' → h = h'.
Proof. by intros [= ->]. Qed.

Lemma output_term_inj `{!WireField F Hash} o o' :
  output_wf o → output_wf o' → output_term o = output_term o' → o = o'.
Proof.
  intros Ho Ho' E. unfold output_term in E. apply HWith_inj in E as [E Hl].
  apply HTwo_inj in E as [E Hh%header_term_inj]. injection E as E1 E2 E3 E4 E5 E6. injection Hl as E7 E8 E9 Hs.
  assert (∀ x, uint_ok 16 x → 0 ≤ x < GOLDILOCKS_ORDER) as Hr by (unfold uint_ok, GOLDILOCKS_ORDER; lia).
  apply (f_equal (to_u64_value (Hash := Hash))) in Hs. rewrite !wire_value_of_felt in Hs by auto.
  destruct o, o'. cbn in *. by subst.
Qed.

(** C20: the public input of the finalizer circuit commits to the whole output and to the
    worker's tag: two openings of one public input are the same, or the first
    difference between their computations is a collision of the hash. *)
Theorem public_input_commits `{!WireField F Hash} o tag o' tag' :
  output_wf o → output_wf o' →
  finalize_public_input_hash o tag = finalize_public_input_hash o' tag' →
  match find_collision (public_input_term o tag) (public_input_term o' tag') with
  | Some c => collides c
  | None => o = o' ∧ tag = tag'
  end.
Proof.
  intros Ho Ho' He. rewrite <- !heval_public_input in He.
  destruct (find_collision _ _) eqn:E; [by eapply find_collision_Some|].
  apply find_collision_None in E; [|done..]. unfold public_input_term in E.
  apply HTwo_inj in E as [_ E]. apply HTwo_inj in E as [E ->%HVal_inj]. apply HTwo_inj in E as [_ E].
  split; [by apply output_term_inj|done].
Qed.
End finalize.

(** ** Goldilocks numbers, for evaluation *)
Record gold : Type := mkGold { gold_value : Z; gold_ok : (0 <=? gold_value) && (gold_value <? GOLDILOCKS_ORDER) = true }.

Lemma gold_eq a b : gold_value a = gold_value b → a = b.
Proof. destruct a as [x Hx], b as [y Hy]. cbn. intros <-. f_equal. apply proof_irrel. Qed.

Lemma gold_range g : 0 ≤ gold_value g < GOLDILOCKS_ORDER.
Proof. destruct g as [x Hx]. cbn. lia. Qed.

Lemma gold_mod x : (0 <=? x mod GOLDILOCKS_ORDER) && (x mod GOLDILOCKS_ORDER <? GOLDILOCKS_ORDER) = true.
Proof. pose proof (Z.mod_pos_bound x GOLDILOCKS_ORDER ltac:(done)). lia. Qed.

Definition gold_of (x : Z) : gold := mkGold (x mod GOLDILOCKS_ORDER) (gold_mod x).

#[global] Instance gold_eq_dec : EqDecision gold.
Proof.
  intros a b. destruct (decide (gold_value a = gold_value b)) as [E|E]; [left; by apply gold_eq|right; by intros ->].
Defined.

Abbreviation gold4 := (gold * gold * gold * gold)%type.

Definition gold_mix (l : list Z) : gold := gold_of (foldl (λ a x, (a * 6364136223846793005 + x + 1442695040888963407) mod GOLDILOCKS_ORDER) 7 l).

#[global] Instance gold_field_hash : FieldHash gold gold4 := {
  to_4_felts h := h;
  from_4_felts h := h;
  to_u64_value := gold_value;
  from_u64_value := gold_of;
  q_hash_many l :=
    let v := gold_value <$> l in (gold_mix v, gold_mix (1 :: v), gold_mix (2 :: v), gold_mix (3 :: v));
  hash_default := (gold_of 0, gold_of 0, gold_of 0, gold_of 0);
  felt_default := gold_of 0;
}.

Definition gold4_list (h : gold4) : list Z := let '(a, b, c, d) := h in gold_value <$> [a; b; c; d].

#[global] Instance gold_hasher : MerkleHasher gold4 := λ a b,
  let v := gold4_list a ++ gold4_list b in (gold_mix (4 :: v), gold_mix (5 :: v), gold_mix (6 :: v), gold_mix (7 :: v)).

#[global] Instance gold_hash_felts : HashFelts gold gold4.
Proof. by split. Qed.

#[global] Instance gold_bytes : Q256BitHash gold4 := {
  into_owned_32bytes h := concat (to_le_bytes 8 <$> gold4_list h);
  from_owned_32bytes b :=
    let limb i := gold_of (from_le_bytes (take 8 (drop (i * 8) b))) in (limb 0%nat, limb 1%nat, limb 2%nat, limb 3%nat);
}.

Lemma gold_limbs (h : gold4) (i : nat) x :
  gold4_list h !! i = Some x → from_le_bytes (take 8 (drop (i * 8) (into_owned_32bytes h))) = x.
Proof.
  assert (0 ≤ x < GOLDILOCKS_ORDER → from_le_bytes (to_le_bytes 8 x) = x) as Hx.
  { intros ?. apply from_to_le_bytes. unfold GOLDILOCKS_ORDER in *. cbn. lia. }
  destruct h as [[[a b] c] d]. cbn [gold4_list fmap list_fmap into_owned_32bytes gold_bytes concat].
  destruct i as [|[|[|[|i]]]]; cbn [lookup list_lookup]; intros E; try done; injection E as <-;
    unfold take, drop; cbn [Nat.mul Nat.add to_le_bytes app];
    [rewrite <- (Hx (gold_range a)) at 9|rewrite <- (Hx (gold_range b)) at 9|
     rewrite <- (Hx (gold_range c)) at 9|rewrite <- (Hx (gold_range d)) at 9]; done.
Qed.

Lemma gold_of_small x : 0 ≤ x < GOLDILOCKS_ORDER → gold_value (gold_of x) = x.
Proof. intros ?. cbn. by apply Z.mod_small. Qed.

Lemma gold_hash_array (h : gold4) : array_ok 32 (into_owned_32bytes h).
Proof.
  destruct h as [[[a b] c] d]. split; [done|]. cbn [into_owned_32bytes gold_bytes gold4_list fmap list_fmap concat].
  repeat apply Forall_app_2; try apply bytes_to_le_bytes. constructor.
Qed.

#[global] Instance gold_wire : WireField gold gold4.
Proof.
  split.
  - apply gold_range.
  - intros f. apply gold_eq, gold_of_small, gold_range.
  - apply gold_of_small.
  - apply gold_hash_array.
  - intros h. unfold validate_hash32_canonical. apply forallb_forall. intros i Hi%in_seq. destruct (lookup_lt_is_Some_2 (gold4_list h) i) as [x Hx].
    { destruct h as [[[]]]. cbn. lia. }
    rewrite (gold_limbs h i x Hx). assert (0 ≤ x < GOLDILOCKS_ORDER) as Hr.
    { destruct h as [[[a b] c] d]. destruct i as [|[|[|[|i]]]]; try done; injection Hx as <-; apply gold_range. }
    unfold validate_goldilocks_limb, GOLDILOCKS_MODULUS, GOLDILOCKS_ORDER in *. lia.
  - intros h. cbn [from_owned_32bytes gold_bytes].
    assert (∀ i g, gold4_list h !! i = Some (gold_value g) →
      gold_of (from_le_bytes (take 8 (drop (i * 8) (into_owned_32bytes h)))) = g) as Hi.
    { intros i g Hg. rewrite (gold_limbs h i _ Hg). apply gold_eq, gold_of_small, gold_range. }
    destruct h as [[[a b] c] d].
    by rewrite (Hi 0%nat a), (Hi 1%nat b), (Hi 2%nat c), (Hi 3%nat d).
  - intros l [Hl Hb] Hv. unfold validate_hash32_canonical in Hv. cbn [forallb seq] in Hv.
    cbn [into_owned_32bytes from_owned_32bytes gold_bytes gold4_list fmap list_fmap concat].
    assert (∀ i, (i < 4)%nat →
      validate_goldilocks_limb (from_le_bytes (take 8 (drop (i * 8) l))) = true →
      to_le_bytes 8 (gold_value (gold_of (from_le_bytes (take 8 (drop (i * 8) l))))) = take 8 (drop (i * 8) l)) as Hi.
    { intros i Hlt Hc. assert (bytes (take 8 (drop (i * 8) l))) as Hbb by (by apply Forall_take, Forall_drop).
      assert (length (take 8 (drop (i * 8) l)) = 8%nat) as H8 by (rewrite length_take, length_drop; lia).
      pose proof (from_le_bytes_range _ Hbb) as Hr. rewrite gold_of_small.
      - rewrite <- H8 at 1. by apply to_from_le_bytes.
      - unfold validate_goldilocks_limb, GOLDILOCKS_MODULUS, GOLDILOCKS_ORDER in *. lia. }
    repeat (apply andb_prop in Hv as [? Hv]). rewrite !Hi by (lia || done).
    do 32 (destruct l as [|? l]; [cbn in Hl; lia|]). destruct l; [done|cbn in Hl; lia].
Qed.

#[global] Instance gold_hash32 : Hash32 gold4.
Proof. split; [apply gold_hash_array|apply (wire_hash_of_bytes (F := gold))]. Qed.

#[global] Instance gold_zero : ZeroableHash gold4 := (gold_of 0, gold_of 0, gold_of 0, gold_of 0).
#[global] Instance gold_zero_cache : MerkleZeroHasherWithCache gold4 := {
  CACHED_ZERO_HASHES := generate_zero_hashes;
  CACHED_ZERO_HASHES_generated := eq_refl;
}.

Definition example_hash (n : Z) : gold4 := (gold_of n, gold_of (n + 1), gold_of (n + 2), gold_of (n + 3)).

Definition example_output : RealmFinalizeGUTAPublicOutput gold gold4 :=
  mkOutput (realm_finalize_guta_chain_domain 17) (gold_of 3) (gold_of 1) 2 (example_hash 10) (example_hash 20)
    (gold_of 1048576) (example_hash 30) (example_hash 40) (example_hash 50)
    (mkHeader (example_hash 60) (example_hash 10)
       (mkSubTree (example_hash 70) (example_hash 80) (gold_of 1) (gold_of 12))
       (mkStats (gold_of 5) (gold_of 6) (gold_of 7) (gold_of 8) (gold_of 9)) (gold_of 11)).

Lemma finalize_output_strict_witness :
  ∃ enc, protocol_encode_finalize_output example_output = Ok enc ∧ length enc = 410%nat ∧
         protocol_decode_finalize_output enc = Ok example_output.
Proof. apply (finalize_output_strict example_output []); [done|constructor]. Defined.

Lemma public_input_commits_witness :
  match find_collision (public_input_term example_output (example_hash 90))
          (public_input_term example_output (example_hash 90)) with
  | Some c => collides c
  | None => example_output = example_output ∧ example_hash 90 = example_hash 90
  end.
Proof. by apply (public_input_commits example_output (example_hash 90) example_output (example_hash 90)). Defined.
