(* ===== verification/TagTree.v ===== *)
(** * Tag trees

    [parth_core/src/crypto/hash/tag_tree.rs]: trees in which every node carries a tag
    and its value is the hash of its two children and of the tag; missing children
    count as the default hash. Rewards are recorded in such trees. *)
From stdpp Require Import prelude list strings.
From Stdlib Require Import ZArith Lia.
From S2P Require Import Prelude MerkleKey MerkleHash Wire Serialize Codecs.

Definition PSY_OBJECT_FFS_SIZE_TAG_TREE_STORAGE_NODE : Z := 64.
Definition PSY_OBJECT_FFS_SIZE_TAG_TREE_PROOF_NODE : Z := 64.

Record TagTreeStorageNode (Hash : Type) : Type := mkStorageNode {
  tag_value : Hash;
  tag : Hash;
}.
Arguments mkStorageNode {Hash} _ _.
Arguments tag_value {Hash} _.
Arguments tag {Hash} _.

Record TagTreeNodePreimage (Hash : Type) : Type := mkTagPreimage {
  tag_left : Hash;
  tag_right : Hash;
  tag_tag : Hash;
}.
Arguments mkTagPreimage {Hash} _ _ _.
Arguments tag_left {Hash} _.
Arguments tag_right {Hash} _.
Arguments tag_tag {Hash} _.

Record TagTreeProofNode (Hash : Type) : Type := mkTagProofNode {
  tag_sibling : Hash;
  parent_tag : Hash;
}.
Arguments mkTagProofNode {Hash} _ _.
Arguments tag_sibling {Hash} _.
Arguments parent_tag {Hash} _.

Record TagTreeMerkleProofPartial (Hash : Type) : Type := mkTagPartial {
  partial_index : Z;
  partial_leaf : TagTreeNodePreimage Hash;
  partial_siblings : list (TagTreeProofNode Hash);
}.
Arguments mkTagPartial {Hash} _ _ _.
Arguments partial_index {Hash} _.
Arguments partial_leaf {Hash} _.
Arguments partial_siblings {Hash} _.

Record TagTreeMerkleProof (Hash : Type) : Type := mkTagProof {
  tag_root : Hash;
  tag_leaf : TagTreeNodePreimage Hash;
  tag_index : Z;
  tag_siblings : list (TagTreeProofNode Hash);
}.
Arguments mkTagProof {Hash} _ _ _ _.
Arguments tag_root {Hash} _.
Arguments tag_leaf {Hash} _.
Arguments tag_index {Hash} _.
Arguments tag_siblings {Hash} _.

Section tag_tree.
Context {Hash : Type} `{MerkleHasher Hash}.

Definition hash_tag_tree_node (left right tag : Hash) : Hash := two_to_one (two_to_one left right) tag.

Definition hash_tag_tree_node_single `{ZeroableHash Hash} (left tag : Hash) : Hash :=
  two_to_one (two_to_one left get_zero_value) tag.

Definition hash_tag_tree_node_three (first second third tag : Hash) : Hash :=
  let last_two := hash_tag_tree_node second third tag in
  hash_tag_tree_node first last_two tag.

Definition hash_tag_tree_node_four (first second third fourth tag : Hash) : Hash :=
  let last_two := hash_tag_tree_node third fourth tag in
  let last_three := hash_tag_tree_node second last_two tag in
  hash_tag_tree_node first last_three tag.

Definition get_node_hash (p : TagTreeNodePreimage Hash) : Hash :=
  hash_tag_tree_node (tag_left p) (tag_right p) (tag_tag p).

(** The loop over [siblings.iter().enumerate()] from position [i]. *)
Fixpoint tag_root_loop (index : Z) (i : nat) (current_value : Hash) (siblings : list (TagTreeProofNode Hash)) : Hash :=
  match siblings with
  | [] => current_value
  | sibling :: siblings =>
      let is_right := index_bit_set index i in
      let current_value :=
        if is_right then two_to_one (tag_sibling sibling) current_value
        else two_to_one current_value (tag_sibling sibling) in
      tag_root_loop index (S i) (two_to_one current_value (parent_tag sibling)) siblings
  end.

Definition compute_tag_tree_root_for_proof (index : Z) (leaf : TagTreeNodePreimage Hash)
    (siblings : list (TagTreeProofNode Hash)) : Hash :=
  let current_value := get_node_hash leaf in
  if (length siblings =? 0)%nat then current_value else tag_root_loop index 0 current_value siblings.

Definition verify_tag_tree_proof `{EqDecision Hash} (index : Z) (leaf : TagTreeNodePreimage Hash)
    (siblings : list (TagTreeProofNode Hash)) (known_root : Hash) : bool :=
  if (64 <? length siblings)%nat then false
  else bool_decide (compute_tag_tree_root_for_proof index leaf siblings = known_root).

Definition tag_partial_get_root (p : TagTreeMerkleProofPartial Hash) : Hash :=
  compute_tag_tree_root_for_proof (partial_index p) (partial_leaf p) (partial_siblings p).

Definition tag_partial_to_proof (p : TagTreeMerkleProofPartial Hash) : TagTreeMerkleProof Hash :=
  mkTagProof (tag_partial_get_root p) (partial_leaf p) (partial_index p) (partial_siblings p).

Definition tag_proof_new_empty `{ZeroableHash Hash} : TagTreeMerkleProof Hash :=
  mkTagProof get_zero_value (mkTagPreimage get_zero_value get_zero_value get_zero_value) 0 [].

Definition tag_proof_is_empty `{ZeroableHash Hash, EqDecision Hash} (p : TagTreeMerkleProof Hash) : bool :=
  (length (tag_siblings p) =? 0)%nat && (tag_index p =? 0) &&
  bool_decide (tag_left (tag_leaf p) = get_zero_value) && bool_decide (tag_right (tag_leaf p) = get_zero_value) &&
  bool_decide (tag_tag (tag_leaf p) = get_zero_value) && bool_decide (tag_root p = get_zero_value).
End tag_tree.

(** ** Encodings *)
Section codecs.
Context {Hash : Type} `{Hash32 Hash}.

#[global] Instance storage_node_ffs : FastFixedSerializable (TagTreeStorageNode Hash) := {|
  FFS_SIZE := PSY_OBJECT_FFS_SIZE_TAG_TREE_STORAGE_NODE;
  ffs_max_vec_length := U32_MAX;
  ffs_to_bytes n := into_owned_32bytes (tag_value n) ++ into_owned_32bytes (tag n);
  ffs_from_owned_bytes data :=
    mkStorageNode (from_owned_32bytes (slice 0 32 data)) (from_owned_32bytes (slice 32 64 data));
|}.

#[global] Instance tag_proof_io : PsyIOReadWrite (TagTreeMerkleProof Hash) := {|
  IS_FIXED_SIZE := false;
  FIXED_SIZE := 0;
  MAX_VEC_LENGTH := U32_MAX;
  pio_serialized_size p := 32 + 96 + 8 + 4 + Z.of_nat (length (tag_siblings p)) * 64;
  pio_write_to_io p :=
    write_hash (tag_root p) +++ write_hash (tag_left (tag_leaf p)) +++ write_hash (tag_right (tag_leaf p)) +++
    write_hash (tag_tag (tag_leaf p)) +++ psy_write_u64 (tag_index p) +++
    psy_write_vec_length (Z.of_nat (length (tag_siblings p))) +++
    write_each (λ s, write_hash (tag_sibling s) +++ write_hash (parent_tag s) +++ wdone) (tag_siblings p) +++ wdone;
  pio_read_from_io :=
    let! root := read_hash in
    let! leaf_left := read_hash in
    let! leaf_right := read_hash in
    let! leaf_tag := read_hash in
    let! index := psy_read_u64 in
    let! sibling_count := psy_read_vec_length in
    let! siblings := read_list (Z.to_nat sibling_count)
      (let! sibling_sibling := read_hash in
       let! sibling_parent_tag := read_hash in
       rret (mkTagProofNode sibling_sibling sibling_parent_tag)) in
    rret (mkTagProof root (mkTagPreimage leaf_left leaf_right leaf_tag) index siblings);
|}.

Definition tag_proof_wf (p : TagTreeMerkleProof Hash) : Prop :=
  uint_ok 64 (tag_index p) ∧ u32_vec (tag_siblings p).

#[global] Instance storage_node_fixed : FixedLaws (TagTreeStorageNode Hash) any.
Proof.
  split; [done|..]; intros l _; cbn [ffs_to_bytes ffs_from_owned_bytes FFS_SIZE storage_node_ffs].
  - change PSY_OBJECT_FFS_SIZE_TAG_TREE_STORAGE_NODE with (32 + 32). apply array_app; apply hash_array.
  - destruct (hash_array (tag_value l)), (hash_array (tag l)).
    rewrite slice_head, (slice_tail 32) by lia. cbn [Nat.sub]. rewrite slice_all by lia.
    rewrite !hash_of_bytes. by destruct l.
Qed.

Lemma codes_proof_node (s : TagTreeProofNode Hash) :
  codes (write_hash (tag_sibling s) +++ write_hash (parent_tag s) +++ wdone) 64
    (let! sibling := read_hash in let! tag := read_hash in rret (mkTagProofNode sibling tag)) s.
Proof.
  destruct s. eapply codes_size; [eapply codes_bind; [apply codes_hash|eapply codes_bind; [apply codes_hash|apply codes_done]]|done].
Qed.

Lemma codes_proof_nodes (ss : list (TagTreeProofNode Hash)) :
  codes (write_each (λ s, write_hash (tag_sibling s) +++ write_hash (parent_tag s) +++ wdone) ss)
    (Z.of_nat (length ss) * 64)
    (read_list (Z.to_nat (Z.of_nat (length ss)))
       (let! sibling := read_hash in let! tag := read_hash in rret (mkTagProofNode sibling tag))) ss.
Proof. rewrite <- sizes_const. apply codes_each, Forall_true. intros s. apply codes_proof_node. Qed.

#[local] Hint Resolve codes_proof_nodes : codec.

#[global] Instance tag_proof_canonical : Canonical (TagTreeMerkleProof Hash) tag_proof_wf.
Proof.
  split; [|done]. intros [r [lf rt tg] i ss] [? ?]. codec tag_proof_io; [apply codes_done|]. cbn. lia.
Qed.
End codecs.

(** ** Binding

    With a hash function without collisions, a root fixes everything a proof for a
    position says. *)
Section binding.
Context {Hash : Type} `{MerkleHasher Hash, EqDecision Hash}.
Context `{!Inj2 (=) (=) (=) (two_to_one (Hash := Hash))}.

Lemma tag_root_loop_inj index : ∀ siblings siblings' i (x x' : Hash),
  length siblings = length siblings' →
  tag_root_loop index i x siblings = tag_root_loop index i x' siblings' → x = x' ∧ siblings = siblings'.
Proof.
  induction siblings as [|[s t] siblings IH]; intros [|[s' t'] siblings'] i x x' Hl E; try done.
  cbn in E. injection Hl as Hl. apply IH in E as [E ->]; [|done].
  apply (inj2 two_to_one) in E as [E ->].
  destruct (index_bit_set index i); apply (inj2 two_to_one) in E as [-> ->]; done.
Qed.

Lemma get_node_hash_inj (p p' : TagTreeNodePreimage Hash) : get_node_hash p = get_node_hash p' → p = p'.
Proof.
  destruct p, p'. unfold get_node_hash, hash_tag_tree_node. cbn.
  intros [[-> ->]%(inj2 two_to_one) ->]%(inj2 two_to_one). done.
Qed.

Lemma compute_tag_root_loop index leaf siblings :
  compute_tag_tree_root_for_proof index leaf siblings = tag_root_loop index 0 (get_node_hash leaf) siblings.
Proof. by destruct siblings. Qed.

Theorem tag_proof_binding index root leaf leaf' siblings siblings' :
  length siblings = length siblings' →
  verify_tag_tree_proof index leaf siblings root = true →
  verify_tag_tree_proof index leaf' siblings' root = true →
  leaf = leaf' ∧ siblings = siblings'.
Proof.
  unfold verify_tag_tree_proof. intros Hl E E'. do 2 case_match; try done.
  apply bool_decide_eq_true in E as <-, E'.
  rewrite !compute_tag_root_loop in E'. apply tag_root_loop_inj in E' as [E' ->]; [|done].
  by apply get_node_hash_inj in E' as ->.
Qed.
End binding.
