(* ===== verification/Qblob.v ===== *)
(** * Blobs of Merkle nodes

    Model of [psy_node_core/src/qblob]: the format in which edges, realms and
    coordinators hand batches of Merkle nodes to each other. A blob is a header of 84
    bytes followed by items of one size; the data views build, check and read blobs for
    the three kinds of node (without id, with a tree id, with a tree id and a sub id),
    and the recorders write the nodes that proofs change. The byte formats of the nodes
    are those of [parth_core/src/data/hash]. *)
From stdpp Require Import prelude list gmap strings.
From Stdlib Require Import ZArith Lia.
From S2P Require Import Prelude MerkleKey MerkleHash MerkleProof Wire Serialize ByteOrder Codecs.

(** ** Nodes and their bytes *)
Record QMerkleStoreSingleIdKey : Type := mkSingleKey {
  sk_tree_id : Z;
  sk_level : Z;
  sk_index : Z;
}.

Record QMerkleStoreDoubleIdKey : Type := mkDoubleIdKey {
  dik_tree_id : Z;
  dik_tree_sub_id : Z;
  dik_level : Z;
  dik_index : Z;
}.

#[global] Instance single_key_eq_dec : EqDecision QMerkleStoreSingleIdKey.
Proof. solve_decision. Defined.
#[global] Instance double_key_eq_dec : EqDecision QMerkleStoreDoubleIdKey.
Proof. solve_decision. Defined.
#[global] Instance single_key_countable : Countable QMerkleStoreSingleIdKey.
Proof.
  refine (inj_countable' (λ k, (sk_tree_id k, sk_level k, sk_index k)) (λ '(t, l, i), mkSingleKey t l i) _).
  by intros [].
Defined.
#[global] Instance double_key_countable : Countable QMerkleStoreDoubleIdKey.
Proof.
  refine (inj_countable' (λ k, (dik_tree_id k, dik_tree_sub_id k, dik_level k, dik_index k))
            (λ '(t, u, l, i), mkDoubleIdKey t u l i) _).
  by intros [].
Defined.

Record QMerkleStoreSingleIdNode (Hash : Type) : Type := mkSingleNode {
  sn_key : QMerkleStoreSingleIdKey;
  sn_value : Hash;
}.
Arguments mkSingleNode {Hash}.
Arguments sn_key {Hash}.
Arguments sn_value {Hash}.

Record QMerkleStoreDoubleIdNode (Hash : Type) : Type := mkDoubleNode {
  dn_key : QMerkleStoreDoubleIdKey;
  dn_value : Hash;
}.
Arguments mkDoubleNode {Hash}.
Arguments dn_key {Hash}.
Arguments dn_value {Hash}.

Definition QMS_FAST_SERIALIZER_ZERO_ID_NODE_SIZE : Z := 41.
Definition QMS_FAST_SERIALIZER_SINGLE_ID_NODE_SIZE : Z := 49.
Definition QMS_FAST_SERIALIZER_DOUBLE_ID_NODE_SIZE : Z := 57.

Section formats.
Context {Hash : Type} `{Q256BitHash Hash}.

#[global] Instance zero_node_ffs : FastFixedSerializable (SimpleMerkleNode Hash) := {|
  FFS_SIZE := 41;
  ffs_max_vec_length := U32_MAX;
  ffs_to_bytes n :=
    to_le_bytes 1 (level (node_key n)) ++ to_le_bytes 8 (index (node_key n)) ++ into_owned_32bytes (node_value n);
  ffs_from_owned_bytes data :=
    mkNode (mkKey (from_le_bytes (slice 0 1 data)) (from_le_bytes (slice 1 9 data)))
           (from_owned_32bytes (slice 9 41 data));
|}.

#[global] Instance single_node_ffs : FastFixedSerializable (QMerkleStoreSingleIdNode Hash) := {|
  FFS_SIZE := 49;
  ffs_max_vec_length := U32_MAX;
  ffs_to_bytes n :=
    to_le_bytes 8 (sk_tree_id (sn_key n)) ++ to_le_bytes 1 (sk_level (sn_key n)) ++
    to_le_bytes 8 (sk_index (sn_key n)) ++ into_owned_32bytes (sn_value n);
  ffs_from_owned_bytes data :=
    mkSingleNode (mkSingleKey (from_le_bytes (slice 0 8 data)) (from_le_bytes (slice 8 9 data))
                    (from_le_bytes (slice 9 17 data)))
                 (from_owned_32bytes (slice 17 49 data));
|}.

#[global] Instance double_node_ffs : FastFixedSerializable (QMerkleStoreDoubleIdNode Hash) := {|
  FFS_SIZE := 57;
  ffs_max_vec_length := U32_MAX;
  ffs_to_bytes n :=
    to_le_bytes 8 (dik_tree_id (dn_key n)) ++ to_le_bytes 8 (dik_tree_sub_id (dn_key n)) ++
    to_le_bytes 1 (dik_level (dn_key n)) ++ to_le_bytes 8 (dik_index (dn_key n)) ++ into_owned_32bytes (dn_value n);
  ffs_from_owned_bytes data :=
    mkDoubleNode (mkDoubleIdKey (from_le_bytes (slice 0 8 data)) (from_le_bytes (slice 8 16 data))
                    (from_le_bytes (slice 16 17 data)) (from_le_bytes (slice 17 25 data)))
                 (from_owned_32bytes (slice 25 57 data));
|}.

Definition from_simple_merkle_nodes_for_tree_clone (tree_id tree_sub_id : Z) (nodes : list (SimpleMerkleNode Hash))
    : list (QMerkleStoreDoubleIdNode Hash) :=
  (λ n, mkDoubleNode (mkDoubleIdKey tree_id tree_sub_id (level (node_key n)) (index (node_key n))) (node_value n)) <$> nodes.
End formats.

(** ** Kinds of blob *)
Inductive QBlobDataType : Type :=
  | DataUnknown
  | GenericZeroIdMerkleNodeBatch
  | GenericSingleIdMerkleNodeBatch
  | GenericDoubleIdMerkleNodeBatch
  | GenericIMTLeafBatch.

Inductive QBlobMerkleNodeTreeType : Type :=
  | TreeUnknown
  | GlobalUserTree
  | GlobalContractTree
  | GlobalUserRegistrationTree
  | UserContractTree
  | ContractFunctionTree
  | UserContractStateTree
  | IMTContractStateLeaf.

#[global] Instance data_type_eq_dec : EqDecision QBlobDataType.
Proof. solve_decision. Defined.
#[global] Instance tree_type_eq_dec : EqDecision QBlobMerkleNodeTreeType.
Proof. solve_decision. Defined.

Definition data_type_repr (t : QBlobDataType) : Z :=
  match t with
  | DataUnknown => 0
  | GenericZeroIdMerkleNodeBatch => 1
  | GenericSingleIdMerkleNodeBatch => 2
  | GenericDoubleIdMerkleNodeBatch => 3
  | GenericIMTLeafBatch => 4
  end.

Definition data_type_from_repr (x : Z) : option QBlobDataType :=
  match x with
  | 0 => Some DataUnknown
  | 1 => Some GenericZeroIdMerkleNodeBatch
  | 2 => Some GenericSingleIdMerkleNodeBatch
  | 3 => Some GenericDoubleIdMerkleNodeBatch
  | 4 => Some GenericIMTLeafBatch
  | _ => None
  end.

Definition tree_type_repr (t : QBlobMerkleNodeTreeType) : Z :=
  match t with
  | TreeUnknown => 0
  | GlobalUserTree => 1
  | GlobalContractTree => 2
  | GlobalUserRegistrationTree => 3
  | UserContractTree => 256
  | ContractFunctionTree => 257
  | UserContractStateTree => 512
  | IMTContractStateLeaf => 768
  end.

Definition tree_type_from_repr (x : Z) : option QBlobMerkleNodeTreeType :=
  match x with
  | 0 => Some TreeUnknown
  | 1 => Some GlobalUserTree
  | 2 => Some GlobalContractTree
  | 3 => Some GlobalUserRegistrationTree
  | 256 => Some UserContractTree
  | 257 => Some ContractFunctionTree
  | 512 => Some UserContractStateTree
  | 768 => Some IMTContractStateLeaf
  | _ => None
  end.

Definition QBLOB_STANDARD_V1_MAGIC_U32 : Z := 0x31565142.
Definition QBLOB_STANDARD_V1_MAGIC_BYTES : list Z := [0x51; 0x42; 0x56; 0x31].
Definition QBLOB_IMT_LEAF_ENTRY_SIZE : Z := 161.

Definition starts_with_qblob_v1_magic (data : list Z) : bool :=
  (4 <=? length data)%nat && bool_decide (take 4 data = QBLOB_STANDARD_V1_MAGIC_BYTES).

Definition is_valid_qblob_merkle_node_batch_type (blob_data_type : QBlobDataType) (tree_type : QBlobMerkleNodeTreeType)
    : bool :=
  match blob_data_type, tree_type with
  | GenericZeroIdMerkleNodeBatch, (GlobalUserTree | GlobalContractTree | GlobalUserRegistrationTree) => true
  | GenericSingleIdMerkleNodeBatch, (UserContractTree | ContractFunctionTree) => true
  | GenericDoubleIdMerkleNodeBatch, UserContractStateTree => true
  | GenericIMTLeafBatch, IMTContractStateLeaf => true
  | _, _ => false
  end.

Definition get_item_size_for_data_type (blob_data_type : QBlobDataType) : option Z :=
  match blob_data_type with
  | GenericZeroIdMerkleNodeBatch => Some QMS_FAST_SERIALIZER_ZERO_ID_NODE_SIZE
  | GenericSingleIdMerkleNodeBatch => Some QMS_FAST_SERIALIZER_SINGLE_ID_NODE_SIZE
  | GenericDoubleIdMerkleNodeBatch => Some QMS_FAST_SERIALIZER_DOUBLE_ID_NODE_SIZE
  | GenericIMTLeafBatch => Some QBLOB_IMT_LEAF_ENTRY_SIZE
  | DataUnknown => None
  end.

Definition get_item_size_for_merkle_tree_type (tree_type : QBlobMerkleNodeTreeType) : option Z :=
  match tree_type with
  | GlobalUserTree | GlobalContractTree | GlobalUserRegistrationTree => Some QMS_FAST_SERIALIZER_ZERO_ID_NODE_SIZE
  | UserContractTree | ContractFunctionTree => Some QMS_FAST_SERIALIZER_SINGLE_ID_NODE_SIZE
  | UserContractStateTree => Some QMS_FAST_SERIALIZER_DOUBLE_ID_NODE_SIZE
  | IMTContractStateLeaf => Some QBLOB_IMT_LEAF_ENTRY_SIZE
  | TreeUnknown => None
  end.

(** ** Header *)
Definition QBLOB_TREE_NODE_BATCH_HEADER_SIZE : Z := 84.

Record QBlobMerkleTreeNodeBatchHeaderV1 : Type := mkHeader {
  hd_blob_magic : Z;
  hd_chain_id : Z;
  hd_total_size : Z;
  hd_created_by_node_id : Z;
  hd_created_at_seconds : Z;
  hd_blob_type : QBlobDataType;
  hd_tree_type : QBlobMerkleNodeTreeType;
  hd_realm_id : Z;
  hd_realm_sub_id : Z;
  hd_unique_pending_id : Z;
  hd_checkpoint_id : Z;
  hd_for_target_id : Z;
  hd_item_count : Z;
  hd_item_size : Z;
}.
Abbreviation header := QBlobMerkleTreeNodeBatchHeaderV1.

Record QBlobWriterContextMetadataHeader : Type := mkContext {
  cx_chain_id : Z;
  cx_created_by_node_id : Z;
  cx_created_at_seconds : Z;
  cx_realm_id : Z;
  cx_realm_sub_id : Z;
  cx_unique_pending_id : Z;
  cx_checkpoint_id : Z;
  cx_for_target_id : Z;
}.
Abbreviation context := QBlobWriterContextMetadataHeader.

(** [now] is the time of the system clock in seconds, an argument of the model. *)
Definition new_at_now (now chain_id created_by_node_id realm_id realm_sub_id unique_pending_id checkpoint_id
    for_target_id : Z) : context :=
  mkContext chain_id created_by_node_id (wrap 32 now) realm_id realm_sub_id unique_pending_id checkpoint_id for_target_id.

Definition new_id_header (blob_type : QBlobDataType) (item_size now : Z) (tree_type : QBlobMerkleNodeTreeType)
    (chain_id node_id realm_id realm_sub_id unique_pending_id for_target_id : Z) : header :=
  mkHeader QBLOB_STANDARD_V1_MAGIC_U32 chain_id 0 node_id (wrap 32 now) blob_type tree_type realm_id realm_sub_id
    unique_pending_id 0 for_target_id 0 item_size.

Definition new_double_id_header := new_id_header GenericDoubleIdMerkleNodeBatch QMS_FAST_SERIALIZER_DOUBLE_ID_NODE_SIZE.
Definition new_single_id_header := new_id_header GenericSingleIdMerkleNodeBatch QMS_FAST_SERIALIZER_SINGLE_ID_NODE_SIZE.
Definition new_zero_id_header := new_id_header GenericZeroIdMerkleNodeBatch QMS_FAST_SERIALIZER_ZERO_ID_NODE_SIZE.
Definition new_imt_leaf_header := new_id_header GenericIMTLeafBatch QBLOB_IMT_LEAF_ENTRY_SIZE.

Definition modify_for_final_count_and_size (h : header) (item_size final_item_count : Z) : header :=
  mkHeader (hd_blob_magic h) (hd_chain_id h)
    (wrap 64 (QBLOB_TREE_NODE_BATCH_HEADER_SIZE + wrap 64 (item_size * final_item_count)))
    (hd_created_by_node_id h) (hd_created_at_seconds h) (hd_blob_type h) (hd_tree_type h) (hd_realm_id h)
    (hd_realm_sub_id h) (hd_unique_pending_id h) (hd_checkpoint_id h) (hd_for_target_id h) final_item_count item_size.

Definition to_bytes_fixed_size_array (h : header) : list Z :=
  to_le_bytes 4 (hd_blob_magic h) ++ to_le_bytes 8 (hd_chain_id h) ++ to_le_bytes 8 (hd_total_size h) ++
  to_le_bytes 4 (hd_created_by_node_id h) ++ to_le_bytes 4 (hd_created_at_seconds h) ++
  to_le_bytes 2 (data_type_repr (hd_blob_type h)) ++ to_le_bytes 2 (tree_type_repr (hd_tree_type h)) ++
  to_le_bytes 8 (hd_realm_id h) ++ to_le_bytes 8 (hd_realm_sub_id h) ++ to_le_bytes 8 (hd_unique_pending_id h) ++
  to_le_bytes 8 (hd_checkpoint_id h) ++ to_le_bytes 8 (hd_for_target_id h) ++ to_le_bytes 8 (hd_item_count h) ++
  to_le_bytes 4 (hd_item_size h).

Definition try_read_header_from_slice (data : list Z) : outcome header :=
  let* _ := ensure (Z.of_nat (length data) =? QBLOB_TREE_NODE_BATCH_HEADER_SIZE) "Invalid slice length" in
  let* blob_type := ok_or (data_type_from_repr (from_le_bytes (slice 28 30 data))) "Invalid QBlobDataType value" in
  let* tree_type := ok_or (tree_type_from_repr (from_le_bytes (slice 30 32 data))) "Invalid QBlobMerkleNodeTreeType value" in
  Ok (mkHeader (from_le_bytes (slice 0 4 data)) (from_le_bytes (slice 4 12 data)) (from_le_bytes (slice 12 20 data))
        (from_le_bytes (slice 20 24 data)) (from_le_bytes (slice 24 28 data)) blob_type tree_type
        (from_le_bytes (slice 32 40 data)) (from_le_bytes (slice 40 48 data)) (from_le_bytes (slice 48 56 data))
        (from_le_bytes (slice 56 64 data)) (from_le_bytes (slice 64 72 data)) (from_le_bytes (slice 72 80 data))
        (from_le_bytes (slice 80 84 data))).

Definition is_header_valid (h : header) : bool :=
  (hd_blob_magic h =? QBLOB_STANDARD_V1_MAGIC_U32) &&
  is_valid_qblob_merkle_node_batch_type (hd_blob_type h) (hd_tree_type h) &&
  (0 <? hd_item_size h) &&
  (hd_total_size h =? wrap 64 (QBLOB_TREE_NODE_BATCH_HEADER_SIZE + wrap 64 (hd_item_count h * hd_item_size h))).

Definition payload_size (h : header) : Z := wrap 64 (hd_total_size h - QBLOB_TREE_NODE_BATCH_HEADER_SIZE).

(** A division by a size of zero panics. *)
Definition get_array_length (h : header) : outcome Z :=
  if hd_item_size h =? 0 then Panic
  else Ok (wrap 64 (hd_total_size h - QBLOB_TREE_NODE_BATCH_HEADER_SIZE) / hd_item_size h).

Definition is_valid_for_realm_context (h : header) (chain_id realm_id realm_sub_id unique_pending_id : Z) : bool :=
  is_header_valid h && (hd_chain_id h =? chain_id) && (hd_realm_id h =? realm_id) &&
  (hd_realm_sub_id h =? realm_sub_id) && (hd_unique_pending_id h =? unique_pending_id).

(** [expected.is_some() && found != expected.unwrap()], negated *)
Definition as_expected {A} `{EqDecision A} (expected : option A) (found : A) : bool :=
  match expected with None => true | Some a => bool_decide (found = a) end.

(** The checks that both ways to cut a blob make, in order. *)
Definition clip_header (full_data : list Z) (expected_blob_type : option QBlobDataType)
    (expected_tree_type : option QBlobMerkleNodeTreeType) (exact_size : bool) : outcome header :=
  let full_data_len := Z.of_nat (length full_data) in
  let* _ := ensure (QBLOB_TREE_NODE_BATCH_HEADER_SIZE <=? full_data_len) "Full data length is less than header size" in
  let* h := try_read_header_from_slice (take 84 full_data) in
  let* _ := ensure (is_header_valid h) "Invalid header in clip_header_get_payload" in
  let* _ := ensure (as_expected expected_blob_type (hd_blob_type h)) "Header blob_type does not match expected" in
  let* _ := ensure (as_expected expected_tree_type (hd_tree_type h)) "Header tree_type does not match expected" in
  let* expected_item_size := ok_or (get_item_size_for_data_type (hd_blob_type h)) "Could not determine expected item size" in
  let calculated_total_size :=
    wrap 64 (QBLOB_TREE_NODE_BATCH_HEADER_SIZE + wrap 64 (hd_item_count h * expected_item_size)) in
  let* _ :=
    if exact_size then
      let* _ := ensure (full_data_len =? hd_total_size h) "Full data length does not match total_size in header" in
      ensure (full_data_len =? calculated_total_size) "Full data length does not match calculated total size from header"
    else
      let* _ := ensure (hd_total_size h <=? full_data_len) "Full data length is less than total_size in header" in
      ensure (calculated_total_size <=? full_data_len)
        "Full data length is less than expected for header item_count and item_size" in
  let* _ := ensure (expected_item_size =? hd_item_size h) "Header item_size does not match expected" in
  Ok h.

(** [full_data.drain(0..84)] keeps everything after the header. *)
Definition clip_header_get_payload_internal (full_data : list Z) (expected_blob_type : option QBlobDataType)
    (expected_tree_type : option QBlobMerkleNodeTreeType) (exact_size : bool) : outcome (header * list Z) :=
  let* h := clip_header full_data expected_blob_type expected_tree_type exact_size in
  Ok (h, drop 84 full_data).

Definition clip_header_get_payload_internal_ref (full_data : list Z) (expected_blob_type : option QBlobDataType)
    (expected_tree_type : option QBlobMerkleNodeTreeType) (exact_size : bool) : outcome (header * list Z) :=
  let* h := clip_header full_data expected_blob_type expected_tree_type exact_size in
  let* payload := subslice full_data 84 (Z.to_nat (hd_total_size h)) in
  Ok (h, payload).

Definition clip_header_get_payload_for_blob_type_and_tree (full_data : list Z) (expected_blob_type : QBlobDataType)
    (expected_tree_type : QBlobMerkleNodeTreeType) (exact_size : bool) : outcome (header * list Z) :=
  clip_header_get_payload_internal full_data (Some expected_blob_type) (Some expected_tree_type) exact_size.

Definition clip_header_get_payload_for_blob_type_and_tree_ref (full_data : list Z) (expected_blob_type : QBlobDataType)
    (expected_tree_type : QBlobMerkleNodeTreeType) (exact_size : bool) : outcome (header * list Z) :=
  clip_header_get_payload_internal_ref full_data (Some expected_blob_type) (Some expected_tree_type) exact_size.

Definition clip_header_get_payload_with_remaining (full_data : list Z) (expected_blob_type : QBlobDataType)
    (expected_tree_type : QBlobMerkleNodeTreeType) : outcome (header * list Z * list Z) :=
  let* (h, payload) := clip_header_get_payload_for_blob_type_and_tree_ref full_data expected_blob_type
                          expected_tree_type false in
  let* remaining := subslice full_data (Z.to_nat (hd_total_size h)) (length full_data) in
  Ok (h, payload, remaining).

(** ** Data views *)
Definition header_from_context (blob_type : QBlobDataType) (tree_type : QBlobMerkleNodeTreeType) (cx : context)
    (total_size item_count item_size : Z) : header :=
  mkHeader QBLOB_STANDARD_V1_MAGIC_U32 (cx_chain_id cx) total_size (cx_created_by_node_id cx) (cx_created_at_seconds cx)
    blob_type tree_type (cx_realm_id cx) (cx_realm_sub_id cx) (cx_unique_pending_id cx) (cx_checkpoint_id cx)
    (cx_for_target_id cx) item_count item_size.

(** The headers the views write: for a number of items, and for none. *)
Definition header_from_context_and_counts (blob_type : QBlobDataType) (tree_type : QBlobMerkleNodeTreeType)
    (item_size : Z) (cx : context) (item_count : Z) : header :=
  header_from_context blob_type tree_type cx
    (wrap 64 (QBLOB_TREE_NODE_BATCH_HEADER_SIZE + wrap 64 (item_count * item_size))) item_count item_size.

Definition gen_empty_header_blob (blob_type : QBlobDataType) (tree_type : QBlobMerkleNodeTreeType) (item_size : Z)
    (cx : context) : list Z :=
  to_bytes_fixed_size_array
    (header_from_context blob_type tree_type cx QBLOB_TREE_NODE_BATCH_HEADER_SIZE 0 item_size).

Section view.
Context {Node : Type} `{FastFixedSerializable Node}.

Definition generate_node_batch_blob (blob_type : QBlobDataType) (tree_type : QBlobMerkleNodeTreeType) (cx : context)
    (nodes : list Node) : list Z :=
  let count := Z.of_nat (length nodes) in
  to_bytes_fixed_size_array
    (header_from_context blob_type tree_type cx
       (wrap 64 (QBLOB_TREE_NODE_BATCH_HEADER_SIZE + wrap 64 (count * FFS_SIZE Node))) count (FFS_SIZE Node)) ++
  concat (ffs_to_bytes <$> nodes).

Definition read_nth_node_from_batch_data_no_check (full_data : list Z) (index : Z) : outcome Node :=
  let offset := wrap 64 (QBLOB_TREE_NODE_BATCH_HEADER_SIZE + wrap 64 (index * FFS_SIZE Node)) in
  let e := wrap 64 (offset + FFS_SIZE Node) in
  let* _ := ensure (e <=? Z.of_nat (length full_data)) "Index out of bounds" in
  let* node_data := subslice full_data (Z.to_nat offset) (Z.to_nat e) in
  ffs_try_from_slice node_data.

(** [for i in 0..count], with [n] items left *)
Fixpoint read_nodes_loop (payload : list Z) (i n : nat) : outcome (list Node) :=
  match n with
  | O => Ok []
  | S n =>
      let offset := Z.of_nat i * FFS_SIZE Node in
      let* node_data := subslice payload (Z.to_nat offset) (Z.to_nat (offset + FFS_SIZE Node)) in
      let* node := ffs_try_from_slice node_data in
      let* nodes := read_nodes_loop payload (S i) n in
      Ok (node :: nodes)
  end.

Definition read_batch_nodes_from_checked_payload (payload : list Z) : outcome (list Node) :=
  let* x := rem (Z.of_nat (length payload)) (FFS_SIZE Node) in
  let* _ := ensure (x =? 0) "Payload size is not a multiple of node size" in
  read_nodes_loop payload 0 (Z.to_nat (Z.of_nat (length payload) / FFS_SIZE Node)).

(** [for blob in blobs { result.extend_from_slice(&blob[84..]) }] *)
Fixpoint concat_payloads (blobs : list (list Z)) : outcome (list Z) :=
  match blobs with
  | [] => Ok []
  | blob :: blobs =>
      let* payload := subslice blob 84 (length blob) in
      let* rest := concat_payloads blobs in
      Ok (payload ++ rest)
  end.

Definition combine_node_batch_blobs_unvalidated (blob_type : QBlobDataType) (tree_type : QBlobMerkleNodeTreeType)
    (blobs : list (list Z)) (cx : context) : outcome (list Z) :=
  let blob_len_sum := foldr (λ b n, wrap 64 (Z.of_nat (length b) + n)) 0 blobs in
  let headers := wrap 64 (Z.of_nat (length blobs) * QBLOB_TREE_NODE_BATCH_HEADER_SIZE) in
  let combined_payload_size := wrap 64 (blob_len_sum - headers) in
  match blobs with
  | [] => Ok (gen_empty_header_blob blob_type tree_type (FFS_SIZE Node) cx)
  | _ =>
      let* x := rem combined_payload_size (FFS_SIZE Node) in
      let* _ := ensure (x =? 0) "Combined payload size is not a multiple of node size" in
      let item_count := combined_payload_size / FFS_SIZE Node in
      if item_count =? 0 then Ok (gen_empty_header_blob blob_type tree_type (FFS_SIZE Node) cx)
      else
        let total_size := wrap 64 (wrap 64 (QBLOB_TREE_NODE_BATCH_HEADER_SIZE + blob_len_sum) - headers) in
        let* payload := concat_payloads blobs in
        Ok (to_bytes_fixed_size_array
              (header_from_context blob_type tree_type cx total_size item_count (FFS_SIZE Node)) ++ payload)
  end.
End view.
Arguments read_nth_node_from_batch_data_no_check Node {_}.
Arguments read_batch_nodes_from_checked_payload Node {_}.
Arguments combine_node_batch_blobs_unvalidated Node {_}.

(** *** The three views *)
Section views.
Context {Hash : Type} `{Q256BitHash Hash}.

Definition generate_zero_merkle_node_batch_blob_data_from_ref (cx : context) (tree_type : QBlobMerkleNodeTreeType)
    (nodes : list (SimpleMerkleNode Hash)) : list Z :=
  generate_node_batch_blob GenericZeroIdMerkleNodeBatch tree_type cx nodes.

Definition generate_single_merkle_node_batch_blob_data_from_ref (cx : context) (tree_type : QBlobMerkleNodeTreeType)
    (nodes : list (QMerkleStoreSingleIdNode Hash)) : list Z :=
  generate_node_batch_blob GenericSingleIdMerkleNodeBatch tree_type cx nodes.

Definition generate_double_merkle_node_batch_blob_data_from_ref (cx : context)
    (nodes : list (QMerkleStoreDoubleIdNode Hash)) : list Z :=
  generate_node_batch_blob GenericDoubleIdMerkleNodeBatch UserContractStateTree cx nodes.

(** [chain_id] stands for [PSY_CHAIN_ID_LOCAL_DEVNET], which the build generates. *)
Definition generate_double_merkle_node_batch_blob_data_from_ref_default_context (now chain_id : Z)
    (nodes : list (QMerkleStoreDoubleIdNode Hash)) : list Z :=
  generate_double_merkle_node_batch_blob_data_from_ref (new_at_now now chain_id 0 0 0 0 0 0) nodes.

Definition combine_zero_merkle_node_batch_blobs_unvalidated (blobs : list (list Z)) (cx : context)
    (tree_type : QBlobMerkleNodeTreeType) : outcome (list Z) :=
  combine_node_batch_blobs_unvalidated (SimpleMerkleNode Hash) GenericZeroIdMerkleNodeBatch tree_type blobs cx.

Definition combine_single_merkle_node_batch_blobs_unvalidated (blobs : list (list Z)) (cx : context)
    (tree_type : QBlobMerkleNodeTreeType) : outcome (list Z) :=
  combine_node_batch_blobs_unvalidated (QMerkleStoreSingleIdNode Hash) GenericSingleIdMerkleNodeBatch tree_type blobs cx.

Definition combine_double_merkle_node_batch_blobs_unvalidated (blobs : list (list Z)) (cx : context) : outcome (list Z) :=
  combine_node_batch_blobs_unvalidated (QMerkleStoreDoubleIdNode Hash) GenericDoubleIdMerkleNodeBatch
    UserContractStateTree blobs cx.
End views.

(** *** Checks against the context of a realm *)
Definition in_context (h : header) (chain_id realm_id realm_sub_id : Z) : bool :=
  (hd_chain_id h =? chain_id) && (hd_realm_id h =? realm_id) && (hd_realm_sub_id h =? realm_sub_id).

Definition in_pending_context (h : header) (chain_id realm_id realm_sub_id unique_pending_id : Z) : bool :=
  in_context h chain_id realm_id realm_sub_id && (hd_unique_pending_id h =? unique_pending_id).

(** A blob that was cut and whose header passes a check. *)
Definition checked (clip : outcome (header * list Z)) (ok : header → bool) : outcome (header * list Z) :=
  let* (h, payload) := clip in
  let* _ := ensure (ok h) "Header context does not match expected context" in
  Ok (h, payload).

(** The same, with the bytes after the blob. *)
Definition checked_remaining (data : list Z) (clip : outcome (header * list Z)) (ok : header → bool)
    : outcome (header * list Z * list Z) :=
  let* (h, payload) := checked clip ok in
  let* remaining := subslice data (Z.to_nat (hd_total_size h)) (length data) in
  Ok (h, payload, remaining).

Section validate.
Context (data : list Z) (chain_id realm_id realm_sub_id : Z).

Definition validate_zero_tree_nodes_get_clipped (unique_pending_id : Z) (tree_type : QBlobMerkleNodeTreeType)
    : outcome (header * list Z) :=
  checked (clip_header_get_payload_for_blob_type_and_tree data GenericZeroIdMerkleNodeBatch tree_type true)
    (λ h, in_pending_context h chain_id realm_id realm_sub_id unique_pending_id && bool_decide (hd_tree_type h = tree_type)).

Definition validate_zero_tree_nodes_get_clipped_ref (unique_pending_id : Z) (tree_type : QBlobMerkleNodeTreeType)
    : outcome (header * list Z) :=
  checked (clip_header_get_payload_for_blob_type_and_tree_ref data GenericZeroIdMerkleNodeBatch tree_type true)
    (λ h, in_pending_context h chain_id realm_id realm_sub_id unique_pending_id && bool_decide (hd_tree_type h = tree_type)).

Definition validate_single_tree_nodes_get_clipped (unique_pending_id : Z) (tree_type : QBlobMerkleNodeTreeType)
    : outcome (header * list Z) :=
  checked (clip_header_get_payload_for_blob_type_and_tree data GenericSingleIdMerkleNodeBatch tree_type true)
    (λ h, in_pending_context h chain_id realm_id realm_sub_id unique_pending_id && bool_decide (hd_tree_type h = tree_type)).

Definition validate_single_tree_nodes_get_clipped_any_unique_pending_id (tree_type : QBlobMerkleNodeTreeType)
    : outcome (header * list Z) :=
  checked (clip_header_get_payload_for_blob_type_and_tree data GenericSingleIdMerkleNodeBatch tree_type true)
    (λ h, in_context h chain_id realm_id realm_sub_id && bool_decide (hd_tree_type h = tree_type)).

Definition validate_single_tree_nodes_get_clipped_ref (unique_pending_id : Z) (tree_type : QBlobMerkleNodeTreeType)
    : outcome (header * list Z) :=
  checked (clip_header_get_payload_for_blob_type_and_tree_ref data GenericSingleIdMerkleNodeBatch tree_type true)
    (λ h, in_pending_context h chain_id realm_id realm_sub_id unique_pending_id && bool_decide (hd_tree_type h = tree_type)).

Definition validate_single_tree_nodes_get_clipped_ref_no_exact_size (unique_pending_id : Z)
    (tree_type : QBlobMerkleNodeTreeType) : outcome (header * list Z * list Z) :=
  checked_remaining data
    (clip_header_get_payload_for_blob_type_and_tree_ref data GenericSingleIdMerkleNodeBatch tree_type false)
    (λ h, in_pending_context h chain_id realm_id realm_sub_id unique_pending_id && bool_decide (hd_tree_type h = tree_type)).

Definition validate_single_tree_nodes_get_clipped_ref_no_exact_size_any_unique_pending_id
    (tree_type : QBlobMerkleNodeTreeType) : outcome (header * list Z * list Z) :=
  checked_remaining data
    (clip_header_get_payload_for_blob_type_and_tree_ref data GenericSingleIdMerkleNodeBatch tree_type false)
    (λ h, in_context h chain_id realm_id realm_sub_id && bool_decide (hd_tree_type h = tree_type)).

Definition validate_uct_nodes_get_clipped (unique_pending_id : Z) : outcome (header * list Z) :=
  checked (clip_header_get_payload_for_blob_type_and_tree data GenericDoubleIdMerkleNodeBatch UserContractStateTree true)
    (λ h, in_pending_context h chain_id realm_id realm_sub_id unique_pending_id).

Definition validate_cst_nodes_get_clipped_any_unique_pending_id : outcome (header * list Z) :=
  checked (clip_header_get_payload_for_blob_type_and_tree data GenericDoubleIdMerkleNodeBatch UserContractStateTree true)
    (λ h, in_context h chain_id realm_id realm_sub_id).

Definition validate_uct_nodes_get_clipped_ref (unique_pending_id : Z) : outcome (header * list Z) :=
  checked (clip_header_get_payload_for_blob_type_and_tree_ref data GenericDoubleIdMerkleNodeBatch UserContractStateTree true)
    (λ h, in_pending_context h chain_id realm_id realm_sub_id unique_pending_id).

Definition validate_cst_nodes_get_clipped_ref_any_unique_pending_id : outcome (header * list Z) :=
  checked (clip_header_get_payload_for_blob_type_and_tree_ref data GenericDoubleIdMerkleNodeBatch UserContractStateTree false)
    (λ h, in_context h chain_id realm_id realm_sub_id).

Definition validate_cst_nodes_get_clipped_ref_any_unique_pending_id_with_remaining : outcome (header * list Z * list Z) :=
  checked_remaining data
    (clip_header_get_payload_for_blob_type_and_tree_ref data GenericDoubleIdMerkleNodeBatch UserContractStateTree false)
    (λ h, in_context h chain_id realm_id realm_sub_id).
End validate.

(** ** Recorders

    The keys already written, the bytes written so far, and where the header of the
    recorder's own blob begins. The recorder of nodes without ids has no such offset:
    its header is at 0. *)
Record MerkleRecorder (K : Type) `{Countable K} : Type := mkRecorder {
  rec_map : gset K;
  rec_blob : list Z;
  rec_start_offset : Z;
}.
Arguments mkRecorder {K _ _}.
Arguments rec_map {K _ _}.
Arguments rec_blob {K _ _}.
Arguments rec_start_offset {K _ _}.

Abbreviation QBlobZeroIdMerkleRecorder := (MerkleRecorder SimpleMerkleNodeKey).
Abbreviation QBlobSingleIdMerkleRecorder := (MerkleRecorder QMerkleStoreSingleIdKey).
Abbreviation QBlobDoubleIdMerkleRecorder := (MerkleRecorder QMerkleStoreDoubleIdKey).

(** [blob[from..from + src.len()].copy_from_slice(src)] *)
Definition write_at (from : Z) (src blob : list Z) : outcome (list Z) :=
  if from + Z.of_nat (length src) <=? Z.of_nat (length blob)
  then Ok (take (Z.to_nat from) blob ++ src ++ drop (Z.to_nat from + length src) blob)
  else Panic.

Section recorder.
Context {K : Type} `{Countable K}.

Definition rec_new : MerkleRecorder K := mkRecorder ∅ [] 0.
Definition rec_new_with_blob (blob : list Z) : MerkleRecorder K := mkRecorder ∅ blob (Z.of_nat (length blob)).
Definition rec_new_from_blob_with_header (blob : list Z) : MerkleRecorder K :=
  mkRecorder ∅ (blob ++ replicate 84 0) (Z.of_nat (length blob)).
Definition rec_new_with_header : MerkleRecorder K := mkRecorder ∅ (replicate 84 0) 0.

Definition push (r : MerkleRecorder K) (bytes : list Z) : MerkleRecorder K :=
  mkRecorder (rec_map r) (rec_blob r ++ bytes) (rec_start_offset r).

(** [map.insert(key, true).is_none()] *)
Definition insert_key (r : MerkleRecorder K) (key : K) : bool * MerkleRecorder K :=
  (bool_decide (key ∉ rec_map r), mkRecorder ({[ key ]} ∪ rec_map r) (rec_blob r) (rec_start_offset r)).

(** [finalize_with_header]: the header over the bytes reserved for it. *)
Definition rec_finalize_with_header (blob_type : QBlobDataType) (tree_type : QBlobMerkleNodeTreeType) (item_size : Z)
    (r : MerkleRecorder K) (cx : context) : outcome (list Z) :=
  let size_without_header :=
    wrap 64 (wrap 64 (Z.of_nat (length (rec_blob r)) - rec_start_offset r) - QBLOB_TREE_NODE_BATCH_HEADER_SIZE) in
  let item_count := size_without_header / item_size in
  write_at (rec_start_offset r)
    (to_bytes_fixed_size_array (header_from_context_and_counts blob_type tree_type item_size cx item_count)) (rec_blob r).
End recorder.

Section record.
Context {K Node Hash : Type} `{Countable K, EqDecision Hash, MerkleHasher Hash, FastFixedSerializable Node}.
Context (mk_key : Z → Z → K) (mk_node : K → Hash → Node).

(** The [while] loop: [head] are the siblings up to [max_count] that are left, [tail]
    the siblings from [max_count] on. *)
Fixpoint record_loop (r : MerkleRecorder K) (level index : Z) (value : Hash) (head tail : list Hash)
    : Hash * MerkleRecorder K :=
  let key := mk_key level index in
  let '(should_record, r) := insert_key r key in
  if should_record then
    let r := push r (ffs_to_bytes (mk_node key value)) in
    match head with
    | s :: head =>
        record_loop r (wrap 8 (level - 1)) (u64_shr index 1) (two_to_one_swap (Z.land index 1 =? 1) value s) head tail
    | [] => (value, r)
    end
  else (compute_root_merkle_proof_generic value index (head ++ tail), r).

Definition record_merkle_root (r : MerkleRecorder K) (index level : Z) (value : Hash) (siblings : list Hash)
    : Hash * MerkleRecorder K :=
  let max_count := Nat.min (length siblings) (Z.to_nat level) in
  record_loop r level index value (take max_count siblings) (drop max_count siblings).

Definition record_delta_merkle_proof (leaf_level : Z) (proof : DeltaMerkleProofCore Hash)
    : stateful (MerkleRecorder K) Hash := λ r,
  if leaf_level <? Z.of_nat (length (dmp_siblings proof)) then (Err "leaf level is less than siblings length", r)
  else if negb (bool_decide (compute_root_merkle_proof_generic (old_value proof) (dmp_index proof) (dmp_siblings proof) = MerkleProof.old_root proof))
  then (Err "Delta merkle proof old root does not match computed old root", r)
  else
    let '(new_computed_root, r) :=
      record_merkle_root r (dmp_index proof) leaf_level (new_value proof) (dmp_siblings proof) in
    if negb (bool_decide (new_computed_root = MerkleProof.new_root proof))
    then (Err "Delta merkle proof new root does not match computed new root", r)
    else (Ok new_computed_root, r).
End record.

(** *** The three recorders *)
Section recorders.
Context {Hash : Type} `{EqDecision Hash, MerkleHasher Hash, Q256BitHash Hash}.

Definition zero_record_and_compute_merkle_root : QBlobZeroIdMerkleRecorder → Z → Z → Hash → list Hash →
    Hash * QBlobZeroIdMerkleRecorder :=
  record_merkle_root mkKey mkNode.
Definition single_record_and_compute_merkle_root (r : QBlobSingleIdMerkleRecorder) (tree_id : Z)
    : Z → Z → Hash → list Hash → Hash * QBlobSingleIdMerkleRecorder :=
  record_merkle_root (mkSingleKey tree_id) mkSingleNode r.
Definition double_record_and_compute_merkle_root (r : QBlobDoubleIdMerkleRecorder) (tree_id tree_sub_id : Z)
    : Z → Z → Hash → list Hash → Hash * QBlobDoubleIdMerkleRecorder :=
  record_merkle_root (mkDoubleIdKey tree_id tree_sub_id) mkDoubleNode r.

Definition zero_record_validate_delta_merkle_proof
    : Z → DeltaMerkleProofCore Hash → stateful QBlobZeroIdMerkleRecorder Hash :=
  record_delta_merkle_proof mkKey mkNode.
Definition single_record_validate_delta_merkle_proof (tree_id : Z)
    : Z → DeltaMerkleProofCore Hash → stateful QBlobSingleIdMerkleRecorder Hash :=
  record_delta_merkle_proof (mkSingleKey tree_id) mkSingleNode.
Definition double_record_validate_delta_merkle_proof (tree_id tree_sub_id : Z)
    : Z → DeltaMerkleProofCore Hash → stateful QBlobDoubleIdMerkleRecorder Hash :=
  record_delta_merkle_proof (mkDoubleIdKey tree_id tree_sub_id) mkDoubleNode.
End recorders.

Definition zero_finalize_with_header (r : QBlobZeroIdMerkleRecorder) (cx : context) (tree_type : QBlobMerkleNodeTreeType)
    : outcome (list Z) :=
  rec_finalize_with_header GenericZeroIdMerkleNodeBatch tree_type QMS_FAST_SERIALIZER_ZERO_ID_NODE_SIZE r cx.

Definition single_finalize_with_header (r : QBlobSingleIdMerkleRecorder) (cx : context) (tree_type : QBlobMerkleNodeTreeType)
    : outcome (list Z) :=
  rec_finalize_with_header GenericSingleIdMerkleNodeBatch tree_type QMS_FAST_SERIALIZER_SINGLE_ID_NODE_SIZE r cx.

Definition double_finalize_with_header (r : QBlobDoubleIdMerkleRecorder) (cx : context) : outcome (list Z) :=
  rec_finalize_with_header GenericDoubleIdMerkleNodeBatch UserContractStateTree QMS_FAST_SERIALIZER_DOUBLE_ID_NODE_SIZE r cx.

(** The blob of one recorder is continued by the next. *)
Definition finalize_with_header_into_double (r : QBlobSingleIdMerkleRecorder) (cx : context)
    (tree_type : QBlobMerkleNodeTreeType) : outcome QBlobDoubleIdMerkleRecorder :=
  let* blob := single_finalize_with_header r cx tree_type in
  Ok (rec_new_from_blob_with_header blob).

(** ** The blob of a whole tree *)
Section leaves.
Context {Hash : Type} `{MerkleHasher Hash, !ZeroableHash Hash, !MerkleZeroHasher Hash, Q256BitHash Hash}.

Definition single_node (tree_id level index : Z) (value : Hash) : QMerkleStoreSingleIdNode Hash :=
  mkSingleNode (mkSingleKey tree_id level index) value.

(** One level: the nodes that are written and the hashes of the level above. The last
    node of an odd level is paired with [zero], which is not written. *)
Fixpoint leaf_level_pass (tree_id level : Z) (zero : Hash) (i : Z) (hashes : list Hash)
    : list (QMerkleStoreSingleIdNode Hash) * list Hash :=
  match hashes with
  | left_hash :: right_hash :: hashes =>
      let '(nodes, parents) := leaf_level_pass tree_id level zero (i + 1) hashes in
      (single_node tree_id level (i * 2) left_hash :: single_node tree_id level (i * 2 + 1) right_hash :: nodes,
       two_to_one left_hash right_hash :: parents)
  | [left_hash] => ([single_node tree_id level (i * 2) left_hash], [two_to_one left_hash zero])
  | [] => ([], [])
  end.

(** [while level > 0] *)
Fixpoint leaf_levels_loop (tree_id : Z) (tree_height level : nat) (hashes : list Hash)
    : list (QMerkleStoreSingleIdNode Hash) * list Hash :=
  match level with
  | O => ([], hashes)
  | S l =>
      let '(nodes, parents) :=
        leaf_level_pass tree_id (Z.of_nat level) (get_zero_hash (tree_height - level)) 0 hashes in
      let '(rest, top) := leaf_levels_loop tree_id tree_height l parents in
      (nodes ++ rest, top)
  end.

Definition generate_single_merkle_node_blob_from_leaves (tree_id : Z) (leaves : list Hash) : outcome (Hash * list Z) :=
  match leaves with
  | [] => Ok (get_zero_hash 0, [])
  | [leaf] => Ok (leaf, ffs_to_bytes (single_node tree_id 0 0 leaf))
  | _ =>
      let tree_height := Z.to_nat (wrap 8 (log2_ceil (Z.of_nat (length leaves)))) in
      let '(nodes, top) := leaf_levels_loop tree_id tree_height tree_height leaves in
      let* root_hash := unwrap (top !! 0%nat) in
      Ok (root_hash, concat (ffs_to_bytes <$> nodes) ++ ffs_to_bytes (single_node tree_id 0 0 root_hash))
  end.
End leaves.
