(* ===== verification/BlobFormat.v ===== *)
(** * Blobs read back what was written

    Theorems on the format of [Qblob]: headers and nodes are read back exactly, blobs
    that follow each other are cut where they were joined, blobs of one kind combine
    into one, and where the checks on the sizes of a header are not enough. *)
From stdpp Require Import prelude list gmap strings.
From Stdlib Require Import ZArith Lia.
From S2P Require Import Prelude MerkleKey MerkleHash MerkleProof Wire Serialize ByteOrder Codecs Qblob.

(** ** Fields of fixed width *)
Lemma array_le n x : array_ok (Z.of_nat n) (to_le_bytes n x).
Proof. split; [by rewrite length_to_le_bytes|apply bytes_to_le_bytes]. Qed.

Lemma le_back n w x : w = 8 * Z.of_nat n → is_uint w x → from_le_bytes (to_le_bytes n x) = x.
Proof. intros ->. apply from_to_le_bytes. Qed.

(** Cut a concatenation of fields back into its fields. *)
Ltac field_length := first [apply length_to_le_bytes | apply length_hash].

Ltac cut_slices :=
  repeat match goal with
  | |- context [slice 0 ?n (?x ++ ?y)] => rewrite (slice_head n x y) by field_length
  | |- context [slice ?n ?m (to_le_bytes ?k ?x ++ ?y)] =>
      rewrite (slice_tail k n m (to_le_bytes k x) y) by (field_length || lia); cbn [Nat.sub]
  | |- context [slice ?n ?m (into_owned_32bytes ?x ++ ?y)] =>
      rewrite (slice_tail 32 n m (into_owned_32bytes x) y) by (field_length || lia); cbn [Nat.sub]
  | |- context [slice 0 ?n ?x] => rewrite (slice_all n x) by field_length
  end.

Ltac join_arrays := repeat apply array_app; apply array_le || apply hash_array.

(** ** Nodes *)
Section nodes.
Context {Hash : Type} `{Hash32 Hash}.

Definition key_bytes_ok (k : SimpleMerkleNodeKey) : Prop := is_uint 8 (level k) ∧ is_uint 64 (index k).
Definition zero_node_ok (n : SimpleMerkleNode Hash) : Prop := key_bytes_ok (node_key n).
Definition single_node_ok (n : QMerkleStoreSingleIdNode Hash) : Prop :=
  is_uint 64 (sk_tree_id (sn_key n)) ∧ is_uint 8 (sk_level (sn_key n)) ∧ is_uint 64 (sk_index (sn_key n)).
Definition double_node_ok (n : QMerkleStoreDoubleIdNode Hash) : Prop :=
  is_uint 64 (dik_tree_id (dn_key n)) ∧ is_uint 64 (dik_tree_sub_id (dn_key n)) ∧
  is_uint 8 (dik_level (dn_key n)) ∧ is_uint 64 (dik_index (dn_key n)).

#[global] Instance zero_node_fixed : FixedLaws (SimpleMerkleNode Hash) zero_node_ok.
Proof.
  split; [done|..]; intros [[l i] v] [Hl Hi]; cbn [ffs_to_bytes ffs_from_owned_bytes FFS_SIZE zero_node_ffs node_key node_value level index].
  - change 41 with (Z.of_nat 1 + (Z.of_nat 8 + 32)). join_arrays.
  - cut_slices. by rewrite !(le_back 8 64), (le_back 1 8), hash_of_bytes.
Qed.

#[global] Instance single_node_fixed : FixedLaws (QMerkleStoreSingleIdNode Hash) single_node_ok.
Proof.
  split; [done|..]; intros [[t l i] v] (Ht & Hl & Hi);
    cbn [ffs_to_bytes ffs_from_owned_bytes FFS_SIZE single_node_ffs sn_key sn_value sk_tree_id sk_level sk_index].
  - change 49 with (Z.of_nat 8 + (Z.of_nat 1 + (Z.of_nat 8 + 32))). join_arrays.
  - cut_slices. by rewrite !(le_back 8 64), (le_back 1 8), hash_of_bytes.
Qed.

#[global] Instance double_node_fixed : FixedLaws (QMerkleStoreDoubleIdNode Hash) double_node_ok.
Proof.
  split; [done|..]; intros [[t u l i] v] (Ht & Hu & Hl & Hi);
    cbn [ffs_to_bytes ffs_from_owned_bytes FFS_SIZE double_node_ffs dn_key dn_value dik_tree_id dik_tree_sub_id dik_level dik_index].
  - change 57 with (Z.of_nat 8 + (Z.of_nat 8 + (Z.of_nat 1 + (Z.of_nat 8 + 32)))). join_arrays.
  - cut_slices. by rewrite !(le_back 8 64), (le_back 1 8), hash_of_bytes.
Qed.
End nodes.

(** ** Headers *)
Definition header_ok (h : header) : Prop :=
  is_uint 32 (hd_blob_magic h) ∧ is_uint 64 (hd_chain_id h) ∧ is_uint 64 (hd_total_size h) ∧
  is_uint 32 (hd_created_by_node_id h) ∧ is_uint 32 (hd_created_at_seconds h) ∧ is_uint 64 (hd_realm_id h) ∧
  is_uint 64 (hd_realm_sub_id h) ∧ is_uint 64 (hd_unique_pending_id h) ∧ is_uint 64 (hd_checkpoint_id h) ∧
  is_uint 64 (hd_for_target_id h) ∧ is_uint 64 (hd_item_count h) ∧ is_uint 32 (hd_item_size h).

Lemma data_type_back t : data_type_from_repr (from_le_bytes (to_le_bytes 2 (data_type_repr t))) = Some t.
Proof. by destruct t. Qed.

Lemma tree_type_back t : tree_type_from_repr (from_le_bytes (to_le_bytes 2 (tree_type_repr t))) = Some t.
Proof. by destruct t. Qed.

Lemma data_type_only x t : data_type_from_repr x = Some t → data_type_repr t = x.
Proof. unfold data_type_from_repr. repeat case_match; intros; by simplify_eq. Qed.

Lemma tree_type_only x t : tree_type_from_repr x = Some t → tree_type_repr t = x.
Proof. unfold tree_type_from_repr. repeat case_match; intros; by simplify_eq. Qed.

Lemma header_array h : array_ok 84 (to_bytes_fixed_size_array h).
Proof.
  change 84 with (Z.of_nat 4 + (Z.of_nat 8 + (Z.of_nat 8 + (Z.of_nat 4 + (Z.of_nat 4 + (Z.of_nat 2 + (Z.of_nat 2 +
    (Z.of_nat 8 + (Z.of_nat 8 + (Z.of_nat 8 + (Z.of_nat 8 + (Z.of_nat 8 + (Z.of_nat 8 + Z.of_nat 4))))))))))))).
  unfold to_bytes_fixed_size_array. repeat apply array_app; apply array_le.
Qed.

Lemma length_header h : length (to_bytes_fixed_size_array h) = 84%nat.
Proof. destruct (header_array h). lia. Qed.

Ltac header_fields :=
  cbn [hd_blob_magic hd_chain_id hd_total_size hd_created_by_node_id hd_created_at_seconds hd_blob_type hd_tree_type
       hd_realm_id hd_realm_sub_id hd_unique_pending_id hd_checkpoint_id hd_for_target_id hd_item_count hd_item_size] in *.

Lemma header_read h : header_ok h → try_read_header_from_slice (to_bytes_fixed_size_array h) = Ok h.
Proof.
  intros Hh. unfold try_read_header_from_slice. rewrite length_header. cbn [ensure Z.eqb]. 
  destruct h as [f1 f2 f3 f4 f5 bt tt' f8 f9 f10 f11 f12 f13 f14]. unfold header_ok in Hh. cbn in Hh.
  destruct_and! Hh. unfold to_bytes_fixed_size_array.
  header_fields. cut_slices. rewrite data_type_back, tree_type_back. cbn [ok_or outcome_bind].
  by rewrite !(le_back 8 64), !(le_back 4 32).
Qed.

Lemma length_slice from to (b : list Z) : (from ≤ to ≤ length b)%nat → length (slice from to b) = (to - from)%nat.
Proof. intros. unfold slice. rewrite length_take, length_drop. lia. Qed.

Lemma bytes_slice from to b : bytes b → bytes (slice from to b).
Proof. intros. unfold slice. by apply Forall_take, Forall_drop. Qed.

Lemma slice_join a m n (b : list Z) : (a ≤ m ≤ n)%nat → slice a m b ++ slice m n b = slice a n b.
Proof.
  intros Hm. unfold slice. replace (n - a)%nat with ((m - a) + (n - m))%nat by lia.
  rewrite <- take_take_drop, drop_drop. do 3 f_equal. lia.
Qed.

Lemma le_slice n from to b :
  bytes b → (from ≤ to ≤ length b)%nat → (to - from = n)%nat →
  to_le_bytes n (from_le_bytes (slice from to b)) = slice from to b ∧
  is_uint (8 * Z.of_nat n) (from_le_bytes (slice from to b)).
Proof.
  intros Hb Hl <-. pose proof (bytes_slice from to b Hb) as Hs. pose proof (length_slice from to b Hl) as E.
  rewrite <- E. split; [by apply to_from_le_bytes|]. by apply from_le_bytes_range.
Qed.

(** A header is read from one string of bytes only. *)
Lemma header_bytes b h :
  bytes b → try_read_header_from_slice b = Ok h → header_ok h ∧ to_bytes_fixed_size_array h = b.
Proof.
  intros Hb E. unfold try_read_header_from_slice in E. outcome_inv.
  assert (Hlen : length b = 84%nat) by (unfold QBLOB_TREE_NODE_BATCH_HEADER_SIZE in *; lia).
  assert (Hf : ∀ n from to, (from ≤ to ≤ 84)%nat → (to - from = n)%nat →
    to_le_bytes n (from_le_bytes (slice from to b)) = slice from to b ∧
    is_uint (8 * Z.of_nat n) (from_le_bytes (slice from to b))) by (intros; apply le_slice; [done|lia|done]).
  split.
  - unfold header_ok. header_fields. split_and!; first [apply (Hf 8%nat); lia | apply (Hf 4%nat); lia].
  - unfold to_bytes_fixed_size_array. header_fields.
    repeat match goal with
    | E : data_type_from_repr _ = Some _ |- _ => apply data_type_only in E; rewrite E; clear E
    | E : tree_type_from_repr _ = Some _ |- _ => apply tree_type_only in E; rewrite E; clear E
    end.
    repeat match goal with |- context [to_le_bytes ?n (from_le_bytes (slice ?f ?t b))] =>
      rewrite (proj1 (Hf n f t ltac:(lia) ltac:(lia))) end.
    rewrite !slice_join by lia. unfold slice. rewrite drop_0. apply take_ge. lia.
Qed.

Definition context_ok (cx : context) : Prop :=
  is_uint 64 (cx_chain_id cx) ∧ is_uint 32 (cx_created_by_node_id cx) ∧ is_uint 32 (cx_created_at_seconds cx) ∧
  is_uint 64 (cx_realm_id cx) ∧ is_uint 64 (cx_realm_sub_id cx) ∧ is_uint 64 (cx_unique_pending_id cx) ∧
  is_uint 64 (cx_checkpoint_id cx) ∧ is_uint 64 (cx_for_target_id cx).

(** ** Blobs *)
Section blob.
Context {Node : Type} `{FixedLaws Node wf}.
Context (bt : QBlobDataType) (tt : QBlobMerkleNodeTreeType).
Hypothesis size_of_type : get_item_size_for_data_type bt = Some (FFS_SIZE Node).
Hypothesis type_pair : is_valid_qblob_merkle_node_batch_type bt tt = true.
Hypothesis size_small : FFS_SIZE Node < 2 ^ 32.

Definition blob_header (cx : context) (count : Z) : header := header_from_context_and_counts bt tt (FFS_SIZE Node) cx count.
Definition payload (nodes : list Node) : list Z := concat (ffs_to_bytes <$> nodes).

(** The size of a blob of so many nodes. *)
Definition blob_size (n : nat) : Z := 84 + Z.of_nat n * FFS_SIZE Node.

Lemma generate_eq cx nodes :
  generate_node_batch_blob bt tt cx nodes =
  to_bytes_fixed_size_array (blob_header cx (Z.of_nat (length nodes))) ++ payload nodes.
Proof. done. Qed.

Lemma length_payload nodes : Forall wf nodes → Z.of_nat (length (payload nodes)) = Z.of_nat (length nodes) * FFS_SIZE Node.
Proof.
  induction 1 as [|n nodes Hn Hns IH]; [done|]. unfold payload in *. cbn [fmap list_fmap concat length].
  destruct (ffs_array n Hn) as [Hl _]. rewrite length_app. lia.
Qed.

Lemma bytes_payload nodes : Forall wf nodes → bytes (payload nodes).
Proof.
  induction 1 as [|n nodes Hn Hns IH]; [constructor|]. unfold payload in *. cbn [fmap list_fmap concat].
  apply Forall_app. split; [by apply ffs_array|done].
Qed.

Lemma total_size_fits n : blob_size n < 2 ^ 64 → wrap 64 (84 + wrap 64 (Z.of_nat n * FFS_SIZE Node)) = blob_size n.
Proof.
  intros Hf. pose proof ffs_size_pos. unfold blob_size in *.
  rewrite !wrap_small; [done|..]; rewrite ?wrap_small; nia.
Qed.

Lemma blob_header_ok cx n : context_ok cx → blob_size n < 2 ^ 64 → header_ok (blob_header cx (Z.of_nat n)).
Proof.
  intros Hcx Hf. pose proof ffs_size_pos. unfold context_ok in Hcx. destruct_and! Hcx. unfold header_ok, blob_header.
  unfold header_from_context_and_counts, header_from_context, QBLOB_TREE_NODE_BATCH_HEADER_SIZE. header_fields.
  rewrite total_size_fits by done. unfold blob_size in Hf.
  split_and!; try assumption; unfold is_uint in *; unfold blob_size, QBLOB_STANDARD_V1_MAGIC_U32; lia || nia.
Qed.

Lemma blob_header_valid cx n : blob_size n < 2 ^ 64 → is_header_valid (blob_header cx (Z.of_nat n)) = true.
Proof.
  intros Hf. pose proof ffs_size_pos. unfold is_header_valid, blob_header, header_from_context_and_counts, header_from_context.
  header_fields. rewrite type_pair, !Z.eqb_refl. rewrite (proj2 (Z.ltb_lt _ _)) by done. done.
Qed.

Lemma clip_generated cx nodes rest exact :
  context_ok cx → Forall wf nodes → blob_size (length nodes) < 2 ^ 64 → (exact = true → rest = []) →
  clip_header (generate_node_batch_blob bt tt cx nodes ++ rest) (Some bt) (Some tt) exact =
    Ok (blob_header cx (Z.of_nat (length nodes))).
Proof.
  intros Hcx Hn Hf Hr. rewrite generate_eq, <- app_assoc. set (h := blob_header cx (Z.of_nat (length nodes))).
  assert (Hl : Z.of_nat (length (to_bytes_fixed_size_array h ++ payload nodes ++ rest)) =
    blob_size (length nodes) + Z.of_nat (length rest)).
  { rewrite !length_app, length_header. pose proof (length_payload nodes Hn). unfold blob_size. lia. }
  pose proof ffs_size_pos. unfold clip_header. rewrite Hl. rewrite take_app_length' by by rewrite length_header.
  rewrite (proj2 (Z.leb_le _ _)) by (unfold blob_size, QBLOB_TREE_NODE_BATCH_HEADER_SIZE; nia). cbn [ensure outcome_bind].
  rewrite header_read by by apply blob_header_ok. cbn [outcome_bind]. unfold h at 1. rewrite blob_header_valid by done.
  cbn [ensure outcome_bind as_expected].
  change (hd_blob_type h) with bt. change (hd_tree_type h) with tt. rewrite !bool_decide_true by done.
  cbn [ensure outcome_bind]. rewrite size_of_type. cbn [ok_or outcome_bind].
  change (hd_item_count h) with (Z.of_nat (length nodes)). change (hd_item_size h) with (FFS_SIZE Node).
  change (hd_total_size h) with (wrap 64 (84 + wrap 64 (Z.of_nat (length nodes) * FFS_SIZE Node))).
  unfold QBLOB_TREE_NODE_BATCH_HEADER_SIZE. rewrite total_size_fits, Z.eqb_refl by done. destruct exact.
  - rewrite Hr by done. cbn [length]. rewrite Z.add_0_r, Z.eqb_refl. done.
  - rewrite (proj2 (Z.leb_le _ _)) by lia. done.
Qed.

Lemma hd_total cx n : blob_size n < 2 ^ 64 → hd_total_size (blob_header cx (Z.of_nat n)) = blob_size n.
Proof. apply total_size_fits. Qed.

Lemma length_generated cx nodes :
  Forall wf nodes → Z.of_nat (length (generate_node_batch_blob bt tt cx nodes)) = blob_size (length nodes).
Proof.
  intros Hn. rewrite generate_eq, length_app, length_header. pose proof (length_payload nodes Hn). unfold blob_size. lia.
Qed.

Lemma payload_of_generated cx nodes rest :
  Forall wf nodes →
  subslice (generate_node_batch_blob bt tt cx nodes ++ rest) 84 (Z.to_nat (blob_size (length nodes))) = Ok (payload nodes).
Proof.
  intros Hn. pose proof (length_payload nodes Hn) as Hl. pose proof ffs_size_pos.
  assert (E : Z.to_nat (blob_size (length nodes)) = (84 + length (payload nodes))%nat) by (unfold blob_size; lia).
  unfold subslice. rewrite E, generate_eq, <- app_assoc. rewrite decide_True.
  2: { rewrite !length_app, length_header. lia. }
  rewrite drop_app_length' by by rewrite length_header. by rewrite take_app_length' by lia.
Qed.

Lemma rest_of_generated cx nodes rest :
  Forall wf nodes →
  subslice (generate_node_batch_blob bt tt cx nodes ++ rest) (Z.to_nat (blob_size (length nodes)))
    (length (generate_node_batch_blob bt tt cx nodes ++ rest)) = Ok rest.
Proof.
  intros Hn. rewrite <- (length_generated cx nodes Hn), Nat2Z.id. unfold subslice.
  rewrite decide_True by (rewrite length_app; lia). rewrite drop_app_length, take_ge; [done|]. rewrite length_app. lia.
Qed.

Lemma payload_app ns ns' : payload (ns ++ ns') = payload ns ++ payload ns'.
Proof. unfold payload. by rewrite fmap_app, concat_app. Qed.

Lemma read_node n : wf n → ffs_try_from_slice (ffs_to_bytes n) = Ok n.
Proof.
  intros Hn. unfold ffs_try_from_slice. destruct (ffs_array n Hn) as [-> _]. rewrite Z.eqb_refl. cbn [negb].
  by rewrite ffs_roundtrip.
Qed.

(** The bytes of one node of a payload. *)
Lemma payload_slice pre n post :
  Forall wf (pre ++ n :: post) →
  subslice (payload (pre ++ n :: post)) (Z.to_nat (Z.of_nat (length pre) * FFS_SIZE Node))
    (Z.to_nat (Z.of_nat (length pre) * FFS_SIZE Node + FFS_SIZE Node)) = Ok (ffs_to_bytes n).
Proof.
  intros Hf. apply Forall_app in Hf as [Hpre Hf]. apply Forall_cons in Hf as [Hn Hpost].
  pose proof (length_payload pre Hpre) as Hl. destruct (ffs_array n Hn) as [Hs _]. pose proof ffs_size_pos.
  rewrite <- Hl, <- Hs, payload_app. rewrite Nat2Z.id, Z2Nat.inj_add, !Nat2Z.id by lia.
  change (payload (n :: post)) with (ffs_to_bytes n ++ payload post). unfold subslice.
  rewrite decide_True by (rewrite !length_app; lia).
  rewrite drop_app_length, Nat.add_sub', take_app_length. done.
Qed.

Lemma read_nodes_payload post : ∀ pre,
  Forall wf (pre ++ post) → read_nodes_loop (payload (pre ++ post)) (length pre) (length post) = Ok post.
Proof.
  induction post as [|n post IH]; intros pre Hf; [done|]. cbn [length read_nodes_loop].
  rewrite payload_slice by done. cbn [outcome_bind]. rewrite read_node by (apply Forall_app in Hf as [_ Hf]; by apply Forall_cons in Hf as [? _]).
  cbn [outcome_bind]. specialize (IH (pre ++ [n])). rewrite <- app_assoc, length_app, Nat.add_1_r in IH.
  cbn [app] in IH. by rewrite IH.
Qed.

Lemma read_payload nodes : Forall wf nodes → read_batch_nodes_from_checked_payload Node (payload nodes) = Ok nodes.
Proof.
  intros Hn. pose proof ffs_size_pos. unfold read_batch_nodes_from_checked_payload, rem.
  rewrite length_payload, Z.mod_mul, Z.div_mul, Nat2Z.id by (done || lia).
  rewrite (proj2 (Z.eqb_neq _ _)) by lia. cbn [outcome_bind ensure Z.eqb]. by apply (read_nodes_payload nodes []).
Qed.

Lemma read_nth_generated cx pre n post :
  Forall wf (pre ++ n :: post) → blob_size (length (pre ++ n :: post)) < 2 ^ 64 →
  read_nth_node_from_batch_data_no_check Node (generate_node_batch_blob bt tt cx (pre ++ n :: post))
    (Z.of_nat (length pre)) = Ok n.
Proof.
  intros Hf Hs. pose proof ffs_size_pos. unfold read_nth_node_from_batch_data_no_check, QBLOB_TREE_NODE_BATCH_HEADER_SIZE.
  assert (Hb : blob_size (length pre) + FFS_SIZE Node ≤ blob_size (length (pre ++ n :: post)))
    by (unfold blob_size; rewrite length_app; cbn [length]; nia).
  rewrite total_size_fits, wrap_small, length_generated by (done || unfold blob_size in *; nia).
  rewrite (proj2 (Z.leb_le _ _)) by done. cbn [ensure outcome_bind]. rewrite generate_eq.
  assert (E : Z.to_nat (blob_size (length pre)) = (84 + Z.to_nat (Z.of_nat (length pre) * FFS_SIZE Node))%nat)
    by (unfold blob_size; lia).
  assert (E' : Z.to_nat (blob_size (length pre) + FFS_SIZE Node) =
    (84 + Z.to_nat (Z.of_nat (length pre) * FFS_SIZE Node + FFS_SIZE Node))%nat) by (unfold blob_size; lia).
  pose proof (payload_slice pre n post Hf) as Hp. unfold subslice in *.
  pose proof (length_payload _ Hf) as Hlp. rewrite length_app in Hlp. cbn [length] in Hlp.
  rewrite decide_True in Hp by (split; [lia|]; nia). injection Hp as Hp.
  rewrite E, E', decide_True by (rewrite length_app, length_header; split; [lia|nia]).
  rewrite <- drop_drop, drop_app_length' by by rewrite length_header.
  match goal with |- context [take ?k _] =>
    replace k with (Z.to_nat (Z.of_nat (length pre) * FFS_SIZE Node + FFS_SIZE Node) -
                    Z.to_nat (Z.of_nat (length pre) * FFS_SIZE Node))%nat by lia end.
  rewrite Hp. cbn [outcome_bind]. apply read_node. apply Forall_app in Hf as [_ Hf]. by apply Forall_cons in Hf as [? _].
Qed.
End blob.

(** ** Combining blobs *)
Section combine.
Context {Node : Type} `{FixedLaws Node wf}.
Context (bt : QBlobDataType) (tt : QBlobMerkleNodeTreeType).

Definition blobs_of (parts : list (context * list Node)) : list (list Z) :=
  (λ '(cx, nodes), generate_node_batch_blob bt tt cx nodes) <$> parts.
Definition nodes_of (parts : list (context * list Node)) : list Node := concat parts.*2.

Lemma concat_generated parts : concat_payloads (blobs_of parts) = Ok (payload (nodes_of parts)).
Proof.
  induction parts as [|[cx ns] parts IH]; [done|]. cbn [blobs_of fmap list_fmap concat_payloads].
  unfold subslice. rewrite generate_eq. rewrite decide_True by (rewrite length_app, length_header; lia).
  rewrite drop_app_length' by by rewrite length_header. rewrite take_ge by (rewrite length_app, length_header; lia).
  cbn [outcome_bind]. unfold blobs_of in IH. rewrite IH. cbn [outcome_bind].
  unfold nodes_of. cbn [fmap list_fmap concat snd]. by rewrite payload_app.
Qed.

Lemma sum_lengths parts :
  Forall wf (nodes_of parts) →
  Z.of_nat (length parts) * 84 + Z.of_nat (length (nodes_of parts)) * FFS_SIZE Node < 2 ^ 64 →
  foldr (λ b n, wrap 64 (Z.of_nat (length b) + n)) 0 (blobs_of parts) =
    Z.of_nat (length parts) * 84 + Z.of_nat (length (nodes_of parts)) * FFS_SIZE Node.
Proof.
  pose proof ffs_size_pos. induction parts as [|[cx ns] parts IH]; intros Hw Hf; [done|].
  unfold nodes_of in *. cbn [fmap list_fmap concat snd blobs_of foldr length] in *.
  apply Forall_app in Hw as [Hns Hw]. rewrite length_app in *. unfold blobs_of in IH. rewrite IH by (done || nia).
  rewrite length_generated by done. unfold blob_size. rewrite wrap_small; nia.
Qed.

(** Combining blobs of one kind gives the blob of all their nodes, in order, under the
    new context; the contexts of the parts are dropped without a check. *)
Lemma combine_generated cx parts :
  Forall wf (nodes_of parts) →
  Z.of_nat (length parts) * 84 + blob_size (Node := Node) (length (nodes_of parts)) < 2 ^ 64 →
  combine_node_batch_blobs_unvalidated Node bt tt (blobs_of parts) cx =
    Ok (generate_node_batch_blob bt tt cx (nodes_of parts)).
Proof.
  intros Hw Hf. pose proof (ffs_size_pos (A := Node)) as Hpos. unfold blob_size in Hf.
  unfold combine_node_batch_blobs_unvalidated, QBLOB_TREE_NODE_BATCH_HEADER_SIZE. cbv zeta.
  assert (Hl : length (blobs_of parts) = length parts) by apply length_fmap.
  rewrite sum_lengths, Hl by (done || nia). clear Hl.
  set (n := Z.of_nat (length (nodes_of parts))) in *. set (k := Z.of_nat (length parts)) in *.
  assert (Hk : wrap 64 (k * 84) = k * 84) by (apply wrap_small; nia). rewrite Hk.
  assert (Hp : wrap 64 (k * 84 + n * FFS_SIZE Node - k * 84) = n * FFS_SIZE Node) by (rewrite wrap_small; nia).
  rewrite Hp. unfold rem. rewrite (proj2 (Z.eqb_neq (FFS_SIZE Node) 0)) by lia. rewrite Z.mod_mul, Z.div_mul by lia.
  cbn [outcome_bind ensure Z.eqb]. rewrite concat_generated. cbn [outcome_bind].
  rewrite generate_eq. unfold blob_header, header_from_context_and_counts, gen_empty_header_blob, QBLOB_TREE_NODE_BATCH_HEADER_SIZE.
  fold n. assert (Ht : wrap 64 (84 + wrap 64 (n * FFS_SIZE Node)) = 84 + n * FFS_SIZE Node)
    by (apply total_size_fits; unfold blob_size; fold n; nia).
  destruct parts as [|p parts]; [by rewrite Ht|]. cbn [blobs_of fmap list_fmap].
  destruct (Z.eqb_spec n 0) as [E|Hne].
  - assert (nodes_of (p :: parts) = []) as -> by (apply length_zero_iff_nil; unfold n in E; lia).
    rewrite Ht, E. rewrite Z.mul_0_l, app_nil_r. done.
  - rewrite Ht. rewrite (wrap_small 64 (84 + _)) by nia. rewrite wrap_small by nia. do 4 f_equal. lia.
Qed.
End combine.

(** ** The views *)
Lemma own_context cx (h : header) bt tt size n :
  h = header_from_context_and_counts bt tt size cx n →
  in_context h (cx_chain_id cx) (cx_realm_id cx) (cx_realm_sub_id cx) = true ∧
  in_pending_context h (cx_chain_id cx) (cx_realm_id cx) (cx_realm_sub_id cx) (cx_unique_pending_id cx) = true.
Proof. intros ->. unfold in_pending_context, in_context. cbn. by rewrite !Z.eqb_refl. Qed.

Lemma own_pending_tree cx bt tt size n :
  let h := header_from_context_and_counts bt tt size cx n in
  in_pending_context h (cx_chain_id cx) (cx_realm_id cx) (cx_realm_sub_id cx) (cx_unique_pending_id cx) &&
    bool_decide (hd_tree_type h = tt) = true.
Proof. intros h. rewrite (proj2 (own_context cx h bt tt size n eq_refl)). by apply bool_decide_true. Qed.

Lemma checked_ok clip h p ok : clip = Ok (h, p) → ok h = true → checked clip ok = Ok (h, p).
Proof. intros -> E. unfold checked. cbn. by rewrite E. Qed.

Lemma checked_err clip h p ok : clip = Ok (h, p) → ok h = false → ∃ msg, checked clip ok = Err msg.
Proof. intros -> E. unfold checked. cbn. rewrite E. by eexists. Qed.

Lemma other_context cx bt tt size n chain realm sub pending :
  (chain, realm, sub, pending) ≠ (cx_chain_id cx, cx_realm_id cx, cx_realm_sub_id cx, cx_unique_pending_id cx) →
  in_pending_context (header_from_context_and_counts bt tt size cx n) chain realm sub pending = false.
Proof.
  intros Hne. apply not_true_is_false. unfold in_pending_context, in_context. cbn.
  rewrite !andb_true_iff, !Z.eqb_eq. intros [[[<- <-] <-] <-]. by apply Hne.
Qed.

Lemma checked_remaining_ok data clip h p rest ok :
  clip = Ok (h, p) → ok h = true → subslice data (Z.to_nat (hd_total_size h)) (length data) = Ok rest →
  checked_remaining data clip ok = Ok (h, p, rest).
Proof. intros Ec Eo Er. unfold checked_remaining. rewrite (checked_ok clip h p ok Ec Eo). cbn [outcome_bind]. by rewrite Er. Qed.

Lemma checked_remaining_err data clip h p ok :
  clip = Ok (h, p) → ok h = false → ∃ msg, checked_remaining data clip ok = Err msg.
Proof.
  intros Ec Eo. destruct (checked_err clip h p ok Ec Eo) as [msg E]. exists msg. unfold checked_remaining. by rewrite E.
Qed.

Lemma other_chain_context cx bt tt size n chain realm sub :
  (chain, realm, sub) ≠ (cx_chain_id cx, cx_realm_id cx, cx_realm_sub_id cx) →
  in_context (header_from_context_and_counts bt tt size cx n) chain realm sub = false.
Proof.
  intros Hne. apply not_true_is_false. unfold in_context. cbn.
  rewrite !andb_true_iff, !Z.eqb_eq. intros [[<- <-] <-]. by apply Hne.
Qed.

Section views.
Context {Node : Type} `{FixedLaws Node wf}.
Context (bt : QBlobDataType) (tt : QBlobMerkleNodeTreeType).
Hypothesis size_of_type : get_item_size_for_data_type bt = Some (FFS_SIZE Node).
Hypothesis type_pair : is_valid_qblob_merkle_node_batch_type bt tt = true.
Hypothesis size_small : FFS_SIZE Node < 2 ^ 32.

Lemma clip_exact cx nodes :
  context_ok cx → Forall wf nodes → blob_size (Node := Node) (length nodes) < 2 ^ 64 →
  let blob := generate_node_batch_blob bt tt cx nodes in
  let r := Ok (blob_header (Node := Node) bt tt cx (Z.of_nat (length nodes)), payload nodes) in
  clip_header_get_payload_for_blob_type_and_tree blob bt tt true = r ∧
  clip_header_get_payload_for_blob_type_and_tree_ref blob bt tt true = r.
Proof.
  intros Hcx Hn Hf blob r. subst r.
  pose proof (clip_generated bt tt size_of_type type_pair size_small cx nodes [] true Hcx Hn Hf ltac:(done)) as Hc.
  rewrite app_nil_r in Hc. fold blob in Hc.
  pose proof (payload_of_generated bt tt cx nodes [] Hn) as Hp. rewrite app_nil_r in Hp. fold blob in Hp.
  unfold clip_header_get_payload_for_blob_type_and_tree, clip_header_get_payload_for_blob_type_and_tree_ref.
  unfold clip_header_get_payload_internal, clip_header_get_payload_internal_ref. rewrite Hc. cbn [outcome_bind]. split.
  - unfold blob. rewrite generate_eq, drop_app_length' by by rewrite length_header. done.
  - rewrite hd_total by done. by rewrite Hp.
Qed.

Lemma clip_remaining cx nodes rest :
  context_ok cx → Forall wf nodes → blob_size (Node := Node) (length nodes) < 2 ^ 64 →
  let data := generate_node_batch_blob bt tt cx nodes ++ rest in
  let h := blob_header (Node := Node) bt tt cx (Z.of_nat (length nodes)) in
  clip_header_get_payload_for_blob_type_and_tree_ref data bt tt false = Ok (h, payload nodes) ∧
  subslice data (Z.to_nat (hd_total_size h)) (length data) = Ok rest.
Proof.
  intros Hcx Hn Hf data h.
  pose proof (clip_generated bt tt size_of_type type_pair size_small cx nodes rest false Hcx Hn Hf ltac:(done)) as Hc.
  unfold clip_header_get_payload_for_blob_type_and_tree_ref, clip_header_get_payload_internal_ref, data.
  rewrite Hc. cbn [outcome_bind]. unfold h. rewrite hd_total by done.
  by rewrite (payload_of_generated bt tt cx nodes rest Hn), (rest_of_generated bt tt cx nodes rest Hn).
Qed.
End views.

(** C37: blobs of zero-id, single-id and double-id nodes are read back by the
    receiving functions exactly as they were written, also when a single-id blob, a
    double-id blob and further bytes follow each other. A zero-id or single-id blob of
    another chain, realm, sub-realm or pending id is an error, and so is a double-id blob
    of another chain, realm or sub-realm; the reader of double-id blobs takes no pending
    id and accepts any. The blobs hold well-formed nodes under a context and tree types
    that fit their fields, and their sizes fit 64 bits. *)
Theorem blobs_read_back `{Hash32 Hash} (cx : context) (zt st : QBlobMerkleNodeTreeType)
    (zeros : list (SimpleMerkleNode Hash)) (singles : list (QMerkleStoreSingleIdNode Hash))
    (doubles : list (QMerkleStoreDoubleIdNode Hash)) (rest : list Z) :
  context_ok cx →
  is_valid_qblob_merkle_node_batch_type GenericZeroIdMerkleNodeBatch zt = true →
  is_valid_qblob_merkle_node_batch_type GenericSingleIdMerkleNodeBatch st = true →
  Forall zero_node_ok zeros → Forall single_node_ok singles → Forall double_node_ok doubles →
  84 + Z.of_nat (length zeros + length singles + length doubles) * 57 < 2 ^ 64 →
  let chain := cx_chain_id cx in let realm := cx_realm_id cx in let sub := cx_realm_sub_id cx in
  let pending := cx_unique_pending_id cx in
  (∃ h p, let blob := generate_zero_merkle_node_batch_blob_data_from_ref cx zt zeros in
     validate_zero_tree_nodes_get_clipped blob chain realm sub pending zt = Ok (h, p) ∧
     validate_zero_tree_nodes_get_clipped_ref blob chain realm sub pending zt = Ok (h, p) ∧
     read_batch_nodes_from_checked_payload (SimpleMerkleNode Hash) p = Ok zeros) ∧
  (∃ h p h' p', let tail := generate_double_merkle_node_batch_blob_data_from_ref cx doubles ++ rest in
     validate_single_tree_nodes_get_clipped_ref_no_exact_size
       (generate_single_merkle_node_batch_blob_data_from_ref cx st singles ++ tail) chain realm sub pending st =
       Ok (h, p, tail) ∧
     read_batch_nodes_from_checked_payload (QMerkleStoreSingleIdNode Hash) p = Ok singles ∧
     validate_cst_nodes_get_clipped_ref_any_unique_pending_id_with_remaining tail chain realm sub = Ok (h', p', rest) ∧
     read_batch_nodes_from_checked_payload (QMerkleStoreDoubleIdNode Hash) p' = Ok doubles) ∧
  (∀ chain' realm' sub' pending', (chain', realm', sub', pending') ≠ (chain, realm, sub, pending) →
     let zero_blob := generate_zero_merkle_node_batch_blob_data_from_ref cx zt zeros in
     let single_blob := generate_single_merkle_node_batch_blob_data_from_ref cx st singles in
     (∃ msg, validate_zero_tree_nodes_get_clipped zero_blob chain' realm' sub' pending' zt = Err msg) ∧
     (∃ msg, validate_zero_tree_nodes_get_clipped_ref zero_blob chain' realm' sub' pending' zt = Err msg) ∧
     (∃ msg, validate_single_tree_nodes_get_clipped_ref_no_exact_size (single_blob ++ rest) chain' realm' sub' pending' st = Err msg)) ∧
  (∀ chain' realm' sub', (chain', realm', sub') ≠ (chain, realm, sub) →
     ∃ msg, validate_cst_nodes_get_clipped_ref_any_unique_pending_id_with_remaining
       (generate_double_merkle_node_batch_blob_data_from_ref cx doubles ++ rest) chain' realm' sub' = Err msg).
Proof.
  intros Hcx Hzt Hst Hz Hs Hd Hf chain realm sub pending.
  destruct (clip_exact (Node := SimpleMerkleNode Hash) GenericZeroIdMerkleNodeBatch zt ltac:(done) Hzt ltac:(done) cx zeros Hcx Hz)
    as [E1 E2]; [unfold blob_size; cbn [FFS_SIZE zero_node_ffs]; lia|].
  assert (Hn : blob_size (Node := QMerkleStoreSingleIdNode Hash) (length singles) < 2 ^ 64)
    by (unfold blob_size; cbn [FFS_SIZE single_node_ffs]; lia).
  assert (E5 := clip_remaining (Node := QMerkleStoreSingleIdNode Hash) GenericSingleIdMerkleNodeBatch st
    ltac:(done) Hst ltac:(done) cx singles).
  destruct (clip_remaining (Node := QMerkleStoreDoubleIdNode Hash) GenericDoubleIdMerkleNodeBatch UserContractStateTree ltac:(done) ltac:(done) ltac:(done) cx doubles rest Hcx Hd)
      as [E3 E4]; [unfold blob_size; cbn [FFS_SIZE double_node_ffs]; lia|].
  split_and!.
  - eexists _, _. cbv zeta. split_and!.
    + apply checked_ok; [exact E1|]. by apply own_pending_tree.
    + apply checked_ok; [exact E2|]. by apply own_pending_tree.
    + by apply read_payload.
  - set (tail := generate_double_merkle_node_batch_blob_data_from_ref cx doubles ++ rest).
    destruct (E5 tail Hcx Hs Hn) as [E6 E7]. eexists _, _, _, _. cbv zeta. split_and!.
    + apply checked_remaining_ok; [exact E6|by apply own_pending_tree|exact E7].
    + by apply read_payload.
    + apply checked_remaining_ok; [exact E3|by apply own_context with (bt := GenericDoubleIdMerkleNodeBatch) (tt := UserContractStateTree) (size := 57) (n := Z.of_nat (length doubles))|exact E4].
    + by apply read_payload.
  - intros chain' realm' sub' pending' Hne. destruct (E5 rest Hcx Hs Hn) as [E6 _]. cbv zeta. split_and!.
    + eapply checked_err; [exact E1|]. apply andb_false_iff. left. by apply other_context.
    + eapply checked_err; [exact E2|]. apply andb_false_iff. left. by apply other_context.
    + eapply checked_remaining_err; [exact E6|]. apply andb_false_iff. left. by apply other_context.
  - intros chain' realm' sub' Hne. eapply checked_remaining_err; [exact E3|]. by apply other_chain_context.
Qed.

Definition demo_context : context := mkContext 7 1 1000 2 3 4 5 6.

(** One node of each kind, and bytes after the blobs. *)
Lemma blobs_read_back_witness :
  let zeros := [mkNode (mkKey 3 5) true] in
  ∃ h p, validate_zero_tree_nodes_get_clipped (generate_zero_merkle_node_batch_blob_data_from_ref demo_context GlobalUserTree zeros)
      7 2 3 4 GlobalUserTree = Ok (h, p) ∧
    read_batch_nodes_from_checked_payload (SimpleMerkleNode bool) p = Ok zeros.
Proof.
  intros zeros.
  destruct (blobs_read_back demo_context GlobalUserTree UserContractTree zeros [mkSingleNode (mkSingleKey 9 3 5) false]
              [mkDoubleNode (mkDoubleIdKey 9 8 3 5) true] [1; 2]) as ((h & p & E1 & _ & E2) & _ & _).
  - unfold context_ok, is_uint. cbn. lia.
  - done.
  - done.
  - repeat constructor; cbn; lia.
  - repeat constructor; cbn; lia.
  - repeat constructor; cbn; lia.
  - cbn. lia.
  - exists h, p. split; [exact E1|exact E2].
Defined.

Lemma clip_header_sizes data bt tt exact h :
  clip_header data bt tt exact = Ok h →
  hd_total_size h ≤ Z.of_nat (length data) ∧ (exact = true → 84 ≤ hd_total_size h).
Proof.
  unfold clip_header, QBLOB_TREE_NODE_BATCH_HEADER_SIZE. intros E. destruct exact; outcome_inv; split; try done; lia.
Qed.

Lemma clip_header_graceful data bt tt exact : graceful (clip_header data bt tt exact).
Proof.
  assert (Hh : ∀ d, graceful (try_read_header_from_slice d)) by (intros; unfold try_read_header_from_slice; graceful).
  unfold clip_header. graceful.
Qed.

(** The clipping function of borrowed blobs panics exactly when the size need
    not be exact and the header, whose own size check is modulo [2^64], gives a total
    size below the header's 84 bytes; such a header exists. *)
Theorem clip_panics_iff (data : list Z) (bt : option QBlobDataType) (tt : option QBlobMerkleNodeTreeType) (exact : bool) :
  (clip_header_get_payload_internal_ref data bt tt exact = Panic ↔
     exact = false ∧ ∃ h, clip_header data bt tt false = Ok h ∧ hd_total_size h < 84) ∧
  (∃ forged, bytes forged ∧ length forged = 84%nat ∧
     clip_header_get_payload_internal_ref forged (Some GenericDoubleIdMerkleNodeBatch) (Some UserContractStateTree) false = Panic).
Proof.
  split.
  - unfold clip_header_get_payload_internal_ref. destruct (clip_header data bt tt exact) as [h|e| |] eqn:E; cbn [outcome_bind].
    + destruct (clip_header_sizes _ _ _ _ _ E) as [Hle Hex]. unfold subslice. case_decide as Hd; cbn [outcome_bind].
      * split; [done|]. intros [-> (h' & E' & Hlt)]. assert (h' = h) as -> by congruence. lia.
      * split; [|done]. intros _. destruct exact; [specialize (Hex eq_refl); lia|]. split; [done|]. exists h. split; [done|lia].
    + split; [done|]. intros [-> (h & E' & _)]. by rewrite E in E'.
    + pose proof (clip_header_graceful data bt tt exact) as Hg. by rewrite E in Hg.
    + pose proof (clip_header_graceful data bt tt exact) as Hg. by rewrite E in Hg.
  - exists (to_bytes_fixed_size_array (mkHeader QBLOB_STANDARD_V1_MAGIC_U32 7 0 0 0 GenericDoubleIdMerkleNodeBatch
      UserContractStateTree 2 3 4 0 0 4854406335186724108 57)). split_and!; [apply header_array|apply length_header|].
    vm_compute. reflexivity.
Qed.
