(* ===== verification/BlobRecorder.v ===== *)
(** * Recorders write the final tree

    Theorems on the recorders of [Qblob]. Fed with the delta proofs of a sequence of
    updates, the last first, a recorder writes every node on the path of an updated leaf
    once, with its hash in the final tree; and the blob of a whole tree holds its nodes. *)
From stdpp Require Import prelude list gmap strings.
From Stdlib Require Import ZArith Lia.
From S2P Require Import Prelude MerkleKey MerkleHash MerkleProof Spiderman MemTree LeafUpdates Wire Serialize ByteOrder Codecs Qblob BlobFormat.

Section recorder.
Context {K Node Hash : Type} `{Countable K, EqDecision Hash, MerkleHasher Hash, FastFixedSerializable Node}.
Context (mk_key : Z → Z → K) (mk_node : K → Hash → Node).
Hypothesis mk_key_inj : ∀ l i l' i', mk_key l i = mk_key l' i' → l = l' ∧ i = i'.
Context (h : nat) (Hh : (h ≤ 64)%nat).
Implicit Types (r : MerkleRecorder K) (k a : SimpleMerkleNodeKey) (ks : list SimpleMerkleNodeKey) (t f : Z → Hash).

Definition the_key k : K := mk_key (level k) (index k).

(** The node of a tree. *)
Definition tree_entry f k : Node := mk_node (the_key k) (spec_node (Z.of_nat h) f k).

(** The recorder began with [base] and wrote the nodes [ks] of the tree over [f]. *)
Definition wrote f (base : list Z) ks r : Prop :=
  rec_blob r = base ++ concat (ffs_to_bytes <$> (tree_entry f <$> ks)) ∧
  (∀ k, the_key k ∈ rec_map r ↔ k ∈ ks) ∧ NoDup ks ∧ Forall key_wf ks.

(** With a node, its ancestors: from a level up. *)
Definition closed_above (n : Z) ks : Prop :=
  ∀ k a, k ∈ ks → level k ≤ n → 0 ≤ level a → ancestor a k → a ∈ ks.

Lemma the_key_inj k a : the_key k = the_key a → k = a.
Proof. intros [? ?]%mk_key_inj. by apply key_eq. Qed.

Lemma wrote_push f base ks r k :
  wrote f base ks r → key_wf k → k ∉ ks →
  wrote f base (ks ++ [k]) (push (mkRecorder ({[ the_key k ]} ∪ rec_map r) (rec_blob r) (rec_start_offset r)) (ffs_to_bytes (tree_entry f k))).
Proof.
  intros (Hb & Hm & Hn & Hf) Hwf Hk. split_and!.
  - cbn. rewrite Hb, !fmap_app, concat_app, <- app_assoc. cbn. by rewrite app_nil_r.
  - intros a. cbn. rewrite elem_of_union, elem_of_singleton, Hm, elem_of_app, list_elem_of_singleton. split.
    + intros [?%the_key_inj|?]; [by right|by left].
    + intros [?| ->]; [by right|by left].
  - apply NoDup_app. split_and!; [done| |apply NoDup_singleton]. intros a Ha ->%list_elem_of_singleton. done.
  - apply Forall_app. by split; [|constructor].
Qed.

(** The recorder with a key more. *)
Definition with_key r k : MerkleRecorder K :=
  mkRecorder ({[ the_key k ]} ∪ rec_map r) (rec_blob r) (rec_start_offset r).

Lemma wrote_known f base ks r k : wrote f base ks r → k ∈ ks → wrote f base ks (with_key r k).
Proof.
  intros (Hb & Hm & Hn & Hf) Hk. split_and!; [done| |done|done]. intros a. cbn. rewrite elem_of_union, elem_of_singleton, Hm.
  split; [intros [->%the_key_inj|?]; done|by right].
Qed.

(** At a node that was written before, the rest of the path gives the root. *)
Lemma record_loop_known t n k r :
  key_wf k → level k = Z.of_nat n → (n ≤ h)%nat → the_key k ∈ rec_map r →
  record_loop mk_key mk_node r (level k) (index k) (spec_node (Z.of_nat h) t k) (node_siblings h t n (index k)) [] =
    (tree_node t h 0, with_key r k).
Proof.
  intros Hk Hl Hn Hin. assert (Hdec : bool_decide (the_key k ∉ rec_map r) = false) by (apply bool_decide_eq_false; tauto).
  unfold the_key in Hdec. destruct (node_siblings h t n (index k)) eqn:Es; cbn [record_loop insert_key];
    rewrite Hdec, app_nil_r, <- Es, node_siblings_root by done; done.
Qed.

(** The loop climbs from [k] and stops at the first node that was written before. *)
Lemma record_loop_spec t f base n : ∀ k ks r,
  key_wf k → level k = Z.of_nat n → (n ≤ h)%nat → wrote f base ks r → closed_above (Z.of_nat n) ks →
  (∀ a, 0 ≤ level a → ancestor a k → a ∉ ks → spec_node (Z.of_nat h) f a = spec_node (Z.of_nat h) t a) →
  ∃ r' new,
    record_loop mk_key mk_node r (level k) (index k) (spec_node (Z.of_nat h) t k) (node_siblings h t n (index k)) [] =
      (tree_node t h 0, r') ∧
    wrote f base (ks ++ new) r' ∧ rec_start_offset r' = rec_start_offset r ∧
    (∀ a, 0 ≤ level a → a ∈ ks ++ new ↔ a ∈ ks ∨ ancestor a k).
Proof.
  induction n as [|n IH]; intros k ks r Hk Hl Hn Hw Hc Hv; pose proof Hw as (_ & Hm & _ & _);
    (destruct (decide (k ∈ ks)) as [Hin|Hin];
     [exists (with_key r k), []; rewrite app_nil_r, record_loop_known by (done || by apply Hm); split_and!;
      [done|by apply wrote_known|done|]; intros a Ha; split; [by left|intros [?|Hanc]; [done|]];
      eapply Hc; [exact Hin|lia|done|done]|]);
    (assert (Hdec : bool_decide (mk_key (level k) (index k) ∉ rec_map r) = true)
       by (apply bool_decide_eq_true; unfold the_key in Hm; by rewrite Hm));
    (assert (Heq : spec_node (Z.of_nat h) f k = spec_node (Z.of_nat h) t k)
       by (apply Hv; [lia|apply ancestor_refl|done]));
    pose proof (wrote_push f base ks r k Hw Hk Hin) as Hw'; unfold tree_entry in Hw'; rewrite Heq in Hw'.
  - eexists _, [k]. split_and!; [|exact Hw'|done|].
    + unfold node_siblings, tree_siblings, siblings_from. cbn [seq fmap list_fmap record_loop insert_key]. rewrite Hdec.
      f_equal. rewrite (key_wf_level0 k Hk Hl). unfold spec_node. cbn. f_equal. lia.
    + intros a Ha. rewrite elem_of_app, list_elem_of_singleton. split.
      * intros [?| ->]; [by left|right; apply ancestor_refl].
      * intros [?|Hanc]; [by left|right]. apply ancestor_same_level; [done|]. destruct Hanc. lia.
  - rewrite node_siblings_S by done. cbn [record_loop insert_key]. rewrite Hdec.
    rewrite spec_node_step, (wrap_small 8), <- (level_parent k) by (done || lia || destruct Hk; lia).
    assert (u64_shr (index k) 1 = index (parent k)) as ->
      by (rewrite index_parent by lia; unfold u64_shr; by rewrite Z.shiftr_div_pow2 by done).
    replace (index k / 2) with (index (parent k)) by (rewrite index_parent; lia).
    destruct (IH (parent k) (ks ++ [k]) _ (key_wf_parent k Hk) ltac:(rewrite level_parent; lia) ltac:(lia) Hw')
      as (r' & new & E & Hw2 & Hs & Hset).
    + intros a b [Ha| ->%list_elem_of_singleton]%elem_of_app Hla Hlb Hanc; [|lia].
      apply elem_of_app. left. eapply Hc; [exact Ha|lia|done|done].
    + intros a Ha Hanc Hni. apply Hv; [done|by eapply ancestor_trans, ancestor_parent|].
      intros ?. apply Hni, elem_of_app. by left.
    + exists r', (k :: new). rewrite cons_middle, app_assoc. split_and!; [exact E|exact Hw2|by rewrite Hs|].
      intros a Ha. rewrite Hset, elem_of_app, list_elem_of_singleton by done. split.
      * intros [[?| ->]|Hanc]; [by left|right; apply ancestor_refl|right]. by eapply ancestor_trans, ancestor_parent.
      * intros [?|Hanc]; [by left; left|]. destruct (decide (level a = level k)) as [El|El].
        -- left. right. by apply ancestor_same_level.
        -- right. apply ancestor_of_parent; [destruct Hanc; lia|done].
Qed.

(** ** Proofs in reverse order *)

(** The nodes on the paths of some updates. *)
Definition on_paths (us : list (Z * Hash)) a : Prop := ∃ i v, (i, v) ∈ us ∧ ancestor a (mkKey (Z.of_nat h) i).

(** The recorder holds exactly the nodes on the paths of [us], as in the tree over [f]. *)
Definition recorded f (base : list Z) us r : Prop :=
  ∃ ks, wrote f base ks r ∧ ∀ a, 0 ≤ level a → a ∈ ks ↔ on_paths us a.

(** Recording the proof of a change: the nodes that were not written yet are appended. *)
Lemma wrote_step t f base ks us i v r :
  0 ≤ i < 2 ^ Z.of_nat h → f = apply_updates (update t i v) us → wrote f base ks r →
  (∀ a, 0 ≤ level a → a ∈ ks ↔ on_paths us a) →
  ∃ r' new, record_delta_merkle_proof mk_key mk_node (Z.of_nat h) (from_params i (t i) v (tree_siblings t h i)) r =
      (Ok (tree_node (update t i v) h 0), r') ∧
    wrote f base (ks ++ new) r' ∧ (∀ a, 0 ≤ level a → a ∈ ks ++ new ↔ on_paths ((i, v) :: us) a) ∧
    rec_start_offset r' = rec_start_offset r.
Proof.
  intros Hi Hf Hw Hks. pose proof (key_wf_leaf h i Hh Hi) as Hk.
  destruct (record_loop_spec (update t i v) f base h (mkKey (Z.of_nat h) i) ks r) as (r' & new & E & Hw' & Hs & Hset); try done.
  - intros k a Hin Hl Ha Hanc. apply Hks; [done|]. apply Hks in Hin as (i' & v' & Hin & Hanc'); [|destruct Hanc; lia].
    exists i', v'. split; [done|]. by eapply ancestor_trans.
  - intros a Ha Hanc Hni. rewrite Hf. apply spec_node_untouched; [by eapply ancestor_wf|destruct Hanc; done|].
    intros i' v' Hin Hanc'. apply Hni, Hks; [done|]. by exists i', v'.
  - exists r', new. split_and!; [|done| |done].
    + unfold record_delta_merkle_proof, record_merkle_root, from_params. cbn [dmp_siblings old_value dmp_index MerkleProof.old_root new_value MerkleProof.new_root].
      rewrite length_tree_siblings. rewrite (proj2 (Z.ltb_ge _ _)) by lia. rewrite bool_decide_true by done. cbn [negb].
      rewrite Nat2Z.id, Nat.min_id, take_ge, drop_ge by (rewrite length_tree_siblings; lia).
      cbn [level index] in E. rewrite spec_node_leaf, update_eq, node_siblings_leaf, tree_siblings_update in E.
      rewrite E. rewrite bool_decide_true by (by rewrite compute_root_update). done.
    + intros a Ha. rewrite Hset, Hks by done. unfold on_paths. split.
      * intros [(i' & v' & ? & ?)|?]; [exists i', v'; split; [by right|done]|exists i, v; split; [left|done]].
      * intros (i' & v' & [[= -> ->]|?]%elem_of_cons & ?); [by right|left; by exists i', v'].
Qed.

Lemma recorded_step t f base us i v r :
  0 ≤ i < 2 ^ Z.of_nat h → f = apply_updates (update t i v) us → recorded f base us r →
  ∃ r', record_delta_merkle_proof mk_key mk_node (Z.of_nat h) (from_params i (t i) v (tree_siblings t h i)) r =
      (Ok (tree_node (update t i v) h 0), r') ∧
    recorded f base ((i, v) :: us) r' ∧ rec_start_offset r' = rec_start_offset r.
Proof.
  intros Hi Hf (ks & Hw & Hks). destruct (wrote_step t f base ks us i v r Hi Hf Hw Hks) as (r' & new & E & Hw' & Hset & Hs).
  exists r'. split_and!; [done| |done]. by exists (ks ++ new).
Qed.

Definition record_proofs (ps : list (DeltaMerkleProofCore Hash)) : stateful (MerkleRecorder K) (list Hash) :=
  mapM (record_delta_merkle_proof mk_key mk_node (Z.of_nat h)) ps.

Lemma record_reversed us : ∀ t us' base r,
  updates_in h us → recorded (apply_updates t (us ++ us')) base us' r →
  ∃ r', record_proofs (reverse (deltas h t us)) r = (Ok (MerkleProof.new_root <$> reverse (deltas h t us)), r') ∧
    recorded (apply_updates t (us ++ us')) base (us ++ us') r' ∧ rec_start_offset r' = rec_start_offset r.
Proof.
  induction us as [|[i v] us IH] using rev_ind; intros t us' base r Hu Hr; [by exists r|].
  apply Forall_app in Hu as [Hu Hi]. apply Forall_cons in Hi as [Hi _]. cbn in Hi.
  rewrite deltas_app. cbn [deltas]. rewrite reverse_snoc. set (t' := apply_updates t us).
  rewrite <- app_assoc in Hr |- *. cbn [app] in *.
  destruct (recorded_step t' (apply_updates t (us ++ (i, v) :: us')) base us' i v r Hi) as (r1 & E1 & Hr1 & Hs1).
  { by rewrite apply_updates_app. }
  { done. }
  destruct (IH t ((i, v) :: us') base r1 Hu Hr1) as (r2 & E2 & Hr2 & Hs2).
  exists r2. split_and!; [|done|congruence]. unfold record_proofs in *. cbn [mapM fmap list_fmap].
  rewrite (bind_run _ _ _ _ _ E1), (bind_run _ _ _ _ _ E2). cbn.
  by rewrite compute_root_update.
Qed.

Lemma recorded_fresh f r : (∀ k, the_key k ∉ rec_map r) → recorded f (rec_blob r) [] r.
Proof.
  intros Hfresh. exists []. split; [split_and!|].
  - cbn. by rewrite app_nil_r.
  - intros k. split; [intros ?; by destruct (Hfresh k)|by intros ?%elem_of_nil].
  - apply NoDup_nil_2.
  - constructor.
  - intros a _. split; [by intros ?%elem_of_nil|]. by intros (? & ? & ?%elem_of_nil & _).
Qed.

(** The nodes from a leaf up to the root. *)
Definition leaf_path (i : Z) : list SimpleMerkleNodeKey :=
  (λ l, mkKey (Z.of_nat l) (i / 2 ^ (Z.of_nat h - Z.of_nat l))) <$> seq 0 (S h).

Lemma elem_of_leaf_path a i : 0 ≤ level a → ancestor a (mkKey (Z.of_nat h) i) → a ∈ leaf_path i.
Proof.
  intros Ha [Hl Hi]. cbn in Hl, Hi. apply list_elem_of_fmap. exists (Z.to_nat (level a)).
  rewrite elem_of_seq. split; [|lia]. apply key_eq; cbn; [lia|]. rewrite Hi. do 2 f_equal. lia.
Qed.

(** At most a path per update is written. *)
Lemma recorded_length f base us ks r :
  wrote f base ks r → (∀ a, 0 ≤ level a → a ∈ ks ↔ on_paths us a) → (length ks ≤ S h * length us)%nat.
Proof.
  intros (_ & _ & Hn & Hwf) Hks.
  assert (Hsub : ks ⊆+ concat ((λ u, leaf_path u.1) <$> us)).
  { apply NoDup_submseteq; [done|]. intros a Ha. pose proof (proj1 (Forall_forall _ _) Hwf a Ha) as [Hl _].
    apply Hks in Ha as (i & v & Hin & Hanc); [|lia]. apply list_elem_of_In, in_concat.
    exists (leaf_path i). split; apply list_elem_of_In; [|apply elem_of_leaf_path; [lia|done]].
    apply list_elem_of_fmap. by exists (i, v). }
  apply submseteq_length in Hsub. etrans; [exact Hsub|]. clear. induction us as [|u us IH]; [cbn; lia|].
  cbn [fmap list_fmap concat length]. rewrite length_app. unfold leaf_path at 1. rewrite length_fmap, length_seq. lia.
Qed.
End recorder.

(** ** The finished blob *)
Section finalize.
Context {K Node : Type} `{Countable K} `{FixedLaws Node wf}.
Context (bt : QBlobDataType) (tt : QBlobMerkleNodeTreeType).

(** The header is written over the bytes that were reserved, after what was there. *)
Lemma finalize_spec (r : MerkleRecorder K) cx pre nodes :
  rec_blob r = (pre ++ replicate 84 0) ++ payload nodes → rec_start_offset r = Z.of_nat (length pre) →
  Forall wf nodes → Z.of_nat (length pre) + blob_size (Node := Node) (length nodes) < 2 ^ 64 →
  rec_finalize_with_header bt tt (FFS_SIZE Node) r cx = Ok (pre ++ generate_node_batch_blob bt tt cx nodes).
Proof.
  intros Hb Hs Hw Hf. pose proof (ffs_size_pos (A := Node)). pose proof (length_payload nodes Hw) as Hl.
  unfold blob_size in Hf. unfold rec_finalize_with_header, QBLOB_TREE_NODE_BATCH_HEADER_SIZE.
  assert (Hlen : Z.of_nat (length (rec_blob r)) = Z.of_nat (length pre) + 84 + Z.of_nat (length nodes) * FFS_SIZE Node).
  { rewrite Hb, !length_app, length_replicate. lia. }
  rewrite Hlen, Hs. rewrite (wrap_small 64 (Z.of_nat (length pre) + 84 + _ - _)) by nia.
  rewrite wrap_small by nia. rewrite generate_eq. unfold blob_header.
  replace (Z.of_nat (length pre) + 84 + Z.of_nat (length nodes) * FFS_SIZE Node - Z.of_nat (length pre) - 84)
    with (Z.of_nat (length nodes) * FFS_SIZE Node) by lia.
  rewrite Z.div_mul by lia. unfold write_at. rewrite length_header, Hlen.
  rewrite (proj2 (Z.leb_le _ _)) by nia. rewrite Nat2Z.id, Hb, <- app_assoc. do 2 f_equal.
  - by rewrite take_app_length.
  - f_equal. rewrite <- drop_drop, drop_app_length. by rewrite drop_app_length' by by rewrite length_replicate.
Qed.
End finalize.

(** ** The recorder of contract state trees *)
Section double.
Context {Hash : Type} `{EqDecision Hash, MerkleHasher Hash} `{Hash32 Hash}.
Context (tree_id tree_sub_id : Z).

Lemma double_key_inj l i l' i' :
  mkDoubleIdKey tree_id tree_sub_id l i = mkDoubleIdKey tree_id tree_sub_id l' i' → l = l' ∧ i = i'.
Proof. by intros [= -> ->]. Qed.

Lemma double_entries_ok (h : nat) (f : Z → Hash) ks :
  is_uint 64 tree_id → is_uint 64 tree_sub_id → Forall key_wf ks →
  Forall double_node_ok (tree_entry (mkDoubleIdKey tree_id tree_sub_id) mkDoubleNode h f <$> ks).
Proof.
  intros Ht Hs Hk. apply Forall_fmap. eapply Forall_impl; [exact Hk|]. intros k Hwf.
  pose proof (key_wf_index64 k Hwf). destruct Hwf as [Hl _]. unfold double_node_ok, is_uint in *. cbn. lia.
Qed.

(** The blob of a recorder that was given the proofs of the updates, the last first: it
    passes the receiver's checks, and its payload is the nodes on the paths of the
    updates, each once, as the tree has them after all updates. *)
Lemma recorder_blob (cx : context) (h : nat) (t : Z → Hash) (us : list (Z * Hash)) :
  context_ok cx → is_uint 64 tree_id → is_uint 64 tree_sub_id → (h ≤ 64)%nat → updates_in h us →
  84 + 57 * Z.of_nat (S h * length us) < 2 ^ 64 →
  let proofs := deltas h t us in
  let entry := tree_entry (mkDoubleIdKey tree_id tree_sub_id) mkDoubleNode h (apply_updates t us) in
  ∃ r blob hd ks,
    mapM (double_record_validate_delta_merkle_proof tree_id tree_sub_id (Z.of_nat h)) (reverse proofs) rec_new_with_header =
      (Ok (MerkleProof.new_root <$> reverse proofs), r) ∧
    double_finalize_with_header r cx = Ok blob ∧
    validate_uct_nodes_get_clipped_ref blob (cx_chain_id cx) (cx_realm_id cx) (cx_realm_sub_id cx)
      (cx_unique_pending_id cx) = Ok (hd, payload (entry <$> ks)) ∧
    NoDup ks ∧ Forall key_wf ks ∧ Forall double_node_ok (entry <$> ks) ∧
    ∀ k, 0 ≤ level k → k ∈ ks ↔ on_paths h us k.
Proof.
  intros Hcx Ht Hs Hh Hu Hf proofs entry. set (f := apply_updates t us).
  destruct (record_reversed (mkDoubleIdKey tree_id tree_sub_id) mkDoubleNode double_key_inj h Hh us t [] (replicate 84 0)
              rec_new_with_header Hu) as (r & E & Hr & Hst).
  { apply (recorded_fresh _ _ h _ rec_new_with_header). cbn. set_solver. }
  rewrite app_nil_r in Hr. destruct Hr as (ks & Hw & Hks). pose proof Hw as (Hb & _ & Hn & Hwf).
  assert (Hlen : (length ks ≤ S h * length us)%nat) by by eapply recorded_length.
  pose proof (double_entries_ok h f ks Ht Hs Hwf) as Hok.
  set (nodes := tree_entry (mkDoubleIdKey tree_id tree_sub_id) mkDoubleNode h f <$> ks) in *.
  assert (Hsize : blob_size (Node := QMerkleStoreDoubleIdNode Hash) (length nodes) < 2 ^ 64).
  { unfold blob_size, nodes. rewrite length_fmap. cbn [FFS_SIZE double_node_ffs]. lia. }
  exists r, (generate_node_batch_blob GenericDoubleIdMerkleNodeBatch UserContractStateTree cx nodes).
  destruct (clip_exact (Node := QMerkleStoreDoubleIdNode Hash) GenericDoubleIdMerkleNodeBatch UserContractStateTree
              ltac:(done) ltac:(done) ltac:(done) cx nodes Hcx Hok Hsize) as [_ E2].
  eexists _, ks. split_and!; [exact E| | |done|done|done|exact Hks].
  - unfold double_finalize_with_header.
    change QMS_FAST_SERIALIZER_DOUBLE_ID_NODE_SIZE with (FFS_SIZE (QMerkleStoreDoubleIdNode Hash)).
    rewrite (finalize_spec GenericDoubleIdMerkleNodeBatch UserContractStateTree r cx [] nodes Hb Hst Hok Hsize). done.
  - apply checked_ok; [exact E2|]. apply (proj2 (own_context cx _ _ _ _ _ eq_refl)).
Qed.

(** The blob, as the list of its nodes. *)
Theorem recorder_writes_final_tree (cx : context) (h : nat) (t : Z → Hash) (us : list (Z * Hash)) :
  context_ok cx → is_uint 64 tree_id → is_uint 64 tree_sub_id → (h ≤ 64)%nat → updates_in h us →
  84 + 57 * Z.of_nat (S h * length us) < 2 ^ 64 →
  let proofs := deltas h t us in
  ∃ r blob hd p nodes,
    mapM (double_record_validate_delta_merkle_proof tree_id tree_sub_id (Z.of_nat h)) (reverse proofs) rec_new_with_header =
      (Ok (MerkleProof.new_root <$> reverse proofs), r) ∧
    double_finalize_with_header r cx = Ok blob ∧
    validate_uct_nodes_get_clipped_ref blob (cx_chain_id cx) (cx_realm_id cx) (cx_realm_sub_id cx)
      (cx_unique_pending_id cx) = Ok (hd, p) ∧
    read_batch_nodes_from_checked_payload (QMerkleStoreDoubleIdNode Hash) p = Ok nodes ∧
    NoDup (dn_key <$> nodes) ∧
    ∀ n, n ∈ nodes ↔ ∃ k, 0 ≤ level k ∧ on_paths h us k ∧
      n = mkDoubleNode (mkDoubleIdKey tree_id tree_sub_id (level k) (index k))
            (spec_node (Z.of_nat h) (apply_updates t us) k).
Proof.
  intros Hcx Ht Hs Hh Hu Hf proofs.
  destruct (recorder_blob cx h t us Hcx Ht Hs Hh Hu Hf) as (r & blob & hd & ks & E & Eb & Ec & Hn & Hwf & Hok & Hks).
  eexists r, blob, hd, _, _. split_and!; [exact E|exact Eb|exact Ec|by apply read_payload|..].
  - rewrite <- list_fmap_compose. apply NoDup_fmap_2; [|done].
    intros k k' Hkk. by apply (the_key_inj _ double_key_inj).
  - intros n. rewrite list_elem_of_fmap. split.
    + intros (k & -> & Hk). exists k. pose proof (proj1 (Forall_forall _ _) Hwf k Hk) as [Hl _].
      split_and!; [lia|apply Hks; [lia|done]|done].
    + intros (k & Hl & Hk & ->). exists k. split; [done|]. by apply Hks.
Qed.
End double.

(** ** The blob of a whole tree *)
Section whole.
Context {Hash : Type} `{MerkleHasher Hash, !ZeroableHash Hash, !MerkleZeroHasher Hash} `{Hash32 Hash}.
Context (tree_id : Z).

(** [m] numbers from [a] on. *)
Fixpoint from (a : Z) (m : nat) : list Z := match m with O => [] | S m => a :: from (a + 1) m end.

Lemma elem_of_from a m x : x ∈ from a m ↔ a ≤ x < a + Z.of_nat m.
Proof.
  revert a. induction m as [|m IH]; intros a; cbn [from]; [rewrite elem_of_nil; lia|].
  rewrite elem_of_cons, IH. lia.
Qed.

Lemma tree_level_from (leaf : Z → Hash) r m : tree_level leaf r m = tree_node leaf r <$> from 0 m.
Proof.
  unfold tree_level. change 0 with (Z.of_nat 0). generalize 0%nat as a.
  induction m as [|m IH]; intros a; [done|]. cbn [seq from fmap list_fmap]. f_equal.
  rewrite IH. do 2 f_equal. lia.
Qed.

(** One level: every hash becomes a node, and pairs become the hashes above. *)
Lemma leaf_level_pass_spec (l : Z) (zero : Hash) (g : Z → Hash) m : ∀ i,
  (Nat.odd m = true → zero = g (2 * i + Z.of_nat m)) →
  leaf_level_pass tree_id l zero i (g <$> from (2 * i) m) =
    ((λ j, single_node tree_id l j (g j)) <$> from (2 * i) m,
     (λ j, two_to_one (g (2 * j)) (g (2 * j + 1))) <$> from i (Nat.div2 (S m))).
Proof.
  induction m as [m IH] using lt_wf_ind. intros i Hz. destruct m as [|[|m]]; [done| |].
  - cbn [from fmap list_fmap leaf_level_pass Nat.div2]. rewrite Hz by done. rewrite Z.mul_comm. done.
  - change (Nat.div2 (S (S (S m)))) with (S (Nat.div2 (S m))). cbn [from fmap list_fmap leaf_level_pass].
    replace (2 * i + 1 + 1) with (2 * (i + 1)) by lia.
    rewrite (IH m) by (lia || intros Ho; rewrite Hz by done; f_equal; lia). by rewrite (Z.mul_comm i 2).
Qed.

(** The nodes of the levels from [level] up, over [m] nodes at [level]. *)
Lemma leaf_levels_loop_spec (leaf : Z → Hash) (h : nat) (n : Z) level : ∀ m,
  (level ≤ h)%nat → (∀ i, n ≤ i → leaf i = get_zero_value) →
  (∀ i, 0 ≤ i → i < Z.of_nat m ↔ i * 2 ^ Z.of_nat (h - level) < n) → 0 < n ≤ 2 ^ Z.of_nat h →
  ∃ nodes, leaf_levels_loop tree_id h level (tree_level leaf (h - level) m) = (nodes, [tree_node leaf h 0]) ∧
    ∀ x, x ∈ nodes ↔ ∃ l i, (1 ≤ l ≤ level)%nat ∧ 0 ≤ i ∧ i * 2 ^ Z.of_nat (h - l) < n ∧
      x = single_node tree_id (Z.of_nat l) i (tree_node leaf (h - l) i).
Proof.
  induction level as [|level IH]; intros m Hl Hz Hm Hn.
  - exists []. split.
    + cbn [leaf_levels_loop]. rewrite Nat.sub_0_r in *.
      assert (m = 1)%nat as ->; [|done]. pose proof (Hm 0 ltac:(lia)). pose proof (Hm 1 ltac:(lia)). lia.
    + intros x. rewrite elem_of_nil. split; [done|]. intros (l & i & ? & _). lia.
  - cbn [leaf_levels_loop]. set (r := (h - S level)%nat). set (g := tree_node leaf r).
    pose proof (leaf_level_pass_spec (Z.of_nat (S level)) (get_zero_hash r) g m 0) as Hpass.
    change (2 * 0) with 0 in Hpass. rewrite tree_level_from. fold g. rewrite Hpass.
    2: { intros Ho. symmetry. apply tree_node_zero. intros j Hj. apply Hz.
         pose proof (Hm (Z.of_nat m) ltac:(lia)) as Hmm. fold r in Hmm. lia. }
    assert (Hr : (h - level = S r)%nat) by (unfold r; lia).
    assert (Hp : 2 ^ Z.of_nat (S r) = 2 * 2 ^ Z.of_nat r) by (rewrite Nat2Z.inj_succ, Z.pow_succ_r; lia).
    pose proof (Nat.div2_odd (S m)) as Hdiv. destruct (IH (Nat.div2 (S m))) as (nodes & E & Hin); [lia|done| |done|].
    { intros i Hi. rewrite Hr, Hp. pose proof (Hm (2 * i) ltac:(lia)) as Hm2. fold r in Hm2.
      assert (Hd : i < Z.of_nat (Nat.div2 (S m)) ↔ 2 * i < Z.of_nat m) by (destruct (Nat.odd (S m)); cbn [Nat.b2n] in Hdiv; lia).
      rewrite Hd, Hm2. lia. }
    rewrite Hr, tree_level_from in E. change (λ j, two_to_one (g (2 * j)) (g (2 * j + 1))) with (tree_node leaf (S r)).
    cbn beta iota. rewrite E. eexists. split; [done|]. intros x. rewrite elem_of_app, list_elem_of_fmap, Hin.
    split.
    + intros [(i & -> & Hi%elem_of_from)|(l & i & Hl' & Hi & Hlt & ->)].
      * exists (S level), i. split_and!; [lia|lia|lia|apply Hm; lia|done].
      * exists l, i. split_and!; [lia|lia|done|done|done].
    + intros (l & i & Hl' & Hi & Hlt & ->). destruct (decide (l = S level)) as [->|Hne].
      * left. exists i. split; [done|]. apply elem_of_from. apply Hm in Hlt; lia.
      * right. exists l, i. split_and!; [lia|lia|done|done|done].
Qed.

(** A tree built from its leaves: the root is the root of the tree of the smallest height that holds
    the leaves, the unused positions being zero; and the blob holds exactly the nodes above a leaf. *)
Theorem leaves_blob_correct (leaves : list Hash) :
  let n := Z.of_nat (length leaves) in
  let h := Z.to_nat (Z.log2_up n) in
  let leaf := leaf_fn get_zero_value leaves in
  0 < n ≤ 2 ^ 63 →
  ∃ nodes : list (QMerkleStoreSingleIdNode Hash),
    generate_single_merkle_node_blob_from_leaves tree_id leaves =
      Ok (tree_node leaf h 0, concat (ffs_to_bytes <$> nodes)) ∧
    ∀ x, x ∈ nodes ↔ ∃ l i, (l ≤ h)%nat ∧ 0 ≤ i ∧ i * 2 ^ Z.of_nat (h - l) < n ∧
      x = single_node tree_id (Z.of_nat l) i (tree_node leaf (h - l) i).
Proof.
  intros n h leaf Hn. destruct leaves as [|a [|b leaves]]; [cbn in n; unfold n in Hn; lia| |].
  - exists [single_node tree_id 0 0 a]. split; [cbn; by rewrite app_nil_r|]. intros x.
    rewrite list_elem_of_singleton. split.
    + intros ->. by exists 0%nat, 0.
    + intros (l & i & Hl & Hi & Hlt & ->). change (l ≤ 0)%nat in Hl. assert (l = 0)%nat as -> by lia.
      change (i * 1 < 1) in Hlt. assert (i = 0) as -> by lia. done.
  - set (ls := a :: b :: leaves) in *. assert (H2 : 1 < n) by (unfold n, ls; cbn [length]; lia).
    change (generate_single_merkle_node_blob_from_leaves tree_id ls) with
      (let tree_height := Z.to_nat (wrap 8 (log2_ceil n)) in
       let '(nodes, top) := leaf_levels_loop tree_id tree_height tree_height ls in
       let* root_hash := unwrap (top !! 0%nat) in
       Ok (root_hash, concat (ffs_to_bytes <$> nodes) ++ ffs_to_bytes (single_node tree_id 0 0 root_hash))).
    assert (Hh : 0 ≤ Z.log2_up n ≤ 63) by (split; [apply Z.log2_up_nonneg|apply Z.log2_up_le_pow2; lia]).
    rewrite log2_ceil_spec, wrap_small by lia. fold h. cbv zeta.
    pose proof (Z.log2_up_spec n H2) as Hup.
    destruct (leaf_levels_loop_spec leaf h n h (length ls)) as (nodes & E & Hin); [lia| | | |].
    + intros i Hi. unfold leaf, leaf_fn. apply nth_overflow. unfold n in Hi. lia.
    + intros i Hi. rewrite Nat.sub_diag. cbn [Z.of_nat]. fold n. lia.
    + unfold h. rewrite Z2Nat.id by lia. lia.
    + pose proof (leaves_tree_level get_zero_value ls) as Hls. fold leaf in Hls. rewrite Nat.sub_diag, <- Hls in E. rewrite E.
      exists (nodes ++ [single_node tree_id 0 0 (tree_node leaf h 0)]). split.
      { cbn [lookup list_lookup unwrap outcome_bind]. rewrite fmap_app, concat_app. cbn [fmap list_fmap concat]. by rewrite app_nil_r. }
      intros x. rewrite elem_of_app, list_elem_of_singleton, Hin. split.
      * intros [(l & i & Hl & Hi & Hlt & ->)| ->]; [exists l, i; split_and!; [lia|lia|done|done]|].
        exists 0%nat, 0. rewrite Nat.sub_0_r. split_and!; [lia|lia|lia|done].
      * intros ([|l] & i & Hl & Hi & Hlt & ->); [right|left; exists (S l), i; split_and!; [lia|lia|lia|done|done]].
        rewrite Nat.sub_0_r in *. assert (i = 0) as ->; [|done]. unfold h in Hlt. rewrite Z2Nat.id in Hlt by lia. nia.
Qed.
End whole.
