(* ===== verification/EndCap.v ===== *)
(** * End caps

    A user ends a session by submitting an end cap: the new user leaf, the proofs of all
    changes to the user's contract tree and to the state trees of the contracts, and the
    statistics the session's proof commits to. The realm edge admits it after the checks of
    [psy_data/src/proof_input/guta/end_cap_input.rs] and turns it into blobs of nodes in
    [psy_node_common/src/realm/edge/utils/end_cap.rs]. The types are those of [Codecs], the
    recorders those of [Qblob]. [tracing] is left out; [now] is the system clock. *)
From stdpp Require Import prelude list gmap strings.
From Stdlib Require Import ZArith Lia.
From S2P Require Import Prelude MerkleKey MerkleHash FieldHash MerkleProof Wire Serialize ByteOrder Qblob Codecs RealmFinalize.

Definition IMT_LEAF_FFS_ENTRY_SIZE_V2 : Z := 161.

(** ** The height cache

    [PSimpleContractHeightCache] and its implementation, a concurrent map. *)
Class PSimpleContractHeightCache (C Hash : Type) : Type := {
  add_contract : C → Z → Z → Hash → C;
  get_contract_height : C → Z → outcome Z;
  get_contract_zero_hash : C → Z → outcome Hash;
}.

Definition DashMapContractHeightCache (Hash : Type) : Type := gmap Z (Z * Hash).

#[global] Instance dash_map_cache {Hash} : PSimpleContractHeightCache (DashMapContractHeightCache Hash) Hash := {
  add_contract m contract_id height zero_hash := <[contract_id := (height, zero_hash)]> (m : gmap Z (Z * Hash));
  get_contract_height m contract_id := let* x := ok_or ((m : gmap Z (Z * Hash)) !! contract_id) "contract not loaded" in Ok x.1;
  get_contract_zero_hash m contract_id := let* x := ok_or ((m : gmap Z (Z * Hash)) !! contract_id) "contract not loaded" in Ok x.2;
}.

(** ** Slots *)
Record PsySlotUpdate (F : Type) : Type := mkSlotUpdate {
  slot : Z;
  slot_old_value : F;
  slot_new_value : F;
}.
Arguments mkSlotUpdate {F}.
Arguments slot {F}.
Arguments slot_old_value {F}.
Arguments slot_new_value {F}.

Record PsyContractSlotUpdates (F : Type) : Type := mkContractSlots {
  slots_contract_id : Z;
  slot_updates : list (PsySlotUpdate F);
}.
Arguments mkContractSlots {F}.
Arguments slots_contract_id {F}.
Arguments slot_updates {F}.

(** Per-key replay state. *)
Record ImtKeyReplayState (F Hash : Type) : Type := mkReplay {
  start_preimage : IMTContractStateLeaf F Hash;
  is_insert : bool;
}.
Arguments mkReplay {F Hash}.
Arguments start_preimage {F Hash}.
Arguments is_insert {F Hash}.

#[global] Instance imt_leaf_eq_dec {F Hash} `{EqDecision F, EqDecision Hash} : EqDecision (IMTContractStateLeaf F Hash).
Proof. solve_decision. Defined.

Section end_cap.
Context {F Hash : Type} `{FieldHash F Hash} `{EqDecision F, EqDecision Hash}.
Context `{MerkleHasher Hash, !ZeroableHash Hash, !MerkleZeroHasher Hash} `{Q256BitHash Hash}.
Abbreviation leaf := (IMTContractStateLeaf F Hash).
Abbreviation delta := (DeltaMerkleProofCore Hash).
Abbreviation input := (SubmitUserEndCapNonProofInput F Hash).

(** ** Updates of contract state *)
Definition imt_old_root (u : IMTContractStateUpdate F Hash) : Hash :=
  match u with Update _ _ d => MerkleProof.old_root d | Insert _ _ _ pred _ => MerkleProof.old_root pred end.
Definition imt_new_root (u : IMTContractStateUpdate F Hash) : Hash :=
  match u with Update _ _ d => MerkleProof.new_root d | Insert _ _ _ _ new => MerkleProof.new_root new end.

Definition update_old_root (u : ContractStateUpdate F Hash) : Hash :=
  match u with Positional d => MerkleProof.old_root d | IMT u => imt_old_root u end.
Definition update_new_root (u : ContractStateUpdate F Hash) : Hash :=
  match u with Positional d => MerkleProof.new_root d | IMT u => imt_new_root u end.

(** [first_height] *)
Definition update_height (u : ContractStateUpdate F Hash) : nat :=
  match u with
  | Positional d | IMT (Update _ _ d) => length (dmp_siblings d)
  | IMT (Insert _ _ _ pred _) => length (dmp_siblings pred)
  end.

(** ** Felt-level slots of a delta proof *)
Fixpoint changed_felts (index offset : Z) (olds news : list F) : list (PsySlotUpdate F) :=
  match olds, news with
  | old :: olds, new :: news =>
      (if bool_decide (old ≠ new) then [mkSlotUpdate (wrap 64 (wrap 64 (index * 4) + offset)) old new] else []) ++
      changed_felts index (offset + 1) olds news
  | _, _ => []
  end.

Definition delta_proof_to_slot_updates (d : delta) : list (PsySlotUpdate F) :=
  changed_felts (dmp_index d) 0 (hash_felts (old_value d)) (hash_felts (new_value d)).

Definition update_slots (u : ContractStateUpdate F Hash) : list (PsySlotUpdate F) :=
  match u with
  | Positional d | IMT (Update _ _ d) => delta_proof_to_slot_updates d
  | IMT (Insert _ _ _ pred new) => delta_proof_to_slot_updates pred ++ delta_proof_to_slot_updates new
  end.

Definition get_slot_updates (e : input) : list (PsyContractSlotUpdates F) :=
  filter (λ c, slot_updates c ≠ [])
    ((λ csu, mkContractSlots (wrap 32 (dmp_index (user_contract_tree_update_proof csu)))
               (concat (update_slots <$> updates csu))) <$> contract_state_updates e).

(** ** Counting the modified slots *)
Definition replay_imt_key_op (entries : gmap (list Z) (ImtKeyReplayState F Hash)) (old_preimage new_preimage : leaf)
    (is_insert' : bool) : Z * gmap (list Z) (ImtKeyReplayState F Hash) :=
  let key := into_owned_32bytes (imt_key old_preimage) in
  match entries !! key with
  | Some entry =>
      if negb (is_insert entry) && bool_decide (new_preimage = start_preimage entry)
      then (-1, delete key entries) else (0, entries)
  | None => (1, <[key := mkReplay old_preimage is_insert']> entries)
  end.

(** What is known in the middle of a history: for each slot its first old and last new
    value, for each key its state, and the running number of keys. *)
Record replay_state : Type := mkReplayState {
  slot_first_last : gmap Z (Hash * Hash);
  imt_keys : gmap (list Z) (ImtKeyReplayState F Hash);
  imt_keys_modified : Z;
}.

Definition replay_inc (n inc : Z) : Z :=
  if 0 <? inc then n + inc else if inc <? 0 then Z.max (n + inc) 0 else n.

Definition replay_update (st : replay_state) (u : ContractStateUpdate F Hash) : replay_state :=
  match u with
  | Positional d =>
      let first := match slot_first_last st !! dmp_index d with Some (old, _) => old | None => old_value d end in
      mkReplayState (<[dmp_index d := (first, new_value d)]> (slot_first_last st)) (imt_keys st) (imt_keys_modified st)
  | IMT (Update old_preimage new_preimage _) =>
      let '(inc, keys) := replay_imt_key_op (imt_keys st) old_preimage new_preimage false in
      mkReplayState (slot_first_last st) keys (replay_inc (imt_keys_modified st) inc)
  | IMT (Insert pred_old pred_new new_leaf _ _) =>
      let '(pred_inc, keys) := replay_imt_key_op (imt_keys st) pred_old pred_new false in
      let '(new_inc, keys) := replay_imt_key_op keys new_leaf new_leaf true in
      mkReplayState (slot_first_last st) keys (replay_inc (imt_keys_modified st) (pred_inc + new_inc))
  end.

(** [slot_first_last.values().filter(|(old, new)| old != new).count()] *)
Definition changed_slots (m : gmap Z (Hash * Hash)) : Z :=
  Z.of_nat (length (filter (λ v, v.1 ≠ v.2) (map_to_list m).*2)).

Fixpoint replay_histories (positional_modified imt_modified : Z) (hs : list (ContractStateUpdateHistory F Hash)) : Z :=
  match hs with
  | [] => wrap 64 (positional_modified + imt_modified)
  | h :: hs =>
      let st := foldl replay_update (mkReplayState ∅ ∅ imt_modified) (updates h) in
      replay_histories (wrap 64 (positional_modified + changed_slots (slot_first_last st))) (imt_keys_modified st) hs
  end.

Definition replay_count_slots_modified (e : input) : Z := replay_histories 0 0 (contract_state_updates e).

Definition ensure_declared_slots_modified (e : input) : outcome unit :=
  let replayed := replay_count_slots_modified e in
  let declared := to_u64_value (Hash := Hash) (slots_modified (core_stats (core e))) in
  ensure (declared =? replayed) "declared slots_modified does not match the slot modifications replayed".

(** ** Hashes of leaves and of the proof's public inputs *)
Definition user_leaf_qfhash (l : PQEDUserLeaf F Hash) : Hash :=
  q_hash_many (hash_felts (public_key l) ++ hash_felts (user_state_tree_root l) ++
               [balance l; nonce l; last_checkpoint_id l; event_index l; leaf_user_id l]).

Definition imt_leaf_qfhash (l : leaf) : Hash :=
  q_hash_many (hash_felts (imt_key l) ++ hash_felts (imt_value l) ++ hash_felts (imt_next_key l) ++ [imt_next_index l]).

Definition qfhash_with_guta_height (r : PUPSEndCapResultCompact F Hash) (global_user_tree_height : Z) : Hash :=
  let user_leaf_change_combo_with_user_id :=
    q_hash_many ([result_user_id r] ++ hash_felts (start_user_leaf_hash r) ++ hash_felts (end_user_leaf_hash r) ++
                 [from_u64_value (Hash := Hash) global_user_tree_height]) in
  two_to_one (checkpoint_tree_root_hash r) user_leaf_change_combo_with_user_id.

Definition get_proof_public_inputs_hash (c : SubmitUserEndCapNonProofCoreInput F Hash) (global_user_tree_height : Z) : Hash :=
  two_to_one (qfhash_with_guta_height (core_state_transition c) global_user_tree_height) (stats_qfhash (core_stats c)).

(** [F::ZERO_VALUE] *)
Definition felt_zero : F := from_u64_value (Hash := Hash) 0.

Definition is_first_transaction_old_user_leaf (l : PQEDUserLeaf F Hash) : bool :=
  bool_decide (public_key l = get_zero_value) && bool_decide (balance l = felt_zero) && bool_decide (nonce l = felt_zero) &&
  bool_decide (last_checkpoint_id l = felt_zero) && bool_decide (event_index l = felt_zero).

(** ** Self-consistency

    [for i in 1..len]: each element ends where the next begins. *)
Fixpoint ensure_chain {A} (start finish : A → Hash) (msg : string) (l : list A) : outcome unit :=
  match l with
  | a :: ((b :: _) as l) =>
      let* _ := ensure (bool_decide (finish a = start b)) msg in ensure_chain start finish msg l
  | _ => Ok tt
  end.

Definition ensure_update_height (expected_height : Z) (u : ContractStateUpdate F Hash) : outcome unit :=
  let fits (d : delta) := Z.of_nat (length (dmp_siblings d)) =? expected_height in
  match u with
  | Positional d => ensure (fits d) "positional proof height mismatch"
  | IMT (Update _ _ d) => ensure (fits d) "imt update proof height mismatch"
  | IMT (Insert _ _ _ pred new) => ensure (fits pred && fits new) "imt insert proof height mismatch"
  end.

Fixpoint ensure_all {A} (f : A → outcome unit) (l : list A) : outcome unit :=
  match l with [] => Ok tt | a :: l => let* _ := f a in ensure_all f l end.

(** [expected_height] is a [u8] widened to [usize]. *)
Definition ensure_history_consistent {C} `{PSimpleContractHeightCache C Hash} (contract_helper : C)
    (csu : ContractStateUpdateHistory F Hash) : outcome unit :=
  let proof := user_contract_tree_update_proof csu in
  match head (updates csu), last (updates csu) with
  | Some first, Some last =>
      let cid := wrap 32 (dmp_index proof) in
      let* expected_height := get_contract_height contract_helper cid in
      let first_old := update_old_root first in
      let last_new := update_new_root last in
      let* _ :=
        (if bool_decide (first_old = old_value proof) then Ok tt
         else if negb (bool_decide (old_value proof = get_zero_value))
         then Err "first update old_root does not match user contract tree old_value"
         else let* zero_hash := get_contract_zero_hash contract_helper cid in
              ensure (bool_decide (first_old = zero_hash)) "first update old_root does not match user contract tree old_value") in
      let* _ := ensure (bool_decide (last_new = new_value proof)) "last update new_root does not match user contract tree new_value" in
      let* _ := ensure_chain update_old_root update_new_root "mixed updates root chain broken" (updates csu) in
      ensure_all (ensure_update_height expected_height) (updates csu)
  | _, _ => Err "mixed contract updates cannot be empty"
  end.

(** [contract_tree_height] is not used. *)
Definition ensure_simple_self_consistent {C} `{PSimpleContractHeightCache C Hash} (e : input)
    (old_user_leaf : PQEDUserLeaf F Hash) (proof_public_inputs_hash : Hash) (contract_helper : C)
    (global_user_tree_height contract_tree_height : Z) : outcome unit :=
  let c := core e in
  let value (f : F) := to_u64_value (Hash := Hash) f in
  let* _ := ensure (bool_decide (checkpoint_id c = last_checkpoint_id (new_user_leaf c))) "invalid checkpoint id" in
  let* _ := ensure (bool_decide (leaf_user_id (new_user_leaf c) = result_user_id (core_state_transition c))) "inconsistent user id" in
  let expected_proof_public_inputs_hash := get_proof_public_inputs_hash c global_user_tree_height in
  let* _ := ensure (bool_decide (proof_public_inputs_hash = expected_proof_public_inputs_hash)) "invalid public inputs/state transition" in
  let old_leaf_hash := user_leaf_qfhash old_user_leaf in
  let* _ := ensure (is_first_transaction_old_user_leaf old_user_leaf ||
                    bool_decide (old_leaf_hash = start_user_leaf_hash (core_state_transition c))) "invalid old_user_leaf" in
  let* _ := ensure ((value (last_checkpoint_id old_user_leaf) =? 0) ||
                    (value (last_checkpoint_id old_user_leaf) <? value (checkpoint_id c)))
              "old_user_leaf last_checkpoint_id is not less than end cap checkpoint_id" in
  let computed_leaf_hash := user_leaf_qfhash (new_user_leaf c) in
  let* _ := ensure (bool_decide (computed_leaf_hash = end_user_leaf_hash (core_state_transition c))) "invalid new_user_leaf" in
  match head (contract_state_updates e), last (contract_state_updates e) with
  | Some first, Some last =>
      let* _ := ensure_chain (λ csu, MerkleProof.old_root (user_contract_tree_update_proof csu))
                  (λ csu, MerkleProof.new_root (user_contract_tree_update_proof csu))
                  "contract_state_updates are not consistent" (contract_state_updates e) in
      let csu_old_root := MerkleProof.old_root (user_contract_tree_update_proof first) in
      let* _ := ensure (bool_decide (csu_old_root = user_state_tree_root old_user_leaf)) "user_state_tree_root does not match the first old root" in
      let csu_last_new_root := MerkleProof.new_root (user_contract_tree_update_proof last) in
      let* _ := ensure (bool_decide (csu_last_new_root = user_state_tree_root (new_user_leaf c))) "user_state_tree_root does not match the last new root" in
      ensure_all (ensure_history_consistent contract_helper) (contract_state_updates e)
  | _, _ => Err "contract_state_updates cannot be empty"
  end.

(** ** Entries of indexed leaves *)
Definition serialize_imt_leaf_ffs_entry_v2 (tree_id tree_sub_id leaf_index : Z) (leaf_hash leaf_key leaf_value next_key : Hash)
    (next_index : Z) (is_new_key : bool) : list Z :=
  to_le_bytes 8 tree_id ++ to_le_bytes 8 tree_sub_id ++ to_le_bytes 8 leaf_index ++ into_owned_32bytes leaf_hash ++
  into_owned_32bytes leaf_key ++ into_owned_32bytes leaf_value ++ into_owned_32bytes next_key ++
  to_le_bytes 8 next_index ++ [if is_new_key then 1 else 0].

Definition deserialize_imt_leaf_ffs_entry_v2 (data : list Z)
    : outcome (Z * Z * Z * list Z * list Z * list Z * list Z * Z * bool) :=
  let* _ := ensure (Z.of_nat (length data) =? IMT_LEAF_FFS_ENTRY_SIZE_V2) "Invalid IMT leaf FFS entry size" in
  Ok (from_le_bytes (slice 0 8 data), from_le_bytes (slice 8 16 data), from_le_bytes (slice 16 24 data),
      slice 24 56 data, slice 56 88 data, slice 88 120 data, slice 120 152 data,
      from_le_bytes (slice 152 160 data), negb (from_le_bytes (slice 160 161 data) =? 0)).

(** The entry of a leaf as the edge writes it. *)
Definition leaf_entry (user_id contract_id leaf_index : Z) (l : leaf) (is_new_key : bool) : list Z :=
  serialize_imt_leaf_ffs_entry_v2 user_id contract_id leaf_index (imt_leaf_qfhash l) (imt_key l) (imt_value l)
    (imt_next_key l) (to_u64_value (Hash := Hash) (imt_next_index l)) is_new_key.

(** ** The edge

    [usize as u8] *)
Definition siblings_u8 (d : delta) : Z := wrap 8 (Z.of_nat (length (dmp_siblings d))).

Definition hash_eqb (a b : Hash) : bool := bool_decide (a = b).

(** The contract tree of the user, the last change first. *)
Fixpoint uct_loop (user_id user_contract_tree_height : Z) (single_id_recorder : QBlobSingleIdMerkleRecorder)
    (next_uct_end_root : Hash) (csus : list (ContractStateUpdateHistory F Hash)) : outcome QBlobSingleIdMerkleRecorder :=
  match csus with
  | [] => Ok single_id_recorder
  | csu :: csus =>
      let proof := user_contract_tree_update_proof csu in
      match head (updates csu), last (updates csu) with
      | Some first, Some last =>
          let '(computed, single_id_recorder) :=
            single_record_validate_delta_merkle_proof user_id user_contract_tree_height proof single_id_recorder in
          let* computed_end_root := computed in
          let* _ := ensure (hash_eqb computed_end_root next_uct_end_root) "Computed contract state update end root does not match expected end root" in
          let* _ := ensure (hash_eqb computed_end_root (MerkleProof.new_root proof)) "Computed contract state update new root does not match proof new root" in
          let first_old := update_old_root first in
          let contract_empty_zero_hash := get_zero_hash (update_height first) in
          let* _ := ensure (hash_eqb (old_value proof) first_old ||
                            (hash_eqb (old_value proof) (get_zero_hash 0) && hash_eqb first_old contract_empty_zero_hash))
                      "User contract tree update proof old value does not match first contract state tree update old root" in
          let* _ := ensure (hash_eqb (new_value proof) (update_new_root last))
                      "User contract tree update proof new value does not match last contract state tree update new root" in
          uct_loop user_id user_contract_tree_height single_id_recorder (MerkleProof.old_root proof) csus
      | _, _ => Err "Contract state updates cannot be empty"
      end
  end.

(** One delta proof of a contract state tree. *)
Definition record_cst (user_id contract_id : Z) (d : delta) (r : QBlobDoubleIdMerkleRecorder)
    : outcome (Hash * QBlobDoubleIdMerkleRecorder) :=
  let '(computed, r) := double_record_validate_delta_merkle_proof user_id contract_id (siblings_u8 d) d r in
  let* computed := computed in
  Ok (computed, r).

(** One update: the recorder, the root before the update, and the entries it adds. *)
Definition cst_update (user_id contract_id : Z) (r : QBlobDoubleIdMerkleRecorder) (next_cst_root : Hash)
    (u : ContractStateUpdate F Hash) : outcome (QBlobDoubleIdMerkleRecorder * Hash * list Z) :=
  match u with
  | Positional d =>
      let* (computed, r) := record_cst user_id contract_id d r in
      let* _ := ensure (hash_eqb computed (MerkleProof.new_root d) && hash_eqb next_cst_root (MerkleProof.new_root d)) "Positional update root chain mismatch" in
      Ok (r, MerkleProof.old_root d, [])
  | IMT (Update _ new_preimage d) =>
      let* (computed, r) := record_cst user_id contract_id d r in
      let* _ := ensure (hash_eqb computed (MerkleProof.new_root d) && hash_eqb next_cst_root (MerkleProof.new_root d)) "IMT update root chain mismatch" in
      Ok (r, MerkleProof.old_root d, leaf_entry user_id contract_id (dmp_index d) new_preimage false)
  | IMT (Insert _ pred_new new_leaf pred new) =>
      let* (computed_new_leaf, r) := record_cst user_id contract_id new r in
      let* _ := ensure (hash_eqb computed_new_leaf (MerkleProof.new_root new) && hash_eqb next_cst_root (MerkleProof.new_root new)) "IMT insert root chain mismatch at new leaf" in
      let* (computed_pred, r) := record_cst user_id contract_id pred r in
      let* _ := ensure (hash_eqb computed_pred (MerkleProof.new_root pred) && hash_eqb (MerkleProof.new_root pred) (MerkleProof.old_root new)) "IMT insert root chain mismatch at predecessor" in
      Ok (r, MerkleProof.old_root pred,
          leaf_entry user_id contract_id (dmp_index pred) pred_new false ++ leaf_entry user_id contract_id (dmp_index new) new_leaf true)
  end.

Fixpoint cst_updates_loop (user_id contract_id : Z) (r : QBlobDoubleIdMerkleRecorder) (next_cst_root : Hash)
    (serialized_leaves : list Z) (us : list (ContractStateUpdate F Hash)) : outcome (QBlobDoubleIdMerkleRecorder * Hash * list Z) :=
  match us with
  | [] => Ok (r, next_cst_root, serialized_leaves)
  | u :: us =>
      let* (r, next_cst_root, entries) := cst_update user_id contract_id r next_cst_root u in
      cst_updates_loop user_id contract_id r next_cst_root (serialized_leaves ++ entries) us
  end.

(** The state trees of the contracts, the last change first; an empty history panics. *)
Fixpoint cst_loop (user_id : Z) (double_id_recorder : QBlobDoubleIdMerkleRecorder) (serialized_leaves : list Z)
    (csus : list (ContractStateUpdateHistory F Hash)) : outcome (QBlobDoubleIdMerkleRecorder * list Z) :=
  match csus with
  | [] => Ok (double_id_recorder, serialized_leaves)
  | csu :: csus =>
      let proof := user_contract_tree_update_proof csu in
      let contract_id := dmp_index proof in
      let* last := unwrap (last (updates csu)) in
      let* (double_id_recorder, next_cst_root, serialized_leaves) :=
        cst_updates_loop user_id contract_id double_id_recorder (update_new_root last) serialized_leaves (reverse (updates csu)) in
      let* _ :=
        (if hash_eqb next_cst_root (old_value proof) then Ok tt
         else if hash_eqb (old_value proof) (get_zero_hash 0) then
           let* first := unwrap (head (updates csu)) in
           let contract_empty_zero_hash := get_zero_hash (update_height first) in
           ensure (hash_eqb next_cst_root contract_empty_zero_hash)
             "Computed contract state tree update overall old root does not match expected old root"
         else Err "Computed contract state tree update overall old root does not match expected old root") in
      cst_loop user_id double_id_recorder serialized_leaves csus
  end.

Definition validate_end_cap_and_generate_node_data_for_edge (now : Z) (cx : context) (user_id : Z) (e : input)
    : outcome (list Z) :=
  match head (contract_state_updates e), last (contract_state_updates e) with
  | Some first, Some last =>
      let user_contract_tree_height := siblings_u8 (user_contract_tree_update_proof first) in
      let next_uct_end_root := MerkleProof.new_root (user_contract_tree_update_proof last) in
      let* single_id_recorder :=
        uct_loop user_id user_contract_tree_height rec_new_with_header next_uct_end_root (reverse (contract_state_updates e)) in
      let* double_id_recorder := finalize_with_header_into_double single_id_recorder cx UserContractTree in
      let* (double_id_recorder, serialized_leaves) :=
        cst_loop user_id double_id_recorder [] (reverse (contract_state_updates e)) in
      let* result := double_finalize_with_header double_id_recorder cx in
      let imt_entry_count := Z.of_nat (length serialized_leaves) / IMT_LEAF_FFS_ENTRY_SIZE_V2 in
      let imt_header :=
        modify_for_final_count_and_size
          (new_imt_leaf_header now Qblob.IMTContractStateLeaf (cx_chain_id cx) (cx_created_by_node_id cx) (cx_realm_id cx)
             (cx_realm_sub_id cx) (cx_unique_pending_id cx) user_id)
          IMT_LEAF_FFS_ENTRY_SIZE_V2 imt_entry_count in
      Ok (result ++ to_bytes_fixed_size_array imt_header ++ serialized_leaves)
  | _, _ => Err "End cap must have at least one contract state update"
  end.
End end_cap.

(** ** Reading it back

    What the planner of the realm takes from the blob of a user: the nodes of the
    contract tree, the nodes of the state trees and the entries of the leaves; nothing
    if the blob is of another submission than the queued one. *)
Definition split_contract_updates (data : list Z) (chain_id realm_id realm_sub_id submission_nonce : Z)
    : outcome (option (list Z * list Z * list Z)) :=
  let* (single_header, single_payload, double_full) :=
    validate_single_tree_nodes_get_clipped_ref_no_exact_size_any_unique_pending_id data chain_id realm_id realm_sub_id
      UserContractTree in
  if negb (hd_checkpoint_id single_header =? submission_nonce) then Ok None
  else
    let* (_, double_payload, imt_full) :=
      validate_cst_nodes_get_clipped_ref_any_unique_pending_id_with_remaining double_full chain_id realm_id realm_sub_id in
    let* (_, imt_payload) :=
      clip_header_get_payload_for_blob_type_and_tree_ref imt_full GenericIMTLeafBatch Qblob.IMTContractStateLeaf true in
    Ok (Some (single_payload, double_payload, imt_payload)).
