(* ===== verification/EndCapEdge.v ===== *)
(** * What the edge accepts as an end cap

    Theorems on [EndCap]: the edge accepts exactly the end caps whose delta proofs verify
    and link up. The last part shows an end cap that passes although the proof of the
    contract tree is too short. What the edge stores is in [EndCapBlob], the number of
    modified slots in [EndCapSlots]. *)
From stdpp Require Import prelude list gmap strings.
From Stdlib Require Import ZArith Lia.
From S2P Require Import Prelude MerkleKey MerkleHash FieldHash MerkleProof Spiderman MemTree LeafUpdates.
From S2P Require Import Wire Serialize ByteOrder Qblob BlobFormat BlobRecorder Codecs RealmFinalize EndCap.

(** ** Chains *)
Section chains.
Context {A Hash : Type} (start finish : A → Hash).

(** Each element ends where the next begins. *)
Fixpoint linked (l : list A) : Prop :=
  match l with a :: ((b :: _) as l) => finish a = start b ∧ linked l | _ => True end.

(** The same, from the end: [next] is where the last element ends. *)
Fixpoint rlinked (next : Hash) (l : list A) : Prop :=
  match l with [] => True | a :: l => finish a = next ∧ rlinked (start a) l end.

Lemma linked_snoc l a : linked (l ++ [a]) ↔ linked l ∧ ∀ b, last l = Some b → finish b = start a.
Proof.
  induction l as [|x [|y l] IH].
  - cbn. naive_solver.
  - cbn. naive_solver.
  - change (linked ((x :: y :: l) ++ [a])) with (finish x = start y ∧ linked ((y :: l) ++ [a])).
    rewrite IH. change (last (x :: y :: l)) with (last (y :: l)). cbn [linked]. tauto.
Qed.

Lemma rlinked_reverse l : ∀ next, rlinked next (reverse l) ↔ linked l ∧ ∀ b, last l = Some b → finish b = next.
Proof.
  induction l as [|a l IH] using rev_ind; intros next; [cbn; naive_solver|].
  rewrite reverse_snoc, linked_snoc, last_snoc. cbn [rlinked]. rewrite IH. naive_solver.
Qed.
End chains.

(** ** Recording a proof *)
Section record.
Context {K Node Hash : Type} `{Countable K, EqDecision Hash, MerkleHasher Hash, FastFixedSerializable Node}.
Context (mk_key : Z → Z → K) (mk_node : K → Hash → Node).

Lemma root_step (v s : Hash) index ss :
  0 ≤ index → (length ss < 64)%nat →
  compute_root_merkle_proof_generic (two_to_one_swap (Z.land index 1 =? 1) v s) (u64_shr index 1) ss =
  compute_root_merkle_proof_generic v index (s :: ss).
Proof.
  intros Hi Hl. unfold compute_root_merkle_proof_generic. cbn [compute_root_loop].
  rewrite (compute_root_loop_bits ss 0 1 _ (u64_shr index 1) index).
  - f_equal. rewrite land_1_odd, index_bit_set_small by lia. change (Z.of_nat 0) with 0. rewrite Z.bit0_odd.
    unfold two_to_one_swap. by destruct (Z.odd index).
  - intros k Hk. apply (high_index_bits index 1 k). lia.
Qed.

(** Whatever was recorded before, the root is the root of the path. *)
Lemma record_loop_root ss : ∀ r level index v,
  0 ≤ index → (length ss ≤ 64)%nat →
  (record_loop mk_key mk_node r level index v ss []).1 = compute_root_merkle_proof_generic v index ss.
Proof.
  induction ss as [|s ss IH]; intros r level index v Hi Hl; cbn [record_loop insert_key].
  - by destruct (bool_decide _).
  - destruct (bool_decide _); [|by rewrite app_nil_r]. cbn in Hl. rewrite IH, root_step by (lia || (unfold u64_shr; apply Z.shiftr_nonneg; lia)). done.
Qed.

Lemma record_delta_Ok r level d x r' :
  0 ≤ dmp_index d → (length (dmp_siblings d) ≤ 64)%nat →
  record_delta_merkle_proof mk_key mk_node level d r = (Ok x, r') →
  Z.of_nat (length (dmp_siblings d)) ≤ level ∧ verify_delta d = true ∧ x = MerkleProof.new_root d.
Proof.
  intros Hi Hl. unfold record_delta_merkle_proof. destruct (Z.ltb_spec level (Z.of_nat (length (dmp_siblings d)))); [done|].
  rewrite verify_delta_spec.
  destruct (bool_decide (compute_root_merkle_proof_generic (old_value d) _ _ = _)) eqn:E1; [|done]. apply bool_decide_eq_true in E1. cbn [negb].
  unfold record_merkle_root. rewrite Nat.min_l, firstn_all, drop_all by lia.
  pose proof (record_loop_root (dmp_siblings d) r level (dmp_index d) (new_value d) Hi Hl) as Hr.
  destruct (record_loop _ _ _ _ _ _ _ _) as [y r1]. cbn in Hr. subst y.
  destruct (bool_decide _) eqn:E2; [|done]. apply bool_decide_eq_true in E2. cbn [negb]. intros [= <- <-]. done.
Qed.

Lemma record_delta_accepts r level d :
  0 ≤ dmp_index d → Z.of_nat (length (dmp_siblings d)) ≤ level → verify_delta d = true →
  ∃ r', record_delta_merkle_proof mk_key mk_node level d r = (Ok (MerkleProof.new_root d), r').
Proof.
  intros Hi Hlev Hv. apply verify_delta_spec in Hv as (Hl & E1 & E2). unfold record_delta_merkle_proof.
  destruct (Z.ltb_spec level (Z.of_nat (length (dmp_siblings d)))); [lia|].
  rewrite bool_decide_eq_true_2 by done. cbn [negb].
  unfold record_merkle_root. rewrite Nat.min_l, firstn_all, drop_all by lia.
  pose proof (record_loop_root (dmp_siblings d) r level (dmp_index d) (new_value d) Hi Hl) as Hr.
  destruct (record_loop _ _ _ _ _ _ _ _) as [y r1]. cbn in Hr. subst y. rewrite bool_decide_eq_true_2 by done.
  rewrite E2. by exists r1.
Qed.

(** A recorder only appends. *)
Definition extends (r r' : MerkleRecorder K) : Prop :=
  rec_start_offset r' = rec_start_offset r ∧ ∃ x, rec_blob r' = rec_blob r ++ x.

Lemma extends_refl r : extends r r.
Proof. split; [done|]. exists []. by rewrite app_nil_r. Qed.

Lemma extends_trans r1 r2 r3 : extends r1 r2 → extends r2 r3 → extends r1 r3.
Proof. intros [E1 [x Ex]] [E2 [y Ey]]. split; [congruence|]. exists (x ++ y). by rewrite Ey, Ex, app_assoc. Qed.

Lemma record_loop_extends ss tail : ∀ r level index v, extends r (record_loop mk_key mk_node r level index v ss tail).2.
Proof.
  induction ss as [|s ss IH]; intros r level index v; cbn [record_loop insert_key]; destruct (bool_decide _).
  1: split; [done|]; by eexists.
  2: eapply extends_trans; [|apply IH]; split; [done|]; by eexists.
  all: split; [done|]; exists []; by rewrite app_nil_r.
Qed.

Lemma record_delta_extends r level d o r' :
  record_delta_merkle_proof mk_key mk_node level d r = (o, r') → extends r r'.
Proof.
  unfold record_delta_merkle_proof. destruct (_ <? _); [intros [= _ <-]; apply extends_refl|].
  destruct (negb _); [intros [= _ <-]; apply extends_refl|]. unfold record_merkle_root.
  match goal with |- context [record_loop ?mk ?mn ?r ?l ?i ?v ?a ?b] => pose proof (record_loop_extends a b r l i v) as Hx;
    destruct (record_loop mk mn r l i v a b) as [x r1] end.
  destruct (negb _); by intros [= _ <-].
Qed.

Lemma finalize_fits bt tt size cx r r0 :
  extends r0 r → rec_blob r0 = replicate (Z.to_nat (rec_start_offset r0) + 84) 0 ∨
    (∃ b, rec_blob r0 = b ++ replicate 84 0 ∧ rec_start_offset r0 = Z.of_nat (length b)) →
  ∃ b, rec_finalize_with_header bt tt size r cx = Ok b.
Proof.
  intros [Es [x Ex]] Hr. unfold rec_finalize_with_header, write_at. rewrite length_header, Ex, length_app, Es.
  destruct (Z.leb_spec (rec_start_offset r0 + Z.of_nat 84) (Z.of_nat (length (rec_blob r0) + length x))) as [|Hlt]; [by eexists|].
  destruct Hr as [Hr|(b & Hr & Hb)]; rewrite Hr in Hlt; rewrite ?length_app, ?length_replicate in Hlt; lia.
Qed.

Lemma graceful_record r level d : graceful (record_delta_merkle_proof mk_key mk_node level d r).1.
Proof.
  unfold record_delta_merkle_proof. destruct (_ <? _); [done|]. destruct (negb _); [done|].
  destruct (record_merkle_root _ _ _ _ _ _ _). by destruct (negb _).
Qed.
End record.

(** ** What is accepted *)
Section accepts.
Context {F Hash : Type} `{FieldHash F Hash} `{EqDecision F, EqDecision Hash}.
Context `{MerkleHasher Hash, !ZeroableHash Hash, !MerkleZeroHasher Hash} `{Q256BitHash Hash}.
Abbreviation delta := (DeltaMerkleProofCore Hash).
Abbreviation history := (ContractStateUpdateHistory F Hash).
Abbreviation update := (ContractStateUpdate F Hash).
Abbreviation input := (SubmitUserEndCapNonProofInput F Hash).
Abbreviation uct := (user_contract_tree_update_proof (F := F)).

(** The delta proofs of an update, in the order they apply. *)
Definition update_deltas (u : update) : list delta :=
  match u with Positional d | IMT (Update _ _ d) => [d] | IMT (Insert _ _ _ pred new) => [pred; new] end.

Definition history_deltas (csu : history) : list delta := concat (update_deltas <$> updates csu).

(** Proofs as the decoder gives them, of trees of height at most 64. *)
Definition delta_in (d : delta) : Prop := is_uint 64 (dmp_index d) ∧ (length (dmp_siblings d) ≤ 64)%nat.

Definition history_in (csu : history) : Prop := delta_in (uct csu) ∧ Forall delta_in (history_deltas csu).

(** The two conditions apart: the index is a [u64], as the type says, and the proof is
    no longer than the recorder's loop over the bits of the index is meant for. *)
Definition history_typed (csu : history) : Prop := Forall (λ d, is_uint 64 (dmp_index d)) (uct csu :: history_deltas csu).
Definition history_short (csu : history) : Prop :=
  Forall (λ d, (length (dmp_siblings d) ≤ 64)%nat) (uct csu :: history_deltas csu).

Lemma typed_short_in (csus : list history) : Forall history_typed csus → Forall history_short csus → Forall history_in csus.
Proof.
  intros Ht Hs. apply Forall_forall. intros csu Hin. rewrite Forall_forall in Ht, Hs.
  destruct (proj1 (Forall_cons _ _ _) (Ht csu Hin)) as [Hi His], (proj1 (Forall_cons _ _ _) (Hs csu Hin)) as [Hl Hls].
  split; [by split|]. apply Forall_and. by split.
Qed.

Definition update_ok (u : update) : Prop :=
  Forall (λ d, verify_delta d = true) (update_deltas u) ∧ linked MerkleProof.old_root MerkleProof.new_root (update_deltas u).

(** The changes of one contract begin at the value the contract tree had, which for a
    contract the user never touched stands for an empty tree, and end at its new value. *)
Definition history_ok (height : Z) (csu : history) : Prop :=
  verify_delta (uct csu) = true ∧ Z.of_nat (length (dmp_siblings (uct csu))) ≤ height ∧
  Forall update_ok (updates csu) ∧ linked update_old_root update_new_root (updates csu) ∧
  ∃ first last, head (updates csu) = Some first ∧ list.last (updates csu) = Some last ∧
    new_value (uct csu) = update_new_root last ∧
    (old_value (uct csu) = update_old_root first ∨
     old_value (uct csu) = get_zero_hash 0 ∧ update_old_root first = get_zero_hash (update_height first)).

Definition end_cap_ok (e : input) : Prop :=
  ∃ first, head (contract_state_updates e) = Some first ∧
    linked (λ csu, MerkleProof.old_root (uct csu)) (λ csu, MerkleProof.new_root (uct csu)) (contract_state_updates e) ∧
    Forall (history_ok (Z.of_nat (length (dmp_siblings (uct first))))) (contract_state_updates e).

Lemma end_cap_ok_short e : end_cap_ok e → Forall history_short (contract_state_updates e).
Proof.
  intros (first & _ & _ & Hh). eapply Forall_impl; [exact Hh|]. intros csu ((Hl & _)%verify_delta_spec & _ & Hu & _).
  constructor; [done|]. apply Forall_concat, Forall_fmap. eapply Forall_impl; [exact Hu|].
  intros u [Hv _]. eapply Forall_impl; [exact Hv|]. by intros d (? & _)%verify_delta_spec.
Qed.

Lemma hash_eqb_eq (a b : Hash) : hash_eqb a b = true ↔ a = b.
Proof. apply bool_decide_eq_true. Qed.

Lemma siblings_u8_small (d : delta) : delta_in d → siblings_u8 d = Z.of_nat (length (dmp_siblings d)).
Proof. intros [_ Hl]. apply wrap_small. lia. Qed.

Lemma record_cst_Ok uid cid d r x r' :
  delta_in d → record_cst uid cid d r = Ok (x, r') → verify_delta d = true ∧ x = MerkleProof.new_root d.
Proof.
  intros [Hi Hl] E. unfold record_cst in E.
  destruct (double_record_validate_delta_merkle_proof _ _ _ _ _) as [o r1] eqn:Er. destruct o as [y| | |]; try done. injection E as <- <-.
  apply record_delta_Ok in Er as (_ & ? & ?); [done|destruct Hi; lia|done].
Qed.

Lemma record_cst_accepts uid cid d r :
  delta_in d → verify_delta d = true → ∃ r', record_cst uid cid d r = Ok (MerkleProof.new_root d, r').
Proof.
  intros Hd Hv. unfold record_cst, double_record_validate_delta_merkle_proof. rewrite siblings_u8_small by done. destruct Hd as [Hi Hl].
  destruct (record_delta_accepts (mkDoubleIdKey uid cid) mkDoubleNode r (Z.of_nat (length (dmp_siblings d))) d) as [r' ->];
    [destruct Hi; lia|lia|done|]. by exists r'.
Qed.

(** The entries an update adds. *)
Definition update_entries (uid cid : Z) (u : update) : list Z :=
  match u with
  | Positional _ => []
  | IMT (Update _ new_preimage d) => leaf_entry uid cid (dmp_index d) new_preimage false
  | IMT (Insert _ pred_new new_leaf pred new) =>
      leaf_entry uid cid (dmp_index pred) pred_new false ++ leaf_entry uid cid (dmp_index new) new_leaf true
  end.

Lemma cst_update_Ok uid cid r next u r' old entries :
  Forall delta_in (update_deltas u) → cst_update uid cid r next u = Ok (r', old, entries) →
  update_ok u ∧ update_new_root u = next ∧ old = update_old_root u ∧ entries = update_entries uid cid u.
Proof.
  assert (Hstep : ∀ d r b msg (k : QBlobDoubleIdMerkleRecorder → outcome (QBlobDoubleIdMerkleRecorder * Hash * list Z)) z,
    delta_in d →
    (let* (computed, r) := record_cst uid cid d r in
     let* _ := ensure (hash_eqb computed (MerkleProof.new_root d) && b) msg in k r) = Ok z →
    verify_delta d = true ∧ b = true ∧ ∃ r1, k r1 = Ok z).
  { intros d r0 b msg k z Hd E. destruct (record_cst uid cid d r0) as [[x r1]| | |] eqn:Er; try done. cbn [outcome_bind] in E.
    apply record_cst_Ok in Er as [? _]; [|done]. destruct (hash_eqb x _), b; try done. split_and!; [done|done|by exists r1]. }
  unfold cst_update, update_ok. destruct u as [d|[o n d|po pn nl pred new]]; cbn [update_deltas]; intros Hin E.
  1, 2: apply Forall_cons in Hin as [Hd _]; apply Hstep in E as (? & ?%hash_eqb_eq & r1 & [= <- <- <-]); [|done];
    cbn; split_and!; [by repeat constructor|done|done|done|done].
  apply Forall_cons in Hin as [Hp [Hn _]%Forall_cons]. apply Hstep in E as (? & ?%hash_eqb_eq & r1 & E); [|done].
  apply (Hstep pred) in E as (? & ?%hash_eqb_eq & r2 & [= <- <- <-]); [|done].
  cbn. split_and!; [by repeat constructor|done|done|done|done|done].
Qed.

Lemma cst_update_accepts uid cid r u :
  Forall delta_in (update_deltas u) → update_ok u →
  ∃ r', cst_update uid cid r (update_new_root u) u = Ok (r', update_old_root u, update_entries uid cid u).
Proof.
  unfold cst_update, update_ok. destruct u as [d|[o n d|po pn nl pred new]]; cbn [update_deltas]; intros Hin [Hv Hl].
  1, 2: apply Forall_cons in Hin as [Hd _]; apply Forall_cons in Hv as [Hv _];
    destruct (record_cst_accepts uid cid d r Hd Hv) as [r' ->]; cbn [outcome_bind update_new_root imt_new_root];
    unfold hash_eqb; rewrite bool_decide_eq_true_2 by done; by exists r'.
  apply Forall_cons in Hin as [Hp [Hn _]%Forall_cons]. apply Forall_cons in Hv as [Hvp [Hvn _]%Forall_cons]. destruct Hl as [Hl _].
  destruct (record_cst_accepts uid cid new r Hn Hvn) as [r1 ->]. cbn [outcome_bind update_new_root imt_new_root].
  unfold hash_eqb. rewrite bool_decide_eq_true_2 by done. cbn [andb ensure outcome_bind].
  destruct (record_cst_accepts uid cid pred r1 Hp Hvp) as [r2 ->]. cbn [outcome_bind].
  rewrite !bool_decide_eq_true_2 by done. by exists r2.
Qed.

Lemma update_deltas_in us : Forall delta_in (concat (update_deltas <$> us)) → Forall (λ u, Forall delta_in (update_deltas u)) us.
Proof. intros Hf%Forall_concat. exact (proj1 (Forall_fmap _ _ _) Hf). Qed.

Lemma cst_updates_loop_Ok uid cid us : Forall (λ u, Forall delta_in (update_deltas u)) us → ∀ r next acc r' old acc',
  cst_updates_loop uid cid r next acc us = Ok (r', old, acc') →
  Forall update_ok us ∧ rlinked update_old_root update_new_root next us ∧
  old = from_option update_old_root next (last us) ∧ acc' = acc ++ concat (update_entries uid cid <$> us).
Proof.
  induction 1 as [|u us Hu Hus IH]; intros r next acc r' old acc' E; cbn [cst_updates_loop] in E.
  - injection E as <- <- <-. cbn. by rewrite app_nil_r.
  - destruct (cst_update uid cid r next u) as [[[r1 next1] ent]| | |] eqn:Eu; try done. cbn [outcome_bind] in E.
    apply cst_update_Ok in Eu as (Hok & <- & -> & ->); [|done].
    apply IH in E as (Hoks & Hl & -> & ->). split_and!; [by constructor|done| |].
    + rewrite last_cons. by destruct (last us).
    + cbn. by rewrite <- app_assoc.
Qed.

Lemma cst_updates_loop_accepts uid cid us : Forall (λ u, Forall delta_in (update_deltas u)) us → ∀ r next acc,
  Forall update_ok us → rlinked update_old_root update_new_root next us →
  ∃ r', cst_updates_loop uid cid r next acc us =
    Ok (r', from_option update_old_root next (last us), acc ++ concat (update_entries uid cid <$> us)).
Proof.
  induction 1 as [|u us Hu Hus IH]; intros r next acc Hok Hl; cbn [cst_updates_loop].
  - exists r. cbn. by rewrite app_nil_r.
  - apply Forall_cons in Hok as [Hok Hoks]. destruct Hl as [<- Hl].
    destruct (cst_update_accepts uid cid r u Hu Hok) as [r1 ->]. cbn [outcome_bind].
    destruct (IH r1 _ (acc ++ update_entries uid cid u) Hoks Hl) as [r' ->]. exists r'.
    rewrite last_cons. cbn. rewrite <- app_assoc. by destruct (last us).
Qed.

(** The first loop: the proofs of the contract tree and the ends of the histories. *)
Definition starts_ok (csu : history) (first : update) : Prop :=
  old_value (uct csu) = update_old_root first ∨
  old_value (uct csu) = get_zero_hash 0 ∧ update_old_root first = get_zero_hash (update_height first).

Definition ends_ok (height : Z) (csu : history) : Prop :=
  verify_delta (uct csu) = true ∧ Z.of_nat (length (dmp_siblings (uct csu))) ≤ height ∧
  ∃ first last, head (updates csu) = Some first ∧ list.last (updates csu) = Some last ∧
    new_value (uct csu) = update_new_root last ∧ starts_ok csu first.

Abbreviation uct_old := (λ csu : history, MerkleProof.old_root (uct csu)).
Abbreviation uct_new := (λ csu : history, MerkleProof.new_root (uct csu)).

Lemma uct_loop_Ok uid height csus : Forall history_in csus → ∀ r next r',
  uct_loop uid height r next csus = Ok r' → Forall (ends_ok height) csus ∧ rlinked uct_old uct_new next csus.
Proof.
  induction 1 as [|csu csus [[Hi Hl] _] _ IH]; intros r next r' E; cbn [uct_loop] in E; [done|].
  destruct (head (updates csu)) as [first|] eqn:Ef, (last (updates csu)) as [lst|] eqn:El; try done.
  destruct (single_record_validate_delta_merkle_proof _ _ _ _) as [[x| | |] r1] eqn:Er; try done. cbn [outcome_bind] in E.
  apply record_delta_Ok in Er as (Hlen & Hv & ->); [|destruct Hi; lia|done]. outcome_inv.
  repeat match goal with Hb : hash_eqb _ _ = true |- _ => apply hash_eqb_eq in Hb end. apply IH in E as [Hends Hlink].
  split; [constructor; [|done]|by split]. split_and!; [done|done|]. exists first, lst. split_and!; [done|done|done|].
  unfold starts_ok. match goal with Hb : _ || _ = true |- _ => apply orb_prop in Hb as [Hb|[Hb Hb']%andb_prop] end;
    rewrite ?hash_eqb_eq in *; auto.
Qed.

Lemma uct_loop_accepts uid height csus : Forall history_in csus → ∀ r next,
  Forall (ends_ok height) csus → rlinked uct_old uct_new next csus → ∃ r', uct_loop uid height r next csus = Ok r'.
Proof.
  induction 1 as [|csu csus [[Hi Hl] _] _ IH]; intros r next Hends Hlink; cbn [uct_loop]; [by exists r|].
  apply Forall_cons in Hends as [(Hv & Hlen & first & lst & -> & -> & Hnew & Hstart) Hends]. destruct Hlink as [<- Hlink].
  destruct (record_delta_accepts (mkSingleKey uid) mkSingleNode r height (uct csu)) as [r1 E1]; [destruct Hi; lia|done|done|].
  unfold single_record_validate_delta_merkle_proof. rewrite E1. cbn [outcome_bind]. unfold hash_eqb.
  rewrite !(bool_decide_eq_true_2 (MerkleProof.new_root (uct csu) = _)), (bool_decide_eq_true_2 (new_value (uct csu) = _)) by done.
  cbn [ensure outcome_bind].
  replace (_ || _) with true; [by apply IH|]. symmetry. apply orb_true_iff. destruct Hstart as [?|[? ?]]; [left|right; apply andb_true_iff; split];
    by apply bool_decide_eq_true.
Qed.

(** The second loop: the proofs of the state trees. *)
Definition states_ok (csu : history) : Prop := Forall update_ok (updates csu) ∧ linked update_old_root update_new_root (updates csu).

Lemma cst_loop_Ok uid csus : Forall history_in csus → ∀ r acc r' acc',
  cst_loop uid r acc csus = Ok (r', acc') →
  Forall states_ok csus ∧
  acc' = acc ++ concat ((λ csu, concat (update_entries uid (dmp_index (uct csu)) <$> reverse (updates csu))) <$> csus).
Proof.
  induction 1 as [|csu csus [_ Hd%update_deltas_in] _ IH]; intros r acc r' acc' E; cbn [cst_loop] in E.
  { injection E as <- <-. split; [constructor|]. by rewrite app_nil_r. }
  destruct (last (updates csu)) as [lst|] eqn:El; [|done]. cbn [unwrap outcome_bind] in E.
  destruct (cst_updates_loop _ _ _ _ _ _) as [[[r1 next1] acc1]| | |] eqn:Eu; try done. cbn [outcome_bind] in E.
  apply cst_updates_loop_Ok in Eu as (Hok & Hl & _ & ->); [|by rewrite Forall_reverse]. apply outcome_bind_Ok in E as ([] & _ & E).
  apply IH in E as [Hst ->]. split; [|cbn [fmap list_fmap concat]; by rewrite app_assoc].
  constructor; [|done]. apply rlinked_reverse in Hl as [Hl _]. split; [by rewrite <- Forall_reverse|done].
Qed.

Lemma cst_loop_accepts uid height csus : Forall history_in csus → ∀ r acc,
  Forall (ends_ok height) csus → Forall states_ok csus →
  ∃ r', cst_loop uid r acc csus =
    Ok (r', acc ++ concat ((λ csu, concat (update_entries uid (dmp_index (uct csu)) <$> reverse (updates csu))) <$> csus)).
Proof.
  induction 1 as [|csu csus [_ Hd%update_deltas_in] _ IH]; intros r acc Hends Hst; cbn [cst_loop].
  { exists r. cbn. by rewrite app_nil_r. }
  apply Forall_cons in Hends as [(_ & _ & first & lst & Ef & El & _ & Hstart) Hends]. apply Forall_cons in Hst as [[Hok Hl] Hst].
  rewrite El. cbn [unwrap outcome_bind].
  destruct (cst_updates_loop_accepts uid (dmp_index (uct csu)) (reverse (updates csu)) ltac:(by rewrite Forall_reverse) r (update_new_root lst) acc)
    as [r1 ->]; [by rewrite Forall_reverse|apply rlinked_reverse; split; [done|by intros b [= ->]%(eq_trans (eq_sym El))]|].
  cbn [outcome_bind]. rewrite last_reverse, Ef. cbn [from_option unwrap outcome_bind]. unfold hash_eqb.
  destruct (IH r1 (acc ++ concat (update_entries uid (dmp_index (uct csu)) <$> reverse (updates csu))) Hends Hst) as [r' Er'].
  exists r'. cbn [fmap list_fmap concat]. rewrite app_assoc, <- Er'.
  destruct Hstart as [Hs|[Hz Hs]]; [by rewrite bool_decide_eq_true_2|].
  destruct (bool_decide (update_old_root first = _)); [done|]. rewrite !bool_decide_eq_true_2 by done. done.
Qed.

(** *** The recorders in the loops *)
Lemma uct_loop_extends uid height (csus : list history) : ∀ r next r', uct_loop uid height r next csus = Ok r' → extends r r'.
Proof.
  induction csus as [|csu csus IH]; intros r next r' E; cbn [uct_loop] in E; [injection E as <-; apply extends_refl|].
  destruct (head (updates csu)), (last (updates csu)); try done.
  destruct (single_record_validate_delta_merkle_proof _ _ _ _) as [[x| | |] r1] eqn:Er; try done. cbn [outcome_bind] in E.
  apply record_delta_extends in Er. outcome_inv. apply IH in E. by eapply extends_trans.
Qed.

Lemma record_cst_extends uid cid d r x r' : record_cst uid cid d r = Ok (x, r') → extends r r'.
Proof.
  unfold record_cst. destruct (double_record_validate_delta_merkle_proof _ _ _ _ _) as [[y| | |] r1] eqn:Er; try done.
  intros [= _ <-]. by eapply record_delta_extends.
Qed.

Lemma cst_updates_loop_extends uid cid (us : list update) : ∀ r next acc r' old acc',
  cst_updates_loop uid cid r next acc us = Ok (r', old, acc') → extends r r'.
Proof.
  induction us as [|u us IH]; intros r next acc r' old acc' E; cbn [cst_updates_loop] in E; [injection E as <- _ _; apply extends_refl|].
  destruct (cst_update uid cid r next u) as [[[r1 next1] ent]| | |] eqn:Eu; try done. cbn [outcome_bind] in E. apply IH in E.
  eapply extends_trans; [|exact E]. clear E IH. unfold cst_update in Eu. destruct u as [d|[o n d|po pn nl pred new]];
    apply outcome_bind_Ok in Eu as ([x r2] & E1%record_cst_extends & Eu); apply outcome_bind_Ok in Eu as ([] & _ & Eu).
  1, 2: by injection Eu as <- _ _.
  apply outcome_bind_Ok in Eu as ([y r3] & E2%record_cst_extends & Eu). apply outcome_bind_Ok in Eu as ([] & _ & Eu).
  injection Eu as <- _ _. by eapply extends_trans.
Qed.

Lemma cst_loop_extends uid (csus : list history) : ∀ r acc r' acc', cst_loop uid r acc csus = Ok (r', acc') → extends r r'.
Proof.
  induction csus as [|csu csus IH]; intros r acc r' acc' E; cbn [cst_loop] in E; [injection E as <- _; apply extends_refl|].
  apply outcome_bind_Ok in E as (lst & _ & E). apply outcome_bind_Ok in E as ([[r1 next1] acc1] & E1%cst_updates_loop_extends & E).
  apply outcome_bind_Ok in E as ([] & _ & E). apply IH in E. by eapply extends_trans.
Qed.

Lemma single_finalizes r cx : extends rec_new_with_header r → ∃ r', finalize_with_header_into_double r cx UserContractTree = Ok r' ∧
  ∃ b, rec_blob r' = b ++ replicate 84 0 ∧ rec_start_offset r' = Z.of_nat (length b).
Proof.
  intros Hx. unfold finalize_with_header_into_double, single_finalize_with_header.
  destruct (finalize_fits GenericSingleIdMerkleNodeBatch UserContractTree QMS_FAST_SERIALIZER_SINGLE_ID_NODE_SIZE cx r _ Hx) as [b ->]; [by left|].
  cbn [outcome_bind]. eexists. split; [done|]. by exists b.
Qed.

Lemma end_cap_ok_split e first :
  head (contract_state_updates e) = Some first →
  end_cap_ok e ↔ linked uct_old uct_new (contract_state_updates e) ∧
    Forall (ends_ok (Z.of_nat (length (dmp_siblings (uct first))))) (contract_state_updates e) ∧
    Forall states_ok (contract_state_updates e).
Proof.
  intros Ef. unfold end_cap_ok. rewrite Ef. rewrite <- Forall_and. split.
  - intros (f & [= <-] & Hl & Hh). split; [done|]. eapply Forall_impl; [exact Hh|]. intros csu (? & ? & ? & ? & ?). by repeat split.
  - intros [Hl Hh]. exists first. split_and!; [done|done|]. eapply Forall_impl; [exact Hh|].
    intros csu [(? & ? & ?) [? ?]]. by repeat split.
Qed.

Lemma Forall_reverse_2 {A} (P : A → Prop) l : Forall P l → Forall P (reverse l).
Proof. by rewrite Forall_reverse. Qed.

(** *** No input makes the edge panic *)
Lemma graceful_record_cst uid cid d r : graceful (record_cst uid cid d r).
Proof.
  unfold record_cst, double_record_validate_delta_merkle_proof.
  pose proof (graceful_record (mkDoubleIdKey uid cid) mkDoubleNode r (siblings_u8 d) d) as Hg.
  destruct (record_delta_merkle_proof _ _ _ _ _) as [o r']. cbn in Hg. by destruct o.
Qed.

Lemma graceful_uct_loop uid height (csus : list history) : ∀ r next, graceful (uct_loop uid height r next csus).
Proof.
  induction csus as [|csu csus IH]; intros r next; cbn [uct_loop]; [done|].
  destruct (head (updates csu)), (last (updates csu)); [|done..].
  pose proof (graceful_record (mkSingleKey uid) mkSingleNode r height (uct csu)) as Hg.
  unfold single_record_validate_delta_merkle_proof. destruct (record_delta_merkle_proof _ _ _ _ _) as [o r']. cbn in Hg.
  destruct o; try done. cbn [outcome_bind]. graceful.
Qed.

Lemma graceful_cst_update uid cid r next (u : update) : graceful (cst_update uid cid r next u).
Proof. pose proof (graceful_record_cst uid cid). unfold cst_update. destruct u as [d|[o n d|po pn nl pred new]]; graceful. Qed.

Lemma graceful_cst_updates_loop uid cid (us : list update) : ∀ r next acc, graceful (cst_updates_loop uid cid r next acc us).
Proof. pose proof (graceful_cst_update uid cid). induction us as [|u us IH]; intros r next acc; cbn [cst_updates_loop]; graceful. Qed.

(** Both [unwrap]s are guarded by the first loop. *)
Lemma graceful_cst_loop uid (csus : list history) :
  Forall (λ csu, updates csu ≠ []) csus → ∀ r acc, graceful (cst_loop uid r acc csus).
Proof.
  pose proof (graceful_cst_updates_loop uid) as Hl.
  induction 1 as [|csu csus Hne _ IH]; intros r acc; cbn [cst_loop]; [done|].
  destruct (last (updates csu)) as [lst|] eqn:El; [|by apply last_None in El]. destruct (updates csu) as [|first us] eqn:Eu; [done|].
  cbn [head unwrap outcome_bind]. graceful; by try destruct a as [[? ?] ?].
Qed.

Lemma uct_loop_nonempty uid height (csus : list history) : ∀ r next r',
  uct_loop uid height r next csus = Ok r' → Forall (λ csu, updates csu ≠ []) csus.
Proof.
  induction csus as [|csu csus IH]; intros r next r' E; cbn [uct_loop] in E; [constructor|].
  destruct (updates csu) as [|u us] eqn:Eu; [done|]. destruct (last (u :: us)); [|done]. cbn [head] in E.
  destruct (single_record_validate_delta_merkle_proof _ _ _ _) as [[x| | |] r1]; try done. cbn [outcome_bind] in E. outcome_inv.
  constructor; [by rewrite Eu|]. by eapply IH.
Qed.

Lemma graceful_validate now cx uid (e : input) : graceful (validate_end_cap_and_generate_node_data_for_edge now cx uid e).
Proof.
  unfold validate_end_cap_and_generate_node_data_for_edge. destruct (head _) as [first|]; [|done]. destruct (last _) as [lst|]; [|done].
  pose proof (graceful_uct_loop uid (siblings_u8 (uct first)) (reverse (contract_state_updates e)) rec_new_with_header (MerkleProof.new_root (uct lst))) as Hg.
  destruct (uct_loop _ _ _ _ _) as [r1| | |] eqn:E1; try done. cbn [outcome_bind].
  destruct (single_finalizes r1 cx) as (r2 & E2 & Hr2); [by eapply uct_loop_extends|]. rewrite E2. cbn [outcome_bind].
  pose proof (graceful_cst_loop uid (reverse (contract_state_updates e)) (uct_loop_nonempty _ _ _ _ _ _ E1) r2 []) as Hc.
  destruct (cst_loop _ _ _ _) as [[r3 acc]| | |] eqn:E3; try done. cbn [outcome_bind]. apply cst_loop_extends in E3.
  destruct (finalize_fits GenericDoubleIdMerkleNodeBatch UserContractStateTree QMS_FAST_SERIALIZER_DOUBLE_ID_NODE_SIZE cx r3 r2 E3) as [b Eb];
    [by right|]. unfold double_finalize_with_header. by rewrite Eb.
Qed.

Lemma short_end_cap_accepted_iff (now : Z) (cx : context) (user_id : Z) (e : input) :
  Forall history_in (contract_state_updates e) →
  (∃ blob, validate_end_cap_and_generate_node_data_for_edge now cx user_id e = Ok blob) ↔ end_cap_ok e.
Proof.
  intros Hin. unfold validate_end_cap_and_generate_node_data_for_edge.
  destruct (contract_state_updates e) as [|first csus] eqn:Ee; [split; [by intros [? ?]|]; intros (f & Ef & _); by rewrite Ee in Ef|].
  rewrite (end_cap_ok_split e first) by by rewrite Ee. rewrite Ee. set (l := first :: csus) in *. cbn [head l].
  destruct (last l) as [lst|] eqn:El; [|by apply last_None in El].
  assert (Hh : siblings_u8 (uct first) = Z.of_nat (length (dmp_siblings (uct first)))).
  { apply Forall_cons in Hin as [[Hd _] _]. by apply siblings_u8_small. }
  rewrite Hh. pose proof (Forall_reverse_2 _ _ Hin) as Hin'. split.
  - intros [blob E]. apply outcome_bind_Ok in E as (r1 & E1 & E). apply outcome_bind_Ok in E as (r2 & _ & E).
    apply outcome_bind_Ok in E as ([r3 acc] & E3 & _). apply uct_loop_Ok in E1 as [Hends Hl]; [|done]. apply cst_loop_Ok in E3 as [E3 _]; [|done].
    apply rlinked_reverse in Hl as [Hl _]. by rewrite Forall_reverse in Hends, E3.
  - intros (Hl & Hends%Forall_reverse_2 & Hst%Forall_reverse_2).
    destruct (uct_loop_accepts user_id (Z.of_nat (length (dmp_siblings (uct first)))) (reverse l) Hin' rec_new_with_header
                (MerkleProof.new_root (uct lst)) Hends) as [r1 E1].
    { apply rlinked_reverse. split; [done|]. by intros b [= ->]%(eq_trans (eq_sym El)). }
    rewrite E1. cbn [outcome_bind]. destruct (single_finalizes r1 cx) as (r2 & E2 & Hr2); [by eapply uct_loop_extends|].
    rewrite E2. cbn [outcome_bind]. destruct (cst_loop_accepts user_id _ (reverse l) Hin' r2 [] Hends Hst) as [r3 E3].
    rewrite E3. cbn [outcome_bind]. apply cst_loop_extends in E3.
    destruct (finalize_fits GenericDoubleIdMerkleNodeBatch UserContractStateTree QMS_FAST_SERIALIZER_DOUBLE_ID_NODE_SIZE cx r3 r2 E3) as [b Eb];
      [by right|]. unfold double_finalize_with_header. rewrite Eb. by eexists.
Qed.

(** C3: the edge never panics on an end cap. It accepts every end cap all whose
    delta proofs verify, whose proofs of the contract tree link up, whose changes of each
    contract link up from the value the contract tree had (an empty tree for a contract
    the user never touched) to its new value, and whose contract tree proofs are no
    longer than the first. Of the end caps whose proofs have at most 64 siblings each it
    accepts no others. Neither the decoder nor the edge bounds the siblings, and [verify]
    refuses longer proofs, so a longer proof can be accepted without verifying. *)
Theorem end_cap_accepted_iff (now : Z) (cx : context) (user_id : Z) (e : input) :
  Forall history_typed (contract_state_updates e) →
  graceful (validate_end_cap_and_generate_node_data_for_edge now cx user_id e) ∧
  (end_cap_ok e → ∃ blob, validate_end_cap_and_generate_node_data_for_edge now cx user_id e = Ok blob) ∧
  (Forall history_short (contract_state_updates e) →
   (∃ blob, validate_end_cap_and_generate_node_data_for_edge now cx user_id e = Ok blob) → end_cap_ok e).
Proof.
  intros Ht. split_and!; [apply graceful_validate| |].
  - intros Hok. apply short_end_cap_accepted_iff; [|done]. by apply typed_short_in, end_cap_ok_short.
  - intros Hs. apply short_end_cap_accepted_iff. by apply typed_short_in.
Qed.
End accepts.

(** ** Concrete end caps *)
Abbreviation demo_update := (ContractStateUpdate gold gold4).

Definition demo_leaf (k v n ni : Z) : IMTContractStateLeaf gold gold4 :=
  mkImtLeaf (example_hash k) (example_hash v) (example_hash n) (gold_of ni).

Definition demo_empty : Z → gold4 := λ _, get_zero_value.

(** Two leaves of contract 1 and two indexed leaves of contract 2. *)
Definition demo_log : list (Z * (Z * gold4)) :=
  [(1, (1, example_hash 100)); (1, (3, example_hash 200));
   (2, (0, imt_leaf_qfhash (demo_leaf 10 20 30 1))); (2, (1, imt_leaf_qfhash (demo_leaf 30 40 0 0)))].

Definition demo_state_deltas (c : Z) : list (DeltaMerkleProofCore gold4) :=
  deltas 2 demo_empty ((filter (λ x, x.1 = c) demo_log).*2).

Definition demo_updates : list demo_update * list demo_update :=
  (Positional <$> demo_state_deltas 1,
   match demo_state_deltas 2 with
   | [pred; new] => [IMT (Insert (demo_leaf 10 20 0 0) (demo_leaf 10 20 30 1) (demo_leaf 30 40 0 0) pred new)]
   | _ => []
   end).

Definition demo_roots : list (Z * gold4) :=
  (λ c, (c, tree_node (apply_updates demo_empty ((filter (λ x, x.1 = c) demo_log).*2)) 2 0)) <$> [1; 2].

Definition demo_histories : list (ContractStateUpdateHistory gold gold4) :=
  zip_with mkHistory (deltas 2 demo_empty demo_roots) [demo_updates.1; demo_updates.2].

(** An end cap of the user 7 from a contract tree to another. *)
Definition demo_old_leaf (root : gold4) : PQEDUserLeaf gold gold4 :=
  mkUserLeaf (example_hash 1) root (gold_of 50) (gold_of 1) (gold_of 3) (gold_of 0) (gold_of 7).

Definition demo_core (old_root new_root : gold4) : SubmitUserEndCapNonProofCoreInput gold gold4 :=
  let new_leaf := mkUserLeaf (example_hash 1) new_root (gold_of 40) (gold_of 2) (gold_of 5) (gold_of 0) (gold_of 7) in
  mkCoreInput (gold_of 5) (mkStats (gold_of 1) (gold_of 1) (gold_of 1) (gold_of 1) (gold_of 4))
    (mkEndCapResult (user_leaf_qfhash (demo_old_leaf old_root)) (user_leaf_qfhash new_leaf) (example_hash 500) (gold_of 7)) new_leaf.

Definition demo_end_cap : SubmitUserEndCapNonProofInput gold gold4 :=
  mkSubmitInput (demo_core (tree_node demo_empty 2 0) (tree_node (apply_updates demo_empty demo_roots) 2 0)) demo_histories [].

Lemma demo_histories_in : Forall history_in demo_histories.
Proof.
  apply (Forall_impl (λ csu, bool_decide (history_in csu) = true) _ demo_histories); [|by intros ? ?%bool_decide_eq_true].
  repeat constructor; vm_compute; reflexivity.
Qed.

Lemma end_cap_accepted_iff_witness :
  Forall history_typed (contract_state_updates demo_end_cap) ∧ Forall history_short (contract_state_updates demo_end_cap) ∧
  end_cap_ok demo_end_cap.
Proof.
  assert (Ht : Forall history_typed (contract_state_updates demo_end_cap)).
  { eapply Forall_impl; [exact demo_histories_in|]. intros csu [[? _] Hd]. constructor; [done|].
    eapply Forall_impl; [exact Hd|]. by intros d [? _]. }
  assert (Hs : Forall history_short (contract_state_updates demo_end_cap)).
  { eapply Forall_impl; [exact demo_histories_in|]. intros csu [[_ ?] Hd]. constructor; [done|].
    eapply Forall_impl; [exact Hd|]. by intros d [_ ?]. }
  split; [exact Ht|split; [exact Hs|]].
  apply (end_cap_accepted_iff 0 demo_context 7 demo_end_cap Ht); [exact Hs|]. eexists. vm_compute. reflexivity.
Defined.

(** *** A contract tree proof without siblings

    A contract tree of height 4; the end cap presents its upper half as the state tree
    of contract 0, whose height is 2. Both checks of the edge pass, and what is stored
    under contract 0 is not a leaf of that contract but a node of the contract tree. *)
Definition short_tree : Z → gold4 := update demo_empty 13 (example_hash 900).

Definition short_update : list (DeltaMerkleProofCore gold4) := deltas 2 (tree_node short_tree 2) [(3, example_hash 901)].

Definition short_end_cap : SubmitUserEndCapNonProofInput gold gold4 :=
  let old_root := tree_node short_tree 4 0 in
  let new_root := tree_node (update (tree_node short_tree 2) 3 (example_hash 901)) 2 0 in
  mkSubmitInput (demo_core old_root new_root)
    [mkHistory (from_params 0 old_root new_root []) (Positional <$> short_update)] [].

Lemma short_contract_tree_proof_accepted :
  let old_leaf := demo_old_leaf (tree_node short_tree 4 0) in
  let heights : DashMapContractHeightCache gold4 := add_contract ∅ 0 2 (get_zero_hash 2) in
  ensure_simple_self_consistent short_end_cap old_leaf (get_proof_public_inputs_hash (core short_end_cap) 32) heights 32 4 = Ok tt ∧
  (∃ blob, validate_end_cap_and_generate_node_data_for_edge 0 demo_context 7 short_end_cap = Ok blob) ∧
  Forall (λ csu, dmp_siblings (user_contract_tree_update_proof csu) = []) (contract_state_updates short_end_cap).
Proof. split_and!; [vm_compute; reflexivity|eexists; vm_compute; reflexivity|repeat constructor]. Qed.

(** *** A contract tree proof of 65 siblings

    [verify] refuses it, both checks of the edge pass. *)
Definition long_proof (update : DeltaMerkleProofCore gold4) : DeltaMerkleProofCore gold4 :=
  from_params 0 (MerkleProof.old_root update) (MerkleProof.new_root update) (replicate 65 get_zero_value).

Definition long_end_cap (update : DeltaMerkleProofCore gold4) : SubmitUserEndCapNonProofInput gold gold4 :=
  let p := long_proof update in
  mkSubmitInput (demo_core (MerkleProof.old_root p) (MerkleProof.new_root p)) [mkHistory p [Positional update]] [].

Definition long_update : DeltaMerkleProofCore gold4 :=
  from_params 1 (demo_empty 1) (example_hash 100) (tree_siblings demo_empty 2 1).

Lemma long_contract_tree_proof_accepted :
  let e := long_end_cap long_update in
  let old_leaf := demo_old_leaf (MerkleProof.old_root (long_proof long_update)) in
  let heights : DashMapContractHeightCache gold4 := add_contract ∅ 0 2 (get_zero_hash 2) in
  ensure_simple_self_consistent e old_leaf (get_proof_public_inputs_hash (core e) 32) heights 32 4 = Ok tt ∧
  (∃ blob, validate_end_cap_and_generate_node_data_for_edge 0 demo_context 7 e = Ok blob) ∧
  verify_delta (long_proof long_update) = false.
Proof. split_and!; [vm_compute; reflexivity|eexists; vm_compute; reflexivity|vm_compute; reflexivity]. Qed.
