(* ===== verification/EndCapBlob.v ===== *)
(** * The blob of an accepted end cap

    What [EndCap]'s edge function writes for an end cap whose proofs are those of real
    trees, and what the planner of the realm reads from it: the changed nodes of the
    contract tree and of all state trees, each once and with its final value, and one
    record per changed indexed leaf, the newest first. *)
From stdpp Require Import prelude list gmap strings.
From Stdlib Require Import ZArith Lia.
From S2P Require Import Prelude MerkleKey MerkleHash FieldHash MerkleProof Spiderman MemTree LeafUpdates Wire.
From S2P Require Import Serialize ByteOrder Qblob BlobFormat BlobRecorder Codecs RealmFinalize EndCap EndCapEdge.

Lemma Ok_inj {A} (a b : A) : Ok a = Ok b → a = b.
Proof. by intros [= ->]. Qed.

(** ** A recorder on several trees

    What a recorder appends depends on the keys it has, not on the bytes before. *)
Section frame.
Context {K Node Hash : Type} `{Countable K, EqDecision Hash, MerkleHasher Hash, FastFixedSerializable Node}.
Context (mk_key : Z → Z → K) (mk_node : K → Hash → Node).

(** From the keys [m] to the keys [m'], of which the new ones are of this tree. *)
Definition grows (m m' : gset K) : Prop := m ⊆ m' ∧ ∀ k, k ∈ m' → k ∈ m ∨ ∃ l i, k = mk_key l i.

Lemma record_loop_frame ss tail : ∀ m level index v, ∃ y m' x, grows m m' ∧ ∀ b off,
  record_loop mk_key mk_node (mkRecorder m b off) level index v ss tail = (y, mkRecorder m' (b ++ x) off).
Proof.
  induction ss as [|s ss IH]; intros m level index v; cbn [record_loop insert_key rec_map rec_blob rec_start_offset];
    destruct (bool_decide _).
  3: { destruct (IH ({[mk_key level index]} ∪ m) (wrap 8 (level - 1)) (u64_shr index 1) (two_to_one_swap (Z.land index 1 =? 1) v s))
         as (y & m' & x & [Hm Hk] & E).
       exists y, m', (ffs_to_bytes (mk_node (mk_key level index) v) ++ x). split.
       - split; [set_solver|]. intros k [[Hin%elem_of_singleton|?]%elem_of_union|?]%Hk; [right; by do 2 eexists|by left|by right].
       - intros b off. unfold push. cbn [rec_map rec_blob rec_start_offset]. rewrite E. by rewrite app_assoc. }
  1: eexists _, _, _; (split; [|intros; unfold push; cbn [rec_map rec_blob rec_start_offset]; reflexivity]).
  2, 3: eexists _, _, []; (split; [|intros; rewrite app_nil_r; reflexivity]).
  all: split; [set_solver|]; intros k [Hin%elem_of_singleton|?]%elem_of_union; [right; by do 2 eexists|by left].
Qed.

Lemma record_delta_frame m level d : ∃ o m' x, grows m m' ∧ ∀ b off,
  record_delta_merkle_proof mk_key mk_node level d (mkRecorder m b off) = (o, mkRecorder m' (b ++ x) off).
Proof.
  assert (Hrefl : grows m m) by (split; [done|by left]).
  unfold record_delta_merkle_proof. destruct (_ <? _); [eexists _, m, []; split; [done|intros; rewrite app_nil_r; done]|].
  destruct (negb _); [eexists _, m, []; split; [done|intros; rewrite app_nil_r; done]|]. unfold record_merkle_root.
  match goal with |- context [record_loop _ _ _ ?l ?i ?v ?a ?b] => destruct (record_loop_frame a b m l i v) as (y & m' & x & Hg & E) end.
  destruct (negb (bool_decide (y = MerkleProof.new_root d))) eqn:Ey; eexists _, m', x; (split; [done|]); intros; by rewrite E, Ey.
Qed.
End frame.

(** ** The state trees of a user *)
Section forest.
Context {Hash : Type} `{EqDecision Hash, MerkleHasher Hash} `{Q256BitHash Hash}.
Context (uid : Z) (hs : Z → nat).
Hypothesis heights : ∀ c, (hs c ≤ 64)%nat.
Implicit Types (ts f : Z → Z → Hash) (log past : list (Z * (Z * Hash))) (c i : Z) (W : list (Z * SimpleMerkleNodeKey)).

(** The changes of one contract among the changes of all. *)
Definition updates_of log c : list (Z * Hash) := (filter (λ x, x.1 = c) log).*2.

Definition after ts log c : Z → Hash := apply_updates (ts c) (updates_of log c).

(** The proofs of the changes, each against the trees as the changes [past] left them. *)
Fixpoint forest_deltas ts past log : list (Z * DeltaMerkleProofCore Hash) :=
  match log with
  | [] => []
  | (c, (i, v)) :: log =>
      let t := after ts past c in
      (c, from_params i (t i) v (tree_siblings t (hs c) i)) :: forest_deltas ts (past ++ [(c, (i, v))]) log
  end.

Definition log_in log : Prop := Forall (λ x, 0 ≤ x.2.1 < 2 ^ Z.of_nat (hs x.1)) log.

Lemma updates_of_app log log' c : updates_of (log ++ log') c = updates_of log c ++ updates_of log' c.
Proof. unfold updates_of. by rewrite filter_app, fmap_app. Qed.

Lemma updates_of_cons c u log c' : updates_of ((c, u) :: log) c' = if decide (c = c') then u :: updates_of log c' else updates_of log c'.
Proof. unfold updates_of. rewrite filter_cons. cbn [fst]. by destruct (decide _). Qed.

Lemma forest_deltas_app ts log : ∀ past log', forest_deltas ts past (log ++ log') = forest_deltas ts past log ++ forest_deltas ts (past ++ log) log'.
Proof.
  induction log as [|[c [i v]] log IH]; intros past log'; cbn [forest_deltas app]; [by rewrite app_nil_r|].
  by rewrite IH, <- app_assoc.
Qed.

(** The nodes above a changed leaf, in the tree of contract [c]. *)
Definition on_log log c k : Prop := on_paths (hs c) (updates_of log c) k.

Definition state_key (x : Z * SimpleMerkleNodeKey) : QMerkleStoreDoubleIdKey := mkDoubleIdKey uid x.1 (level x.2) (index x.2).
Definition state_entry f (x : Z * SimpleMerkleNodeKey) : QMerkleStoreDoubleIdNode Hash :=
  mkDoubleNode (state_key x) (spec_node (Z.of_nat (hs x.1)) (f x.1) x.2).

(** The recorder wrote the nodes [W] after [base]: those above the changes [log]. *)
Definition forest_wrote f (base : list Z) W log (r : QBlobDoubleIdMerkleRecorder) : Prop :=
  rec_blob r = base ++ payload (state_entry f <$> W) ∧ (∀ x, state_key x ∈ rec_map r ↔ x ∈ W) ∧ NoDup W ∧
  Forall (λ x, key_wf x.2) W ∧ ∀ c k, 0 ≤ level k → (c, k) ∈ W ↔ on_log log c k.

Lemma state_key_inj x y : state_key x = state_key y → x = y.
Proof. destruct x as [c [l i]], y as [c' [l' i']]. by intros [= -> -> ->]. Qed.

(** The nodes of one tree. *)
Definition keys_of W c : list SimpleMerkleNodeKey := (filter (λ x, x.1 = c) W).*2.

Lemma elem_of_keys_of W c k : k ∈ keys_of W c ↔ (c, k) ∈ W.
Proof.
  unfold keys_of. rewrite list_elem_of_fmap. split.
  - intros ([c' k'] & -> & [? ?]%list_elem_of_filter). by simplify_eq/=.
  - intros Hin. exists (c, k). split; [done|]. by apply list_elem_of_filter.
Qed.

Lemma NoDup_keys_of W c : NoDup W → NoDup (keys_of W c).
Proof.
  intros Hn. apply (NoDup_fmap_2_strong snd); [|by apply NoDup_filter].
  intros [? ?] [? ?] [? ?]%list_elem_of_filter [? ?]%list_elem_of_filter ?. by simplify_eq/=.
Qed.

(** The nodes of one tree, as a recorder for that tree alone would hold them. *)
Lemma forest_tree f base W log r c :
  forest_wrote f base W log r →
  wrote (mkDoubleIdKey uid c) mkDoubleNode (hs c) (f c) [] (keys_of W c)
    (mkRecorder (rec_map r) (payload (tree_entry (mkDoubleIdKey uid c) mkDoubleNode (hs c) (f c) <$> keys_of W c)) 0) ∧
  ∀ a, 0 ≤ level a → a ∈ keys_of W c ↔ on_paths (hs c) (updates_of log c) a.
Proof.
  intros (_ & Hm & Hn & Hwf & Hl). split; [split_and!|].
  - done.
  - intros k. rewrite elem_of_keys_of. apply (Hm (c, k)).
  - by apply NoDup_keys_of.
  - apply Forall_forall. intros k Hk%elem_of_keys_of. by apply (proj1 (Forall_forall _ _) Hwf (c, k)).
  - intros a Ha. rewrite elem_of_keys_of. by apply Hl.
Qed.

Lemma forest_step ts f base W past log c i v r :
  0 ≤ i < 2 ^ Z.of_nat (hs c) → f c = apply_updates (update (after ts past c) i v) (updates_of log c) →
  forest_wrote f base W log r →
  let t := after ts past c in
  ∃ r' W', record_cst uid c (from_params i (t i) v (tree_siblings t (hs c) i)) r = Ok (tree_node (update t i v) (hs c) 0, r') ∧
    forest_wrote f base W' ((c, (i, v)) :: log) r' ∧ rec_start_offset r' = rec_start_offset r.
Proof.
  intros Hi Hf Hw t. destruct (forest_tree f base W log r c Hw) as [Hv Hks].
  destruct (wrote_step (mkDoubleIdKey uid c) mkDoubleNode (double_key_inj uid c) (hs c) (heights c) t (f c) [] _ _ i v _ Hi Hf Hv Hks)
    as (rv & new & E & (Hvb & Hvm & Hvn & Hvwf) & Hset & _).
  set (d := from_params i (t i) v (tree_siblings t (hs c) i)) in *.
  destruct (record_delta_frame (mkDoubleIdKey uid c) mkDoubleNode (rec_map r) (Z.of_nat (hs c)) d) as (o & m' & x & [Hsub Hnew] & Ef).
  rewrite Ef in E. injection E as -> <-. cbn [rec_map rec_blob] in Hvb, Hvm.
  destruct Hw as (Hb & Hm & Hn & Hwf & Hl).
  assert (Hx : x = payload (state_entry f <$> ((c,.) <$> new))).
  { rewrite fmap_app in Hvb. cbn [app] in Hvb. unfold payload in Hvb at 1. rewrite fmap_app, concat_app in Hvb.
    apply app_inv_head in Hvb. rewrite Hvb. unfold payload. rewrite <- (list_fmap_compose (pair c)). reflexivity. }
  exists (mkRecorder m' (rec_blob r ++ x) (rec_start_offset r)), (W ++ ((c,.) <$> new)). split_and!; [| |done].
  - unfold record_cst, double_record_validate_delta_merkle_proof, siblings_u8. cbn [d from_params dmp_siblings].
    rewrite length_tree_siblings, wrap_small by (pose proof (heights c); lia). fold d.
    destruct r as [m b off]. cbn [rec_map] in Ef. rewrite Ef. done.
  - apply NoDup_app in Hvn as (_ & Hdis & Hnn). apply Forall_app in Hvwf as [_ Hvwf].
    assert (Hin : ∀ k, (c, k) ∈ W ++ ((c,.) <$> new) ↔ k ∈ keys_of W c ++ new).
    { intros k. rewrite !elem_of_app, elem_of_keys_of, list_elem_of_fmap. naive_solver. }
    assert (Hother : ∀ c' k, c' ≠ c → (c', k) ∈ W ++ ((c,.) <$> new) ↔ (c', k) ∈ W).
    { intros c' k Hc. rewrite elem_of_app, list_elem_of_fmap. naive_solver. }
    split_and!.
    + cbn [rec_blob]. rewrite Hb, Hx, fmap_app. unfold payload. by rewrite fmap_app, concat_app, app_assoc.
    + intros [c' k]. cbn [rec_map]. destruct (decide (c' = c)) as [->|Hc]; [by rewrite Hin, <- Hvm|]. rewrite (Hother c' k Hc), <- Hm. split.
      * intros [?|(l & j & Hk)]%Hnew; [done|]. by injection Hk.
      * apply Hsub.
    + apply NoDup_app. split_and!; [done| |apply NoDup_fmap_2; [by intros ?? [= ->]|done]].
      intros [c' k] Hk1 (k' & [= -> ->] & Hk2)%list_elem_of_fmap. apply (Hdis k'); [by apply elem_of_keys_of|done].
    + apply Forall_app. split; [done|]. by apply Forall_fmap.
    + intros c' k Hk. unfold on_log. rewrite updates_of_cons. destruct (decide (c = c')) as [<-|Hc].
      * rewrite Hin. by apply Hset.
      * rewrite Hother by done. by apply Hl.
Qed.

(** The recorder of the loops, without their checks. *)
Fixpoint record_all (r : QBlobDoubleIdMerkleRecorder) (l : list (Z * DeltaMerkleProofCore Hash)) : outcome QBlobDoubleIdMerkleRecorder :=
  match l with
  | [] => Ok r
  | (c, d) :: l => let* (_, r) := record_cst uid c d r in record_all r l
  end.

Lemma record_all_app l : ∀ r l', record_all r (l ++ l') = (let* r := record_all r l in record_all r l').
Proof.
  induction l as [|[c d] l IH]; intros r l'; cbn [record_all app]; [done|].
  destruct (record_cst uid c d r) as [[y r1]| | |]; cbn [outcome_bind]; [apply IH|done|done|done].
Qed.

Lemma record_forest ts base log : ∀ log' W r,
  log_in log → forest_wrote (after ts (log ++ log')) base W log' r →
  ∃ r' W', record_all r (reverse (forest_deltas ts [] log)) = Ok r' ∧
    forest_wrote (after ts (log ++ log')) base W' (log ++ log') r' ∧ rec_start_offset r' = rec_start_offset r.
Proof.
  induction log as [|[c [i v]] log IH] using rev_ind; intros log' W r Hin Hw; [by exists r, W|].
  apply Forall_app in Hin as [Hin [Hi _]%Forall_cons]. cbn in Hi. rewrite <- app_assoc in Hw |- *. cbn [app] in *.
  destruct (forest_step ts (after ts (log ++ (c, (i, v)) :: log')) base W log log' c i v r Hi) as (r1 & W1 & E1 & Hw1 & Ho1); [|exact Hw|].
  { unfold after. rewrite updates_of_app, updates_of_cons, decide_True by done. by rewrite apply_updates_app. }
  destruct (IH ((c, (i, v)) :: log') W1 r1 Hin Hw1) as (r2 & W2 & E2 & Hw2 & Ho2).
  exists r2, W2. split_and!; [|done|congruence]. rewrite forest_deltas_app, reverse_app. cbn [forest_deltas app].
  rewrite record_all_app. cbn [reverse rev_append record_all]. rewrite E1. done.
Qed.

Lemma forest_empty ts base (r : QBlobDoubleIdMerkleRecorder) :
  rec_map r = ∅ → rec_blob r = base → forest_wrote ts base [] [] r.
Proof.
  intros Hm <-. split_and!.
  - by rewrite app_nil_r.
  - intros x. rewrite Hm. set_solver.
  - apply NoDup_nil_2.
  - constructor.
  - intros c k _. split; [by intros ?%elem_of_nil|]. by intros (? & ? & ?%elem_of_nil & _).
Qed.
End forest.

(** ** Entries *)
Record imt_entry (Hash : Type) : Type := mkEntry {
  en_tree_id : Z;
  en_tree_sub_id : Z;
  en_index : Z;
  en_hash : Hash;
  en_key : Hash;
  en_value : Hash;
  en_next_key : Hash;
  en_next_index : Z;
  en_is_new : bool;
}.
Arguments mkEntry {Hash}.
Arguments en_tree_id {Hash}.
Arguments en_tree_sub_id {Hash}.
Arguments en_index {Hash}.
Arguments en_hash {Hash}.
Arguments en_key {Hash}.
Arguments en_value {Hash}.
Arguments en_next_key {Hash}.
Arguments en_next_index {Hash}.
Arguments en_is_new {Hash}.

Section entries.
Context {Hash : Type} `{Hash32 Hash}.

Definition entry_ok (e : imt_entry Hash) : Prop :=
  is_uint 64 (en_tree_id e) ∧ is_uint 64 (en_tree_sub_id e) ∧ is_uint 64 (en_index e) ∧ is_uint 64 (en_next_index e).

(** The fields as the reader returns them. *)
Definition entry_fields (e : imt_entry Hash) : Z * Z * Z * list Z * list Z * list Z * list Z * Z * bool :=
  (en_tree_id e, en_tree_sub_id e, en_index e, into_owned_32bytes (en_hash e), into_owned_32bytes (en_key e),
   into_owned_32bytes (en_value e), into_owned_32bytes (en_next_key e), en_next_index e, en_is_new e).

#[global] Instance entry_ffs : FastFixedSerializable (imt_entry Hash) := {
  FFS_SIZE := IMT_LEAF_FFS_ENTRY_SIZE_V2;
  ffs_max_vec_length := 0;
  ffs_to_bytes e := serialize_imt_leaf_ffs_entry_v2 (en_tree_id e) (en_tree_sub_id e) (en_index e) (en_hash e) (en_key e)
    (en_value e) (en_next_key e) (en_next_index e) (en_is_new e);
  ffs_from_owned_bytes b :=
    mkEntry (from_le_bytes (slice 0 8 b)) (from_le_bytes (slice 8 16 b)) (from_le_bytes (slice 16 24 b))
      (from_owned_32bytes (slice 24 56 b)) (from_owned_32bytes (slice 56 88 b)) (from_owned_32bytes (slice 88 120 b))
      (from_owned_32bytes (slice 120 152 b)) (from_le_bytes (slice 152 160 b)) (negb (from_le_bytes (slice 160 161 b) =? 0));
}.

Lemma entry_array (e : imt_entry Hash) : array_ok 161 (ffs_to_bytes e).
Proof.
  change 161 with (Z.of_nat 8 + (Z.of_nat 8 + (Z.of_nat 8 + (32 + (32 + (32 + (32 + (Z.of_nat 8 + 1)))))))).
  unfold ffs_to_bytes, entry_ffs, serialize_imt_leaf_ffs_entry_v2. repeat apply array_app; try (apply array_le || apply hash_array).
  split; [done|]. constructor; [|done]. by destruct (en_is_new e).
Qed.

(** The last field is alone in its byte. *)
Lemma flag_back (b : bool) : negb (from_le_bytes (slice 0 1 [if b then 1 else 0]) =? 0) = b.
Proof. by destruct b. Qed.

#[global] Instance entry_fixed : FixedLaws (imt_entry Hash) entry_ok.
Proof.
  split; [done|intros; apply entry_array|]. intros [t u i a k v n ni b] (Ht & Hu & Hi & Hn).
  unfold ffs_from_owned_bytes, ffs_to_bytes, entry_ffs, serialize_imt_leaf_ffs_entry_v2. cbn in Ht, Hu, Hi, Hn.
  cbn [en_tree_id en_tree_sub_id en_index en_hash en_key en_value en_next_key en_next_index en_is_new].
  do 4 cut_slices. rewrite flag_back. by rewrite !(le_back 8 64), !hash_of_bytes.
Qed.

(** Writing an entry and reading it back. *)
Lemma entry_read e : entry_ok e → deserialize_imt_leaf_ffs_entry_v2 (ffs_to_bytes e) = Ok (entry_fields e).
Proof.
  destruct e as [t u i a k v n ni b]. intros (Ht & Hu & Hi & Hn). unfold deserialize_imt_leaf_ffs_entry_v2.
  destruct (entry_array (mkEntry t u i a k v n ni b)) as [-> _]. cbn [ensure outcome_bind Z.eqb IMT_LEAF_FFS_ENTRY_SIZE_V2 Pos.eqb].
  unfold ffs_to_bytes, entry_ffs, serialize_imt_leaf_ffs_entry_v2, entry_fields. cbn in Ht, Hu, Hi, Hn.
  cbn [en_tree_id en_tree_sub_id en_index en_hash en_key en_value en_next_key en_next_index en_is_new].
  do 4 cut_slices. rewrite flag_back. by rewrite !(le_back 8 64).
Qed.

(** [chunks_exact] *)
Definition chunks_exact (n : nat) (b : list Z) : list (list Z) := (λ j, take n (drop (j * n) b)) <$> seq 0 (length b / n).

Lemma chunks_payload (es : list (imt_entry Hash)) : chunks_exact 161 (payload es) = ffs_to_bytes <$> es.
Proof.
  assert (Hl : ∀ e : imt_entry Hash, length (ffs_to_bytes e) = 161%nat) by (intros e; destruct (entry_array e); lia).
  unfold chunks_exact. induction es as [|e es IH]; [done|]. unfold payload in *. cbn [fmap list_fmap concat].
  rewrite length_app, Hl. replace ((161 + length (concat (ffs_to_bytes <$> es))) / 161)%nat
    with (S (length (concat (ffs_to_bytes <$> es)) / 161)) by (symmetry; apply (Nat.div_add_l 1 161); lia).
  cbn [seq fmap list_fmap]. f_equal; [by rewrite drop_0, take_app_length' by done|].
  etrans; [|exact IH]. rewrite <- fmap_S_seq, <- list_fmap_compose. apply list_fmap_ext. intros _ j _. cbn [compose].
  replace (S j * 161)%nat with (161 + j * 161)%nat by lia. rewrite <- drop_drop, drop_app_length' by done. done.
Qed.
End entries.

(** ** The loops of the edge *)
Lemma reverse_concat_map {A B} (g : A → list B) l : concat ((λ a, reverse (g a)) <$> reverse l) = reverse (concat (g <$> l)).
Proof.
  induction l as [|a l IH]; [done|]. cbn [fmap list_fmap concat]. rewrite reverse_cons, fmap_app, concat_app, IH, reverse_app. cbn.
  by rewrite app_nil_r.
Qed.

Section loops.
Context {F Hash : Type} `{FieldHash F Hash} `{EqDecision F, EqDecision Hash}.
Context `{MerkleHasher Hash, !ZeroableHash Hash, !MerkleZeroHasher Hash} `{Q256BitHash Hash}.
Abbreviation history := (ContractStateUpdateHistory F Hash).
Abbreviation uct := (user_contract_tree_update_proof (F := F)).

(** The proofs of the state trees with the contracts they are of, in the order they apply. *)
Definition state_deltas (csu : history) : list (Z * DeltaMerkleProofCore Hash) := (dmp_index (uct csu),.) <$> history_deltas csu.

Lemma record_all_two uid r l l' r1 r2 : record_all uid r l = Ok r1 → record_all uid r1 l' = Ok r2 → record_all uid r (l ++ l') = Ok r2.
Proof. intros E1 E2. by rewrite record_all_app, E1. Qed.

Lemma cst_update_records uid cid r next (u : ContractStateUpdate F Hash) r' old ent :
  cst_update uid cid r next u = Ok (r', old, ent) → record_all uid r ((cid,.) <$> reverse (update_deltas u)) = Ok r'.
Proof.
  unfold cst_update. destruct u as [d|[o n d|po pn nl pred new]]; intros Eu;
    apply outcome_bind_Ok in Eu as ([x r1] & E1 & Eu); apply outcome_bind_Ok in Eu as ([] & _ & Eu); cbn [update_deltas].
  1, 2: injection Eu as <- _ _; cbn; by rewrite E1.
  apply outcome_bind_Ok in Eu as ([y r2] & E2 & Eu). apply outcome_bind_Ok in Eu as ([] & _ & Eu). injection Eu as <- _ _.
  cbn. rewrite E1. cbn [outcome_bind]. by rewrite E2.
Qed.

Lemma cst_updates_loop_records uid cid (us : list (ContractStateUpdate F Hash)) : ∀ r next acc r' old acc',
  cst_updates_loop uid cid r next acc us = Ok (r', old, acc') →
  record_all uid r ((cid,.) <$> concat ((λ u, reverse (update_deltas u)) <$> us)) = Ok r'.
Proof.
  induction us as [|u us IH]; intros r next acc r' old acc' E; cbn [cst_updates_loop] in E; [by injection E as <- _ _|].
  apply outcome_bind_Ok in E as ([[r1 next1] ent] & Eu%cst_update_records & E). apply IH in E.
  cbn [fmap list_fmap concat]. rewrite fmap_app. by eapply record_all_two.
Qed.

Lemma cst_loop_records uid (csus : list history) : ∀ r acc r' acc',
  cst_loop uid r acc csus = Ok (r', acc') → record_all uid r (concat ((λ csu, reverse (state_deltas csu)) <$> csus)) = Ok r'.
Proof.
  induction csus as [|csu csus IH]; intros r acc r' acc' E; cbn [cst_loop] in E; [by injection E as <- _|].
  apply outcome_bind_Ok in E as (lst & _ & E). apply outcome_bind_Ok in E as ([[r1 next1] acc1] & E1%cst_updates_loop_records & E).
  apply outcome_bind_Ok in E as ([] & _ & E). apply IH in E. cbn [fmap list_fmap concat]. eapply record_all_two; [|exact E].
  rewrite reverse_concat_map in E1. unfold state_deltas, history_deltas. by rewrite <- fmap_reverse.
Qed.

Lemma uct_loop_records uid height (csus : list history) : ∀ r next r',
  uct_loop uid height r next csus = Ok r' →
  ∃ roots, mapM (single_record_validate_delta_merkle_proof uid height) (uct <$> csus) r = (Ok roots, r').
Proof.
  induction csus as [|csu csus IH]; intros r next r' E; cbn [uct_loop] in E; [injection E as <-; by exists []|].
  destruct (head (updates csu)), (last (updates csu)); try done.
  destruct (single_record_validate_delta_merkle_proof _ _ _ _) as [[x| | |] r1] eqn:Er; try done. cbn [outcome_bind] in E.
  outcome_inv. apply IH in E as [roots E]. exists (x :: roots). cbn [fmap list_fmap mapM].
  rewrite (bind_run _ _ _ _ _ Er), (bind_run _ _ _ _ _ E). done.
Qed.

(** The records of the indexed leaves. *)
Definition leaf_record (uid cid i : Z) (l : IMTContractStateLeaf F Hash) (is_new : bool) : imt_entry Hash :=
  mkEntry uid cid i (imt_leaf_qfhash l) (imt_key l) (imt_value l) (imt_next_key l) (to_u64_value (Hash := Hash) (imt_next_index l)) is_new.

Definition update_records (uid cid : Z) (u : ContractStateUpdate F Hash) : list (imt_entry Hash) :=
  match u with
  | Positional _ => []
  | IMT (Update _ new_preimage d) => [leaf_record uid cid (dmp_index d) new_preimage false]
  | IMT (Insert _ pred_new new_leaf pred new) =>
      [leaf_record uid cid (dmp_index pred) pred_new false; leaf_record uid cid (dmp_index new) new_leaf true]
  end.

Definition history_records (uid : Z) (csu : history) : list (imt_entry Hash) :=
  concat (update_records uid (dmp_index (uct csu)) <$> reverse (updates csu)).

(** The last change first. *)
Definition end_cap_records (uid : Z) (e : SubmitUserEndCapNonProofInput F Hash) : list (imt_entry Hash) :=
  concat (history_records uid <$> reverse (contract_state_updates e)).

Lemma payload_concat {A} (g : A → list (imt_entry Hash)) l : payload (concat (g <$> l)) = concat ((λ a, payload (g a)) <$> l).
Proof. induction l as [|a l IH]; [done|]. cbn [fmap list_fmap concat]. by rewrite payload_app, IH. Qed.

Lemma records_entries uid cid u : payload (update_records uid cid u) = update_entries uid cid u.
Proof. destruct u as [d|[o n d|po pn nl pred new]]; cbn; by rewrite ?app_nil_r. Qed.

Lemma history_entries uid (csus : list history) :
  concat ((λ csu, concat (update_entries uid (dmp_index (uct csu)) <$> reverse (updates csu))) <$> csus) =
  payload (concat (history_records uid <$> csus)).
Proof.
  rewrite payload_concat. f_equal. apply list_fmap_ext. intros _ csu _. unfold history_records.
  rewrite payload_concat. f_equal. apply list_fmap_ext. intros _ u _. by rewrite records_entries.
Qed.
End loops.

(** ** What the planner reads *)
Section content.
Context {F Hash : Type} `{FieldHash F Hash} `{EqDecision F, EqDecision Hash}.
Context `{MerkleHasher Hash, !ZeroableHash Hash, !MerkleZeroHasher Hash} `{Hash32 Hash} `{!WireField F Hash}.
Abbreviation history := (ContractStateUpdateHistory F Hash).
Abbreviation uct := (user_contract_tree_update_proof (F := F)).
Abbreviation single_node := (QMerkleStoreSingleIdNode Hash).
Abbreviation double_node := (QMerkleStoreDoubleIdNode Hash).

Lemma deltas_in h us : (h ≤ 64)%nat → ∀ t, updates_in h us → Forall delta_in (deltas h t us).
Proof.
  intros Hh. induction us as [|[i v] us IH]; intros t Hu; [constructor|]. apply Forall_cons in Hu as [Hi Hu]. constructor; [|by apply IH].
  cbn in Hi. split; cbn; [|by rewrite length_tree_siblings]. pose proof (Z.pow_le_mono_r 2 (Z.of_nat h) 64). split; lia.
Qed.

Lemma forest_deltas_in hs ts log : (∀ c, (hs c ≤ 64)%nat) → ∀ past, log_in hs log → Forall (λ x, delta_in x.2) (forest_deltas hs ts past log).
Proof.
  intros Hh. induction log as [|[c [i v]] log IH]; intros past Hl; cbn [forest_deltas]; [constructor|].
  apply Forall_cons in Hl as [Hi Hl]. constructor; [|by apply IH]. cbn in Hi |- *. pose proof (Hh c).
  split; cbn; [|by rewrite length_tree_siblings]. pose proof (Z.pow_le_mono_r 2 (Z.of_nat (hs c)) 64). split; lia.
Qed.

Lemma histories_in (csus : list history) :
  Forall delta_in (uct <$> csus) → Forall (λ x, delta_in x.2) (concat (state_deltas <$> csus)) → Forall history_in csus.
Proof.
  intros Hu Hs%Forall_concat. pose proof (proj1 (Forall_fmap _ _ _) Hu) as Hu'. pose proof (proj1 (Forall_fmap _ _ _) Hs) as Hs'.
  apply Forall_forall. intros csu Hin. split; [exact (proj1 (Forall_forall _ _) Hu' csu Hin)|].
  exact (proj1 (Forall_fmap _ _ _) (proj1 (Forall_forall _ _) Hs' csu Hin)).
Qed.

Lemma leaf_record_ok uid cid i (l : IMTContractStateLeaf F Hash) b :
  is_uint 64 uid → is_uint 64 cid → is_uint 64 i → entry_ok (leaf_record uid cid i l b).
Proof.
  intros Hu Hc Hi. pose proof (wire_felt_range (imt_next_index l)) as Hr. unfold GOLDILOCKS_ORDER in Hr.
  split_and!; try done. cbn. unfold is_uint. lia.
Qed.

Lemma update_records_ok uid cid (u : ContractStateUpdate F Hash) :
  is_uint 64 uid → is_uint 64 cid → Forall delta_in (update_deltas u) → Forall entry_ok (update_records uid cid u).
Proof.
  intros Hu Hc Hd. destruct u as [d|[o n d|po pn nl pred new]]; cbn [update_records update_deltas] in *; [constructor|..].
  - apply Forall_cons in Hd as [[Hi _] _]. constructor; [by apply leaf_record_ok|constructor].
  - apply Forall_cons in Hd as [[Hi _] [[Hi' _] _]%Forall_cons]. constructor; [by apply leaf_record_ok|]. constructor; [by apply leaf_record_ok|constructor].
Qed.

Lemma end_cap_records_ok uid (e : SubmitUserEndCapNonProofInput F Hash) :
  is_uint 64 uid → Forall history_in (contract_state_updates e) → Forall entry_ok (end_cap_records uid e).
Proof.
  intros Hu Hin. apply Forall_concat, Forall_fmap. apply Forall_reverse. eapply Forall_impl; [exact Hin|].
  intros csu [[Hc _] Hd%update_deltas_in]. cbn. apply Forall_concat, Forall_fmap. apply Forall_reverse.
  eapply Forall_impl; [exact Hd|]. intros u Hu'. by apply update_records_ok.
Qed.

Lemma finalize_length {K} `{Countable K} bt tt size (r : MerkleRecorder K) cx b :
  0 ≤ rec_start_offset r → rec_finalize_with_header bt tt size r cx = Ok b → length b = length (rec_blob r).
Proof.
  unfold rec_finalize_with_header, write_at. intros Ho. rewrite length_header.
  destruct (Z.leb_spec (rec_start_offset r + Z.of_nat 84) (Z.of_nat (length (rec_blob r)))) as [Hle|]; [|done].
  match goal with |- context [to_bytes_fixed_size_array ?h] =>
    pose proof (length_header h) as Hh; generalize dependent (to_bytes_fixed_size_array h); intros hb Hh end.
  intros [= <-]. rewrite !length_app, length_take, length_drop. lia.
Qed.

(** The header of the entries is that of a batch of their size. *)
Definition imt_context (now uid : Z) (cx : context) : context :=
  mkContext (cx_chain_id cx) (cx_created_by_node_id cx) (wrap 32 now) (cx_realm_id cx) (cx_realm_sub_id cx)
    (cx_unique_pending_id cx) 0 uid.

Lemma imt_batch now uid cx (es : list (imt_entry Hash)) :
  to_bytes_fixed_size_array
    (modify_for_final_count_and_size
       (new_imt_leaf_header now Qblob.IMTContractStateLeaf (cx_chain_id cx) (cx_created_by_node_id cx) (cx_realm_id cx)
          (cx_realm_sub_id cx) (cx_unique_pending_id cx) uid)
       IMT_LEAF_FFS_ENTRY_SIZE_V2 (Z.of_nat (length (payload es)) / IMT_LEAF_FFS_ENTRY_SIZE_V2)) ++ payload es =
  generate_node_batch_blob GenericIMTLeafBatch Qblob.IMTContractStateLeaf (imt_context now uid cx) es.
Proof.
  assert (Hl : Z.of_nat (length (payload es)) = Z.of_nat (length es) * 161).
  { unfold payload. induction es as [|e es IH]; [done|]. cbn [fmap list_fmap concat length]. destruct (entry_array e). rewrite length_app. lia. }
  rewrite Hl. unfold IMT_LEAF_FFS_ENTRY_SIZE_V2. rewrite Z.div_mul by done. rewrite generate_eq. do 2 f_equal.
  unfold modify_for_final_count_and_size, blob_header, header_from_context_and_counts, header_from_context. cbn.
  by rewrite (Z.mul_comm 161).
Qed.

Lemma imt_context_ok now uid cx : context_ok cx → is_uint 64 uid → context_ok (imt_context now uid cx).
Proof. intros Hcx Hu. unfold context_ok in *. destruct_and! Hcx. split_and!; try done. cbn. apply wrap_range. lia. Qed.

Lemma deltas_height h us : ∀ t, Forall (λ d : DeltaMerkleProofCore Hash, length (dmp_siblings d) = h) (deltas h t us).
Proof. induction us as [|[i v] us IH]; intros t; constructor; [cbn; apply length_tree_siblings|apply IH]. Qed.

Lemma single_key_inj uid l i l' i' : mkSingleKey uid l i = mkSingleKey uid l' i' → l = l' ∧ i = i'.
Proof. by intros [= -> ->]. Qed.

Lemma single_entries_ok uid (h : nat) (f : Z → Hash) ks :
  is_uint 64 uid → Forall key_wf ks → Forall single_node_ok (tree_entry (mkSingleKey uid) mkSingleNode h f <$> ks).
Proof.
  intros Ht Hk. apply Forall_fmap. eapply Forall_impl; [exact Hk|]. intros k Hwf.
  pose proof (key_wf_index64 k Hwf). destruct Hwf as [Hl _]. unfold single_node_ok, is_uint in *. cbn. lia.
Qed.

Lemma state_entries_ok uid hs (f : Z → Z → Hash) W :
  is_uint 64 uid → Forall (λ x, is_uint 64 x.1) W → Forall (λ x, key_wf x.2) W → Forall double_node_ok (state_entry uid hs f <$> W).
Proof.
  intros Ht Hc Hk. apply Forall_fmap. apply Forall_forall. intros [c k] Hin.
  pose proof (proj1 (Forall_forall _ _) Hc _ Hin) as Hcid. pose proof (proj1 (Forall_forall _ _) Hk _ Hin) as Hwf. cbn in Hcid, Hwf.
  pose proof (key_wf_index64 k Hwf). destruct Hwf as [Hl _]. unfold double_node_ok, is_uint in *. cbn. lia.
Qed.

(** The single-id part: the recorder holds the changed nodes of the contract tree. *)
Lemma uct_nodes uid (csus : list history) first next hu ut uus r :
  (hu ≤ 64)%nat → updates_in hu uus → uct <$> csus = deltas hu ut uus → head csus = Some first →
  uct_loop uid (siblings_u8 (uct first)) rec_new_with_header next (reverse csus) = Ok r →
  recorded (mkSingleKey uid) mkSingleNode hu (apply_updates ut uus) (replicate 84 0) uus r ∧ rec_start_offset r = 0.
Proof.
  intros Hh Hu Heq Hf E. destruct csus as [|c csus]; [done|]. injection Hf as ->.
  assert (Hl : siblings_u8 (uct first) = Z.of_nat hu).
  { pose proof (deltas_height hu uus ut) as Hd. rewrite <- Heq in Hd. apply Forall_cons in Hd as [Hd _].
    unfold siblings_u8. rewrite Hd. apply wrap_small. lia. }
  rewrite Hl in E. apply uct_loop_records in E as [roots E]. rewrite fmap_reverse, Heq in E.
  destruct (record_reversed (mkSingleKey uid) mkSingleNode (single_key_inj uid) hu Hh uus ut [] (replicate 84 0) rec_new_with_header Hu)
    as (r' & E' & Hr & Ho).
  { apply (recorded_fresh _ _ hu _ rec_new_with_header). cbn. set_solver. }
  rewrite app_nil_r in Hr. change (record_proofs (mkSingleKey uid) mkSingleNode hu) with
    (mapM (M := stateful QBlobSingleIdMerkleRecorder) (single_record_validate_delta_merkle_proof (Hash := Hash) uid (Z.of_nat hu))) in E'.
  rewrite E in E'. by injection E' as _ ->.
Qed.

Lemma forest_deltas_ids hs ts log : ∀ past, (forest_deltas (Hash := Hash) hs ts past log).*1 = log.*1.
Proof. induction log as [|[c [i v]] log IH]; intros past; cbn [forest_deltas fmap list_fmap fst]; [done|]. by rewrite IH. Qed.

Lemma log_ids hs ts log (csus : list history) :
  Forall history_in csus → concat (state_deltas <$> csus) = forest_deltas hs ts [] log → Forall (is_uint 64) log.*1.
Proof.
  intros Hin Heq. rewrite <- (forest_deltas_ids hs ts log []), <- Heq. apply Forall_fmap, Forall_concat, Forall_fmap.
  eapply Forall_impl; [exact Hin|]. intros csu [[Hc _] _]. cbn. apply Forall_fmap. by apply Forall_true.
Qed.

Lemma wrote_ids hs (log : list (Z * (Z * Hash))) W :
  Forall (is_uint 64) log.*1 → Forall (λ x, key_wf x.2) W →
  (∀ c k, 0 ≤ level k → (c, k) ∈ W ↔ on_log hs log c k) → Forall (λ x, is_uint 64 x.1) W.
Proof.
  intros Hl Hwf Hon. apply Forall_forall. intros [c k] Hin. pose proof (proj1 (Forall_forall _ _) Hwf _ Hin) as [Hk _]. cbn in Hk.
  apply Hon in Hin as (i & v & Hiv & _); [|lia]. unfold updates_of in Hiv.
  apply list_elem_of_fmap in Hiv as ([c' u] & _ & [Hc Hin]%list_elem_of_filter). cbn in Hc. subst c'.
  apply (proj1 (Forall_forall _ _) Hl). apply list_elem_of_fmap. by exists (c, u).
Qed.

(** The three parts of the blob. *)
Lemma end_cap_parts now cx uid (e : SubmitUserEndCapNonProofInput F Hash) hu ut uus hs ts log blob :
  is_uint 64 uid → (hu ≤ 64)%nat → (∀ c, (hs c ≤ 64)%nat) → updates_in hu uus → log_in hs log →
  uct <$> contract_state_updates e = deltas hu ut uus →
  concat (state_deltas <$> contract_state_updates e) = forest_deltas hs ts [] log →
  validate_end_cap_and_generate_node_data_for_edge now cx uid e = Ok blob → Z.of_nat (length blob) < 2 ^ 64 →
  ∃ ks W,
    let singles := tree_entry (mkSingleKey uid) mkSingleNode hu (apply_updates ut uus) <$> ks in
    let doubles := state_entry uid hs (after ts log) <$> W in
    blob = generate_node_batch_blob GenericSingleIdMerkleNodeBatch UserContractTree cx singles ++
           generate_node_batch_blob GenericDoubleIdMerkleNodeBatch UserContractStateTree cx doubles ++
           generate_node_batch_blob GenericIMTLeafBatch Qblob.IMTContractStateLeaf (imt_context now uid cx) (end_cap_records uid e) ∧
    Forall single_node_ok singles ∧ Forall double_node_ok doubles ∧ Forall entry_ok (end_cap_records uid e) ∧
    NoDup ks ∧ Forall key_wf ks ∧ (∀ k, 0 ≤ level k → k ∈ ks ↔ on_paths hu uus k) ∧
    NoDup W ∧ Forall (λ x, key_wf x.2) W ∧ (∀ c k, 0 ≤ level k → (c, k) ∈ W ↔ on_log hs log c k).
Proof.
  intros Huid Hhu Hhs Huus Hlog Euct Estate E Hsize. unfold validate_end_cap_and_generate_node_data_for_edge in E.
  assert (Hin : Forall history_in (contract_state_updates e)).
  { apply histories_in; [rewrite Euct; by apply deltas_in|rewrite Estate; by apply forest_deltas_in]. }
  destruct (head (contract_state_updates e)) as [first|] eqn:Ef; [|done].
  destruct (last (contract_state_updates e)) as [lst|] eqn:El; [|done].
  apply outcome_bind_Ok in E as (r1 & E1 & E). apply outcome_bind_Ok in E as (r2 & E2 & E).
  apply outcome_bind_Ok in E as ([r3 acc] & E3 & E). apply outcome_bind_Ok in E as (b2 & E4 & E).
  destruct (uct_nodes uid _ first _ hu ut uus r1 Hhu Huus Euct Ef E1) as [(ks & Hw & Hks) Ho1].
  pose proof (cst_loop_records _ _ _ _ _ _ E3) as Er. rewrite reverse_concat_map, Estate in Er.
  apply cst_loop_Ok in E3 as [_ Eacc]; [|by apply Forall_reverse_2]. cbn [app] in Eacc. rewrite history_entries in Eacc.
  fold (end_cap_records uid e) in Eacc. subst acc.
  unfold finalize_with_header_into_double in E2. apply outcome_bind_Ok in E2 as (b1 & E2 & <-%Ok_inj).
  destruct (record_forest uid hs Hhs ts (b1 ++ replicate 84 0) log [] [] (rec_new_from_blob_with_header b1) Hlog) as (r3' & W & Er' & Hf & Ho3).
  { by apply forest_empty. }
  rewrite Er in Er'. apply Ok_inj in Er' as <-. rewrite app_nil_r in Hf. destruct Hf as (Hb3 & _ & HnW & HwfW & HW).
  destruct Hw as (Hb1 & _ & Hnk & Hwfk). cbn [rec_start_offset rec_new_from_blob_with_header] in Ho3.
  exists ks, W. intros singles doubles. fold doubles in Hb3.
  assert (Hs : Forall single_node_ok singles) by by apply single_entries_ok.
  assert (Hd : Forall double_node_ok doubles).
  { apply state_entries_ok; [done|eapply wrote_ids; [by eapply log_ids|done|done]|done]. }
  split_and!; try done; [|by apply end_cap_records_ok].
  pose proof (length_payload singles Hs) as Hls. pose proof (length_payload doubles Hd) as Hld.
  pose proof (finalize_length _ _ _ r1 cx b1 ltac:(lia) E2) as Hl1. pose proof (finalize_length _ _ _ r3 cx b2 ltac:(lia) E4) as Hl3.
  apply Ok_inj in E as <-. rewrite length_app in Hsize. rewrite Hb3, !length_app, length_replicate in Hl3. rewrite Hb1 in Hl1.
  change (concat (ffs_to_bytes <$> (tree_entry (mkSingleKey uid) mkSingleNode hu (apply_updates ut uus) <$> ks))) with (payload singles) in *.
  rewrite length_app, length_replicate in Hl1.
  unfold single_finalize_with_header in E2. change QMS_FAST_SERIALIZER_SINGLE_ID_NODE_SIZE with (FFS_SIZE single_node) in E2.
  rewrite (finalize_spec GenericSingleIdMerkleNodeBatch UserContractTree r1 cx [] singles Hb1 Ho1 Hs) in E2 by (unfold blob_size; cbn [length]; lia).
  apply Ok_inj in E2 as <-. unfold double_finalize_with_header in E4. change QMS_FAST_SERIALIZER_DOUBLE_ID_NODE_SIZE with (FFS_SIZE double_node) in E4.
  rewrite (finalize_spec GenericDoubleIdMerkleNodeBatch UserContractStateTree r3 cx _ doubles Hb3 Ho3 Hd) in E4 by (unfold blob_size; lia).
  apply Ok_inj in E4 as <-. rewrite imt_batch, <- app_assoc. done.
Qed.

(** The planner cuts the blob into the three payloads. *)
Lemma split_parts now uid cx (singles : list single_node) (doubles : list double_node) (es : list (imt_entry Hash)) nonce :
  context_ok cx → is_uint 64 uid → Forall single_node_ok singles → Forall double_node_ok doubles → Forall entry_ok es →
  let blob := generate_node_batch_blob GenericSingleIdMerkleNodeBatch UserContractTree cx singles ++
              generate_node_batch_blob GenericDoubleIdMerkleNodeBatch UserContractStateTree cx doubles ++
              generate_node_batch_blob GenericIMTLeafBatch Qblob.IMTContractStateLeaf (imt_context now uid cx) es in
  Z.of_nat (length blob) < 2 ^ 64 →
  split_contract_updates blob (cx_chain_id cx) (cx_realm_id cx) (cx_realm_sub_id cx) nonce =
    Ok (if cx_checkpoint_id cx =? nonce then Some (payload singles, payload doubles, payload es) else None).
Proof.
  intros Hcx Hu Hs Hd He blob Hl. unfold blob in *. clear blob. rewrite !length_app, !Nat2Z.inj_add in Hl.
  rewrite (length_generated GenericSingleIdMerkleNodeBatch UserContractTree cx singles Hs) in Hl.
  rewrite (length_generated GenericDoubleIdMerkleNodeBatch UserContractStateTree cx doubles Hd) in Hl.
  rewrite (length_generated GenericIMTLeafBatch Qblob.IMTContractStateLeaf (imt_context now uid cx) es He) in Hl.
  assert (Hp1 : 0 < blob_size (Node := single_node) (length singles)) by (unfold blob_size; cbn [FFS_SIZE single_node_ffs]; lia).
  assert (Hp2 : 0 < blob_size (Node := double_node) (length doubles)) by (unfold blob_size; cbn [FFS_SIZE double_node_ffs]; lia).
  assert (Hp3 : 0 < blob_size (Node := imt_entry Hash) (length es)) by (unfold blob_size; cbn [FFS_SIZE entry_ffs]; unfold IMT_LEAF_FFS_ENTRY_SIZE_V2; lia).
  unfold split_contract_updates, validate_single_tree_nodes_get_clipped_ref_no_exact_size_any_unique_pending_id,
    validate_cst_nodes_get_clipped_ref_any_unique_pending_id_with_remaining.
  destruct (clip_remaining (Node := single_node) GenericSingleIdMerkleNodeBatch UserContractTree ltac:(done) ltac:(done) ltac:(done) cx singles
              (generate_node_batch_blob GenericDoubleIdMerkleNodeBatch UserContractStateTree cx doubles ++
               generate_node_batch_blob GenericIMTLeafBatch Qblob.IMTContractStateLeaf (imt_context now uid cx) es)
              Hcx Hs ltac:(lia)) as [E1 R1].
  rewrite (checked_remaining_ok _ _ _ _ _ _ E1 (andb_true_intro (conj (proj1 (own_context cx _ _ _ _ _ eq_refl)) eq_refl)) R1). cbn [outcome_bind].
  cbn [hd_checkpoint_id blob_header header_from_context_and_counts header_from_context].
  destruct (cx_checkpoint_id cx =? nonce); [|done]. cbn [negb].
  destruct (clip_remaining (Node := double_node) GenericDoubleIdMerkleNodeBatch UserContractStateTree ltac:(done) ltac:(done) ltac:(done) cx doubles
              (generate_node_batch_blob GenericIMTLeafBatch Qblob.IMTContractStateLeaf (imt_context now uid cx) es) Hcx Hd ltac:(lia)) as [E2 R2].
  rewrite (checked_remaining_ok _ _ _ _ _ _ E2 (proj1 (own_context cx _ _ _ _ _ eq_refl)) R2). cbn [outcome_bind].
  destruct (clip_exact (Node := imt_entry Hash) GenericIMTLeafBatch Qblob.IMTContractStateLeaf ltac:(done) ltac:(done) ltac:(done)
              (imt_context now uid cx) es (imt_context_ok now uid cx Hcx Hu) He ltac:(lia)) as [_ ->]. done.
Qed.

(** C4: for an accepted end cap whose proofs are those of real trees, the planner
    of the realm reads from the stored blob exactly the changed nodes of the contract
    tree and of every contract state tree, each once and with its final value, and the
    records of the indexed leaves, the newest first; under another submission nonce it
    reads nothing. *)
Theorem end_cap_blob_correct (now : Z) (cx : context) (uid : Z) (e : SubmitUserEndCapNonProofInput F Hash)
    (hu : nat) (ut : Z → Hash) (uus : list (Z * Hash)) (hs : Z → nat) (ts : Z → Z → Hash) (log : list (Z * (Z * Hash))) (blob : list Z) :
  context_ok cx → is_uint 64 uid → (hu ≤ 64)%nat → (∀ c, (hs c ≤ 64)%nat) → updates_in hu uus → log_in hs log →
  uct <$> contract_state_updates e = deltas hu ut uus →
  concat (state_deltas <$> contract_state_updates e) = forest_deltas hs ts [] log →
  validate_end_cap_and_generate_node_data_for_edge now cx uid e = Ok blob → Z.of_nat (length blob) < 2 ^ 64 →
  ∃ ps pd pi singles doubles,
    (∀ nonce, split_contract_updates blob (cx_chain_id cx) (cx_realm_id cx) (cx_realm_sub_id cx) nonce =
       Ok (if cx_checkpoint_id cx =? nonce then Some (ps, pd, pi) else None)) ∧
    read_batch_nodes_from_checked_payload single_node ps = Ok singles ∧ NoDup (sn_key <$> singles) ∧
    (∀ n, n ∈ singles ↔ ∃ k, 0 ≤ level k ∧ on_paths hu uus k ∧
       n = mkSingleNode (mkSingleKey uid (level k) (index k)) (spec_node (Z.of_nat hu) (apply_updates ut uus) k)) ∧
    read_batch_nodes_from_checked_payload double_node pd = Ok doubles ∧ NoDup (dn_key <$> doubles) ∧
    (∀ n, n ∈ doubles ↔ ∃ c k, 0 ≤ level k ∧ on_paths (hs c) (updates_of log c) k ∧
       n = mkDoubleNode (mkDoubleIdKey uid c (level k) (index k))
             (spec_node (Z.of_nat (hs c)) (apply_updates (ts c) (updates_of log c)) k)) ∧
    deserialize_imt_leaf_ffs_entry_v2 <$> chunks_exact 161 pi = (λ x, Ok (entry_fields x)) <$> end_cap_records uid e.
Proof.
  intros Hcx Hu Hhu Hhs Huus Hlog Euct Estate E Hsize.
  destruct (end_cap_parts now cx uid e hu ut uus hs ts log blob Hu Hhu Hhs Huus Hlog Euct Estate E Hsize)
    as (ks & W & Hblob & Hs & Hd & He & Hnk & Hwfk & Hks & HnW & HwfW & HW).
  rewrite Hblob in Hsize |- *. eexists _, _, _, _, _. split_and!.
  - intros nonce. by apply split_parts.
  - by apply read_payload.
  - rewrite <- list_fmap_compose. apply NoDup_fmap_2; [|done]. intros k k'. apply (the_key_inj _ (single_key_inj uid)).
  - intros n. rewrite list_elem_of_fmap. split.
    + intros (k & -> & Hk). pose proof (proj1 (Forall_forall _ _) Hwfk k Hk) as [Hl _]. exists k.
      split_and!; [lia|apply Hks; [lia|done]|done].
    + intros (k & Hl & Hk & ->). exists k. split; [done|]. by apply Hks.
  - by apply read_payload.
  - rewrite <- list_fmap_compose. apply NoDup_fmap_2; [|done]. intros x x'. apply state_key_inj.
  - intros n. rewrite list_elem_of_fmap. split.
    + intros ([c k] & -> & Hk). pose proof (proj1 (Forall_forall _ _) HwfW _ Hk) as [Hl _]. cbn in Hl. exists c, k.
      split_and!; [lia|apply HW; [lia|done]|done].
    + intros (c & k & Hl & Hk & ->). exists (c, k). split; [done|]. by apply HW.
  - rewrite chunks_payload, <- list_fmap_compose. apply list_fmap_ext. intros i x Hx. apply entry_read.
    exact (Forall_lookup_1 _ _ _ _ He Hx).
Qed.
End content.

(** The contract tree and the state trees of the example have height 2 and begin empty. *)
Definition demo_blob : list Z :=
  match validate_end_cap_and_generate_node_data_for_edge 0 demo_context 7 demo_end_cap with Ok b => b | _ => [] end.

Lemma end_cap_blob_correct_witness :
  validate_end_cap_and_generate_node_data_for_edge 0 demo_context 7 demo_end_cap = Ok demo_blob ∧
  ∃ ps pd pi singles doubles,
    (∀ nonce, split_contract_updates demo_blob 7 2 3 nonce = Ok (if 5 =? nonce then Some (ps, pd, pi) else None)) ∧
    read_batch_nodes_from_checked_payload (QMerkleStoreSingleIdNode gold4) ps = Ok singles ∧
    read_batch_nodes_from_checked_payload (QMerkleStoreDoubleIdNode gold4) pd = Ok doubles ∧
    deserialize_imt_leaf_ffs_entry_v2 <$> chunks_exact 161 pi = (λ x, Ok (entry_fields x)) <$> end_cap_records 7 demo_end_cap.
Proof.
  assert (E : validate_end_cap_and_generate_node_data_for_edge 0 demo_context 7 demo_end_cap = Ok demo_blob).
  { unfold demo_blob. assert (Hok : ∃ b, validate_end_cap_and_generate_node_data_for_edge 0 demo_context 7 demo_end_cap = Ok b).
    { eexists. vm_compute. reflexivity. }
    destruct Hok as [b ->]. reflexivity. }
  split; [exact E|].
  destruct (end_cap_blob_correct 0 demo_context 7 demo_end_cap 2 demo_empty demo_roots (λ _, 2%nat) (λ _, demo_empty) demo_log demo_blob)
    as (ps & pd & pi & singles & doubles & H1 & H2 & _ & _ & H3 & _ & _ & H4).
  - unfold context_ok, is_uint. cbn. lia.
  - split; lia.
  - lia.
  - intros c. lia.
  - unfold updates_in. apply (bool_decide_unpack _). vm_compute. exact I.
  - unfold log_in. apply (bool_decide_unpack _). vm_compute. exact I.
  - vm_compute. reflexivity.
  - vm_compute. reflexivity.
  - exact E.
  - vm_compute. reflexivity.
  - exists ps, pd, pi, singles, doubles. split; [exact H1|]. split; [exact H2|]. split; [exact H3|exact H4].
Defined.
