(* ===== verification/EndCapSlots.v ===== *)
(** * The slots an end cap modifies

    [replay_count_slots_modified] of [EndCap] against its reference: the positional
    slots whose last value differs from their first, and the keys of indexed trees that
    count by their own changes; these are the keys that were inserted or whose last
    preimage differs from their first, when the changes of each key are chained and none
    of them leaves the leaf as it was. *)
From stdpp Require Import prelude list gmap strings.
From Stdlib Require Import ZArith Lia.
From S2P Require Import Prelude MerkleHash FieldHash MerkleProof Wire Serialize Codecs RealmFinalize EndCap EndCapEdge.

(** ** Reference *)
Section reference.
Context {K V : Type} `{EqDecision K, EqDecision V}.
Implicit Types (k : K) (ops : list (K * (V * V))).

(** The changes of one key. *)
Definition ops_on ops k : list (V * V) := (filter (λ o, o.1 = k) ops).*2.

(** The last value differs from the first. *)
Definition net_changed (l : list (V * V)) : Prop :=
  match head l, last l with Some a, Some b => a.1 ≠ b.2 | _, _ => False end.

#[global] Instance net_changed_dec l : Decision (net_changed l).
Proof. unfold net_changed. destruct (head l), (last l); apply _. Defined.

Definition net_keys ops : list K := filter (λ k, net_changed (ops_on ops k)) (remove_dups ops.*1).

Lemma ops_on_app ops ops' k : ops_on (ops ++ ops') k = ops_on ops k ++ ops_on ops' k.
Proof. unfold ops_on. by rewrite filter_app, fmap_app. Qed.

Lemma ops_on_one k c k' : ops_on [(k, c)] k' = if decide (k = k') then [c] else [].
Proof. unfold ops_on. rewrite filter_cons. cbn [fst]. by destruct (decide _). Qed.

Lemma ops_on_nil ops k : k ∉ ops.*1 → ops_on ops k = [].
Proof.
  unfold ops_on. induction ops as [|[k' c] ops IH]; [done|]. cbn [fmap list_fmap fst]. rewrite filter_cons. cbn [fst].
  intros Hk. rewrite decide_False by (intros ->; apply Hk; by left). apply IH. intros ?. apply Hk. by right.
Qed.
End reference.

(** The number of entries of a map with a property, from a list of its keys. *)
Lemma count_entries {K V} `{Countable K} (m : gmap K V) (P : V → Prop) `{!∀ v, Decision (P v)} (ks : list K) :
  NoDup ks → (∀ k, k ∈ ks ↔ ∃ v, m !! k = Some v ∧ P v) → length (filter P (map_to_list m).*2) = length ks.
Proof.
  intros Hn Hks.
  assert (Hl : ∀ l : list (K * V), length (filter P l.*2) = length (filter (λ kv, P kv.2) l).*1).
  { induction l as [|[k v] l IH]; [done|]. cbn [fmap list_fmap snd]. rewrite !filter_cons. cbn [snd]. destruct (decide (P v)); cbn; by rewrite IH. }
  rewrite Hl. apply Permutation_length, NoDup_Permutation; [|done|].
  - apply NoDup_fmap_2_strong; [|apply NoDup_filter, NoDup_map_to_list].
    intros [k v] [k' v'] [_ Hx%elem_of_map_to_list]%list_elem_of_filter [_ Hy%elem_of_map_to_list]%list_elem_of_filter Hk.
    cbn in Hk. by simplify_eq.
  - intros k. rewrite Hks, list_elem_of_fmap. split.
    + intros ([k' v] & -> & [Hp Hin%elem_of_map_to_list]%list_elem_of_filter). by exists v.
    + intros (v & Hv & Hp). exists (k, v). split; [done|]. apply list_elem_of_filter. split; [done|by apply elem_of_map_to_list].
Qed.

Section slots.
Context {F Hash : Type} `{FieldHash F Hash} `{EqDecision F, EqDecision Hash}.
Context `{Q256BitHash Hash}.
Abbreviation leaf := (IMTContractStateLeaf F Hash).
Abbreviation history := (ContractStateUpdateHistory F Hash).
Abbreviation update := (ContractStateUpdate F Hash).
Abbreviation keys := (gmap (list Z) (ImtKeyReplayState F Hash)).

(** *** Positional slots *)
Definition positional_ops (u : update) : list (Z * (Hash * Hash)) :=
  match u with Positional d => [(dmp_index d, (old_value d, new_value d))] | IMT _ => [] end.

(** *** Keys: what an update does to each key it touches, and whether it inserts it. *)
Definition imt_ops (u : update) : list (leaf * leaf * bool) :=
  match u with
  | Positional _ => []
  | IMT (Update old new _) => [(old, new, false)]
  | IMT (Insert pred_old pred_new new_leaf _ _) => [(pred_old, pred_new, false); (new_leaf, new_leaf, true)]
  end.

Definition op_key (o : leaf * leaf * bool) : list Z := into_owned_32bytes (imt_key o.1.1).

Definition key_step (m : keys) (o : leaf * leaf * bool) : keys := (replay_imt_key_op m o.1.1 o.1.2 o.2).2.

Lemma key_step_size (m : keys) o :
  Z.of_nat (size (key_step m o)) = Z.of_nat (size m) + (replay_imt_key_op m o.1.1 o.1.2 o.2).1.
Proof.
  unfold key_step, replay_imt_key_op. destruct (m !! _) as [s|] eqn:E.
  - destruct (_ && _); cbn [fst snd]; [|lia]. assert (size m ≠ 0%nat) by (intros ->%map_size_empty_iff; by rewrite lookup_empty in E).
    rewrite map_size_delete, E. lia.
  - cbn [fst snd]. rewrite map_size_insert, E. lia.
Qed.

(** The running number of keys is the size of the map: the floor at zero never acts. *)
Lemma replay_keys us : ∀ st,
  Z.of_nat (size (imt_keys st)) ≤ imt_keys_modified st →
  let st' := foldl replay_update st us in
  imt_keys st' = foldl key_step (imt_keys st) (concat (imt_ops <$> us)) ∧
  imt_keys_modified st' = imt_keys_modified st + Z.of_nat (size (imt_keys st')) - Z.of_nat (size (imt_keys st)).
Proof.
  induction us as [|u us IH]; intros st Hst; [cbn; split; [done|lia]|]. cbn [foldl fmap list_fmap concat].
  set (st1 := replay_update st u).
  assert (Hst1 : imt_keys st1 = foldl key_step (imt_keys st) (imt_ops u) ∧
    imt_keys_modified st1 = imt_keys_modified st + Z.of_nat (size (imt_keys st1)) - Z.of_nat (size (imt_keys st))).
  { unfold st1, replay_update, replay_inc. destruct u as [d|[o n d|po pn nl pred new]]; cbn [imt_ops foldl].
    - cbn. split; [done|lia].
    - pose proof (key_step_size (imt_keys st) (o, n, false)) as Hs. unfold key_step in *. cbn [fst snd] in *.
      destruct (replay_imt_key_op (imt_keys st) o n false) as [inc m] eqn:E. cbn [fst snd imt_keys imt_keys_modified] in *.
      split; [done|]. destruct (Z.ltb_spec 0 inc), (Z.ltb_spec inc 0); lia.
    - pose proof (key_step_size (imt_keys st) (po, pn, false)) as Hs. unfold key_step in *. cbn [fst snd] in *.
      destruct (replay_imt_key_op (imt_keys st) po pn false) as [inc m] eqn:E. cbn [fst snd] in *.
      pose proof (key_step_size m (nl, nl, true)) as Hs'. unfold key_step in *. cbn [fst snd] in *.
      destruct (replay_imt_key_op m nl nl true) as [inc' m'] eqn:E'. cbn [fst snd imt_keys imt_keys_modified] in *.
      split; [done|]. destruct (Z.ltb_spec 0 (inc + inc')), (Z.ltb_spec (inc + inc') 0); lia. }
  destruct Hst1 as [Hk Hm]. destruct (IH st1) as [Hk' Hm']; [lia|]. split; [by rewrite foldl_app, <- Hk|lia].
Qed.

(** *** What the two maps hold at the end of a history *)
Definition history_slots (csu : history) : list (Z * (Hash * Hash)) := concat (positional_ops <$> updates csu).
Definition history_keys (csu : history) : list (leaf * leaf * bool) := concat (imt_ops <$> updates csu).

Definition first_last {V} (l : list (V * V)) : option (V * V) :=
  match head l, last l with Some a, Some b => Some (a.1, b.2) | _, _ => None end.

Lemma first_last_snoc {V} (l : list (V * V)) c :
  first_last (l ++ [c]) = Some (from_option fst c.1 (first_last l), c.2).
Proof.
  unfold first_last. rewrite last_snoc. destruct l as [|a l]; [done|]. cbn [app head].
  destruct (last (a :: l)) eqn:E; [done|]. by apply last_None in E.
Qed.

Lemma replay_slots us : ∀ n i,
  slot_first_last (foldl replay_update (mkReplayState ∅ ∅ n) us) !! i = first_last (ops_on (concat (positional_ops <$> us)) i).
Proof.
  intros n. induction us as [|u us IH] using rev_ind; intros i; [done|].
  rewrite foldl_snoc, fmap_app, concat_app, ops_on_app. set (st := foldl replay_update _ us) in *. cbn [fmap list_fmap concat].
  rewrite app_nil_r. destruct u as [d|[o n' d|po pn nl pred new]]; cbn [replay_update positional_ops].
  - cbn [slot_first_last]. rewrite ops_on_one. destruct (decide (dmp_index d = i)) as [<-|Hne].
    + rewrite lookup_insert_eq, first_last_snoc, IH. by destruct (first_last _) as [[a b]|].
    + by rewrite lookup_insert_ne, app_nil_r.
  - destruct (replay_imt_key_op _ _ _ _). cbn. by rewrite app_nil_r.
  - destruct (replay_imt_key_op _ _ _ _), (replay_imt_key_op _ _ _ _). cbn. by rewrite app_nil_r.
Qed.

Lemma changed_slots_net csu n :
  changed_slots (slot_first_last (foldl replay_update (mkReplayState ∅ ∅ n) (updates csu))) = Z.of_nat (length (net_keys (history_slots csu))).
Proof.
  unfold changed_slots. f_equal. apply count_entries; [apply NoDup_filter, NoDup_remove_dups|].
  intros i. rewrite replay_slots. unfold net_keys. rewrite list_elem_of_filter, elem_of_remove_dups. fold (history_slots csu).
  unfold net_changed, first_last. split.
  - intros [Hn _]. destruct (head _); [|done]. destruct (last _); [|done]. by eexists.
  - intros (v & Hv & Hne). destruct (head _) eqn:E1; [|done]. destruct (last _) eqn:E2; [|done]. simplify_eq. split; [done|].
    destruct (decide (i ∈ (history_slots csu).*1)) as [|Hni]; [done|]. by rewrite ops_on_nil in E1.
Qed.

(** The changes of one key in a session: each begins at the leaf the one before left,
    only the first can be an insertion, and the others change the leaf. *)
Definition key_run (l : list (leaf * leaf * bool)) : Prop :=
  linked (λ o, o.1.1) (λ o, o.1.2) l ∧ Forall (λ o, o.2 = true ∨ o.1.1 ≠ o.1.2) l ∧ Forall (λ o, o.2 = false) (tail l).

(** The key was inserted, or its last preimage is not its first. *)
Definition key_changed (l : list (leaf * leaf * bool)) : Prop :=
  match head l, last l with Some a, Some b => a.2 = true ∨ a.1.1 ≠ b.1.2 | _, _ => False end.

#[global] Instance key_changed_dec (l : list (leaf * leaf * bool)) : Decision (key_changed l).
Proof. unfold key_changed. destruct (head l), (last l); apply _. Defined.

Definition runs_on (ops : list (leaf * leaf * bool)) (k : list Z) : list (leaf * leaf * bool) := filter (λ o, op_key o = k) ops.

Definition changed_keys (csu : history) : list (list Z) :=
  filter (λ k, key_changed (runs_on (history_keys csu) k)) (remove_dups (op_key <$> history_keys csu)).

(** The state of a key after its changes. *)
Definition run_state (l : list (leaf * leaf * bool)) : option (ImtKeyReplayState F Hash) :=
  match head l with
  | Some a => if decide (key_changed l) then Some (mkReplay a.1.1 a.2) else None
  | None => None
  end.

Lemma key_run_snoc (l : list (leaf * leaf * bool)) o : key_run (l ++ [o]) → key_run l.
Proof.
  intros (Hl & Hf & Ht). apply linked_snoc in Hl as [Hl _]. apply Forall_app in Hf as [Hf _]. split_and!; [done|done|].
  destruct l as [|a l]; [constructor|]. cbn [app tail] in Ht |- *. by apply Forall_app in Ht as [Ht _].
Qed.

Lemma run_state_eq (l : list (leaf * leaf * bool)) a b :
  head l = Some a → last l = Some b →
  run_state l = if a.2 || bool_decide (a.1.1 ≠ b.1.2) then Some (mkReplay a.1.1 a.2) else None.
Proof.
  intros Ha Hb. assert (Hc : key_changed l ↔ a.2 || bool_decide (a.1.1 ≠ b.1.2) = true).
  { unfold key_changed. rewrite Ha, Hb, orb_true_iff, bool_decide_eq_true. done. }
  unfold run_state. rewrite Ha. destruct (decide (key_changed l)) as [Hk|Hk], (a.2 || bool_decide (a.1.1 ≠ b.1.2)) eqn:E; try done.
  - by apply Hc in Hk.
  - by destruct Hk; apply Hc.
Qed.

(** One change of a key, seen by that key alone: a first touch opens it, and going back to
    the preimage it was opened at closes it again unless it was inserted. *)
Definition touch (s : option (ImtKeyReplayState F Hash)) (o : leaf * leaf * bool) : option (ImtKeyReplayState F Hash) :=
  match s with
  | None => Some (mkReplay o.1.1 o.2)
  | Some e => if negb (is_insert e) && bool_decide (o.1.2 = start_preimage e) then None else Some e
  end.

Definition counted (l : list (leaf * leaf * bool)) : Prop := is_Some (foldl touch None l).

#[global] Instance counted_dec (l : list (leaf * leaf * bool)) : Decision (counted l).
Proof. unfold counted. apply _. Defined.

(** The keys left open by their own changes. *)
Definition counted_keys (csu : history) : list (list Z) :=
  filter (λ k, counted (runs_on (history_keys csu) k)) (remove_dups (op_key <$> history_keys csu)).

Lemma touch_run (l : list (leaf * leaf * bool)) (o : leaf * leaf * bool) :
  key_run (l ++ [o]) → touch (run_state l) o = run_state (l ++ [o]).
Proof.
  intros (Hl & Hf & Ht). apply linked_snoc in Hl as [_ Hl]. apply Forall_app in Hf as [_ [Hf _]%Forall_cons].
  destruct l as [|a l].
  { rewrite (run_state_eq ([] ++ [o]) o o) by done. cbn [run_state head snd touch]. destruct (o.2) eqn:E; [done|].
    cbn [orb]. rewrite bool_decide_eq_true_2; [done|]. destruct Hf; congruence. }
  cbn [app tail] in Ht. apply Forall_app in Ht as [_ [Ho _]%Forall_cons].
  destruct (last (a :: l)) as [b|] eqn:Eb; [|by apply last_None in Eb]. specialize (Hl b eq_refl).
  rewrite (run_state_eq (a :: l) a b eq_refl Eb), (run_state_eq ((a :: l) ++ [o]) a o) by (done || apply last_snoc).
  destruct (a.2) eqn:Ea; cbn [orb] in *; [done|].
  destruct (bool_decide (a.1.1 ≠ b.1.2)) eqn:Eab; cbn [touch is_insert start_preimage negb andb].
  - destruct (bool_decide (o.1.2 = a.1.1)) eqn:Eo.
    + apply bool_decide_eq_true in Eo. rewrite bool_decide_eq_false_2; [done|congruence].
    + apply bool_decide_eq_false in Eo. rewrite bool_decide_eq_true_2; [done|congruence].
  - apply bool_decide_eq_false in Eab. destruct (decide (a.1.1 = b.1.2)) as [Eq|]; [|tauto].
    rewrite Ho, bool_decide_eq_true_2; [by rewrite Eq, Hl|]. destruct Hf; congruence.
Qed.

Lemma touch_runs (l : list (leaf * leaf * bool)) : key_run l → foldl touch None l = run_state l.
Proof.
  induction l as [|o l IH] using rev_ind; intros Hr; [done|].
  rewrite foldl_snoc, IH by (by eapply key_run_snoc). by apply touch_run.
Qed.

Lemma key_step_touch (m : keys) o : key_step m o !! op_key o = touch (m !! op_key o) o.
Proof.
  unfold key_step, replay_imt_key_op, touch. fold (op_key o). destruct (m !! op_key o) as [e|] eqn:E; [destruct (_ && _)|]; cbn [snd];
    [by rewrite lookup_delete_eq|done|by rewrite lookup_insert_eq].
Qed.

Lemma key_step_other (m : keys) o k : op_key o ≠ k → key_step m o !! k = m !! k.
Proof.
  intros Hne. unfold key_step, replay_imt_key_op. fold (op_key o). destruct (m !! op_key o); [destruct (_ && _)|]; cbn [snd];
    [by rewrite lookup_delete_ne|done|by rewrite lookup_insert_ne].
Qed.

(** The map of the replay holds, for each key, what its own changes leave. *)
Lemma replay_keys_state ops k : foldl key_step (∅ : keys) ops !! k = foldl touch None (runs_on ops k).
Proof.
  induction ops as [|o ops IH] using rev_ind; [done|]. rewrite foldl_snoc. unfold runs_on in *.
  rewrite filter_app, filter_cons, filter_nil. destruct (decide (op_key o = k)) as [<-|Hne].
  - by rewrite foldl_snoc, key_step_touch, IH.
  - by rewrite key_step_other, app_nil_r by done.
Qed.

Lemma counted_keys_size csu :
  size (foldl key_step (∅ : keys) (history_keys csu)) = length (counted_keys csu).
Proof.
  rewrite <- length_map_to_list, <- (length_fmap fst). apply Permutation_length, NoDup_Permutation.
  - apply NoDup_fst_map_to_list.
  - apply NoDup_filter, NoDup_remove_dups.
  - intros k. unfold counted_keys. rewrite list_elem_of_filter, elem_of_remove_dups, list_elem_of_fmap. split.
    + intros ([k' v] & -> & Hv%elem_of_map_to_list). cbn [fst]. rewrite replay_keys_state in Hv. split; [by exists v|].
      destruct (runs_on (history_keys csu) k') as [|a l] eqn:Ea; [done|].
      assert (Hin : a ∈ runs_on (history_keys csu) k') by (rewrite Ea; by left).
      apply list_elem_of_filter in Hin as [<- Hin]. apply list_elem_of_fmap. by exists a.
    + intros [[v Hv] _]. rewrite <- replay_keys_state in Hv. exists (k, v). split; [done|]. by apply elem_of_map_to_list.
Qed.

Lemma counted_keys_changed csu :
  (∀ k, key_run (runs_on (history_keys csu) k)) → counted_keys csu = changed_keys csu.
Proof.
  intros Hr. unfold counted_keys, changed_keys. apply list_filter_iff. intros k. unfold counted.
  rewrite touch_runs by done. unfold run_state. destruct (head _) as [a|] eqn:Ea.
  - destruct (decide _); [by split|]. split; [by intros [? ?]|done].
  - unfold key_changed. rewrite Ea. split; [by intros [? ?]|done].
Qed.

(** ** All contracts *)
Definition history_count (csu : history) : nat :=
  length (net_keys (history_slots csu)) + size (foldl key_step (∅ : keys) (history_keys csu)).

Lemma replay_histories_sum csus : ∀ p i, 0 ≤ i →
  replay_histories p i csus = wrap 64 (p + i + Z.of_nat (sum_list (history_count <$> csus))).
Proof.
  induction csus as [|csu csus IH]; intros p i Hi; cbn [replay_histories fmap list_fmap sum_list]; [f_equal; cbn; lia|].
  destruct (replay_keys (updates csu) (mkReplayState ∅ ∅ i)) as [Hk Hm]; [cbn; by rewrite map_size_empty|].
  cbn [imt_keys imt_keys_modified] in Hk, Hm. rewrite map_size_empty in Hm. rewrite changed_slots_net, IH by lia.
  unfold wrap. rewrite <- Z.add_assoc, Zplus_mod_idemp_l. f_equal. rewrite Hm, Hk. fold (history_keys csu). unfold history_count, id. lia.
Qed.

Lemma sum_list_permutation (l l' : list nat) : l ≡ₚ l' → sum_list l = sum_list l'.
Proof. induction 1; cbn; lia. Qed.

(** C18: the replayed number of modified slots is, modulo 2^64, the number of positional
    slots whose last value differs from their first plus the number of keys left open by
    their own changes (a first touch opens a key, even when it leaves the leaf as it was;
    a key that was not inserted closes when it gets back the preimage it was opened at).
    When the changes of each key of a contract are chained, only the first inserts and
    each of the others changes the leaf, these are the keys that were inserted or whose
    last preimage differs from their first. The number does not depend on the order of
    the contracts. *)
Theorem slots_replay_correct (e : SubmitUserEndCapNonProofInput F Hash) :
  replay_count_slots_modified e =
    wrap 64 (Z.of_nat (sum_list ((λ csu, length (net_keys (history_slots csu)) + length (counted_keys csu))%nat <$> contract_state_updates e))) ∧
  (∀ csu, (∀ k, key_run (runs_on (history_keys csu) k)) → counted_keys csu = changed_keys csu) ∧
  (∀ e', contract_state_updates e' ≡ₚ contract_state_updates e → replay_count_slots_modified e' = replay_count_slots_modified e).
Proof.
  unfold replay_count_slots_modified. split_and!.
  - rewrite replay_histories_sum, !Z.add_0_l by done. do 3 f_equal. apply list_fmap_ext. intros i csu _.
    unfold history_count. by rewrite counted_keys_size.
  - apply counted_keys_changed.
  - intros e' He. rewrite !replay_histories_sum by done. do 3 f_equal. apply sum_list_permutation. by rewrite He.
Qed.

(** A single update that leaves the leaf as it was makes its key count although nothing
    of it changed. *)
Lemma noop_update_counted (l : leaf) : counted [(l, l, false)] ∧ ¬ key_changed [(l, l, false)].
Proof. split; [by eexists|]. intros [?|?]; done. Qed.

(** A key that is changed at most once. *)
Lemma key_run_once ops :
  NoDup (op_key <$> ops) → Forall (λ o, o.2 = true ∨ o.1.1 ≠ o.1.2) ops → ∀ k, key_run (runs_on ops k).
Proof.
  intros Hn Hf k. unfold key_run, runs_on. induction ops as [|o ops IH]; [by repeat constructor|].
  cbn [fmap list_fmap] in Hn. apply NoDup_cons in Hn as [Ho Hn]. apply Forall_cons in Hf as [Hfo Hf]. rewrite filter_cons.
  destruct (decide (op_key o = k)) as [<-|]; [|by apply IH].
  assert (filter (λ o', op_key o' = op_key o) ops = []) as ->.
  { clear IH Hn Hf. induction ops as [|o' ops IH]; [done|]. cbn [fmap list_fmap] in Ho. apply not_elem_of_cons in Ho as [Hne Ho].
    rewrite filter_cons, decide_False by done. by apply IH. }
  split_and!; [done|by apply Forall_singleton|constructor].
Qed.
End slots.

Lemma slots_replay_correct_witness :
  replay_count_slots_modified demo_end_cap = 4 ∧
  wrap 64 (Z.of_nat (sum_list ((λ csu, length (net_keys (history_slots csu)) + length (counted_keys csu))%nat <$>
    contract_state_updates demo_end_cap))) = 4 ∧
  Forall (λ csu, counted_keys csu = changed_keys csu) (contract_state_updates demo_end_cap).
Proof.
  assert (E : replay_count_slots_modified demo_end_cap = 4) by (vm_compute; reflexivity).
  destruct (slots_replay_correct demo_end_cap) as (Hc & Hk & _).
  split; [exact E|split; [by rewrite <- Hc|]]. apply Forall_forall. intros csu Hin. apply Hk. intros k. apply key_run_once.
  - revert csu Hin. apply Forall_forall, (bool_decide_unpack _). vm_compute. exact I.
  - revert csu Hin. apply Forall_forall, (bool_decide_unpack _). vm_compute. exact I.
Defined.
