(* ===== verification/CoreStore.v ===== *)
(** * The in-memory core database

    [psy_node_store_memory/src/v2/cbs_store.rs]: every operation of
    [InMemoryCoreStore]. A table is found by name and created when it is missing, also
    by reads; the handle of a table is its name, so that all users of a name share one
    table. Keys are big-endian, which makes the order of the keys the order of ids and
    checkpoints. Operations on several rows are joined futures that never wait: they
    run one after the other and stop at the first error (the build without
    [parallel_rayon]). *)
From stdpp Require Import prelude list gmap strings sorting.
From Stdlib Require Import ZArith Lia.
From S2P Require Import Prelude MerkleKey MerkleHash Wire Serialize ByteOrder Codecs TagTree Qblob.

(** ** What is stored *)

(** [PsyCanonicalDatabaseSerializeBaseSingle]: [psy_ser_to_bytes_vec] and
    [psy_ser_from_slice] of a type of values or keys. *)
Class CanonicalSingle (V : Type) : Type := {
  ser_to_bytes_vec : V → outcome (list Z);
  ser_from_slice : list Z → outcome V;
}.

(** [AutoImplementFallbackPsySerializeCanonical] *)
Definition fallback_single `{PsyIOReadWrite V} : CanonicalSingle V := {|
  ser_to_bytes_vec := psy_ser_to_bytes_vec;
  ser_from_slice := psy_ser_from_slice;
|}.

(** [AutoDatabaseSerializationUseFastFixedSerialize] *)
Definition fixed_single `{FastFixedSerializable V} : CanonicalSingle V := {|
  ser_to_bytes_vec v := Ok (ffs_to_bytes v);
  ser_from_slice := ffs_try_from_slice;
|}.

(** [QPDSerializable], for hashes. *)
Class QPDSerializable (A : Type) : Type := {
  to_bytes : A → outcome (list Z);
  from_bytes : list Z → outcome A;
}.

Record InMemoryCoreStore : Type := mkStore {
  tables : gmap string skipmap;
  u64_tables : gmap string (gmap Z Z);
  keyspace : string;
  no_tablet_keyspace : string;
  store_realm_id : Z;
  store_realm_sub_id : Z;
}.

Abbreviation db := (stateful InMemoryCoreStore).

Definition new : InMemoryCoreStore := mkStore ∅ ∅ "" "" 0 0.

Definition new_with_keyspace (realm_id realm_sub_id : Z) (keyspace : string) : InMemoryCoreStore :=
  mkStore ∅ ∅ keyspace (keyspace +:+ "_no_tablet") realm_id realm_sub_id.

Record InMemoryTableIdentifier : Type := mkTable {
  full_name : string;
  tree_height : Z;
}.

Definition new_tree (full_name : string) (tree_height : Z) : InMemoryTableIdentifier :=
  mkTable full_name tree_height.
Definition table_new (full_name : string) : InMemoryTableIdentifier := mkTable full_name 0.
Definition to_string (table : InMemoryTableIdentifier) : string := full_name table.

Definition init_std_table (table_name : string) : db InMemoryTableIdentifier := λ s,
  (Ok (mkTable (if (keyspace s =? "")%string then table_name else keyspace s +:+ "-" +:+ table_name) 0), s).

Definition init_no_tablet_table (table_name : string) : db InMemoryTableIdentifier := λ s,
  (Ok (mkTable (if (no_tablet_keyspace s =? "")%string then keyspace s +:+ "_no_tablet-" +:+ table_name
                else no_tablet_keyspace s +:+ "-" +:+ table_name) 0), s).

Definition init_zero_id_merkle_table (table_name : string) (tree_height : Z) : db InMemoryTableIdentifier := λ s,
  (Ok (mkTable (if (keyspace s =? "")%string then table_name else keyspace s +:+ "-" +:+ table_name) tree_height), s).

(** ** Tables by name *)
Definition with_table (name : string) (f : skipmap → skipmap) (s : InMemoryCoreStore) : InMemoryCoreStore :=
  mkStore (<[name := f (default ∅ (tables s !! name))]> (tables s))
    (u64_tables s) (keyspace s) (no_tablet_keyspace s) (store_realm_id s) (store_realm_sub_id s).

Definition with_u64_table (name : string) (f : gmap Z Z → gmap Z Z) (s : InMemoryCoreStore) : InMemoryCoreStore :=
  mkStore (tables s) (<[name := f (default ∅ (u64_tables s !! name))]> (u64_tables s))
    (keyspace s) (no_tablet_keyspace s) (store_realm_id s) (store_realm_sub_id s).

Definition get_or_create_table (name : string) : db string := λ s, (Ok name, with_table name id s).
Definition get_or_create_u64_table (name : string) : db string := λ s, (Ok name, with_u64_table name id s).

(** The contents behind a handle. *)
Definition contents (s : InMemoryCoreStore) (name : string) : skipmap := default ∅ (tables s !! name).
Definition u64_contents (s : InMemoryCoreStore) (name : string) : gmap Z Z := default ∅ (u64_tables s !! name).

(** [db.get], [db.range] and [db.iter]; [db.insert] and [db.remove]. *)
Definition read_table {A} (db : string) (f : skipmap → A) : stateful InMemoryCoreStore A :=
  λ s, (Ok (f (contents s db)), s).
Definition insert_entry (db : string) (key value : list Z) : stateful InMemoryCoreStore unit :=
  λ s, (Ok tt, with_table db <[key := value]> s).
Definition remove_entry (db : string) (key : list Z) : stateful InMemoryCoreStore unit :=
  λ s, (Ok tt, with_table db (delete key) s).

(** The same for tables of integers, whose entries are updated atomically. *)
Definition read_u64 {A} (db : string) (f : gmap Z Z → A) : stateful InMemoryCoreStore A :=
  λ s, (Ok (f (u64_contents s db)), s).
Definition update_u64 {A} (db : string) (f : gmap Z Z → A * gmap Z Z) : stateful InMemoryCoreStore A :=
  λ s, (Ok (f (u64_contents s db)).1, with_u64_table db (λ m, (f m).2) s).

(** [self.tables.get(name)] does not create the table. *)
Definition tables_get (name : string) : db (option string) :=
  λ s, (Ok ((λ _, name) <$> tables s !! name), s).
Definition u64_tables_get (name : string) : db (option string) :=
  λ s, (Ok ((λ _, name) <$> u64_tables s !! name), s).

(** [for x in l { f(x) }] *)
Fixpoint for_each {S A} (f : A → stateful S unit) (l : list A) : stateful S unit :=
  match l with [] => mret tt | a :: l => _ ← f a; for_each f l end.

(** [if let Some(db) = self.tables.get(name) { .. }] *)
Definition when_table (name : string) (k : string → db unit) : db unit :=
  o ← tables_get name; match o with Some db => k db | None => mret tt end.

(** ** Keys *)
Abbreviation be_u64 := (to_be_bytes 8).
Abbreviation be_i64 := (to_be_bytes 8).
Abbreviation be_i16 := (to_be_bytes 2).
Abbreviation be_u128 := (to_be_bytes 16).

Definition key_single_id_checkpointed (obj_id checkpoint_id : Z) : list Z :=
  be_u64 obj_id ++ be_u64 checkpoint_id.

Definition key_double_id_checkpointed (obj_id secondary_id checkpoint_id : Z) : list Z :=
  be_u64 obj_id ++ be_u64 secondary_id ++ be_u64 checkpoint_id.

Definition key_merkle_zero_id (key : SimpleMerkleNodeKey) (checkpoint_id : Z) : list Z :=
  [level key] ++ be_u64 (index key) ++ be_u64 checkpoint_id.

Definition key_merkle_single_id (tree_id : Z) (key : SimpleMerkleNodeKey) (checkpoint_id : Z) : list Z :=
  be_u64 tree_id ++ [level key] ++ be_u64 (index key) ++ be_u64 checkpoint_id.

Definition key_merkle_double_id (tree_id tree_sub_id : Z) (key : SimpleMerkleNodeKey) (checkpoint_id : Z) : list Z :=
  be_u64 tree_id ++ be_u64 tree_sub_id ++ [level key] ++ be_u64 (index key) ++ be_u64 checkpoint_id.

Definition key_tag_tree (unique_pending_id : Z) (key : SimpleMerkleNodeKey) : list Z :=
  be_u64 unique_pending_id ++ [level key] ++ be_u64 (index key).

Definition key_hash_to_u64 `{QPDSerializable Hash} (hash : Hash) (value : Z) : outcome (list Z) :=
  let* hash_bytes := to_bytes hash in Ok (hash_bytes ++ be_u64 value).

Definition extract_u64_from_hash_to_u64_key (key : list Z) : outcome Z :=
  if (length key <? 8)%nat then Err "Key too short for HashToU64"
  else read_be_u64 key (length key - 8).

(** ** Objects by id *)
Record QDatabaseKeyIdValueTableRow (V : Type) : Type := mkKivRow {
  kiv_obj_id : Z;
  kiv_value : V;
}.
Arguments mkKivRow {V} _ _.
Arguments kiv_obj_id {V} _.
Arguments kiv_value {V} _.

Record QDatabaseSingleIdTableRow (V : Type) : Type := mkSingleRow {
  single_obj_id : Z;
  single_checkpoint_id : Z;
  single_value : V;
}.
Arguments mkSingleRow {V} _ _ _.
Arguments single_obj_id {V} _.
Arguments single_checkpoint_id {V} _.
Arguments single_value {V} _.

Record QDatabaseDoubleIdTableRow (V : Type) : Type := mkDoubleRow {
  double_obj_id : Z;
  double_secondary_id : Z;
  double_checkpoint_id : Z;
  double_value : V;
}.
Arguments mkDoubleRow {V} _ _ _ _.
Arguments double_obj_id {V} _.
Arguments double_secondary_id {V} _.
Arguments double_checkpoint_id {V} _.
Arguments double_value {V} _.

(** [results.into_iter().flatten()] over options. *)
Definition flatten {A} (l : list (option A)) : list A := omap id l.

(** [.try_into()?] to an array of [n] bytes. *)
Definition try_array (n : nat) (l : list Z) : outcome (list Z) :=
  if (length l =? n)%nat then Ok l else Err "could not convert slice to array".

(** [.try_into().unwrap()] *)
Definition unwrap_array (n : nat) (l : list Z) : outcome (list Z) :=
  if (length l =? n)%nat then Ok l else Panic.

Section objects.
Context {V : Type} `{CanonicalSingle V}.

Definition db_select_one_kiv_value (table : InMemoryTableIdentifier) (obj_id : Z) : db (option V) :=
  db ← get_or_create_table (to_string table);
  let key := be_u64 obj_id in
  entry ← read_table db (lookup key);
  lift (transpose ser_from_slice entry).

Definition db_select_one_kiv_value_and_ids (table : InMemoryTableIdentifier) (obj_id : Z)
    : db (option (QDatabaseKeyIdValueTableRow V)) :=
  value ← db_select_one_kiv_value table obj_id;
  mret (mkKivRow obj_id <$> value).

Definition db_select_one_kiv_value_and_ids_t {R} (create : Z → V → R) (table : InMemoryTableIdentifier) (obj_id : Z)
    : db (option R) :=
  value ← db_select_one_kiv_value table obj_id;
  mret (create obj_id <$> value).

Definition db_select_all_kiv (table : InMemoryTableIdentifier) : db (list (QDatabaseKeyIdValueTableRow V)) :=
  db ← get_or_create_table (to_string table);
  entries ← read_table db iter;
  mapM (λ '(key, bytes),
    lift (let* b := try_array 8 key in
          let* value := ser_from_slice bytes in
          Ok (mkKivRow (from_be_bytes b) value))) entries.

Definition db_select_many_kiv_values (table : InMemoryTableIdentifier) (obj_ids : list Z) : db (list (option V)) :=
  mapM (db_select_one_kiv_value table) obj_ids.

Definition db_select_many_kiv_keys_and_values {R} (create : Z → V → R) (table : InMemoryTableIdentifier)
    (obj_ids : list Z) : db (list R) :=
  results ← mapM (db_select_one_kiv_value_and_ids_t create table) obj_ids;
  mret (flatten results).

Definition db_insert_one_kiv (table : InMemoryTableIdentifier) (obj_id : Z) (value : V) : db unit :=
  db ← get_or_create_table (to_string table);
  let key := be_u64 obj_id in
  val_bytes ← lift (ser_to_bytes_vec value);
  insert_entry db key val_bytes.

Definition db_insert_many_kivs (table : InMemoryTableIdentifier) (rows : list (QDatabaseKeyIdValueTableRow V)) : db unit :=
  for_each (λ row, db_insert_one_kiv table (kiv_obj_id row) (kiv_value row)) rows.

(** The [_t] variants take any row type, with its accessors or its constructor. *)
Definition db_insert_many_kivs_t {R} (get_row_obj_id : R → Z) (get_row_value_ref : R → V)
    (table : InMemoryTableIdentifier) (rows : list R) : db unit :=
  for_each (λ row, db_insert_one_kiv table (get_row_obj_id row) (get_row_value_ref row)) rows.

(** *** Versions by one id *)

Definition db_select_one_single_checkpointed_object_value (table : InMemoryTableIdentifier)
    (obj_id max_checkpoint_id : Z) : db (option V) :=
  db ← get_or_create_table (to_string table);
  let start_key := key_single_id_checkpointed obj_id 0 in
  let end_key := key_single_id_checkpointed obj_id max_checkpoint_id in
  entry ← read_table db (λ m, last (range start_key (Included end_key) m));
  match entry with
  | Some (_, bytes) => value ← lift (ser_from_slice bytes); mret (Some value)
  | None => mret None
  end.

Definition db_select_one_single_checkpointed_object_value_and_ids (table : InMemoryTableIdentifier)
    (obj_id max_checkpoint_id : Z) : db (option (QDatabaseSingleIdTableRow V)) :=
  db ← get_or_create_table (to_string table);
  let start_key := key_single_id_checkpointed obj_id 0 in
  let end_key := key_single_id_checkpointed obj_id max_checkpoint_id in
  entry ← read_table db (λ m, last (range start_key (Included end_key) m));
  match entry with
  | Some (key_bytes, bytes) =>
      checkpoint_id ← lift (read_be_u64 key_bytes 8);
      value ← lift (ser_from_slice bytes);
      mret (Some (mkSingleRow obj_id checkpoint_id value))
  | None => mret None
  end.

Definition db_select_one_single_checkpointed_object_value_and_ids_t {R} (create : Z → Z → V → R)
    (table : InMemoryTableIdentifier) (obj_id max_checkpoint_id : Z) : db (option R) :=
  row ← db_select_one_single_checkpointed_object_value_and_ids table obj_id max_checkpoint_id;
  mret ((λ r, create (single_obj_id r) (single_checkpoint_id r) (single_value r)) <$> row).

Definition db_select_all_single_checkpointed_object (table : InMemoryTableIdentifier)
    : db (list (QDatabaseSingleIdTableRow V)) :=
  db ← get_or_create_table (to_string table);
  entries ← read_table db iter;
  mapM (λ '(key_bytes, bytes),
    lift (let* obj_id := read_be_u64 key_bytes 0 in
          let* checkpoint_id := read_be_u64 key_bytes 8 in
          let* value := ser_from_slice bytes in
          Ok (mkSingleRow obj_id checkpoint_id value))) entries.

Definition db_select_many_single_checkpointed_object_values (table : InMemoryTableIdentifier)
    (obj_ids : list Z) (max_checkpoint_id : Z) : db (list (option V)) :=
  mapM (λ id, db_select_one_single_checkpointed_object_value table id max_checkpoint_id) obj_ids.

Definition db_select_many_single_checkpointed_object_keys_and_values {R} (create : Z → Z → V → R)
    (table : InMemoryTableIdentifier) (obj_ids : list Z) (max_checkpoint_id : Z) : db (list R) :=
  results ← mapM (λ id, db_select_one_single_checkpointed_object_value_and_ids_t create table id max_checkpoint_id)
              obj_ids;
  mret (flatten results).

Definition db_insert_one_single_checkpointed_object (table : InMemoryTableIdentifier)
    (obj_id checkpoint_id : Z) (value : V) : db unit :=
  db ← get_or_create_table (to_string table);
  let key := key_single_id_checkpointed obj_id checkpoint_id in
  val_bytes ← lift (ser_to_bytes_vec value);
  insert_entry db key val_bytes.

Definition db_insert_many_single_checkpointed_object_rows (table : InMemoryTableIdentifier)
    (rows : list (QDatabaseSingleIdTableRow V)) : db unit :=
  for_each (λ row, db_insert_one_single_checkpointed_object table
                     (single_obj_id row) (single_checkpoint_id row) (single_value row)) rows.

Definition db_insert_many_single_checkpointed_objects_at_checkpoint (table : InMemoryTableIdentifier)
    (checkpoint_id : Z) (rows : list (QDatabaseKeyIdValueTableRow V)) : db unit :=
  for_each (λ row, db_insert_one_single_checkpointed_object table (kiv_obj_id row) checkpoint_id (kiv_value row)) rows.

Definition db_insert_many_single_checkpointed_object_rows_t {R} (get_row_obj_id get_row_checkpoint_id : R → Z)
    (get_row_value_ref : R → V) (table : InMemoryTableIdentifier) (rows : list R) : db unit :=
  for_each (λ row, db_insert_one_single_checkpointed_object table
                     (get_row_obj_id row) (get_row_checkpoint_id row) (get_row_value_ref row)) rows.

Definition db_insert_many_single_checkpointed_objects_at_checkpoint_t {R} (get_row_obj_id : R → Z)
    (get_row_value_ref : R → V) (table : InMemoryTableIdentifier) (checkpoint_id : Z) (rows : list R) : db unit :=
  for_each (λ row, db_insert_one_single_checkpointed_object table
                     (get_row_obj_id row) checkpoint_id (get_row_value_ref row)) rows.

(** *** Versions by two ids *)

Definition db_select_one_double_checkpointed_object_value (table : InMemoryTableIdentifier)
    (obj_id secondary_id max_checkpoint_id : Z) : db (option V) :=
  db ← get_or_create_table (to_string table);
  let start_key := key_double_id_checkpointed obj_id secondary_id 0 in
  let end_key := key_double_id_checkpointed obj_id secondary_id max_checkpoint_id in
  entry ← read_table db (λ m, last (range start_key (Included end_key) m));
  match entry with
  | Some (_, bytes) => value ← lift (ser_from_slice bytes); mret (Some value)
  | None => mret None
  end.

Definition db_select_one_double_checkpointed_object_value_and_ids (table : InMemoryTableIdentifier)
    (obj_id secondary_id max_checkpoint_id : Z) : db (option (QDatabaseDoubleIdTableRow V)) :=
  db ← get_or_create_table (to_string table);
  let start_key := key_double_id_checkpointed obj_id secondary_id 0 in
  let end_key := key_double_id_checkpointed obj_id secondary_id max_checkpoint_id in
  entry ← read_table db (λ m, last (range start_key (Included end_key) m));
  match entry with
  | Some (key_bytes, bytes) =>
      checkpoint_id ← lift (read_be_u64 key_bytes 16);
      value ← lift (ser_from_slice bytes);
      mret (Some (mkDoubleRow obj_id secondary_id checkpoint_id value))
  | None => mret None
  end.

Definition db_select_one_double_checkpointed_object_value_and_ids_t {R} (create : Z → Z → Z → V → R)
    (table : InMemoryTableIdentifier) (obj_id secondary_id max_checkpoint_id : Z) : db (option R) :=
  row ← db_select_one_double_checkpointed_object_value_and_ids table obj_id secondary_id max_checkpoint_id;
  mret ((λ r, create (double_obj_id r) (double_secondary_id r) (double_checkpoint_id r) (double_value r)) <$> row).

Definition db_select_all_double_checkpointed_object (table : InMemoryTableIdentifier)
    : db (list (QDatabaseDoubleIdTableRow V)) :=
  db ← get_or_create_table (to_string table);
  entries ← read_table db iter;
  mapM (λ '(key_bytes, bytes),
    lift (let* obj_id := read_be_u64 key_bytes 0 in
          let* secondary_id := read_be_u64 key_bytes 8 in
          let* checkpoint_id := read_be_u64 key_bytes 16 in
          let* value := ser_from_slice bytes in
          Ok (mkDoubleRow obj_id secondary_id checkpoint_id value))) entries.

Definition db_select_many_double_checkpointed_object_values (table : InMemoryTableIdentifier)
    (obj_ids : list (Z * Z)) (max_checkpoint_id : Z) : db (list (option V)) :=
  mapM (λ '(obj_id, secondary_id),
    db_select_one_double_checkpointed_object_value table obj_id secondary_id max_checkpoint_id) obj_ids.

Definition db_select_many_double_checkpointed_object_keys_and_values {R} (create : Z → Z → Z → V → R)
    (table : InMemoryTableIdentifier) (obj_ids : list (Z * Z)) (max_checkpoint_id : Z) : db (list R) :=
  results ← mapM (λ '(obj_id, secondary_id),
    db_select_one_double_checkpointed_object_value_and_ids_t create table obj_id secondary_id max_checkpoint_id) obj_ids;
  mret (flatten results).

Definition db_insert_one_double_checkpointed_object (table : InMemoryTableIdentifier)
    (obj_id secondary_id checkpoint_id : Z) (value : V) : db unit :=
  db ← get_or_create_table (to_string table);
  let key := key_double_id_checkpointed obj_id secondary_id checkpoint_id in
  val_bytes ← lift (ser_to_bytes_vec value);
  insert_entry db key val_bytes.

Definition db_insert_many_double_checkpointed_object_rows (table : InMemoryTableIdentifier)
    (rows : list (QDatabaseDoubleIdTableRow V)) : db unit :=
  for_each (λ row, db_insert_one_double_checkpointed_object table (double_obj_id row) (double_secondary_id row)
                     (double_checkpoint_id row) (double_value row)) rows.

Definition db_insert_many_double_checkpointed_objects_at_checkpoint (table : InMemoryTableIdentifier)
    (checkpoint_id : Z) (rows : list (Z * Z * V)) : db unit :=
  for_each (λ '(obj_id, secondary_id, value),
    db_insert_one_double_checkpointed_object table obj_id secondary_id checkpoint_id value) rows.

Definition db_insert_many_double_checkpointed_object_rows_t {R}
    (get_row_obj_id get_row_secondary_id get_row_checkpoint_id : R → Z)
    (get_row_value_ref : R → V) (table : InMemoryTableIdentifier) (rows : list R) : db unit :=
  for_each (λ row, db_insert_one_double_checkpointed_object table (get_row_obj_id row) (get_row_secondary_id row)
                     (get_row_checkpoint_id row) (get_row_value_ref row)) rows.

Definition db_insert_many_double_checkpointed_objects_at_checkpoint_t {R}
    (get_row_obj_id get_row_secondary_id : R → Z) (get_row_value_ref : R → V)
    (table : InMemoryTableIdentifier) (checkpoint_id : Z) (rows : list R) : db unit :=
  for_each (λ row, db_insert_one_double_checkpointed_object table (get_row_obj_id row) (get_row_secondary_id row)
                     checkpoint_id (get_row_value_ref row)) rows.
End objects.

(** *** Rows in one byte string *)

(** [rows.chunks_exact(size)]: a zero size panics, as the remainder does before. *)
Definition chunks (size : Z) (rows : list Z) : list (list Z) :=
  chunks_exact (Z.to_nat (Z.of_nat (length rows) / size)) (Z.to_nat size) rows.

Definition db_insert_many_single_checkpointed_objects_at_checkpoint_ffs_clip_id_at_start
    (table : InMemoryTableIdentifier) (object_size_without_id checkpoint_id : Z) (rows : list Z) : db unit :=
  let object_size := wrap 64 (object_size_without_id + 8) in
  r ← lift (rem (Z.of_nat (length rows)) object_size);
  _ ← lift (ensure (r =? 0) "Invalid data length for ffs insert");
  db ← get_or_create_table (to_string table);
  for_each (λ chunk,
    id_bytes ← lift (subslice chunk 0 8);
    let obj_id := from_le_bytes id_bytes in
    value ← lift (subslice chunk 8 (length chunk));
    let key := key_single_id_checkpointed obj_id checkpoint_id in
    insert_entry db key value) (chunks object_size rows).

Definition db_insert_many_single_checkpointed_objects_at_checkpoint_ffs_with_id_at_index
    (table : InMemoryTableIdentifier) (object_size object_id_location checkpoint_id : Z) (rows : list Z) : db unit :=
  r ← lift (rem (Z.of_nat (length rows)) object_size);
  _ ← lift (ensure (r =? 0) "Invalid data length for ffs insert");
  db ← get_or_create_table (to_string table);
  for_each (λ chunk,
    id_bytes ← lift (subslice chunk (Z.to_nat object_id_location) (Z.to_nat (wrap 64 (object_id_location + 8))));
    let obj_id := from_le_bytes id_bytes in
    let key := key_single_id_checkpointed obj_id checkpoint_id in
    insert_entry db key chunk) (chunks object_size rows).

(** ** Mappings in both directions *)
Section mapping.
Context {K1 K2 : Type} `{CanonicalSingle K1, CanonicalSingle K2}.

Definition db_select_one_by_k1 (table : InMemoryTableIdentifier) (k1 : K1) : db (option K2) :=
  db ← get_or_create_table (to_string table +:+ "_k1");
  key ← lift (ser_to_bytes_vec k1);
  entry ← read_table db (lookup key);
  lift (transpose ser_from_slice entry).

Definition db_select_one_by_k2 (table : InMemoryTableIdentifier) (k2 : K2) : db (option K1) :=
  db ← get_or_create_table (to_string table +:+ "_k2");
  key ← lift (ser_to_bytes_vec k2);
  entry ← read_table db (lookup key);
  lift (transpose ser_from_slice entry).

Definition db_select_many_by_k1 (table : InMemoryTableIdentifier) (k1s : list K1) : db (list (option K2)) :=
  mapM (db_select_one_by_k1 table) k1s.

Definition db_select_many_by_k2 (table : InMemoryTableIdentifier) (k2s : list K2) : db (list (option K1)) :=
  mapM (db_select_one_by_k2 table) k2s.

Definition db_select_many_pairs_by_k1 (table : InMemoryTableIdentifier) (k1s : list K1) : db (list (K1 * K2)) :=
  results ← mapM (λ k1, opt_k2 ← db_select_one_by_k1 table k1; mret (pair k1 <$> opt_k2)) k1s;
  mret (flatten results).

Definition db_select_many_pairs_by_k2 (table : InMemoryTableIdentifier) (k2s : list K2) : db (list (K1 * K2)) :=
  results ← mapM (λ k2, opt_k1 ← db_select_one_by_k2 table k2; mret ((λ k1, (k1, k2)) <$> opt_k1)) k2s;
  mret (flatten results).

Definition db_select_all_pairs_from_k1 (table : InMemoryTableIdentifier) (start_k1 : option K1) (max_count : nat)
    : db (list (K1 * K2)) :=
  db ← get_or_create_table (to_string table +:+ "_k1");
  entries ← match start_k1 with
            | Some k1 => start_key ← lift (ser_to_bytes_vec k1); read_table db (range start_key Unbounded)
            | None => read_table db iter
            end;
  mapM (λ '(key, bytes),
    lift (let* k1 := ser_from_slice key in let* k2 := ser_from_slice bytes in Ok (k1, k2))) (take max_count entries).

Definition db_insert_pair_ref (table : InMemoryTableIdentifier) (k1 : K1) (k2 : K2) : db unit :=
  db1 ← get_or_create_table (to_string table +:+ "_k1");
  db2 ← get_or_create_table (to_string table +:+ "_k2");
  b1 ← lift (ser_to_bytes_vec k1);
  b2 ← lift (ser_to_bytes_vec k2);
  _ ← insert_entry db1 b1 b2;
  b2 ← lift (ser_to_bytes_vec k2);
  b1 ← lift (ser_to_bytes_vec k1);
  insert_entry db2 b2 b1.

Definition db_insert_pair (table : InMemoryTableIdentifier) (k1 : K1) (k2 : K2) : db unit :=
  db_insert_pair_ref table k1 k2.

Definition db_insert_pairs (table : InMemoryTableIdentifier) (keys : list (K1 * K2)) : db unit :=
  for_each (λ '(k1, k2), db_insert_pair_ref table k1 k2) keys.
End mapping.

Definition db_select_one_u128_value_by_u64 (table : InMemoryTableIdentifier) (key : Z) : db (option Z) :=
  db ← get_or_create_table (to_string table +:+ "_u64_to_u128");
  entry ← read_table db (lookup (be_u64 key));
  lift (transpose (λ v, let* b := unwrap_array 16 v in Ok (from_be_bytes b)) entry).

Definition db_select_one_u64_key_by_u128 (table : InMemoryTableIdentifier) (value : Z) : db (option Z) :=
  db ← get_or_create_table (to_string table +:+ "_u128_to_u64");
  entry ← read_table db (lookup (be_u128 value));
  lift (transpose (λ v, let* b := unwrap_array 8 v in Ok (from_be_bytes b)) entry).

Definition db_select_many_u128_values_by_u64s (table : InMemoryTableIdentifier) (keys : list Z) : db (list (option Z)) :=
  mapM (db_select_one_u128_value_by_u64 table) keys.

Definition db_select_many_u64_keys_by_u128s (table : InMemoryTableIdentifier) (values : list Z) : db (list (option Z)) :=
  mapM (db_select_one_u64_key_by_u128 table) values.

Definition db_insert_u64_u128_mapping_pair (table : InMemoryTableIdentifier) (k1 k2 : Z) : db unit :=
  db1 ← get_or_create_table (to_string table +:+ "_u64_to_u128");
  db2 ← get_or_create_table (to_string table +:+ "_u128_to_u64");
  _ ← insert_entry db1 (be_u64 k1) (be_u128 k2);
  insert_entry db2 (be_u128 k2) (be_u64 k1).

Definition db_insert_u64_u128_mapping_pairs (table : InMemoryTableIdentifier) (keys : list (Z * Z)) : db unit :=
  for_each (λ '(k1, k2), db_insert_u64_u128_mapping_pair table k1 k2) keys.

(** ** Integers and counters *)
Definition db_select_u64_value (table : InMemoryTableIdentifier) (obj_id : Z) : db (option Z) :=
  db ← get_or_create_u64_table (to_string table);
  read_u64 db (lookup obj_id).

Definition db_select_u64_values (table : InMemoryTableIdentifier) (obj_ids : list Z) : db (list (option Z)) :=
  mapM (db_select_u64_value table) obj_ids.

Definition db_set_u64_value (table : InMemoryTableIdentifier) (obj_id value : Z) : db unit :=
  db ← get_or_create_u64_table (to_string table);
  update_u64 db (λ m, (tt, <[obj_id := value]> m)).

Definition db_set_many_u64_values (table : InMemoryTableIdentifier) (rows : list (Z * Z)) : db unit :=
  for_each (λ '(key, value), db_set_u64_value table key value) rows.

Definition db_select_u64_counter_value (table : InMemoryTableIdentifier) (obj_id : Z) : db (option Z) :=
  db ← get_or_create_u64_table (to_string table);
  read_u64 db (lookup obj_id).

Definition db_select_u64_counter_values (table : InMemoryTableIdentifier) (obj_ids : list Z) : db (list (option Z)) :=
  mapM (db_select_u64_counter_value table) obj_ids.

(** [fetch_add] and [fetch_sub] wrap and return the previous value; the amount is an [i64],
    whose [wrapping_abs() as u64] is its absolute value. *)
Definition db_inc_u64_counter (table : InMemoryTableIdentifier) (obj_id amount : Z) : db Z :=
  db ← get_or_create_u64_table (to_string table);
  update_u64 db (λ m,
    let old := default 0 (m !! obj_id) in
    let abs_amount := Z.abs amount in
    if amount <? 0 then
      (Z.max 0 (old - abs_amount), <[obj_id := wrap 64 (old - abs_amount)]> m)
    else
      (Z.min (2 ^ 64 - 1) (old + abs_amount), <[obj_id := wrap 64 (old + abs_amount)]> m)).

(** ** Merkle nodes

    Hashes are stored as the bytes of [QPDSerializable]; missing nodes are the roots of
    empty trees. The subtraction of levels wraps at eight bits. *)
Record CheckpointedMerkleHash (Hash : Type) : Type := mkCheckpointed {
  node_checkpoint_id : Z;
  node_value : Hash;
}.
Arguments mkCheckpointed {Hash} _ _.

Record QMerkleStoreDoubleIdKeyWithHeight : Type := mkDoubleKey {
  dk_tree_id : Z;
  dk_tree_sub_id : Z;
  dk_index : Z;
  dk_level : Z;
  dk_tree_height : Z;
}.

Inductive MerkleTreeDumpStrategy : Type := AppendOnlyTreeStrategy | DumpAllStrategy.


(** [assert_ne!(table.tree_height, 0)] *)
Definition assert_tree (table : InMemoryTableIdentifier) : db unit := lift (assert_ (negb (tree_height table =? 0))).

Section merkle.
Context {Hash : Type} `{MerkleHasher Hash, !ZeroableHash Hash, !MerkleZeroHasher Hash}.
Context `{QPDSerializable Hash, Q256BitHash Hash}.

Definition zero_node (tree_height level : Z) : Hash := get_zero_hash (Z.to_nat (wrap 8 (tree_height - level))).

Definition db_select_zero_id_merkle_node_max_checkpoint (table : InMemoryTableIdentifier)
    (max_checkpoint_id : Z) (key : SimpleMerkleNodeKey) : db Hash :=
  db ← get_or_create_table (to_string table);
  let start_key := key_merkle_zero_id key 0 in
  let end_key := key_merkle_zero_id key max_checkpoint_id in
  _ ← assert_tree table;
  entry ← read_table db (λ m, last (range start_key (Included end_key) m));
  match entry with
  | Some (_, bytes) => lift (from_bytes bytes)
  | None => mret (zero_node (tree_height table) (level key))
  end.

Definition db_select_zero_id_merkle_node_and_checkpoint_max_checkpoint (table : InMemoryTableIdentifier)
    (max_checkpoint_id : Z) (key : SimpleMerkleNodeKey) : db (CheckpointedMerkleHash Hash) :=
  db ← get_or_create_table (to_string table);
  let start_key := key_merkle_zero_id key 0 in
  let end_key := key_merkle_zero_id key max_checkpoint_id in
  _ ← assert_tree table;
  entry ← read_table db (λ m, last (range start_key (Included end_key) m));
  match entry with
  | Some (key_bytes, bytes) =>
      checkpoint_id ← lift (read_be_u64 key_bytes 9);
      value ← lift (from_bytes bytes);
      mret (mkCheckpointed checkpoint_id value)
  | None => mret (mkCheckpointed 0 (zero_node (tree_height table) (level key)))
  end.

Definition db_select_many_zero_id_merkle_nodes_max_checkpoint (table : InMemoryTableIdentifier)
    (max_checkpoint_id : Z) (keys : list SimpleMerkleNodeKey) : db (list Hash) :=
  mapM (db_select_zero_id_merkle_node_max_checkpoint table max_checkpoint_id) keys.

Definition db_insert_zero_id_merkle_node (table : InMemoryTableIdentifier) (checkpoint_id : Z)
    (key : SimpleMerkleNodeKey) (value : Hash) : db unit :=
  db ← get_or_create_table (to_string table);
  let db_key := key_merkle_zero_id key checkpoint_id in
  bytes ← lift (to_bytes value);
  insert_entry db db_key bytes.

Definition db_set_zero_id_merkle_nodes_batch (table : InMemoryTableIdentifier) (checkpoint_id : Z)
    (nodes : list (SimpleMerkleNodeKey * Hash)) : db unit :=
  for_each (λ '(key, value), db_insert_zero_id_merkle_node table checkpoint_id key value) nodes.

Definition db_set_zero_id_merkle_nodes_batch_checkpoint_is_index (table : InMemoryTableIdentifier)
    (nodes : list (SimpleMerkleNodeKey * Hash)) : db unit :=
  for_each (λ '(key, value), db_insert_zero_id_merkle_node table (index key) key value) nodes.

(** [value.to_bytes().unwrap()] *)
Definition unwrap_bytes (value : Hash) : outcome (list Z) :=
  match to_bytes value with Ok b => Ok b | _ => Panic end.

(** The level and the integers are read as signed and cast back: the bits are kept. *)
Definition db_set_zero_id_merkle_nodes_from_fast_serialized (table : InMemoryTableIdentifier)
    (checkpoint_id : Z) (nodes : list Z) : db unit :=
  db ← get_or_create_table (to_string table);
  for_each (λ chunk,
    let key := mkKey (from_le_bytes (take 1 chunk)) (from_le_bytes (take 8 (drop 1 chunk))) in
    let value := from_owned_32bytes (take 32 (drop 9 chunk)) in
    let db_key := key_merkle_zero_id key checkpoint_id in
    bytes ← lift (unwrap_bytes value);
    insert_entry db db_key bytes) (chunks QMS_FAST_SERIALIZER_ZERO_ID_NODE_SIZE nodes).

Definition db_select_single_id_merkle_node_max_checkpoint (table : InMemoryTableIdentifier)
    (checkpoint_id tree_id tree_height : Z) (key : SimpleMerkleNodeKey) : db Hash :=
  db ← get_or_create_table (to_string table);
  let start_key := key_merkle_single_id tree_id key 0 in
  let end_key := key_merkle_single_id tree_id key checkpoint_id in
  entry ← read_table db (λ m, last (range start_key (Included end_key) m));
  match entry with
  | Some (_, bytes) => lift (from_bytes bytes)
  | None => mret (zero_node tree_height (level key))
  end.

Definition db_select_many_single_id_merkle_nodes_max_checkpoint (table : InMemoryTableIdentifier)
    (max_checkpoint_id tree_id tree_height : Z) (keys : list SimpleMerkleNodeKey) : db (list Hash) :=
  mapM (db_select_single_id_merkle_node_max_checkpoint table max_checkpoint_id tree_id tree_height) keys.

Definition db_insert_single_id_merkle_node (table : InMemoryTableIdentifier) (checkpoint_id tree_id : Z)
    (key : SimpleMerkleNodeKey) (value : Hash) : db unit :=
  db ← get_or_create_table (to_string table);
  let db_key := key_merkle_single_id tree_id key checkpoint_id in
  bytes ← lift (to_bytes value);
  insert_entry db db_key bytes.

Definition db_set_single_id_merkle_nodes_batch (table : InMemoryTableIdentifier) (checkpoint_id tree_id : Z)
    (nodes : list (SimpleMerkleNodeKey * Hash)) : db unit :=
  for_each (λ '(key, value), db_insert_single_id_merkle_node table checkpoint_id tree_id key value) nodes.

Definition db_set_single_id_merkle_nodes_from_fast_serialized (table : InMemoryTableIdentifier)
    (checkpoint_id : Z) (nodes : list Z) : db unit :=
  db ← get_or_create_table (to_string table);
  for_each (λ chunk,
    let tree_id := from_le_bytes (take 8 chunk) in
    let key := mkKey (from_le_bytes (take 1 (drop 8 chunk))) (from_le_bytes (take 8 (drop 9 chunk))) in
    let value := from_owned_32bytes (take 32 (drop 17 chunk)) in
    let db_key := key_merkle_single_id tree_id key checkpoint_id in
    bytes ← lift (unwrap_bytes value);
    insert_entry db db_key bytes) (chunks QMS_FAST_SERIALIZER_SINGLE_ID_NODE_SIZE nodes).

Definition db_select_double_id_merkle_node_max_checkpoint (table : InMemoryTableIdentifier)
    (checkpoint_id tree_id tree_sub_id tree_height : Z) (key : SimpleMerkleNodeKey) : db Hash :=
  db ← get_or_create_table (to_string table);
  let start_key := key_merkle_double_id tree_id tree_sub_id key 0 in
  let end_key := key_merkle_double_id tree_id tree_sub_id key checkpoint_id in
  entry ← read_table db (λ m, last (range start_key (Included end_key) m));
  match entry with
  | Some (_, bytes) => lift (from_bytes bytes)
  | None => mret (zero_node tree_height (level key))
  end.

Definition db_select_many_double_id_merkle_nodes_max_checkpoint (table : InMemoryTableIdentifier)
    (max_checkpoint_id tree_id tree_sub_id tree_height : Z) (keys : list SimpleMerkleNodeKey) : db (list Hash) :=
  mapM (db_select_double_id_merkle_node_max_checkpoint table max_checkpoint_id tree_id tree_sub_id tree_height) keys.

Definition db_select_many_double_id_merkle_nodes_with_height_max_checkpoint (table : InMemoryTableIdentifier)
    (max_checkpoint_id : Z) (keys : list QMerkleStoreDoubleIdKeyWithHeight) : db (list Hash) :=
  mapM (λ key, db_select_double_id_merkle_node_max_checkpoint table max_checkpoint_id (dk_tree_id key)
                 (dk_tree_sub_id key) (Z.max (dk_tree_height key) (dk_level key)) (mkKey (dk_level key) (dk_index key))) keys.

Definition db_insert_double_id_merkle_node (table : InMemoryTableIdentifier) (checkpoint_id tree_id tree_sub_id : Z)
    (key : SimpleMerkleNodeKey) (value : Hash) : db unit :=
  db ← get_or_create_table (to_string table);
  let db_key := key_merkle_double_id tree_id tree_sub_id key checkpoint_id in
  bytes ← lift (to_bytes value);
  insert_entry db db_key bytes.

Definition db_set_double_id_merkle_nodes_batch (table : InMemoryTableIdentifier) (checkpoint_id tree_id tree_sub_id : Z)
    (nodes : list (SimpleMerkleNodeKey * Hash)) : db unit :=
  for_each (λ '(key, value), db_insert_double_id_merkle_node table checkpoint_id tree_id tree_sub_id key value) nodes.

Definition db_set_double_id_merkle_nodes_from_fast_serialized (table : InMemoryTableIdentifier)
    (checkpoint_id : Z) (nodes : list Z) : db unit :=
  db ← get_or_create_table (to_string table);
  for_each (λ chunk,
    let tree_id := from_le_bytes (take 8 chunk) in
    let tree_sub_id := from_le_bytes (take 8 (drop 8 chunk)) in
    let key := mkKey (from_le_bytes (take 1 (drop 16 chunk))) (from_le_bytes (take 8 (drop 17 chunk))) in
    let value := from_owned_32bytes (take 32 (drop 25 chunk)) in
    let db_key := key_merkle_double_id tree_id tree_sub_id key checkpoint_id in
    bytes ← lift (unwrap_bytes value);
    insert_entry db db_key bytes) (chunks QMS_FAST_SERIALIZER_DOUBLE_ID_NODE_SIZE nodes).

(** *** Dumps

    The shift [1 << tree_height] and the subtraction wrap. The result is the map the
    insertions build, in the order of the keys. *)
Definition last_leaf_index (tree_height : Z) : Z := wrap 64 (u64_shl 1 tree_height - 1).

Definition db_dump_all_zero_id_merkle_node_leaves_chunked (table : InMemoryTableIdentifier)
    (max_checkpoint_id : Z) : db (gmap Z Hash) :=
  db ← get_or_create_table (to_string table);
  let tree_height := tree_height table in
  let start_key := key_merkle_zero_id (mkKey tree_height 0) 0 in
  let end_key := key_merkle_zero_id (mkKey tree_height (last_leaf_index tree_height)) max_checkpoint_id in
  entries ← read_table db (range start_key (Included end_key));
  pairs ← mapM (λ '(key_bytes, bytes),
    lift (let* index := read_be_u64 key_bytes 1 in
          let* value := from_bytes bytes in Ok (index, value))) entries;
  mret (foldl (λ m '(index, value), <[index := value]> m) ∅ pairs).

Definition db_dump_all_zero_id_merkle_node_leaves_vec (table : InMemoryTableIdentifier)
    (max_checkpoint_id : Z) (strategy : MerkleTreeDumpStrategy) : db (list (SimpleMerkleNodeKey * Hash)) :=
  db ← get_or_create_table (to_string table);
  let tree_height := tree_height table in
  let start_key := key_merkle_zero_id (mkKey tree_height 0) 0 in
  let end_key := key_merkle_zero_id (mkKey tree_height (last_leaf_index tree_height)) max_checkpoint_id in
  entries ← read_table db (range start_key (Included end_key));
  mapM (λ '(key_bytes, bytes),
    lift (let* index := read_be_u64 key_bytes 1 in
          let* value := from_bytes bytes in Ok (mkKey tree_height index, value))) entries.

Fixpoint dump_range_loop (max_checkpoint_id start_index end_index : Z) (entries : list (list Z * list Z))
    (result_map : gmap Z Hash) : outcome (gmap Z Hash) :=
  match entries with
  | [] => Ok result_map
  | (key_bytes, bytes) :: entries =>
      let continue := dump_range_loop max_checkpoint_id start_index end_index entries in
      let* index := read_be_u64 key_bytes 1 in
      if (index <? start_index) || (end_index <? index) then continue result_map else
      let* checkpoint_id := read_be_u64 key_bytes 9 in
      if max_checkpoint_id <? checkpoint_id then continue result_map else
      let* value := from_bytes bytes in
      continue (<[index := value]> result_map)
  end.

Definition db_dump_zero_id_merkle_node_leaves_range (table : InMemoryTableIdentifier)
    (max_checkpoint_id start_index end_index : Z) : db (gmap Z Hash) :=
  if end_index <? start_index then mret ∅ else
  db ← get_or_create_table (to_string table);
  let tree_height := tree_height table in
  let start_key := key_merkle_zero_id (mkKey tree_height start_index) 0 in
  let end_key := key_merkle_zero_id (mkKey tree_height end_index) (2 ^ 64 - 1) in
  entries ← read_table db (range start_key (Included end_key));
  lift (dump_range_loop max_checkpoint_id start_index end_index entries ∅).
End merkle.

(** ** Tag trees *)
Section tags.
Context {Hash : Type} `{MerkleHasher Hash} `{Q256BitHash Hash}.

(** [Hash::default()] *)
Variable default_hash : Hash.

#[local] Instance storage_node_single : CanonicalSingle (TagTreeStorageNode Hash) := fixed_single.

Definition db_get_tag_tree_node_value (table : InMemoryTableIdentifier) (unique_pending_id : Z)
    (key : SimpleMerkleNodeKey) : db (option Hash) :=
  db ← get_or_create_table (to_string table);
  let db_key := key_tag_tree unique_pending_id key in
  entry ← read_table db (lookup db_key);
  lift (transpose (λ b, let* node := ser_from_slice b in Ok (tag_value node)) entry).

Definition db_get_tag_tree_node_values (table : InMemoryTableIdentifier) (unique_pending_id : Z)
    (keys : list SimpleMerkleNodeKey) : db (list (option Hash)) :=
  mapM (db_get_tag_tree_node_value table unique_pending_id) keys.

Definition db_get_tag_tree_node_tag (table : InMemoryTableIdentifier) (unique_pending_id : Z)
    (key : SimpleMerkleNodeKey) : db (option Hash) :=
  db ← get_or_create_table (to_string table);
  let db_key := key_tag_tree unique_pending_id key in
  entry ← read_table db (lookup db_key);
  lift (transpose (λ b, let* node := ser_from_slice b in Ok (tag node)) entry).

Definition db_get_tag_tree_node_tags (table : InMemoryTableIdentifier) (unique_pending_id : Z)
    (keys : list SimpleMerkleNodeKey) : db (list (option Hash)) :=
  mapM (db_get_tag_tree_node_tag table unique_pending_id) keys.

Definition db_get_tag_tree_root (table : InMemoryTableIdentifier) (unique_pending_id : Z) : db (option Hash) :=
  db_get_tag_tree_node_value table unique_pending_id MerkleKey.new_root.

(** [while current_key.level > 0]: as many steps as levels. *)
Fixpoint tag_siblings_loop (fuel : nat) (table : InMemoryTableIdentifier) (unique_pending_id : Z)
    (current_key : SimpleMerkleNodeKey) : db (list (TagTreeProofNode Hash)) :=
  match fuel with
  | O => mret []
  | S fuel =>
      let sibling_key := sibling current_key in
      let parent_key := parent current_key in
      sibling_value ← db_get_tag_tree_node_value table unique_pending_id sibling_key;
      parent_tag_value ← db_get_tag_tree_node_tag table unique_pending_id parent_key;
      siblings ← tag_siblings_loop fuel table unique_pending_id parent_key;
      mret (mkTagProofNode (default default_hash sibling_value) (default default_hash parent_tag_value) :: siblings)
  end.

Definition db_get_tag_tree_merkle_proof (table : InMemoryTableIdentifier) (unique_pending_id : Z)
    (key : SimpleMerkleNodeKey) : db (TagTreeMerkleProof Hash) :=
  root ← db_get_tag_tree_root table unique_pending_id;
  left ← db_get_tag_tree_node_value table unique_pending_id (left_child key);
  right ← db_get_tag_tree_node_value table unique_pending_id (right_child key);
  tag ← db_get_tag_tree_node_tag table unique_pending_id key;
  let leaf := mkTagPreimage (default default_hash left) (default default_hash right) (default default_hash tag) in
  siblings ← tag_siblings_loop (Z.to_nat (level key)) table unique_pending_id key;
  mret (mkTagProof (default default_hash root) leaf (index key) siblings).

Definition db_set_tag_tree_tag_value (table : InMemoryTableIdentifier) (unique_pending_id : Z)
    (key : SimpleMerkleNodeKey) (tag value : Hash) : db unit :=
  db ← get_or_create_table (to_string table);
  let db_key := key_tag_tree unique_pending_id key in
  let node := mkStorageNode value tag in
  val_bytes ← lift (ser_to_bytes_vec node);
  insert_entry db db_key val_bytes.

Definition db_set_tag_tree_tag (table : InMemoryTableIdentifier) (unique_pending_id : Z)
    (key : SimpleMerkleNodeKey) (tag : Hash) : db unit :=
  left ← db_get_tag_tree_node_value table unique_pending_id (left_child key);
  right ← db_get_tag_tree_node_value table unique_pending_id (right_child key);
  let value := hash_tag_tree_node (default default_hash left) (default default_hash right) tag in
  db_set_tag_tree_tag_value table unique_pending_id key tag value.

Definition db_set_tag_tree_tag_known_height (table : InMemoryTableIdentifier) (unique_pending_id tag_tree_height : Z)
    (key : SimpleMerkleNodeKey) (tag : Hash) : db unit :=
  db_set_tag_tree_tag table unique_pending_id key tag.

Definition db_set_tag_tree_value_only (table : InMemoryTableIdentifier) (unique_pending_id : Z)
    (key : SimpleMerkleNodeKey) (value : Hash) : db unit :=
  db ← get_or_create_table (to_string table);
  let db_key := key_tag_tree unique_pending_id key in
  existing_tag ← db_get_tag_tree_node_tag table unique_pending_id key;
  let node := mkStorageNode value (default default_hash existing_tag) in
  val_bytes ← lift (ser_to_bytes_vec node);
  insert_entry db db_key val_bytes.
End tags.

(** ** Ids by hash *)
Section hash_ids.
Context {Hash : Type} `{QPDSerializable Hash}.

Definition db_insert_one_hash_to_u64 (table : InMemoryTableIdentifier) (hash_id : Hash) (value : Z) : db unit :=
  db ← get_or_create_table (to_string table);
  key ← lift (key_hash_to_u64 hash_id value);
  insert_entry db key [].

(** All keys are made before the first is inserted. *)
Definition db_insert_many_hash_to_u64s (table : InMemoryTableIdentifier) (rows : list (Hash * Z)) : db unit :=
  db ← get_or_create_table (to_string table);
  results ← mapM (λ '(hash_id, value), lift (key_hash_to_u64 hash_id value)) rows;
  for_each (λ key, insert_entry db key []) results.

Definition db_set_hash_256_to_u64_pairs_from_fast_serialized_data (table : InMemoryTableIdentifier) (data : list Z)
    : db unit :=
  let ENTRY_SIZE := 40 in
  _ ← lift (ensure (Z.of_nat (length data) mod ENTRY_SIZE =? 0)
              "Invalid data length for fast serialized hash-to-u64 pairs");
  db ← get_or_create_table (to_string table);
  for_each (λ chunk,
    hash_bytes ← lift (subslice chunk 0 32);
    value_le_bytes ← lift (subslice chunk 32 40);
    let value_u64 := from_le_bytes value_le_bytes in
    let key := hash_bytes ++ be_u64 value_u64 in
    insert_entry db key []) (chunks ENTRY_SIZE data).

(** The loop over [iterator.take(count)], which stops at the first key of another hash. *)
Fixpoint ids_loop (hash_bytes : list Z) (entries : list (list Z * list Z)) : outcome (list Z) :=
  match entries with
  | [] => Ok []
  | (key, _) :: entries =>
      if (length key <? length hash_bytes)%nat || negb (bool_decide (take (length hash_bytes) key = hash_bytes))
      then Ok []
      else
        let* u64_value := extract_u64_from_hash_to_u64_key key in
        let* results := ids_loop hash_bytes entries in
        Ok (u64_value :: results)
  end.

Definition db_select_value_u64_ids_for_hash (table : InMemoryTableIdentifier) (hash : Hash) (count : nat)
    (start_u64_value : Z) : db (list Z) :=
  db ← get_or_create_table (to_string table);
  start_key ← lift (key_hash_to_u64 hash start_u64_value);
  hash_bytes ← lift (to_bytes hash);
  entries ← read_table db (range start_key Unbounded);
  lift (ids_loop hash_bytes (take count entries)).
End hash_ids.

(** ** Tables of indexed trees *)
Definition imt_leaf_table (table : InMemoryTableIdentifier) : string := to_string table +:+ "_imt_leaf_leaf".
Definition imt_key_table (table : InMemoryTableIdentifier) : string := to_string table +:+ "_imt_key_index_idx".
Definition imt_next_table (table : InMemoryTableIdentifier) : string := to_string table +:+ "_imt_next_append_index".

Definition imt_leaf_key (tree_id tree_sub_id leaf_index checkpoint_id : Z) : list Z :=
  be_i64 tree_id ++ be_i64 tree_sub_id ++ be_i64 leaf_index ++ be_i64 checkpoint_id.

(** [leaf_hash], [leaf_key], [leaf_value], [next_key], [next_index] *)
Definition imt_leaf_fields : Type := list Z * list Z * list Z * list Z * Z.

Definition parse_imt_leaf (value : list Z) : option imt_leaf_fields :=
  if (136 <=? length value)%nat then
    Some (take 32 value, take 32 (drop 32 value), take 32 (drop 64 value), take 32 (drop 96 value),
          i64_from_be_bytes (take 8 (drop 128 value)))
  else None.

Definition db_select_imt_leaf (table : InMemoryTableIdentifier)
    (tree_id tree_sub_id leaf_index max_checkpoint_id : Z) : db (option imt_leaf_fields) :=
  db ← get_or_create_table (imt_leaf_table table);
  entry ← read_table db (lookup (imt_leaf_key tree_id tree_sub_id leaf_index max_checkpoint_id));
  match entry ≫= parse_imt_leaf with
  | Some leaf => mret (Some leaf)
  | None =>
      entry ← read_table db (lookup (imt_leaf_key tree_id tree_sub_id leaf_index 0));
      mret (entry ≫= parse_imt_leaf)
  end.

Definition db_select_imt_leaf_birth (table : InMemoryTableIdentifier)
    (tree_id tree_sub_id leaf_index max_checkpoint_id : Z) : db (option (Z * list Z)) :=
  db ← get_or_create_table (imt_leaf_table table);
  let partition := be_i64 tree_id ++ be_i64 tree_sub_id ++ be_i64 leaf_index in
  if max_checkpoint_id <? 0 then mret None else
  let start := partition ++ be_i64 0 in
  entry ← read_table db (λ m, head (range start Unbounded m));
  match entry with
  | None => mret None
  | Some (key, value) =>
      if negb (length key =? 32)%nat || negb (bool_decide (take 24 key = partition)) then mret None else
      let checkpoint_id := i64_from_be_bytes (take 8 (drop 24 key)) in
      if (checkpoint_id <? 0) || (max_checkpoint_id <? checkpoint_id) then mret None else
      _ ← lift (ensure (negb (length value <? 64)%nat) "IMT leaf value is shorter than 64 bytes");
      mret (Some (checkpoint_id, take 32 (drop 32 value)))
  end.

(** [Vec::resize(n, 0)] *)
Definition resize (n : nat) (l : list Z) : list Z := take n l ++ replicate (n - length l) 0.

Definition db_insert_imt_leaf (table : InMemoryTableIdentifier)
    (tree_id tree_sub_id leaf_index checkpoint_id : Z) (leaf_hash leaf_key leaf_value next_key : list Z)
    (next_index : Z) : db unit :=
  db ← get_or_create_table (imt_leaf_table table);
  let key := imt_leaf_key tree_id tree_sub_id leaf_index checkpoint_id in
  let value := resize 32 (take 32 leaf_hash) in
  let value := resize 64 (value ++ take 32 leaf_key) in
  let value := resize 96 (value ++ take 32 leaf_value) in
  let value := resize 128 (value ++ take 32 next_key) in
  let value := value ++ be_i64 next_index in
  insert_entry db key value.

Definition imt_key_prefix (tree_id tree_sub_id key_bucket : Z) : list Z :=
  be_i64 tree_id ++ be_i64 tree_sub_id ++ be_i16 key_bucket.

Definition db_select_imt_key_index_exact (table : InMemoryTableIdentifier) (tree_id tree_sub_id key_bucket : Z)
    (encoded_key : list Z) : db (option (Z * Z)) :=
  db ← get_or_create_table (imt_key_table table);
  entry ← read_table db (lookup (imt_key_prefix tree_id tree_sub_id key_bucket ++ encoded_key));
  mret (value ← entry;
        if (16 <=? length value)%nat
        then Some (i64_from_be_bytes (take 8 value), i64_from_be_bytes (take 8 (drop 8 value)))
        else None).

(** [encoded_key], [leaf_key], [leaf_index], [birth_checkpoint] *)
Definition imt_key_row : Type := list Z * list Z * Z * Z.

(** The scan from the prefix on: every key that is long enough is taken apart at the
    length of the prefix, and kept when [keep] holds of the rest. *)
Fixpoint imt_key_scan (keep : list Z → bool) (prefix_len : nat) (entries : list (list Z * list Z))
    : outcome (list imt_key_row) :=
  match entries with
  | [] => Ok []
  | (key, value) :: entries =>
      if (length key <? prefix_len)%nat then Ok [] else
      let encoded_key_bytes := drop prefix_len key in
      if keep encoded_key_bytes && (32 <=? length value)%nat then
        let* leaf_key_bytes := subslice value 16 48 in
        let* results := imt_key_scan keep prefix_len entries in
        Ok ((encoded_key_bytes, leaf_key_bytes, i64_from_be_bytes (take 8 value),
             i64_from_be_bytes (take 8 (drop 8 value))) :: results)
      else imt_key_scan keep prefix_len entries
  end.

(** [results.sort_by(|a, b| b.0.cmp(&a.0)); results.truncate(5)]; both sorts are stable. *)
Definition row_ge (a b : imt_key_row) : Prop := bytes_le b.1.1.1 a.1.1.1.

#[global] Instance row_ge_dec : RelDecision row_ge.
Proof. intros a b. unfold row_ge. apply _. Defined.

Definition top_rows (results : list imt_key_row) : list imt_key_row := take 5 (merge_sort row_ge results).

Definition db_select_imt_key_index_predecessor (table : InMemoryTableIdentifier) (tree_id tree_sub_id key_bucket : Z)
    (target_encoded_key : list Z) : db (list imt_key_row) :=
  db ← get_or_create_table (imt_key_table table);
  let prefix := imt_key_prefix tree_id tree_sub_id key_bucket in
  entries ← read_table db (range prefix Unbounded);
  results ← lift (imt_key_scan (λ k, bool_decide (bytes_lt k target_encoded_key)) (length prefix) entries);
  mret (top_rows results).

Definition db_select_imt_key_index_predecessor_full_bucket (table : InMemoryTableIdentifier)
    (tree_id tree_sub_id key_bucket : Z) : db (list imt_key_row) :=
  db ← get_or_create_table (imt_key_table table);
  let prefix := imt_key_prefix tree_id tree_sub_id key_bucket in
  entries ← read_table db (range prefix Unbounded);
  results ← lift (imt_key_scan (λ _, true) (length prefix) entries);
  mret (top_rows results).

Definition db_insert_imt_key_index (table : InMemoryTableIdentifier) (tree_id tree_sub_id key_bucket : Z)
    (encoded_key leaf_key : list Z) (birth_checkpoint leaf_index : Z) : db unit :=
  db ← get_or_create_table (imt_key_table table);
  let key := imt_key_prefix tree_id tree_sub_id key_bucket ++ encoded_key in
  let value := be_i64 leaf_index ++ be_i64 birth_checkpoint ++ leaf_key in
  insert_entry db key value.

Definition imt_next_key (tree_id tree_sub_id : Z) : list Z := be_i64 tree_id ++ be_i64 tree_sub_id.

Definition db_select_imt_next_append_index (table : InMemoryTableIdentifier) (tree_id tree_sub_id : Z) : db (option Z) :=
  db ← get_or_create_table (imt_next_table table);
  entry ← read_table db (lookup (imt_next_key tree_id tree_sub_id));
  lift (transpose (λ v, let* b := unwrap_array 8 v in Ok (i64_from_be_bytes b)) entry).

Definition db_insert_imt_next_append_index (table : InMemoryTableIdentifier)
    (tree_id tree_sub_id next_append_index : Z) : db unit :=
  db ← get_or_create_table (imt_next_table table);
  insert_entry db (imt_next_key tree_id tree_sub_id) (be_i64 next_append_index).

(** ** Deletion *)
Definition db_delete_many_object_ids (table : InMemoryTableIdentifier) (ids : list Z) : db unit :=
  o ← u64_tables_get (to_string table);
  _ ← match o with
      | Some db => for_each (λ id, update_u64 db (λ m, (tt, delete id m))) ids
      | None => mret tt
      end;
  when_table (to_string table) (λ db, for_each (λ id, remove_entry db (be_u64 id)) ids).

Definition db_delete_many_object_checkpoint (table : InMemoryTableIdentifier) (keys : list (Z * Z)) : db unit :=
  when_table (to_string table) (λ db,
    for_each (λ '(obj_id, checkpoint_id), remove_entry db (key_single_id_checkpointed obj_id checkpoint_id)) keys).

Definition db_delete_many_merkle_nodes (table : InMemoryTableIdentifier) (keys : list (Z * Z * Z)) : db unit :=
  when_table (to_string table) (λ db,
    for_each (λ '(level, node_index, checkpoint_id),
      remove_entry db (key_merkle_zero_id (mkKey level node_index) checkpoint_id)) keys).

Definition db_delete_many_tree_merkle_nodes (table : InMemoryTableIdentifier) (keys : list (Z * Z * Z * Z)) : db unit :=
  when_table (to_string table) (λ db,
    for_each (λ '(tree_id, level, node_index, checkpoint_id),
      remove_entry db (key_merkle_single_id tree_id (mkKey level node_index) checkpoint_id)) keys).

Definition db_delete_many_tree_subtree_merkle_nodes (table : InMemoryTableIdentifier)
    (keys : list (Z * Z * Z * Z * Z)) : db unit :=
  when_table (to_string table) (λ db,
    for_each (λ '(tree_id, tree_sub_id, level, node_index, checkpoint_id),
      remove_entry db (key_merkle_double_id tree_id tree_sub_id (mkKey level node_index) checkpoint_id)) keys).

Definition db_delete_many_imt_leaves (table : InMemoryTableIdentifier) (keys : list (Z * Z * Z * Z)) : db unit :=
  when_table (imt_leaf_table table) (λ db,
    for_each (λ '(tree_id, tree_sub_id, leaf_index, checkpoint_id),
      remove_entry db (imt_leaf_key tree_id tree_sub_id leaf_index checkpoint_id)) keys).

Definition db_delete_many_imt_keys (table : InMemoryTableIdentifier) (keys : list (Z * Z * Z * list Z)) : db unit :=
  when_table (imt_key_table table) (λ db,
    for_each (λ '(tree_id, tree_sub_id, key_bucket, encoded_key),
      remove_entry db (imt_key_prefix tree_id tree_sub_id key_bucket ++ encoded_key)) keys).

Definition db_delete_many_imt_next_append_indexes (table : InMemoryTableIdentifier) (keys : list (Z * Z)) : db unit :=
  when_table (imt_next_table table) (λ db,
    for_each (λ '(tree_id, tree_sub_id), remove_entry db (imt_next_key tree_id tree_sub_id)) keys).

Definition db_delete_many_hash_user_pairs `{QPDSerializable Hash} (table : InMemoryTableIdentifier)
    (keys : list (Hash * Z)) : db unit :=
  when_table (to_string table) (λ db,
    for_each (λ '(hash, user_id), key ← lift (key_hash_to_u64 hash user_id); remove_entry db key) keys).

Definition db_delete_many_blob_pairs (table : InMemoryTableIdentifier) (keys : list (list Z * list Z)) : db unit :=
  _ ← when_table (to_string table +:+ "_k1") (λ db, for_each (λ '(k1, _), remove_entry db k1) keys);
  when_table (to_string table +:+ "_k2") (λ db, for_each (λ '(_, k2), remove_entry db k2) keys).

Definition db_delete_many_u64_u128_pairs (table : InMemoryTableIdentifier) (keys : list (Z * Z)) : db unit :=
  _ ← when_table (to_string table +:+ "_u64_to_u128") (λ db,
        for_each (λ '(pending_id, _), remove_entry db (be_u64 pending_id)) keys);
  when_table (to_string table +:+ "_u128_to_u64") (λ db,
    for_each (λ '(_, proc_id), remove_entry db (be_u128 proc_id)) keys).

(** The entries of one pending id: from its bytes to the bytes of the next id, if there is one. *)
Definition pending_end (pending_id : Z) : upper :=
  match checked_add 64 pending_id 1 with Some id => Excluded (be_u64 id) | None => Unbounded end.

Definition db_delete_many_pending_id_partitions (table : InMemoryTableIdentifier) (pending_ids : list Z) : db unit :=
  when_table (to_string table) (λ db,
    for_each (λ pending_id,
      entries ← read_table db (range (be_u64 pending_id) (pending_end pending_id));
      for_each (λ '(key, _), remove_entry db key) entries) pending_ids).

(** ** Verification of deletions *)

(** [self.tables.get(name)] and [contains_key]: no table, no key. *)
Definition contains_key (name : string) (key : list Z) : db bool :=
  λ s, (Ok (bool_decide (is_Some (contents s name !! key))), s).
Definition u64_contains_key (name : string) (key : Z) : db bool :=
  λ s, (Ok (bool_decide (is_Some (u64_contents s name !! key))), s).

(** [keys.iter().filter(..)] *)
Fixpoint filter_db {A} (f : A → db bool) (l : list A) : db (list A) :=
  match l with
  | [] => mret []
  | a :: l => b ← f a; existing ← filter_db f l; mret (if b : bool then a :: existing else existing)
  end.

Definition db_get_existing_object_ids (table : InMemoryTableIdentifier) (ids : list Z) : db (list Z) :=
  filter_db (λ id, b1 ← u64_contains_key (to_string table) id;
                   b2 ← contains_key (to_string table) (be_u64 id); mret (b1 || b2)) ids.

Definition db_get_existing_object_checkpoints (table : InMemoryTableIdentifier) (keys : list (Z * Z)) : db (list (Z * Z)) :=
  filter_db (λ '(obj_id, checkpoint_id),
    contains_key (to_string table) (key_single_id_checkpointed obj_id checkpoint_id)) keys.

Definition db_get_existing_merkle_nodes (table : InMemoryTableIdentifier) (keys : list (Z * Z * Z))
    : db (list (Z * Z * Z)) :=
  filter_db (λ '(level, node_index, checkpoint_id),
    contains_key (to_string table) (key_merkle_zero_id (mkKey level node_index) checkpoint_id)) keys.

Definition db_get_existing_tree_merkle_nodes (table : InMemoryTableIdentifier) (keys : list (Z * Z * Z * Z))
    : db (list (Z * Z * Z * Z)) :=
  filter_db (λ '(tree_id, level, node_index, checkpoint_id),
    contains_key (to_string table) (key_merkle_single_id tree_id (mkKey level node_index) checkpoint_id)) keys.

Definition db_get_existing_tree_subtree_merkle_nodes (table : InMemoryTableIdentifier) (keys : list (Z * Z * Z * Z * Z))
    : db (list (Z * Z * Z * Z * Z)) :=
  filter_db (λ '(tree_id, tree_sub_id, level, node_index, checkpoint_id),
    contains_key (to_string table) (key_merkle_double_id tree_id tree_sub_id (mkKey level node_index) checkpoint_id)) keys.

Definition db_get_existing_imt_leaves (table : InMemoryTableIdentifier) (keys : list (Z * Z * Z * Z))
    : db (list (Z * Z * Z * Z)) :=
  filter_db (λ '(tree_id, tree_sub_id, leaf_index, checkpoint_id),
    contains_key (imt_leaf_table table) (imt_leaf_key tree_id tree_sub_id leaf_index checkpoint_id)) keys.

Definition db_get_existing_imt_keys (table : InMemoryTableIdentifier) (keys : list (Z * Z * Z * list Z))
    : db (list (Z * Z * Z * list Z)) :=
  filter_db (λ '(tree_id, tree_sub_id, key_bucket, encoded_key),
    contains_key (imt_key_table table) (imt_key_prefix tree_id tree_sub_id key_bucket ++ encoded_key)) keys.

Definition db_get_existing_imt_next_append_indexes (table : InMemoryTableIdentifier) (keys : list (Z * Z))
    : db (list (Z * Z)) :=
  filter_db (λ '(tree_id, tree_sub_id),
    contains_key (imt_next_table table) (imt_next_key tree_id tree_sub_id)) keys.

Definition db_get_existing_hash_user_pairs `{QPDSerializable Hash} (table : InMemoryTableIdentifier)
    (keys : list (Hash * Z)) : db (list (Hash * Z)) :=
  filter_db (λ '(hash, user_id),
    key ← lift (key_hash_to_u64 hash user_id); contains_key (to_string table) key) keys.

Record CoreDatabaseBidirectionalPairPresence (K1 K2 : Type) : Type := mkPresence {
  presence_key : K1 * K2;
  forward_present : bool;
  reverse_present : bool;
}.
Arguments mkPresence {K1 K2} _ _ _.
Arguments forward_present {K1 K2} _.
Arguments reverse_present {K1 K2} _.

(** [filter_map] with [(forward_present || reverse_present).then(..)] *)
Fixpoint presence_db {K1 K2} (forward : K1 → db bool) (reverse : K2 → db bool) (keys : list (K1 * K2))
    : db (list (CoreDatabaseBidirectionalPairPresence K1 K2)) :=
  match keys with
  | [] => mret []
  | (k1, k2) :: keys =>
      f ← forward k1;
      r ← reverse k2;
      rest ← presence_db forward reverse keys;
      mret (if f || r then mkPresence (k1, k2) f r :: rest else rest)
  end.

Definition db_get_blob_pair_presence (table : InMemoryTableIdentifier) (keys : list (list Z * list Z))
    : db (list (CoreDatabaseBidirectionalPairPresence (list Z) (list Z))) :=
  presence_db (contains_key (to_string table +:+ "_k1")) (contains_key (to_string table +:+ "_k2")) keys.

Definition db_get_u64_u128_pair_presence (table : InMemoryTableIdentifier) (keys : list (Z * Z))
    : db (list (CoreDatabaseBidirectionalPairPresence Z Z)) :=
  presence_db (λ k1, contains_key (to_string table +:+ "_u64_to_u128") (be_u64 k1))
    (λ k2, contains_key (to_string table +:+ "_u128_to_u64") (be_u128 k2)) keys.

Definition db_get_existing_pending_id_partitions (table : InMemoryTableIdentifier) (pending_ids : list Z) : db (list Z) :=
  filter_db (λ pending_id, read_table (to_string table) (λ m,
    bool_decide (is_Some (head (range (be_u64 pending_id) (pending_end pending_id) m))))) pending_ids.
