(* ===== verification/StoreVersions.v ===== *)
(** * What the in-memory core database guarantees

    Theorems on [CoreStore]: two stores are equivalent when all tables have the same
    contents, which is all that operations can tell apart; checkpointed tables refine a
    history of versions; deleting the keys a batch wrote undoes it; queries by hash are
    right. The last part shows where reads of indexed trees and dumps
    of leaves depart from their contracts. *)
From stdpp Require Import prelude list gmap strings sorting.
From Stdlib Require Import ZArith Lia.
From S2P Require Import Prelude MerkleKey MerkleHash Wire Serialize ByteOrder Codecs RealmFinalize TagTree CoreStore.

(** ** Stores up to empty tables *)
#[global] Instance store_equiv : Equiv InMemoryCoreStore := λ s t,
  (∀ name, contents s name = contents t name) ∧ (∀ name, u64_contents s name = u64_contents t name).

#[global] Instance store_equivalence : Equivalence (≡@{InMemoryCoreStore}).
Proof.
  split.
  - by intros s.
  - intros s t [E1 E2]. split; intros n; by rewrite ?E1, ?E2.
  - intros s t u [E1 E2] [E3 E4]. split; intros n; by rewrite ?E1, ?E2.
Qed.

#[global] Instance contents_proper : Proper ((≡) ==> (=) ==> (=)) contents.
Proof. intros s t [H _] n ? <-. apply H. Qed.

#[global] Instance u64_contents_proper : Proper ((≡) ==> (=) ==> (=)) u64_contents.
Proof. intros s t [_ H] n ? <-. apply H. Qed.

Lemma contents_with_table name f s name' :
  contents (with_table name f s) name' = if decide (name = name') then f (contents s name) else contents s name'.
Proof.
  unfold contents, with_table. cbn. case_decide; subst; [by rewrite lookup_insert_eq|by rewrite lookup_insert_ne].
Qed.

Lemma contents_with_table_eq name f s : contents (with_table name f s) name = f (contents s name).
Proof. rewrite contents_with_table. by case_decide. Qed.

Lemma contents_with_table_ne name f s name' : name ≠ name' → contents (with_table name f s) name' = contents s name'.
Proof. intros. rewrite contents_with_table. by case_decide. Qed.

Lemma u64_contents_with_table name f s name' : u64_contents (with_table name f s) name' = u64_contents s name'.
Proof. done. Qed.

Lemma with_table_id name s : with_table name id s ≡ s.
Proof. split; intros name'; [|done]. rewrite contents_with_table. case_decide; by subst. Qed.

#[global] Instance with_table_proper name f : Proper ((≡) ==> (≡)) (with_table name f).
Proof.
  intros s t [Hst Hu]. split; intros name'; [|apply Hu].
  by rewrite !contents_with_table, !Hst.
Qed.

Lemma contents_new name : contents new name = ∅.
Proof. done. Qed.

(** ** Values and keys that can be read back *)
Class SingleLaws (V : Type) `{CanonicalSingle V} (wf : V → Prop) : Prop :=
  single_roundtrip : ∀ v, wf v → ∃ b, ser_to_bytes_vec v = Ok b ∧ bytes b ∧ ser_from_slice b = Ok v.

(** Canonical codecs are such, through the fallback. *)
Lemma fallback_laws `{PsyIOReadWrite V} wf : Canonical V wf → SingleLaws (H := fallback_single) V wf.
Proof.
  intros HC v Hv. destruct (canonical_codes v Hv) as (b & E & _ & Hb & Hr). exists b.
  split; [done|]. split; [done|]. cbn. unfold psy_ser_from_slice, from_cursor.
  specialize (Hr []). rewrite app_nil_r in Hr. by rewrite Hr.
Qed.

(** So are objects of a fixed size, through their template. *)
Lemma fixed_laws `{FastFixedSerializable V} wf : FixedLaws V wf → SingleLaws (H := fixed_single) V wf.
Proof.
  intros HC v Hv. destruct (ffs_array v Hv) as [Hl Hb]. exists (ffs_to_bytes v).
  split; [done|]. split; [done|]. cbn. unfold ffs_try_from_slice.
  rewrite (proj2 (Z.eqb_eq _ _) Hl). cbn. by rewrite ffs_roundtrip.
Qed.

Class HashLaws (Hash : Type) `{QPDSerializable Hash, Q256BitHash Hash} : Prop := {
  hash_to_bytes : ∀ h, to_bytes h = Ok (into_owned_32bytes h);
  hash_from_bytes : ∀ h, from_bytes (into_owned_32bytes h) = Ok h;
  hash_bytes_array : ∀ h, array_ok 32 (into_owned_32bytes h);
}.

(** Goldilocks hashes, for evaluation. *)
#[global] Instance gold_qpd : QPDSerializable gold4 := {
  to_bytes h := Ok (into_owned_32bytes h);
  from_bytes b := if (length b =? 32)%nat then Ok (from_owned_32bytes b) else Err "Invalid hash length";
}.

#[global] Instance gold_hash_laws : HashLaws gold4.
Proof.
  split; [done| |apply hash_array]. intros h. cbn [from_bytes gold_qpd].
  destruct (hash_array h) as [E _]. rewrite hash_of_bytes. destruct (Nat.eqb_spec (length (into_owned_32bytes h)) 32); [done|lia].
Qed.

(** ** Keys *)
Lemma u64_uint x : uint_ok 64 x ↔ is_uint (8 * Z.of_nat 8) x.
Proof. done. Qed.

Lemma be_u64_inj x y : is_uint 64 x → is_uint 64 y → be_u64 x = be_u64 y → x = y.
Proof. apply (to_be_bytes_inj 8). Qed.

Lemma be_app_inj n x y a b :
  is_uint (8 * Z.of_nat n) x → is_uint (8 * Z.of_nat n) y →
  to_be_bytes n x ++ a = to_be_bytes n y ++ b → x = y ∧ a = b.
Proof.
  intros Hx Hy E. apply app_inj_1 in E as [E ->]; [|by rewrite !length_to_be_bytes].
  split; [by eapply to_be_bytes_inj|done].
Qed.

Lemma key_single_inj i c i' c' :
  is_uint 64 i → is_uint 64 i' → is_uint 64 c → is_uint 64 c' →
  key_single_id_checkpointed i c = key_single_id_checkpointed i' c' → i = i' ∧ c = c'.
Proof. intros Hi Hi' Hc Hc' [-> E]%(be_app_inj 8); try done. split; [done|]. by apply be_u64_inj. Qed.

Lemma length_key_single i c : length (key_single_id_checkpointed i c) = (8 + 8)%nat.
Proof. unfold key_single_id_checkpointed. by rewrite length_app, !length_to_be_bytes. Qed.

Lemma bytes_key_single i c : bytes (key_single_id_checkpointed i c).
Proof. apply Forall_app; split; apply bytes_to_be_bytes. Qed.

(** ** Loops of insertions and removals *)
Definition insert_all (kvs : list (list Z * list Z)) (m : skipmap) : skipmap :=
  foldl (λ m '(k, v), <[k := v]> m) m kvs.

Definition remove_all (ks : list (list Z)) (m : skipmap) : skipmap := foldl (λ m k, delete k m) m ks.

Lemma with_table_compose name f g s : with_table name g (with_table name f s) = with_table name (λ m, g (f m)) s.
Proof.
  unfold with_table. cbn. f_equal. by rewrite lookup_insert_eq, insert_insert_eq.
Qed.

Lemma with_table_ext name f g s : (∀ m, f m = g m) → with_table name f s = with_table name g s.
Proof. intros E. unfold with_table. by rewrite E. Qed.

(** A computation returns a value and leaves a store equivalent to the given one. *)
Definition runs {A} (m : db A) (s : InMemoryCoreStore) (a : A) (s' : InMemoryCoreStore) : Prop :=
  ∃ s1, m s = (Ok a, s1) ∧ s1 ≡ s'.

Lemma runs_ret {A} (a : A) s s' : s ≡ s' → runs (mret a) s a s'.
Proof. intros E. by exists s. Qed.

Lemma runs_lift {A} (o : outcome A) a s s' : o = Ok a → s ≡ s' → runs (lift o) s a s'.
Proof. intros -> E. by exists s. Qed.

Lemma runs_bind {A B} (m : db A) (k : A → db B) s a b s1 s' :
  runs m s a s1 → (∀ s2, s2 ≡ s1 → runs (k a) s2 b s') → runs (m ≫= k) s b s'.
Proof.
  intros (s2 & E & Hs) Hk. destruct (Hk s2 Hs) as (s3 & E' & ?). exists s3. split; [|done].
  by rewrite (bind_run _ _ _ _ _ E).
Qed.

Lemma runs_equiv {A} (m : db A) s a s1 s2 : runs m s a s1 → s1 ≡ s2 → runs m s a s2.
Proof. intros (s3 & E & ?) ?. exists s3. split; [done|]. by etrans. Qed.

Lemma runs_table name s s' : s ≡ s' → runs (get_or_create_table name) s name s'.
Proof. intros E. exists (with_table name id s). split; [done|]. by rewrite with_table_id. Qed.

Lemma runs_read {A} (name : string) (f : skipmap → A) s s' : s ≡ s' → runs (read_table name f) s (f (contents s' name)) s'.
Proof. intros E. exists s. split; [|done]. unfold read_table. by rewrite (proj1 E). Qed.

Lemma runs_insert name k v s s' : s ≡ s' → runs (insert_entry name k v) s tt (with_table name <[k := v]> s').
Proof. intros E. eexists. split; [done|]. by rewrite E. Qed.

Lemma runs_remove name k s s' : s ≡ s' → runs (remove_entry name k) s tt (with_table name (delete k) s').
Proof. intros E. eexists. split; [done|]. by rewrite E. Qed.

Lemma runs_mapM {A B} (f : A → db B) (g : A → B) l : ∀ s s',
  s ≡ s' → (∀ a s1, a ∈ l → s1 ≡ s' → runs (f a) s1 (g a) s') → runs (mapM f l) s (g <$> l) s'.
Proof.
  induction l as [|a l IH]; intros s s' E Hf; [by apply runs_ret|].
  cbn [mapM fmap list_fmap]. eapply runs_bind; [apply Hf; [left|done]|].
  intros s1 E1. eapply runs_bind; [apply (IH _ s'); [done|]|].
  - intros. apply Hf; [by right|done].
  - intros s2 E2. by apply runs_ret.
Qed.

Lemma foldl_proper {A} (F : A → InMemoryCoreStore → InMemoryCoreStore) l :
  (∀ a, Proper ((≡) ==> (≡)) (F a)) → Proper ((≡) ==> (≡)) (λ s, foldl (λ s a, F a s) s l).
Proof. intros HF. induction l as [|a l IH]; intros s t E; cbn; [done|]. by apply IH, HF. Qed.

Lemma runs_for_each {A} (f : A → db unit) (F : A → InMemoryCoreStore → InMemoryCoreStore) l : ∀ s s',
  (∀ a, Proper ((≡) ==> (≡)) (F a)) → s ≡ s' →
  (∀ a s s', a ∈ l → s ≡ s' → runs (f a) s tt (F a s')) → runs (for_each f l) s tt (foldl (λ s a, F a s) s' l).
Proof.
  induction l as [|a l IH]; intros s s' HF E Hf; [by apply runs_ret|].
  cbn [for_each foldl]. eapply runs_bind; [apply Hf; [left|done]|]. intros s1 E1.
  apply IH; [done|done|]. intros. apply Hf; [by right|done].
Qed.

Lemma fold_with_table {A} (name : string) (g : A → skipmap → skipmap) l : ∀ s,
  foldl (λ s a, with_table name (g a) s) s l ≡ with_table name (λ m, foldl (λ m a, g a m) m l) s.
Proof.
  induction l as [|a l IH]; intros s; cbn [foldl].
  - symmetry. apply (with_table_id name).
  - rewrite IH, with_table_compose. done.
Qed.

(** Every iteration updates one table. *)
Lemma runs_update_each {A} (name : string) (f : A → db unit) (g : A → skipmap → skipmap) l s s' :
  s ≡ s' → (∀ a s s', a ∈ l → s ≡ s' → runs (f a) s tt (with_table name (g a) s')) →
  runs (for_each f l) s tt (with_table name (λ m, foldl (λ m a, g a m) m l) s').
Proof.
  intros E Hf. eapply runs_equiv, fold_with_table.
  apply (runs_for_each f (λ a, with_table name (g a))); [apply _|done|done].
Qed.

Lemma with_table_absent name f s : tables s !! name = None → f ∅ = ∅ → with_table name f s ≡ s.
Proof.
  intros Hn Hf. split; intros name'; [|done]. rewrite contents_with_table. case_decide; [|done]. subst.
  unfold contents. by rewrite Hn.
Qed.

Lemma runs_when_table name (k : string → db unit) f s s' :
  s ≡ s' → f ∅ = ∅ → (∀ s, s ≡ s' → runs (k name) s tt (with_table name f s')) →
  runs (when_table name k) s tt (with_table name f s').
Proof.
  intros E Hf Hk. destruct (tables s !! name) as [m|] eqn:Em.
  - destruct (Hk s E) as (s1 & E1 & ?). exists s1. split; [|done].
    unfold when_table, tables_get, mbind, stateful_bind. by rewrite Em.
  - exists s. split; [unfold when_table, tables_get, mbind, stateful_bind; by rewrite Em|].
    rewrite <- E. symmetry. by apply with_table_absent.
Qed.

Lemma remove_all_empty ks : remove_all ks ∅ = ∅.
Proof. induction ks as [|k ks IH]; [done|]. cbn. by rewrite delete_empty. Qed.

Lemma foldl_fmap {A B C} (f : C → B → C) (g : A → B) l : ∀ c, foldl f c (g <$> l) = foldl (λ c a, f c (g a)) c l.
Proof. induction l as [|a l IH]; intros c; [done|]. cbn. apply IH. Qed.

Lemma runs_remove_each {A} name (f : string → A → db unit) (k : A → list Z) l s s' :
  s ≡ s' → (∀ a s s', a ∈ l → s ≡ s' → runs (f name a) s tt (with_table name (delete (k a)) s')) →
  runs (when_table name (λ db, for_each (f db) l)) s tt (with_table name (remove_all (k <$> l)) s').
Proof.
  intros E Hf. apply runs_when_table; [done|apply remove_all_empty|]. intros s1 E1.
  eapply runs_equiv; [by apply (runs_update_each name (f name) (λ a, delete (k a)))|].
  erewrite with_table_ext; [done|]. intros m. unfold remove_all. by rewrite foldl_fmap.
Qed.

Lemma runs_insert_each {A} name (f : A → db unit) (k v : A → list Z) l s s' :
  s ≡ s' → (∀ a s s', a ∈ l → s ≡ s' → runs (f a) s tt (with_table name <[k a := v a]> s')) →
  runs (for_each f l) s tt (with_table name (insert_all ((λ a, (k a, v a)) <$> l)) s').
Proof.
  intros E Hf. eapply runs_equiv; [by apply (runs_update_each name f (λ a, <[k a := v a]>))|].
  erewrite with_table_ext; [done|]. intros m. unfold insert_all. by rewrite foldl_fmap.
Qed.

(** ** Checkpointed objects refine a history of versions *)
Lemma chunks_rows (size : Z) rows :
  0 < size → Forall (λ r, Z.of_nat (length r) = size) rows →
  chunks size (concat rows) = rows ∧ Z.of_nat (length (concat rows)) mod size = 0.
Proof.
  intros Hs Hr.
  assert (Hn : Forall (λ r, length r = Z.to_nat size) rows).
  { eapply Forall_impl; [exact Hr|]. intros r E. cbn in E. lia. }
  assert (Hl : Z.of_nat (length (concat rows)) = Z.of_nat (length rows) * size).
  { clear Hn. induction Hr as [|r rows E Hr IH]; [done|]. cbn [concat length]. rewrite length_app. lia. }
  unfold chunks. rewrite Hl, Z.div_mul, Nat2Z.id by lia. split; [by apply chunks_concat|]. apply Z.mod_mul. lia.
Qed.

Lemma for_each_fmap {S A B} (f : B → stateful S unit) (g : A → B) l :
  for_each f (g <$> l) = for_each (λ a, f (g a)) l.
Proof. induction l as [|a l IH]; [done|]. cbn. by rewrite IH. Qed.

Lemma subslice_ok l a b : (a ≤ b ≤ length l)%nat → subslice l a b = Ok (take (b - a) (drop a l)).
Proof. intros. unfold subslice. by rewrite decide_True. Qed.

Section single.
Context {V : Type} `{CanonicalSingle V} {wf : V → Prop} `{!SingleLaws V wf}.
Context (table : InMemoryTableIdentifier).

(** The bytes of a value that can be written. *)
Definition value_bytes (v : V) : list Z := match ser_to_bytes_vec v with Ok b => b | _ => [] end.

(** The operations that write a table of versions. The rows of the fast formats are
    given as ids and values, and joined as the callers of these formats do. *)
Inductive write : Type :=
  | InsertOne (obj_id checkpoint_id : Z) (value : V)
  | InsertRows (rows : list (QDatabaseSingleIdTableRow V))
  | InsertAtCheckpoint (checkpoint_id : Z) (rows : list (QDatabaseKeyIdValueTableRow V))
  | InsertClipped (size checkpoint_id : Z) (rows : list (QDatabaseKeyIdValueTableRow V))
  | InsertIndexed (size location checkpoint_id : Z) (rows : list (QDatabaseKeyIdValueTableRow V))
  | DeleteVersions (keys : list (Z * Z)).

Definition perform (w : write) : db unit :=
  match w with
  | InsertOne i c v => db_insert_one_single_checkpointed_object table i c v
  | InsertRows rows => db_insert_many_single_checkpointed_object_rows table rows
  | InsertAtCheckpoint c rows => db_insert_many_single_checkpointed_objects_at_checkpoint table c rows
  | InsertClipped size c rows =>
      db_insert_many_single_checkpointed_objects_at_checkpoint_ffs_clip_id_at_start table size c
        (concat ((λ r, to_le_bytes 8 (kiv_obj_id r) ++ value_bytes (kiv_value r)) <$> rows))
  | InsertIndexed size location c rows =>
      db_insert_many_single_checkpointed_objects_at_checkpoint_ffs_with_id_at_index table size location c
        (concat ((λ r, value_bytes (kiv_value r)) <$> rows))
  | DeleteVersions keys => db_delete_many_object_checkpoint table keys
  end.

(** The history: the value each version of each object has. *)
Definition puts (rows : list (QDatabaseSingleIdTableRow V)) (h : gmap (Z * Z) V) : gmap (Z * Z) V :=
  foldl (λ h r, <[(single_obj_id r, single_checkpoint_id r) := single_value r]> h) h rows.

Definition at_checkpoint (c : Z) (r : QDatabaseKeyIdValueTableRow V) : QDatabaseSingleIdTableRow V :=
  mkSingleRow (kiv_obj_id r) c (kiv_value r).

Definition record (w : write) (h : gmap (Z * Z) V) : gmap (Z * Z) V :=
  match w with
  | InsertOne i c v => <[(i, c) := v]> h
  | InsertRows rows => puts rows h
  | InsertAtCheckpoint c rows | InsertClipped _ c rows | InsertIndexed _ _ c rows => puts (at_checkpoint c <$> rows) h
  | DeleteVersions keys => foldl (λ h k, delete k h) h keys
  end.

Definition row_ok (r : QDatabaseSingleIdTableRow V) : Prop :=
  is_uint 64 (single_obj_id r) ∧ is_uint 64 (single_checkpoint_id r) ∧ wf (single_value r).

Definition write_ok (w : write) : Prop :=
  match w with
  | InsertOne i c v => row_ok (mkSingleRow i c v)
  | InsertRows rows => Forall row_ok rows
  | InsertAtCheckpoint c rows => Forall (λ r, row_ok (at_checkpoint c r)) rows
  | InsertClipped size c rows =>
      0 ≤ size < 2 ^ 64 - 8 ∧
      Forall (λ r, row_ok (at_checkpoint c r) ∧ Z.of_nat (length (value_bytes (kiv_value r))) = size) rows
  | InsertIndexed size location c rows =>
      0 ≤ location ∧ location + 8 ≤ size < 2 ^ 64 ∧
      Forall (λ r, row_ok (at_checkpoint c r) ∧ Z.of_nat (length (value_bytes (kiv_value r))) = size ∧
                   take 8 (drop (Z.to_nat location) (value_bytes (kiv_value r))) = to_le_bytes 8 (kiv_obj_id r)) rows
  | DeleteVersions keys => Forall (λ k, is_uint 64 k.1 ∧ is_uint 64 k.2) keys
  end.

(** The table holds the history. *)
Definition holds (m : skipmap) (h : gmap (Z * Z) V) : Prop :=
  shaped 8 m ∧
  ∀ i c, is_uint 64 i → is_uint 64 c →
    match m !! key_single_id_checkpointed i c with
    | Some b => ∃ v, h !! (i, c) = Some v ∧ ser_from_slice b = Ok v
    | None => h !! (i, c) = None
    end.

Lemma value_bytes_ok v : wf v → ser_to_bytes_vec v = Ok (value_bytes v) ∧ ser_from_slice (value_bytes v) = Ok v.
Proof. intros Hv. destruct (single_roundtrip v Hv) as (b & E & _ & E'). unfold value_bytes. by rewrite E. Qed.

Lemma holds_put m h r :
  row_ok r → holds m h →
  holds (<[key_single_id_checkpointed (single_obj_id r) (single_checkpoint_id r) := value_bytes (single_value r)]> m)
        (<[(single_obj_id r, single_checkpoint_id r) := single_value r]> h).
Proof.
  intros (Hi & Hc & Hv) [Hs Hm]. split; [apply shaped_insert; auto using length_key_single, bytes_key_single|].
  intros i c Hi' Hc'. destruct (decide ((i, c) = (single_obj_id r, single_checkpoint_id r))) as [[= -> ->]|Hne].
  - rewrite !lookup_insert_eq. eexists. split; [done|]. by apply value_bytes_ok.
  - rewrite !lookup_insert_ne; [by apply Hm|congruence|].
    intros [? ?]%key_single_inj; try done. congruence.
Qed.

Lemma holds_del m h i c :
  is_uint 64 i → is_uint 64 c → holds m h →
  holds (delete (key_single_id_checkpointed i c) m) (delete (i, c) h).
Proof.
  intros Hi Hc [Hs Hm]. split; [by apply shaped_delete|].
  intros i' c' Hi' Hc'. destruct (decide ((i, c) = (i', c'))) as [[= -> ->]|Hne].
  - by rewrite !lookup_delete_eq.
  - rewrite !lookup_delete_ne; [by apply Hm|congruence|].
    intros [? ?]%key_single_inj; try done. congruence.
Qed.

Definition row_entry (r : QDatabaseSingleIdTableRow V) : list Z * list Z :=
  (key_single_id_checkpointed (single_obj_id r) (single_checkpoint_id r), value_bytes (single_value r)).

Lemma holds_puts rows : ∀ m h,
  Forall row_ok rows → holds m h → holds (insert_all (row_entry <$> rows) m) (puts rows h).
Proof.
  induction rows as [|r rows IH]; intros m h Hr Hm; [done|].
  apply Forall_cons in Hr as [Hr Hrs]. apply IH; [done|]. by apply holds_put.
Qed.

Lemma holds_dels keys : ∀ m h,
  Forall (λ k, is_uint 64 k.1 ∧ is_uint 64 k.2) keys → holds m h →
  holds (remove_all ((λ '(i, c), key_single_id_checkpointed i c) <$> keys) m) (foldl (λ h k, delete k h) h keys).
Proof.
  induction keys as [|[i c] keys IH]; intros m h Hk Hm; [done|].
  apply Forall_cons in Hk as [[Hi Hc] Hks]. apply IH; [done|]. by apply holds_del.
Qed.

Lemma runs_insert_one i c v s s' :
  wf v → s ≡ s' →
  runs (db_insert_one_single_checkpointed_object table i c v) s tt
    (with_table (to_string table) <[key_single_id_checkpointed i c := value_bytes v]> s').
Proof.
  intros Hv E. eapply runs_bind; [by apply runs_table|]. intros s1 E1.
  eapply runs_bind; [apply runs_lift; [by apply value_bytes_ok|done]|]. intros s2 E2. by apply runs_insert.
Qed.

(** A loop that inserts the entries of some rows. *)
Lemma runs_insert_rows {A} (f : A → db unit) (row : A → QDatabaseSingleIdTableRow V) l s :
  Forall (λ a, row_ok (row a)) l →
  (∀ a s s', a ∈ l → s ≡ s' → runs (f a) s tt (with_table (to_string table) <[(row_entry (row a)).1 := (row_entry (row a)).2]> s')) →
  runs (for_each f l) s tt (with_table (to_string table) (insert_all (row_entry <$> (row <$> l))) s).
Proof.
  intros Hl Hf. rewrite <- list_fmap_compose.
  by apply (runs_insert_each (to_string table) f (λ a, (row_entry (row a)).1) (λ a, (row_entry (row a)).2)).
Qed.

(** A fast format: the length is checked, then each chunk becomes an entry. *)
Lemma runs_fast_rows (size : Z) (enc : QDatabaseKeyIdValueTableRow V → list Z) (f : string → list Z → db unit) c rows s :
  0 < size → Forall (λ r, row_ok (at_checkpoint c r) ∧ Z.of_nat (length (enc r)) = size) rows →
  (∀ r s s', r ∈ rows → s ≡ s' →
     runs (f (to_string table) (enc r)) s tt
       (with_table (to_string table) <[(row_entry (at_checkpoint c r)).1 := value_bytes (kiv_value r)]> s')) →
  runs (x ← lift (rem (Z.of_nat (length (concat (enc <$> rows)))) size);
        _ ← lift (ensure (x =? 0) "Invalid data length for ffs insert");
        db ← get_or_create_table (to_string table);
        for_each (f db) (chunks size (concat (enc <$> rows)))) s tt
    (with_table (to_string table) (insert_all (row_entry <$> (at_checkpoint c <$> rows))) s).
Proof.
  intros Hs Hr Hf. destruct (chunks_rows size (enc <$> rows)) as [Hc Hm]; [done| |].
  { apply Forall_fmap. eapply Forall_impl; [exact Hr|]. intros r [_ ?]. done. }
  assert (Hrem : rem (Z.of_nat (length (concat (enc <$> rows)))) size = Ok 0).
  { unfold rem. rewrite (proj2 (Z.eqb_neq _ _)) by lia. by rewrite Hm. }
  rewrite Hc, Hrem. do 2 (eapply runs_bind; [by apply runs_lift|]; intros ? ?).
  eapply runs_bind; [by apply runs_table|]. intros s3 E3. rewrite for_each_fmap.
  eapply runs_equiv; [apply (runs_insert_rows _ (at_checkpoint c))|].
  - eapply Forall_impl; [exact Hr|]. by intros r [? _].
  - intros r t t' Hin E. by apply Hf.
  - apply with_table_proper. rewrite E3. etrans; [done|]. done.
Qed.

Lemma runs_clipped size c rows s :
  write_ok (InsertClipped size c rows) →
  runs (perform (InsertClipped size c rows)) s tt
    (with_table (to_string table) (insert_all (row_entry <$> (at_checkpoint c <$> rows))) s).
Proof.
  intros [Hsize Hw]. cbn [perform].
  unfold db_insert_many_single_checkpointed_objects_at_checkpoint_ffs_clip_id_at_start. rewrite wrap_small by lia.
  refine (runs_fast_rows (size + 8) _ (λ db chunk, _) c rows s _ _ _); [lia| |].
  - eapply Forall_impl; [exact Hw|]. intros r [? ?]. split; [done|]. rewrite length_app, length_to_le_bytes. lia.
  - intros r t t' Hin E. eapply Forall_forall in Hw as [(Hi & _ & _) Hl]; [|exact Hin]. cbn in Hi.
    rewrite !subslice_ok by (rewrite length_app, length_to_le_bytes; lia).
    do 2 (eapply runs_bind; [by apply runs_lift|]; intros ? ?).
    eapply runs_equiv; [by apply runs_insert|].
    rewrite drop_0, take_app_length', from_to_le_bytes by (rewrite ?length_to_le_bytes; done || lia).
    rewrite drop_app_length', take_ge by (rewrite ?length_app, ?length_to_le_bytes; lia).
    apply with_table_proper. by etrans.
Qed.

Lemma runs_indexed size location c rows s :
  write_ok (InsertIndexed size location c rows) →
  runs (perform (InsertIndexed size location c rows)) s tt
    (with_table (to_string table) (insert_all (row_entry <$> (at_checkpoint c <$> rows))) s).
Proof.
  intros (Hloc & Hsize & Hw). cbn [perform].
  unfold db_insert_many_single_checkpointed_objects_at_checkpoint_ffs_with_id_at_index. rewrite wrap_small by lia.
  refine (runs_fast_rows size _ (λ db chunk, _) c rows s _ _ _); [lia| |].
  - eapply Forall_impl; [exact Hw|]. by intros r (? & ? & _).
  - intros r t t' Hin E. eapply Forall_forall in Hw as [(Hi & _ & _) [Hl Hid]]; [|exact Hin]. cbn in Hi.
    rewrite !subslice_ok by lia. replace (Z.to_nat (location + 8) - Z.to_nat location)%nat with 8%nat by lia.
    eapply runs_bind; [by apply runs_lift|]. intros t1 E1.
    eapply runs_equiv; [by apply runs_insert|].
    rewrite Hid, from_to_le_bytes by done. apply with_table_proper. by etrans.
Qed.

Lemma perform_runs w s :
  write_ok w →
  ∃ f, runs (perform w) s tt (with_table (to_string table) f s) ∧ ∀ m h, holds m h → holds (f m) (record w h).
Proof.
  destruct w as [i c v|rows|c rows|size c rows|size location c rows|keys]; intros Hw.
  - exists <[key_single_id_checkpointed i c := value_bytes v]>. split; [apply runs_insert_one; [apply Hw|done]|].
    intros m h. apply (holds_put m h (mkSingleRow i c v) Hw).
  - exists (insert_all (row_entry <$> rows)). split; [|intros; by apply holds_puts].
    rewrite <- (list_fmap_id rows) at 2. apply (runs_insert_rows _ id); [done|].
    intros r t t' Hin E. apply runs_insert_one; [|done]. by apply (proj1 (Forall_forall _ _) Hw).
  - exists (insert_all (row_entry <$> (at_checkpoint c <$> rows))). split; [|intros; apply holds_puts; [by apply Forall_fmap|done]].
    apply (runs_insert_rows _ (at_checkpoint c)); [done|].
    intros r t t' Hin E. apply runs_insert_one; [|done]. by apply (proj1 (Forall_forall _ _) Hw) in Hin as (_ & _ & ?).
  - eexists. split; [by apply runs_clipped|]. destruct Hw as [_ Hw].
    intros m h. apply holds_puts, Forall_fmap. eapply Forall_impl; [exact Hw|]. by intros r [? _].
  - eexists. split; [by apply runs_indexed|]. destruct Hw as (_ & _ & Hw).
    intros m h. apply holds_puts, Forall_fmap. eapply Forall_impl; [exact Hw|]. by intros r (? & _ & _).
  - exists (remove_all ((λ '(i, c), key_single_id_checkpointed i c) <$> keys)). split; [|intros; by apply holds_dels].
    apply (runs_remove_each (to_string table) (λ db '(i, c), remove_entry db (key_single_id_checkpointed i c))); [done|].
    intros [i c] t t' _ E. by apply runs_remove.
Qed.

(** All writes, in order. *)
Definition record_all (ws : list write) : gmap (Z * Z) V := foldl (λ h w, record w h) ∅ ws.

Lemma perform_all ws : ∀ s h,
  Forall write_ok ws → holds (contents s (to_string table)) h →
  ∃ s', runs (for_each perform ws) s tt s' ∧ holds (contents s' (to_string table)) (foldl (λ h w, record w h) h ws).
Proof.
  induction ws as [|w ws IH]; intros s h Hw Hm; [exists s; split; [by apply runs_ret|done]|].
  apply Forall_cons in Hw as [Hw Hws]. destruct (perform_runs w s Hw) as (f & (s1 & E1 & Hs1) & Hf).
  destruct (IH s1 (record w h)) as (s2 & (s3 & E3 & Hs3) & Hm2); [done| |].
  { rewrite Hs1, contents_with_table_eq. by apply Hf. }
  exists s2. split; [|done]. exists s3. split; [|done]. cbn [for_each]. by rewrite (bind_run _ _ _ _ _ E1).
Qed.

Lemma holds_empty : holds ∅ ∅.
Proof. split; [apply shaped_empty|]. intros i c _ _. by rewrite !lookup_empty. Qed.

(** The last entry between version 0 and version [c] of an object. *)
Lemma holds_last m h i c :
  holds m h → is_uint 64 i → is_uint 64 c →
  ∃ r, latest (λ c', h !! (i, c')) c r ∧
    match last (range (key_single_id_checkpointed i 0) (Included (key_single_id_checkpointed i c)) m) with
    | Some (k, b) => ∃ c' v, r = Some (c', v) ∧ is_uint 64 c' ∧ k = key_single_id_checkpointed i c' ∧ ser_from_slice b = Ok v
    | None => r = None
    end.
Proof.
  intros [Hs Hm] Hi Hc. destruct (last_version 8 m (be_u64 i) c) as ([[c' b]|] & Hr & E); [done|apply length_to_be_bytes|done|..].
  - destruct Hr as (Hb & Hc' & Hn). assert (Hu : is_uint 64 c') by (unfold is_uint in *; lia).
    pose proof (Hm i c' Hi Hu) as Hv. unfold key_single_id_checkpointed in *. rewrite Hb in Hv.
    destruct Hv as (v & Hv & Hser). exists (Some (c', v)). split; [|rewrite E; by exists c', v].
    split_and!; try done; try lia. intros c'' Hc''. assert (Hu' : is_uint 64 c'') by (unfold is_uint in *; lia).
    pose proof (Hm i c'' Hi Hu') as Hv'. by rewrite (Hn c'' Hc'') in Hv'.
  - exists None. split; [|by unfold key_single_id_checkpointed; rewrite E].
    intros c' Hc'. assert (Hu : is_uint 64 c') by (unfold is_uint in *; lia).
    pose proof (Hm i c' Hi Hu) as Hv. unfold key_single_id_checkpointed in Hv. by rewrite (Hr c' Hc') in Hv.
Qed.

Lemma read_key_single i c : is_uint 64 c → read_be_u64 (key_single_id_checkpointed i c) 8 = Ok c.
Proof.
  intros Hc. unfold read_be_u64. rewrite subslice_ok by (rewrite length_key_single; lia). cbn [outcome_bind].
  unfold key_single_id_checkpointed. rewrite drop_app_length' by by rewrite length_to_be_bytes.
  rewrite take_ge by (rewrite length_to_be_bytes; lia). by rewrite from_to_be_bytes.
Qed.

(** A read returns the latest version. *)
Lemma select_latest s h i c :
  holds (contents s (to_string table)) h → is_uint 64 i → is_uint 64 c →
  ∃ r, latest (λ c', h !! (i, c')) c r ∧
    runs (db_select_one_single_checkpointed_object_value table i c) s (snd <$> r) s ∧
    runs (db_select_one_single_checkpointed_object_value_and_ids table i c) s
      ((λ '(c', v), mkSingleRow i c' v) <$> r) s.
Proof.
  intros Hm Hi Hc. destruct (holds_last _ h i c Hm Hi Hc) as (r & Hr & Hlast). exists r. split; [done|].
  split; (eapply runs_bind; [by apply runs_table|]; intros s1 E1; eapply runs_bind; [by apply runs_read|];
    intros s2 E2; destruct (last _) as [[k b]|]; [|subst r; by apply runs_ret]);
    destruct Hlast as (c' & v & -> & Hu & -> & Hser).
  - eapply runs_bind; [by apply runs_lift|]. intros s3 E3. by apply runs_ret.
  - eapply runs_bind; [apply runs_lift; [by apply read_key_single|done]|]. intros s3 E3.
    eapply runs_bind; [by apply runs_lift|]. intros s4 E4. by apply runs_ret.
Qed.

(** C15: checkpointed tables refine a history of versions: after any sequence of
    inserts of all kinds and deletions, a read at a checkpoint returns the newest version
    at or before it, or nothing if there is none. *)
Theorem single_id_store_refines (ws : list write) (i c : Z) :
  Forall write_ok ws → is_uint 64 i → is_uint 64 c →
  ∃ s r, for_each perform ws new = (Ok tt, s) ∧ latest (λ c', record_all ws !! (i, c')) c r ∧
    (db_select_one_single_checkpointed_object_value table i c s).1 = Ok (snd <$> r) ∧
    (db_select_one_single_checkpointed_object_value_and_ids table i c s).1 =
      Ok ((λ '(c', v), mkSingleRow i c' v) <$> r).
Proof.
  intros Hw Hi Hc. destruct (perform_all ws new ∅ Hw holds_empty) as (s' & (s & E & Hs) & Hm).
  destruct (select_latest s (record_all ws) i c) as (r & Hr & (s1 & E1 & _) & (s2 & E2 & _)); try done.
  { by rewrite Hs. }
  exists s, r. by rewrite E1, E2.
Qed.
End single.

(** ** Undoing a batch *)
Lemma lookup_remove_all ks : ∀ m k, remove_all ks m !! k = if decide (k ∈ ks) then None else m !! k.
Proof.
  induction ks as [|k' ks IH]; intros m k; cbn.
  - rewrite decide_False; [done|]. apply not_elem_of_nil.
  - fold (remove_all ks (delete k' m)). rewrite IH. destruct (decide (k ∈ ks)) as [Hin|Hin].
    + rewrite decide_True; [done|by right].
    + destruct (decide (k = k')) as [->|Hne].
      * rewrite decide_True by left. by rewrite lookup_delete_eq.
      * rewrite decide_False by by intros [?|?]%elem_of_cons. by rewrite lookup_delete_ne.
Qed.

Lemma lookup_insert_all_other kvs : ∀ m k, k ∉ kvs.*1 → insert_all kvs m !! k = m !! k.
Proof.
  induction kvs as [|[k' v] kvs IH]; intros m k Hk; [done|]. cbn in Hk. apply not_elem_of_cons in Hk as [Hne Hk].
  cbn. fold (insert_all kvs (<[k' := v]> m)). rewrite IH by done. by rewrite lookup_insert_ne.
Qed.

Lemma remove_insert_all kvs m : Forall (λ k, m !! k = None) kvs.*1 → remove_all kvs.*1 (insert_all kvs m) = m.
Proof.
  intros Hf. apply map_eq. intros k. rewrite lookup_remove_all. case_decide as Hk.
  - symmetry. by apply (proj1 (Forall_forall _ _) Hf).
  - by apply lookup_insert_all_other.
Qed.

Lemma runs_filter_none {A} (f : A → db bool) l s s' :
  s ≡ s' → (∀ a s1, a ∈ l → s1 ≡ s' → runs (f a) s1 false s') → runs (filter_db f l) s [] s'.
Proof.
  revert s. induction l as [|a l IH]; intros s E Hf; [by apply runs_ret|]. cbn [filter_db].
  eapply runs_bind; [apply Hf; [left|done]|]. intros s1 E1.
  eapply runs_bind; [apply IH; [done|]; intros; apply Hf; [by right|done]|]. intros s2 E2. by apply runs_ret.
Qed.

Lemma runs_contains name k s s' :
  s ≡ s' → runs (contains_key name k) s (bool_decide (is_Some (contents s' name !! k))) s'.
Proof. intros E. exists s. split; [|done]. unfold contains_key. by rewrite (proj1 E). Qed.

Lemma runs_absent name k s s' : s ≡ s' → contents s' name !! k = None → runs (contains_key name k) s false s'.
Proof.
  intros E Hk. replace false with (bool_decide (is_Some (contents s' name !! k))); [by apply runs_contains|].
  apply bool_decide_eq_false. rewrite Hk. apply is_Some_None.
Qed.

(** A batch of insertions, the removal of its keys, and the check that they are gone. *)
Lemma runs_rollback {A B} name (ins : db unit) (del : string → A → db unit) (chk : A → db bool)
    (k v : B → list Z) (k' : A → list Z) (l : list B) (l' : list A) s :
  runs ins s tt (with_table name (insert_all ((λ a, (k a, v a)) <$> l)) s) →
  (∀ a s1 s2, s1 ≡ s2 → runs (del name a) s1 tt (with_table name (delete (k' a)) s2)) →
  (∀ a s1 s2, s1 ≡ s2 → contents s2 name !! k' a = None → runs (chk a) s1 false s2) →
  k' <$> l' = k <$> l → Forall (λ b, contents s name !! k b = None) l →
  runs (_ ← ins; _ ← when_table name (λ db, for_each (del db) l'); filter_db chk l') s [] s.
Proof.
  intros Hins Hdel Hchk Hk Hf. eapply runs_bind; [by apply Hins|]. intros s1 E1.
  eapply runs_bind; [apply (runs_remove_each name del k'); [done|]; intros; by apply Hdel|]. intros s2 E2.
  assert (E3 : s2 ≡ s).
  { rewrite E2, with_table_compose. rewrite <- (with_table_id name s) at 2. split; intros n; [|done].
    rewrite !contents_with_table. case_decide; [|done]. rewrite Hk.
    replace (k <$> l) with ((λ a, (k a, v a)) <$> l).*1 by (by rewrite <- list_fmap_compose).
    apply remove_insert_all. rewrite <- list_fmap_compose. by apply Forall_fmap. }
  apply runs_filter_none; [done|]. intros a s4 Ha E4. apply Hchk; [done|].
  apply (list_elem_of_fmap_2 k') in Ha. rewrite Hk in Ha.
  apply list_elem_of_fmap in Ha as (b & -> & Hb). by apply (proj1 (Forall_forall _ _) Hf).
Qed.

Section nodes.
Context {Hash : Type} `{HashLaws Hash}.
Context (table : InMemoryTableIdentifier).

(** The three tables of nodes insert alike. *)
Lemma runs_insert_hash (k : list Z) (h : Hash) s s' :
  s ≡ s' →
  runs (db ← get_or_create_table (to_string table); bytes ← lift (to_bytes h); insert_entry db k bytes) s tt
    (with_table (to_string table) <[k := into_owned_32bytes h]> s').
Proof.
  intros E. eapply runs_bind; [by apply runs_table|]. intros s1 E1.
  eapply runs_bind; [apply runs_lift; [apply hash_to_bytes|done]|]. intros s2 E2. by apply runs_insert.
Qed.

(** A batch of nodes, each stored under the key [key] gives it. *)
Definition node_entries (key : SimpleMerkleNodeKey → list Z) (nodes : list (SimpleMerkleNodeKey * Hash))
    : list (list Z * list Z) :=
  (λ a, (key a.1, into_owned_32bytes a.2)) <$> nodes.

Lemma runs_set_zero c nodes s s' :
  s ≡ s' →
  runs (db_set_zero_id_merkle_nodes_batch table c nodes) s tt
    (with_table (to_string table) (insert_all (node_entries (λ k, key_merkle_zero_id k c) nodes)) s').
Proof.
  intros E. apply (runs_insert_each _ _ (λ a, key_merkle_zero_id a.1 c) (λ a, into_owned_32bytes a.2)); [done|].
  intros [k h] t t' _ E'. by apply runs_insert_hash.
Qed.

Lemma runs_set_single c tree_id nodes s s' :
  s ≡ s' →
  runs (db_set_single_id_merkle_nodes_batch table c tree_id nodes) s tt
    (with_table (to_string table) (insert_all (node_entries (λ k, key_merkle_single_id tree_id k c) nodes)) s').
Proof.
  intros E. apply (runs_insert_each _ _ (λ a, key_merkle_single_id tree_id a.1 c) (λ a, into_owned_32bytes a.2)); [done|].
  intros [k h] t t' _ E'. by apply runs_insert_hash.
Qed.

Lemma runs_set_double c tree_id tree_sub_id nodes s s' :
  s ≡ s' →
  runs (db_set_double_id_merkle_nodes_batch table c tree_id tree_sub_id nodes) s tt
    (with_table (to_string table) (insert_all (node_entries (λ k, key_merkle_double_id tree_id tree_sub_id k c) nodes)) s').
Proof.
  intros E.
  apply (runs_insert_each _ _ (λ a, key_merkle_double_id tree_id tree_sub_id a.1 c) (λ a, into_owned_32bytes a.2)); [done|].
  intros [k h] t t' _ E'. by apply runs_insert_hash.
Qed.

(** C33: a batch of objects or of Merkle nodes of any kind that is written at a
    checkpoint where nothing was, and then deleted by its keys, leaves the store as it
    was, and the check for remaining keys finds none. *)
Theorem rollback_restores {V : Type} `{CanonicalSingle V} {wf : V → Prop} `{!SingleLaws V wf}
    (s : InMemoryCoreStore) (c tree_id tree_sub_id : Z)
    (rows : list (QDatabaseKeyIdValueTableRow V)) (nodes : list (SimpleMerkleNodeKey * Hash)) :
  let absent (k : list Z) := contents s (to_string table) !! k = None in
  Forall (λ r, wf (kiv_value r) ∧ absent (key_single_id_checkpointed (kiv_obj_id r) c)) rows →
  Forall (λ n, absent (key_merkle_zero_id n.1 c) ∧ absent (key_merkle_single_id tree_id n.1 c) ∧
               absent (key_merkle_double_id tree_id tree_sub_id n.1 c)) nodes →
  (let keys := (λ r, (kiv_obj_id r, c)) <$> rows in
   runs (_ ← db_insert_many_single_checkpointed_objects_at_checkpoint table c rows;
         _ ← db_delete_many_object_checkpoint table keys;
         db_get_existing_object_checkpoints table keys) s [] s) ∧
  (let keys := (λ n, (level n.1, index n.1, c)) <$> nodes in
   runs (_ ← db_set_zero_id_merkle_nodes_batch table c nodes;
         _ ← db_delete_many_merkle_nodes table keys;
         db_get_existing_merkle_nodes table keys) s [] s) ∧
  (let keys := (λ n, (tree_id, level n.1, index n.1, c)) <$> nodes in
   runs (_ ← db_set_single_id_merkle_nodes_batch table c tree_id nodes;
         _ ← db_delete_many_tree_merkle_nodes table keys;
         db_get_existing_tree_merkle_nodes table keys) s [] s) ∧
  (let keys := (λ n, (tree_id, tree_sub_id, level n.1, index n.1, c)) <$> nodes in
   runs (_ ← db_set_double_id_merkle_nodes_batch table c tree_id tree_sub_id nodes;
         _ ← db_delete_many_tree_subtree_merkle_nodes table keys;
         db_get_existing_tree_subtree_merkle_nodes table keys) s [] s).
Proof.
  intros absent Hrows Hnodes. split_and!; intros keys.
  - eapply (runs_rollback (to_string table) _ (λ db '(i, c), remove_entry db (key_single_id_checkpointed i c)) _
      (λ r, key_single_id_checkpointed (kiv_obj_id r) c) (λ r, value_bytes (kiv_value r))
      (λ '(i, c), key_single_id_checkpointed i c) rows).
    + apply runs_insert_each; [done|]. intros r t t' Hr E. apply runs_insert_one; [|done].
      by apply (proj1 (Forall_forall _ _) Hrows).
    + intros [i c'] t t' E. by apply runs_remove.
    + intros [i c'] t t' E. by apply runs_absent.
    + unfold keys. by rewrite <- list_fmap_compose.
    + eapply Forall_impl; [exact Hrows|]. by intros r [_ ?].
  - eapply (runs_rollback (to_string table) _ (λ db '(l, i, c), remove_entry db (key_merkle_zero_id (mkKey l i) c)) _
      (λ n, key_merkle_zero_id n.1 c) (λ n, into_owned_32bytes n.2)
      (λ '(l, i, c), key_merkle_zero_id (mkKey l i) c) nodes).
    + by apply runs_set_zero.
    + intros [[l i] c'] t t' E. by apply runs_remove.
    + intros [[l i] c'] t t' E. by apply runs_absent.
    + unfold keys. by rewrite <- list_fmap_compose.
    + eapply Forall_impl; [exact Hnodes|]. by intros n (? & _).
  - eapply (runs_rollback (to_string table) _ (λ db '(t, l, i, c), remove_entry db (key_merkle_single_id t (mkKey l i) c)) _
      (λ n, key_merkle_single_id tree_id n.1 c) (λ n, into_owned_32bytes n.2)
      (λ '(t, l, i, c), key_merkle_single_id t (mkKey l i) c) nodes).
    + by apply runs_set_single.
    + intros [[[t l] i] c'] ? ? E. by apply runs_remove.
    + intros [[[t l] i] c'] ? ? E. by apply runs_absent.
    + unfold keys. by rewrite <- list_fmap_compose.
    + eapply Forall_impl; [exact Hnodes|]. by intros n (_ & ? & _).
  - eapply (runs_rollback (to_string table) _ (λ db '(t, u, l, i, c), remove_entry db (key_merkle_double_id t u (mkKey l i) c)) _
      (λ n, key_merkle_double_id tree_id tree_sub_id n.1 c) (λ n, into_owned_32bytes n.2)
      (λ '(t, u, l, i, c), key_merkle_double_id t u (mkKey l i) c) nodes).
    + by apply runs_set_double.
    + intros [[[[t u] l] i] c'] ? ? E. by apply runs_remove.
    + intros [[[[t u] l] i] c'] ? ? E. by apply runs_absent.
    + unfold keys. by rewrite <- list_fmap_compose.
    + eapply Forall_impl; [exact Hnodes|]. by intros n (_ & _ & ?).
Qed.
End nodes.

(** ** Ids by hash *)
Lemma bytes_le_take n a b :
  (n ≤ length a)%nat → (n ≤ length b)%nat → bytes_le a b → bytes_le (take n a) (take n b).
Proof.
  intros Ha Hb Hle. rewrite <- (take_drop n a), <- (take_drop n b) in Hle. unfold bytes_le in *.
  rewrite bytes_cmp_app in Hle by (rewrite !length_take; lia). intros E. by rewrite E in Hle.
Qed.

(** In an ordered list of keys not below [p], those that begin with [p] come first. *)
Lemma prefix_first n p l :
  length p = n → StronglySorted entry_le l →
  Forall (λ e, length e.1 = (n + 8)%nat ∧ bytes e.1 ∧ bytes_le p (take n e.1)) l →
  ∃ vs rest, l = ((λ '(v, b), (p ++ be_u64 v, b)) <$> vs) ++ rest ∧
    Forall (λ v, is_uint 64 v.1) vs ∧ Forall (λ e, length e.1 = (n + 8)%nat ∧ take n e.1 ≠ p) rest.
Proof.
  intros Hp. induction 1 as [|[k b] l Hs IH Hh]; intros Hl; [by exists [], []|].
  apply Forall_cons in Hl as [(Hlen & Hb & Hle) Hl]. cbn in Hlen, Hb, Hle.
  destruct (decide (take n k = p)) as [E|Hne].
  - destruct (IH Hl) as (vs & rest & -> & Hvs & Hrest).
    destruct (split_be n k Hlen Hb) as [Ek Hu]. rewrite E in Ek.
    exists ((from_be_bytes (drop n k), b) :: vs), rest. split_and!; [|by constructor|done]. cbn. by rewrite <- Ek.
  - exists [], ((k, b) :: l). split_and!; [done|done|]. constructor; [done|].
    apply Forall_forall. intros e He.
    pose proof (proj1 (Forall_forall _ _) Hl e He) as (Hlen' & _ & Hle').
    pose proof (proj1 (Forall_forall _ _) Hh e He) as Hke. unfold entry_le in Hke. cbn in Hke.
    split; [done|]. intros E'. apply Hne. apply (anti_symm bytes_le); [|done].
    rewrite <- E'. apply bytes_le_take; lia || done.
Qed.

Section hash_ids.
Context {Hash : Type} `{HashLaws Hash}.
Context (table : InMemoryTableIdentifier).

Lemma length_hash_bytes (h : Hash) : length (into_owned_32bytes h) = 32%nat.
Proof. destruct (hash_bytes_array h). lia. Qed.

Lemma extract_id (p : list Z) v : is_uint 64 v → extract_u64_from_hash_to_u64_key (p ++ be_u64 v) = Ok v.
Proof.
  intros Hv. unfold extract_u64_from_hash_to_u64_key, read_be_u64.
  rewrite length_app, length_to_be_bytes. replace ((length p + 8 <? 8)%nat) with false by (symmetry; apply Nat.ltb_ge; lia).
  rewrite subslice_ok by (rewrite length_app, length_to_be_bytes; lia). cbn [outcome_bind].
  rewrite drop_app_length' by lia. rewrite take_ge by (rewrite length_to_be_bytes; lia). by rewrite from_to_be_bytes.
Qed.

Lemma ids_loop_split p vs rest :
  Forall (λ v, is_uint 64 v.1) vs → Forall (λ e, length e.1 = (length p + 8)%nat ∧ take (length p) e.1 ≠ p) rest →
  ids_loop p (((λ '(v, b), (p ++ be_u64 v, b)) <$> vs) ++ rest) = Ok vs.*1.
Proof.
  intros Hvs Hrest. induction Hvs as [|[v b] vs Hv Hvs IH].
  - destruct Hrest as [|[k b] rest [Hl Hne] _]; [done|]. cbn in Hl, Hne |- *.
    rewrite bool_decide_false by done. by rewrite orb_true_r.
  - cbn [fmap list_fmap app ids_loop]. rewrite take_app_length, bool_decide_true by done.
    replace ((length (p ++ be_u64 v) <? length p)%nat) with false
      by (symmetry; apply Nat.ltb_ge; rewrite length_app; lia).
    cbn [orb negb]. rewrite extract_id by done. cbn [outcome_bind]. rewrite IH. done.
Qed.

Lemma take_split {A B} (f : A → B) count vs (rest : list B) :
  take count ((f <$> vs) ++ rest) = (f <$> take count vs) ++ take (count - length vs) rest.
Proof. rewrite take_app, length_fmap. by rewrite fmap_take. Qed.

Lemma be_keys_sorted p vs :
  Forall (λ v, is_uint 64 v.1) vs → StronglySorted entry_le ((λ '(v, b), (p ++ be_u64 v, b)) <$> vs) →
  NoDup ((λ '(v, b), (p ++ be_u64 v, b)) <$> vs).*1 → StronglySorted Z.lt vs.*1.
Proof.
  induction 1 as [|[v b] vs Hv Hvs IH]; cbn [fmap list_fmap]; intros Hs Hn; [constructor|].
  apply StronglySorted_inv in Hs as [Hs Hh]. apply NoDup_cons in Hn as [Hn Hns].
  constructor; [by apply IH|]. apply Forall_fmap, Forall_forall. intros [w b'] Hw. cbn.
  pose proof (proj1 (Forall_forall _ _) Hvs _ Hw) as Hu. cbn in Hv, Hu.
  apply (list_elem_of_fmap_2 (λ '(v, b), (p ++ be_u64 v, b))) in Hw.
  pose proof (proj1 (Forall_forall _ _) Hh _ Hw) as Hle. unfold entry_le, bytes_le in Hle. cbn in Hle.
  rewrite bytes_cmp_prefix in Hle. apply (be_le 8) in Hle; [|done..].
  assert (v ≠ w); [|lia]. intros ->. apply Hn. by apply (list_elem_of_fmap_2 fst) in Hw.
Qed.

Lemma be_keys_elem (m : skipmap) p start l vs rest v :
  l = range (p ++ be_u64 start) Unbounded m → l = ((λ '(v, b), (p ++ be_u64 v, b)) <$> vs) ++ rest →
  length p = 32%nat → is_uint 64 start → Forall (λ v, is_uint 64 v.1) vs →
  Forall (λ e, length e.1 = (32 + 8)%nat ∧ take 32 e.1 ≠ p) rest →
  v ∈ vs.*1 ↔ is_uint 64 v ∧ start ≤ v ∧ is_Some (m !! (p ++ be_u64 v)).
Proof.
  intros Hl El Hp Hst Hvs Hrest. assert (Hin : ∀ v b, (p ++ be_u64 v, b) ∈ l ↔
    m !! (p ++ be_u64 v) = Some b ∧ bytes_le (be_u64 start) (be_u64 v)).
  { intros w b. rewrite Hl, elem_of_range. cbn. unfold bytes_le. rewrite bytes_cmp_prefix. naive_solver. }
  split.
  - intros ([w b] & -> & Hw)%list_elem_of_fmap. pose proof (proj1 (Forall_forall _ _) Hvs _ Hw) as Hu. cbn in Hu |- *.
    destruct (proj1 (Hin w b)) as [Hb Hle].
    { rewrite El. apply elem_of_app. left. by apply (list_elem_of_fmap_2 (λ '(v, b), (p ++ be_u64 v, b))) in Hw. }
    split_and!; [done|by apply (be_le 8)|by rewrite Hb].
  - intros (Hu & Hle & [b Hb]). assert (Hv : (p ++ be_u64 v, b) ∈ l) by (apply Hin; split; [done|by apply (be_le 8)]).
    rewrite El in Hv. apply elem_of_app in Hv as [([w b'] & [= E _] & Hw)%list_elem_of_fmap|Hv].
    + apply (list_elem_of_fmap_2 fst) in Hw as Hw'. pose proof (proj1 (Forall_forall _ _) Hvs _ Hw) as Hu'. cbn in Hu', Hw'.
      apply app_inv_head, be_u64_inj in E; [by subst|done|done].
    + apply (proj1 (Forall_forall _ _) Hrest) in Hv as [_ Hne]. cbn in Hne. by rewrite take_app_length' in Hne.
Qed.

(** C35: the ids of a hash are returned in increasing order from the given start,
    complete up to the given number; ids of other hashes never appear. *)
Theorem ids_for_hash_correct (s : InMemoryCoreStore) (h : Hash) (count : nat) (start : Z) :
  shaped 32 (contents s (to_string table)) → is_uint 64 start →
  ∃ ids s', db_select_value_u64_ids_for_hash table h count start s = (Ok (take count ids), s') ∧ s' ≡ s ∧
    StronglySorted Z.lt ids ∧
    ∀ v, v ∈ ids ↔ is_uint 64 v ∧ start ≤ v ∧ is_Some (contents s (to_string table) !! (into_owned_32bytes h ++ be_u64 v)).
Proof.
  intros Hm Hst. set (m := contents s (to_string table)) in *. set (p := into_owned_32bytes h).
  assert (Hp : length p = 32%nat) by apply length_hash_bytes.
  set (l := range (p ++ be_u64 start) Unbounded m).
  destruct (prefix_first 32 p l) as (vs & rest & El & Hvs & Hrest); [done|apply range_sorted| |].
  { apply Forall_forall. intros [k b] (Hk & Hle & _)%elem_of_range. cbn in Hk, Hle |- *.
    destruct (Hm _ _ Hk) as [Hl Hb]. split_and!; try done.
    rewrite <- (take_app_length' p (be_u64 start) 32) by done.
    apply bytes_le_take; rewrite ?length_app, ?length_to_be_bytes; lia || done. }
  exists vs.*1. assert (Hrun : runs (db_select_value_u64_ids_for_hash table h count start) s (take count vs.*1) s).
  { eapply runs_bind; [by apply runs_table|]. intros s1 E1.
    eapply runs_bind; [apply runs_lift; [unfold key_hash_to_u64; rewrite hash_to_bytes; done|done]|]. intros s2 E2.
    eapply runs_bind; [apply runs_lift; [apply hash_to_bytes|done]|]. intros s3 E3.
    eapply runs_bind; [by apply runs_read|]. intros s4 E4. apply runs_lift; [|done].
    fold p m l. rewrite El, take_split, <- fmap_take. apply ids_loop_split; [by apply Forall_take|].
    apply Forall_take. eapply Forall_impl; [exact Hrest|]. intros e. by rewrite Hp. }
  destruct Hrun as (s' & E & Es). exists s'. split_and!; try done.
  - pose proof (range_sorted (p ++ be_u64 start) Unbounded m) as Hsort. pose proof (NoDup_range (p ++ be_u64 start) Unbounded m) as Hnd.
    fold l in Hsort, Hnd. rewrite El in Hsort, Hnd. apply StronglySorted_app in Hsort as (_ & Hsort & _).
    rewrite fmap_app in Hnd. apply NoDup_app in Hnd as (Hnd & _). by eapply be_keys_sorted.
  - intros v. rewrite (be_keys_elem m p start l vs rest); done.
Qed.
End hash_ids.

(** ** Examples *)
Definition demo_objects : InMemoryTableIdentifier := mkTable "objects" 1.
Definition demo_object (n : Z) : TagTreeStorageNode gold4 := mkStorageNode (example_hash n) (example_hash (n + 1)).

#[local] Instance demo_single : CanonicalSingle (TagTreeStorageNode gold4) := fixed_single.
#[local] Instance demo_laws : SingleLaws (TagTreeStorageNode gold4) any.
Proof. apply fixed_laws, storage_node_fixed. Qed.

(** Three versions of an object, the last of which is deleted. *)
Definition demo_writes : list (write (V := TagTreeStorageNode gold4)) :=
  [InsertOne 9 1 (demo_object 10); InsertAtCheckpoint 4 [mkKivRow 9 (demo_object 20); mkKivRow 8 (demo_object 30)];
   InsertRows [mkSingleRow 9 6 (demo_object 40)]; DeleteVersions [(9, 6)]].

Lemma single_id_store_refines_witness :
  ∃ s r, for_each (perform demo_objects) demo_writes new = (Ok tt, s) ∧
    latest (λ c', record_all demo_writes !! (9, c')) 7 r ∧
    (db_select_one_single_checkpointed_object_value (V := TagTreeStorageNode gold4) demo_objects 9 7 s).1 = Ok (snd <$> r).
Proof.
  destruct (single_id_store_refines demo_objects demo_writes 9 7) as (s & r & E & Hr & E1 & _).
  - repeat constructor; cbn; lia.
  - split; lia.
  - split; lia.
  - by exists s, r.
Defined.

Lemma rollback_restores_witness :
  let rows := [mkKivRow 9 (demo_object 10); mkKivRow 8 (demo_object 20)] in
  let keys := (λ r : QDatabaseKeyIdValueTableRow (TagTreeStorageNode gold4), (kiv_obj_id r, 5)) <$> rows in
  runs (_ ← db_insert_many_single_checkpointed_objects_at_checkpoint demo_objects 5 rows;
        _ ← db_delete_many_object_checkpoint demo_objects keys;
        db_get_existing_object_checkpoints demo_objects keys) new [] new.
Proof.
  intros rows keys. apply (rollback_restores (Hash := gold4) (wf := any) demo_objects new 5 1 2 rows [(mkKey 2 1, example_hash 3)]).
  - repeat constructor.
  - repeat constructor.
Defined.

(** Two ids of one hash and one of another. *)
Definition demo_ids : InMemoryCoreStore :=
  with_table (to_string demo_objects)
    (insert_all ((λ '(h, v), (into_owned_32bytes (example_hash h) ++ be_u64 v, [])) <$> [(1, 5); (2, 6); (1, 300)])) new.

Lemma ids_for_hash_correct_witness :
  ∃ ids s', db_select_value_u64_ids_for_hash demo_objects (example_hash 1) 10 6 demo_ids = (Ok (take 10 ids), s') ∧ 300 ∈ ids ∧ 5 ∉ ids.
Proof.
  destruct (ids_for_hash_correct demo_objects demo_ids (example_hash 1) 10 6) as (ids & s' & E & _ & _ & Hids).
  - intros k v Hk. revert k v Hk. change (map_Forall (λ k _, length k = (32 + 8)%nat ∧ bytes k) (contents demo_ids (to_string demo_objects))).
    apply (bool_decide_unpack _). vm_compute. exact I.
  - split; lia.
  - exists ids, s'. split; [exact E|]. split.
    + apply Hids. split; [split; lia|]. split; [lia|]. eexists. vm_compute. reflexivity.
    + intros (_ & Hlt & _)%Hids. lia.
Defined.

(** ** Where reads depart from their contracts *)

(** A leaf of an indexed tree written at checkpoint 5 is not found at checkpoint 6,
    although the latest version at or before the bound is asked for. *)
Lemma imt_leaf_latest_missed :
  let h := replicate 32 1 in
  (_ ← db_insert_imt_leaf demo_objects 1 2 3 5 h h h h 4; db_select_imt_leaf demo_objects 1 2 3 6) new =
    (Ok None, (db_insert_imt_leaf demo_objects 1 2 3 5 h h h h 4 new).2).
Proof. vm_compute. reflexivity. Qed.

(** The predecessor of a key in tree 1 is looked for past the end of tree 1: the only row
    is one of tree 2. *)
Lemma imt_predecessor_of_other_tree :
  let k := replicate 32 1 in let target := replicate 32 9 in
  (_ ← db_insert_imt_key_index demo_objects 2 0 0 k k 5 7;
   db_select_imt_key_index_predecessor demo_objects 1 0 0 target) new =
    (Ok [(k, k, 7, 5)], (db_insert_imt_key_index demo_objects 2 0 0 k k 5 7 new).2).
Proof. vm_compute. reflexivity. Qed.

(** A dump of a tree of two leaves as of checkpoint 3 contains the version that leaf 0
    got at checkpoint 9. *)
Lemma dump_returns_newer_versions :
  (_ ← db_insert_zero_id_merkle_node demo_objects 9 (mkKey 1 0) (example_hash 1);
   db_dump_all_zero_id_merkle_node_leaves_vec demo_objects 3 DumpAllStrategy) new =
    (Ok [(mkKey 1 0, example_hash 1)], (db_insert_zero_id_merkle_node demo_objects 9 (mkKey 1 0) (example_hash 1) new).2).
Proof. vm_compute. reflexivity. Qed.

(** Decrementing a counter that is zero reports zero and stores the largest integer. *)
Lemma counter_wraps_below_zero :
  ((c ← db_inc_u64_counter demo_objects 1 (-1); d ← db_select_u64_counter_value demo_objects 1; mret (c, d)) new).1 =
    Ok (0, Some (2 ^ 64 - 1)).
Proof. vm_compute. reflexivity. Qed.

(** A second value for a key leaves the first value mapped back to the key. *)
Lemma mapping_reinsert_stale :
  ((_ ← db_insert_u64_u128_mapping_pairs demo_objects [(1, 10); (1, 11)];
    v ← db_select_one_u128_value_by_u64 demo_objects 1; k ← db_select_one_u64_key_by_u128 demo_objects 10;
    mret (v, k)) new).1 = Ok (Some 11, Some 1).
Proof. vm_compute. reflexivity. Qed.
