(* ===== verification/StoreTags.v ===== *)
(** * Tag trees in the core database

    The tag-tree operations of [CoreStore] against [TagTree]: tags set along a path,
    from a node up to the root, leave a tree whose proof for that node verifies and
    carries exactly those tags. *)
From stdpp Require Import prelude list gmap strings.
From Stdlib Require Import ZArith Lia.
From S2P Require Import Prelude MerkleKey MerkleHash Wire Serialize ByteOrder Codecs RealmFinalize TagTree CoreStore StoreVersions.

Section tags.
Context {Hash : Type} `{MerkleHasher Hash} `{Hash32 Hash} `{EqDecision Hash}.
Context (default_hash : Hash) (table : InMemoryTableIdentifier) (uid : Z).

(** ** What a table says of a node *)
Definition decode_node (b : list Z) : option (TagTreeStorageNode Hash) :=
  match ffs_try_from_slice b with Ok n => Some n | _ => None end.

Definition node_at (m : skipmap) (k : SimpleMerkleNodeKey) : option (TagTreeStorageNode Hash) :=
  m !! key_tag_tree uid k ≫= decode_node.

Definition value_at (m : skipmap) (k : SimpleMerkleNodeKey) : Hash := default default_hash (tag_value <$> node_at m k).
Definition tag_at (m : skipmap) (k : SimpleMerkleNodeKey) : Hash := default default_hash (tag <$> node_at m k).

(** Every entry is a node. *)
Definition tags_ok (m : skipmap) : Prop := ∀ k b, m !! k = Some b → is_Some (decode_node b).

(** The node is the hash of its children and of its tag. *)
Definition consistent (m : skipmap) (k : SimpleMerkleNodeKey) (t : Hash) : Prop :=
  node_at m k = Some (mkStorageNode (hash_tag_tree_node (value_at m (left_child k)) (value_at m (right_child k)) t) t).

Lemma key_tag_tree_inj k k' :
  is_uint 64 (index k) → is_uint 64 (index k') → key_tag_tree uid k = key_tag_tree uid k' → k = k'.
Proof.
  intros Hk Hk' E. unfold key_tag_tree in E. apply app_inv_head, (inj2 cons) in E as [El Ei].
  apply key_eq; [done|by apply be_u64_inj].
Qed.

Lemma index_child_uint k : is_uint 64 (index (left_child k)) ∧ is_uint 64 (index (right_child k)).
Proof. unfold left_child, right_child, u64_shl. cbn. split; apply wrap_range; lia. Qed.

Lemma decode_encode (n : TagTreeStorageNode Hash) : decode_node (ffs_to_bytes n) = Some n.
Proof.
  unfold decode_node, ffs_try_from_slice. destruct (ffs_array n (any_ok n)) as [Hl _].
  rewrite (proj2 (Z.eqb_eq _ _) Hl). cbn [negb]. by rewrite (ffs_roundtrip (wf := any)).
Qed.

Lemma node_at_insert m k (n : TagTreeStorageNode Hash) k' :
  is_uint 64 (index k) → is_uint 64 (index k') →
  node_at (<[key_tag_tree uid k := ffs_to_bytes n]> m) k' = if decide (k = k') then Some n else node_at m k'.
Proof.
  intros Hk Hk'. unfold node_at. case_decide as E.
  - subst. rewrite lookup_insert_eq. cbn. apply decode_encode.
  - rewrite lookup_insert_ne; [done|]. by intros ?%key_tag_tree_inj.
Qed.

Lemma tags_ok_insert m k (n : TagTreeStorageNode Hash) : tags_ok m → tags_ok (<[key_tag_tree uid k := ffs_to_bytes n]> m).
Proof. intros Hm k' b [[_ <-]|[_ Hb]]%lookup_insert_Some; [by rewrite decode_encode|by eapply Hm]. Qed.

(** ** The operations *)
Lemma runs_get_field {A} (f : TagTreeStorageNode Hash → A) k s s' :
  tags_ok (contents s' (to_string table)) → s ≡ s' →
  runs (db ← get_or_create_table (to_string table);
        entry ← read_table db (lookup (key_tag_tree uid k));
        lift (transpose (λ b, let* node := ffs_try_from_slice b in Ok (f node)) entry)) s
    (f <$> node_at (contents s' (to_string table)) k) s'.
Proof.
  intros Hm E. eapply runs_bind; [by apply runs_table|]. intros s1 E1.
  eapply runs_bind; [by apply runs_read|]. intros s2 E2. apply runs_lift; [|done].
  unfold node_at. destruct (_ !! _) as [b|] eqn:Eb; [|done]. cbn.
  apply Hm in Eb as [n Hn]. rewrite Hn. unfold decode_node in Hn. by destruct (ffs_try_from_slice b); simplify_eq/=.
Qed.

Lemma runs_get_value k s s' :
  tags_ok (contents s' (to_string table)) → s ≡ s' →
  runs (db_get_tag_tree_node_value table uid k) s (tag_value <$> node_at (contents s' (to_string table)) k) s'.
Proof. apply runs_get_field. Qed.

Lemma runs_get_tag k s s' :
  tags_ok (contents s' (to_string table)) → s ≡ s' →
  runs (db_get_tag_tree_node_tag table uid k) s (tag <$> node_at (contents s' (to_string table)) k) s'.
Proof. apply runs_get_field. Qed.

Lemma runs_set_tag k t s s' :
  tags_ok (contents s' (to_string table)) → s ≡ s' →
  let m := contents s' (to_string table) in
  let v := hash_tag_tree_node (value_at m (left_child k)) (value_at m (right_child k)) t in
  runs (db_set_tag_tree_tag default_hash table uid k t) s tt
    (with_table (to_string table) <[key_tag_tree uid k := ffs_to_bytes (mkStorageNode v t)]> s').
Proof.
  intros Hm E m v. eapply runs_bind; [by apply runs_get_value|]. intros s1 E1.
  eapply runs_bind; [by apply runs_get_value|]. intros s2 E2.
  eapply runs_bind; [by apply runs_table|]. intros s3 E3.
  eapply runs_bind; [by apply runs_lift|]. intros s4 E4. by apply runs_insert.
Qed.

(** ** Tags along a path *)
Fixpoint up (n : nat) (k : SimpleMerkleNodeKey) : list SimpleMerkleNodeKey :=
  match n with O => [k] | S n => k :: up n (parent k) end.

Definition set_tags (nodes : list (SimpleMerkleNodeKey * Hash)) : db unit :=
  for_each (λ '(k, t), db_set_tag_tree_tag default_hash table uid k t) nodes.

Lemma consistent_deeper m m' k t :
  (∀ k', is_uint 64 (index k') → level k - 1 < level k' → node_at m' k' = node_at m k') →
  is_uint 64 (index k) → 0 ≤ level k < 64 → consistent m k t → consistent m' k t.
Proof.
  intros Hd Hk Hl. unfold consistent, value_at. destruct (index_child_uint k) as [HL HR].
  assert (Hw : wrap 8 (level k + 1) = level k + 1) by (apply wrap_small; lia).
  rewrite !Hd; [done|done|cbn; rewrite Hw; lia|done|cbn; rewrite Hw; lia|done|lia].
Qed.

Lemma set_tags_spec n : ∀ k ts s,
  key_wf k → level k = Z.of_nat n → level k < 64 → length ts = S n →
  tags_ok (contents s (to_string table)) →
  ∃ s', runs (set_tags (zip (up n k) ts)) s tt s' ∧ tags_ok (contents s' (to_string table)) ∧
    (∀ k', is_uint 64 (index k') → level k < level k' →
       node_at (contents s' (to_string table)) k' = node_at (contents s (to_string table)) k') ∧
    Forall2 (consistent (contents s' (to_string table))) (up n k) ts.
Proof.
  induction n as [|n IH]; intros k [|t ts] s Hk Hl H64 Hts Hm; try done; cbn [up zip_with];
    pose proof (key_wf_index64 k Hk) as Hi; destruct (index_child_uint k) as [HL HR];
    assert (Hw : wrap 8 (level k + 1) = level k + 1) by (apply wrap_small; lia);
    set (m := contents s (to_string table)) in *;
    set (nd := mkStorageNode (hash_tag_tree_node (value_at m (left_child k)) (value_at m (right_child k)) t) t);
    destruct (runs_set_tag k t s s Hm ltac:(done)) as (s1 & E1 & Hs1);
    assert (Hm1 : contents s1 (to_string table) = <[key_tag_tree uid k := ffs_to_bytes nd]> m)
      by (rewrite Hs1, contents_with_table_eq; done);
    assert (Hother : ∀ k', is_uint 64 (index k') → k ≠ k' →
              node_at (contents s1 (to_string table)) k' = node_at m k')
      by (intros k' Hk' Hne; rewrite Hm1, node_at_insert by done; by rewrite decide_False);
    assert (Hself : consistent (contents s1 (to_string table)) k t).
  1, 3: unfold consistent, value_at; rewrite !(Hother (left_child k)), !(Hother (right_child k)), Hm1, node_at_insert,
          decide_True by (done || intros E; apply (f_equal level) in E; cbn in E; rewrite Hw in E; lia); done.
  - destruct ts; [|done]. exists s1. split_and!.
    + exists s1. split; [|done]. cbn [set_tags for_each]. by rewrite (bind_run _ _ _ _ _ E1).
    + rewrite Hm1. by apply tags_ok_insert.
    + intros k' Hk' Hlt. apply Hother; [done|]. intros ->. lia.
    + by constructor.
  - destruct (IH (parent k) ts s1) as (s2 & (s3 & E3 & Hs3) & Hok & Hdeep & Hall).
    + by apply key_wf_parent.
    + rewrite level_parent; lia.
    + rewrite level_parent; lia.
    + cbn in Hts. lia.
    + rewrite Hm1. by apply tags_ok_insert.
    + rewrite level_parent in Hdeep by lia. exists s2. split_and!; [|done| |].
      * exists s3. split; [|done]. cbn [set_tags for_each]. by rewrite (bind_run _ _ _ _ _ E1).
      * intros k' Hk' Hlt. rewrite Hdeep by (done || lia). apply Hother; [done|]. intros ->. lia.
      * constructor; [|done]. eapply consistent_deeper; [exact Hdeep|done|lia|done].
Qed.

(** ** The proof read back *)
Fixpoint proof_nodes (m : skipmap) (n : nat) (k : SimpleMerkleNodeKey) : list (TagTreeProofNode Hash) :=
  match n with
  | O => []
  | S n => mkTagProofNode (value_at m (sibling k)) (tag_at m (parent k)) :: proof_nodes m n (parent k)
  end.

Lemma runs_siblings_loop n : ∀ k s s',
  tags_ok (contents s' (to_string table)) → s ≡ s' →
  runs (tag_siblings_loop default_hash n table uid k) s (proof_nodes (contents s' (to_string table)) n k) s'.
Proof.
  induction n as [|n IH]; intros k s s' Hm E; [by apply runs_ret|]. cbn [tag_siblings_loop proof_nodes].
  eapply runs_bind; [by apply runs_get_value|]. intros s1 E1.
  eapply runs_bind; [by apply runs_get_tag|]. intros s2 E2.
  eapply runs_bind; [by apply IH|]. intros s3 E3. by apply runs_ret.
Qed.

Lemma runs_get_proof k s s' :
  tags_ok (contents s' (to_string table)) → s ≡ s' →
  let m := contents s' (to_string table) in
  runs (db_get_tag_tree_merkle_proof default_hash table uid k) s
    (mkTagProof (value_at m MerkleKey.new_root)
       (mkTagPreimage (value_at m (left_child k)) (value_at m (right_child k)) (tag_at m k)) (index k)
       (proof_nodes m (Z.to_nat (level k)) k)) s'.
Proof.
  intros Hm E m. do 3 (eapply runs_bind; [by apply runs_get_value|]; intros ? ?).
  eapply runs_bind; [by apply runs_get_tag|]. intros s4 E4.
  eapply runs_bind; [by apply runs_siblings_loop|]. intros s5 E5. by apply runs_ret.
Qed.

(** A node and its sibling are the children of their parent. *)
Lemma parent_children k :
  key_wf k → 0 < level k →
  if Z.odd (index k) then left_child (parent k) = sibling k ∧ right_child (parent k) = k
  else left_child (parent k) = k ∧ right_child (parent k) = sibling k.
Proof.
  intros Hk Hl. pose proof (key_wf_parent k Hk) as Hp. assert (level (parent k) < 64) by (rewrite level_parent; destruct Hk; lia).
  rewrite left_child_spec, right_child_spec by done. rewrite level_parent, index_parent by lia.
  unfold sibling. pose proof (Z.div_mod (index k) 2 ltac:(lia)) as Hd. rewrite Zmod_odd in Hd.
  replace (level k - 1 + 1) with (level k) by lia. destruct k as [l i]. cbn [level index] in *.
  pose proof (index_sibling (mkKey l i)) as Hs. cbn [sibling index] in Hs.
  destruct (Z.odd i) eqn:Ho; split; apply key_eq; cbn [level index]; try done; try lia;
    rewrite Hs, <- Z.negb_odd, Ho; cbn; lia.
Qed.

Lemma loop_reaches_root (m : skipmap) idx n : ∀ i k ts,
  key_wf k → level k = Z.of_nat n → (i + n ≤ 64)%nat → index k = Z.shiftr idx (Z.of_nat i) →
  Forall2 (consistent m) (up n k) ts →
  tag_root_loop idx i (value_at m k) (proof_nodes m n k) = value_at m MerkleKey.new_root.
Proof.
  induction n as [|n IH]; intros i k ts Hk Hl Hi Hidx Hc.
  - cbn. f_equal. destruct Hk as [_ Hr]. rewrite Hl in Hr. cbn in Hr. apply key_eq; cbn; lia.
  - cbn [up] in Hc. inversion Hc as [|? t ? ts' _ Hc']; subst. clear Hc. cbn [proof_nodes tag_root_loop tag_sibling parent_tag].
    assert (Hp : ∃ t', consistent m (parent k) t').
    { destruct n; cbn [up] in Hc'; inversion Hc'; subst; eauto. }
    destruct Hp as [t' Hp].
    assert (Ht : tag_at m (parent k) = t') by (unfold tag_at; by rewrite Hp).
    assert (Hv : value_at m (parent k) = hash_tag_tree_node (value_at m (left_child (parent k))) (value_at m (right_child (parent k))) t')
      by (unfold value_at at 1; by rewrite Hp).
    assert (Hbit : index_bit_set idx i = Z.odd (index k)).
    { rewrite index_bit_set_small by lia. rewrite Hidx, <- Z.bit0_odd, Z.shiftr_spec by lia. f_equal; lia. }
    pose proof (parent_children k Hk ltac:(lia)) as Hch. rewrite Hbit, Ht.
    rewrite <- (IH (S i) (parent k) ts'); [|by apply key_wf_parent|rewrite level_parent; lia|lia| |done].
    + f_equal. rewrite Hv. unfold hash_tag_tree_node. destruct (Z.odd (index k)); by destruct Hch as [-> ->].
    + rewrite index_parent by lia. rewrite Hidx, <- Z.shiftr_div_pow2 with (n := 1), Z.shiftr_shiftr by lia. f_equal. lia.
Qed.

Lemma proof_tags m n : ∀ k t ts,
  Forall2 (consistent m) (up n k) (t :: ts) → tag_at m k = t ∧ parent_tag <$> proof_nodes m n k = ts.
Proof.
  induction n as [|n IH]; intros k t ts Hc; cbn [up] in Hc; inversion Hc as [|? ? ? ? Hk Hr]; subst.
  - inversion Hr; subst. split; [unfold tag_at; by rewrite Hk|done].
  - split; [unfold tag_at; by rewrite Hk|]. destruct ts as [|t' ts]; [destruct n; inversion Hr|].
    destruct (IH _ _ _ Hr) as [Et Es]. cbn. by rewrite Et, Es.
Qed.

Lemma up_root m n : ∀ k ts,
  key_wf k → level k = Z.of_nat n → Forall2 (consistent m) (up n k) ts → ∃ t, consistent m MerkleKey.new_root t.
Proof.
  induction n as [|n IH]; intros k ts Hk Hl Hc; cbn [up] in Hc; inversion Hc as [|? t ? ts' Hk' Hr]; subst.
  - exists t. replace MerkleKey.new_root with k; [done|]. destruct Hk as [_ Hi]. rewrite Hl in Hi. cbn in Hi.
    apply key_eq; cbn; lia.
  - eapply (IH (parent k)); [by apply key_wf_parent|rewrite level_parent; lia|done].
Qed.

Lemma up_head m n k t ts : Forall2 (consistent m) (up n k) (t :: ts) → consistent m k t.
Proof. destruct n; cbn [up]; by inversion 1. Qed.

Lemma length_proof_nodes m n : ∀ k, length (proof_nodes m n k) = n.
Proof. induction n as [|n IH]; intros k; [done|]. cbn. by rewrite IH. Qed.

(** C34: after the tags of the nodes from a leaf to the root are set one after the
    other, the proof that the store gives for the leaf has these tags, ends at the root
    the store reports, and verifies. *)
Theorem tag_path_proof (k : SimpleMerkleNodeKey) (t : Hash) (ts : list Hash) (s : InMemoryCoreStore) :
  key_wf k → level k < 64 → Z.of_nat (length ts) = level k → tags_ok (contents s (to_string table)) →
  ∃ s' p, set_tags (zip (up (length ts) k) (t :: ts)) s = (Ok tt, s') ∧
    (db_get_tag_tree_merkle_proof default_hash table uid k s').1 = Ok p ∧
    (db_get_tag_tree_root table uid s').1 = Ok (Some (tag_root p)) ∧
    tag_index p = index k ∧ tag_tag (tag_leaf p) = t ∧ parent_tag <$> tag_siblings p = ts ∧
    verify_tag_tree_proof (tag_index p) (tag_leaf p) (tag_siblings p) (tag_root p) = true.
Proof.
  intros Hk H64 Hts Hm.
  destruct (set_tags_spec (length ts) k (t :: ts) s) as (s2 & (s' & E & Hs) & Hok & _ & Hall); try done.
  rewrite <- Hs in Hok, Hall. set (m := contents s' (to_string table)) in *.
  destruct (runs_get_proof k s' s' Hok ltac:(done)) as (s3 & E3 & _).
  destruct (runs_get_value MerkleKey.new_root s' s' Hok ltac:(done)) as (s4 & E4 & _).
  destruct (proof_tags m _ _ _ _ Hall) as [Et Ets].
  assert (Hn : Z.to_nat (level k) = length ts) by lia. rewrite Hn in E3.
  eexists s', _. split_and!; [done|by rewrite E3|..]; cbn [tag_root tag_index tag_leaf tag_tag tag_siblings]; try done.
  - destruct (up_root m (length ts) k (t :: ts)) as [t' Hr]; [done|done|done|].
    unfold db_get_tag_tree_root. rewrite E4. unfold value_at. fold m. by rewrite Hr.
  - unfold verify_tag_tree_proof. rewrite length_proof_nodes.
    replace ((64 <? length ts)%nat) with false by (symmetry; apply Nat.ltb_ge; lia).
    apply bool_decide_eq_true. rewrite compute_tag_root_loop. fold m.
    rewrite <- (loop_reaches_root m (index k) (length ts) 0 k (t :: ts)); try done; [|lia].
    f_equal. pose proof (up_head _ _ _ _ _ Hall) as Hc. unfold value_at at 3. rewrite Hc, Et. done.
Qed.
End tags.

(** The tags of a path of three nodes in an empty table. *)
Lemma tag_path_proof_witness :
  let table := mkTable "rewards" 3 in
  let ts := [example_hash 20; example_hash 30] in
  ∃ s' p, set_tags (example_hash 0) table 7 (zip (up 2 (mkKey 2 3)) (example_hash 10 :: ts)) new = (Ok tt, s') ∧
    (db_get_tag_tree_merkle_proof (example_hash 0) table 7 (mkKey 2 3) s').1 = Ok p ∧ parent_tag <$> tag_siblings p = ts ∧
    verify_tag_tree_proof (tag_index p) (tag_leaf p) (tag_siblings p) (tag_root p) = true.
Proof.
  intros table ts. destruct (tag_path_proof (example_hash 0) table 7 (mkKey 2 3) (example_hash 10) ts new)
    as (s' & p & E1 & E2 & _ & _ & _ & E3 & E4).
  - split; cbn; lia.
  - cbn. lia.
  - done.
  - intros k b Hk. by rewrite contents_new, lookup_empty in Hk.
  - exists s', p. split; [exact E1|]. split; [exact E2|]. split; [exact E3|exact E4].
Defined.
