(* ===== verification/StoreTrees.v ===== *)
(** * Merkle trees kept in the core database

    [psy_node_core/src/store/traits/helpers.rs] and
    [parth_core/src/crypto/hash/merkle_update_builder.rs]: proofs read from a table of
    checkpointed nodes, and batches of leaf updates. An update reads the siblings of its
    path through a cache of the nodes not yet written, records the new hashes of the path
    in the cache, and the cache goes to the table whenever it has grown to a batch. The
    database is [CoreStore]; [Hash::default()] and, for the serialized path, the clock and
    the chain id of a fresh context are arguments. *)
From stdpp Require Import prelude list gmap strings.
From Stdlib Require Import ZArith Lia.
From S2P Require Import Prelude MerkleKey MerkleHash MerkleProof Wire Serialize ByteOrder Codecs Qblob CoreStore.

(** ** Recorders of updates *)
Class QMerkleUpdaterWriterSyncMut (U Hash : Type) : Type :=
  mark_updated : U → SimpleMerkleNodeKey → Hash → U.

Class QMerkleUpdaterReaderSync (U Hash : Type) : Type := {
  get_total_node_count : U → Z;
  drain_updates : U → list (SimpleMerkleNodeKey * Hash);
  new_clean : U;
}.

Class QMerkleNodeCacheReader (C Hash : Type) : Type := {
  cache_contains : C → SimpleMerkleNodeKey → bool;
  cache_get : C → SimpleMerkleNodeKey → option Hash;
}.

Section updater.
Context {U Hash : Type} `{MerkleHasher Hash, QMerkleUpdaterWriterSyncMut U Hash}.

(** [for sibling_hash in siblings.iter()] *)
Fixpoint mark_loop (u : U) (current_key : SimpleMerkleNodeKey) (current_hash : Hash) (siblings : list Hash)
    : U * SimpleMerkleNodeKey * Hash :=
  match siblings with
  | [] => (u, current_key, current_hash)
  | sibling_hash :: siblings =>
      mark_loop (mark_updated u current_key current_hash) (parent current_key)
        (two_to_one_swap (Z.land (index current_key) 1 =? 1) current_hash sibling_hash) siblings
  end.

Definition mark_updates_from_siblings (u : U) (key : SimpleMerkleNodeKey) (new_value : Hash)
    (siblings : list Hash) (mark_root : bool) : U * Hash :=
  match siblings with
  | [] => (if mark_root then mark_updated u key new_value else u, new_value)
  | _ =>
      let '(u, current_key, current_hash) := mark_loop u key new_value siblings in
      (if mark_root then mark_updated u current_key current_hash else u, current_hash)
  end.
End updater.

(** *** A log of every update *)
Record SimpleMemoryMerkleUpdater (Hash : Type) : Type := mkUpdater {
  log_updates : list (SimpleMerkleNodeKey * Hash);
  log_count : Z;
}.
#[global] Arguments mkUpdater {_} _ _.
#[global] Arguments log_updates {_} _.
#[global] Arguments log_count {_} _.

Definition log_add_update {Hash} (u : SimpleMemoryMerkleUpdater Hash) (key : SimpleMerkleNodeKey) (new_value : Hash)
    : SimpleMemoryMerkleUpdater Hash :=
  mkUpdater (log_updates u ++ [(key, new_value)]) (wrap 64 (log_count u + 1)).

#[global] Instance log_writer {Hash} : QMerkleUpdaterWriterSyncMut (SimpleMemoryMerkleUpdater Hash) Hash := log_add_update.

#[global] Instance log_reader {Hash} : QMerkleUpdaterReaderSync (SimpleMemoryMerkleUpdater Hash) Hash := {
  get_total_node_count := log_count;
  drain_updates := log_updates;
  new_clean := mkUpdater [] 0;
}.

(** *** The last update of each node

    [count] counts the updates, not the nodes. The hash map hands over its entries in
    some order; that of [map_to_list] stands for it. *)
Record SimpleMemoryMerkleUpdaterUnique (Hash : Type) : Type := mkUnique {
  key_to_update : gmap SimpleMerkleNodeKey Hash;
  unique_count : Z;
}.
#[global] Arguments mkUnique {_} _ _.
#[global] Arguments key_to_update {_} _.
#[global] Arguments unique_count {_} _.

Definition unique_add_update {Hash} (u : SimpleMemoryMerkleUpdaterUnique Hash) (key : SimpleMerkleNodeKey)
    (new_value : Hash) : SimpleMemoryMerkleUpdaterUnique Hash :=
  mkUnique (<[key := new_value]> (key_to_update u)) (wrap 64 (unique_count u + 1)).

#[global] Instance unique_writer {Hash} : QMerkleUpdaterWriterSyncMut (SimpleMemoryMerkleUpdaterUnique Hash) Hash :=
  unique_add_update.

#[global] Instance unique_reader {Hash} : QMerkleUpdaterReaderSync (SimpleMemoryMerkleUpdaterUnique Hash) Hash := {
  get_total_node_count := unique_count;
  drain_updates := λ u, map_to_list (key_to_update u);
  new_clean := mkUnique ∅ 0;
}.

#[global] Instance unique_cache {Hash} : QMerkleNodeCacheReader (SimpleMemoryMerkleUpdaterUnique Hash) Hash := {
  cache_contains := λ u key, bool_decide (is_Some (key_to_update u !! key));
  cache_get := λ u key, key_to_update u !! key;
}.

(** [Vec::pop] *)
Definition pop {A} (l : list A) : option (A * list A) :=
  match reverse l with [] => None | x :: r => Some (x, reverse r) end.

(** [key.parent_at_level(level)] panics below the level. *)
Definition parent_at_level_or_panic (key : SimpleMerkleNodeKey) (level : Z) : db SimpleMerkleNodeKey :=
  lift (unwrap (parent_at_level key level)).

(** ** What the helpers of the three kinds of table share *)
Section shared.
Context {Hash : Type} `{MerkleHasher Hash} (default_hash : Hash).

(** The nodes the cache does not have: their positions and keys. *)
Fixpoint to_fetch {C} `{QMerkleNodeCacheReader C Hash} (cache : C) (i : nat) (keys : list SimpleMerkleNodeKey)
    : list (nat * SimpleMerkleNodeKey) :=
  match keys with
  | [] => []
  | key :: keys =>
      match cache_get cache key with
      | Some _ => to_fetch cache (S i) keys
      | None => (i, key) :: to_fetch cache (S i) keys
      end
  end.

(** [results[indices_to_fetch[i]] = fetched_node]: panics if more nodes come back than were asked for. *)
Fixpoint place (results : list Hash) (indices : list nat) (fetched : list Hash) : outcome (list Hash) :=
  match fetched with
  | [] => Ok results
  | fetched_node :: fetched =>
      match indices with
      | [] => Panic
      | index :: indices => place (<[index := fetched_node]> results) indices fetched
      end
  end.

Definition select_many_with_cache {C} `{QMerkleNodeCacheReader C Hash}
    (select_many : list SimpleMerkleNodeKey → db (list Hash)) (keys : list SimpleMerkleNodeKey) (cache : C)
    : db (list Hash) :=
  let results := (λ key, default default_hash (cache_get cache key)) <$> keys in
  let missing := to_fetch cache 0 keys in
  match missing with
  | [] => mret results
  | _ => fetched ← select_many missing.*2; lift (place results missing.*1 fetched)
  end.

(** The siblings are followed by the node and by the root. *)
Definition siblings_value_root (no_node : string) (results : list Hash) : outcome (list Hash * Hash * Hash) :=
  let* (root, results) := ok_or (pop results) "No root found in merkle proof" in
  let* (value, results) := ok_or (pop results) no_node in
  Ok (results, value, root).

Definition select_merkle_proof (no_node : string) (select_many : list SimpleMerkleNodeKey → db (list Hash))
    (siblings : list SimpleMerkleNodeKey) (key root_key : SimpleMerkleNodeKey) : db (MerkleProofCore Hash) :=
  results ← select_many (siblings ++ [key] ++ [root_key]);
  '(siblings, value, root) ← lift (siblings_value_root no_node results);
  mret (mkProof root value (index key) siblings).

Definition record_update {U} `{QMerkleUpdaterWriterSyncMut U Hash}
    (select_many : list SimpleMerkleNodeKey → db (list Hash)) (siblings : list SimpleMerkleNodeKey)
    (merkle_updater : U) (mark_root : bool) (sub_root_level : Z) (node : SimpleMerkleNodeKey * Hash)
    : db (DeltaMerkleProofCore Hash * U) :=
  let '(key, value) := node in
  root_key ← parent_at_level_or_panic key sub_root_level;
  results ← select_many (siblings ++ [key] ++ [root_key]);
  '(siblings, old_value, old_root) ← lift (siblings_value_root "No node found in merkle proof" results);
  let '(merkle_updater, new_root) := mark_updates_from_siblings merkle_updater key value siblings mark_root in
  mret (mkDelta old_root old_value new_root value (index key) siblings, merkle_updater).

(** [for node in nodes.iter()]: [record] is the update of one node, [flush] the write of a batch. *)
Fixpoint set_leaves_loop
    (record : SimpleMemoryMerkleUpdaterUnique Hash → SimpleMerkleNodeKey * Hash →
              db (DeltaMerkleProofCore Hash * SimpleMemoryMerkleUpdaterUnique Hash))
    (flush : list (SimpleMerkleNodeKey * Hash) → db unit) (sub_root_level max_batch_size : Z)
    (recorder : SimpleMemoryMerkleUpdaterUnique Hash) (nodes : list (SimpleMerkleNodeKey * Hash))
    : db (list (DeltaMerkleProofCore Hash)) :=
  match nodes with
  | [] =>
      _ ← (if 0 <? get_total_node_count recorder then flush (drain_updates recorder) else mret tt);
      mret []
  | node :: nodes =>
      _ ← lift (ensure (sub_root_level <=? level node.1) "Sub root level cannot be greater than node height");
      '(current_dmp, recorder) ← record recorder node;
      recorder ←
        (if max_batch_size <=? get_total_node_count recorder
         then (_ ← flush (drain_updates recorder); mret new_clean)
         else mret recorder);
      delta_merkle_proofs ← set_leaves_loop record flush sub_root_level max_batch_size recorder nodes;
      mret (current_dmp :: delta_merkle_proofs)
  end.

Definition simple_set_leaves
    (record : SimpleMemoryMerkleUpdaterUnique Hash → SimpleMerkleNodeKey * Hash →
              db (DeltaMerkleProofCore Hash * SimpleMemoryMerkleUpdaterUnique Hash))
    (flush : list (SimpleMerkleNodeKey * Hash) → db unit) (sub_root_level max_batch_size : Z)
    (nodes : list (SimpleMerkleNodeKey * Hash)) : db (list (DeltaMerkleProofCore Hash)) :=
  match nodes with
  | [] => mret []
  | _ => set_leaves_loop record flush sub_root_level max_batch_size new_clean nodes
  end.
End shared.

(** ** The helpers *)
Section helpers.
Context {Hash : Type} `{MerkleHasher Hash, !ZeroableHash Hash, !MerkleZeroHasher Hash}.
Context `{QPDSerializable Hash, Q256BitHash Hash} (default_hash : Hash).

Definition db_select_many_zero_id_merkle_node_max_checkpoint_with_cache {C} `{QMerkleNodeCacheReader C Hash}
    (table : InMemoryTableIdentifier) (max_checkpoint_id : Z) (keys : list SimpleMerkleNodeKey) (cache : C)
    : db (list Hash) :=
  select_many_with_cache default_hash
    (db_select_many_zero_id_merkle_nodes_max_checkpoint table max_checkpoint_id) keys cache.

Definition db_select_many_single_id_merkle_node_max_checkpoint_with_cache {C} `{QMerkleNodeCacheReader C Hash}
    (table : InMemoryTableIdentifier) (max_checkpoint_id tree_id tree_height : Z) (keys : list SimpleMerkleNodeKey)
    (cache : C) : db (list Hash) :=
  select_many_with_cache default_hash
    (db_select_many_single_id_merkle_nodes_max_checkpoint table max_checkpoint_id tree_id tree_height) keys cache.

Definition db_select_many_double_id_merkle_node_max_checkpoint_with_cache {C} `{QMerkleNodeCacheReader C Hash}
    (table : InMemoryTableIdentifier) (max_checkpoint_id tree_id tree_sub_id tree_height : Z)
    (keys : list SimpleMerkleNodeKey) (cache : C) : db (list Hash) :=
  select_many_with_cache default_hash
    (db_select_many_double_id_merkle_nodes_max_checkpoint table max_checkpoint_id tree_id tree_sub_id tree_height)
    keys cache.

(** *** Proofs *)
Definition db_helper_select_zero_id_merkle_proof_max_checkpoint (table : InMemoryTableIdentifier)
    (max_checkpoint_id : Z) (key : SimpleMerkleNodeKey) : db (MerkleProofCore Hash) :=
  select_merkle_proof "No node found in merkle proof"
    (db_select_many_zero_id_merkle_nodes_max_checkpoint table max_checkpoint_id)
    (siblings key) key MerkleKey.new_root.

Definition db_helper_select_zero_id_merkle_proof_max_checkpoint_to_root_level (table : InMemoryTableIdentifier)
    (max_checkpoint_id root_level : Z) (key : SimpleMerkleNodeKey) : db (MerkleProofCore Hash) :=
  root_key ← parent_at_level_or_panic key root_level;
  select_merkle_proof "No node found in merkle proof"
    (db_select_many_zero_id_merkle_nodes_max_checkpoint table max_checkpoint_id)
    (siblings_to_level key root_level) key root_key.

Definition db_helper_select_single_id_merkle_proof_max_checkpoint (table : InMemoryTableIdentifier)
    (checkpoint_id tree_id tree_height : Z) (key : SimpleMerkleNodeKey) : db (MerkleProofCore Hash) :=
  select_merkle_proof "No node value found in merkle proof"
    (db_select_many_single_id_merkle_nodes_max_checkpoint table checkpoint_id tree_id tree_height)
    (siblings key) key MerkleKey.new_root.

Definition db_helper_select_double_id_merkle_proof_max_checkpoint (table : InMemoryTableIdentifier)
    (max_checkpoint_id tree_id tree_sub_id tree_height : Z) (key : SimpleMerkleNodeKey) : db (MerkleProofCore Hash) :=
  select_merkle_proof "No node found in merkle proof"
    (db_select_many_double_id_merkle_nodes_max_checkpoint table max_checkpoint_id tree_id tree_sub_id tree_height)
    (siblings key) key MerkleKey.new_root.

(** *** One update *)
Definition db_helper_record_update_zero_id_merkle_node_to_level_dmp {U} `{QMerkleUpdaterWriterSyncMut U Hash}
    (table : InMemoryTableIdentifier) (merkle_updater : U) (mark_root : bool) (checkpoint_id sub_root_level : Z)
    (node : SimpleMerkleNodeKey * Hash) : db (DeltaMerkleProofCore Hash * U) :=
  record_update (db_select_many_zero_id_merkle_nodes_max_checkpoint table checkpoint_id)
    (siblings_to_level node.1 sub_root_level) merkle_updater mark_root sub_root_level node.

Definition db_helper_record_update_single_id_merkle_node_to_level_dmp {U} `{QMerkleUpdaterWriterSyncMut U Hash}
    (table : InMemoryTableIdentifier) (merkle_updater : U) (mark_root : bool)
    (checkpoint_id tree_id tree_height sub_root_level : Z) (node : SimpleMerkleNodeKey * Hash)
    : db (DeltaMerkleProofCore Hash * U) :=
  record_update (db_select_many_single_id_merkle_nodes_max_checkpoint table checkpoint_id tree_id tree_height)
    (siblings_to_level node.1 sub_root_level) merkle_updater mark_root sub_root_level node.

Definition db_helper_record_update_double_id_merkle_node_to_level_dmp {U} `{QMerkleUpdaterWriterSyncMut U Hash}
    (table : InMemoryTableIdentifier) (merkle_updater : U) (mark_root : bool)
    (checkpoint_id tree_id tree_sub_id tree_height sub_root_level : Z) (node : SimpleMerkleNodeKey * Hash)
    : db (DeltaMerkleProofCore Hash * U) :=
  record_update
    (db_select_many_double_id_merkle_nodes_max_checkpoint table checkpoint_id tree_id tree_sub_id tree_height)
    (siblings node.1) merkle_updater mark_root sub_root_level node.

Section cached.
Context {U : Type} `{QMerkleNodeCacheReader U Hash, QMerkleUpdaterWriterSyncMut U Hash}.

Definition db_helper_record_cache_update_zero_id_merkle_node_to_level_dmp (table : InMemoryTableIdentifier)
    (merkle_updater : U) (mark_root : bool) (checkpoint_id sub_root_level : Z) (node : SimpleMerkleNodeKey * Hash)
    : db (DeltaMerkleProofCore Hash * U) :=
  record_update
    (λ keys, db_select_many_zero_id_merkle_node_max_checkpoint_with_cache table checkpoint_id keys merkle_updater)
    (siblings node.1) merkle_updater mark_root sub_root_level node.

Definition db_helper_record_cache_update_single_id_merkle_node_to_level_dmp (table : InMemoryTableIdentifier)
    (merkle_updater : U) (mark_root : bool) (checkpoint_id tree_id tree_height sub_root_level : Z)
    (node : SimpleMerkleNodeKey * Hash) : db (DeltaMerkleProofCore Hash * U) :=
  record_update
    (λ keys, db_select_many_single_id_merkle_node_max_checkpoint_with_cache table checkpoint_id tree_id tree_height
               keys merkle_updater)
    (siblings_to_level node.1 sub_root_level) merkle_updater mark_root sub_root_level node.

Definition db_helper_record_cache_update_double_id_merkle_node_to_level_dmp (table : InMemoryTableIdentifier)
    (merkle_updater : U) (mark_root : bool) (checkpoint_id tree_id tree_sub_id tree_height sub_root_level : Z)
    (node : SimpleMerkleNodeKey * Hash) : db (DeltaMerkleProofCore Hash * U) :=
  record_update
    (λ keys, db_select_many_double_id_merkle_node_max_checkpoint_with_cache table checkpoint_id tree_id tree_sub_id
               tree_height keys merkle_updater)
    (siblings node.1) merkle_updater mark_root sub_root_level node.
End cached.

(** *** Batches of updates *)
Definition db_helper_zero_id_merkle_node_simple_set_leaves (table : InMemoryTableIdentifier)
    (checkpoint_id sub_root_level max_batch_size : Z) (nodes : list (SimpleMerkleNodeKey * Hash))
    : db (list (DeltaMerkleProofCore Hash)) :=
  simple_set_leaves
    (λ recorder, db_helper_record_cache_update_zero_id_merkle_node_to_level_dmp table recorder true checkpoint_id
                   sub_root_level)
    (db_set_zero_id_merkle_nodes_batch table checkpoint_id) sub_root_level max_batch_size nodes.

Definition db_helper_single_id_merkle_node_simple_set_leaves (table : InMemoryTableIdentifier)
    (checkpoint_id tree_id tree_height sub_root_level max_batch_size : Z) (nodes : list (SimpleMerkleNodeKey * Hash))
    : db (list (DeltaMerkleProofCore Hash)) :=
  _ ← lift (ensure (sub_root_level <=? tree_height) "Sub root level cannot be greater than tree height");
  simple_set_leaves
    (λ recorder, db_helper_record_cache_update_single_id_merkle_node_to_level_dmp table recorder true checkpoint_id
                   tree_id tree_height sub_root_level)
    (db_set_single_id_merkle_nodes_batch table checkpoint_id tree_id) sub_root_level max_batch_size nodes.

Definition db_helper_double_id_merkle_node_simple_set_leaves (table : InMemoryTableIdentifier)
    (checkpoint_id tree_id tree_sub_id tree_height sub_root_level max_batch_size : Z)
    (nodes : list (SimpleMerkleNodeKey * Hash)) : db (list (DeltaMerkleProofCore Hash)) :=
  _ ← lift (ensure (sub_root_level <=? tree_height) "Sub root level cannot be greater than tree height");
  simple_set_leaves
    (λ recorder, db_helper_record_cache_update_double_id_merkle_node_to_level_dmp table recorder true checkpoint_id
                   tree_id tree_sub_id tree_height sub_root_level)
    (db_set_double_id_merkle_nodes_batch table checkpoint_id tree_id tree_sub_id) sub_root_level max_batch_size nodes.

(** *** Through the serialized form

    Only the double-id variant serializes: the other two write their batches directly. *)
Definition db_helper_zero_id_merkle_node_simple_set_leaves_fast_serialize (table : InMemoryTableIdentifier)
    (checkpoint_id sub_root_level max_batch_size : Z) (nodes : list (SimpleMerkleNodeKey * Hash))
    : db (list (DeltaMerkleProofCore Hash)) :=
  simple_set_leaves
    (λ recorder, db_helper_record_cache_update_zero_id_merkle_node_to_level_dmp table recorder true checkpoint_id
                   sub_root_level)
    (db_set_zero_id_merkle_nodes_batch table checkpoint_id) sub_root_level max_batch_size nodes.

Definition db_helper_single_id_merkle_node_simple_set_leaves_fast_serialize (table : InMemoryTableIdentifier)
    (checkpoint_id tree_id tree_height sub_root_level max_batch_size : Z) (nodes : list (SimpleMerkleNodeKey * Hash))
    : db (list (DeltaMerkleProofCore Hash)) :=
  _ ← lift (ensure (sub_root_level <=? tree_height) "Sub root level cannot be greater than tree height");
  simple_set_leaves
    (λ recorder, db_helper_record_cache_update_single_id_merkle_node_to_level_dmp table recorder true checkpoint_id
                   tree_id tree_height sub_root_level)
    (db_set_single_id_merkle_nodes_batch table checkpoint_id tree_id) sub_root_level max_batch_size nodes.

Definition flush_fast_serialized (now chain_id : Z) (table : InMemoryTableIdentifier)
    (checkpoint_id tree_id tree_sub_id : Z) (drained : list (SimpleMerkleNodeKey * Hash)) : db unit :=
  let double_nodes := from_simple_merkle_nodes_for_tree_clone tree_id tree_sub_id ((λ '(key, value), mkNode key value) <$> drained) in
  let double_nodes_serialized :=
    generate_double_merkle_node_batch_blob_data_from_ref_default_context now chain_id double_nodes in
  payload ← lift (subslice double_nodes_serialized (Z.to_nat QBLOB_TREE_NODE_BATCH_HEADER_SIZE)
                    (length double_nodes_serialized));
  db_set_double_id_merkle_nodes_from_fast_serialized table checkpoint_id payload.

Definition db_helper_double_id_merkle_node_simple_set_leaves_fast_serialize (now chain_id : Z)
    (table : InMemoryTableIdentifier) (checkpoint_id tree_id tree_sub_id tree_height sub_root_level max_batch_size : Z)
    (nodes : list (SimpleMerkleNodeKey * Hash)) : db (list (DeltaMerkleProofCore Hash)) :=
  _ ← lift (ensure (sub_root_level <=? tree_height) "Sub root level cannot be greater than tree height");
  simple_set_leaves
    (λ recorder, db_helper_record_cache_update_double_id_merkle_node_to_level_dmp table recorder true checkpoint_id
                   tree_id tree_sub_id tree_height sub_root_level)
    (flush_fast_serialized now chain_id table checkpoint_id tree_id tree_sub_id) sub_root_level max_batch_size nodes.
End helpers.
