(* ===== verification/TreeHistory.v ===== *)
(** * Trees in the database keep their history

    Theorems on [StoreTrees]: a table of checkpointed nodes that is written through
    batches of leaf updates holds, at every checkpoint, the Merkle tree of the leaves as of
    that checkpoint. The three kinds of table are treated alike, as the trees of one
    interface. *)
From stdpp Require Import prelude list gmap strings sorting.
From Stdlib Require Import ZArith Lia.
From S2P Require Import Prelude MerkleKey MerkleHash MerkleProof Spiderman MemTree LeafUpdates Wire.
From S2P Require Import Serialize ByteOrder Codecs Qblob BlobFormat CoreStore StoreVersions StoreTrees.

(** ** One tree of a table *)
Inductive tree : Type :=
  | ZeroTree (table : InMemoryTableIdentifier)
  | SingleTree (table : InMemoryTableIdentifier) (tree_id tree_height : Z)
  | DoubleTree (table : InMemoryTableIdentifier) (tree_id tree_sub_id tree_height : Z).

Definition name_of (tr : tree) : string :=
  match tr with ZeroTree t | SingleTree t _ _ | DoubleTree t _ _ _ => to_string t end.

Definition height_of (tr : tree) : Z :=
  match tr with ZeroTree t => tree_height t | SingleTree _ _ h | DoubleTree _ _ _ h => h end.

(** What the keys of the versions of a node share. *)
Definition prefix (tr : tree) (k : SimpleMerkleNodeKey) : list Z :=
  match tr with
  | ZeroTree _ => [level k] ++ be_u64 (index k)
  | SingleTree _ i _ => be_u64 i ++ [level k] ++ be_u64 (index k)
  | DoubleTree _ i j _ => be_u64 i ++ be_u64 j ++ [level k] ++ be_u64 (index k)
  end.

Definition prefix_len (tr : tree) : nat :=
  match tr with ZeroTree _ => 9 | SingleTree _ _ _ => 17 | DoubleTree _ _ _ _ => 25 end.

Definition tree_ok (tr : tree) (h : nat) : Prop :=
  height_of tr = Z.of_nat h ∧ (0 < h ≤ 64)%nat ∧
  match tr with
  | ZeroTree _ => True
  | SingleTree _ i _ => is_uint 64 i
  | DoubleTree _ i j _ => is_uint 64 i ∧ is_uint 64 j
  end.

(** Two trees that share no node: of different tables, or of one table under different ids. *)
Definition apart (tr tr' : tree) : Prop :=
  name_of tr ≠ name_of tr' ∨
  match tr, tr' with
  | SingleTree _ i _, SingleTree _ i' _ => i ≠ i'
  | DoubleTree _ i j _, DoubleTree _ i' j' _ => (i, j) ≠ (i', j')
  | _, _ => False
  end.

Section trees.
Context {Hash : Type} `{EqDecision Hash, MerkleHasher Hash, !ZeroableHash Hash, !MerkleZeroHasher Hash}.
Context `{QPDSerializable Hash, Q256BitHash Hash} (default_hash : Hash).

Definition select_many (tr : tree) (c : Z) : list SimpleMerkleNodeKey → db (list Hash) :=
  match tr with
  | ZeroTree t => db_select_many_zero_id_merkle_nodes_max_checkpoint t c
  | SingleTree t i h => db_select_many_single_id_merkle_nodes_max_checkpoint t c i h
  | DoubleTree t i j h => db_select_many_double_id_merkle_nodes_max_checkpoint t c i j h
  end.

Definition set_batch (tr : tree) (c : Z) : list (SimpleMerkleNodeKey * Hash) → db unit :=
  match tr with
  | ZeroTree t => db_set_zero_id_merkle_nodes_batch t c
  | SingleTree t i _ => db_set_single_id_merkle_nodes_batch t c i
  | DoubleTree t i j _ => db_set_double_id_merkle_nodes_batch t c i j
  end.

(** The proof of a node as of a checkpoint. *)
Definition select_proof (tr : tree) (c : Z) (k : SimpleMerkleNodeKey) : db (MerkleProofCore Hash) :=
  match tr with
  | ZeroTree t => db_helper_select_zero_id_merkle_proof_max_checkpoint t c k
  | SingleTree t i h => db_helper_select_single_id_merkle_proof_max_checkpoint t c i h k
  | DoubleTree t i j h => db_helper_select_double_id_merkle_proof_max_checkpoint t c i j h k
  end.

(** A batch of updates of whole paths. *)
Definition set_leaves (tr : tree) (c max_batch_size : Z) (nodes : list (SimpleMerkleNodeKey * Hash))
    : db (list (DeltaMerkleProofCore Hash)) :=
  match tr with
  | ZeroTree t => db_helper_zero_id_merkle_node_simple_set_leaves default_hash t c 0 max_batch_size nodes
  | SingleTree t i h => db_helper_single_id_merkle_node_simple_set_leaves default_hash t c i h 0 max_batch_size nodes
  | DoubleTree t i j h =>
      db_helper_double_id_merkle_node_simple_set_leaves default_hash t c i j h 0 max_batch_size nodes
  end.

(** The hash a table gives for a node as of a checkpoint. *)
Definition version_key (tr : tree) (k : SimpleMerkleNodeKey) (c : Z) : list Z := prefix tr k ++ be_u64 c.

Definition view (tr : tree) (m : skipmap) (c : Z) (k : SimpleMerkleNodeKey) : Hash :=
  match last (range (version_key tr k 0) (Included (version_key tr k c)) m) with
  | Some (_, b) => from_owned_32bytes b
  | None => zero_node (height_of tr) (level k)
  end.

Definition nodes_ok (tr : tree) (m : skipmap) : Prop :=
  shaped (prefix_len tr) m ∧ ∀ k b, m !! k = Some b → ∃ h : Hash, b = into_owned_32bytes h.

(** Nothing of the tree is newer than [c]. *)
Definition newest (tr : tree) (c : Z) (m : skipmap) : Prop :=
  ∀ k c', key_wf k → c < c' → is_uint 64 c' → m !! version_key tr k c' = None.

(** All that may differ is the nodes of the tree at [c]. *)
Definition frame (tr : tree) (c : Z) (m m' : skipmap) : Prop :=
  ∀ b, (∀ k, key_wf k → b ≠ version_key tr k c) → m' !! b = m !! b.

Context `{!HashLaws Hash, !Hash32 Hash}.

(** ** Keys *)
Lemma length_prefix tr k : length (prefix tr k) = prefix_len tr.
Proof. destruct tr; cbn [prefix]; rewrite ?length_app, ?length_to_be_bytes; done. Qed.

Lemma bytes_version_key tr k c : key_wf k → bytes (version_key tr k c).
Proof.
  intros [Hl _]. assert (bytes [level k]) by (repeat constructor; lia).
  destruct tr; unfold version_key; cbn [prefix]; repeat (apply Forall_app; split); try done; apply bytes_to_be_bytes.
Qed.

Lemma prefix_inj tr k k' : key_wf k → key_wf k' → prefix tr k = prefix tr k' → k = k'.
Proof.
  intros Hk%key_wf_index64 Hk'%key_wf_index64 E.
  assert ([level k] ++ be_u64 (index k) = [level k'] ++ be_u64 (index k')) as E'.
  { destruct tr; cbn [prefix] in E; [exact E|by apply app_inv_head in E|].
    by do 2 apply app_inv_head in E. }
  apply app_inj_1 in E' as [[= El] Ei]; [|done]. apply key_eq; [done|]. by apply be_u64_inj.
Qed.

Lemma version_key_inj tr k c k' c' :
  key_wf k → key_wf k' → is_uint 64 c → is_uint 64 c' → version_key tr k c = version_key tr k' c' → k = k' ∧ c = c'.
Proof.
  intros Hk Hk' Hc Hc' E. apply app_inj_1 in E as [E1 E2]; [|by rewrite !length_prefix].
  split; [by eapply prefix_inj|by apply be_u64_inj].
Qed.

Lemma apart_keys tr tr' h h' k k' c c' :
  tree_ok tr h → tree_ok tr' h' → apart tr tr' → name_of tr = name_of tr' → version_key tr k c ≠ version_key tr' k' c'.
Proof.
  intros (_ & _ & Ht) (_ & _ & Ht') [?|Ha] ?; [done|]. destruct tr, tr'; try done; unfold version_key; cbn [prefix]; intros E.
  - rewrite <- !app_assoc in E. apply (be_app_inj 8) in E as [-> _]; done.
  - rewrite <- !app_assoc in E. apply (be_app_inj 8) in E as [-> E]; [|apply Ht|apply Ht'].
    apply (be_app_inj 8) in E as [-> _]; [done|apply Ht|apply Ht'].
Qed.

(** ** Views *)
Definition hash_of_version (tr : tree) (k : SimpleMerkleNodeKey) (r : option (Z * list Z)) : Hash :=
  match r with Some (_, b) => from_owned_32bytes b | None => zero_node (height_of tr) (level k) end.

Lemma view_latest tr m c k r :
  shaped (prefix_len tr) m → is_uint 64 c →
  latest (λ c', m !! version_key tr k c') c r → view tr m c k = hash_of_version tr k r.
Proof.
  intros Hm Hc Hr. destruct (last_version _ m (prefix tr k) c Hm (length_prefix tr k) Hc) as (r' & Hr' & E).
  unfold view, version_key. rewrite E. rewrite (latest_unique _ _ _ _ Hr Hr'). by destruct r' as [[? ?]|].
Qed.

Lemma has_latest tr m c k :
  shaped (prefix_len tr) m → is_uint 64 c → ∃ r, latest (λ c', m !! version_key tr k c') c r.
Proof.
  intros Hm Hc. destruct (last_version _ m (prefix tr k) c Hm (length_prefix tr k) Hc) as (r & Hr & _). by exists r.
Qed.

(** A read gives the view. *)
Lemma runs_entry tr c k s s' :
  nodes_ok tr (contents s' (name_of tr)) → is_uint 64 c → s ≡ s' →
  runs (entry ← read_table (name_of tr) (λ m, last (range (version_key tr k 0) (Included (version_key tr k c)) m));
        match entry with
        | Some (_, bytes) => lift (from_bytes bytes)
        | None => mret (zero_node (height_of tr) (level k))
        end) s (view tr (contents s' (name_of tr)) c k) s'.
Proof.
  intros [Hm Hb] Hc E. eapply runs_bind; [by apply runs_read|]. intros s1 E1. unfold view.
  pose proof (last_range (version_key tr k 0) (Included (version_key tr k c)) (contents s' (name_of tr))) as Hr.
  destruct (last _) as [[k' b]|]; [|by apply runs_ret]. destruct Hr as (Hk' & _).
  apply Hb in Hk' as [h ->]. apply runs_lift; [|done]. by rewrite hash_from_bytes, hash_of_bytes.
Qed.

Lemma runs_select tr h c keys s s' :
  tree_ok tr h → nodes_ok tr (contents s' (name_of tr)) → is_uint 64 c → s ≡ s' →
  runs (select_many tr c keys) s (view tr (contents s' (name_of tr)) c <$> keys) s'.
Proof.
  intros (Hh & Hpos & _) Hm Hc E.
  destruct tr as [t|t i th|t i j th]; cbn [select_many]; apply runs_mapM; try done; intros k s1 _ E1;
    (eapply runs_bind; [by apply runs_table|]; intros s2 E2).
  - eapply runs_bind; [apply runs_lift; [|exact E2]|].
    { cbn in Hh. rewrite Hh. destruct (Z.eqb_spec (Z.of_nat h) 0); [lia|done]. }
    intros s3 E3. by apply (runs_entry (ZeroTree t)).
  - by apply (runs_entry (SingleTree t i th)).
  - by apply (runs_entry (DoubleTree t i j th)).
Qed.

(** A batch inserts its nodes. *)
Lemma runs_set tr c nodes s s' :
  s ≡ s' →
  runs (set_batch tr c nodes) s tt
    (with_table (name_of tr) (insert_all (node_entries (λ k, version_key tr k c) nodes)) s').
Proof.
  intros E. destruct tr as [t|t i th|t i j th]; [by apply runs_set_zero|by apply runs_set_single|by apply runs_set_double].
Qed.

Lemma lookup_insert_all kvs : ∀ m k v, NoDup kvs.*1 → (k, v) ∈ kvs → insert_all kvs m !! k = Some v.
Proof.
  induction kvs as [|[k' v'] kvs IH]; intros m k v Hnd Hin; [by apply elem_of_nil in Hin|].
  cbn in Hnd. apply NoDup_cons in Hnd as [Hk' Hnd]. cbn. fold (insert_all kvs (<[k' := v']> m)).
  apply elem_of_cons in Hin as [[= -> ->]|Hin]; [|by apply IH].
  rewrite lookup_insert_all_other by done. apply lookup_insert_eq.
Qed.

(** The table after a recorder has been written at [c]. *)
Definition keys_in (u : gmap SimpleMerkleNodeKey Hash) : Prop := ∀ k v, u !! k = Some v → key_wf k.

Definition written (tr : tree) (c : Z) (u : gmap SimpleMerkleNodeKey Hash) (m : skipmap) : skipmap :=
  insert_all (node_entries (λ k, version_key tr k c) (map_to_list u)) m.

Lemma NoDup_version_keys tr c u :
  keys_in u → is_uint 64 c → NoDup (node_entries (λ k, version_key tr k c) (map_to_list u)).*1.
Proof.
  intros Hu Hc. unfold node_entries. rewrite <- list_fmap_compose.
  apply NoDup_fmap_2_strong; [|apply NoDup_map_to_list]. intros [k v] [k' v'] Hk Hk' E.
  apply elem_of_map_to_list in Hk, Hk'. cbn in E.
  apply version_key_inj in E as [-> _]; [by simplify_eq|by eapply Hu|by eapply Hu|done|done].
Qed.

Lemma lookup_written tr c u m k :
  keys_in u → is_uint 64 c → key_wf k →
  written tr c u m !! version_key tr k c =
    match u !! k with Some v => Some (into_owned_32bytes v) | None => m !! version_key tr k c end.
Proof.
  intros Hu Hc Hk. destruct (u !! k) as [v|] eqn:E.
  - apply lookup_insert_all; [by apply NoDup_version_keys|]. apply list_elem_of_fmap. exists (k, v).
    split; [done|]. by apply elem_of_map_to_list.
  - apply lookup_insert_all_other. unfold node_entries. rewrite <- list_fmap_compose.
    intros ([k' v'] & E' & Hin)%list_elem_of_fmap. apply elem_of_map_to_list in Hin. cbn in E'.
    apply version_key_inj in E' as [-> _]; [by simplify_eq|done|by eapply Hu|done|done].
Qed.

Lemma frame_written tr c u m : keys_in u → frame tr c m (written tr c u m).
Proof.
  intros Hu b Hb. apply lookup_insert_all_other. unfold node_entries. rewrite <- list_fmap_compose.
  intros ([k' v'] & -> & Hin)%list_elem_of_fmap. apply elem_of_map_to_list in Hin. by destruct (Hb k'); [eapply Hu|].
Qed.

Lemma insert_all_ind (P : skipmap → Prop) kvs : ∀ m,
  P m → (∀ m k v, (k, v) ∈ kvs → P m → P (<[k := v]> m)) → P (insert_all kvs m).
Proof.
  induction kvs as [|[k v] kvs IH]; intros m Hm HP; [done|]. apply (IH (<[k := v]> m)); [by apply HP; [left|]|].
  intros m' k' v' Hin. apply HP. by right.
Qed.

Lemma nodes_ok_written tr c u m : keys_in u → nodes_ok tr m → nodes_ok tr (written tr c u m).
Proof.
  intros Hu Hm. unfold written. apply insert_all_ind; [done|]. intros m' k b ([k' v] & [= -> ->] & Hin)%list_elem_of_fmap [Hs Hb].
  apply elem_of_map_to_list in Hin. apply Hu in Hin. cbn. split.
  - apply shaped_insert; [|by apply bytes_version_key|done]. unfold version_key. by rewrite length_app, length_prefix, length_to_be_bytes.
  - intros k'' b'' [[_ <-]|[_ ?]]%lookup_insert_Some; [by eexists|eauto].
Qed.

(** ** Views after a write *)
Lemma frame_refl tr c m : frame tr c m m.
Proof. by intros b _. Qed.

Lemma frame_trans tr c m1 m2 m3 : frame tr c m1 m2 → frame tr c m2 m3 → frame tr c m1 m3.
Proof. intros H12 H23 b Hb. by rewrite H23, H12. Qed.

Lemma frame_version tr c m m' k c' :
  frame tr c m m' → is_uint 64 c → is_uint 64 c' → key_wf k → c' ≠ c →
  m' !! version_key tr k c' = m !! version_key tr k c'.
Proof. intros Hf Hc Hc' Hk Hne. apply Hf. by intros k' Hk' [_ ?]%version_key_inj. Qed.

Lemma newest_frame tr c m m' : is_uint 64 c → newest tr c m → frame tr c m m' → newest tr c m'.
Proof. intros Hc Hn Hf k c' Hk Hlt Hc'. rewrite (frame_version tr c m m') by (done || lia). by apply Hn. Qed.

Lemma newest_mono tr c c' m : c ≤ c' → newest tr c m → newest tr c' m.
Proof. intros Hle Hn k c'' Hk Hlt. apply Hn; [done|lia]. Qed.

(** Versions up to [c] decide the view at [c]. *)
Lemma view_ext tr m m' c k :
  nodes_ok tr m → nodes_ok tr m' → is_uint 64 c →
  (∀ c', 0 ≤ c' ≤ c → m' !! version_key tr k c' = m !! version_key tr k c') → view tr m' c k = view tr m c k.
Proof.
  intros [Hm _] [Hm' _] Hc E. destruct (has_latest tr m c k Hm Hc) as [r Hr].
  rewrite (view_latest tr m c k r) by done. apply view_latest; [done|done|].
  by apply (latest_ext (λ c', m !! version_key tr k c')).
Qed.

Lemma view_older tr c m m' c' k :
  nodes_ok tr m → nodes_ok tr m' → frame tr c m m' → is_uint 64 c → is_uint 64 c' → c' < c → key_wf k →
  view tr m' c' k = view tr m c' k.
Proof.
  intros Hm Hm' Hf Hc Hc' Hlt Hk. apply view_ext; [done..|]. intros c'' Hc''. unfold is_uint in *.
  apply (frame_version tr c); [done|unfold is_uint; lia|unfold is_uint; lia|done|lia].
Qed.

Lemma view_newer tr c m c' k :
  nodes_ok tr m → newest tr c m → is_uint 64 c → is_uint 64 c' → c ≤ c' → key_wf k → view tr m c' k = view tr m c k.
Proof.
  intros [Hm _] Hn Hc Hc' Hle Hk. destruct (has_latest tr m c k Hm Hc) as [r Hr].
  rewrite (view_latest tr m c k r) by done. apply view_latest; [done|done|]. unfold is_uint in *.
  assert (Hnone : ∀ c'', c < c'' ≤ c' → m !! version_key tr k c'' = None).
  { intros c'' Hc''. apply Hn; [done|lia|unfold is_uint; lia]. }
  destruct r as [[c1 b]|]; cbn in Hr |- *.
  - destruct Hr as (Hb & Hc1 & Hr). split_and!; [done|lia|lia|]. intros c'' Hc''.
    destruct (decide (c'' ≤ c)); [apply Hr; lia|apply Hnone; lia].
  - intros c'' Hc''. destruct (decide (c'' ≤ c)); [apply Hr; lia|apply Hnone; lia].
Qed.

(** What a table and the recorder in front of it hold together. *)
Definition overlay (tr : tree) (u : gmap SimpleMerkleNodeKey Hash) (m : skipmap) (c : Z) (k : SimpleMerkleNodeKey) : Hash :=
  default (view tr m c k) (u !! k).

Lemma view_written tr c u m k :
  nodes_ok tr m → keys_in u → is_uint 64 c → key_wf k → view tr (written tr c u m) c k = overlay tr u m c k.
Proof.
  intros Hm Hu Hc Hk. pose proof (nodes_ok_written tr c u m Hu Hm) as Hw. unfold overlay.
  pose proof (lookup_written tr c u m k Hu Hc Hk) as Hl. destruct (u !! k) as [v|] eqn:E; cbn [default].
  - rewrite (view_latest tr _ c k (Some (c, into_owned_32bytes v))).
    + cbn. apply hash_of_bytes.
    + apply Hw.
    + done.
    + unfold is_uint in Hc. cbn. split_and!; [done|lia|lia|lia].
  - apply view_ext; [done..|]. intros c' Hc'. destruct (decide (c' = c)) as [->|Hne]; [done|].
    apply (frame_version tr c); [by apply frame_written|done| |done|done]. unfold is_uint in *. lia.
Qed.

(** The tree over [t], in a table and the recorder in front of it. *)
Definition holds_tree (tr : tree) (h : nat) (u : gmap SimpleMerkleNodeKey Hash) (m : skipmap) (c : Z) (t : Z → Hash) : Prop :=
  ∀ k, key_wf k → level k ≤ Z.of_nat h → overlay tr u m c k = spec_node (Z.of_nat h) t k.

(** ** Reading through the cache *)
Lemma place_missing (f : SimpleMerkleNodeKey → Hash) (u : SimpleMemoryMerkleUpdaterUnique Hash) keys : ∀ pre,
  place (pre ++ ((λ k, default default_hash (cache_get u k)) <$> keys))
    (to_fetch u (length pre) keys).*1 (f <$> (to_fetch u (length pre) keys).*2) =
  Ok (pre ++ ((λ k, default (f k) (key_to_update u !! k)) <$> keys)).
Proof.
  induction keys as [|k keys IH]; intros pre; [done|]. cbn [to_fetch fmap list_fmap cache_get unique_cache].
  destruct (key_to_update u !! k) as [v|] eqn:E; cbn [default].
  - specialize (IH (pre ++ [v])). rewrite length_app, Nat.add_1_r, <- !app_assoc in IH. exact IH.
  - cbn [fmap list_fmap place fst snd]. specialize (IH (pre ++ [f k])). rewrite length_app, Nat.add_1_r, <- !app_assoc in IH.
    etrans; [|exact IH]. f_equal. replace (length pre) with (length pre + 0)%nat at 1 by lia. by rewrite insert_app_r.
Qed.

Lemma runs_with_cache (f : SimpleMerkleNodeKey → Hash) sel (u : SimpleMemoryMerkleUpdaterUnique Hash) keys s s' :
  (∀ ks s1, s1 ≡ s' → runs (sel ks) s1 (f <$> ks) s') → s ≡ s' →
  runs (select_many_with_cache default_hash sel keys u) s ((λ k, default (f k) (key_to_update u !! k)) <$> keys) s'.
Proof.
  intros Hsel E. unfold select_many_with_cache. pose proof (place_missing f u keys []) as Hp. cbn [app length] in Hp.
  destruct (to_fetch u 0 keys) as [|x missing]; [|eapply runs_bind; [by apply Hsel|]; intros s1 E1; by apply runs_lift].
  cbn in Hp. injection Hp as Hp. rewrite <- Hp. by apply runs_ret.
Qed.

(** ** One update *)
Lemma push_siblings_wf n : ∀ k, key_wf k → level k = Z.of_nat n →
  Forall (λ k', key_wf k' ∧ level k' ≤ level k) (push_siblings n k).
Proof.
  induction n as [|n IH]; intros k Hk Hl; [constructor|]. cbn [push_siblings]. constructor.
  - split; [apply key_wf_sibling; [done|lia]|done].
  - eapply Forall_impl; [apply IH; [by apply key_wf_parent|rewrite level_parent; lia]|].
    intros k' [? Hle]. rewrite level_parent in Hle by lia. split; [done|lia].
Qed.

Lemma push_siblings_spec (h : nat) t n : ∀ k, key_wf k → level k = Z.of_nat n → (n ≤ h)%nat →
  spec_node (Z.of_nat h) t <$> push_siblings n k = node_siblings h t n (index k).
Proof.
  induction n as [|n IH]; intros k Hk Hl Hn; [done|]. rewrite node_siblings_S by done. cbn [push_siblings fmap list_fmap].
  f_equal; [by apply spec_node_level|]. rewrite IH by (rewrite ?level_parent by lia; (by apply key_wf_parent) || lia).
  f_equal. by rewrite index_parent by lia.
Qed.

(** The recorder gets the hashes of the path below the root. *)
Lemma mark_loop_spec (h : nat) t n : ∀ k (u : SimpleMemoryMerkleUpdaterUnique Hash),
  key_wf k → level k = Z.of_nat n → (n ≤ h)%nat → 0 ≤ unique_count u → unique_count u + Z.of_nat n < 2 ^ 64 →
  ∃ u', mark_loop u k (spec_node (Z.of_nat h) t k) (node_siblings h t n (index k)) = (u', MerkleKey.new_root, tree_node t h 0) ∧
    unique_count u' = unique_count u + Z.of_nat n ∧
    ∀ k', key_to_update u' !! k' =
      if decide (ancestor k' k ∧ 0 < level k') then Some (spec_node (Z.of_nat h) t k') else key_to_update u !! k'.
Proof.
  induction n as [|n IH]; intros k u Hk Hl Hn Hc Hcn.
  - exists u. assert (k = MerkleKey.new_root) as -> by by apply key_wf_level0. split_and!; [|lia|].
    + cbn. do 2 f_equal. unfold spec_node. cbn. f_equal. lia.
    + intros k'. rewrite decide_False; [done|]. intros [[Hle _] ?]. cbn in Hle. lia.
  - rewrite node_siblings_S by done. cbn [mark_loop]. rewrite (spec_node_step h t n k) by done.
    rewrite <- (index_parent k) by lia.
    destruct (IH (parent k) (mark_updated u k (spec_node (Z.of_nat h) t k))) as (u' & E & Hcount & Hu').
    { by apply key_wf_parent. } { rewrite level_parent; lia. } { lia. }
    { cbn. rewrite wrap_small; lia. } { cbn. rewrite wrap_small; lia. }
    exists u'. split_and!; [exact E|rewrite Hcount; cbn; rewrite wrap_small; lia|]. intros k'. rewrite Hu'. cbn.
    destruct (decide (k' = k)) as [->|Hne].
    + rewrite lookup_insert_eq, (decide_True (P := ancestor k k ∧ _)) by (split; [apply ancestor_refl|lia]).
      by case_decide.
    + rewrite lookup_insert_ne by done. destruct (decide (ancestor k' (parent k) ∧ 0 < level k')) as [[Ha ?]|Hna].
      * rewrite decide_True; [done|]. split; [|done]. eapply ancestor_trans; [exact Ha|by apply ancestor_parent].
      * rewrite decide_False; [done|]. intros [Ha ?]. destruct Hna. split; [|done].
        destruct (decide (level k' = level k)); [by destruct Hne; apply ancestor_same_level|].
        apply ancestor_of_parent; [|done]. destruct Ha. lia.
Qed.

Lemma mark_updates_root (u : SimpleMemoryMerkleUpdaterUnique Hash) k v sibs :
  mark_updates_from_siblings u k v sibs true =
    let '(u, k, v) := mark_loop u k v sibs in (mark_updated u k v, v).
Proof. by destruct sibs. Qed.

Lemma mark_updates_spec (h : nat) t k (u : SimpleMemoryMerkleUpdaterUnique Hash) :
  key_wf k → level k = Z.of_nat h → 0 ≤ unique_count u → unique_count u + Z.of_nat h + 1 < 2 ^ 64 →
  ∃ u', mark_updates_from_siblings u k (spec_node (Z.of_nat h) t k) (node_siblings h t h (index k)) true = (u', tree_node t h 0) ∧
    unique_count u' = unique_count u + Z.of_nat h + 1 ∧
    ∀ k', key_wf k' → key_to_update u' !! k' =
      if decide (ancestor k' k) then Some (spec_node (Z.of_nat h) t k') else key_to_update u !! k'.
Proof.
  intros Hk Hl Hc Hcn. destruct (mark_loop_spec h t h k u) as (u' & E & Hcount & Hu'); [done..|lia|].
  rewrite mark_updates_root, E. eexists. split_and!; [done|cbn; rewrite wrap_small; lia|]. intros k' Hk'. cbn.
  destruct (decide (k' = MerkleKey.new_root)) as [->|Hne].
  - rewrite lookup_insert_eq, decide_True by by apply ancestor_root. f_equal. unfold spec_node. cbn. f_equal. lia.
  - rewrite lookup_insert_ne, Hu' by done. assert (0 < level k').
    { destruct Hk' as [? ?]. destruct (decide (level k' = 0)); [|lia]. destruct Hne. by apply key_wf_level0. }
    destruct (decide (ancestor k' k)); [by rewrite decide_True|]. rewrite decide_False; [done|]. by intros [? _].
Qed.

Lemma keys_in_mark (u : SimpleMemoryMerkleUpdaterUnique Hash) k v sibs u' r :
  key_wf k → keys_in (key_to_update u) → mark_updates_from_siblings u k v sibs true = (u', r) → keys_in (key_to_update u').
Proof.
  intros Hk Hu. rewrite mark_updates_root. revert k v u Hk Hu.
  assert (Hmark : ∀ k v (u : SimpleMemoryMerkleUpdaterUnique Hash), key_wf k → keys_in (key_to_update u) →
            keys_in (key_to_update (mark_updated u k v))).
  { intros k v u Hk Hu k' v' E. cbn in E. apply lookup_insert_Some in E as [[<- _]|[_ ?]]; [done|eauto]. }
  induction sibs as [|x sibs IH]; intros k v u Hk Hu; cbn [mark_loop].
  - intros [= <- _]. by apply Hmark.
  - apply IH; [by apply key_wf_parent|by apply Hmark].
Qed.

Lemma pop_app {A} (l : list A) x : pop (l ++ [x]) = Some (x, l).
Proof. unfold pop. rewrite reverse_app. change (reverse [x]) with [x]. cbn [app]. by rewrite reverse_involutive. Qed.

Lemma siblings_value_root_app no_node (sibs : list Hash) v r :
  siblings_value_root no_node (sibs ++ [v] ++ [r]) = Ok (sibs, v, r).
Proof. unfold siblings_value_root. rewrite app_assoc, pop_app. cbn. by rewrite pop_app. Qed.

Definition record (tr : tree) (c : Z) (u : SimpleMemoryMerkleUpdaterUnique Hash) :
    SimpleMerkleNodeKey * Hash → db (DeltaMerkleProofCore Hash * SimpleMemoryMerkleUpdaterUnique Hash) :=
  match tr with
  | ZeroTree t => db_helper_record_cache_update_zero_id_merkle_node_to_level_dmp default_hash t u true c 0
  | SingleTree t i h => db_helper_record_cache_update_single_id_merkle_node_to_level_dmp default_hash t u true c i h 0
  | DoubleTree t i j h => db_helper_record_cache_update_double_id_merkle_node_to_level_dmp default_hash t u true c i j h 0
  end.

Lemma record_eq tr c u node :
  0 < level node.1 →
  record tr c u node =
    record_update (λ keys, select_many_with_cache default_hash (select_many tr c) keys u) (siblings node.1) u true 0 node.
Proof.
  intros Hl. destruct tr; [done| |done]. cbn [record].
  unfold db_helper_record_cache_update_single_id_merkle_node_to_level_dmp, siblings_to_level.
  destruct (Z.leb_spec (level node.1) 0); [lia|]. by rewrite Z.sub_0_r.
Qed.

(** The keys an update or a proof of a leaf reads, and what it finds there. *)
Lemma lookup_keys (h : nat) i (f : SimpleMerkleNodeKey → Hash) t :
  (h ≤ 64)%nat → 0 ≤ i < 2 ^ Z.of_nat h →
  (∀ k, key_wf k → level k ≤ Z.of_nat h → f k = spec_node (Z.of_nat h) t k) →
  let k := mkKey (Z.of_nat h) i in
  f <$> (siblings k ++ [k] ++ [MerkleKey.new_root]) = tree_siblings t h i ++ [t i] ++ [tree_node t h 0].
Proof.
  intros Hh Hi Hf k. assert (Hk : key_wf k) by by apply key_wf_leaf.
  rewrite !fmap_app. cbn [fmap list_fmap]. rewrite (Hf k), (Hf MerkleKey.new_root) by (done || cbn; lia || apply key_wf_root).
  unfold k at 2. rewrite spec_node_leaf. do 2 f_equal.
  - unfold siblings. cbn [level k]. rewrite Nat2Z.id.
    etrans; [|rewrite <- node_siblings_leaf; by apply (push_siblings_spec h t h k)].
    apply list_fmap_ext. intros j k' Hj. pose proof (push_siblings_wf h k Hk eq_refl) as Hall.
    apply list_elem_of_lookup_2 in Hj. apply (proj1 (Forall_forall _ _) Hall) in Hj as [? Hle]. by apply Hf.
  - f_equal. unfold spec_node. cbn. f_equal. lia.
Qed.

Lemma runs_record tr h c u t i v s s' :
  tree_ok tr h → nodes_ok tr (contents s' (name_of tr)) → is_uint 64 c → keys_in (key_to_update u) →
  holds_tree tr h (key_to_update u) (contents s' (name_of tr)) c t → 0 ≤ i < 2 ^ Z.of_nat h →
  0 ≤ unique_count u ≤ 2 ^ 63 → s ≡ s' →
  ∃ u', runs (record tr c u (mkKey (Z.of_nat h) i, v)) s (from_params i (t i) v (tree_siblings t h i), u') s' ∧
    keys_in (key_to_update u') ∧ unique_count u' = unique_count u + Z.of_nat h + 1 ∧
    holds_tree tr h (key_to_update u') (contents s' (name_of tr)) c (update t i v).
Proof.
  intros Htr Hm Hc Hu Ht Hi Hcount E. pose proof Htr as (_ & Hh & _). set (k := mkKey (Z.of_nat h) i).
  assert (Hk : key_wf k) by (apply key_wf_leaf; lia).
  destruct (mark_updates_spec h (update t i v) k u) as (u' & Em & Hcount' & Hu'); [done|done|lia|lia|].
  unfold k in Em at 2. rewrite spec_node_leaf, node_siblings_leaf in Em. cbn [index k] in Em.
  rewrite tree_siblings_update in Em. unfold update in Em at 1. rewrite Z.eqb_refl in Em.
  exists u'. split_and!.
  - rewrite record_eq by (cbn; lia). cbn [record_update fst].
    eapply runs_bind; [apply runs_lift; [|exact E]|].
    { rewrite (parent_at_level_spec k 0) by (done || cbn; lia). cbn. rewrite Z.sub_0_r, Z.div_small by done. done. }
    intros s1 E1. eapply runs_bind.
    { apply (runs_with_cache (view tr (contents s' (name_of tr)) c)); [|done]. intros ks s2 E2. by apply (runs_select tr h). }
    intros s2 E2. change (λ k, default (view tr (contents s' (name_of tr)) c k) (key_to_update u !! k)) with
      (overlay tr (key_to_update u) (contents s' (name_of tr)) c).
    change (mkKey 0 0) with MerkleKey.new_root. fold k.
    rewrite (lookup_keys h i _ t) by (done || lia). eapply runs_bind; [apply runs_lift; [apply siblings_value_root_app|done]|].
    intros s3 E3. cbn beta iota. rewrite Em. unfold from_params. cbn [index k].
    rewrite compute_root_tree, compute_root_update by (done || lia). by apply runs_ret.
  - by eapply keys_in_mark.
  - done.
  - intros k' Hk' Hle. unfold overlay. rewrite Hu' by done. case_decide as Ha; [done|].
    rewrite spec_node_unchanged by done. by apply Ht.
Qed.

(** ** A batch of updates *)
Definition leaf_nodes (h : nat) (us : list (Z * Hash)) : list (SimpleMerkleNodeKey * Hash) :=
  (λ '(i, v), (mkKey (Z.of_nat h) i, v)) <$> us.

(** A table with the recorder in front of it, in the middle of a batch. *)
Record batch_state (tr : tree) (h : nat) (c : Z) (t : Z → Hash) (u : SimpleMemoryMerkleUpdaterUnique Hash) (m : skipmap) : Prop := {
  bs_nodes : nodes_ok tr m;
  bs_keys : keys_in (key_to_update u);
  bs_count : 0 ≤ unique_count u ≤ 2 ^ 63;
  bs_empty : unique_count u = 0 → key_to_update u = ∅;
  bs_tree : holds_tree tr h (key_to_update u) m c t;
}.

(** Writing the recorder. *)
Lemma runs_flush tr h c t u s s' :
  is_uint 64 c → batch_state tr h c t u (contents s' (name_of tr)) → s ≡ s' →
  ∃ m', runs (set_batch tr c (drain_updates u)) s tt (with_table (name_of tr) (λ _, m') s') ∧
    frame tr c (contents s' (name_of tr)) m' ∧ batch_state tr h c t new_clean m'.
Proof.
  intros Hc [Hm Hu Hcount Hempty Ht] E. exists (written tr c (key_to_update u) (contents s' (name_of tr))). split_and!.
  - eapply runs_equiv; [by apply runs_set|]. split; intros name; [|done]. rewrite !contents_with_table. by case_decide.
  - by apply frame_written.
  - split; [by apply nodes_ok_written|by intros ? ?|done|done|].
    intros k Hk Hle. unfold overlay. cbn. rewrite lookup_empty. cbn. rewrite view_written by done. by apply Ht.
Qed.

Lemma with_table_const name m s s1 : s1 ≡ with_table name (λ _, m) s → contents s1 name = m.
Proof. intros ->. apply contents_with_table_eq. Qed.

Lemma with_table_same name s : with_table name (λ _, contents s name) s ≡ s.
Proof. split; intros n; [|done]. rewrite contents_with_table. case_decide; by subst. Qed.

(** After an update the recorder is written if it has grown to a batch. *)
Lemma runs_maybe_flush tr h c max t u s s' :
  is_uint 64 c → max ≤ 2 ^ 63 → 0 < unique_count u < 2 ^ 64 → keys_in (key_to_update u) →
  nodes_ok tr (contents s' (name_of tr)) → holds_tree tr h (key_to_update u) (contents s' (name_of tr)) c t → s ≡ s' →
  ∃ u1 m1,
    runs (if max <=? get_total_node_count u then _ ← set_batch tr c (drain_updates u); mret new_clean else mret u)
      s u1 (with_table (name_of tr) (λ _, m1) s') ∧
    frame tr c (contents s' (name_of tr)) m1 ∧ batch_state tr h c t u1 m1.
Proof.
  intros Hc Hmax Hcount Hu Hm Ht E. cbn [get_total_node_count unique_reader]. destruct (Z.leb_spec max (unique_count u)) as [Hge|Hlt].
  - destruct (runs_flush tr h c t (mkUnique (key_to_update u) 1) s s' Hc) as (m1 & Hf1 & Hframe & Hb1); [split; cbn; done || lia|done|].
    exists new_clean, m1. split_and!; [|done|done]. eapply runs_bind; [exact Hf1|]. intros s2 E2. by apply runs_ret.
  - exists u, (contents s' (name_of tr)). split_and!; [apply runs_ret; by rewrite with_table_same|apply frame_refl|].
    split; [done|done|lia|lia|done].
Qed.

Lemma runs_set_leaves_loop tr h c max us : tree_ok tr h → is_uint 64 c → max ≤ 2 ^ 63 → ∀ t u s s',
  batch_state tr h c t u (contents s' (name_of tr)) → updates_in h us → s ≡ s' →
  ∃ m', runs (set_leaves_loop (record tr c) (set_batch tr c) 0 max u (leaf_nodes h us)) s (deltas h t us)
          (with_table (name_of tr) (λ _, m') s') ∧
    frame tr c (contents s' (name_of tr)) m' ∧ nodes_ok tr m' ∧
    ∀ k, key_wf k → level k ≤ Z.of_nat h → view tr m' c k = spec_node (Z.of_nat h) (apply_updates t us) k.
Proof.
  intros Htr Hc Hmax. pose proof Htr as (_ & Hh & _). induction us as [|[i v] us IH]; intros t u s s' Hb Hus E.
  - cbn [leaf_nodes fmap list_fmap set_leaves_loop deltas apply_updates foldl]. cbn [get_total_node_count unique_reader].
    destruct (Z.ltb_spec 0 (unique_count u)) as [Hpos|Hz].
    + destruct (runs_flush tr h c t u s s' Hc Hb E) as (m' & Hrun & Hf & [Hm _ _ _ Ht]). exists m'. split_and!; [|done|done|done].
      eapply runs_bind; [exact Hrun|]. intros s1 E1. by apply runs_ret.
    + destruct Hb as [Hm Hu Hcount Hempty Ht]. exists (contents s' (name_of tr)). split_and!; [|apply frame_refl|done|].
      * eapply runs_bind; [by apply runs_ret|]. intros s1 E1. apply runs_ret. by rewrite with_table_same.
      * intros k Hk Hle. rewrite <- Ht by done. unfold overlay. rewrite Hempty by lia. by rewrite lookup_empty.
  - apply Forall_cons in Hus as [Hi Hus]. cbn [fst] in Hi. destruct Hb as [Hm Hu Hcount Hempty Ht].
    destruct (runs_record tr h c u t i v s s') as (u' & (s1 & Erun & E1) & Hu' & Hcount' & Ht'); [done..|].
    destruct (runs_maybe_flush tr h c max (update t i v) u' s1 s') as (u1 & m1 & (s2 & Erun1 & E2) & Hf1 & Hb1); [done|done|lia|done..|].
    destruct (IH (update t i v) u1 s2 (with_table (name_of tr) (λ _, m1) s')) as (m2 & (s3 & Erun2 & E3) & Hf2 & Hm2 & Ht2); [|done|done|].
    { by rewrite contents_with_table_eq. }
    rewrite contents_with_table_eq in Hf2. exists m2. split_and!; [|by eapply frame_trans|done|exact Ht2].
    exists s3. split; [|rewrite E3, with_table_compose; done]. cbn [leaf_nodes fmap list_fmap set_leaves_loop deltas fst level].
    rewrite (bind_run _ _ s tt s) by (destruct (Z.leb_spec 0 (Z.of_nat h)); [done|lia]).
    rewrite (bind_run _ _ _ _ _ Erun), (bind_run _ _ _ _ _ Erun1). by rewrite (bind_run _ _ _ _ _ Erun2).
Qed.

Lemma runs_set_leaves tr h c max us t s :
  tree_ok tr h → is_uint 64 c → max ≤ 2 ^ 63 → nodes_ok tr (contents s (name_of tr)) →
  (∀ k, key_wf k → level k ≤ Z.of_nat h → view tr (contents s (name_of tr)) c k = spec_node (Z.of_nat h) t k) →
  updates_in h us →
  ∃ m', runs (set_leaves tr c max (leaf_nodes h us)) s (deltas h t us) (with_table (name_of tr) (λ _, m') s) ∧
    frame tr c (contents s (name_of tr)) m' ∧ nodes_ok tr m' ∧
    ∀ k, key_wf k → level k ≤ Z.of_nat h → view tr m' c k = spec_node (Z.of_nat h) (apply_updates t us) k.
Proof.
  intros Htr Hc Hmax Hm Ht Hus.
  assert (Hset : ∃ m', runs (simple_set_leaves (record tr c) (set_batch tr c) 0 max (leaf_nodes h us)) s (deltas h t us)
            (with_table (name_of tr) (λ _, m') s) ∧
          frame tr c (contents s (name_of tr)) m' ∧ nodes_ok tr m' ∧
          ∀ k, key_wf k → level k ≤ Z.of_nat h → view tr m' c k = spec_node (Z.of_nat h) (apply_updates t us) k).
  { destruct us as [|u us].
    - exists (contents s (name_of tr)). split_and!; [apply runs_ret; by rewrite with_table_same|apply frame_refl|done|done].
    - by apply runs_set_leaves_loop. }
  destruct Htr as (Hh & _ & _). destruct tr; [exact Hset|..]; destruct Hset as (m' & (s1 & Erun & E1) & Hrest); exists m';
    (split; [|exact Hrest]); exists s1; (split; [|done]); cbn in Hh; subst; cbn [set_leaves];
    [unfold db_helper_single_id_merkle_node_simple_set_leaves|unfold db_helper_double_id_merkle_node_simple_set_leaves];
    (rewrite (bind_run _ _ s tt s); [exact Erun|]); destruct (Z.leb_spec 0 (Z.of_nat h)); done || lia.
Qed.

(** ** Histories

    Batches of updates, each at its checkpoint, the checkpoints not decreasing. *)
#[local] Abbreviation history := (list (Z * list (Z * Hash))).

(** The leaves as of a checkpoint. *)
Definition tree_at (bs : history) (c : Z) : Z → Hash :=
  apply_updates (λ _, get_zero_value) (concat (snd <$> filter (λ b, b.1 ≤ c) bs)).

(** The proofs of the batches. *)
Fixpoint history_deltas (h : nat) (t : Z → Hash) (bs : history) : list (list (DeltaMerkleProofCore Hash)) :=
  match bs with
  | [] => []
  | (_, us) :: bs => deltas h t us :: history_deltas h (apply_updates t us) bs
  end.

Definition batch_ok (h : nat) (b : Z * list (Z * Hash)) : Prop := is_uint 64 b.1 ∧ updates_in h b.2.

(** The table holds the tree at every checkpoint, and nothing after the last one. *)
Record history_state (tr : tree) (h : nat) (last : Z) (T : Z → Z → Hash) (m : skipmap) : Prop := {
  hs_nodes : nodes_ok tr m;
  hs_newest : newest tr last m;
  hs_tree : ∀ c k, is_uint 64 c → key_wf k → level k ≤ Z.of_nat h → view tr m c k = spec_node (Z.of_nat h) (T c) k;
}.

Lemma tree_at_step bs c us c' :
  tree_at (bs ++ [(c, us)]) c' = if decide (c ≤ c') then apply_updates (tree_at bs c') us else tree_at bs c'.
Proof.
  unfold tree_at. rewrite filter_app, fmap_app, concat_app, apply_updates_app. rewrite filter_cons, filter_nil. cbn [fst].
  case_decide; [|done]. cbn. by rewrite app_nil_r.
Qed.

Lemma tree_at_last bs c c' : Forall (λ b, b.1 ≤ c) bs → c ≤ c' → tree_at bs c' = tree_at bs c.
Proof.
  intros Hb Hle. unfold tree_at. do 3 f_equal. induction Hb as [|b bs Hb _ IH]; [done|].
  rewrite !filter_cons, IH. rewrite !decide_True by lia. done.
Qed.

(** One more batch. *)
Lemma history_step tr h max bs c us s :
  tree_ok tr h → max ≤ 2 ^ 63 → batch_ok h (c, us) → Forall (λ b, b.1 ≤ c) bs →
  history_state tr h c (tree_at bs) (contents s (name_of tr)) →
  ∃ m', runs (set_leaves tr c max (leaf_nodes h us)) s (deltas h (tree_at bs c) us) (with_table (name_of tr) (λ _, m') s) ∧
    frame tr c (contents s (name_of tr)) m' ∧ history_state tr h c (tree_at (bs ++ [(c, us)])) m'.
Proof.
  intros Htr Hmax [Hc Hus] Hbs [Hm Hn Ht]. cbn in Hc, Hus.
  destruct (runs_set_leaves tr h c max us (tree_at bs c) s) as (m' & Hrun & Hf & Hm' & Ht'); [done..|by intros; apply Ht|done|].
  exists m'. split_and!; [done|done|]. pose proof (newest_frame _ _ _ _ Hc Hn Hf) as Hn'. split; [done|done|].
  intros c' k Hc' Hk Hle. rewrite tree_at_step. case_decide as Hcc.
  - rewrite (view_newer tr c m' c') by done. rewrite (tree_at_last bs c c') by done. by apply Ht'.
  - rewrite (view_older tr c (contents s (name_of tr)) m') by (done || lia). by apply Ht.
Qed.

Lemma history_state_later tr h c c' T m : c ≤ c' → history_state tr h c T m → history_state tr h c' T m.
Proof. intros Hle [Hm Hn Ht]. split; [done|by eapply newest_mono|done]. Qed.

(** What writes to [tr] leave alone. *)
Definition untouched (tr : tree) (s s' : InMemoryCoreStore) : Prop :=
  ∀ name b, (name = name_of tr → ∀ k c, key_wf k → b ≠ version_key tr k c) →
    contents s' name !! b = contents s name !! b.

Lemma history_runs tr h max bs : tree_ok tr h → max ≤ 2 ^ 63 → ∀ past c s s',
  Forall (batch_ok h) bs → Sorted Z.le (c :: bs.*1) → Forall (λ b, b.1 ≤ c) past → s ≡ s' →
  history_state tr h c (tree_at past) (contents s' (name_of tr)) →
  ∃ s1 c1, runs (mapM (λ b, set_leaves tr b.1 max (leaf_nodes h b.2)) bs) s (history_deltas h (tree_at past c) bs) s1 ∧
    history_state tr h c1 (tree_at (past ++ bs)) (contents s1 (name_of tr)) ∧ untouched tr s' s1.
Proof.
  intros Htr Hmax. induction bs as [|[c1 us] bs IH]; intros past c s s' Hok Hsort Hpast E Hst.
  - exists s', c. rewrite app_nil_r. split_and!; [by apply runs_ret|done|done].
  - apply Forall_cons in Hok as [Hb Hok]. apply Sorted_inv in Hsort as [Hsort Hle%HdRel_inv]. cbn in Hle.
    assert (Hpast' : Forall (λ b, b.1 ≤ c1) past) by (eapply Forall_impl; [exact Hpast|cbn; lia]).
    destruct (history_step tr h max past c1 us s) as (m1 & (s2 & Erun & E2) & Hf & Hst1); [done..| |].
    { rewrite (proj1 E). by eapply history_state_later. }
    destruct (IH (past ++ [(c1, us)]) c1 s2 s2) as (s3 & c3 & (s4 & Erun' & E4) & Hst3 & Hun);
      [done|done|apply Forall_app; split; [done|by repeat constructor]|done|by rewrite E2, contents_with_table_eq|].
    exists s3, c3. rewrite <- app_assoc in Hst3. split_and!; [|done|].
    + exists s4. split; [|done]. cbn [mapM fst snd]. rewrite (bind_run _ _ _ _ _ Erun), (bind_run _ _ _ _ _ Erun').
      cbn [history_deltas]. rewrite tree_at_step, decide_True by lia. rewrite (tree_at_last past c c1) by done. done.
    + intros name b Hb'. rewrite Hun by done. rewrite (proj1 E2), contents_with_table. case_decide as Hn.
      * subst. rewrite Hf by (intros; by apply Hb'). by rewrite (proj1 E).
      * by rewrite (proj1 E).
Qed.

(** ** Proofs *)
Definition leaf_proof (h : nat) (t : Z → Hash) (i : Z) : MerkleProofCore Hash :=
  mkProof (tree_node t h 0) (t i) i (tree_siblings t h i).

Lemma select_proof_eq tr c k :
  ∃ no_node, select_proof tr c k = select_merkle_proof no_node (select_many tr c) (siblings k) k MerkleKey.new_root.
Proof. destruct tr; by eexists. Qed.

Lemma runs_select_proof tr h c t i s :
  tree_ok tr h → nodes_ok tr (contents s (name_of tr)) → is_uint 64 c → 0 ≤ i < 2 ^ Z.of_nat h →
  (∀ k, key_wf k → level k ≤ Z.of_nat h → view tr (contents s (name_of tr)) c k = spec_node (Z.of_nat h) t k) →
  runs (select_proof tr c (mkKey (Z.of_nat h) i)) s (leaf_proof h t i) s.
Proof.
  intros Htr Hm Hc Hi Ht. destruct (select_proof_eq tr c (mkKey (Z.of_nat h) i)) as [no_node ->].
  pose proof Htr as (_ & Hh & _). eapply runs_bind; [by apply (runs_select tr h)|]. intros s1 E1.
  rewrite (lookup_keys h i _ t) by (done || lia). eapply runs_bind; [apply runs_lift; [apply siblings_value_root_app|done]|].
  intros s2 E2. by apply runs_ret.
Qed.

(** A proof depends on the views of its keys only. *)
Lemma select_proof_views tr h c i s s' :
  tree_ok tr h → nodes_ok tr (contents s (name_of tr)) → nodes_ok tr (contents s' (name_of tr)) → is_uint 64 c →
  0 ≤ i < 2 ^ Z.of_nat h →
  (∀ k, key_wf k → view tr (contents s' (name_of tr)) c k = view tr (contents s (name_of tr)) c k) →
  (select_proof tr c (mkKey (Z.of_nat h) i) s').1 = (select_proof tr c (mkKey (Z.of_nat h) i) s).1.
Proof.
  intros Htr Hm Hm' Hc Hi Hv. pose proof Htr as (_ & Hh & _). set (k := mkKey (Z.of_nat h) i).
  assert (Hk : key_wf k) by (apply key_wf_leaf; lia).
  destruct (select_proof_eq tr c k) as [no_node ->]. unfold select_merkle_proof.
  set (ks := siblings k ++ [k] ++ [MerkleKey.new_root]).
  destruct (runs_select tr h c ks s s) as (s1 & E1 & _); [done..|].
  destruct (runs_select tr h c ks s' s') as (s2 & E2 & _); [done..|].
  rewrite (bind_run _ _ _ _ _ E1), (bind_run _ _ _ _ _ E2).
  replace (view tr (contents s' (name_of tr)) c <$> ks) with (view tr (contents s (name_of tr)) c <$> ks).
  { unfold mbind, stateful_bind, lift. by destruct (siblings_value_root _ _) as [[[? ?] ?]| | |]. }
  apply list_fmap_ext. intros j k' Hj. symmetry. apply Hv. apply list_elem_of_lookup_2 in Hj.
  apply elem_of_app in Hj as [Hj|[Hj|Hj]%elem_of_app].
  - unfold siblings in Hj. pose proof (push_siblings_wf (Z.to_nat (level k)) k Hk ltac:(cbn; lia)) as Hall.
    by apply (proj1 (Forall_forall _ _) Hall) in Hj as [? _].
  - by apply list_elem_of_singleton in Hj as ->.
  - apply list_elem_of_singleton in Hj as ->. apply key_wf_root.
Qed.

Lemma fresh_history tr h m :
  tree_ok tr h → nodes_ok tr m → (∀ k c, key_wf k → is_uint 64 c → m !! version_key tr k c = None) →
  history_state tr h 0 (tree_at []) m.
Proof.
  intros (Hh & Hpos & _) Hm Hnone. split; [done|intros k c Hk _ Hc; by apply Hnone|]. intros c k Hc Hk Hle.
  rewrite (view_latest tr m c k None); [|by destruct Hm|done|].
  - cbn. unfold spec_node, tree_at, zero_node. cbn. rewrite Hh. destruct Hk as [? ?]. rewrite wrap_small by lia.
    symmetry. by apply tree_node_zero.
  - intros c' Hc'. apply Hnone; [done|]. unfold is_uint in *. lia.
Qed.

Lemma untouched_views tr tr' h h' s s' c k :
  tree_ok tr h → tree_ok tr' h' → apart tr tr' → untouched tr s s' → key_wf k → is_uint 64 c →
  nodes_ok tr (contents s' (name_of tr)) → nodes_ok tr' (contents s (name_of tr')) →
  nodes_ok tr' (contents s' (name_of tr')) ∧
  view tr' (contents s' (name_of tr')) c k = view tr' (contents s (name_of tr')) c k.
Proof.
  intros Htr Htr' Ha Hun Hk Hc Hm Hm'. destruct (decide (name_of tr = name_of tr')) as [En|Hne].
  - assert (Hok : nodes_ok tr' (contents s' (name_of tr'))).
    { rewrite <- En. destruct Ha as [?|Ha]; [done|]. by destruct tr, tr'. }
    split; [done|]. apply view_ext; [done..|]. intros c' Hc'. apply Hun. intros _ k' c'' Hk'.
    symmetry. by apply (apart_keys tr tr' h h').
  - assert (contents s' (name_of tr') = contents s (name_of tr')) as E; [|by rewrite E].
    apply map_eq. intros b. apply Hun. intros E. by rewrite E in Hne.
Qed.

Lemma history_deltas_verify h bs : (h ≤ 64)%nat → Forall (batch_ok h) bs → ∀ t,
  Forall (λ p, verify_delta p = true) (concat (history_deltas h t bs)).
Proof.
  intros Hh. induction 1 as [|[c us] bs [_ Hus] Hbs IH]; intros t; cbn [history_deltas concat]; [constructor|].
  apply Forall_app. split; [|by apply IH]. apply Forall_lookup. intros j p Hj.
  by destruct (deltas_spec h us Hh t Hus j p Hj) as [? _].
Qed.

(** C1: a Merkle tree kept in the store has its whole history: after batches of leaf
    updates at non-decreasing checkpoints, each of which returns the delta proofs of its
    updates, the proof of a leaf at any checkpoint is that of the tree after the batches
    up to that checkpoint, and it verifies; other trees of the store are untouched. *)
Theorem tree_history (tr : tree) (h : nat) (max : Z) (bs : history) (s : InMemoryCoreStore) :
  tree_ok tr h → max ≤ 2 ^ 63 → Forall (batch_ok h) bs → Sorted Z.le bs.*1 → nodes_ok tr (contents s (name_of tr)) →
  (∀ k c, key_wf k → is_uint 64 c → contents s (name_of tr) !! version_key tr k c = None) →
  ∃ s', mapM (λ b, set_leaves tr b.1 max (leaf_nodes h b.2)) bs s = (Ok (history_deltas h (λ _, get_zero_value) bs), s') ∧
    Forall (λ p, verify_delta p = true) (concat (history_deltas h (λ _, get_zero_value) bs)) ∧
    (∀ c i, is_uint 64 c → 0 ≤ i < 2 ^ Z.of_nat h →
       (select_proof tr c (mkKey (Z.of_nat h) i) s').1 = Ok (leaf_proof h (tree_at bs c) i) ∧
       verify (leaf_proof h (tree_at bs c) i) = true) ∧
    (∀ tr' h' c i, tree_ok tr' h' → apart tr tr' → nodes_ok tr' (contents s (name_of tr')) → is_uint 64 c →
       0 ≤ i < 2 ^ Z.of_nat h' →
       (select_proof tr' c (mkKey (Z.of_nat h') i) s').1 = (select_proof tr' c (mkKey (Z.of_nat h') i) s).1).
Proof.
  intros Htr Hmax Hbs Hsort Hm Hnone. pose proof Htr as (_ & Hh & _).
  destruct (history_runs tr h max bs Htr Hmax [] 0 s s) as (s1 & c1 & (s' & Erun & E') & [Hm' _ Ht] & Hun);
    [done| |constructor|done|by apply fresh_history|].
  { constructor; [done|]. destruct Hbs as [|b bs [Hb _] _]; constructor. unfold is_uint in Hb. lia. }
  rewrite <- (proj1 E') in Hm', Ht. assert (Hun' : untouched tr s s') by (intros n b Hb; rewrite (proj1 E'); by apply Hun).
  exists s'. split_and!; [exact Erun|apply history_deltas_verify; [lia|done]|..].
  - intros c i Hc Hi. split.
    + destruct (runs_select_proof tr h c (tree_at bs c) i s') as (s2 & E2 & _); [done..|by intros; apply Ht|]. by rewrite E2.
    + apply verify_spec. cbn. rewrite length_tree_siblings. split; [lia|]. apply compute_root_tree; [lia|done].
  - intros tr' h' c i Htr' Ha Hm2 Hc Hi.
    assert (Hv : ∀ k, key_wf k → nodes_ok tr' (contents s' (name_of tr')) ∧
              view tr' (contents s' (name_of tr')) c k = view tr' (contents s (name_of tr')) c k).
    { intros k Hk. by apply (untouched_views tr tr' h h'). }
    apply select_proof_views; [done|done|by apply (Hv MerkleKey.new_root), key_wf_root|done|done|]. intros k Hk. by apply Hv.
Qed.
End trees.
