(* ===== verification/TreeWrites.v ===== *)
(** * Serialized nodes in the database

    Nodes that travel as bytes are the nodes that are stored: the batches that go through
    the serialized form do what the direct ones do, the order in which a recorder hands
    over its nodes does not matter, and a store that takes the blob of a recorder follows
    the tree the recorder was given. *)
From stdpp Require Import prelude list gmap strings sorting.
From Stdlib Require Import ZArith Lia.
From S2P Require Import Prelude MerkleKey MerkleHash MerkleProof Spiderman MemTree LeafUpdates Wire Serialize.
From S2P Require Import ByteOrder Codecs RealmFinalize Qblob BlobFormat BlobRecorder CoreStore StoreVersions StoreTrees TreeHistory.

(** ** Batches as finite maps *)
Lemma insert_all_perm kvs kvs' m : NoDup kvs.*1 → kvs ≡ₚ kvs' → insert_all kvs m = insert_all kvs' m.
Proof.
  intros Hnd Hp. assert (Hnd' : NoDup kvs'.*1) by by rewrite <- Hp. apply map_eq. intros k.
  destruct (decide (k ∈ kvs.*1)) as [Hk|Hk].
  - pose proof Hk as ([k' v] & -> & Hin)%list_elem_of_fmap. cbn.
    rewrite (lookup_insert_all kvs m k' v), (lookup_insert_all kvs' m k' v) by (done || by rewrite <- Hp). done.
  - rewrite !lookup_insert_all_other by (done || by rewrite <- Hp). done.
Qed.

(** ** Computations that cannot be told apart

    Run on equivalent stores they have the same outcome and leave equivalent stores. *)
Definition same {A} (m1 m2 : db A) : Prop := ∀ s1 s2, s1 ≡ s2 → (m1 s1).1 = (m2 s2).1 ∧ (m1 s1).2 ≡ (m2 s2).2.

Lemma same_bind {A B} (m1 m2 : db A) (k1 k2 : A → db B) :
  same m1 m2 → (∀ s a s', m1 s = (Ok a, s') → same (k1 a) (k2 a)) → same (m1 ≫= k1) (m2 ≫= k2).
Proof.
  intros Hm Hk s1 s2 E. specialize (Hm s1 s2 E). unfold mbind, stateful_bind.
  destruct (m1 s1) as [o1 t1] eqn:E1, (m2 s2) as [o2 t2]. cbn in Hm. destruct Hm as [<- Ht].
  destruct o1 as [a| | |]; [by apply (Hk s1 a t1)|done..].
Qed.

Lemma same_ret {A} (a : A) : same (mret a) (mret a).
Proof. by intros s1 s2 E. Qed.

Lemma same_lift {A} (o : outcome A) : same (lift o) (lift o).
Proof. by intros s1 s2 E. Qed.

Lemma same_table (name : string) : same (get_or_create_table name) (get_or_create_table name).
Proof. intros s1 s2 E. split; [done|]. cbn. by rewrite E. Qed.

Lemma same_read {A} (name : string) (f : skipmap → A) : same (read_table name f) (read_table name f).
Proof. intros s1 s2 E. split; [|done]. cbn. by rewrite (proj1 E). Qed.

Lemma same_mapM {A B} (f g : A → db B) l : (∀ a, same (f a) (g a)) → same (mapM f l) (mapM g l).
Proof.
  intros Hf. induction l as [|a l IH]; [apply same_ret|]. cbn [mapM].
  apply same_bind; [done|]. intros _ b _ _. apply same_bind; [done|]. intros _ bs _ _. apply same_ret.
Qed.

Lemma same_runs {A} (f g : db A) a F :
  (∀ s s', s ≡ s' → runs f s a (F s')) → (∀ s s', s ≡ s' → runs g s a (F s')) → same f g.
Proof.
  intros Hf Hg s1 s2 E. destruct (Hf s1 s2 E) as (t1 & E1 & H1), (Hg s2 s2 ltac:(done)) as (t2 & E2 & H2).
  rewrite E1, E2. split; [done|]. cbn. by rewrite H1, H2.
Qed.

Section writes.
Context {Hash : Type} `{EqDecision Hash, MerkleHasher Hash, !ZeroableHash Hash, !MerkleZeroHasher Hash}.
Context `{QPDSerializable Hash, Q256BitHash Hash, !HashLaws Hash, !Hash32 Hash} (default_hash : Hash).

(** Whatever the order of the nodes. *)
Lemma written_nodes tr c (nodes : list (SimpleMerkleNodeKey * Hash)) m :
  NoDup nodes.*1 → Forall key_wf nodes.*1 → is_uint 64 c →
  insert_all (node_entries (λ k, version_key tr k c) nodes) m = written tr c (list_to_map nodes) m.
Proof.
  intros Hnd Hwf Hc. unfold written. symmetry. apply insert_all_perm.
  - apply NoDup_version_keys; [|done]. intros k v Hk%elem_of_list_to_map_2. apply (proj1 (Forall_forall _ _) Hwf).
    apply list_elem_of_fmap. by exists (k, v).
  - unfold node_entries. by rewrite map_to_list_to_map.
Qed.

(** ** Nodes stored from their bytes *)
Definition double_entry (c : Z) (n : QMerkleStoreDoubleIdNode Hash) : list Z * list Z :=
  (key_merkle_double_id (dik_tree_id (dn_key n)) (dik_tree_sub_id (dn_key n))
     (mkKey (dik_level (dn_key n)) (dik_index (dn_key n))) c, into_owned_32bytes (dn_value n)).

Lemma runs_fast_double table c (nodes : list (QMerkleStoreDoubleIdNode Hash)) s s' :
  Forall double_node_ok nodes → s ≡ s' →
  runs (db_set_double_id_merkle_nodes_from_fast_serialized (Hash := Hash) table c (payload nodes)) s tt
    (with_table (to_string table) (insert_all (double_entry c <$> nodes)) s').
Proof.
  intros Hn E. eapply runs_bind; [by apply runs_table|]. intros s1 E1.
  destruct (chunks_rows QMS_FAST_SERIALIZER_DOUBLE_ID_NODE_SIZE (ffs_to_bytes <$> nodes)) as [Hch _]; [done| |].
  { apply Forall_fmap. eapply Forall_impl; [exact Hn|]. intros n Hok. by destruct (ffs_array n Hok). }
  unfold payload. rewrite Hch, for_each_fmap.
  apply (runs_insert_each _ _ (λ n, (double_entry c n).1) (λ n, (double_entry c n).2)); [done|].
  intros n s2 s3 Hin E2. apply (proj1 (Forall_forall _ _) Hn) in Hin. pose proof (ffs_roundtrip n Hin) as Hr.
  generalize dependent (ffs_to_bytes n). intros b Hr. destruct n as [[i j l x] v].
  cbn [ffs_from_owned_bytes double_node_ffs] in Hr. injection Hr as Ei Ej El Ex Ev.
  unfold slice in Ei, Ej, El, Ex, Ev. cbn [Nat.sub] in Ei, Ej, El, Ex, Ev.
  rewrite drop_0 in Ei. rewrite Ei, Ej, El, Ex, Ev. eapply runs_bind; [apply runs_lift; [|exact E2]|].
  { unfold unwrap_bytes. by rewrite hash_to_bytes. }
  intros s4 E4. by apply runs_insert.
Qed.

(** The three steps of a flush through bytes are one direct write. *)
Lemma runs_flush_fast now chain_id table c i j h nodes s s' :
  is_uint 64 i → is_uint 64 j → Forall key_bytes_ok nodes.*1 → s ≡ s' →
  runs (flush_fast_serialized (Hash := Hash) now chain_id table c i j nodes) s tt
    (with_table (to_string table) (insert_all (node_entries (λ k, version_key (DoubleTree table i j h) k c) nodes)) s').
Proof.
  intros Hi Hj Hk E. unfold flush_fast_serialized. set (dn := from_simple_merkle_nodes_for_tree_clone _ _ _).
  assert (Hdn : Forall double_node_ok dn).
  { apply Forall_fmap, Forall_fmap, Forall_forall. intros [k v] Hin. apply (list_elem_of_fmap_2 fst) in Hin.
    by apply (proj1 (Forall_forall _ _) Hk) in Hin as [? ?]. }
  unfold generate_double_merkle_node_batch_blob_data_from_ref_default_context, generate_double_merkle_node_batch_blob_data_from_ref.
  rewrite generate_eq. eapply runs_bind.
  { apply runs_lift; [|exact E]. unfold subslice. change (Z.to_nat QBLOB_TREE_NODE_BATCH_HEADER_SIZE) with 84%nat.
    rewrite decide_True by (rewrite length_app, length_header; lia). rewrite drop_app_length' by by rewrite length_header.
    rewrite take_ge by (rewrite length_app, length_header; lia). reflexivity. }
  intros s1 E1. eapply runs_equiv; [by apply runs_fast_double|]. erewrite with_table_ext; [reflexivity|].
  intros m. f_equal. unfold dn, from_simple_merkle_nodes_for_tree_clone, node_entries. rewrite <- !list_fmap_compose.
  apply list_fmap_ext. by intros _ [k v] _.
Qed.

(** ** The two ways to write a batch *)
Definition keys_u (u : gmap SimpleMerkleNodeKey Hash) : Prop := ∀ k v, u !! k = Some v → key_bytes_ok k.

Lemma key_bytes_parent k : key_bytes_ok k → key_bytes_ok (parent k).
Proof.
  intros [Hl Hi]. destruct (decide (level k = 0)) as [E|E]; [by rewrite parent_root|].
  unfold key_bytes_ok, is_uint in *. rewrite level_parent, index_parent by done.
  split; [lia|]. split; [apply Z.div_pos; lia|apply Z.div_lt_upper_bound; lia].
Qed.

Lemma keys_u_mark (u : SimpleMemoryMerkleUpdaterUnique Hash) k v sibs u' r :
  key_bytes_ok k → keys_u (key_to_update u) → mark_updates_from_siblings u k v sibs true = (u', r) → keys_u (key_to_update u').
Proof.
  intros Hk Hu. rewrite mark_updates_root. revert k v u Hk Hu.
  assert (Hmark : ∀ k v (u : SimpleMemoryMerkleUpdaterUnique Hash), key_bytes_ok k → keys_u (key_to_update u) →
            keys_u (key_to_update (mark_updated u k v))).
  { intros k v u Hk Hu k' v' E. cbn in E. apply lookup_insert_Some in E as [[<- _]|[_ ?]]; [done|eauto]. }
  induction sibs as [|x sibs IH]; intros k v u Hk Hu; cbn [mark_loop].
  - intros [= <- _]. by apply Hmark.
  - apply IH; [by apply key_bytes_parent|by apply Hmark].
Qed.

Lemma keys_u_record sel sibs (u : SimpleMemoryMerkleUpdaterUnique Hash) l node s d u' s' :
  key_bytes_ok node.1 → keys_u (key_to_update u) →
  record_update sel sibs u true l node s = (Ok (d, u'), s') → keys_u (key_to_update u').
Proof.
  destruct node as [k v]. intros Hk Hu. unfold record_update, parent_at_level_or_panic, mbind, stateful_bind, lift.
  destruct (unwrap _); try done. destruct (sel _ s) as [[results| | |] s1]; try done.
  destruct (siblings_value_root _ results) as [[[sib old] root]| | |]; try done.
  destruct (mark_updates_from_siblings u k v sib true) as [u1 r] eqn:E. intros [= _ <- _]. by eapply keys_u_mark.
Qed.

Lemma same_select_double table c i j h keys :
  same (db_select_many_double_id_merkle_nodes_max_checkpoint (Hash := Hash) table c i j h keys)
       (db_select_many_double_id_merkle_nodes_max_checkpoint table c i j h keys).
Proof.
  apply same_mapM. intros k. apply same_bind; [apply same_table|]. intros _ db _ _.
  apply same_bind; [apply same_read|]. intros _ [[? b]|] _ _; [apply same_lift|apply same_ret].
Qed.

Lemma same_record_double table c i j h l (u : SimpleMemoryMerkleUpdaterUnique Hash) node :
  same (db_helper_record_cache_update_double_id_merkle_node_to_level_dmp default_hash table u true c i j h l node)
       (db_helper_record_cache_update_double_id_merkle_node_to_level_dmp default_hash table u true c i j h l node).
Proof.
  destruct node as [k v]. apply same_bind; [apply same_lift|]. intros _ root_key _ _. apply same_bind.
  - unfold db_select_many_double_id_merkle_node_max_checkpoint_with_cache, select_many_with_cache.
    destruct (to_fetch _ _ _); [apply same_ret|]. apply same_bind; [apply same_select_double|]. intros _ fetched _ _. apply same_lift.
  - intros _ results _ _. apply same_bind; [apply same_lift|]. intros _ [[sibs old] root] _ _.
    destruct (mark_updates_from_siblings _ _ _ _ _). apply same_ret.
Qed.

(** Loops that flush alike. *)
Lemma same_set_leaves_loop (rec : SimpleMemoryMerkleUpdaterUnique Hash → SimpleMerkleNodeKey * Hash → db (DeltaMerkleProofCore Hash * _))
    (f g : list (SimpleMerkleNodeKey * Hash) → db unit) l max :
  (∀ u node, same (rec u node) (rec u node)) →
  (∀ u node s d u' s', key_bytes_ok node.1 → keys_u (key_to_update u) → rec u node s = (Ok (d, u'), s') → keys_u (key_to_update u')) →
  (∀ ns, Forall key_bytes_ok ns.*1 → same (f ns) (g ns)) →
  ∀ nodes u, Forall key_bytes_ok nodes.*1 → keys_u (key_to_update u) →
  same (set_leaves_loop rec f l max u nodes) (set_leaves_loop rec g l max u nodes).
Proof.
  intros Hrec Hkeys Hfg.
  assert (Hflush : ∀ u : SimpleMemoryMerkleUpdaterUnique Hash, keys_u (key_to_update u) → same (f (drain_updates u)) (g (drain_updates u))).
  { intros u Hu. apply Hfg. apply Forall_fmap, Forall_forall. intros [k v] Hin%elem_of_map_to_list. by eapply Hu. }
  induction nodes as [|node nodes IH]; intros u Hn Hu; cbn [set_leaves_loop].
  - apply same_bind; [|intros; apply same_ret]. destruct (_ <? _); [by apply Hflush|apply same_ret].
  - cbn in Hn. apply Forall_cons in Hn as [Hk Hn]. apply same_bind; [apply same_lift|]. intros _ _ _ _.
    apply same_bind; [apply Hrec|]. intros s [d u'] s' Er. pose proof (Hkeys _ _ _ _ _ _ Hk Hu Er) as Hu'.
    apply same_bind; [destruct (_ <=? _); [apply same_bind; [by apply Hflush|intros; apply same_ret]|apply same_ret]|].
    intros s1 u1 s1' E1. apply same_bind; [apply IH; [done|]|intros; apply same_ret].
    destruct (max <=? _); [|injection E1 as <- _; done]. unfold mbind, stateful_bind in E1.
    destruct (f _ s1) as [[[]| | |] ?]; try done. injection E1 as <- _. intros k v. cbn. by rewrite lookup_empty.
Qed.

(** C36: setting leaves through serialised batches of nodes returns the same
    proofs or errors and leaves the same store as setting them node by node. *)
Theorem fast_serialize_equivalent (now chain_id : Z) (table : InMemoryTableIdentifier)
    (c i j h l max : Z) (nodes : list (SimpleMerkleNodeKey * Hash)) :
  is_uint 64 i → is_uint 64 j → Forall key_bytes_ok nodes.*1 →
  same (db_helper_double_id_merkle_node_simple_set_leaves_fast_serialize default_hash now chain_id table c i j h l max nodes)
       (db_helper_double_id_merkle_node_simple_set_leaves default_hash table c i j h l max nodes).
Proof.
  intros Hi Hj Hn. apply same_bind; [apply same_lift|]. intros _ _ _ _. unfold simple_set_leaves.
  destruct nodes as [|node nodes]; [apply same_ret|]. apply same_set_leaves_loop; [..|done|].
  - intros u n. apply same_record_double.
  - intros u n s d u' s'. apply keys_u_record.
  - intros ns Hns. apply (same_runs _ _ tt (with_table (to_string table)
      (insert_all (node_entries (λ k, version_key (DoubleTree table i j h) k c) ns)))); intros s s' E.
    + by apply runs_flush_fast.
    + by apply (runs_set (DoubleTree table i j h)).
  - intros k v. cbn. by rewrite lookup_empty.
Qed.

(** ** A store that takes the blobs of a recorder *)
Lemma overlay_paths tr m c h t us ks :
  NoDup ks → Forall key_wf ks → (∀ k, 0 ≤ level k → k ∈ ks ↔ on_paths h us k) →
  (∀ k, key_wf k → level k ≤ Z.of_nat h → view tr m c k = spec_node (Z.of_nat h) t k) →
  let f := spec_node (Z.of_nat h) (apply_updates t us) in
  ∀ k, key_wf k → level k ≤ Z.of_nat h → overlay tr (list_to_map ((λ k, (k, f k)) <$> ks)) m c k = f k.
Proof.
  intros Hnd Hwf Hks Ht f k Hk Hle. unfold overlay. pose proof Hk as [Hl _].
  destruct (list_to_map ((λ k, (k, f k)) <$> ks) !! k) as [v|] eqn:E; cbn [default].
  - apply elem_of_list_to_map_2, list_elem_of_fmap in E as (k' & [= -> ->] & _). done.
  - rewrite Ht by done. symmetry. apply spec_node_untouched; [done|done|]. intros i v Hin Ha.
    assert (Hin' : k ∈ ks) by (apply Hks; [lia|]; by exists i, v).
    apply not_elem_of_list_to_map_2 in E. destruct E. rewrite <- list_fmap_compose. apply list_elem_of_fmap. by exists k.
Qed.

(** C16: a store that takes the blob a recorder made from the delta proofs of some
    updates, the last first, then gives the proofs of the updated tree at that
    checkpoint, and still gives the old proofs at earlier checkpoints. *)
Theorem replica_follows (cx : context) (table : InMemoryTableIdentifier) (i j c : Z) (h : nat) (t : Z → Hash)
    (us : list (Z * Hash)) (s : InMemoryCoreStore) :
  let tr := DoubleTree table i j (Z.of_nat h) in
  context_ok cx → tree_ok tr h → is_uint 64 c → updates_in h us → 84 + 57 * Z.of_nat (S h * length us) < 2 ^ 64 →
  nodes_ok tr (contents s (to_string table)) →
  (∀ k, key_wf k → level k ≤ Z.of_nat h → view tr (contents s (to_string table)) c k = spec_node (Z.of_nat h) t k) →
  let proofs := deltas h t us in
  ∃ r blob hd payload s',
    mapM (double_record_validate_delta_merkle_proof i j (Z.of_nat h)) (reverse proofs) rec_new_with_header =
      (Ok (MerkleProof.new_root <$> reverse proofs), r) ∧
    double_finalize_with_header r cx = Ok blob ∧
    validate_uct_nodes_get_clipped_ref blob (cx_chain_id cx) (cx_realm_id cx) (cx_realm_sub_id cx)
      (cx_unique_pending_id cx) = Ok (hd, payload) ∧
    db_set_double_id_merkle_nodes_from_fast_serialized (Hash := Hash) table c payload s = (Ok tt, s') ∧
    (∀ x, 0 ≤ x < 2 ^ Z.of_nat h →
       (select_proof tr c (mkKey (Z.of_nat h) x) s').1 = Ok (leaf_proof h (apply_updates t us) x)) ∧
    (∀ c' x, is_uint 64 c' → c' < c → 0 ≤ x < 2 ^ Z.of_nat h →
       (select_proof tr c' (mkKey (Z.of_nat h) x) s').1 = (select_proof tr c' (mkKey (Z.of_nat h) x) s).1).
Proof.
  intros tr Hcx Htr Hc Hu Hsize Hm Ht proofs. pose proof Htr as (_ & Hh & Hi & Hj).
  destruct (recorder_blob i j cx h t us) as (r & blob & hd & ks & E & Eb & Ec & Hn & Hwf & Hok & Hks); [done..|lia|done|done|].
  destruct (runs_fast_double table c _ s s Hok ltac:(done)) as (s' & Es & Hs').
  set (f := spec_node (Z.of_nat h) (apply_updates t us)). set (m := contents s (to_string table)) in *.
  assert (Hm' : contents s' (to_string table) = written tr c (list_to_map ((λ k, (k, f k)) <$> ks)) m).
  { rewrite (proj1 Hs'), contents_with_table_eq. rewrite <- written_nodes; [|rewrite <- list_fmap_compose; by rewrite list_fmap_id..|done].
    f_equal. unfold node_entries. rewrite <- !list_fmap_compose. done. }
  assert (Hkeys : keys_in (list_to_map ((λ k, (k, f k)) <$> ks) : gmap SimpleMerkleNodeKey Hash)).
  { intros k v (k' & [= -> ->] & Hin)%elem_of_list_to_map_2%list_elem_of_fmap. by apply (proj1 (Forall_forall _ _) Hwf). }
  pose proof (nodes_ok_written tr c _ m Hkeys Hm) as Hmw. pose proof (frame_written tr c _ m Hkeys) as Hf.
  rewrite <- Hm' in Hmw, Hf. exists r, blob, hd. eexists _, s'. split_and!; [exact E|exact Eb|exact Ec|exact Es|..].
  - intros x Hx. destruct (runs_select_proof tr h c (apply_updates t us) x s') as (s2 & E2 & _); [done..| |by rewrite E2].
    intros k Hk Hle. change (name_of tr) with (to_string table). rewrite Hm', view_written by done. by apply overlay_paths.
  - intros c' x Hc' Hlt Hx. apply select_proof_views; [done..|]. intros k Hk. by apply (view_older tr c).
Qed.
End writes.

(** ** Examples *)
Definition demo_table : InMemoryTableIdentifier := mkTable "contract_state" 2.

(** With a sub-root below the root, the double-id and the zero-id helpers still take all
    siblings: the proof begins at the sub-root and ends at the root, and does not verify.
    The single-id helper stops at the sub-root. *)
Definition sub_root_proof (o : outcome (DeltaMerkleProofCore gold4 * SimpleMemoryMerkleUpdaterUnique gold4)) : bool :=
  match o with Ok (d, _) => verify_delta d | _ => true end.

Lemma sub_root_helpers_differ :
  let node := (mkKey 2 0, example_hash 1) in
  let d := example_hash 0 in
  sub_root_proof (db_helper_record_cache_update_single_id_merkle_node_to_level_dmp d demo_table new_clean true 1 5 2 1 node new).1 = true ∧
  sub_root_proof (db_helper_record_cache_update_double_id_merkle_node_to_level_dmp d demo_table new_clean true 1 5 6 2 1 node new).1 = false ∧
  sub_root_proof (db_helper_record_cache_update_zero_id_merkle_node_to_level_dmp d demo_table new_clean true 1 1 node new).1 = false.
Proof. vm_compute. done. Qed.

(** Two batches on a contract state tree of height 3, at the checkpoints 4 and 6. *)
Definition demo_tree : tree := DoubleTree demo_table 5 6 3.
Definition demo_batches : list (Z * list (Z * gold4)) :=
  [(4, [(1, example_hash 100); (6, example_hash 200)]); (6, [(1, example_hash 300)])].


Lemma demo_nodes_ok : nodes_ok (Hash := gold4) demo_tree (contents new (name_of demo_tree)).
Proof. rewrite contents_new. split; [apply shaped_empty|]. intros k b Hk. by rewrite lookup_empty in Hk. Qed.

Lemma tree_history_witness :
  ∃ s', mapM (λ b, set_leaves (example_hash 0) demo_tree b.1 10 (leaf_nodes 3 b.2)) demo_batches new =
      (Ok (TreeHistory.history_deltas 3 (λ _, get_zero_value) demo_batches), s') ∧
    (select_proof demo_tree 5 (mkKey 3 1) s').1 = Ok (leaf_proof 3 (tree_at demo_batches 5) 1) ∧
    (select_proof demo_tree 6 (mkKey 3 1) s').1 = Ok (leaf_proof 3 (tree_at demo_batches 6) 1).
Proof.
  destruct (tree_history (example_hash 0) demo_tree 3 10 demo_batches new) as (s' & E & _ & Hp & _).
  - repeat split; cbn; lia.
  - lia.
  - repeat constructor; cbn; lia.
  - repeat constructor; cbn; lia.
  - exact demo_nodes_ok.
  - intros k c _ _. by rewrite contents_new, lookup_empty.
  - exists s'. split; [exact E|]. split; apply Hp; cbn; unfold is_uint; lia.
Defined.

Lemma fast_serialize_equivalent_witness :
  same (db_helper_double_id_merkle_node_simple_set_leaves_fast_serialize (example_hash 0) 0 7 demo_table 4 5 6 3 0 10
          (leaf_nodes 3 [(1, example_hash 100); (6, example_hash 200)]))
       (db_helper_double_id_merkle_node_simple_set_leaves (example_hash 0) demo_table 4 5 6 3 0 10
          (leaf_nodes 3 [(1, example_hash 100); (6, example_hash 200)])).
Proof.
  apply (fast_serialize_equivalent (example_hash 0) 0 7 demo_table 4 5 6 3 0 10).
  - split; lia.
  - split; lia.
  - repeat constructor; cbn; lia.
Defined.

Lemma replica_follows_witness :
  let us := [(1, example_hash 100); (6, example_hash 200)] in
  ∃ r blob hd payload s',
    mapM (double_record_validate_delta_merkle_proof 5 6 3) (reverse (deltas 3 (λ _, get_zero_value) us)) rec_new_with_header =
      (Ok (MerkleProof.new_root <$> reverse (deltas 3 (λ _, get_zero_value) us)), r) ∧
    double_finalize_with_header r demo_context = Ok blob ∧
    validate_uct_nodes_get_clipped_ref blob 7 2 3 4 = Ok (hd, payload) ∧
    db_set_double_id_merkle_nodes_from_fast_serialized (Hash := gold4) demo_table 9 payload new = (Ok tt, s') ∧
    (select_proof demo_tree 9 (mkKey 3 6) s').1 = Ok (leaf_proof 3 (apply_updates (λ _, get_zero_value) us) 6).
Proof.
  intros us.
  destruct (replica_follows demo_context demo_table 5 6 9 3 (λ _, get_zero_value) us new)
    as (r & blob & hd & payload & s' & E1 & E2 & E3 & E4 & Hp & _).
  - unfold context_ok, is_uint. cbn. lia.
  - repeat split; cbn; lia.
  - split; lia.
  - repeat constructor; cbn; lia.
  - cbn. lia.
  - exact demo_nodes_ok.
  - intros k Hk Hl. destruct (fresh_history demo_tree 3 (contents new (name_of demo_tree))) as [_ _ Ht].
    + repeat split; cbn; lia.
    + exact demo_nodes_ok.
    + intros k' c _ _. by rewrite contents_new, lookup_empty.
    + apply (Ht 9 k); [split; lia|done|done].
  - exists r, blob, hd, payload, s'. split; [exact E1|]. split; [exact E2|]. split; [exact E3|]. split; [exact E4|]. apply Hp. cbn. lia.
Defined.
