(* ===== verification/Consensus.v ===== *)
(** * Realm consensus

    [psy_node_common/src/realm/processor/consensus.rs]: decoding and verifying the body
    of a proposal, signing votes, forming and validating certificates. SHA-256, the
    verifier of the proof system and [blst] are parameters. *)
From stdpp Require Import prelude list strings gmap.
From Stdlib Require Import ZArith Lia.
From S2P Require Import Prelude Wire Bls MerkleHash FieldHash Serialize Codecs RealmFinalize.

Definition MIN_VALIDATORS_PER_REALM : Z := 1.
Definition MAX_VALIDATORS_PER_REALM : Z := 64.

Definition replication_threshold (n : Z) : Z := div_ceil n 2.

Definition require_nonzero_validator_tree_root (root : list Z) : outcome unit :=
  if forallb (λ byte, byte =? 0) root then Err "validator_tree_root is zero" else Ok tt.

Definition validator_tree_root_matches_proof_base (proposal_root proof_base_root : list Z) : bool :=
  bool_decide (proposal_root = proof_base_root).

Definition certificate_includes_proposer (certificate : Certificate) (proposer_sub_id : Z) : bool :=
  bool_decide (proposer_sub_id ∈ signer_sub_ids certificate).

Definition votes_meet_wait (n : Z) (signer_sub_ids : list Z) : bool :=
  let unique : gset Z := list_to_set signer_sub_ids in
  replication_threshold n <=? Z.of_nat (size unique).

(** ** Proposal bodies *)
Record DecodedProposalBody : Type := mkDecodedBody {
  output : list Z;
  proof : list Z;
  state_updates : list Z;
  worker_tag : list Z;
}.

Section bodies.
Context (sha256 : list Z → list Z).

Definition decode_proposal_body (proposal : Proposal) (body : list Z) : outcome DecodedProposalBody :=
  let* parts := Wire.decode_proposal_body body in
  let '(output, proof, state_updates, worker_tag) := parts in
  if negb (bool_decide (sha256 body = body_hash proposal)) then Err "body_hash mismatch" else
  if negb (bool_decide (sha256 output = Wire.public_output_hash proposal)) then Err "public_output_hash mismatch" else
  if negb (bool_decide (sha256 proof = finalizer_proof_hash proposal)) then Err "finalizer_proof_hash mismatch" else
  if negb (bool_decide (sha256 state_updates = backup_hash proposal)) then Err "backup_hash mismatch" else
  Ok (mkDecodedBody output proof state_updates worker_tag).

Context {F Hash : Type} `{EqDecision F, EqDecision Hash, FieldHash F Hash, MerkleHasher Hash, Q256BitHash Hash}.

Definition require_declared_roots_match_zk_output (state_updates : PsyPreparedRealmBlockStateUpdates Hash)
    (output : RealmFinalizeGUTAPublicOutput F Hash) : outcome unit :=
  let transition := state_transition (final_guta_header output) in
  let* _ := ensure (bool_decide (into_owned_32bytes (old_realm_root state_updates) =
                                 into_owned_32bytes (old_node_value transition)))
              "Realm state updates old_realm_root does not match GUTA old_node_value" in
  let* _ := ensure (bool_decide (into_owned_32bytes (new_realm_root state_updates) =
                                 into_owned_32bytes (new_node_value transition)))
              "Realm state updates new_realm_root does not match GUTA new_node_value" in
  Ok tt.

Definition decode_proposal_state_updates (state_updates : list Z)
    : outcome (PsyPreparedRealmBlockStateUpdates Hash) :=
  psy_ser_from_slice state_updates.

(** [ProvingJobCircuitType::RealmFinalizeGUTA] *)
Definition RealmFinalizeGUTA : Z := 63.

(** the registered circuits' verifier *)
Context (verify_zk_proof_from_slice_check_public_inputs_hash : Z → list Z → Hash → outcome unit).

Definition verify_proposal_submission (proposal : Proposal) (body : list Z) (validator_user_id : Z)
    : outcome DecodedProposalBody :=
  let* _ := ensure (bool_decide (proposal_compute_id sha256 proposal = proposal_id proposal))
              "proposal_id does not match canonical Proposal fields" in
  let* _ := require_nonzero_validator_tree_root (validator_tree_root proposal) in
  let* decoded := decode_proposal_body proposal body in
  let* o := protocol_decode_finalize_output (F := F) (Hash := Hash) (output decoded) in
  let domain := realm_finalize_guta_chain_domain (F := F) (Wire.chain_id proposal) in
  let* _ := ensure (bool_decide (chain_domain o = domain)) "Realm finalize output chain domain mismatch" in
  let* _ := ensure (bool_decide (out_checkpoint_id o = from_u64_value (Hash := Hash) (base_checkpoint_id proposal)))
              "Realm finalize output checkpoint_id does not match the proposal proof base" in
  let* _ := ensure (bool_decide (out_realm_id o = from_u64_value (Hash := Hash) (realm_id proposal)))
              "Realm finalize output realm mismatch" in
  let* _ := ensure (out_realm_sub_id o =? proposer_sub_id proposal)
              "Realm finalize output sub_id does not match the proposal proposer" in
  let* _ := ensure (bool_decide (into_owned_32bytes (out_validator_tree_root o) = validator_tree_root proposal))
              "Realm finalize output validator_tree_root mismatch" in
  let* _ := ensure (bool_decide (out_validator_user_id o = from_u64_value (Hash := Hash) validator_user_id))
              "Realm finalize output fee user is not the scheduled proposer's validator leaf user" in
  let* updates := decode_proposal_state_updates (state_updates decoded) in
  let* _ := require_declared_roots_match_zk_output updates o in
  let tag := from_owned_32bytes (worker_tag decoded) in
  let expected_public_inputs_hash := finalize_public_input_hash o tag in
  let* _ := verify_zk_proof_from_slice_check_public_inputs_hash RealmFinalizeGUTA (proof decoded)
              expected_public_inputs_hash in
  Ok decoded.
End bodies.

(** ** Votes and certificates *)
Section certificates.
Context `{Blst}.

Definition sign_vote (secret : blst_sk) (signer_sub_id : Z) (proposal : Proposal) : Vote :=
  let message := vote_message (chain_id proposal) (realm_id proposal) (validator_tree_root proposal)
                   (proposal_id proposal) in
  mkVote (proposal_id proposal) signer_sub_id (secret_sign_vote secret message).

(** The loop over the votes: the bitmap and the signatures so far. *)
Fixpoint gather_votes (signer_bitmap : list Z) (signatures : list (list Z)) (votes : list (Z * list Z))
    : outcome (list Z * list (list Z)) :=
  match votes with
  | [] => Ok (signer_bitmap, signatures)
  | (sub_id, signature) :: votes =>
      if 255 <? sub_id then Err "signer sub_id exceeds 255" else
      if bitmap_get signer_bitmap sub_id then Err "duplicate signer sub_id" else
      gather_votes (bitmap_set signer_bitmap sub_id) (signatures ++ [signature]) votes
  end.

Definition form_certificate (proposal : Proposal) (votes : list (Z * list Z)) : outcome Certificate :=
  if (length votes =? 0)%nat then Err "EmptyAggregate" else
  let* gathered := gather_votes (replicate 32 0) [] votes in
  let '(signer_bitmap, signatures) := gathered in
  let* aggregated_signature := aggregate_signatures signatures in
  Ok (mkCertificate (chain_id proposal) (realm_id proposal) (validator_tree_root proposal) (proposal_id proposal)
        signer_bitmap aggregated_signature).

(** [leaf_bls_keys.iter().find(|(s, _)| *s == sub_id).map(|(_, key)| *key)] *)
Definition find_key {A} (leaf_bls_keys : list (Z * A)) (sub_id : Z) : option A :=
  snd ∘ snd <$> list_find (λ e, e.1 = sub_id) leaf_bls_keys.

(** The keys of the set bits, in ascending order of their sub-ids. *)
Fixpoint signer_keys (signer_bitmap validator_sub_ids : list Z) (leaf_bls_keys : list (Z * list Z))
    (sub_ids : list Z) : outcome (list (list Z)) :=
  match sub_ids with
  | [] => Ok []
  | sub_id :: sub_ids =>
      if negb (bitmap_get signer_bitmap sub_id) then signer_keys signer_bitmap validator_sub_ids leaf_bls_keys sub_ids else
      if negb (bool_decide (sub_id ∈ validator_sub_ids)) then Err "signer bit names empty validator leaf" else
      let* key := ok_or (find_key leaf_bls_keys sub_id) "missing BLS key for validator sub_id" in
      let* keys := signer_keys signer_bitmap validator_sub_ids leaf_bls_keys sub_ids in
      Ok (key :: keys)
  end.

Definition validate_certificate (proposal : Proposal) (certificate : Certificate) (validator_sub_ids : list Z)
    (leaf_bls_keys : list (Z * list Z)) : outcome unit :=
  let n := Z.of_nat (length validator_sub_ids) in
  if negb ((MIN_VALIDATORS_PER_REALM <=? n) && (n <=? MAX_VALIDATORS_PER_REALM))
  then Err "validator sub-id count out of range" else
  if existsb (λ sub_id, 255 <? sub_id) validator_sub_ids then Err "validator sub_id exceeds 255" else
  if negb (cert_chain_id certificate =? chain_id proposal) || negb (cert_realm_id certificate =? realm_id proposal) ||
     negb (bool_decide (cert_validator_tree_root certificate = validator_tree_root proposal)) ||
     negb (bool_decide (cert_proposal_id certificate = proposal_id proposal))
  then Err "certificate does not match proposal" else
  let* _ := require_nonzero_validator_tree_root (validator_tree_root proposal) in
  let* _ := require_nonzero_validator_tree_root (cert_validator_tree_root certificate) in
  let threshold := replication_threshold n in
  if Z.of_nat (popcount certificate) <? threshold then Err "certificate below replication threshold" else
  let* keys := signer_keys (signer_bitmap certificate) validator_sub_ids leaf_bls_keys (Z.of_nat <$> seq 0 256) in
  let message := vote_message (cert_chain_id certificate) (cert_realm_id certificate)
                   (cert_validator_tree_root certificate) (cert_proposal_id certificate) in
  let* _ := fast_aggregate_verify (aggregated_signature certificate) message keys in
  Ok tt.
End certificates.

(** ** Bitmaps *)
Lemma land_bit x i : 0 ≤ i → negb (Z.land x (Z.shiftl 1 i) =? 0) = Z.testbit x i.
Proof.
  intros Hi. assert (∀ j, Z.testbit (Z.land x (Z.shiftl 1 i)) j = Z.testbit x i && (i =? j)) as Hbit.
  { intros j. rewrite Z.land_spec, Z.shiftl_1_l. destruct (Z.eqb_spec i j) as [<-|Hne].
    - by rewrite Z.pow2_bits_true.
    - by rewrite Z.pow2_bits_false, !andb_false_r. }
  destruct (Z.testbit x i) eqn:E.
  - apply negb_true_iff, Z.eqb_neq. intros H0. specialize (Hbit i). rewrite H0, Z.bits_0, Z.eqb_refl in Hbit. done.
  - apply negb_false_iff, Z.eqb_eq. apply Z.bits_inj_0. intros j. by rewrite Hbit.
Qed.

(** Bit [i] of a bitmap of bytes. *)
Definition bit_at (bitmap : list Z) (i : nat) : bool :=
  Z.testbit (nth (i / 8) bitmap 0) (Z.of_nat (i mod 8)).

Lemma bitmap_get_at bitmap (i : nat) : (i < 256)%nat → bitmap_get bitmap (Z.of_nat i) = bit_at bitmap i.
Proof.
  intros Hi. unfold bitmap_get, bit_at. destruct (Z.leb_spec 256 (Z.of_nat i)); [lia|].
  rewrite land_bit by (apply Z.mod_pos_bound; lia).
  change 8 with (Z.of_nat 8). by rewrite <- Nat2Z.inj_div, <- Nat2Z.inj_mod, Nat2Z.id.
Qed.

Lemma bitmap_get_set bitmap s t :
  length bitmap = 32%nat → 0 ≤ s < 256 → 0 ≤ t < 256 →
  bitmap_get (bitmap_set bitmap s) t = bool_decide (t = s) || bitmap_get bitmap t.
Proof.
  intros Hl Hs Ht. unfold bitmap_get, bitmap_set.
  destruct (Z.leb_spec 256 s); [lia|]. destruct (Z.leb_spec 256 t); [lia|].
  rewrite !land_bit by (apply Z.mod_pos_bound; lia).
  assert (0 ≤ s / 8 < 32) by (split; [apply Z.div_pos|apply Z.div_lt_upper_bound]; lia).
  assert (0 ≤ t / 8 < 32) by (split; [apply Z.div_pos|apply Z.div_lt_upper_bound]; lia).
  pose proof (Z.mod_pos_bound s 8). pose proof (Z.mod_pos_bound t 8).
  pose proof (Z.div_mod s 8). pose proof (Z.div_mod t 8).
  destruct (decide (t / 8 = s / 8)) as [Hd|Hd].
  - rewrite Hd. rewrite (nth_lookup_Some _ _ _ (Z.lor (nth (Z.to_nat (s / 8)) bitmap 0) (Z.shiftl 1 (s mod 8)))).
    2: { apply list_lookup_insert_eq. lia. }
    rewrite Z.lor_spec, Z.shiftl_1_l, Z.pow2_bits_eqb, orb_comm by lia. f_equal.
    destruct (Z.eqb_spec (s mod 8) (t mod 8)); symmetry; [apply bool_decide_eq_true|apply bool_decide_eq_false]; lia.
  - rewrite !nth_lookup, list_lookup_insert_ne by lia.
    by rewrite bool_decide_eq_false_2 by congruence.
Qed.

Lemma length_bitmap_set bitmap s : length (bitmap_set bitmap s) = length bitmap.
Proof. unfold bitmap_set. case_match; [done|]. apply length_insert. Qed.

(** Filters that agree through a map on the elements of a list. *)
Lemma length_filter_fmap {A B} (f : A → B) (P : B → Prop) (Q : A → Prop)
    `{∀ b, Decision (P b), ∀ a, Decision (Q a)} l :
  Forall (λ a, P (f a) ↔ Q a) l → length (filter P (f <$> l)) = length (filter Q l).
Proof.
  induction 1 as [|a l Ha _ IH]; [done|]. cbn [fmap list_fmap]. rewrite !filter_cons.
  do 2 case_decide; cbn [length]; tauto || lia.
Qed.

(** Counting the ones of the bytes counts the set bits. *)
Lemma count_set_bits bitmap :
  length (filter (λ i, bit_at bitmap i = true) (seq 0 (8 * length bitmap))) =
  foldr (λ b n, (count_ones b + n)%nat) 0%nat bitmap.
Proof.
  induction bitmap as [|b bitmap IH]; [done|]. cbn [length foldr].
  replace (8 * S (length bitmap))%nat with (8 + 8 * length bitmap)%nat by lia.
  rewrite seq_app, filter_app, length_app. f_equal.
  rewrite <- IH, <- (fmap_add_seq 8 0). apply length_filter_fmap, Forall_forall. intros i _. unfold bit_at.
  replace (8 + i)%nat with (i + 1 * 8)%nat by lia.
  by rewrite Nat.div_add, Nat.Div0.mod_add, Nat.add_1_r by lia.
Qed.

Lemma elem_of_signer_sub_ids c s :
  s ∈ signer_sub_ids c ↔ 0 ≤ s < 256 ∧ bitmap_get (signer_bitmap c) s = true.
Proof.
  unfold signer_sub_ids. rewrite list_elem_of_filter, list_elem_of_fmap. setoid_rewrite elem_of_seq.
  split; [intros (? & i & -> & ?); split; [lia|done]|]. intros [? ?]. split; [done|]. exists (Z.to_nat s). lia.
Qed.

Lemma signer_sub_ids_bitmap c c' : signer_bitmap c = signer_bitmap c' → signer_sub_ids c = signer_sub_ids c'.
Proof. unfold signer_sub_ids. by intros ->. Qed.

Lemma NoDup_signer_sub_ids c : NoDup (signer_sub_ids c).
Proof. apply NoDup_filter. apply NoDup_fmap; [apply _|apply NoDup_seq]. Qed.

Lemma popcount_signers c :
  length (signer_bitmap c) = 32%nat → popcount c = length (signer_sub_ids c).
Proof.
  intros Hl. unfold popcount, signer_sub_ids. rewrite <- count_set_bits, Hl. symmetry.
  apply length_filter_fmap, Forall_seq. intros i Hi. by rewrite bitmap_get_at by lia.
Qed.

Lemma length_set_bits ss : ∀ bitmap, length (foldl bitmap_set bitmap ss) = length bitmap.
Proof. induction ss as [|s ss IH]; intros bitmap; [done|]. cbn. by rewrite IH, length_bitmap_set. Qed.

Lemma bitmap_get_set_bits ss t : ∀ bitmap,
  length bitmap = 32%nat → Forall (λ s, 0 ≤ s < 256) ss → 0 ≤ t < 256 →
  bitmap_get (foldl bitmap_set bitmap ss) t = bool_decide (t ∈ ss) || bitmap_get bitmap t.
Proof.
  induction ss as [|s ss IH]; intros bitmap Hl Hss Ht; cbn [foldl]; [by rewrite bool_decide_eq_false_2 by set_solver|].
  inversion_clear Hss as [|?? Hs Hss']. rewrite IH, bitmap_get_set by (done || by rewrite length_bitmap_set).
  destruct (bitmap_get bitmap t); [by rewrite !orb_true_r|]. rewrite !orb_false_r.
  destruct (decide (t = s)) as [->|Hne].
  - rewrite (bool_decide_eq_true_2 (s = s)) by done. rewrite orb_true_r. symmetry. apply bool_decide_eq_true. set_solver.
  - rewrite (bool_decide_eq_false_2 (t = s)), orb_false_r by done. apply bool_decide_ext. set_solver.
Qed.

(** The loop over the votes accepts exactly distinct sub-ids in range, none of them
    set before, sets their bits and keeps the signatures in order. *)
Lemma gather_votes_Ok votes : ∀ bitmap sigs bitmap' sigs',
  length bitmap = 32%nat → Forall (λ s, 0 ≤ s) votes.*1 →
  gather_votes bitmap sigs votes = Ok (bitmap', sigs') ↔
  (NoDup votes.*1 ∧ Forall (λ s, s < 256 ∧ bitmap_get bitmap s = false) votes.*1) ∧
  bitmap' = foldl bitmap_set bitmap votes.*1 ∧ sigs' = sigs ++ votes.*2.
Proof.
  induction votes as [|[s sig] votes IH]; intros bitmap sigs bitmap' sigs' Hl Hs; cbn [gather_votes fmap list_fmap fst snd foldl].
  - rewrite app_nil_r. split; [intros [= -> ->]; repeat constructor|by intros (_ & -> & ->)].
  - inversion_clear Hs as [|?? Hs0 Hs']. destruct (Z.ltb_spec 255 s) as [Hs1|Hs1].
    { split; [done|]. intros ((_ & [[? _] _]%Forall_cons) & _). lia. }
    destruct (bitmap_get bitmap s) eqn:Eb.
    { split; [done|]. intros ((_ & [[_ Hf] _]%Forall_cons) & _). congruence. }
    rewrite IH by (done || by rewrite length_bitmap_set).
    rewrite NoDup_cons, Forall_cons, <- app_assoc. cbn [app]. apply and_iff_compat_r.
    assert (Forall (λ t, t < 256 ∧ bitmap_get (bitmap_set bitmap s) t = false) votes.*1 ↔
            (s ∉ votes.*1) ∧ Forall (λ t, t < 256 ∧ bitmap_get bitmap t = false) votes.*1) as ->; [|naive_solver lia].
    rewrite !Forall_forall in *. split.
    + intros Hf. split.
      * intros [_ Hg]%Hf. rewrite bitmap_get_set, bool_decide_eq_true_2 in Hg by (done || lia). done.
      * intros t Ht. destruct (Hf t Ht) as [Hlt Hg]. specialize (Hs' t Ht).
        rewrite bitmap_get_set in Hg by (done || lia). by apply orb_false_iff in Hg as [_ ?].
    + intros [Hn Hf] t Ht. destruct (Hf t Ht) as [Hlt Hg]. specialize (Hs' t Ht). split; [done|].
      rewrite bitmap_get_set, Hg, bool_decide_eq_false_2 by (done || lia || congruence). done.
Qed.

Lemma signer_keys_Ok bitmap vs keys ids ks :
  signer_keys bitmap vs keys ids = Ok ks ↔
  Forall (λ s, s ∈ vs) (filter (λ s, bitmap_get bitmap s = true) ids) ∧
  Forall2 (λ s k, find_key keys s = Some k) (filter (λ s, bitmap_get bitmap s = true) ids) ks.
Proof.
  revert ks. induction ids as [|s ids IH]; intros ks; cbn [signer_keys].
  - split; [intros [= <-]; by split|by intros [_ ->%Forall2_nil_inv_l]].
  - rewrite filter_cons. destruct (bitmap_get bitmap s) eqn:Eb; cbn [negb].
    2: { by rewrite decide_False by congruence. }
    rewrite decide_True by done. case_bool_decide as Hin; cbn [negb].
    2: { split; [done|]. by intros [[? _]%Forall_cons _]. }
    rewrite outcome_bind_Ok. setoid_rewrite outcome_bind_Ok. setoid_rewrite ok_or_Ok. split.
    + intros (k & Hk & ks' & [Hf Hf2]%IH & [= <-]). by split; constructor.
    + intros [[_ Hf]%Forall_cons Hf2]. inversion_clear Hf2 as [|? k ? ks' Hk Hf2'].
      exists k. split; [done|]. exists ks'. split; [by apply IH|done].
Qed.

Section certificate_theorems.
Context `{Blst}.
Implicit Types (p : Proposal) (c : Certificate) (vs : list Z) (keys : list (Z * list Z)).

Definition root_nonzero (root : list Z) : Prop := ¬ Forall (λ b, b = 0) root.

Lemma require_nonzero_Ok root u : require_nonzero_validator_tree_root root = Ok u ↔ root_nonzero root.
Proof.
  unfold require_nonzero_validator_tree_root, root_nonzero. destruct u.
  destruct (forallb _ root) eqn:E.
  - split; [done|]. intros []. apply Forall_forall. intros b Hb.
    apply Z.eqb_eq. by apply (proj1 (forallb_forall _ _) E), list_elem_of_In.
  - split; [|done]. intros _ Hf. apply not_true_iff_false in E. apply E, forallb_forall.
    intros b Hb%list_elem_of_In. apply Z.eqb_eq. by eapply Forall_forall in Hf.
Qed.

(** What a certificate asserts about a proposal and the validators of the Realm. *)
Definition certifies p c vs keys : Prop :=
  1 ≤ Z.of_nat (length vs) ≤ 64 ∧ Forall (λ s, s ≤ 255) vs ∧
  (cert_chain_id c = chain_id p ∧ cert_realm_id c = realm_id p ∧
   cert_validator_tree_root c = validator_tree_root p ∧ cert_proposal_id c = proposal_id p) ∧
  root_nonzero (validator_tree_root p) ∧
  Z.of_nat (length vs) ≤ 2 * Z.of_nat (length (signer_sub_ids c)) ∧
  Forall (λ s, s ∈ vs) (signer_sub_ids c) ∧
  ∃ ks, Forall2 (λ s k, find_key keys s = Some k) (signer_sub_ids c) ks ∧
        fast_aggregate_verify (aggregated_signature c)
          (vote_message (chain_id p) (realm_id p) (validator_tree_root p) (proposal_id p)) ks = Ok tt.

Lemma threshold_le n m : 0 ≤ n → replication_threshold n ≤ m ↔ n ≤ 2 * m.
Proof.
  intros Hn. unfold replication_threshold, div_ceil. pose proof (Z.div_mod (n + 2 - 1) 2).
  pose proof (Z.mod_pos_bound (n + 2 - 1) 2). lia.
Qed.

Lemma validate_certificate_Ok p c vs keys :
  length (signer_bitmap c) = 32%nat →
  validate_certificate p c vs keys = Ok tt ↔ certifies p c vs keys.
Proof.
  intros Hl. unfold validate_certificate, certifies, MIN_VALIDATORS_PER_REALM, MAX_VALIDATORS_PER_REALM.
  destruct (_ && _) eqn:En; cbn [negb].
  2: { split; [done|]. intros (? & _). apply andb_false_iff in En. lia. }
  destruct (existsb _ vs) eqn:Ev.
  { split; [done|]. intros (_ & Hvs & _). apply existsb_exists in Ev as (s & Hs%list_elem_of_In & Hlt).
    eapply Forall_forall in Hvs; [|done]. lia. }
  assert (Forall (λ s, s ≤ 255) vs) as Hvs.
  { apply Forall_forall. intros s Hs%list_elem_of_In. apply not_true_iff_false in Ev.
    destruct (Z.ltb_spec 255 s); [|done]. destruct Ev. apply existsb_exists. exists s. split; [done|lia]. }
  match goal with |- context [if ?b then Err "certificate does not match proposal" else _] => destruct b eqn:Em end.
  { split; [done|]. intros (_ & _ & (Hc & Hr & Ht & Hp) & _). rewrite Hc, Hr, Ht, Hp, !Z.eqb_refl in Em.
    by rewrite !bool_decide_eq_true_2 in Em by done. }
  rewrite !orb_false_iff, !negb_false_iff, !bool_decide_eq_true, !Z.eqb_eq in Em. destruct Em as [[[Hc Hr] Ht] Hp].
  rewrite outcome_bind_Ok, Ht, Hc, Hr, Hp, (popcount_signers c) by done.
  setoid_rewrite outcome_bind_Ok. setoid_rewrite require_nonzero_Ok. split.
  - intros (_ & Hnz & _ & _ & Hrest). case_match eqn:Eth; [done|].
    apply outcome_bind_Ok in Hrest as (ks & [Hin Hks]%signer_keys_Ok & ([] & Hf & _)%outcome_bind_Ok).
    apply Z.ltb_ge, threshold_le in Eth; [|lia]. split_and!; try done; try lia. by exists ks.
  - intros (_ & _ & _ & Hnz & Hth & Hin & ks & Hks & Hf). exists tt. split; [done|]. exists tt. split; [done|].
    rewrite (proj2 (Z.ltb_ge _ _)) by (apply threshold_le; lia).
    rewrite (proj2 (signer_keys_Ok _ _ _ _ ks)) by done. cbn [outcome_bind]. by rewrite Hf.
Qed.

Definition proposal_vote_message p : list Z :=
  vote_message (chain_id p) (realm_id p) (validator_tree_root p) (proposal_id p).

(** A vote of a validator whose key is known and that verifies. *)
Definition vote_ok p keys (v : Z * list Z) : Prop :=
  ∃ k, find_key keys v.1 = Some k ∧ verify_vote v.2 (proposal_vote_message p) k = Ok tt.

Lemma votes_meet_wait_NoDup n ids : 0 ≤ n → NoDup ids → votes_meet_wait n ids = (n <=? 2 * Z.of_nat (length ids)).
Proof.
  intros Hn Hnd. unfold votes_meet_wait. rewrite size_list_to_set by done.
  apply eq_true_iff_eq. rewrite !Z.leb_le. by apply threshold_le.
Qed.

Lemma formed_signers p (votes : list (Z * list Z)) sig :
  NoDup votes.*1 → Forall (λ s, 0 ≤ s < 256) votes.*1 →
  signer_sub_ids (mkCertificate (chain_id p) (realm_id p) (validator_tree_root p) (proposal_id p)
                    (foldl bitmap_set (replicate 32 0) votes.*1) sig) ≡ₚ votes.*1.
Proof.
  intros Hnd Hr. apply NoDup_Permutation; [apply NoDup_signer_sub_ids|done|].
  intros s. rewrite elem_of_signer_sub_ids. cbn [signer_bitmap]. split.
  - intros [Hs Hg]. rewrite bitmap_get_set_bits in Hg by done. apply orb_true_iff in Hg as [Hg|Hg].
    + by apply bool_decide_eq_true in Hg.
    + unfold bitmap_get in Hg. rewrite nth_replicate_default in Hg. by case_match.
  - intros Hs. pose proof (proj1 (Forall_forall _ _) Hr s Hs). split; [done|].
    rewrite bitmap_get_set_bits by done. by rewrite bool_decide_eq_true_2.
Qed.

Lemma formed_votes (votes : list (Z * list Z)) :
  NoDup votes.*1 → Forall (λ s, 0 ≤ s < 256) votes.*1 →
  gather_votes (replicate 32 0) [] votes = Ok (foldl bitmap_set (replicate 32 0) votes.*1, votes.*2).
Proof.
  intros Hnd Hr. apply gather_votes_Ok; [done|eapply Forall_impl; [exact Hr|]; by intros ? []|].
  split_and!; [done| |done..]. eapply Forall_impl; [exact Hr|]. intros s []. split; [done|].
  unfold bitmap_get. rewrite nth_replicate_default. by case_match.
Qed.

Context `{!BlstLaws}.

(** The votes with the keys they verify under. *)
Lemma votes_with_keys p keys votes :
  Forall (vote_ok p keys) votes →
  ∃ t : list (Z * (list Z * list Z)),
    t.*1 = votes.*1 ∧ t.*2.*1 = votes.*2 ∧ t.*2.*2 = omap (find_key keys) votes.*1 ∧
    Forall (λ e, find_key keys e.1 = Some e.2.2) t ∧
    Forall (λ v, verify_vote v.1 (proposal_vote_message p) v.2 = Ok tt) t.*2.
Proof.
  induction 1 as [|[s sig] votes (k & Hk & Hv) _ (t & H1 & H2 & H3 & H4 & H5)]; [by exists []|].
  exists ((s, (sig, k)) :: t). cbn in *. rewrite Hk. cbn. rewrite H1, H2, H3. split_and!; try done; by constructor.
Qed.

(** C9: distinct validators' votes that verify, at least half as many as there are
    validators and in any order, form a certificate that validates, names exactly
    the voters and meets the proposer's wait. There are 1 to 64 validators with sub-ids up
    to 255, the root of the validator tree is not zero, and the keys of the voters do not
    sum up to the point at infinity. *)
Theorem certificate_complete p vs keys votes :
  1 ≤ Z.of_nat (length vs) ≤ 64 → Forall (λ s, 0 ≤ s ≤ 255) vs → root_nonzero (validator_tree_root p) →
  NoDup votes.*1 → Forall (λ s, s ∈ vs) votes.*1 → Forall (vote_ok p keys) votes →
  Z.of_nat (length vs) ≤ 2 * Z.of_nat (length votes) → keys_finite (omap (find_key keys) votes.*1) →
  ∃ c, form_certificate p votes = Ok c ∧ validate_certificate p c vs keys = Ok tt ∧
       signer_sub_ids c ≡ₚ votes.*1 ∧ popcount c = length votes ∧
       votes_meet_wait (Z.of_nat (length vs)) (signer_sub_ids c) = true.
Proof.
  intros Hn Hvs Hroot Hnd Hin Hok Hth Hfin.
  assert (Forall (λ s, 0 ≤ s < 256) votes.*1) as Hr.
  { rewrite Forall_forall in *. intros s Hs. specialize (Hvs s (Hin s Hs)). lia. }
  destruct (votes_with_keys p keys votes Hok) as (t & H1 & H2 & H3 & H4 & H5).
  set (cert sig := mkCertificate (chain_id p) (realm_id p) (validator_tree_root p) (proposal_id p)
                    (foldl bitmap_set (replicate 32 0) votes.*1) sig).
  pose proof (formed_signers p votes [] Hnd Hr) as Hperm. fold (cert []) in Hperm.
  remember (signer_sub_ids (cert [])) as ids eqn:Hids0.
  rewrite <- H1 in Hperm. destruct (Permutation_map_inv fst _ Hperm) as (t' & Hids & Hp).
  destruct (aggregate_verifies (proposal_vote_message p) t.*2 t'.*2) as (agg & Hagg & Hver).
  { intros E. apply (f_equal length) in H2. rewrite E, !length_fmap in H2. cbn [length] in H2. lia. }
  { by apply fmap_Permutation. }
  { by rewrite H3. }
  { done. }
  assert (signer_sub_ids (cert agg) = ids) as Hc by (subst ids; by apply signer_sub_ids_bitmap).
  assert (length (signer_bitmap (cert agg)) = 32%nat) as Hl by apply length_set_bits.
  assert (length ids = length votes) as Hlen by (by rewrite Hperm, H1, length_fmap).
  exists (cert agg). split_and!.
  - unfold form_certificate. rewrite (proj2 (Nat.eqb_neq _ _)) by lia. rewrite formed_votes by done.
    cbn [outcome_bind]. by rewrite <- H2, Hagg.
  - apply validate_certificate_Ok; [done|]. unfold certifies. rewrite Hc. split_and!; [lia..| |done|done|done|done|done|lia| |].
    + eapply Forall_impl; [exact Hvs|]. by intros ? [].
    + by rewrite Hperm, H1.
    + exists t'.*2.*2. split; [|done]. rewrite Hp in H4. change (map fst t') with (t'.*1) in Hids. rewrite Hids.
      clear -H4. induction H4; by constructor.
  - by rewrite Hc, Hperm, H1.
  - by rewrite popcount_signers, Hc by exact Hl.
  - rewrite votes_meet_wait_NoDup by (lia || apply NoDup_signer_sub_ids). rewrite Hc. lia.
Qed.

Lemma signers_subset p c vs keys :
  length (signer_bitmap c) = 32%nat → validate_certificate p c vs keys = Ok tt →
  signer_sub_ids c ⊆+ vs ∧ Z.of_nat (length vs) ≤ 2 * Z.of_nat (length (signer_sub_ids c)).
Proof.
  intros Hl (_ & _ & _ & _ & Hth & Hin & _)%validate_certificate_Ok; [|done]. split; [|done].
  apply NoDup_submseteq; [apply NoDup_signer_sub_ids|]. by rewrite <- Forall_forall.
Qed.

(** C32: two certificates accepted against the same odd number of validators have a
    signer in common, whatever proposals they are for. *)
Theorem certificates_intersect p c p' c' vs keys keys' :
  NoDup vs → Z.odd (Z.of_nat (length vs)) = true →
  length (signer_bitmap c) = 32%nat → length (signer_bitmap c') = 32%nat →
  validate_certificate p c vs keys = Ok tt → validate_certificate p' c' vs keys' = Ok tt →
  ∃ s, s ∈ vs ∧ s ∈ signer_sub_ids c ∧ s ∈ signer_sub_ids c'.
Proof.
  intros Hnd Hodd Hl Hl' [Hs Hth]%signers_subset [Hs' Hth']%signers_subset; [|done..].
  destruct (decide (Exists (λ s, s ∈ signer_sub_ids c') (signer_sub_ids c))) as [Hex|Hno].
  - apply Exists_exists in Hex as (s & Hin & Hin'). exists s. split_and!; [|done..].
    by apply (elem_of_submseteq _ _ _ Hin Hs).
  - exfalso. assert (∀ s, s ∈ signer_sub_ids c → s ∉ signer_sub_ids c') as Hdis
      by (intros s ??; apply Hno, Exists_exists; by exists s).
    assert (signer_sub_ids c ++ signer_sub_ids c' ⊆+ vs) as Hsub%submseteq_length.
    { apply NoDup_submseteq; [by apply NoDup_app; split_and!; [apply NoDup_signer_sub_ids|exact Hdis|apply NoDup_signer_sub_ids]|].
      intros s [Hin|Hin]%elem_of_app; by eapply elem_of_submseteq. }
    rewrite length_app in Hsub. rewrite Zodd_mod in Hodd. apply Z.eqb_eq in Hodd.
    pose proof (Z.div_mod (Z.of_nat (length vs)) 2). lia.
Qed.
End certificate_theorems.

(** ** Submissions *)
Section submissions.
Context (sha256 : list Z → list Z).
Context {F Hash : Type} `{EqDecision F, EqDecision Hash, FieldHash F Hash, MerkleHasher Hash, Q256BitHash Hash}.
Context (verify_zk : Z → list Z → Hash → outcome unit).
Implicit Types (p : Proposal) (d : DecodedProposalBody) (o : RealmFinalizeGUTAPublicOutput F Hash)
  (u : PsyPreparedRealmBlockStateUpdates Hash).

(** The proposer's assembly of a proposal from the finalizer's output and proof, the
    state updates and the worker's reward tag. *)
Definition assemble_proposal (chain_id realm_id base_checkpoint_id local_sub_id : Z) (validator_tree_root : list Z)
    (output_bytes root_job_proof worker_tag : list Z) u : outcome (Proposal * list Z) :=
  let* state_updates_bytes := psy_ser_to_bytes_vec u in
  let* body := encode_proposal_body output_bytes root_job_proof state_updates_bytes worker_tag in
  let body_hash := sha256 body in
  let public_output_hash := sha256 output_bytes in
  let finalizer_proof_hash := sha256 root_job_proof in
  let backup_hash := sha256 state_updates_bytes in
  Ok (proposal_from_parts sha256 chain_id realm_id base_checkpoint_id local_sub_id validator_tree_root
        public_output_hash finalizer_proof_hash backup_hash body_hash, body).

(** The parts of a body, with the hashes the proposal commits to. *)
Definition body_of p d (body : list Z) : Prop :=
  body_wf (output d, proof d, state_updates d, worker_tag d) ∧
  body = body_bytes (output d, proof d, state_updates d, worker_tag d) ∧
  sha256 body = body_hash p ∧ sha256 (output d) = Wire.public_output_hash p ∧
  sha256 (proof d) = finalizer_proof_hash p ∧ sha256 (state_updates d) = backup_hash p.

Lemma decode_proposal_body_Ok p body d :
  bytes body → decode_proposal_body sha256 p body = Ok d ↔ body_of p d body.
Proof.
  intros Hb. unfold decode_proposal_body, Wire.decode_proposal_body, body_of.
  pose proof (strict_exact body_wf body_bytes proposal_body_reader _) as Hex. rewrite outcome_bind_Ok. split.
  - intros ([[[o pf] su] tag] & [Hwf <-]%Hex & Hd); [|done]. revert Hd.
    repeat (case_bool_decide; cbn [negb]; [|done]). intros [= <-]. done.
  - destruct d as [o pf su tag]. cbn [output proof state_updates worker_tag]. intros (Hwf & -> & <- & <- & <- & <-).
    exists (o, pf, su, tag). split; [by apply Hex|]. by rewrite !bool_decide_eq_true_2 by done.
Qed.

(** What an output must say for the identity of a proposal and the proposer's user. *)
Definition output_for (chain_id realm_id base_checkpoint_id proposer_sub_id : Z) (validator_tree_root : list Z)
    (validator_user_id : Z) o : Prop :=
  chain_domain o = realm_finalize_guta_chain_domain (F := F) chain_id ∧
  out_checkpoint_id o = from_u64_value (Hash := Hash) base_checkpoint_id ∧
  out_realm_id o = from_u64_value (Hash := Hash) realm_id ∧
  out_realm_sub_id o = proposer_sub_id ∧
  into_owned_32bytes (out_validator_tree_root o) = validator_tree_root ∧
  out_validator_user_id o = from_u64_value (Hash := Hash) validator_user_id.

Definition output_matches p (validator_user_id : Z) o : Prop :=
  output_for (Wire.chain_id p) (realm_id p) (base_checkpoint_id p) (proposer_sub_id p) (validator_tree_root p)
    validator_user_id o.

Definition roots_match u o : Prop :=
  old_realm_root u = old_node_value (state_transition (final_guta_header o)) ∧
  new_realm_root u = new_node_value (state_transition (final_guta_header o)).

Context `{!WireField F Hash}.

#[global] Instance into_bytes_inj : Inj (=) (=) (into_owned_32bytes (Hash := Hash)).
Proof. intros h h' E. by rewrite <- (wire_hash_of_bytes h), E, wire_hash_of_bytes. Qed.

Lemma require_declared_roots_Ok u o v : require_declared_roots_match_zk_output u o = Ok v ↔ roots_match u o.
Proof.
  unfold require_declared_roots_match_zk_output, roots_match. destruct v. split.
  - intros ([] & Ho%ensure_Ok%bool_decide_eq_true%(inj _) &
      ([] & Hn%ensure_Ok%bool_decide_eq_true%(inj _) & _)%outcome_bind_Ok)%outcome_bind_Ok. done.
  - intros [-> ->]. by rewrite !bool_decide_eq_true_2 by done.
Qed.

(** A submission is accepted. The proof is checked against the hash of the final header and of
    the reward root [H(H(reward_tag, A), worker_tag)], with [A] the output commitment. *)
Definition accepts p (body : list Z) (validator_user_id : Z) d : Prop :=
  proposal_compute_id sha256 p = proposal_id p ∧ root_nonzero (validator_tree_root p) ∧ body_of p d body ∧
  ∃ o u, output_wf o ∧ output d = finalize_output_bytes o ∧ output_matches p validator_user_id o ∧
         psy_ser_from_slice (state_updates d) = Ok u ∧ roots_match u o ∧
         verify_zk RealmFinalizeGUTA (proof d)
           (two_to_one (header_qfhash (final_guta_header o))
              (two_to_one (two_to_one (root_guta_reward_tag o) (RealmFinalize.public_output_hash o))
                 (from_owned_32bytes (worker_tag d)))) = Ok tt.

Lemma verify_proposal_submission_Ok p body validator_user_id d :
  bytes body →
  verify_proposal_submission (F := F) sha256 verify_zk p body validator_user_id = Ok d ↔
  accepts p body validator_user_id d.
Proof.
  intros Hb. unfold verify_proposal_submission, accepts, output_matches, output_for. split.
  - intros ([] & Hid & ([] & Hnz & (d' & Hd & (o & Ho & Hrest)%outcome_bind_Ok)%outcome_bind_Ok)%outcome_bind_Ok)%outcome_bind_Ok.
    apply ensure_Ok, bool_decide_eq_true in Hid. apply require_nonzero_Ok in Hnz.
    apply decode_proposal_body_Ok in Hd; [|done]. pose proof Hd as [([_ Hbo] & _) _].
    apply decode_finalize_output_only in Ho as [Hwf Ho]; [|done].
    do 6 (apply outcome_bind_Ok in Hrest as ([] & ?%ensure_Ok & Hrest)).
    apply outcome_bind_Ok in Hrest as (u & Hu & (v & Hr%require_declared_roots_Ok & ([] & Hzk & [= <-])%outcome_bind_Ok)%outcome_bind_Ok).
    rewrite !bool_decide_eq_true, Z.eqb_eq in *. split_and!; [done..|]. by exists o, u.
  - intros (Hid & Hnz & Hd & o & u & Hwf & Ho & (Hcd & Hck & Hre & Hsub & Hvr & Hus) & Hu & Hr & Hzk).
    rewrite bool_decide_eq_true_2 by done. cbn [ensure outcome_bind].
    rewrite (proj2 (require_nonzero_Ok _ tt)) by done. cbn [outcome_bind].
    rewrite (proj2 (decode_proposal_body_Ok _ _ d Hb)) by done. cbn [outcome_bind].
    rewrite Ho, decode_finalize_output_back by done. cbn [outcome_bind].
    rewrite !bool_decide_eq_true_2, Hsub, Z.eqb_refl by done. cbn [ensure outcome_bind].
    unfold decode_proposal_state_updates. rewrite Hu. cbn [outcome_bind].
    rewrite (proj2 (require_declared_roots_Ok u o tt)) by done. cbn [outcome_bind].
    unfold finalize_public_input_hash, finalize_reward_root63. by rewrite Hzk.
Qed.

#[local] Instance wire_hash32 : Hash32 Hash.
Proof. split; [apply wire_hash_array|apply wire_hash_of_bytes]. Qed.


Lemma bytes_finalize_output o : bytes (finalize_output_bytes o).
Proof.
  unfold finalize_output_bytes. repeat apply Forall_app_2; try apply bytes_to_le_bytes; apply wire_hash_array.
Qed.

Lemma bytes_body a b c e : body_wf (a, b, c, e) → bytes (body_bytes (a, b, c, e)).
Proof.
  intros ([_ ?] & [_ ?] & [_ ?] & [_ ?] & _). unfold body_bytes, write_vec, write_fixed.
  repeat apply Forall_app_2; done || apply bytes_to_le_bytes.
Qed.

(** C31: what the proposer assembles from an output for its identity, a proof the verifier
    accepts for it and state updates with the same roots is accepted, and gives the
    verifier the proof and the state updates back. *)
Theorem honest_submission_accepted chain realm base sub root user o pf (tag : Hash) u :
  root_nonzero root → output_wf o → output_for chain realm base sub root user o → roots_match u o →
  vec_ok MAX_FINALIZER_PROOF_BYTES pf → state_updates_wf u → pio_serialized_size u ≤ MAX_BACKUP_BYTES →
  verify_zk RealmFinalizeGUTA pf (finalize_public_input_hash o tag) = Ok tt →
  ∃ p body d,
    assemble_proposal chain realm base sub root (finalize_output_bytes o) pf (into_owned_32bytes tag) u = Ok (p, body) ∧
    verify_proposal_submission (F := F) sha256 verify_zk p body user = Ok d ∧
    proof d = pf ∧ psy_ser_from_slice (state_updates d) = Ok u.
Proof.
  intros Hnz Ho Hof Hr Hpf Hu Hsz Hzk. destruct (canonical_codes u Hu) as (su & Hw & Hl & Hbsu & Hrd).
  assert (body_wf (finalize_output_bytes o, pf, su, into_owned_32bytes tag)) as Hwf.
  { unfold body_wf. split_and!; [|done| |apply wire_hash_array|apply wire_hash_canonical].
    - split; [by rewrite length_finalize_output|apply bytes_finalize_output].
    - split; [lia|done]. }
  assert (psy_ser_from_slice su = Ok u) as Hus.
  { unfold psy_ser_from_slice, from_cursor. rewrite <- (app_nil_r su), Hrd. done. }
  set (d := mkDecodedBody (finalize_output_bytes o) pf su (into_owned_32bytes tag)).
  eexists _, _, d. split_and!; [| |done|done].
  - unfold assemble_proposal, psy_ser_to_bytes_vec. rewrite Hw. cbn [outcome_bind].
    rewrite encode_proposal_body_ok by done. cbn [outcome_bind]. reflexivity.
  - apply verify_proposal_submission_Ok; [by apply bytes_body|]. split_and!; [done..|].
    exists o, u. split_and!; [done..|]. cbn [worker_tag d]. by rewrite wire_hash_of_bytes.
Qed.
End submissions.

(** ** A concrete suite

    Secrets, keys and signatures are elements of the Goldilocks field, a signature is
    the secret times a digest of the message. It has no security and all the laws. *)
Definition toy_digest (msg dst : list Z) : Z := gold_value (gold_mix (dst ++ msg)).
Definition toy_sum (l : list gold) : Z := foldr (λ g acc, gold_value g + acc) 0 l.
Definition toy_bytes (n : nat) (g : gold) : list Z := 128 :: to_le_bytes n (gold_value g).
Definition toy_point (bs : list Z) : option gold :=
  match bs with 128 :: bs => Some (gold_of (from_le_bytes bs)) | _ => None end.

Definition toy_blst : Blst := {|
  blst_sk := gold; blst_pk := gold; blst_sig := gold;
  blst_sk_to_pk sk := sk;
  blst_sign sk msg dst := gold_of (gold_value sk * toy_digest msg dst);
  blst_pk_from_bytes := toy_point;
  blst_pk_to_bytes := toy_bytes 47;
  blst_key_validate bs := bool_decide (is_Some (toy_point bs));
  blst_sig_from_bytes := toy_point;
  blst_sig_to_bytes := toy_bytes 95;
  blst_sig_validate _ := true;
  blst_verify s msg dst aug pk :=
    (gold_value s - gold_value pk * toy_digest (aug ++ msg) dst) mod GOLDILOCKS_ORDER =? 0;
  blst_aggregate sigs := match sigs with [] => None | _ => Some (gold_of (toy_sum sigs)) end;
  blst_fast_aggregate_verify s msg dst pks :=
    ((gold_value s - toy_sum pks * toy_digest msg dst) mod GOLDILOCKS_ORDER =? 0) &&
    negb (toy_sum pks mod GOLDILOCKS_ORDER =? 0);
  blst_keys_finite pks := negb (toy_sum pks mod GOLDILOCKS_ORDER =? 0);
|}.

#[local] Existing Instance toy_blst.

Lemma toy_array n g : (8 ≤ n)%nat → array_ok (Z.of_nat (S n)) (toy_bytes n g) ∧ compressed (toy_bytes n g) = true ∧
  toy_point (toy_bytes n g) = Some g.
Proof.
  intros Hn. pose proof (gold_range g). split_and!; [split|done|].
  - unfold toy_bytes. cbn [length]. by rewrite length_to_le_bytes.
  - constructor; [unfold is_byte; lia|apply bytes_to_le_bytes].
  - unfold toy_bytes, toy_point. f_equal. apply gold_eq.
    pose proof (pow2_mono 64 (8 * Z.of_nat n)). unfold GOLDILOCKS_ORDER in *.
    rewrite from_to_le_bytes by lia. by apply gold_of_small.
Qed.

Lemma toy_sum_Permutation l l' : l ≡ₚ l' → toy_sum l = toy_sum l'.
Proof. unfold toy_sum. induction 1; cbn [foldr] in *; [done|lia..]. Qed.

Lemma gold_of_sub x y : (gold_value (gold_of x) - y) mod GOLDILOCKS_ORDER = (x - y) mod GOLDILOCKS_ORDER.
Proof. cbn. by rewrite Zminus_mod_idemp_l. Qed.

#[local] Instance toy_laws : BlstLaws.
Proof.
  split; cbn.
  - intros pk. by destruct (toy_array 47 pk) as (? & ? & _); [lia|].
  - intros pk. apply (toy_array 47 pk). lia.
  - done.
  - intros s. by destruct (toy_array 95 s) as (? & ? & _); [lia|].
  - intros s. apply (toy_array 95 s). lia.
  - intros sk msg dst. by rewrite (gold_of_sub (gold_value sk * toy_digest msg dst)), Z.sub_diag.
  - intros votes votes' msg dst Hne Hp Hfin Hv. exists (gold_of (toy_sum votes.*1)). split_and!.
    + by destruct votes.
    + done.
    + rewrite <- (toy_sum_Permutation _ _ (fmap_Permutation snd _ _ Hp)), Hfin, andb_true_r.
      rewrite (gold_of_sub (toy_sum votes.*1)). apply Z.eqb_eq. clear Hne Hp Hfin.
      unfold toy_sum. induction Hv as [|[s pk] votes Hv _ IH]; [done|]. cbn [fmap list_fmap fst snd foldr app] in *.
      apply Z.eqb_eq in Hv.
      apply Z.mod_divide in IH as [a IH], Hv as [b Hv]; [|done..]. apply Z.mod_divide; [done|]. exists (a + b). lia.
Qed.

(** Three validators, two of which vote. *)
Definition example_proposal : Proposal :=
  proposal_from_parts id 17 1 3 2 (into_owned_32bytes (example_hash 20)) [1] [2] [3] [4].
Definition example_key (s : Z) : list Z := toy_bytes 47 (gold_of (s + 5)).
Definition example_keys : list (Z * list Z) := (λ s, (s, example_key s)) <$> [1; 2; 3].
Definition example_votes : list (Z * list Z) :=
  (λ s, (s, secret_sign_vote (gold_of (s + 5) : blst_sk) (proposal_vote_message example_proposal))) <$> [2; 1].

Lemma certificate_complete_witness :
  ∃ c, form_certificate example_proposal example_votes = Ok c ∧
       validate_certificate example_proposal c [1; 2; 3] example_keys = Ok tt ∧
       signer_sub_ids c ≡ₚ [2; 1] ∧ popcount c = 2%nat ∧ votes_meet_wait 3 (signer_sub_ids c) = true.
Proof.
  apply (certificate_complete example_proposal [1; 2; 3] example_keys example_votes).
  - done.
  - repeat constructor; lia.
  - intros Hf. apply Forall_inv in Hf. vm_compute in Hf. done.
  - change (example_votes.*1) with [2; 1]. repeat constructor; set_solver.
  - change (example_votes.*1) with [2; 1]. repeat constructor.
  - apply Forall_cons; split; [|apply Forall_singleton].
    + exists (example_key 2). by split; vm_compute.
    + exists (example_key 1). by split; vm_compute.
  - vm_compute. done.
  - intros pks Hf. change (example_votes.*1) with [2; 1] in Hf.
    inversion_clear Hf as [|? a ? l Ha Hf']. inversion_clear Hf' as [|? b ? l' Hb Hf'']. inversion_clear Hf''.
    vm_compute in Ha, Hb. simplify_eq. vm_compute. done.
Defined.

Definition example_certificate (ids : list Z) : Certificate :=
  match form_certificate example_proposal
          ((λ s, (s, secret_sign_vote (gold_of (s + 5) : blst_sk) (proposal_vote_message example_proposal))) <$> ids) with
  | Ok c => c
  | _ => mkCertificate 0 0 [] [] [] []
  end.

Lemma certificates_intersect_witness :
  ∃ s, s ∈ [1; 2; 3] ∧ s ∈ signer_sub_ids (example_certificate [2; 1]) ∧ s ∈ signer_sub_ids (example_certificate [3; 2]).
Proof.
  apply (certificates_intersect example_proposal (example_certificate [2; 1]) example_proposal
           (example_certificate [3; 2]) [1; 2; 3] example_keys example_keys).
  - repeat constructor; set_solver.
  - done.
  - vm_compute. done.
  - vm_compute. done.
  - vm_compute. done.
  - vm_compute. done.
Defined.

(** With an even number of validators two accepted certificates can be disjoint. *)
Lemma even_certificates_disjoint :
  validate_certificate example_proposal (example_certificate [1]) [1; 2] example_keys = Ok tt ∧
  validate_certificate example_proposal (example_certificate [2]) [1; 2] example_keys = Ok tt ∧
  signer_sub_ids (example_certificate [1]) = [1] ∧ signer_sub_ids (example_certificate [2]) = [2].
Proof. split_and!; vm_compute; done. Qed.

(** A verifier that accepts one proof of one public input, and state updates with the
    roots of [example_output]. *)
Definition example_updates : PsyPreparedRealmBlockStateUpdates gold4 :=
  mkStateUpdates 1 2 5 6 (example_hash 70) (example_hash 80) [1; 2; 3] [] [4] [] [].
Definition example_verifier (circuit : Z) (pf : list Z) (h : gold4) : outcome unit :=
  if (circuit =? 63) && bool_decide (pf = [9; 9]) &&
     bool_decide (h = finalize_public_input_hash example_output (example_hash 90))
  then Ok tt else Err "invalid proof".
Definition example_sha (bs : list Z) : list Z := to_le_bytes 32 (from_le_bytes bs * 31 + 7).

Lemma honest_submission_accepted_witness :
  ∃ p body d,
    assemble_proposal example_sha 17 1 3 2 (into_owned_32bytes (example_hash 20)) (finalize_output_bytes example_output)
      [9; 9] (into_owned_32bytes (example_hash 90)) example_updates = Ok (p, body) ∧
    verify_proposal_submission (F := gold) example_sha example_verifier p body 1048576 = Ok d ∧
    proof d = [9; 9] ∧ psy_ser_from_slice (state_updates d) = Ok example_updates.
Proof.
  apply (honest_submission_accepted example_sha example_verifier 17 1 3 2 _ 1048576 example_output [9; 9]).
  - intros Hf. apply Forall_inv in Hf. vm_compute in Hf. done.
  - unfold output_wf, uint_ok. cbn. lia.
  - by split_and!.
  - done.
  - split; [cbn; unfold MAX_FINALIZER_PROOF_BYTES; lia|]. repeat constructor; unfold is_byte; lia.
  - split_and!; cbn; unfold uint_ok, U32_MAX; try lia; (split; [cbn; lia|]); repeat constructor; unfold is_byte; lia.
  - cbn. unfold MAX_BACKUP_BYTES. lia.
  - unfold example_verifier. by rewrite !bool_decide_eq_true_2 by done.
Defined.

Definition example_body : Proposal * list Z :=
  match assemble_proposal example_sha 17 1 3 2 (into_owned_32bytes (example_hash 20))
          (finalize_output_bytes example_output) [9; 9] (into_owned_32bytes (example_hash 90)) example_updates with
  | Ok r => r
  | _ => (example_proposal, [])
  end.

Lemma bytes_of_bool l : forallb (λ b, (0 <=? b) && (b <? 256)) l = true → bytes l.
Proof.
  intros Hf. apply Forall_forall. intros b Hb%list_elem_of_In. rewrite forallb_forall in Hf.
  specialize (Hf b Hb). unfold is_byte. lia.
Qed.

Definition example_decoded : DecodedProposalBody :=
  mkDecodedBody (finalize_output_bytes example_output) [9; 9]
    (match psy_ser_to_bytes_vec example_updates with Ok bs => bs | _ => [] end) (into_owned_32bytes (example_hash 90)).

