(* ===== verification/Reassembly.v ===== *)
(** * Reassembly of proposal bodies

    [psy_node_common/src/realm/network/reassembly.rs]: chunks of a proposal body
    arrive in any order and are written at their offsets; a bounded book keeps
    the reassemblies in flight. Instants and durations are integers. The ordered
    map of recovered ranges is a list sorted by offset. *)
From stdpp Require Import prelude gmap list strings.
From Stdlib Require Import ZArith Lia.
From S2P Require Import Prelude Wire.

Inductive InsertOutcome : Type := Inserted | Duplicate | Complete.
Inductive StartOutcome : Type := StartInserted | StartDuplicate.

Record ProposalReassembly : Type := mkReassembly {
  proposal : Proposal;
  total_parts : Z;
  body_len : Z;
  ranges : list (Z * Z);
  contiguous : Z;
  body : list Z;
  created_at : Z;
  last_request_at : option Z;
  direct_request_active : bool;
}.

Record ReassemblyBook : Type := mkBook {
  reassemblies : gmap (list Z) ProposalReassembly;
  insertion_order : list (list Z);
  max_in_flight : Z;
  chunk_bytes : Z;
  expiry : Z;
}.

(** ** One reassembly *)
Definition validate_start (total_parts body_len : Z) : outcome unit :=
  if (total_parts =? 0) || (MAX_PROPOSAL_PARTS <? total_parts) then Err "total_parts outside bounds" else
  if (body_len =? 0) || (MAX_PROPOSAL_BODY_BYTES <? body_len) then Err "body_len outside bounds" else Ok tt.

Definition reassembly_new (p : Proposal) (total_parts body_len now : Z) : outcome ProposalReassembly :=
  let* _ := validate_start total_parts body_len in
  let body := replicate (Z.to_nat body_len) 0 in
  Ok (mkReassembly p total_parts body_len [] 0 body now None false).

Section reassembly.
Implicit Types self : ProposalReassembly.

Definition set_direct_request_active self (active : bool) (now : Z) : ProposalReassembly :=
  mkReassembly (proposal self) (total_parts self) (body_len self) (ranges self) (contiguous self) (body self)
    (created_at self) (if active then Some now else last_request_at self) active.

(** [duration_since] saturates at zero. *)
Definition is_expired self (now expiry : Z) : bool :=
  expiry <=? Z.max 0 (now - default (created_at self) (last_request_at self)).

(** [BTreeMap::insert] *)
Fixpoint range_insert (offset length : Z) (rs : list (Z * Z)) : list (Z * Z) :=
  match rs with
  | [] => [(offset, length)]
  | (o, l) :: rs' =>
      if offset <? o then (offset, length) :: rs
      else if offset =? o then (offset, length) :: rs'
      else (o, l) :: range_insert offset length rs'
  end.

Definition overlaps self (offset length : Z) : bool :=
  let end_ := wrap 64 (offset + length) in
  existsb (λ '(o, l), (o <=? offset) && (offset <? wrap 64 (o + l))) (ranges self) ||
  match find (λ '(o, _), (offset <=? o) && (o <? end_)) (ranges self) with
  | Some (next_offset, _) => next_offset <? end_
  | None => false
  end.

Fixpoint contiguous_loop (c : Z) (rs : list (Z * Z)) : Z :=
  match rs with
  | [] => c
  | (offset, length) :: rs => if offset =? c then contiguous_loop (wrap 64 (c + length)) rs else c
  end.

Definition recompute_contiguous self : ProposalReassembly :=
  mkReassembly (proposal self) (total_parts self) (body_len self) (ranges self)
    (contiguous_loop 0 (ranges self)) (body self) (created_at self) (last_request_at self)
    (direct_request_active self).

Definition is_complete self : bool := body_len self <=? contiguous self.

(** The slice assignment panics outside the buffer. *)
Definition write_at (offset : Z) (data buf : list Z) : outcome (list Z) :=
  if Z.of_nat (length buf) <? offset + Z.of_nat (length data) then Panic
  else Ok (take (Z.to_nat offset) buf ++ data ++ drop (Z.to_nat offset + length data) buf).

Definition touch self (now : Z) : ProposalReassembly :=
  mkReassembly (proposal self) (total_parts self) (body_len self) (ranges self) (contiguous self) (body self)
    (created_at self) (Some now) (direct_request_active self).

Definition insert_chunk self (offset : Z) (data : list Z) (now : Z)
    : outcome InsertOutcome * ProposalReassembly :=
  let len := wrap 32 (Z.of_nat (length data)) in
  if len =? 0 then (Err "chunk data is empty", self) else
  let end_ := offset + Z.of_nat (length data) in
  if 2 ^ 64 <=? end_ then (Err "chunk offset+length overflow", self) else
  if body_len self <? end_ then (Err "chunk range exceeds body length", self) else
  let self := touch self now in
  if overlaps self offset len then (Ok Duplicate, self) else
  match write_at offset data (body self) with
  | Ok body' =>
      let self := recompute_contiguous
        (mkReassembly (proposal self) (total_parts self) (body_len self)
           (range_insert offset len (ranges self)) (contiguous self) body' (created_at self)
           (last_request_at self) (direct_request_active self)) in
      (Ok (if body_len self <=? contiguous self then Complete else Inserted), self)
  | _ => (Panic, self)
  end.
End reassembly.

Section book.
(** SHA-256, from outside the repository. *)
Context (sha256 : list Z → list Z).

Definition into_verified_body (self : ProposalReassembly) : outcome (list Z * list Z) :=
  if negb (is_complete self) then Err "proposal body is not complete" else
  let hash := sha256 (body self) in
  if bool_decide (hash = body_hash (proposal self)) then Ok (body self, hash)
  else Err "proposal body hash mismatch".

(** ** The book *)
Implicit Types self : ReassemblyBook.

Definition book_new (max_in_flight chunk_bytes expiry : Z) : ReassemblyBook :=
  mkBook ∅ [] max_in_flight chunk_bytes expiry.

Definition with_entries self (es : gmap (list Z) ProposalReassembly) (order : list (list Z)) : ReassemblyBook :=
  mkBook es order (max_in_flight self) (chunk_bytes self) (expiry self).

(** [retain(|id| id != x)] *)
Definition retain_ne (x : list Z) (l : list (list Z)) : list (list Z) := filter (λ id, id ≠ x) l.

Definition start self (p : Proposal) (total_parts body_len now : Z) : outcome StartOutcome * ReassemblyBook :=
  let id := proposal_id p in
  if bool_decide (is_Some (reassemblies self !! id)) then (Ok StartDuplicate, self) else
  let self :=
    if max_in_flight self <=? Z.of_nat (size (reassemblies self)) then
      match insertion_order self with
      | oldest :: _ =>
          with_entries self (delete oldest (reassemblies self)) (retain_ne oldest (insertion_order self))
      | [] => self
      end
    else self in
  match reassembly_new p total_parts body_len now with
  | Ok r => (Ok StartInserted, with_entries self (<[id := r]> (reassemblies self)) (insertion_order self ++ [id]))
  | Err e => (Err e, self)
  | Panic => (Panic, self)
  | Diverge => (Diverge, self)
  end.

Definition book_insert_chunk self (id : list Z) (offset : Z) (data : list Z) (now : Z)
    : outcome InsertOutcome * ReassemblyBook :=
  if chunk_bytes self <? Z.of_nat (length data) then (Err "chunk length exceeds bound", self) else
  match reassemblies self !! id with
  | None => (Err "chunk for unknown proposal", self)
  | Some r =>
      let '(o, r) := insert_chunk r offset data now in
      (o, with_entries self (<[id := r]> (reassemblies self)) (insertion_order self))
  end.

(** [get_mut] followed by [set_direct_request_active]. *)
Definition book_set_active self (id : list Z) (active : bool) (now : Z) : ReassemblyBook :=
  match reassemblies self !! id with
  | None => self
  | Some r =>
      with_entries self (<[id := set_direct_request_active r active now]> (reassemblies self)) (insertion_order self)
  end.

Definition finalize self (id : list Z) : outcome (Proposal * (list Z * list Z)) * ReassemblyBook :=
  match reassemblies self !! id with
  | None => (Err "finalize for unknown proposal", self)
  | Some r =>
      let self := with_entries self (delete id (reassemblies self)) (retain_ne id (insertion_order self)) in
      (let* body := into_verified_body r in Ok (proposal r, body), self)
  end.

Definition discard self (id : list Z) : ReassemblyBook :=
  match reassemblies self !! id with
  | None => self
  | Some _ => with_entries self (delete id (reassemblies self)) (retain_ne id (insertion_order self))
  end.

Definition is_expired_at self (now : Z) (id : list Z) : bool :=
  match reassemblies self !! id with Some r => is_expired r now (expiry self) | None => false end.

Definition expire self (now : Z) : list (list Z) * ReassemblyBook :=
  let expired := filter (λ id, is_expired_at self now id = true) (insertion_order self) in
  (expired,
   with_entries self (foldl (λ m id, delete id m) (reassemblies self) expired)
     (filter (λ id, id ∉ expired) (insertion_order self))).
End book.

(** ** Recovered ranges *)
Definition covers (rs : list (Z * Z)) (i : Z) : Prop := ∃ o l, (o, l) ∈ rs ∧ o ≤ i < o + l.

(** Sorted, disjoint, non-empty ranges between [lo] and [hi]. *)
Fixpoint ranges_ok (lo : Z) (rs : list (Z * Z)) (hi : Z) : Prop :=
  match rs with
  | [] => lo ≤ hi
  | (o, l) :: rs => lo ≤ o ∧ 0 < l ∧ ranges_ok (o + l) rs hi
  end.

Lemma covers_cons o l rs i : covers ((o, l) :: rs) i ↔ o ≤ i < o + l ∨ covers rs i.
Proof. unfold covers. setoid_rewrite elem_of_cons. naive_solver. Qed.

Lemma not_covers_nil i : ¬ covers [] i.
Proof. intros (o & l & H & _). by apply elem_of_nil in H. Qed.

Lemma ranges_ok_elem rs hi : ∀ lo o l,
  ranges_ok lo rs hi → (o, l) ∈ rs → lo ≤ o ∧ 0 < l ∧ o + l ≤ hi.
Proof.
  induction rs as [|[o' l'] rs IH]; intros lo o l Hok Hin; [by apply elem_of_nil in Hin|].
  destruct Hok as (H1 & H2 & H3). apply elem_of_cons in Hin as [[= -> ->]|Hin].
  - split_and!; [done|done|]. clear -H3. revert o' l' H3.
    assert (∀ lo, ranges_ok lo rs hi → lo ≤ hi) as H; [|intros; by apply H].
    induction rs as [|[a b] rs IH]; intros lo; cbn; [done|]. intros (? & ? & ?%IH). lia.
  - destruct (IH _ _ _ H3 Hin). lia.
Qed.

(** Two ranges of a sorted list that meet are the same. *)
Lemma ranges_ok_meet rs hi : ∀ lo o l o' l' i,
  ranges_ok lo rs hi → (o, l) ∈ rs → (o', l') ∈ rs → o ≤ i < o + l → o' ≤ i < o' + l' → o = o' ∧ l = l'.
Proof.
  induction rs as [|[a b] rs IH]; intros lo o l o' l' i Hok H1 H2 Hi Hi'; [by apply elem_of_nil in H1|].
  destruct Hok as (Ha & Hb & Hok).
  apply elem_of_cons in H1 as [[= -> ->]|H1]; apply elem_of_cons in H2 as [[= -> ->]|H2]; [done| | |by eapply IH].
  - pose proof (ranges_ok_elem _ _ _ _ _ Hok H2). lia.
  - pose proof (ranges_ok_elem _ _ _ _ _ Hok H1). lia.
Qed.

Definition apart (rs : list (Z * Z)) (o l : Z) : Prop :=
  ∀ o' l', (o', l') ∈ rs → o' + l' ≤ o ∨ o + l ≤ o'.

Lemma elem_of_range_insert rs o l o' l' :
  apart rs o l → 0 < l → Forall (λ r, 0 < r.2) rs →
  (o', l') ∈ range_insert o l rs ↔ (o', l') = (o, l) ∨ (o', l') ∈ rs.
Proof.
  intros Ha Hl Hpos. induction rs as [|[a b] rs IH]; cbn [range_insert].
  { rewrite list_elem_of_singleton. set_solver. }
  apply Forall_cons in Hpos as [Hb Hpos]. cbn in Hb.
  pose proof (Ha a b ltac:(set_solver)) as Hab.
  destruct (Z.ltb_spec o a); [set_solver|]. destruct (Z.eqb_spec o a); [lia|].
  rewrite elem_of_cons, IH by (done || (intros ???; apply Ha; set_solver)). set_solver.
Qed.

Lemma range_insert_ok rs hi o l : ∀ lo,
  ranges_ok lo rs hi → apart rs o l → lo ≤ o → 0 < l → o + l ≤ hi → ranges_ok lo (range_insert o l rs) hi.
Proof.
  induction rs as [|[a b] rs IH]; intros lo Hok Ha Hlo Hl Hhi; [cbn; lia|]. cbn [range_insert].
  pose proof (Ha a b ltac:(set_solver)) as Hab. destruct Hok as (H1 & H2 & H3).
  destruct (Z.ltb_spec o a); [cbn; split_and!; (done || lia)|]. destruct (Z.eqb_spec o a); [lia|].
  cbn [ranges_ok]. split_and!; [done|done|]. apply IH; [done| |lia|done|done].
  intros ???. apply Ha. set_solver.
Qed.

(** The contiguous prefix ends at the first position that is not recovered. *)
Lemma contiguous_loop_spec rs hi : ∀ c,
  0 ≤ c → hi < 2 ^ 64 → ranges_ok c rs hi →
  c ≤ contiguous_loop c rs ≤ hi ∧ (∀ i, c ≤ i < contiguous_loop c rs → covers rs i) ∧
  ¬ covers rs (contiguous_loop c rs).
Proof.
  induction rs as [|[o l] rs IH]; intros c Hc Hhi Hok.
  { cbn in *. split_and!; [lia|lia|lia|apply not_covers_nil]. }
  destruct (ranges_ok_elem _ _ _ o l Hok ltac:(set_solver)) as (_ & _ & Hol).
  destruct Hok as (H1 & H2 & H3). cbn [contiguous_loop]. destruct (Z.eqb_spec o c) as [->|Hne].
  - rewrite wrap_small by lia. destruct (IH (c + l) ltac:(lia) Hhi H3) as (H4 & H5 & H6).
    split_and!; [lia|lia| |].
    + intros i Hi. rewrite covers_cons. destruct (decide (i < c + l)); [left; lia|right; apply H5; lia].
    + rewrite covers_cons. intros [?|?]; [lia|done].
  - split_and!; [lia|lia|lia|]. rewrite covers_cons. intros [?|(a & b & Hin & ?)]; [lia|].
    destruct (ranges_ok_elem _ _ _ _ _ H3 Hin). lia.
Qed.

Lemma overlaps_false self o l hi :
  ranges_ok 0 (ranges self) hi → hi < 2 ^ 64 → 0 ≤ o → 0 < l → o + l ≤ hi →
  overlaps self o l = false → apart (ranges self) o l.
Proof.
  intros Hok Hhi Ho Hl Hol Hf o' l' Hin. unfold overlaps in Hf. rewrite wrap_small in Hf by lia.
  apply orb_false_iff in Hf as [Hf1 Hf2]. pose proof (ranges_ok_elem _ _ _ _ _ Hok Hin) as (H1 & H2 & H3).
  apply list_elem_of_In in Hin as HIn.
  destruct (decide (o' ≤ o)) as [Hle|Hgt].
  - left. destruct (decide (o' + l' ≤ o)); [done|]. exfalso. apply not_true_iff_false in Hf1. apply Hf1.
    apply existsb_exists. exists (o', l'). split; [done|]. rewrite wrap_small by lia. lia.
  - right. destruct (decide (o + l ≤ o')); [done|]. exfalso.
    destruct (find _ (ranges self)) as [[a b]|] eqn:E.
    + apply find_some in E as [_ E]. lia.
    + apply find_none with (x := (o', l')) in E; [|done]. cbn in E. lia.
Qed.

Lemma overlaps_true self o l hi :
  ranges_ok 0 (ranges self) hi → hi < 2 ^ 64 → 0 ≤ o → 0 < l → o + l ≤ hi →
  overlaps self o l = true → ∃ o' l' i, (o', l') ∈ ranges self ∧ o ≤ i < o + l ∧ o' ≤ i < o' + l'.
Proof.
  intros Hok Hhi Ho Hl Hol Ht. unfold overlaps in Ht. rewrite wrap_small in Ht by lia.
  apply orb_true_iff in Ht as [Ht|Ht].
  - apply existsb_exists in Ht as ([o' l'] & Hin%list_elem_of_In & Ht).
    pose proof (ranges_ok_elem _ _ _ _ _ Hok Hin) as (H1 & H2 & H3). rewrite wrap_small in Ht by lia.
    exists o', l', o. split; [done|]. lia.
  - destruct (find _ (ranges self)) as [[a b]|] eqn:E; [|done].
    apply find_some in E as [Hin%list_elem_of_In E].
    pose proof (ranges_ok_elem _ _ _ _ _ Hok Hin) as (H1 & H2 & H3). exists a, b, a. split; [done|]. lia.
Qed.

(** ** Delivering the chunks of a body *)

(** [(o, d)] is a piece of the body [B]. *)
Definition chunk_of (B : list Z) (c : Z * list Z) : Prop :=
  0 ≤ c.1 ∧ c.2 ≠ [] ∧ c.1 + Z.of_nat (length c.2) ≤ Z.of_nat (length B) ∧
  c.2 = take (length c.2) (drop (Z.to_nat c.1) B).

Definition chunk_range (c : Z * list Z) : Z * Z := (c.1, Z.of_nat (length c.2)).

(** What is recovered so far is right. *)
Record good (B : list Z) (self : ProposalReassembly) : Prop := {
  good_bound : 1 ≤ body_len self ≤ MAX_PROPOSAL_BODY_BYTES;
  good_len : body_len self = Z.of_nat (length B);
  good_buffer : length (body self) = length B;
  good_ranges : ranges_ok 0 (ranges self) (body_len self);
  good_contiguous : contiguous self = contiguous_loop 0 (ranges self);
  good_bytes : ∀ i : nat, covers (ranges self) (Z.of_nat i) → body self !! i = B !! i;
}.

Lemma good_complete B self : good B self → is_complete self = true ↔ ∀ i, 0 ≤ i < body_len self → covers (ranges self) i.
Proof.
  intros Hg. unfold is_complete. rewrite (good_contiguous B self Hg).
  pose proof (good_bound B self Hg) as Hb.
  destruct (contiguous_loop_spec (ranges self) (body_len self) 0) as (H1 & H2 & H3);
    [lia|change MAX_PROPOSAL_BODY_BYTES with 105120198 in Hb; lia|apply Hg|].
  rewrite Z.leb_le. split.
  - intros Hc i Hi. apply H2. lia.
  - intros Hc. destruct (decide (body_len self ≤ contiguous_loop 0 (ranges self))); [done|].
    destruct H3. apply Hc. lia.
Qed.

Lemma write_at_chunk B buf c :
  chunk_of B c → length buf = length B →
  ∃ buf', write_at c.1 c.2 buf = Ok buf' ∧ length buf' = length B ∧
    ∀ i : nat, buf' !! i = if decide (c.1 ≤ Z.of_nat i < c.1 + Z.of_nat (length c.2)) then B !! i else buf !! i.
Proof.
  destruct c as [o d]. cbn [fst snd]. intros (Ho & Hne & Hle & Hd) Hl. cbn [fst snd] in *.
  unfold write_at. rewrite (proj2 (Z.ltb_ge _ _)) by lia. eexists. split; [done|].
  assert (length (take (Z.to_nat o) buf) = Z.to_nat o) as Hlt by (rewrite length_take; lia).
  split; [rewrite !length_app, Hlt, length_drop; lia|]. intros i.
  destruct (decide _) as [Hi|Hi].
  - rewrite lookup_app_r, lookup_app_l by lia. rewrite Hlt, Hd, lookup_take_lt, lookup_drop by lia. f_equal. lia.
  - destruct (decide (Z.of_nat i < o)).
    + rewrite lookup_app_l, lookup_take_lt by lia. done.
    + rewrite lookup_app_r, lookup_app_r, lookup_drop by lia. f_equal. lia.
Qed.

Lemma insert_chunk_good B self c now :
  good B self → chunk_of B c →
  ∃ out self', insert_chunk self c.1 c.2 now = (Ok out, self') ∧ good B self' ∧ proposal self' = proposal self ∧
    ((out = Duplicate ∧ ranges self' = ranges self ∧ overlaps self c.1 (Z.of_nat (length c.2)) = true) ∨
     (out = (if is_complete self' then Complete else Inserted) ∧
      ∀ r, r ∈ ranges self' ↔ r = chunk_range c ∨ r ∈ ranges self)).
Proof.
  intros Hg Hc. pose proof Hc as (Ho & Hne & Hle & _). pose proof (good_bound B self Hg) as Hb.
  pose proof (good_len B self Hg) as Hlen. change MAX_PROPOSAL_BODY_BYTES with 105120198 in Hb.
  assert (0 < length c.2)%nat by (destruct c.2; [done|cbn; lia]).
  unfold insert_chunk. rewrite wrap_small by lia. rewrite (proj2 (Z.eqb_neq _ _)) by lia.
  rewrite (proj2 (Z.leb_gt _ _)) by lia. rewrite (proj2 (Z.ltb_ge _ _)) by lia.
  change (overlaps (touch self now)) with (overlaps self). set (len := Z.of_nat (length c.2)) in *.
  destruct (overlaps self c.1 len) eqn:Eo.
  { eexists _, _. split; [done|]. split; [destruct Hg; by split|]. split; [done|]. by left. }
  destruct (write_at_chunk B (body self) c Hc (good_buffer B self Hg)) as (buf & Hw & Hbl & Hbuf).
  cbn [touch body]. rewrite Hw. cbn [touch proposal total_parts body_len ranges contiguous created_at last_request_at direct_request_active].
  pose proof (overlaps_false self c.1 len (body_len self) (good_ranges B self Hg)
    ltac:(lia) Ho ltac:(lia) ltac:(lia) Eo) as Hap.
  assert (Forall (λ r, 0 < r.2) (ranges self)) as Hpos.
  { apply Forall_forall. intros [o l] Hin. by destruct (ranges_ok_elem _ _ _ _ _ (good_ranges B self Hg) Hin) as (_ & ? & _). }
  assert (∀ r, r ∈ range_insert c.1 len (ranges self) ↔ r = chunk_range c ∨ r ∈ ranges self) as Hin
    by (intros [o l]; apply elem_of_range_insert; [done|lia|done]).
  eexists _, _. split; [reflexivity|]. split; [|split; [done|]; right; split; [done|exact Hin]].
  split; cbn; [change MAX_PROPOSAL_BODY_BYTES with 105120198; lia|done|done| |done|].
  - apply range_insert_ok; [apply (good_ranges B self Hg)|done|done|lia|lia].
  - intros i (o & l & Hol & Hi). rewrite Hbuf. destruct (decide _); [done|].
    apply (good_bytes B self Hg). apply Hin in Hol as [[= -> ->]|Hol]; [done|]. by exists o, l.
Qed.

Fixpoint deliver (self : ProposalReassembly) (cs : list (Z * list Z)) (now : Z) : outcome ProposalReassembly :=
  match cs with
  | [] => Ok self
  | (offset, data) :: cs =>
      let '(out, self) := insert_chunk self offset data now in
      let* _ := out in deliver self cs now
  end.

(** Sorted disjoint ranges that leave no gap. *)
Definition tiles (ts : list (Z * Z)) (n : Z) : Prop := ranges_ok 0 ts n ∧ ∀ i, 0 ≤ i < n → covers ts i.

Lemma deliver_good B now cs : ∀ self,
  good B self → Forall (chunk_of B) cs →
  ∃ self', deliver self cs now = Ok self' ∧ good B self' ∧ proposal self' = proposal self ∧
    ∀ ts, tiles ts (Z.of_nat (length B)) → (∀ r, r ∈ ranges self → r ∈ ts) →
      Forall (λ c, chunk_range c ∈ ts) cs →
      ∀ r, r ∈ ranges self' ↔ r ∈ ranges self ∨ r ∈ chunk_range <$> cs.
Proof.
  induction cs as [|c cs IH]; intros self Hg Hcs.
  { exists self. split_and!; [done|done|done|]. cbn. set_solver. }
  apply Forall_cons in Hcs as [Hc Hcs].
  destruct (insert_chunk_good B self c now Hg Hc) as (out & s1 & Hi & Hg1 & Hp1 & Hcase).
  destruct (IH s1 Hg1 Hcs) as (s2 & Hd & Hg2 & Hp2 & Ht2). exists s2. cbn [deliver].
  destruct c as [o d]. cbn [fst snd] in Hi. rewrite Hi. cbn [outcome_bind].
  split_and!; [done|done|congruence|]. intros ts Hts Hsub Hcts r.
  apply Forall_cons in Hcts as [Hct Hcts]. rewrite fmap_cons, elem_of_cons.
  destruct Hcase as [(_ & Hr & Ho)|(_ & Hr)].
  - assert (chunk_range (o, d) ∈ ranges self) as Hin.
    { destruct Hc as (Ho0 & Hne & Hle & _). cbn [fst snd] in *.
      assert (0 < length d)%nat by (destruct d; [done|cbn; lia]). pose proof (good_len B self Hg).
      pose proof (good_bound B self Hg) as Hb. change MAX_PROPOSAL_BODY_BYTES with 105120198 in Hb.
      destruct (overlaps_true self o (Z.of_nat (length d)) (body_len self) (good_ranges B self Hg)
        ltac:(lia) Ho0 ltac:(lia) ltac:(lia) Ho) as (o' & l' & i & Hin & Hi1 & Hi2).
      destruct (ranges_ok_meet _ _ _ _ _ _ _ _ (proj1 Hts) (Hsub _ Hin) Hct Hi2 Hi1) as [-> ->]. done. }
    rewrite (Ht2 ts Hts) by (rewrite ?Hr; done). rewrite Hr. naive_solver.
  - rewrite (Ht2 ts Hts); [|intros r' [->|?]%Hr; auto|done]. rewrite Hr. naive_solver.
Qed.

Lemma reassembly_new_good p parts B now :
  1 ≤ parts ≤ MAX_PROPOSAL_PARTS → 1 ≤ Z.of_nat (length B) ≤ MAX_PROPOSAL_BODY_BYTES →
  ∃ r, reassembly_new p parts (Z.of_nat (length B)) now = Ok r ∧ good B r ∧ proposal r = p ∧ ranges r = [].
Proof.
  intros Hp Hb. unfold reassembly_new, validate_start.
  assert ((parts =? 0) || (MAX_PROPOSAL_PARTS <? parts) = false) as -> by lia.
  assert ((Z.of_nat (length B) =? 0) || (MAX_PROPOSAL_BODY_BYTES <? Z.of_nat (length B)) = false) as -> by lia.
  cbn [outcome_bind]. eexists. split; [done|]. split; [|done]. split; cbn; [done|done| |lia|done|].
  - rewrite length_replicate. lia.
  - intros i Hi. by apply not_covers_nil in Hi.
Qed.

(** C12: reassembly. When the chunks that arrive are pieces of a body [B], in
    any order, with repetitions and overlaps, no insertion fails, and once the
    reassembly is complete its buffer is [B], which is handed out if its hash is
    the announced one. If the chunks come from one division of [B] into pieces
    and every piece arrives at least once, the reassembly is complete. *)
Theorem reassembly_correct (sha256 : list Z → list Z) (p : Proposal) (parts : Z) (B : list Z)
    (chunks : list (Z * list Z)) (now now' : Z) :
  1 ≤ parts ≤ MAX_PROPOSAL_PARTS → 1 ≤ Z.of_nat (length B) ≤ MAX_PROPOSAL_BODY_BYTES →
  Forall (chunk_of B) chunks →
  ∃ r0 r, reassembly_new p parts (Z.of_nat (length B)) now = Ok r0 ∧ deliver r0 chunks now' = Ok r ∧
    (is_complete r = true → body r = B) ∧
    (is_complete r = true → sha256 B = body_hash p → into_verified_body sha256 r = Ok (B, sha256 B)) ∧
    (∀ ts, tiles ts (Z.of_nat (length B)) → Forall (λ c, chunk_range c ∈ ts) chunks →
       Forall (λ t, t ∈ chunk_range <$> chunks) ts → is_complete r = true).
Proof.
  intros Hparts HB Hcs. destruct (reassembly_new_good p parts B now Hparts HB) as (r0 & Hr0 & Hg0 & Hp0 & Hrs).
  destruct (deliver_good B now' chunks r0 Hg0 Hcs) as (r & Hr & Hg & Hp & Hts).
  assert (is_complete r = true → body r = B) as Hbody.
  { intros Hc. apply list_eq. intros i. destruct (decide (i < length B)%nat) as [Hi|Hi].
    - apply (good_bytes B r Hg). apply (good_complete B r Hg); [done|]. rewrite (good_len B r Hg). lia.
    - rewrite !lookup_ge_None_2; [done|lia|rewrite (good_buffer B r Hg); lia]. }
  exists r0, r. split_and!; [done|done|done| |].
  - intros Hc Hsha. unfold into_verified_body. rewrite Hc, (Hbody Hc). cbn [negb].
    rewrite bool_decide_true; [done|]. by rewrite Hp, Hp0.
  - intros ts Ht Hin Hall. apply (good_complete B r Hg). rewrite (good_len B r Hg). intros i Hi.
    destruct (proj2 Ht i Hi) as (o & l & Hol & Hi'). exists o, l. split; [|done].
    apply (Hts ts Ht); [rewrite Hrs; by intros ? ?%elem_of_nil|done|]. right.
    rewrite Forall_forall in Hall. by apply Hall.
Qed.

Lemma reassembly_correct_witness :
  let B := [1; 2; 3; 4; 5] in
  let sha (l : list Z) := l in
  let p := mkProposal 0 0 0 0 [] [] [] [] [] B in
  ∃ r0 r, reassembly_new p 2 5 0 = Ok r0 ∧ deliver r0 [(3, [4; 5]); (0, [1; 2; 3]); (3, [4; 5])] 1 = Ok r ∧
    is_complete r = true ∧ body r = B ∧ into_verified_body sha r = Ok (B, B).
Proof.
  intros B sha p.
  destruct (reassembly_correct sha p 2 B [(3, [4; 5]); (0, [1; 2; 3]); (3, [4; 5])] 0 1)
    as (r0 & r & H0 & H1 & Hb & Hv & Ht).
  - vm_compute. split; discriminate.
  - vm_compute. split; discriminate.
  - repeat constructor; vm_compute; discriminate.
  - assert (is_complete r = true) as Hc.
    { apply (Ht [(0, 3); (3, 2)]).
      - split; [vm_compute; repeat split; discriminate|]. intros i Hi. change (Z.of_nat (length B)) with 5 in Hi.
        destruct (decide (i < 3)); [exists 0, 3|exists 3, 2]; (split; [repeat constructor|lia]).
      - repeat constructor.
      - repeat constructor. }
    exists r0, r. split; [exact H0|]. split; [exact H1|]. split; [exact Hc|]. split; [exact (Hb Hc)|].
    exact (Hv Hc eq_refl).
Defined.

(** ** The book *)
Lemma good_self B self : good B self → good (body self) self.
Proof. intros []. split; try done. congruence. Qed.

(** A chunk that is not announced anywhere is a piece of the buffer it makes. *)
Lemma fresh_chunk self o d :
  good (body self) self → 0 ≤ o → d ≠ [] → o + Z.of_nat (length d) ≤ body_len self →
  overlaps self o (Z.of_nat (length d)) = false →
  ∃ B, good B self ∧ chunk_of B (o, d).
Proof.
  intros Hg Ho Hne Hle Hov. pose proof (good_len _ _ Hg) as Hlen. pose proof (good_bound _ _ Hg) as Hb.
  change MAX_PROPOSAL_BODY_BYTES with 105120198 in Hb.
  assert (0 < length d)%nat by (destruct d; [done|cbn; lia]).
  pose proof (overlaps_false self o (Z.of_nat (length d)) (body_len self) (good_ranges _ _ Hg) ltac:(lia) Ho ltac:(lia) Hle Hov) as Hap.
  set (a := take (Z.to_nat o) (body self)). set (b := drop (Z.to_nat o + length d) (body self)).
  assert (length a = Z.to_nat o) as Hla by (unfold a; rewrite length_take; lia).
  exists (a ++ d ++ b). assert (length (a ++ d ++ b) = length (body self)) as Hl
    by (unfold b; rewrite !length_app, Hla, length_drop; lia).
  split.
  - destruct Hg as [? ? ? ? ? _]. split; [done|congruence|done|done|done|]. intros i (o' & l' & Hin & Hi).
    unfold a, b. destruct (Hap o' l' Hin).
    + rewrite lookup_app_l, lookup_take_lt by (rewrite ?length_take; lia). done.
    + rewrite lookup_app_r, lookup_app_r, lookup_drop by (rewrite ?length_take; lia).
      rewrite length_take. f_equal. lia.
  - split_and!; cbn [fst snd]; [done|done|lia|]. rewrite <- Hla, drop_app_length. by rewrite take_app_length.
Qed.

Lemma insert_chunk_any self o d now :
  good (body self) self → 0 ≤ o →
  ∃ out self', insert_chunk self o d now = (out, self') ∧ good (body self') self' ∧
    proposal self' = proposal self ∧ out ≠ Panic ∧ out ≠ Diverge.
Proof.
  intros Hg Ho. pose proof (good_bound _ _ Hg) as Hb. change MAX_PROPOSAL_BODY_BYTES with 105120198 in Hb.
  destruct (decide (wrap 32 (Z.of_nat (length d)) = 0)) as [E|Hne].
  { unfold insert_chunk. rewrite E. by eexists _, _. }
  destruct (decide (2 ^ 64 ≤ o + Z.of_nat (length d))) as [Hov|Hov].
  { unfold insert_chunk. rewrite (proj2 (Z.eqb_neq _ _) Hne), (proj2 (Z.leb_le _ _)) by lia. by eexists _, _. }
  destruct (decide (body_len self < o + Z.of_nat (length d))) as [Hex|Hex].
  { unfold insert_chunk. rewrite (proj2 (Z.eqb_neq _ _) Hne), (proj2 (Z.leb_gt _ _)) by lia.
    rewrite (proj2 (Z.ltb_lt _ _)) by lia. by eexists _, _. }
  assert (wrap 32 (Z.of_nat (length d)) = Z.of_nat (length d)) as Hw by (apply wrap_small; lia).
  destruct (overlaps self o (Z.of_nat (length d))) eqn:E.
  - unfold insert_chunk. rewrite (proj2 (Z.eqb_neq _ _) Hne), (proj2 (Z.leb_gt _ _)) by lia.
    rewrite (proj2 (Z.ltb_ge _ _)) by lia. change (overlaps (touch self now)) with (overlaps self).
    rewrite Hw, E. eexists _, _. split; [done|]. split; [destruct Hg; by split|done].
  - destruct (fresh_chunk self o d Hg Ho) as (B & HgB & Hc); [|lia|done|].
    { intros ->. by rewrite Hw in Hne. }
    destruct (insert_chunk_good B self (o, d) now HgB Hc) as (out & s' & Hi & Hg' & Hp & _).
    exists (Ok out), s'. split_and!; [done|by eapply good_self|done|done|done].
Qed.

Section book_invariant.
Context (sha256 : list Z → list Z).
Implicit Types b : ReassemblyBook.

Record book_inv b : Prop := {
  book_order : NoDup (insertion_order b);
  book_dom : ∀ id, id ∈ insertion_order b ↔ is_Some (reassemblies b !! id);
  book_bound : Z.of_nat (size (reassemblies b)) ≤ max_in_flight b;
  book_entries : ∀ id r, reassemblies b !! id = Some r → proposal_id (proposal r) = id ∧ good (body r) r;
}.

(** One operation of the book. *)
Inductive book_step b : ReassemblyBook → Prop :=
  | step_start p parts len now : 0 ≤ parts → 0 ≤ len → book_step b (start b p parts len now).2
  | step_chunk id offset data now : 0 ≤ offset → book_step b (book_insert_chunk b id offset data now).2
  | step_finalize id : book_step b (finalize sha256 b id).2
  | step_active id active now : book_step b (book_set_active b id active now)
  | step_discard id : book_step b (discard b id)
  | step_expire now : book_step b (expire b now).2.

Lemma size_order b : NoDup (insertion_order b) →
  (∀ id, id ∈ insertion_order b ↔ is_Some (reassemblies b !! id)) →
  length (insertion_order b) = size (reassemblies b).
Proof.
  intros Hnd Hdom. rewrite <- length_map_to_list, <- (length_fmap fst (map_to_list _)).
  apply Permutation_length, NoDup_Permutation; [done|apply NoDup_fst_map_to_list|].
  intros id. rewrite Hdom, list_elem_of_fmap. split.
  - intros [r Hr]. exists (id, r). split; [done|]. by apply elem_of_map_to_list.
  - intros ([id' r] & -> & Hr). apply elem_of_map_to_list in Hr. eauto.
Qed.

(** Removing entries together with their order. *)
Lemma remove_inv b (keep : list Z → Prop) `{!∀ id, Decision (keep id)} m :
  book_inv b → (∀ id, m !! id = if decide (keep id) then reassemblies b !! id else None) →
  book_inv (with_entries b m (filter keep (insertion_order b))).
Proof.
  intros Hinv Hm. split; cbn.
  - by apply NoDup_filter, Hinv.
  - intros id. rewrite list_elem_of_filter, (book_dom b Hinv), Hm. destruct (decide (keep id)); [naive_solver|].
    split; [naive_solver|by intros []].
  - etransitivity; [|apply (book_bound b Hinv)]. apply Nat2Z.inj_le, map_subseteq_size.
    apply map_subseteq_spec. intros id r. rewrite Hm. by destruct (decide (keep id)).
  - intros id r. rewrite Hm. destruct (decide (keep id)); [apply (book_entries b Hinv)|done].
Qed.

Lemma remove_one_inv b id :
  book_inv b → book_inv (with_entries b (delete id (reassemblies b)) (retain_ne id (insertion_order b))).
Proof.
  intros Hinv. apply (remove_inv b (λ x, x ≠ id)); [done|]. intros x. destruct (decide (x ≠ id)).
  - by rewrite lookup_delete_ne.
  - assert (x = id) as -> by (by apply dec_stable). apply lookup_delete_eq.
Qed.

Lemma foldl_delete_lookup (ids : list (list Z)) : ∀ (m : gmap (list Z) ProposalReassembly) id,
  foldl (λ m id, delete id m) m ids !! id = if decide (id ∉ ids) then m !! id else None.
Proof.
  induction ids as [|x ids IH]; intros m id; cbn [foldl]; [by rewrite decide_True by set_solver|].
  rewrite IH. destruct (decide (id = x)) as [->|Hne].
  - rewrite lookup_delete_eq, (decide_False (P := x ∉ x :: ids)) by set_solver. by destruct (decide (x ∉ ids)).
  - rewrite lookup_delete_ne by done. destruct (decide (id ∉ ids)).
    + by rewrite decide_True by set_solver.
    + by rewrite decide_False by set_solver.
Qed.

Lemma reassembly_new_inv p parts len now r :
  0 ≤ parts → 0 ≤ len → reassembly_new p parts len now = Ok r → proposal r = p ∧ good (body r) r.
Proof.
  intros Hparts Hlen H. assert (1 ≤ parts ≤ MAX_PROPOSAL_PARTS ∧ 1 ≤ len ≤ MAX_PROPOSAL_BODY_BYTES) as [H1 H2].
  { unfold reassembly_new, validate_start in H. case_match eqn:E1; [done|]. case_match eqn:E2; [done|]. lia. }
  destruct (reassembly_new_good p parts (replicate (Z.to_nat len) 0) now H1) as (r' & Hr' & Hg & Hp & _);
    rewrite length_replicate, Z2Nat.id in * by lia; [done|].
  rewrite Hr' in H. injection H as <-. split; [done|by eapply good_self].
Qed.

(** What [start] does to a full book before it looks at the new proposal. *)
Definition evicted b : ReassemblyBook :=
  if max_in_flight b <=? Z.of_nat (size (reassemblies b)) then
    match insertion_order b with
    | oldest :: _ => with_entries b (delete oldest (reassemblies b)) (retain_ne oldest (insertion_order b))
    | [] => b
    end
  else b.

Lemma evicted_inv b :
  book_inv b → 1 ≤ max_in_flight b →
  book_inv (evicted b) ∧ max_in_flight (evicted b) = max_in_flight b ∧
  Z.of_nat (size (reassemblies (evicted b))) < max_in_flight b ∧
  (∀ id, reassemblies b !! id = None → reassemblies (evicted b) !! id = None).
Proof.
  intros Hinv Hmax. unfold evicted. pose proof (book_bound b Hinv) as Hb.
  destruct (Z.leb_spec (max_in_flight b) (Z.of_nat (size (reassemblies b)))) as [Hfull|?]; [|by split_and!; try lia].
  pose proof (size_order b (book_order b Hinv) (book_dom b Hinv)) as Hsz.
  destruct (insertion_order b) as [|oldest rest] eqn:E; [cbn in Hsz; lia|]. rewrite <- E.
  split_and!; [by apply remove_one_inv|done| |].
  - cbn. rewrite map_size_delete. destruct (proj1 (book_dom b Hinv oldest)) as [r ->]; [rewrite E; by left|].
    cbn. lia.
  - intros id Hid. cbn. by apply lookup_delete_None; right.
Qed.

Lemma start_inv b p parts len now :
  book_inv b → 1 ≤ max_in_flight b → 0 ≤ parts → 0 ≤ len →
  book_inv (start b p parts len now).2 ∧ max_in_flight (start b p parts len now).2 = max_in_flight b.
Proof.
  intros Hinv Hmax Hparts Hlen. unfold start. case_bool_decide as Hid; [done|].
  assert (reassemblies b !! proposal_id p = None) as Hnone by (by apply eq_None_not_Some).
  fold (evicted b). destruct (evicted_inv b Hinv Hmax) as (Hinv' & Hm' & Hs' & Hn').
  destruct (reassembly_new p parts len now) as [r| | |] eqn:E; [|done..].
  destruct (reassembly_new_inv p parts len now r Hparts Hlen E) as [Hp Hg].
  specialize (Hn' _ Hnone). split; [|done]. split; cbn.
  - apply NoDup_app. split_and!; [apply Hinv'| |apply NoDup_singleton].
    intros x Hx ->%list_elem_of_singleton. apply (book_dom _ Hinv') in Hx as []. congruence.
  - intros x. rewrite elem_of_app, list_elem_of_singleton, (book_dom _ Hinv'), lookup_insert_is_Some'. naive_solver.
  - rewrite map_size_insert, Hn', Hm'. cbn. lia.
  - intros x r'. rewrite lookup_insert_Some. intros [[<- <-]|[_ Hr']]; [by split; [rewrite Hp|]|].
    by apply (book_entries _ Hinv').
Qed.

(** Replacing an entry by one of the same proposal. *)
Lemma replace_inv b id r r' :
  book_inv b → reassemblies b !! id = Some r → proposal r' = proposal r → good (body r') r' →
  book_inv (with_entries b (<[id := r']> (reassemblies b)) (insertion_order b)).
Proof.
  intros Hinv E Hp Hg'. destruct (book_entries b Hinv id r E) as [Hid _]. split; cbn.
  - apply Hinv.
  - intros x. rewrite (book_dom b Hinv), lookup_insert_is_Some'. naive_solver.
  - rewrite map_size_insert, E. apply (book_bound b Hinv).
  - intros x r0. rewrite lookup_insert_Some. intros [[<- <-]|[_ Hr]]; [by rewrite Hp|by apply (book_entries b Hinv)].
Qed.

Lemma chunk_inv b id offset data now :
  book_inv b → 0 ≤ offset →
  book_inv (book_insert_chunk b id offset data now).2 ∧
  max_in_flight (book_insert_chunk b id offset data now).2 = max_in_flight b ∧
  (book_insert_chunk b id offset data now).1 ≠ Panic.
Proof.
  intros Hinv Ho. unfold book_insert_chunk. case_match; [done|].
  destruct (reassemblies b !! id) as [r|] eqn:E; [|done]. destruct (book_entries b Hinv id r E) as [Hid Hg].
  destruct (insert_chunk_any r offset data now Hg Ho) as (out & r' & -> & Hg' & Hp & Hnp & _).
  split_and!; [by eapply replace_inv|done|done].
Qed.

Lemma book_step_inv b b' :
  book_inv b → 1 ≤ max_in_flight b → book_step b b' → book_inv b' ∧ max_in_flight b' = max_in_flight b.
Proof.
  intros Hinv Hmax []; [by apply start_inv|by split; apply chunk_inv|..].
  2: { unfold book_set_active. destruct (reassemblies b !! id) as [r|] eqn:E; [|done]. split; [|done].
    destruct (book_entries b Hinv id r E) as [_ []]. by eapply replace_inv. }
  - unfold finalize. destruct (reassemblies b !! id); [split; [by apply remove_one_inv|done]|done].
  - unfold discard. destruct (reassemblies b !! id); [split; [by apply remove_one_inv|done]|done].
  - split; [|done]. cbn. apply remove_inv; [done|]. apply foldl_delete_lookup.
Qed.
End book_invariant.

(** The book. From an empty book with room for at least one reassembly,
    every sequence of operations keeps at most that many reassemblies, lists
    each exactly once in its order, files each under the id of its proposal,
    and leaves no chunk insertion that panics. A [start] with invalid bounds
    fails, but on a full book it first evicts the oldest reassembly. *)
Theorem book_invariant (sha256 : list Z → list Z) (max chunk expiry : Z) (b : ReassemblyBook) :
  1 ≤ max → rtc (book_step sha256) (book_new max chunk expiry) b →
  (NoDup (insertion_order b) ∧ (∀ id, id ∈ insertion_order b ↔ is_Some (reassemblies b !! id)) ∧
   (length (insertion_order b) = size (reassemblies b)) ∧ Z.of_nat (size (reassemblies b)) ≤ max ∧
   (∀ id r, reassemblies b !! id = Some r → proposal_id (proposal r) = id)) ∧
  (∀ id offset data now, 0 ≤ offset → (book_insert_chunk b id offset data now).1 ≠ Panic) ∧
  (∀ p parts len now e oldest rest,
     reassemblies b !! proposal_id p = None → insertion_order b = oldest :: rest →
     Z.of_nat (size (reassemblies b)) = max → reassembly_new p parts len now = Err e →
     (start b p parts len now).1 = Err e ∧
     reassemblies (start b p parts len now).2 = delete oldest (reassemblies b)).
Proof.
  intros Hmax Hsteps. assert (book_inv b ∧ max_in_flight b = max) as [Hinv Hm].
  { assert (book_inv (book_new max chunk expiry) ∧ max_in_flight (book_new max chunk expiry) = max) as H0.
    { split; [|done]. split; cbn; [apply NoDup_nil_2| |rewrite map_size_empty; lia|].
      - intros id. rewrite lookup_empty. split; [by intros ?%elem_of_nil|by intros []].
      - intros id r. by rewrite lookup_empty. }
    revert H0. induction Hsteps as [|x y z Hxy _ IH]; [done|]. intros [Hx Hmx]. apply IH.
    destruct (book_step_inv sha256 x y Hx ltac:(lia) Hxy) as [? ->]. done. }
  split_and!; [apply Hinv|apply Hinv|apply size_order; apply Hinv|rewrite <- Hm; apply Hinv| | |].
  - intros id r Hr. by apply (book_entries b Hinv).
  - intros id offset data now Ho. by apply chunk_inv.
  - intros p parts len now e oldest rest Hnone Hord Hfull Hnew. unfold start.
    rewrite bool_decide_false by (rewrite Hnone; by intros []). rewrite Hnew, Hord, Hm.
    rewrite (proj2 (Z.leb_le _ _)) by lia. done.
Qed.

Lemma book_invariant_witness :
  let p id := mkProposal 0 0 0 0 [] id [] [] [] [] in
  let b := (start (start (book_new 1 10 5) (p [1]) 1 4 0).2 (p [2]) 1 4 0).2 in
  Z.of_nat (size (reassemblies b)) ≤ 1 ∧ insertion_order b = [[2]].
Proof.
  intros p b.
  destruct (book_invariant (λ l, l) 1 10 5 b) as [(_ & _ & _ & H & _) _].
  - lia.
  - apply rtc_l with (start (book_new 1 10 5) (p [1]) 1 4 0).2; [apply step_start; lia|].
    apply rtc_once. apply step_start; lia.
  - split; [exact H|reflexivity].
Defined.
