(* ===== verification/RealmRotation.v ===== *)
(** * Rotation of Realm proposers

    [parth_common/src/realm_rotation.rs]: the proposer of a Realm for an epoch is
    found by ninety rounds of a swap-or-not permutation seeded from the last
    checkpoint of the previous epoch. Field elements and the Poseidon hash are
    parameters. *)
From stdpp Require Import prelude list strings.
From Stdlib Require Import ZArith Lia.
From S2P Require Import Prelude.

(** The tags PSYROT02, PIVOTV01 and SOURCE01 as little-endian integers. *)
Definition SCHEDULE_DOMAIN : Z := 0x3230544f52595350.
Definition PIVOT_DOMAIN : Z := 0x313056544f564950.
Definition SOURCE_DOMAIN : Z := 0x3130454352554f53.
Definition GOLDILOCKS_FIELD_ORDER : Z := 0xffffffff00000001.

Record RealmRotationConfig : Type := mkRotation {
  checkpoints_per_epoch : Z;
  validator_sub_ids : list Z;
}.

Definition is_enabled (self : RealmRotationConfig) : bool :=
  (0 <? checkpoints_per_epoch self) && negb (length (validator_sub_ids self) =? 0)%nat.

Definition epoch (checkpoint_id checkpoints_per_epoch : Z) : Z := checkpoint_id / checkpoints_per_epoch.

Definition anchor_checkpoint_id (epoch checkpoints_per_epoch : Z) : Z :=
  Z.max 0 (wrap 64 (epoch * checkpoints_per_epoch) - 1).

Section rotation.
Context {F : Type} (from_u64_value : Z → F) (to_canonical_u64 : F → Z)
  (q_hash_many : list F → F * F * F * F).
Implicit Types (seed : F * F * F * F) (n index round : Z).

Definition first_felt (h : F * F * F * F) : F := let '(f0, _, _, _) := h in f0.

Definition round_pivot seed round n : Z :=
  let '(s0, s1, s2, s3) := seed in
  let pivot_hash := q_hash_many [from_u64_value PIVOT_DOMAIN; s0; s1; s2; s3; from_u64_value round] in
  let pivot_word := wrap 32 (to_canonical_u64 (first_felt pivot_hash)) in
  pivot_word mod n.

Definition round_source seed round (position : Z) : Z :=
  let '(s0, s1, s2, s3) := seed in
  to_canonical_u64 (first_felt
    (q_hash_many [from_u64_value SOURCE_DOMAIN; s0; s1; s2; s3; from_u64_value round; from_u64_value position])).

(** One round; the remainder by zero panics. *)
Definition rotation_round seed n round index : outcome Z :=
  let* _ := assert_ (negb (n =? 0)) in
  let pivot := round_pivot seed round n in
  let flip := wrap 64 (wrap 64 (pivot + n) - index) mod n in
  let position := Z.max index flip in
  Ok (if Z.land (round_source seed round position) 1 =? 1 then flip else index).

Fixpoint rotation_rounds seed n (rounds : list Z) index : outcome Z :=
  match rounds with
  | [] => Ok index
  | round :: rounds => let* index := rotation_round seed n round index in rotation_rounds seed n rounds index
  end.

Definition ROUNDS : list Z := Z.of_nat <$> seq 0 90.

Definition schedule_seed (realm_id epoch : Z) (anchor : Z * Z * Z * Z) : F * F * F * F :=
  let '(a0, a1, a2, a3) := anchor in
  q_hash_many [from_u64_value SCHEDULE_DOMAIN; from_u64_value realm_id;
               from_u64_value (Z.land epoch 0xffffffff); from_u64_value (u64_shr epoch 32);
               from_u64_value a0; from_u64_value a1; from_u64_value a2; from_u64_value a3].

Definition canonical_anchor (anchor : Z * Z * Z * Z) : bool :=
  let '(a0, a1, a2, a3) := anchor in
  forallb (λ limb, limb <? GOLDILOCKS_FIELD_ORDER) [a0; a1; a2; a3].

Definition proposer_sub_id (self : RealmRotationConfig) (realm_id checkpoint_id : Z)
    (anchor_seed : Z * Z * Z * Z) : outcome (option Z) :=
  if negb (is_enabled self) then Ok None else
  if negb (canonical_anchor anchor_seed) then Err "noncanonical anchor seed" else
  let n := Z.of_nat (length (validator_sub_ids self)) in
  let epoch := epoch checkpoint_id (checkpoints_per_epoch self) in
  let seed := schedule_seed realm_id epoch anchor_seed in
  let* index := rotation_rounds seed n ROUNDS 0 in
  let* id := unwrap (validator_sub_ids self !! Z.to_nat index) in
  Ok (Some id).

(** ** Each round is an involution of the indices *)
Definition flip_of (pivot n index : Z) : Z := (pivot + n - index) mod n.

Lemma flip_range pivot n index : 0 < n → 0 ≤ flip_of pivot n index < n.
Proof. intros. by apply Z.mod_pos_bound. Qed.

Lemma flip_flip pivot n index : 0 ≤ index < n → flip_of pivot n (flip_of pivot n index) = index.
Proof.
  intros Hi. unfold flip_of. rewrite Zminus_mod_idemp_r.
  replace (pivot + n - (pivot + n - index)) with index by lia. by apply Z.mod_small.
Qed.

Lemma rotation_round_ok seed n round index :
  0 < n < 2 ^ 32 → 0 ≤ index < n →
  ∃ j, rotation_round seed n round index = Ok j ∧ 0 ≤ j < n ∧ rotation_round seed n round j = Ok index.
Proof.
  intros Hn Hi. set (pivot := round_pivot seed round n).
  assert (0 ≤ pivot < n) as Hp.
  { unfold pivot, round_pivot. destruct seed as [[[s0 s1] s2] s3]. apply Z.mod_pos_bound. lia. }
  assert (∀ i, 0 ≤ i < n → rotation_round seed n round i =
    Ok (if Z.land (round_source seed round (Z.max i (flip_of pivot n i))) 1 =? 1 then flip_of pivot n i else i)) as Hr.
  { intros i Hin. unfold rotation_round, assert_. rewrite (proj2 (Z.eqb_neq _ _)) by lia. cbn [negb outcome_bind].
    fold pivot. rewrite (wrap_small 64 (pivot + n)), wrap_small by lia. done. }
  pose proof (flip_range pivot n index ltac:(lia)) as Hf. rewrite Hr by done.
  destruct (Z.land _ 1 =? 1) eqn:E; eexists; (split; [reflexivity|]); (split; [lia|]); rewrite Hr by lia.
  - rewrite flip_flip by lia. rewrite Z.max_comm in E. by rewrite E.
  - by rewrite E.
Qed.

Lemma rotation_rounds_ok seed n rounds : ∀ index,
  0 < n < 2 ^ 32 → 0 ≤ index < n → ∃ j, rotation_rounds seed n rounds index = Ok j ∧ 0 ≤ j < n.
Proof.
  induction rounds as [|round rounds IH]; intros index Hn Hi; cbn [rotation_rounds]; [eauto|].
  destruct (rotation_round_ok seed n round index Hn Hi) as (j & -> & Hj & _). by apply IH.
Qed.

Lemma rotation_rounds_inj seed n rounds : ∀ i j,
  0 < n < 2 ^ 32 → 0 ≤ i < n → 0 ≤ j < n →
  rotation_rounds seed n rounds i = rotation_rounds seed n rounds j → i = j.
Proof.
  induction rounds as [|round rounds IH]; intros i j Hn Hi Hj; cbn [rotation_rounds]; [congruence|].
  destruct (rotation_round_ok seed n round i Hn Hi) as (i' & -> & Hi' & Hi'').
  destruct (rotation_round_ok seed n round j Hn Hj) as (j' & -> & Hj' & Hj''). cbn [outcome_bind].
  intros E%IH; [|done..]. congruence.
Qed.
End rotation.

(** The proposer. When rotation is enabled and the anchor seed canonical,
    [proposer_sub_id] never panics and returns a registered validator, the same
    for all checkpoints of one epoch; the seed comes from a checkpoint before
    the epoch; a disabled rotation returns no proposer and a non-canonical seed
    is an error. The ninety rounds permute the validator indices, so different
    start indices select different validators. *)
Theorem proposer_sub_id_correct {F : Type} (from_u64_value : Z → F) (to_canonical_u64 : F → Z)
    (q_hash_many : list F → F * F * F * F) (self : RealmRotationConfig) (realm_id checkpoint_id : Z)
    (anchor_seed : Z * Z * Z * Z) :
  0 ≤ checkpoint_id < 2 ^ 64 → 0 ≤ checkpoints_per_epoch self < 2 ^ 64 →
  Z.of_nat (length (validator_sub_ids self)) < 2 ^ 32 →
  let proposer := proposer_sub_id from_u64_value to_canonical_u64 q_hash_many self realm_id in
  let n := Z.of_nat (length (validator_sub_ids self)) in
  (is_enabled self = false → proposer checkpoint_id anchor_seed = Ok None) ∧
  (is_enabled self = true → canonical_anchor anchor_seed = false →
     proposer checkpoint_id anchor_seed = Err "noncanonical anchor seed") ∧
  (is_enabled self = true → canonical_anchor anchor_seed = true →
     (∃ id, proposer checkpoint_id anchor_seed = Ok (Some id) ∧ id ∈ validator_sub_ids self) ∧
     (∀ c', epoch c' (checkpoints_per_epoch self) = epoch checkpoint_id (checkpoints_per_epoch self) →
        proposer c' anchor_seed = proposer checkpoint_id anchor_seed) ∧
     (let e := epoch checkpoint_id (checkpoints_per_epoch self) in
      let anchor := anchor_checkpoint_id e (checkpoints_per_epoch self) in
      0 < e → anchor < checkpoint_id ∧ epoch anchor (checkpoints_per_epoch self) = e - 1)) ∧
  (∀ seed i j, 0 ≤ i < n → 0 ≤ j < n →
     rotation_rounds from_u64_value to_canonical_u64 q_hash_many seed n ROUNDS i =
     rotation_rounds from_u64_value to_canonical_u64 q_hash_many seed n ROUNDS j → i = j).
Proof.
  intros Hc Hp Hn proposer n. split_and!.
  - intros He. unfold proposer, proposer_sub_id. by rewrite He.
  - intros He Ha. unfold proposer, proposer_sub_id. by rewrite He, Ha.
  - intros He Ha. unfold is_enabled in He. apply andb_true_iff in He as [Hcp%Z.ltb_lt Hne].
    assert (0 < n) as Hn0 by (unfold n; destruct (validator_sub_ids self); cbn in *; [done|lia]).
    split_and!.
    + unfold proposer, proposer_sub_id, is_enabled. rewrite (proj2 (Z.ltb_lt _ _) Hcp), Hne, Ha. cbn [andb negb].
      destruct (rotation_rounds_ok from_u64_value to_canonical_u64 q_hash_many
        (schedule_seed from_u64_value q_hash_many realm_id (epoch checkpoint_id (checkpoints_per_epoch self)) anchor_seed)
        n ROUNDS 0 ltac:(lia) ltac:(lia)) as (j & Hj & Hjn). fold n. rewrite Hj. cbn [outcome_bind].
      destruct (lookup_lt_is_Some_2 (validator_sub_ids self) (Z.to_nat j)) as [id Hid]; [unfold n in *; lia|].
      rewrite Hid. exists id. split; [done|by eapply list_elem_of_lookup_2].
    + intros c' Hep. unfold proposer, proposer_sub_id. by rewrite Hep.
    + intros e anchor He0. pose proof (Z.mul_div_le checkpoint_id _ Hcp) as Hle. fold (epoch checkpoint_id (checkpoints_per_epoch self)) in Hle. fold e in Hle.
      assert (1 * checkpoints_per_epoch self ≤ e * checkpoints_per_epoch self) by (apply Z.mul_le_mono_nonneg_r; lia).
      assert (anchor = e * checkpoints_per_epoch self - 1) as Han
        by (unfold anchor, anchor_checkpoint_id; rewrite wrap_small by lia; lia).
      split; [lia|]. unfold epoch. rewrite Han. symmetry.
      apply Z.div_unique with (checkpoints_per_epoch self - 1); lia.
  - intros seed i j Hi Hj. apply rotation_rounds_inj; lia.
Qed.

Lemma proposer_sub_id_correct_witness :
  let hash (l : list Z) := (foldl (λ a x, (a * 31 + x + 7) mod GOLDILOCKS_FIELD_ORDER) 3 l, 1, 2, 3) in
  let config := mkRotation 32 [10; 11; 12; 13; 14] in
  ∃ id, proposer_sub_id (λ x, x) (λ x, x) hash config 7 70 (5, 8, 13, 21) = Ok (Some id) ∧ id ∈ [10; 11; 12; 13; 14].
Proof.
  intros hash config.
  destruct (proposer_sub_id_correct (λ x, x) (λ x, x) hash config 7 70 (5, 8, 13, 21)) as (_ & _ & H & _).
  - lia.
  - cbn. lia.
  - cbn. lia.
  - destruct (H eq_refl eq_refl) as [H1 _]. exact H1.
Defined.
