(* ===== verification/JobId.v ===== *)
(** * Identifiers of proving jobs

    [psy_core/src/job/job_id.rs] and [parth_core/src/job_id_base.rs]: the identifier of a
    proving job is a record of 24 bytes that names the circuit and the place of the job in
    its block; proofs, witnesses and rewards are stored under it. The enumerations live in
    modules of their own, as their variants do in the source. *)
From stdpp Require Import prelude list strings.
From Stdlib Require Import ZArith Lia.
From S2P Require Import Prelude MerkleKey Wire Serialize ByteOrder Codecs Qblob BlobFormat.

(** ** Enumerations *)
Module Mode.
Inductive QWorkerMode : Type :=
  | All | NoGroth16 | OnlyGroth16.

#[global] Instance mode_eq_dec : EqDecision QWorkerMode.
Proof. solve_decision. Defined.

Definition mode_to_u32 (x : QWorkerMode) : Z :=
  match x with
  | All => 0 | NoGroth16 => 1 | OnlyGroth16 => 2
  end.

Definition mode_try_from (value : Z) : outcome QWorkerMode :=
  match value with
  | 0 => Ok All | 1 => Ok NoGroth16 | 2 => Ok OnlyGroth16
  | _ => Err "Invalid QWorkerMode value"
  end.

Definition is_groth16_enabled (self : QWorkerMode) : bool :=
  match self with All => true | NoGroth16 => false | OnlyGroth16 => true end.
End Mode.

Module Topic.
Inductive QJobTopic : Type :=
  | GenerateStandardProof | GenerateGroth16Proof | BlockUserSignatureProof | NotifyCoordinatorComplete
  | NotifyRealmComplete | AggregateJobs | Invalid | Unknown.

#[global] Instance topic_eq_dec : EqDecision QJobTopic.
Proof. solve_decision. Defined.

Definition topic_to_u8 (x : QJobTopic) : Z :=
  match x with
  | GenerateStandardProof => 0 | GenerateGroth16Proof => 1 | BlockUserSignatureProof => 2
  | NotifyCoordinatorComplete => 3 | NotifyRealmComplete => 4 | AggregateJobs => 5 | Invalid => 254
  | Unknown => 255
  end.

Definition topic_try_from (value : Z) : outcome QJobTopic :=
  match value with
  | 0 => Ok GenerateStandardProof | 1 => Ok GenerateGroth16Proof | 2 => Ok BlockUserSignatureProof
  | 3 => Ok NotifyCoordinatorComplete | 4 => Ok NotifyRealmComplete | 5 => Ok AggregateJobs
  | 254 => Ok Invalid | 255 => Ok Unknown
  | _ => Err "Invalid QJobTopic value"
  end.
End Topic.

Module DataType.
Inductive ProvingJobDataType : Type :=
  | StandardProof.

#[global] Instance data_type_eq_dec : EqDecision ProvingJobDataType.
Proof. solve_decision. Defined.

Definition data_type_to_u8 (x : ProvingJobDataType) : Z :=
  match x with
  | StandardProof => 0
  end.

Definition data_type_try_from (value : Z) : outcome ProvingJobDataType :=
  match value with
  | 0 => Ok StandardProof
  | _ => Err "Invalid ProvingJobDataType value"
  end.
End DataType.

Module Circuit.
Inductive ProvingJobCircuitType : Type :=
  | AppendUserRegistrationTree | AppendUserRegistrationTreeAggregate | AddL1Deposit
  | AddL1DepositAggregate | ClaimL1Deposit | ClaimL1DepositAggregate | UserEndCap | GUTATwoEndCap
  | GUTATwoGUTA | GUTALeftEndCapRightGUTA | GUTALeftGUTARightEndCap | GUTASingleEndCap
  | GUTARegisterUsers | GUTAVerifyToCap | GUTAOnlyRegisterUsers | GUTANoChange | AddL1Withdrawal
  | AddL1WithdrawalAggregate | BatchDeployContracts | BatchDeployContractsAggregate
  | ProcessL1Withdrawal | ProcessL1WithdrawalAggregate | BatchUpdateContracts
  | BatchUpdateContractsAggregate | GenerateRollupStateTransitionProof
  | GenerateSigHashIntrospectionProof | GenerateFinalSigHashProof | GenerateFinalSigHashProofGroth16
  | WrapFinalSigHashProofBLS12381 | GenesisBlockCheckpointStateTransition
  | AggUserRegisterDeployContractsGUTA | AggAddProcessL1WithdrawalAddL1Deposit
  | DummyAppendUserRegistrationTreeAggregate | DummyAddL1DepositAggregate | DummyClaimL1DepositAggregate
  | DummyGUTA | DummyAddL1WithdrawalAggregate | DummyProcessL1WithdrawalAggregate
  | DummyBatchDeployContractsAggregate | DummyBatchUpdateContractsAggregate
  | GUTATwoGUTAWithCheckpointUpgrade | GUTAVerifyToCapWithCheckpointUpgrade | GUTATwoGUTALinear
  | GUTATwoGUTALinearUpgradeCheckpoint | GUTAVerifyLeftLinearRightLeafUpgradeCheckpoint
  | GUTAVerifyLeftLeafRightLinearUpgradeCheckpoint | RealmFinalizeGUTA | WrappedSignatureProof
  | Secp256K1SignatureProof | NotifyRealmComplete | TypeA | TypeB | TypeC | TypeD | TypeE | TypeF
  | Invalid | Unknown.

#[global] Instance circuit_eq_dec : EqDecision ProvingJobCircuitType.
Proof. solve_decision. Defined.

Definition circuit_to_u8 (x : ProvingJobCircuitType) : Z :=
  match x with
  | AppendUserRegistrationTree => 0 | AppendUserRegistrationTreeAggregate => 1 | AddL1Deposit => 2
  | AddL1DepositAggregate => 3 | ClaimL1Deposit => 4 | ClaimL1DepositAggregate => 5 | UserEndCap => 6
  | GUTATwoEndCap => 7 | GUTATwoGUTA => 8 | GUTALeftEndCapRightGUTA => 9 | GUTALeftGUTARightEndCap => 10
  | GUTASingleEndCap => 11 | GUTARegisterUsers => 12 | GUTAVerifyToCap => 13
  | GUTAOnlyRegisterUsers => 14 | GUTANoChange => 15 | AddL1Withdrawal => 16
  | AddL1WithdrawalAggregate => 17 | BatchDeployContracts => 18 | BatchDeployContractsAggregate => 19
  | ProcessL1Withdrawal => 20 | ProcessL1WithdrawalAggregate => 21 | BatchUpdateContracts => 22
  | BatchUpdateContractsAggregate => 23 | GenerateRollupStateTransitionProof => 32
  | GenerateSigHashIntrospectionProof => 33 | GenerateFinalSigHashProof => 34
  | GenerateFinalSigHashProofGroth16 => 35 | WrapFinalSigHashProofBLS12381 => 36
  | GenesisBlockCheckpointStateTransition => 37 | AggUserRegisterDeployContractsGUTA => 40
  | AggAddProcessL1WithdrawalAddL1Deposit => 41 | DummyAppendUserRegistrationTreeAggregate => 48
  | DummyAddL1DepositAggregate => 49 | DummyClaimL1DepositAggregate => 50 | DummyGUTA => 51
  | DummyAddL1WithdrawalAggregate => 52 | DummyProcessL1WithdrawalAggregate => 53
  | DummyBatchDeployContractsAggregate => 54 | DummyBatchUpdateContractsAggregate => 61
  | GUTATwoGUTAWithCheckpointUpgrade => 55 | GUTAVerifyToCapWithCheckpointUpgrade => 56
  | GUTATwoGUTALinear => 57 | GUTATwoGUTALinearUpgradeCheckpoint => 58
  | GUTAVerifyLeftLinearRightLeafUpgradeCheckpoint => 59
  | GUTAVerifyLeftLeafRightLinearUpgradeCheckpoint => 60 | RealmFinalizeGUTA => 63
  | WrappedSignatureProof => 64 | Secp256K1SignatureProof => 65 | NotifyRealmComplete => 192
  | TypeA => 224 | TypeB => 225 | TypeC => 226 | TypeD => 227 | TypeE => 228 | TypeF => 229
  | Invalid => 254 | Unknown => 255
  end.

Definition circuit_try_from (value : Z) : outcome ProvingJobCircuitType :=
  match value with
  | 0 => Ok AppendUserRegistrationTree | 1 => Ok AppendUserRegistrationTreeAggregate
  | 2 => Ok AddL1Deposit | 3 => Ok AddL1DepositAggregate | 4 => Ok ClaimL1Deposit
  | 5 => Ok ClaimL1DepositAggregate | 6 => Ok UserEndCap | 7 => Ok GUTATwoEndCap | 8 => Ok GUTATwoGUTA
  | 9 => Ok GUTALeftEndCapRightGUTA | 10 => Ok GUTALeftGUTARightEndCap | 11 => Ok GUTASingleEndCap
  | 12 => Ok GUTARegisterUsers | 13 => Ok GUTAVerifyToCap | 14 => Ok GUTAOnlyRegisterUsers
  | 15 => Ok GUTANoChange | 16 => Ok AddL1Withdrawal | 17 => Ok AddL1WithdrawalAggregate
  | 18 => Ok BatchDeployContracts | 19 => Ok BatchDeployContractsAggregate
  | 20 => Ok ProcessL1Withdrawal | 21 => Ok ProcessL1WithdrawalAggregate | 22 => Ok BatchUpdateContracts
  | 23 => Ok BatchUpdateContractsAggregate | 32 => Ok GenerateRollupStateTransitionProof
  | 33 => Ok GenerateSigHashIntrospectionProof | 34 => Ok GenerateFinalSigHashProof
  | 35 => Ok GenerateFinalSigHashProofGroth16 | 36 => Ok WrapFinalSigHashProofBLS12381
  | 37 => Ok GenesisBlockCheckpointStateTransition | 40 => Ok AggUserRegisterDeployContractsGUTA
  | 41 => Ok AggAddProcessL1WithdrawalAddL1Deposit | 48 => Ok DummyAppendUserRegistrationTreeAggregate
  | 49 => Ok DummyAddL1DepositAggregate | 50 => Ok DummyClaimL1DepositAggregate | 51 => Ok DummyGUTA
  | 52 => Ok DummyAddL1WithdrawalAggregate | 53 => Ok DummyProcessL1WithdrawalAggregate
  | 54 => Ok DummyBatchDeployContractsAggregate | 61 => Ok DummyBatchUpdateContractsAggregate
  | 55 => Ok GUTATwoGUTAWithCheckpointUpgrade | 56 => Ok GUTAVerifyToCapWithCheckpointUpgrade
  | 57 => Ok GUTATwoGUTALinear | 58 => Ok GUTATwoGUTALinearUpgradeCheckpoint
  | 59 => Ok GUTAVerifyLeftLinearRightLeafUpgradeCheckpoint
  | 60 => Ok GUTAVerifyLeftLeafRightLinearUpgradeCheckpoint | 63 => Ok RealmFinalizeGUTA
  | 64 => Ok WrappedSignatureProof | 65 => Ok Secp256K1SignatureProof | 192 => Ok NotifyRealmComplete
  | 224 => Ok TypeA | 225 => Ok TypeB | 226 => Ok TypeC | 227 => Ok TypeD | 228 => Ok TypeE
  | 229 => Ok TypeF | 254 => Ok Invalid | 255 => Ok Unknown
  | _ => Err "Invalid ProvingJobCircuitType value"
  end.

Definition to_circuit_group_id (self : ProvingJobCircuitType) : Z := wrap 32 (circuit_to_u8 self + 0xCF00).

Definition needs_to_save_child_reward_tree_values_to_database (self : ProvingJobCircuitType) : bool :=
  match self with
  | GUTATwoGUTA | GUTATwoGUTALinear | GUTAVerifyToCap | GUTAVerifyToCapWithCheckpointUpgrade
  | GUTATwoGUTAWithCheckpointUpgrade | GUTATwoGUTALinearUpgradeCheckpoint
  | GUTAVerifyLeftLinearRightLeafUpgradeCheckpoint | GUTALeftGUTARightEndCap
  | GUTAVerifyLeftLeafRightLinearUpgradeCheckpoint | RealmFinalizeGUTA => true
  | _ => false
  end.

Definition get_agg_leaf_circuit_type_or_err (self : ProvingJobCircuitType) : outcome ProvingJobCircuitType :=
  match self with
  | AppendUserRegistrationTree | AppendUserRegistrationTreeAggregate => Ok AppendUserRegistrationTree
  | AddL1Deposit | AddL1DepositAggregate => Ok AddL1Deposit
  | ClaimL1Deposit | ClaimL1DepositAggregate => Ok ClaimL1Deposit
  | AddL1Withdrawal | AddL1WithdrawalAggregate => Ok AddL1Withdrawal
  | BatchDeployContracts | BatchDeployContractsAggregate => Ok BatchDeployContracts
  | BatchUpdateContracts | BatchUpdateContractsAggregate => Ok BatchUpdateContracts
  | ProcessL1Withdrawal | ProcessL1WithdrawalAggregate => Ok ProcessL1Withdrawal
  | _ => Err "circuit type does not have a leaf type"
  end.

Definition get_agg_circuit_type_or_err (self : ProvingJobCircuitType) : outcome ProvingJobCircuitType :=
  match self with
  | AppendUserRegistrationTree | AppendUserRegistrationTreeAggregate => Ok AppendUserRegistrationTreeAggregate
  | AddL1Deposit | AddL1DepositAggregate => Ok AddL1DepositAggregate
  | ClaimL1Deposit | ClaimL1DepositAggregate => Ok ClaimL1DepositAggregate
  | AddL1Withdrawal | AddL1WithdrawalAggregate => Ok AddL1WithdrawalAggregate
  | BatchDeployContracts | BatchDeployContractsAggregate => Ok BatchDeployContractsAggregate
  | BatchUpdateContracts | BatchUpdateContractsAggregate => Ok BatchUpdateContractsAggregate
  | ProcessL1Withdrawal | ProcessL1WithdrawalAggregate => Ok ProcessL1WithdrawalAggregate
  | _ => Err "circuit type does not have a aggregated circuit type"
  end.

Definition get_agg_dummy_circuit_type_or_err (self : ProvingJobCircuitType) : outcome ProvingJobCircuitType :=
  match self with
  | AppendUserRegistrationTree | AppendUserRegistrationTreeAggregate
  | DummyAppendUserRegistrationTreeAggregate => Ok DummyAppendUserRegistrationTreeAggregate
  | AddL1Deposit | AddL1DepositAggregate | DummyAddL1DepositAggregate => Ok DummyAddL1DepositAggregate
  | ClaimL1Deposit | ClaimL1DepositAggregate | DummyClaimL1DepositAggregate => Ok DummyClaimL1DepositAggregate
  | AddL1Withdrawal | AddL1WithdrawalAggregate | DummyAddL1WithdrawalAggregate =>
      Ok DummyAddL1WithdrawalAggregate
  | BatchDeployContracts | BatchDeployContractsAggregate | DummyBatchDeployContractsAggregate =>
      Ok DummyBatchDeployContractsAggregate
  | BatchUpdateContracts | BatchUpdateContractsAggregate | DummyBatchUpdateContractsAggregate =>
      Ok DummyBatchUpdateContractsAggregate
  | ProcessL1Withdrawal | ProcessL1WithdrawalAggregate | DummyProcessL1WithdrawalAggregate =>
      Ok DummyProcessL1WithdrawalAggregate
  | _ => Err "circuit type does not have a aggregated dummy circuit type"
  end.

Definition tree_parent_type (self : ProvingJobCircuitType) : ProvingJobCircuitType :=
  match self with
  | AppendUserRegistrationTree | AppendUserRegistrationTreeAggregate
  | DummyAppendUserRegistrationTreeAggregate => AppendUserRegistrationTreeAggregate
  | BatchDeployContracts | BatchDeployContractsAggregate => BatchDeployContractsAggregate
  | BatchUpdateContracts | BatchUpdateContractsAggregate | DummyBatchUpdateContractsAggregate =>
      BatchUpdateContractsAggregate
  | AddL1Deposit | AddL1DepositAggregate | DummyAddL1DepositAggregate => AddL1DepositAggregate
  | ClaimL1Deposit | ClaimL1DepositAggregate | DummyClaimL1DepositAggregate => ClaimL1DepositAggregate
  | AddL1Withdrawal | AddL1WithdrawalAggregate | DummyAddL1WithdrawalAggregate => AddL1WithdrawalAggregate
  | ProcessL1Withdrawal | ProcessL1WithdrawalAggregate | DummyProcessL1WithdrawalAggregate =>
      ProcessL1WithdrawalAggregate
  | _ => self
  end.

Definition try_from_u32 (circuit_type_u32 : Z) : outcome ProvingJobCircuitType :=
  let* _ := ensure (negb (255 <? circuit_type_u32)) "invalid circuit type" in
  circuit_try_from (wrap 8 circuit_type_u32).

Definition is_guta (self : ProvingJobCircuitType) : bool :=
  match self with
  | GUTATwoEndCap | GUTATwoGUTA | GUTALeftEndCapRightGUTA | GUTALeftGUTARightEndCap | GUTASingleEndCap
  | GUTARegisterUsers | GUTAVerifyToCap | GUTAOnlyRegisterUsers | GUTANoChange
  | GUTATwoGUTAWithCheckpointUpgrade | GUTAVerifyToCapWithCheckpointUpgrade => true
  | _ => false
  end.

Definition is_user_guta_or_end_cap (self : ProvingJobCircuitType) : bool :=
  match self with
  | GUTATwoEndCap | GUTATwoGUTA | GUTALeftEndCapRightGUTA | GUTALeftGUTARightEndCap | GUTASingleEndCap
  | GUTARegisterUsers | GUTAVerifyToCap | GUTAOnlyRegisterUsers | GUTANoChange
  | GUTATwoGUTAWithCheckpointUpgrade | GUTAVerifyToCapWithCheckpointUpgrade | UserEndCap => true
  | _ => false
  end.

Definition is_realm_submit (self : ProvingJobCircuitType) : bool :=
  match self with
  | GUTATwoEndCap | GUTATwoGUTA | GUTALeftEndCapRightGUTA | GUTALeftGUTARightEndCap | GUTASingleEndCap
  | GUTARegisterUsers | GUTAVerifyToCap | GUTAOnlyRegisterUsers | GUTANoChange
  | GUTATwoGUTAWithCheckpointUpgrade | GUTAVerifyToCapWithCheckpointUpgrade | GUTATwoGUTALinear
  | GUTATwoGUTALinearUpgradeCheckpoint | GUTAVerifyLeftLinearRightLeafUpgradeCheckpoint
  | GUTAVerifyLeftLeafRightLinearUpgradeCheckpoint | RealmFinalizeGUTA => true
  | _ => false
  end.
End Circuit.

Import Mode Topic DataType.

(** ** Job identifiers *)
Record QProvingJobDataID : Type := mkJob {
  job_topic : QJobTopic;
  goal_id : Z;
  circuit_type : Circuit.ProvingJobCircuitType;
  group_id : Z;
  sub_group_id : Z;
  task_index : Z;
  job_data_type : ProvingJobDataType;
  data_index : Z;
}.

#[global] Instance job_eq_dec : EqDecision QProvingJobDataID.
Proof. solve_decision. Defined.

(** [impl From<&QProvingJobDataID> for [u8; 24]] *)
Definition to_fixed_bytes (j : QProvingJobDataID) : list Z :=
  [topic_to_u8 (job_topic j)] ++ to_le_bytes 8 (goal_id j) ++ [Circuit.circuit_to_u8 (circuit_type j)] ++
  to_le_bytes 4 (group_id j) ++ to_le_bytes 4 (sub_group_id j) ++ to_le_bytes 4 (task_index j) ++
  [data_type_to_u8 (job_data_type j)] ++ [data_index j].

(** [impl TryFrom<[u8; 24]>]; a missing byte panics. *)
Definition job_try_from (value : list Z) : outcome QProvingJobDataID :=
  let* b := unwrap (value !! 0%nat) in
  let* topic := topic_try_from b in
  let goal_id := from_le_bytes (slice 1 9 value) in
  let* b := unwrap (value !! 9%nat) in
  let* circuit_type := Circuit.circuit_try_from b in
  let group_id := from_le_bytes (slice 10 14 value) in
  let sub_group_id := from_le_bytes (slice 14 18 value) in
  let task_index := from_le_bytes (slice 18 22 value) in
  let* b := unwrap (value !! 22%nat) in
  let* data_type := data_type_try_from b in
  let* data_index := unwrap (value !! 23%nat) in
  Ok (mkJob topic goal_id circuit_type group_id sub_group_id task_index data_type data_index).

Definition try_from_byte_vec (value : list Z) : outcome QProvingJobDataID :=
  let* _ := ensure (length value =? 24)%nat "invalid byte length for proving job data id" in
  job_try_from value.

(** [result[0..3].copy_from_slice(&prefix)] panics: the slice has three bytes, the prefix
    four. *)
Definition copy_from_slice (len : nat) (src : list Z) : outcome (list Z) :=
  if (length src =? len)%nat then Ok src else Panic.

Definition with_ps_prefix (self : QProvingJobDataID) (prefix : list Z) : outcome (list Z) :=
  let* head := copy_from_slice 3 prefix in
  Ok (head ++ [0] ++ to_fixed_bytes self).

Definition is_ok {A} (o : outcome A) : bool := match o with Ok _ => true | _ => false end.

Definition is_queue_item (data : list Z) : bool :=
  match data !! 0%nat, data !! 9%nat, data !! 22%nat with
  | Some a, Some b, Some c =>
      (length data =? 24)%nat && (is_ok (topic_try_from a) && is_ok (Circuit.circuit_try_from b) && is_ok (data_type_try_from c))
  | _, _, _ => false
  end.

(** *** Named jobs *)
Definition job_new (topic : QJobTopic) (goal_id group_id sub_group_id task_index : Z)
    (circuit_type : Circuit.ProvingJobCircuitType) (data_type : ProvingJobDataType) (data_index : Z) : QProvingJobDataID :=
  mkJob topic goal_id circuit_type group_id sub_group_id task_index data_type data_index.

Definition standard (goal_id group_id sub_group_id task_index : Z) (c : Circuit.ProvingJobCircuitType) : QProvingJobDataID :=
  job_new GenerateStandardProof goal_id group_id sub_group_id task_index c StandardProof 0.

(** [(task_index >> 32) as u32] and [(task_index & 0xFFFF_FFFF) as u32] *)
Definition standard_split (goal_id group_id task_index : Z) (c : Circuit.ProvingJobCircuitType) : QProvingJobDataID :=
  standard goal_id group_id (wrap 32 (Z.shiftr task_index 32)) (Z.land task_index 0xFFFFFFFF) c.

Definition try_get_coordinator_edge_proof_store_output_proof_id_for_realm_submit (realm_id realm_level unique_pending_id : Z)
    (c : Circuit.ProvingJobCircuitType) : outcome QProvingJobDataID :=
  let* _ := ensure (Circuit.is_realm_submit c) "circuit type is not a GUTA circuit type" in
  Ok (mkJob GenerateStandardProof unique_pending_id c realm_level 0 realm_id StandardProof 0).

Definition try_get_realm_edge_proof_store_output_proof_id_for_end_cap (user_id global_user_tree_height unique_pending_id : Z)
    : outcome QProvingJobDataID :=
  let* _ := ensure (negb (2 ^ 32 - 1 <? user_id)) "user id is too large to fit in u32" in
  Ok (mkJob GenerateStandardProof unique_pending_id Circuit.UserEndCap global_user_tree_height 0 (wrap 32 user_id) StandardProof 0).

Definition get_checkpoint_state_transition_job_id (checkpoint_id : Z) : QProvingJobDataID :=
  standard checkpoint_id 0 0 0 Circuit.GenerateRollupStateTransitionProof.

Definition guta_two_linear_proof (unique_pending_id group_id task_index : Z) : QProvingJobDataID :=
  standard_split unique_pending_id group_id task_index Circuit.GUTATwoGUTALinear.

Definition guta_left_linear_right_end_cap_proof (unique_pending_id group_id task_index : Z) : QProvingJobDataID :=
  standard_split unique_pending_id group_id task_index Circuit.GUTALeftGUTARightEndCap.

Definition guta_two_end_cap_witness (checkpoint_id group_id task_index : Z) : QProvingJobDataID :=
  standard_split checkpoint_id group_id task_index Circuit.GUTATwoEndCap.

Definition realm_finalize_guta (checkpoint_id realm_id : Z) : QProvingJobDataID :=
  standard checkpoint_id realm_id 0 0 Circuit.RealmFinalizeGUTA.

Definition core_op_witness (checkpoint_id group_id : Z) (c : Circuit.ProvingJobCircuitType) (sub_group_id task_index : Z)
    : QProvingJobDataID := standard checkpoint_id group_id sub_group_id task_index c.

Definition guta_two_agg_witness (checkpoint_id group_id sub_group_id task_index : Z) : QProvingJobDataID :=
  standard checkpoint_id group_id sub_group_id task_index Circuit.GUTATwoGUTA.

Definition guta_two_agg_witness_with_checkpoint_upgrade (checkpoint_id group_id sub_group_id task_index : Z) : QProvingJobDataID :=
  standard checkpoint_id group_id sub_group_id task_index Circuit.GUTATwoGUTAWithCheckpointUpgrade.

Definition guta_left_end_cap_right_guta_witness (checkpoint_id group_id sub_group_id task_index : Z) : QProvingJobDataID :=
  standard checkpoint_id group_id sub_group_id task_index Circuit.GUTALeftEndCapRightGUTA.

Definition guta_left_guta_right_end_cap_witness (checkpoint_id group_id sub_group_id task_index : Z) : QProvingJobDataID :=
  standard checkpoint_id group_id sub_group_id task_index Circuit.GUTALeftGUTARightEndCap.

Definition guta_single_end_cap_witness (checkpoint_id group_id sub_group_id task_index : Z) : QProvingJobDataID :=
  standard checkpoint_id group_id sub_group_id task_index Circuit.GUTASingleEndCap.

Definition transfer_signature_proof (checkpoint_id group_id transfer_id : Z) : QProvingJobDataID :=
  mkJob BlockUserSignatureProof checkpoint_id Circuit.WrappedSignatureProof group_id 0 transfer_id StandardProof 0.

Definition end_cap_proof (checkpoint_id group_id user_id : Z) : QProvingJobDataID :=
  mkJob BlockUserSignatureProof checkpoint_id Circuit.UserEndCap group_id 1 user_id StandardProof 0.

Definition withdrawal_signature_proof (checkpoint_id group_id withdrawal_id : Z) : QProvingJobDataID :=
  mkJob BlockUserSignatureProof checkpoint_id Circuit.WrappedSignatureProof group_id 2 withdrawal_id StandardProof 0.

Definition claim_deposit_l1_signature_proof (checkpoint_id group_id deposit_id : Z) : QProvingJobDataID :=
  mkJob BlockUserSignatureProof checkpoint_id Circuit.Secp256K1SignatureProof group_id 3 deposit_id StandardProof 0.

Definition new_proof_job_id (goal_id group_id : Z) (c : Circuit.ProvingJobCircuitType) (sub_group_id task_index : Z) : QProvingJobDataID :=
  standard goal_id group_id sub_group_id task_index c.

Definition new_groth16_proof_job_id (goal_id group_id : Z) (c : Circuit.ProvingJobCircuitType) (sub_group_id task_index : Z)
    : QProvingJobDataID := mkJob GenerateGroth16Proof goal_id c group_id sub_group_id task_index StandardProof 0.

Definition get_block_aggregate_jobs_group (checkpoint_id group_id task_index : Z) : QProvingJobDataID :=
  mkJob AggregateJobs checkpoint_id Circuit.Unknown group_id 0 task_index StandardProof 0.

Definition block_agg_state_part_1_input_witness (checkpoint_id group_id : Z) : QProvingJobDataID :=
  standard checkpoint_id group_id 0 0 Circuit.AggUserRegisterDeployContractsGUTA.

Definition block_agg_state_part_2_input_witness (checkpoint_id group_id : Z) : QProvingJobDataID :=
  standard checkpoint_id group_id 0 0 Circuit.AggAddProcessL1WithdrawalAddL1Deposit.

Definition block_state_transition_input_witness (checkpoint_id group_id : Z) : QProvingJobDataID :=
  standard checkpoint_id group_id 0 0 Circuit.GenerateRollupStateTransitionProof.

Definition sighash_introspection_input_witness (checkpoint_id group_id input_id : Z) : QProvingJobDataID :=
  standard checkpoint_id group_id 0 (wrap 32 input_id) Circuit.GenerateSigHashIntrospectionProof.

Definition sighash_final_input_witness (checkpoint_id group_id input_id : Z) : QProvingJobDataID :=
  standard checkpoint_id group_id (wrap 32 input_id) (wrap 32 input_id) Circuit.GenerateFinalSigHashProof.

Definition wrap_sighash_final_bls3812_input_witness (checkpoint_id group_id input_id : Z) : QProvingJobDataID :=
  standard checkpoint_id group_id (wrap 32 input_id) (wrap 32 input_id) Circuit.WrapFinalSigHashProofBLS12381.

Definition notify_realm_complete (checkpoint_id realm_id : Z) : QProvingJobDataID :=
  mkJob NotifyRealmComplete checkpoint_id Circuit.Unknown realm_id 0 0 StandardProof 0.

Definition notify_block_complete (checkpoint_id coordinator_id : Z) : QProvingJobDataID :=
  mkJob NotifyCoordinatorComplete checkpoint_id Circuit.Unknown coordinator_id 0 0 StandardProof 0.

Definition new_invalid_job_id : QProvingJobDataID :=
  mkJob Invalid 0 Circuit.Invalid 0 0 0 StandardProof 0.

(** *** Derived identifiers and tests *)
Definition with_data (j : QProvingJobDataID) (task_index data_index : Z) : QProvingJobDataID :=
  mkJob (job_topic j) (goal_id j) (circuit_type j) (group_id j) (sub_group_id j) task_index StandardProof data_index.

Definition get_input_proof_id (self : QProvingJobDataID) (data_index : Z) : QProvingJobDataID := with_data self (task_index self) data_index.
Definition get_output_id (self : QProvingJobDataID) : QProvingJobDataID := with_data self (task_index self) 0.
Definition get_input_witness_id (self : QProvingJobDataID) : QProvingJobDataID := with_data self (task_index self) 0.
Definition get_sub_group_counter_id (self : QProvingJobDataID) : QProvingJobDataID := with_data self 0 0.
Definition get_sub_group_counter_goal_id (self : QProvingJobDataID) : QProvingJobDataID := with_data self 0 1.
Definition get_sub_group_counter_goal_next_jobs_id (self : QProvingJobDataID) : QProvingJobDataID := with_data self 0 2.

Definition get_tree_parent_proof_input_id (self : QProvingJobDataID) : QProvingJobDataID :=
  mkJob (job_topic self) (goal_id self) (Circuit.tree_parent_type (circuit_type self)) (group_id self)
    (wrap 32 (sub_group_id self + 1)) (Z.shiftr (task_index self) 1) StandardProof 0.

Definition is_notify_coordinator_complete (self : QProvingJobDataID) : bool := bool_decide (job_topic self = NotifyCoordinatorComplete).
Definition is_notify_realm_complete (self : QProvingJobDataID) : bool := bool_decide (job_topic self = NotifyRealmComplete).
Definition is_notify_complete (self : QProvingJobDataID) : bool := is_notify_coordinator_complete self || is_notify_realm_complete self.
Definition is_provable (self : QProvingJobDataID) : bool :=
  bool_decide (job_topic self = GenerateStandardProof) && negb (is_notify_complete self).

Definition job_is_valid (self : QProvingJobDataID) : bool :=
  negb (bool_decide (circuit_type self = Circuit.Invalid) || bool_decide (job_topic self = Invalid)).

Definition is_end_cap_proof_circuit_type (self : QProvingJobDataID) : bool := bool_decide (circuit_type self = Circuit.UserEndCap).
Definition is_guta_proof_circuit_type (self : QProvingJobDataID) : bool := Circuit.is_guta (circuit_type self).

Definition can_process_job (mode : QWorkerMode) (job_id : QProvingJobDataID) : bool :=
  match mode with
  | All => true
  | NoGroth16 => negb (bool_decide (circuit_type job_id = Circuit.WrapFinalSigHashProofBLS12381))
  | OnlyGroth16 => bool_decide (circuit_type job_id = Circuit.WrapFinalSigHashProofBLS12381)
  end.

(** *** Aggregation of two proofs *)
Definition new_standard_user_end_cap_proof_id (at_checkpoint_id user_id global_user_tree_height : Z) : QProvingJobDataID :=
  mkJob GenerateStandardProof at_checkpoint_id Circuit.UserEndCap 0 global_user_tree_height (wrap 32 user_id) StandardProof 0.

Definition new_alt_user_end_cap_proof_id (at_checkpoint_id user_id global_user_tree_height circuit_type : Z) : QProvingJobDataID :=
  if (255 <? circuit_type) || negb (circuit_type =? Circuit.circuit_to_u8 Circuit.UserEndCap)
  then get_input_proof_id new_invalid_job_id 0
  else new_standard_user_end_cap_proof_id at_checkpoint_id user_id global_user_tree_height.

Definition two_to_one_circuit (target_checkpoint_id : Z) (left right : QProvingJobDataID) : outcome Circuit.ProvingJobCircuitType :=
  let guta_or_cap (j : QProvingJobDataID) := is_guta_proof_circuit_type j || is_end_cap_proof_circuit_type j in
  if guta_or_cap left && guta_or_cap right then
    match is_end_cap_proof_circuit_type left, is_end_cap_proof_circuit_type right with
    | true, true => Ok Circuit.GUTATwoEndCap
    | true, false => Ok Circuit.GUTALeftEndCapRightGUTA
    | false, true => Ok Circuit.GUTALeftGUTARightEndCap
    | false, false =>
        if (goal_id left =? target_checkpoint_id) && (goal_id right =? target_checkpoint_id)
        then Ok Circuit.GUTATwoGUTA else Ok Circuit.GUTATwoGUTAWithCheckpointUpgrade
    end
  else
    match Circuit.get_agg_leaf_circuit_type_or_err (circuit_type left), Circuit.get_agg_leaf_circuit_type_or_err (circuit_type right) with
    | Ok ll, Ok rl => if bool_decide (ll = rl) then Circuit.get_agg_circuit_type_or_err ll else Panic
    | _, _ => Panic
    end.

Definition new_two_to_one_proof_id (target_checkpoint_id : Z) (left right : QProvingJobDataID)
    (parth_index parth_level reverse_aggregation_level : Z) : outcome QProvingJobDataID :=
  let* _ := ensure (negb (negb (job_is_valid left) || negb (job_is_valid right))) "invalid left or right proof id" in
  let* c := two_to_one_circuit target_checkpoint_id left right in
  Ok (mkJob GenerateStandardProof target_checkpoint_id c (group_id left) reverse_aggregation_level (wrap 32 parth_index) StandardProof 0).

(** [unwrap_or_else] catches errors, not panics. *)
Definition new_two_to_one_proof_id_or_invalid (target_checkpoint_id : Z) (left right : QProvingJobDataID)
    (parth_index parth_level reverse_aggregation_level : Z) : outcome QProvingJobDataID :=
  match new_two_to_one_proof_id target_checkpoint_id left right parth_index parth_level reverse_aggregation_level with
  | Err _ => Ok (get_output_id new_invalid_job_id)
  | r => r
  end.

(** *** Identifiers in keys and queues *)
Definition make_job_id_with_unique_pending_id (job_id : list Z) (unique_pending_id : Z) : list Z :=
  job_id ++ to_be_bytes 8 unique_pending_id.

Record QProvingJobDataIDWithRewardPath : Type := mkJobPath {
  job_data_id : QProvingJobDataID;
  reward_path_info : Z;
}.

Definition with_reward_path_merkle_key (self : QProvingJobDataID) (key : SimpleMerkleNodeKey) : QProvingJobDataIDWithRewardPath :=
  mkJobPath self (to_reward_path_info key).

Definition path_is_queue_item (data : list Z) : bool := (length data =? 32)%nat && is_queue_item (slice 0 24 data).

(** Slices past the end panic; [from_bytes_fixed] reads 24 bytes. *)
Definition path_decode_queue_item_ref (data : list Z) : outcome QProvingJobDataIDWithRewardPath :=
  let* id := subslice data 0 24 in
  let* job := job_try_from id in
  let* path := subslice data 24 32 in
  Ok (mkJobPath job (from_be_bytes path)).

Definition path_encode_queue_item_vec (self : QProvingJobDataIDWithRewardPath) : list Z :=
  to_fixed_bytes (job_data_id self) ++ to_be_bytes 8 (reward_path_info self).

(** ** Formats *)
Definition job_ok (j : QProvingJobDataID) : Prop :=
  is_uint 64 (goal_id j) ∧ is_uint 32 (group_id j) ∧ is_uint 32 (sub_group_id j) ∧ is_uint 32 (task_index j) ∧ is_uint 8 (data_index j).

Ltac enum_only := repeat case_match; intros; simplify_eq; reflexivity.

Lemma topic_back t : topic_try_from (topic_to_u8 t) = Ok t.
Proof. by destruct t. Qed.

Lemma topic_only b t : topic_try_from b = Ok t → topic_to_u8 t = b.
Proof. unfold topic_try_from. enum_only. Qed.

Lemma circuit_back c : Circuit.circuit_try_from (Circuit.circuit_to_u8 c) = Ok c.
Proof. by destruct c. Qed.

Lemma circuit_only b c : Circuit.circuit_try_from b = Ok c → Circuit.circuit_to_u8 c = b.
Proof. unfold Circuit.circuit_try_from. enum_only. Qed.

Lemma job_data_type_back t : data_type_try_from (data_type_to_u8 t) = Ok t.
Proof. by destruct t. Qed.

Lemma job_data_type_only b t : data_type_try_from b = Ok t → data_type_to_u8 t = b.
Proof. unfold data_type_try_from. enum_only. Qed.

Lemma topic_graceful b : graceful (topic_try_from b).
Proof. unfold topic_try_from. by repeat case_match. Qed.

Lemma circuit_graceful b : graceful (Circuit.circuit_try_from b).
Proof. unfold Circuit.circuit_try_from. by repeat case_match. Qed.

Lemma lookup_slice n (l : list Z) : l !! n = head (slice n (S n) l).
Proof.
  unfold slice. replace (S n - n)%nat with 1%nat by lia. rewrite <- (Nat.add_0_r n) at 1. rewrite <- lookup_drop.
  by destruct (drop n l).
Qed.

Lemma slice_byte n m x (y : list Z) : (1 ≤ n)%nat → slice n m ([x] ++ y) = slice (n - 1) (m - 1) y.
Proof. intros Hn. unfold slice. destruct n; [lia|]. cbn [app drop]. f_equal; [lia|]. f_equal. lia. Qed.

Ltac cut_bytes :=
  repeat (cut_slices; match goal with
  | |- context [slice ?n ?m ([?x] ++ ?y)] => rewrite (slice_byte n m x y) by lia; cbn [Nat.sub]
  end); cut_slices.

Lemma job_array j : is_uint 8 (data_index j) → array_ok 24 (to_fixed_bytes j).
Proof.
  intros Hd. change 24 with (1 + (Z.of_nat 8 + (1 + (Z.of_nat 4 + (Z.of_nat 4 + (Z.of_nat 4 + (1 + 1))))))).
  assert (Hb : ∀ b, 0 ≤ b < 256 → array_ok 1 [b]) by (intros b Hb; split; [done|]; repeat constructor; apply Hb).
  unfold to_fixed_bytes. repeat apply array_app; try apply array_le; apply Hb.
  - by destruct (job_topic j).
  - by destruct (circuit_type j).
  - by destruct (job_data_type j).
  - exact Hd.
Qed.

Lemma job_read j : job_ok j → job_try_from (to_fixed_bytes j) = Ok j.
Proof.
  intros (Hg & Hp & Hs & Ht & Hd). destruct j as [topic goal c group sub task dt d].
  unfold job_try_from. rewrite !lookup_slice. unfold to_fixed_bytes. cbn [goal_id group_id sub_group_id task_index data_index] in *.
  cbn [job_topic circuit_type job_data_type goal_id group_id sub_group_id task_index data_index]. cut_bytes.
  rewrite !slice_head by done. cbn [head unwrap outcome_bind]. rewrite topic_back. cbn [outcome_bind].
  rewrite circuit_back. cbn [outcome_bind]. rewrite job_data_type_back. cbn -[from_le_bytes to_le_bytes].
  by rewrite (le_back 8 64), !(le_back 4 32).
Qed.

(** A job identifier is read from one string of bytes only. *)
Lemma job_bytes b j :
  bytes b → length b = 24%nat → job_try_from b = Ok j → job_ok j ∧ to_fixed_bytes j = b.
Proof.
  intros Hb Hl E. unfold job_try_from in E. rewrite !lookup_slice in E. outcome_inv.
  assert (Hf : ∀ n from to, (from ≤ to ≤ 24)%nat → (to - from = n)%nat →
    to_le_bytes n (from_le_bytes (slice from to b)) = slice from to b ∧
    is_uint (8 * Z.of_nat n) (from_le_bytes (slice from to b))) by (intros; apply le_slice; [done|lia|done]).
  assert (Hbyte : ∀ n r, (n < 24)%nat → head (slice n (S n) b) = Some r → [r] = slice n (S n) b).
  { intros n r' Hn Hr. pose proof (length_slice n (S n) b ltac:(lia)) as Hs. replace (S n - n)%nat with 1%nat in Hs by lia.
    destruct (slice n (S n) b) as [|x [|? ?]]; [done| |done]. by injection Hr as ->. }
  split.
  - split_and!; [by apply (Hf 8%nat); lia|by apply (Hf 4%nat); lia|by apply (Hf 4%nat); lia|by apply (Hf 4%nat); lia|].
    apply Hbyte in E6; [|lia]. pose proof (bytes_slice 23 24 b Hb) as Hd. rewrite <- E6 in Hd. by inversion Hd.
  - unfold to_fixed_bytes. cbn [job_topic circuit_type job_data_type goal_id group_id sub_group_id task_index data_index].
    rewrite (topic_only _ _ E1), (circuit_only _ _ E3), (job_data_type_only _ _ E5).
    rewrite (Hbyte 0%nat r), (Hbyte 9%nat r1), (Hbyte 22%nat r3), (Hbyte 23%nat r5) by (done || lia).
    rewrite (proj1 (Hf 8%nat 1%nat 9%nat ltac:(lia) eq_refl)), (proj1 (Hf 4%nat 10%nat 14%nat ltac:(lia) eq_refl)),
      (proj1 (Hf 4%nat 14%nat 18%nat ltac:(lia) eq_refl)), (proj1 (Hf 4%nat 18%nat 22%nat ltac:(lia) eq_refl)).
    rewrite !slice_join by lia. by apply slice_all.
Qed.

Lemma job_graceful b : length b = 24%nat → graceful (job_try_from b).
Proof.
  intros Hl. assert (Hs : ∀ n, (n < 24)%nat → is_Some (b !! n)) by (intros; apply lookup_lt_is_Some; lia).
  unfold job_try_from. graceful; auto using topic_graceful, circuit_graceful, graceful_unwrap with lia.
  all: try (apply graceful_unwrap, Hs; lia). by destruct a3.
Qed.

(** C40: the identifier of a job has exactly one encoding of 24 bytes, the queue's test accepts
    exactly the encodings, and no bytes make the decoder panic. *)
Theorem job_id_strict (b : list Z) :
  bytes b →
  graceful (try_from_byte_vec b) ∧
  (∀ j, try_from_byte_vec b = Ok j ↔ job_ok j ∧ to_fixed_bytes j = b) ∧
  (is_queue_item b = true ↔ ∃ j, try_from_byte_vec b = Ok j).
Proof.
  intros Hb. unfold try_from_byte_vec.
  destruct (Nat.eqb_spec (length b) 24) as [Hl|Hl]; cbn [ensure outcome_bind].
  - split_and!; [by apply job_graceful| |].
    + intros j. split; [by apply job_bytes|]. intros (Hj & <-). by apply job_read.
    + unfold is_queue_item. rewrite Hl. cbn [Nat.eqb andb]. unfold job_try_from.
      destruct (lookup_lt_is_Some_2 b 0 ltac:(lia)) as (x0 & ->), (lookup_lt_is_Some_2 b 9 ltac:(lia)) as (x9 & ->),
        (lookup_lt_is_Some_2 b 22 ltac:(lia)) as (x22 & ->), (lookup_lt_is_Some_2 b 23 ltac:(lia)) as (x23 & ->).
      cbn [unwrap outcome_bind]. destruct (topic_try_from x0), (Circuit.circuit_try_from x9), (data_type_try_from x22);
        cbn [is_ok andb outcome_bind]; (split; [done || eauto|by intros (? & ?)]).
  - split_and!; [done| |].
    + intros j. split; [done|]. intros ((_ & _ & _ & _ & Hd) & <-). by destruct (job_array j Hd); lia.
    + split; [|by intros (? & ?)]. unfold is_queue_item. apply Nat.eqb_neq in Hl. rewrite Hl. by repeat case_match.
Qed.

Lemma job_id_strict_witness :
  ∃ b, bytes b ∧ length b = 24%nat ∧ is_queue_item b = true ∧ (∃ j, try_from_byte_vec b = Ok j ∧ to_fixed_bytes j = b).
Proof.
  exists (to_fixed_bytes (guta_two_agg_witness 1000 3 2 1)).
  assert (Hb : bytes (to_fixed_bytes (guta_two_agg_witness 1000 3 2 1))).
  { by apply (bool_decide_unpack _). }
  split_and!; [done|reflexivity|reflexivity|].
  exists (guta_two_agg_witness 1000 3 2 1). split; [|reflexivity].
  apply (job_id_strict _ Hb). split; [|reflexivity]. unfold job_ok, is_uint. cbn. lia.
Defined.

(** ** Aggregation *)
(** What a job can be aggregated with: the end caps and GUTA proofs, or one family of tree
    aggregations named by its leaf circuit. *)
Inductive aggregation_kind : Type :=
  | UserTree
  | Family (leaf : Circuit.ProvingJobCircuitType).

#[global] Instance aggregation_kind_eq_dec : EqDecision aggregation_kind.
Proof. solve_decision. Defined.

Definition kind_of (j : QProvingJobDataID) : option aggregation_kind :=
  if is_guta_proof_circuit_type j || is_end_cap_proof_circuit_type j then Some UserTree
  else match Circuit.get_agg_leaf_circuit_type_or_err (circuit_type j) with Ok c => Some (Family c) | _ => None end.

Lemma family_aggregate (c d : Circuit.ProvingJobCircuitType) :
  Circuit.get_agg_leaf_circuit_type_or_err c = Ok d →
  ∃ a, Circuit.get_agg_circuit_type_or_err d = Ok a ∧ a ≠ Circuit.Invalid ∧ Circuit.get_agg_leaf_circuit_type_or_err a = Ok d ∧
    Circuit.is_guta a = false ∧ a ≠ Circuit.UserEndCap.
Proof. by destruct c; cbn; intros [= <-]; eexists. Qed.

Lemma family_not_user_tree (j : QProvingJobDataID) (c : Circuit.ProvingJobCircuitType) :
  Circuit.get_agg_leaf_circuit_type_or_err (circuit_type j) = Ok c →
  is_guta_proof_circuit_type j || is_end_cap_proof_circuit_type j = false.
Proof. by destruct j as [? ? [] ? ? ? ? ?]; cbn; intros [= <-]. Qed.

(** Two valid jobs of one kind have an aggregate, a valid job of that kind. *)
Lemma two_to_one_same (target : Z) (l r : QProvingJobDataID) (index lv rev : Z) (k : aggregation_kind) :
  job_is_valid l = true → job_is_valid r = true → kind_of l = Some k → kind_of r = Some k →
  ∃ j, new_two_to_one_proof_id target l r index lv rev = Ok j ∧ job_is_valid j = true ∧ kind_of j = Some k ∧ goal_id j = target.
Proof.
  intros Hl Hr. unfold new_two_to_one_proof_id, two_to_one_circuit, kind_of. rewrite Hl, Hr. cbn [negb orb ensure outcome_bind].
  destruct (is_guta_proof_circuit_type l || _), (is_guta_proof_circuit_type r || _); cbn [andb].
  1: intros [= <-] _; by repeat case_match; eexists.
  1, 2: intros; by repeat case_match; simplify_eq.
  destruct (Circuit.get_agg_leaf_circuit_type_or_err (circuit_type l)) as [ll| | |] eqn:Fl; try done.
  destruct (Circuit.get_agg_leaf_circuit_type_or_err (circuit_type r)) as [rl| | |] eqn:Fr; try done.
  intros [= <-] [= ->]. rewrite bool_decide_true by done.
  destruct (family_aggregate _ _ Fl) as (a & -> & Ha & Hf & Hg & He). cbn [outcome_bind]. eexists. split; [done|].
  unfold job_is_valid, is_guta_proof_circuit_type, is_end_cap_proof_circuit_type. cbn.
  by rewrite Hg, Hf, !bool_decide_false.
Qed.

(** Valid jobs of no kind, or of two, panic: also in the variant that is named for
    returning an invalid job instead. *)
Lemma two_to_one_differ (target : Z) (l r : QProvingJobDataID) (index lv rev : Z) :
  job_is_valid l = true → job_is_valid r = true → (∀ k, ¬ (kind_of l = Some k ∧ kind_of r = Some k)) →
  new_two_to_one_proof_id target l r index lv rev = Panic ∧
  new_two_to_one_proof_id_or_invalid target l r index lv rev = Panic.
Proof.
  intros Hl Hr Hk. unfold new_two_to_one_proof_id_or_invalid.
  enough (new_two_to_one_proof_id target l r index lv rev = Panic) as -> by done.
  unfold new_two_to_one_proof_id, two_to_one_circuit. rewrite Hl, Hr. cbn [negb orb ensure outcome_bind].
  unfold kind_of in Hk.
  destruct (is_guta_proof_circuit_type l || _) eqn:Gl, (is_guta_proof_circuit_type r || _) eqn:Gr; cbn [andb].
  1: by destruct (Hk UserTree).
  all: destruct (Circuit.get_agg_leaf_circuit_type_or_err (circuit_type l)) as [ll| | |] eqn:Fl; try done.
  all: destruct (Circuit.get_agg_leaf_circuit_type_or_err (circuit_type r)) as [rl| | |] eqn:Fr; try done.
  all: case_bool_decide as Heq; [subst|done].
  1: by rewrite (family_not_user_tree _ _ Fl) in Gl.
  1: by rewrite (family_not_user_tree _ _ Fr) in Gr.
  by destruct (Hk (Family rl)).
Qed.

(** A binary aggregation tree over jobs: the order in which a planner combines them. *)
Inductive plan : Type :=
  | Leaf (j : QProvingJobDataID)
  | Node (l r : plan).

Fixpoint leaves (p : plan) : list QProvingJobDataID :=
  match p with Leaf j => [j] | Node l r => leaves l ++ leaves r end.

Definition is_node (p : plan) : bool := match p with Leaf _ => false | Node _ _ => true end.

(** The job of a tree, each inner node numbered by its place in it. *)
Fixpoint aggregate (target : Z) (p : plan) (level index : Z) : outcome QProvingJobDataID :=
  match p with
  | Leaf j => Ok j
  | Node l r =>
      let* a := aggregate target l (level + 1) (2 * index) in
      let* b := aggregate target r (level + 1) (2 * index + 1) in
      new_two_to_one_proof_id target a b index level level
  end.

Definition of_kind (k : aggregation_kind) (p : plan) : Prop := Forall (λ j, kind_of j = Some k) (leaves p).

Lemma aggregate_spec (target : Z) (p : plan) (level index : Z) :
  Forall (λ j, job_is_valid j = true) (leaves p) →
  (∃ j, aggregate target p level index = Ok j ∧ job_is_valid j = true ∧
     (∀ k, kind_of j = Some k ↔ of_kind k p) ∧ (is_node p = true → goal_id j = target ∧ is_Some (kind_of j))) ∨
  (is_node p = true ∧ aggregate target p level index = Panic ∧ ∀ k, ¬ of_kind k p).
Proof.
  unfold of_kind. revert level index. induction p as [j|l IHl r IHr]; intros level index Hv.
  - left. exists j. apply Forall_inv in Hv. do 2 (split; [done|]). split; [|done].
    intros k. cbn [leaves]. by rewrite Forall_singleton.
  - cbn [leaves] in *. setoid_rewrite Forall_app. apply Forall_app in Hv as [Hvl Hvr]. cbn [aggregate is_node].
    destruct (IHl (level + 1) (2 * index) Hvl) as [(a & -> & Va & Ka & _)|(_ & -> & Hn)];
      [|by right; split_and!; [..|intros k [? _]; apply (Hn k)]].
    destruct (IHr (level + 1) (2 * index + 1) Hvr) as [(b & -> & Vb & Kb & _)|(_ & -> & Hn)];
      [|by right; split_and!; [..|intros k [_ ?]; apply (Hn k)]].
    cbn [outcome_bind]. destruct (kind_of a) as [k|] eqn:Ea; [destruct (decide (kind_of b = Some k)) as [Eb|Eb]|].
    + left. destruct (two_to_one_same target a b index level level k) as (j & -> & Vj & Kj & Gj); try done.
      exists j. do 2 (split; [done|]). split; [|by eauto].
      intros k'. rewrite Kj, <- Ka, <- Kb, Eb. split; [by intros [= <-]|by intros [[= <-] _]].
    + right. split_and!; try done.
      * apply two_to_one_differ; try done. intros k' [? ?]. congruence.
      * intros k'. rewrite <- Ka, <- Kb. intros [? ?]. congruence.
    + right. split_and!; try done.
      * apply two_to_one_differ; try done. intros k' [? ?]. congruence.
      * intros k'. rewrite <- Ka. by intros [? ?].
Qed.

(** C39: proofs can be combined in every order. Over valid jobs, the two-to-one rule applied
    bottom-up along any binary tree with at least one inner node succeeds exactly when all
    its leaves are of one kind, end caps and GUTA proofs or one family of tree aggregations;
    the result is then a valid job of that kind synchronised to the target checkpoint. In
    every other tree some step panics, none returns an error. *)
Theorem aggregation_total (target level index : Z) (p : plan) :
  Forall (λ j, job_is_valid j = true) (leaves p) → is_node p = true →
  (∀ k, of_kind k p → ∃ j, aggregate target p level index = Ok j ∧ job_is_valid j = true ∧ kind_of j = Some k ∧ goal_id j = target) ∧
  ((∀ k, ¬ of_kind k p) → aggregate target p level index = Panic).
Proof.
  intros Hv Hn. destruct (aggregate_spec target p level index Hv) as [(j & -> & Vj & Kj & Hg)|(_ & -> & Hno)].
  - destruct (Hg Hn) as (Gj & k' & Hk'). split; [|intros Hno; by apply Kj in Hk'; apply Hno in Hk'].
    intros k Hk. exists j. by rewrite Kj.
  - split; [|done]. intros k Hk. by destruct (Hno k).
Qed.

Definition demo_plan : plan :=
  Node (Node (Leaf (new_standard_user_end_cap_proof_id 7 1 32)) (Leaf (new_standard_user_end_cap_proof_id 7 2 32)))
       (Leaf (realm_finalize_guta 7 3)).

Definition demo_guta_plan : plan :=
  Node (Node (Leaf (new_standard_user_end_cap_proof_id 7 1 32)) (Leaf (new_standard_user_end_cap_proof_id 7 2 32)))
       (Leaf (new_standard_user_end_cap_proof_id 7 3 32)).

Lemma aggregation_total_witness :
  (∃ j, aggregate 9 demo_guta_plan 0 0 = Ok j ∧ job_is_valid j = true ∧ kind_of j = Some UserTree ∧ goal_id j = 9) ∧
  aggregate 9 demo_plan 0 0 = Panic.
Proof.
  split.
  - refine (proj1 (aggregation_total 9 0 0 demo_guta_plan _ _) UserTree _); [|reflexivity|]; repeat constructor.
  - refine (proj2 (aggregation_total 9 0 0 demo_plan _ _) _); [repeat constructor|reflexivity|].
    intros k Hk. unfold of_kind in Hk. cbn [demo_plan leaves app] in Hk.
    apply Forall_inv_tail, Forall_inv_tail, Forall_inv in Hk. discriminate Hk.
Defined.

(** ** Where the code departs from its names *)

(** A four-byte prefix never fits the three bytes it is copied to. *)
Lemma with_ps_prefix_panics (j : QProvingJobDataID) (prefix : list Z) : length prefix = 4%nat → with_ps_prefix j prefix = Panic.
Proof. intros Hp. unfold with_ps_prefix, copy_from_slice. by rewrite Hp. Qed.

(** The counter of a sub-group is the output of its first task. *)
Lemma counter_is_first_output (j : QProvingJobDataID) :
  task_index j = 0 → get_sub_group_counter_id j = get_output_id j.
Proof. unfold get_sub_group_counter_id, get_output_id. by intros ->. Qed.

(** The parent of a dummy aggregate is the aggregate of its family, except for contract
    deployments, whose dummy is its own parent. *)
Lemma dummy_parent (c a d : Circuit.ProvingJobCircuitType) :
  Circuit.get_agg_circuit_type_or_err c = Ok a → Circuit.get_agg_dummy_circuit_type_or_err c = Ok d →
  Circuit.tree_parent_type d = if bool_decide (a = Circuit.BatchDeployContractsAggregate) then d else a.
Proof. by destruct c; cbn; intros [= <-] [= <-]. Qed.
