(* ===== verification/TempStore.v ===== *)
(** * The temporary store

    [psy_node_store_memory/src/temp_store.rs] keeps what lives between two checkpoints:
    proofs by pending identifier and job, rows of bytes, counters and queues. The keys of
    the rows are those of [psy_node_core/src/psy_temp_db/table_identifiers.rs] and
    [psy_node_core/src/store/traits/temp_db.rs], the subjects of the queues those of
    [parth_core/src/data/queue/queue_key.rs]. The concurrent maps of the store are finite maps
    and each operation is one step: the store's locks make it one. *)
From stdpp Require Import prelude list gmap strings.
From Stdlib Require Import ZArith Lia.
From S2P Require Import Prelude MerkleKey Wire Serialize ByteOrder Codecs Qblob BlobFormat JobId.

Record InMemoryTempStore : Type := mkTempStore {
  proof_store : gmap Z (gmap (list Z) (list Z));
  kv_store : gmap (list Z) (list Z);
  counter_store : gmap (list Z) Z;
  queues : gmap (list Z) (list (list Z));
}.

Definition temp_new : InMemoryTempStore := mkTempStore ∅ ∅ ∅ ∅.

Definition set_proofs (s : InMemoryTempStore) (m : gmap Z (gmap (list Z) (list Z))) : InMemoryTempStore :=
  mkTempStore m (kv_store s) (counter_store s) (queues s).
Definition set_kv (s : InMemoryTempStore) (m : gmap (list Z) (list Z)) : InMemoryTempStore :=
  mkTempStore (proof_store s) m (counter_store s) (queues s).
Definition set_counters (s : InMemoryTempStore) (m : gmap (list Z) Z) : InMemoryTempStore :=
  mkTempStore (proof_store s) (kv_store s) m (queues s).
Definition set_queues (s : InMemoryTempStore) (m : gmap (list Z) (list (list Z))) : InMemoryTempStore :=
  mkTempStore (proof_store s) (kv_store s) (counter_store s) m.

(** ** Subjects of queues

    [format!("{}.pq.r{:x}.rs{:x}.u{:x}.qt{:x}.g{:x}", ...)], as its bytes. *)
Definition hex_digit (d : Z) : Z := if d <? 10 then 48 + d else 87 + d.

(** The digits of a number below [16 ^ n], the lowest first. *)
Fixpoint hex_loop (n : nat) (x : Z) : list Z :=
  match n with
  | O => []
  | S n => if x <? 16 then [hex_digit x] else hex_digit (x mod 16) :: hex_loop n (x / 16)
  end.

(** [{:x}] of at most 128 bits. *)
Definition lower_hex (x : Z) : list Z := reverse (hex_loop 32 x).

(** [".pq.r"] and the other separators. *)
Definition get_queue_subject (core_namespace : list Z) (queue_topic_id realm_id realm_sub_id unique_id task_group : Z) : list Z :=
  core_namespace ++ [46; 112; 113; 46; 114] ++ lower_hex realm_id ++ [46; 114; 115] ++ lower_hex realm_sub_id ++
  [46; 117] ++ lower_hex unique_id ++ [46; 113; 116] ++ lower_hex queue_topic_id ++ [46; 103] ++ lower_hex task_group.

(** [iter().map(f).collect::<Result<Vec<_>, _>>()] *)
Fixpoint collect {A B} (f : A → outcome B) (l : list A) : outcome (list B) :=
  match l with
  | [] => Ok []
  | a :: l => let* b := f a in let* bs := collect f l in Ok (b :: bs)
  end.

(** ** Queues *)
Definition get_or_create_queue (s : InMemoryTempStore) (subject : list Z) : list (list Z) := default [] (queues s !! subject).

Definition publish_ephemeral_queue_item_bytes_ref (s : InMemoryTempStore) (subject item_bytes : list Z) : InMemoryTempStore :=
  set_queues s (<[subject := get_or_create_queue s subject ++ [item_bytes]]> (queues s)).

Definition publish_many_ephemeral_queue_items_bytes_ref (s : InMemoryTempStore) (subject : list Z) (items_bytes : list (list Z))
    : InMemoryTempStore :=
  if decide (items_bytes = []) then s
  else set_queues s (<[subject := get_or_create_queue s subject ++ items_bytes]> (queues s)).

(** The items are encoded before the first is published. *)
Definition publish_many_ephemeral_queue_items_ref {A} (encode_queue_item_vec : A → outcome (list Z)) (s : InMemoryTempStore)
    (subject : list Z) (items : list A) : outcome unit * InMemoryTempStore :=
  match collect encode_queue_item_vec items with
  | Ok bytes_vec => (Ok tt, publish_many_ephemeral_queue_items_bytes_ref s subject bytes_vec)
  | Err e => (Err e, s)
  | Panic => (Panic, s)
  | Diverge => (Diverge, s)
  end.

Definition consume_ephemeral_queue_item_or_none_bytes (s : InMemoryTempStore) (subject : list Z)
    : option (list Z) * InMemoryTempStore :=
  match get_or_create_queue s subject with
  | [] => (None, set_queues s (<[subject := []]> (queues s)))
  | item :: rest => (Some item, set_queues s (<[subject := rest]> (queues s)))
  end.

(** [wakes] is what the other tasks do until each notification and until the timeout. *)
Fixpoint wait_for_ephemeral_queue_item_bytes (wakes : list (InMemoryTempStore → InMemoryTempStore)) (s : InMemoryTempStore)
    (subject : list Z) : option (list Z) * InMemoryTempStore :=
  match consume_ephemeral_queue_item_or_none_bytes s subject, wakes with
  | (Some item, s), _ => (Some item, s)
  | (None, s), [] => (None, s)
  | (None, s), wake :: wakes => wait_for_ephemeral_queue_item_bytes wakes (wake s) subject
  end.

Definition dump_entire_ephemeral_queue_bytes (s : InMemoryTempStore) (subject : list Z) (max_items : nat)
    : list (list Z) * InMemoryTempStore :=
  let queue := get_or_create_queue s subject in
  let count := Nat.min (length queue) max_items in
  (take count queue, set_queues s (<[subject := drop count queue]> (queues s))).

(** The items of a dump are gone from the queue also when one does not decode. *)
Definition dump_entire_ephemeral_queue {A} (decode_queue_item_ref : list Z → outcome A) (s : InMemoryTempStore)
    (subject : list Z) (max_items : nat) : outcome (list A) * InMemoryTempStore :=
  let '(bytes_vec, s) := dump_entire_ephemeral_queue_bytes s subject max_items in
  (collect decode_queue_item_ref bytes_vec, s).

(** ** Proofs *)
Definition get_proof_bytes_by_job_id (s : InMemoryTempStore) (job_id : list Z) (unique_pending_id : Z) : option (list Z) :=
  bucket ← proof_store s !! unique_pending_id; bucket !! job_id.

Definition contains_proof_for_job_id (s : InMemoryTempStore) (job_id : list Z) (unique_pending_id : Z) : bool :=
  match proof_store s !! unique_pending_id with
  | Some bucket => bool_decide (is_Some (bucket !! job_id))
  | None => false
  end.

Definition put_proof_bytes_for_job_id (s : InMemoryTempStore) (job_id : list Z) (unique_pending_id : Z) (proof_bytes : list Z)
    : InMemoryTempStore :=
  let bucket := default ∅ (proof_store s !! unique_pending_id) in
  set_proofs s (<[unique_pending_id := <[job_id := proof_bytes]> bucket]> (proof_store s)).

Definition delete_all_proofs_for_pending_id (s : InMemoryTempStore) (unique_pending_id : Z) : InMemoryTempStore :=
  set_proofs s (delete unique_pending_id (proof_store s)).

(** ** Rows *)
Definition qtdb_raw_kv_get_value (s : InMemoryTempStore) (key : list Z) : option (list Z) := kv_store s !! key.

Definition qtdb_raw_kv_get_many_values (s : InMemoryTempStore) (keys : list (list Z)) : list (option (list Z)) :=
  (λ key, kv_store s !! key) <$> keys.

Definition qtdb_raw_kv_contains_key (s : InMemoryTempStore) (key : list Z) : bool := bool_decide (is_Some (kv_store s !! key)).

Definition qtdb_raw_kv_put_value (s : InMemoryTempStore) (key value : list Z) : InMemoryTempStore :=
  set_kv s (<[key := value]> (kv_store s)).

Definition qtdb_raw_kv_put_value_if_absent (s : InMemoryTempStore) (key value : list Z) : bool * InMemoryTempStore :=
  match kv_store s !! key with
  | Some _ => (false, s)
  | None => (true, set_kv s (<[key := value]> (kv_store s)))
  end.

Definition qtdb_raw_kv_delete_key (s : InMemoryTempStore) (key : list Z) : InMemoryTempStore := set_kv s (delete key (kv_store s)).

Definition qtdb_raw_kv_put_many_values (s : InMemoryTempStore) (entries : list (list Z * list Z)) : InMemoryTempStore :=
  foldl (λ s entry, qtdb_raw_kv_put_value s entry.1 entry.2) s entries.

(** [chunks_exact] *)
Fixpoint chunks_of (count size : nat) (data : list Z) : list (list Z) :=
  match count with
  | O => []
  | S count => take size data :: chunks_of count size (drop size data)
  end.

(** A remainder by zero panics. *)
Definition qtdb_raw_kv_put_many_values_buffer (key_size value_size : nat) (s : InMemoryTempStore) (data : list Z)
    : outcome unit * InMemoryTempStore :=
  let combined_size := (key_size + value_size)%nat in
  if (combined_size =? 0)%nat then (Panic, s)
  else if negb (length data mod combined_size =? 0)%nat
  then (Err "Data length is not a multiple of combined key and value size", s)
  else (Ok tt, qtdb_raw_kv_put_many_values s
                 ((λ chunk, (take key_size chunk, drop key_size chunk)) <$> chunks_of (length data / combined_size) combined_size data)).

(** An empty stored value counts as absent. *)
Definition qtdb_raw_kv_compare_and_set (s : InMemoryTempStore) (key : list Z) (expected : option (list Z)) (new_value : list Z)
    : bool * InMemoryTempStore :=
  match kv_store s !! key with
  | Some occupied =>
      let current := if decide (occupied = []) then None else Some occupied in
      if bool_decide (current = expected) then (true, set_kv s (<[key := new_value]> (kv_store s))) else (false, s)
  | None =>
      match expected with
      | Some _ => (false, s)
      | None => (true, set_kv s (<[key := new_value]> (kv_store s)))
      end
  end.

(** ** Counters

    Signed numbers of 64 bits that wrap around. *)
Definition wrap_i64 (x : Z) : Z := wrap 64 (x + 2 ^ 63) - 2 ^ 63.

Definition qtdb_raw_counter_get_value (s : InMemoryTempStore) (key : list Z) : Z := default 0 (counter_store s !! key).

Definition qtdb_raw_counter_increment_by (s : InMemoryTempStore) (key : list Z) (increment_by : Z) : Z * InMemoryTempStore :=
  let entry := wrap_i64 (qtdb_raw_counter_get_value s key + increment_by) in
  (entry, set_counters s (<[key := entry]> (counter_store s))).

Definition qtdb_raw_counter_set_value (s : InMemoryTempStore) (key : list Z) (value : Z) : InMemoryTempStore :=
  set_counters s (<[key := value]> (counter_store s)).

(** ** Keys of the rows

    [tt_get_*_key] fills an array, [tt_write_*_key] appends to a writer. *)
Definition TEMP_TABLE_ID_WORKER_PROOF_METADATA_BYTES : list Z := [0x45; 0x50].
Definition TEMP_TABLE_ID_UNIQUE_PENDING_ID_BYTES : list Z := [0x50; 0x49].
Definition TEMP_TABLE_ID_GATHERING_UNIQUE_PENDING_ID_BYTES : list Z := [0x47; 0x50].
Definition TEMP_TABLE_ID_PROOF_WITNESS_DATA_BYTES : list Z := [0x50; 0x57].
Definition TEMP_TABLE_ID_SUBMIT_STATUS_BYTES : list Z := [0x53; 0x53].
Definition TEMP_TABLE_ID_USER_CONTRACT_TREE_UPDATES_BYTES : list Z := [0x43; 0x55].
Definition TEMP_TABLE_ID_USER_END_CAP_SLOT_UPDATES_BYTES : list Z := [0x53; 0x55].
Definition TEMP_TABLE_ID_TAG_TREE_VALUES_BYTES : list Z := [0x54; 0x56].
Definition TEMP_TABLE_ID_NODE_PROVING_STATE_BYTES : list Z := [0x50; 0x53].
Definition TEMP_TABLE_ID_DEPLOY_CONTRACT_CODE_DEFINITION_BYTES : list Z := [0x44; 0x43].
Definition TEMP_TABLE_ID_JOB_CLAIM_BYTES : list Z := [0x4A; 0x43].
Definition TEMP_TABLE_ID_JOB_STATS_BYTES : list Z := [0x4A; 0x53].
Definition TEMP_TABLE_ID_GUTA_IN_FLIGHT_BYTES : list Z := [0x47; 0x46].
Definition TEMP_TABLE_ID_WORKER_REPUTATION_BYTES : list Z := [0x57; 0x52].
Definition TEMP_TABLE_ID_PROOF_CLAIM_TAG_BYTES : list Z := [0x54; 0x43].

Definition JOB_STATS_COUNTER_COUNT : Z := 0.
Definition JOB_STATS_COUNTER_TOTAL_DURATION : Z := 1.
Definition JOB_STATS_COUNTER_MIN_DURATION : Z := 2.
Definition JOB_STATS_COUNTER_MAX_DURATION : Z := 3.

Definition tt_get_job_stats_key (realm_id realm_sub_id unique_pending_id counter_type : Z) : list Z :=
  to_le_bytes 4 realm_id ++ to_le_bytes 2 realm_sub_id ++ TEMP_TABLE_ID_JOB_STATS_BYTES ++ to_le_bytes 8 unique_pending_id ++ [counter_type].
Definition tt_get_job_stats_count_key (realm_id realm_sub_id unique_pending_id : Z) : list Z :=
  tt_get_job_stats_key realm_id realm_sub_id unique_pending_id JOB_STATS_COUNTER_COUNT.
Definition tt_get_job_stats_total_duration_key (realm_id realm_sub_id unique_pending_id : Z) : list Z :=
  tt_get_job_stats_key realm_id realm_sub_id unique_pending_id JOB_STATS_COUNTER_TOTAL_DURATION.
Definition tt_get_job_stats_min_duration_key (realm_id realm_sub_id unique_pending_id : Z) : list Z :=
  tt_get_job_stats_key realm_id realm_sub_id unique_pending_id JOB_STATS_COUNTER_MIN_DURATION.
Definition tt_get_job_stats_max_duration_key (realm_id realm_sub_id unique_pending_id : Z) : list Z :=
  tt_get_job_stats_key realm_id realm_sub_id unique_pending_id JOB_STATS_COUNTER_MAX_DURATION.

Definition tt_get_node_proving_state_key (realm_id realm_sub_id : Z) : list Z :=
  to_le_bytes 4 realm_id ++ to_le_bytes 2 realm_sub_id ++ TEMP_TABLE_ID_NODE_PROVING_STATE_BYTES.
Definition tt_get_proving_job_metadata_key (realm_id realm_sub_id unique_pending_id : Z) (job_id_bytes : list Z) : list Z :=
  to_le_bytes 4 realm_id ++ to_le_bytes 2 realm_sub_id ++ TEMP_TABLE_ID_WORKER_PROOF_METADATA_BYTES ++ to_le_bytes 8 unique_pending_id ++ job_id_bytes.
Definition tt_get_unique_pending_id_key (realm_id realm_sub_id : Z) : list Z :=
  to_le_bytes 4 realm_id ++ to_le_bytes 2 realm_sub_id ++ TEMP_TABLE_ID_UNIQUE_PENDING_ID_BYTES.
Definition tt_get_gathering_unique_pending_id_key (realm_id realm_sub_id : Z) : list Z :=
  to_le_bytes 4 realm_id ++ to_le_bytes 2 realm_sub_id ++ TEMP_TABLE_ID_GATHERING_UNIQUE_PENDING_ID_BYTES.
Definition tt_get_proof_witness_data_key (realm_id realm_sub_id unique_pending_id : Z) (job_id_bytes : list Z) : list Z :=
  to_le_bytes 4 realm_id ++ to_le_bytes 2 realm_sub_id ++ TEMP_TABLE_ID_PROOF_WITNESS_DATA_BYTES ++ to_le_bytes 8 unique_pending_id ++ job_id_bytes.
Definition tt_get_submit_status_key (realm_id realm_sub_id unique_pending_id user_or_realm_id : Z) : list Z :=
  to_le_bytes 4 realm_id ++ to_le_bytes 2 realm_sub_id ++ TEMP_TABLE_ID_SUBMIT_STATUS_BYTES ++ to_le_bytes 8 unique_pending_id ++ to_le_bytes 8 user_or_realm_id.
Definition tt_get_contract_updates_key (realm_id realm_sub_id unique_pending_id user_id : Z) : list Z :=
  to_le_bytes 4 realm_id ++ to_le_bytes 2 realm_sub_id ++ TEMP_TABLE_ID_USER_CONTRACT_TREE_UPDATES_BYTES ++ to_le_bytes 8 unique_pending_id ++ to_le_bytes 8 user_id.
Definition tt_get_user_end_cap_slot_updates_key (realm_id realm_sub_id unique_pending_id user_id : Z) : list Z :=
  to_le_bytes 4 realm_id ++ to_le_bytes 2 realm_sub_id ++ TEMP_TABLE_ID_USER_END_CAP_SLOT_UPDATES_BYTES ++ to_le_bytes 8 unique_pending_id ++ to_le_bytes 8 user_id.
Definition tt_get_rewards_tag_tree_value_key (realm_id realm_sub_id unique_pending_id : Z) (job_id_bytes : list Z) : list Z :=
  to_le_bytes 4 realm_id ++ to_le_bytes 2 realm_sub_id ++ TEMP_TABLE_ID_TAG_TREE_VALUES_BYTES ++ to_le_bytes 8 unique_pending_id ++ job_id_bytes.
Definition tt_get_proof_claim_tag_key (realm_id realm_sub_id unique_pending_id : Z) (job_id_bytes : list Z) : list Z :=
  to_le_bytes 4 realm_id ++ to_le_bytes 2 realm_sub_id ++ TEMP_TABLE_ID_PROOF_CLAIM_TAG_BYTES ++ to_le_bytes 8 unique_pending_id ++ job_id_bytes.
Definition tt_get_deploy_contract_code_definition_key (realm_id realm_sub_id unique_pending_id : Z) (rand_key : list Z) : list Z :=
  to_le_bytes 4 realm_id ++ to_le_bytes 2 realm_sub_id ++ TEMP_TABLE_ID_DEPLOY_CONTRACT_CODE_DEFINITION_BYTES ++ to_le_bytes 8 unique_pending_id ++ rand_key.
Definition tt_get_job_claim_key_from_bytes (realm_id realm_sub_id unique_pending_id : Z) (job_id_bytes : list Z) : list Z :=
  to_le_bytes 4 realm_id ++ to_le_bytes 2 realm_sub_id ++ TEMP_TABLE_ID_JOB_CLAIM_BYTES ++ to_le_bytes 8 unique_pending_id ++ job_id_bytes.
Definition tt_get_worker_reputation_key (realm_id realm_sub_id : Z) (public_key : list Z) : list Z :=
  to_le_bytes 4 realm_id ++ to_le_bytes 2 realm_sub_id ++ TEMP_TABLE_ID_WORKER_REPUTATION_BYTES ++ public_key.
Definition tt_get_guta_in_flight_key (realm_id realm_sub_id submitting_realm_id : Z) : list Z :=
  to_le_bytes 4 realm_id ++ to_le_bytes 2 realm_sub_id ++ TEMP_TABLE_ID_GUTA_IN_FLIGHT_BYTES ++ to_le_bytes 8 submitting_realm_id.

(** The writer of this key names the table of the contract updates. *)
Definition tt_write_contract_code_definition_key (realm_id realm_sub_id unique_pending_id : Z) (rand_key : list Z) : list Z :=
  to_le_bytes 4 realm_id ++ to_le_bytes 2 realm_sub_id ++ TEMP_TABLE_ID_USER_CONTRACT_TREE_UPDATES_BYTES ++ to_le_bytes 8 unique_pending_id ++ rand_key.

Definition PENDING_KEYED_TEMP_TABLE_ID_BYTES : list (list Z) :=
  [TEMP_TABLE_ID_WORKER_PROOF_METADATA_BYTES; TEMP_TABLE_ID_PROOF_WITNESS_DATA_BYTES; TEMP_TABLE_ID_SUBMIT_STATUS_BYTES;
   TEMP_TABLE_ID_USER_CONTRACT_TREE_UPDATES_BYTES; TEMP_TABLE_ID_USER_END_CAP_SLOT_UPDATES_BYTES;
   TEMP_TABLE_ID_TAG_TREE_VALUES_BYTES; TEMP_TABLE_ID_DEPLOY_CONTRACT_CODE_DEFINITION_BYTES; TEMP_TABLE_ID_JOB_CLAIM_BYTES;
   TEMP_TABLE_ID_JOB_STATS_BYTES; TEMP_TABLE_ID_PROOF_CLAIM_TAG_BYTES].

Definition pending_temp_kv_prefix (realm_id realm_sub_id : Z) (table_id_bytes : list Z) (pending_id : Z) : list Z :=
  to_le_bytes 4 realm_id ++ to_le_bytes 2 realm_sub_id ++ table_id_bytes ++ to_le_bytes 8 pending_id.

(** Whether a field is kept. *)
Definition field_is_of_pending (realm_id realm_sub_id pending_id : Z) (field : list Z) : bool :=
  if (length field <? 16)%nat then false
  else if negb (bool_decide (slice 0 4 field = to_le_bytes 4 realm_id) && bool_decide (slice 4 6 field = to_le_bytes 2 realm_sub_id) &&
                bool_decide (slice 8 16 field = to_le_bytes 8 pending_id)) then false
  else bool_decide (slice 6 8 field ∈ PENDING_KEYED_TEMP_TABLE_ID_BYTES).

Definition filter_temp_kv_fields_by_pending (fields : list (list Z)) (realm_id realm_sub_id pending_id : Z) : list (list Z) :=
  filter (λ field, field_is_of_pending realm_id realm_sub_id pending_id field = true) fields.

(** ** What a key says

    The rows of the temporary database by what they are about. *)
Inductive temp_row : Type :=
  | JobStatsRow (unique_pending_id counter_type : Z)
  | NodeProvingStateRow
  | MetadataRow (unique_pending_id : Z) (job_id : list Z)
  | PendingIdsRow
  | GatheringRow
  | WitnessRow (unique_pending_id : Z) (job_id : list Z)
  | SubmitStatusRow (unique_pending_id user_or_realm_id : Z)
  | ContractUpdatesRow (unique_pending_id user_id : Z)
  | SlotUpdatesRow (unique_pending_id user_id : Z)
  | RewardRow (unique_pending_id : Z) (job_id : list Z)
  | ClaimTagRow (unique_pending_id : Z) (job_id : list Z)
  | DeployCodeRow (unique_pending_id : Z) (rand_key : list Z)
  | JobClaimRow (unique_pending_id : Z) (job_id : list Z)
  | ReputationRow (public_key : list Z)
  | GutaInFlightRow (submitting_realm_id : Z).

Definition row_key (rid : Z * Z) (row : temp_row) : list Z :=
  match row with
  | JobStatsRow p c => tt_get_job_stats_key rid.1 rid.2 p c
  | NodeProvingStateRow => tt_get_node_proving_state_key rid.1 rid.2
  | MetadataRow p j => tt_get_proving_job_metadata_key rid.1 rid.2 p j
  | PendingIdsRow => tt_get_unique_pending_id_key rid.1 rid.2
  | GatheringRow => tt_get_gathering_unique_pending_id_key rid.1 rid.2
  | WitnessRow p j => tt_get_proof_witness_data_key rid.1 rid.2 p j
  | SubmitStatusRow p u => tt_get_submit_status_key rid.1 rid.2 p u
  | ContractUpdatesRow p u => tt_get_contract_updates_key rid.1 rid.2 p u
  | SlotUpdatesRow p u => tt_get_user_end_cap_slot_updates_key rid.1 rid.2 p u
  | RewardRow p j => tt_get_rewards_tag_tree_value_key rid.1 rid.2 p j
  | ClaimTagRow p j => tt_get_proof_claim_tag_key rid.1 rid.2 p j
  | DeployCodeRow p k => tt_get_deploy_contract_code_definition_key rid.1 rid.2 p k
  | JobClaimRow p j => tt_get_job_claim_key_from_bytes rid.1 rid.2 p j
  | ReputationRow k => tt_get_worker_reputation_key rid.1 rid.2 k
  | GutaInFlightRow r => tt_get_guta_in_flight_key rid.1 rid.2 r
  end.

(** The pending identifier of a row that goes with it. *)
Definition row_pending (row : temp_row) : option Z :=
  match row with
  | JobStatsRow p _ | MetadataRow p _ | WitnessRow p _ | SubmitStatusRow p _ | ContractUpdatesRow p _ | SlotUpdatesRow p _
  | RewardRow p _ | ClaimTagRow p _ | DeployCodeRow p _ | JobClaimRow p _ => Some p
  | _ => None
  end.

Definition rid_ok (rid : Z * Z) : Prop := is_uint 32 rid.1 ∧ is_uint 16 rid.2.

Definition row_ok (row : temp_row) : Prop :=
  match row with
  | JobStatsRow p c => is_uint 64 p ∧ is_uint 8 c
  | MetadataRow p j | WitnessRow p j | RewardRow p j | ClaimTagRow p j | JobClaimRow p j => is_uint 64 p ∧ length j = 24%nat
  | SubmitStatusRow p u | ContractUpdatesRow p u | SlotUpdatesRow p u => is_uint 64 p ∧ is_uint 64 u
  | DeployCodeRow p k => is_uint 64 p ∧ length k = 16%nat
  | ReputationRow k => length k = 33%nat
  | GutaInFlightRow r => is_uint 64 r
  | _ => True
  end.

Definition row_table (row : temp_row) : list Z :=
  match row with
  | JobStatsRow _ _ => TEMP_TABLE_ID_JOB_STATS_BYTES
  | NodeProvingStateRow => TEMP_TABLE_ID_NODE_PROVING_STATE_BYTES
  | MetadataRow _ _ => TEMP_TABLE_ID_WORKER_PROOF_METADATA_BYTES
  | PendingIdsRow => TEMP_TABLE_ID_UNIQUE_PENDING_ID_BYTES
  | GatheringRow => TEMP_TABLE_ID_GATHERING_UNIQUE_PENDING_ID_BYTES
  | WitnessRow _ _ => TEMP_TABLE_ID_PROOF_WITNESS_DATA_BYTES
  | SubmitStatusRow _ _ => TEMP_TABLE_ID_SUBMIT_STATUS_BYTES
  | ContractUpdatesRow _ _ => TEMP_TABLE_ID_USER_CONTRACT_TREE_UPDATES_BYTES
  | SlotUpdatesRow _ _ => TEMP_TABLE_ID_USER_END_CAP_SLOT_UPDATES_BYTES
  | RewardRow _ _ => TEMP_TABLE_ID_TAG_TREE_VALUES_BYTES
  | ClaimTagRow _ _ => TEMP_TABLE_ID_PROOF_CLAIM_TAG_BYTES
  | DeployCodeRow _ _ => TEMP_TABLE_ID_DEPLOY_CONTRACT_CODE_DEFINITION_BYTES
  | JobClaimRow _ _ => TEMP_TABLE_ID_JOB_CLAIM_BYTES
  | ReputationRow _ => TEMP_TABLE_ID_WORKER_REPUTATION_BYTES
  | GutaInFlightRow _ => TEMP_TABLE_ID_GUTA_IN_FLIGHT_BYTES
  end.

Definition row_rest (row : temp_row) : list Z :=
  match row with
  | JobStatsRow p c => to_le_bytes 8 p ++ [c]
  | MetadataRow p j | WitnessRow p j | RewardRow p j | ClaimTagRow p j | DeployCodeRow p j | JobClaimRow p j => to_le_bytes 8 p ++ j
  | SubmitStatusRow p u | ContractUpdatesRow p u | SlotUpdatesRow p u => to_le_bytes 8 p ++ to_le_bytes 8 u
  | ReputationRow k => k
  | GutaInFlightRow r => to_le_bytes 8 r
  | _ => []
  end.

Lemma row_key_parts rid row :
  row_key rid row = to_le_bytes 4 rid.1 ++ to_le_bytes 2 rid.2 ++ row_table row ++ row_rest row.
Proof. destruct row; cbn [row_key row_table row_rest]; rewrite ?app_nil_r; reflexivity. Qed.

Lemma length_row_table row : length (row_table row) = 2%nat.
Proof. by destruct row. Qed.

Lemma le_bytes_inj n x y : 0 ≤ x < 2 ^ (8 * Z.of_nat n) → 0 ≤ y < 2 ^ (8 * Z.of_nat n) → to_le_bytes n x = to_le_bytes n y → x = y.
Proof. intros Hx Hy E. rewrite <- (from_to_le_bytes n x Hx), <- (from_to_le_bytes n y Hy). by rewrite E. Qed.

(** Two sequences that begin with numbers of one width. *)
Lemma le_bytes_app_inj n x y (a b : list Z) :
  0 ≤ x < 2 ^ (8 * Z.of_nat n) → 0 ≤ y < 2 ^ (8 * Z.of_nat n) → to_le_bytes n x ++ a = to_le_bytes n y ++ b → x = y ∧ a = b.
Proof.
  intros Hx Hy E. apply app_inj_1 in E as [E ->]; [|by rewrite !length_to_le_bytes]. split; [|done]. by eapply le_bytes_inj.
Qed.

Lemma row_rest_inj row row' : row_ok row → row_ok row' → row_table row = row_table row' → row_rest row = row_rest row' → row = row'.
Proof.
  unfold row_ok, is_uint. destruct row, row'; intros Ho Ho' Ht Hr; try discriminate Ht; cbn [row_rest] in Hr; try reflexivity.
  all: try (apply le_bytes_app_inj in Hr as [-> Hr]; [|lia..]).
  all: try (apply le_bytes_inj in Hr as ->; [|lia..]; reflexivity).
  all: congruence.
Qed.

Lemma row_key_inj rid rid' row row' :
  rid_ok rid → rid_ok rid' → row_ok row → row_ok row' → row_key rid row = row_key rid' row' → rid = rid' ∧ row = row'.
Proof.
  intros [H1 H2] [H1' H2'] Ho Ho'. unfold is_uint in *. rewrite !row_key_parts. intros E.
  apply le_bytes_app_inj in E as [E1 E]; [|lia..]. apply le_bytes_app_inj in E as [E2 E]; [|lia..].
  apply app_inj_1 in E as [E3 E4]; [|by rewrite !length_row_table].
  split; [destruct rid, rid'; cbn in *; congruence|by apply row_rest_inj].
Qed.

Lemma key_slices rid row :
  slice 0 4 (row_key rid row) = to_le_bytes 4 rid.1 ∧ slice 4 6 (row_key rid row) = to_le_bytes 2 rid.2 ∧
  slice 6 8 (row_key rid row) = row_table row ∧ slice 8 16 (row_key rid row) = slice 0 8 (row_rest row).
Proof.
  rewrite row_key_parts. cut_slices. rewrite (slice_head 2) by apply length_row_table.
  by rewrite (slice_tail 2 2 10) by (apply length_row_table || lia).
Qed.

Lemma length_row_key rid row : length (row_key rid row) = (8 + length (row_rest row))%nat.
Proof. rewrite row_key_parts, !length_app, !length_to_le_bytes, length_row_table. lia. Qed.

(** The rows of the listed tables begin with their pending identifier; no other row is of a
    listed table. *)
Lemma pending_table row :
  match row_pending row with
  | Some p => row_table row ∈ PENDING_KEYED_TEMP_TABLE_ID_BYTES ∧ slice 0 8 (row_rest row) = to_le_bytes 8 p ∧ (8 ≤ length (row_rest row))%nat
  | None => row_table row ∉ PENDING_KEYED_TEMP_TABLE_ID_BYTES
  end.
Proof.
  destruct row; cbn [row_pending row_table row_rest];
    first [by apply (bool_decide_unpack _) | split_and!; [by apply (bool_decide_unpack _)|..]].
  all: first [by rewrite slice_head by apply length_to_le_bytes | rewrite length_app, length_to_le_bytes; lia].
Qed.

Lemma field_of_pending rid rid' row p :
  rid_ok rid → rid_ok rid' → row_ok row → is_uint 64 p →
  field_is_of_pending rid.1 rid.2 p (row_key rid' row) = true ↔ rid' = rid ∧ row_pending row = Some p.
Proof.
  intros [R1 R2] [R1' R2'] Ho Hp. unfold is_uint in *. unfold field_is_of_pending.
  destruct (key_slices rid' row) as (-> & -> & -> & ->). rewrite length_row_key.
  pose proof (pending_table row) as Ht. destruct (row_pending row) as [q|] eqn:Eq.
  - destruct Ht as (Ht & -> & Hl). rewrite (proj2 (Nat.ltb_ge _ _)) by lia. rewrite (bool_decide_true _ Ht).
    assert (Hq : 0 ≤ q < 2 ^ 64) by (destruct row; simplify_eq; unfold row_ok, is_uint in Ho; naive_solver).
    rewrite <- !bool_decide_and. case_bool_decide as Hc; cbn [negb].
    + split; [|done]. intros _. destruct Hc as ((E1%le_bytes_inj & E2%le_bytes_inj) & E3%le_bytes_inj); try lia.
      destruct rid, rid'; cbn in *; split; congruence.
    + split; [done|]. intros [-> [= ->]]. by destruct Hc.
  - split; [|by intros [_ ?]]. repeat case_match; try done. by rewrite bool_decide_false.
Qed.

(** C21: The rows of the temporary database do not collide. Distinct rows, of one table, of
    two tables or of two realms, have distinct keys, whatever pending identifiers, jobs,
    users and public keys they are for; and among any rows the scan by pending identifier
    keeps exactly those of that realm that go with the identifier, so a clean-up reaches all
    of them and nothing else. *)
Theorem temp_rows_separate (rid : Z * Z) (p : Z) (rows : list ((Z * Z) * temp_row)) :
  rid_ok rid → is_uint 64 p → Forall (λ r, rid_ok r.1 ∧ row_ok r.2) rows →
  (∀ r r', r ∈ rows → r' ∈ rows → row_key r.1 r.2 = row_key r'.1 r'.2 → r = r') ∧
  filter_temp_kv_fields_by_pending ((λ r, row_key r.1 r.2) <$> rows) rid.1 rid.2 p =
    (λ r, row_key r.1 r.2) <$> filter (λ r, r.1 = rid ∧ row_pending r.2 = Some p) rows.
Proof.
  intros Hr Hp Hrows. split.
  - intros [a r] [b r'] [Ha Ho]%(proj1 (Forall_forall _ _) Hrows) [Hb Ho']%(proj1 (Forall_forall _ _) Hrows) E.
    destruct (row_key_inj a b r r') as [-> ->]; done.
  - unfold filter_temp_kv_fields_by_pending. induction Hrows as [|[a r] rows [Ha Ho] Hrows IH]; [done|].
    rewrite fmap_cons, !filter_cons, IH. cbn [fst snd].
    pose proof (field_of_pending rid a r p Hr Ha Ho Hp) as Hf. repeat case_decide; naive_solver.
Qed.

Lemma temp_rows_separate_witness :
  filter_temp_kv_fields_by_pending [row_key (1, 2) (SubmitStatusRow 7 9); row_key (1, 2) GatheringRow; row_key (3, 2) (SlotUpdatesRow 7 9)] 1 2 7
    = [row_key (1, 2) (SubmitStatusRow 7 9)].
Proof.
  pose proof (temp_rows_separate (1, 2) 7 [((1, 2), SubmitStatusRow 7 9); ((1, 2), GatheringRow); ((3, 2), SlotUpdatesRow 7 9)]) as H.
  apply H; unfold rid_ok, is_uint; [split; cbn; lia|lia|].
  repeat apply Forall_cons_2; [..|apply Forall_nil_2]; cbn; unfold rid_ok, is_uint; cbn; repeat split; lia.
Defined.

(** ** Subjects *)
Lemma hex_digit_inj d e : 0 ≤ d < 16 → 0 ≤ e < 16 → hex_digit d = hex_digit e → d = e.
Proof. unfold hex_digit. destruct (Z.ltb_spec d 10), (Z.ltb_spec e 10); lia. Qed.

Lemma hex_digit_dot d : 0 ≤ d < 16 → hex_digit d ≠ 46.
Proof. unfold hex_digit. destruct (Z.ltb_spec d 10); lia. Qed.

Lemma hex_loop_dots n : ∀ x, 0 ≤ x → Forall (λ c, c ≠ 46) (hex_loop n x).
Proof.
  induction n as [|n IH]; intros x Hx; cbn [hex_loop]; [constructor|].
  assert (0 ≤ x `mod` 16 < 16) by (apply Z.mod_pos_bound; lia).
  destruct (Z.ltb_spec x 16); (apply Forall_cons_2; [apply hex_digit_dot; lia|]); [apply Forall_nil_2|].
  apply IH, Z.div_pos; lia.
Qed.

Lemma hex_loop_cons n x : (0 < n)%nat → hex_loop n x ≠ [].
Proof. destruct n; [lia|]. intros _. cbn. by case_match. Qed.

Lemma hex_loop_inj n : ∀ x y, 0 ≤ x < 16 ^ Z.of_nat n → 0 ≤ y < 16 ^ Z.of_nat n → hex_loop n x = hex_loop n y → x = y.
Proof.
  induction n as [|n IH]; intros x y Hx Hy; [change (16 ^ Z.of_nat 0) with 1 in *; lia|].
  rewrite Nat2Z.inj_succ, Z.pow_succ_r in Hx, Hy by lia. cbn [hex_loop].
  destruct (decide (n = 0)%nat) as [->|Hn]; [change (16 ^ Z.of_nat 0) with 1 in *|].
  { rewrite !(proj2 (Z.ltb_lt _ _)) by lia. intros [= E]. apply hex_digit_inj; [lia..|done]. }
  destruct (Z.ltb_spec x 16), (Z.ltb_spec y 16).
  - intros [= E]. apply hex_digit_inj; [lia..|done].
  - intros [= _ E]. symmetry in E. by apply hex_loop_cons in E; [|lia].
  - intros [= _ E]. by apply hex_loop_cons in E; [|lia].
  - intros [= E1 E2]. apply hex_digit_inj in E1; [|apply Z.mod_pos_bound; lia..].
    apply IH in E2; [|split; [apply Z.div_pos; lia|apply Z.div_lt_upper_bound; lia]..].
    rewrite (Z.div_mod x 16), (Z.div_mod y 16) by lia. congruence.
Qed.

Lemma lower_hex_inj x y : is_uint 128 x → is_uint 128 y → lower_hex x = lower_hex y → x = y.
Proof. unfold is_uint. intros Hx Hy E%(inj reverse). by apply hex_loop_inj in E. Qed.

Lemma lower_hex_dots x : 0 ≤ x → Forall (λ c, c ≠ 46) (lower_hex x).
Proof. intros. by apply Forall_reverse, hex_loop_dots. Qed.

(** Texts up to the next dot. *)
Lemma dots_inj (a a' b b' : list Z) :
  Forall (λ c, c ≠ 46) a → Forall (λ c, c ≠ 46) a' → a ++ 46 :: b = a' ++ 46 :: b' → a = a' ∧ b = b'.
Proof.
  intros Ha. revert a'. induction Ha as [|c a Hc Ha IH]; intros [|c' a'] Ha' E; cbn in E; simplify_eq; try done.
  - by inversion_clear Ha'.
  - inversion_clear Ha'. by destruct (IH a') as [-> ->].
Qed.

(** A queue has one subject: two subjects of one name space agree only for the same topic,
    realm, generation and task group. *)
Lemma queue_subject_inj (ns : list Z) t r s u g t' r' s' u' g' :
  Forall (is_uint 64) [t; r; s; g; t'; r'; s'; g'] → is_uint 128 u → is_uint 128 u' →
  get_queue_subject ns t r s u g = get_queue_subject ns t' r' s' u' g' → t = t' ∧ r = r' ∧ s = s' ∧ u = u' ∧ g = g'.
Proof.
  intros H Hu Hu' E. repeat match type of H with Forall _ (_ :: _) => apply Forall_cons in H as [? H] end. clear H.
  assert (W : ∀ x, is_uint 64 x → is_uint 128 x) by (unfold is_uint; intros; split; [lia|]; eapply Z.lt_trans; [apply H|lia]).
  unfold get_queue_subject in E. apply app_inv_head in E. cbn [app] in E. injection E as E.
  assert (D : ∀ x, is_uint 128 x → Forall (λ c, c ≠ 46) (lower_hex x)) by (intros x Hx; apply lower_hex_dots, Hx).
  apply dots_inj in E as [E1 E]; [|by auto..]. injection E as E.
  apply dots_inj in E as [E2 E]; [|by auto..]. injection E as E.
  apply dots_inj in E as [E3 E]; [|by auto..]. injection E as E.
  apply dots_inj in E as [E4 E]; [|by auto..]. injection E as E.
  split_and!; by apply lower_hex_inj; auto.
Qed.

(** ** Queues are first in, first out *)
Lemma dump_publishes s subject items n :
  let s' := foldl (λ s item, publish_ephemeral_queue_item_bytes_ref s subject item) s items in
  let all := get_or_create_queue s subject ++ items in
  (dump_entire_ephemeral_queue_bytes s' subject n).1 = take n all ∧
  get_or_create_queue (dump_entire_ephemeral_queue_bytes s' subject n).2 subject = drop n all.
Proof.
  cbn zeta. set (s' := foldl _ _ _). assert (Hs : get_or_create_queue s' subject = get_or_create_queue s subject ++ items).
  { subst s'. revert s. induction items as [|i items IH]; intros s; cbn [foldl]; [by rewrite app_nil_r|].
    rewrite IH. unfold get_or_create_queue at 1, publish_ephemeral_queue_item_bytes_ref. cbn. by rewrite lookup_insert_eq; cbn; rewrite <- app_assoc. }
  unfold dump_entire_ephemeral_queue_bytes. cbn [fst snd]. rewrite Hs. split.
  - destruct (decide (length (get_or_create_queue s subject ++ items) ≤ n)%nat); [|by rewrite Nat.min_r by lia].
    by rewrite Nat.min_l, !take_ge by lia.
  - unfold get_or_create_queue at 1. cbn. rewrite lookup_insert_eq. cbn.
    destruct (decide (length (get_or_create_queue s subject ++ items) ≤ n)%nat); [|by rewrite Nat.min_r by lia].
    by rewrite Nat.min_l, !drop_ge by lia.
Qed.

(** ** Atomic updates of a row *)
Lemma compare_and_set_spec s key expected new_value :
  let current := match kv_store s !! key with Some [] => None | v => v end in
  qtdb_raw_kv_compare_and_set s key expected new_value =
    if bool_decide (current = expected) then (true, qtdb_raw_kv_put_value s key new_value) else (false, s).
Proof.
  unfold qtdb_raw_kv_compare_and_set, qtdb_raw_kv_put_value. destruct (kv_store s !! key) as [[|b v]|]; cbn.
  - repeat case_decide; repeat case_bool_decide; done.
  - repeat case_decide; repeat case_bool_decide; done.
  - by destruct expected; case_bool_decide.
Qed.
