(* ===== verification/Effects.v ===== *)
(** * Handlers as programs over calls

    An asynchronous handler is a tree of calls to the services it awaits: each call has a
    typed reply or an error, and between two calls every other task may run. [io E A] is such
    a program with calls [E]; [run] executes one alone, [step] is the interleaving of many,
    on a store that is [reliable] or where calls fail, and in an environment that may change
    the world. [complies] says that a program follows a protocol given as a labelled
    transition system, [quiet] that it makes only calls of no concern to it. *)
From stdpp Require Import prelude list relations strings.
From S2P Require Import Prelude.

Inductive io (E : Type → Type) (A : Type) : Type :=
  | Ret (r : outcome A)
  | Call {X : Type} (e : E X) (k : outcome X → io E A).
Arguments Ret {E A}.
Arguments Call {E A X}.

Fixpoint io_bind {E A B} (m : io E A) (f : A → io E B) : io E B :=
  match m with
  | Ret (Ok a) => f a
  | Ret (Err e) => Ret (Err e)
  | Ret Panic => Ret Panic
  | Ret Diverge => Ret Diverge
  | Call e k => Call e (λ r, io_bind (k r) f)
  end.

(** [f().await?] *)
Notation "'let+' x ':=' m 'in' k" := (io_bind m (λ x, k)) (at level 10, x pattern, m at level 100, k at level 200).

Definition call {E X} (e : E X) : io E X := Call e Ret.

(** The reply of a call, an error being a value. *)
Definition attempt {E X} (e : E X) : io E (outcome X) := Call e (λ r, Ret (Ok r)).

Definition pure {E A} (a : A) : io E A := Ret (Ok a).

(** ** Alone *)
Fixpoint run {E S A} (handle : ∀ X, E X → S → outcome X * S) (m : io E A) (s : S) : outcome A * S :=
  match m with
  | Ret r => (r, s)
  | Call e k => let '(r, s) := handle _ e s in run handle (k r) s
  end.

Lemma run_bind {E S A B} (handle : ∀ X, E X → S → outcome X * S) (m : io E A) (f : A → io E B) : ∀ s,
  run handle (io_bind m f) s =
    match run handle m s with
    | (Ok a, s) => run handle (f a) s
    | (Err e, s) => (Err e, s)
    | (Panic, s) => (Panic, s)
    | (Diverge, s) => (Diverge, s)
    end.
Proof.
  induction m as [[]|X e k IH]; intros s; cbn; try done. destruct (handle X e s) as [r s']. apply IH.
Qed.

(** ** Together *)
(** What a call can do on a store where it only has the given effect. *)
Definition reliable {E : Type → Type} {W : Type} (effect : ∀ X, E X → W → X → W → Prop) X (e : E X) (w : W) (r : outcome X) (w' : W) : Prop :=
  ∃ x, r = Ok x ∧ effect X e w x w'.

(** Where it may also fail, without the effect or after it. *)
Inductive unreliable {E : Type → Type} {W : Type} (effect : ∀ X, E X → W → X → W → Prop) X (e : E X) (w : W) : outcome X → W → Prop :=
  | reply_ok x w' : effect X e w x w' → unreliable effect X e w (Ok x) w'
  | reply_failed msg : unreliable effect X e w (Err msg) w
  | reply_lost x w' msg : effect X e w x w' → unreliable effect X e w (Err msg) w'.

Section together.
Context {E : Type → Type} {W A : Type}.
Context (replies : ∀ X, E X → W → outcome X → W → Prop) (rely : W → W → Prop).

Inductive step : W * list (io E A) → W * list (io E A) → Prop :=
  | step_call w w' ts t X (e : E X) k r :
      ts !! t = Some (Call e k) → replies X e w r w' → step (w, ts) (w', <[t := k r]> ts)
  | step_rely w w' ts : rely w w' → step (w, ts) (w', ts).

(** The interleaving in which the tasks take their turns in a given order. *)
Fixpoint schedule (handle : ∀ X, E X → W → outcome X * W) (order : list nat) (w : W) (ts : list (io E A)) : W * list (io E A) :=
  match order with
  | [] => (w, ts)
  | t :: order =>
      match ts !! t with
      | Some (Call e k) => let '(r, w') := handle _ e w in schedule handle order w' (<[t := k r]> ts)
      | _ => schedule handle order w ts
      end
  end.

Lemma schedule_steps (handle : ∀ X, E X → W → outcome X * W) :
  (∀ X (e : E X) w, replies X e w (handle X e w).1 (handle X e w).2) →
  ∀ order w ts, rtc step (w, ts) (schedule handle order w ts).
Proof.
  intros Hh order. induction order as [|t order IH]; intros w ts; cbn [schedule]; [done|].
  destruct (ts !! t) as [[|X e k]|] eqn:Et; try apply IH.
  specialize (Hh X e w). destruct (handle X e w) as [r w']. eapply rtc_l; [|apply IH]. by eapply step_call.
Qed.

(** *** Protocols

    [phase_step t] are the transitions of task [t], labelled by calls and their replies;
    [final t] says with which results a phase may end. *)
Context {Phase : Type} (phase_step : nat → ∀ X, Phase → E X → outcome X → Phase → Prop)
  (final : nat → Phase → outcome A → Prop).

Fixpoint complies (t : nat) (φ : Phase) (m : io E A) : Prop :=
  match m with
  | Ret r => final t φ r
  | Call e k => ∀ r, ∃ φ', phase_step t _ φ e r φ' ∧ complies t φ' (k r)
  end.

(** An invariant of the protocol is an invariant of the programs that follow it. *)
Lemma protocol_invariant (G : W → list Phase → Prop) :
  (∀ w w' φs t φ φ' X (e : E X) r, G w φs → φs !! t = Some φ → replies X e w r w' → phase_step t X φ e r φ' → G w' (<[t := φ']> φs)) →
  (∀ w w' φs, G w φs → rely w w' → G w' φs) →
  ∀ c c', rtc step c c' →
  (∃ φs, G c.1 φs ∧ length φs = length c.2 ∧ ∀ t φ m, φs !! t = Some φ → c.2 !! t = Some m → complies t φ m) →
  ∃ φs, G c'.1 φs ∧ length φs = length c'.2 ∧ ∀ t φ m, φs !! t = Some φ → c'.2 !! t = Some m → complies t φ m.
Proof.
  intros Hstep Hrely c c' Hrun. induction Hrun as [c|c1 c2 c3 Hs _ IH]; [done|]. intros (φs & HG & Hl & Hc). apply IH. clear IH.
  destruct Hs as [w w' ts t X e k r Ht Hr|w w' ts Hr]; cbn [fst snd] in *; [|by eauto].
  destruct (lookup_lt_is_Some_2 φs t) as [φ Hφ]; [rewrite Hl; by eapply lookup_lt_Some|].
  destruct (Hc t φ _ Hφ Ht r) as (φ' & Hp & Hk). exists (<[t := φ']> φs). split_and!.
  - by eapply Hstep.
  - by rewrite !length_insert.
  - intros t' ψ m [(-> & -> & _)|(Hne & Hψ)]%list_lookup_insert_Some Hm.
    + apply list_lookup_insert_Some in Hm as [(_ & <- & _)|(? & _)]; done.
    + rewrite list_lookup_insert_ne in Hm by done. eauto.
Qed.
End together.

(** *** Calls of no concern *)
Section quiet.
Context {E : Type → Type} (harmless : ∀ X, E X → Prop).

Fixpoint quiet {A} (m : io E A) : Prop :=
  match m with
  | Ret _ => True
  | Call e k => harmless _ e ∧ ∀ r, quiet (k r)
  end.

Lemma quiet_bind {A B} (m : io E A) (f : A → io E B) : quiet m → (∀ a, quiet (f a)) → quiet (io_bind m f).
Proof. intros Hm Hf. induction m as [[]|X e k IH]; cbn in *; try done. destruct Hm as [He Hk]. split; [done|]. auto. Qed.

Context {A : Type} {Phase : Type} (phase_step : nat → ∀ X, Phase → E X → outcome X → Phase → Prop)
  (final : nat → Phase → outcome A → Prop).

(** A quiet beginning leaves the phase alone if the protocol does; what follows knows its
    result. *)
Lemma complies_quiet_bind {B} t φ (m : io E B) (f : B → io E A) :
  (∀ X (e : E X) r, harmless X e → phase_step t X φ e r φ) → (∀ r, final t φ r) →
  quiet m → (∀ b, complies phase_step final t φ (f b)) → complies phase_step final t φ (io_bind m f).
Proof.
  intros Hstep Hfin Hq Hf. induction m as [[]|X e k IH]; cbn in *; auto. destruct Hq as [He Hk]. intros r. exists φ. auto.
Qed.
End quiet.
