(* ===== verification/TempDb.v ===== *)
(** * The typed temporary database

    [psy_node_core/src/psy_temp_db/v3_implementation/core.rs] reads and writes typed rows
    through the raw interface of [psy_node_core/src/store/traits/temp_db.rs]; the records are
    those of [psy_node_core/src/psy_temp_db/traits]. The operations are programs over any
    calls that offer the raw interface, so that they run alone on the in-memory store of
    [TempStore] and between the calls of other tasks. Compression by [zstd] is a
    parameter. *)
From stdpp Require Import prelude list gmap strings.
From Stdlib Require Import ZArith Lia.
From S2P Require Import Prelude MerkleKey MerkleHash Wire Serialize ByteOrder Codecs Qblob BlobFormat JobId TempStore Effects.

(** ** The raw interface *)
Class RawTempDatabase (E : Type → Type) : Type := {
  raw_kv_get : list Z → E (option (list Z));
  raw_kv_put : list Z → list Z → E unit;
  raw_kv_put_many : list (list Z * list Z) → E unit;
  raw_kv_put_if_absent : list Z → list Z → E bool;
  raw_kv_compare_and_set : list Z → option (list Z) → list Z → E bool;
  raw_counter_get : list Z → E Z;
  raw_counter_increment_by : list Z → Z → E Z;
  raw_counter_set : list Z → Z → E unit;
}.

(** Its calls, and the in-memory store that answers them. *)
Inductive temp_call : Type → Type :=
  | KvGet (key : list Z) : temp_call (option (list Z))
  | KvPut (key value : list Z) : temp_call unit
  | KvPutMany (entries : list (list Z * list Z)) : temp_call unit
  | KvPutIfAbsent (key value : list Z) : temp_call bool
  | KvCompareAndSet (key : list Z) (expected : option (list Z)) (new_value : list Z) : temp_call bool
  | CounterGet (key : list Z) : temp_call Z
  | CounterIncrement (key : list Z) (increment_by : Z) : temp_call Z
  | CounterSet (key : list Z) (value : Z) : temp_call unit.

#[global] Instance temp_call_raw : RawTempDatabase temp_call := {|
  raw_kv_get := KvGet; raw_kv_put := KvPut; raw_kv_put_many := KvPutMany; raw_kv_put_if_absent := KvPutIfAbsent;
  raw_kv_compare_and_set := KvCompareAndSet; raw_counter_get := CounterGet; raw_counter_increment_by := CounterIncrement;
  raw_counter_set := CounterSet;
|}.

Definition temp_exec {X} (c : temp_call X) (s : InMemoryTempStore) : X * InMemoryTempStore :=
  match c in temp_call X return X * InMemoryTempStore with
  | KvGet key => (qtdb_raw_kv_get_value s key, s)
  | KvPut key value => (tt, qtdb_raw_kv_put_value s key value)
  | KvPutMany entries => (tt, qtdb_raw_kv_put_many_values s entries)
  | KvPutIfAbsent key value => qtdb_raw_kv_put_value_if_absent s key value
  | KvCompareAndSet key expected new_value => qtdb_raw_kv_compare_and_set s key expected new_value
  | CounterGet key => (qtdb_raw_counter_get_value s key, s)
  | CounterIncrement key by_ => qtdb_raw_counter_increment_by s key by_
  | CounterSet key value => (tt, qtdb_raw_counter_set_value s key value)
  end.

Definition temp_handle X (c : temp_call X) (s : InMemoryTempStore) : outcome X * InMemoryTempStore :=
  let '(x, s) := temp_exec c s in (Ok x, s).

(** ** Records *)
Record QRealmIdentifier : Type := mkRealmId {
  rid_realm_id : Z;
  rid_realm_sub_id : Z;
}.

Record GatheringGeneration : Type := mkGeneration {
  gen_checkpoint_id : Z;
  gen_unique_pending_id : Z;
  gen_proc_checkpoint_unique_id : Z;
}.

#[global] Instance generation_eq_dec : EqDecision GatheringGeneration.
Proof. solve_decision. Defined.

Record CheckpointJobStats : Type := mkJobStats {
  total_completed : Z;
  total_duration_ms : Z;
  min_duration_ms : option Z;
  max_duration_ms : option Z;
}.

Record GutaInFlightRecord : Type := mkInFlight {
  old_realm_root : list Z;
  new_realm_root : list Z;
  accepted_at_checkpoint_id : Z;
}.

Definition in_flight_to_bytes (r : GutaInFlightRecord) : list Z :=
  old_realm_root r ++ new_realm_root r ++ to_le_bytes 8 (accepted_at_checkpoint_id r).

Definition in_flight_from_bytes (bytes : list Z) : outcome GutaInFlightRecord :=
  let* _ := ensure (length bytes =? 72)%nat "GUTA in-flight record must be 72 bytes" in
  Ok (mkInFlight (slice 0 32 bytes) (slice 32 64 bytes) (from_le_bytes (slice 64 72 bytes))).

Record PsyNodeProvingState : Type := mkProvingState {
  ps_realm_id : Z;
  ps_realm_sub_id : Z;
  ps_node_type : Z;
  ps_plan_variant : Z;
  ps_current_proving_level : Z;
  ps_has_remaining_proving_jobs : Z;
  ps_unique_pending_id : Z;
  ps_last_committed_checkpoint_id : Z;
  ps_guta_input_proofs : Z;
  ps_total_guta_jobs : Z;
  ps_new_user_registrations : Z;
  ps_total_user_registration_jobs : Z;
  ps_new_contracts_deployed : Z;
  ps_total_deploy_contract_jobs : Z;
}.

#[global] Instance proving_state_io : PsyIOReadWrite PsyNodeProvingState := {|
  IS_FIXED_SIZE := true;
  FIXED_SIZE := 80;
  MAX_VEC_LENGTH := U32_MAX;
  pio_serialized_size _ := 80;
  pio_write_to_io p :=
    psy_write_u64 (ps_realm_id p) +++ psy_write_u32 (ps_realm_sub_id p) +++ psy_write_u8 (ps_node_type p) +++
    psy_write_u8 (ps_plan_variant p) +++ psy_write_u8 (ps_current_proving_level p) +++
    psy_write_u8 (ps_has_remaining_proving_jobs p) +++ psy_write_u64 (ps_unique_pending_id p) +++
    psy_write_u64 (ps_last_committed_checkpoint_id p) +++ psy_write_u64 (ps_guta_input_proofs p) +++
    psy_write_u64 (ps_total_guta_jobs p) +++ psy_write_u64 (ps_new_user_registrations p) +++
    psy_write_u64 (ps_total_user_registration_jobs p) +++ psy_write_u64 (ps_new_contracts_deployed p) +++
    psy_write_u64 (ps_total_deploy_contract_jobs p) +++ wdone;
  pio_read_from_io :=
    let! realm_id := psy_read_u64 in
    let! realm_sub_id := psy_read_u32 in
    let! node_type := psy_read_u8 in
    let! plan_variant := psy_read_u8 in
    let! current_proving_level := psy_read_u8 in
    let! has_remaining_proving_jobs := psy_read_u8 in
    let! unique_pending_id := psy_read_u64 in
    let! last_committed_checkpoint_id := psy_read_u64 in
    let! guta_input_proofs := psy_read_u64 in
    let! total_guta_jobs := psy_read_u64 in
    let! new_user_registrations := psy_read_u64 in
    let! total_user_registration_jobs := psy_read_u64 in
    let! new_contracts_deployed := psy_read_u64 in
    let! total_deploy_contract_jobs := psy_read_u64 in
    rret (mkProvingState realm_id realm_sub_id node_type plan_variant current_proving_level has_remaining_proving_jobs
            unique_pending_id last_committed_checkpoint_id guta_input_proofs total_guta_jobs new_user_registrations
            total_user_registration_jobs new_contracts_deployed total_deploy_contract_jobs);
|}.

Definition default_proving_state : PsyNodeProvingState := mkProvingState 0 0 0 0 0 0 0 0 0 0 0 0 0 0.

Definition new_standard_realm (realm_id realm_sub_id unique_pending_id last_committed_checkpoint_id guta_input_proofs
    total_guta_jobs : Z) : PsyNodeProvingState :=
  mkProvingState realm_id realm_sub_id 1 1 0 (if 0 <? total_guta_jobs then 1 else 0) unique_pending_id
    last_committed_checkpoint_id guta_input_proofs total_guta_jobs 0 0 0 0.

Definition new_standard_coordinator (realm_id realm_sub_id unique_pending_id last_committed_checkpoint_id guta_input_proofs
    total_guta_jobs new_user_registrations total_user_registration_jobs new_contracts_deployed total_deploy_contract_jobs : Z)
    : PsyNodeProvingState :=
  mkProvingState realm_id realm_sub_id 2 1 0
    (if (0 <? total_guta_jobs) || (0 <? new_user_registrations) || (0 <? new_contracts_deployed) then 1 else 0)
    unique_pending_id last_committed_checkpoint_id guta_input_proofs total_guta_jobs new_user_registrations
    total_user_registration_jobs new_contracts_deployed total_deploy_contract_jobs.

(** [Hash::from_slice_32bytes] *)
Definition hash_from_slice_32bytes {Hash} `{Q256BitHash Hash} (bytes : list Z) : outcome Hash :=
  let* _ := ensure (length bytes =? 32)%nat "expected 32 bytes" in Ok (from_owned_32bytes bytes).

(** ** Operations *)
Section operations.
Context {E : Type → Type} `{!RawTempDatabase E} (rid : QRealmIdentifier).
Abbreviation realm := (rid_realm_id rid).
Abbreviation sub := (rid_realm_sub_id rid).

(** *** Job statistics *)
Definition increment_job_stats (unique_pending_id duration_ms : Z) : io E unit :=
  if 2 ^ 63 <=? duration_ms then Ret (Err "job duration exceeds i64::MAX milliseconds")
  else
    let min_key := tt_get_job_stats_min_duration_key realm sub unique_pending_id in
    let max_key := tt_get_job_stats_max_duration_key realm sub unique_pending_id in
    let+ completed := call (raw_counter_increment_by (tt_get_job_stats_count_key realm sub unique_pending_id) 1) in
    let+ _ := call (raw_counter_increment_by (tt_get_job_stats_total_duration_key realm sub unique_pending_id) duration_ms) in
    if completed =? 1 then
      let+ _ := call (raw_counter_set min_key duration_ms) in
      call (raw_counter_set max_key duration_ms)
    else
      let+ current_min := call (raw_counter_get min_key) in
      let+ _ := if duration_ms <? current_min then call (raw_counter_set min_key duration_ms) else pure tt in
      let+ current_max := call (raw_counter_get max_key) in
      if current_max <? duration_ms then call (raw_counter_set max_key duration_ms) else pure tt.

Definition get_job_stats (unique_pending_id : Z) : io E (option CheckpointJobStats) :=
  let+ completed := call (raw_counter_get (tt_get_job_stats_count_key realm sub unique_pending_id)) in
  if completed <=? 0 then pure None
  else
    let+ total_duration_ms := call (raw_counter_get (tt_get_job_stats_total_duration_key realm sub unique_pending_id)) in
    let+ min_duration_ms := call (raw_counter_get (tt_get_job_stats_min_duration_key realm sub unique_pending_id)) in
    let+ max_duration_ms := call (raw_counter_get (tt_get_job_stats_max_duration_key realm sub unique_pending_id)) in
    if (total_duration_ms <? 0) || (min_duration_ms <? 0) || (max_duration_ms <? 0)
    then Ret (Err "job stats counters contain a negative duration")
    else pure (Some (mkJobStats completed total_duration_ms (Some min_duration_ms) (Some max_duration_ms))).

Definition clear_job_stats (unique_pending_id : Z) : io E unit :=
  let+ _ := call (raw_counter_set (tt_get_job_stats_count_key realm sub unique_pending_id) 0) in
  let+ _ := call (raw_counter_set (tt_get_job_stats_total_duration_key realm sub unique_pending_id) 0) in
  let+ _ := call (raw_counter_set (tt_get_job_stats_min_duration_key realm sub unique_pending_id) 0) in
  call (raw_counter_set (tt_get_job_stats_max_duration_key realm sub unique_pending_id) 0).

(** *** Pending identifiers and generations *)
Definition get_unique_pending_ids : io E (Z * Z) :=
  let+ value_bytes := call (raw_kv_get (tt_get_unique_pending_id_key realm sub)) in
  Ret (let* b := ok_or value_bytes "Unique pending ids not found" in
       let* _ := ensure (length b =? 24)%nat "Invalid value length for unique pending ids" in
       Ok (from_le_bytes (slice 0 8 b), from_le_bytes (slice 8 24 b))).

Definition decode_generation (value_bytes : option (list Z)) : outcome GatheringGeneration :=
  let* b := ok_or value_bytes "Gathering generation not found" in
  let* _ := ensure (length b =? 32)%nat "Invalid value length for gathering generation" in
  Ok (mkGeneration (from_le_bytes (slice 24 32 b)) (from_le_bytes (slice 0 8 b)) (from_le_bytes (slice 8 24 b))).

Definition get_gathering_generation : io E GatheringGeneration :=
  let+ value_bytes := call (raw_kv_get (tt_get_gathering_unique_pending_id_key realm sub)) in
  Ret (decode_generation value_bytes).

Definition set_unique_pending_ids (unique_pending_id proc_checkpoint_unique_id : Z) : io E unit :=
  call (raw_kv_put (tt_get_unique_pending_id_key realm sub)
          (to_le_bytes 8 unique_pending_id ++ to_le_bytes 16 proc_checkpoint_unique_id)).

Definition generation_bytes (g : GatheringGeneration) : list Z :=
  to_le_bytes 8 (gen_unique_pending_id g) ++ to_le_bytes 16 (gen_proc_checkpoint_unique_id g) ++ to_le_bytes 8 (gen_checkpoint_id g).

Definition set_gathering_generation (generation : GatheringGeneration) : io E unit :=
  call (raw_kv_put (tt_get_gathering_unique_pending_id_key realm sub) (generation_bytes generation)).

(** *** Proving state *)
Definition get_psy_node_proving_state : io E PsyNodeProvingState :=
  let+ value_bytes := call (raw_kv_get (tt_get_node_proving_state_key realm sub)) in
  match value_bytes with
  | Some b => Ret (psy_ser_from_slice b)
  | None => pure default_proving_state
  end.

Definition set_psy_node_proving_state (state : PsyNodeProvingState) : io E unit :=
  let+ value_bytes := Ret (psy_ser_to_bytes_vec state) in
  call (raw_kv_put (tt_get_node_proving_state_key realm sub) value_bytes).

(** *** Submit status *)
Definition decode_status (value_bytes : option (list Z)) : Z :=
  match value_bytes with
  | Some b => if (length b =? 8)%nat then from_le_bytes b else 0
  | None => 0
  end.

Definition get_submitted_status_for_pending (unique_pending_id user_or_realm_id : Z) : io E Z :=
  let+ value_bytes := call (raw_kv_get (tt_get_submit_status_key realm sub unique_pending_id user_or_realm_id)) in
  pure (decode_status value_bytes).

Definition set_submitted_status_for_pending (unique_pending_id user_or_realm_id status : Z) : io E unit :=
  call (raw_kv_put (tt_get_submit_status_key realm sub unique_pending_id user_or_realm_id) (to_le_bytes 8 status)).

Definition put_submitted_status_if_absent (unique_pending_id user_or_realm_id status : Z) : io E bool :=
  call (raw_kv_put_if_absent (tt_get_submit_status_key realm sub unique_pending_id user_or_realm_id) (to_le_bytes 8 status)).

(** *** Witnesses *)
Definition get_tdb_proof_witness_bytes (unique_pending_id : Z) (job_id : QProvingJobDataID) : io E (list Z) :=
  let+ value_bytes := call (raw_kv_get (tt_get_proof_witness_data_key realm sub unique_pending_id (to_fixed_bytes job_id))) in
  Ret (ok_or value_bytes "Proof witness not found").

Definition get_tdb_proof_witness {T} `{PsyIOReadWrite T} (unique_pending_id : Z) (job_id : QProvingJobDataID) : io E T :=
  let+ b := get_tdb_proof_witness_bytes unique_pending_id job_id in
  Ret (psy_ser_from_slice b).

Definition set_tdb_proof_witness {T} `{PsyIOReadWrite T} (unique_pending_id : Z) (job_id : QProvingJobDataID) (witness : T) : io E unit :=
  let+ value_bytes := Ret (psy_ser_to_bytes_vec witness) in
  call (raw_kv_put (tt_get_proof_witness_data_key realm sub unique_pending_id (to_fixed_bytes job_id)) value_bytes).

(** All witnesses are encoded before the first is stored. *)
Definition set_tdb_proof_witnesses_tuple_owned {T} `{PsyIOReadWrite T} (unique_pending_id : Z)
    (job_witnesses : list (QProvingJobDataID * T)) : io E unit :=
  let+ entries := Ret (collect (λ jw, let* b := psy_ser_to_bytes_vec jw.2 in
    Ok (tt_get_proof_witness_data_key realm sub unique_pending_id (to_fixed_bytes jw.1), b)) job_witnesses) in
  call (raw_kv_put_many entries).

Definition set_tdb_proof_witnesses_tuple_owned_raw (unique_pending_id : Z) (job_witnesses : list (QProvingJobDataID * list Z))
    : io E unit :=
  call (raw_kv_put_many ((λ jw, (tt_get_proof_witness_data_key realm sub unique_pending_id (to_fixed_bytes jw.1), jw.2)) <$> job_witnesses)).

(** *** Code of deployed contracts *)
Definition DEPLOY_CONTRACT_ZSTD_PREFIX : list Z := [80; 83; 90; 49].
Context (zstd_decode_all zstd_encode_all : list Z → outcome (list Z)).

Definition get_deploy_contract_code_definition_raw (unique_pending_id : Z) (rand_key : list Z) : io E (option (list Z)) :=
  let+ value_bytes := call (raw_kv_get (tt_get_deploy_contract_code_definition_key realm sub unique_pending_id rand_key)) in
  match value_bytes with
  | Some [] => pure None
  | Some b =>
      if bool_decide (take 4 b = DEPLOY_CONTRACT_ZSTD_PREFIX)
      then let+ decoded := Ret (zstd_decode_all (drop 4 b)) in pure (Some decoded)
      else pure (Some b)
  | None => Ret (Err "deploy contract code definition not found")
  end.

Definition set_deploy_contract_code_definition_raw (unique_pending_id : Z) (rand_key data : list Z) : io E unit :=
  let+ compressed := Ret (zstd_encode_all data) in
  call (raw_kv_put (tt_get_deploy_contract_code_definition_key realm sub unique_pending_id rand_key)
          (DEPLOY_CONTRACT_ZSTD_PREFIX ++ compressed)).

(** *** Metadata of jobs *)
Definition get_proving_job_metadata {T} `{PsyIOReadWrite T} (unique_pending_id : Z) (job_id : QProvingJobDataID) : io E T :=
  let+ value_bytes := call (raw_kv_get (tt_get_proving_job_metadata_key realm sub unique_pending_id (to_fixed_bytes job_id))) in
  Ret (let* b := ok_or value_bytes "Proving job metadata not found" in psy_ser_from_slice b).

Definition set_proving_job_metadata {T} `{PsyIOReadWrite T} (unique_pending_id : Z) (job_id : QProvingJobDataID) (metadata : T) : io E unit :=
  let+ value_bytes := Ret (psy_ser_to_bytes_vec metadata) in
  call (raw_kv_put (tt_get_proving_job_metadata_key realm sub unique_pending_id (to_fixed_bytes job_id)) value_bytes).

Definition set_proving_job_metadata_batch {T} `{PsyIOReadWrite T} (unique_pending_id : Z) (data : list (QProvingJobDataID * T)) : io E unit :=
  let+ entries := Ret (collect (λ jm, let* b := psy_ser_to_bytes_vec jm.2 in
    Ok (tt_get_proving_job_metadata_key realm sub unique_pending_id (to_fixed_bytes jm.1), b)) data) in
  call (raw_kv_put_many entries).

(** *** Reward tree *)
Section rewards.
Context {Hash : Type} `{Q256BitHash Hash}.

Definition get_proof_miner_rewards_tree_value_or_none (unique_pending_id : Z) (job_id : QProvingJobDataID) : io E (option Hash) :=
  let+ value_bytes := call (raw_kv_get (tt_get_rewards_tag_tree_value_key realm sub unique_pending_id (to_fixed_bytes job_id))) in
  match value_bytes with
  | Some b => let+ hash := Ret (hash_from_slice_32bytes b) in pure (Some hash)
  | None => pure None
  end.

Definition get_proof_miner_rewards_tree_value (unique_pending_id : Z) (job_id : QProvingJobDataID) : io E Hash :=
  let+ value_bytes := call (raw_kv_get (tt_get_rewards_tag_tree_value_key realm sub unique_pending_id (to_fixed_bytes job_id))) in
  Ret (let* b := ok_or value_bytes "get_proof_miner_rewards_tree_value not found" in hash_from_slice_32bytes b).

Definition get_proof_claim_tag_or_none (unique_pending_id : Z) (job_id : QProvingJobDataID) : io E (option Hash) :=
  let+ value_bytes := call (raw_kv_get (tt_get_proof_claim_tag_key realm sub unique_pending_id (to_fixed_bytes job_id))) in
  match value_bytes with
  | Some b => let+ hash := Ret (hash_from_slice_32bytes b) in pure (Some hash)
  | None => pure None
  end.

Definition get_proof_claim_tag (unique_pending_id : Z) (job_id : QProvingJobDataID) : io E Hash :=
  let+ value_bytes := call (raw_kv_get (tt_get_proof_claim_tag_key realm sub unique_pending_id (to_fixed_bytes job_id))) in
  Ret (let* b := ok_or value_bytes "get_proof_claim_tag not found" in hash_from_slice_32bytes b).

Definition set_proof_miner_rewards_tree_value (unique_pending_id : Z) (job_id : QProvingJobDataID) (value : Hash) : io E Hash :=
  let+ _ := call (raw_kv_put (tt_get_rewards_tag_tree_value_key realm sub unique_pending_id (to_fixed_bytes job_id))
                    (into_owned_32bytes value)) in
  pure value.

Definition set_proof_claim_tag (unique_pending_id : Z) (job_id : QProvingJobDataID) (tag : Hash) : io E Hash :=
  let+ _ := call (raw_kv_put (tt_get_proof_claim_tag_key realm sub unique_pending_id (to_fixed_bytes job_id))
                    (into_owned_32bytes tag)) in
  pure tag.
End rewards.

(** *** Updates of users *)
Definition get_contract_updates_for_user (unique_pending_id user_id : Z) : io E (option (list Z)) :=
  call (raw_kv_get (tt_get_contract_updates_key realm sub unique_pending_id user_id)).

Definition set_contract_updates_for_user (unique_pending_id user_id : Z) (data : list Z) : io E unit :=
  call (raw_kv_put (tt_get_contract_updates_key realm sub unique_pending_id user_id) data).

Definition get_user_end_cap_slot_updates (unique_pending_id user_id : Z) : io E (option (list Z)) :=
  call (raw_kv_get (tt_get_user_end_cap_slot_updates_key realm sub unique_pending_id user_id)).

Definition set_user_end_cap_slot_updates (unique_pending_id user_id : Z) (data : list Z) : io E unit :=
  call (raw_kv_put (tt_get_user_end_cap_slot_updates_key realm sub unique_pending_id user_id) data).

(** *** Claims and reputation *)
Definition get_job_claim (unique_pending_id : Z) (job_id : QProvingJobDataID) : io E (option (list Z * Z)) :=
  let+ value_bytes := call (raw_kv_get (tt_get_job_claim_key_from_bytes realm sub unique_pending_id (to_fixed_bytes job_id))) in
  match value_bytes with
  | Some v => if (41 <=? length v)%nat then pure (Some (slice 0 33 v, from_le_bytes (slice 33 41 v))) else pure None
  | None => pure None
  end.

Definition set_job_claim (unique_pending_id : Z) (job_id : QProvingJobDataID) (public_key : list Z) (claim_time_ms : Z) : io E unit :=
  call (raw_kv_put (tt_get_job_claim_key_from_bytes realm sub unique_pending_id (to_fixed_bytes job_id))
          (public_key ++ to_le_bytes 8 claim_time_ms)).

Definition INITIAL_WORKER_REPUTATION : Z := 5.

Definition get_worker_reputation (public_key : list Z) : io E Z :=
  let+ value_bytes := call (raw_kv_get (tt_get_worker_reputation_key realm sub public_key)) in
  match value_bytes with
  | Some v => pure (if (8 <=? length v)%nat then from_le_bytes (slice 0 8 v) else INITIAL_WORKER_REPUTATION)
  | None => pure INITIAL_WORKER_REPUTATION
  end.

Definition set_worker_reputation (public_key : list Z) (reputation : Z) : io E unit :=
  call (raw_kv_put (tt_get_worker_reputation_key realm sub public_key) (to_le_bytes 8 reputation)).

(** *** Updates in flight *)
Definition get_guta_in_flight (submitting_realm_id : Z) : io E (option (GutaInFlightRecord * list Z)) :=
  let+ raw := call (raw_kv_get (tt_get_guta_in_flight_key realm sub submitting_realm_id)) in
  match raw with
  | None | Some [] => pure None
  | Some raw => let+ record := Ret (in_flight_from_bytes raw) in pure (Some (record, raw))
  end.

Definition claim_guta_in_flight (submitting_realm_id : Z) (observed : option (list Z)) (record : GutaInFlightRecord) : io E bool :=
  call (raw_kv_compare_and_set (tt_get_guta_in_flight_key realm sub submitting_realm_id) observed (in_flight_to_bytes record)).
End operations.

(** ** Statistics of jobs under concurrent completions *)
Section stats.
Context (rid : QRealmIdentifier) (p : Z) (durations : list Z).
Hypothesis rid_wf : rid_ok (rid_realm_id rid, rid_realm_sub_id rid).
Hypothesis p_wf : is_uint 64 p.
Hypothesis durations_wf : Forall (λ d, 0 ≤ d < 2 ^ 63) durations.

Abbreviation count_key := (tt_get_job_stats_count_key (rid_realm_id rid) (rid_realm_sub_id rid) p).
Abbreviation total_key := (tt_get_job_stats_total_duration_key (rid_realm_id rid) (rid_realm_sub_id rid) p).

Definition temp_effect X (c : temp_call X) (s : InMemoryTempStore) (x : X) (s' : InMemoryTempStore) : Prop := temp_exec c s = (x, s').

(** A task has neither counted nor added its duration, has counted, or has done both; from
    then on it touches neither counter. A call that fails ends it. *)
Inductive stats_phase : Type := Fresh | Counted | Added | Failed.

Definition other_counter (key : list Z) : Prop := key ≠ count_key ∧ key ≠ total_key.

Definition stats_step (t : nat) X (φ : stats_phase) (c : temp_call X) (r : outcome X) (φ' : stats_phase) : Prop :=
  match r with
  | Ok _ =>
      match φ, φ', c with
      | Fresh, Counted, CounterIncrement key by_ => key = count_key ∧ by_ = 1
      | Counted, Added, CounterIncrement key by_ => key = total_key ∧ durations !! t = Some by_
      | Added, Added, CounterGet _ => True
      | Added, Added, CounterSet key _ => other_counter key
      | _, _, _ => False
      end
  | _ => φ' = Failed
  end.

Definition stats_final (t : nat) (φ : stats_phase) (r : outcome unit) : Prop := φ = Failed ∨ φ = Added ∧ r = Ok tt.

Lemma stats_key_inj c c' : is_uint 8 c → is_uint 8 c' →
  tt_get_job_stats_key (rid_realm_id rid) (rid_realm_sub_id rid) p c = tt_get_job_stats_key (rid_realm_id rid) (rid_realm_sub_id rid) p c' → c = c'.
Proof.
  intros Hc Hc' E. pose proof (row_key_inj _ _ (JobStatsRow p c) (JobStatsRow p c') rid_wf rid_wf (conj p_wf Hc) (conj p_wf Hc') E) as [_ E'].
  by injection E'.
Qed.

Lemma other_min : other_counter (tt_get_job_stats_min_duration_key (rid_realm_id rid) (rid_realm_sub_id rid) p).
Proof. by split; intros E%stats_key_inj; try (unfold is_uint; cbn; lia). Qed.

Lemma other_max : other_counter (tt_get_job_stats_max_duration_key (rid_realm_id rid) (rid_realm_sub_id rid) p).
Proof. by split; intros E%stats_key_inj; try (unfold is_uint; cbn; lia). Qed.

Ltac stats_cbn := cbn [complies io_bind call pure raw_counter_get raw_counter_increment_by raw_counter_set temp_call_raw].
(** Follow one call: only a successful reply goes on. *)
Ltac stats_call φ :=
  stats_cbn; let r := fresh "r" in intros r; destruct r;
  [exists φ; split; [by cbn [stats_step]; auto using other_min, other_max|]|by exists Failed; split; [|left]..]; stats_cbn.

Ltac stats_end := stats_cbn; right; repeat match goal with u : unit |- _ => destruct u end; done.

Lemma increment_complies t d : durations !! t = Some d →
  complies stats_step stats_final t Fresh (increment_job_stats rid p d).
Proof.
  intros Hd. pose proof (Forall_lookup_1 _ _ _ _ durations_wf Hd) as Hr. cbn beta in Hr.
  unfold increment_job_stats. rewrite (proj2 (Z.leb_gt _ _)) by lia.
  stats_call Counted. stats_call Added.
  case_match; [repeat stats_call Added; stats_end|].
  stats_call Added. case_match; repeat stats_call Added; case_match; repeat stats_call Added; stats_end.
Qed.

(** *** The counters *)
Lemma wrap_i64_add a b : wrap_i64 (wrap_i64 a + b) = wrap_i64 (a + b).
Proof.
  unfold wrap_i64, wrap. f_equal. replace ((a + 2 ^ 63) `mod` 2 ^ 64 - 2 ^ 63 + b + 2 ^ 63) with ((a + 2 ^ 63) `mod` 2 ^ 64 + b) by lia.
  rewrite Zplus_mod_idemp_l. f_equal. lia.
Qed.

Lemma wrap_i64_idem a : wrap_i64 (wrap_i64 a) = wrap_i64 a.
Proof. pose proof (wrap_i64_add a 0) as E. by rewrite !Z.add_0_r in E. Qed.

Lemma increment_spec s key d x s' k : qtdb_raw_counter_increment_by s key d = (x, s') →
  qtdb_raw_counter_get_value s' k =
    if decide (k = key) then wrap_i64 (qtdb_raw_counter_get_value s key + d) else qtdb_raw_counter_get_value s k.
Proof.
  intros [= <- <-]. unfold qtdb_raw_counter_get_value. cbn. case_decide as Hk; [subst k|].
  - by rewrite lookup_insert_eq.
  - by rewrite lookup_insert_ne by done.
Qed.

Lemma set_spec s key v k :
  qtdb_raw_counter_get_value (qtdb_raw_counter_set_value s key v) k = if decide (k = key) then v else qtdb_raw_counter_get_value s k.
Proof.
  unfold qtdb_raw_counter_get_value. cbn. case_decide as Hk; [subst k|].
  - by rewrite lookup_insert_eq.
  - by rewrite lookup_insert_ne by done.
Qed.

Definition counted (φ : stats_phase) : Z := match φ with Counted | Added => 1 | _ => 0 end.
Definition added (d : Z) (φ : stats_phase) : Z := match φ with Added => d | _ => 0 end.
Definition sum (l : list Z) : Z := foldr Z.add 0 l.

Lemma sum_insert (l : list Z) t x y : l !! t = Some x → sum (<[t := y]> l) = sum l - x + y.
Proof.
  revert t. induction l as [|z l IH]; intros [|t] E; [done|done|injection E as ->; cbn; lia|].
  specialize (IH t E). change (z + sum (<[t := y]> l) = z + sum l - x + y). lia.
Qed.

(** The counters are the work done so far, whatever was there before and modulo their
    width. *)
Definition stats_inv (c0 d0 : Z) (s : InMemoryTempStore) (φs : list stats_phase) : Prop :=
  length φs = length durations ∧ Forall (λ φ, φ ≠ Failed) φs ∧
  wrap_i64 (qtdb_raw_counter_get_value s count_key) = wrap_i64 (c0 + sum (counted <$> φs)) ∧
  wrap_i64 (qtdb_raw_counter_get_value s total_key) = wrap_i64 (d0 + sum (zip_with added durations φs)).

Lemma stats_inv_step c0 d0 s s' φs t φ φ' X (c : temp_call X) r :
  stats_inv c0 d0 s φs → φs !! t = Some φ → reliable temp_effect X c s r s' → stats_step t X φ c r φ' → stats_inv c0 d0 s' (<[t := φ']> φs).
Proof.
  intros (Hl & Hf & Hc & Ht) Hφ (x & -> & He) Hs. unfold stats_inv. rewrite length_insert.
  destruct (lookup_lt_is_Some_2 durations t) as [d Hd]; [rewrite <- Hl; by eapply lookup_lt_Some|].
  assert (Hne : count_key ≠ total_key) by (by intros E%stats_key_inj; try (unfold is_uint; cbn; lia)).
  rewrite list_fmap_insert, (sum_insert _ t (counted φ)) by (by rewrite list_lookup_fmap, Hφ).
  assert (Hz : zip_with added durations (<[t := φ']> φs) = <[t := added d φ']> (zip_with added durations φs)).
  { apply list_eq. intros i. destruct (decide (i = t)) as [->|Hi].
    - rewrite lookup_zip_with, Hd. cbn. rewrite list_lookup_insert_eq by (rewrite Hl; by eapply lookup_lt_Some). cbn.
      rewrite list_lookup_insert_eq; [done|]. rewrite length_zip_with. apply lookup_lt_Some in Hd. lia.
    - rewrite list_lookup_insert_ne, !lookup_zip_with by done. by rewrite list_lookup_insert_ne. }
  rewrite Hz, (sum_insert _ t (added d φ)) by (by rewrite lookup_zip_with, Hd; cbn; rewrite Hφ).
  split; [done|]. split; [apply Forall_insert; [done|by destruct φ, φ', c]|]. unfold temp_effect in He.
  destruct φ, φ', c; cbn [stats_step] in Hs; try done; cbn [temp_exec] in He; cbn [counted added].
  - destruct Hs as [-> ->]. rewrite !(increment_spec _ _ _ _ _ _ He), decide_True, decide_False by done.
    rewrite wrap_i64_idem, <- wrap_i64_add, Hc, wrap_i64_add, Ht. split; f_equal; lia.
  - destruct Hs as [-> Hd']. rewrite !(increment_spec _ _ _ _ _ _ He), decide_False, decide_True by done.
    rewrite wrap_i64_idem, <- (wrap_i64_add _ increment_by), Ht, wrap_i64_add, Hc. simplify_eq. split; f_equal; lia.
  - simplify_eq. rewrite Hc, Ht. split; f_equal; lia.
  - destruct Hs as [H1 H2]. simplify_eq. rewrite !set_spec, !decide_False, Hc, Ht by done. split; f_equal; lia.
Qed.

Lemma sum_fresh n : sum (counted <$> replicate n Fresh) = 0.
Proof. by induction n. Qed.

Lemma added_fresh ds : sum (zip_with added ds (replicate (length ds) Fresh)) = 0.
Proof. by induction ds. Qed.

Lemma all_added ds φs : length φs = length ds → Forall (λ φ, φ = Added) φs →
  sum (counted <$> φs) = Z.of_nat (length ds) ∧ zip_with added ds φs = ds.
Proof.
  revert φs. induction ds as [|d ds IH]; intros [|φ φs] Hl Hf; try done. apply Forall_cons in Hf as [-> Hf].
  destruct (IH φs) as [E1 E2]; [by injection Hl|done|]. cbn [zip_with added]. rewrite E2. split; [|done].
  change (1 + sum (counted <$> φs) = Z.of_nat (S (length ds))). lia.
Qed.

(** C13: Concurrent completions of jobs are counted exactly. Whatever the interleaving of the
    calls of any number of tasks that record a duration under one pending identifier, once
    all have returned, each has succeeded, the number of completed jobs has grown by the
    number of tasks and the total duration by the sum of their durations, modulo the 64 bits
    of a counter. The durations are below 2^63 milliseconds. *)
Theorem job_stats_exact (s s' : InMemoryTempStore) (ts : list (io temp_call unit)) :
  rtc (step (reliable temp_effect) eq) (s, increment_job_stats rid p <$> durations) (s', ts) →
  Forall (λ m, ∃ r, m = Ret r) ts →
  Forall (λ m, m = Ret (Ok tt)) ts ∧ length ts = length durations ∧
  wrap_i64 (qtdb_raw_counter_get_value s' count_key) =
    wrap_i64 (qtdb_raw_counter_get_value s count_key + Z.of_nat (length durations)) ∧
  wrap_i64 (qtdb_raw_counter_get_value s' total_key) =
    wrap_i64 (qtdb_raw_counter_get_value s total_key + sum durations).
Proof.
  intros Hrun Hend.
  destruct (protocol_invariant (reliable temp_effect) eq stats_step stats_final
    (stats_inv (qtdb_raw_counter_get_value s count_key) (qtdb_raw_counter_get_value s total_key)))
    with (3 := Hrun) as (φs & (Hl & Hf & Hc & Ht) & Hlen & Hphase).
  - intros *. apply stats_inv_step.
  - by intros ? ? ? ? ->.
  - exists (replicate (length durations) Fresh). cbn [fst snd]. split_and!.
    + split_and!; [by rewrite length_replicate|by apply Forall_replicate| |].
      * by rewrite sum_fresh, Z.add_0_r.
      * by rewrite added_fresh, Z.add_0_r.
    + by rewrite length_replicate, length_fmap.
    + intros t φ m [-> _]%lookup_replicate (d & -> & Hd)%list_lookup_fmap_Some. by apply increment_complies.
  - cbn [fst snd] in *. assert (Hall : ∀ t φ m, φs !! t = Some φ → ts !! t = Some m → φ = Added ∧ m = Ret (Ok tt)).
    { intros t φ m Hφ Hm. pose proof (Hphase t φ m Hφ Hm) as Hfin. pose proof (Forall_lookup_1 _ _ _ _ Hf Hφ) as Hnf.
      destruct (Forall_lookup_1 _ _ _ _ Hend Hm) as (r & ->). destruct Hfin as [?|[-> ->]]; done. }
    destruct (all_added durations φs) as [E1 E2]; [done|..].
    { apply Forall_lookup. intros t φ Hφ. destruct (lookup_lt_is_Some_2 ts t) as [m Hm]; [rewrite <- Hlen; by eapply lookup_lt_Some|].
      by apply (Hall t φ m). }
    rewrite Hc, Ht, E1, E2. split_and!; try done; [|congruence].
    apply Forall_lookup. intros t m Hm. destruct (lookup_lt_is_Some_2 φs t) as [φ Hφ]; [rewrite Hlen; by eapply lookup_lt_Some|].
    by apply (Hall t φ m).
Qed.
End stats.

Definition stats_demo (order : list nat) : InMemoryTempStore * list (io temp_call unit) :=
  schedule temp_handle order temp_new (increment_job_stats (mkRealmId 1 2) 7 <$> [100; 200]).

Lemma temp_handle_reliable X (c : temp_call X) s : reliable temp_effect X c s (temp_handle X c s).1 (temp_handle X c s).2.
Proof. unfold reliable, temp_effect, temp_handle. destruct (temp_exec c s) as [x s'] eqn:E. by exists x. Qed.

Lemma job_stats_exact_witness :
  let '(s', ts) := stats_demo [0; 1; 1; 0; 1; 1; 1; 0; 0]%nat in
  Forall (λ m, m = Ret (Ok tt)) ts ∧ qtdb_raw_counter_get_value s' (tt_get_job_stats_count_key 1 2 7) = 2 ∧
  qtdb_raw_counter_get_value s' (tt_get_job_stats_total_duration_key 1 2 7) = 300.
Proof.
  pose proof (job_stats_exact (mkRealmId 1 2) 7 [100; 200] ltac:(unfold rid_ok, is_uint; cbn; lia) ltac:(unfold is_uint; lia)
    ltac:(repeat apply Forall_cons_2; [lia..|apply Forall_nil_2]) temp_new (stats_demo [0; 1; 1; 0; 1; 1; 1; 0; 0]%nat).1
    (stats_demo [0; 1; 1; 0; 1; 1; 1; 0; 0]%nat).2) as H.
  destruct (stats_demo _) as [s' ts] eqn:E. split; [apply H|].
  - cbn [fst snd]. rewrite <- E. apply schedule_steps, temp_handle_reliable.
  - vm_compute in E. injection E as _ <-. repeat constructor; by eexists.
  - vm_compute in E. injection E as <- _. split; reflexivity.
Defined.

(** The least and the greatest duration are read and written in two calls, so one task can
    overwrite what another found: the greater duration of two is lost. *)
Lemma job_stats_race :
  let '(s', ts) := stats_demo [0; 0; 1; 1; 1; 1; 1; 0; 0]%nat in
  rtc (step (reliable temp_effect) eq) (temp_new, increment_job_stats (mkRealmId 1 2) 7 <$> [100; 200]) (s', ts) ∧
  run temp_handle (get_job_stats (mkRealmId 1 2) 7) s' = (Ok (Some (mkJobStats 2 300 (Some 100) (Some 100))), s').
Proof.
  destruct (stats_demo _) as [s' ts] eqn:E. split.
  - rewrite <- E. apply schedule_steps, temp_handle_reliable.
  - vm_compute in E. injection E as <- _. reflexivity.
Qed.
