(* ===== verification/Validators.v ===== *)
(** * Validators of a realm

    [psy_data/src/p2p/node_id.rs], [psy_data/src/p2p/validator_leaf.rs] and
    [psy_data/src/p2p/validator_tree.rs]: the identity of a node, the leaf of a validator and
    its preimage; and [psy_node_core/src/p2p/validator_lookup.rs], which reads the validators
    of a realm from the checkpointed tree and authenticates them. SHA-256, the key check of
    [blst] and the peer identities of [libp2p] are parameters; the field and its hash are
    those of [FieldHash]. *)
From stdpp Require Import prelude list gmap strings sorting.
From Stdlib Require Import ZArith Lia.
From S2P Require Import Prelude MerkleKey MerkleHash FieldHash MerkleProof Wire Bls Serialize Codecs Consensus Effects.

Definition VALIDATOR_SUB_ID_BITS : Z := 8.
Definition VALIDATOR_TREE_HEIGHT : Z := 12 + VALIDATOR_SUB_ID_BITS.
(** The bytes of [PSYVLF01]. *)
Definition DOMAIN_VALIDATOR_LEAF : list Z := [80; 83; 89; 86; 76; 70; 48; 49].
Definition DOMAIN_VALIDATOR_LEAF_FELT : Z := from_le_bytes DOMAIN_VALIDATOR_LEAF.

(** ** Node identities

    [to_raw] is [PeerId::from_bytes] followed by [to_bytes]. *)
Definition validate_ed25519_identity_multihash (raw : list Z) : outcome unit :=
  let at_ (i : nat) := nth i raw 0 in
  let* _ := ensure (at_ 0%nat =? 0x00) "NodeId multihash code is not identity (0x00)" in
  let* _ := ensure (at_ 1%nat =? 0x24) "NodeId multihash digest length is not 0x24" in
  let* _ := ensure (negb (negb (at_ 2%nat =? 0x08) || negb (at_ 3%nat =? 0x01))) "NodeId key type is not protobuf Ed25519 (field1=1)" in
  ensure (negb (negb (at_ 4%nat =? 0x12) || negb (at_ 5%nat =? 0x20))) "NodeId protobuf public-key data field is not 32 bytes".

Section node_id.
Context (to_raw : list Z → option (list Z)).

Definition peer_id_to_raw38 (bytes : list Z) : outcome (list Z) :=
  let* _ := ensure (length bytes =? 38)%nat "PeerId byte length is not 38 (Phase 1 requires Ed25519 identity multihash)" in
  let* _ := validate_ed25519_identity_multihash bytes in
  Ok bytes.

Definition node_id_from_raw (raw : list Z) : outcome (list Z) :=
  let* _ := validate_ed25519_identity_multihash raw in
  let* peer := ok_or (to_raw raw) "PeerId::from_bytes rejected multihash" in
  let* rebuilt := peer_id_to_raw38 peer in
  let* _ := ensure (bool_decide (rebuilt = raw)) "non-canonical PeerId encoding" in
  Ok raw.

(** ** Leaves *)
Record ValidatorLeaf : Type := mkValidatorLeaf {
  vl_validator_user_id : Z;
  vl_node_id : list Z;
  vl_bls_public_key : list Z;
}.

Context `{Blst} (sha256 : list Z → list Z).
Context {F Hash : Type} `{FieldHash F Hash} `{MerkleHasher Hash, !ZeroableHash Hash, !MerkleZeroHasher Hash} `{Q256BitHash Hash} `{EqDecision Hash}.

Definition field_from_le_bytes (bytes : list Z) : outcome Z :=
  let value := from_le_bytes bytes in
  let* _ := ensure (validate_goldilocks_limb value) "NonCanonicalField" in Ok value.

Definition digest_to_field_limbs (digest : list Z) : outcome (Z * Z * Z * Z) :=
  let* a := field_from_le_bytes (slice 0 8 digest) in
  let* b := field_from_le_bytes (slice 8 16 digest) in
  let* c := field_from_le_bytes (slice 16 24 digest) in
  let* d := field_from_le_bytes (slice 24 32 digest) in
  Ok (a, b, c, d).

Definition construction_bytes (l : ValidatorLeaf) (chain_id realm_id realm_sub_id : Z) : list Z :=
  DOMAIN_VALIDATOR_LEAF ++ to_le_bytes 8 chain_id ++ to_le_bytes 4 realm_id ++ to_le_bytes 2 realm_sub_id ++
  to_le_bytes 8 (vl_validator_user_id l) ++ to_le_bytes 4 38 ++ vl_node_id l ++ vl_bls_public_key l.

Definition leaf_hash (l : ValidatorLeaf) : outcome (list Z) :=
  let* (n0, n1, n2, n3) := digest_to_field_limbs (sha256 (vl_node_id l)) in
  let* (b0, b1, b2, b3) := digest_to_field_limbs (sha256 (vl_bls_public_key l)) in
  let felt (x : Z) : F := from_u64_value (Hash := Hash) x in
  Ok (into_owned_32bytes (q_hash_many (felt <$> [DOMAIN_VALIDATOR_LEAF_FELT; vl_validator_user_id l; n0; n1; n2; n3; b0; b1; b2; b3]))).

(** [assert!] *)
Definition validator_tree_index (realm_id realm_sub_id : Z) : outcome Z :=
  if realm_sub_id <=? 255 then Ok (Z.lor (wrap 64 (Z.shiftl realm_id VALIDATOR_SUB_ID_BITS)) realm_sub_id) else Panic.

(** ** Preimages *)
Record GenesisValidator : Type := mkGenesisValidator {
  gv_realm_id : Z;
  gv_validator_user_id : Z;
  gv_node_id : list Z;
  gv_bls_public_key : list Z;
}.

Definition from_genesis_validator (chain_id realm_sub_id : Z) (validator : GenesisValidator) : outcome ValidatorLeafPreimage :=
  let* _ := ensure (negb (255 <? realm_sub_id)) "validator leaf sub_id exceeds 8-bit tree slot" in
  let* node_id := node_id_from_raw (gv_node_id validator) in
  let* bls_public_key := public_key_from_bytes (gv_bls_public_key validator) in
  Ok (mkPreimage chain_id (gv_realm_id validator) realm_sub_id (gv_validator_user_id validator) node_id bls_public_key).

Definition to_leaf (p : ValidatorLeafPreimage) : outcome ValidatorLeaf :=
  let* node_id := node_id_from_raw (vp_node_id p) in
  let* bls_public_key := public_key_from_bytes (vp_bls_public_key p) in
  Ok (mkValidatorLeaf (vp_validator_user_id p) node_id bls_public_key).

Definition preimage_leaf_hash (p : ValidatorLeafPreimage) : outcome (list Z) :=
  let* leaf := to_leaf p in leaf_hash leaf.

Definition ensure_validator_user_id_in_realm (realm_id validator_user_id realm_user_tree_height : Z) : outcome unit :=
  let* users_per_realm := ok_or (if realm_user_tree_height <? 64 then Some (wrap 64 (Z.shiftl 1 realm_user_tree_height)) else None)
                            "realm user tree height exceeds u64" in
  let checked (x : Z) := if x <? 2 ^ 64 then Some x else None in
  let* realm_start := ok_or (checked (realm_id * users_per_realm)) "realm user range overflows u64" in
  let* realm_end := ok_or (checked (realm_start + users_per_realm)) "realm user range overflows u64" in
  ensure ((realm_start <=? validator_user_id) && (validator_user_id <? realm_end)) "validator_user_id is outside realm user range".

(** [0..=255] never reaches the assertion of the index. *)
Definition realm_validator_indexes (realm_id : Z) : list (Z * Z) :=
  (λ i, (Z.of_nat i, Z.lor (wrap 64 (Z.shiftl realm_id VALIDATOR_SUB_ID_BITS)) (Z.of_nat i))) <$> seq 0 256.

Definition authenticate_validator_preimage (preimage : ValidatorLeafPreimage) (tree_leaf_hash : Hash) : outcome ValidatorLeaf :=
  let* leaf := to_leaf preimage in
  let* h := preimage_leaf_hash preimage in
  let* _ := ensure (bool_decide (from_owned_32bytes h = tree_leaf_hash)) "validator preimage hash mismatch" in
  Ok leaf.

Definition require_realm_validator_count (n : Z) : outcome unit :=
  ensure ((MIN_VALIDATORS_PER_REALM <=? n) && (n <=? MAX_VALIDATORS_PER_REALM)) "realm validator count is outside the range".

(** ** The lookup *)
Class PsyNodeValidatorTreeDatabaseReader (E : Type → Type) : Type := {
  validator_tree_get_root_hash : Z → E Hash;
  validator_tree_get_nodes : Z → list SimpleMerkleNodeKey → E (list Hash);
  validator_tree_get_leaf_preimages : Z → list Z → E (list (option ValidatorLeafPreimage));
}.

Record RealmValidators : Type := mkRealmValidators {
  rv_sub_ids : list Z;
  rv_keys : list (Z * list Z);
  rv_user_ids : list (Z * Z);
  rv_leaves : list (Z * ValidatorLeaf);
}.

(** One occupied slot with its preimage. *)
Definition check_validator (chain_id realm_id : Z) (slot : Z * Z * Hash) (preimage : option ValidatorLeafPreimage)
    : outcome (Z * ValidatorLeafPreimage * ValidatorLeaf) :=
  let '(sub_id, leaf_index, hash) := slot in
  let* preimage := ok_or preimage "validator leaf preimage missing" in
  let* _ := ensure (vp_chain_id preimage =? chain_id) "validator preimage chain_id does not match configured chain" in
  let* _ := ensure ((vp_realm_id preimage =? realm_id) && (vp_realm_sub_id preimage =? sub_id)) "validator preimage slot mismatch" in
  let* leaf := authenticate_validator_preimage preimage hash in
  Ok (sub_id, preimage, leaf).

Fixpoint check_validators (chain_id realm_id : Z) (occupied : list (Z * Z * Hash)) (preimages : list (option ValidatorLeafPreimage))
    : outcome RealmValidators :=
  match occupied, preimages with
  | slot :: occupied, preimage :: preimages =>
      let* (sub_id, preimage, leaf) := check_validator chain_id realm_id slot preimage in
      let* r := check_validators chain_id realm_id occupied preimages in
      Ok (mkRealmValidators (sub_id :: rv_sub_ids r) ((sub_id, vl_bls_public_key leaf) :: rv_keys r)
            ((sub_id, vp_validator_user_id preimage) :: rv_user_ids r) ((sub_id, leaf) :: rv_leaves r))
  | _, _ => Ok (mkRealmValidators [] [] [] [])
  end.

Definition occupied_slots (slots : list (Z * Z)) (leaf_hashes : list Hash) : list (Z * Z * Hash) :=
  filter (λ x, x.2 ≠ get_zero_hash 0) (zip slots leaf_hashes).

Definition load_realm_validators_from_tree {E} `{!PsyNodeValidatorTreeDatabaseReader E} (chain_id checkpoint_id realm_id : Z)
    (expected_root : Hash) : io E RealmValidators :=
  let+ tree_root := call (validator_tree_get_root_hash checkpoint_id) in
  let+ _ := Ret (ensure (bool_decide (tree_root = expected_root)) "validator tree root mismatch") in
  let slots := realm_validator_indexes realm_id in
  let leaf_keys := (λ s, mkKey (wrap 8 VALIDATOR_TREE_HEIGHT) s.2) <$> slots in
  let+ leaf_hashes := call (validator_tree_get_nodes checkpoint_id leaf_keys) in
  let+ _ := Ret (ensure (length leaf_hashes =? length slots)%nat "validator tree leaf batch has the wrong length") in
  let occupied := occupied_slots slots leaf_hashes in
  let preimage_indexes := (λ x, x.1.2) <$> occupied in
  let+ preimages := if decide (preimage_indexes = []) then pure []
                    else call (validator_tree_get_leaf_preimages checkpoint_id preimage_indexes) in
  let+ _ := Ret (ensure (length preimages =? length occupied)%nat "validator tree preimage batch has the wrong length") in
  let+ validators := Ret (check_validators chain_id realm_id occupied preimages) in
  let+ _ := Ret (require_realm_validator_count (Z.of_nat (length (rv_sub_ids validators)))) in
  pure validators.

Definition validator_nodes_from_leaves (leaves : list (Z * ValidatorLeaf)) : list (Z * list Z) :=
  (λ x, (x.1, vl_node_id x.2)) <$> leaves.

(** ** What the lookup returns *)

(** The slot of a validator in a tree given by the hash of each index. *)
Definition slot_index (realm_id sub_id : Z) : Z := Z.lor (wrap 64 (Z.shiftl realm_id VALIDATOR_SUB_ID_BITS)) sub_id.

(** A slot holds this validator: the leaf it commits to is the one rebuilt from a preimage
    that names chain, realm and slot. *)
Definition seated (chain_id realm_id sub_id : Z) (hash : Hash) (preimage : option ValidatorLeafPreimage) (leaf : ValidatorLeaf) : Prop :=
  ∃ p h, preimage = Some p ∧ vp_chain_id p = chain_id ∧ vp_realm_id p = realm_id ∧ vp_realm_sub_id p = sub_id ∧
    to_leaf p = Ok leaf ∧ leaf_hash leaf = Ok h ∧ from_owned_32bytes h = hash.

Lemma check_validator_iff chain_id realm_id sub_id index hash preimage r :
  check_validator chain_id realm_id (sub_id, index, hash) preimage = Ok r ↔
  ∃ p leaf, r = (sub_id, p, leaf) ∧ preimage = Some p ∧ seated chain_id realm_id sub_id hash preimage leaf.
Proof.
  unfold check_validator, authenticate_validator_preimage, preimage_leaf_hash, seated. split.
  - intros E. outcome_inv. simplify_eq.
    repeat match goal with H : (_ && _) = true |- _ => apply andb_prop in H as [? ?] end. rewrite !Z.eqb_eq in *.
    rewrite bool_decide_eq_true in *.
    match goal with H : to_leaf _ = Ok _, H' : to_leaf _ = Ok _ |- _ => rewrite H in H' end. simplify_eq.
    do 2 eexists. do 2 (split; [done|]). do 2 eexists. split_and!; done.
  - intros (p & leaf & -> & -> & (p' & h & [= <-] & <- & <- & <- & Hl & Hh & Heq)). cbn [ok_or outcome_bind].
    rewrite !Z.eqb_refl, Hl. cbn [ensure andb outcome_bind]. rewrite Hh. cbn [outcome_bind]. by rewrite bool_decide_true.
Qed.

(** The result lists the slots in their order, each with the validator seated there. *)
Definition listed (chain_id realm_id : Z) (occupied : list (Z * Z * Hash)) (preimages : list (option ValidatorLeafPreimage))
    (v : RealmValidators) : Prop :=
  rv_sub_ids v = occupied.*1.*1 ∧ rv_sub_ids v = (rv_leaves v).*1 ∧ rv_keys v = (λ x, (x.1, vl_bls_public_key x.2)) <$> rv_leaves v ∧
  rv_user_ids v = (λ x, (x.1, vl_validator_user_id x.2)) <$> rv_leaves v ∧
  Forall2 (λ x l, seated chain_id realm_id x.1.1.1 x.1.2 x.2 l.2) (zip occupied preimages) (rv_leaves v).

Lemma check_validators_iff chain_id realm_id occupied : ∀ preimages v, length preimages = length occupied →
  check_validators chain_id realm_id occupied preimages = Ok v ↔ listed chain_id realm_id occupied preimages v.
Proof.
  unfold listed. induction occupied as [|[[sub_id index] hash] occupied IH]; intros [|preimage preimages] v Hl; try done; cbn [check_validators].
  - split; [intros [= <-]; by repeat constructor|]. destruct v as [ids keys users leaves]. cbn.
    intros (-> & E & -> & -> & Hf). apply Forall2_nil_inv_l in Hf as ->. done.
  - split.
    + intros E. outcome_inv. simplify_eq. apply check_validator_iff in E0 as (p & leaf & Heq & -> & Hs). simplify_eq. outcome_inv.
      match goal with H : check_validators _ _ _ _ = Ok _ |- _ => apply IH in H as (E1 & E2 & E3 & E4 & Hf); [|cbn in Hl; lia] end.
      simplify_eq. cbn. rewrite <- E1, E2, <- E3, <- E4. split_and!; try done.
      * f_equal. f_equal. destruct Hs as (p' & h & [= <-] & _ & _ & _ & Hto & _). unfold to_leaf in Hto. by outcome_inv; simplify_eq.
      * by constructor.
    + destruct v as [ids keys users leaves]. cbn [rv_sub_ids rv_keys rv_user_ids rv_leaves]. intros (-> & E2 & -> & -> & Hf).
      apply Forall2_cons_inv_l in Hf as ([sub' leaf] & leaves' & Hs & Hf & ->). cbn in Hs, E2. injection E2 as <- E2.
      pose proof Hs as (p & h & -> & _ & _ & _ & Hto & _).
      rewrite (proj2 (check_validator_iff chain_id realm_id sub_id index hash (Some p) (sub_id, p, leaf))) by eauto. cbn [outcome_bind].
      rewrite (proj2 (IH preimages (mkRealmValidators (occupied.*1.*1) ((λ x, (x.1, vl_bls_public_key x.2)) <$> leaves')
        ((λ x, (x.1, vl_validator_user_id x.2)) <$> leaves') leaves') ltac:(cbn in Hl; lia))) by done. cbn.
      unfold to_leaf in Hto. by outcome_inv; simplify_eq.
Qed.

(** The validators of a realm in a tree given by its leaf hashes and preimages. *)
Definition roster (chain_id realm_id : Z) (hash_at : Z → Hash) (preimage_at : Z → option ValidatorLeafPreimage) (v : RealmValidators) : Prop :=
  rv_sub_ids v = filter (λ sub_id, hash_at (slot_index realm_id sub_id) ≠ get_zero_hash 0) (seqZ 0 256) ∧
  rv_sub_ids v = (rv_leaves v).*1 ∧
  rv_keys v = (λ x, (x.1, vl_bls_public_key x.2)) <$> rv_leaves v ∧
  rv_user_ids v = (λ x, (x.1, vl_validator_user_id x.2)) <$> rv_leaves v ∧
  Forall (λ l, seated chain_id realm_id l.1 (hash_at (slot_index realm_id l.1)) (preimage_at (slot_index realm_id l.1)) l.2) (rv_leaves v).

Lemma occupied_slots_filter realm_id (hash_at : Z → Hash) : ∀ ids,
  occupied_slots ((λ i, (i, slot_index realm_id i)) <$> ids) (hash_at ∘ slot_index realm_id <$> ids) =
  (λ i, (i, slot_index realm_id i, hash_at (slot_index realm_id i))) <$> filter (λ i, hash_at (slot_index realm_id i) ≠ get_zero_hash 0) ids.
Proof.
  unfold occupied_slots. induction ids as [|i ids IH]; [done|]. cbn [fmap list_fmap zip_with]. rewrite !filter_cons. cbn [snd compose].
  case_decide; cbn [fmap list_fmap]; by rewrite IH.
Qed.

Lemma Forall2_own_ids {A B} (P : A → Z * B → Prop) (f : Z → A) l : Forall2 P (f <$> l.*1) l ↔ Forall (λ x, P (f x.1) x) l.
Proof.
  induction l as [|x l IH]; cbn; [split; constructor|]. rewrite Forall2_cons, Forall_cons. by rewrite IH.
Qed.

Lemma listed_roster chain_id realm_id hash_at preimage_at v :
  let ids := filter (λ i, hash_at (slot_index realm_id i) ≠ get_zero_hash 0) (seqZ 0 256) in
  listed chain_id realm_id ((λ i, (i, slot_index realm_id i, hash_at (slot_index realm_id i))) <$> ids)
    ((preimage_at ∘ slot_index realm_id) <$> ids) v ↔ roster chain_id realm_id hash_at preimage_at v.
Proof.
  intros ids. unfold listed, roster. fold ids.
  assert (∀ ids : list Z, ((λ i, (i, slot_index realm_id i, hash_at (slot_index realm_id i))) <$> ids).*1.*1 = ids) as ->.
  { intros l. rewrite <- !list_fmap_compose. apply list_fmap_id. }
  assert (∀ ids : list Z, zip ((λ i, (i, slot_index realm_id i, hash_at (slot_index realm_id i))) <$> ids)
            ((preimage_at ∘ slot_index realm_id) <$> ids) =
          (λ i, (i, slot_index realm_id i, hash_at (slot_index realm_id i), preimage_at (slot_index realm_id i))) <$> ids) as ->.
  { intros l. rewrite zip_with_fmap_l, zip_with_fmap_r. by induction l; [|cbn; f_equal]. }
  split; intros (E1 & E2 & E3 & E4 & Hf); (split_and!; [done..|]).
  - rewrite <- E1, E2 in Hf. by apply (proj1 (Forall2_own_ids _ _ _)) in Hf.
  - rewrite <- E1, E2. by apply (proj2 (Forall2_own_ids _ _ _)).
Qed.

(** *** Reading a database

    What a database has to answer for the slots of a realm, in every state where it holds
    the tree. *)
Section reads.
Context {E : Type → Type} `{!PsyNodeValidatorTreeDatabaseReader E} {S : Type} (handle : ∀ X, E X → S → outcome X * S).

Definition answers {X} (P : S → Prop) (e : E X) (x : X) : Prop := ∀ s, P s → ∃ s', handle X e s = (Ok x, s') ∧ P s'.

(** The leaves of a realm, and what a function of the leaf index gives for some of them. *)
Definition realm_leaf_keys (realm_id : Z) : list SimpleMerkleNodeKey := (λ i, mkKey 20 (slot_index realm_id i)) <$> seqZ 0 256.
Definition at_slots {A} (f : Z → A) (realm_id : Z) (ids : list Z) : list A := (f ∘ slot_index realm_id) <$> ids.

Record reads_tree (P : S → Prop) (checkpoint_id realm_id : Z) (root : Hash) (hash_at : Z → Hash)
    (preimage_at : Z → option ValidatorLeafPreimage) : Prop := {
  reads_root : answers P (validator_tree_get_root_hash checkpoint_id) root;
  reads_nodes : answers P (validator_tree_get_nodes checkpoint_id (realm_leaf_keys realm_id))
                  (at_slots hash_at realm_id (seqZ 0 256));
  reads_preimages ids : ids ⊆ seqZ 0 256 →
    answers P (validator_tree_get_leaf_preimages checkpoint_id (at_slots id realm_id ids)) (at_slots preimage_at realm_id ids);
}.

Lemma realm_validator_indexes_seqZ realm_id : realm_validator_indexes realm_id = (λ i, (i, slot_index realm_id i)) <$> seqZ 0 256.
Proof. unfold realm_validator_indexes, seqZ. rewrite <- list_fmap_compose. apply list_fmap_ext. intros _ i _. cbn. by rewrite Z.add_0_r. Qed.

Lemma run_answer {X} P (e : E X) x s :
  answers P e x → P s → ∃ s', P s' ∧ ∀ A (f : X → io E A), run handle (io_bind (call e) f) s = run handle (f x) s'.
Proof. intros Ha Hs. destruct (Ha s Hs) as (s' & Eq & Hs'). exists s'. split; [done|]. intros A f. cbn. by rewrite Eq. Qed.

Lemma run_value {A B} (a : A) (f : A → io E B) s : run handle (io_bind (Ret (Ok a)) f) s = run handle (f a) s.
Proof. done. Qed.

(** The last two steps of the lookup only compute. *)
Lemma run_checked {A} (m : outcome A) (check : A → outcome unit) s :
  run handle (let+ v := Ret m in let+ _ := Ret (check v) in pure v : io E A) s = (let* v := m in let* _ := check v in Ok v, s).
Proof. destruct m as [v| | |]; [|done..]. cbn [io_bind outcome_bind]. by destruct (check v). Qed.

Lemma load_roster P chain_id checkpoint_id realm_id expected_root root hash_at preimage_at :
  reads_tree P checkpoint_id realm_id root hash_at preimage_at → ∀ s, P s →
  ∃ o s', run handle (load_realm_validators_from_tree chain_id checkpoint_id realm_id expected_root) s = (o, s') ∧ P s' ∧
    ∀ v, o = Ok v ↔ root = expected_root ∧ roster chain_id realm_id hash_at preimage_at v ∧
      1 ≤ Z.of_nat (length (rv_sub_ids v)) ≤ 64.
Proof.
  intros [Hroot Hnodes Hpre] s Hs. unfold load_realm_validators_from_tree.
  destruct (run_answer P _ _ s Hroot Hs) as (s1 & Hs1 & ->). case_bool_decide as Heq; unfold ensure at 1.
  2: { eexists _, _. split_and!; [done|done|]. intros v. by split; [|intros [? _]]. }
  rewrite run_value, realm_validator_indexes_seqZ, <- list_fmap_compose.
  destruct (run_answer P _ _ s1 Hnodes Hs1) as (s2 & Hs2 & E2). unfold realm_leaf_keys in E2.
  change (wrap 8 VALIDATOR_TREE_HEIGHT) with 20. unfold compose at 1. cbn [snd]. rewrite E2. clear E2.
  unfold at_slots at 1. rewrite !length_fmap, Nat.eqb_refl. cbn [ensure]. rewrite run_value.
  unfold at_slots. rewrite occupied_slots_filter.
  set (ids := filter _ _). rewrite <- list_fmap_compose.
  assert (∃ s3, P s3 ∧ ∀ f : _ → io E RealmValidators,
    run handle (io_bind (if decide ((λ x : Z * Z * Hash, x.1.2) ∘ (λ i, (i, slot_index realm_id i, hash_at (slot_index realm_id i))) <$> ids = [])
                then pure [] else call (validator_tree_get_leaf_preimages checkpoint_id
                  ((λ x : Z * Z * Hash, x.1.2) ∘ (λ i, (i, slot_index realm_id i, hash_at (slot_index realm_id i))) <$> ids))) f) s2 =
    run handle (f ((preimage_at ∘ slot_index realm_id) <$> ids)) s3) as (s3 & Hs3 & ->).
  { case_decide as Hn.
    - apply fmap_nil_inv in Hn as ->. by exists s2.
    - destruct (run_answer P _ _ s2 (Hpre ids ltac:(intros i Hi; by apply list_elem_of_filter in Hi as [_ ?])) Hs2) as (s3 & Hs3 & E3).
      exists s3. split; [done|]. intros f. apply E3. }
  rewrite !length_fmap, Nat.eqb_refl. cbn [ensure]. rewrite run_value.
  rewrite (run_checked _ (λ v, require_realm_validator_count (Z.of_nat (length (rv_sub_ids v))))).
  eexists _, _. split_and!; [done|done|]. intros v. rewrite <- listed_roster, <- check_validators_iff by by rewrite !length_fmap.
  fold ids. split.
  - intros Ev. outcome_inv. unfold require_realm_validator_count, MIN_VALIDATORS_PER_REALM, MAX_VALIDATORS_PER_REALM in *. outcome_inv. simplify_eq. split_and!; [done|done|lia|lia].
  - intros (_ & -> & Hc). cbn [outcome_bind]. unfold require_realm_validator_count. rewrite (proj2 (andb_true_iff _ _)); [done|].
    rewrite !Z.leb_le. done.
Qed.
End reads.

(** A database whose answers are given by functions of the index. *)
#[local] Instance table_reader (root : Hash) (hash_at : Z → Hash) (preimage_at : Z → option ValidatorLeafPreimage)
    : PsyNodeValidatorTreeDatabaseReader outcome := {|
  validator_tree_get_root_hash _ := Ok root;
  validator_tree_get_nodes _ keys := Ok (hash_at ∘ index <$> keys);
  validator_tree_get_leaf_preimages _ indexes := Ok (preimage_at <$> indexes);
|}.

Definition answer (X : Type) (r : outcome X) (s : unit) : outcome X * unit := (r, s).

(** C17: the lookup of the validators of a realm is exact: it succeeds if and only if the
    tree has the expected root, every occupied slot among the 256 of the realm has a preimage
    that names chain, realm and slot and hashes to the leaf, with a valid node identity and
    key, and between 1 and 64 slots are occupied; the result then lists the occupied slots in
    ascending order, each with the key, user and leaf of its preimage. *)
Theorem lookup_exact chain_id checkpoint_id realm_id expected_root root hash_at preimage_at v :
  run answer (load_realm_validators_from_tree (PsyNodeValidatorTreeDatabaseReader0 := table_reader root hash_at preimage_at)
    chain_id checkpoint_id realm_id expected_root) tt = (Ok v, tt) ↔
  root = expected_root ∧ roster chain_id realm_id hash_at preimage_at v ∧ 1 ≤ Z.of_nat (length (rv_sub_ids v)) ≤ 64.
Proof.
  destruct (load_roster (PsyNodeValidatorTreeDatabaseReader0 := table_reader root hash_at preimage_at) answer (λ _, True)
    chain_id checkpoint_id realm_id expected_root root hash_at preimage_at) with (s := tt) as (o & [] & -> & _ & Ho); [|done|].
  - split.
    + intros [] _. by exists tt.
    + intros [] _. exists tt. split; [|done]. unfold realm_leaf_keys, at_slots, answer. cbn [validator_tree_get_nodes table_reader]. by rewrite <- list_fmap_compose.
    + intros ids _ [] _. exists tt. split; [|done]. unfold at_slots, answer. cbn [validator_tree_get_leaf_preimages table_reader]. by rewrite <- list_fmap_compose.
  - rewrite <- Ho. split; [by intros [= ->]|by intros ->].
Qed.
End node_id.
