(* ===== verification/ValidatorGenesis.v ===== *)
(** * The validators of a new chain

    [build_validator_tree_genesis] of [psy_data/src/p2p/validator_tree.rs] seats the
    validators of the genesis configuration in the tree of height 20,
    [parth_common/src/merkle_leaf_serializer/zero_id.rs] and
    [parth_core/src/data/hash/fast_node_serializer/zero.rs] hash and serialize the tree,
    [write_validator_tree_genesis] of [psy_node_core/src/p2p/validator_lookup.rs] writes it
    with the preimages, and the typed database of
    [psy_node_core/src/psy_core_db/v3_implementation/full.rs] keeps both in the tables of
    the core store. The theorem of the file follows a validator through all of them: what
    is configured is what a realm later reads, at every checkpoint. *)
From stdpp Require Import prelude list gmap strings sorting.
From Stdlib Require Import ZArith Lia.
From S2P Require Import Prelude MerkleKey MerkleHash FieldHash MerkleProof Spiderman MemTree Wire Bls Serialize ByteOrder Codecs.
From S2P Require Import RealmFinalize Qblob CoreStore StoreVersions StoreTrees TreeHistory TreeWrites Consensus Effects Validators.

(** ** Object ids of the checkpointed table *)
Definition CHECKPOINTED_OBJECT_TABLE_OBJ_ID_VALIDATOR_TREE_PREIMAGE_BASE : Z := 2 ^ 40.
Definition CHECKPOINTED_OBJECT_TABLE_OBJ_ID_BRIDGE_DEPOSIT_LEAF_BASE : Z := 2 ^ 63.

Definition validator_tree_preimage_obj_id (leaf_index : Z) : outcome Z :=
  let* _ := ensure (leaf_index <? CHECKPOINTED_OBJECT_TABLE_OBJ_ID_VALIDATOR_TREE_PREIMAGE_BASE)
              "validator tree leaf index overflows preimage object id" in
  Ok (Z.lor CHECKPOINTED_OBJECT_TABLE_OBJ_ID_VALIDATOR_TREE_PREIMAGE_BASE leaf_index).

Definition bridge_deposit_leaf_obj_id (chain_id deposit_index : Z) : outcome Z :=
  if (U32_MAX <? chain_id) || (U32_MAX <? deposit_index) then Err "bridge deposit id overflow"
  else Ok (Z.lor (Z.lor CHECKPOINTED_OBJECT_TABLE_OBJ_ID_BRIDGE_DEPOSIT_LEAF_BASE (wrap 64 (Z.shiftl chain_id 32))) deposit_index).

Definition bridge_chain_tree_node_obj_id (chain_id level index : Z) : outcome Z :=
  if 2 ^ 24 - 1 <? chain_id then Err "bridge chain_id overflow" else
  if 63 <? level then Err "bridge chain tree level overflow" else
  if U32_MAX <? index then Err "bridge chain tree index overflow" else
  let payload := Z.lor (Z.lor (wrap 64 (Z.shiftl chain_id 38)) (wrap 64 (Z.shiftl level 32))) index in
  Ok (Z.lor (wrap 64 (Z.shiftl 3 62)) payload).

Definition bridge_global_tree_node_obj_id (level index : Z) : outcome Z :=
  if 63 <? level then Err "bridge global tree level overflow" else
  if 2 ^ 56 - 1 <? index then Err "bridge global tree index overflow" else
  let subtype := 1 in
  Ok (Z.lor (Z.lor (wrap 64 (Z.shiftl subtype 56)) (wrap 64 (Z.shiftl level 50))) index).

(** ** Nodes of a tree without id, serialized *)
Section nodes.
Context {Hash : Type} `{EqDecision Hash, MerkleHasher Hash, !ZeroableHash Hash, !MerkleZeroHasher Hash} `{Q256BitHash Hash}.

Definition serialize_zero_id_node_to_vec (node : SimpleMerkleNodeKey * Hash) : list Z :=
  [level node.1] ++ to_le_bytes 8 (index node.1) ++ into_owned_32bytes node.2.

(** [assert!] *)
Definition deserialize_zero_id_node_from_slice (slice : list Z) : outcome (SimpleMerkleNodeKey * Hash) :=
  if (length slice <? 41)%nat then Panic else
  Ok (mkKey (nth 0 slice 0) (from_le_bytes (take 8 (drop 1 slice))), from_owned_32bytes (take 32 (drop 9 slice))).

(** The order in which a hash map is walked is not specified: [nodes] are its entries in
    some order. *)
Definition serialize_zero_id_hash_map_to_vec (nodes : list (SimpleMerkleNodeKey * Hash)) : list Z :=
  concat (serialize_zero_id_node_to_vec <$> nodes).

(** [SimpleMemoryMerkleStoreV3::set_leaf_no_proof] for each leaf. *)
Fixpoint set_leaves_no_proof (tree : SimpleMemoryMerkleStoreV3 Hash) (leaves : list (Z * Hash)) : outcome (SimpleMemoryMerkleStoreV3 Hash) :=
  match leaves with
  | [] => Ok tree
  | (index, value) :: leaves => let* tree := set_leaf_no_proof tree index value in set_leaves_no_proof tree leaves
  end.

Definition zero_id_merkle_tree_nodes_hash_map_from_leaves (tree_height : Z) (leaves : list (Z * Hash))
    : outcome (Hash * gmap SimpleMerkleNodeKey Hash) :=
  let* tree := set_leaves_no_proof (MemTree.new tree_height) leaves in
  let* root := get_root tree in
  Ok (root, nodes tree).
End nodes.

(** ** Building *)
Section genesis.
Context (to_raw : list Z → option (list Z)) `{Blst} (sha256 : list Z → list Z).
Context {F Hash : Type} `{FieldHash F Hash} `{EqDecision Hash, MerkleHasher Hash, !ZeroableHash Hash, !MerkleZeroHasher Hash} `{Q256BitHash Hash}.
(** The order in which the nodes are walked. *)
Context (walk : gmap SimpleMerkleNodeKey Hash → list (SimpleMerkleNodeKey * Hash)).

Record ValidatorTreeGenesis : Type := mkTreeGenesis {
  vg_root : Hash;
  vg_nodes_ffs : list Z;
  vg_preimages : list ValidatorLeafPreimage;
}.

Definition tree_index (p : ValidatorLeafPreimage) : outcome Z := validator_tree_index (vp_realm_id p) (vp_realm_sub_id p).

(** What the loop over the validators keeps. *)
Record seating : Type := mkSeating {
  se_preimages : list ValidatorLeafPreimage;
  se_leaves : list (Z * Hash);
  se_indexes : gset Z;
  se_user_ids : gset Z;
  se_node_ids : gset (list Z);
  se_bls_keys : gset (list Z);
  se_per_realm : gmap Z Z;
}.

Definition seat_validator (chain_id realm_user_tree_height : Z) (a : seating) (validator : GenesisValidator) : outcome seating :=
  let realm_count := default 0 (se_per_realm a !! gv_realm_id validator) + 1 in
  let* _ := ensure (realm_count <=? MAX_VALIDATORS_PER_REALM) "realm has too many ordered validators" in
  let realm_sub_id := wrap 16 realm_count in
  let* _ := ensure_validator_user_id_in_realm (gv_realm_id validator) (gv_validator_user_id validator) realm_user_tree_height in
  let* preimage := from_genesis_validator to_raw chain_id realm_sub_id validator in
  let* index := tree_index preimage in
  let* hash := preimage_leaf_hash to_raw sha256 (Hash := Hash) preimage in
  let* _ := ensure (bool_decide (index ∉ se_indexes a)) "duplicate validator tree index" in
  let* _ := ensure (bool_decide (vp_validator_user_id preimage ∉ se_user_ids a)) "duplicate validator_user_id" in
  let* _ := ensure (bool_decide (vp_node_id preimage ∉ se_node_ids a)) "duplicate validator NodeId" in
  let* _ := ensure (bool_decide (vp_bls_public_key preimage ∉ se_bls_keys a)) "duplicate validator BLS key" in
  Ok (mkSeating (se_preimages a ++ [preimage]) (se_leaves a ++ [(index, from_owned_32bytes hash)])
        ({[index]} ∪ se_indexes a) ({[vp_validator_user_id preimage]} ∪ se_user_ids a) ({[vp_node_id preimage]} ∪ se_node_ids a)
        ({[vp_bls_public_key preimage]} ∪ se_bls_keys a) (<[gv_realm_id validator := realm_count]> (se_per_realm a))).

Fixpoint seat_validators (chain_id realm_user_tree_height : Z) (a : seating) (validators : list GenesisValidator) : outcome seating :=
  match validators with
  | [] => Ok a
  | validator :: validators =>
      let* a := seat_validator chain_id realm_user_tree_height a validator in
      seat_validators chain_id realm_user_tree_height a validators
  end.

Definition build_validator_tree_genesis (chain_id : Z) (validators : list GenesisValidator) (realm_user_tree_height : Z)
    : outcome ValidatorTreeGenesis :=
  let* _ := ensure (MIN_VALIDATORS_PER_REALM <=? Z.of_nat (length validators)) "Genesis must contain at least 1 validator" in
  let* a := seat_validators chain_id realm_user_tree_height (mkSeating [] [] ∅ ∅ ∅ ∅ ∅) validators in
  let* (root, nodes) := zero_id_merkle_tree_nodes_hash_map_from_leaves (wrap 8 VALIDATOR_TREE_HEIGHT) (se_leaves a) in
  Ok (mkTreeGenesis root (serialize_zero_id_hash_map_to_vec (walk nodes)) (se_preimages a)).

Definition empty_validator_tree_root : Hash := get_zero_hash (Z.to_nat VALIDATOR_TREE_HEIGHT).

Definition validator_tree_root_from_genesis (chain_id : Z) (validators : list GenesisValidator) (realm_user_tree_height : Z) : outcome Hash :=
  let* g := build_validator_tree_genesis chain_id validators realm_user_tree_height in Ok (vg_root g).

(** ** Writing *)
Class PsyNodeValidatorTreeDatabaseWriter (E : Type → Type) : Type := {
  validator_tree_set_nodes_ffs : Z → list Z → E unit;
  validator_tree_set_leaf_preimage : Z → Z → ValidatorLeafPreimage → E unit;
}.

Fixpoint write_preimages {E} `{!PsyNodeValidatorTreeDatabaseWriter E} (preimages : list ValidatorLeafPreimage) : io E unit :=
  match preimages with
  | [] => pure tt
  | preimage :: preimages =>
      let+ index := Ret (tree_index preimage) in
      let+ _ := call (validator_tree_set_leaf_preimage 0 index preimage) in
      write_preimages preimages
  end.

Definition write_validator_tree_genesis {E} `{!PsyNodeValidatorTreeDatabaseWriter E} (nodes_ffs : list Z)
    (preimages : list ValidatorLeafPreimage) : io E unit :=
  let+ _ := if decide (nodes_ffs = []) then pure tt else call (validator_tree_set_nodes_ffs 0 nodes_ffs) in
  write_preimages preimages.
End genesis.

(** ** The typed database over the core store *)
Record ValidatorTables : Type := mkValidatorTables {
  validator_tree_table : InMemoryTableIdentifier;
  checkpointed_object_table : InMemoryTableIdentifier;
}.

Section database.
Context {Hash : Type} `{EqDecision Hash, MerkleHasher Hash, !ZeroableHash Hash, !MerkleZeroHasher Hash}.
Context `{QPDSerializable Hash, Q256BitHash Hash, CanonicalSingle ValidatorLeafPreimage} (default_hash : Hash) (self : ValidatorTables).

Definition validator_tree_get_leaf_hash (checkpoint_id leaf_index : Z) : db Hash :=
  db_select_zero_id_merkle_node_max_checkpoint (validator_tree_table self) checkpoint_id (mkKey (wrap 8 VALIDATOR_TREE_HEIGHT) leaf_index).

Definition validator_tree_get_merkle_proof (checkpoint_id leaf_index : Z) : db (MerkleProofCore Hash) :=
  db_helper_select_zero_id_merkle_proof_max_checkpoint (validator_tree_table self) checkpoint_id (mkKey (wrap 8 VALIDATOR_TREE_HEIGHT) leaf_index).

Definition validator_tree_get_leaf_preimage (checkpoint_id leaf_index : Z) : db (option ValidatorLeafPreimage) :=
  obj_id ← lift (validator_tree_preimage_obj_id leaf_index);
  db_select_one_single_checkpointed_object_value (checkpointed_object_table self) obj_id checkpoint_id.

(** The three reads of the lookup. *)
#[local] Instance store_reader : PsyNodeValidatorTreeDatabaseReader db (Hash := Hash) := {|
  validator_tree_get_root_hash checkpoint_id :=
    db_select_zero_id_merkle_node_max_checkpoint (validator_tree_table self) checkpoint_id MerkleKey.new_root;
  validator_tree_get_nodes checkpoint_id keys :=
    db_select_many_zero_id_merkle_nodes_max_checkpoint (validator_tree_table self) checkpoint_id keys;
  validator_tree_get_leaf_preimages checkpoint_id leaf_indexes :=
    obj_ids ← lift (collect_results validator_tree_preimage_obj_id leaf_indexes);
    db_select_many_single_checkpointed_object_values (checkpointed_object_table self) obj_ids checkpoint_id;
|}.

#[local] Instance store_writer : PsyNodeValidatorTreeDatabaseWriter db := {|
  validator_tree_set_nodes_ffs checkpoint_id data :=
    db_set_zero_id_merkle_nodes_from_fast_serialized (Hash := Hash) (validator_tree_table self) checkpoint_id data;
  validator_tree_set_leaf_preimage checkpoint_id leaf_index preimage :=
    obj_id ← lift (validator_tree_preimage_obj_id leaf_index);
    db_insert_one_single_checkpointed_object (checkpointed_object_table self) obj_id checkpoint_id preimage;
|}.

Definition validator_tree_set_nodes (checkpoint_id : Z) (nodes : list (SimpleMerkleNodeKey * Hash)) : db unit :=
  db_set_zero_id_merkle_nodes_batch (validator_tree_table self) checkpoint_id nodes.

Definition validator_tree_set_leaf_hash (checkpoint_id leaf_index : Z) (value : Hash) : db (DeltaMerkleProofCore Hash) :=
  res ← db_helper_zero_id_merkle_node_simple_set_leaves_fast_serialize default_hash (validator_tree_table self) checkpoint_id 0
          (2 * VALIDATOR_TREE_HEIGHT) [(mkKey (wrap 8 VALIDATOR_TREE_HEIGHT) leaf_index, value)];
  lift (ok_or (last res) "No delta merkle proof found").

(** An operation of the database is its own effect. *)
Definition direct (X : Type) (e : db X) : db X := e.
End database.

(** ** Facts on the parts *)

(** *** Object ids *)
Lemma preimage_obj_id_ok i : 0 ≤ i < 2 ^ 40 → validator_tree_preimage_obj_id i = Ok (2 ^ 40 + i).
Proof.
  intros Hi. unfold validator_tree_preimage_obj_id, CHECKPOINTED_OBJECT_TABLE_OBJ_ID_VALIDATOR_TREE_PREIMAGE_BASE.
  rewrite (proj2 (Z.ltb_lt _ _)) by lia. cbn [ensure outcome_bind]. f_equal.
  pose proof (lor_pow2_add 1 i 40) as E. rewrite Z.mul_1_l in E. by apply E.
Qed.

Lemma collect_obj_ids ids : Forall (λ i, 0 ≤ i < 2 ^ 40) ids → collect_results validator_tree_preimage_obj_id ids = Ok (Z.add (2 ^ 40) <$> ids).
Proof. induction 1 as [|i ids Hi _ IH]; [done|]. cbn [collect_results fmap list_fmap]. rewrite preimage_obj_id_ok by done. cbn [outcome_bind]. by rewrite IH. Qed.

(** Two ids of global bridge nodes coincide: the level is shifted by 50 bits below an index
    that may have 56. *)
Lemma bridge_global_ids_overlap : bridge_global_tree_node_obj_id 1 0 = bridge_global_tree_node_obj_id 0 (2 ^ 50).
Proof. reflexivity. Qed.

(** A deposit of a chain whose id has bit 30 set has the id of a node of a chain's tree. *)
Lemma bridge_deposit_ids_overlap : bridge_deposit_leaf_obj_id (2 ^ 30 + 65) 5 = bridge_chain_tree_node_obj_id 1 1 5.
Proof. reflexivity. Qed.

(** *** Slots *)
Lemma slot_index_add r i : 0 ≤ r < 2 ^ 12 → 0 ≤ i < 256 → slot_index r i = r * 256 + i.
Proof.
  intros Hr Hi. unfold slot_index, VALIDATOR_SUB_ID_BITS. rewrite wrap_small by (rewrite Z.shiftl_mul_pow2; lia).
  rewrite Z.shiftl_mul_pow2 by lia. by apply (lor_pow2_add r i 8).
Qed.

(** *** The tree in memory *)
Section tree.
Context {Hash : Type} `{EqDecision Hash, MerkleHasher Hash, !ZeroableHash Hash, !MerkleZeroHasher Hash}.
Implicit Types (tree : SimpleMemoryMerkleStoreV3 Hash).

Lemma set_node_value_keys tree k v tree' :
  keys_in (nodes tree) → key_wf k → set_node_value tree k v = Ok tree' → keys_in (nodes tree').
Proof.
  intros Ht Hk E. unfold set_node_value in E. outcome_inv. case_bool_decide; simplify_eq; intros k' v'; cbn [with_nodes nodes].
  - intros [_ ?]%lookup_delete_Some. eauto.
  - intros [[<- _]|[_ ?]]%lookup_insert_Some; eauto.
Qed.

Lemma rehash_loop_keys fuel : ∀ tree k tree', keys_in (nodes tree) → key_wf k → rehash_loop fuel tree k 0 = Ok tree' → keys_in (nodes tree').
Proof.
  induction fuel as [|fuel IH]; intros tree k tree' Ht Hk E; cbn [rehash_loop] in E; destruct (Z.ltb_spec 0 (level k)); simplify_eq; [done| |done].
  outcome_inv. destruct (_ =? 0); outcome_inv; (eapply IH; [eapply set_node_value_keys; [exact Ht|by apply key_wf_parent|done]|by apply key_wf_parent|done]).
Qed.

Definition written_leaves (leaf : Z → Hash) (leaves : list (Z * Hash)) : Z → Hash := foldl (λ f l, update f l.1 l.2) leaf leaves.

Lemma set_leaves_no_proof_rep leaves : ∀ leaf tree,
  rep tree leaf → keys_in (nodes tree) → Forall (λ l, index_in tree l.1) leaves →
  ∃ tree', set_leaves_no_proof tree leaves = Ok tree' ∧ rep tree' (written_leaves leaf leaves) ∧ height tree' = height tree ∧ keys_in (nodes tree').
Proof.
  induction leaves as [|[i v] leaves IH]; intros leaf tree Hrep Hk Hi; [by exists tree|]. apply Forall_cons in Hi as [Hi Hl].
  destruct (set_leaf_no_proof_rep leaf tree i v Hrep Hi) as (t1 & E1 & Hrep1 & Hh1). cbn [set_leaves_no_proof]. rewrite E1. cbn [outcome_bind].
  assert (keys_in (nodes t1)) as Hk1.
  { unfold set_leaf_no_proof in E1. outcome_inv. pose proof Hrep as [[Hh ?] _].
    assert (key_wf (mkKey (height tree) i)) by (apply (key_in_leaf tree); [split; done|done]).
    eapply rehash_loop_keys; [eapply set_node_value_keys; [exact Hk|done|done]|done|done]. }
  destruct (IH (update leaf i v) t1) as (t2 & E2 & Hrep2 & Hh2 & Hk2); [done|done| |].
  { unfold index_in. by rewrite Hh1. }
  exists t2. by rewrite Hh2.
Qed.

Lemma written_leaves_other leaves : ∀ leaf i, i ∉ leaves.*1 → written_leaves leaf leaves i = leaf i.
Proof.
  induction leaves as [|[j v] leaves IH]; intros leaf i Hi; [done|]. cbn in Hi. apply not_elem_of_cons in Hi as [Hne Hi].
  change (written_leaves (update leaf j v) leaves i = leaf i). rewrite IH by done. unfold update. by rewrite (proj2 (Z.eqb_neq _ _)).
Qed.

Lemma written_leaves_in leaves : ∀ leaf i v, NoDup leaves.*1 → (i, v) ∈ leaves → written_leaves leaf leaves i = v.
Proof.
  induction leaves as [|[j w] leaves IH]; intros leaf i v Hnd Hin; [by apply elem_of_nil in Hin|].
  cbn in Hnd. apply NoDup_cons in Hnd as [Hj Hnd]. change (written_leaves (update leaf j w) leaves i = v).
  apply elem_of_cons in Hin as [[= -> ->]|Hin]; [|by apply IH]. rewrite written_leaves_other by done. apply update_eq.
Qed.

Lemma nodes_from_leaves_rep h leaves root ns :
  0 ≤ h ≤ 63 → Forall (λ l, 0 ≤ l.1 < 2 ^ h) leaves → zero_id_merkle_tree_nodes_hash_map_from_leaves h leaves = Ok (root, ns) →
  let leaf := written_leaves (λ _, get_zero_value) leaves in
  root = spec_node h leaf MerkleKey.new_root ∧ ∃ tree, ns = nodes tree ∧ rep tree leaf ∧ height tree = h ∧ keys_in ns.
Proof.
  intros Hh Hl En leaf. destruct (set_leaves_no_proof_rep leaves (λ _, get_zero_value) (MemTree.new h)) as (tree & E & Hrep & Hht & Hk).
  - by apply rep_new.
  - intros k v E. cbn in E. by rewrite lookup_empty in E.
  - done.
  - unfold zero_id_merkle_tree_nodes_hash_map_from_leaves in En. rewrite E in En. cbn [outcome_bind] in En.
    rewrite (get_root_rep _ _ Hrep), Hht in En. cbn [outcome_bind] in En. injection En as <- <-. split; [|by exists tree].
    unfold spec_node. cbn [level index MerkleKey.new_root]. by rewrite Z.sub_0_r.
Qed.
End tree.

(** *** The tree in the table *)
Section table.
Context {Hash : Type} `{EqDecision Hash, MerkleHasher Hash, !ZeroableHash Hash, !MerkleZeroHasher Hash}.
Context `{QPDSerializable Hash, Q256BitHash Hash, !HashLaws Hash, !Hash32 Hash}.

Lemma length_node_vec (n : SimpleMerkleNodeKey * Hash) : Z.of_nat (length (serialize_zero_id_node_to_vec n)) = 41.
Proof. unfold serialize_zero_id_node_to_vec. rewrite !length_app, length_to_le_bytes, length_hash_bytes. done. Qed.

(** Writing the serialized nodes is writing the nodes. *)
Lemma runs_set_ffs table c l s s' :
  Forall (λ n, key_wf n.1) l → s ≡ s' →
  runs (db_set_zero_id_merkle_nodes_from_fast_serialized (Hash := Hash) table c (serialize_zero_id_hash_map_to_vec l)) s tt
    (with_table (to_string table) (insert_all (node_entries (λ k, version_key (ZeroTree table) k c) l)) s').
Proof.
  intros Hl E. eapply runs_bind; [by apply runs_table|]. intros s1 E1. unfold serialize_zero_id_hash_map_to_vec.
  change QMS_FAST_SERIALIZER_ZERO_ID_NODE_SIZE with 41.
  rewrite (proj1 (chunks_rows 41 (serialize_zero_id_node_to_vec <$> l) ltac:(lia) ltac:(apply Forall_fmap, Forall_true; apply length_node_vec))).
  rewrite for_each_fmap. apply (runs_insert_each _ _ (λ n, version_key (ZeroTree table) n.1 c) (λ n, into_owned_32bytes n.2)); [done|].
  intros [k h] t t' Hin Et. rewrite Forall_forall in Hl. apply Hl in Hin as Hk. cbn [fst snd] in *. unfold serialize_zero_id_node_to_vec. cbn [fst snd].
  eapply runs_bind; [apply runs_lift; [|exact Et]|].
  - change (drop 9 ([level k] ++ ?l)) with (drop 8 l). rewrite drop_app_length' by by rewrite length_to_le_bytes.
    rewrite take_ge by (rewrite length_hash_bytes; lia). rewrite hash_of_bytes. unfold unwrap_bytes. by rewrite hash_to_bytes.
  - intros t1 Et1. change (take 1 ([level k] ++ ?l)) with [level k]. change (drop 1 ([level k] ++ ?l)) with l.
    rewrite take_app_length' by by rewrite length_to_le_bytes. rewrite from_to_le_bytes by by apply key_wf_index64.
    replace (from_le_bytes [level k]) with (level k) by (cbn; lia). destruct k. by apply runs_insert.
Qed.

Lemma nodes_ok_empty tr : nodes_ok (Hash := Hash) tr ∅.
Proof. split; [apply shaped_empty|]. intros k b. by rewrite lookup_empty. Qed.

Lemma view_empty tr c k : view (Hash := Hash) tr ∅ c k = zero_node (height_of tr) (level k).
Proof.
  unfold view. pose proof (last_range (version_key tr k 0) (Included (version_key tr k c)) ∅) as Hr.
  destruct (last _) as [[k' b]|]; [|done]. destruct Hr as [Hr _]. by rewrite lookup_empty in Hr.
Qed.

(** Once the nodes of a tree are written at the first checkpoint, every later one sees it. *)
Lemma tree_stored table tree leaf c k :
  rep tree leaf → height tree = tree_height table → keys_in (nodes tree) → is_uint 64 c → key_in tree k →
  view (Hash := Hash) (ZeroTree table) (written (ZeroTree table) 0 (nodes tree) ∅) c k = spec_node (tree_height table) leaf k.
Proof.
  intros [Hok Hrep] Hh Hk Hc Hin. pose proof Hok as [Hht _]. pose proof Hin as [Hwf Hle].
  assert (is_uint 64 0) as H0' by (unfold is_uint; lia).
  rewrite (view_newer _ 0).
  - rewrite view_written by (done || apply nodes_ok_empty). unfold overlay. rewrite view_empty. rewrite <- Hh, <- (Hrep k Hin). unfold nv, zero_node.
    cbn [height_of]. rewrite <- Hh. rewrite wrap_small; [done|]. destruct Hwf as [Hl _]. lia.
  - by apply nodes_ok_written, nodes_ok_empty.
  - eapply newest_frame; [done| |by apply frame_written]. intros k' c' _ _ _. by rewrite lookup_empty.
  - done.
  - done.
  - unfold is_uint in Hc. lia.
  - done.
Qed.
End table.

(** *** Seats *)
Section seats.
Context (to_raw : list Z → option (list Z)) `{Blst} (sha256 : list Z → list Z).
Context {F Hash : Type} `{FieldHash F Hash} `{EqDecision Hash, MerkleHasher Hash, !ZeroableHash Hash, !MerkleZeroHasher Hash} `{Q256BitHash Hash}.

Lemma node_id_from_raw_Ok raw r : node_id_from_raw to_raw raw = Ok r → r = raw.
Proof. intros E. unfold node_id_from_raw in E. by outcome_inv. Qed.

Lemma public_key_from_bytes_Ok b r : public_key_from_bytes b = Ok r → r = b.
Proof. unfold public_key_from_bytes. do 3 (destruct (negb _) || destruct (_ =? 0); try done). by intros [= <-]. Qed.

Lemma from_genesis_validator_Ok chain_id sub v p :
  from_genesis_validator to_raw chain_id sub v = Ok p →
  p = mkPreimage chain_id (gv_realm_id v) sub (gv_validator_user_id v) (gv_node_id v) (gv_bls_public_key v) ∧ sub ≤ 255.
Proof.
  intros E. unfold from_genesis_validator in E. outcome_inv.
  repeat match goal with H : node_id_from_raw _ _ = Ok _ |- _ => apply node_id_from_raw_Ok in H as -> | H : public_key_from_bytes _ = Ok _ |- _ => apply public_key_from_bytes_Ok in H as -> end.
  split; [done|]. lia.
Qed.

(** What holds of the validators seated so far. *)
Record seats (chain_id : Z) (vs : list GenesisValidator) (a : seating (Hash := Hash)) : Prop := {
  seats_preimages : Forall2 (λ v p, from_genesis_validator to_raw chain_id (vp_realm_sub_id p) v = Ok p) vs (se_preimages a);
  seats_leaves : Forall2 (λ p l, tree_index p = Ok l.1 ∧ ∃ h, preimage_leaf_hash to_raw sha256 (Hash := Hash) p = Ok h ∧ from_owned_32bytes h = l.2)
                   (se_preimages a) (se_leaves a);
  seats_count r : 0 ≤ default 0 (se_per_realm a !! r) ≤ 64;
  seats_subs r : vp_realm_sub_id <$> filter (λ p, vp_realm_id p = r) (se_preimages a) = seqZ 1 (default 0 (se_per_realm a !! r));
  seats_indexes : se_indexes a = list_to_set (se_leaves a).*1 ∧ NoDup (se_leaves a).*1;
  seats_users : se_user_ids a = list_to_set (vp_validator_user_id <$> se_preimages a) ∧ NoDup (vp_validator_user_id <$> se_preimages a);
  seats_nodes : se_node_ids a = list_to_set (vp_node_id <$> se_preimages a) ∧ NoDup (vp_node_id <$> se_preimages a);
  seats_keys : se_bls_keys a = list_to_set (vp_bls_public_key <$> se_preimages a) ∧ NoDup (vp_bls_public_key <$> se_preimages a);
}.

Lemma fresh_set {A} `{Countable A} (x : A) (X : gset A) l :
  X = list_to_set l ∧ NoDup l → x ∉ X → {[x]} ∪ X = list_to_set (l ++ [x]) ∧ NoDup (l ++ [x]).
Proof.
  intros [-> Hnd] Hx. split; [set_solver|]. apply NoDup_app. split_and!; [done| |apply NoDup_singleton]. set_solver.
Qed.

Lemma seat_validator_seats chain_id h vs a v a' :
  seats chain_id vs a → seat_validator to_raw sha256 chain_id h a v = Ok a' → seats chain_id (vs ++ [v]) a'.
Proof.
  intros [Hp Hl Hc Hs Hi Hu Hn Hk] E. unfold seat_validator in E. outcome_inv. rewrite bool_decide_eq_true in *. simplify_eq.
  match goal with H : from_genesis_validator _ _ _ _ = Ok _ |- _ => rename H into Eg end.
  pose proof (from_genesis_validator_Ok _ _ _ _ Eg) as [-> Hsub].
  pose proof (Hc (gv_realm_id v)) as Hcv. unfold MAX_VALIDATORS_PER_REALM in *. rewrite wrap_small in * by lia.
  split; cbn [se_preimages se_leaves se_indexes se_user_ids se_node_ids se_bls_keys se_per_realm]; rewrite ?fmap_app; cbn [fmap list_fmap].
  - apply Forall2_app; [done|]. by apply Forall2_cons_2.
  - apply Forall2_app; [done|]. apply Forall2_cons_2; [|done]. split; [done|]. by eexists.
  - intros r. destruct (decide (r = gv_realm_id v)) as [->|]; [rewrite lookup_insert_eq; cbn; lia|rewrite lookup_insert_ne by done; apply Hc].
  - intros r. rewrite filter_app, fmap_app, Hs, filter_cons, filter_nil. cbn [vp_realm_id]. destruct (decide (gv_realm_id v = r)) as [<-|].
    + rewrite lookup_insert_eq. cbn [fmap list_fmap vp_realm_sub_id]. change (default 0 (Some ?x)) with x.
      rewrite seqZ_app by lia. f_equal. change (seqZ ?m 1) with [0 + m]. f_equal. lia.
    + rewrite lookup_insert_ne by done. apply app_nil_r.
  - by apply fresh_set.
  - by apply fresh_set.
  - by apply fresh_set.
  - by apply fresh_set.
Qed.

Lemma seat_validators_seats chain_id h ws : ∀ vs a a',
  seats chain_id vs a → seat_validators to_raw sha256 chain_id h a ws = Ok a' → seats chain_id (vs ++ ws) a'.
Proof.
  induction ws as [|w ws IH]; intros vs a a' Ha E; cbn [seat_validators] in E; [simplify_eq; by rewrite app_nil_r|].
  outcome_inv. change (w :: ws) with ([w] ++ ws). rewrite app_assoc. eapply IH; [|done]. by eapply seat_validator_seats.
Qed.

Lemma seats_none chain_id : seats chain_id [] (mkSeating [] [] ∅ ∅ ∅ ∅ ∅).
Proof. split; try done; try (intros r; rewrite lookup_empty; done); split; (done || apply NoDup_nil_2). Qed.
End seats.

(** *** Rows of preimages *)
Section rows.
Context `{CanonicalSingle ValidatorLeafPreimage, !SingleLaws ValidatorLeafPreimage preimage_wf}.

Definition seat_of (p : ValidatorLeafPreimage) : Z := slot_index (vp_realm_id p) (vp_realm_sub_id p).
Definition preimage_row (p : ValidatorLeafPreimage) : QDatabaseSingleIdTableRow ValidatorLeafPreimage := mkSingleRow (2 ^ 40 + seat_of p) 0 p.

Lemma puts_other {V} (rows : list (QDatabaseSingleIdTableRow V)) : ∀ h k,
  k ∉ (λ r, (single_obj_id r, single_checkpoint_id r)) <$> rows → puts rows h !! k = h !! k.
Proof.
  induction rows as [|r rows IH]; intros h k Hk; [done|]. cbn in Hk. apply not_elem_of_cons in Hk as [Hne Hk].
  change (puts rows (<[(single_obj_id r, single_checkpoint_id r) := single_value r]> h) !! k = h !! k).
  rewrite IH by done. by rewrite lookup_insert_ne.
Qed.

Lemma puts_in {V} (rows : list (QDatabaseSingleIdTableRow V)) : ∀ h r,
  NoDup ((λ r, (single_obj_id r, single_checkpoint_id r)) <$> rows) → r ∈ rows →
  puts rows h !! (single_obj_id r, single_checkpoint_id r) = Some (single_value r).
Proof.
  induction rows as [|r' rows IH]; intros h r Hnd Hin; [by apply elem_of_nil in Hin|].
  cbn in Hnd. apply NoDup_cons in Hnd as [Hr' Hnd].
  change (puts rows (<[(single_obj_id r', single_checkpoint_id r') := single_value r']> h) !! (single_obj_id r, single_checkpoint_id r) = Some (single_value r)).
  apply elem_of_cons in Hin as [->|Hin]; [|by apply IH]. rewrite puts_other by done. apply lookup_insert_eq.
Qed.

Lemma latest_first {V} (f : Z → option V) c : 0 ≤ c → (∀ c', 0 < c' → f c' = None) → latest f c (pair 0 <$> f 0).
Proof.
  intros Hc Hf. destruct (f 0) as [v|] eqn:E; cbn.
  - split_and!; [done|lia|lia|]. intros c' ?. apply Hf. lia.
  - intros c' ?. destruct (decide (c' = 0)) as [->|]; [done|]. apply Hf. lia.
Qed.

Lemma puts_first ps i c : 0 < c → puts (preimage_row <$> ps) ∅ !! (i, c) = None.
Proof.
  intros Hc. rewrite puts_other; [apply lookup_empty|]. rewrite <- list_fmap_compose.
  intros (p & [= _ ->] & _)%list_elem_of_fmap. lia.
Qed.
End rows.

(** *** Programs over the store *)
Lemma runs_call {A B} (e : db A) (f : A → io db B) s a b s1 s' :
  runs e s a s1 → (∀ s2, s2 ≡ s1 → runs (run direct (f a)) s2 b s') → runs (run direct (let+ x := call e in f x)) s b s'.
Proof.
  intros (s2 & E & Es) Hf. destruct (Hf s2 Es) as (s3 & E3 & Es3). exists s3. split; [|done]. cbn. unfold direct at 1. rewrite E. exact E3.
Qed.

Lemma seqZ_filter_range (P : Z → Prop) `{∀ x, Decision (P x)} n :
  0 ≤ n ≤ 255 → (∀ i, 0 ≤ i < 256 → P i ↔ 1 ≤ i ≤ n) → filter P (seqZ 0 256) = seqZ 1 n.
Proof.
  intros Hn HP. replace 256 with (1 + (n + (255 - n))) by lia. rewrite !seqZ_app by lia. rewrite !filter_app.
  assert (∀ l : list Z, (∀ i, i ∈ l → ¬ P i) → filter P l = []) as Hnone.
  { intros l Hl. induction l as [|i l IH]; [done|]. rewrite filter_cons_False by (apply Hl; left). apply IH. intros j Hj. apply Hl. by right. }
  assert (∀ l : list Z, (∀ i, i ∈ l → P i) → filter P l = l) as Hall.
  { intros l Hl. induction l as [|i l IH]; [done|]. rewrite filter_cons_True by (apply Hl; left). f_equal. apply IH. intros j Hj. apply Hl. by right. }
  rewrite (Hnone (seqZ 0 1)), (Hall (seqZ (0 + 1) n)), (Hnone (seqZ (0 + 1 + n) _)), app_nil_r; [done|..];
    intros i Hi%elem_of_seqZ; rewrite HP by lia; lia.
Qed.

(** ** From the configuration to the lookup *)
Section stored.
Context (to_raw : list Z → option (list Z)) `{Blst} (sha256 : list Z → list Z).
Context {F Hash : Type} `{FieldHash F Hash} `{EqDecision Hash, MerkleHasher Hash, !ZeroableHash Hash, !MerkleZeroHasher Hash}.
Context `{QPDSerializable Hash, Q256BitHash Hash, !HashLaws Hash, !Hash32 Hash}.
Context `{CanonicalSingle ValidatorLeafPreimage, !SingleLaws ValidatorLeafPreimage preimage_wf}.
Context (self : ValidatorTables) (Hheight : tree_height (validator_tree_table self) = 20)
  (Hnames : to_string (validator_tree_table self) ≠ to_string (checkpointed_object_table self)).
#[local] Instance reader : PsyNodeValidatorTreeDatabaseReader db (Hash := Hash) := store_reader self.
#[local] Instance writer : PsyNodeValidatorTreeDatabaseWriter db := store_writer (Hash := Hash) self.

Definition preimage_fits (p : ValidatorLeafPreimage) : Prop :=
  preimage_wf p ∧ 0 ≤ vp_realm_id p < 2 ^ 12 ∧ 0 ≤ vp_realm_sub_id p < 256.

Lemma seat_of_range p : preimage_fits p → 0 ≤ seat_of p < 2 ^ 20.
Proof. intros (_ & Hr & Hs). unfold seat_of. rewrite slot_index_add by done. lia. Qed.

Lemma write_preimages_runs ps : ∀ s s', Forall preimage_fits ps → s ≡ s' →
  runs (run direct (write_preimages ps)) s tt
    (with_table (to_string (checkpointed_object_table self)) (insert_all (row_entry <$> (preimage_row <$> ps))) s').
Proof.
  induction ps as [|p ps IH]; intros s s' Hf E.
  { apply runs_ret. rewrite E. symmetry. apply with_table_id. }
  apply Forall_cons in Hf as [Hp Hf]. pose proof (seat_of_range p Hp) as Hseat. pose proof Hp as (Hwf & _ & Hs). cbn [write_preimages].
  unfold tree_index, validator_tree_index. rewrite (proj2 (Z.leb_le (vp_realm_sub_id p) 255)) by lia. cbn [io_bind]. fold (slot_index (vp_realm_id p) (vp_realm_sub_id p)). fold (seat_of p).
  eapply runs_call.
  - cbn [validator_tree_set_leaf_preimage writer store_writer]. eapply runs_bind; [apply runs_lift; [apply preimage_obj_id_ok; lia|exact E]|].
    intros s1 E1. by apply runs_insert_one.
  - intros s1 E1. eapply runs_equiv; [by apply IH|]. by rewrite with_table_compose.
Qed.

Lemma runs_select_zero c k s s' :
  nodes_ok (Hash := Hash) (ZeroTree (validator_tree_table self)) (contents s' (to_string (validator_tree_table self))) → is_uint 64 c → s ≡ s' →
  runs (db_select_zero_id_merkle_node_max_checkpoint (validator_tree_table self) c k) s
    (view (Hash := Hash) (ZeroTree (validator_tree_table self)) (contents s' (to_string (validator_tree_table self))) c k) s'.
Proof.
  intros Hm Hc E. eapply runs_bind; [by apply runs_table|]. intros s1 E1. eapply runs_bind; [apply runs_lift; [|exact E1]|].
  { by rewrite Hheight. }
  intros s2 E2. by apply (runs_entry (ZeroTree (validator_tree_table self))).
Qed.

(** What the two tables hold after the genesis write. *)
Record genesis_stored (s : InMemoryCoreStore) (leaf : Z → Hash) (ps : list ValidatorLeafPreimage) : Prop := {
  stored_nodes : nodes_ok (Hash := Hash) (ZeroTree (validator_tree_table self)) (contents s (to_string (validator_tree_table self)));
  stored_tree c k : is_uint 64 c → key_wf k → level k ≤ 20 →
    view (ZeroTree (validator_tree_table self)) (contents s (to_string (validator_tree_table self))) c k = spec_node 20 leaf k;
  stored_preimages : holds (contents s (to_string (checkpointed_object_table self))) (puts (preimage_row <$> ps) ∅);
}.

Lemma genesis_stored_reads s leaf ps c r :
  genesis_stored s leaf ps → is_uint 64 c → 0 ≤ r < 2 ^ 12 →
  reads_tree direct (λ s', s' ≡ s) c r (spec_node 20 leaf MerkleKey.new_root) leaf (λ i, puts (preimage_row <$> ps) ∅ !! (2 ^ 40 + i, 0)).
Proof.
  intros [Hn Ht Hp] Hc Hr.
  assert (∀ X (e : db X) x, (∀ s1, s1 ≡ s → runs e s1 x s) → answers direct (λ s', s' ≡ s) e x) as Hans.
  { intros X e x He s1 E1. destruct (He s1 E1) as (s2 & E2 & Es2). by exists s2. }
  split.
  - apply Hans. intros s1 E1. cbn [validator_tree_get_root_hash reader store_reader].
    rewrite <- (Ht c MerkleKey.new_root Hc); [by apply runs_select_zero|split; cbn; lia|cbn; lia].
  - apply Hans. intros s1 E1. cbn [validator_tree_get_nodes reader store_reader].
    replace (at_slots leaf r (seqZ 0 256)) with (view (ZeroTree (validator_tree_table self)) (contents s (to_string (validator_tree_table self))) c <$> realm_leaf_keys r).
    { apply runs_mapM; [done|]. intros k s2 _ E2. by apply runs_select_zero. }
    unfold realm_leaf_keys, at_slots. rewrite <- list_fmap_compose. apply list_fmap_ext. intros j i Hi%list_elem_of_lookup_2%elem_of_seqZ. cbn [compose].
    rewrite Ht; [|done|split; cbn [level index]; [lia|rewrite slot_index_add by lia; lia]|cbn; lia]. unfold spec_node. by rewrite Z.sub_diag.
  - intros ids Hids. apply Hans. intros s1 E1. cbn [validator_tree_get_leaf_preimages reader store_reader].
    assert (Forall (λ i, 0 ≤ i < 2 ^ 40) (at_slots id r ids)) as Hr40.
    { unfold at_slots. apply Forall_fmap, Forall_forall. intros i Hi%Hids%elem_of_seqZ. cbn. rewrite slot_index_add by lia. lia. }
    eapply runs_bind; [apply runs_lift; [by apply collect_obj_ids|exact E1]|]. intros s2 E2.
    replace (at_slots _ r ids) with ((λ j, puts (preimage_row <$> ps) ∅ !! (j, 0)) <$> (Z.add (2 ^ 40) <$> at_slots id r ids)).
    2: { unfold at_slots. by rewrite <- !list_fmap_compose. }
    apply runs_mapM; [done|]. intros j s3 Hj E3. apply list_elem_of_fmap in Hj as (i & -> & Hi). rewrite Forall_forall in Hr40. apply Hr40 in Hi.
    destruct (select_latest (checkpointed_object_table self) s3 (puts (preimage_row <$> ps) ∅) (2 ^ 40 + i) c) as (r' & Hr' & Hrun & _); [by rewrite E3|unfold is_uint; lia|done|].
    rewrite (latest_unique _ _ _ _ Hr' (latest_first _ c ltac:(unfold is_uint in Hc; lia) (λ c' H, puts_first ps (2 ^ 40 + i) c' H))) in Hrun.
    eapply runs_equiv; [|exact E3]. by destruct (puts _ _ !! _).
Qed.

(** *** The configuration *)
Definition genesis_fits (v : GenesisValidator) : Prop :=
  0 ≤ gv_realm_id v < 2 ^ 12 ∧ uint_ok 64 (gv_validator_user_id v) ∧ array_ok 38 (gv_node_id v) ∧ array_ok 48 (gv_bls_public_key v).

Lemma seats_sub chain_id vs a p : seats to_raw sha256 chain_id vs a → p ∈ se_preimages a → 1 ≤ vp_realm_sub_id p ≤ 64.
Proof.
  intros Ha Hp. pose proof (seats_subs _ _ _ _ _ Ha (vp_realm_id p)) as Hs. pose proof (seats_count _ _ _ _ _ Ha (vp_realm_id p)) as Hc.
  assert (vp_realm_sub_id p ∈ vp_realm_sub_id <$> filter (λ q, vp_realm_id q = vp_realm_id p) (se_preimages a)) as Hin.
  { apply list_elem_of_fmap. exists p. split; [done|]. by apply list_elem_of_filter. }
  rewrite Hs in Hin. apply elem_of_seqZ in Hin. lia.
Qed.

Lemma seats_fit chain_id vs a :
  seats to_raw sha256 chain_id vs a → uint_ok 64 chain_id → Forall genesis_fits vs → Forall preimage_fits (se_preimages a).
Proof.
  intros Ha Hc Hv. apply Forall_forall. intros p Hp. pose proof (seats_sub _ _ _ _ Ha Hp) as Hsub. pose proof (seats_preimages _ _ _ _ _ Ha) as Hf.
  apply list_elem_of_lookup in Hp as [i Hi]. destruct (Forall2_lookup_r _ _ _ _ _ Hf Hi) as (v & Hvi & Eg).
  rewrite Forall_forall in Hv. destruct (Hv v (list_elem_of_lookup_2 _ _ _ Hvi)) as (Hr & Hu & Hn & Hk).
  apply from_genesis_validator_Ok in Eg as [Ep _]. rewrite Ep in Hsub |- *. cbn in Hsub. unfold preimage_fits, preimage_wf, uint_ok, is_uint in *. cbn.
  split_and!; try done; lia.
Qed.

Lemma seats_leaf chain_id vs a p :
  seats to_raw sha256 chain_id vs a → p ∈ se_preimages a →
  ∃ h, (seat_of p, from_owned_32bytes h) ∈ se_leaves a ∧ preimage_leaf_hash to_raw sha256 (Hash := Hash) p = Ok h.
Proof.
  intros Ha Hp. pose proof (seats_sub _ _ _ _ Ha Hp) as Hsub. apply list_elem_of_lookup in Hp as [i Hi].
  destruct (Forall2_lookup_l _ _ _ _ _ (seats_leaves _ _ _ _ _ Ha) Hi) as ([j l] & Hl & Et & h & Eh & El). cbn in Et, El. subst l.
  unfold tree_index, validator_tree_index in Et. rewrite (proj2 (Z.leb_le _ _)) in Et by lia. injection Et as Et.
  exists h. split; [|done]. apply list_elem_of_lookup. exists i. by rewrite Hl, <- Et.
Qed.

Lemma seats_leaf_seat chain_id vs a i l :
  seats to_raw sha256 chain_id vs a → (i, l) ∈ se_leaves a → ∃ p, p ∈ se_preimages a ∧ i = seat_of p.
Proof.
  intros Ha Hin. apply list_elem_of_lookup in Hin as [j Hj].
  destruct (Forall2_lookup_r _ _ _ _ _ (seats_leaves _ _ _ _ _ Ha) Hj) as (p & Hp & Et & _). exists p.
  split; [by eapply list_elem_of_lookup_2|]. unfold tree_index, validator_tree_index in Et. by destruct (_ <=? _); simplify_eq.
Qed.

Lemma runs_write_nodes l (k : io db unit) s s' :
  Forall (λ n, key_wf n.1) l →
  (∀ s1, s1 ≡ with_table (to_string (validator_tree_table self)) (insert_all (node_entries (λ k, version_key (ZeroTree (validator_tree_table self)) k 0) l)) s →
     runs (run direct k) s1 tt s') →
  runs (run direct (let+ _ := if decide (serialize_zero_id_hash_map_to_vec (Hash := Hash) l = []) then pure tt
                              else call (validator_tree_set_nodes_ffs 0 (serialize_zero_id_hash_map_to_vec l)) in k)) s tt s'.
Proof.
  intros Hl Hk. case_decide as Hn.
  - destruct l as [|n l]; [|done]. cbn [io_bind pure]. apply Hk. symmetry. apply with_table_id.
  - eapply runs_call; [|exact Hk]. by apply runs_set_ffs.
Qed.

Lemma genesis_written walk chain_id vs a root ns :
  (∀ u : gmap SimpleMerkleNodeKey Hash, walk u ≡ₚ map_to_list u) → seats to_raw sha256 chain_id vs a → uint_ok 64 chain_id → Forall genesis_fits vs →
  zero_id_merkle_tree_nodes_hash_map_from_leaves 20 (se_leaves a) = Ok (root, ns) →
  let leaf := written_leaves (λ _, get_zero_value) (se_leaves a) in
  root = spec_node 20 leaf MerkleKey.new_root ∧
  ∃ s, run direct (write_validator_tree_genesis (serialize_zero_id_hash_map_to_vec (walk ns)) (se_preimages a)) CoreStore.new = (Ok tt, s) ∧
    genesis_stored s leaf (se_preimages a).
Proof.
  intros Hwalk Ha Hc Hv En leaf. pose proof (seats_fit _ _ _ Ha Hc Hv) as Hfit.
  destruct (nodes_from_leaves_rep 20 (se_leaves a) root ns) as (-> & tree & -> & Hrep & Hh & Hkeys); [lia| |done|].
  { apply Forall_forall. intros [i l] Hin. destruct (seats_leaf_seat _ _ _ _ _ Ha Hin) as (p & Hp & ->). rewrite Forall_forall in Hfit. by apply seat_of_range, Hfit. }
  split; [done|].
  set (table := validator_tree_table self) in *. set (obj := checkpointed_object_table self) in *.
  set (s1 := with_table (to_string table) (insert_all (node_entries (λ k, version_key (ZeroTree table) k 0) (walk (nodes tree)))) CoreStore.new).
  set (s2 := with_table (to_string obj) (insert_all (row_entry <$> (preimage_row <$> se_preimages a))) s1).
  assert (runs (run direct (write_validator_tree_genesis (serialize_zero_id_hash_map_to_vec (walk (nodes tree))) (se_preimages a))) CoreStore.new tt s2) as (s & Es & Hs).
  { apply runs_write_nodes; [|intros s3 E3; by apply write_preimages_runs]. rewrite Hwalk. apply Forall_forall. intros [k h] Hin%elem_of_map_to_list. by eapply Hkeys. }
  assert (contents s (to_string table) = written (ZeroTree table) 0 (nodes tree) ∅) as Ht.
  { rewrite (proj1 Hs). unfold s2, s1. rewrite contents_with_table_ne by done. rewrite contents_with_table_eq, contents_new.
    apply insert_all_perm; [|unfold node_entries; by rewrite Hwalk]. unfold node_entries. rewrite Hwalk. apply NoDup_version_keys; [done|unfold is_uint; lia]. }
  exists s. split; [done|]. split; fold table obj.
  - rewrite Ht. by apply nodes_ok_written, nodes_ok_empty.
  - intros c k Hc' Hk Hl. rewrite Ht, (tree_stored table tree leaf); [by rewrite Hheight|done|by rewrite Hh|done|done|by split; [|rewrite Hh]].
  - rewrite (proj1 Hs). unfold s2. rewrite contents_with_table_eq. unfold s1. rewrite contents_with_table_ne by done. rewrite contents_new.
    apply holds_puts; [|apply holds_empty]. apply Forall_fmap, Forall_forall. intros p Hp. rewrite Forall_forall in Hfit. pose proof (seat_of_range p (Hfit p Hp)).
    destruct (Hfit p Hp) as [Hwf _]. unfold compose, row_ok, is_uint. cbn [preimage_row single_obj_id single_checkpoint_id single_value]. split_and!; [lia|lia|lia|lia|done].
Qed.

(** *** The validators of one realm *)
Definition leaf_of (p : ValidatorLeafPreimage) : ValidatorLeaf := mkValidatorLeaf (vp_validator_user_id p) (vp_node_id p) (vp_bls_public_key p).

Definition validators_of (qs : list ValidatorLeafPreimage) : RealmValidators :=
  mkRealmValidators (vp_realm_sub_id <$> qs) ((λ p, (vp_realm_sub_id p, vp_bls_public_key p)) <$> qs)
    ((λ p, (vp_realm_sub_id p, vp_validator_user_id p)) <$> qs) ((λ p, (vp_realm_sub_id p, leaf_of p)) <$> qs).

Lemma to_leaf_Ok p l : to_leaf to_raw p = Ok l → l = leaf_of p.
Proof.
  intros E. unfold to_leaf in E. outcome_inv.
  repeat match goal with H : node_id_from_raw _ _ = Ok _ |- _ => apply node_id_from_raw_Ok in H as -> | H : public_key_from_bytes _ = Ok _ |- _ => apply public_key_from_bytes_Ok in H as -> end.
  done.
Qed.

Lemma slot_taken chain_id vs a r i :
  seats to_raw sha256 chain_id vs a → Forall preimage_fits (se_preimages a) → 0 ≤ r < 2 ^ 12 → 0 ≤ i < 256 →
  slot_index r i ∈ (se_leaves a).*1 ↔ i ∈ vp_realm_sub_id <$> filter (λ p, vp_realm_id p = r) (se_preimages a).
Proof.
  intros Ha Hfit Hr Hi. rewrite Forall_forall in Hfit. split.
  - intros ([j l] & Ej & Hin)%list_elem_of_fmap. cbn in Ej. subst j. destruct (seats_leaf_seat _ _ _ _ _ Ha Hin) as (p & Hp & E).
    destruct (Hfit p Hp) as (_ & Hpr & Hps). unfold seat_of in E. rewrite !slot_index_add in E by done.
    apply list_elem_of_fmap. exists p. split; [lia|]. apply list_elem_of_filter. split; [lia|done].
  - intros (p & -> & [<- Hp]%list_elem_of_filter)%list_elem_of_fmap. destruct (seats_leaf _ _ _ _ Ha Hp) as (h & Hin & _).
    apply list_elem_of_fmap. by eexists (_, _).
Qed.

Lemma NoDup_preimage_rows chain_id vs a :
  seats to_raw sha256 chain_id vs a → NoDup ((λ r, (single_obj_id r, single_checkpoint_id r)) <$> (preimage_row <$> se_preimages a)).
Proof.
  intros Ha. pose proof (seats_indexes _ _ _ _ _ Ha) as [_ Hnd].
  assert ((se_leaves a).*1 = seat_of <$> se_preimages a) as E.
  { pose proof (seats_leaves _ _ _ _ _ Ha) as Hl. clear Hnd. induction Hl as [|p l ps ls [Et _] _ IH]; [done|]. cbn [fmap list_fmap]. f_equal; [|apply IH].
    unfold tree_index, validator_tree_index in Et. destruct (_ <=? _); [|done]. by injection Et. }
  rewrite E in Hnd. rewrite <- list_fmap_compose. assert (Inj (=) (=) (λ i, (2 ^ 40 + i, 0))) by (intros i j [= ?]; lia).
  apply (NoDup_fmap_2 (λ i, (2 ^ 40 + i, 0))) in Hnd. by rewrite <- list_fmap_compose in Hnd.
Qed.

Lemma seats_chain chain_id vs a p : seats to_raw sha256 chain_id vs a → p ∈ se_preimages a → vp_chain_id p = chain_id.
Proof.
  intros Ha [i Hi]%list_elem_of_lookup. destruct (Forall2_lookup_r _ _ _ _ _ (seats_preimages _ _ _ _ _ Ha) Hi) as (v & _ & Eg).
  by apply from_genesis_validator_Ok in Eg as [-> _].
Qed.

Lemma seats_roster chain_id vs a r :
  seats to_raw sha256 chain_id vs a → Forall preimage_fits (se_preimages a) → 0 ≤ r < 2 ^ 12 →
  (∀ p h, p ∈ se_preimages a → preimage_leaf_hash to_raw sha256 (Hash := Hash) p = Ok h → from_owned_32bytes h ≠ get_zero_hash (Hash := Hash) 0) →
  roster to_raw sha256 chain_id r (written_leaves (λ _, get_zero_value (Hash := Hash)) (se_leaves a))
    (λ i, puts (preimage_row <$> se_preimages a) ∅ !! (2 ^ 40 + i, 0)) (validators_of (filter (λ p, vp_realm_id p = r) (se_preimages a))).
Proof.
  intros Ha Hfit Hr Hz. pose proof (seats_indexes _ _ _ _ _ Ha) as [_ Hnd]. unfold roster, validators_of. cbn [rv_sub_ids rv_keys rv_user_ids rv_leaves].
  rewrite <- !list_fmap_compose. split_and!; [|done..|].
  - rewrite (seats_subs _ _ _ _ _ Ha r). symmetry. pose proof (seats_count _ _ _ _ _ Ha r). apply seqZ_filter_range; [lia|]. intros i Hi.
    pose proof (slot_taken _ _ _ r i Ha Hfit Hr Hi) as Ht. rewrite (seats_subs _ _ _ _ _ Ha r), elem_of_seqZ in Ht.
    destruct (decide (slot_index r i ∈ (se_leaves a).*1)) as [Hin|Hni].
    + pose proof (proj1 Ht Hin). split; [lia|intros _]. apply (slot_taken _ _ _ r i Ha Hfit Hr Hi) in Hin as (p & -> & [<- Hp]%list_elem_of_filter)%list_elem_of_fmap.
      destruct (seats_leaf _ _ _ _ Ha Hp) as (h & Hin & Eh). rewrite (written_leaves_in _ _ _ _ Hnd Hin). by apply (Hz p).
    + split; [|intros ?; destruct Hni; apply Ht; lia]. rewrite written_leaves_other by done. by rewrite get_zero_hash_0.
  - apply Forall_fmap, Forall_forall. intros p [<- Hp]%list_elem_of_filter. cbn [compose fst snd]. fold (seat_of p).
    destruct (seats_leaf _ _ _ _ Ha Hp) as (h & Hin & Eh). rewrite (written_leaves_in _ _ _ _ Hnd Hin).
    unfold preimage_leaf_hash in Eh. outcome_inv. match goal with H : to_leaf _ _ = Ok _ |- _ => rename H into El; pose proof (to_leaf_Ok _ _ El) as -> end.
    exists p, h. split_and!; try done.
    + apply (puts_in (preimage_row <$> se_preimages a) ∅ (preimage_row p)); [by eapply NoDup_preimage_rows|by apply list_elem_of_fmap_2].
    + by eapply seats_chain.
Qed.

Lemma seats_realm chain_id vs a r :
  seats to_raw sha256 chain_id vs a →
  Forall2 (λ v p, from_genesis_validator to_raw chain_id (vp_realm_sub_id p) v = Ok p) (filter (λ v, gv_realm_id v = r) vs) (filter (λ p, vp_realm_id p = r) (se_preimages a)).
Proof.
  intros Ha. pose proof (seats_preimages _ _ _ _ _ Ha) as Hf. clear Ha. induction Hf as [|v p vs' ps Eg _ IH]; [done|].
  pose proof (from_genesis_validator_Ok _ _ _ _ _ Eg) as [Ep _]. rewrite !filter_cons.
  assert (vp_realm_id p = gv_realm_id v) as Er by by rewrite Ep. do 2 case_decide; try congruence. by constructor.
Qed.

Lemma build_seats walk chain_id validators h g :
  build_validator_tree_genesis to_raw sha256 walk chain_id validators h = Ok g →
  ∃ a ns, seats to_raw sha256 chain_id validators a ∧ zero_id_merkle_tree_nodes_hash_map_from_leaves 20 (se_leaves a) = Ok (vg_root g, ns) ∧
    vg_nodes_ffs g = serialize_zero_id_hash_map_to_vec (walk ns) ∧ vg_preimages g = se_preimages a.
Proof.
  intros E. unfold build_validator_tree_genesis in E. apply outcome_bind_Ok in E as (_ & _ & E). apply outcome_bind_Ok in E as (a & Ea & E).
  apply outcome_bind_Ok in E as ([root ns] & En & [= <-]). exists a, ns. split_and!; try done.
  apply (seat_validators_seats _ _ chain_id h validators [] _ a (seats_none _ _ chain_id) Ea).
Qed.

Lemma fmap_pair_zip {A B} (f : A → B) (g : A → Z) l : (λ x, (g x, f x)) <$> l = zip (g <$> l) (f <$> l).
Proof. induction l as [|x l IH]; [done|]. cbn. by rewrite IH. Qed.

Lemma realm_fields {B} chain_id vs qs (f : GenesisValidator → B) (g : ValidatorLeafPreimage → B) :
  Forall2 (λ v p, from_genesis_validator to_raw chain_id (vp_realm_sub_id p) v = Ok p) vs qs →
  (∀ v sub, g (mkPreimage chain_id (gv_realm_id v) sub (gv_validator_user_id v) (gv_node_id v) (gv_bls_public_key v)) = f v) → g <$> qs = f <$> vs.
Proof.
  intros Hf Hfg. induction Hf as [|v p vs ps E _ IH]; [done|]. cbn [fmap list_fmap]. f_equal; [|apply IH].
  apply from_genesis_validator_Ok in E as [-> _]. apply Hfg.
Qed.

(** C6: a chain starts with the validators of its configuration. If the genesis tree can be
    built then writing it to a new database succeeds, and from then on the lookup of a realm
    at any checkpoint, against the root of the genesis, returns the validators configured for
    the realm: they have the slots 1, 2, ... in the order of the configuration, each with
    its own user, key and node. The realm ids are below 4096, the other numbers fit their
    fields, and no validator leaf hashes to the hash of an empty leaf. *)
Theorem genesis_validators_loaded walk chain_id validators h g :
  (∀ u : gmap SimpleMerkleNodeKey Hash, walk u ≡ₚ map_to_list u) → uint_ok 64 chain_id → Forall genesis_fits validators →
  build_validator_tree_genesis to_raw sha256 walk chain_id validators h = Ok g →
  (∀ p b, p ∈ vg_preimages g → preimage_leaf_hash to_raw sha256 (Hash := Hash) p = Ok b → from_owned_32bytes b ≠ get_zero_hash (Hash := Hash) 0) →
  ∃ s, run direct (write_validator_tree_genesis (vg_nodes_ffs g) (vg_preimages g)) CoreStore.new = (Ok tt, s) ∧
    ∀ checkpoint_id realm_id, is_uint 64 checkpoint_id →
      let here := filter (λ v, gv_realm_id v = realm_id) validators in
      let slots := seqZ 1 (Z.of_nat (length here)) in
      here ≠ [] →
      ∃ v s', run direct (load_realm_validators_from_tree to_raw sha256 chain_id checkpoint_id realm_id (vg_root g)) s = (Ok v, s') ∧ s' ≡ s ∧
        rv_sub_ids v = slots ∧
        rv_user_ids v = zip slots (gv_validator_user_id <$> here) ∧
        rv_keys v = zip slots (gv_bls_public_key <$> here) ∧
        validator_nodes_from_leaves (rv_leaves v) = zip slots (gv_node_id <$> here).
Proof.
  intros Hwalk Hc Hv Eb Hz. destruct (build_seats _ _ _ _ _ Eb) as (a & ns & Ha & En & Ef & Ep). rewrite Ep in Hz.
  pose proof (seats_fit _ _ _ Ha Hc Hv) as Hfit. destruct (genesis_written walk _ _ _ _ _ Hwalk Ha Hc Hv En) as (Eroot & s & Es & Hs).
  exists s. rewrite Ef, Ep. split; [done|]. intros c r Hc' here slots Hne.
  assert (0 ≤ r < 2 ^ 12) as Hr.
  { destruct here as [|v here'] eqn:Eh; [done|]. assert (v ∈ filter (λ v, gv_realm_id v = r) validators) as [<- Hin]%list_elem_of_filter by (fold here; rewrite Eh; left).
    rewrite Forall_forall in Hv. apply (Hv v Hin). }
  destruct (load_roster to_raw sha256 direct (λ s', s' ≡ s) chain_id c r (vg_root g) _ _ _ (genesis_stored_reads _ _ _ c r Hs Hc' Hr) s) as (o & s' & El & Es' & Ho); [done|].
  pose proof (seats_realm _ _ _ r Ha) as Hall. pose proof (seats_subs _ _ _ _ _ Ha r) as Esub. pose proof (seats_count _ _ _ _ _ Ha r) as Hcount.
  fold here in Hall. set (qs := filter (λ p, vp_realm_id p = r) (se_preimages a)) in *.
  assert (Z.of_nat (length here) = default 0 (se_per_realm a !! r)) as Elen.
  { rewrite (Forall2_length _ _ _ Hall), <- (length_fmap vp_realm_sub_id), Esub, length_seqZ. lia. }
  assert (slots = vp_realm_sub_id <$> qs) as Eslots by (unfold slots; by rewrite Esub, Elen).
  assert (o = Ok (validators_of qs)) as ->.
  { apply Ho. split; [done|]. split; [by eapply seats_roster|]. cbn [validators_of rv_sub_ids]. rewrite <- Eslots. unfold slots. rewrite length_seqZ.
    destruct here; [done|]. cbn [length] in *. lia. }
  exists (validators_of qs), s'. split; [done|]. split; [done|]. rewrite Eslots. unfold validators_of, validator_nodes_from_leaves. cbn [rv_sub_ids rv_user_ids rv_keys rv_leaves].
  rewrite <- list_fmap_compose, <- (realm_fields chain_id here qs gv_validator_user_id vp_validator_user_id Hall) by done.
  rewrite <- (realm_fields chain_id here qs gv_bls_public_key vp_bls_public_key Hall), <- (realm_fields chain_id here qs gv_node_id vp_node_id Hall) by done.
  split_and!; [done|apply fmap_pair_zip..].
Qed.

(** No two validators share a user, a node or a key. *)
Lemma genesis_distinct walk chain_id validators h g :
  build_validator_tree_genesis to_raw sha256 walk chain_id validators h = Ok g →
  NoDup (gv_validator_user_id <$> validators) ∧ NoDup (gv_node_id <$> validators) ∧ NoDup (gv_bls_public_key <$> validators).
Proof.
  intros (a & ns & Ha & _)%build_seats. pose proof (seats_preimages _ _ _ _ _ Ha) as Hf.
  rewrite <- (realm_fields chain_id validators _ gv_validator_user_id vp_validator_user_id Hf) by done.
  rewrite <- (realm_fields chain_id validators _ gv_node_id vp_node_id Hf), <- (realm_fields chain_id validators _ gv_bls_public_key vp_bls_public_key Hf) by done.
  split_and!; [apply (seats_users _ _ _ _ _ Ha)|apply (seats_nodes _ _ _ _ _ Ha)|apply (seats_keys _ _ _ _ _ Ha)].
Qed.
End stored.

(** ** Examples *)

(** Three validators, two of them of realm 3. *)
Definition demo_sha256 (b : list Z) : list Z := replicate 32 (foldr Z.add 0 b mod 101).
Definition demo_node_id (n : Z) : list Z := [0; 0x24; 0x08; 0x01; 0x12; 0x20] ++ replicate 32 n.
Definition demo_key (n : Z) : list Z := 128 :: to_le_bytes 47 n.
Definition demo_genesis : list GenesisValidator :=
  [mkGenesisValidator 3 (3 * 2 ^ 20 + 7) (demo_node_id 5) (demo_key 11); mkGenesisValidator 0 9 (demo_node_id 6) (demo_key 12);
   mkGenesisValidator 3 (3 * 2 ^ 20 + 8) (demo_node_id 7) (demo_key 13)].
Definition demo_tables : ValidatorTables := mkValidatorTables (mkTable "validator_tree_table" 20) (mkTable "checkpointed_object_table" 0).

Definition demo_build : outcome (ValidatorTreeGenesis (Hash := gold4)) :=
  build_validator_tree_genesis (H := toy_blst) Some demo_sha256 map_to_list 7 demo_genesis 20.
Definition built (o : outcome (ValidatorTreeGenesis (Hash := gold4))) : ValidatorTreeGenesis (Hash := gold4) :=
  match o with Ok g => g | _ => mkTreeGenesis (example_hash 0) [] [] end.
Definition demo_built : ValidatorTreeGenesis (Hash := gold4) := built demo_build.

#[local] Instance demo_single : CanonicalSingle ValidatorLeafPreimage := fallback_single (H := preimage_io).
#[local] Instance demo_laws : SingleLaws ValidatorLeafPreimage preimage_wf.
Proof. apply fallback_laws, preimage_canonical. Qed.

Lemma demo_fits : Forall genesis_fits demo_genesis.
Proof.
  assert (∀ n, array_ok 48 (demo_key n)) as Hk by (intros n; split; [done|apply Forall_cons_2; [unfold is_byte; lia|apply bytes_to_le_bytes]]).
  assert (∀ n, 0 ≤ n < 256 → array_ok 38 (demo_node_id n)) as Hn.
  { intros n Hn. split; [done|]. apply Forall_app. split; [repeat (apply Forall_cons_2; [unfold is_byte; lia|]); apply Forall_nil_2|by apply Forall_replicate]. }
  repeat apply Forall_cons_2; [..|apply Forall_nil_2]; (split_and!; [cbn; lia|cbn; lia|unfold uint_ok, is_uint; cbn; lia|apply Hn; lia|apply Hk]).
Qed.

Lemma demo_build_ok : demo_build = Ok demo_built.
Proof. vm_compute. reflexivity. Qed.

Lemma demo_nonzero p b :
  p ∈ vg_preimages demo_built → preimage_leaf_hash (H := toy_blst) Some demo_sha256 (Hash := gold4) p = Ok b →
  from_owned_32bytes b ≠ get_zero_hash (Hash := gold4) 0.
Proof.
  intros Hp Hb. assert (forallb (λ p, match preimage_leaf_hash (H := toy_blst) Some demo_sha256 (Hash := gold4) p with
    Ok b => bool_decide (from_owned_32bytes b ≠ get_zero_hash (Hash := gold4) 0) | _ => false end) (vg_preimages demo_built) = true) as Hf by (vm_compute; reflexivity).
  rewrite forallb_forall in Hf. specialize (Hf p (proj1 (list_elem_of_In _ _) Hp)). rewrite Hb in Hf. by apply bool_decide_eq_true in Hf.
Qed.

Lemma genesis_validators_loaded_witness :
  ∃ s, run direct (write_validator_tree_genesis (PsyNodeValidatorTreeDatabaseWriter0 := store_writer (Hash := gold4) demo_tables) (vg_nodes_ffs demo_built) (vg_preimages demo_built)) CoreStore.new = (Ok tt, s) ∧
    ∃ v s', run direct (load_realm_validators_from_tree (H := toy_blst) (E := db) (Hash := gold4) (PsyNodeValidatorTreeDatabaseReader0 := store_reader demo_tables)
              Some demo_sha256 7 5 3 (vg_root demo_built)) s = (Ok v, s') ∧
      rv_user_ids v = [(1, 3 * 2 ^ 20 + 7); (2, 3 * 2 ^ 20 + 8)].
Proof.
  destruct (genesis_validators_loaded (H := toy_blst) Some demo_sha256 (Hash := gold4) demo_tables eq_refl ltac:(done) map_to_list 7 demo_genesis 20 demo_built)
    as (s & Es & Hl).
  - done.
  - done.
  - exact demo_fits.
  - exact demo_build_ok.
  - exact demo_nonzero.
  - exists s. split; [exact Es|]. destruct (Hl 5 3) as (v & s' & Ev & _ & _ & Eu & _); [unfold is_uint; lia|vm_compute; discriminate|].
    exists v, s'. split; [exact Ev|exact Eu].
Defined.

(** A realm that does not fit the tree is not refused: its validators are stored, and the
    root is that of the empty tree. *)
Definition demo_outside : outcome (ValidatorTreeGenesis (Hash := gold4)) :=
  build_validator_tree_genesis (H := toy_blst) Some demo_sha256 map_to_list 7 [mkGenesisValidator 4096 (4096 * 2 ^ 20) (demo_node_id 5) (demo_key 11)] 20.

Lemma outside_realm_uncommitted :
  match demo_outside with Ok g => bool_decide (vg_root g = empty_validator_tree_root) && (length (vg_preimages g) =? 1)%nat | _ => false end = true.
Proof. vm_compute. reflexivity. Qed.
